(* ===== verification/_CoqProject ===== *)
-Q . S2P
Prelude.v
Errors.v
Identity.v
ByteRange.v
RangeSet.v
ContentStorage.v
Journal.v
Eviction.v
CacheWrite.v
Item.v
Action.v
Mutation.v
MutationRunner.v
MutationLog.v
Upload.v
UploadRunner.v
UploadLog.v
Capabilities.v
HydrationWork.v
Hydration.v
HydrationDemo.v
Health.v
RuntimeGraph.v
Text.v
HttpRange.v
DavPath.v
DavTraversal.v
HttpValidators.v
DavMethod.v
DavConditional.v
DavIf.v
DavLock.v
DavMutation.v
DavMutationSpec.v
DavDelete.v
TaskLease.v
TaskSteps.v
TaskDispatch.v
TaskExecution.v
BatchWriter.v
BatchWriterSpec.v
AuthToken.v
AuthRefresh.v
AuthCoordinator.v
FetchWaiters.v
FetchWaitersSpec.v
Lifecycle.v
LifecycleSpec.v
Process.v
Duration.v
Database.v
DatabaseSpec.v
RuntimeLease.v
RuntimeLeaseSpec.v
TaskRuntime.v
Schedule.v
ScheduleSpec.v
LinuxNode.v
LinuxNamespace.v
LinuxEngine.v
LinuxWriteback.v
LinuxOverlaySpec.v
LinuxWritebackSpec.v
