(* ===== verification/Prelude.v ===== *)
(** * AsterForge: a verification of its core crates

    AsterForge is a workspace of Rust crates shared by the Aster services.
    This development models the crates that carry its own logic: first
    [src/crates/aster_forge_cloud_files/core/src/], the runtime-neutral core
    of a cloud file provider (file names without a directory are relative to
    it) with the callback bookkeeping of its Windows adapter and the engines
    of its Linux adapter, then the process runtime ([aster_forge_runtime]), the database crate it leases
    from ([aster_forge_db]), the session tokens ([aster_forge_auth]), the
    WebDAV protocol core ([aster_forge_webdav]), the helpers they use
    ([aster_forge_utils]) and the background tasks ([aster_forge_tasks]).

    ** The program

    A product supplies a metadata and content backend, a durable store and a
    platform adapter.  The core defines the values they exchange and the
    protocols between them.  Identities and revisions are opaque
    ([identity.rs], [revision.rs], [cursor.rs], [local_content.rs]); items
    and change pages have validated shapes ([item.rs], [change.rs]).  A read
    is bound to a revision and its response is validated ([backend.rs]).
    What the local copy of one item revision holds, and what protects it, is
    a [ContentStorageEntry]; evictions, cache writes, uploads and mutations
    are carried by durable records ([content_storage.rs], [cache_write.rs],
    [upload.rs], [mutation.rs]) that a store persists ([store.rs]); the two
    runners drive a record through store and backend until it is complete,
    pending or fenced by a newer session.  Hydration shares backend reads
    between concurrent waiters ([hydration.rs]).  Capability descriptions of
    the boundaries are intersected before any of it runs
    ([capabilities.rs]).  On Windows a fetch callback of the system waits in
    the hydration coordinator until completion, cancellation or its watchdog
    ends it.  On Linux an engine serves the calls of the kernel from one
    mutex-protected state: handles, directory snapshots, the dirty snapshot
    of each written file, and an overlay of local and remote changes over the
    namespace of the backend; the product's stores make writes and namespace
    changes durable before they are acknowledged.

    A service assembles its components into a process: it starts their phases
    in order, checks their dependency graph, runs the service until it ends or
    a signal arrives, shuts the components down in dependency order and runs
    their health checks.  Singleton workers run only under a lease in a shared
    database table; transactions on that database are retried when they are
    known not to have taken effect; records for sinks are buffered and written
    in batches.  Sessions are pairs of signed tokens, and a refresh token is
    exchanged once.  A WebDAV request is parsed into a path under the mount, a
    method and protocol headers; its [If] header and HTTP conditions are
    evaluated, lock tokens are enforced before a mutation, directories are
    read page by page from the product, and a range header is resolved against
    the representation.  A background task is claimed for a lane under a
    lease, executed while a heartbeat renews that lease, and completed by one
    fenced write to the product's storage.  A scheduled task has a row in a
    shared catalogue: a runner claims its due firing, runs the body while the
    claim is renewed, and completes the claim by moving the due time.

    ** The files

    - [Prelude]: results, machine integers, bytes, sorted traversal, tactics
      and hints.  [Action]: effectful calls and their [wp].
    - [Errors] ([error.rs], [backend_error.rs], the errors of [store.rs]) and
      [Identity]: values without behaviour beyond their validation.
    - [ByteRange] ([backend.rs]): ranges, reads, responses.
    - [RangeSet]: [ContentRangeSet], refined to the set of its bytes.
    - [ContentStorage]: [ContentStorageEntry], one function per [&mut self]
      method, returning the result and the entry it leaves.
    - [Journal]: the contract that every durable record instantiates (a class
      of operations and a class of laws); crash recovery is proved from it.
      [Eviction], [CacheWrite], [Mutation] and [Upload] hold the records.
    - [Item] ([item.rs], [change.rs]).
    - [MutationRunner], [UploadRunner]: the async drivers over classes of
      ports, with the contracts that the port documentation states as classes
      of laws.  [MutationLog], [UploadLog]: event-sourced implementations of
      the ports that meet the contracts; the source has none outside its
      tests.
    - [Capabilities] ([capabilities.rs]).
    - [HydrationWork], [Hydration] ([hydration.rs]): the coordinator's table
      and the waiters; [HydrationDemo] runs a session.
    - [Health], [RuntimeGraph] ([aster_forge_runtime/src]: [health.rs]; and
      [component.rs], [startup.rs], [shutdown.rs]): health scopes and
      reports; registration, startup, graph validation and shutdown.
    - [Text]: the string operations of the Rust standard library that the
      parsers use, over lists of Unicode scalar values.
    - [HttpRange], [HttpValidators] ([aster_forge_utils/src]:
      [http_range.rs], [http_validators.rs]).
    - [DavPath] ([aster_forge_webdav/src/path.rs] and the errors of
      [backend.rs]), [DavTraversal] ([traversal.rs]), [DavMethod] (the method
      sets of [request.rs]), [DavConditional] ([conditional.rs]), [DavIf]
      ([protocol.rs] and the request head of [request.rs]), [DavLock] (the
      enforcement part of [lock.rs]).
    - [DavMutation] ([mutation.rs]): the recursive COPY, MOVE and DELETE
      executor; [DavMutationSpec] relates it to a recursive reference and
      [DavDelete] gives its product a contract on the namespace.
    - [TaskLease] ([aster_forge_tasks/src]: [lease.rs], [error.rs],
      [retry.rs], one heartbeat of [heartbeat.rs]), [TaskSteps] ([steps.rs]),
      [TaskDispatch] ([dispatch.rs]), [TaskExecution] ([execution.rs]).
    - [BatchWriter] ([aster_forge_runtime/src/buffered.rs]): the queue of
      records and its worker, one function per critical section;
      [BatchWriterSpec] interleaves them.
    - [AuthToken] ([aster_forge_auth/src]: [jwt.rs], [ids.rs], [error.rs],
      [time.rs]), [AuthRefresh] ([refresh.rs]), [AuthCoordinator]
      ([coordinator.rs]): tokens, their rotation, and the table of locks that
      serializes the rotations of one token.
    - [FetchWaiters], [FetchWaitersSpec] ([../../windows/src]:
      [waiter_registry.rs], [watchdog.rs], [progress.rs], gate and ranges of
      [connection.rs]).
    - [Lifecycle], [LifecycleSpec] ([aster_forge_runtime/src]:
      [lifecycle.rs], the coordinator of [shutdown.rs]).
    - [Process]: trees of events, their interleaving, concurrent parts of one
      process, and the rely-guarantee rules for both.  [Duration] ([std::time::Duration],
      [aster_forge_utils/src/backoff.rs]).
    - [Database], [DatabaseSpec] ([aster_forge_db/src]: [lib.rs], [retry.rs],
      [transaction.rs]); [RuntimeLease], [RuntimeLeaseSpec]
      ([runtime_lease.rs] there and [aster_forge_runtime/src/lease.rs]).
    - [TaskRuntime] ([aster_forge_tasks/src/runtime.rs]): delays, dispatch
      backoff and worker loops; [Schedule], [ScheduleSpec] ([schedule.rs] there
      and [aster_forge_db/src/scheduled_task.rs]): the runner of scheduled
      tasks, its renewals and its store.
    - [LinuxNode], [LinuxNamespace] ([../../linux/src]: [inode.rs],
      [error.rs], [namespace.rs], [remote.rs] and the values of [engine.rs]
      and [writeback.rs]); [LinuxEngine] ([engine.rs]) and [LinuxWriteback]
      ([writeback.rs]): the read-only and the writable engine, each method a
      process whose events are calls of the product and critical sections;
      [LinuxOverlaySpec]: what the mount shows; [LinuxWritebackSpec]: all the
      calls together.

    ** Correspondence

    A method [T::f] is the definition [T_f]; a struct is a record with its
    fields, an enum an inductive type with its constructors (prefixed where
    two enums share a name).  [Result] is [result], [?] is the bind of its
    monad, and [From] conversions are [map_err] or [with_error].  [u64],
    [u32] and 64-bit [usize] are [Z] with range invariants; [checked_*],
    [saturating_*], [+] and [-] are the width-aware operations of this file.
    A [&mut self] method is a function to its result and next state, so what
    an error path leaves behind is explicit.  A trait the product implements
    is a type class over an abstract world; its documented promises are laws,
    never axioms.  Where calls of several threads or processes interleave
    inside an operation, the operation is a sequence of atomic sections or a
    tree of [Process].  A [HashMap] is a [gmap], a [BTreeSet] a [gset]
    iterated in its order.  Debug output, accessors (record projections) and
    ownership have no counterpart.

    ** What is proved

    - C1: range insertion is set union, with its error and no-change cases.
    - C3-C6: lease accounting, the eviction reservation, its protocol under
      any interleaved calls, and that a dirty snapshot is never lost.
    - C7: the eviction journal under any sequence of calls, replays included.
    - C10, C12, C13: the mutation record; every mutation run ends, with a true
      result and at most one apply and one reconcile; an undisturbed run
      equals a reference function.
    - C14, C16, C17: the upload record; every upload run ends and its calls
      are well ordered; an undisturbed run, resumed from any accepted offset,
      delivers exactly the bytes of the snapshot.
    - C20, C21, C23: hydration: limits, reference counts and index in every
      reachable interleaving; no byte is read twice; exactly the requested
      bytes.
    - C22: whatever the product answers and however calls interleave, a write,
      truncation or sync that the writable mount acknowledged was committed
      by the store and stays covered by the dirty state, reads return what the
      store answered for the handle's session, handles are unique, dirty
      generations only advance.
    - C36: a lookup answers what the namespace store accepted - the created or
      renamed item, or nothing after a removal - and, where there is no local
      entry, what the remote changes say; every other name is left alone.  A
      removed name that the overlay of remote changes still has is outside of
      it: see [OverlayDemo.removed_still_visible].
    - C9: the Windows callbacks: registry, gates and coordinator agree in
      every reachable interleaving.
    - C24, C26, C27: the run of a process; graph validation accepts exactly
      the acyclic graphs with all dependencies present; shutdown order.
    - C18, C19: a lease has one holder at a time, for supervisors with skewed
      clocks over a store whose statements may fail either way; a supervisor
      told to stop stops.
    - C29: scheduled tasks: one execution for each claim, one completion for
      each firing, and no two runners inside a body unless a claim has run
      out, for skewed clocks and statements that may fail either way.
    - C8: a retried transaction takes effect exactly once.
    - C2, C25: the batch writer loses, reorders and repeats no record; what a
      flush promises.
    - C11, C15, C31, C33: a refresh token is exchanged at most once; the
      contract of one exchange, with the exact reason of each refusal of a
      spent or expired identity; the exchanges of one token are serialized and
      their locks do not leak; tokens round-trip through the verifier.
    - C28: range headers round-trip.
    - C30, C32: request paths are refused exactly for an encoded separator, an
      encoding or a way out of the mount, and resolve to the names no [..]
      takes away; directory entries arrive
      strictly ordered, without a cursor loop, whatever the product returns.
    - C34, C35, C37: HTTP conditions equal the table of RFC 9110, with the
      error of the first condition that cannot be evaluated; the [If]
      header round-trips and its parser ends; a mutation passes only with the
      tokens of its conflicting locks.
    - C38, C39: the iterative executor of recursive mutations equals a
      recursion on the tree; a recursive DELETE keeps the namespace a tree
      whatever happens.
    - C40: the counters and reports of a task execution are those of the one
      transition it made durable.

    Beside the numbered properties there are lemmas of the same standing:
    a waiter has one terminal outcome and one release ([Hydration]), a Windows
    callback is ended exactly once ([FetchWaitersSpec]), the delays of workers
    are bounded, double while idle and start over on activity, and a worker
    told to stop ends within its iteration ([TaskRuntime]), the
    evaluation of an [If] header is the disjunction of its groups ([DavIf]),
    a restored inode table maps keys and inodes one to one ([LinuxNode]), the
    activation of a mount leaves an engine that may serve
    ([LinuxWritebackSpec]); alignments combine to their least common multiple and capability
    negotiation is a meet ([Capabilities]), the cache-write journal
    ([CacheWrite]), the queries of a range set ([RangeSet]), the contracts of
    items, intents and uploads ([Item], [Mutation], [Upload]), startup and
    health reports ([RuntimeGraph], [Health]), parent and child paths
    ([DavPath]), method sets ([DavMethod]); a terminated lease guard never
    allows another write ([TaskLease]), a lane gets no invalid, duplicate or
    excess claim ([TaskDispatch]), a step transition touches one step
    ([TaskSteps]).

    ** Bounds and fuel

    The loops of the source that are not structural take fuel, and a theorem
    says how much is enough: 129 turns for the Euclidean loop on [u64]
    ([Capabilities]), 6 turns for a mutation run (C12), [size + 7] for an
    upload run (C16), more than [max_retries] for a retry loop (C8); more
    changes nothing.  The graph walks of [RuntimeGraph] take one more than the
    number of components, and the parsers of [HttpValidators] and [DavIf] one
    more than the length of their text; that neither runs out is proved with
    their contracts (C26, C27, C35, [parse_etag_list_total]).  A recursive
    mutation takes at most four iterations for each resource it may visit and
    three more (C38).  A lease supervisor runs until it is told to stop; the
    number of turns is a parameter of its tree, and it performs at most ten
    events once it is told (C19).  A runner of scheduled tasks, its
    renewal worker and the other worker loops have as many turns as their
    fuel, and what holds of them holds for any fuel (C29).  A directory of the
    Linux engine is read page
    by page until the product has no continuation; the loop has as many turns
    as its fuel, and a process that needs more stops there and never answers,
    so that what holds of answers holds for any fuel (C22).  [waiter_count] saturates at [usize::MAX],
    so the system of [Hydration] has fewer live waiters than that, and
    coordinator limits are below it.  The sequence numbers of the batch writer
    are [u64] and fewer than [2^64] records are admitted (C2).

    ** Not modelled

    Adapters and backends (the rest of the platform crates: kernel requests,
    worker threads, I/O), the durable
    stores behind the traits of [store.rs] and its recovery pages and
    change-cursor checkpoints, [Debug] and [Display] output, poisoned mutexes,
    a dropped coordinator (its waiters release nothing), and the polling of
    futures: a shared future is the read it performs, [try_join_all] and
    [select] are their results.  In a terminal race of [Hydration] the
    [compare_exchange] and the sending of the cancellation signal are one
    step.  Logging is left out everywhere.  An [f64] is the rational it
    stands for, rounded to 53 bits ([Duration]).  Of the database crate the
    connections, migrations and entities are left out; SQL statements are
    atomic steps on their table.  Of WebDAV, the XML bodies and the
    composition of responses are left out; percent-encoding, URIs, entity
    tags, HTTP dates and JWT signatures belong to third-party crates, which
    are parameters.  Of the tasks, the lane consumer and the
    timer loops around the lease guard are left out, and so are the joining and
    aborting of a worker group: a runner of scheduled tasks that is aborted is
    one that never moves again, and a later runner under the same owner id is
    not part of the system.  The other crates of the
    workspace wrap caches, HTTP frameworks and cryptographic libraries and are
    not modelled. *)

From Stdlib Require Export ZArith Lia.
From Stdlib Require Import Init.Byte.
From stdpp Require Export base tactics list sorting gmap strings numbers.

#[global] Open Scope Z_scope.
#[export] Set Warnings "-clear-no-such-hyp".

(** ** Fallible results

    [Result<T, E>] of the source, with the error type first so that
    [result E] is a monad in stdpp's sense and [x ← m; k] is the [?]
    operator. *)
Inductive result (E A : Type) : Type :=
  | Ok (a : A)
  | Err (e : E).
Arguments Ok {E A} a.
Arguments Err {E A} e.

#[export] Instance result_eq_dec `{EqDecision E, EqDecision A} :
  EqDecision (result E A).
Proof. solve_decision. Defined.

#[export] Instance result_ret {E} : MRet (result E) := λ A a, Ok a.
#[export] Instance result_bind {E} : MBind (result E) := λ A B f m,
  match m with Ok a => f a | Err e => Err e end.
#[export] Instance result_fmap {E} : FMap (result E) := λ A B f m,
  match m with Ok a => Ok (f a) | Err e => Err e end.

(** [Option::ok_or_else]. *)
Definition ok_or {E A} (o : option A) (e : E) : result E A :=
  match o with Some a => Ok a | None => Err e end.

(** [Result::map_err], which the [?] operator applies with [From]. *)
Definition map_err {E F A} (f : E → F) (m : result E A) : result F A :=
  match m with Ok a => Ok a | Err e => Err (f e) end.

Lemma result_bind_ok {E A B} (m : result E A) (f : A → result E B) b :
  m ≫= f = Ok b ↔ ∃ a, m = Ok a ∧ f a = Ok b.
Proof. destruct m; cbn; split; [eauto|intros (?&[= <-]&?); done|done|intros (?&[=]&?)]. Qed.

Lemma result_bind_err {E A B} (m : result E A) (f : A → result E B) e :
  m ≫= f = Err e ↔ m = Err e ∨ ∃ a, m = Ok a ∧ f a = Err e.
Proof.
  destruct m as [a|e']; cbn; split.
  - eauto.
  - intros [[=]|(?&[= <-]&?)]; done.
  - intros [= ->]; auto.
  - intros [[= ->]|(?&[=]&?)]; done.
Qed.

Lemma ok_or_ok {E A} (o : option A) (e : E) a :
  ok_or o e = Ok a ↔ o = Some a.
Proof. destruct o; cbn; split; congruence. Qed.

Lemma map_err_ok {E F A} (f : E → F) (m : result E A) a :
  map_err f m = Ok a ↔ m = Ok a.
Proof. destruct m; cbn; split; congruence. Qed.

(** Closes propositional goals over equations and linear arithmetic. *)
Ltac crush :=
  repeat match goal with
  | H : _ ∧ _ |- _ => destruct H
  | H : ∃ _, _ |- _ => destruct H
  | H : Ok _ = Ok _ |- _ => injection H as H
  | H : Err _ = Err _ |- _ => injection H as H
  | H : Some _ = Some _ |- _ => injection H as H
  | H : (_, _) = (_, _) |- _ => injection H as H
  | H : Ok _ = Err _ |- _ => discriminate H
  | H : Err _ = Ok _ |- _ => discriminate H
  | H : Some _ = None |- _ => discriminate H
  | H : None = Some _ |- _ => discriminate H
  | H : _ ∨ _ |- _ => destruct H
  | H : ¬ (_ ∨ _) |- _ => apply Decidable.not_or in H
  | H : ¬ ¬ (_ = _) |- _ => apply dec_stable in H
  | |- _ ∧ _ => split
  | |- _ ↔ _ => split
  | |- _ → _ => intro
  end; try done; try congruence; try lia.

(** The development's hints: facts that close side conditions. *)
Create HintDb forge discriminated.

(** ** Machine integers

    A [u64], [u32] or [usize] is a [Z] with its range as an invariant; every
    operation of the source that depends on the width is written out.
    [usize] is the 64-bit one of the supported targets. *)
Definition U64_MAX : Z := 2 ^ 64 - 1.
Definition U32_MAX : Z := 2 ^ 32 - 1.
Definition USIZE_MAX : Z := U64_MAX.

Definition I64_MAX : Z := 2 ^ 63 - 1.
#[global] Arguments I64_MAX : simpl never.

Definition in_u64 (z : Z) : Prop := 0 ≤ z ≤ U64_MAX.
Definition in_i64 (z : Z) : Prop := - (I64_MAX + 1) ≤ z ≤ I64_MAX.
Definition in_u32 (z : Z) : Prop := 0 ≤ z ≤ U32_MAX.

(** Plain [+] and [-]: two's-complement wrap-around at 64 bits. *)
Definition u64_add (a b : Z) : Z := (a + b) mod 2 ^ 64.
Definition u64_sub (a b : Z) : Z := (a - b) mod 2 ^ 64.

(** [checked_add], [checked_sub] and [checked_mul] for the width whose
    largest value is [max]. *)
Definition checked_add (max a b : Z) : option Z :=
  if decide (a + b ≤ max) then Some (a + b) else None.
Definition checked_sub (a b : Z) : option Z :=
  if decide (b ≤ a) then Some (a - b) else None.
Definition checked_mul (max a b : Z) : option Z :=
  if decide (a * b ≤ max) then Some (a * b) else None.

Definition saturating_add (max a b : Z) : Z := Z.min max (a + b).
Definition saturating_sub (a b : Z) : Z := Z.max 0 (a - b).

#[export] Instance in_u64_dec z : Decision (in_u64 z).
Proof. unfold in_u64. apply _. Defined.

#[global] Arguments U64_MAX : simpl never.
#[global] Arguments u64_add : simpl never.
#[global] Arguments u64_sub : simpl never.
#[global] Arguments U32_MAX : simpl never.
#[global] Arguments USIZE_MAX : simpl never.

Lemma U64_MAX_eq : U64_MAX = 18446744073709551615.
Proof. reflexivity. Qed.
Lemma U32_MAX_eq : U32_MAX = 4294967295.
Proof. reflexivity. Qed.

(** Arithmetic with the widths unfolded to their numerals. *)
Ltac width :=
  unfold in_u64, in_u32, USIZE_MAX, saturating_add, saturating_sub in *;
  rewrite ?U64_MAX_eq, ?U32_MAX_eq in *; try lia.

Lemma u64_add_exact a b : in_u64 a → 0 ≤ b → a + b ≤ U64_MAX → u64_add a b = a + b.
Proof. intros. unfold u64_add. apply Z.mod_small. width. Qed.

Lemma u64_sub_exact a b : in_u64 a → 0 ≤ b ≤ a → u64_sub a b = a - b.
Proof. intros. unfold u64_sub. apply Z.mod_small. width. Qed.

Lemma checked_add_spec max a b c :
  checked_add max a b = Some c ↔ a + b ≤ max ∧ c = a + b.
Proof. unfold checked_add. case_decide; split; intros; simplify_eq; intuition (congruence || lia). Qed.

Lemma checked_add_none max a b : checked_add max a b = None ↔ max < a + b.
Proof. unfold checked_add. case_decide; split; intros; (done || lia). Qed.

Lemma checked_sub_spec a b c :
  checked_sub a b = Some c ↔ b ≤ a ∧ c = a - b.
Proof. unfold checked_sub. case_decide; split; intros; simplify_eq; intuition (congruence || lia). Qed.

Lemma checked_sub_none a b : checked_sub a b = None ↔ a < b.
Proof. unfold checked_sub. case_decide; split; intros; (done || lia). Qed.

(** A decidable property holds on a whole interval or fails at a point of it. *)
Lemma interval_search (P : Z → Prop) `{∀ z, Decision (P z)} first last :
  (∀ z, first ≤ z < last → P z) ∨ ∃ z, first ≤ z < last ∧ ¬ P z.
Proof.
  remember (Z.to_nat (last - first)) as n eqn:Hn. revert first Hn.
  induction n as [|n IH]; intros first Hn; [left; lia|].
  destruct (decide (P first)) as [HP|HP]; [|right; exists first; split; [lia|done]].
  destruct (IH (first + 1)) as [Hall|(z & ? & ?)]; [lia| |right; exists z; split; [lia|done]].
  left. intros z ?. destruct (decide (z = first)) as [->|]; [done|]. apply Hall. lia.
Qed.

(** ** Bytes *)
Abbreviation byte := Init.Byte.byte.

#[export] Instance byte_eq_dec : EqDecision byte := Byte.byte_eq_dec.
#[export] Program Instance byte_countable : Countable byte :=
  inj_countable Byte.to_N Byte.of_N _.
Next Obligation. intros x. apply Byte.of_to_N. Qed.

(** [bytes.len() as u64]. *)
Definition byte_count (bs : list byte) : Z := Z.of_nat (length bs).

(** [bytes.slice(start..end)], for bounds inside the buffer. *)
Definition byte_slice (bs : list byte) (first last : Z) : list byte :=
  take (Z.to_nat (last - first)) (drop (Z.to_nat first) bs).

Lemma byte_count_nonneg bs : 0 ≤ byte_count bs.
Proof. unfold byte_count. lia. Qed.

Lemma byte_count_app bs1 bs2 :
  byte_count (bs1 ++ bs2) = byte_count bs1 + byte_count bs2.
Proof. unfold byte_count. rewrite length_app. lia. Qed.

Lemma byte_slice_count bs first last :
  0 ≤ first ≤ last → last ≤ byte_count bs →
  byte_count (byte_slice bs first last) = last - first.
Proof.
  unfold byte_count, byte_slice. intros. rewrite length_take, length_drop. lia.
Qed.

Lemma byte_slice_full bs : byte_slice bs 0 (byte_count bs) = bs.
Proof.
  unfold byte_slice, byte_count. cbn. rewrite take_ge; [done|].
  rewrite drop_0. lia.
Qed.

Lemma byte_slice_empty bs k : byte_slice bs k k = [].
Proof. unfold byte_slice. by rewrite Z.sub_diag. Qed.

Lemma lookup_byte_slice bs first last i :
  byte_slice bs first last !! i =
  if decide (i < Z.to_nat (last - first))%nat
  then bs !! (Z.to_nat first + i)%nat else None.
Proof.
  unfold byte_slice. case_decide.
  - by rewrite lookup_take_lt, lookup_drop by lia.
  - by rewrite lookup_take_ge by lia.
Qed.

(** Adjacent slices glue together. *)
Lemma byte_slice_app bs a b c :
  0 ≤ a ≤ b → b ≤ c → b ≤ byte_count bs →
  byte_slice bs a b ++ byte_slice bs b c = byte_slice bs a c.
Proof.
  intros Hab Hbc Hb. apply list_eq. intros i. unfold byte_count in *.
  assert (Hlen : length (byte_slice bs a b) = Z.to_nat (b - a)).
  { unfold byte_slice. rewrite length_take, length_drop. lia. }
  rewrite lookup_app. destruct (byte_slice bs a b !! i) as [x|] eqn:Hx.
  - rewrite lookup_byte_slice in Hx |- *.
    repeat case_decide; try done; lia.
  - apply lookup_ge_None in Hx. rewrite Hlen in *.
    rewrite !lookup_byte_slice.
    repeat case_decide; try lia; [|done]. f_equal. lia.
Qed.

(** A slice of a slice. *)
Lemma byte_slice_slice bs a b c d :
  0 ≤ a → 0 ≤ c ≤ d → a + d ≤ b →
  byte_slice (byte_slice bs a b) c d = byte_slice bs (a + c) (a + d).
Proof.
  intros. apply list_eq. intros i. rewrite !lookup_byte_slice.
  repeat case_decide; try lia; [|done]. f_equal. lia.
Qed.

(** ** Searching sorted vectors

    [slice::partition_point]: the number of leading elements on which the
    predicate holds.  The standard library requires the slice to be
    partitioned by the predicate; [partitioned] is that requirement, and the
    clients prove it at each call. *)
Fixpoint partition_point {A} (p : A → bool) (l : list A) : nat :=
  match l with
  | [] => 0
  | x :: l => if p x then S (partition_point p l) else 0
  end.

Definition partitioned {A} (p : A → bool) (l : list A) : Prop :=
  ∃ l1 l2, l = l1 ++ l2 ∧ Forall (λ x, p x = true) l1 ∧ Forall (λ x, p x = false) l2.

Lemma partition_point_split {A} (p : A → bool) (l : list A) :
  Forall (λ x, p x = true) (take (partition_point p l) l) ∧
  match drop (partition_point p l) l with [] => True | x :: _ => p x = false end.
Proof.
  induction l as [|x l [IH1 IH2]]; cbn; [done|].
  destruct (p x) eqn:Hx; cbn; auto.
Qed.

Lemma partition_point_app {A} (p : A → bool) (l1 l2 : list A) :
  Forall (λ x, p x = true) l1 → Forall (λ x, p x = false) l2 →
  partition_point p (l1 ++ l2) = length l1.
Proof.
  intros H1 H2. induction H1 as [|x l1 Hx H1 IH]; cbn.
  - destruct H2 as [|x l2 Hx]; cbn; by rewrite ?Hx.
  - by rewrite Hx, IH.
Qed.

Lemma partitioned_split {A} (p : A → bool) (l : list A) :
  partitioned p l →
  Forall (λ x, p x = true) (take (partition_point p l) l) ∧
  Forall (λ x, p x = false) (drop (partition_point p l) l).
Proof.
  intros (l1 & l2 & -> & H1 & H2).
  rewrite partition_point_app by done. by rewrite take_app_length, drop_app_length.
Qed.

(** ** Ordered traversal

    [sort_by_key] and the iteration of a [BTreeSet]: a stable insertion sort
    by a boolean order, with the order and the elements it leaves. *)
Fixpoint insert_by {A} (leb : A → A → bool) (x : A) (l : list A) : list A :=
  match l with
  | [] => [x]
  | y :: l => if leb x y then x :: y :: l else y :: insert_by leb x l
  end.

Definition sort_by {A} (leb : A → A → bool) (l : list A) : list A :=
  foldr (insert_by leb) [] l.

(** [Iterator::take_while]. *)
Fixpoint take_while {A} (p : A → bool) (l : list A) : list A :=
  match l with
  | [] => []
  | x :: l => if p x then x :: take_while p l else []
  end.

Section sort_by.
Context {A : Type} (leb : A → A → bool) (R : relation A) `{!Transitive R}.
Hypothesis leb_true : ∀ x y, leb x y = true → R x y.
Hypothesis leb_false : ∀ x y, leb x y = false → R y x.

Lemma insert_by_perm x l : insert_by leb x l ≡ₚ x :: l.
Proof.
  induction l as [|y l IH]; cbn; [done|]. destruct (leb x y); [done|].
  rewrite IH. constructor.
Qed.

Lemma sort_by_perm l : sort_by leb l ≡ₚ l.
Proof. induction l as [|x l IH]; cbn; [done|]. by rewrite insert_by_perm, IH. Qed.

Lemma elem_of_sort_by x l : x ∈ sort_by leb l ↔ x ∈ l.
Proof. by rewrite sort_by_perm. Qed.

Lemma insert_by_sorted x l :
  StronglySorted R l → StronglySorted R (insert_by leb x l).
Proof.
  induction 1 as [|y l Hl IH Hy]; cbn; [repeat constructor|].
  destruct (leb x y) eqn:Hxy.
  - constructor; [by constructor|]. constructor; [auto|].
    eapply Forall_impl; [|exact Hy]. intros z Hz. etrans; [|exact Hz]. auto.
  - constructor; [done|]. rewrite insert_by_perm. constructor; auto.
Qed.

Lemma sort_by_sorted l : StronglySorted R (sort_by leb l).
Proof. induction l; cbn; [constructor|]. by apply insert_by_sorted. Qed.

(** On a sorted list, [take_while] of a predicate that smaller elements
    inherit keeps everything the predicate holds of. *)
Lemma elem_of_take_while (p : A → bool) x l :
  StronglySorted R l → (∀ y z, R y z → p z = true → p y = true) →
  x ∈ take_while p l ↔ x ∈ l ∧ p x = true.
Proof.
  intros Hl Hp. induction Hl as [|y l Hl IH Hy]; cbn; [rewrite elem_of_nil; tauto|].
  destruct (p y) eqn:Hpy; rewrite !elem_of_cons.
  - rewrite IH. clear -Hpy. split; [|tauto]. intros [->|[? ?]]; auto.
  - rewrite elem_of_nil. split; [tauto|]. intros [[->|Hx] Hpx]; [congruence|].
    rewrite list.Forall_forall in Hy. apply Hy, Hp in Hx; congruence.
Qed.
End sort_by.

#[export] Hint Resolve byte_count_nonneg : forge.
