(* ===== verification/Errors.v ===== *)
(** * Error values of the cloud-files core

    [error.rs] (validation failures of core values and records),
    [backend_error.rs] (failures a backend adapter reports) and the error
    part of [store.rs] (failures a durable store reports).  Reasons are the
    literals of the source, so a theorem about an error path says which
    check fired. *)
From S2P Require Export Prelude.

(** ** [error.rs] *)
Inductive CloudFilesCoreError : Type :=
  | EmptyValue (field : string)
  | NativeIdentityTooLarge (actual_bytes max_bytes : Z)
  | AlignmentIntersectionOverflow (left right : Z)
  | MissingRequiredCapability (capability : string)
  | InvalidItemShape (reason : string)
  | InvalidByteRange (reason : string)
  | InvalidContentResponse (reason : string)
  | InvalidMutationIntent (reason : string)
  | InvalidMutationTransition (reason : string)
  | InvalidSessionGeneration
  | InvalidLocalContentGeneration
  | InvalidContentStorageState (reason : string)
  | InvalidContentEvictionTransition (reason : string)
  | InvalidContentCacheWriteTransition (reason : string)
  | InvalidContentUploadTransition (reason : string).

#[export] Instance CloudFilesCoreError_eq_dec : EqDecision CloudFilesCoreError.
Proof. solve_decision. Defined.

Abbreviation core_result := (result CloudFilesCoreError).

(** ** [backend_error.rs] *)
Inductive CloudBackendErrorKind : Type :=
  | BackendNotFound
  | AuthenticationRequired
  | PermissionDenied
  | BackendConflict
  | PreconditionFailedKind
  | InvalidRequest
  | RateLimited
  | TemporarilyUnavailable
  | Unsupported
  | InvalidResponse
  | Internal.

#[export] Instance CloudBackendErrorKind_eq_dec : EqDecision CloudBackendErrorKind.
Proof. solve_decision. Defined.

(** A [Duration] is a count of nanoseconds. *)
Inductive RetryAdvice : Type :=
  | RetryNever
  | RetryWithBackoff
  | RetryAfter (delay : Z).

#[export] Instance RetryAdvice_eq_dec : EqDecision RetryAdvice.
Proof. solve_decision. Defined.

Record CloudBackendError : Type := mk_CloudBackendError {
  backend_error_kind : CloudBackendErrorKind;
  backend_error_retry : RetryAdvice;
}.

#[export] Instance CloudBackendError_eq_dec : EqDecision CloudBackendError.
Proof. solve_decision. Defined.

Definition CloudBackendError_new (kind : CloudBackendErrorKind) : CloudBackendError :=
  mk_CloudBackendError kind RetryNever.

Definition CloudBackendError_retryable (kind : CloudBackendErrorKind) : CloudBackendError :=
  mk_CloudBackendError kind RetryWithBackoff.

Definition CloudBackendError_retry_after
    (kind : CloudBackendErrorKind) (delay : Z) : CloudBackendError :=
  mk_CloudBackendError kind (RetryAfter delay).

Definition CloudBackendError_is_retryable (e : CloudBackendError) : bool :=
  match backend_error_retry e with RetryNever => false | _ => true end.

Abbreviation backend_result := (result CloudBackendError).

(** ** Store failures of [store.rs] *)
Inductive CloudFilesStoreErrorKind : Type :=
  | StoreNotFound
  | StoreConflict
  | StoreInvalidTransition
  | StorePersistenceFailure.

#[export] Instance CloudFilesStoreErrorKind_eq_dec : EqDecision CloudFilesStoreErrorKind.
Proof. solve_decision. Defined.

Record CloudFilesStoreError : Type := CloudFilesStoreError_new {
  store_error_kind : CloudFilesStoreErrorKind;
  store_error_context : string;
}.

#[export] Instance CloudFilesStoreError_eq_dec : EqDecision CloudFilesStoreError.
Proof. solve_decision. Defined.

Abbreviation store_result := (result CloudFilesStoreError).

(** Outcome of an idempotent store write. *)
Inductive StoreWriteStatus : Type :=
  | WriteApplied
  | WriteAlreadyApplied
  | WriteFenced.

#[export] Instance StoreWriteStatus_eq_dec : EqDecision StoreWriteStatus.
Proof. solve_decision. Defined.
