(* ===== verification/Identity.v ===== *)
(** * Identities, revisions, cursors, digests and snapshots

    [identity.rs], [revision.rs], [cursor.rs], [local_content.rs], and the
    opaque identity wrappers declared by [mutation.rs], [content_storage.rs],
    [cache_write.rs], [upload.rs] and [store.rs].  The source generates most
    of them with macros over a type name and an error label; here one record
    [Opaque] is indexed by the type's tag, and [opaque_field] is the label. *)
From S2P Require Export Errors.

Inductive opaque_kind : Type :=
  (* string_identity! of identity.rs *)
  | KCloudNamespaceId | KCloudRootId | KCloudItemId
  (* opaque_string! of mutation.rs *)
  | KOperationId | KIdempotencyKey | KPlatformRequestCorrelation
  | KRemoteReconciliationKey
  (* opaque_revision! of revision.rs *)
  | KMetadataRevision | KContentRevision
  (* opaque_cursor! of cursor.rs *)
  | KPageCursor | KChangeCursor | KDirectoryCookie
  (* wrappers written out by hand *)
  | KContentDigestAlgorithm | KLocalContentReference | KContentLeaseId
  | KContentEvictionOperationId | KContentCacheWriteOperationId
  | KContentUploadSessionId | KChangeBatchId.

#[export] Instance opaque_kind_eq_dec : EqDecision opaque_kind.
Proof. solve_decision. Defined.

(** The label of the [EmptyValue] error of each type. *)
Definition opaque_field (k : opaque_kind) : string :=
  match k with
  | KCloudNamespaceId => "cloud namespace id"
  | KCloudRootId => "cloud root id"
  | KCloudItemId => "cloud item id"
  | KOperationId => "operation id"
  | KIdempotencyKey => "idempotency key"
  | KPlatformRequestCorrelation => "platform request correlation"
  | KRemoteReconciliationKey => "remote reconciliation key"
  | KMetadataRevision => "metadata revision"
  | KContentRevision => "content revision"
  | KPageCursor => "page cursor"
  | KChangeCursor => "change cursor"
  | KDirectoryCookie => "directory cookie"
  | KContentDigestAlgorithm => "content digest algorithm"
  | KLocalContentReference => "local content reference"
  | KContentLeaseId => "content lease id"
  | KContentEvictionOperationId => "content eviction operation id"
  | KContentCacheWriteOperationId => "content cache write operation id"
  | KContentUploadSessionId => "content upload session id"
  | KChangeBatchId => "change batch id"
  end.

Record Opaque (k : opaque_kind) (A : Type) : Type := mk_opaque { opaque_value : A }.
Arguments mk_opaque {k A} opaque_value.
Arguments opaque_value {k A} o.

#[export] Instance Opaque_eq_dec {k} `{EqDecision A} : EqDecision (Opaque k A).
Proof. solve_decision. Defined.
#[export] Program Instance Opaque_countable {k} `{Countable A} : Countable (Opaque k A) :=
  inj_countable' opaque_value mk_opaque _.
Next Obligation. by intros k A ? ? []. Qed.

(** [new] of the three macros and of the hand-written wrappers: the value is
    kept exactly, the empty one is refused. *)
Definition string_identity_new (k : opaque_kind) (value : string)
    : core_result (Opaque k string) :=
  if decide (value = "") then Err (EmptyValue (opaque_field k)) else Ok (mk_opaque value).

Definition opaque_string_new (k : opaque_kind) (value : string)
    : core_result (Opaque k string) :=
  if decide (value = "") then Err (EmptyValue (opaque_field k)) else Ok (mk_opaque value).

Definition opaque_revision_new (k : opaque_kind) (value : list byte)
    : core_result (Opaque k (list byte)) :=
  if decide (value = []) then Err (EmptyValue (opaque_field k)) else Ok (mk_opaque value).

Definition opaque_cursor_new (k : opaque_kind) (value : list byte)
    : core_result (Opaque k (list byte)) :=
  if decide (value = []) then Err (EmptyValue (opaque_field k)) else Ok (mk_opaque value).

Abbreviation CloudNamespaceId := (Opaque KCloudNamespaceId string).
Abbreviation CloudRootId := (Opaque KCloudRootId string).
Abbreviation CloudItemId := (Opaque KCloudItemId string).
Abbreviation OperationId := (Opaque KOperationId string).
Abbreviation IdempotencyKey := (Opaque KIdempotencyKey string).
Abbreviation PlatformRequestCorrelation := (Opaque KPlatformRequestCorrelation string).
Abbreviation RemoteReconciliationKey := (Opaque KRemoteReconciliationKey string).
Abbreviation MetadataRevision := (Opaque KMetadataRevision (list byte)).
Abbreviation ContentRevision := (Opaque KContentRevision (list byte)).
Abbreviation PageCursor := (Opaque KPageCursor (list byte)).
Abbreviation ChangeCursor := (Opaque KChangeCursor (list byte)).
Abbreviation ContentDigestAlgorithm := (Opaque KContentDigestAlgorithm string).
Abbreviation LocalContentReference := (Opaque KLocalContentReference string).
Abbreviation ContentLeaseId := (Opaque KContentLeaseId string).
Abbreviation ContentEvictionOperationId := (Opaque KContentEvictionOperationId string).
Abbreviation ContentCacheWriteOperationId := (Opaque KContentCacheWriteOperationId string).
Abbreviation ContentUploadSessionId := (Opaque KContentUploadSessionId string).
Abbreviation ChangeBatchId := (Opaque KChangeBatchId string).

(** ** [identity.rs]: scopes and item keys *)
Record CloudScope : Type := CloudScope_new {
  scope_namespace_id : CloudNamespaceId;
  scope_root_id : CloudRootId;
}.

#[export] Instance CloudScope_eq_dec : EqDecision CloudScope.
Proof. solve_decision. Defined.
#[export] Program Instance CloudScope_countable : Countable CloudScope :=
  inj_countable' (λ s, (scope_namespace_id s, scope_root_id s))
    (λ p, CloudScope_new p.1 p.2) _.
Next Obligation. by intros []. Qed.

Record CloudItemKey : Type := CloudItemKey_new {
  item_key_scope : CloudScope;
  item_key_item_id : CloudItemId;
}.

#[export] Instance CloudItemKey_eq_dec : EqDecision CloudItemKey.
Proof. solve_decision. Defined.
#[export] Program Instance CloudItemKey_countable : Countable CloudItemKey :=
  inj_countable' (λ s, (item_key_scope s, item_key_item_id s))
    (λ p, CloudItemKey_new p.1 p.2) _.
Next Obligation. by intros []. Qed.

(** ** [revision.rs]: content digests *)
Record ContentDigest : Type := mk_ContentDigest {
  digest_algorithm : ContentDigestAlgorithm;
  digest_value : list byte;
}.

#[export] Instance ContentDigest_eq_dec : EqDecision ContentDigest.
Proof. solve_decision. Defined.

Definition ContentDigest_new (algorithm : ContentDigestAlgorithm) (value : list byte)
    : core_result ContentDigest :=
  if decide (value = []) then Err (EmptyValue "content digest value")
  else Ok (mk_ContentDigest algorithm value).

(** ** Generations: [NonZeroU64] fences ordered by their value *)
Record SessionGeneration : Type := mk_SessionGeneration { session_generation_get : Z }.
Record LocalContentGeneration : Type := mk_LocalContentGeneration { local_generation_get : Z }.

#[export] Instance SessionGeneration_eq_dec : EqDecision SessionGeneration.
Proof. solve_decision. Defined.
#[export] Program Instance SessionGeneration_countable : Countable SessionGeneration :=
  inj_countable' session_generation_get mk_SessionGeneration _.
Next Obligation. by intros []. Qed.
#[export] Instance LocalContentGeneration_eq_dec : EqDecision LocalContentGeneration.
Proof. solve_decision. Defined.

Definition SessionGeneration_new (value : Z) : core_result SessionGeneration :=
  if decide (value = 0) then Err InvalidSessionGeneration
  else Ok (mk_SessionGeneration value).

Definition LocalContentGeneration_new (value : Z) : core_result LocalContentGeneration :=
  if decide (value = 0) then Err InvalidLocalContentGeneration
  else Ok (mk_LocalContentGeneration value).

(** ** [local_content.rs]: immutable local snapshots *)
Record LocalContentSnapshot : Type := LocalContentSnapshot_new {
  snapshot_item_key : CloudItemKey;
  snapshot_generation : LocalContentGeneration;
  snapshot_reference : LocalContentReference;
  snapshot_size : Z;
  snapshot_digest : option ContentDigest;
}.

#[export] Instance LocalContentSnapshot_eq_dec : EqDecision LocalContentSnapshot.
Proof. solve_decision. Defined.

(** ** Revision-bound cache keys of [content_storage.rs] *)
Record ContentCacheKey : Type := ContentCacheKey_new {
  cache_key_item_key : CloudItemKey;
  cache_key_revision : ContentRevision;
}.

#[export] Instance ContentCacheKey_eq_dec : EqDecision ContentCacheKey.
Proof. solve_decision. Defined.
#[export] Program Instance ContentCacheKey_countable : Countable ContentCacheKey :=
  inj_countable' (λ s, (cache_key_item_key s, cache_key_revision s))
    (λ p, ContentCacheKey_new p.1 p.2) _.
Next Obligation. by intros []. Qed.
