(* ===== verification/ByteRange.v ===== *)
(** * Byte ranges and revision-bound reads

    [backend.rs]: half-open byte ranges with their overflow check, read
    requests, read responses and the validation of a response against the
    request it answers. *)
From S2P Require Export Identity.

(** ** [ByteRange]: the non-empty range [offset, offset + length) *)
Record ByteRange : Type := mk_ByteRange {
  range_offset : Z;
  range_length : Z;
}.

#[export] Instance ByteRange_eq_dec : EqDecision ByteRange.
Proof. solve_decision. Defined.

Definition ByteRange_new (offset length : Z) : core_result ByteRange :=
  if decide (length = 0) then
    Err (InvalidByteRange "range length must be greater than zero")
  else match checked_add U64_MAX offset length with
  | None => Err (InvalidByteRange "range end exceeds u64")
  | Some _ => Ok (mk_ByteRange offset length)
  end.

Definition ByteRange_end_exclusive (r : ByteRange) : Z :=
  u64_add (range_offset r) (range_length r).

#[global] Arguments ByteRange_end_exclusive : simpl never.

Definition ByteRange_covering (self other : ByteRange) : ByteRange :=
  let '(first, last) :=
    if decide (range_offset self ≤ range_offset other)
    then (self, Z.max (ByteRange_end_exclusive self) (ByteRange_end_exclusive other))
    else (other, Z.max (ByteRange_end_exclusive self) (ByteRange_end_exclusive other)) in
  let extension := u64_sub last (ByteRange_end_exclusive first) in
  mk_ByteRange (range_offset first)
    (saturating_add U64_MAX (range_length first) extension).

(** What the private constructor guarantees of every range in the program. *)
Definition ByteRange_wf (r : ByteRange) : Prop :=
  0 ≤ range_offset r ∧ 0 < range_length r ∧ range_offset r + range_length r ≤ U64_MAX.

#[export] Instance ByteRange_wf_dec r : Decision (ByteRange_wf r).
Proof. unfold ByteRange_wf. apply _. Defined.

(** The bytes of a range. *)
#[export] Instance ByteRange_elem_of : ElemOf Z ByteRange := λ b r,
  range_offset r ≤ b < range_offset r + range_length r.

Lemma elem_of_ByteRange (b : Z) (r : ByteRange) :
  b ∈ r ↔ range_offset r ≤ b < range_offset r + range_length r.
Proof. done. Qed.

Lemma ByteRange_new_ok offset length r :
  in_u64 offset → in_u64 length →
  ByteRange_new offset length = Ok r →
  r = mk_ByteRange offset length ∧ ByteRange_wf r.
Proof.
  intros Ho Hl H. unfold ByteRange_new in H.
  case_decide; [done|]. destruct (checked_add _ _ _) eqn:Hc; simplify_eq.
  apply checked_add_spec in Hc as [? ->]. split; [done|].
  unfold ByteRange_wf; cbn. width.
Qed.

Lemma ByteRange_end_wf r :
  ByteRange_wf r → ByteRange_end_exclusive r = range_offset r + range_length r.
Proof. intros (?&?&?). apply u64_add_exact; width. Qed.

Lemma ByteRange_covering_wf r1 r2 :
  ByteRange_wf r1 → ByteRange_wf r2 →
  ByteRange_wf (ByteRange_covering r1 r2) ∧
  range_offset (ByteRange_covering r1 r2) =
    Z.min (range_offset r1) (range_offset r2) ∧
  range_offset (ByteRange_covering r1 r2) + range_length (ByteRange_covering r1 r2) =
    Z.max (range_offset r1 + range_length r1) (range_offset r2 + range_length r2).
Proof.
  intros H1 H2. unfold ByteRange_covering.
  rewrite !ByteRange_end_wf by done.
  destruct H1 as (?&?&?), H2 as (?&?&?).
  case_decide; rewrite ByteRange_end_wf by done;
    rewrite u64_sub_exact by width; unfold ByteRange_wf; cbn; width.
Qed.

(** ** Reads bound to one content revision *)
Inductive ContentReadRange : Type :=
  | ReadWhole
  | ReadRange (range : ByteRange).

#[export] Instance ContentReadRange_eq_dec : EqDecision ContentReadRange.
Proof. solve_decision. Defined.

Record ContentReadRequest : Type := mk_ContentReadRequest {
  request_key : CloudItemKey;
  request_revision : ContentRevision;
  request_expected_size : Z;
  request_range : ContentReadRange;
}.

#[export] Instance ContentReadRequest_eq_dec : EqDecision ContentReadRequest.
Proof. solve_decision. Defined.

Definition ContentReadRequest_whole (key : CloudItemKey) (revision : ContentRevision)
    (expected_size : Z) : ContentReadRequest :=
  mk_ContentReadRequest key revision expected_size ReadWhole.

Definition ContentReadRequest_range (key : CloudItemKey) (revision : ContentRevision)
    (expected_size : Z) (range : ByteRange) : ContentReadRequest :=
  mk_ContentReadRequest key revision expected_size (ReadRange range).

Record ContentReadResponse : Type := mk_ContentReadResponse {
  response_revision : ContentRevision;
  response_offset : Z;
  response_bytes : list byte;
  response_byte_len : Z;
  response_total_size : Z;
}.

#[export] Instance ContentReadResponse_eq_dec : EqDecision ContentReadResponse.
Proof. solve_decision. Defined.

Definition ContentReadResponse_new (revision : ContentRevision) (offset : Z)
    (bytes : list byte) (total_size : Z) : core_result ContentReadResponse :=
  let byte_len := byte_count bytes in
  match checked_add U64_MAX offset byte_len with
  | None => Err (InvalidContentResponse "response byte range exceeds u64")
  | Some end_ =>
      if decide (offset > total_size ∨ end_ > total_size) then
        Err (InvalidContentResponse "response bytes exceed the logical file size")
      else Ok (mk_ContentReadResponse revision offset bytes byte_len total_size)
  end.

Definition ContentReadResponse_is_complete_file (r : ContentReadResponse) : bool :=
  bool_decide (response_offset r = 0) &&
  bool_decide (response_byte_len r = response_total_size r).

Definition ContentReadRequest_validate_response
    (self : ContentReadRequest) (response : ContentReadResponse) : core_result unit :=
  if decide (response_revision response ≠ request_revision self) then
    Err (InvalidContentResponse
      "response revision does not match the requested revision")
  else if decide (response_total_size response ≠ request_expected_size self) then
    Err (InvalidContentResponse
      "response size does not match metadata for the requested revision")
  else match request_range self with
  | ReadWhole =>
      if decide (response_offset response ≠ 0 ∨
                 response_byte_len response ≠ response_total_size response ∨
                 ContentReadResponse_is_complete_file response = false) then
        Err (InvalidContentResponse
          "whole-file response does not contain the complete file")
      else Ok tt
  | ReadRange range =>
      if decide (response_offset response ≠ range_offset range) then
        Err (InvalidContentResponse "range response starts at a different offset")
      else
        let expected_len :=
          if decide (range_offset range >= response_total_size response) then 0
          else Z.min (range_length range)
                 (saturating_sub (response_total_size response) (range_offset range)) in
        if decide (response_byte_len response ≠ expected_len) then
          Err (InvalidContentResponse
            "range response length does not match the requested extent")
        else Ok tt
  end.

(** What the private constructor guarantees of every response. *)
Definition ContentReadResponse_wf (r : ContentReadResponse) : Prop :=
  response_byte_len r = byte_count (response_bytes r) ∧
  0 ≤ response_offset r ∧
  response_offset r + response_byte_len r ≤ response_total_size r ∧
  response_total_size r ≤ U64_MAX.

(** The logical extent [first, last) a request asks for, cut at the end of
    the file. *)
Definition request_extent (q : ContentReadRequest) : Z * Z :=
  match request_range q with
  | ReadWhole => (0, request_expected_size q)
  | ReadRange r =>
      (range_offset r,
       Z.max (range_offset r)
         (Z.min (range_offset r + range_length r) (request_expected_size q)))
  end.

Lemma ContentReadResponse_new_ok revision offset bytes total r :
  in_u64 offset → in_u64 total →
  ContentReadResponse_new revision offset bytes total = Ok r →
  ContentReadResponse_wf r ∧ response_revision r = revision ∧
  response_offset r = offset ∧ response_bytes r = bytes ∧ response_total_size r = total.
Proof.
  intros ? ? H. unfold ContentReadResponse_new in H.
  destruct (checked_add _ _ _) as [e|] eqn:Hc; [|done].
  apply checked_add_spec in Hc as [? ->]. case_decide; simplify_eq.
  unfold ContentReadResponse_wf; cbn. width. repeat split; try done; lia.
Qed.

Lemma ContentReadResponse_new_succeeds revision offset bytes total :
  0 ≤ offset → total ≤ U64_MAX → offset + byte_count bytes ≤ total →
  ContentReadResponse_new revision offset bytes total =
  Ok (mk_ContentReadResponse revision offset bytes (byte_count bytes) total).
Proof.
  intros. pose proof (byte_count_nonneg bytes). unfold ContentReadResponse_new.
  destruct (checked_add _ _ _) as [e|] eqn:Hc.
  - apply checked_add_spec in Hc as [? ->]. case_decide; [lia|done].
  - apply checked_add_none in Hc. lia.
Qed.

(** A response is accepted exactly when it carries the requested revision
    and size and its bytes are the requested extent. *)
Lemma validate_response_iff q r :
  ContentReadResponse_wf r → in_u64 (request_expected_size q) →
  match request_range q with ReadWhole => True | ReadRange rg => ByteRange_wf rg end →
  ContentReadRequest_validate_response q r = Ok tt ↔
  response_revision r = request_revision q ∧
  response_total_size r = request_expected_size q ∧
  response_offset r = (request_extent q).1 ∧
  response_offset r + byte_count (response_bytes r) = (request_extent q).2.
Proof.
  intros (Hlen & H0 & Hle & Hmax) Hsz Hrg.
  unfold ContentReadRequest_validate_response, request_extent,
    ContentReadResponse_is_complete_file.
  destruct (request_range q) as [|rg]; cbn.
  - repeat case_decide; width; repeat case_bool_decide; cbn in *; crush.
  - destruct Hrg as (?&?&?). repeat case_decide; width; crush.
Qed.
