(* ===== verification/RangeSet.v ===== *)
(** * Sparse provider-cache coverage

    [ContentRangeSet] of [content_storage.rs]: the normalised vector of
    disjoint, non-adjacent byte ranges that records which bytes of a file the
    provider cache holds.  The vector is refined to the set of its bytes:
    [insert] is set union, [covers] is inclusion, [is_complete] is equality
    with the whole file, and the representation of a set is unique. *)
From S2P Require Export ByteRange.

(** ** The code *)
Record ContentRangeSet : Type := mk_ContentRangeSet { ranges : list ByteRange }.

#[export] Instance ContentRangeSet_eq_dec : EqDecision ContentRangeSet.
Proof. solve_decision. Defined.

Definition MAX_RANGES : Z := 8192.

Definition ContentRangeSet_new : ContentRangeSet := mk_ContentRangeSet [].

Definition ContentRangeSet_covers (self : ContentRangeSet) (range : ByteRange) : bool :=
  let index :=
    partition_point
      (λ existing, bool_decide (ByteRange_end_exclusive existing ≤ range_offset range))
      (ranges self) in
  match ranges self !! index with
  | Some existing =>
      bool_decide (range_offset existing ≤ range_offset range) &&
      bool_decide (ByteRange_end_exclusive range ≤ ByteRange_end_exclusive existing)
  | None => false
  end.

Definition ContentRangeSet_insert (range : ByteRange) (total_size : Z)
    (self : ContentRangeSet) : core_result bool * ContentRangeSet :=
  if decide (ByteRange_end_exclusive range > total_size) then
    (Err (InvalidContentStorageState "cached range exceeds the content size"), self)
  else if ContentRangeSet_covers self range then (Ok false, self)
  else
    let first_merged :=
      partition_point
        (λ existing, bool_decide (ByteRange_end_exclusive existing < range_offset range))
        (ranges self) in
    let next_unmerged :=
      (first_merged +
       partition_point
         (λ existing, bool_decide (range_offset existing ≤ ByteRange_end_exclusive range)%Z)
         (drop first_merged (ranges self)))%nat in
    let merged_ranges := take (next_unmerged - first_merged) (drop first_merged (ranges self)) in
    let combined := foldl ByteRange_covering range merged_ranges in
    let merged :=
      take first_merged (ranges self) ++ [combined] ++ drop next_unmerged (ranges self) in
    if decide (Z.of_nat (length merged) > MAX_RANGES) then
      (Err (InvalidContentStorageState
         "provider cache range fragmentation exceeds the supported limit"), self)
    else (Ok true, mk_ContentRangeSet merged).

Definition ContentRangeSet_is_complete (self : ContentRangeSet) (total_size : Z) : bool :=
  if decide (total_size = 0) then true
  else match ranges self with
  | [range] =>
      bool_decide (range_offset range = 0) &&
      bool_decide (ByteRange_end_exclusive range = total_size)
  | _ => false
  end.

Definition ContentRangeSet_clear (self : ContentRangeSet) : ContentRangeSet :=
  mk_ContentRangeSet [].

(** ** The bytes of a range vector and its normal form *)
#[export] Instance ContentRangeSet_elem_of : ElemOf Z ContentRangeSet := λ b s,
  Exists (λ r, b ∈ r) (ranges s).

Definition range_end (r : ByteRange) : Z := range_offset r + range_length r.

(** [r1] ends before [r2] starts, with a gap between them. *)
Definition range_before (r1 r2 : ByteRange) : Prop := range_end r1 < range_offset r2.

Definition ranges_wf (l : list ByteRange) : Prop :=
  Forall ByteRange_wf l ∧ StronglySorted range_before l.

Definition RangeSet_wf (total_size : Z) (s : ContentRangeSet) : Prop :=
  ranges_wf (ranges s) ∧ Forall (λ r, range_end r ≤ total_size) (ranges s).

Lemma elem_of_RangeSet (b : Z) s : b ∈ s ↔ Exists (λ r, b ∈ r) (ranges s).
Proof. done. Qed.

Lemma ranges_wf_cons r l :
  ranges_wf (r :: l) ↔ ByteRange_wf r ∧ Forall (range_before r) l ∧ ranges_wf l.
Proof.
  unfold ranges_wf. rewrite list.Forall_cons, StronglySorted_cons. tauto.
Qed.

Lemma ranges_wf_app l1 l2 :
  ranges_wf (l1 ++ l2) ↔
  ranges_wf l1 ∧ ranges_wf l2 ∧ ∀ r1 r2, r1 ∈ l1 → r2 ∈ l2 → range_before r1 r2.
Proof.
  unfold ranges_wf. rewrite Forall_app, StronglySorted_app. split.
  - intros ((?&?)&?&?&?). auto.
  - intros ((?&?)&(?&?)&?). auto.
Qed.

Lemma range_before_bytes r1 r2 b1 b2 :
  range_before r1 r2 → b1 ∈ r1 → b2 ∈ r2 → b1 < b2.
Proof. unfold range_before, range_end. rewrite !elem_of_ByteRange. lia. Qed.

(** Every byte after a sorted head is strictly past the head's end. *)
Lemma Exists_after r l b :
  Forall (range_before r) l → Exists (λ r, b ∈ r) l → range_end r < b.
Proof.
  intros Hall Hex. apply Exists_exists in Hex as (r' & Hin & Hb).
  rewrite Forall_forall in Hall. specialize (Hall r' Hin).
  unfold range_before in Hall. rewrite elem_of_ByteRange in Hb. lia.
Qed.

(** ** [covers] is inclusion *)
Lemma covers_search l o e :
  ranges_wf l → o < e →
  match l !! partition_point (λ x, bool_decide (range_end x ≤ o)) l with
  | Some x => range_offset x ≤ o ∧ e ≤ range_end x
  | None => False
  end ↔ ∀ b, o ≤ b < e → Exists (λ r, b ∈ r) l.
Proof.
  intros Hwf Hoe. induction l as [|x l IH]; cbn.
  { split; [done|]. intros H. specialize (H o). rewrite Exists_nil in H. lia. }
  apply ranges_wf_cons in Hwf as (Hx & Hbefore & Hwf).
  case_bool_decide as Hend; cbn.
  - rewrite IH by done. split; intros H b Hb.
    + constructor 2. by apply H.
    + specialize (H b Hb). apply Exists_cons in H as [H|H]; [|done].
      rewrite elem_of_ByteRange in H. unfold range_end in Hend. lia.
  - split.
    + intros [? ?] b Hb. constructor 1. rewrite elem_of_ByteRange.
      unfold range_end in *. lia.
    + intros H. split.
      * destruct (decide (range_offset x ≤ o)); [done|].
        assert (Ho : o ≤ o < e) by lia. apply H in Ho.
        apply Exists_cons in Ho as [Ho|Ho].
        -- rewrite elem_of_ByteRange in Ho. lia.
        -- pose proof (Exists_after _ _ _ Hbefore Ho). lia.
      * destruct (decide (e ≤ range_end x)); [done|].
        assert (Ho : o ≤ range_end x < e) by lia. apply H in Ho.
        apply Exists_cons in Ho as [Ho|Ho].
        -- rewrite elem_of_ByteRange in Ho. unfold range_end in Ho. lia.
        -- pose proof (Exists_after _ _ _ Hbefore Ho). lia.
Qed.

Lemma partition_point_ext {A} (p q : A → bool) l :
  Forall (λ x, p x = q x) l → partition_point p l = partition_point q l.
Proof. induction 1 as [|x l Hx _ IH]; cbn; [done|]. rewrite Hx, IH. done. Qed.

(** The machine-width end of a well-formed range is its mathematical end. *)
Lemma partition_point_end_le o l :
  Forall ByteRange_wf l →
  partition_point (λ x, bool_decide (ByteRange_end_exclusive x ≤ o)) l =
  partition_point (λ x, bool_decide (range_end x ≤ o)) l.
Proof.
  intros Hwf. apply partition_point_ext. eapply Forall_impl; [|done].
  intros r Hr. cbn. by rewrite ByteRange_end_wf.
Qed.

Lemma partition_point_end_lt o l :
  Forall ByteRange_wf l →
  partition_point (λ x, bool_decide (ByteRange_end_exclusive x < o)) l =
  partition_point (λ x, bool_decide (range_end x < o)) l.
Proof.
  intros Hwf. apply partition_point_ext. eapply Forall_impl; [|done].
  intros r Hr. cbn. by rewrite ByteRange_end_wf.
Qed.

Lemma covers_iff total s r :
  RangeSet_wf total s → ByteRange_wf r →
  ContentRangeSet_covers s r = true ↔ ∀ b : Z, b ∈ r → b ∈ s.
Proof.
  intros [Hwf _] Hr.
  pose proof (covers_search (ranges s) (range_offset r) (range_end r) Hwf) as Hs.
  rewrite <- Hs by (destruct Hr; unfold range_end; lia); clear Hs.
  unfold ContentRangeSet_covers. cbv zeta.
  rewrite partition_point_end_le by apply Hwf.
  destruct (ranges s !! _) as [x|] eqn:Hx; [|by split].
  assert (ByteRange_wf x).
  { destruct Hwf as [Hwf _]. eapply Forall_lookup_1; eauto. }
  rewrite !ByteRange_end_wf by done. rewrite andb_true_iff, !bool_decide_eq_true.
  unfold range_end. tauto.
Qed.

(** ** [insert] is union *)

(** [x] overlaps or is adjacent to [r]. *)
Definition touches (r x : ByteRange) : Prop :=
  range_offset r ≤ range_end x ∧ range_offset x ≤ range_end r.

(** Folding [covering] over ranges that touch the start range is their union. *)
Lemma foldl_covering l : ∀ acc,
  ByteRange_wf acc → Forall ByteRange_wf l → Forall (touches acc) l →
  let c := foldl ByteRange_covering acc l in
  ByteRange_wf c ∧
  (∀ b : Z, b ∈ c ↔ b ∈ acc ∨ Exists (λ r, b ∈ r) l) ∧
  (∀ k, k < range_offset acc → Forall (λ r, k < range_offset r) l → k < range_offset c) ∧
  (∀ k, range_end acc < k → Forall (λ r, range_end r < k) l → range_end c < k) ∧
  (∀ k, range_end acc ≤ k → Forall (λ r, range_end r ≤ k) l → range_end c ≤ k).
Proof.
  induction l as [|x l IH]; intros acc Hacc Hl Ht; cbn.
  { split_and!; [done| |auto..]. intros b. rewrite Exists_nil. tauto. }
  apply list.Forall_cons in Hl as [Hx Hl]. apply list.Forall_cons in Ht as [Htx Ht].
  pose proof (ByteRange_covering_wf acc x Hacc Hx) as (Hc & Ho & He).
  destruct (IH (ByteRange_covering acc x)) as (Hw & Hb & Hlo & Hhi & Hhi'); [done..| |].
  { eapply Forall_impl; [|exact Ht]. unfold touches, range_end. intros y [??]. lia. }
  split; [done|]. unfold touches, range_end in *.
  split_and!.
  - intros b. rewrite Hb, Exists_cons, !elem_of_ByteRange. intuition lia.
  - intros k ? [? ?]%list.Forall_cons. apply Hlo; [lia|done].
  - intros k ? [? ?]%list.Forall_cons. apply Hhi; [lia|done].
  - intros k ? [? ?]%list.Forall_cons. apply Hhi'; [lia|done].
Qed.

(** The three segments [insert] cuts the vector into. *)
Lemma insert_segments l r :
  ranges_wf l → ByteRange_wf r →
  let n := partition_point (λ x, bool_decide (range_end x < range_offset r)) l in
  let m := partition_point (λ x, bool_decide (range_offset x ≤ range_end r)) (drop n l) in
  let l1 := take n l in
  let l2 := take m (drop n l) in
  let l3 := drop (n + m) l in
  l = l1 ++ l2 ++ l3 ∧
  Forall (λ x, range_before x r) l1 ∧ Forall (touches r) l2 ∧ Forall (range_before r) l3.
Proof.
  intros Hwf Hr. revert Hwf. induction l as [|x l IH]; intros Hwf; cbn.
  { by split_and!. }
  apply ranges_wf_cons in Hwf as (Hx & Hbefore & Hwf).
  case_bool_decide as Hend; cbn.
  - destruct (IH Hwf) as (Heq & H1 & H2 & H3). clear IH. cbn in *.
    split_and!; try done; [by f_equal|constructor; done].
  - clear IH. cut (∀ l', ranges_wf l' → Forall (λ y, range_offset r ≤ range_end y) l' →
      let m := partition_point (λ x, bool_decide (range_offset x ≤ range_end r)) l' in
      l' = take m l' ++ drop m l' ∧ Forall (touches r) (take m l') ∧
      Forall (range_before r) (drop m l')).
    { intros H. destruct (H (x :: l)) as (Heq & H2 & H3).
      - by apply ranges_wf_cons.
      - constructor; [lia|]. destruct Hwf as [Hw _].
        rewrite Forall_forall in Hw, Hbefore |- *. intros y Hy.
        specialize (Hw y Hy) as (?&?&?). specialize (Hbefore y Hy).
        unfold range_before, range_end in *. lia.
      - cbn in *. auto. }
    clear. induction l' as [|y l' IH]; intros Hwf Hge; cbn; [auto|].
    apply ranges_wf_cons in Hwf as (Hy & Hbefore & Hwf).
    apply list.Forall_cons in Hge as [Hgey Hge].
    case_bool_decide as Hoff; cbn.
    + destruct (IH Hwf Hge) as (Heq & H2 & H3). split_and!; [by f_equal| |done].
      constructor; [|done]. split; lia.
    + split_and!; [done..|]. constructor; [unfold range_before; lia|].
      eapply Forall_impl; [|exact Hbefore]. unfold range_before, range_end in *.
      destruct Hy. intros; lia.
Qed.

(** The vector [insert] builds: same invariant, union of the bytes. *)
Lemma insert_merged l r total :
  ranges_wf l → Forall (λ x, range_end x ≤ total) l →
  ByteRange_wf r → range_end r ≤ total →
  let n := partition_point (λ x, bool_decide (range_end x < range_offset r)) l in
  let m := partition_point (λ x, bool_decide (range_offset x ≤ range_end r)) (drop n l) in
  let merged :=
    take n l ++ [foldl ByteRange_covering r (take m (drop n l))] ++ drop (n + m) l in
  ranges_wf merged ∧ Forall (λ x, range_end x ≤ total) merged ∧
  ∀ b : Z, Exists (λ x, b ∈ x) merged ↔ Exists (λ x, b ∈ x) l ∨ b ∈ r.
Proof.
  intros Hwf Htot Hr Hrt. cbv zeta.
  pose proof (insert_segments l r Hwf Hr) as Hseg. cbv zeta in Hseg.
  destruct Hseg as (Heq & H1 & H2 & H3).
  revert Heq H1 H2 H3.
  generalize (partition_point (λ x, bool_decide (range_end x < range_offset r)) l) as n.
  intros n. generalize (partition_point (λ x, bool_decide (range_offset x ≤ range_end r)) (drop n l)) as m.
  intros m. generalize (take n l) as l1, (take m (drop n l)) as l2, (drop (n + m) l) as l3.
  intros l1 l2 l3 -> H1 H2 H3. clear n m.
  rewrite !ranges_wf_app in Hwf. destruct Hwf as (Hw1 & (Hw2 & Hw3 & H23) & H1x).
  rewrite !Forall_app in Htot. destruct Htot as (Ht1 & Ht2 & Ht3).
  destruct (foldl_covering l2 r Hr (proj1 Hw2) H2) as (Hc & Hb & Hlo & Hhi & Hhi').
  set (c := foldl _ _ _) in *.
  assert (Hl1c : ∀ x, x ∈ l1 → range_before x c).
  { intros x Hx. apply Hlo.
    - rewrite Forall_forall in H1. by apply H1, list_elem_of_In.
    - rewrite Forall_forall. intros y Hy. apply list_elem_of_In in Hy.
      apply H1x; [done|]. apply elem_of_app; auto. }
  assert (Hcl3 : ∀ x, x ∈ l3 → range_before c x).
  { intros x Hx. apply Hhi.
    - rewrite Forall_forall in H3. by apply H3, list_elem_of_In.
    - rewrite Forall_forall. intros y Hy. apply list_elem_of_In in Hy. by apply H23. }
  split_and!.
  - rewrite !ranges_wf_app. split_and!; try done.
    + rewrite ranges_wf_cons. split_and!; [done|constructor|split; constructor].
    + intros x y ->%list_elem_of_singleton Hy. by apply Hcl3.
    + intros x y Hx [->%list_elem_of_singleton|Hy]%elem_of_app; [by apply Hl1c|].
      apply H1x; [done|]. apply elem_of_app; auto.
  - rewrite !Forall_app. split_and!; try done. constructor; [|constructor].
    by apply Hhi'.
  - intros b. rewrite !Exists_app, Exists_cons, Exists_nil, Hb. tauto.
Qed.

(** ** The normal form is unique *)
Lemma ranges_canonical l1 : ∀ l2,
  ranges_wf l1 → ranges_wf l2 →
  (∀ b : Z, Exists (λ r, b ∈ r) l1 ↔ Exists (λ r, b ∈ r) l2) → l1 = l2.
Proof.
  induction l1 as [|x l1 IH]; intros [|y l2] Hw1 Hw2 Heq.
  - done.
  - apply ranges_wf_cons in Hw2 as ((?&?&?)&_). specialize (Heq (range_offset y)).
    rewrite Exists_nil, Exists_cons, elem_of_ByteRange in Heq. lia.
  - apply ranges_wf_cons in Hw1 as ((?&?&?)&_). specialize (Heq (range_offset x)).
    rewrite Exists_nil, Exists_cons, elem_of_ByteRange in Heq. lia.
  - apply ranges_wf_cons in Hw1 as (Hx & Hbx & Hw1).
    apply ranges_wf_cons in Hw2 as (Hy & Hby & Hw2).
    assert (Hbounds : ∀ b, b ∈ x ∨ Exists (λ r, b ∈ r) l1 ↔ b ∈ y ∨ Exists (λ r, b ∈ r) l2).
    { intros b. specialize (Heq b). by rewrite !Exists_cons in Heq. }
    clear Heq.
    pose proof (λ b, Exists_after x l1 b Hbx) as Hx1.
    pose proof (λ b, Exists_after y l2 b Hby) as Hy1.
    setoid_rewrite elem_of_ByteRange in Hbounds. unfold range_end in *.
    destruct Hx as (?&?&?), Hy as (?&?&?).
    assert (range_offset x = range_offset y) as Ho.
    { pose proof (Hbounds (range_offset x)) as [[?|?%Hy1] _]; [lia|..].
      all: pose proof (Hbounds (range_offset y)) as [_ [?|?%Hx1]]; lia. }
    assert (range_length x = range_length y) as Hl.
    { destruct (Z.lt_trichotomy (range_length x) (range_length y)) as [?|[?|?]]; [|done|].
      - pose proof (Hbounds (range_offset x + range_length x)) as [_ [?|?%Hx1]]; lia.
      - pose proof (Hbounds (range_offset y + range_length y)) as [[?|?%Hy1] _]; lia. }
    destruct x as [ox lx], y as [oy ly]; cbn in *; subst. f_equal.
    apply IH; [done..|]. intros b. specialize (Hbounds b). specialize (Hx1 b).
    specialize (Hy1 b). split; intros Hb.
    + destruct Hbounds as [[?|?] _]; [by right|specialize (Hx1 Hb); lia|done].
    + destruct Hbounds as [_ [?|?]]; [by right|specialize (Hy1 Hb); lia|done].
Qed.

(** Two normalised sets with the same bytes are the same vector. *)
Lemma RangeSet_canonical total1 total2 s t :
  RangeSet_wf total1 s → RangeSet_wf total2 t → (∀ b : Z, b ∈ s ↔ b ∈ t) → s = t.
Proof.
  intros [Hs _] [Ht _] Heq. destruct s as [l1], t as [l2]. f_equal.
  by apply ranges_canonical.
Qed.

Lemma RangeSet_new_wf total : RangeSet_wf total ContentRangeSet_new.
Proof. by repeat constructor. Qed.

Lemma RangeSet_new_empty (b : Z) : b ∉ ContentRangeSet_new.
Proof. intros H. by apply Exists_nil in H. Qed.

Lemma RangeSet_clear_wf total s : RangeSet_wf total (ContentRangeSet_clear s).
Proof. by repeat constructor. Qed.

(** [insert] with the widths discharged: the vector of [insert_merged]. *)
Lemma ContentRangeSet_insert_unfold r total s :
  RangeSet_wf total s → ByteRange_wf r →
  ∃ merged,
    (range_end r ≤ total → RangeSet_wf total (mk_ContentRangeSet merged)) ∧
    (range_end r ≤ total →
     ∀ b : Z, b ∈ mk_ContentRangeSet merged ↔ b ∈ s ∨ b ∈ r) ∧
    ContentRangeSet_insert r total s =
      if decide (range_end r > total) then
        (Err (InvalidContentStorageState "cached range exceeds the content size"), s)
      else if ContentRangeSet_covers s r then (Ok false, s)
      else if decide (Z.of_nat (length merged) > MAX_RANGES) then
        (Err (InvalidContentStorageState
           "provider cache range fragmentation exceeds the supported limit"), s)
      else (Ok true, mk_ContentRangeSet merged).
Proof.
  intros [Hwf Ht] Hr.
  pose proof (insert_merged (ranges s) r total Hwf Ht Hr) as Hm. cbv zeta in Hm.
  unfold ContentRangeSet_insert. cbv zeta.
  rewrite partition_point_end_lt by apply Hwf.
  rewrite !(ByteRange_end_wf r) by done. fold (range_end r).
  set (n := partition_point _ (ranges s)) in *.
  set (m := partition_point _ (drop n _)) in *.
  replace (n + m - n)%nat with m by lia.
  eexists. split_and!; [..|done].
  - intros Hrt. destruct (Hm Hrt) as (?&?&?). done.
  - intros Hrt. apply (Hm Hrt).
Qed.

(** ** Properties *)

(** C1. Inserting a range into normalised coverage is set union: the
    normal form is kept, exactly the bytes of the range are added, [Ok false]
    means every byte was already covered, and an error (the range leaves the
    file, or no normalised vector within the fragmentation limit holds the
    union) leaves the coverage untouched. *)
Theorem ContentRangeSet_insert_spec (r : ByteRange) (total : Z) (s : ContentRangeSet) :
  RangeSet_wf total s → ByteRange_wf r →
  match ContentRangeSet_insert r total s with
  | (Ok true, s') =>
      RangeSet_wf total s' ∧ (∀ b : Z, b ∈ s' ↔ b ∈ s ∨ b ∈ r) ∧
      (∃ b : Z, b ∈ r ∧ b ∉ s) ∧ Z.of_nat (length (ranges s')) ≤ MAX_RANGES
  | (Ok false, s') => s' = s ∧ range_end r ≤ total ∧ ∀ b : Z, b ∈ r → b ∈ s
  | (Err _, s') =>
      s' = s ∧
      (total < range_end r ∨
       ∀ t, RangeSet_wf total t → (∀ b : Z, b ∈ t ↔ b ∈ s ∨ b ∈ r) →
            MAX_RANGES < Z.of_nat (length (ranges t)))
  end.
Proof.
  intros Hs Hr. destruct (ContentRangeSet_insert_unfold r total s Hs Hr)
    as (merged & Hw & Hb & ->).
  case_decide as Htot; [split; [done|left; lia]|].
  assert (range_end r ≤ total) as Hrt by lia.
  specialize (Hw Hrt). specialize (Hb Hrt).
  destruct (ContentRangeSet_covers s r) eqn:Hc.
  { split_and!; [done|done|]. by apply (covers_iff total). }
  case_decide as Hmax.
  - split; [done|right]. intros t Ht Hbt.
    rewrite (RangeSet_canonical total total t (mk_ContentRangeSet merged)); [cbn; lia|done..|].
    intros b. by rewrite Hbt, Hb.
  - split_and!; [done|done| |cbn; lia].
    apply not_true_iff_false in Hc. rewrite (covers_iff total s r Hs Hr) in Hc.
    destruct (interval_search (λ b, b ∈ s) (range_offset r) (range_end r)) as [Hin|?]; [|done].
    destruct Hc. intros b. apply Hin.
Qed.

Definition sample_range (offset length : Z) : ByteRange := mk_ByteRange offset length.
Definition sample_coverage : ContentRangeSet :=
  mk_ContentRangeSet [sample_range 0 2; sample_range 4 2; sample_range 10 2].

Lemma sample_coverage_wf : RangeSet_wf 16 sample_coverage.
Proof.
  split; [split|]; repeat constructor; vm_compute; congruence || auto.
Defined.

Lemma ContentRangeSet_insert_spec_witness :
  ContentRangeSet_insert (sample_range 1 4) 16 sample_coverage =
    (Ok true, mk_ContentRangeSet [sample_range 0 6; sample_range 10 2]) ∧
  match ContentRangeSet_insert (sample_range 1 4) 16 sample_coverage with
  | (Ok true, s') => RangeSet_wf 16 s'
  | _ => False
  end.
Proof.
  split; [reflexivity|].
  pose proof (ContentRangeSet_insert_spec (sample_range 1 4) 16 sample_coverage
    sample_coverage_wf ltac:(repeat split; vm_compute; congruence)) as H.
  exact (proj1 H).
Defined.

Lemma RangeSet_bounds total s (b : Z) : RangeSet_wf total s → b ∈ s → 0 ≤ b < total.
Proof.
  intros [[Hwf _] Ht] Hb. apply Exists_exists in Hb as (x & Hx & Hb).
  rewrite Forall_forall in Hwf, Ht. specialize (Hwf x Hx) as (?&?&?).
  specialize (Ht x Hx). rewrite elem_of_ByteRange in Hb. unfold range_end in Ht. lia.
Qed.

Lemma RangeSet_whole_wf total :
  in_u64 total → total ≠ 0 → RangeSet_wf total (mk_ContentRangeSet [mk_ByteRange 0 total]).
Proof.
  intros. assert (ByteRange_wf (mk_ByteRange 0 total)) by (unfold ByteRange_wf; cbn; width).
  split; [split|].
  - constructor; [done|constructor].
  - constructor; constructor.
  - constructor; [unfold range_end; cbn; lia|constructor].
Qed.

(** [covers] answers whether every byte of the range is cached, although
    it inspects a single element of the vector; [is_complete] answers whether
    the whole file is; and normalised coverage is determined by its bytes. *)
Theorem ContentRangeSet_queries_spec (total : Z) (s t : ContentRangeSet) (r : ByteRange) :
  RangeSet_wf total s → RangeSet_wf total t → ByteRange_wf r → in_u64 total →
  (ContentRangeSet_covers s r = true ↔ ∀ b : Z, b ∈ r → b ∈ s) ∧
  (ContentRangeSet_is_complete s total = true ↔ ∀ b : Z, 0 ≤ b < total → b ∈ s) ∧
  ((∀ b : Z, b ∈ s ↔ b ∈ t) ↔ s = t).
Proof.
  intros Hs Ht Hr Htot. split_and!; [by apply (covers_iff total)| |].
  - unfold ContentRangeSet_is_complete. case_decide as Hz; [split; [intros; lia|done]|].
    split.
    + destruct s as [[|x [|??]]]; cbn; [done| |done]. destruct Hs as [[Hw _] _].
      apply list.Forall_cons in Hw as [Hx _].
      rewrite ByteRange_end_wf, andb_true_iff, !bool_decide_eq_true by done.
      intros [Ho He] b Hb. constructor 1. rewrite elem_of_ByteRange. lia.
    + intros Hall. pose proof (RangeSet_whole_wf total Htot Hz) as Hw.
      rewrite (RangeSet_canonical total total s _ Hs Hw).
      * destruct Hw as [[Hw _] _]. apply list.Forall_cons in Hw as [Hw _]. cbn.
        rewrite ByteRange_end_wf by done. cbn. by rewrite !bool_decide_true by (cbn; lia).
      * intros b. split.
        -- intros Hb. constructor 1. rewrite elem_of_ByteRange.
           apply (RangeSet_bounds total) in Hb; [cbn; lia|done].
        -- intros Hb. apply Hall. by apply (RangeSet_bounds total) in Hb.
  - split; [by apply (RangeSet_canonical total total)|by intros ->].
Qed.

Lemma ContentRangeSet_queries_spec_witness :
  ContentRangeSet_covers sample_coverage (sample_range 4 2) = true ∧
  ∀ b : Z, b ∈ sample_range 4 2 → b ∈ sample_coverage.
Proof.
  pose proof (ContentRangeSet_queries_spec 16 sample_coverage sample_coverage
    (sample_range 4 2) sample_coverage_wf sample_coverage_wf
    ltac:(repeat split; vm_compute; congruence) ltac:(split; vm_compute; congruence)) as H.
  split; [reflexivity|]. exact (proj1 (proj1 H) eq_refl).
Defined.
