(* ===== verification/ContentStorage.v ===== *)
(** * Content storage entries

    [ContentStorageEntry] of [content_storage.rs]: ownership mode, sparse
    coverage, runtime leases, dirty snapshots, cache-write and eviction
    reservations of one item revision.  Every [&mut self] method is a
    function from the entry to its result and the entry it leaves, error
    paths included. *)
From S2P Require Export RangeSet.

Inductive ContentStorageMode : Type := PlatformManaged | ProviderManaged | Hybrid.

#[export] Instance ContentStorageMode_eq_dec : EqDecision ContentStorageMode.
Proof. solve_decision. Defined.

Inductive PlatformMaterializationState : Type :=
  | MatUnknown | MatDataless | MatPartial | MatComplete.

#[export] Instance PlatformMaterializationState_eq_dec :
  EqDecision PlatformMaterializationState.
Proof. solve_decision. Defined.

(** ** Runtime leases *)
Inductive ContentLeaseKind : Type :=
  | LeaseOpen | LeaseRead | LeaseWrite | LeaseHydration | LeaseUpload | LeaseVerification.

#[export] Instance ContentLeaseKind_eq_dec : EqDecision ContentLeaseKind.
Proof. solve_decision. Defined.

Record ContentLeaseCounts : Type := mk_ContentLeaseCounts {
  count_open : Z;
  count_read : Z;
  count_write : Z;
  count_hydration : Z;
  count_upload : Z;
  count_verification : Z;
}.

#[export] Instance ContentLeaseCounts_eq_dec : EqDecision ContentLeaseCounts.
Proof. solve_decision. Defined.

Definition ContentLeaseCounts_default : ContentLeaseCounts :=
  mk_ContentLeaseCounts 0 0 0 0 0 0.

(** [value_mut]: reading and writing through the returned reference. *)
Definition ContentLeaseCounts_value (c : ContentLeaseCounts) (kind : ContentLeaseKind) : Z :=
  match kind with
  | LeaseOpen => count_open c
  | LeaseRead => count_read c
  | LeaseWrite => count_write c
  | LeaseHydration => count_hydration c
  | LeaseUpload => count_upload c
  | LeaseVerification => count_verification c
  end.

Definition ContentLeaseCounts_value_mut (c : ContentLeaseCounts) (kind : ContentLeaseKind)
    (v : Z) : ContentLeaseCounts :=
  let '(mk_ContentLeaseCounts o r w h u f) := c in
  match kind with
  | LeaseOpen => mk_ContentLeaseCounts v r w h u f
  | LeaseRead => mk_ContentLeaseCounts o v w h u f
  | LeaseWrite => mk_ContentLeaseCounts o r v h u f
  | LeaseHydration => mk_ContentLeaseCounts o r w v u f
  | LeaseUpload => mk_ContentLeaseCounts o r w h v f
  | LeaseVerification => mk_ContentLeaseCounts o r w h u v
  end.

Definition ContentLeaseCounts_increment (kind : ContentLeaseKind) (c : ContentLeaseCounts)
    : core_result unit * ContentLeaseCounts :=
  match checked_add U32_MAX (ContentLeaseCounts_value c kind) 1 with
  | None => (Err (InvalidContentStorageState "content lease count overflowed"), c)
  | Some v => (Ok tt, ContentLeaseCounts_value_mut c kind v)
  end.

Definition ContentLeaseCounts_decrement (kind : ContentLeaseKind) (c : ContentLeaseCounts)
    : core_result unit * ContentLeaseCounts :=
  match checked_sub (ContentLeaseCounts_value c kind) 1 with
  | None => (Err (InvalidContentStorageState "content lease count was already zero"), c)
  | Some v => (Ok tt, ContentLeaseCounts_value_mut c kind v)
  end.

(** ** Eviction guards, targets and plans *)
Inductive ContentEvictionBlocker : Type :=
  | BlockedPinned | BlockedDirty | BlockedOpenLease | BlockedReadLease | BlockedWriteLease
  | BlockedHydrationLease | BlockedUploadLease | BlockedVerificationLease
  | BlockedCacheWriteInProgress | BlockedEvictionInProgress.

#[export] Instance ContentEvictionBlocker_eq_dec : EqDecision ContentEvictionBlocker.
Proof. solve_decision. Defined.

Inductive ContentEvictionTarget : Type :=
  | TargetProviderCache | TargetPlatformMaterialization | TargetAllManagedContent.

#[export] Instance ContentEvictionTarget_eq_dec : EqDecision ContentEvictionTarget.
Proof. solve_decision. Defined.

Record ContentEvictionPlan : Type := mk_ContentEvictionPlan {
  remove_provider_cache : bool;
  evict_platform_materialization : bool;
  invalidate_platform_content : bool;
}.

#[export] Instance ContentEvictionPlan_eq_dec : EqDecision ContentEvictionPlan.
Proof. solve_decision. Defined.

Definition ContentEvictionPlan_for_target (mode : ContentStorageMode)
    (target : ContentEvictionTarget) : core_result ContentEvictionPlan :=
  match mode, target with
  | PlatformManaged, TargetProviderCache
  | ProviderManaged, TargetPlatformMaterialization =>
      Err (InvalidContentStorageState
        "eviction target is not owned by the selected storage mode")
  | PlatformManaged, _
  | Hybrid, TargetPlatformMaterialization =>
      Ok (mk_ContentEvictionPlan false true false)
  | ProviderManaged, _
  | Hybrid, TargetProviderCache =>
      Ok (mk_ContentEvictionPlan true false true)
  | Hybrid, TargetAllManagedContent =>
      Ok (mk_ContentEvictionPlan true true true)
  end.

Inductive ContentEvictionDecision : Type :=
  | DecisionReserved (plan : ContentEvictionPlan)
  | DecisionBlocked (blockers : list ContentEvictionBlocker).

Inductive DirtyContentTransition : Type :=
  | DirtyApplied | DirtyAlreadyApplied | DirtyFenced.

(** ** Entries *)
Record ContentStorageEntry : Type := mk_ContentStorageEntry {
  entry_key : ContentCacheKey;
  entry_mode : ContentStorageMode;
  entry_total_size : Z;
  entry_provider_ranges : option ContentRangeSet;
  entry_platform_materialization : option PlatformMaterializationState;
  entry_pinned : bool;
  entry_dirty_snapshot : option LocalContentSnapshot;
  entry_leases : gmap ContentLeaseId ContentLeaseKind;
  entry_lease_counts : ContentLeaseCounts;
  entry_active_cache_writes : Z;
  entry_eviction_reserved : bool;
}.

(** Field assignments. *)
Definition entry_with_ranges (e : ContentStorageEntry) (v : option ContentRangeSet) :=
  mk_ContentStorageEntry (entry_key e) (entry_mode e) (entry_total_size e) v
    (entry_platform_materialization e) (entry_pinned e) (entry_dirty_snapshot e)
    (entry_leases e) (entry_lease_counts e) (entry_active_cache_writes e)
    (entry_eviction_reserved e).
Definition entry_with_materialization (e : ContentStorageEntry)
    (v : option PlatformMaterializationState) :=
  mk_ContentStorageEntry (entry_key e) (entry_mode e) (entry_total_size e)
    (entry_provider_ranges e) v (entry_pinned e) (entry_dirty_snapshot e)
    (entry_leases e) (entry_lease_counts e) (entry_active_cache_writes e)
    (entry_eviction_reserved e).
Definition entry_with_pinned (e : ContentStorageEntry) (v : bool) :=
  mk_ContentStorageEntry (entry_key e) (entry_mode e) (entry_total_size e)
    (entry_provider_ranges e) (entry_platform_materialization e) v (entry_dirty_snapshot e)
    (entry_leases e) (entry_lease_counts e) (entry_active_cache_writes e)
    (entry_eviction_reserved e).
Definition entry_with_dirty (e : ContentStorageEntry) (v : option LocalContentSnapshot) :=
  mk_ContentStorageEntry (entry_key e) (entry_mode e) (entry_total_size e)
    (entry_provider_ranges e) (entry_platform_materialization e) (entry_pinned e) v
    (entry_leases e) (entry_lease_counts e) (entry_active_cache_writes e)
    (entry_eviction_reserved e).
Definition entry_with_leases (e : ContentStorageEntry)
    (v : gmap ContentLeaseId ContentLeaseKind) (c : ContentLeaseCounts) :=
  mk_ContentStorageEntry (entry_key e) (entry_mode e) (entry_total_size e)
    (entry_provider_ranges e) (entry_platform_materialization e) (entry_pinned e)
    (entry_dirty_snapshot e) v c (entry_active_cache_writes e) (entry_eviction_reserved e).
Definition entry_with_cache_writes (e : ContentStorageEntry) (v : Z) :=
  mk_ContentStorageEntry (entry_key e) (entry_mode e) (entry_total_size e)
    (entry_provider_ranges e) (entry_platform_materialization e) (entry_pinned e)
    (entry_dirty_snapshot e) (entry_leases e) (entry_lease_counts e) v
    (entry_eviction_reserved e).
Definition entry_with_reserved (e : ContentStorageEntry) (v : bool) :=
  mk_ContentStorageEntry (entry_key e) (entry_mode e) (entry_total_size e)
    (entry_provider_ranges e) (entry_platform_materialization e) (entry_pinned e)
    (entry_dirty_snapshot e) (entry_leases e) (entry_lease_counts e)
    (entry_active_cache_writes e) v.

Definition ContentStorageEntry_new (key : ContentCacheKey) (mode : ContentStorageMode)
    (total_size : Z) : ContentStorageEntry :=
  mk_ContentStorageEntry key mode total_size
    (match mode with
     | ProviderManaged | Hybrid => Some ContentRangeSet_new
     | PlatformManaged => None
     end)
    (match mode with
     | PlatformManaged | Hybrid => Some MatUnknown
     | ProviderManaged => None
     end)
    false None ∅ ContentLeaseCounts_default 0 false.

Definition ContentStorageEntry_record_provider_range (range : ByteRange)
    (e : ContentStorageEntry) : core_result bool * ContentStorageEntry :=
  match entry_provider_ranges e with
  | None =>
      (Err (InvalidContentStorageState
         "platform-managed content has no provider cache ranges"), e)
  | Some rs =>
      let '(res, rs') := ContentRangeSet_insert range (entry_total_size e) rs in
      (res, entry_with_ranges e (Some rs'))
  end.

Definition ContentStorageEntry_observe_platform_materialization
    (state : PlatformMaterializationState) (e : ContentStorageEntry)
    : core_result bool * ContentStorageEntry :=
  match entry_platform_materialization e with
  | None =>
      (Err (InvalidContentStorageState
         "provider-managed content has no platform materialization state"), e)
  | Some current =>
      if decide (current = state) then (Ok false, e)
      else (Ok true, entry_with_materialization e (Some state))
  end.

Definition ContentStorageEntry_set_pinned (pinned : bool) (e : ContentStorageEntry)
    : core_result bool * ContentStorageEntry :=
  if pinned && entry_eviction_reserved e then
    (Err (InvalidContentStorageState "content cannot become pinned during eviction"), e)
  else
    let changed := negb (Bool.eqb (entry_pinned e) pinned) in
    (Ok changed, entry_with_pinned e pinned).

Definition ContentStorageEntry_mark_dirty (snapshot : LocalContentSnapshot)
    (e : ContentStorageEntry) : core_result DirtyContentTransition * ContentStorageEntry :=
  if entry_eviction_reserved e then
    (Err (InvalidContentStorageState "dirty content cannot start during eviction"), e)
  else if decide (snapshot_item_key snapshot ≠ cache_key_item_key (entry_key e)) then
    (Err (InvalidContentStorageState
       "dirty snapshot item does not match the content entry"), e)
  else match entry_dirty_snapshot e with
  | None => (Ok DirtyApplied, entry_with_dirty e (Some snapshot))
  | Some current =>
      if decide (current = snapshot) then (Ok DirtyAlreadyApplied, e)
      else if decide (local_generation_get (snapshot_generation snapshot)
                        < local_generation_get (snapshot_generation current)) then
        (Ok DirtyFenced, e)
      else if decide (snapshot_generation snapshot = snapshot_generation current) then
        (Err (InvalidContentStorageState
           "one local generation identifies different immutable snapshots"), e)
      else (Ok DirtyApplied, entry_with_dirty e (Some snapshot))
  end.

Definition ContentStorageEntry_clear_dirty (generation : LocalContentGeneration)
    (e : ContentStorageEntry) : core_result DirtyContentTransition * ContentStorageEntry :=
  match entry_dirty_snapshot e with
  | None => (Ok DirtyAlreadyApplied, e)
  | Some current =>
      if decide (local_generation_get generation
                   < local_generation_get (snapshot_generation current)) then
        (Ok DirtyFenced, e)
      else if decide (local_generation_get generation
                        > local_generation_get (snapshot_generation current)) then
        (Err (InvalidContentStorageState "dirty clear generation was never recorded"), e)
      else (Ok DirtyApplied, entry_with_dirty e None)
  end.

Definition ContentStorageEntry_acquire_lease (lease_id : ContentLeaseId)
    (kind : ContentLeaseKind) (e : ContentStorageEntry)
    : core_result bool * ContentStorageEntry :=
  if entry_eviction_reserved e then
    (Err (InvalidContentStorageState "content lease cannot start during eviction"), e)
  else match entry_leases e !! lease_id with
  | Some existing =>
      if decide (existing = kind) then (Ok false, e)
      else (Err (InvalidContentStorageState
              "content lease id already has another kind"), e)
  | None =>
      match ContentLeaseCounts_increment kind (entry_lease_counts e) with
      | (Err err, counts) => (Err err, entry_with_leases e (entry_leases e) counts)
      | (Ok _, counts) =>
          (Ok true, entry_with_leases e (<[lease_id := kind]> (entry_leases e)) counts)
      end
  end.

(** The lease leaves the map before its counter is decremented. *)
Definition ContentStorageEntry_release_lease (lease_id : ContentLeaseId)
    (e : ContentStorageEntry) : core_result bool * ContentStorageEntry :=
  match entry_leases e !! lease_id with
  | None => (Ok false, e)
  | Some kind =>
      match ContentLeaseCounts_decrement kind (entry_lease_counts e) with
      | (Err err, counts) =>
          (Err err, entry_with_leases e (delete lease_id (entry_leases e)) counts)
      | (Ok _, counts) =>
          (Ok true, entry_with_leases e (delete lease_id (entry_leases e)) counts)
      end
  end.

Definition ContentStorageEntry_begin_cache_write (e : ContentStorageEntry)
    : core_result unit * ContentStorageEntry :=
  match entry_provider_ranges e with
  | None =>
      (Err (InvalidContentStorageState
         "platform-managed content has no provider cache write target"), e)
  | Some _ =>
      if entry_eviction_reserved e then
        (Err (InvalidContentStorageState
           "provider cache write cannot start during eviction"), e)
      else match checked_add U32_MAX (entry_active_cache_writes e) 1 with
      | None =>
          (Err (InvalidContentStorageState "active cache write count overflowed"), e)
      | Some n => (Ok tt, entry_with_cache_writes e n)
      end
  end.

Definition ContentStorageEntry_complete_cache_write (e : ContentStorageEntry)
    : core_result unit * ContentStorageEntry :=
  match checked_sub (entry_active_cache_writes e) 1 with
  | None =>
      (Err (InvalidContentStorageState
         "completed cache write has no active reservation"), e)
  | Some n => (Ok tt, entry_with_cache_writes e n)
  end.

(** [if c { blockers.push(b); }] *)
Definition push_if (c : bool) (b : ContentEvictionBlocker)
    (blockers : list ContentEvictionBlocker) : list ContentEvictionBlocker :=
  if c then blockers ++ [b] else blockers.

Definition ContentStorageEntry_eviction_blockers (e : ContentStorageEntry)
    : list ContentEvictionBlocker :=
  let counts := entry_lease_counts e in
  let blockers := push_if (entry_pinned e) BlockedPinned [] in
  let blockers :=
    push_if (bool_decide (is_Some (entry_dirty_snapshot e))) BlockedDirty blockers in
  let blockers := push_if (bool_decide (count_open counts > 0)) BlockedOpenLease blockers in
  let blockers := push_if (bool_decide (count_read counts > 0)) BlockedReadLease blockers in
  let blockers := push_if (bool_decide (count_write counts > 0)) BlockedWriteLease blockers in
  let blockers :=
    push_if (bool_decide (count_hydration counts > 0)) BlockedHydrationLease blockers in
  let blockers :=
    push_if (bool_decide (count_upload counts > 0)) BlockedUploadLease blockers in
  let blockers :=
    push_if (bool_decide (count_verification counts > 0)) BlockedVerificationLease blockers in
  let blockers :=
    push_if (bool_decide (entry_active_cache_writes e > 0))
      BlockedCacheWriteInProgress blockers in
  push_if (entry_eviction_reserved e) BlockedEvictionInProgress blockers.

Definition ContentStorageEntry_reserve_eviction (target : ContentEvictionTarget)
    (e : ContentStorageEntry) : core_result ContentEvictionDecision * ContentStorageEntry :=
  match ContentEvictionPlan_for_target (entry_mode e) target with
  | Err err => (Err err, e)
  | Ok plan =>
      match ContentStorageEntry_eviction_blockers e with
      | [] => (Ok (DecisionReserved plan), entry_with_reserved e true)
      | blockers => (Ok (DecisionBlocked blockers), e)
      end
  end.

(** Clearing the ranges precedes the platform check, so a refused platform
    effect leaves the provider ranges cleared. *)
Definition ContentStorageEntry_reconcile_eviction (plan : ContentEvictionPlan)
    (e : ContentStorageEntry) : core_result unit * ContentStorageEntry :=
  if negb (entry_eviction_reserved e) then
    (Err (InvalidContentStorageState
       "eviction metadata reconciliation requires a reservation"), e)
  else
    let '(res, e) :=
      if remove_provider_cache plan then
        match entry_provider_ranges e with
        | None =>
            (Err (InvalidContentStorageState
               "eviction plan removes an unowned provider cache"), e)
        | Some rs => (Ok tt, entry_with_ranges e (Some (ContentRangeSet_clear rs)))
        end
      else (Ok tt, e) in
    match res with
    | Err err => (Err err, e)
    | Ok _ =>
        if evict_platform_materialization plan then
          match entry_platform_materialization e with
          | None =>
              (Err (InvalidContentStorageState
                 "eviction plan evicts an unowned platform materialization"), e)
          | Some _ => (Ok tt, entry_with_materialization e (Some MatDataless))
          end
        else (Ok tt, e)
    end.

Definition ContentStorageEntry_complete_eviction (e : ContentStorageEntry)
    : core_result unit * ContentStorageEntry :=
  if negb (entry_eviction_reserved e) then
    (Err (InvalidContentStorageState "completed eviction has no active reservation"), e)
  else (Ok tt, entry_with_reserved e false).

(** ** Calls on an entry, and the entries a program can reach *)
Inductive entry_op : Type :=
  | OpRecordRange (range : ByteRange)
  | OpObserve (state : PlatformMaterializationState)
  | OpSetPinned (pinned : bool)
  | OpMarkDirty (snapshot : LocalContentSnapshot)
  | OpClearDirty (generation : LocalContentGeneration)
  | OpAcquireLease (lease_id : ContentLeaseId) (kind : ContentLeaseKind)
  | OpReleaseLease (lease_id : ContentLeaseId)
  | OpBeginCacheWrite
  | OpCompleteCacheWrite
  | OpReserveEviction (target : ContentEvictionTarget)
  | OpReconcileEviction (plan : ContentEvictionPlan)
  | OpCompleteEviction.

(** The entry a call leaves, whatever its result. *)
Definition entry_after (op : entry_op) (e : ContentStorageEntry) : ContentStorageEntry :=
  match op with
  | OpRecordRange r => (ContentStorageEntry_record_provider_range r e).2
  | OpObserve s => (ContentStorageEntry_observe_platform_materialization s e).2
  | OpSetPinned b => (ContentStorageEntry_set_pinned b e).2
  | OpMarkDirty s => (ContentStorageEntry_mark_dirty s e).2
  | OpClearDirty g => (ContentStorageEntry_clear_dirty g e).2
  | OpAcquireLease i k => (ContentStorageEntry_acquire_lease i k e).2
  | OpReleaseLease i => (ContentStorageEntry_release_lease i e).2
  | OpBeginCacheWrite => (ContentStorageEntry_begin_cache_write e).2
  | OpCompleteCacheWrite => (ContentStorageEntry_complete_cache_write e).2
  | OpReserveEviction t => (ContentStorageEntry_reserve_eviction t e).2
  | OpReconcileEviction p => (ContentStorageEntry_reconcile_eviction p e).2
  | OpCompleteEviction => (ContentStorageEntry_complete_eviction e).2
  end.

(** Arguments come from their validating constructors. *)
Definition entry_op_wf (op : entry_op) : Prop :=
  match op with OpRecordRange r => ByteRange_wf r | _ => True end.

Inductive entry_reachable : ContentStorageEntry → Prop :=
  | entry_reachable_new key mode total_size :
      in_u64 total_size →
      entry_reachable (ContentStorageEntry_new key mode total_size)
  | entry_reachable_step op e :
      entry_reachable e → entry_op_wf op → entry_reachable (entry_after op e).

(** ** The entry invariant *)

(** How many leases of a kind the lease map holds. *)
Definition lease_count (m : gmap ContentLeaseId ContentLeaseKind) (k : ContentLeaseKind) : Z :=
  Z.of_nat (size (filter (λ p, p.2 = k) m)).

Definition owns_provider_cache (mode : ContentStorageMode) : bool :=
  match mode with PlatformManaged => false | _ => true end.
Definition owns_platform_copy (mode : ContentStorageMode) : bool :=
  match mode with ProviderManaged => false | _ => true end.

(** Nothing protects the entry from eviction. *)
Definition entry_unguarded (e : ContentStorageEntry) : Prop :=
  entry_pinned e = false ∧ entry_dirty_snapshot e = None ∧
  entry_leases e = ∅ ∧ entry_active_cache_writes e = 0.

Record entry_inv (e : ContentStorageEntry) : Prop := {
  inv_size : in_u64 (entry_total_size e);
  inv_ranges :
    match entry_provider_ranges e with
    | Some rs => owns_provider_cache (entry_mode e) = true ∧
                 RangeSet_wf (entry_total_size e) rs
    | None => owns_provider_cache (entry_mode e) = false
    end;
  inv_materialization :
    is_Some (entry_platform_materialization e) ↔ owns_platform_copy (entry_mode e) = true;
  inv_dirty : ∀ s, entry_dirty_snapshot e = Some s →
    snapshot_item_key s = cache_key_item_key (entry_key e);
  inv_counts : ∀ k,
    ContentLeaseCounts_value (entry_lease_counts e) k = lease_count (entry_leases e) k ∧
    lease_count (entry_leases e) k ≤ U32_MAX;
  inv_writes : in_u32 (entry_active_cache_writes e);
  inv_reserved : entry_eviction_reserved e = true → entry_unguarded e;
}.

Lemma lease_count_nonneg m k : 0 ≤ lease_count m k.
Proof. unfold lease_count. lia. Qed.

Lemma lease_count_empty k : lease_count ∅ k = 0.
Proof. unfold lease_count. by rewrite map_filter_empty, map_size_empty. Qed.

Lemma lease_count_insert m i k k' :
  m !! i = None →
  lease_count (<[i := k]> m) k' = lease_count m k' + (if decide (k = k') then 1 else 0).
Proof.
  intros Hi. unfold lease_count. rewrite map_filter_insert; cbn. case_decide.
  - rewrite map_size_insert_None; [lia|]. apply map_lookup_filter_None. auto.
  - rewrite delete_id by done. lia.
Qed.

Lemma lease_count_delete m i k k' :
  m !! i = Some k →
  lease_count (delete i m) k' = lease_count m k' - (if decide (k = k') then 1 else 0).
Proof.
  intros Hi. rewrite <- (insert_delete_id m i k) at 2 by done.
  rewrite lease_count_insert by apply lookup_delete_eq. lia.
Qed.

(** No counted lease means no lease. *)
Lemma lease_count_zero m : (∀ k, lease_count m k = 0) ↔ m = ∅.
Proof.
  split; [|intros ->; apply lease_count_empty].
  intros H. apply map_empty. intros i. destruct (m !! i) as [k|] eqn:Hi; [|done].
  pose proof (lease_count_delete m i k k Hi) as Hd.
  pose proof (lease_count_nonneg (delete i m) k).
  rewrite H in Hd. rewrite decide_True in Hd by done. lia.
Qed.

Lemma value_mut_value c k v k' :
  ContentLeaseCounts_value (ContentLeaseCounts_value_mut c k v) k' =
  if decide (k = k') then v else ContentLeaseCounts_value c k'.
Proof. destruct c, k, k'; reflexivity. Qed.

(** Writing back what a failed checked operation read changes nothing. *)
Lemma increment_spec k c :
  ContentLeaseCounts_increment k c =
  if decide (ContentLeaseCounts_value c k < U32_MAX)
  then (Ok tt, ContentLeaseCounts_value_mut c k (ContentLeaseCounts_value c k + 1))
  else (Err (InvalidContentStorageState "content lease count overflowed"), c).
Proof.
  unfold ContentLeaseCounts_increment, checked_add. repeat case_decide; done || lia.
Qed.

Lemma decrement_spec k c :
  0 < ContentLeaseCounts_value c k →
  ContentLeaseCounts_decrement k c =
  (Ok tt, ContentLeaseCounts_value_mut c k (ContentLeaseCounts_value c k - 1)).
Proof.
  intros. unfold ContentLeaseCounts_decrement, checked_sub. case_decide; [done|lia].
Qed.

(** The blocker list, flattened: one optional blocker per guard, in order. *)
Definition blocker_when (c : bool) (b : ContentEvictionBlocker) :
    list ContentEvictionBlocker :=
  if c then [b] else [].

Lemma push_if_eq c b l : push_if c b l = l ++ blocker_when c b.
Proof. destruct c; cbn; by rewrite ?app_nil_r. Qed.

Lemma blocker_when_nil c b : blocker_when c b = [] ↔ c = false.
Proof. by destruct c. Qed.

Lemma eviction_blockers_eq e :
  ContentStorageEntry_eviction_blockers e =
  blocker_when (entry_pinned e) BlockedPinned ++
  blocker_when (bool_decide (is_Some (entry_dirty_snapshot e))) BlockedDirty ++
  blocker_when (bool_decide (count_open (entry_lease_counts e) > 0)) BlockedOpenLease ++
  blocker_when (bool_decide (count_read (entry_lease_counts e) > 0)) BlockedReadLease ++
  blocker_when (bool_decide (count_write (entry_lease_counts e) > 0)) BlockedWriteLease ++
  blocker_when (bool_decide (count_hydration (entry_lease_counts e) > 0))
    BlockedHydrationLease ++
  blocker_when (bool_decide (count_upload (entry_lease_counts e) > 0)) BlockedUploadLease ++
  blocker_when (bool_decide (count_verification (entry_lease_counts e) > 0))
    BlockedVerificationLease ++
  blocker_when (bool_decide (entry_active_cache_writes e > 0)) BlockedCacheWriteInProgress ++
  blocker_when (entry_eviction_reserved e) BlockedEvictionInProgress.
Proof.
  unfold ContentStorageEntry_eviction_blockers. cbv zeta.
  rewrite !push_if_eq, <- !app_assoc. done.
Qed.

(** Under the invariant the blocker list is empty exactly when the entry is
    unguarded and unreserved. *)
Lemma eviction_blockers_nil e :
  entry_inv e →
  ContentStorageEntry_eviction_blockers e = [] ↔
  entry_unguarded e ∧ entry_eviction_reserved e = false.
Proof.
  intros Hinv. rewrite eviction_blockers_eq.
  rewrite !app_nil, !blocker_when_nil, !bool_decide_eq_false.
  unfold entry_unguarded.
  rewrite <- eq_None_not_Some, <- (lease_count_zero (entry_leases e)).
  pose proof (inv_writes e Hinv) as [? _].
  assert (Hc : ∀ k, ¬ ContentLeaseCounts_value (entry_lease_counts e) k > 0 ↔
                 lease_count (entry_leases e) k = 0).
  { intros k. pose proof (inv_counts e Hinv k) as [-> _].
    pose proof (lease_count_nonneg (entry_leases e) k). lia. }
  split.
  - intros (?&?&Ho&Hr&Hw&Hh&Hu&Hv&?&?). split_and!; try done; [|lia].
    intros []; apply Hc; done.
  - intros ((?&?&Hk&?)&?). split_and!; try done; try lia.
    all: match goal with
    | |- ¬ count_open _ > 0 => apply (proj2 (Hc LeaseOpen))
    | |- ¬ count_read _ > 0 => apply (proj2 (Hc LeaseRead))
    | |- ¬ count_write _ > 0 => apply (proj2 (Hc LeaseWrite))
    | |- ¬ count_hydration _ > 0 => apply (proj2 (Hc LeaseHydration))
    | |- ¬ count_upload _ > 0 => apply (proj2 (Hc LeaseUpload))
    | |- ¬ count_verification _ > 0 => apply (proj2 (Hc LeaseVerification))
    end; apply Hk.
Qed.

Lemma entry_new_inv key mode total :
  in_u64 total → entry_inv (ContentStorageEntry_new key mode total).
Proof.
  intros. constructor; cbn; try done.
  - destruct mode; cbn; auto using RangeSet_new_wf.
  - destruct mode; cbn; split; (done || intros [? [=]]).
  - intros k. rewrite lease_count_empty. destruct k; cbn; width; done.
Qed.

(** ** Every call preserves the invariant *)

(** Rebuilds the invariant of an updated entry from that of the old one,
    leaving the clauses the update touches. *)
Ltac keep_inv H := destruct H; constructor; cbn in *; try assumption; try done.

Lemma record_range_inv r e :
  ByteRange_wf r → entry_inv e → entry_inv (entry_after (OpRecordRange r) e).
Proof.
  intros Hr Hinv. cbn. unfold ContentStorageEntry_record_provider_range.
  destruct (entry_provider_ranges e) as [rs|] eqn:Hrs; [|done].
  pose proof (inv_ranges e Hinv) as Hw. rewrite Hrs in Hw. destruct Hw as [Hm Hw].
  destruct (ContentRangeSet_insert_unfold r (entry_total_size e) rs Hw Hr)
    as (merged & Hwm & _ & ->).
  assert (∀ rs', RangeSet_wf (entry_total_size e) rs' →
            entry_inv (entry_with_ranges e (Some rs'))) as Hk.
  { intros rs' ?. keep_inv Hinv. }
  repeat case_decide; try (apply Hk; done).
  all: destruct (ContentRangeSet_covers rs r); try (apply Hk; done).
  apply Hk, Hwm. lia.
Qed.

Lemma observe_inv st e : entry_inv e → entry_inv (entry_after (OpObserve st) e).
Proof.
  intros Hinv. cbn. unfold ContentStorageEntry_observe_platform_materialization.
  destruct (entry_platform_materialization e) as [cur|] eqn:Hp; [|done].
  case_decide; [done|]. keep_inv Hinv. rewrite <- inv_materialization0, Hp. done.
Qed.

Lemma set_pinned_inv b e : entry_inv e → entry_inv (entry_after (OpSetPinned b) e).
Proof.
  intros Hinv. cbn. unfold ContentStorageEntry_set_pinned.
  destruct (b && entry_eviction_reserved e) eqn:Hb; [done|].
  keep_inv Hinv. intros Hr. rewrite Hr, andb_true_r in Hb. subst.
  destruct (inv_reserved0 Hr) as (?&?&?&?). done.
Qed.

Lemma mark_dirty_inv s e : entry_inv e → entry_inv (entry_after (OpMarkDirty s) e).
Proof.
  intros Hinv. cbn. unfold ContentStorageEntry_mark_dirty.
  destruct (entry_eviction_reserved e) eqn:Hr; [done|].
  case_decide as Hk; [done|].
  assert (entry_inv (entry_with_dirty e (Some s))).
  { keep_inv Hinv; [by intros ? [= <-]|congruence]. }
  destruct (entry_dirty_snapshot e); [|done]. repeat case_decide; done.
Qed.

Lemma clear_dirty_inv g e : entry_inv e → entry_inv (entry_after (OpClearDirty g) e).
Proof.
  intros Hinv. cbn. unfold ContentStorageEntry_clear_dirty.
  destruct (entry_dirty_snapshot e) as [s|] eqn:Hd; [|done].
  repeat case_decide; try done. keep_inv Hinv. intros Hr.
  destruct (inv_reserved0 Hr) as (?&?&?&?). done.
Qed.

Lemma acquire_lease_inv i k e :
  entry_inv e → entry_inv (entry_after (OpAcquireLease i k) e).
Proof.
  intros Hinv. cbn. unfold ContentStorageEntry_acquire_lease.
  destruct (entry_eviction_reserved e) eqn:Hr; [done|].
  destruct (entry_leases e !! i) as [k0|] eqn:Hi; [case_decide; done|].
  rewrite increment_spec. case_decide as Hmax; cbn; [|by keep_inv Hinv].
  keep_inv Hinv; [|congruence]. intros k'. rewrite value_mut_value, lease_count_insert by done.
  destruct (inv_counts0 k') as [Heq ?]. case_decide; subst; lia.
Qed.

Lemma release_lease_inv i e :
  entry_inv e → entry_inv (entry_after (OpReleaseLease i) e).
Proof.
  intros Hinv. cbn. unfold ContentStorageEntry_release_lease.
  destruct (entry_leases e !! i) as [k|] eqn:Hi; [|done].
  pose proof (lease_count_delete _ i k k Hi) as Hd.
  rewrite decide_True in Hd by done.
  pose proof (lease_count_nonneg (delete i (entry_leases e)) k).
  rewrite decrement_spec by (rewrite (proj1 (inv_counts e Hinv k)); lia). cbn.
  keep_inv Hinv.
  - intros k'. rewrite value_mut_value, (lease_count_delete _ i k) by done.
    destruct (inv_counts0 k') as [Heq ?]. case_decide; subst; lia.
  - intros Hr. destruct (inv_reserved0 Hr) as (?&?&Hl&?). by rewrite Hl in Hi.
Qed.

Lemma cache_write_inv op e :
  op = OpBeginCacheWrite ∨ op = OpCompleteCacheWrite →
  entry_inv e → entry_inv (entry_after op e).
Proof.
  intros [->| ->] Hinv; cbn.
  - unfold ContentStorageEntry_begin_cache_write.
    destruct (entry_provider_ranges e) eqn:Hp; [|done].
    destruct (entry_eviction_reserved e) eqn:Hr; [done|].
    destruct (checked_add _ _ _) eqn:Hc; [|done].
    apply checked_add_spec in Hc as [? ->]. keep_inv Hinv; [width|congruence].
  - unfold ContentStorageEntry_complete_cache_write.
    destruct (checked_sub _ _) eqn:Hc; [|done]. apply checked_sub_spec in Hc as [? ->].
    keep_inv Hinv; [width|]. intros Hr. destruct (inv_reserved0 Hr) as (?&?&?&?). lia.
Qed.

Lemma reserve_inv t e : entry_inv e → entry_inv (entry_after (OpReserveEviction t) e).
Proof.
  intros Hinv. cbn. unfold ContentStorageEntry_reserve_eviction.
  destruct (ContentEvictionPlan_for_target _ _); [|done].
  destruct (ContentStorageEntry_eviction_blockers e) eqn:Hb; [|done].
  apply eviction_blockers_nil in Hb as [? ?]; [|done]. cbn. keep_inv Hinv.
Qed.

Lemma reconcile_inv p e : entry_inv e → entry_inv (entry_after (OpReconcileEviction p) e).
Proof.
  intros Hinv. cbn. unfold ContentStorageEntry_reconcile_eviction.
  destruct (entry_eviction_reserved e) eqn:Hr; [|done]. cbn.
  assert (Hm : ∀ e', entry_inv e' → entry_inv
    (if evict_platform_materialization p then
       match entry_platform_materialization e' with
       | None => (Err (InvalidContentStorageState
               "eviction plan evicts an unowned platform materialization"), e')
       | Some _ => (Ok (E := CloudFilesCoreError) tt,
                    entry_with_materialization e' (Some MatDataless))
       end else (Ok tt, e')).2).
  { intros e' Hinv'. destruct (evict_platform_materialization p); [|done].
    destruct (entry_platform_materialization e') eqn:Hp; [|done]. cbn.
    keep_inv Hinv'. rewrite <- inv_materialization0, Hp. done. }
  destruct (remove_provider_cache p); [|by apply Hm].
  destruct (entry_provider_ranges e) as [rs|] eqn:Hp; [|done].
  apply Hm. pose proof (inv_ranges e Hinv) as Hw. rewrite Hp in Hw.
  keep_inv Hinv. split; [apply Hw|apply RangeSet_clear_wf].
Qed.

Lemma complete_eviction_inv e : entry_inv e → entry_inv (entry_after OpCompleteEviction e).
Proof.
  intros Hinv. cbn. unfold ContentStorageEntry_complete_eviction.
  destruct (entry_eviction_reserved e); [|done]. keep_inv Hinv.
Qed.

Lemma entry_after_inv op e : entry_op_wf op → entry_inv e → entry_inv (entry_after op e).
Proof.
  destruct op; intros; eauto using record_range_inv, observe_inv, set_pinned_inv,
    mark_dirty_inv, clear_dirty_inv, acquire_lease_inv, release_lease_inv,
    cache_write_inv, reserve_inv, reconcile_inv, complete_eviction_inv.
Qed.

Lemma entry_reachable_inv e : entry_reachable e → entry_inv e.
Proof. induction 1; auto using entry_new_inv, entry_after_inv. Qed.

(** ** Properties *)

(** What each blocker means in terms of the lease map and the guards. *)
Definition blocker_holds (e : ContentStorageEntry) (b : ContentEvictionBlocker) : Prop :=
  match b with
  | BlockedPinned => entry_pinned e = true
  | BlockedDirty => is_Some (entry_dirty_snapshot e)
  | BlockedOpenLease => 0 < lease_count (entry_leases e) LeaseOpen
  | BlockedReadLease => 0 < lease_count (entry_leases e) LeaseRead
  | BlockedWriteLease => 0 < lease_count (entry_leases e) LeaseWrite
  | BlockedHydrationLease => 0 < lease_count (entry_leases e) LeaseHydration
  | BlockedUploadLease => 0 < lease_count (entry_leases e) LeaseUpload
  | BlockedVerificationLease => 0 < lease_count (entry_leases e) LeaseVerification
  | BlockedCacheWriteInProgress => 0 < entry_active_cache_writes e
  | BlockedEvictionInProgress => entry_eviction_reserved e = true
  end.

#[export] Instance blocker_holds_dec e b : Decision (blocker_holds e b).
Proof. destruct b; cbn; apply _. Defined.

(** The documented order of the blockers. *)
Definition blocker_order : list ContentEvictionBlocker :=
  [BlockedPinned; BlockedDirty; BlockedOpenLease; BlockedReadLease; BlockedWriteLease;
   BlockedHydrationLease; BlockedUploadLease; BlockedVerificationLease;
   BlockedCacheWriteInProgress; BlockedEvictionInProgress].

Lemma filter_cons_when (P : ContentEvictionBlocker → Prop) `{∀ b, Decision (P b)} b l c :
  (c = true ↔ P b) → filter P (b :: l) = blocker_when c b ++ filter P l.
Proof.
  intros Hc. rewrite filter_cons. case_decide as HP.
  - by rewrite (proj2 Hc HP).
  - destruct c; [destruct HP; by apply Hc|done].
Qed.

Lemma eviction_blockers_filter e :
  entry_inv e →
  ContentStorageEntry_eviction_blockers e = filter (blocker_holds e) blocker_order.
Proof.
  intros Hinv. rewrite eviction_blockers_eq. unfold blocker_order.
  assert (Hl : ∀ k, ContentLeaseCounts_value (entry_lease_counts e) k =
                      lease_count (entry_leases e) k) by apply Hinv.
  rewrite <- (app_nil_r (blocker_when (entry_eviction_reserved e) _)).
  repeat (erewrite filter_cons_when; [apply (f_equal2 app eq_refl)|]).
  { by rewrite filter_nil. }
  all: cbn; rewrite ?bool_decide_eq_true; try done.
  all: rewrite <- ?Hl; cbn; lia.
Qed.

(** C3. Lease accounting: in every reachable entry the six counters
    are the numbers of leases held of each kind, releasing never hits the
    underflow error, acquiring a held lease again is a no-op (an error for
    another kind), and a fresh acquire followed by its release restores the
    entry. *)
Theorem lease_accounting (e : ContentStorageEntry) :
  entry_reachable e →
  (∀ k, ContentLeaseCounts_value (entry_lease_counts e) k =
          lease_count (entry_leases e) k) ∧
  (∀ i, match entry_leases e !! i with
        | None => ContentStorageEntry_release_lease i e = (Ok false, e)
        | Some _ => ∃ e', ContentStorageEntry_release_lease i e = (Ok true, e') ∧
                          entry_leases e' = delete i (entry_leases e)
        end) ∧
  (∀ i k, match ContentStorageEntry_acquire_lease i k e with
          | (Ok true, e') =>
              entry_leases e !! i = None ∧
              entry_leases e' = <[i := k]> (entry_leases e) ∧
              ContentStorageEntry_acquire_lease i k e' = (Ok false, e') ∧
              ContentStorageEntry_release_lease i e' = (Ok true, e)
          | (Ok false, e') => e' = e ∧ entry_leases e !! i = Some k
          | (Err _, e') => e' = e ∧
              (entry_eviction_reserved e = true ∨
               (∃ k', entry_leases e !! i = Some k' ∧ k' ≠ k) ∨
               lease_count (entry_leases e) k = U32_MAX)
          end).
Proof.
  intros Hinv%entry_reachable_inv. split; [apply Hinv|split].
  - intros i. unfold ContentStorageEntry_release_lease.
    destruct (entry_leases e !! i) as [k|] eqn:Hi; [|done].
    pose proof (lease_count_delete _ i k k Hi) as Hd. rewrite decide_True in Hd by done.
    pose proof (lease_count_nonneg (delete i (entry_leases e)) k).
    rewrite decrement_spec by (rewrite (proj1 (inv_counts e Hinv k)); lia). eauto.
  - intros i k. unfold ContentStorageEntry_acquire_lease at 1.
    destruct (entry_eviction_reserved e) eqn:Hr; [auto|].
    destruct (entry_leases e !! i) as [k0|] eqn:Hi.
    { case_decide; subst; [done|]. split; [done|]. right; left; eauto. }
    rewrite increment_spec. pose proof (inv_counts e Hinv k) as [Hk ?].
    pose proof (lease_count_nonneg (entry_leases e) k).
    case_decide; cbn; [|split; [by destruct e|right; right; lia]].
    split_and!; [done..| |].
    + unfold ContentStorageEntry_acquire_lease; cbn. rewrite Hr, lookup_insert_eq.
      by rewrite decide_True.
    + unfold ContentStorageEntry_release_lease; cbn. rewrite lookup_insert_eq.
      rewrite decrement_spec by (rewrite value_mut_value, decide_True by done; lia).
      rewrite value_mut_value, decide_True, delete_insert_id by done.
      destruct e as [????????[] ??]; destruct k; unfold entry_with_leases; cbn; repeat f_equal; lia.
Qed.

Definition sample_item_key : CloudItemKey :=
  CloudItemKey_new (CloudScope_new (mk_opaque "namespace") (mk_opaque "root"))
    (mk_opaque "item").
Definition sample_cache_key : ContentCacheKey :=
  ContentCacheKey_new sample_item_key (mk_opaque [Byte.x31]).
Definition sample_entry : ContentStorageEntry :=
  ContentStorageEntry_new sample_cache_key Hybrid 16.

Lemma sample_entry_reachable : entry_reachable sample_entry.
Proof. apply entry_reachable_new. split; vm_compute; congruence. Defined.

Lemma lease_accounting_witness :
  ContentStorageEntry_acquire_lease (mk_opaque "a") LeaseRead sample_entry =
    (Ok true, entry_after (OpAcquireLease (mk_opaque "a") LeaseRead) sample_entry) ∧
  ContentStorageEntry_release_lease (mk_opaque "a")
    (entry_after (OpAcquireLease (mk_opaque "a") LeaseRead) sample_entry) =
    (Ok true, sample_entry).
Proof.
  split; [reflexivity|].
  exact (proj2 (proj2 (proj2
    (proj2 (proj2 (lease_accounting sample_entry sample_entry_reachable))
      (mk_opaque "a") LeaseRead)))).
Defined.

(** C4. Reserving an eviction: a target outside the mode's ownership is an
    error; otherwise the blockers that hold are reported in the documented
    order and the entry is untouched, and exactly when none holds the entry
    becomes reserved with the plan of its mode and target. *)
Theorem reserve_eviction_spec (e : ContentStorageEntry) (target : ContentEvictionTarget) :
  entry_reachable e →
  match ContentEvictionPlan_for_target (entry_mode e) target with
  | Err err => ContentStorageEntry_reserve_eviction target e = (Err err, e)
  | Ok plan =>
      let blockers := filter (blocker_holds e) blocker_order in
      (blockers = [] ↔ entry_unguarded e ∧ entry_eviction_reserved e = false) ∧
      ContentStorageEntry_reserve_eviction target e =
        if decide (blockers = [])
        then (Ok (DecisionReserved plan), entry_with_reserved e true)
        else (Ok (DecisionBlocked blockers), e)
  end.
Proof.
  intros Hinv%entry_reachable_inv. unfold ContentStorageEntry_reserve_eviction.
  destruct (ContentEvictionPlan_for_target _ _) as [plan|]; [|done]. cbv zeta.
  rewrite <- eviction_blockers_filter by done.
  split; [by apply eviction_blockers_nil|].
  destruct (ContentStorageEntry_eviction_blockers e); [by rewrite decide_True|].
  by rewrite decide_False.
Qed.

Lemma reserve_eviction_spec_witness :
  ContentStorageEntry_reserve_eviction TargetAllManagedContent
    (entry_after (OpSetPinned true) sample_entry) =
    (Ok (DecisionBlocked [BlockedPinned]), entry_after (OpSetPinned true) sample_entry).
Proof.
  pose proof (reserve_eviction_spec (entry_after (OpSetPinned true) sample_entry)
    TargetAllManagedContent
    (entry_reachable_step (OpSetPinned true) _ sample_entry_reachable I)) as H.
  exact (proj2 H).
Defined.

(** Case analysis over every branch of a call. *)
Ltac branches :=
  repeat (case_decide || case_match); simplify_eq/=.

(** What no call changes: the identity, the ownership mode and the size; and
    only completion drops a reservation. *)
Lemma entry_after_frame op e :
  entry_key (entry_after op e) = entry_key e ∧
  entry_mode (entry_after op e) = entry_mode e ∧
  entry_total_size (entry_after op e) = entry_total_size e ∧
  (op ≠ OpCompleteEviction → entry_eviction_reserved e = true →
   entry_eviction_reserved (entry_after op e) = true).
Proof.
  destruct op; cbn;
  unfold ContentStorageEntry_record_provider_range,
    ContentStorageEntry_observe_platform_materialization, ContentStorageEntry_set_pinned,
    ContentStorageEntry_mark_dirty, ContentStorageEntry_clear_dirty,
    ContentStorageEntry_acquire_lease, ContentStorageEntry_release_lease,
    ContentStorageEntry_begin_cache_write, ContentStorageEntry_complete_cache_write,
    ContentStorageEntry_reserve_eviction, ContentStorageEntry_reconcile_eviction,
    ContentStorageEntry_complete_eviction;
  branches; split_and!; try done; congruence.
Qed.

Definition entry_run (ops : list entry_op) (e : ContentStorageEntry) : ContentStorageEntry :=
  foldl (λ e op, entry_after op e) e ops.

Lemma entry_run_reserved ops : ∀ e,
  entry_reachable e → entry_eviction_reserved e = true →
  Forall (λ op, entry_op_wf op ∧ op ≠ OpCompleteEviction) ops →
  entry_reachable (entry_run ops e) ∧
  entry_eviction_reserved (entry_run ops e) = true ∧
  entry_mode (entry_run ops e) = entry_mode e.
Proof.
  induction ops as [|op ops IH]; intros e Hre Hr Hops; [done|].
  apply list.Forall_cons in Hops as [[Hop Hne] Hops].
  destruct (entry_after_frame op e) as (_ & Hm & _ & Hr').
  destruct (IH (entry_after op e)) as (?&?&?);
    [by apply entry_reachable_step|by apply Hr'|done|].
  split_and!; [done..|]. by rewrite <- Hm.
Qed.

(** A plan for the entry's own mode only asks for layers the entry owns. *)
Lemma plan_owned e target plan :
  entry_inv e → ContentEvictionPlan_for_target (entry_mode e) target = Ok plan →
  (remove_provider_cache plan = true → is_Some (entry_provider_ranges e)) ∧
  (evict_platform_materialization plan = true →
   is_Some (entry_platform_materialization e)).
Proof.
  intros Hinv Hp. pose proof (inv_ranges e Hinv) as Hr.
  rewrite (inv_materialization e Hinv).
  destruct (entry_mode e), target, (entry_provider_ranges e);
    cbn in *; simplify_eq/=; try done; naive_solver.
Qed.

(** Reconciling an owned plan under a reservation empties exactly its layers. *)
Lemma reconcile_owned plan e :
  entry_eviction_reserved e = true →
  (remove_provider_cache plan = true → is_Some (entry_provider_ranges e)) →
  (evict_platform_materialization plan = true →
   is_Some (entry_platform_materialization e)) →
  ∃ e', ContentStorageEntry_reconcile_eviction plan e = (Ok tt, e') ∧
    entry_provider_ranges e' =
      (if remove_provider_cache plan then Some ContentRangeSet_new
       else entry_provider_ranges e) ∧
    entry_platform_materialization e' =
      (if evict_platform_materialization plan then Some MatDataless
       else entry_platform_materialization e).
Proof.
  intros Hr Hown1 Hown2. unfold ContentStorageEntry_reconcile_eviction. rewrite Hr. cbn.
  destruct (remove_provider_cache plan), (evict_platform_materialization plan);
    repeat match goal with
    | H : true = true → is_Some _ |- _ => destruct (H eq_refl) as [? ->]; clear H; cbn
    end; eauto.
Qed.

(** C5. From a successful reservation until completion, whatever calls are
    interleaved, the entry stays reserved and unguarded, every call that
    would protect it (pin, dirty snapshot, lease, cache write) is refused
    without effect, the reserved plan can be reconciled without error,
    emptying exactly the layers it names, and completion then makes the entry
    evictable again. *)
Theorem eviction_protocol (e e1 : ContentStorageEntry) (target : ContentEvictionTarget)
    (plan : ContentEvictionPlan) (ops : list entry_op) :
  entry_reachable e →
  ContentStorageEntry_reserve_eviction target e = (Ok (DecisionReserved plan), e1) →
  Forall (λ op, entry_op_wf op ∧ op ≠ OpCompleteEviction) ops →
  let e2 := entry_run ops e1 in
  entry_eviction_reserved e2 = true ∧ entry_unguarded e2 ∧
  (∃ err, ContentStorageEntry_set_pinned true e2 = (Err err, e2)) ∧
  (∀ s, ∃ err, ContentStorageEntry_mark_dirty s e2 = (Err err, e2)) ∧
  (∀ i k, ∃ err, ContentStorageEntry_acquire_lease i k e2 = (Err err, e2)) ∧
  (∃ err, ContentStorageEntry_begin_cache_write e2 = (Err err, e2)) ∧
  ∃ e3, ContentStorageEntry_reconcile_eviction plan e2 = (Ok tt, e3) ∧
    entry_provider_ranges e3 =
      (if remove_provider_cache plan then Some ContentRangeSet_new
       else entry_provider_ranges e2) ∧
    entry_platform_materialization e3 =
      (if evict_platform_materialization plan then Some MatDataless
       else entry_platform_materialization e2) ∧
    ContentStorageEntry_complete_eviction e3 = (Ok tt, entry_with_reserved e3 false) ∧
    ContentStorageEntry_eviction_blockers (entry_with_reserved e3 false) = [].
Proof.
  intros Hre Hres Hops e2.
  assert (Hre1 : entry_reachable e1).
  { pose proof (entry_reachable_step (OpReserveEviction target) e Hre I) as H.
    cbn in H. by rewrite Hres in H. }
  assert (Hr1 : entry_eviction_reserved e1 = true ∧ entry_mode e1 = entry_mode e ∧
                ContentEvictionPlan_for_target (entry_mode e) target = Ok plan).
  { unfold ContentStorageEntry_reserve_eviction in Hres. branches; auto. }
  destruct Hr1 as (Hr1 & Hm1 & Hplan).
  destruct (entry_run_reserved ops e1 Hre1 Hr1 Hops) as (Hre2 & Hr2 & Hm2).
  fold e2 in Hre2, Hr2, Hm2. clearbody e2.
  pose proof (entry_reachable_inv e2 Hre2) as Hinv2.
  rewrite <- Hm1, <- Hm2 in Hplan.
  destruct (plan_owned e2 target plan Hinv2 Hplan) as [Hown1 Hown2].
  pose proof (inv_reserved e2 Hinv2 Hr2) as Hun.
  split_and!; [done|done| | | | |].
  - unfold ContentStorageEntry_set_pinned. rewrite Hr2. cbn. eauto.
  - intros s. unfold ContentStorageEntry_mark_dirty. rewrite Hr2. eauto.
  - intros i k. unfold ContentStorageEntry_acquire_lease. rewrite Hr2. eauto.
  - unfold ContentStorageEntry_begin_cache_write. rewrite Hr2. case_match; eauto.
  - destruct (reconcile_owned plan e2 Hr2 Hown1 Hown2) as (e3 & Hrec & ? & ?).
    assert (Hre3 : entry_reachable e3).
    { pose proof (entry_reachable_step (OpReconcileEviction plan) e2 Hre2 I) as Hst.
      cbn in Hst. by rewrite Hrec in Hst. }
    destruct (entry_after_frame (OpReconcileEviction plan) e2) as (_&_&_&Hr3).
    cbn in Hr3. rewrite Hrec in Hr3. cbn in Hr3.
    specialize (Hr3 ltac:(done) Hr2).
    assert (Hc : ContentStorageEntry_complete_eviction e3 =
                 (Ok tt, entry_with_reserved e3 false)).
    { unfold ContentStorageEntry_complete_eviction. by rewrite Hr3. }
    exists e3. split_and!; try done.
    pose proof (entry_reachable_step OpCompleteEviction e3 Hre3 I) as H4.
    cbn in H4. rewrite Hc in H4. apply eviction_blockers_nil; [by apply entry_reachable_inv|].
    split; [|done]. apply (inv_reserved e3); [by apply entry_reachable_inv|done].
Qed.

Definition sample_reserved : ContentStorageEntry :=
  entry_after (OpReserveEviction TargetAllManagedContent) sample_entry.

Lemma eviction_protocol_witness :
  let e2 := entry_run [OpAcquireLease (mk_opaque "a") LeaseRead;
                       OpRecordRange (sample_range 0 4)] sample_reserved in
  entry_provider_ranges e2 = Some (mk_ContentRangeSet [sample_range 0 4]) ∧
  entry_eviction_reserved e2 = true ∧ entry_unguarded e2.
Proof.
  split; [reflexivity|].
  pose proof (eviction_protocol sample_entry sample_reserved TargetAllManagedContent
    (mk_ContentEvictionPlan true true true)
    [OpAcquireLease (mk_opaque "a") LeaseRead; OpRecordRange (sample_range 0 4)]
    sample_entry_reachable eq_refl
    ltac:(repeat constructor; vm_compute; congruence)) as H.
  exact (conj (proj1 H) (proj1 (proj2 H))).
Defined.

(** One call never replaces a dirty snapshot by another one that is not of a
    strictly newer generation, and only a clear carrying exactly its
    generation removes it. *)
Lemma entry_after_dirty op e s :
  entry_dirty_snapshot e = Some s →
  match entry_dirty_snapshot (entry_after op e) with
  | Some s' => s' = s ∨ local_generation_get (snapshot_generation s) <
                        local_generation_get (snapshot_generation s')
  | None => ∃ g, op = OpClearDirty g ∧
                 local_generation_get g = local_generation_get (snapshot_generation s)
  end.
Proof.
  intros Hd.
  destruct op; cbn;
  unfold ContentStorageEntry_record_provider_range,
    ContentStorageEntry_observe_platform_materialization, ContentStorageEntry_set_pinned,
    ContentStorageEntry_mark_dirty, ContentStorageEntry_clear_dirty,
    ContentStorageEntry_acquire_lease, ContentStorageEntry_release_lease,
    ContentStorageEntry_begin_cache_write, ContentStorageEntry_complete_cache_write,
    ContentStorageEntry_reserve_eviction, ContentStorageEntry_reconcile_eviction,
    ContentStorageEntry_complete_eviction; rewrite ?Hd;
  branches; auto.
  - right. match goal with
    | Hne : ?g1 ≠ ?g2 |- _ < local_generation_get ?g1 =>
        assert (local_generation_get g1 ≠ local_generation_get g2);
          [intros Heq; destruct g1, g2; cbn in *; congruence|lia]
    end.
  - eexists. split; [done|lia].
Qed.

(** Older clears cannot lose the snapshot over any sequence of calls. *)
Lemma entry_run_dirty s ops : ∀ s1 e,
  (s1 = s ∨ local_generation_get (snapshot_generation s) <
            local_generation_get (snapshot_generation s1)) →
  entry_reachable e → entry_dirty_snapshot e = Some s1 →
  Forall (λ op, entry_op_wf op ∧ ∀ g, op = OpClearDirty g →
            local_generation_get g < local_generation_get (snapshot_generation s)) ops →
  ∃ s', entry_reachable (entry_run ops e) ∧
    entry_dirty_snapshot (entry_run ops e) = Some s' ∧
    (s' = s ∨ local_generation_get (snapshot_generation s) <
              local_generation_get (snapshot_generation s')).
Proof.
  induction ops as [|op ops IH]; intros s1 e Hs1 Hre Hd Hops; [eauto|].
  apply list.Forall_cons in Hops as [[Hwf Hclear] Hops].
  pose proof (entry_after_dirty op e s1 Hd) as Hstep.
  pose proof (entry_reachable_step op e Hre Hwf) as Hre1.
  destruct (entry_dirty_snapshot (entry_after op e)) as [s2|] eqn:Hd2.
  - apply (IH s2); [|done..].
    destruct Hs1 as [->|?], Hstep as [->|?]; auto; right; lia.
  - destruct Hstep as (g & -> & Hg). specialize (Hclear g eq_refl).
    destruct Hs1 as [->|?]; lia.
Qed.

(** C6. Local changes survive: once a snapshot is recorded, no sequence of
    calls whose dirty clears all belong to older generations (late upload
    completions) can lose it: the entry still holds it or a newer generation,
    and no eviction of the entry can be reserved. *)
Theorem dirty_fencing (e : ContentStorageEntry) (s : LocalContentSnapshot)
    (ops : list entry_op) :
  entry_reachable e → entry_dirty_snapshot e = Some s →
  Forall (λ op, entry_op_wf op ∧ ∀ g, op = OpClearDirty g →
            local_generation_get g < local_generation_get (snapshot_generation s)) ops →
  ∃ s', entry_dirty_snapshot (entry_run ops e) = Some s' ∧
    (s' = s ∨ local_generation_get (snapshot_generation s) <
              local_generation_get (snapshot_generation s')) ∧
    ∀ target plan,
      (ContentStorageEntry_reserve_eviction target (entry_run ops e)).1 ≠
        Ok (DecisionReserved plan).
Proof.
  intros Hre Hd Hops.
  destruct (entry_run_dirty s ops s e) as (s' & Hre' & Hd' & Hs'); [auto..|].
  exists s'. split_and!; [done..|]. intros target plan Hres.
  pose proof (entry_reachable_inv _ Hre') as Hinv.
  unfold ContentStorageEntry_reserve_eviction in Hres. branches.
  match goal with H : ContentStorageEntry_eviction_blockers _ = [] |- _ =>
    apply eviction_blockers_nil in H as [(?&?&?&?) ?]; [congruence|done] end.
Qed.

Definition sample_snapshot (generation : Z) : LocalContentSnapshot :=
  LocalContentSnapshot_new sample_item_key (mk_LocalContentGeneration generation)
    (mk_opaque "reference") 4 None.

Lemma dirty_fencing_witness :
  let e := entry_after (OpMarkDirty (sample_snapshot 2)) sample_entry in
  ∃ s', entry_dirty_snapshot
          (entry_run [OpClearDirty (mk_LocalContentGeneration 1);
                      OpMarkDirty (sample_snapshot 3)] e) = Some s'.
Proof.
  destruct (dirty_fencing (entry_after (OpMarkDirty (sample_snapshot 2)) sample_entry)
    (sample_snapshot 2)
    [OpClearDirty (mk_LocalContentGeneration 1); OpMarkDirty (sample_snapshot 3)])
    as (s' & H & _).
  - exact (entry_reachable_step (OpMarkDirty (sample_snapshot 2)) _
             sample_entry_reachable I).
  - reflexivity.
  - repeat constructor; intros g [= <-]; vm_compute; reflexivity.
  - exists s'. exact H.
Defined.
