(* ===== verification/Journal.v ===== *)
(** * Durable journal records

    The eviction, cache-write, upload and mutation records of the core all
    follow one discipline: each transition either applies (strict progress),
    reports that it was already applied, or fails; the last two leave the
    record alone.  [Journal] is that interface, [JournalLaws] its contract;
    the crash-recovery theorems below are proved once, from the contract, and
    every record instantiates it. *)
From S2P Require Export Errors.

Class Journal (R : Type) := {
  journal_op : Type;
  journal_transition : Type;
  journal_apply : journal_op → R → core_result journal_transition * R;
  (** The transition results that report a durable change. *)
  journal_applied : journal_transition → bool;
  (** How far the record has advanced. *)
  journal_rank : R → Z;
  journal_completed : R → bool;
  (** What the record's private fields satisfy. *)
  journal_inv : R → Prop;
  (** The effect of the operation is already in the record. *)
  journal_done : journal_op → R → Prop;
}.

Class JournalLaws (R : Type) `{Journal R} := {
  journal_inv_step op r : journal_inv r → journal_inv (journal_apply op r).2;
  journal_progress op r : journal_inv r →
    match journal_apply op r with
    | (Ok t, r') => if journal_applied t then journal_rank r < journal_rank r' else r' = r
    | (Err _, r') => r' = r
    end;
  journal_applied_done op r t r' : journal_inv r →
    journal_apply op r = (Ok t, r') → journal_done op r';
  journal_done_step op op' r : journal_inv r →
    journal_done op r → journal_done op (journal_apply op' r).2;
  journal_done_stable op r : journal_inv r →
    journal_done op r → (journal_apply op r).2 = r;
  journal_completed_stable op r : journal_inv r →
    journal_completed r = true → (journal_apply op r).2 = r;
}.

Section journal.
Context {R : Type} `{JournalLaws R}.

Definition journal_run (ops : list journal_op) (r : R) : R :=
  foldl (λ r op, (journal_apply op r).2) r ops.

(** The operation reports a durable change of this record. *)
Definition journal_applies (op : journal_op) (r : R) : Prop :=
  ∃ t, (journal_apply op r).1 = Ok t ∧ journal_applied t = true.

Lemma journal_run_inv ops : ∀ r, journal_inv r → journal_inv (journal_run ops r).
Proof.
  induction ops as [|op ops IH]; intros r Hinv; [done|].
  by apply (IH _), journal_inv_step.
Qed.

Lemma journal_rank_step op r :
  journal_inv r → journal_rank r ≤ journal_rank (journal_apply op r).2.
Proof.
  intros Hinv. pose proof (journal_progress op r Hinv) as Hp.
  destruct (journal_apply op r) as [[t|e] r']; cbn in *; [|by subst].
  destruct (journal_applied t); [lia|by subst].
Qed.

Lemma journal_run_rank ops : ∀ r,
  journal_inv r → journal_rank r ≤ journal_rank (journal_run ops r).
Proof.
  induction ops as [|op ops IH]; intros r Hinv; cbn; [lia|].
  pose proof (journal_rank_step op r Hinv).
  specialize (IH _ (journal_inv_step op r Hinv)). unfold journal_run in IH. lia.
Qed.

Lemma journal_run_app ops1 ops2 r :
  journal_run (ops1 ++ ops2) r = journal_run ops2 (journal_run ops1 r).
Proof. apply foldl_app. Qed.

(** A run that changed the record made strict progress. *)
Lemma journal_run_strict ops : ∀ r,
  journal_inv r → journal_run ops r ≠ r → journal_rank r < journal_rank (journal_run ops r).
Proof.
  induction ops as [|op ops IH]; intros r Hinv Hne; [done|].
  change (journal_run (op :: ops) r) with (journal_run ops (journal_apply op r).2) in *.
  pose proof (journal_progress op r Hinv) as Hp.
  pose proof (journal_inv_step op r Hinv) as Hinv'.
  destruct (journal_apply op r) as [[t|e] r']; cbn in *.
  - destruct (journal_applied t); [|subst; auto].
    pose proof (journal_run_rank ops r' Hinv'). lia.
  - subst. auto.
Qed.

Lemma journal_run_done op ops : ∀ r,
  journal_inv r → journal_done op r → journal_done op (journal_run ops r).
Proof.
  induction ops as [|op' ops IH]; intros r Hinv Hd; [done|].
  apply (IH (journal_apply op' r).2); auto using journal_inv_step, journal_done_step.
Qed.

(** A record that changed did so through a reported application. *)
Lemma journal_change_applies op r :
  journal_inv r → (journal_apply op r).2 ≠ r → journal_applies op r.
Proof.
  intros Hinv Hne. pose proof (journal_progress op r Hinv) as Hp. unfold journal_applies.
  destruct (journal_apply op r) as [[t|e] r']; cbn in *; [|by subst].
  destruct (journal_applied t) eqn:Ht; [eauto|by subst].
Qed.

Lemma journal_done_not_applies op r :
  journal_inv r → journal_done op r → ¬ journal_applies op r.
Proof.
  intros Hinv Hd (t & Ht & Happ). pose proof (journal_progress op r Hinv) as Hp.
  pose proof (journal_done_stable op r Hinv Hd) as Hs.
  destruct (journal_apply op r) as [res r']; cbn in *; subst. rewrite Happ in Hp. lia.
Qed.

(** Crash replay: an operation that succeeded once, however its success was
    classified, never changes the record again, whatever ran in between. *)
Lemma journal_at_most_once op ops r t r' :
  journal_inv r → journal_apply op r = (Ok t, r') →
  ¬ journal_applies op (journal_run ops r') ∧
  (journal_apply op (journal_run ops r')).2 = journal_run ops r'.
Proof.
  intros Hinv Ha.
  assert (Hinv' : journal_inv r').
  { pose proof (journal_inv_step op r Hinv) as Hi. by rewrite Ha in Hi. }
  pose proof (journal_run_done op ops r' Hinv' (journal_applied_done op r t r' Hinv Ha)).
  pose proof (journal_run_inv ops r' Hinv').
  split; [by apply journal_done_not_applies|by apply journal_done_stable].
Qed.

Lemma journal_completed_run ops : ∀ r,
  journal_inv r → journal_completed r = true → journal_run ops r = r.
Proof.
  induction ops as [|op ops IH]; intros r Hinv Hc; cbn; [done|].
  rewrite journal_completed_stable by done. by apply IH.
Qed.

(** How many durable changes a run makes. *)
Fixpoint journal_changes `{EqDecision R} (ops : list journal_op) (r : R) : Z :=
  match ops with
  | [] => 0
  | op :: ops =>
      let r' := (journal_apply op r).2 in
      (if decide (r' = r) then 0 else 1) + journal_changes ops r'
  end.

(** Changes are bounded by the distance the rank travels. *)
Lemma journal_changes_bound `{EqDecision R} ops : ∀ r,
  journal_inv r →
  journal_changes ops r ≤ journal_rank (journal_run ops r) - journal_rank r.
Proof.
  induction ops as [|op ops IH]; intros r Hinv; [cbn; lia|].
  specialize (IH _ (journal_inv_step op r Hinv)).
  change (journal_run (op :: ops) r) with (journal_run ops (journal_apply op r).2).
  cbn [journal_changes].
  pose proof (journal_progress op r Hinv) as Hp.
  destruct (journal_apply op r) as [[t|e] r']; cbn in Hp, IH |- *.
  - destruct (journal_applied t); case_decide; subst; done || lia.
  - subst. rewrite decide_True by done. lia.
Qed.
End journal.
