(* ===== verification/Eviction.v ===== *)
(** * Durable eviction records

    [ContentEvictionIntent] and [ContentEvictionRecord] of
    [content_storage.rs]: the journal that drives one eviction through its
    physical effects, metadata reconciliation and completion, replayable after
    a crash at any point. *)
From S2P Require Export ContentStorage Journal.

Record ContentEvictionIntent : Type := ContentEvictionIntent_new {
  eviction_operation_id : ContentEvictionOperationId;
  eviction_cache_key : ContentCacheKey;
  eviction_target : ContentEvictionTarget;
  eviction_session_generation : SessionGeneration;
}.

#[export] Instance ContentEvictionIntent_eq_dec : EqDecision ContentEvictionIntent.
Proof. solve_decision. Defined.

Inductive ContentEvictionPhysicalEffect : Type :=
  | ProviderCacheRemoved
  | PlatformMaterializationEvicted
  | PlatformContentInvalidated.

#[export] Instance ContentEvictionPhysicalEffect_eq_dec :
  EqDecision ContentEvictionPhysicalEffect.
Proof. solve_decision. Defined.

Inductive ContentEvictionState : Type :=
  | EvIntentPersisted | EvPhysicalEffectsApplied | EvMetadataReconciled | EvCompleted.

#[export] Instance ContentEvictionState_eq_dec : EqDecision ContentEvictionState.
Proof. solve_decision. Defined.

Inductive ContentEvictionRecordTransition : Type :=
  | EvApplied | EvAlreadyApplied.

Record ContentEvictionRecord : Type := mk_ContentEvictionRecord {
  ev_intent : ContentEvictionIntent;
  ev_plan : ContentEvictionPlan;
  ev_state : ContentEvictionState;
  ev_provider_cache_removed : bool;
  ev_platform_materialization_evicted : bool;
  ev_platform_content_invalidated : bool;
}.

#[export] Instance ContentEvictionRecord_eq_dec : EqDecision ContentEvictionRecord.
Proof. solve_decision. Defined.

Definition ContentEvictionRecord_persist (intent : ContentEvictionIntent)
    (plan : ContentEvictionPlan) : ContentEvictionRecord :=
  mk_ContentEvictionRecord intent plan EvIntentPersisted false false false.

Definition ContentEvictionRecord_has_observed_effect (r : ContentEvictionRecord)
    (effect : ContentEvictionPhysicalEffect) : bool :=
  match effect with
  | ProviderCacheRemoved => ev_provider_cache_removed r
  | PlatformMaterializationEvicted => ev_platform_materialization_evicted r
  | PlatformContentInvalidated => ev_platform_content_invalidated r
  end.

(** The plan's bit for an effect ([required] of [record_physical_effect]). *)
Definition plan_requires (plan : ContentEvictionPlan)
    (effect : ContentEvictionPhysicalEffect) : bool :=
  match effect with
  | ProviderCacheRemoved => remove_provider_cache plan
  | PlatformMaterializationEvicted => evict_platform_materialization plan
  | PlatformContentInvalidated => invalidate_platform_content plan
  end.

(** [*observed = true] through the reference selected by the effect. *)
Definition ev_with_observed (r : ContentEvictionRecord)
    (effect : ContentEvictionPhysicalEffect) : ContentEvictionRecord :=
  let '(mk_ContentEvictionRecord i p s a b c) := r in
  match effect with
  | ProviderCacheRemoved => mk_ContentEvictionRecord i p s true b c
  | PlatformMaterializationEvicted => mk_ContentEvictionRecord i p s a true c
  | PlatformContentInvalidated => mk_ContentEvictionRecord i p s a b true
  end.

Definition ev_with_state (r : ContentEvictionRecord) (s : ContentEvictionState) :
    ContentEvictionRecord :=
  mk_ContentEvictionRecord (ev_intent r) (ev_plan r) s (ev_provider_cache_removed r)
    (ev_platform_materialization_evicted r) (ev_platform_content_invalidated r).

Definition ContentEvictionRecord_all_required_effects_observed
    (r : ContentEvictionRecord) : bool :=
  (negb (remove_provider_cache (ev_plan r)) || ev_provider_cache_removed r) &&
  (negb (evict_platform_materialization (ev_plan r)) ||
   ev_platform_materialization_evicted r) &&
  (negb (invalidate_platform_content (ev_plan r)) || ev_platform_content_invalidated r).

Definition ContentEvictionRecord_record_physical_effect
    (effect : ContentEvictionPhysicalEffect) (r : ContentEvictionRecord)
    : core_result ContentEvictionRecordTransition * ContentEvictionRecord :=
  if negb (plan_requires (ev_plan r) effect) then
    (Err (InvalidContentEvictionTransition
       "physical effect is not required by the eviction plan"), r)
  else if ContentEvictionRecord_has_observed_effect r effect then
    (Ok EvAlreadyApplied, r)
  else match ev_state r with
  | EvIntentPersisted | EvPhysicalEffectsApplied =>
      let r := ev_with_observed r effect in
      if ContentEvictionRecord_all_required_effects_observed r
      then (Ok EvApplied, ev_with_state r EvPhysicalEffectsApplied)
      else (Ok EvApplied, r)
  | _ =>
      (Err (InvalidContentEvictionTransition
         "physical effect must precede metadata reconciliation"), r)
  end.

Definition ContentEvictionRecord_mark_metadata_reconciled (r : ContentEvictionRecord)
    : core_result ContentEvictionRecordTransition * ContentEvictionRecord :=
  match ev_state r with
  | EvPhysicalEffectsApplied => (Ok EvApplied, ev_with_state r EvMetadataReconciled)
  | EvMetadataReconciled | EvCompleted => (Ok EvAlreadyApplied, r)
  | EvIntentPersisted =>
      (Err (InvalidContentEvictionTransition
         "metadata reconciliation requires all physical effects"), r)
  end.

Definition ContentEvictionRecord_complete (r : ContentEvictionRecord)
    : core_result ContentEvictionRecordTransition * ContentEvictionRecord :=
  match ev_state r with
  | EvMetadataReconciled => (Ok EvApplied, ev_with_state r EvCompleted)
  | EvCompleted => (Ok EvAlreadyApplied, r)
  | _ =>
      (Err (InvalidContentEvictionTransition
         "eviction completion requires metadata reconciliation"), r)
  end.

(** ** The record as a journal *)
Inductive eviction_op : Type :=
  | EvOpEffect (effect : ContentEvictionPhysicalEffect)
  | EvOpMarkReconciled
  | EvOpComplete.

Definition eviction_apply (op : eviction_op) (r : ContentEvictionRecord) :=
  match op with
  | EvOpEffect effect => ContentEvictionRecord_record_physical_effect effect r
  | EvOpMarkReconciled => ContentEvictionRecord_mark_metadata_reconciled r
  | EvOpComplete => ContentEvictionRecord_complete r
  end.

Definition eviction_state_rank (s : ContentEvictionState) : Z :=
  match s with
  | EvIntentPersisted => 0
  | EvPhysicalEffectsApplied => 1
  | EvMetadataReconciled => 2
  | EvCompleted => 3
  end.

(** The effects are complete exactly when the record has left its first
    state; only required effects are ever recorded. *)
Definition eviction_inv (r : ContentEvictionRecord) : Prop :=
  (ContentEvictionRecord_all_required_effects_observed r = false ↔
   ev_state r = EvIntentPersisted) ∧
  ∀ effect, ContentEvictionRecord_has_observed_effect r effect = true →
            plan_requires (ev_plan r) effect = true.

Definition eviction_rank (r : ContentEvictionRecord) : Z :=
  eviction_state_rank (ev_state r) + Z.b2z (ev_provider_cache_removed r) +
  Z.b2z (ev_platform_materialization_evicted r) +
  Z.b2z (ev_platform_content_invalidated r).

#[export] Instance eviction_journal : Journal ContentEvictionRecord := {
  journal_op := eviction_op;
  journal_transition := ContentEvictionRecordTransition;
  journal_apply := eviction_apply;
  journal_applied t := match t with EvApplied => true | EvAlreadyApplied => false end;
  journal_rank := eviction_rank;
  journal_completed r := bool_decide (ev_state r = EvCompleted);
  journal_inv := eviction_inv;
  journal_done op r :=
    match op with
    | EvOpEffect effect => ContentEvictionRecord_has_observed_effect r effect = true
    | EvOpMarkReconciled => 2 ≤ eviction_state_rank (ev_state r)
    | EvOpComplete => 3 ≤ eviction_state_rank (ev_state r)
    end;
}.

#[local] Arguments ContentEvictionRecord_has_observed_effect : simpl never.

Lemma ev_with_state_observed r s e :
  ContentEvictionRecord_has_observed_effect (ev_with_state r s) e =
  ContentEvictionRecord_has_observed_effect r e.
Proof. by destruct e. Qed.

Lemma all_required_iff r :
  ContentEvictionRecord_all_required_effects_observed r = true ↔
  ∀ e, plan_requires (ev_plan r) e = true →
       ContentEvictionRecord_has_observed_effect r e = true.
Proof.
  unfold ContentEvictionRecord_all_required_effects_observed.
  rewrite !andb_true_iff, !orb_true_iff, !negb_true_iff. split.
  - intros [[[H1|H1] [H2|H2]] [H3|H3]] []; unfold ContentEvictionRecord_has_observed_effect; cbn; congruence.
  - unfold ContentEvictionRecord_has_observed_effect.
    intros H. pose proof (H ProviderCacheRemoved) as H1.
    pose proof (H PlatformMaterializationEvicted) as H2.
    pose proof (H PlatformContentInvalidated) as H3. cbn in *.
    destruct (remove_provider_cache _), (evict_platform_materialization _),
      (invalidate_platform_content _); intuition.
Qed.

Lemma ev_with_observed_observed r e e' :
  ContentEvictionRecord_has_observed_effect (ev_with_observed r e) e' =
  if decide (e = e') then true else ContentEvictionRecord_has_observed_effect r e'.
Proof. destruct r, e, e'; reflexivity. Qed.

Lemma ev_with_observed_plan r e : ev_plan (ev_with_observed r e) = ev_plan r.
Proof. by destruct r, e. Qed.
Lemma ev_with_observed_state r e : ev_state (ev_with_observed r e) = ev_state r.
Proof. by destruct r, e. Qed.
Lemma ev_with_observed_rank r e :
  ContentEvictionRecord_has_observed_effect r e = false →
  eviction_rank (ev_with_observed r e) = eviction_rank r + 1.
Proof.
  unfold eviction_rank, ContentEvictionRecord_has_observed_effect.
  destruct r, e; cbn; intros ->; cbn; lia.
Qed.
Lemma ev_with_state_rank r s :
  eviction_rank (ev_with_state r s) =
  eviction_rank r - eviction_state_rank (ev_state r) + eviction_state_rank s.
Proof. unfold eviction_rank. cbn. lia. Qed.

(** Recording an effect, as one of four outcomes. *)
Lemma record_effect_cases e r :
  eviction_inv r →
  (plan_requires (ev_plan r) e = false ∧
   ∃ err, ContentEvictionRecord_record_physical_effect e r = (Err err, r)) ∨
  (ContentEvictionRecord_has_observed_effect r e = true ∧
   ContentEvictionRecord_record_physical_effect e r = (Ok EvAlreadyApplied, r)) ∨
  (plan_requires (ev_plan r) e = true ∧ ev_state r = EvIntentPersisted ∧
   ContentEvictionRecord_has_observed_effect r e = false ∧
   ContentEvictionRecord_record_physical_effect e r =
     (Ok EvApplied,
      let r' := ev_with_observed r e in
      if ContentEvictionRecord_all_required_effects_observed r'
      then ev_with_state r' EvPhysicalEffectsApplied else r')).
Proof.
  intros [Hs Ho]. unfold ContentEvictionRecord_record_physical_effect.
  destruct (plan_requires (ev_plan r) e) eqn:Hreq; cbn; [|left; eauto].
  destruct (ContentEvictionRecord_has_observed_effect r e) eqn:Hobs; [auto|].
  assert (Hst : ev_state r = EvIntentPersisted).
  { apply Hs. apply not_true_iff_false. rewrite all_required_iff. intros Hall.
    specialize (Hall e Hreq). congruence. }
  right; right. rewrite Hst. cbv zeta. split_and!; try done. by case_match.
Qed.

Lemma eviction_persist_inv intent plan :
  (∃ e, plan_requires plan e = true) → eviction_inv (ContentEvictionRecord_persist intent plan).
Proof.
  intros [e He]. split; [|by intros []]. split; [done|]. intros _.
  apply not_true_iff_false. rewrite all_required_iff. intros Hall.
  specialize (Hall e He). by destruct e.
Qed.

(** Moving between states that both have all effects keeps the invariant. *)
Lemma eviction_inv_with_state r s :
  eviction_inv r → ev_state r ≠ EvIntentPersisted → s ≠ EvIntentPersisted →
  eviction_inv (ev_with_state r s).
Proof.
  intros [Hs Ho] Hr Hne. split; [|intros e He; apply Ho; by destruct e].
  split; [|done]. intros Hall. destruct Hr. by apply Hs.
Qed.

Lemma eviction_inv_step op r : eviction_inv r → eviction_inv (eviction_apply op r).2.
Proof.
  intros Hinv. destruct op as [e| |]; cbn.
  - destruct (record_effect_cases e r Hinv) as [(_&err&->)|[(_&->)|(Hreq&Hst&Hobs&->)]];
      [done..|]. cbn. destruct Hinv as [Hs Ho].
    assert (Ho' : ∀ e', ContentEvictionRecord_has_observed_effect (ev_with_observed r e) e' = true →
      plan_requires (ev_plan (ev_with_observed r e)) e' = true).
    { intros e'. rewrite ev_with_observed_observed, ev_with_observed_plan.
      case_decide; subst; auto. }
    case_match eqn:Hall; split.
    + cbn. split; [|done]. intros Hf. unfold ev_with_state in Hf.
      change (ContentEvictionRecord_all_required_effects_observed (ev_with_observed r e) = false)
        in Hf. congruence.
    + intros e' He'. apply Ho'. by destruct e'.
    + by rewrite ev_with_observed_state.
    + done.
  - unfold ContentEvictionRecord_mark_metadata_reconciled.
    destruct (ev_state r) eqn:Hst; cbn; try done. apply eviction_inv_with_state; congruence.
  - unfold ContentEvictionRecord_complete.
    destruct (ev_state r) eqn:Hst; cbn; try done. apply eviction_inv_with_state; congruence.
Qed.

#[export] Instance eviction_journal_laws : JournalLaws ContentEvictionRecord.
Proof.
  split; cbn [journal_inv journal_apply journal_done journal_completed journal_rank
    eviction_journal].
  - apply eviction_inv_step.
  - intros [e| |] r Hinv; cbn.
    + destruct (record_effect_cases e r Hinv) as [(_&err&->)|[(_&->)|(Hreq&Hst&Hobs&->)]];
        [done..|]. pose proof (ev_with_observed_rank r e Hobs) as Hr. cbv zeta.
      cbn -[eviction_rank]. case_match; [|lia].
      rewrite ev_with_state_rank, ev_with_observed_state, Hst. cbn. lia.
    + unfold ContentEvictionRecord_mark_metadata_reconciled.
      destruct (ev_state r) eqn:Hst; try done. cbn -[eviction_rank].
      rewrite ev_with_state_rank, Hst. cbn. lia.
    + unfold ContentEvictionRecord_complete.
      destruct (ev_state r) eqn:Hst; try done. cbn -[eviction_rank].
      rewrite ev_with_state_rank, Hst. cbn. lia.
  - intros [e| |] r t r' Hinv; cbn.
    + destruct (record_effect_cases e r Hinv) as [(_&err&->)|[(?&->)|(Hreq&Hst&Hobs&->)]];
        intros [= <- <-]; [done|]. cbv zeta.
      case_match; rewrite ?ev_with_state_observed, ev_with_observed_observed;
        by rewrite decide_True.
    + unfold ContentEvictionRecord_mark_metadata_reconciled.
      destruct (ev_state r) eqn:Hst; intros [= <- <-]; rewrite ?Hst; cbn; lia.
    + unfold ContentEvictionRecord_complete.
      destruct (ev_state r) eqn:Hst; intros [= <- <-]; rewrite ?Hst; cbn; lia.
  - intros op op' r Hinv Hd. destruct op' as [e| |]; cbn.
    + destruct (record_effect_cases e r Hinv) as [(_&err&->)|[(_&->)|(Hreq&Hst&Hobs&->)]];
        [done..|]. cbn. destruct op as [e'| |]; [|rewrite Hst in Hd; cbn in Hd; lia..].
      case_match; rewrite ?ev_with_state_observed, ev_with_observed_observed;
        by case_decide.
    + unfold ContentEvictionRecord_mark_metadata_reconciled.
      destruct (ev_state r) eqn:Hst; cbn; rewrite ?Hst; try done.
      destruct op as [e'| |]; rewrite ?ev_with_state_observed; cbn in *;
        rewrite ?Hst in Hd; cbn in *; (done || lia).
    + unfold ContentEvictionRecord_complete.
      destruct (ev_state r) eqn:Hst; cbn; rewrite ?Hst; try done.
      destruct op as [e'| |]; rewrite ?ev_with_state_observed; cbn in *;
        rewrite ?Hst in Hd; cbn in *; (done || lia).
  - intros [e| |] r Hinv Hd; cbn.
    + destruct (record_effect_cases e r Hinv) as [(_&err&->)|[(_&->)|(Hreq&Hst&Hobs&->)]];
        [done..|]. congruence.
    + unfold ContentEvictionRecord_mark_metadata_reconciled.
      destruct (ev_state r) eqn:Hst; cbn in *; rewrite ?Hst in Hd; cbn in *; (done || lia).
    + unfold ContentEvictionRecord_complete.
      destruct (ev_state r) eqn:Hst; cbn in *; rewrite ?Hst in Hd; cbn in *; (done || lia).
  - intros [e| |] r Hinv Hc%bool_decide_eq_true_1; cbn.
    + destruct (record_effect_cases e r Hinv) as [(_&err&->)|[(_&->)|(Hreq&Hst&Hobs&->)]];
        [done..|]. congruence.
    + unfold ContentEvictionRecord_mark_metadata_reconciled. by rewrite Hc.
    + unfold ContentEvictionRecord_complete. by rewrite Hc.
Qed.

(** ** Properties *)

Definition eviction_run (ops : list eviction_op) (r : ContentEvictionRecord) :
    ContentEvictionRecord :=
  foldl (λ r op, (eviction_apply op r).2) r ops.

Lemma plan_for_target_nonempty mode target plan :
  ContentEvictionPlan_for_target mode target = Ok plan →
  ∃ e, plan_requires plan e = true.
Proof.
  destruct mode, target; intros [= <-];
    (by exists ProviderCacheRemoved) || by exists PlatformMaterializationEvicted.
Qed.

Lemma eviction_rank_bound r : 0 ≤ eviction_rank r ≤ 6.
Proof. unfold eviction_rank. destruct r as [?? [] [] [] []]; cbn; lia. Qed.

Lemma ev_observed_run es : ∀ r,
  eviction_inv r →
  ev_plan (eviction_run (EvOpEffect <$> es) r) = ev_plan r ∧
  ∀ e, (ContentEvictionRecord_has_observed_effect r e = true ∨ e ∈ es) →
       plan_requires (ev_plan r) e = true →
       ContentEvictionRecord_has_observed_effect (eviction_run (EvOpEffect <$> es) r) e = true.
Proof.
  induction es as [|e0 es IH]; intros r Hinv.
  { split; [done|]. intros e [?|[]%not_elem_of_nil]; done. }
  assert (Hinv' := eviction_inv_step (EvOpEffect e0) r Hinv). cbn in Hinv'.
  destruct (IH _ Hinv') as [Hp Ho]. clear IH.
  change (eviction_run (EvOpEffect <$> e0 :: es) r)
    with (eviction_run (EvOpEffect <$> es)
            (ContentEvictionRecord_record_physical_effect e0 r).2).
  assert (Hstep : ev_plan (ContentEvictionRecord_record_physical_effect e0 r).2 = ev_plan r ∧
    ∀ e, (ContentEvictionRecord_has_observed_effect r e = true ∨ e = e0) →
      plan_requires (ev_plan r) e = true →
      ContentEvictionRecord_has_observed_effect
        (ContentEvictionRecord_record_physical_effect e0 r).2 e = true).
  { destruct (record_effect_cases e0 r Hinv) as [(?&err&->)|[(?&->)|(?&Hst&Hobs&->)]].
    - split; [done|]. intros e [?| ->]; cbn; congruence.
    - split; [done|]. intros e [?| ->]; cbn; congruence.
    - cbn. split; [case_match; cbn; by rewrite ev_with_observed_plan|].
      intros e He _. case_match; rewrite ?ev_with_state_observed, ev_with_observed_observed;
        case_decide; try done; destruct He; congruence. }
  destruct Hstep as [Hp0 Ho0]. split; [congruence|]. intros e He Hreq.
  apply Ho; [|by rewrite Hp0].
  destruct He as [He|[->|He]%elem_of_cons]; auto.
Qed.

(** C7. The eviction journal. From a persisted record of a valid plan,
    under any sequence of calls (replays after crashes included): the record
    has left its first state exactly when every effect the plan requires was
    observed, and never records another effect; an operation that succeeded
    once never changes the record again; at most six changes are ever made;
    and recording the required effects in any order, then reconciling and
    completing, reaches [Completed]. *)
Theorem eviction_record_protocol (intent : ContentEvictionIntent)
    (mode : ContentStorageMode) (target : ContentEvictionTarget)
    (plan : ContentEvictionPlan) (ops : list eviction_op) :
  ContentEvictionPlan_for_target mode target = Ok plan →
  let r0 := ContentEvictionRecord_persist intent plan in
  let r := eviction_run ops r0 in
  (ev_state r ≠ EvIntentPersisted ↔
   ∀ e, plan_requires (ev_plan r) e = true →
        ContentEvictionRecord_has_observed_effect r e = true) ∧
  (∀ e, ContentEvictionRecord_has_observed_effect r e = true →
        plan_requires (ev_plan r) e = true) ∧
  (∀ op t r' ops', eviction_apply op r = (Ok t, r') →
     (eviction_apply op (eviction_run ops' r')).2 = eviction_run ops' r') ∧
  journal_changes ops r0 ≤ 6 ∧
  (∀ es, (∀ e, plan_requires plan e = true → e ∈ es) →
     ev_state (eviction_run ((EvOpEffect <$> es) ++ [EvOpMarkReconciled; EvOpComplete]) r0)
       = EvCompleted).
Proof.
  intros Hplan r0 r.
  pose proof (eviction_persist_inv intent plan (plan_for_target_nonempty _ _ _ Hplan)) as Hinv0.
  fold r0 in Hinv0.
  assert (Hinv : eviction_inv r) by exact (journal_run_inv ops r0 Hinv0).
  split_and!.
  - rewrite <- all_required_iff, <- not_false_iff_true. destruct Hinv as [Hs _].
    by rewrite Hs.
  - apply Hinv.
  - intros op t r' ops' Ha. exact (proj2 (journal_at_most_once op ops' r t r' Hinv Ha)).
  - assert (Hb : journal_changes ops r0 ≤ eviction_rank (eviction_run ops r0) - eviction_rank r0)
      by exact (journal_changes_bound ops r0 Hinv0).
    pose proof (eviction_rank_bound (eviction_run ops r0)).
    assert (eviction_rank r0 = 0) by done. lia.
  - intros es Hes. unfold eviction_run. rewrite foldl_app.
    fold (eviction_run (EvOpEffect <$> es) r0).
    destruct (ev_observed_run es r0 Hinv0) as [Hp Ho].
    assert (Hinv1 : eviction_inv (eviction_run (EvOpEffect <$> es) r0))
      by exact (journal_run_inv (EvOpEffect <$> es) r0 Hinv0).
    set (q := eviction_run (EvOpEffect <$> es) r0) in *.
    assert (Hq : ev_state q ≠ EvIntentPersisted).
    { destruct Hinv1 as [Hs _]. rewrite <- Hs, not_false_iff_true, all_required_iff.
      rewrite Hp. intros e He. apply Ho; [|done]. right. by apply Hes. }
    clearbody q. destruct q as [?? [] ???]; done.
Qed.

Definition sample_eviction_intent : ContentEvictionIntent :=
  ContentEvictionIntent_new (mk_opaque "eviction") sample_cache_key TargetAllManagedContent
    (mk_SessionGeneration 1).

Lemma eviction_record_protocol_witness :
  ev_state (eviction_run
    [EvOpEffect PlatformContentInvalidated; EvOpEffect ProviderCacheRemoved;
     EvOpEffect PlatformMaterializationEvicted; EvOpMarkReconciled; EvOpComplete]
    (ContentEvictionRecord_persist sample_eviction_intent
       (mk_ContentEvictionPlan true true true))) = EvCompleted.
Proof.
  pose proof (eviction_record_protocol sample_eviction_intent Hybrid TargetAllManagedContent
    (mk_ContentEvictionPlan true true true) [] eq_refl) as H.
  destruct H as (_ & _ & _ & _ & H).
  apply (H [PlatformContentInvalidated; ProviderCacheRemoved;
            PlatformMaterializationEvicted]).
  intros [] _; repeat constructor.
Defined.
