(* ===== verification/CacheWrite.v ===== *)
(** * Durable provider-cache writes

    [cache_write.rs]: the intent of one atomic cache write and the journal
    that carries it from the intent through installed bytes and committed
    coverage to completion. *)
From S2P Require Export ContentStorage Journal.

Inductive ContentCacheWriteExtent : Type :=
  | ExtentWhole
  | ExtentRange (range : ByteRange).

#[export] Instance ContentCacheWriteExtent_eq_dec : EqDecision ContentCacheWriteExtent.
Proof. solve_decision. Defined.

Record ContentCacheWriteIntent : Type := mk_ContentCacheWriteIntent {
  cw_operation_id : ContentCacheWriteOperationId;
  cw_cache_key : ContentCacheKey;
  cw_expected_size : Z;
  cw_extent : ContentCacheWriteExtent;
  cw_session_generation : SessionGeneration;
}.

#[export] Instance ContentCacheWriteIntent_eq_dec : EqDecision ContentCacheWriteIntent.
Proof. solve_decision. Defined.

Definition ContentCacheWriteIntent_new (operation_id : ContentCacheWriteOperationId)
    (cache_key : ContentCacheKey) (expected_size : Z) (extent : ContentCacheWriteExtent)
    (session_generation : SessionGeneration) : core_result ContentCacheWriteIntent :=
  let intent :=
    mk_ContentCacheWriteIntent operation_id cache_key expected_size extent
      session_generation in
  match extent with
  | ExtentRange range =>
      if decide (ByteRange_end_exclusive range > expected_size) then
        Err (InvalidContentCacheWriteTransition
          "cache write range exceeds the expected content size")
      else Ok intent
  | ExtentWhole => Ok intent
  end.

Inductive ContentCacheWriteState : Type :=
  | CwIntentPersisted | CwPhysicalBytesCommitted | CwCoverageCommitted | CwCompleted.

#[export] Instance ContentCacheWriteState_eq_dec : EqDecision ContentCacheWriteState.
Proof. solve_decision. Defined.

Inductive ContentCacheWriteRecordTransition : Type :=
  | CwApplied | CwAlreadyApplied.

Record ContentCacheWriteRecord : Type := mk_ContentCacheWriteRecord {
  cw_intent : ContentCacheWriteIntent;
  cw_state : ContentCacheWriteState;
}.

#[export] Instance ContentCacheWriteRecord_eq_dec : EqDecision ContentCacheWriteRecord.
Proof. solve_decision. Defined.

Definition ContentCacheWriteRecord_persist (intent : ContentCacheWriteIntent) :
    ContentCacheWriteRecord :=
  mk_ContentCacheWriteRecord intent CwIntentPersisted.

Definition ContentCacheWriteRecord_mark_physical_bytes_committed
    (r : ContentCacheWriteRecord)
    : core_result ContentCacheWriteRecordTransition * ContentCacheWriteRecord :=
  match cw_state r with
  | CwIntentPersisted =>
      (Ok CwApplied, mk_ContentCacheWriteRecord (cw_intent r) CwPhysicalBytesCommitted)
  | CwPhysicalBytesCommitted | CwCoverageCommitted | CwCompleted => (Ok CwAlreadyApplied, r)
  end.

Definition ContentCacheWriteRecord_mark_coverage_committed (r : ContentCacheWriteRecord)
    : core_result ContentCacheWriteRecordTransition * ContentCacheWriteRecord :=
  match cw_state r with
  | CwPhysicalBytesCommitted =>
      (Ok CwApplied, mk_ContentCacheWriteRecord (cw_intent r) CwCoverageCommitted)
  | CwCoverageCommitted | CwCompleted => (Ok CwAlreadyApplied, r)
  | CwIntentPersisted =>
      (Err (InvalidContentCacheWriteTransition
         "coverage commit requires observable physical bytes"), r)
  end.

Definition ContentCacheWriteRecord_complete (r : ContentCacheWriteRecord)
    : core_result ContentCacheWriteRecordTransition * ContentCacheWriteRecord :=
  match cw_state r with
  | CwCoverageCommitted =>
      (Ok CwApplied, mk_ContentCacheWriteRecord (cw_intent r) CwCompleted)
  | CwCompleted => (Ok CwAlreadyApplied, r)
  | _ =>
      (Err (InvalidContentCacheWriteTransition
         "cache write completion requires committed coverage"), r)
  end.

(** ** The record as a journal *)
Inductive cache_write_op : Type :=
  | CwOpPhysicalBytes | CwOpCoverage | CwOpComplete.

Definition cache_write_apply (op : cache_write_op) (r : ContentCacheWriteRecord) :=
  match op with
  | CwOpPhysicalBytes => ContentCacheWriteRecord_mark_physical_bytes_committed r
  | CwOpCoverage => ContentCacheWriteRecord_mark_coverage_committed r
  | CwOpComplete => ContentCacheWriteRecord_complete r
  end.

Definition cache_write_rank (s : ContentCacheWriteState) : Z :=
  match s with
  | CwIntentPersisted => 0
  | CwPhysicalBytesCommitted => 1
  | CwCoverageCommitted => 2
  | CwCompleted => 3
  end.

(** The rank an operation establishes. *)
Definition cache_write_op_rank (op : cache_write_op) : Z :=
  match op with CwOpPhysicalBytes => 1 | CwOpCoverage => 2 | CwOpComplete => 3 end.

#[export] Instance cache_write_journal : Journal ContentCacheWriteRecord := {
  journal_op := cache_write_op;
  journal_transition := ContentCacheWriteRecordTransition;
  journal_apply := cache_write_apply;
  journal_applied t := match t with CwApplied => true | CwAlreadyApplied => false end;
  journal_rank r := cache_write_rank (cw_state r);
  journal_completed r := bool_decide (cw_state r = CwCompleted);
  journal_inv _ := True;
  journal_done op r := cache_write_op_rank op ≤ cache_write_rank (cw_state r);
}.

#[export] Instance cache_write_journal_laws : JournalLaws ContentCacheWriteRecord.
Proof.
  split; cbn.
  - done.
  - intros [] [? []] _; cbn; lia || done.
  - intros [] [? []] t r' _ [= <- <-]; cbn; lia.
  - intros op [] [? []] _; cbn; lia.
  - intros [] [? []] _; cbn; (done || lia).
  - intros [] [? []] _ H; (done || by apply bool_decide_eq_true_1 in H).
Qed.

(** ** Properties *)

Definition cache_write_run (ops : list cache_write_op) (r : ContentCacheWriteRecord) :
    ContentCacheWriteRecord :=
  foldl (λ r op, (cache_write_apply op r).2) r ops.

(** An operation is accepted exactly when the previous phase is durable. *)
Lemma cache_write_accepted op r :
  (∃ t, (cache_write_apply op r).1 = Ok t) ↔
  cache_write_op_rank op ≤ cache_write_rank (cw_state r) + 1.
Proof.
  destruct op, r as [? []]; cbn; split; intros; try lia; eauto;
    destruct H as [? [=]].
Qed.

(** Intents carry an extent that lies in the expected content. *)
Lemma ContentCacheWriteIntent_new_iff op key size extent gen :
  match extent with ExtentWhole => True | ExtentRange r => ByteRange_wf r end →
  (∃ intent, ContentCacheWriteIntent_new op key size extent gen = Ok intent) ↔
  match extent with ExtentWhole => True | ExtentRange r => range_end r ≤ size end.
Proof.
  intros Hwf. unfold ContentCacheWriteIntent_new. destruct extent as [|r]; [split; eauto|].
  rewrite ByteRange_end_wf by done. unfold range_end.
  case_decide; split; eauto; [intros [? [=]]|]; lia.
Qed.

(** The cache-write journal. A write intent is only built for an extent
    inside the expected size; from its persisted record a phase is accepted
    exactly when the phase before it is durable, so coverage is never
    committed before the bytes; an accepted phase is durable afterwards and
    stays so; replaying it never changes the record; at most three changes
    are made, and a completed record never changes. *)
Theorem cache_write_protocol (intent : ContentCacheWriteIntent)
    (ops : list cache_write_op) :
  let r := cache_write_run ops (ContentCacheWriteRecord_persist intent) in
  cw_intent r = intent ∧
  (∀ op, (∃ t, (cache_write_apply op r).1 = Ok t) ↔
         cache_write_op_rank op ≤ cache_write_rank (cw_state r) + 1) ∧
  (∀ op t r' ops', cache_write_apply op r = (Ok t, r') →
     cache_write_op_rank op ≤ cache_write_rank (cw_state (cache_write_run ops' r')) ∧
     (cache_write_apply op (cache_write_run ops' r')).2 = cache_write_run ops' r') ∧
  journal_changes ops (ContentCacheWriteRecord_persist intent) ≤ 3 ∧
  (cw_state r = CwCompleted → ∀ ops', cache_write_run ops' r = r) ∧
  (∀ op key size extent gen,
     match extent with ExtentWhole => True | ExtentRange rg => ByteRange_wf rg end →
     (∃ i, ContentCacheWriteIntent_new op key size extent gen = Ok i) ↔
     match extent with ExtentWhole => True | ExtentRange rg => range_end rg ≤ size end).
Proof.
  set (r0 := ContentCacheWriteRecord_persist intent). intros r. split_and!.
  - assert (H : ∀ ops q, cw_intent (cache_write_run ops q) = cw_intent q).
    { clear. induction ops as [|op ops IH]; intros q; [done|].
      transitivity (cw_intent (cache_write_apply op q).2); [apply IH|].
      by destruct op, q as [? []]. }
    apply H.
  - intros op. apply cache_write_accepted.
  - intros op t r' ops' Ha. split.
    + exact (journal_run_done op ops' r' I (journal_applied_done op r t r' I Ha)).
    + exact (proj2 (journal_at_most_once op ops' r t r' I Ha)).
  - assert (Hb : journal_changes ops r0 ≤
        cache_write_rank (cw_state (cache_write_run ops r0)) - cache_write_rank (cw_state r0))
      by exact (journal_changes_bound ops r0 I).
    cbn in Hb. destruct (cw_state (cache_write_run ops r0)); cbn in Hb; lia.
  - intros Hc ops'.
    exact (@journal_completed_run ContentCacheWriteRecord _ _ ops' r I
             (bool_decide_eq_true_2 _ Hc)).
  - intros. by apply ContentCacheWriteIntent_new_iff.
Qed.
