(* ===== verification/Item.v ===== *)
(** * Cloud items, directory pages and change batches

    [item.rs] and [change.rs]: the metadata of one file or directory, whose
    private fields are only built by [CloudItem::directory], [CloudItem::file]
    and [CloudItem::moved], and the values the backend's pages carry. *)
From Stdlib Require Import Init.Byte.
From S2P Require Export Identity.

(** ** Data *)
Inductive CloudItemKind : Type := FileKind | DirectoryKind.

#[export] Instance CloudItemKind_eq_dec : EqDecision CloudItemKind.
Proof. solve_decision. Defined.

Record CloudContentMetadata : Type := CloudContentMetadata_new {
  content_revision : ContentRevision;
  content_digest : option ContentDigest;
  content_size : Z;
}.

#[export] Instance CloudContentMetadata_eq_dec : EqDecision CloudContentMetadata.
Proof. solve_decision. Defined.

Record CloudItem : Type := mk_CloudItem {
  item_key : CloudItemKey;
  item_parent_id : option CloudItemId;
  item_name : string;
  item_kind : CloudItemKind;
  item_metadata_revision : MetadataRevision;
  item_content : option CloudContentMetadata;
}.

#[export] Instance CloudItem_eq_dec : EqDecision CloudItem.
Proof. solve_decision. Defined.

Record CloudItemPage : Type := CloudItemPage_new {
  page_items : list CloudItem;
  page_next_cursor : option PageCursor;
}.

Inductive CloudChange : Type :=
  | ChangeUpsert (item : CloudItem)
  | ChangeDelete (key : CloudItemKey) (previous_parent_id : option CloudItemId)
      (metadata_revision : option MetadataRevision).

#[export] Instance CloudChange_eq_dec : EqDecision CloudChange.
Proof. solve_decision. Defined.

Definition CloudChange_key (c : CloudChange) : CloudItemKey :=
  match c with
  | ChangeUpsert item => item_key item
  | ChangeDelete key _ _ => key
  end.

Record ChangeBatch : Type := ChangeBatch_new {
  batch_changes : list CloudChange;
  batch_next_cursor : ChangeCursor;
  batch_has_more : bool;
}.

#[export] Instance ChangeBatch_eq_dec : EqDecision ChangeBatch.
Proof. solve_decision. Defined.

Inductive ChangeResetReason : Type :=
  | CursorExpired | BackendStateRebuilt | IdentityMappingInvalidated.

Inductive ChangePage : Type :=
  | PageBatch (batch : ChangeBatch)
  | PageResetRequired (reason : ChangeResetReason).

(** ** Operations of [CloudItem] *)
Definition validate_item_location (key : CloudItemKey) (parent_id : option CloudItemId)
    (name : string) : core_result unit :=
  if decide (name = "") then Err (EmptyValue "cloud item name")
  else if decide (parent_id = Some (item_key_item_id key)) then
    Err (InvalidItemShape "an item must not be its own parent")
  else Ok ().

Definition CloudItem_directory (key : CloudItemKey) (parent_id : option CloudItemId)
    (name : string) (metadata_revision : MetadataRevision) : core_result CloudItem :=
  validate_item_location key parent_id name;;
  Ok (mk_CloudItem key parent_id name DirectoryKind metadata_revision None).

Definition CloudItem_file (key : CloudItemKey) (parent_id : CloudItemId) (name : string)
    (metadata_revision : MetadataRevision) (content : CloudContentMetadata)
    : core_result CloudItem :=
  validate_item_location key (Some parent_id) name;;
  Ok (mk_CloudItem key (Some parent_id) name FileKind metadata_revision (Some content)).

Definition CloudItem_is_root (item : CloudItem) : bool :=
  bool_decide (item_parent_id item = None).

Definition CloudItem_moved (item : CloudItem) (parent_id : CloudItemId) (name : string)
    (metadata_revision : MetadataRevision) : core_result CloudItem :=
  if CloudItem_is_root item then
    Err (InvalidItemShape "the root item must not be moved")
  else if decide (name = "") then Err (EmptyValue "cloud item name")
  else if decide (parent_id = item_key_item_id (item_key item)) then
    Err (InvalidItemShape "an item must not be its own parent")
  else
    Ok (mk_CloudItem (item_key item) (Some parent_id) name (item_kind item)
          metadata_revision (item_content item)).

(** ** The shape of an item *)

(** Items the public constructors produce. *)
Inductive item_built : CloudItem → Prop :=
  | built_directory key parent name rev item :
      CloudItem_directory key parent name rev = Ok item → item_built item
  | built_file key parent name rev content item :
      CloudItem_file key parent name rev content = Ok item → item_built item
  | built_moved item parent name rev item' :
      item_built item → CloudItem_moved item parent name rev = Ok item' → item_built item'.

(** What the constructors promise of the private fields. *)
Record item_shape (item : CloudItem) : Prop := {
  shape_name : item_name item ≠ "";
  shape_parent : item_parent_id item ≠ Some (item_key_item_id (item_key item));
  shape_content : is_Some (item_content item) ↔ item_kind item = FileKind;
  shape_root : CloudItem_is_root item = true → item_kind item = DirectoryKind;
}.

Lemma validate_item_location_ok key parent name :
  validate_item_location key parent name = Ok () ↔
  name ≠ "" ∧ parent ≠ Some (item_key_item_id key).
Proof. unfold validate_item_location. repeat case_decide; cbn; crush. Qed.

Lemma CloudItem_directory_ok key parent name rev item :
  CloudItem_directory key parent name rev = Ok item ↔
  name ≠ "" ∧ parent ≠ Some (item_key_item_id key) ∧
  item = mk_CloudItem key parent name DirectoryKind rev None.
Proof. unfold CloudItem_directory, validate_item_location. repeat case_decide; cbn; crush. Qed.

Lemma CloudItem_file_ok key parent name rev content item :
  CloudItem_file key parent name rev content = Ok item ↔
  name ≠ "" ∧ parent ≠ item_key_item_id key ∧
  item = mk_CloudItem key (Some parent) name FileKind rev (Some content).
Proof. unfold CloudItem_file, validate_item_location. repeat case_decide; cbn; crush. Qed.

Lemma CloudItem_moved_ok item parent name rev item' :
  CloudItem_moved item parent name rev = Ok item' ↔
  item_parent_id item ≠ None ∧ name ≠ "" ∧ parent ≠ item_key_item_id (item_key item) ∧
  item' = mk_CloudItem (item_key item) (Some parent) name (item_kind item) rev
            (item_content item).
Proof.
  unfold CloudItem_moved, CloudItem_is_root. case_bool_decide; [crush|].
  repeat case_decide; crush.
Qed.

Lemma item_built_shape item : item_built item → item_shape item.
Proof.
  induction 1 as [???? item H|????? item H|item ??? item' _ [? ? ? Hr] H].
  - apply CloudItem_directory_ok in H as (?&?&->). split; cbn; try done.
  - apply CloudItem_file_ok in H as (?&?&->). split; cbn; try done; try congruence.
  - apply CloudItem_moved_ok in H as (?&?&?&->). split; cbn; try done; congruence.
Qed.

Lemma item_shape_built item : item_shape item → item_built item.
Proof.
  destruct item as [key parent name kind rev content]. intros [Hn Hp Hc Hr]; cbn in *.
  destruct kind.
  - destruct (proj2 Hc) as [c ->]; [done|].
    destruct parent as [p|]; [|by specialize (Hr eq_refl)].
    eapply built_file, CloudItem_file_ok. split_and!; eauto. congruence.
  - destruct content; [by specialize (proj1 Hc (mk_is_Some _ _ eq_refl))|].
    eapply built_directory, CloudItem_directory_ok. split_and!; eauto.
Qed.

Definition sample_item : CloudItem :=
  mk_CloudItem
    (CloudItemKey_new
       (CloudScope_new (mk_opaque "namespace") (mk_opaque "root")) (mk_opaque "item"))
    (Some (mk_opaque "parent")) "name" DirectoryKind (mk_opaque [x01]) None.

(** The shape of cloud items. The items the constructors can build are
    exactly those with a non-empty name, a parent other than the item
    itself, content metadata if and only if the item is a file, and the
    directory kind at the root. A move is accepted exactly for a non-root
    item, a non-empty name and another parent; it keeps identity, kind and
    content and replaces location and metadata revision; the root is never
    moved and a rejected move reports its first failing check. *)
Theorem cloud_item_shape (item : CloudItem) :
  item_built item →
  item_shape item ∧
  (∀ item', item_shape item' → item_built item') ∧
  (∀ parent name rev item',
     CloudItem_moved item parent name rev = Ok item' ↔
     CloudItem_is_root item = false ∧ name ≠ "" ∧
     parent ≠ item_key_item_id (item_key item) ∧
     item' = mk_CloudItem (item_key item) (Some parent) name (item_kind item) rev
               (item_content item)) ∧
  (∀ parent name rev item',
     CloudItem_moved item parent name rev = Ok item' →
     item_shape item' ∧ CloudItem_is_root item' = false ∧
     CloudItem_moved item' parent name rev = Ok item') ∧
  (∀ parent name rev e,
     CloudItem_moved item parent name rev = Err e →
     e = if CloudItem_is_root item then InvalidItemShape "the root item must not be moved"
         else if decide (name = "") then EmptyValue "cloud item name"
         else InvalidItemShape "an item must not be its own parent").
Proof.
  intros Hb. split_and!.
  - by apply item_built_shape.
  - apply item_shape_built.
  - intros. rewrite CloudItem_moved_ok. unfold CloudItem_is_root.
    rewrite bool_decide_eq_false. done.
  - intros parent name rev item' Hm.
    assert (item_built item') by by eapply built_moved.
    apply CloudItem_moved_ok in Hm as (?&?&?&->).
    split_and!; [by apply item_built_shape|done|].
    by apply CloudItem_moved_ok.
  - intros parent name rev e. unfold CloudItem_moved. destruct (CloudItem_is_root item); [crush|].
    repeat case_decide; crush.
Qed.

Example cloud_item_shape_witness :
  item_built sample_item ∧
  CloudItem_moved sample_item (mk_opaque "item") "b" (mk_opaque [x02]) =
    Err (InvalidItemShape "an item must not be its own parent") ∧
  item_shape sample_item.
Proof.
  assert (H : item_built sample_item).
  { apply (built_directory (item_key sample_item) (item_parent_id sample_item) "name"
             (mk_opaque [x01])). reflexivity. }
  split_and!; [exact H|reflexivity|apply (cloud_item_shape sample_item H)].
Defined.
