(* ===== verification/Action.v ===== *)
(** * Effectful calls

    A method of the source that talks to a durable store or a backend is a
    function from the outside world [W] to a result and the next world.  The
    ports themselves are type classes over [W], so a theorem about a driver
    holds for every implementation of its ports; [wp] states what such a call
    guarantees of its result and of the world it leaves. *)
From S2P Require Export Prelude.

Definition action (W E A : Type) : Type := W → result E A * W.

#[export] Instance action_ret {W E} : MRet (action W E) := λ A a w, (Ok a, w).
#[export] Instance action_bind {W E} : MBind (action W E) := λ A B f m w,
  match m w with
  | (Ok a, w') => f a w'
  | (Err e, w') => (Err e, w')
  end.

(** A pure result, and an action whose error is converted by [From]. *)
Definition pure_result {W E A} (r : result E A) : action W E A := λ w, (r, w).
Definition with_error {W E F A} (f : E → F) (m : action W E A) : action W F A := λ w,
  let (r, w') := m w in (map_err f r, w').

Definition wp {W E A} (m : action W E A) (Φ : result E A → W → Prop) (w : W) : Prop :=
  let (r, w') := m w in Φ r w'.

Section wp.
Context {W E F A B : Type}.

Lemma wp_ret (a : A) (Φ : result E A → W → Prop) w : Φ (Ok a) w → wp (mret a) Φ w.
Proof. done. Qed.

Lemma wp_pure (r : result E A) (Φ : result E A → W → Prop) w :
  Φ r w → wp (pure_result r) Φ w.
Proof. done. Qed.

Lemma wp_with_error (f : E → F) (m : action W E A) (Φ : result F A → W → Prop) w :
  wp m (λ r, Φ (map_err f r)) w → wp (with_error f m) Φ w.
Proof. unfold wp, with_error. by destruct (m w). Qed.

(** Sequencing: an error ends the computation. *)
Lemma wp_bind (m : action W E A) (f : A → action W E B) (Φ : result E B → W → Prop) w :
  wp m (λ r w', match r with Ok a => wp (f a) Φ w' | Err e => Φ (Err e) w' end) w →
  wp (m ≫= f) Φ w.
Proof. unfold wp, mbind, action_bind. by destruct (m w) as [[a|e] w']. Qed.

Lemma wp_mono (m : action W E A) (Φ Ψ : result E A → W → Prop) w :
  wp m Φ w → (∀ r w', Φ r w' → Ψ r w') → wp m Ψ w.
Proof. unfold wp. destruct (m w). auto. Qed.

Lemma wp_equiv (m : action W E A) (Φ : result E A → W → Prop) w :
  wp m Φ w ↔ Φ (m w).1 (m w).2.
Proof. unfold wp. by destruct (m w). Qed.

Lemma bind_ok (m : action W E A) (f : A → action W E B) w a w' :
  m w = (Ok a, w') → (m ≫= f) w = f a w'.
Proof. unfold mbind, action_bind. by intros ->. Qed.

Lemma bind_err (m : action W E A) (f : A → action W E B) w e w' :
  m w = (Err e, w') → (m ≫= f) w = (Err e, w').
Proof. unfold mbind, action_bind. by intros ->. Qed.

Lemma bind_unfold (m : action W E A) (f : A → action W E B) w :
  (m ≫= f) w = match m w with (Ok a, w') => f a w' | (Err e, w') => (Err e, w') end.
Proof. done. Qed.

Lemma with_error_ok (f : E → F) (m : action W E A) w a w' :
  m w = (Ok a, w') → with_error f m w = (Ok a, w').
Proof. unfold with_error. by intros ->. Qed.

Lemma with_error_err (f : E → F) (m : action W E A) w e w' :
  m w = (Err e, w') → with_error f m w = (Err (f e), w').
Proof. unfold with_error. by intros ->. Qed.
End wp.

(** Two continuations that agree wherever the first one ends. *)
Lemma bind_congr {W E A B} (m : action W E A) (f g : A → action W E (option B)) w :
  (∀ a w', (f a w').1 ≠ Ok None → g a w' = f a w') →
  ((m ≫= f) w).1 ≠ Ok None → (m ≫= g) w = (m ≫= f) w.
Proof. unfold mbind, action_bind. destruct (m w) as [[a|e] w']; auto. Qed.

#[global] Arguments wp : simpl never.
#[global] Opaque action_bind.

(** Walks through a driver's sequence of calls. *)
Ltac wp_steps :=
  repeat (lazymatch goal with
    | |- wp (mbind _ _) _ _ => apply wp_bind
    | |- wp (with_error _ _) _ _ => apply wp_with_error
    | |- wp (mret _) _ _ => apply wp_ret
    | |- wp (pure_result _) _ _ => apply wp_pure
    end; cbn beta).
