(* ===== verification/Mutation.v ===== *)
(** * Mutation intents, outcomes and the mutation record

    [mutation.rs]: sessions, desired mutations, the intent that is made
    durable, the outcome contract a backend must meet, and the recoverable
    record that carries a mutation from its intent to completion. *)
From S2P Require Export Item Journal ContentStorage.

(** ** Platform sessions *)
Inductive SessionState : Type := Accepting | Closing | Draining | Closed.

#[export] Instance SessionState_eq_dec : EqDecision SessionState.
Proof. solve_decision. Defined.

Definition SessionState_can_transition_to (self next : SessionState) : bool :=
  match self, next with
  | Accepting, (Accepting | Closing)
  | Closing, (Closing | Draining)
  | Draining, (Draining | Closed)
  | Closed, Closed => true
  | _, _ => false
  end.

(** ** Desired mutations *)
Inductive MutationOrigin : Type :=
  | PlatformCommand | PlatformPreflight | PlatformObserved | RemoteChange.

#[export] Instance MutationOrigin_eq_dec : EqDecision MutationOrigin.
Proof. solve_decision. Defined.

Record MutationPreconditions : Type := MutationPreconditions_new {
  pre_metadata_revision : option MetadataRevision;
  pre_content_revision : option ContentRevision;
}.

#[export] Instance MutationPreconditions_eq_dec : EqDecision MutationPreconditions.
Proof. solve_decision. Defined.

Inductive DesiredMutation : Type :=
  | DesiredCreate (scope : CloudScope) (parent_id : CloudItemId) (name : string)
      (kind : CloudItemKind)
  | DesiredModifyContent (key : CloudItemKey)
  | DesiredModifyMetadata (key : CloudItemKey) (parent_id : option CloudItemId)
      (name : option string)
  | DesiredDelete (key : CloudItemKey).

#[export] Instance DesiredMutation_eq_dec : EqDecision DesiredMutation.
Proof. solve_decision. Defined.

Definition DesiredMutation_create (scope : CloudScope) (parent_id : CloudItemId)
    (name : string) (kind : CloudItemKind) : core_result DesiredMutation :=
  if decide (name = "") then Err (EmptyValue "mutation create name")
  else Ok (DesiredCreate scope parent_id name kind).

Definition DesiredMutation_modify_content (key : CloudItemKey) : DesiredMutation :=
  DesiredModifyContent key.

Definition DesiredMutation_modify_metadata (key : CloudItemKey)
    (parent_id : option CloudItemId) (name : option string) : core_result DesiredMutation :=
  if decide (parent_id = None ∧ name = None) then
    Err (InvalidMutationIntent "metadata mutation must change parent or name")
  else if decide (name = Some "") then Err (EmptyValue "mutation metadata name")
  else Ok (DesiredModifyMetadata key parent_id name).

Definition DesiredMutation_delete (key : CloudItemKey) : DesiredMutation := DesiredDelete key.

Definition DesiredMutation_scope (d : DesiredMutation) : CloudScope :=
  match d with
  | DesiredCreate scope _ _ _ => scope
  | DesiredModifyContent key | DesiredModifyMetadata key _ _ | DesiredDelete key =>
      item_key_scope key
  end.

Definition DesiredMutation_existing_item_key (d : DesiredMutation) : option CloudItemKey :=
  match d with
  | DesiredCreate _ _ _ _ => None
  | DesiredModifyContent key | DesiredModifyMetadata key _ _ | DesiredDelete key => Some key
  end.

Definition DesiredMutation_requires_local_content (d : DesiredMutation) : bool :=
  match d with DesiredModifyContent _ => true | _ => false end.

(** ** Intents

    A [SystemTime] is a number of nanoseconds relative to the epoch. *)
Record MutationRetryMetadata : Type := MutationRetryMetadata_new {
  retry_attempt : Z;
  retry_not_before : option Z;
}.

#[export] Instance MutationRetryMetadata_eq_dec : EqDecision MutationRetryMetadata.
Proof. solve_decision. Defined.

Record MutationIntent : Type := mk_MutationIntent {
  mi_operation_id : OperationId;
  mi_idempotency_key : IdempotencyKey;
  mi_origin : MutationOrigin;
  mi_session_generation : SessionGeneration;
  mi_desired : DesiredMutation;
  mi_preconditions : MutationPreconditions;
  mi_local_content : option LocalContentSnapshot;
  mi_platform_correlation : option PlatformRequestCorrelation;
  mi_remote_reconciliation_key : option RemoteReconciliationKey;
  mi_retry : MutationRetryMetadata;
}.

#[export] Instance MutationIntent_eq_dec : EqDecision MutationIntent.
Proof. solve_decision. Defined.

Definition MutationIntent_new (operation_id : OperationId) (idempotency_key : IdempotencyKey)
    (origin : MutationOrigin) (session_generation : SessionGeneration)
    (desired : DesiredMutation) (preconditions : MutationPreconditions) : MutationIntent :=
  mk_MutationIntent operation_id idempotency_key origin session_generation desired
    preconditions None None None (MutationRetryMetadata_new 0 None).

Definition MutationIntent_with_local_content (i : MutationIntent)
    (local_content : LocalContentSnapshot) : MutationIntent :=
  mk_MutationIntent (mi_operation_id i) (mi_idempotency_key i) (mi_origin i)
    (mi_session_generation i) (mi_desired i) (mi_preconditions i) (Some local_content)
    (mi_platform_correlation i) (mi_remote_reconciliation_key i) (mi_retry i).

Definition MutationIntent_with_platform_correlation (i : MutationIntent)
    (correlation : PlatformRequestCorrelation) : MutationIntent :=
  mk_MutationIntent (mi_operation_id i) (mi_idempotency_key i) (mi_origin i)
    (mi_session_generation i) (mi_desired i) (mi_preconditions i) (mi_local_content i)
    (Some correlation) (mi_remote_reconciliation_key i) (mi_retry i).

Definition MutationIntent_with_remote_reconciliation_key (i : MutationIntent)
    (key : RemoteReconciliationKey) : MutationIntent :=
  mk_MutationIntent (mi_operation_id i) (mi_idempotency_key i) (mi_origin i)
    (mi_session_generation i) (mi_desired i) (mi_preconditions i) (mi_local_content i)
    (mi_platform_correlation i) (Some key) (mi_retry i).

Definition MutationIntent_with_retry (i : MutationIntent) (retry : MutationRetryMetadata)
    : MutationIntent :=
  mk_MutationIntent (mi_operation_id i) (mi_idempotency_key i) (mi_origin i)
    (mi_session_generation i) (mi_desired i) (mi_preconditions i) (mi_local_content i)
    (mi_platform_correlation i) (mi_remote_reconciliation_key i) retry.

Definition MutationIntent_validate_for_persistence (i : MutationIntent) : core_result unit :=
  if DesiredMutation_requires_local_content (mi_desired i)
     && bool_decide (mi_local_content i = None) then
    Err (InvalidMutationIntent "content mutation requires a local content reference")
  else if negb (DesiredMutation_requires_local_content (mi_desired i))
          && negb (bool_decide (mi_local_content i = None)) then
    Err (InvalidMutationIntent
      "local content snapshot is only valid for content mutation")
  else
    match DesiredMutation_existing_item_key (mi_desired i), mi_local_content i with
    | Some key, Some snapshot =>
        if decide (snapshot_item_key snapshot = key) then Ok ()
        else Err (InvalidMutationIntent
          "local content snapshot item does not match the mutation target")
    | _, _ => Ok ()
    end.

(** ** Outcomes *)
Inductive MutationState : Type :=
  | MIntentPersisted
  | MRemoteApplying
  | MRemoteOutcomeUnknown
  | MRemoteOutcomeKnown
  | MPlatformReconciled
  | MCompleted.

#[export] Instance MutationState_eq_dec : EqDecision MutationState.
Proof. solve_decision. Defined.

Inductive MutationRemoteOutcome : Type :=
  | Committed (item : option CloudItem)
  | AlreadyCommitted (item : option CloudItem)
  | PreconditionFailed (metadata_revision : option MetadataRevision)
      (content_revision : option ContentRevision)
  | RemoteOutcomeUnknown.

#[export] Instance MutationRemoteOutcome_eq_dec : EqDecision MutationRemoteOutcome.
Proof. solve_decision. Defined.

Definition MutationRemoteOutcome_durable_state (o : MutationRemoteOutcome) : MutationState :=
  match o with
  | RemoteOutcomeUnknown => MRemoteOutcomeUnknown
  | Committed _ | AlreadyCommitted _ | PreconditionFailed _ _ => MRemoteOutcomeKnown
  end.

Definition MutationRemoteOutcome_same_committed_effect (self other : MutationRemoteOutcome)
    : bool :=
  match self, other with
  | (Committed item | AlreadyCommitted item), (Committed item' | AlreadyCommitted item') =>
      bool_decide (item = item')
  | _, _ => false
  end.

Definition required_existing_item (item : option CloudItem) (key : CloudItemKey)
    (missing_reason mismatch_reason : string) : core_result CloudItem :=
  item ← ok_or item (InvalidMutationTransition missing_reason);
  if decide (item_key item = key) then Ok item
  else Err (InvalidMutationTransition mismatch_reason).

Definition validate_committed_item (desired : DesiredMutation) (item : option CloudItem)
    : core_result unit :=
  match desired with
  | DesiredCreate scope parent_id name kind =>
      item ← ok_or item
        (InvalidMutationTransition "committed create outcome requires current item metadata");
      if decide (item_key_scope (item_key item) ≠ scope) then
        Err (InvalidMutationTransition "committed create outcome belongs to another scope")
      else if decide (item_parent_id item ≠ Some parent_id) then
        Err (InvalidMutationTransition "committed create outcome has another parent")
      else if decide (item_name item ≠ name) then
        Err (InvalidMutationTransition "committed create outcome has another name")
      else if decide (item_kind item ≠ kind) then
        Err (InvalidMutationTransition "committed create outcome has another item kind")
      else Ok ()
  | DesiredModifyContent key =>
      item ← required_existing_item item key
        "committed content mutation outcome requires current item metadata"
        "committed content mutation outcome belongs to another item";
      if decide (item_kind item ≠ FileKind) then
        Err (InvalidMutationTransition
          "committed content mutation outcome must describe a file")
      else Ok ()
  | DesiredModifyMetadata key parent_id name =>
      item ← required_existing_item item key
        "committed metadata mutation outcome requires current item metadata"
        "committed metadata mutation outcome belongs to another item";
      if decide (is_Some parent_id ∧ item_parent_id item ≠ parent_id) then
        Err (InvalidMutationTransition
          "committed metadata mutation outcome did not apply the requested parent")
      else if decide (is_Some name ∧ Some (item_name item) ≠ name) then
        Err (InvalidMutationTransition
          "committed metadata mutation outcome did not apply the requested name")
      else Ok ()
  | DesiredDelete key =>
      match item with
      | Some item =>
          if decide (item_key item ≠ key) then
            Err (InvalidMutationTransition
              "committed delete outcome belongs to another item")
          else Ok ()
      | None => Ok ()
      end
  end.

(** The [let item = match outcome] of the source returns early for the two
    outcomes without a committed item. *)
Definition validate_remote_outcome (intent : MutationIntent) (outcome : MutationRemoteOutcome)
    : core_result unit :=
  match outcome with
  | Committed item | AlreadyCommitted item => validate_committed_item (mi_desired intent) item
  | PreconditionFailed _ _ | RemoteOutcomeUnknown => Ok ()
  end.

(** ** The durable record *)
Inductive MutationRecordTransition : Type := MApplied | MAlreadyApplied.

Record MutationRecord : Type := mk_MutationRecord {
  mr_intent : MutationIntent;
  mr_state : MutationState;
  mr_remote_outcome : option MutationRemoteOutcome;
}.

#[export] Instance MutationRecord_eq_dec : EqDecision MutationRecord.
Proof. solve_decision. Defined.

Definition MutationRecord_persist (intent : MutationIntent) : core_result MutationRecord :=
  MutationIntent_validate_for_persistence intent;;
  Ok (mk_MutationRecord intent MIntentPersisted None).

Definition MutationRecord_begin_remote_apply (r : MutationRecord)
    : core_result MutationRecordTransition * MutationRecord :=
  match mr_state r with
  | MIntentPersisted =>
      (Ok MApplied, mk_MutationRecord (mr_intent r) MRemoteApplying (mr_remote_outcome r))
  | MRemoteApplying | MRemoteOutcomeUnknown | MRemoteOutcomeKnown
  | MPlatformReconciled | MCompleted => (Ok MAlreadyApplied, r)
  end.

Definition MutationRecord_record_remote_outcome (r : MutationRecord)
    (outcome : MutationRemoteOutcome)
    : core_result MutationRecordTransition * MutationRecord :=
  let next_state := MutationRemoteOutcome_durable_state outcome in
  let same_as_current :=
    match mr_remote_outcome r with
    | Some current =>
        bool_decide (current = outcome)
        || MutationRemoteOutcome_same_committed_effect current outcome
    | None => false
    end in
  if same_as_current then (Ok MAlreadyApplied, r)
  else
    match mr_state r with
    | MRemoteApplying | MRemoteOutcomeUnknown =>
        (Ok MApplied, mk_MutationRecord (mr_intent r) next_state (Some outcome))
    | _ =>
        (Err (InvalidMutationTransition
           "remote outcome must follow remote apply or reconcile an unknown outcome"), r)
    end.

Definition MutationRecord_mark_platform_reconciled (r : MutationRecord)
    : core_result MutationRecordTransition * MutationRecord :=
  match mr_state r with
  | MRemoteOutcomeKnown =>
      (Ok MApplied, mk_MutationRecord (mr_intent r) MPlatformReconciled (mr_remote_outcome r))
  | MPlatformReconciled | MCompleted => (Ok MAlreadyApplied, r)
  | _ =>
      (Err (InvalidMutationTransition
         "platform reconciliation requires a known remote outcome"), r)
  end.

Definition MutationRecord_complete (r : MutationRecord)
    : core_result MutationRecordTransition * MutationRecord :=
  match mr_state r with
  | MPlatformReconciled =>
      (Ok MApplied, mk_MutationRecord (mr_intent r) MCompleted (mr_remote_outcome r))
  | MCompleted => (Ok MAlreadyApplied, r)
  | _ => (Err (InvalidMutationTransition "completion requires platform reconciliation"), r)
  end.

(** ** The record as a journal *)
Inductive mutation_op : Type :=
  | MOpBegin | MOpOutcome (outcome : MutationRemoteOutcome) | MOpReconciled | MOpComplete.

Definition mutation_apply (op : mutation_op) (r : MutationRecord) :=
  match op with
  | MOpBegin => MutationRecord_begin_remote_apply r
  | MOpOutcome outcome => MutationRecord_record_remote_outcome r outcome
  | MOpReconciled => MutationRecord_mark_platform_reconciled r
  | MOpComplete => MutationRecord_complete r
  end.

Definition mutation_rank (s : MutationState) : Z :=
  match s with
  | MIntentPersisted => 0
  | MRemoteApplying => 1
  | MRemoteOutcomeUnknown => 2
  | MRemoteOutcomeKnown => 3
  | MPlatformReconciled => 4
  | MCompleted => 5
  end.

(** State and recorded outcome agree. *)
Definition mutation_record_inv (r : MutationRecord) : Prop :=
  match mr_state r with
  | MIntentPersisted | MRemoteApplying => mr_remote_outcome r = None
  | MRemoteOutcomeUnknown => mr_remote_outcome r = Some RemoteOutcomeUnknown
  | MRemoteOutcomeKnown | MPlatformReconciled | MCompleted =>
      ∃ o, mr_remote_outcome r = Some o ∧ o ≠ RemoteOutcomeUnknown
  end.

(** The outcome is recorded, up to who committed the effect; an unknown
    outcome may since have been resolved. *)
Definition outcome_recorded (o : MutationRemoteOutcome) (r : MutationRecord) : Prop :=
  (o = RemoteOutcomeUnknown ∧ mutation_rank (mr_state r) >= 2) ∨
  (∃ current, mr_remote_outcome r = Some current ∧
     (current = o ∨ MutationRemoteOutcome_same_committed_effect current o = true)).

Definition mutation_op_done (op : mutation_op) (r : MutationRecord) : Prop :=
  match op with
  | MOpBegin => mutation_rank (mr_state r) >= 1
  | MOpOutcome o => outcome_recorded o r
  | MOpReconciled => mutation_rank (mr_state r) >= 4
  | MOpComplete => mutation_rank (mr_state r) >= 5
  end.

#[export] Instance mutation_journal : Journal MutationRecord := {
  journal_op := mutation_op;
  journal_transition := MutationRecordTransition;
  journal_apply := mutation_apply;
  journal_applied t := match t with MApplied => true | MAlreadyApplied => false end;
  journal_rank r := mutation_rank (mr_state r);
  journal_completed r := bool_decide (mr_state r = MCompleted);
  journal_inv := mutation_record_inv;
  journal_done := mutation_op_done;
}.

(** The two ways recording an outcome can go. *)
Lemma record_outcome_cases r o :
  mutation_record_inv r →
  let res := MutationRecord_record_remote_outcome r o in
  (res.2 = r ∧ res.1 ≠ Ok MApplied ∧ (res.1 = Ok MAlreadyApplied → outcome_recorded o r)) ∨
  (res = (Ok MApplied, mk_MutationRecord (mr_intent r)
                         (MutationRemoteOutcome_durable_state o) (Some o)) ∧
   (mr_state r = MRemoteApplying ∨
    mr_state r = MRemoteOutcomeUnknown ∧ o ≠ RemoteOutcomeUnknown)).
Proof.
  destruct r as [intent st out].
  unfold mutation_record_inv, MutationRecord_record_remote_outcome, outcome_recorded; cbn.
  intros Hinv. destruct out as [current|].
  - case_bool_decide as Heq; cbn.
    { left. split_and!; [done|done|]. intros _. right. eauto. }
    destruct (MutationRemoteOutcome_same_committed_effect current o) eqn:Hsame.
    { left. split_and!; [done|done|]. intros _. right. eauto. }
    destruct st; cbn; try (left; split_and!; done); try done.
    right. injection Hinv as ->. split; [done|]. right. split; congruence.
  - destruct st; cbn; try (left; split_and!; done). by right; auto.
Qed.

#[global] Arguments MutationRecord_record_remote_outcome : simpl never.

#[export] Instance mutation_journal_laws : JournalLaws MutationRecord.
Proof.
  split; cbn.
  - intros [] r Hr; cbn.
    2: { destruct (record_outcome_cases r outcome Hr) as [(-> & _)|(-> & _)]; [done|].
         destruct outcome; cbn; eauto. }
    all: destruct r as [? [] ?]; unfold mutation_record_inv in *; cbn in *; eauto.
  - intros [] r Hr.
    2: { pose proof (record_outcome_cases r outcome Hr) as Hc. cbn in *.
         destruct (MutationRecord_record_remote_outcome r outcome) as [[[]|e] r']; cbn in Hc;
           destruct Hc as [(?&?&?)|([= ->]&[->|[-> ?]])]; subst; try done;
           destruct outcome; cbn; (done || lia). }
    all: destruct r as [? [] ?]; cbn; lia || done.
  - intros [] r t r' Hr Ha.
    2: { pose proof (record_outcome_cases r outcome Hr) as Hc. cbn in *. rewrite Ha in Hc.
         cbn in Hc. destruct Hc as [(->&?&?)|(Heq&_)].
         - destruct t; auto. done.
         - simplify_eq. right. cbn. eauto. }
    all: destruct r as [? [] ?]; cbn in *; simplify_eq; cbn; lia.
  - intros op op' r Hr Hd.
    assert (Hmono : mutation_rank (mr_state r) ≤
                    mutation_rank (mr_state (mutation_apply op' r).2)).
    { destruct op'; cbn.
      2: { pose proof (record_outcome_cases r outcome Hr) as Hc. cbn in *.
           destruct Hc as [(->&_)|(->&[->|[-> ?]])]; [done| |]; destruct outcome; cbn; lia. }
      all: destruct r as [? [] ?]; cbn; lia. }
    destruct op; cbn in *; try lia. destruct Hd as [[-> Hk]|(c & Hc & Ho)]; [left; split; [done|lia]|].
    destruct op'; cbn.
    2: { pose proof (record_outcome_cases r outcome0 Hr) as Hx. cbn in *.
         destruct Hx as [(->&_)|(->&[Hst|[Hst ?]])]; [right; eauto| |];
           unfold mutation_record_inv in Hr; rewrite Hst in Hr; [congruence|].
         left. rewrite Hc in Hr. injection Hr as ->. split; [|destruct outcome0; cbn; lia || done].
         destruct Ho as [<-|Ho]; [done|]. done. }
    all: right; exists c; split; [|done]; destruct r as [? [] ?]; cbn in *; done.
  - intros [] r Hr Hd; cbn in *.
    2: { pose proof (record_outcome_cases r outcome Hr) as Hx. cbn in *.
         destruct Hx as [(->&_)|(->&[Hst|[Hst ?]])]; [done| |];
           unfold mutation_record_inv in Hr; rewrite Hst in Hr;
           destruct Hd as [[-> Hk]|(c & Hc & Ho)]; rewrite ?Hst in *; cbn in *;
           try lia; try congruence.
         rewrite Hc in Hr. injection Hr as ->. by destruct Ho as [<-|Ho]. }
    all: destruct r as [? [] ?]; cbn in *; lia || done.
  - intros op r Hr Hc. apply bool_decide_eq_true_1 in Hc. destruct op; cbn.
    2: { pose proof (record_outcome_cases r outcome Hr) as Hx. cbn in *.
         destruct Hx as [(->&_)|(_&[?|[? ?]])]; [done|congruence..]. }
    all: destruct r as [? [] ?]; cbn in *; done.
Qed.

(** ** Record properties *)
Definition mutation_run (ops : list mutation_op) (r : MutationRecord) : MutationRecord :=
  foldl (λ r op, (mutation_apply op r).2) r ops.

(** Records the public interface can produce. *)
Definition mutation_reachable (r : MutationRecord) : Prop :=
  ∃ intent r0 ops, MutationRecord_persist intent = Ok r0 ∧ r = mutation_run ops r0.

Lemma MutationRecord_persist_ok intent r :
  MutationRecord_persist intent = Ok r ↔
  MutationIntent_validate_for_persistence intent = Ok () ∧
  r = mk_MutationRecord intent MIntentPersisted None.
Proof.
  unfold MutationRecord_persist.
  destruct (MutationIntent_validate_for_persistence intent) as [[]|e]; cbn; crush.
Qed.

Lemma mutation_run_inv ops r : mutation_record_inv r → mutation_record_inv (mutation_run ops r).
Proof. exact (journal_run_inv ops r). Qed.

Lemma mutation_apply_intent op r : mr_intent (mutation_apply op r).2 = mr_intent r.
Proof.
  destruct op; cbn; [| |by destruct r as [? [] ?]..]; [by destruct r as [? [] ?]|].
  unfold MutationRecord_record_remote_outcome. repeat case_match; done.
Qed.

Lemma mutation_run_intent ops : ∀ r, mr_intent (mutation_run ops r) = mr_intent r.
Proof.
  induction ops as [|op ops IH]; intros r; [done|].
  transitivity (mr_intent (mutation_apply op r).2); [apply IH|apply mutation_apply_intent].
Qed.

Lemma mutation_reachable_inv r : mutation_reachable r → mutation_record_inv r.
Proof.
  intros (i & r0 & ops & Hp & ->). apply mutation_run_inv.
  by apply MutationRecord_persist_ok in Hp as [_ ->].
Qed.

Lemma mutation_reachable_run ops r : mutation_reachable r → mutation_reachable (mutation_run ops r).
Proof.
  intros (i & r0 & ops0 & Hp & ->). exists i, r0, (ops0 ++ ops). split; [done|].
  unfold mutation_run. by rewrite foldl_app.
Qed.

(** A known outcome is never replaced. *)
Lemma mutation_outcome_final ops r o :
  mutation_record_inv r → mr_remote_outcome r = Some o → o ≠ RemoteOutcomeUnknown →
  mr_remote_outcome (mutation_run ops r) = Some o.
Proof.
  intros Hinv Ho Hk. revert r Hinv Ho.
  induction ops as [|op ops IH]; intros r Hinv Ho; [done|].
  apply (IH (mutation_apply op r).2); [exact (journal_inv_step op r Hinv)|].
  destruct op; cbn; [by destruct r as [? [] ?]| |by destruct r as [? [] ?]..].
  destruct (record_outcome_cases r outcome Hinv) as [(->&_)|(_&[Hst|[Hst _]])]; [done| |];
    unfold mutation_record_inv in Hinv; rewrite Hst in Hinv; congruence.
Qed.

(** When each operation is accepted. *)
Definition mutation_accepts (op : mutation_op) (r : MutationRecord) : Prop :=
  match op with
  | MOpBegin => True
  | MOpOutcome o =>
      mr_state r = MRemoteApplying ∨ mr_state r = MRemoteOutcomeUnknown ∨
      (∃ current, mr_remote_outcome r = Some current ∧
         (current = o ∨ MutationRemoteOutcome_same_committed_effect current o = true))
  | MOpReconciled => mutation_rank (mr_state r) >= 3
  | MOpComplete => mutation_rank (mr_state r) >= 4
  end.

Lemma mutation_accepts_iff op r :
  mutation_record_inv r → (∃ t, (mutation_apply op r).1 = Ok t) ↔ mutation_accepts op r.
Proof.
  intros Hinv. destruct op; cbn.
  2: { unfold MutationRecord_record_remote_outcome.
       destruct r as [intent st [current|]]; cbn.
       - case_bool_decide as Heq; cbn; [split; [intros _; right; right; eauto|eauto]|].
         destruct (MutationRemoteOutcome_same_committed_effect current outcome) eqn:Hs; cbn.
         { split; [intros _; right; right; eauto|eauto]. }
         destruct st; cbn; split; eauto; try (by intros [? [=]]);
           by intros [?|[?|(c&[= <-]&[?|?])]]; congruence.
       - destruct st; cbn; split; eauto; try (by intros [? [=]]);
           by intros [?|[?|(c&[=]&?)]]. }
  all: destruct r as [? [] ?]; cbn; split; intros; try lia; eauto; destruct H as [? [=]].
Qed.

(** ** What an outcome must show *)

(** The committed item realises the desired mutation. *)
Definition item_realises (desired : DesiredMutation) (item : option CloudItem) : Prop :=
  match desired with
  | DesiredCreate scope parent_id name kind =>
      ∃ it, item = Some it ∧ item_key_scope (item_key it) = scope ∧
        item_parent_id it = Some parent_id ∧ item_name it = name ∧ item_kind it = kind
  | DesiredModifyContent key =>
      ∃ it, item = Some it ∧ item_key it = key ∧ item_kind it = FileKind
  | DesiredModifyMetadata key parent_id name =>
      ∃ it, item = Some it ∧ item_key it = key ∧
        (∀ p, parent_id = Some p → item_parent_id it = Some p) ∧
        (∀ n, name = Some n → item_name it = n)
  | DesiredDelete key => ∀ it, item = Some it → item_key it = key
  end.

Definition outcome_realises (desired : DesiredMutation) (o : MutationRemoteOutcome) : Prop :=
  match o with
  | Committed item | AlreadyCommitted item => item_realises desired item
  | PreconditionFailed _ _ | RemoteOutcomeUnknown => True
  end.

Lemma required_existing_item_ok item key missing mismatch it :
  required_existing_item item key missing mismatch = Ok it ↔
  item = Some it ∧ item_key it = key.
Proof.
  unfold required_existing_item. destruct item as [it'|]; cbn; [case_decide|]; crush.
Qed.

Lemma validate_committed_item_ok desired item :
  validate_committed_item desired item = Ok () ↔ item_realises desired item.
Proof.
  destruct desired as [scope parent name kind|key|key parent name|key]; cbn.
  - destruct item as [it|]; cbn; [|crush].
    repeat case_decide; split; intros; crush; eauto 10.
  - rewrite result_bind_ok. setoid_rewrite required_existing_item_ok.
    split; intros (it & H); exists it; repeat case_decide; crush; by apply dec_stable.
  - rewrite result_bind_ok. setoid_rewrite required_existing_item_ok. split.
    + intros (it & [-> Hk] & H). exists it. do 2 (case_decide; [done|]).
      split_and!; [done|done| |]; intros ? ->; apply dec_stable; intros Hne.
      * apply H0. split; eauto.
      * apply H1. split; [eauto|congruence].
    + intros (it & -> & Hk & Hp & Hn). exists it. split; [done|].
      rewrite !decide_False; [done| |]; intros [[x Hx] Hne]; subst; naive_solver.
  - destruct item as [it|]; [case_decide|]; split; intros; crush; naive_solver.
Qed.

Lemma validate_remote_outcome_ok intent o :
  validate_remote_outcome intent o = Ok () ↔ outcome_realises (mi_desired intent) o.
Proof. destruct o; cbn; rewrite ?validate_committed_item_ok; done. Qed.

(** The content snapshot belongs to exactly the content mutations, and to
    their target. *)
Definition intent_content_ok (i : MutationIntent) : Prop :=
  match mi_desired i with
  | DesiredModifyContent key => ∃ s, mi_local_content i = Some s ∧ snapshot_item_key s = key
  | _ => mi_local_content i = None
  end.

Lemma MutationIntent_validate_ok i :
  MutationIntent_validate_for_persistence i = Ok () ↔ intent_content_ok i.
Proof.
  unfold MutationIntent_validate_for_persistence, intent_content_ok.
  destruct i as [? ? ? ? [] ? [s|] ? ? ?]; cbn; split; intros; crush.
  - case_decide; crush. eauto.
  - subst. by rewrite decide_True.
Qed.

Definition sample_mutation_intent : MutationIntent :=
  MutationIntent_new (mk_opaque "op") (mk_opaque "key") PlatformCommand
    (mk_SessionGeneration 1) (DesiredDelete sample_item_key)
    (MutationPreconditions_new None None).

(** C10. The durable mutation record. A record starts from a valid intent
    and keeps it; along any sequence of operations, state and outcome agree
    (no outcome before the remote effect started, an unknown outcome exactly
    in the unknown state, a known one from then on); each operation is
    accepted exactly in the states below; one that succeeded never changes
    the record again; a known outcome is never replaced; the record changes
    at most five times, and never once it is completed. *)
Theorem mutation_record_protocol (intent : MutationIntent) (r0 : MutationRecord)
    (ops : list mutation_op) :
  MutationRecord_persist intent = Ok r0 →
  let r := mutation_run ops r0 in
  mr_intent r = intent ∧
  mutation_record_inv r ∧
  (∀ op, (∃ t, (mutation_apply op r).1 = Ok t) ↔ mutation_accepts op r) ∧
  (∀ op t r' ops', mutation_apply op r = (Ok t, r') →
     mutation_op_done op (mutation_run ops' r') ∧
     (mutation_apply op (mutation_run ops' r')).2 = mutation_run ops' r') ∧
  (∀ o ops', mr_remote_outcome r = Some o → o ≠ RemoteOutcomeUnknown →
     mr_remote_outcome (mutation_run ops' r) = Some o) ∧
  journal_changes ops r0 ≤ 5 ∧
  (mr_state r = MCompleted → ∀ ops', mutation_run ops' r = r).
Proof.
  intros Hp r. apply MutationRecord_persist_ok in Hp as [_ ->].
  set (r0 := mk_MutationRecord intent MIntentPersisted None) in *.
  assert (H0 : mutation_record_inv r0) by done.
  assert (Hr : mutation_record_inv r) by by apply mutation_run_inv.
  split_and!; [by apply mutation_run_intent|done| | | | |].
  - intros op. by apply mutation_accepts_iff.
  - intros op t r' ops' Ha. split.
    + assert (Hr' : mutation_record_inv r').
      { pose proof (journal_inv_step op r Hr) as Hs. cbn in Hs. by rewrite Ha in Hs. }
      exact (journal_run_done op ops' r' Hr' (journal_applied_done op r t r' Hr Ha)).
    + exact (proj2 (journal_at_most_once op ops' r t r' Hr Ha)).
  - intros. by apply mutation_outcome_final.
  - assert (Hb : journal_changes ops r0 ≤
        mutation_rank (mr_state (mutation_run ops r0)) - mutation_rank (mr_state r0))
      by exact (journal_changes_bound ops r0 H0).
    cbn in Hb. destruct (mr_state (mutation_run ops r0)); cbn in Hb; lia.
  - intros Hc ops'.
    exact (@journal_completed_run MutationRecord _ _ ops' r Hr (bool_decide_eq_true_2 _ Hc)).
Qed.

Example mutation_record_protocol_witness :
  ∃ r0, MutationRecord_persist sample_mutation_intent = Ok r0 ∧
  mr_remote_outcome
    (mutation_run [MOpComplete; MOpOutcome (Committed None)]
      (mutation_run [MOpBegin; MOpOutcome RemoteOutcomeUnknown;
                     MOpOutcome (AlreadyCommitted None); MOpReconciled] r0)) =
    Some (AlreadyCommitted None).
Proof.
  eexists. split; [reflexivity|].
  eapply (mutation_record_protocol sample_mutation_intent _
            [MOpBegin; MOpOutcome RemoteOutcomeUnknown;
             MOpOutcome (AlreadyCommitted None); MOpReconciled]); reflexivity || discriminate.
Defined.

(** The mutation contract. An intent is made durable exactly when it
    carries a local snapshot if and only if it replaces content, and then of
    the file it replaces; a name is never empty and a metadata change never
    void. A remote outcome is accepted exactly when the committed item
    realises the desired mutation: scope, parent, name and kind of a created
    item, identity and file kind of modified content, identity and each
    requested change of modified metadata, and identity of a deleted item if
    one is reported. *)
Theorem mutation_contract (intent : MutationIntent) :
  ((∃ r, MutationRecord_persist intent = Ok r) ↔ intent_content_ok intent) ∧
  (∀ o, validate_remote_outcome intent o = Ok () ↔
        outcome_realises (mi_desired intent) o) ∧
  (∀ scope parent name kind d,
     DesiredMutation_create scope parent name kind = Ok d ↔
     name ≠ "" ∧ d = DesiredCreate scope parent name kind) ∧
  (∀ key parent name d,
     DesiredMutation_modify_metadata key parent name = Ok d ↔
     (parent ≠ None ∨ name ≠ None) ∧ name ≠ Some "" ∧
     d = DesiredModifyMetadata key parent name).
Proof.
  split_and!.
  - rewrite <-MutationIntent_validate_ok. setoid_rewrite MutationRecord_persist_ok.
    split; [by intros (?&?&?)|eauto].
  - apply validate_remote_outcome_ok.
  - intros. unfold DesiredMutation_create. case_decide; crush.
  - intros key parent name d. unfold DesiredMutation_modify_metadata.
    destruct parent, name; repeat case_decide; crush; auto.
Qed.
