(* ===== verification/MutationRunner.v ===== *)
(** * The mutation runner

    [MutationRunner] of [mutation.rs] and the two ports it drives: the
    durable journal ([MutationJournalStore] of [store.rs]) and the product's
    backend ([CloudMutationBackend]).  The ports are type classes over the
    outside world [W]; what their documentation promises is a class of laws. *)
From S2P Require Export Action Mutation.

(** ** The ports *)
Class MutationJournalStore (W : Type) := {
  persist_mutation_intent :
    MutationIntent → action W CloudFilesStoreError StoreWriteStatus;
  load_mutation : OperationId → action W CloudFilesStoreError (option MutationRecord);
  begin_remote_apply :
    OperationId → SessionGeneration → action W CloudFilesStoreError StoreWriteStatus;
  record_remote_outcome :
    OperationId → SessionGeneration → MutationRemoteOutcome →
    action W CloudFilesStoreError StoreWriteStatus;
  mark_platform_reconciled :
    OperationId → SessionGeneration → action W CloudFilesStoreError StoreWriteStatus;
  complete_mutation :
    OperationId → SessionGeneration → action W CloudFilesStoreError StoreWriteStatus;
}.

Class CloudMutationBackend (W : Type) := {
  apply_mutation : MutationIntent → action W CloudBackendError MutationRemoteOutcome;
  reconcile_mutation : MutationIntent → action W CloudBackendError MutationRemoteOutcome;
}.

(** ** Errors and outcomes of a run *)
Inductive MutationRunError : Type :=
  | RunBackend (e : CloudBackendError)
  | RunStore (e : CloudFilesStoreError)
  | RunContract (e : CloudFilesCoreError)
  | RunRecordNotFound.

Inductive MutationRunOutcome : Type :=
  | RunCompleted | RunRemoteOutcomePending | RunFenced.

#[export] Instance MutationRunOutcome_eq_dec : EqDecision MutationRunOutcome.
Proof. solve_decision. Defined.

Definition validate_recorded_outcome (record : MutationRecord) : core_result unit :=
  outcome ← ok_or (mr_remote_outcome record)
    (InvalidMutationTransition
       "known, reconciled, or completed mutation omitted its remote outcome");
  if decide (outcome = RemoteOutcomeUnknown) then
    Err (InvalidMutationTransition
      "known, reconciled, or completed mutation retained an unknown remote outcome")
  else validate_remote_outcome (mr_intent record) outcome.

Section runner.
Context {W : Type} `{MutationJournalStore W, CloudMutationBackend W}.

Abbreviation run A := (action W MutationRunError A).

Definition observe_mutation_transition (status : StoreWriteStatus)
    (previous : MutationRecord) (operation_id : OperationId)
    (allow_stable_unknown : bool) : run (option MutationRecord) :=
  loaded ← with_error RunStore (load_mutation operation_id);
  current ← pure_result (ok_or loaded RunRecordNotFound);
  if decide (current ≠ previous) then mret (Some current)
  else if decide (status = WriteFenced) then mret None
  else if allow_stable_unknown
          && bool_decide (status = WriteAlreadyApplied)
          && bool_decide (mr_state current = MRemoteOutcomeUnknown)
  then mret (Some current)
  else pure_result (Err (RunContract (InvalidMutationTransition
    "mutation store reported a transition without durable progress"))).

(** The [loop] of [resume], unrolled [fuel] times; [None] is a loop that
    has not ended. *)
Fixpoint MutationRunner_resume (fuel : nat) (operation_id : OperationId)
    (execution_generation : SessionGeneration) : run (option MutationRunOutcome) :=
  match fuel with
  | O => mret None
  | S fuel =>
      loaded ← with_error RunStore (load_mutation operation_id);
      record ← pure_result (ok_or loaded RunRecordNotFound);
      match mr_state record with
      | MIntentPersisted =>
          status ← with_error RunStore
            (begin_remote_apply operation_id execution_generation);
          observed ← observe_mutation_transition status record operation_id false;
          match observed with
          | None => mret (Some RunFenced)
          | Some _ => MutationRunner_resume fuel operation_id execution_generation
          end
      | MRemoteApplying =>
          outcome ← with_error RunBackend (apply_mutation (mr_intent record));
          pure_result (map_err RunContract
            (validate_remote_outcome (mr_intent record) outcome));;
          let pending := bool_decide (outcome = RemoteOutcomeUnknown) in
          status ← with_error RunStore
            (record_remote_outcome operation_id execution_generation outcome);
          observed ← observe_mutation_transition status record operation_id false;
          match observed with
          | None => mret (Some RunFenced)
          | Some current =>
              if pending && bool_decide (mr_state current = MRemoteOutcomeUnknown)
              then mret (Some RunRemoteOutcomePending)
              else MutationRunner_resume fuel operation_id execution_generation
          end
      | MRemoteOutcomeUnknown =>
          outcome ← with_error RunBackend (reconcile_mutation (mr_intent record));
          pure_result (map_err RunContract
            (validate_remote_outcome (mr_intent record) outcome));;
          let pending := bool_decide (outcome = RemoteOutcomeUnknown) in
          status ← with_error RunStore
            (record_remote_outcome operation_id execution_generation outcome);
          observed ← observe_mutation_transition status record operation_id pending;
          match observed with
          | None => mret (Some RunFenced)
          | Some current =>
              if pending && bool_decide (mr_state current = MRemoteOutcomeUnknown)
              then mret (Some RunRemoteOutcomePending)
              else MutationRunner_resume fuel operation_id execution_generation
          end
      | MRemoteOutcomeKnown =>
          pure_result (map_err RunContract (validate_recorded_outcome record));;
          status ← with_error RunStore
            (mark_platform_reconciled operation_id execution_generation);
          observed ← observe_mutation_transition status record operation_id false;
          match observed with
          | None => mret (Some RunFenced)
          | Some _ => MutationRunner_resume fuel operation_id execution_generation
          end
      | MPlatformReconciled =>
          pure_result (map_err RunContract (validate_recorded_outcome record));;
          status ← with_error RunStore
            (complete_mutation operation_id execution_generation);
          observed ← observe_mutation_transition status record operation_id false;
          match observed with
          | None => mret (Some RunFenced)
          | Some _ => MutationRunner_resume fuel operation_id execution_generation
          end
      | MCompleted =>
          pure_result (map_err RunContract (validate_recorded_outcome record));;
          mret (Some RunCompleted)
      end
  end.

Definition MutationRunner_submit (fuel : nat) (intent : MutationIntent)
    (execution_generation : SessionGeneration) : run (option MutationRunOutcome) :=
  if decide (mi_session_generation intent ≠ execution_generation) then
    pure_result (Err (RunContract (InvalidMutationIntent
      "submitted mutation generation must match the executor generation")))
  else
    status ← with_error RunStore (persist_mutation_intent intent);
    if decide (status = WriteFenced) then mret (Some RunFenced)
    else MutationRunner_resume fuel (mi_operation_id intent) execution_generation.
End runner.

(** ** What the ports promise

    The store is shared: between any two calls other executors may advance
    the same record.  [durable_mutation] is the record a world holds; every
    call leaves each record where some sequence of record operations takes
    it, and a load reports the record that is there. *)
Definition mutation_store_step {W} `{MutationJournalStore W} (jop : mutation_op)
    (op : OperationId) (gen : SessionGeneration)
    : action W CloudFilesStoreError StoreWriteStatus :=
  match jop with
  | MOpBegin => begin_remote_apply op gen
  | MOpOutcome outcome => record_remote_outcome op gen outcome
  | MOpReconciled => mark_platform_reconciled op gen
  | MOpComplete => complete_mutation op gen
  end.

Class MutationDurability (W : Type) := {
  durable_mutation : W → OperationId → option MutationRecord;
  (** How often the backend's two methods have been called. *)
  apply_calls : W → Z;
  reconcile_calls : W → Z;
}.

Definition mutation_evolves {W} `{MutationDurability W} (w w' : W) : Prop :=
  ∀ op r, durable_mutation w op = Some r →
    ∃ ops, durable_mutation w' op = Some (mutation_run ops r).

(** A call that is not a backend call. *)
Definition mutation_quiet {W} `{MutationDurability W} (w w' : W) : Prop :=
  mutation_evolves w w' ∧ apply_calls w' = apply_calls w ∧
  reconcile_calls w' = reconcile_calls w.

Class MutationPortLaws (W : Type)
    `{MutationJournalStore W, CloudMutationBackend W, MutationDurability W} := {
  durable_mutation_reachable (w : W) op r :
    durable_mutation w op = Some r → mutation_reachable r;
  load_mutation_truth op (w : W) o w' :
    load_mutation op w = (Ok o, w') → durable_mutation w' op = o;
  load_mutation_quiet op (w : W) : mutation_quiet w (load_mutation op w).2;
  persist_mutation_quiet i (w : W) : mutation_quiet w (persist_mutation_intent i w).2;
  mutation_step_quiet jop op gen (w : W) :
    mutation_quiet w (mutation_store_step jop op gen w).2;
  apply_mutation_effect i (w : W) :
    mutation_evolves w (apply_mutation i w).2 ∧
    apply_calls (apply_mutation i w).2 = apply_calls w + 1 ∧
    reconcile_calls (apply_mutation i w).2 = reconcile_calls w;
  reconcile_mutation_effect i (w : W) :
    mutation_evolves w (reconcile_mutation i w).2 ∧
    apply_calls (reconcile_mutation i w).2 = apply_calls w ∧
    reconcile_calls (reconcile_mutation i w).2 = reconcile_calls w + 1;
}.

Section laws.
Context {W : Type} `{MutationPortLaws W}.

#[export] Instance mutation_evolves_preorder : PreOrder (mutation_evolves (W := W)).
Proof.
  split.
  - intros w op r Hr. by exists [].
  - intros w1 w2 w3 H12 H23 op r Hr.
    destruct (H12 op r Hr) as [ops1 Hr1]. destruct (H23 op _ Hr1) as [ops2 Hr2].
    exists (ops1 ++ ops2). unfold mutation_run in *. by rewrite foldl_app.
Qed.

(** The rank of the record is at least [k]. *)
Definition rank_at_least (k : Z) (op : OperationId) (w : W) : Prop :=
  k ≤ 0 ∨ ∃ r, durable_mutation w op = Some r ∧ k ≤ mutation_rank (mr_state r).

Lemma mutation_rank_run ops r :
  mutation_reachable r → mutation_rank (mr_state r) ≤ mutation_rank (mr_state (mutation_run ops r)).
Proof. intros Hr. exact (journal_run_rank ops r (mutation_reachable_inv r Hr)). Qed.

Lemma durable_rank_mono op r r' (w w' : W) :
  durable_mutation w op = Some r → mutation_evolves w w' →
  durable_mutation w' op = Some r' →
  mutation_rank (mr_state r) ≤ mutation_rank (mr_state r') ∧
  (r' ≠ r → mutation_rank (mr_state r) < mutation_rank (mr_state r')).
Proof.
  intros Hr He Hr'. destruct (He op r Hr) as [ops Ho]. simplify_eq.
  pose proof (durable_mutation_reachable w op r Hr) as Hreach. split.
  - by apply mutation_rank_run.
  - intros Hne. exact (journal_run_strict ops r (mutation_reachable_inv r Hreach) Hne).
Qed.

Lemma load_mutation_wp op (w : W) :
  wp (load_mutation op)
    (λ res w', mutation_quiet w w' ∧ ∀ o, res = Ok o → durable_mutation w' op = o) w.
Proof.
  apply wp_equiv. split; [apply load_mutation_quiet|].
  intros o Ho. apply (load_mutation_truth op w). rewrite <-Ho. apply surjective_pairing.
Qed.

(** Observing a transition: progress, a stable unknown outcome, a fence, or
    an error. *)
Lemma observe_mutation_transition_wp status previous op allow (w0 w : W) :
  durable_mutation w0 op = Some previous → mutation_evolves w0 w →
  wp (observe_mutation_transition status previous op allow)
    (λ res w', mutation_quiet w w' ∧
       match res with
       | Ok (Some current) =>
           durable_mutation w' op = Some current ∧
           (mutation_rank (mr_state previous) < mutation_rank (mr_state current) ∨
            current = previous ∧ allow = true ∧ status = WriteAlreadyApplied ∧
            mr_state current = MRemoteOutcomeUnknown)
       | Ok None => durable_mutation w' op = Some previous ∧ status = WriteFenced
       | Err _ => True
       end) w.
Proof.
  intros Hp He. unfold observe_mutation_transition. wp_steps.
  eapply wp_mono; [apply load_mutation_wp|]. cbn beta.
  intros res w' [Hq Ho]. destruct res as [o|e]; cbn; [|done].
  specialize (Ho o eq_refl). wp_steps. destruct o as [current|]; cbn; [|done].
  assert (He' : mutation_evolves w0 w') by (etrans; [done|apply Hq]).
  destruct (durable_rank_mono _ _ _ _ _ Hp He' Ho) as [Hle Hlt].
  case_decide; [|case_decide]; wp_steps.
  - split_and!; [done|done|]. left. auto.
  - split_and!; try done. naive_solver.
  - destruct (allow && bool_decide (status = WriteAlreadyApplied) && _) eqn:Hb; wp_steps; [|done].
    rewrite !andb_true_iff, !bool_decide_eq_true in Hb. destruct Hb as [[??]?].
    split_and!; [done|done|]. right. split_and!; done || by apply dec_stable.
Qed.
End laws.

(** ** Every run: what it leaves behind *)
Section runs.
Context {W : Type} `{MutationPortLaws W}.

(** The record that justifies a run's result. *)
Definition run_outcome_justified (op : OperationId) (out : MutationRunOutcome) (w : W) : Prop :=
  match out with
  | RunCompleted =>
      ∃ intent o, durable_mutation w op = Some (mk_MutationRecord intent MCompleted (Some o)) ∧
        o ≠ RemoteOutcomeUnknown ∧ outcome_realises (mi_desired intent) o
  | RunRemoteOutcomePending =>
      ∃ intent, durable_mutation w op =
        Some (mk_MutationRecord intent MRemoteOutcomeUnknown (Some RemoteOutcomeUnknown))
  | RunFenced => ∃ r, durable_mutation w op = Some r ∧ mr_state r ≠ MCompleted
  end.

(** At most one application, and none once the record is past [k]. *)
Definition calls_within (k : Z) (w w' : W) : Prop :=
  apply_calls w' ≤ apply_calls w + (if decide (k ≤ 1) then 1 else 0) ∧
  reconcile_calls w' ≤ reconcile_calls w + (if decide (k ≤ 2) then 1 else 0).

Definition run_post (k : Z) (op : OperationId) (w : W)
    (res : result MutationRunError (option MutationRunOutcome)) (w' : W) : Prop :=
  mutation_evolves w w' ∧ calls_within k w w' ∧
  match res with
  | Ok None => False
  | Ok (Some out) => run_outcome_justified op out w'
  | Err _ => True
  end.

Lemma run_post_weaken k k' op (w1 w2 w : W) res :
  k ≤ k' → mutation_evolves w1 w2 →
  apply_calls w2 + (if decide (k' ≤ 1) then 1 else 0) ≤
    apply_calls w1 + (if decide (k ≤ 1) then 1 else 0) →
  reconcile_calls w2 + (if decide (k' ≤ 2) then 1 else 0) ≤
    reconcile_calls w1 + (if decide (k ≤ 2) then 1 else 0) →
  run_post k' op w2 res w → run_post k op w1 res w.
Proof.
  intros ? He Ha Hr (He' & [Ha' Hr'] & Hres). split; [by etrans|].
  split; [split; lia|done].
Qed.

Lemma durable_mutation_inv op r (w : W) :
  durable_mutation w op = Some r → mutation_record_inv r.
Proof. intros Hr. by eapply mutation_reachable_inv, durable_mutation_reachable. Qed.

Lemma calls_within_quiet k (w w' : W) : mutation_quiet w w' → calls_within k w w'.
Proof. intros (_ & Ha & Hr). split; rewrite ?Ha, ?Hr; repeat case_decide; lia. Qed.

Lemma rank_at_least_evolves k op r (w w' : W) :
  durable_mutation w op = Some r → k ≤ mutation_rank (mr_state r) →
  mutation_evolves w w' → rank_at_least k op w'.
Proof.
  intros Hr Hk He. right. destruct (He op r Hr) as [ops Hr']. eexists. split; [done|].
  destruct (durable_rank_mono op r _ w w' Hr He Hr') as [? _]. lia.
Qed.

(** After a transition was observed the run stops or goes on above the
    record's rank. *)
Lemma observe_then status record op allow (stop : MutationRecord → bool)
    (next : action W MutationRunError (option MutationRunOutcome)) (w0 w : W) :
  durable_mutation w0 op = Some record → mutation_evolves w0 w →
  mr_state record ≠ MCompleted →
  (∀ r, stop r = true → mr_state r = MRemoteOutcomeUnknown) →
  (allow = true → mr_state record = MRemoteOutcomeUnknown → stop record = true) →
  let k := mutation_rank (mr_state record) + 1 in
  (∀ w', rank_at_least k op w' → wp next (run_post k op w') w') →
  wp (observed ← observe_mutation_transition status record op allow;
      match observed with
      | None => mret (Some RunFenced)
      | Some current => if stop current then mret (Some RunRemoteOutcomePending) else next
      end) (run_post k op w) w.
Proof.
  intros Hrec He Hnc Hstop Hallow k Hnext. wp_steps.
  eapply wp_mono; [by eapply observe_mutation_transition_wp|]. cbn beta.
  intros [[current|]|e] w' [Hq Ho].
  - destruct Ho as [Hcur Ho].
    destruct (stop current) eqn:Hs; wp_steps.
    + split; [apply Hq|]. split; [by apply calls_within_quiet|].
      specialize (Hstop _ Hs). pose proof (durable_mutation_inv _ _ _ Hcur) as Hinv.
      destruct current as [intent st out]. unfold mutation_record_inv in Hinv. cbn in *.
      subst st. exists intent. by rewrite Hcur, Hinv.
    + destruct Ho as [Hlt|(-> & -> & _ & Hst)]; [|by rewrite Hallow in Hs].
      eapply wp_mono; [apply Hnext|].
      * eapply (rank_at_least_evolves k op current w' w'); [done|unfold k; lia|reflexivity].
      * intros res w'' Hp. apply (run_post_weaken k k op w w' w'' res); [reflexivity|apply Hq| | |done];
          destruct Hq as (_ & Ha & Hr); rewrite ?Ha, ?Hr; lia.
  - destruct Ho as [Hcur ->]. wp_steps. split; [apply Hq|].
    split; [by apply calls_within_quiet|]. by exists record.
  - split; [apply Hq|]. split; [by apply calls_within_quiet|done].
Qed.

Lemma mutation_step_wp jop op gen (w : W) :
  wp (mutation_store_step jop op gen) (λ _ w', mutation_quiet w w') w.
Proof. apply wp_equiv, mutation_step_quiet. Qed.

(** The tail of every branch: a store step, then its observation. *)
Lemma step_then jop gen record op allow (stop : MutationRecord → bool)
    (next : action W MutationRunError (option MutationRunOutcome)) (w0 w : W) :
  durable_mutation w0 op = Some record → mutation_evolves w0 w →
  mr_state record ≠ MCompleted →
  (∀ r, stop r = true → mr_state r = MRemoteOutcomeUnknown) →
  (allow = true → mr_state record = MRemoteOutcomeUnknown → stop record = true) →
  let k := mutation_rank (mr_state record) + 1 in
  (∀ w', rank_at_least k op w' → wp next (run_post k op w') w') →
  wp (status ← with_error RunStore (mutation_store_step jop op gen);
      observed ← observe_mutation_transition status record op allow;
      match observed with
      | None => mret (Some RunFenced)
      | Some current => if stop current then mret (Some RunRemoteOutcomePending) else next
      end) (run_post k op w) w.
Proof.
  intros Hrec He Hnc Hstop Hallow k Hnext. wp_steps.
  eapply wp_mono; [apply mutation_step_wp|]. cbn beta. intros [status|e] w1 Hq; cbn.
  - eapply wp_mono; [apply (observe_then status record op allow stop next w0 w1); try done|].
    + etrans; [done|apply Hq].
    + intros res w2 Hp. apply (run_post_weaken k k op w w1 w2 res);
        [reflexivity|apply Hq| | |done]; destruct Hq as (_ & Ha & Hr); rewrite ?Ha, ?Hr; lia.
  - split; [apply Hq|]. split; [by apply calls_within_quiet|done].
Qed.

Lemma apply_mutation_wp i (w : W) :
  wp (apply_mutation i)
    (λ _ w', mutation_evolves w w' ∧ apply_calls w' = apply_calls w + 1 ∧
             reconcile_calls w' = reconcile_calls w + 0) w.
Proof. apply wp_equiv. rewrite Z.add_0_r. apply apply_mutation_effect. Qed.

Lemma reconcile_mutation_wp i (w : W) :
  wp (reconcile_mutation i)
    (λ _ w', mutation_evolves w w' ∧ apply_calls w' = apply_calls w + 0 ∧
             reconcile_calls w' = reconcile_calls w + 1) w.
Proof. apply wp_equiv. rewrite Z.add_0_r. apply reconcile_mutation_effect. Qed.

(** What the turn's own calls cost at a record of rank [n]. *)
Definition turn_calls (n : Z) (w1 w2 : W) : Prop :=
  mutation_evolves w1 w2 ∧
  apply_calls w2 = apply_calls w1 + (if decide (n = 1) then 1 else 0) ∧
  reconcile_calls w2 = reconcile_calls w1 + (if decide (n = 2) then 1 else 0).

Lemma turn_calls_none n (w : W) : n ≠ 1 → n ≠ 2 → turn_calls n w w.
Proof. intros. split; [reflexivity|]. rewrite !decide_False by done. lia. Qed.

Lemma run_post_turn k n op (w w1 w2 w' : W) res :
  k ≤ n → mutation_quiet w w1 → turn_calls n w1 w2 →
  run_post (n + 1) op w2 res w' → run_post k op w res w'.
Proof.
  intros Hk (He & Ha & Hr) (He' & Ha' & Hr').
  apply run_post_weaken; [lia|by etrans|..]; rewrite ?Ha', ?Hr', ?Ha, ?Hr;
    repeat case_decide; lia.
Qed.

Lemma run_post_err k n op (w w1 w2 : W) e :
  k ≤ n → mutation_quiet w w1 → turn_calls n w1 w2 → run_post k op w (Err e) w2.
Proof.
  intros Hk Hq Ht. apply (run_post_turn k n op w w1 w2); [done..|].
  split; [reflexivity|]. split; [|done]. split; repeat case_decide; lia.
Qed.

(** Six turns are enough: each one that goes on raises the rank. *)
Lemma MutationRunner_resume_wp fuel op gen : ∀ k (w : W),
  0 ≤ k ≤ 5 → rank_at_least k op w → 6 ≤ k + Z.of_nat fuel →
  wp (MutationRunner_resume fuel op gen) (run_post k op w) w.
Proof.
  induction fuel as [|fuel IH]; intros k w Hk Hrank Hfuel; [lia|].
  cbn [MutationRunner_resume]. wp_steps.
  eapply wp_mono; [apply load_mutation_wp|]. cbn beta.
  intros [o|e] w1 [Hq Ho]; cbn [map_err]; [|split; [apply Hq|]; split; [by apply calls_within_quiet|done]].
  specialize (Ho o eq_refl). wp_steps.
  destruct o as [record|]; cbn [ok_or];
    [|split; [apply Hq|]; split; [by apply calls_within_quiet|done]].
  assert (Hle : k ≤ mutation_rank (mr_state record)).
  { destruct Hrank as [?|(r0 & Hr0 & ?)]; [destruct (mr_state record); cbn; lia|].
    destruct (durable_rank_mono op r0 record w w1 Hr0 (proj1 Hq) Ho). lia. }
  assert (Hnext : ∀ w', rank_at_least (mutation_rank (mr_state record) + 1) op w' →
            mr_state record ≠ MCompleted →
            wp (MutationRunner_resume fuel op gen)
               (run_post (mutation_rank (mr_state record) + 1) op w') w').
  { intros w' Hw' Hnc. apply IH; [|done|lia]. destruct (mr_state record); cbn in *; lia || done. }
  pose proof (durable_mutation_inv _ _ _ Ho) as Hinv. unfold mutation_record_inv in Hinv.
  destruct record as [intent st out]; destruct st; cbn [mr_state mr_intent mr_remote_outcome] in *.
  - (* IntentPersisted *)
    eapply wp_mono; [apply (step_then MOpBegin gen _ op false (λ _, false) _ w1 w1 Ho);
      try done; intros; by apply Hnext|].
    intros res w' Hp. exact (run_post_turn k 0 op w w1 w1 w' res Hle Hq (turn_calls_none 0 w1 ltac:(done) ltac:(done)) Hp).
  - (* RemoteApplying *)
    wp_steps. eapply wp_mono; [apply apply_mutation_wp|]. cbn beta.
    intros [outcome|e] w2 (He2 & Ha2 & Hr2); cbn [map_err]; [|exact (run_post_err k 1 op w w1 w2 _ Hle Hq (conj He2 (conj Ha2 Hr2)))].
    wp_steps. destruct (validate_remote_outcome intent outcome) as [[]|e]; cbn [map_err];
      [|exact (run_post_err k 1 op w w1 w2 _ Hle Hq (conj He2 (conj Ha2 Hr2)))].
    eapply wp_mono; [apply (step_then (MOpOutcome outcome) gen _ op false
      (λ current, bool_decide (outcome = RemoteOutcomeUnknown) &&
                  bool_decide (mr_state current = MRemoteOutcomeUnknown)) _ w1 w2 Ho);
      try done|].
    + intros r Hs. rewrite andb_true_iff, !bool_decide_eq_true in Hs. apply Hs.
    + intros; by apply Hnext.
    + intros res w' Hp. exact (run_post_turn k 1 op w w1 w2 w' res Hle Hq (conj He2 (conj Ha2 Hr2)) Hp).
  - (* RemoteOutcomeUnknown *)
    wp_steps. eapply wp_mono; [apply reconcile_mutation_wp|]. cbn beta.
    intros [outcome|e] w2 (He2 & Ha2 & Hr2); cbn [map_err]; [|exact (run_post_err k 2 op w w1 w2 _ Hle Hq (conj He2 (conj Ha2 Hr2)))].
    wp_steps. destruct (validate_remote_outcome intent outcome) as [[]|e]; cbn [map_err];
      [|exact (run_post_err k 2 op w w1 w2 _ Hle Hq (conj He2 (conj Ha2 Hr2)))].
    eapply wp_mono; [apply (step_then (MOpOutcome outcome) gen _ op
      (bool_decide (outcome = RemoteOutcomeUnknown))
      (λ current, bool_decide (outcome = RemoteOutcomeUnknown) &&
                  bool_decide (mr_state current = MRemoteOutcomeUnknown)) _ w1 w2 Ho);
      try done|].
    + intros r Hs. rewrite andb_true_iff, !bool_decide_eq_true in Hs. apply Hs.
    + intros -> _. done.
    + intros; by apply Hnext.
    + intros res w' Hp. exact (run_post_turn k 2 op w w1 w2 w' res Hle Hq (conj He2 (conj Ha2 Hr2)) Hp).
  - (* RemoteOutcomeKnown *)
    wp_steps. destruct (validate_recorded_outcome _) as [[]|e] eqn:Hv; cbn [map_err];
      [|exact (run_post_err k 3 op w w1 w1 _ Hle Hq (turn_calls_none 3 w1 ltac:(done) ltac:(done)))].
    eapply wp_mono; [apply (step_then MOpReconciled gen _ op false (λ _, false) _ w1 w1 Ho);
      try done; intros; by apply Hnext|].
    intros res w' Hp. exact (run_post_turn k 3 op w w1 w1 w' res Hle Hq (turn_calls_none 3 w1 ltac:(done) ltac:(done)) Hp).
  - (* PlatformReconciled *)
    wp_steps. destruct (validate_recorded_outcome _) as [[]|e] eqn:Hv; cbn [map_err];
      [|exact (run_post_err k 4 op w w1 w1 _ Hle Hq (turn_calls_none 4 w1 ltac:(done) ltac:(done)))].
    eapply wp_mono; [apply (step_then MOpComplete gen _ op false (λ _, false) _ w1 w1 Ho);
      try done; intros; by apply Hnext|].
    intros res w' Hp. exact (run_post_turn k 4 op w w1 w1 w' res Hle Hq (turn_calls_none 4 w1 ltac:(done) ltac:(done)) Hp).
  - (* Completed *)
    wp_steps. destruct (validate_recorded_outcome _) as [[]|e] eqn:Hv; cbn [map_err];
      [|exact (run_post_err k 5 op w w1 w1 _ Hle Hq (turn_calls_none 5 w1 ltac:(done) ltac:(done)))].
    wp_steps. split; [apply Hq|]. split; [by apply calls_within_quiet|].
    destruct Hinv as (o & -> & Hk'). exists intent, o. split_and!; [done|done|].
    apply validate_remote_outcome_ok. unfold validate_recorded_outcome in Hv. cbn in Hv.
    by rewrite decide_False in Hv.
Qed.
End runs.

(** ** Fuel *)
Section fuel.
Context {W : Type} `{MutationJournalStore W, CloudMutationBackend W}.

(** One more turn does not change a run that ended. *)
Lemma MutationRunner_resume_more op gen fuel : ∀ w,
  (MutationRunner_resume fuel op gen w).1 ≠ Ok None →
  MutationRunner_resume (S fuel) op gen w = MutationRunner_resume fuel op gen w.
Proof.
  induction fuel as [|fuel IH]; [done|].
  cbn [MutationRunner_resume]. intros w. apply bind_congr. intros loaded w1.
  apply bind_congr. intros record w2. destruct (mr_state record).
  all: try (apply bind_congr; intros ? ?); try done.
  all: try (apply bind_congr; intros ? ?); try done.
  all: try (apply bind_congr; intros ? ?); try done.
  all: try (apply bind_congr; intros ? ?); try done.
  all: repeat case_match; try done; apply IH.
Qed.

Lemma MutationRunner_resume_enough op gen fuel n w :
  (MutationRunner_resume fuel op gen w).1 ≠ Ok None →
  MutationRunner_resume (n + fuel) op gen w = MutationRunner_resume fuel op gen w.
Proof.
  intros Hf. induction n as [|n IH]; [done|].
  cbn [Nat.add]. rewrite MutationRunner_resume_more; rewrite IH; done.
Qed.
End fuel.

(** ** Properties of every run *)
Section resume_properties.
Context {W : Type} `{MutationPortLaws W}.

Lemma MutationRunner_resume_post fuel op gen k (w : W) :
  (6 ≤ fuel)%nat → 0 ≤ k ≤ 5 → rank_at_least k op w →
  run_post k op w (MutationRunner_resume fuel op gen w).1 (MutationRunner_resume fuel op gen w).2.
Proof. intros. apply wp_equiv, MutationRunner_resume_wp; [done|done|lia]. Qed.

Lemma MutationRunner_submit_post fuel intent gen (w : W) :
  (6 ≤ fuel)%nat →
  wp (MutationRunner_submit fuel intent gen)
    (λ res w', mutation_evolves w w' ∧ calls_within 0 w w' ∧
       match res with
       | Ok None => False
       | Ok (Some out) =>
           out = RunFenced ∨ run_outcome_justified (mi_operation_id intent) out w'
       | Err _ => True
       end) w.
Proof.
  intros Hf. unfold MutationRunner_submit. case_decide as Hgen; wp_steps.
  { split; [reflexivity|]. split; [|done]. apply calls_within_quiet. by split_and!. }
  apply wp_equiv. pose proof (persist_mutation_quiet intent w) as Hq.
  destruct (persist_mutation_intent intent w) as [[status|e] w1]; cbn in *;
    [|split; [apply Hq|]; split; [by apply calls_within_quiet|done]].
  case_decide; wp_steps; [split; [apply Hq|]; split; [by apply calls_within_quiet|auto]|].
  apply wp_equiv.
  destruct (MutationRunner_resume_post fuel (mi_operation_id intent) gen 0 w1)
    as (He & [Ha Hr] & Hres); [done|lia|by left|].
  split; [etrans; [apply Hq|done]|]. destruct Hq as (_ & Hqa & Hqr). split.
  - split; lia.
  - destruct (MutationRunner_resume _ _ _ w1).1 as [[out|]|]; auto.
Qed.
End resume_properties.

(** ** A store with one executor

    When the executor's generation is active and nobody else touches the
    record, a store step is the record operation itself. *)
Class MutationExclusive (W : Type)
    `{MutationJournalStore W, CloudMutationBackend W, MutationDurability W} := {
  generation_active : W → OperationId → SessionGeneration → bool;
  exclusive_load op (w : W) : load_mutation op w = (Ok (durable_mutation w op), w);
  exclusive_step jop op gen (w : W) r r' :
    generation_active w op gen = true → durable_mutation w op = Some r →
    mutation_apply jop r = (Ok MApplied, r') →
    ∃ w', mutation_store_step jop op gen w = (Ok WriteApplied, w') ∧
      generation_active w' op gen = true ∧ durable_mutation w' op = Some r';
  exclusive_again jop op gen (w : W) r :
    generation_active w op gen = true → durable_mutation w op = Some r →
    mutation_apply jop r = (Ok MAlreadyApplied, r) →
    mutation_store_step jop op gen w = (Ok WriteAlreadyApplied, w);
  exclusive_apply i op gen (w : W) :
    durable_mutation (apply_mutation i w).2 op = durable_mutation w op ∧
    generation_active (apply_mutation i w).2 op gen = generation_active w op gen;
  exclusive_reconcile i op gen (w : W) :
    durable_mutation (reconcile_mutation i w).2 op = durable_mutation w op ∧
    generation_active (reconcile_mutation i w).2 op gen = generation_active w op gen;
}.

(** What a run should do with a record, given the backend's answers. *)
Definition settle (r : MutationRecord) (o : MutationRemoteOutcome)
    : result MutationRunError MutationRunOutcome * MutationRecord :=
  match validate_remote_outcome (mr_intent r) o with
  | Err e => (Err (RunContract e), r)
  | Ok () =>
      if decide (o = RemoteOutcomeUnknown) then
        (Ok RunRemoteOutcomePending,
         mk_MutationRecord (mr_intent r) MRemoteOutcomeUnknown (Some o))
      else (Ok RunCompleted, mk_MutationRecord (mr_intent r) MCompleted (Some o))
  end.

Definition mutation_reference (apply_answer reconcile_answer : backend_result MutationRemoteOutcome)
    (r : MutationRecord) : result MutationRunError MutationRunOutcome * MutationRecord :=
  match mr_state r with
  | MIntentPersisted | MRemoteApplying =>
      let r1 := mk_MutationRecord (mr_intent r) MRemoteApplying None in
      match apply_answer with Ok o => settle r1 o | Err e => (Err (RunBackend e), r1) end
  | MRemoteOutcomeUnknown =>
      match reconcile_answer with Ok o => settle r o | Err e => (Err (RunBackend e), r) end
  | _ => match mr_remote_outcome r with Some o => settle r o | None => (Err RunRecordNotFound, r) end
  end.

Section exclusive.
Context {W : Type} `{MutationExclusive W}.
Context (op : OperationId) (gen : SessionGeneration).

(** The run ends with this result, at a world with this record. *)
Definition run_ends (fuel : nat) (w : W)
    (out : result MutationRunError MutationRunOutcome * MutationRecord) : Prop :=
  ∃ w', MutationRunner_resume fuel op gen w = (Some <$> out.1, w') ∧
    generation_active w' op gen = true ∧ durable_mutation w' op = Some out.2.

(** The world holds this record and the executor is active. *)
Definition holds (r : MutationRecord) (w : W) : Prop :=
  generation_active w op gen = true ∧ durable_mutation w op = Some r.

Lemma exclusive_loaded {A} r w (k : MutationRecord → action W MutationRunError A) :
  holds r w →
  (loaded ← with_error RunStore (load_mutation op);
   record ← pure_result (ok_or loaded RunRecordNotFound); k record) w = k r w.
Proof.
  intros [_ Hr]. erewrite bind_ok; [|apply with_error_ok, exclusive_load].
  rewrite Hr. by erewrite bind_ok.
Qed.

(** An applied step is observed as progress. *)
Lemma exclusive_progress jop r r' allow w :
  holds r w → mutation_apply jop r = (Ok MApplied, r') → r' ≠ r →
  ∃ w', holds r' w' ∧
    ∀ A (k : option MutationRecord → action W MutationRunError A),
    (status ← with_error RunStore (mutation_store_step jop op gen);
     observed ← observe_mutation_transition status r op allow; k observed) w =
    k (Some r') w'.
Proof.
  intros [Hact Hr] Ha Hne. destruct (exclusive_step jop op gen w r r') as (w' & Hs & Hact' & Hr'); [done..|].
  exists w'. split; [done|]. intros A k. erewrite bind_ok; [|by apply with_error_ok].
  erewrite bind_ok; [done|]. unfold observe_mutation_transition.
  rewrite (exclusive_loaded r' w' (λ current, _)) by done. by rewrite decide_True.
Qed.

(** Recording the same unknown outcome again is observed as stable. *)
Lemma exclusive_stable {A} intent w (k : option MutationRecord → action W MutationRunError A) :
  let r := mk_MutationRecord intent MRemoteOutcomeUnknown (Some RemoteOutcomeUnknown) in
  holds r w →
  (status ← with_error RunStore (mutation_store_step (MOpOutcome RemoteOutcomeUnknown) op gen);
   observed ← observe_mutation_transition status r op true; k observed) w = k (Some r) w.
Proof.
  intros r [Hact Hr].
  erewrite bind_ok; [|by eapply with_error_ok, exclusive_again].
  erewrite bind_ok; [done|]. unfold observe_mutation_transition.
  rewrite (exclusive_loaded r w (λ current, _)) by done.
  rewrite decide_False by auto. rewrite decide_False by done. done.
Qed.

Lemma run_ends_more n m w out : (n ≤ m)%nat → run_ends n w out → run_ends m w out.
Proof.
  intros Hle (w' & Hrun & Hw'). exists w'. split; [|done].
  replace m with ((m - n) + n)%nat by lia. rewrite MutationRunner_resume_enough; [done|].
  rewrite Hrun. by destruct out as [[]].
Qed.

(** A turn at a record whose outcome is known. *)
Lemma ends_completed n i o w :
  let r := mk_MutationRecord i MCompleted (Some o) in
  o ≠ RemoteOutcomeUnknown → holds r w → run_ends (S n) w (settle r o).
Proof.
  intros r Hk Hh. exists w. cbn [MutationRunner_resume].
  rewrite (exclusive_loaded r w (λ record, _)) by done. cbn.
  unfold validate_recorded_outcome, settle. cbn. rewrite !decide_False by done.
  by destruct (validate_remote_outcome i o) as [[]|e].
Qed.

Lemma ends_next jop n i o st st' w :
  (st = MRemoteOutcomeKnown ∧ st' = MPlatformReconciled ∧ jop = MOpReconciled) ∨
  (st = MPlatformReconciled ∧ st' = MCompleted ∧ jop = MOpComplete) →
  let r := mk_MutationRecord i st (Some o) in
  let r' := mk_MutationRecord i st' (Some o) in
  o ≠ RemoteOutcomeUnknown → holds r w →
  (∀ w', holds r' w' → run_ends n w' (settle r' o)) →
  run_ends (S n) w (settle r o).
Proof.
  intros Hst r r' Hk Hh Hnext.
  destruct (exclusive_progress jop r r' false w) as (w' & Hh' & Hrun).
  { done. }
  { destruct Hst as [(->&->&->)|(->&->&->)]; reflexivity. }
  { destruct Hst as [(->&->&->)|(->&->&->)]; discriminate. }
  destruct (Hnext w' Hh') as (w'' & Hrun' & Hh'').
  unfold run_ends. cbn [MutationRunner_resume].
  rewrite (exclusive_loaded r w (λ record, _)) by done. cbn.
  unfold validate_recorded_outcome, settle in *. cbn in *. rewrite !decide_False in * by done.
  destruct Hst as [(->&->&->)|(->&->&->)]; cbn.
  all: destruct (validate_remote_outcome i o) as [[]|e]; cbn in *; [|by exists w].
  all: exists w''; split; [|done]; rewrite <-Hrun';
    (erewrite bind_ok; [|done]);
    exact (Hrun _ (λ observed, match observed with None => mret (Some RunFenced)
                     | Some _ => MutationRunner_resume n op gen end)).
Qed.

Lemma ends_known i o w :
  let r := mk_MutationRecord i MRemoteOutcomeKnown (Some o) in
  o ≠ RemoteOutcomeUnknown → holds r w → run_ends 3 w (settle r o).
Proof.
  intros r Hk Hh. eapply (ends_next MOpReconciled 2); [by left|done|done|]. intros w1 Hw1.
  eapply (ends_next MOpComplete 1); [by right|done|done|]. intros w2 Hw2.
  by apply ends_completed.
Qed.

(** A turn that asks the backend, at a record of the state [st]. *)
Lemma ends_unknown (answer : backend_result MutationRemoteOutcome) i w :
  let r := mk_MutationRecord i MRemoteOutcomeUnknown (Some RemoteOutcomeUnknown) in
  (∀ w', (reconcile_mutation i w').1 = answer) → holds r w →
  run_ends 4 w (match answer with Ok o => settle r o | Err e => (Err (RunBackend e), r) end).
Proof.
  intros r Hans Hh. unfold run_ends. cbn [MutationRunner_resume].
  rewrite (exclusive_loaded r w (λ record, _)) by done. cbn [r mr_state mr_intent].
  pose proof (exclusive_reconcile i op gen w) as [Hd Hact]. specialize (Hans w).
  destruct (reconcile_mutation i w) as [ans w1] eqn:Hcall. cbn in Hd, Hact, Hans. subst ans.
  assert (Hh1 : holds r w1) by (destruct Hh; split; congruence).
  destruct answer as [o|e]; [|exists w1; by erewrite bind_err; [|by apply with_error_err]].
  erewrite bind_ok; [|by apply with_error_ok]. unfold settle. cbn [r mr_intent].
  destruct (validate_remote_outcome i o) as [[]|e] eqn:Hv; [|by exists w1].
  erewrite bind_ok; [|done]. case_decide as Ho.
  - subst o. exists w1.
    rewrite (exclusive_stable i w1 (λ observed, _)) by done. done.
  - edestruct (exclusive_progress (MOpOutcome o) r
      (mk_MutationRecord i MRemoteOutcomeKnown (Some o)) false w1) as (w2 & Hh2 & Hrun).
    { done. }
    { cbn. unfold MutationRecord_record_remote_outcome. cbn. by destruct o. }
    { done. }
    rewrite bool_decide_false by done. rewrite Hrun. cbn [andb].
    destruct (ends_known i o w2 Ho Hh2) as (w3 & Hrun3 & Hh3). exists w3.
    unfold settle in *. cbn [mr_intent] in *. rewrite Hv, decide_False in * by done. done.
Qed.

Lemma ends_applying (answer : backend_result MutationRemoteOutcome) i w :
  let r := mk_MutationRecord i MRemoteApplying None in
  (∀ w', (apply_mutation i w').1 = answer) → holds r w →
  run_ends 4 w (match answer with Ok o => settle r o | Err e => (Err (RunBackend e), r) end).
Proof.
  intros r Hans Hh. unfold run_ends. cbn [MutationRunner_resume].
  rewrite (exclusive_loaded r w (λ record, _)) by done. cbn [r mr_state mr_intent].
  pose proof (exclusive_apply i op gen w) as [Hd Hact]. specialize (Hans w).
  destruct (apply_mutation i w) as [ans w1] eqn:Hcall. cbn in Hd, Hact, Hans. subst ans.
  assert (Hh1 : holds r w1) by (destruct Hh; split; congruence).
  destruct answer as [o|e]; [|exists w1; by erewrite bind_err; [|by apply with_error_err]].
  erewrite bind_ok; [|by apply with_error_ok]. unfold settle. cbn [r mr_intent].
  destruct (validate_remote_outcome i o) as [[]|e] eqn:Hv; [|by exists w1].
  erewrite bind_ok; [|done].
  edestruct (exclusive_progress (MOpOutcome o) r
    (mk_MutationRecord i (MutationRemoteOutcome_durable_state o) (Some o)) false w1)
    as (w2 & Hh2 & Hrun); [done|done|done|].
  rewrite Hrun. case_decide as Ho.
  - subst o. by exists w2.
  - rewrite bool_decide_false by done. cbn [andb].
    replace (MutationRemoteOutcome_durable_state o) with MRemoteOutcomeKnown in Hh2 by by destruct o.
    destruct (ends_known i o w2 Ho Hh2) as (w3 & Hrun3 & Hh3). exists w3.
    unfold settle in *. cbn [mr_intent] in *. rewrite Hv, decide_False in * by done. done.
Qed.

Lemma ends_intent (answer : backend_result MutationRemoteOutcome) i w :
  let r1 := mk_MutationRecord i MRemoteApplying None in
  (∀ w', (apply_mutation i w').1 = answer) →
  holds (mk_MutationRecord i MIntentPersisted None) w →
  run_ends 5 w (match answer with Ok o => settle r1 o | Err e => (Err (RunBackend e), r1) end).
Proof.
  intros r1 Hans Hh.
  edestruct (exclusive_progress MOpBegin (mk_MutationRecord i MIntentPersisted None) r1 false w) as (w1 & Hh1 & Hrun);
    [done|done|done|].
  destruct (ends_applying answer i w1 Hans Hh1) as (w2 & Hrun2 & Hh2).
  exists w2. split; [|done].
  remember 4%nat as n. cbn [MutationRunner_resume].
  rewrite (exclusive_loaded _ w (λ record, _)) by done. cbn [mr_state].
  rewrite Hrun. done.
Qed.

Lemma mutation_reference_ends a b r w :
  mutation_record_inv r → holds r w →
  (∀ w', (apply_mutation (mr_intent r) w').1 = a) →
  (∀ w', (reconcile_mutation (mr_intent r) w').1 = b) →
  run_ends 5 w (mutation_reference a b r).
Proof.
  destruct r as [i st out]. unfold mutation_record_inv. cbn. intros Hinv Hh Ha Hb.
  unfold mutation_reference. destruct st; cbn in *; subst.
  - by apply ends_intent.
  - eapply run_ends_more; [|by apply ends_applying]. lia.
  - eapply run_ends_more; [|by apply ends_unknown]. lia.
  - destruct Hinv as (o & -> & Hk). eapply run_ends_more; [|by apply ends_known]. lia.
  - destruct Hinv as (o & -> & Hk). eapply (run_ends_more 2); [lia|].
    eapply (ends_next MOpComplete 1); [by right|done|done|]. intros. by apply ends_completed.
  - destruct Hinv as (o & -> & Hk). eapply (run_ends_more 1); [lia|]. by apply ends_completed.
Qed.
End exclusive.

#[global] Opaque MutationRunner_resume.

(** ** The runner's contract *)
Section contract.
Context {W : Type} `{MutationPortLaws W}.

(** C12. Every run ends, and its result is true. For any lawful store and
    backend, whatever other executors do in between: six turns of the loop
    suffice and further fuel changes nothing; a run that reports completion
    leaves a completed record with a known outcome that realises the
    intent, one that reports a pending outcome leaves the unknown state,
    and a fenced one leaves the record uncompleted; every record only moves along its
    own operations; the backend is asked to apply at most once and to
    reconcile at most once, never again once an outcome is recorded, and
    not at all for an unsubmittable intent. *)
Theorem mutation_runner_safety (fuel : nat) (op : OperationId) (gen : SessionGeneration)
    (intent : MutationIntent) (w : W) :
  (6 ≤ fuel)%nat →
  let '(res, w') := MutationRunner_resume fuel op gen w in
  let '(sres, sw') := MutationRunner_submit fuel intent gen w in
  res ≠ Ok None ∧ MutationRunner_resume fuel op gen w = MutationRunner_resume 6 op gen w ∧
  (∀ out, res = Ok (Some out) → run_outcome_justified op out w') ∧
  mutation_evolves w w' ∧
  apply_calls w' ≤ apply_calls w + 1 ∧ reconcile_calls w' ≤ reconcile_calls w + 1 ∧
  (∀ r, durable_mutation w op = Some r →
     (mutation_rank (mr_state r) >= 2 → apply_calls w' ≤ apply_calls w) ∧
     (mutation_rank (mr_state r) >= 3 → reconcile_calls w' ≤ reconcile_calls w)) ∧
  (mi_session_generation intent ≠ gen →
     sw' = w ∧ sres = Err (RunContract (InvalidMutationIntent
       "submitted mutation generation must match the executor generation"))) ∧
  sres ≠ Ok None ∧ mutation_evolves w sw' ∧
  apply_calls sw' ≤ apply_calls w + 1 ∧ reconcile_calls sw' ≤ reconcile_calls w + 1 ∧
  (∀ out, sres = Ok (Some out) →
     out = RunFenced ∨ run_outcome_justified (mi_operation_id intent) out sw').
Proof.
  intros Hfuel.
  pose proof (MutationRunner_resume_post fuel op gen 0 w Hfuel ltac:(lia) (or_introl (Z.le_refl 0)))
    as (He & [Ha Hr] & Hres).
  pose proof (λ k, MutationRunner_resume_post fuel op gen k w Hfuel) as Hk.
  pose proof (MutationRunner_submit_post fuel intent gen w Hfuel) as Hsub.
  pose proof (MutationRunner_resume_post 6 op gen 0 w (le_n 6) ltac:(lia) (or_introl (Z.le_refl 0)))
    as (_ & _ & Hres6).
  assert (Henough : MutationRunner_resume fuel op gen w = MutationRunner_resume 6 op gen w).
  { replace fuel with (fuel - 6 + 6)%nat by lia. apply MutationRunner_resume_enough.
    intros Hn. by rewrite Hn in Hres6. }
  assert (Hgen : mi_session_generation intent ≠ gen → MutationRunner_submit fuel intent gen w =
            (Err (RunContract (InvalidMutationIntent
       "submitted mutation generation must match the executor generation")), w)).
  { intros Hne. unfold MutationRunner_submit. by rewrite decide_True. }
  apply wp_equiv in Hsub. destruct Hsub as (Hse & [Hsa Hsr] & Hsres).
  destruct (MutationRunner_resume fuel op gen w) as [res w'].
  destruct (MutationRunner_submit fuel intent gen w) as [sres sw']. cbn in *.
  split_and!; try done.
  - by intros ->.
  - by intros out ->.
  - intros r Hd. split; intros Hge.
    + destruct (Hk 2) as (_ & [? _] & _); [lia|right; exists r; split; [done|lia]|].
      by rewrite Z.add_0_r in *.
    + destruct (Hk 3) as (_ & [_ ?] & _); [lia|right; exists r; split; [done|lia]|].
      by rewrite Z.add_0_r in *.
  - intros Hne. specialize (Hgen Hne). by simplify_eq.
  - by intros ->.
  - by intros out ->.
Qed.
End contract.

Section refinement.
Context {W : Type} `{MutationExclusive W}.

(** C13. An undisturbed run does what the reference says. When the
    executor's generation is active, nobody else touches the record and the
    backend's answers to this intent are [a] and [b], a run from any record
    returns and stores exactly [mutation_reference a b]: the outcome of the
    one call the state asks for is validated; a known one is carried
    through platform reconciliation to completion; an unknown one is kept
    as pending; a backend or contract failure is returned and leaves the
    record where a later run can resume it. *)
Theorem mutation_runner_refines (fuel : nat) (op : OperationId) (gen : SessionGeneration)
    (r : MutationRecord) (a b : backend_result MutationRemoteOutcome) (w : W) :
  (6 ≤ fuel)%nat → mutation_reachable r →
  generation_active w op gen = true → durable_mutation w op = Some r →
  (∀ w', (apply_mutation (mr_intent r) w').1 = a) →
  (∀ w', (reconcile_mutation (mr_intent r) w').1 = b) →
  let '(res, w') := MutationRunner_resume fuel op gen w in
  res = Some <$> (mutation_reference a b r).1 ∧
  durable_mutation w' op = Some (mutation_reference a b r).2 ∧
  generation_active w' op gen = true.
Proof.
  intros Hfuel Hr Hact Hd Ha Hb.
  destruct (run_ends_more op gen 5 fuel w (mutation_reference a b r)) as (w' & -> & ? & ?).
  - lia.
  - apply mutation_reference_ends; [by apply mutation_reachable_inv|by split|done..].
  - done.
Qed.
End refinement.
