(* ===== verification/MutationLog.v ===== *)
(** * An event-sourced mutation journal

    A concrete implementation of the mutation ports: the journal keeps each
    intent with the record operations applied to it, one generation is
    active, and the backend gives the answers that index the world's type.
    It meets the contracts of [MutationRunner.v], which the theorems about
    the runner are applied to here; the source leaves the store and the
    backend to the product. *)
From S2P Require Export MutationRunner.

Record LogWorld (apply_answer reconcile_answer : backend_result MutationRemoteOutcome)
    : Type := mk_LogWorld {
  log_mutations : gmap OperationId (MutationIntent * list mutation_op);
  log_generation : SessionGeneration;
  log_apply_calls : Z;
  log_reconcile_calls : Z;
}.
Arguments mk_LogWorld {_ _}.
Arguments log_mutations {_ _}.
Arguments log_generation {_ _}.
Arguments log_apply_calls {_ _}.
Arguments log_reconcile_calls {_ _}.

Section log.
Context {a b : backend_result MutationRemoteOutcome}.
Local Abbreviation LogWorld := (LogWorld a b).

Definition with_mutations (w : LogWorld) m : LogWorld :=
  mk_LogWorld m (log_generation w) (log_apply_calls w) (log_reconcile_calls w).

Definition log_record (w : LogWorld) (op : OperationId) : option MutationRecord :=
  match log_mutations w !! op with
  | Some (intent, ops) =>
      match MutationRecord_persist intent with
      | Ok r => Some (mutation_run ops r)
      | Err _ => None
      end
  | None => None
  end.

Definition log_persist (intent : MutationIntent)
    : action LogWorld CloudFilesStoreError StoreWriteStatus := λ w,
  let op := mi_operation_id intent in
  if decide (mi_session_generation intent ≠ log_generation w) then (Ok WriteFenced, w)
  else
    match MutationRecord_persist intent, log_mutations w !! op with
    | Err _, _ => (Err (CloudFilesStoreError_new StoreInvalidTransition "intent"), w)
    | Ok _, Some (intent', _) =>
        if decide (intent = intent') then (Ok WriteAlreadyApplied, w)
        else (Err (CloudFilesStoreError_new StoreConflict "operation id"), w)
    | Ok _, None => (Ok WriteApplied, with_mutations w (<[op := (intent, [])]> (log_mutations w)))
    end.

Definition log_step (jop : mutation_op) (op : OperationId) (gen : SessionGeneration)
    : action LogWorld CloudFilesStoreError StoreWriteStatus := λ w,
  match log_mutations w !! op, log_record w op with
  | Some (intent, ops), Some r =>
      if decide (gen ≠ log_generation w) then (Ok WriteFenced, w)
      else
        match (mutation_apply jop r).1 with
        | Ok MApplied =>
            (Ok WriteApplied,
             with_mutations w (<[op := (intent, ops ++ [jop])]> (log_mutations w)))
        | Ok MAlreadyApplied => (Ok WriteAlreadyApplied, w)
        | Err _ => (Err (CloudFilesStoreError_new StoreInvalidTransition "transition"), w)
        end
  | _, _ => (Err (CloudFilesStoreError_new StoreNotFound "mutation"), w)
  end.

#[export] Instance log_journal_store : MutationJournalStore LogWorld := {
  persist_mutation_intent := log_persist;
  load_mutation op := λ w, (Ok (log_record w op), w);
  begin_remote_apply := log_step MOpBegin;
  record_remote_outcome op gen outcome := log_step (MOpOutcome outcome) op gen;
  mark_platform_reconciled := log_step MOpReconciled;
  complete_mutation := log_step MOpComplete;
}.

#[export] Instance log_backend : CloudMutationBackend LogWorld := {
  apply_mutation _ := λ w,
    (a, mk_LogWorld (log_mutations w) (log_generation w) (log_apply_calls w + 1) (log_reconcile_calls w));
  reconcile_mutation _ := λ w,
    (b, mk_LogWorld (log_mutations w) (log_generation w) (log_apply_calls w) (log_reconcile_calls w + 1));
}.

#[export] Instance log_durability : MutationDurability LogWorld := {
  durable_mutation := log_record;
  apply_calls := log_apply_calls;
  reconcile_calls := log_reconcile_calls;
}.

(** ** The contracts hold *)
#[local] Arguments with_mutations : simpl never.

Lemma mutation_store_step_log jop op gen :
  mutation_store_step (W := LogWorld) jop op gen = log_step jop op gen.
Proof. by destruct jop. Qed.

Lemma log_same_quiet (w : LogWorld) : mutation_quiet w w.
Proof. split; [reflexivity|done]. Qed.

(** Appending an operation to one record. *)
Lemma log_append_record w op intent ops jop r :
  log_mutations w !! op = Some (intent, ops) → log_record w op = Some r →
  log_record (with_mutations w (<[op := (intent, ops ++ [jop])]> (log_mutations w))) op =
    Some (mutation_apply jop r).2.
Proof.
  unfold log_record. intros -> Hr. unfold with_mutations. cbn. rewrite lookup_insert_eq.
  destruct (MutationRecord_persist intent); [|done]. injection Hr as <-.
  unfold mutation_run. by rewrite foldl_app.
Qed.

Lemma log_record_other (w : LogWorld) m op op' e :
  op ≠ op' → m = <[op := e]> (log_mutations w) →
  log_record (with_mutations w m) op' = log_record w op'.
Proof. intros Hne ->. unfold log_record, with_mutations. cbn. by rewrite lookup_insert_ne. Qed.

Lemma log_step_quiet jop op gen w : mutation_quiet w (log_step jop op gen w).2.
Proof.
  unfold log_step. destruct (log_mutations w !! op) as [[intent ops]|] eqn:Hl;
    [|apply log_same_quiet].
  destruct (log_record w op) as [r|] eqn:Hr; [|apply log_same_quiet].
  case_decide; [apply log_same_quiet|].
  destruct ((mutation_apply jop r).1) as [[]|]; try apply log_same_quiet.
  split; [|done]. intros op' r' Hr'. cbn in Hr'. cbn.
  destruct (decide (op = op')) as [<-|Hne].
  - exists [jop]. simplify_eq. by erewrite log_append_record.
  - exists []. by erewrite log_record_other.
Qed.

Lemma log_persist_quiet intent w : mutation_quiet w (log_persist intent w).2.
Proof.
  unfold log_persist. case_decide; [apply log_same_quiet|].
  destruct (MutationRecord_persist intent) as [r|e] eqn:Hp; [|apply log_same_quiet].
  destruct (log_mutations w !! _) as [[intent' ops]|] eqn:Hl;
    [case_decide; apply log_same_quiet|].
  split; [|done]. intros op' r' Hr'. exists []. cbn in *.
  destruct (decide (mi_operation_id intent = op')) as [<-|Hne].
  - unfold log_record in Hr'. by rewrite Hl in Hr'.
  - by erewrite log_record_other.
Qed.

#[export] Instance log_port_laws : MutationPortLaws LogWorld.
Proof.
  split; cbn.
  - unfold log_record. intros w op r Hr. repeat case_match; simplify_eq.
    eexists _, _, _. split; [done|reflexivity].
  - by intros op w o w' [= <- <-].
  - intros. apply log_same_quiet.
  - apply log_persist_quiet.
  - intros. rewrite mutation_store_step_log. apply log_step_quiet.
  - intros i w. split; [|done]. intros op r Hr. by exists [].
  - intros i w. split; [|done]. intros op r Hr. by exists [].
Qed.

#[export, refine] Instance log_exclusive : MutationExclusive LogWorld := {
  generation_active w _ gen := bool_decide (gen = log_generation w);
}.
Proof.
  - done.
  - intros jop op gen w r r' Hact Hr Ha. rewrite mutation_store_step_log.
    rewrite bool_decide_eq_true in Hact. subst gen. cbn in Hr. unfold log_step. rewrite Hr, Ha.
    destruct (log_mutations w !! op) as [[intent ops]|] eqn:Hl;
      [|unfold log_record in Hr; by rewrite Hl in Hr].
    rewrite decide_False by auto. eexists. split; [reflexivity|].
    split; [by apply bool_decide_eq_true_2|].
    change (durable_mutation ?w' ?op') with (log_record w' op').
    erewrite log_append_record by done. by rewrite Ha.
  - intros jop op gen w r Hact Hr Ha. rewrite mutation_store_step_log.
    rewrite bool_decide_eq_true in Hact. subst gen. cbn in Hr. unfold log_step. rewrite Hr, Ha.
    destruct (log_mutations w !! op) as [[intent ops]|] eqn:Hl;
      [|unfold log_record in Hr; by rewrite Hl in Hr].
    by rewrite decide_False by auto.
  - done.
  - done.
Defined.
End log.

(** ** The runner's theorems at this implementation *)
Definition sample_log : LogWorld (Ok RemoteOutcomeUnknown) (Ok (AlreadyCommitted None)) :=
  mk_LogWorld {[ mi_operation_id sample_mutation_intent := (sample_mutation_intent, []) ]}
    (mk_SessionGeneration 1) 0 0.

Definition sample_log_record : MutationRecord :=
  mk_MutationRecord sample_mutation_intent MIntentPersisted None.

Lemma sample_log_record_eq :
  durable_mutation sample_log (mi_operation_id sample_mutation_intent) = Some sample_log_record.
Proof. reflexivity. Qed.

Example mutation_runner_safety_witness :
  (6 ≤ 6)%nat ∧
  let '(res, w') :=
    MutationRunner_resume 6 (mi_operation_id sample_mutation_intent)
      (mk_SessionGeneration 1) sample_log in
  res = Ok (Some RunRemoteOutcomePending) ∧
  run_outcome_justified (mi_operation_id sample_mutation_intent) RunRemoteOutcomePending w' ∧
  apply_calls w' ≤ apply_calls sample_log + 1.
Proof.
  split; [lia|].
  pose proof (mutation_runner_safety 6 (mi_operation_id sample_mutation_intent)
    (mk_SessionGeneration 1) sample_mutation_intent sample_log (le_n 6)) as H.
  assert (Hres : (MutationRunner_resume 6 (mi_operation_id sample_mutation_intent)
      (mk_SessionGeneration 1) sample_log).1 = Ok (Some RunRemoteOutcomePending))
    by (vm_compute; reflexivity).
  destruct (MutationRunner_resume _ _ _ sample_log) as [res w'].
  destruct (MutationRunner_submit _ _ _ sample_log) as [sres sw'].
  destruct H as (_ & _ & Hj & _ & Ha & _).
  split; [exact Hres|]. split; [by apply Hj|exact Ha].
Defined.

Example mutation_runner_refines_witness :
  (6 ≤ 6)%nat ∧
  let '(res, w') :=
    MutationRunner_resume 6 (mi_operation_id sample_mutation_intent)
      (mk_SessionGeneration 1) sample_log in
  res = Ok (Some RunRemoteOutcomePending) ∧
  durable_mutation w' (mi_operation_id sample_mutation_intent) =
    Some (mk_MutationRecord sample_mutation_intent MRemoteOutcomeUnknown
            (Some RemoteOutcomeUnknown)).
Proof.
  split; [lia|].
  assert (Hreach : mutation_reachable sample_log_record).
  { exists sample_mutation_intent, sample_log_record, []. split; reflexivity. }
  pose proof (mutation_runner_refines 6 (mi_operation_id sample_mutation_intent)
    (mk_SessionGeneration 1) sample_log_record (Ok RemoteOutcomeUnknown) (Ok (AlreadyCommitted None)) sample_log
    (le_n 6) Hreach eq_refl sample_log_record_eq (λ _, eq_refl) (λ _, eq_refl)) as H.
  destruct (MutationRunner_resume _ _ _ sample_log) as [res w'].
  destruct H as (-> & -> & _). split; reflexivity.
Defined.
