(* ===== verification/Upload.v ===== *)
(** * Resumable uploads: intents, sessions, chunks and the upload record

    [upload.rs]: the values exchanged with a backend while the bytes of one
    immutable local snapshot are uploaded, and the durable record that carries
    the upload from its intent through accepted offsets, remote commit and
    metadata reconciliation to completion. *)
From Stdlib Require Import Init.Byte.
From S2P Require Export Mutation ContentStorage.

(** ** Intent, session, chunk and acknowledgement *)
Record ContentUploadIntent : Type := mk_ContentUploadIntent {
  cu_operation_id : OperationId;
  cu_idempotency_key : IdempotencyKey;
  cu_base_cache_key : ContentCacheKey;
  cu_snapshot : LocalContentSnapshot;
  cu_upload_lease_id : ContentLeaseId;
  cu_session_generation : SessionGeneration;
}.

#[export] Instance ContentUploadIntent_eq_dec : EqDecision ContentUploadIntent.
Proof. solve_decision. Defined.

Definition upload_size (intent : ContentUploadIntent) : Z := snapshot_size (cu_snapshot intent).

Definition ContentUploadIntent_new (operation_id : OperationId)
    (idempotency_key : IdempotencyKey) (base_cache_key : ContentCacheKey)
    (snapshot : LocalContentSnapshot) (upload_lease_id : ContentLeaseId)
    (session_generation : SessionGeneration) : core_result ContentUploadIntent :=
  if decide (cache_key_item_key base_cache_key ≠ snapshot_item_key snapshot) then
    Err (InvalidContentUploadTransition
      "upload snapshot item does not match the base cache key")
  else
    Ok (mk_ContentUploadIntent operation_id idempotency_key base_cache_key snapshot
          upload_lease_id session_generation).

Record ContentUploadSession : Type := ContentUploadSession_new {
  upload_session_id : ContentUploadSessionId;
  upload_accepted_offset : Z;
}.

#[export] Instance ContentUploadSession_eq_dec : EqDecision ContentUploadSession.
Proof. solve_decision. Defined.

Definition ContentUploadSession_validate_for (s : ContentUploadSession)
    (intent : ContentUploadIntent) : core_result unit :=
  if decide (upload_accepted_offset s > snapshot_size (cu_snapshot intent)) then
    Err (InvalidContentUploadTransition
      "backend upload offset exceeds the immutable snapshot size")
  else Ok ().

Record ContentUploadChunk : Type := ContentUploadChunk_from_validated_parts {
  chunk_session_id : ContentUploadSessionId;
  chunk_local_generation : LocalContentGeneration;
  chunk_offset : Z;
  chunk_bytes : list byte;
  chunk_byte_len : Z;
  chunk_total_size : Z;
}.

Definition ContentUploadChunk_new (session_id : ContentUploadSessionId)
    (local_generation : LocalContentGeneration) (offset : Z) (bytes : list byte)
    (total_size : Z) : core_result ContentUploadChunk :=
  let byte_len := byte_count bytes in
  if decide (byte_len = 0) then
    Err (InvalidContentUploadTransition "upload chunks must contain at least one byte")
  else
    chunk_end ← ok_or (checked_add U64_MAX offset byte_len)
      (InvalidContentUploadTransition "upload chunk end exceeds u64");
    if decide (chunk_end > total_size) then
      Err (InvalidContentUploadTransition "upload chunk exceeds the immutable snapshot size")
    else
      Ok (ContentUploadChunk_from_validated_parts session_id local_generation offset bytes
            byte_len total_size).

Definition ContentUploadChunk_end_exclusive (c : ContentUploadChunk) : Z :=
  u64_add (chunk_offset c) (chunk_byte_len c).

Definition ContentUploadChunk_validate_for (c : ContentUploadChunk)
    (intent : ContentUploadIntent) (session : ContentUploadSession) : core_result unit :=
  if decide (chunk_session_id c ≠ upload_session_id session) then
    Err (InvalidContentUploadTransition "upload chunk belongs to another backend session")
  else if decide (chunk_local_generation c ≠ snapshot_generation (cu_snapshot intent)) then
    Err (InvalidContentUploadTransition "upload chunk belongs to another local generation")
  else if decide (chunk_total_size c ≠ snapshot_size (cu_snapshot intent)) then
    Err (InvalidContentUploadTransition
      "upload chunk size does not match the immutable snapshot")
  else if decide (chunk_offset c ≠ upload_accepted_offset session) then
    Err (InvalidContentUploadTransition
      "upload chunk does not continue the durable accepted offset")
  else Ok ().

Record ContentUploadChunkAck : Type := ContentUploadChunkAck_new {
  ack_session_id : ContentUploadSessionId;
  ack_accepted_offset : Z;
}.

Definition ContentUploadChunkAck_validate_for (a : ContentUploadChunkAck)
    (c : ContentUploadChunk) : core_result unit :=
  if decide (ack_session_id a ≠ chunk_session_id c) then
    Err (InvalidContentUploadTransition "upload acknowledgement belongs to another session")
  else if decide (ack_accepted_offset a ≠ ContentUploadChunk_end_exclusive c) then
    Err (InvalidContentUploadTransition
      "upload acknowledgement does not match the submitted chunk end")
  else Ok ().

(** ** The durable record *)
Inductive ContentUploadState : Type :=
  | UIntentPersisted
  | UUploading
  | URemoteCommitting
  | URemoteOutcomeUnknown
  | URemoteOutcomeKnown
  | UMetadataReconciled
  | UCompleted.

#[export] Instance ContentUploadState_eq_dec : EqDecision ContentUploadState.
Proof. solve_decision. Defined.

Inductive ContentUploadRecordTransition : Type := UApplied | UAlreadyApplied | UFenced.

Record ContentUploadRecord : Type := mk_ContentUploadRecord {
  ur_intent : ContentUploadIntent;
  ur_state : ContentUploadState;
  ur_session : option ContentUploadSession;
  ur_remote_outcome : option MutationRemoteOutcome;
}.

#[export] Instance ContentUploadRecord_eq_dec : EqDecision ContentUploadRecord.
Proof. solve_decision. Defined.

Definition ContentUploadRecord_persist (intent : ContentUploadIntent) : ContentUploadRecord :=
  mk_ContentUploadRecord intent UIntentPersisted None None.

Definition ContentUploadRecord_record_session (r : ContentUploadRecord)
    (session : ContentUploadSession)
    : core_result ContentUploadRecordTransition * ContentUploadRecord :=
  match ContentUploadSession_validate_for session (ur_intent r) with
  | Err e => (Err e, r)
  | Ok () =>
      match ur_state r with
      | UIntentPersisted | UUploading =>
          match ur_session r with
          | None =>
              (Ok UApplied,
               mk_ContentUploadRecord (ur_intent r) UUploading (Some session)
                 (ur_remote_outcome r))
          | Some current =>
              if decide (upload_session_id current ≠ upload_session_id session) then
                (Err (InvalidContentUploadTransition
                   "one upload operation cannot switch backend session identity"), r)
              else if decide (upload_accepted_offset session < upload_accepted_offset current)
              then (Ok UFenced, r)
              else if decide (upload_accepted_offset session = upload_accepted_offset current)
              then (Ok UAlreadyApplied, r)
              else
                (Ok UApplied,
                 mk_ContentUploadRecord (ur_intent r) (ur_state r) (Some session)
                   (ur_remote_outcome r))
          end
      | _ =>
          if decide (ur_session r = Some session) then (Ok UAlreadyApplied, r)
          else
            (Err (InvalidContentUploadTransition
               "upload session checkpoint must precede remote commit"), r)
      end
  end.

Definition ContentUploadRecord_begin_remote_commit (r : ContentUploadRecord)
    : core_result ContentUploadRecordTransition * ContentUploadRecord :=
  match ur_state r with
  | UUploading =>
      let complete :=
        match ur_session r with
        | Some session =>
            bool_decide (upload_accepted_offset session = snapshot_size (cu_snapshot (ur_intent r)))
        | None => false
        end in
      if negb complete then
        (Err (InvalidContentUploadTransition
           "remote commit requires every immutable byte to be accepted"), r)
      else
        (Ok UApplied,
         mk_ContentUploadRecord (ur_intent r) URemoteCommitting (ur_session r)
           (ur_remote_outcome r))
  | URemoteCommitting | URemoteOutcomeUnknown | URemoteOutcomeKnown
  | UMetadataReconciled | UCompleted => (Ok UAlreadyApplied, r)
  | UIntentPersisted =>
      (Err (InvalidContentUploadTransition "remote commit requires a backend upload session"), r)
  end.

(** The leading check of [record_remote_outcome]. *)
Definition validate_upload_outcome (intent : ContentUploadIntent)
    (outcome : MutationRemoteOutcome) : core_result unit :=
  match outcome with
  | Committed item | AlreadyCommitted item =>
      item ← ok_or item (InvalidContentUploadTransition
        "committed upload outcome requires current item metadata");
      if decide (item_key item ≠ cache_key_item_key (cu_base_cache_key intent)) then
        Err (InvalidContentUploadTransition
          "committed upload outcome belongs to another item")
      else
        content ← ok_or (item_content item) (InvalidContentUploadTransition
          "committed upload outcome must describe file content");
        if decide (content_size content ≠ snapshot_size (cu_snapshot intent)) then
          Err (InvalidContentUploadTransition
            "committed upload size does not match the immutable snapshot")
        else Ok ()
  | _ => Ok ()
  end.

Definition ContentUploadRecord_record_remote_outcome (r : ContentUploadRecord)
    (outcome : MutationRemoteOutcome)
    : core_result ContentUploadRecordTransition * ContentUploadRecord :=
  match validate_upload_outcome (ur_intent r) outcome with
  | Err e => (Err e, r)
  | Ok () =>
      let next_state :=
        match outcome with
        | RemoteOutcomeUnknown => URemoteOutcomeUnknown
        | _ => URemoteOutcomeKnown
        end in
      let same_outcome := bool_decide (ur_remote_outcome r = Some outcome) in
      let outcome_is_already_durable :=
        match ur_state r with
        | URemoteOutcomeUnknown | URemoteOutcomeKnown | UMetadataReconciled | UCompleted => true
        | _ => false
        end in
      if same_outcome && outcome_is_already_durable then (Ok UAlreadyApplied, r)
      else
        match ur_state r with
        | URemoteCommitting | URemoteOutcomeUnknown =>
            (Ok UApplied,
             mk_ContentUploadRecord (ur_intent r) next_state (ur_session r) (Some outcome))
        | _ =>
            (Err (InvalidContentUploadTransition
               "remote upload outcome must follow commit or reconcile an unknown outcome"), r)
        end
  end.

Definition ContentUploadRecord_mark_metadata_reconciled (r : ContentUploadRecord)
    : core_result ContentUploadRecordTransition * ContentUploadRecord :=
  match ur_state r with
  | URemoteOutcomeKnown =>
      (Ok UApplied,
       mk_ContentUploadRecord (ur_intent r) UMetadataReconciled (ur_session r)
         (ur_remote_outcome r))
  | UMetadataReconciled | UCompleted => (Ok UAlreadyApplied, r)
  | _ =>
      (Err (InvalidContentUploadTransition
         "upload metadata reconciliation requires a known remote outcome"), r)
  end.

Definition ContentUploadRecord_complete (r : ContentUploadRecord)
    : core_result ContentUploadRecordTransition * ContentUploadRecord :=
  match ur_state r with
  | UMetadataReconciled =>
      (Ok UApplied,
       mk_ContentUploadRecord (ur_intent r) UCompleted (ur_session r) (ur_remote_outcome r))
  | UCompleted => (Ok UAlreadyApplied, r)
  | _ => (Err (InvalidContentUploadTransition
            "upload completion requires metadata reconciliation"), r)
  end.

(** ** The record as a journal

    The offset of a session operation is a natural number: the source's
    [u64], whose upper end the snapshot size bounds. *)
Inductive upload_op : Type :=
  | UOpSession (id : ContentUploadSessionId) (accepted_offset : N)
  | UOpCommit
  | UOpOutcome (outcome : MutationRemoteOutcome)
  | UOpMetadata
  | UOpComplete.

Definition upload_apply (op : upload_op) (r : ContentUploadRecord) :=
  match op with
  | UOpSession id offset =>
      ContentUploadRecord_record_session r (ContentUploadSession_new id (Z.of_N offset))
  | UOpCommit => ContentUploadRecord_begin_remote_commit r
  | UOpOutcome outcome => ContentUploadRecord_record_remote_outcome r outcome
  | UOpMetadata => ContentUploadRecord_mark_metadata_reconciled r
  | UOpComplete => ContentUploadRecord_complete r
  end.

Definition upload_run (ops : list upload_op) (r : ContentUploadRecord) : ContentUploadRecord :=
  foldl (λ r op, (upload_apply op r).2) r ops.

(** The offset the backend has durably accepted. *)
Definition upload_accepted (r : ContentUploadRecord) : Z :=
  match ur_session r with Some s => upload_accepted_offset s | None => 0 end.

(** Every accepted byte is a step; so is every phase after the last byte. *)
Definition upload_rank (r : ContentUploadRecord) : Z :=
  let size := snapshot_size (cu_snapshot (ur_intent r)) in
  match ur_state r with
  | UIntentPersisted => 0
  | UUploading => 1 + upload_accepted r
  | URemoteCommitting => size + 2
  | URemoteOutcomeUnknown => size + 3
  | URemoteOutcomeKnown => size + 4
  | UMetadataReconciled => size + 5
  | UCompleted => size + 6
  end.

(** What a committed outcome must show of the upload. *)
Definition upload_outcome_ok (intent : ContentUploadIntent) (o : MutationRemoteOutcome) : Prop :=
  match o with
  | Committed item | AlreadyCommitted item =>
      ∃ it content, item = Some it ∧
        item_key it = cache_key_item_key (cu_base_cache_key intent) ∧
        item_content it = Some content ∧ content_size content = upload_size intent
  | _ => True
  end.

Lemma validate_upload_outcome_ok intent o :
  validate_upload_outcome intent o = Ok () ↔ upload_outcome_ok intent o.
Proof.
  unfold upload_outcome_ok, upload_size.
  destruct o as [[it|]|[it|]| |]; cbn; try (split; [done|by intros (?&?&[=]&?)]); try done.
  all: case_decide as Hk; [split; [done|intros (?&?&[= <-]&?&?)]; done|].
  all: destruct (item_content it) as [c|] eqn:Hc; cbn;
    [|split; [done|intros (?&?&[= <-]&?&?&?); congruence]].
  all: case_decide as Hs; split; [done|intros (?&?&[= <-]&?&?&?); simplify_eq| |done].
  all: intros _; by exists it, c.
Qed.

(** State, session and outcome agree, and bytes past the accepted offset are
    never skipped: the record leaves [Uploading] only with every byte
    accepted. *)
Definition upload_record_inv (r : ContentUploadRecord) : Prop :=
  let size := upload_size (ur_intent r) in
  0 ≤ size ∧
  match ur_state r with
  | UIntentPersisted => ur_session r = None ∧ ur_remote_outcome r = None
  | UUploading =>
      ∃ s, ur_session r = Some s ∧ 0 ≤ upload_accepted_offset s ≤ size ∧
        ur_remote_outcome r = None
  | URemoteCommitting =>
      ∃ s, ur_session r = Some s ∧ upload_accepted_offset s = size ∧ ur_remote_outcome r = None
  | URemoteOutcomeUnknown =>
      ∃ s, ur_session r = Some s ∧ upload_accepted_offset s = size ∧
        ur_remote_outcome r = Some RemoteOutcomeUnknown
  | URemoteOutcomeKnown | UMetadataReconciled | UCompleted =>
      ∃ s o, ur_session r = Some s ∧ upload_accepted_offset s = size ∧
        ur_remote_outcome r = Some o ∧ o ≠ RemoteOutcomeUnknown ∧
        upload_outcome_ok (ur_intent r) o
  end.

(** How far the record is, by phase. *)
Definition upload_phase (s : ContentUploadState) : Z :=
  match s with
  | UIntentPersisted => 0 | UUploading => 1 | URemoteCommitting => 2
  | URemoteOutcomeUnknown => 3 | URemoteOutcomeKnown => 4
  | UMetadataReconciled => 5 | UCompleted => 6
  end.

Definition upload_op_done (op : upload_op) (r : ContentUploadRecord) : Prop :=
  match op with
  | UOpSession id offset =>
      ∃ s, ur_session r = Some s ∧ upload_session_id s = id ∧
        Z.of_N offset ≤ upload_accepted_offset s
  | UOpCommit => upload_phase (ur_state r) >= 2
  | UOpOutcome o =>
      (o = RemoteOutcomeUnknown ∧ upload_phase (ur_state r) >= 3) ∨ ur_remote_outcome r = Some o
  | UOpMetadata => upload_phase (ur_state r) >= 5
  | UOpComplete => upload_phase (ur_state r) >= 6
  end.

#[export] Instance upload_journal : Journal ContentUploadRecord := {
  journal_op := upload_op;
  journal_transition := ContentUploadRecordTransition;
  journal_apply := upload_apply;
  journal_applied t := match t with UApplied => true | UAlreadyApplied | UFenced => false end;
  journal_rank := upload_rank;
  journal_completed r := bool_decide (ur_state r = UCompleted);
  journal_inv := upload_record_inv;
  journal_done := upload_op_done;
}.

(** What a record never loses. *)
Record upload_extends (r r' : ContentUploadRecord) : Prop := {
  extends_intent : ur_intent r' = ur_intent r;
  extends_phase : upload_phase (ur_state r) ≤ upload_phase (ur_state r');
  extends_session s : ur_session r = Some s →
    ∃ s', ur_session r' = Some s' ∧ upload_session_id s' = upload_session_id s ∧
      upload_accepted_offset s ≤ upload_accepted_offset s';
  extends_outcome o : ur_remote_outcome r = Some o →
    ur_remote_outcome r' = Some o ∨
    o = RemoteOutcomeUnknown ∧ upload_phase (ur_state r') >= 3;
}.

Lemma upload_extends_refl r : upload_extends r r.
Proof. split; [done|lia| |auto]. intros s Hs. exists s. split_and!; [done|done|lia]. Qed.

Lemma upload_done_extends op r r' :
  upload_extends r r' → upload_op_done op r → upload_op_done op r'.
Proof.
  intros [_ Hp Hs Ho]. destruct op; cbn; try lia.
  - intros (s & Hr & <- & Hle). destruct (Hs s Hr) as (s' & ? & ? & ?).
    exists s'. split_and!; [done|done|lia].
  - intros [[-> ?]|Hr]; [left; split; [done|lia]|].
    destruct (Ho _ Hr) as [?|[-> ?]]; auto.
Qed.

(** An operation either leaves the record alone, or makes strict progress. *)
Definition upload_step_ok (op : upload_op) (r : ContentUploadRecord)
    (res : core_result ContentUploadRecordTransition * ContentUploadRecord) : Prop :=
  (res.2 = r ∧ res.1 ≠ Ok UApplied ∧ (∀ t, res.1 = Ok t → upload_op_done op r)) ∨
  (res.1 = Ok UApplied ∧ upload_record_inv res.2 ∧ upload_rank r < upload_rank res.2 ∧
   upload_extends r res.2 ∧ upload_op_done op res.2 ∧ ¬ upload_op_done op r ∧
   ur_state r ≠ UCompleted).

(** Prove the two cases of [upload_step_ok]. *)
Ltac step_same := left; cbn; split_and!; [done|done|try (by intros t [=])].
Ltac step_moved := right; cbn; split; [done|]; split; [|split; [|split; [|split; [|split; [|done]]]]].

Lemma upload_session_step id offset r :
  upload_record_inv r → upload_step_ok (UOpSession id offset) r (upload_apply (UOpSession id offset) r).
Proof.
  destruct r as [intent st sess out]. unfold upload_record_inv, upload_size. cbn.
  intros [Hsize Hst]. unfold ContentUploadRecord_record_session, ContentUploadSession_validate_for.
  cbn. case_decide as Hfit; [step_same|]. cbn.
  destruct st; cbn in *.
  - destruct Hst as [-> ->]. step_moved.
    + unfold upload_record_inv, upload_size. cbn. split; [done|]. eexists. split_and!; [done|cbn; lia..|done].
    + unfold upload_rank, upload_accepted. cbn. lia.
    + split; cbn; [done|lia|done|done].
    + eexists. split_and!; [done|done|cbn; lia].
    + by intros (?&?&?).
  - destruct Hst as (s & -> & Hs & ->). cbn. case_decide as Hid; [step_same|].
    case_decide; [|case_decide].
    + step_same. intros _ _. exists s. split_and!; [done|exact Hid|lia].
    + step_same. intros _ _. exists s. split_and!; [done|exact Hid|lia].
    + step_moved.
      * unfold upload_record_inv, upload_size. cbn. split; [done|]. eexists. split_and!; [done|cbn; lia..|done].
      * unfold upload_rank, upload_accepted. cbn. lia.
      * split; cbn; [done|lia| |done]. intros s' [= <-]. eexists. split_and!; [done|done|cbn; lia].
      * eexists. split_and!; [done|done|cbn; lia].
      * intros (s' & [= <-] & ? & ?). lia.
  - case_decide as Heq; [|step_same]. step_same. intros _ _. eexists. split_and!; [done|done|cbn; lia].
  - case_decide as Heq; [|step_same]. step_same. intros _ _. eexists. split_and!; [done|done|cbn; lia].
  - case_decide as Heq; [|step_same]. step_same. intros _ _. eexists. split_and!; [done|done|cbn; lia].
  - case_decide as Heq; [|step_same]. step_same. intros _ _. eexists. split_and!; [done|done|cbn; lia].
  - case_decide as Heq; [|step_same]. step_same. intros _ _. eexists. split_and!; [done|done|cbn; lia].
Qed.

(** Phase changes keep session and outcome. *)
Lemma upload_extends_phase intent st st' sess out :
  upload_phase st ≤ upload_phase st' →
  upload_extends (mk_ContentUploadRecord intent st sess out)
                 (mk_ContentUploadRecord intent st' sess out).
Proof. intros. split; cbn; eauto. intros s ->. exists s. split_and!; [done|done|lia]. Qed.

Lemma upload_commit_step r :
  upload_record_inv r → upload_step_ok UOpCommit r (upload_apply UOpCommit r).
Proof.
  destruct r as [intent st sess out]. unfold upload_record_inv, upload_size. cbn.
  intros [Hsize Hst]. unfold ContentUploadRecord_begin_remote_commit. destruct st; cbn in *.
  2: { destruct Hst as (s & -> & Hs & ->). cbn. case_bool_decide as Heq; cbn; [|step_same].
       step_moved.
       - unfold upload_record_inv. cbn. eauto.
       - unfold upload_rank, upload_accepted. cbn. lia.
       - by apply upload_extends_phase.
       - lia.
       - lia. }
  all: step_same; intros _ _; lia.
Qed.

Lemma upload_outcome_step o r :
  upload_record_inv r → upload_step_ok (UOpOutcome o) r (upload_apply (UOpOutcome o) r).
Proof.
  destruct r as [intent st sess out]. unfold upload_record_inv. cbn.
  intros [Hsize Hst]. unfold ContentUploadRecord_record_remote_outcome.
  cbn. destruct (validate_upload_outcome intent o) as [[]|e] eqn:Hv; [|step_same].
  apply validate_upload_outcome_ok in Hv.
  destruct st; cbn in *; rewrite ?andb_false_r, ?andb_true_r.
  - destruct Hst as [-> ->]. step_same.
  - destruct Hst as (s & -> & ? & ->). step_same.
  - destruct Hst as (s & -> & Hs & ->). cbn. step_moved.
    + unfold upload_record_inv. cbn. split; [done|]. destruct o; cbn; eauto 10.
      all: exists s; eexists; split_and!; done.
    + unfold upload_rank. cbn. destruct o; cbn; lia.
    + split; cbn; [done|destruct o; cbn; lia| |done]. intros s' ->. exists s'. split_and!; [done|done|lia].
    + by right.
    + intros [[? ?]|?]; [lia|done].
  - destruct Hst as (s & -> & Hs & ->). cbn. case_bool_decide as Heq; cbn.
    { step_same. intros _ _. auto. }
    assert (o ≠ RemoteOutcomeUnknown) by congruence.
    step_moved.
    + unfold upload_record_inv. cbn. split; [done|]. destruct o; cbn; try done;
        exists s; eexists; split_and!; done.
    + unfold upload_rank. cbn. destruct o; cbn; done || lia.
    + split; cbn; [done|destruct o; cbn; done || lia| |].
      * intros s' ->. exists s'. split_and!; [done|done|lia].
      * intros o' [= <-]. right. split; [done|]. destruct o; cbn; done || lia.
    + by right.
    + by intros [[? ?]|?].
  - case_bool_decide as Heq; cbn; step_same. intros _ _. auto.
  - case_bool_decide as Heq; cbn; step_same. intros _ _. auto.
  - case_bool_decide as Heq; cbn; step_same. intros _ _. auto.
Qed.

Lemma upload_metadata_step r :
  upload_record_inv r → upload_step_ok UOpMetadata r (upload_apply UOpMetadata r).
Proof.
  destruct r as [intent st sess out]. intros Hinv.
  unfold upload_apply, ContentUploadRecord_mark_metadata_reconciled. destruct st; cbn.
  5: { step_moved; [done| |by apply upload_extends_phase|lia|lia].
       unfold upload_rank. cbn. lia. }
  all: step_same; intros _ _; lia.
Qed.

Lemma upload_complete_step r :
  upload_record_inv r → upload_step_ok UOpComplete r (upload_apply UOpComplete r).
Proof.
  destruct r as [intent st sess out]. intros Hinv.
  unfold upload_apply, ContentUploadRecord_complete. destruct st; cbn.
  6: { step_moved; [done| |by apply upload_extends_phase|lia|lia].
       unfold upload_rank. cbn. lia. }
  all: step_same; intros _ _; lia.
Qed.

Lemma upload_step op r : upload_record_inv r → upload_step_ok op r (upload_apply op r).
Proof.
  intros. destruct op; [by apply upload_session_step|by apply upload_commit_step
    |by apply upload_outcome_step|by apply upload_metadata_step|by apply upload_complete_step].
Qed.

Lemma upload_step_extends op r :
  upload_record_inv r → upload_extends r (upload_apply op r).2.
Proof.
  intros Hr. destruct (upload_step op r Hr) as [(->&_)|(?&?&?&?&_)]; [|done].
  apply upload_extends_refl.
Qed.

#[export] Instance upload_journal_laws : JournalLaws ContentUploadRecord.
Proof.
  split; cbn.
  - intros op r Hr. by destruct (upload_step op r Hr) as [(->&_)|(_&?&_)].
  - intros op r Hr. destruct (upload_step op r Hr) as [(Hs&Hne&_)|(Ha&_&Hlt&_)];
      destruct (upload_apply op r) as [[[]|] r']; cbn in *; done.
  - intros op r t r' Hr Ha. pose proof (upload_step op r Hr) as Hs. rewrite Ha in Hs.
    unfold upload_step_ok in Hs. cbn in Hs.
    destruct Hs as [(->&_&Hd)|(_&_&_&_&Hd&_)]; [by eapply Hd|done].
  - intros op op' r Hr. apply upload_done_extends. by apply upload_step_extends.
  - intros op r Hr Hd. by destruct (upload_step op r Hr) as [(->&_)|(_&_&_&_&_&Hn&_)].
  - intros op r Hr Hc. apply bool_decide_eq_true_1 in Hc.
    by destruct (upload_step op r Hr) as [(->&_)|(_&_&_&_&_&_&?)].
Qed.

(** ** Record properties *)
Lemma upload_inv_step op r : upload_record_inv r → upload_record_inv (upload_apply op r).2.
Proof. exact (journal_inv_step op r). Qed.

Lemma upload_run_inv ops r : upload_record_inv r → upload_record_inv (upload_run ops r).
Proof. exact (journal_run_inv ops r). Qed.

Lemma upload_extends_trans r1 r2 r3 :
  upload_extends r1 r2 → upload_extends r2 r3 → upload_extends r1 r3.
Proof.
  intros [Hi Hp Hs Ho] [Hi' Hp' Hs' Ho']. split.
  - congruence.
  - lia.
  - intros s Hse. destruct (Hs s Hse) as (s1 & Hs1 & Hid & Hle).
    destruct (Hs' s1 Hs1) as (s2 & Hs2 & Hid2 & Hle2).
    exists s2. split_and!; [done|congruence|lia].
  - intros o Hout. destruct (Ho o Hout) as [Hk|[-> Hk]]; [by apply Ho'|].
    right. split; [done|lia].
Qed.

Lemma upload_run_extends ops : ∀ r, upload_record_inv r → upload_extends r (upload_run ops r).
Proof.
  induction ops as [|op ops IH]; intros r Hr; [apply upload_extends_refl|].
  exact (upload_extends_trans _ _ _ (upload_step_extends op r Hr) (IH _ (upload_inv_step op r Hr))).
Qed.

(** A known outcome is never replaced. *)
Lemma upload_outcome_final ops r o :
  upload_record_inv r → ur_remote_outcome r = Some o → o ≠ RemoteOutcomeUnknown →
  ur_remote_outcome (upload_run ops r) = Some o.
Proof.
  intros Hr Ho Hk. by destruct (extends_outcome _ _ (upload_run_extends ops r Hr) o Ho) as [?|[? _]].
Qed.

(** When each operation is accepted. *)
Definition upload_accepts (op : upload_op) (r : ContentUploadRecord) : Prop :=
  match op with
  | UOpSession id offset =>
      Z.of_N offset ≤ upload_size (ur_intent r) ∧
      (if decide (upload_phase (ur_state r) ≤ 1)
       then ∀ s, ur_session r = Some s → upload_session_id s = id
       else ur_session r = Some (ContentUploadSession_new id (Z.of_N offset)))
  | UOpCommit =>
      upload_phase (ur_state r) >= 1 ∧
      (∃ s, ur_session r = Some s ∧ upload_accepted_offset s = upload_size (ur_intent r))
  | UOpOutcome o =>
      upload_outcome_ok (ur_intent r) o ∧
      (ur_state r = URemoteCommitting ∨ ur_state r = URemoteOutcomeUnknown ∨
       ur_remote_outcome r = Some o)
  | UOpMetadata => upload_phase (ur_state r) >= 4
  | UOpComplete => upload_phase (ur_state r) >= 5
  end.

Lemma upload_accepts_session id offset r :
  upload_record_inv r →
  (∃ t, (upload_apply (UOpSession id offset) r).1 = Ok t) ↔ upload_accepts (UOpSession id offset) r.
Proof.
  destruct r as [intent st sess out]. intros [_ Hinv]. unfold upload_size. cbn in *.
  unfold ContentUploadRecord_record_session, ContentUploadSession_validate_for, upload_size. cbn.
  case_decide as Hfit; [split; [by intros [? [=]]|lia]|]. cbn.
  destruct st; cbn in *;
    try (case_decide as Heq; split; [intros _; split; [lia|done]|eauto|by intros [? [=]]|by intros [_ ?]]).
  - destruct Hinv as [-> ->]. cbn. split; [intros _; split; [lia|done]|eauto].
  - destruct Hinv as (s & -> & _). case_decide as Hid.
    + split; [by intros [? [=]]|]. intros [_ Hs]. by specialize (Hs s eq_refl).
    + split; [|repeat case_decide; cbn; eauto]. intros _. split; [lia|]. by intros ? [= <-].
Qed.

Lemma upload_accepts_iff op r :
  upload_record_inv r → (∃ t, (upload_apply op r).1 = Ok t) ↔ upload_accepts op r.
Proof.
  intros Hinv. destruct op as [id offset| |o| |]; [by apply upload_accepts_session| | | |].
  - destruct r as [intent st sess out], Hinv as [_ Hinv]. cbn in *.
    unfold ContentUploadRecord_begin_remote_commit, upload_size in *.
    destruct st; cbn in *.
    1: split; [by intros [? [=]]|lia].
    1: { destruct Hinv as (s & -> & _). case_bool_decide as Hs; cbn; split.
         - intros _. split; [lia|eauto].
         - eauto.
         - by intros [? [=]].
         - by intros (_ & ? & [= <-] & ?). }
    all: split; [intros _|eauto]; split; [lia|].
    1-2: by destruct Hinv as (s & ? & ? & _); eauto.
    all: destruct Hinv as (s & ? & ? & ? & _); eauto.
  - destruct r as [intent st sess out], Hinv as [_ Hinv]. cbn in *.
    unfold ContentUploadRecord_record_remote_outcome. cbn. rewrite <-validate_upload_outcome_ok.
    destruct (validate_upload_outcome intent o) as [[]|e]; cbn; [|by split; [intros [? [=]]|intros [[=] _]]].
    destruct st; cbn in *; rewrite ?andb_false_r, ?andb_true_r; try case_bool_decide;
      split; eauto 10; try (by intros [? [=]]); intros (_ & [?|[?|?]]); try done.
    + by destruct Hinv as (_ & ->).
    + by destruct Hinv as (? & _ & _ & ->).
  - destruct r as [? [] ? ?]; cbn; split; intros; try lia; eauto; destruct H as [? [=]].
  - destruct r as [? [] ? ?]; cbn; split; intros; try lia; eauto; destruct H as [? [=]].
Qed.

Lemma upload_rank_bound r : upload_record_inv r → 0 ≤ upload_rank r ≤ upload_size (ur_intent r) + 6.
Proof.
  destruct r as [intent st sess out]. unfold upload_record_inv, upload_rank, upload_accepted, upload_size.
  cbn. intros [? Hst]. destruct st; try lia. destruct Hst as (s & -> & ? & _). lia.
Qed.

Lemma upload_accepted_bound r s :
  upload_record_inv r → ur_session r = Some s →
  0 ≤ upload_accepted_offset s ≤ upload_size (ur_intent r).
Proof.
  destruct r as [intent st sess out]. unfold upload_record_inv. cbn. intros [? Hst] ->.
  destruct st; [by destruct Hst|..].
  all: try (destruct Hst as (? & [= <-] & ? & _); lia).
  all: destruct Hst as (? & ? & [= <-] & ? & _); lia.
Qed.

(** ** Wire values *)
Lemma byte_count_nonempty bytes : bytes ≠ [] → 0 < byte_count bytes.
Proof. unfold byte_count. destruct bytes; cbn; [done|lia]. Qed.

Lemma chunk_new_ok id gen offset size bytes c :
  in_u64 offset → in_u64 size →
  ContentUploadChunk_new id gen offset bytes size = Ok c ↔
  bytes ≠ [] ∧ offset + byte_count bytes ≤ size ∧
  c = ContentUploadChunk_from_validated_parts id gen offset bytes (byte_count bytes) size.
Proof.
  intros [? ?] [? ?]. unfold ContentUploadChunk_new. case_decide as Hz.
  - split; [done|]. intros (Hne & _). pose proof (byte_count_nonempty bytes Hne). lia.
  - assert (bytes ≠ []) by by intros ->.
    unfold checked_add. case_decide; cbn; [case_decide|]; crush.
Qed.

Lemma chunk_validate_ok c intent session :
  ContentUploadChunk_validate_for c intent session = Ok () ↔
  chunk_session_id c = upload_session_id session ∧
  chunk_local_generation c = snapshot_generation (cu_snapshot intent) ∧
  chunk_total_size c = upload_size intent ∧ chunk_offset c = upload_accepted_offset session.
Proof.
  unfold ContentUploadChunk_validate_for, upload_size. repeat case_decide; crush.
Qed.

Lemma ack_validate_ok c ack :
  ContentUploadChunkAck_validate_for ack c = Ok () ↔
  ack_session_id ack = chunk_session_id c ∧
  ack_accepted_offset ack = ContentUploadChunk_end_exclusive c.
Proof. unfold ContentUploadChunkAck_validate_for. repeat case_decide; crush. Qed.

Definition sample_upload_intent : ContentUploadIntent :=
  mk_ContentUploadIntent (mk_opaque "op") (mk_opaque "key") sample_cache_key
    (LocalContentSnapshot_new sample_item_key (mk_LocalContentGeneration 1) (mk_opaque "ref") 5 None)
    (mk_opaque "lease") (mk_SessionGeneration 1).

(** C14. The durable upload record. Along any sequence of operations the
    record keeps its intent; the accepted offset stays within the snapshot,
    never moves back and belongs to one backend session; remote commit and
    everything after it happen only with every byte accepted; a known outcome
    is one that describes the uploaded item and size, and is never replaced;
    each operation is accepted exactly in the states below; one that
    succeeded, stale checkpoints included, never changes the record again;
    the record changes at most [size + 6] times and never once completed. *)
Theorem upload_record_protocol (intent : ContentUploadIntent) (ops : list upload_op) :
  0 ≤ upload_size intent →
  let r := upload_run ops (ContentUploadRecord_persist intent) in
  ur_intent r = intent ∧
  upload_record_inv r ∧
  (∀ op, (∃ t, (upload_apply op r).1 = Ok t) ↔ upload_accepts op r) ∧
  (∀ s ops', ur_session r = Some s →
     ∃ s', ur_session (upload_run ops' r) = Some s' ∧
       upload_session_id s' = upload_session_id s ∧
       upload_accepted_offset s ≤ upload_accepted_offset s' ≤ upload_size intent) ∧
  (∀ op t r' ops', upload_apply op r = (Ok t, r') →
     upload_op_done op (upload_run ops' r') ∧
     (upload_apply op (upload_run ops' r')).2 = upload_run ops' r') ∧
  (∀ o ops', ur_remote_outcome r = Some o → o ≠ RemoteOutcomeUnknown →
     ur_remote_outcome (upload_run ops' r) = Some o) ∧
  journal_changes ops (ContentUploadRecord_persist intent) ≤ upload_size intent + 6 ∧
  (ur_state r = UCompleted → ∀ ops', upload_run ops' r = r).
Proof.
  intros Hsize r. set (r0 := ContentUploadRecord_persist intent) in *.
  assert (H0 : upload_record_inv r0) by done.
  assert (Hr : upload_record_inv r) by by apply upload_run_inv.
  assert (Hi : ur_intent r = intent) by apply (extends_intent _ _ (upload_run_extends ops r0 H0)).
  split_and!; [done|done| | | | | |].
  - intros op. by apply upload_accepts_iff.
  - intros s ops' Hs.
    destruct (extends_session _ _ (upload_run_extends ops' r Hr) s Hs) as (s' & Hs' & ? & ?).
    exists s'. split_and!; [done|done|done|].
    rewrite <-Hi, <-(extends_intent _ _ (upload_run_extends ops' r Hr)).
    by eapply upload_accepted_bound; [apply upload_run_inv|].
  - intros op t r' ops' Ha. split.
    + assert (Hr' : upload_record_inv r').
      { pose proof (upload_inv_step op r Hr) as Hs. by rewrite Ha in Hs. }
      exact (journal_run_done op ops' r' Hr' (journal_applied_done op r t r' Hr Ha)).
    + exact (proj2 (journal_at_most_once op ops' r t r' Hr Ha)).
  - intros. by apply upload_outcome_final.
  - assert (Hb : journal_changes ops r0 ≤ upload_rank r - upload_rank r0)
      by exact (journal_changes_bound ops r0 H0).
    pose proof (upload_rank_bound r Hr) as Hle. rewrite Hi in Hle. cbn in Hb. lia.
  - intros Hc ops'.
    exact (@journal_completed_run ContentUploadRecord _ _ ops' r Hr (bool_decide_eq_true_2 _ Hc)).
Qed.

Example upload_record_protocol_witness :
  0 ≤ upload_size sample_upload_intent ∧
  upload_accepts UOpCommit
    (upload_run [UOpSession (mk_opaque "s") 0; UOpSession (mk_opaque "s") 5;
                 UOpSession (mk_opaque "s") 3] (ContentUploadRecord_persist sample_upload_intent)).
Proof.
  split; [done|].
  apply (upload_record_protocol sample_upload_intent
    [UOpSession (mk_opaque "s") 0; UOpSession (mk_opaque "s") 5; UOpSession (mk_opaque "s") 3]);
    [done|]. eexists. reflexivity.
Defined.

(** The values of an upload. An intent is built exactly for a snapshot of
    the item it replaces. A chunk is built exactly for a non-empty run of
    bytes inside the snapshot, and its end then does not wrap; it is accepted
    for an intent and session exactly when it continues that session's
    accepted offset within that intent's snapshot. An acknowledgement of such
    a chunk is accepted exactly when it names the chunk's session and end, so
    checkpointing it advances the accepted offset by the chunk's bytes and
    keeps it within the snapshot. *)
Theorem upload_values (intent : ContentUploadIntent) (session : ContentUploadSession)
    (id : ContentUploadSessionId) (gen : LocalContentGeneration) (offset size : Z)
    (bytes : list byte) :
  in_u64 offset → in_u64 size →
  (∀ op ik key snap lease g i,
     ContentUploadIntent_new op ik key snap lease g = Ok i ↔
     cache_key_item_key key = snapshot_item_key snap ∧
     i = mk_ContentUploadIntent op ik key snap lease g) ∧
  ((∃ c, ContentUploadChunk_new id gen offset bytes size = Ok c) ↔
   bytes ≠ [] ∧ offset + byte_count bytes ≤ size) ∧
  (∀ c, ContentUploadChunk_new id gen offset bytes size = Ok c →
     ContentUploadChunk_end_exclusive c = offset + byte_count bytes ∧
     (ContentUploadChunk_validate_for c intent session = Ok () ↔
      id = upload_session_id session ∧ gen = snapshot_generation (cu_snapshot intent) ∧
      size = upload_size intent ∧ offset = upload_accepted_offset session) ∧
     (∀ ack, ContentUploadChunkAck_validate_for ack c = Ok () ↔
        ack_session_id ack = id ∧ ack_accepted_offset ack = offset + byte_count bytes) ∧
     (∀ ack, ContentUploadChunk_validate_for c intent session = Ok () →
        ContentUploadChunkAck_validate_for ack c = Ok () →
        let next := ContentUploadSession_new (ack_session_id ack) (ack_accepted_offset ack) in
        upload_session_id next = upload_session_id session ∧
        upload_accepted_offset session < upload_accepted_offset next ∧
        ContentUploadSession_validate_for next intent = Ok ())).
Proof.
  intros Hoff Hsize. pose proof (λ c, chunk_new_ok id gen offset size bytes c Hoff Hsize) as Hnew.
  split_and!.
  - intros. unfold ContentUploadIntent_new. case_decide; crush.
  - split.
    + intros [c Hc]. by apply Hnew in Hc as (?&?&_).
    + intros [??]. eexists. apply Hnew. split_and!; done.
  - intros c Hc. apply Hnew in Hc as (Hne & Hle & ->).
    assert (Hend : ContentUploadChunk_end_exclusive
      (ContentUploadChunk_from_validated_parts id gen offset bytes (byte_count bytes) size) =
      offset + byte_count bytes).
    { apply u64_add_exact; [done|apply byte_count_nonneg|]. unfold in_u64 in *; lia. }
    assert (Hval := chunk_validate_ok
      (ContentUploadChunk_from_validated_parts id gen offset bytes (byte_count bytes) size) intent session).
    assert (Hack := ack_validate_ok
      (ContentUploadChunk_from_validated_parts id gen offset bytes (byte_count bytes) size)).
    rewrite Hend in Hack. cbn in Hval, Hack. split_and!; [done|done|done|].
    intros ack Hv Ha. apply Hval in Hv as (-> & -> & Hs & ->). apply Hack in Ha as (Hi & Ho).
    cbn. rewrite Hi, Ho. split_and!; [done| |].
    + pose proof (byte_count_nonempty bytes Hne). lia.
    + unfold ContentUploadSession_validate_for. cbn. unfold upload_size in Hs.
      rewrite decide_False; [done|lia].
Qed.

Example upload_values_witness :
  in_u64 0 ∧ in_u64 5 ∧
  ∃ c, ContentUploadChunk_new (mk_opaque "s") (mk_LocalContentGeneration 1) 0 [x01; x02] 5 = Ok c ∧
       ContentUploadChunk_end_exclusive c = 2.
Proof.
  assert (in_u64 0) by width. assert (in_u64 5) by width. split_and!; [done|done|].
  eexists. split; [reflexivity|].
  eapply (upload_values sample_upload_intent (ContentUploadSession_new (mk_opaque "s") 0)
    (mk_opaque "s") (mk_LocalContentGeneration 1) 0 5 [x01; x02]); [done|done|reflexivity].
Defined.
