(* ===== verification/UploadRunner.v ===== *)
(** * The upload runner

    [ContentUploadRunner] of [upload.rs] and its three ports: the durable
    upload journal ([ContentUploadStore] of [store.rs]), the product's upload
    transport ([CloudContentUploadBackend]) and the reader of immutable local
    snapshots ([LocalContentSnapshotReader]). *)
From S2P Require Export Action Upload.

(** ** The ports *)
Class ContentUploadStore (W : Type) := {
  persist_content_upload_intent :
    ContentUploadIntent → SessionGeneration → action W CloudFilesStoreError StoreWriteStatus;
  load_content_upload :
    OperationId → action W CloudFilesStoreError (option ContentUploadRecord);
  record_content_upload_session :
    OperationId → ContentUploadSession → SessionGeneration →
    action W CloudFilesStoreError StoreWriteStatus;
  begin_content_upload_remote_commit :
    OperationId → SessionGeneration → action W CloudFilesStoreError StoreWriteStatus;
  record_content_upload_remote_outcome :
    OperationId → MutationRemoteOutcome → SessionGeneration →
    action W CloudFilesStoreError StoreWriteStatus;
  reconcile_content_upload_metadata :
    OperationId → SessionGeneration → action W CloudFilesStoreError StoreWriteStatus;
  complete_content_upload :
    OperationId → SessionGeneration → action W CloudFilesStoreError StoreWriteStatus;
}.

Class CloudContentUploadBackend (W : Type) := {
  start_upload : ContentUploadIntent → action W CloudBackendError ContentUploadSession;
  upload_chunk :
    ContentUploadIntent → ContentUploadChunk → action W CloudBackendError ContentUploadChunkAck;
  reconcile_upload_chunk :
    ContentUploadIntent → ContentUploadSession → ContentUploadChunk →
    action W CloudBackendError ContentUploadChunkAck;
  commit_upload :
    ContentUploadIntent → ContentUploadSession →
    action W CloudBackendError MutationRemoteOutcome;
  reconcile_upload : ContentUploadIntent → action W CloudBackendError MutationRemoteOutcome;
}.

Class LocalContentSnapshotReader (W : Type) := {
  read_snapshot :
    LocalContentSnapshot → Z → Z → action W CloudFilesStoreError (list byte);
}.

Inductive ContentUploadRunError : Type :=
  | UploadBackend (e : CloudBackendError)
  | UploadStore (e : CloudFilesStoreError)
  | UploadContract (e : CloudFilesCoreError)
  | UploadRecordNotFound.

Inductive ContentUploadRunOutcome : Type :=
  | UploadCompleted | UploadRemoteOutcomePending | UploadFenced.

#[export] Instance ContentUploadRunOutcome_eq_dec : EqDecision ContentUploadRunOutcome.
Proof. solve_decision. Defined.

Record ContentUploadRunner : Type := mk_ContentUploadRunner { runner_chunk_size : Z }.

Definition ContentUploadRunner_new (chunk_size : Z) : core_result ContentUploadRunner :=
  if decide (chunk_size = 0) then
    Err (InvalidContentUploadTransition "upload runner chunk size must be non-zero")
  else Ok (mk_ContentUploadRunner chunk_size).

Definition required_upload_session (record : ContentUploadRecord) (missing_reason : string)
    : core_result ContentUploadSession :=
  ok_or (ur_session record) (InvalidContentUploadTransition missing_reason).

Definition validate_completed_upload (record : ContentUploadRecord) : core_result unit :=
  (λ _, ()) <$> ok_or (ur_remote_outcome record)
    (InvalidContentUploadTransition "completed upload record omitted its remote outcome").

Definition validate_source_bytes (bytes : list byte) (expected : Z) : core_result unit :=
  if decide (byte_count bytes ≠ expected) then
    Err (InvalidContentUploadTransition
      "local upload source returned a partial or oversized range")
  else Ok ().

Section runner.
Context {W : Type}.
Context `{ContentUploadStore W, CloudContentUploadBackend W, LocalContentSnapshotReader W}.

Abbreviation run A := (action W ContentUploadRunError A).
Abbreviation contract m := (pure_result (map_err UploadContract m)).

(** [true] is a fenced transition, [false] a durable change. *)
Definition observe_transition (status : StoreWriteStatus) (previous : ContentUploadRecord)
    (operation_id : OperationId) : run bool :=
  loaded ← with_error UploadStore (load_content_upload operation_id);
  current ← pure_result (ok_or loaded UploadRecordNotFound);
  if decide (current ≠ previous) then mret false
  else if decide (status = WriteFenced) then mret true
  else pure_result (Err (UploadContract (InvalidContentUploadTransition
    "upload store reported a transition without durable progress"))).

(** A conflict or a failed precondition may mean that an earlier attempt
    was accepted: the backend is asked about it. *)
Definition upload_or_reconcile_chunk (intent : ContentUploadIntent)
    (session : ContentUploadSession) (chunk : ContentUploadChunk)
    : run ContentUploadChunkAck := λ w,
  match upload_chunk intent chunk w with
  | (Ok acknowledgement, w') => (Ok acknowledgement, w')
  | (Err error, w') =>
      match backend_error_kind error with
      | BackendConflict | PreconditionFailedKind =>
          with_error UploadBackend (reconcile_upload_chunk intent session chunk) w'
      | _ => (Err (UploadBackend error), w')
      end
  end.

(** One turn of the [loop] of [resume]; [next] is the following turn. *)
Definition ContentUploadRunner_turn (next : run (option ContentUploadRunOutcome))
    (self : ContentUploadRunner) (operation_id : OperationId)
    (execution_generation : SessionGeneration) : run (option ContentUploadRunOutcome) :=
  let continue_unless (fenced : bool) :=
    if fenced then mret (Some UploadFenced) else next in
  loaded ← with_error UploadStore (load_content_upload operation_id);
  record ← pure_result (ok_or loaded UploadRecordNotFound);
  let intent := ur_intent record in
  match ur_state record with
  | UIntentPersisted =>
      session ← with_error UploadBackend (start_upload intent);
      contract (ContentUploadSession_validate_for session intent);;
      status ← with_error UploadStore
        (record_content_upload_session operation_id session execution_generation);
      fenced ← observe_transition status record operation_id;
      continue_unless fenced
  | UUploading =>
      session ← contract (required_upload_session record
        "uploading record omitted its backend session");
      contract (ContentUploadSession_validate_for session intent);;
      if decide (upload_accepted_offset session < snapshot_size (cu_snapshot intent)) then
        let remaining :=
          u64_sub (snapshot_size (cu_snapshot intent)) (upload_accepted_offset session) in
        let len := Z.min remaining (runner_chunk_size self) in
        bytes ← with_error UploadStore
          (read_snapshot (cu_snapshot intent) (upload_accepted_offset session) len);
        contract (validate_source_bytes bytes len);;
        let chunk :=
          ContentUploadChunk_from_validated_parts (upload_session_id session)
            (snapshot_generation (cu_snapshot intent)) (upload_accepted_offset session)
            bytes len (snapshot_size (cu_snapshot intent)) in
        acknowledgement ← upload_or_reconcile_chunk intent session chunk;
        contract (ContentUploadChunkAck_validate_for acknowledgement chunk);;
        let checkpoint :=
          ContentUploadSession_new (ack_session_id acknowledgement)
            (ack_accepted_offset acknowledgement) in
        status ← with_error UploadStore
          (record_content_upload_session operation_id checkpoint execution_generation);
        fenced ← observe_transition status record operation_id;
        continue_unless fenced
      else
        status ← with_error UploadStore
          (begin_content_upload_remote_commit operation_id execution_generation);
        fenced ← observe_transition status record operation_id;
        continue_unless fenced
  | URemoteCommitting =>
      session ← contract (required_upload_session record
        "remote-committing record omitted its backend session");
      outcome ← with_error UploadBackend (commit_upload intent session);
      let pending := bool_decide (outcome = RemoteOutcomeUnknown) in
      status ← with_error UploadStore
        (record_content_upload_remote_outcome operation_id outcome execution_generation);
      fenced ← observe_transition status record operation_id;
      if fenced : bool then mret (Some UploadFenced)
      else if pending then mret (Some UploadRemoteOutcomePending)
      else next
  | URemoteOutcomeUnknown =>
      outcome ← with_error UploadBackend (reconcile_upload intent);
      let pending := bool_decide (outcome = RemoteOutcomeUnknown) in
      status ← with_error UploadStore
        (record_content_upload_remote_outcome operation_id outcome execution_generation);
      if decide (status = WriteFenced) then mret (Some UploadFenced)
      else
        reloaded ← with_error UploadStore (load_content_upload operation_id);
        current ← pure_result (ok_or reloaded UploadRecordNotFound);
        if decide (current = record) then
          if pending && bool_decide (status = WriteAlreadyApplied)
             && bool_decide (ur_state current = URemoteOutcomeUnknown)
          then mret (Some UploadRemoteOutcomePending)
          else pure_result (Err (UploadContract (InvalidContentUploadTransition
            "upload store reported a transition without durable progress")))
        else next
  | URemoteOutcomeKnown =>
      status ← with_error UploadStore
        (reconcile_content_upload_metadata operation_id execution_generation);
      fenced ← observe_transition status record operation_id;
      continue_unless fenced
  | UMetadataReconciled =>
      status ← with_error UploadStore
        (complete_content_upload operation_id execution_generation);
      fenced ← observe_transition status record operation_id;
      continue_unless fenced
  | UCompleted =>
      contract (validate_completed_upload record);;
      mret (Some UploadCompleted)
  end.

(** The loop, unrolled [fuel] times; [None] is a loop that has not ended. *)
Fixpoint ContentUploadRunner_resume (fuel : nat) (self : ContentUploadRunner)
    (operation_id : OperationId) (execution_generation : SessionGeneration)
    : run (option ContentUploadRunOutcome) :=
  match fuel with
  | O => mret None
  | S fuel =>
      ContentUploadRunner_turn
        (ContentUploadRunner_resume fuel self operation_id execution_generation)
        self operation_id execution_generation
  end.

Definition ContentUploadRunner_submit (fuel : nat) (self : ContentUploadRunner)
    (intent : ContentUploadIntent) (execution_generation : SessionGeneration)
    : run (option ContentUploadRunOutcome) :=
  status ← with_error UploadStore (persist_content_upload_intent intent execution_generation);
  if decide (status = WriteFenced) then mret (Some UploadFenced)
  else ContentUploadRunner_resume fuel self (cu_operation_id intent) execution_generation.

Lemma ContentUploadRunner_resume_S fuel self operation_id gen :
  ContentUploadRunner_resume (S fuel) self operation_id gen =
  ContentUploadRunner_turn (ContentUploadRunner_resume fuel self operation_id gen)
    self operation_id gen.
Proof. done. Qed.
End runner.

#[global] Opaque ContentUploadRunner_resume.

(** ** What the ports promise *)

(** Upload records the public interface can produce. *)
Definition upload_reachable (r : ContentUploadRecord) : Prop :=
  ∃ intent ops, in_u64 (upload_size intent) ∧
    r = upload_run ops (ContentUploadRecord_persist intent).

(** The store's transitions. *)
Inductive upload_transition : Type :=
  | TSession (session : ContentUploadSession)
  | TCommit
  | TOutcome (outcome : MutationRemoteOutcome)
  | TMetadata
  | TComplete.

Definition upload_store_step {W} `{ContentUploadStore W} (t : upload_transition)
    (op : OperationId) (gen : SessionGeneration)
    : action W CloudFilesStoreError StoreWriteStatus :=
  match t with
  | TSession session => record_content_upload_session op session gen
  | TCommit => begin_content_upload_remote_commit op gen
  | TOutcome outcome => record_content_upload_remote_outcome op outcome gen
  | TMetadata => reconcile_content_upload_metadata op gen
  | TComplete => complete_content_upload op gen
  end.

(** Calls a backend receives. *)
Inductive upload_call : Type :=
  | CallStart (intent : ContentUploadIntent)
  | CallChunk (intent : ContentUploadIntent) (chunk : ContentUploadChunk)
  | CallReconcileChunk (intent : ContentUploadIntent) (session : ContentUploadSession)
      (chunk : ContentUploadChunk)
  | CallCommit (intent : ContentUploadIntent) (session : ContentUploadSession)
  | CallReconcile (intent : ContentUploadIntent).

Class UploadDurability (W : Type) := {
  durable_upload : W → OperationId → option ContentUploadRecord;
  (** The backend calls made so far, in order. *)
  upload_calls : W → list upload_call;
}.

(** Other executors may advance a record, but only along its operations. *)
Definition upload_evolves {W} `{UploadDurability W} (w w' : W) : Prop :=
  ∀ op r, durable_upload w op = Some r →
    ∃ ops, durable_upload w' op = Some (upload_run ops r).

Definition upload_step_calls {W} `{UploadDurability W} (calls : list upload_call) (w w' : W)
    : Prop :=
  upload_evolves w w' ∧ upload_calls w' = upload_calls w ++ calls.

Class UploadPortLaws (W : Type)
    `{ContentUploadStore W, CloudContentUploadBackend W, LocalContentSnapshotReader W,
      UploadDurability W} := {
  durable_upload_reachable (w : W) op r : durable_upload w op = Some r → upload_reachable r;
  load_upload_truth op (w : W) o w' :
    load_content_upload op w = (Ok o, w') → durable_upload w' op = o;
  load_upload_quiet op (w : W) : upload_step_calls [] w (load_content_upload op w).2;
  upload_step_quiet t op gen (w : W) :
    upload_step_calls [] w (upload_store_step t op gen w).2;
  (** An intent that was persisted is there to be resumed. *)
  persist_upload_effect i gen (w : W) :
    let (res, w') := persist_content_upload_intent i gen w in
    upload_step_calls [] w w' ∧
    (∀ status, res = Ok status → status ≠ WriteFenced →
       ∃ r, durable_upload w' (cu_operation_id i) = Some r ∧ ur_intent r = i);
  read_snapshot_quiet s offset len (w : W) :
    upload_step_calls [] w (read_snapshot s offset len w).2;
  start_upload_effect i (w : W) : upload_step_calls [CallStart i] w (start_upload i w).2;
  upload_chunk_effect i c (w : W) :
    upload_step_calls [CallChunk i c] w (upload_chunk i c w).2;
  reconcile_chunk_effect i s c (w : W) :
    upload_step_calls [CallReconcileChunk i s c] w (reconcile_upload_chunk i s c w).2;
  commit_upload_effect i s (w : W) :
    upload_step_calls [CallCommit i s] w (commit_upload i s w).2;
  reconcile_upload_effect i (w : W) :
    upload_step_calls [CallReconcile i] w (reconcile_upload i w).2;
}.

(** ** The calls a run may make

    [k] is a lower bound of the record's rank: each turn of the loop runs
    at a higher rank than the one before. *)
Definition upload_chunk_ok (intent : ContentUploadIntent) (chunk_size : Z)
    (c : ContentUploadChunk) : Prop :=
  ContentUploadChunk_new (chunk_session_id c) (chunk_local_generation c) (chunk_offset c)
    (chunk_bytes c) (chunk_total_size c) = Ok c ∧
  chunk_total_size c = upload_size intent ∧
  chunk_local_generation c = snapshot_generation (cu_snapshot intent) ∧
  chunk_byte_len c = Z.min (upload_size intent - chunk_offset c) chunk_size.

Inductive upload_trace (intent : ContentUploadIntent) (chunk_size : Z)
    : Z → list upload_call → Prop :=
  | trace_end k : upload_trace intent chunk_size k []
  | trace_start k l :
      k ≤ 0 → upload_trace intent chunk_size 1 l →
      upload_trace intent chunk_size k (CallStart intent :: l)
  | trace_chunk k c l :
      k ≤ 1 + chunk_offset c → upload_chunk_ok intent chunk_size c →
      upload_trace intent chunk_size (2 + chunk_offset c) l →
      upload_trace intent chunk_size k (CallChunk intent c :: l)
  | trace_chunk_reconciled k c s l :
      k ≤ 1 + chunk_offset c → upload_chunk_ok intent chunk_size c →
      ContentUploadChunk_validate_for c intent s = Ok () →
      upload_trace intent chunk_size (2 + chunk_offset c) l →
      upload_trace intent chunk_size k (CallChunk intent c :: CallReconcileChunk intent s c :: l)
  | trace_commit k s l :
      k ≤ upload_size intent + 2 → upload_accepted_offset s = upload_size intent →
      upload_trace intent chunk_size (upload_size intent + 3) l →
      upload_trace intent chunk_size k (CallCommit intent s :: l)
  | trace_reconcile k l :
      k ≤ upload_size intent + 3 →
      upload_trace intent chunk_size (upload_size intent + 4) l →
      upload_trace intent chunk_size k (CallReconcile intent :: l).

Lemma upload_trace_weaken intent cs k k' l :
  k ≤ k' → upload_trace intent cs k' l → upload_trace intent cs k l.
Proof.
  intros Hk Ht. destruct Ht;
    [apply trace_end|apply trace_start|apply trace_chunk|eapply trace_chunk_reconciled
    |apply trace_commit|apply trace_reconcile]; eauto; lia.
Qed.

Lemma upload_reachable_inv r :
  upload_reachable r → upload_record_inv r ∧ in_u64 (upload_size (ur_intent r)).
Proof.
  intros (i & ops & Hsize & ->).
  assert (H0 : upload_record_inv (ContentUploadRecord_persist i)) by (split; [apply Hsize|done]).
  split; [by apply upload_run_inv|].
  by rewrite (extends_intent _ _ (upload_run_extends ops _ H0)).
Qed.

Section laws.
Context {W : Type} `{UploadPortLaws W}.

Lemma upload_evolves_refl (w : W) : upload_evolves w w.
Proof. intros op r Hr. by exists []. Qed.

Lemma upload_evolves_trans (w1 w2 w3 : W) :
  upload_evolves w1 w2 → upload_evolves w2 w3 → upload_evolves w1 w3.
Proof.
  intros H12 H23 op r Hr.
  destruct (H12 op r Hr) as [ops1 Hr1]. destruct (H23 op _ Hr1) as [ops2 Hr2].
  exists (ops1 ++ ops2). unfold upload_run in *. by rewrite foldl_app.
Qed.

#[export] Instance upload_evolves_preorder : PreOrder (upload_evolves (W := W)).
Proof. split; [exact upload_evolves_refl|exact upload_evolves_trans]. Qed.

Lemma upload_step_calls_trans l1 l2 (w1 w2 w3 : W) :
  upload_step_calls l1 w1 w2 → upload_step_calls l2 w2 w3 →
  upload_step_calls (l1 ++ l2) w1 w3.
Proof.
  intros [He1 Hc1] [He2 Hc2]. split; [by eapply upload_evolves_trans|].
  by rewrite Hc2, Hc1, app_assoc.
Qed.

(** The world holds a record of this intent, of rank at least [k]. *)
Definition upload_at_least (intent : ContentUploadIntent) (k : Z) (op : OperationId) (w : W)
    : Prop :=
  ∃ r, durable_upload w op = Some r ∧ ur_intent r = intent ∧ k ≤ upload_rank r.

Lemma durable_upload_inv op r (w : W) :
  durable_upload w op = Some r →
  upload_record_inv r ∧ in_u64 (upload_size (ur_intent r)).
Proof. intros Hr. by eapply upload_reachable_inv, durable_upload_reachable. Qed.

Lemma durable_upload_mono op r r' (w w' : W) :
  durable_upload w op = Some r → upload_evolves w w' → durable_upload w' op = Some r' →
  ur_intent r' = ur_intent r ∧ upload_rank r ≤ upload_rank r' ∧
  (r' ≠ r → upload_rank r < upload_rank r').
Proof.
  intros Hr He Hr'. destruct (He op r Hr) as [ops Ho]. simplify_eq.
  destruct (durable_upload_inv op r w Hr) as [Hinv _]. split_and!.
  - apply (extends_intent _ _ (upload_run_extends ops r Hinv)).
  - exact (journal_run_rank ops r Hinv).
  - intros Hne. exact (journal_run_strict ops r Hinv Hne).
Qed.

Lemma upload_at_least_evolves intent k op (w w' : W) :
  upload_at_least intent k op w → upload_evolves w w' → upload_at_least intent k op w'.
Proof.
  intros (r & Hr & Hi & Hk) He. destruct (He op r Hr) as [ops Hr'].
  destruct (durable_upload_mono op r _ w w' Hr He Hr') as (Hi' & Hle & _).
  exists (upload_run ops r). split_and!; [done|congruence|lia].
Qed.

Lemma load_upload_wp op (w : W) :
  wp (load_content_upload op)
    (λ res w', upload_step_calls [] w w' ∧ ∀ o, res = Ok o → durable_upload w' op = o) w.
Proof.
  apply wp_equiv. split; [apply load_upload_quiet|].
  intros o Ho. apply (load_upload_truth op w). rewrite <-Ho. apply surjective_pairing.
Qed.

Lemma upload_step_wp t op gen (w : W) :
  wp (upload_store_step t op gen) (λ _ w', upload_step_calls [] w w') w.
Proof. apply wp_equiv, upload_step_quiet. Qed.
End laws.

(** ** Every run: what it leaves behind *)
Section runs.
Context {W : Type} `{UploadPortLaws W}.
Context (self : ContentUploadRunner) (intent : ContentUploadIntent) (op : OperationId)
  (gen : SessionGeneration).
Context (Hchunk : 0 < runner_chunk_size self).

Abbreviation size := (upload_size intent).
Abbreviation trace := (upload_trace intent (runner_chunk_size self)).

(** The record that justifies a run's result. *)
Definition upload_outcome_justified (out : ContentUploadRunOutcome) (w : W) : Prop :=
  ∃ r, durable_upload w op = Some r ∧ ur_intent r = intent ∧
  match out with
  | UploadCompleted =>
      ur_state r = UCompleted ∧ upload_accepted r = size ∧
      ∃ o, ur_remote_outcome r = Some o ∧ o ≠ RemoteOutcomeUnknown ∧ upload_outcome_ok intent o
  | UploadRemoteOutcomePending => upload_phase (ur_state r) >= 3 ∧ upload_accepted r = size
  | UploadFenced => True
  end.

Definition upload_run_post (k : Z) (w : W)
    (res : result ContentUploadRunError (option ContentUploadRunOutcome)) (w' : W) : Prop :=
  (∃ l, upload_step_calls l w w' ∧ trace k l) ∧
  match res with
  | Ok None => False
  | Ok (Some out) => upload_outcome_justified out w'
  | Err _ => True
  end.

(** The calls of one turn, at a record of rank [n]. *)
Definition turn_trace (n : Z) (l1 : list upload_call) : Prop :=
  ∀ l, trace (n + 1) l → trace n (l1 ++ l).

Lemma turn_trace_nil n : turn_trace n [].
Proof. intros l. apply upload_trace_weaken. lia. Qed.

Lemma upload_post_turn k n l1 (w w1 w2 w' : W) res :
  k ≤ n → upload_step_calls [] w w1 → upload_step_calls l1 w1 w2 → turn_trace n l1 →
  upload_run_post (n + 1) w2 res w' → upload_run_post k w res w'.
Proof.
  intros Hk Hq Hc Ht [(l & Hl & Htr) Hres]. split; [|done]. exists (l1 ++ l). split.
  - apply (upload_step_calls_trans [] (l1 ++ l) w w1 w'); [done|].
    by apply (upload_step_calls_trans l1 l w1 w2 w').
  - apply (upload_trace_weaken _ _ k n); [done|]. by apply Ht.
Qed.

Lemma upload_post_end k (w : W) (w' : W) res :
  upload_step_calls [] w w' →
  match res with
  | Ok None => False
  | Ok (Some out) => upload_outcome_justified out w'
  | Err _ => True
  end → upload_run_post k w res w'.
Proof. intros Hq Hres. split; [|done]. exists []. split; [done|constructor]. Qed.

Lemma upload_step_calls_refl (w : W) : upload_step_calls [] w w.
Proof. split; [reflexivity|by rewrite app_nil_r]. Qed.

Lemma upload_post_err k n l1 (w w1 w2 : W) e :
  k ≤ n → upload_step_calls [] w w1 → upload_step_calls l1 w1 w2 → turn_trace n l1 →
  upload_run_post k w (Err e) w2.
Proof.
  intros. apply (upload_post_turn k n l1 w w1 w2); [done..|].
  apply upload_post_end; [apply upload_step_calls_refl|done].
Qed.

Lemma upload_justified_evolves (w w' : W) r :
  durable_upload w op = Some r → ur_intent r = intent → upload_evolves w w' →
  upload_outcome_justified UploadFenced w'.
Proof.
  intros Hr Hi He. destruct (He op r Hr) as [ops Hr'].
  exists (upload_run ops r). split_and!; [done| |done].
  destruct (durable_upload_mono op r _ w w' Hr He Hr') as (-> & _). done.
Qed.

Lemma upload_justified_pending (w : W) :
  upload_at_least intent (size + 3) op w →
  upload_outcome_justified UploadRemoteOutcomePending w.
Proof.
  intros (r & Hr & Hi & Hk). exists r. split_and!; [done|done| |].
  all: destruct (durable_upload_inv op r w Hr) as [[Hs Hst] _]; rewrite Hi in *.
  all: unfold upload_rank, upload_accepted in *; rewrite Hi in *; fold size in Hk.
  all: unfold upload_size in *; destruct (ur_state r); cbn in *; try lia.
  - destruct Hst as (s & Hs' & ? & _). rewrite Hs' in Hk. lia.
  - destruct Hst as (s & Hs' & ? & _). rewrite Hs' in Hk. lia.
  - by destruct Hst as (s & -> & ? & _).
  - by destruct Hst as (s & o & -> & ? & _).
  - by destruct Hst as (s & o & -> & ? & _).
  - by destruct Hst as (s & o & -> & ? & _).
Qed.

Lemma upload_justified_completed r (w : W) :
  durable_upload w op = Some r → ur_intent r = intent → ur_state r = UCompleted →
  upload_outcome_justified UploadCompleted w.
Proof.
  intros Hr Hi Hst. exists r. split_and!; [done|done|done|..].
  all: destruct (durable_upload_inv op r w Hr) as [[_ Hinv] _]; rewrite Hst, Hi in Hinv;
    destruct Hinv as (s & o & Hs & Hacc & Ho & Hk & Hok).
  - unfold upload_accepted. by rewrite Hs.
  - eauto.
Qed.

(** A loaded record that differs from the one of the turn is further on. *)
Lemma upload_progressed record current (w0 w : W) :
  durable_upload w0 op = Some record → ur_intent record = intent →
  upload_evolves w0 w → durable_upload w op = Some current → current ≠ record →
  upload_at_least intent (upload_rank record + 1) op w.
Proof.
  intros Hr Hi He Hc Hne. destruct (durable_upload_mono op record current w0 w) as (?&?&Hlt); [done..|].
  exists current. split_and!; [done|congruence|]. specialize (Hlt Hne). lia.
Qed.

Lemma observe_transition_wp status record (w0 w : W) :
  durable_upload w0 op = Some record → ur_intent record = intent → upload_evolves w0 w →
  wp (observe_transition status record op)
    (λ res w', upload_step_calls [] w w' ∧
       match res with
       | Ok true => upload_outcome_justified UploadFenced w'
       | Ok false => upload_at_least intent (upload_rank record + 1) op w'
       | Err _ => True
       end) w.
Proof.
  intros Hr Hi He. unfold observe_transition. wp_steps.
  eapply wp_mono; [apply load_upload_wp|]. cbn beta.
  intros [o|e] w' [Hq Ho]; cbn; [|done]. specialize (Ho o eq_refl). wp_steps.
  destruct o as [current|]; cbn; [|done].
  assert (He' : upload_evolves w0 w') by (etrans; [done|apply Hq]).
  case_decide as Hne; [|case_decide]; wp_steps; (split; [done|]).
  - by apply (upload_progressed record current w0 w').
  - by apply (upload_justified_evolves w0 w' record).
  - done.
Qed.

(** The tail of most turns: a store step, its observation, and what follows. *)
Lemma upload_step_then t record (w0 w : W)
    (k : bool → action W ContentUploadRunError (option ContentUploadRunOutcome)) :
  durable_upload w0 op = Some record → ur_intent record = intent → upload_evolves w0 w →
  let n := upload_rank record in
  k true = mret (Some UploadFenced) →
  (∀ w', upload_at_least intent (n + 1) op w' → wp (k false) (upload_run_post (n + 1) w') w') →
  wp (status ← with_error UploadStore (upload_store_step t op gen);
      fenced ← observe_transition status record op; k fenced) (upload_run_post (n + 1) w) w.
Proof.
  intros Hr Hi He n Htrue Hfalse. wp_steps.
  eapply wp_mono; [apply upload_step_wp|]. cbn beta.
  intros [status|e] w1 Hq; cbn; [|by apply upload_post_end].
  wp_steps. eapply wp_mono; [apply (observe_transition_wp status record w0 w1); [done|done|]|].
  { etrans; [done|apply Hq]. }
  cbn beta. intros [[]|e] w2 [Hq2 Hres].
  - rewrite Htrue. wp_steps. apply upload_post_end; [|done].
    by apply (upload_step_calls_trans [] [] w w1 w2).
  - eapply wp_mono; [by apply Hfalse|]. intros res w3 Hp.
    destruct Hp as [(l & Hl & Ht) Hres3]. split; [|done]. exists l. split; [|done].
    apply (upload_step_calls_trans [] l w w2 w3); [|done].
    by apply (upload_step_calls_trans [] [] w w1 w2).
  - apply upload_post_end; [|done]. by apply (upload_step_calls_trans [] [] w w1 w2).
Qed.

Lemma upload_post_load k n (w w1 w' : W) res :
  k ≤ n → upload_step_calls [] w w1 → upload_run_post n w1 res w' → upload_run_post k w res w'.
Proof.
  intros Hk Hq [(l & Hl & Ht) Hres]. split; [|done]. exists l. split.
  - by apply (upload_step_calls_trans [] l w w1 w').
  - by eapply upload_trace_weaken.
Qed.

(** A backend call, then the rest of the turn. *)
Lemma upload_call_then {A} n l1 (m : action W CloudBackendError A)
    (f : A → action W ContentUploadRunError (option ContentUploadRunOutcome)) (w : W) :
  upload_step_calls l1 w (m w).2 → turn_trace n l1 →
  (∀ a w1, upload_evolves w w1 → wp (f a) (upload_run_post (n + 1) w1) w1) →
  wp (x ← with_error UploadBackend m; f x) (upload_run_post n w) w.
Proof.
  intros Hc Ht Hf. wp_steps. apply wp_equiv.
  destruct (m w) as [[a|e] w1]; cbn [fst snd map_err] in *.
  - eapply wp_mono; [apply Hf, Hc|]. intros res w' Hp.
    apply (upload_post_turn n n l1 w w w1 w' res);
      [done|apply upload_step_calls_refl|done|done|done].
  - apply (upload_post_err n n l1 w w w1); [done|apply upload_step_calls_refl|done|done].
Qed.

Lemma upload_post_contract n (w : W) e : upload_run_post n w (Err e) w.
Proof. by apply upload_post_end; [apply upload_step_calls_refl|]. Qed.

Lemma turn_trace_start n : n = 0 → turn_trace n [CallStart intent].
Proof. intros -> l Ht. by apply trace_start. Qed.

Lemma turn_trace_commit n s :
  n = size + 2 → upload_accepted_offset s = size → turn_trace n [CallCommit intent s].
Proof.
  intros -> Hs l Ht. apply trace_commit; [done|done|].
  by replace (size + 3) with (size + 2 + 1) by lia.
Qed.

Lemma turn_trace_reconcile n : n = size + 3 → turn_trace n [CallReconcile intent].
Proof.
  intros -> l Ht. apply trace_reconcile; [done|].
  by replace (size + 4) with (size + 3 + 1) by lia.
Qed.

Lemma turn_trace_chunk n c :
  n = 1 + chunk_offset c → upload_chunk_ok intent (runner_chunk_size self) c →
  turn_trace n [CallChunk intent c].
Proof.
  intros -> Hc l Ht. apply trace_chunk; [done|done|].
  by replace (2 + chunk_offset c) with (1 + chunk_offset c + 1) by lia.
Qed.

Lemma turn_trace_chunk_reconciled n c s :
  n = 1 + chunk_offset c → upload_chunk_ok intent (runner_chunk_size self) c →
  ContentUploadChunk_validate_for c intent s = Ok () →
  turn_trace n [CallChunk intent c; CallReconcileChunk intent s c].
Proof.
  intros -> Hc Hv l Ht. apply trace_chunk_reconciled; [done|done|done|].
  by replace (2 + chunk_offset c) with (1 + chunk_offset c + 1) by lia.
Qed.

(** The chunk the runner builds without checks passes them. *)
Lemma runner_chunk_ok s bytes len :
  in_u64 size → 0 ≤ upload_accepted_offset s < size →
  len = Z.min (size - upload_accepted_offset s) (runner_chunk_size self) →
  byte_count bytes = len →
  let c := ContentUploadChunk_from_validated_parts (upload_session_id s)
             (snapshot_generation (cu_snapshot intent)) (upload_accepted_offset s) bytes len size in
  upload_chunk_ok intent (runner_chunk_size self) c ∧
  ContentUploadChunk_validate_for c intent s = Ok ().
Proof.
  intros Hsize Hs Hlen Hb c. split; [split_and!; try done|].
  - apply chunk_new_ok; cbn; [width|done|]. split_and!; [|lia|by rewrite Hb].
    intros ->. unfold byte_count in Hb. cbn in Hb. lia.
  - by apply chunk_validate_ok.
Qed.

Lemma upload_or_reconcile_wp n c s (w : W) :
  turn_trace n [CallChunk intent c] →
  turn_trace n [CallChunk intent c; CallReconcileChunk intent s c] →
  wp (upload_or_reconcile_chunk intent s c)
    (λ res w', ∃ l, upload_step_calls l w w' ∧ turn_trace n l) w.
Proof.
  intros H1c H2c. apply wp_equiv. unfold upload_or_reconcile_chunk.
  pose proof (upload_chunk_effect intent c w) as Hc.
  destruct (upload_chunk intent c w) as [[a|e] w1]; cbn in *; [by exists [CallChunk intent c]|].
  pose proof (reconcile_chunk_effect intent s c w1) as Hc2. unfold with_error.
  destruct (backend_error_kind e); cbn; try (by exists [CallChunk intent c]);
    destruct (reconcile_upload_chunk intent s c w1) as [res w2]; cbn in *;
    exists [CallChunk intent c; CallReconcileChunk intent s c];
    (split; [by apply (upload_step_calls_trans [CallChunk intent c] _ w w1 w2)|done]).
Qed.

(** The turn at an unknown outcome observes the store itself. *)
Lemma turn_unknown record outcome (w1 w : W)
    (next : action W ContentUploadRunError (option ContentUploadRunOutcome)) :
  durable_upload w1 op = Some record → ur_intent record = intent →
  ur_state record = URemoteOutcomeUnknown → upload_evolves w1 w →
  (∀ w', upload_at_least intent (upload_rank record + 1) op w' →
    wp next (upload_run_post (upload_rank record + 1) w') w') →
  wp (status ← with_error UploadStore (record_content_upload_remote_outcome op outcome gen);
      if decide (status = WriteFenced) then mret (Some UploadFenced)
      else
        reloaded ← with_error UploadStore (load_content_upload op);
        current ← pure_result (ok_or reloaded UploadRecordNotFound);
        if decide (current = record) then
          if bool_decide (outcome = RemoteOutcomeUnknown) && bool_decide (status = WriteAlreadyApplied)
             && bool_decide (ur_state current = URemoteOutcomeUnknown)
          then mret (Some UploadRemoteOutcomePending)
          else pure_result (Err (UploadContract (InvalidContentUploadTransition
            "upload store reported a transition without durable progress")))
        else next) (upload_run_post (upload_rank record + 1) w) w.
Proof.
  intros Hr Hi Hst He Hnext. wp_steps.
  eapply wp_mono; [exact (upload_step_wp (TOutcome outcome) op gen w)|]. cbn beta.
  intros [status|e] w2 Hq2; cbn [map_err]; [|by apply upload_post_end].
  assert (He2 : upload_evolves w1 w2) by (etrans; [done|apply Hq2]).
  case_decide; wp_steps.
  { apply upload_post_end; [done|]. by apply (upload_justified_evolves w1 w2 record). }
  eapply wp_mono; [apply load_upload_wp|]. cbn beta.
  intros [o|e] w3 [Hq3 Ho]; cbn [map_err];
    pose proof (upload_step_calls_trans [] [] w w2 w3 Hq2 Hq3) as Hq; [|by apply upload_post_end].
  specialize (Ho o eq_refl). wp_steps. destruct o as [current|]; cbn [ok_or];
    [|by apply upload_post_end].
  assert (He3 : upload_evolves w1 w3) by (etrans; [done|apply Hq3]).
  case_decide as Hcur.
  - destruct (_ && _ && _); wp_steps; [|by apply upload_post_end].
    apply upload_post_end; [done|]. apply upload_justified_pending. subst current.
    exists record. split_and!; [done|done|]. unfold upload_rank. rewrite Hst, Hi.
    unfold upload_size. lia.
  - eapply wp_mono; [apply Hnext; by apply (upload_progressed record current w1 w3)|].
    intros res w' [(l & Hl & Ht) Hres]. split; [|done]. exists l. split; [|done].
    by apply (upload_step_calls_trans [] l w w3 w').
Qed.

(** What remains after the record of a turn was loaded. *)
Definition goes_on (record : ContentUploadRecord)
    (next : action W ContentUploadRunError (option ContentUploadRunOutcome)) : Prop :=
  ∀ w', upload_at_least intent (upload_rank record + 1) op w' →
    wp next (upload_run_post (upload_rank record + 1) w') w'.

Lemma turn_uploading record s next (w : W) :
  durable_upload w op = Some record → ur_intent record = intent →
  ur_state record = UUploading → ur_session record = Some s →
  upload_accepted_offset s < size → goes_on record next →
  let len := Z.min (u64_sub size (upload_accepted_offset s)) (runner_chunk_size self) in
  wp (bytes ← with_error UploadStore
        (read_snapshot (cu_snapshot intent) (upload_accepted_offset s) len);
      pure_result (map_err UploadContract (validate_source_bytes bytes len));;
      let chunk :=
        ContentUploadChunk_from_validated_parts (upload_session_id s)
          (snapshot_generation (cu_snapshot intent)) (upload_accepted_offset s) bytes len size in
      acknowledgement ← upload_or_reconcile_chunk intent s chunk;
      pure_result (map_err UploadContract
        (ContentUploadChunkAck_validate_for acknowledgement chunk));;
      status ← with_error UploadStore
        (record_content_upload_session op
           (ContentUploadSession_new (ack_session_id acknowledgement)
              (ack_accepted_offset acknowledgement)) gen);
      fenced ← observe_transition status record op;
      if fenced : bool then mret (Some UploadFenced) else next)
    (upload_run_post (upload_rank record) w) w.
Proof.
  intros Hr Hi Hst Hs Hlt Hnext len.
  destruct (durable_upload_inv op record w Hr) as [Hinv Hsize]. rewrite Hi in Hsize.
  pose proof (upload_accepted_bound record s Hinv Hs) as Hacc. rewrite Hi in Hacc.
  assert (Hrank : upload_rank record = 1 + upload_accepted_offset s).
  { unfold upload_rank, upload_accepted. by rewrite Hst, Hs. }
  assert (Hlen : len = Z.min (size - upload_accepted_offset s) (runner_chunk_size self)).
  { unfold len. by rewrite u64_sub_exact by (done || lia). }
  clearbody len. wp_steps. apply wp_equiv.
  pose proof (read_snapshot_quiet (cu_snapshot intent) (upload_accepted_offset s) len w) as Hq.
  destruct (read_snapshot _ _ _ w) as [[bytes|e] w1]; cbn [fst snd map_err] in *;
    [|by apply upload_post_end].
  wp_steps. unfold validate_source_bytes. case_decide as Hb; cbn [map_err]; [by apply upload_post_end|].
  destruct (runner_chunk_ok s bytes len Hsize (conj (proj1 Hacc) Hlt) Hlen Hb) as [Hok Hval].
  set (chunk := ContentUploadChunk_from_validated_parts _ _ _ _ _ _) in *.
  wp_steps. eapply wp_mono; [apply (upload_or_reconcile_wp (upload_rank record))|].
  { by apply turn_trace_chunk. }
  { by apply turn_trace_chunk_reconciled. }
  cbn beta. intros [ack|e] w2 (l1 & Hl1 & Ht1);
    [|by apply (upload_post_err _ (upload_rank record) l1 w w1 w2)].
  wp_steps. destruct (ContentUploadChunkAck_validate_for ack chunk) as [[]|e]; cbn [map_err];
    [|by apply (upload_post_err _ (upload_rank record) l1 w w1 w2)].
  eapply wp_mono; [apply (upload_step_then (TSession (ContentUploadSession_new (ack_session_id ack)
    (ack_accepted_offset ack))) record w w2 (λ fenced, if fenced : bool then _ else next));
    [done|done| |done|exact Hnext]|].
  - etrans; [apply Hq|apply Hl1].
  - intros res w' Hp. by apply (upload_post_turn _ (upload_rank record) l1 w w1 w2 w' res).
Qed.

Lemma ContentUploadRunner_resume_wp fuel : ∀ k (w : W),
  upload_at_least intent k op w → size + 7 ≤ k + Z.of_nat fuel →
  wp (ContentUploadRunner_resume fuel self op gen) (upload_run_post k w) w.
Proof.
  induction fuel as [|fuel IH]; intros k w Hrank Hfuel.
  { destruct Hrank as (r & Hr & Hi & Hk). destruct (durable_upload_inv op r w Hr) as [Hinv _].
    pose proof (upload_rank_bound r Hinv). rewrite Hi in *. lia. }
  rewrite ContentUploadRunner_resume_S. unfold ContentUploadRunner_turn; cbn zeta. wp_steps.
  eapply wp_mono; [apply load_upload_wp|]. cbn beta.
  intros [o|e] w1 [Hq Ho]; cbn [map_err]; [|by apply upload_post_end].
  specialize (Ho o eq_refl). wp_steps.
  destruct (upload_at_least_evolves intent k op w w1 Hrank (proj1 Hq)) as (record & Hr & Hi & Hle).
  rewrite Hr in Ho. subst o. cbn [ok_or]. rewrite Hi.
  assert (Hnext : goes_on record (ContentUploadRunner_resume fuel self op gen)).
  { intros w' Hw'. apply IH; [done|lia]. }
  destruct (durable_upload_inv op record w1 Hr) as [Hinv _].
  assert (Hrk : upload_rank record = upload_rank record) by done.
  unfold upload_rank at 2 in Hrk. destruct Hinv as [_ Hinv].
  eapply wp_mono; [|intros res w'; apply (upload_post_load k (upload_rank record) w w1 w' res Hle Hq)].
  assert (Hdone : ∀ t, wp (status ← with_error UploadStore (upload_store_step t op gen);
      fenced ← observe_transition status record op;
      if fenced : bool then mret (Some UploadFenced)
      else ContentUploadRunner_resume fuel self op gen) (upload_run_post (upload_rank record) w1) w1).
  { intros t. eapply wp_mono; [apply (upload_step_then t record w1 w1
      (λ fenced, if fenced : bool then _ else ContentUploadRunner_resume fuel self op gen));
      [done|done|reflexivity|done|exact Hnext]|].
    intros res w' Hp. apply (upload_post_turn _ (upload_rank record) [] w1 w1 w1);
      [done|apply upload_step_calls_refl..|apply turn_trace_nil|done]. }
  rewrite Hi in Hrk, Hinv. fold size in Hrk.
  destruct (ur_state record) eqn:Hst.
  - (* IntentPersisted *)
    apply (upload_call_then (upload_rank record) [CallStart intent]);
      [apply start_upload_effect|by apply turn_trace_start|].
    intros session w2 He. wp_steps.
    destruct (ContentUploadSession_validate_for session intent) as [[]|e]; cbn [map_err];
      [|apply upload_post_contract].
    apply (upload_step_then (TSession session) record w1 w2
      (λ fenced, if fenced : bool then _ else ContentUploadRunner_resume fuel self op gen));
      [done|done|done|done|exact Hnext].
  - (* Uploading *)
    destruct Hinv as (s & Hs & Hacc & _). unfold required_upload_session. rewrite Hs. cbn.
    wp_steps. destruct (ContentUploadSession_validate_for s intent) as [[]|e]; cbn [map_err];
      [|apply upload_post_contract].
    case_decide as Hlt; [by apply turn_uploading|exact (Hdone TCommit)].
  - (* RemoteCommitting *)
    destruct Hinv as (s & Hs & Hacc & _). unfold required_upload_session. rewrite Hs. cbn.
    apply wp_bind, wp_pure. apply (upload_call_then (upload_rank record) [CallCommit intent s]);
      [apply commit_upload_effect|by apply turn_trace_commit|].
    intros outcome w2 He.
    apply (upload_step_then (TOutcome outcome) record w1 w2
      (λ fenced, if fenced : bool then _ else
         if bool_decide (outcome = RemoteOutcomeUnknown) then _
         else ContentUploadRunner_resume fuel self op gen)); [done|done|done|done|].
    intros w' Hw'. case_bool_decide; [wp_steps|by apply Hnext].
    apply upload_post_end; [apply upload_step_calls_refl|].
    apply upload_justified_pending. by replace (size + 3) with (upload_rank record + 1) by lia.
  - (* RemoteOutcomeUnknown *)
    apply (upload_call_then (upload_rank record) [CallReconcile intent]);
      [apply reconcile_upload_effect|by apply turn_trace_reconcile|].
    intros outcome w2 He. by apply (turn_unknown record outcome w1 w2).
  - exact (Hdone TMetadata).
  - exact (Hdone TComplete).
  - (* Completed *)
    wp_steps. unfold validate_completed_upload. destruct Hinv as (s & o & _ & _ & -> & _). cbn.
    wp_steps. apply upload_post_end; [apply upload_step_calls_refl|].
    by apply upload_justified_completed with record.
Qed.
End runs.


(** ** One executor and a backend that keeps what it accepted

    The documented behaviour of the ports when nothing interferes: the store
    applies record operations, the reader returns the snapshot's bytes, and
    the backend accepts exactly the chunk that continues what it has, answers
    a replay of the last chunk with a conflict that reconciliation resolves,
    and commits once it has everything. *)
Definition upload_transition_apply (t : upload_transition) (r : ContentUploadRecord) :=
  match t with
  | TSession session => ContentUploadRecord_record_session r session
  | TCommit => ContentUploadRecord_begin_remote_commit r
  | TOutcome outcome => ContentUploadRecord_record_remote_outcome r outcome
  | TMetadata => ContentUploadRecord_mark_metadata_reconciled r
  | TComplete => ContentUploadRecord_complete r
  end.

(** Session offsets are unsigned. *)
Definition transition_unsigned (t : upload_transition) : Prop :=
  match t with TSession s => 0 ≤ upload_accepted_offset s | _ => True end.

Class UploadExclusive (W : Type)
    `{ContentUploadStore W, CloudContentUploadBackend W, LocalContentSnapshotReader W,
      UploadDurability W} := {
  upload_active : W → OperationId → SessionGeneration → bool;
  snapshot_content : LocalContentSnapshot → list byte;
  received : W → OperationId → list byte;
  alone_load op (w : W) : load_content_upload op w = (Ok (durable_upload w op), w);
  alone_step t op gen (w : W) r r' :
    transition_unsigned t → upload_active w op gen = true → durable_upload w op = Some r →
    upload_transition_apply t r = (Ok UApplied, r') →
    ∃ w', upload_store_step t op gen w = (Ok WriteApplied, w') ∧
      upload_active w' op gen = true ∧ durable_upload w' op = Some r' ∧
      received w' op = received w op;
  alone_read s offset len (w : W) :
    0 ≤ offset → 0 ≤ len → offset + len ≤ byte_count (snapshot_content s) →
    read_snapshot s offset len w =
      (Ok (byte_slice (snapshot_content s) offset (offset + len)), w);
  alone_start i gen (w : W) :
    ∃ id w', start_upload i w =
      (Ok (ContentUploadSession_new id (byte_count (received w (cu_operation_id i)))), w') ∧
      upload_active w' (cu_operation_id i) gen = upload_active w (cu_operation_id i) gen ∧
      durable_upload w' (cu_operation_id i) = durable_upload w (cu_operation_id i) ∧
      received w' (cu_operation_id i) = received w (cu_operation_id i);
  alone_chunk i c gen (w : W) :
    chunk_offset c = byte_count (received w (cu_operation_id i)) →
    ∃ w', upload_chunk i c w =
      (Ok (ContentUploadChunkAck_new (chunk_session_id c) (ContentUploadChunk_end_exclusive c)), w') ∧
      upload_active w' (cu_operation_id i) gen = upload_active w (cu_operation_id i) gen ∧
      durable_upload w' (cu_operation_id i) = durable_upload w (cu_operation_id i) ∧
      received w' (cu_operation_id i) = received w (cu_operation_id i) ++ chunk_bytes c;
  alone_replay i s c gen pre (w : W) :
    received w (cu_operation_id i) = pre ++ chunk_bytes c →
    chunk_offset c = byte_count pre → chunk_bytes c ≠ [] →
    ∃ e w1 w', upload_chunk i c w = (Err e, w1) ∧ backend_error_kind e = BackendConflict ∧
      reconcile_upload_chunk i s c w1 =
        (Ok (ContentUploadChunkAck_new (chunk_session_id c)
               (ContentUploadChunk_end_exclusive c)), w') ∧
      upload_active w' (cu_operation_id i) gen = upload_active w (cu_operation_id i) gen ∧
      durable_upload w' (cu_operation_id i) = durable_upload w (cu_operation_id i) ∧
      received w' (cu_operation_id i) = received w (cu_operation_id i);
  alone_commit i s gen (w : W) :
    byte_count (snapshot_content (cu_snapshot i)) = upload_size i →
    received w (cu_operation_id i) = snapshot_content (cu_snapshot i) →
    ∃ o w', commit_upload i s w = (Ok o, w') ∧
      o ≠ RemoteOutcomeUnknown ∧ upload_outcome_ok i o ∧
      upload_active w' (cu_operation_id i) gen = upload_active w (cu_operation_id i) gen ∧
      durable_upload w' (cu_operation_id i) = durable_upload w (cu_operation_id i) ∧
      received w' (cu_operation_id i) = received w (cu_operation_id i);
}.

Section delivery.
Context {W : Type} `{UploadExclusive W}.
Context (self : ContentUploadRunner) (intent : ContentUploadIntent) (gen : SessionGeneration).
Context (Hchunk : 0 < runner_chunk_size self).

Abbreviation op := (cu_operation_id intent).
Abbreviation size := (upload_size intent).
Abbreviation content := (snapshot_content (cu_snapshot intent)).
Context (Hsize : in_u64 size) (Hcontent : byte_count content = size).

(** The executor is alone with this record, and the backend with the first
    [n] bytes. *)
Definition alone (r : ContentUploadRecord) (n : Z) (w : W) : Prop :=
  upload_active w op gen = true ∧ durable_upload w op = Some r ∧
  received w op = byte_slice content 0 n.

(** The run completes, with everything delivered. *)
Definition delivers (fuel : nat) (w : W) : Prop :=
  ∃ w' s o, ContentUploadRunner_resume fuel self op gen w = (Ok (Some UploadCompleted), w') ∧
    alone (mk_ContentUploadRecord intent UCompleted (Some s) (Some o)) size w' ∧
    upload_accepted_offset s = size.

Lemma alone_loaded {A} r n w (k : ContentUploadRecord → action W ContentUploadRunError A) :
  alone r n w →
  (loaded ← with_error UploadStore (load_content_upload op);
   record ← pure_result (ok_or loaded UploadRecordNotFound); k record) w = k r w.
Proof.
  intros (_ & Hr & _). erewrite bind_ok; [|apply with_error_ok, alone_load].
  rewrite Hr. by erewrite bind_ok.
Qed.

Lemma alone_progress t r r' n w :
  transition_unsigned t → alone r n w →
  upload_transition_apply t r = (Ok UApplied, r') → r' ≠ r →
  ∃ w', alone r' n w' ∧
    ∀ A (k : bool → action W ContentUploadRunError A),
    (status ← with_error UploadStore (upload_store_step t op gen);
     fenced ← observe_transition status r op; k fenced) w = k false w'.
Proof.
  intros Ht (Hact & Hr & Hn) Ha Hne.
  destruct (alone_step t op gen w r r') as (w' & Hs & Hact' & Hr' & Hn'); [done..|].
  assert (Hw' : alone r' n w') by (split_and!; [done|done|congruence]).
  exists w'. split; [done|]. intros A k. erewrite bind_ok; [|by apply with_error_ok].
  erewrite bind_ok; [done|]. unfold observe_transition.
  rewrite (alone_loaded r' n w' (λ current, _)) by done. by rewrite decide_True.
Qed.

Lemma delivers_next t r r' n fuel w :
  transition_unsigned t → alone r n w →
  upload_transition_apply t r = (Ok UApplied, r') → r' ≠ r →
  (∀ w', alone r' n w' → delivers fuel w') →
  ∃ w' s o, (status ← with_error UploadStore (upload_store_step t op gen);
     fenced ← observe_transition status r op;
     if fenced : bool then mret (Some UploadFenced)
     else ContentUploadRunner_resume fuel self op gen) w = (Ok (Some UploadCompleted), w') ∧
    alone (mk_ContentUploadRecord intent UCompleted (Some s) (Some o)) size w' ∧
    upload_accepted_offset s = size.
Proof.
  intros Ht Hw Ha Hne Hnext. destruct (alone_progress t r r' n w Ht Hw Ha Hne) as (w1 & Hw1 & Hrun).
  destruct (Hnext w1 Hw1) as (w' & s & o & Hrun' & Hfinal). exists w', s, o. split; [|done].
  rewrite <-Hrun'. exact (Hrun _ (λ fenced, if fenced : bool then mret (Some UploadFenced)
     else ContentUploadRunner_resume fuel self op gen)).
Qed.

Lemma delivers_completed fuel s o w :
  upload_accepted_offset s = size →
  alone (mk_ContentUploadRecord intent UCompleted (Some s) (Some o)) size w →
  delivers (S fuel) w.
Proof.
  intros Hs Hw. exists w, s, o. split; [|done]. rewrite ContentUploadRunner_resume_S. unfold ContentUploadRunner_turn; cbn zeta.
  by rewrite (alone_loaded _ size w (λ record, _) Hw).
Qed.

Lemma delivers_known fuel s o w :
  upload_accepted_offset s = size →
  alone (mk_ContentUploadRecord intent URemoteOutcomeKnown (Some s) (Some o)) size w →
  delivers (S (S (S fuel))) w.
Proof.
  intros Hs Hw. unfold delivers.  rewrite ContentUploadRunner_resume_S. unfold ContentUploadRunner_turn; cbn zeta.
  rewrite (alone_loaded _ size w (λ record, _) Hw). cbn [ur_state].
  eapply (delivers_next TMetadata _ (mk_ContentUploadRecord intent UMetadataReconciled (Some s) (Some o)));
    [done|done|done|done|]. intros w1 Hw1.
  unfold delivers. rewrite ContentUploadRunner_resume_S. unfold ContentUploadRunner_turn; cbn zeta.
  rewrite (alone_loaded _ size w1 (λ record, _) Hw1). cbn [ur_state].
  eapply (delivers_next TComplete _ (mk_ContentUploadRecord intent UCompleted (Some s) (Some o)));
    [done|done|done|done|]. intros w2 Hw2. by eapply delivers_completed.
Qed.

Lemma delivers_committing fuel s w :
  upload_accepted_offset s = size →
  alone (mk_ContentUploadRecord intent URemoteCommitting (Some s) None) size w →
  delivers (4 + fuel) w.
Proof.
  intros Hs Hw. unfold delivers. cbn [Nat.add].
  rewrite ContentUploadRunner_resume_S. unfold ContentUploadRunner_turn; cbn zeta.
  rewrite (alone_loaded _ size w (λ record, _) Hw). cbn.
  erewrite bind_ok; [|done].
  pose proof Hw as (Hact & Hd & Hrec). rewrite <-Hcontent, byte_slice_full in Hrec.
  destruct (alone_commit intent s gen w Hcontent Hrec) as (o & w1 & Hc & Hk & Hok & Ha1 & Hd1 & Hr1).
  erewrite bind_ok; [|by apply with_error_ok]. rewrite bool_decide_false by done.
  assert (Hw1 : alone (mk_ContentUploadRecord intent URemoteCommitting (Some s) None) size w1).
  { split_and!; [congruence|congruence|]. by rewrite <-Hcontent, byte_slice_full, Hr1. }
  eapply (delivers_next (TOutcome o) _ (mk_ContentUploadRecord intent URemoteOutcomeKnown (Some s) (Some o)));
    [done|exact Hw1| |done|].
  - cbn. unfold ContentUploadRecord_record_remote_outcome. cbn.
    rewrite (proj2 (validate_upload_outcome_ok intent o) Hok). by destruct o.
  - intros w2 Hw2. by eapply delivers_known.
Qed.

(** The backend holds the accepted bytes, and perhaps already the chunk
    whose checkpoint was lost. *)
Definition backend_holds (a n : Z) : Prop :=
  n = a ∨ n = Z.min (a + runner_chunk_size self) size.

Lemma alone_chunk_accepted r s n len w :
  0 ≤ upload_accepted_offset s < size →
  len = Z.min (size - upload_accepted_offset s) (runner_chunk_size self) →
  backend_holds (upload_accepted_offset s) n → alone r n w →
  let a := upload_accepted_offset s in
  let c := ContentUploadChunk_from_validated_parts (upload_session_id s)
    (snapshot_generation (cu_snapshot intent)) a (byte_slice content a (a + len)) len size in
  ∃ w', upload_or_reconcile_chunk intent s c w =
      (Ok (ContentUploadChunkAck_new (upload_session_id s) (a + len)), w') ∧
    alone r (a + len) w'.
Proof.
  intros Hs Hlen Hn Hw a c. fold a in Hs, Hlen, Hn. destruct Hw as (Hact & Hd & Hrec).
  assert (Hend : ContentUploadChunk_end_exclusive c = a + len).
  { apply u64_add_exact; unfold in_u64 in *; cbn; lia. }
  assert (Hglue : byte_slice content 0 a ++ byte_slice content a (a + len) =
                  byte_slice content 0 (a + len)) by (apply byte_slice_app; lia).
  assert (Hpre : byte_count (byte_slice content 0 a) = a)
    by (rewrite byte_slice_count; lia).
  assert (Hbytes : byte_count (byte_slice content a (a + len)) = len)
    by (rewrite byte_slice_count; lia).
  destruct (decide (n = a)) as [->|Hne].
  - destruct (alone_chunk intent c gen w) as (w1 & Hup & Ha1 & Hd1 & Hr1); [by rewrite Hrec|].
    exists w1. unfold upload_or_reconcile_chunk. rewrite Hup, Hend. split; [done|].
    split_and!; [congruence|congruence|]. by rewrite Hr1, Hrec.
  - assert (Hna : n = a + len) by (destruct Hn; lia). subst n.
    destruct (alone_replay intent s c gen (byte_slice content 0 a) w)
      as (e & w1 & w2 & Hup & Hkind & Hrc & Ha2 & Hd2 & Hr2).
    + cbn. by rewrite Hglue.
    + done.
    + cbn. intros Hnil. rewrite Hnil in Hbytes. unfold byte_count in Hbytes. cbn in Hbytes. lia.
    + exists w2. unfold upload_or_reconcile_chunk. rewrite Hup, Hkind.
      rewrite (with_error_ok _ _ _ _ _ Hrc), Hend. split; [done|].
      split_and!; [congruence|congruence|]. by rewrite Hr2.
Qed.

Lemma session_fits s :
  upload_accepted_offset s ≤ size → ContentUploadSession_validate_for s intent = Ok ().
Proof.
  intros. unfold ContentUploadSession_validate_for. unfold upload_size in *.
  by rewrite decide_False by lia.
Qed.

Lemma delivers_commit fuel s w :
  upload_accepted_offset s = size →
  alone (mk_ContentUploadRecord intent UUploading (Some s) None) size w →
  delivers (5 + fuel) w.
Proof.
  intros Hs Hw. unfold delivers. cbn [Nat.add].
   rewrite ContentUploadRunner_resume_S. unfold ContentUploadRunner_turn; cbn zeta.
  rewrite (alone_loaded _ size w (λ record, _) Hw). cbn [ur_state ur_session ur_intent].
  erewrite bind_ok; [|done]. rewrite session_fits by lia. erewrite bind_ok; [|done].
  change (snapshot_size (cu_snapshot intent)) with size.
  rewrite (decide_False (P := upload_accepted_offset s < size)) by lia.
  eapply (delivers_next TCommit _ (mk_ContentUploadRecord intent URemoteCommitting (Some s) None));
    [done|exact Hw| |done|].
  - cbn. unfold ContentUploadRecord_begin_remote_commit. cbn.
    by rewrite bool_decide_true.
  - intros w1 Hw1. by apply (delivers_committing fuel s).
Qed.

Lemma delivers_uploading fuel m : ∀ s n w,
  0 ≤ upload_accepted_offset s ≤ size → size - upload_accepted_offset s ≤ Z.of_nat m →
  backend_holds (upload_accepted_offset s) n →
  alone (mk_ContentUploadRecord intent UUploading (Some s) None) n w →
  delivers (5 + m + fuel) w.
Proof.
  induction m as [|m IH]; intros s n w Hs Hm Hn Hw.
  { assert (n = size) as -> by (destruct Hn; lia). by apply (delivers_commit fuel s); [lia|]. }
  destruct (decide (upload_accepted_offset s = size)) as [Heq|Hlt].
  { assert (n = size) as -> by (destruct Hn; lia).
    by apply (delivers_commit (S m + fuel) s). }
  unfold delivers. cbn [Nat.add] in *.
  rewrite ContentUploadRunner_resume_S. unfold ContentUploadRunner_turn; cbn zeta.
  rewrite (alone_loaded _ n w (λ record, _) Hw). cbn [ur_state ur_session ur_intent].
  erewrite bind_ok; [|done]. rewrite session_fits by lia. erewrite bind_ok; [|done].
  change (snapshot_size (cu_snapshot intent)) with size.
  rewrite (decide_True (P := upload_accepted_offset s < size)) by lia.
  rewrite u64_sub_exact by (done || lia).
  remember (Z.min (size - upload_accepted_offset s) (runner_chunk_size self)) as len eqn:Hlen.
  erewrite bind_ok; [|apply with_error_ok, alone_read; lia].
  assert (Hb : byte_count (byte_slice content (upload_accepted_offset s)
                 (upload_accepted_offset s + len)) = len) by (rewrite byte_slice_count; lia).
  unfold validate_source_bytes. rewrite decide_False by auto. erewrite bind_ok; [|done].
  destruct (alone_chunk_accepted (mk_ContentUploadRecord intent UUploading (Some s) None) s n len w)
    as (w1 & Hup & Hw1); [lia|done|done|done|].
  erewrite bind_ok; [|exact Hup].
  set (c := ContentUploadChunk_from_validated_parts _ _ _ _ _ _).
  assert (Hend : ContentUploadChunk_end_exclusive c = upload_accepted_offset s + len).
  { apply u64_add_exact; unfold in_u64 in *; cbn; lia. }
  rewrite (proj2 (ack_validate_ok c _)) by (rewrite Hend; done).
  erewrite bind_ok; [|done]. cbn [ack_session_id ack_accepted_offset].
  set (s' := ContentUploadSession_new (upload_session_id s) (upload_accepted_offset s + len)).
  eapply (delivers_next (TSession s') _ (mk_ContentUploadRecord intent UUploading (Some s') None));
    [cbn; lia|exact Hw1| | |].
  - cbn. unfold ContentUploadRecord_record_session. cbn [ur_intent].
    rewrite (session_fits s') by (cbn; lia). cbn. rewrite !decide_False by first [lia|auto]. done.
  - intros [= Heq]. apply (f_equal upload_accepted_offset) in Heq. cbn in Heq. lia.
  - intros w2 Hw2. apply (IH s' (upload_accepted_offset s + len)); cbn; [lia|lia|by left|done].
Qed.

Lemma delivers_intent fuel m n w :
  size ≤ Z.of_nat m → 0 ≤ n ≤ size →
  alone (ContentUploadRecord_persist intent) n w → delivers (6 + m + fuel) w.
Proof.
  intros Hm Hn Hw. unfold delivers. cbn [Nat.add].
  
  rewrite ContentUploadRunner_resume_S. unfold ContentUploadRunner_turn; cbn zeta.
  rewrite (alone_loaded _ n w (λ record, _) Hw). cbn [ur_state ur_intent ContentUploadRecord_persist].
  destruct (alone_start intent gen w) as (id & w1 & Hstart & Ha1 & Hd1 & Hr1).
  pose proof Hw as (Hact & Hd & Hrec). erewrite bind_ok; [|by apply with_error_ok].
  assert (Hcount : byte_count (received w op) = n) by (rewrite Hrec, byte_slice_count; lia).
  rewrite Hcount in *. set (s := ContentUploadSession_new id n).
  rewrite (session_fits s) by (cbn; lia). erewrite bind_ok; [|done].
  eapply (delivers_next (TSession s) (ContentUploadRecord_persist intent)
    (mk_ContentUploadRecord intent UUploading (Some s) None) n); [cbn; lia| |cbn| |].
  - split_and!; congruence.
  - unfold ContentUploadRecord_record_session. cbn [ur_intent ContentUploadRecord_persist].
    by rewrite (session_fits s) by (cbn; lia).
  - done.
  - intros w2 Hw2. apply (delivers_uploading fuel m s n w2); cbn; [lia|lia|by left|done].
Qed.
End delivery.

(** ** The runner's contract *)
Definition is_commit (c : upload_call) : bool :=
  match c with CallCommit _ _ => true | _ => false end.

Lemma upload_trace_commits intent cs k l :
  upload_trace intent cs k l →
  (length (List.filter is_commit l) ≤ 1)%nat ∧
  (k > upload_size intent + 2 → List.filter is_commit l = []).
Proof.
  assert (Hchunk : ∀ c, upload_chunk_ok intent cs c → chunk_offset c ≤ upload_size intent).
  { intros c (Hc & Ht & _ & _). unfold ContentUploadChunk_new in Hc. case_decide; [done|].
    apply result_bind_ok in Hc as (e & He & Hc). case_decide; [done|].
    apply ok_or_ok, checked_add_spec in He as [_ ->].
    pose proof (byte_count_nonneg (chunk_bytes c)). lia. }
  induction 1 as [k|k l Hk Ht [IH1 IH2]|k c l Hk Hc Ht [IH1 IH2]|k c s l Hk Hc Hv Ht [IH1 IH2]
    |k s l Hk Hs Ht [IH1 IH2]|k l Hk Ht [IH1 IH2]]; cbn.
  - split; [lia|done].
  - split; [done|]. intros. apply IH2. lia.
  - split; [done|]. specialize (Hchunk c Hc). intros. apply IH2. lia.
  - split; [done|]. specialize (Hchunk c Hc). intros. apply IH2. lia.
  - rewrite IH2 by lia. cbn. split; [lia|]. lia.
  - split; [done|]. intros. apply IH2. lia.
Qed.

Lemma ContentUploadRunner_new_ok n self :
  0 ≤ n → ContentUploadRunner_new n = Ok self ↔ 0 < n ∧ self = mk_ContentUploadRunner n.
Proof. intros. unfold ContentUploadRunner_new. case_decide; crush. Qed.

Section contract.
Context {W : Type} `{UploadPortLaws W}.

Lemma resume_from_record fuel self op gen r (w : W) :
  0 < runner_chunk_size self → durable_upload w op = Some r →
  upload_size (ur_intent r) + 7 ≤ Z.of_nat fuel →
  upload_run_post self (ur_intent r) op (upload_rank r) w
    (ContentUploadRunner_resume fuel self op gen w).1
    (ContentUploadRunner_resume fuel self op gen w).2.
Proof.
  intros Hc Hr Hfuel. apply wp_equiv, ContentUploadRunner_resume_wp; [done| |].
  - exists r. done.
  - destruct (durable_upload_inv op r w Hr) as [Hinv _].
    pose proof (upload_rank_bound r Hinv). lia.
Qed.

Definition upload_submit_post (self : ContentUploadRunner) (intent : ContentUploadIntent)
    (w : W) (res : result ContentUploadRunError (option ContentUploadRunOutcome)) (w' : W) : Prop :=
  (∃ l, upload_step_calls l w w' ∧ upload_trace intent (runner_chunk_size self) 0 l) ∧
  match res with
  | Ok None => False
  | Ok (Some out) => out = UploadFenced ∨
      upload_outcome_justified intent (cu_operation_id intent) out w'
  | Err _ => True
  end.

Lemma ContentUploadRunner_submit_wp fuel self intent gen (w : W) :
  0 < runner_chunk_size self → upload_size intent + 7 ≤ Z.of_nat fuel →
  wp (ContentUploadRunner_submit fuel self intent gen) (upload_submit_post self intent w) w.
Proof.
  intros Hpos Hfuel. unfold ContentUploadRunner_submit. wp_steps. apply wp_equiv.
  pose proof (persist_upload_effect intent gen w) as Hp.
  destruct (persist_content_upload_intent intent gen w) as [[status|e] w1];
    cbn [fst snd map_err] in *; destruct Hp as [Hq Hdur];
    [|split; [exists []; split; [done|constructor]|done]].
  case_decide as Hf; wp_steps; [split; [exists []; split; [done|constructor]|by left]|].
  destruct (Hdur status eq_refl Hf) as (r & Hr & <-).
  apply wp_equiv.
  destruct (resume_from_record fuel self (cu_operation_id (ur_intent r)) gen r w1 Hpos Hr Hfuel)
    as [(l & Hl & Ht) Hres].
  split.
  - exists l. split; [by apply (upload_step_calls_trans [] l w w1 _)|].
    eapply upload_trace_weaken; [|exact Ht].
    destruct (durable_upload_inv _ r w1 Hr) as [Hinv _]. pose proof (upload_rank_bound r Hinv). lia.
  - destruct (ContentUploadRunner_resume _ _ _ _ w1).1 as [[out|]|]; auto.
Qed.

(** C16. Every upload run ends, and what it did is accounted for. For any
    lawful store, backend and reader, whatever other executors do in
    between: [size + 7] turns of the loop suffice; a run that reports
    completion leaves a completed record with every byte accepted and a
    known outcome for the uploaded item and size, and one that reports a
    pending outcome leaves a record past the commit of every byte. The
    backend calls of the run are, in order: a start only for a fresh
    record; valid non-empty chunks of at most the chunk size at strictly
    increasing offsets inside the snapshot, a replay of a chunk only right
    after it; one commit at most, and only with every byte accepted; then a
    reconciliation. A submitted intent is run the same way once it is
    durable. *)
Theorem upload_runner_safety (fuel : nat) (chunk : Z) (self : ContentUploadRunner)
    (op : OperationId) (gen : SessionGeneration) (r : ContentUploadRecord)
    (intent : ContentUploadIntent) (w : W) :
  0 ≤ chunk → ContentUploadRunner_new chunk = Ok self →
  durable_upload w op = Some r →
  upload_size (ur_intent r) + 7 ≤ Z.of_nat fuel → upload_size intent + 7 ≤ Z.of_nat fuel →
  let '(res, w') := ContentUploadRunner_resume fuel self op gen w in
  let '(sres, sw') := ContentUploadRunner_submit fuel self intent gen w in
  res ≠ Ok None ∧
  (∀ out, res = Ok (Some out) → upload_outcome_justified (ur_intent r) op out w') ∧
  (∃ calls, upload_calls w' = upload_calls w ++ calls ∧
     upload_trace (ur_intent r) chunk (upload_rank r) calls ∧
     (length (List.filter is_commit calls) ≤ 1)%nat) ∧
  upload_evolves w w' ∧
  sres ≠ Ok None ∧
  (∀ out, sres = Ok (Some out) → out = UploadFenced ∨
     upload_outcome_justified intent (cu_operation_id intent) out sw') ∧
  (∃ calls, upload_calls sw' = upload_calls w ++ calls ∧
     upload_trace intent chunk 0 calls).
Proof.
  intros Hchunk Hself Hr Hfuel Hsfuel.
  apply ContentUploadRunner_new_ok in Hself as [Hpos ->]; [|done].
  destruct (resume_from_record fuel (mk_ContentUploadRunner chunk) op gen r w Hpos Hr Hfuel)
    as [(l & [He Hl] & Ht) Hres].
  assert (Hsub : upload_submit_post (mk_ContentUploadRunner chunk) intent w
    (ContentUploadRunner_submit fuel (mk_ContentUploadRunner chunk) intent gen w).1
    (ContentUploadRunner_submit fuel (mk_ContentUploadRunner chunk) intent gen w).2)
    by by apply wp_equiv, ContentUploadRunner_submit_wp.
  destruct Hsub as [(sl & [_ Hsl] & Hst) Hsres].
  destruct (ContentUploadRunner_resume _ _ _ _ w) as [res w'].
  destruct (ContentUploadRunner_submit _ _ _ _ w) as [sres sw']. cbn in *.
  split_and!.
  - by intros ->.
  - by intros out ->.
  - exists l. split_and!; [done|done|]. by apply (upload_trace_commits _ _ _ _ Ht).
  - done.
  - by intros ->.
  - by intros out ->.
  - by exists sl.
Qed.
End contract.

Section delivered.
Context {W : Type} `{UploadExclusive W}.

(** C17. An undisturbed upload delivers the snapshot. When the executor is
    alone with the record, the store applies its transitions, the reader
    returns the snapshot's bytes and the backend accepts exactly the chunk
    that continues what it has, answers a replay with a conflict it can
    reconcile and commits once it has everything, then a run from a fresh or
    an uploading record completes: for every chunk size, from every durably
    accepted offset, and also when the last chunk reached the backend but its
    checkpoint was lost. The backend then has received exactly the
    snapshot's bytes, each once and in order, and the record is completed. *)
Theorem upload_runner_delivers (fuel : nat) (chunk : Z) (self : ContentUploadRunner)
    (gen : SessionGeneration) (intent : ContentUploadIntent) (r : ContentUploadRecord)
    (n : Z) (w : W) :
  0 ≤ chunk → ContentUploadRunner_new chunk = Ok self →
  in_u64 (upload_size intent) →
  byte_count (snapshot_content (cu_snapshot intent)) = upload_size intent →
  upload_size intent + 7 ≤ Z.of_nat fuel →
  (r = ContentUploadRecord_persist intent ∧ 0 ≤ n ≤ upload_size intent ∨
   ∃ s, r = mk_ContentUploadRecord intent UUploading (Some s) None ∧
     0 ≤ upload_accepted_offset s ≤ upload_size intent ∧
     backend_holds self intent (upload_accepted_offset s) n) →
  alone intent gen r n w →
  let '(res, w') := ContentUploadRunner_resume fuel self (cu_operation_id intent) gen w in
  res = Ok (Some UploadCompleted) ∧
  received w' (cu_operation_id intent) = snapshot_content (cu_snapshot intent) ∧
  ∃ s o, durable_upload w' (cu_operation_id intent) =
    Some (mk_ContentUploadRecord intent UCompleted (Some s) (Some o)) ∧
    upload_accepted_offset s = upload_size intent.
Proof.
  intros Hchunk Hself Hsize Hcontent Hfuel Hr Hw.
  apply ContentUploadRunner_new_ok in Hself as [Hpos ->]; [|done].
  assert (Hd : delivers (mk_ContentUploadRunner chunk) intent gen fuel w).
  { destruct Hr as [[-> Hn]|(s & -> & Hs & Hn)].
    - replace fuel with (6 + Z.to_nat (upload_size intent) +
        (fuel - 6 - Z.to_nat (upload_size intent)))%nat by lia.
      apply delivers_intent with n; (done || lia).
    - replace fuel with (5 + Z.to_nat (upload_size intent) +
        (fuel - 5 - Z.to_nat (upload_size intent)))%nat by lia.
      apply delivers_uploading with s n; (done || lia). }
  destruct Hd as (w' & s & o & -> & (_ & Hd & Hrec) & Hs).
  split_and!; [done| |by exists s, o]. by rewrite Hrec, <-Hcontent, byte_slice_full.
Qed.
End delivered.
