(* ===== verification/UploadLog.v ===== *)
(** * An event-sourced upload store with a strict-offset backend

    A concrete implementation of the three upload ports: the journal keeps
    each intent with the record operations applied to it, the reader serves
    the bytes that index the world's type, and the backend appends exactly
    the chunk that continues what it has, reports a conflict otherwise, and
    commits once it has everything.  It meets the contracts of
    [UploadRunner.v], which the theorems about the runner are applied to
    here; the source leaves all three ports to the product. *)
From Stdlib Require Import Init.Byte.
From S2P Require Export UploadRunner.

Record UploadWorld (bytes : list byte) : Type := mk_UploadWorld {
  uw_records : gmap OperationId (ContentUploadIntent * list upload_op);
  uw_received : gmap OperationId (list byte);
  uw_generation : SessionGeneration;
  uw_calls : list upload_call;
}.
Arguments mk_UploadWorld {_}.
Arguments uw_records {_}.
Arguments uw_received {_}.
Arguments uw_generation {_}.
Arguments uw_calls {_}.

Section log.
Context {bytes : list byte}.
Local Abbreviation UploadWorld := (UploadWorld bytes).

Definition uw_record (w : UploadWorld) (op : OperationId) : option ContentUploadRecord :=
  match uw_records w !! op with
  | Some (intent, ops) =>
      if decide (in_u64 (upload_size intent))
      then Some (upload_run ops (ContentUploadRecord_persist intent)) else None
  | None => None
  end.

Definition uw_bytes (w : UploadWorld) (op : OperationId) : list byte :=
  default [] (uw_received w !! op).

Definition with_records (w : UploadWorld) m : UploadWorld :=
  mk_UploadWorld m (uw_received w) (uw_generation w) (uw_calls w).
Definition with_received (w : UploadWorld) m : UploadWorld :=
  mk_UploadWorld (uw_records w) m (uw_generation w) (uw_calls w).
Definition with_call (w : UploadWorld) (c : upload_call) : UploadWorld :=
  mk_UploadWorld (uw_records w) (uw_received w) (uw_generation w) (uw_calls w ++ [c]).

Definition uw_error {A} : result CloudFilesStoreError A :=
  Err (CloudFilesStoreError_new StoreConflict "upload").

Definition uw_persist (intent : ContentUploadIntent) (gen : SessionGeneration)
    : action UploadWorld CloudFilesStoreError StoreWriteStatus := λ w,
  if decide (gen ≠ uw_generation w) then (Ok WriteFenced, w)
  else if decide (in_u64 (upload_size intent)) then
    match uw_records w !! cu_operation_id intent with
    | Some (intent', _) =>
        if decide (intent = intent') then (Ok WriteAlreadyApplied, w) else (uw_error, w)
    | None =>
        (Ok WriteApplied,
         with_records w (<[cu_operation_id intent := (intent, [])]> (uw_records w)))
    end
  else (uw_error, w).

(** The logged operation of a transition; a session offset is unsigned. *)
Definition transition_op (t : upload_transition) : option upload_op :=
  match t with
  | TSession s =>
      if decide (0 ≤ upload_accepted_offset s)
      then Some (UOpSession (upload_session_id s) (Z.to_N (upload_accepted_offset s))) else None
  | TCommit => Some UOpCommit
  | TOutcome o => Some (UOpOutcome o)
  | TMetadata => Some UOpMetadata
  | TComplete => Some UOpComplete
  end.

Definition uw_step (t : upload_transition) (op : OperationId) (gen : SessionGeneration)
    : action UploadWorld CloudFilesStoreError StoreWriteStatus := λ w,
  match uw_records w !! op, uw_record w op, transition_op t with
  | Some (intent, ops), Some r, Some uop =>
      if decide (gen ≠ uw_generation w) then (Ok WriteFenced, w)
      else
        match (upload_apply uop r).1 with
        | Ok UApplied =>
            (Ok WriteApplied, with_records w (<[op := (intent, ops ++ [uop])]> (uw_records w)))
        | Ok UAlreadyApplied => (Ok WriteAlreadyApplied, w)
        | Ok UFenced => (Ok WriteFenced, w)
        | Err _ => (uw_error, w)
        end
  | _, _, _ => (uw_error, w)
  end.

#[export] Instance uw_store : ContentUploadStore UploadWorld := {
  persist_content_upload_intent := uw_persist;
  load_content_upload op := λ w, (Ok (uw_record w op), w);
  record_content_upload_session op session gen := uw_step (TSession session) op gen;
  begin_content_upload_remote_commit := uw_step TCommit;
  record_content_upload_remote_outcome op outcome gen := uw_step (TOutcome outcome) op gen;
  reconcile_content_upload_metadata := uw_step TMetadata;
  complete_content_upload := uw_step TComplete;
}.

#[export] Instance uw_reader : LocalContentSnapshotReader UploadWorld := {
  read_snapshot _ offset len := λ w, (Ok (byte_slice bytes offset (offset + len)), w);
}.

(** The item the commit reports: the uploaded file at its new revision. *)
Definition uw_item (i : ContentUploadIntent) : CloudItem :=
  mk_CloudItem (cache_key_item_key (cu_base_cache_key i)) (Some (mk_opaque "parent")) "name"
    FileKind (mk_opaque [x01])
    (Some (CloudContentMetadata_new (mk_opaque [x02]) None (upload_size i))).

Definition uw_chunk (i : ContentUploadIntent) (c : ContentUploadChunk)
    : action UploadWorld CloudBackendError ContentUploadChunkAck := λ w,
  let op := cu_operation_id i in
  if decide (chunk_offset c = byte_count (uw_bytes w op)) then
    (Ok (ContentUploadChunkAck_new (chunk_session_id c) (ContentUploadChunk_end_exclusive c)),
     with_received (with_call w (CallChunk i c))
       (<[op := uw_bytes w op ++ chunk_bytes c]> (uw_received w)))
  else (Err (CloudBackendError_new BackendConflict), with_call w (CallChunk i c)).

Definition uw_replay (i : ContentUploadIntent) (s : ContentUploadSession)
    (c : ContentUploadChunk) : action UploadWorld CloudBackendError ContentUploadChunkAck := λ w,
  let op := cu_operation_id i in
  let w' := with_call w (CallReconcileChunk i s c) in
  if decide (uw_bytes w op = byte_slice (uw_bytes w op) 0 (chunk_offset c) ++ chunk_bytes c) then
    (Ok (ContentUploadChunkAck_new (chunk_session_id c) (ContentUploadChunk_end_exclusive c)), w')
  else (Err (CloudBackendError_new BackendConflict), w').

#[export] Instance uw_backend : CloudContentUploadBackend UploadWorld := {
  start_upload i := λ w,
    (Ok (ContentUploadSession_new (mk_opaque "session")
           (byte_count (uw_bytes w (cu_operation_id i)))), with_call w (CallStart i));
  upload_chunk := uw_chunk;
  reconcile_upload_chunk := uw_replay;
  commit_upload i s := λ w,
    (Ok (if decide (uw_bytes w (cu_operation_id i) = bytes)
         then Committed (Some (uw_item i)) else RemoteOutcomeUnknown),
     with_call w (CallCommit i s));
  reconcile_upload i := λ w, (Ok RemoteOutcomeUnknown, with_call w (CallReconcile i));
}.

#[export] Instance uw_durability : UploadDurability UploadWorld := {
  durable_upload := uw_record;
  upload_calls := uw_calls;
}.

(** ** The contracts hold *)
Lemma uw_evolves_same (w w' : UploadWorld) :
  uw_records w' = uw_records w → upload_evolves w w'.
Proof. intros Hr op r Hd. exists []. cbn in *. unfold uw_record in *. by rewrite Hr. Qed.

Lemma uw_quiet (w : UploadWorld) : upload_step_calls [] w w.
Proof. split; [by apply uw_evolves_same|]. by rewrite app_nil_r. Qed.

Lemma uw_call c (w : UploadWorld) : upload_step_calls [c] w (with_call w c).
Proof. split; [by apply uw_evolves_same|done]. Qed.

Lemma upload_store_step_log t op gen :
  upload_store_step (W := UploadWorld) t op gen = uw_step t op gen.
Proof. by destruct t. Qed.

Lemma uw_append (w : UploadWorld) op intent ops uop r :
  uw_records w !! op = Some (intent, ops) → uw_record w op = Some r →
  uw_record (with_records w (<[op := (intent, ops ++ [uop])]> (uw_records w))) op =
    Some (upload_apply uop r).2.
Proof.
  unfold uw_record, with_records. intros -> Hr. cbn. rewrite lookup_insert_eq.
  case_decide; [|done]. injection Hr as <-. unfold upload_run. by rewrite foldl_app.
Qed.

Lemma uw_record_other (w : UploadWorld) op op' e :
  op ≠ op' → uw_record (with_records w (<[op := e]> (uw_records w))) op' = uw_record w op'.
Proof. intros Hne. unfold uw_record, with_records. cbn. by rewrite lookup_insert_ne. Qed.

Lemma uw_step_quiet t op gen (w : UploadWorld) : upload_step_calls [] w (uw_step t op gen w).2.
Proof.
  unfold uw_step. destruct (uw_records w !! op) as [[intent ops]|] eqn:Hl; [|apply uw_quiet].
  destruct (uw_record w op) as [r|] eqn:Hr; [|apply uw_quiet].
  destruct (transition_op t) as [uop|]; [|apply uw_quiet].
  case_decide; [apply uw_quiet|].
  destruct ((upload_apply uop r).1) as [[]|]; try apply uw_quiet.
  split; [|by cbn; rewrite app_nil_r]. intros op' r' Hr'.
  change (uw_record w op' = Some r') in Hr'. cbn [snd].
  change (durable_upload ?x op') with (uw_record x op').
  destruct (decide (op = op')) as [<-|Hne].
  - exists [uop]. simplify_eq. by erewrite uw_append.
  - exists []. by rewrite uw_record_other.
Qed.

Lemma uw_persist_effect i gen (w : UploadWorld) :
  let (res, w') := uw_persist i gen w in
  upload_step_calls [] w w' ∧
  (∀ status, res = Ok status → status ≠ WriteFenced →
     ∃ r, uw_record w' (cu_operation_id i) = Some r ∧ ur_intent r = i).
Proof.
  unfold uw_persist. case_decide; [split; [apply uw_quiet|by intros ? [= <-]]|].
  case_decide as Hu; [|split; [apply uw_quiet|done]].
  assert (Hint : ∀ ops, ur_intent (upload_run ops (ContentUploadRecord_persist i)) = i).
  { intros ops. apply (extends_intent _ _ (upload_run_extends ops (ContentUploadRecord_persist i)
      (conj (proj1 Hu) (conj eq_refl eq_refl)))). }
  destruct (uw_records w !! _) as [[i' ops]|] eqn:Hl.
  - case_decide as Heq; (split; [apply uw_quiet|]); [|done]. subst i'. intros _ _ _.
    eexists. split; [|apply (Hint ops)]. unfold uw_record. by rewrite Hl, decide_True.
  - split.
    + split; [|by cbn; rewrite app_nil_r]. intros op' r' Hr'. exists [].
      change (uw_record w op' = Some r') in Hr'.
      change (durable_upload ?x op') with (uw_record x op').
      destruct (decide (cu_operation_id i = op')) as [<-|Hne].
      * unfold uw_record in Hr'. by rewrite Hl in Hr'.
      * by rewrite uw_record_other.
    + intros _ _ _. exists (ContentUploadRecord_persist i). split; [|done].
      unfold uw_record, with_records. cbn. by rewrite lookup_insert_eq, decide_True.
Qed.

#[export] Instance uw_port_laws : UploadPortLaws UploadWorld.
Proof.
  split.
  - intros w op r. cbn. unfold uw_record. destruct (uw_records w !! op) as [[i ops]|]; [|done].
    case_decide; [|done]. intros [= <-]. by exists i, ops.
  - by intros op w o w' [= <- <-].
  - intros. apply uw_quiet.
  - intros. rewrite upload_store_step_log. apply uw_step_quiet.
  - apply uw_persist_effect.
  - intros. apply uw_quiet.
  - intros. apply uw_call.
  - intros i c w. cbn. unfold uw_chunk. case_decide; [|apply uw_call].
    split; [by apply uw_evolves_same|done].
  - intros i s c w. cbn. unfold uw_replay. case_decide; apply uw_call.
  - intros. apply uw_call.
  - intros. apply uw_call.
Qed.

Lemma uw_step_alone t op gen (w : UploadWorld) r r' :
  transition_unsigned t → gen = uw_generation w → uw_record w op = Some r →
  upload_transition_apply t r = (Ok UApplied, r') →
  ∃ w', uw_step t op gen w = (Ok WriteApplied, w') ∧ uw_generation w' = uw_generation w ∧
    uw_record w' op = Some r' ∧ uw_bytes w' op = uw_bytes w op.
Proof.
  intros Ht -> Hr Ha. unfold uw_step. rewrite Hr.
  destruct (uw_records w !! op) as [[intent ops]|] eqn:Hl;
    [|unfold uw_record in Hr; by rewrite Hl in Hr].
  assert (Hop : ∃ uop, transition_op t = Some uop ∧ upload_apply uop r = (Ok UApplied, r')).
  { destruct t as [s| | | |]; cbn in *; [|by eexists..]. rewrite decide_True by done.
    eexists. split; [done|]. cbn. rewrite Z2N.id by done. by destruct s. }
  destruct Hop as (uop & -> & Hu). rewrite Hu, decide_False by auto. cbn.
  eexists. split_and!; [done|done| |done]. erewrite uw_append by done. by rewrite Hu.
Qed.

#[export, refine] Instance uw_exclusive : UploadExclusive UploadWorld := {
  upload_active w _ gen := bool_decide (gen = uw_generation w);
  snapshot_content _ := bytes;
  received := uw_bytes;
}.
Proof.
  - done.
  - intros t op gen w r r' Ht Hact Hr Ha. apply bool_decide_eq_true_1 in Hact.
    rewrite upload_store_step_log.
    destruct (uw_step_alone t op gen w r r') as (w' & Hs & Hg & Hr' & Hb); [done..|].
    exists w'. split_and!; [done| |done|done]. apply bool_decide_eq_true_2. congruence.
  - done.
  - intros. by eexists _, _.
  - intros i c gen w Hoff. cbn. unfold uw_chunk. rewrite decide_True by done.
    eexists. split_and!; [done|done|done|]. unfold uw_bytes at 1, with_received. cbn.
    by rewrite lookup_insert_eq.
  - intros i s c gen pre w Hb Hoff Hne. cbn. unfold uw_chunk.
    assert (Hcount : byte_count (uw_bytes w (cu_operation_id i)) =
                     byte_count pre + byte_count (chunk_bytes c)).
    { by rewrite Hb, byte_count_app. }
    pose proof (byte_count_nonempty _ Hne). rewrite decide_False by lia.
    exists (CloudBackendError_new BackendConflict), (with_call w (CallChunk i c)),
      (with_call (with_call w (CallChunk i c)) (CallReconcileChunk i s c)).
    split_and!; [done|done| |done|done|done].
    unfold uw_replay.
    change (uw_bytes (with_call w (CallChunk i c)) (cu_operation_id i))
      with (uw_bytes w (cu_operation_id i)).
    rewrite decide_True; [reflexivity|]. rewrite Hb at 1. f_equal.
    rewrite Hb, Hoff. unfold byte_slice, byte_count. cbn.
    rewrite drop_0, Z.sub_0_r, Nat2Z.id. by rewrite take_app_length.
  - intros i s gen w Hc Hrec. cbn. rewrite decide_True by done.
    eexists _, _. split_and!; try done. eexists _, _. by split_and!.
Defined.
End log.

(** ** The runner's theorems at this implementation *)
Definition sample_bytes : list byte := [x01; x02; x03; x04; x05].

(** Two of the five bytes are checkpointed; the backend already has four. *)
Definition sample_upload_record : ContentUploadRecord :=
  mk_ContentUploadRecord sample_upload_intent UUploading
    (Some (ContentUploadSession_new (mk_opaque "session") 2)) None.

Definition sample_upload_world : UploadWorld sample_bytes :=
  mk_UploadWorld
    {[ mk_opaque "op" := (sample_upload_intent, [UOpSession (mk_opaque "session") 2]) ]}
    {[ mk_opaque "op" := [x01; x02; x03; x04] ]} (mk_SessionGeneration 1) [].

Lemma sample_upload_durable :
  durable_upload sample_upload_world (mk_opaque "op") = Some sample_upload_record.
Proof. reflexivity. Qed.

Example upload_runner_safety_witness :
  durable_upload sample_upload_world (mk_opaque "op") = Some sample_upload_record ∧
  let '(res, w') :=
    ContentUploadRunner_resume 12 (mk_ContentUploadRunner 2) (mk_opaque "op")
      (mk_SessionGeneration 1) sample_upload_world in
  res ≠ Ok None ∧
  ∃ calls, upload_calls w' = upload_calls sample_upload_world ++ calls ∧
    upload_trace sample_upload_intent 2 3 calls ∧
    (length (List.filter is_commit calls) ≤ 1)%nat.
Proof.
  split; [exact sample_upload_durable|].
  pose proof (upload_runner_safety 12 2 (mk_ContentUploadRunner 2) (mk_opaque "op")
    (mk_SessionGeneration 1) sample_upload_record sample_upload_intent sample_upload_world
    ltac:(lia) eq_refl sample_upload_durable ltac:(cbn; lia) ltac:(cbn; lia)) as H.
  destruct (ContentUploadRunner_resume _ _ _ _ sample_upload_world) as [res w'].
  destruct (ContentUploadRunner_submit _ _ _ _ sample_upload_world) as [sres sw'].
  destruct H as (H1 & _ & H2 & _). split; [exact H1|exact H2].
Defined.

Example upload_runner_delivers_witness :
  backend_holds (mk_ContentUploadRunner 2) sample_upload_intent 2 4 ∧
  let '(res, w') :=
    ContentUploadRunner_resume 12 (mk_ContentUploadRunner 2) (mk_opaque "op")
      (mk_SessionGeneration 1) sample_upload_world in
  res = Ok (Some UploadCompleted) ∧ received w' (mk_opaque "op") = sample_bytes.
Proof.
  assert (Hn : backend_holds (mk_ContentUploadRunner 2) sample_upload_intent 2 4) by by right.
  assert (Hs : 0 ≤ 2 ≤ upload_size sample_upload_intent) by (vm_compute; split; discriminate).
  split; [exact Hn|].
  assert (Halone : alone sample_upload_intent (mk_SessionGeneration 1) sample_upload_record 4
            sample_upload_world) by (split_and!; reflexivity).
  pose proof (upload_runner_delivers 12 2 (mk_ContentUploadRunner 2) (mk_SessionGeneration 1)
    sample_upload_intent sample_upload_record 4 sample_upload_world
    ltac:(lia) eq_refl ltac:(cbn; width) eq_refl ltac:(cbn; lia)
    (or_intror (ex_intro _ (ContentUploadSession_new (mk_opaque "session") 2) (conj eq_refl (conj Hs Hn)))) Halone) as H.
  change (cu_operation_id sample_upload_intent) with (@mk_opaque KOperationId string "op") in H.
  destruct (ContentUploadRunner_resume _ _ _ _ sample_upload_world) as [res w'].
  destruct H as (H1 & H2 & _). split; [exact H1|exact H2].
Defined.
