(* ===== verification/Capabilities.v ===== *)
(** * Capability negotiation

    [capabilities.rs]: what a backend, a platform and a product host can do,
    and the intersection that computes what they can do together. *)
From S2P Require Export Errors.

(** ** Alignments: positive [u64] byte counts *)
Record Alignment : Type := mk_Alignment { alignment_get : Z }.

#[export] Instance Alignment_eq_dec : EqDecision Alignment.
Proof. solve_decision. Defined.
#[export] Program Instance Alignment_countable : Countable Alignment :=
  inj_countable' alignment_get mk_Alignment _.
Next Obligation. by intros []. Qed.

Definition Alignment_ONE : Alignment := mk_Alignment 1.

Definition Alignment_new (bytes : Z) : option Alignment :=
  if decide (bytes = 0) then None else Some (mk_Alignment bytes).

Definition Alignment_wf (a : Alignment) : Prop := 0 < alignment_get a ≤ U64_MAX.

(** The [while] loop, at most [fuel] turns; [gcd_fuel] turns are enough for
    every [u64], because two turns at least halve [right]. *)
Fixpoint gcd_loop (fuel : nat) (left right : Z) : Z :=
  match fuel with
  | O => left
  | S fuel =>
      if decide (right ≠ 0) then gcd_loop fuel right (left mod right) else left
  end.

Definition gcd_fuel : nat := 129.
Definition greatest_common_divisor (left right : Z) : Z := gcd_loop gcd_fuel left right.

Definition Alignment_intersection (self other : Alignment) : core_result Alignment :=
  let divisor := greatest_common_divisor (alignment_get self) (alignment_get other) in
  let left := alignment_get self / divisor in
  match checked_mul U64_MAX left (alignment_get other) with
  | None => Err (AlignmentIntersectionOverflow (alignment_get self) (alignment_get other))
  | Some bytes => Ok (mk_Alignment bytes)
  end.

(** ** Independent guarantees *)
Record IdentityCapabilities : Type := mk_IdentityCapabilities {
  stable_item_ids : bool;
  path_independent_item_ids : bool;
  same_root_move_preserves_identity : bool;
  cross_root_move_preserves_identity : bool;
}.

Definition IdentityCapabilities_intersection (self other : IdentityCapabilities) :=
  mk_IdentityCapabilities
    (stable_item_ids self && stable_item_ids other)
    (path_independent_item_ids self && path_independent_item_ids other)
    (same_root_move_preserves_identity self && same_root_move_preserves_identity other)
    (cross_root_move_preserves_identity self && cross_root_move_preserves_identity other).

Definition IdentityCapabilities_validate_core_requirements (self : IdentityCapabilities)
    : core_result unit :=
  if negb (stable_item_ids self) then Err (MissingRequiredCapability "stable_item_ids")
  else if negb (path_independent_item_ids self) then
    Err (MissingRequiredCapability "path_independent_item_ids")
  else if negb (same_root_move_preserves_identity self) then
    Err (MissingRequiredCapability "same_root_move_preserves_identity")
  else Ok ().

Record RevisionCapabilities : Type := mk_RevisionCapabilities {
  separate_metadata_and_content : bool;
  conditional_metadata_mutation : bool;
  conditional_content_access : bool;
}.

Definition RevisionCapabilities_intersection (self other : RevisionCapabilities) :=
  mk_RevisionCapabilities
    (separate_metadata_and_content self && separate_metadata_and_content other)
    (conditional_metadata_mutation self && conditional_metadata_mutation other)
    (conditional_content_access self && conditional_content_access other).

Record EnumerationCapabilities : Type := mk_EnumerationCapabilities {
  enumeration_paged : bool;
  stable_snapshot : bool;
}.

Definition EnumerationCapabilities_intersection (self other : EnumerationCapabilities) :=
  mk_EnumerationCapabilities
    (enumeration_paged self && enumeration_paged other)
    (stable_snapshot self && stable_snapshot other).

Record AnchoredChangeCapabilities : Type := mk_AnchoredChangeCapabilities {
  cursor_reset : bool;
  tombstones : bool;
}.

Definition AnchoredChangeCapabilities_intersection (self other : AnchoredChangeCapabilities) :=
  mk_AnchoredChangeCapabilities
    (cursor_reset self && cursor_reset other) (tombstones self && tombstones other).

Record ChangeCapabilities : Type := mk_ChangeCapabilities {
  anchored : option AnchoredChangeCapabilities;
  snapshot_diff : bool;
  external_invalidation : bool;
}.

Definition ChangeCapabilities_intersection (self other : ChangeCapabilities) :=
  mk_ChangeCapabilities
    (match anchored self, anchored other with
     | Some a, Some b => Some (AnchoredChangeCapabilities_intersection a b)
     | _, _ => None
     end)
    (snapshot_diff self && snapshot_diff other)
    (external_invalidation self && external_invalidation other).

(** ** Hydration strategies *)
Record RangeHydrationCapabilities : Type := mk_RangeHydrationCapabilities {
  range_alignment : Alignment;
  partial_cancel : bool;
}.

Definition RangeHydrationCapabilities_intersection (self other : RangeHydrationCapabilities)
    : core_result RangeHydrationCapabilities :=
  alignment ← Alignment_intersection (range_alignment self) (range_alignment other);
  Ok (mk_RangeHydrationCapabilities alignment (partial_cancel self && partial_cancel other)).

Record HydrationCapabilities : Type := mk_HydrationCapabilities {
  whole_file : bool;
  hydration_range : option RangeHydrationCapabilities;
  progressive_range : option RangeHydrationCapabilities;
  incremental_from_existing : bool;
}.

(** [match (left, right) { (Some, Some) => Some(left.intersection(right)?), _ => None }] *)
Definition intersect_ranges (ours theirs : option RangeHydrationCapabilities)
    : core_result (option RangeHydrationCapabilities) :=
  match ours, theirs with
  | Some a, Some b => Some <$> RangeHydrationCapabilities_intersection a b
  | _, _ => Ok None
  end.

Definition HydrationCapabilities_intersection (self other : HydrationCapabilities)
    : core_result HydrationCapabilities :=
  range ← intersect_ranges (hydration_range self) (hydration_range other);
  progressive ← intersect_ranges (progressive_range self) (progressive_range other);
  Ok (mk_HydrationCapabilities (whole_file self && whole_file other) range progressive
        (incremental_from_existing self && incremental_from_existing other)).

Record MutationCapabilities : Type := mk_MutationCapabilities {
  can_create : bool;
  can_modify_metadata : bool;
  can_modify_content : bool;
  can_delete : bool;
  atomic_move : bool;
  cross_root_move : bool;
  resumable_upload : bool;
}.

Definition MutationCapabilities_intersection (self other : MutationCapabilities) :=
  mk_MutationCapabilities
    (can_create self && can_create other)
    (can_modify_metadata self && can_modify_metadata other)
    (can_modify_content self && can_modify_content other)
    (can_delete self && can_delete other)
    (atomic_move self && atomic_move other)
    (cross_root_move self && cross_root_move other)
    (resumable_upload self && resumable_upload other).

Record ContentStorageModes : Type := mk_ContentStorageModes {
  platform_managed : bool;
  provider_managed : bool;
  hybrid : bool;
}.

Definition ContentStorageModes_intersection (self other : ContentStorageModes) :=
  mk_ContentStorageModes
    (platform_managed self && platform_managed other)
    (provider_managed self && provider_managed other)
    (hybrid self && hybrid other).

Definition ContentStorageModes_is_supported (self : ContentStorageModes) : bool :=
  platform_managed self || provider_managed self || hybrid self.

Record MaterializationCapabilities : Type := mk_MaterializationCapabilities {
  storage_modes : ContentStorageModes;
}.

Definition MaterializationCapabilities_intersection (self other : MaterializationCapabilities) :=
  mk_MaterializationCapabilities
    (ContentStorageModes_intersection (storage_modes self) (storage_modes other)).

(** ** Eviction: no guarantee without support *)
Record EvictionCapabilities : Type := mk_EvictionCapabilities {
  eviction_supported : bool;
  pinning : bool;
  dirty_guard : bool;
  open_lease_guard : bool;
}.

Definition EvictionCapabilities_intersection (self other : EvictionCapabilities) :=
  let supported := eviction_supported self && eviction_supported other in
  mk_EvictionCapabilities supported
    (supported && pinning self && pinning other)
    (supported && dirty_guard self && dirty_guard other)
    (supported && open_lease_guard self && open_lease_guard other).

(** ** Cancellation, naming and limits *)
Inductive CancellationLevel : Type :=
  | CancelNone | BestEffortRequest | ExactRequest | RangeSubset.

(** The derived order of the enum. *)
Definition cancellation_rank (l : CancellationLevel) : Z :=
  match l with
  | CancelNone => 0 | BestEffortRequest => 1 | ExactRequest => 2 | RangeSubset => 3
  end.

Definition CancellationLevel_intersection (self other : CancellationLevel) : CancellationLevel :=
  if decide (cancellation_rank other < cancellation_rank self) then other else self.

Record NamingCapabilities : Type := mk_NamingCapabilities {
  case_sensitive : bool;
  case_preserving : bool;
  normalization_preserving : bool;
}.

Definition NamingCapabilities_intersection (self other : NamingCapabilities) :=
  mk_NamingCapabilities
    (case_sensitive self && case_sensitive other)
    (case_preserving self && case_preserving other)
    (normalization_preserving self && normalization_preserving other).

(** A [NonZeroUsize] limit is its value. *)
Record CloudFilesLimits : Type := mk_CloudFilesLimits {
  native_identity_max_bytes : option Z;
  max_transfer_chunk : option Z;
  max_in_flight_requests : option Z;
  directory_page_size_hint : option Z;
  name_max_encoded_bytes : option Z;
}.

Definition minimum_optional_limit (ours theirs : option Z) : option Z :=
  match ours, theirs with
  | Some a, Some b => Some (Z.min a b)
  | Some limit, None | None, Some limit => Some limit
  | None, None => None
  end.

Definition CloudFilesLimits_intersection (self other : CloudFilesLimits) :=
  mk_CloudFilesLimits
    (minimum_optional_limit (native_identity_max_bytes self) (native_identity_max_bytes other))
    (minimum_optional_limit (max_transfer_chunk self) (max_transfer_chunk other))
    (minimum_optional_limit (max_in_flight_requests self) (max_in_flight_requests other))
    (minimum_optional_limit (directory_page_size_hint self) (directory_page_size_hint other))
    (minimum_optional_limit (name_max_encoded_bytes self) (name_max_encoded_bytes other)).

Definition CloudFilesLimits_validate_native_identity (self : CloudFilesLimits)
    (encoded : list byte) : core_result unit :=
  match native_identity_max_bytes self with
  | None => Ok ()
  | Some max_bytes =>
      if decide (byte_count encoded > max_bytes) then
        Err (NativeIdentityTooLarge (byte_count encoded) max_bytes)
      else Ok ()
  end.

(** ** The complete description *)
Record CloudFilesCapabilities : Type := mk_CloudFilesCapabilities {
  caps_identity : IdentityCapabilities;
  caps_revisions : RevisionCapabilities;
  caps_enumeration : EnumerationCapabilities;
  caps_changes : ChangeCapabilities;
  caps_hydration : HydrationCapabilities;
  caps_mutations : MutationCapabilities;
  caps_materialization : MaterializationCapabilities;
  caps_eviction : EvictionCapabilities;
  caps_cancellation : CancellationLevel;
  caps_naming : NamingCapabilities;
  caps_limits : CloudFilesLimits;
}.

Definition CloudFilesCapabilities_unconstrained : CloudFilesCapabilities :=
  let unconstrained_range := mk_RangeHydrationCapabilities Alignment_ONE true in
  mk_CloudFilesCapabilities
    (mk_IdentityCapabilities true true true true)
    (mk_RevisionCapabilities true true true)
    (mk_EnumerationCapabilities true true)
    (mk_ChangeCapabilities (Some (mk_AnchoredChangeCapabilities true true)) true true)
    (mk_HydrationCapabilities true (Some unconstrained_range) (Some unconstrained_range) true)
    (mk_MutationCapabilities true true true true true true true)
    (mk_MaterializationCapabilities (mk_ContentStorageModes true true true))
    (mk_EvictionCapabilities true true true true)
    RangeSubset
    (mk_NamingCapabilities true true true)
    (mk_CloudFilesLimits None None None None None).

Definition CloudFilesCapabilities_intersection (self other : CloudFilesCapabilities)
    : core_result CloudFilesCapabilities :=
  hydration ← HydrationCapabilities_intersection (caps_hydration self) (caps_hydration other);
  Ok (mk_CloudFilesCapabilities
    (IdentityCapabilities_intersection (caps_identity self) (caps_identity other))
    (RevisionCapabilities_intersection (caps_revisions self) (caps_revisions other))
    (EnumerationCapabilities_intersection (caps_enumeration self) (caps_enumeration other))
    (ChangeCapabilities_intersection (caps_changes self) (caps_changes other))
    hydration
    (MutationCapabilities_intersection (caps_mutations self) (caps_mutations other))
    (MaterializationCapabilities_intersection
       (caps_materialization self) (caps_materialization other))
    (EvictionCapabilities_intersection (caps_eviction self) (caps_eviction other))
    (CancellationLevel_intersection (caps_cancellation self) (caps_cancellation other))
    (NamingCapabilities_intersection (caps_naming self) (caps_naming other))
    (CloudFilesLimits_intersection (caps_limits self) (caps_limits other))).

Definition CloudFilesCapabilities_validate_core_requirements (self : CloudFilesCapabilities)
    : core_result unit :=
  IdentityCapabilities_validate_core_requirements (caps_identity self).
#[global] Arguments greatest_common_divisor : simpl never.
#[global] Arguments checked_mul : simpl never.

(** ** Alignments combine to their least common multiple *)
Lemma gcd_loop_spec fuel : ∀ k a b,
  (2 * k < fuel)%nat → 0 ≤ a → 0 ≤ b < 2 ^ Z.of_nat k → gcd_loop fuel a b = Z.gcd a b.
Proof.
  induction fuel as [fuel IH] using lt_wf_ind. intros k a b Hk Ha Hb.
  destruct fuel as [|fuel]; [lia|]. cbn. case_decide as Hb0.
  - destruct k as [|k]; [cbn in Hb; lia|].
    destruct fuel as [|fuel]; [lia|]. cbn. rewrite (Z.gcd_comm a b), <-(Z.gcd_mod a b) by done.
    pose proof (Z.mod_pos_bound a b ltac:(lia)) as Hr.
    case_decide as Hr0; [|by rewrite Hr0, Z.gcd_0_l, Z.abs_eq by lia].
    pose proof (Z.mod_pos_bound b (a mod b) ltac:(lia)) as Hq.
    rewrite (IH fuel ltac:(lia) k); [|lia|lia|].
    + by rewrite Z.gcd_comm, Z.gcd_mod by lia.
    + assert (2 * (b mod (a mod b)) < b); [|rewrite Nat2Z.inj_succ, Z.pow_succ_r in Hb; lia].
      pose proof (Z.div_mod b (a mod b) ltac:(lia)).
      assert (1 ≤ b `div` (a mod b)) by (apply Z.div_le_lower_bound; lia). nia.
  - by rewrite Hb0, Z.gcd_0_r, Z.abs_eq.
Qed.

Lemma greatest_common_divisor_eq a b :
  0 ≤ a → in_u64 b → greatest_common_divisor a b = Z.gcd a b.
Proof.
  intros Ha Hb. apply (gcd_loop_spec gcd_fuel 64); [unfold gcd_fuel; lia|done|]. unfold in_u64, U64_MAX in Hb. cbn. lia.
Qed.

Lemma Alignment_intersection_eq a b :
  Alignment_wf a → Alignment_wf b →
  Alignment_intersection a b =
    let l := Z.lcm (alignment_get a) (alignment_get b) in
    if decide (l ≤ U64_MAX) then Ok (mk_Alignment l)
    else Err (AlignmentIntersectionOverflow (alignment_get a) (alignment_get b)).
Proof.
  destruct a as [a], b as [b]. unfold Alignment_wf. cbn. intros Ha Hb.
  unfold Alignment_intersection. cbn. rewrite greatest_common_divisor_eq by (unfold in_u64; lia).
  assert (Hl : a / Z.gcd a b * b = Z.lcm a b).
  { pose proof (Z.gcd_nonneg a b) as Hg0.
    assert (Hg : Z.gcd a b ≠ 0) by (intros Hg; apply Z.gcd_eq_0_l in Hg; lia).
    destruct (Z.gcd_divide_l a b) as [a' Ha']. destruct (Z.gcd_divide_r a b) as [b' Hb'].
    unfold Z.lcm. set (g := Z.gcd a b) in *. clearbody g.
    assert (a / g = a') as -> by (rewrite Ha'; by apply Z.div_mul).
    assert (b / g = b') as -> by (rewrite Hb'; by apply Z.div_mul).
    rewrite Z.abs_eq by nia. rewrite Ha', Hb'. ring. }
  unfold checked_mul. rewrite Hl. by case_decide.
Qed.

Lemma lcm_pos a b : 0 < a → 0 < b → 0 < Z.lcm a b.
Proof.
  intros. pose proof (Z.lcm_nonneg a b).
  assert (Z.lcm a b ≠ 0) by (rewrite Z.lcm_eq_0; lia). lia.
Qed.

Lemma Alignment_intersection_wf a b c :
  Alignment_wf a → Alignment_wf b → Alignment_intersection a b = Ok c → Alignment_wf c.
Proof.
  intros Ha Hb. rewrite Alignment_intersection_eq by done. cbn. case_decide; [|done].
  intros [= <-]. split; [|done]. cbn. unfold Alignment_wf in *. apply lcm_pos; lia.
Qed.

(** ** Orders: what one description guarantees beyond another

    [cap_le a b]: every guarantee of [a] is one of [b], and every constraint
    of [b] one of [a]. *)
Class CapOrder (A : Type) := cap_le : A → A → Prop.

#[export] Instance bool_order : CapOrder bool := λ x y, x = true → y = true.
#[export] Instance option_order `{CapOrder A} : CapOrder (option A) := λ x y,
  match x, y with Some a, Some b => cap_le a b | None, _ => True | Some _, None => False end.
#[export] Instance alignment_order : CapOrder Alignment := λ a b,
  (alignment_get b | alignment_get a).
#[export] Instance level_order : CapOrder CancellationLevel := λ a b,
  cancellation_rank a ≤ cancellation_rank b.
#[export] Instance identity_order : CapOrder IdentityCapabilities := λ a b,
  cap_le (stable_item_ids a) (stable_item_ids b) ∧
  cap_le (path_independent_item_ids a) (path_independent_item_ids b) ∧
  cap_le (same_root_move_preserves_identity a) (same_root_move_preserves_identity b) ∧
  cap_le (cross_root_move_preserves_identity a) (cross_root_move_preserves_identity b).
#[export] Instance revision_order : CapOrder RevisionCapabilities := λ a b,
  cap_le (separate_metadata_and_content a) (separate_metadata_and_content b) ∧
  cap_le (conditional_metadata_mutation a) (conditional_metadata_mutation b) ∧
  cap_le (conditional_content_access a) (conditional_content_access b).
#[export] Instance enumeration_order : CapOrder EnumerationCapabilities := λ a b,
  cap_le (enumeration_paged a) (enumeration_paged b) ∧
  cap_le (stable_snapshot a) (stable_snapshot b).
#[export] Instance anchored_order : CapOrder AnchoredChangeCapabilities := λ a b,
  cap_le (cursor_reset a) (cursor_reset b) ∧ cap_le (tombstones a) (tombstones b).
#[export] Instance change_order : CapOrder ChangeCapabilities := λ a b,
  cap_le (anchored a) (anchored b) ∧ cap_le (snapshot_diff a) (snapshot_diff b) ∧
  cap_le (external_invalidation a) (external_invalidation b).
#[export] Instance range_order : CapOrder RangeHydrationCapabilities := λ a b,
  cap_le (range_alignment a) (range_alignment b) ∧ cap_le (partial_cancel a) (partial_cancel b).
#[export] Instance hydration_order : CapOrder HydrationCapabilities := λ a b,
  cap_le (whole_file a) (whole_file b) ∧ cap_le (hydration_range a) (hydration_range b) ∧
  cap_le (progressive_range a) (progressive_range b) ∧
  cap_le (incremental_from_existing a) (incremental_from_existing b).
#[export] Instance mutation_order : CapOrder MutationCapabilities := λ a b,
  cap_le (can_create a) (can_create b) ∧
  cap_le (can_modify_metadata a) (can_modify_metadata b) ∧
  cap_le (can_modify_content a) (can_modify_content b) ∧
  cap_le (can_delete a) (can_delete b) ∧ cap_le (atomic_move a) (atomic_move b) ∧
  cap_le (cross_root_move a) (cross_root_move b) ∧
  cap_le (resumable_upload a) (resumable_upload b).
#[export] Instance materialization_order : CapOrder MaterializationCapabilities := λ a b,
  cap_le (platform_managed (storage_modes a)) (platform_managed (storage_modes b)) ∧
  cap_le (provider_managed (storage_modes a)) (provider_managed (storage_modes b)) ∧
  cap_le (hybrid (storage_modes a)) (hybrid (storage_modes b)).
#[export] Instance eviction_order : CapOrder EvictionCapabilities := λ a b,
  cap_le (eviction_supported a) (eviction_supported b) ∧ cap_le (pinning a) (pinning b) ∧
  cap_le (dirty_guard a) (dirty_guard b) ∧ cap_le (open_lease_guard a) (open_lease_guard b).
#[export] Instance naming_order : CapOrder NamingCapabilities := λ a b,
  cap_le (case_sensitive a) (case_sensitive b) ∧ cap_le (case_preserving a) (case_preserving b) ∧
  cap_le (normalization_preserving a) (normalization_preserving b).

(** The tighter limit is below; no limit is above every limit. *)
Definition limit_le (x y : option Z) : Prop :=
  match x, y with
  | _, None => True
  | Some a, Some b => a ≤ b
  | None, Some _ => False
  end.
#[export] Instance limits_order : CapOrder CloudFilesLimits := λ a b,
  limit_le (native_identity_max_bytes a) (native_identity_max_bytes b) ∧
  limit_le (max_transfer_chunk a) (max_transfer_chunk b) ∧
  limit_le (max_in_flight_requests a) (max_in_flight_requests b) ∧
  limit_le (directory_page_size_hint a) (directory_page_size_hint b) ∧
  limit_le (name_max_encoded_bytes a) (name_max_encoded_bytes b).
#[export] Instance caps_order : CapOrder CloudFilesCapabilities := λ a b,
  cap_le (caps_identity a) (caps_identity b) ∧ cap_le (caps_revisions a) (caps_revisions b) ∧
  cap_le (caps_enumeration a) (caps_enumeration b) ∧ cap_le (caps_changes a) (caps_changes b) ∧
  cap_le (caps_hydration a) (caps_hydration b) ∧ cap_le (caps_mutations a) (caps_mutations b) ∧
  cap_le (caps_materialization a) (caps_materialization b) ∧
  cap_le (caps_eviction a) (caps_eviction b) ∧
  cap_le (caps_cancellation a) (caps_cancellation b) ∧
  cap_le (caps_naming a) (caps_naming b) ∧ cap_le (caps_limits a) (caps_limits b).

(** [m] is the greatest description below [a] and [b] among those that [ok]
    admits. *)
Definition is_meet {A} `{CapOrder A} (ok : A → Prop) (a b m : A) : Prop :=
  cap_le m a ∧ cap_le m b ∧ ok m ∧ ∀ d, ok d → cap_le d a → cap_le d b → cap_le d m.

Abbreviation any := (λ _, True).

Lemma bool_meet (x y : bool) : is_meet any x y (x && y).
Proof. destruct x, y; split_and!; try done; intros []; cbn; auto. Qed.

(** Breaks records and conjunctions of booleans. *)
Ltac guarantees :=
  unfold is_meet, cap_le, bool_order, level_order in *; cbn;
  repeat match goal with
  | |- _ ∧ _ => split
  | |- _ → _ => intro
  | |- ∀ _, _ => intro
  | H : _ ∧ _ |- _ => destruct H
  | H : _ && _ = true |- _ => apply andb_true_iff in H
  | |- _ && _ = true => apply andb_true_iff
  end; auto.

Lemma identity_meet a b : is_meet any a b (IdentityCapabilities_intersection a b).
Proof. unfold is_meet, cap_le, identity_order. guarantees. Qed.
Lemma revision_meet a b : is_meet any a b (RevisionCapabilities_intersection a b).
Proof. unfold is_meet, cap_le, revision_order. guarantees. Qed.
Lemma enumeration_meet a b : is_meet any a b (EnumerationCapabilities_intersection a b).
Proof. unfold is_meet, cap_le, enumeration_order. guarantees. Qed.
Lemma anchored_meet a b : is_meet any a b (AnchoredChangeCapabilities_intersection a b).
Proof. unfold is_meet, cap_le, anchored_order. guarantees. Qed.
Lemma mutation_meet a b : is_meet any a b (MutationCapabilities_intersection a b).
Proof. unfold is_meet, cap_le, mutation_order. guarantees. Qed.
Lemma materialization_meet a b : is_meet any a b (MaterializationCapabilities_intersection a b).
Proof. unfold is_meet, cap_le, materialization_order. guarantees. Qed.
Lemma naming_meet a b : is_meet any a b (NamingCapabilities_intersection a b).
Proof. unfold is_meet, cap_le, naming_order. guarantees. Qed.

Lemma change_meet a b : is_meet any a b (ChangeCapabilities_intersection a b).
Proof.
  pose proof (λ x y, anchored_meet x y) as Hm.
  destruct a as [x ? ?], b as [y ? ?].
  unfold is_meet, cap_le, change_order, cap_le, option_order in *; cbn in *.
  destruct x as [x|], y as [y|]; split_and!; try (by guarantees); try apply Hm.
  all: intros [[z|] ? ?]; guarantees; try (by apply Hm).
Qed.

(** Without support an eviction description guarantees nothing. *)
Definition eviction_normal (e : EvictionCapabilities) : Prop :=
  eviction_supported e = true ∨
  (pinning e = false ∧ dirty_guard e = false ∧ open_lease_guard e = false).

Lemma eviction_meet a b : is_meet eviction_normal a b (EvictionCapabilities_intersection a b).
Proof.
  destruct a as [[] ? ? ?], b as [[] ? ? ?];
    unfold is_meet, cap_le, eviction_order, cap_le, bool_order, eviction_normal; cbn.
  1: split_and!; try (by guarantees); auto.
  all: split_and!; try done; auto; intros [[] [] [] []]; cbn; naive_solver.
Qed.

Lemma cancellation_meet a b : is_meet any a b (CancellationLevel_intersection a b).
Proof.
  unfold is_meet, cap_le, level_order, CancellationLevel_intersection.
  case_decide; split_and!; try done; lia.
Qed.

Lemma limit_meet x y :
  limit_le (minimum_optional_limit x y) x ∧ limit_le (minimum_optional_limit x y) y ∧
  ∀ d, limit_le d x → limit_le d y → limit_le d (minimum_optional_limit x y).
Proof. destruct x, y; cbn; split_and!; try done; try lia; intros [d|]; cbn; lia || done. Qed.

Lemma limits_meet a b : is_meet any a b (CloudFilesLimits_intersection a b).
Proof.
  unfold is_meet, cap_le, limits_order. cbn.
  split_and!; try apply limit_meet; [done|].
  intros d _ Ha Hb. split_and!; apply limit_meet; tauto.
Qed.

Definition range_wf (r : RangeHydrationCapabilities) : Prop := Alignment_wf (range_alignment r).

Lemma range_meet a b c :
  range_wf a → range_wf b → RangeHydrationCapabilities_intersection a b = Ok c →
  range_wf c ∧ is_meet any a b c.
Proof.
  intros Ha Hb Hc. unfold RangeHydrationCapabilities_intersection in Hc.
  apply result_bind_ok in Hc as (al & Hal & [= <-]).
  split; [exact (Alignment_intersection_wf _ _ _ Ha Hb Hal)|].
  rewrite Alignment_intersection_eq in Hal by done. cbn in Hal. case_decide; [|done].
  injection Hal as <-.
  unfold is_meet, cap_le, range_order, cap_le, alignment_order; cbn.
  split_and!; try (by guarantees).
  - apply Z.divide_lcm_l.
  - apply Z.divide_lcm_r.
  - intros d _ [? ?] [? ?]. split; [by apply Z.lcm_least|guarantees].
Qed.

Definition ranges_wf (o : option RangeHydrationCapabilities) : Prop :=
  ∀ r, o = Some r → range_wf r.

Lemma ranges_meet x y z :
  ranges_wf x → ranges_wf y → intersect_ranges x y = Ok z → ranges_wf z ∧ is_meet any x y z.
Proof.
  intros Hx Hy. unfold intersect_ranges. destruct x as [a|], y as [b|].
  1: { destruct (RangeHydrationCapabilities_intersection a b) as [c|] eqn:Hc; [|done].
       intros [= <-]. destruct (range_meet a b c) as (Hwf & H1 & H2 & _ & H3); auto.
       split; [by intros ? [= <-]|]. split_and!; [done|done|done|].
       intros [d|]; cbn; [intros _; by apply H3|done]. }
  all: intros [= <-]; split; [done|]; split_and!; try done; intros [d|]; cbn; done.
Qed.

Definition hydration_wf (h : HydrationCapabilities) : Prop :=
  ranges_wf (hydration_range h) ∧ ranges_wf (progressive_range h).

Lemma hydration_meet a b c :
  hydration_wf a → hydration_wf b → HydrationCapabilities_intersection a b = Ok c →
  hydration_wf c ∧ is_meet any a b c.
Proof.
  intros [Ha1 Ha2] [Hb1 Hb2] Hc. unfold HydrationCapabilities_intersection in Hc.
  apply result_bind_ok in Hc as (r & Hr & Hc). apply result_bind_ok in Hc as (p & Hp & [= <-]).
  destruct (ranges_meet _ _ _ Ha1 Hb1 Hr) as (Hwr & Hr1 & Hr2 & _ & Hr3).
  destruct (ranges_meet _ _ _ Ha2 Hb2 Hp) as (Hwp & Hp1 & Hp2 & _ & Hp3).
  split; [done|]. unfold is_meet. unfold cap_le, hydration_order; cbn.
  split_and!; try done; try apply bool_meet.
  intros d _ (?&?&?&?) (?&?&?&?). split_and!; auto; by apply bool_meet.
Qed.

(** The descriptions negotiation is about. *)
Definition caps_wf (c : CloudFilesCapabilities) : Prop :=
  hydration_wf (caps_hydration c).
Definition caps_normal (c : CloudFilesCapabilities) : Prop := eviction_normal (caps_eviction c).

Lemma caps_meet a b c :
  caps_wf a → caps_wf b → CloudFilesCapabilities_intersection a b = Ok c →
  caps_wf c ∧ is_meet caps_normal a b c.
Proof.
  intros Ha Hb Hc. unfold CloudFilesCapabilities_intersection in Hc.
  apply result_bind_ok in Hc as (h & Hh & [= <-]).
  destruct (hydration_meet _ _ _ Ha Hb Hh) as (Hwh & Hh1 & Hh2 & _ & Hh3).
  split; [done|]. unfold is_meet, caps_normal. unfold cap_le, caps_order.
  cbn -[IdentityCapabilities_intersection].
  split_and!; try done.
  all: try first [apply identity_meet|apply revision_meet|apply enumeration_meet
    |apply change_meet|apply mutation_meet|apply materialization_meet|apply eviction_meet
    |apply cancellation_meet|apply naming_meet|apply limits_meet].
  intros d Hd Hda Hdb. split_and!.
  - apply identity_meet; [done|apply Hda|apply Hdb].
  - apply revision_meet; [done|apply Hda|apply Hdb].
  - apply enumeration_meet; [done|apply Hda|apply Hdb].
  - apply change_meet; [done|apply Hda|apply Hdb].
  - apply Hh3; [done|apply Hda|apply Hdb].
  - apply mutation_meet; [done|apply Hda|apply Hdb].
  - apply materialization_meet; [done|apply Hda|apply Hdb].
  - apply eviction_meet; [done|apply Hda|apply Hdb].
  - apply cancellation_meet; [done|apply Hda|apply Hdb].
  - apply naming_meet; [done|apply Hda|apply Hdb].
  - apply limits_meet; [done|apply Hda|apply Hdb].
Qed.

(** ** The order is antisymmetric, so a meet is unique *)
Lemma bool_antisym (x y : bool) : cap_le x y → cap_le y x → x = y.
Proof. destruct x, y; unfold cap_le, bool_order; naive_solver. Qed.

Lemma limit_antisym x y : limit_le x y → limit_le y x → x = y.
Proof. destruct x, y; cbn; try done. intros. f_equal. lia. Qed.

Ltac antisym :=
  repeat match goal with H : _ ∧ _ |- _ => destruct H end;
  f_equal; first [by apply bool_antisym|by apply limit_antisym|idtac].

Lemma range_antisym a b :
  range_wf a → range_wf b → cap_le a b → cap_le b a → a = b.
Proof.
  destruct a as [[a] ?], b as [[b] ?]. unfold range_wf, Alignment_wf. cbn. intros ? ? [H1 H2] [H3 H4].
  cbn in *. f_equal; [|by apply bool_antisym]. f_equal.
  apply Z.divide_antisym_nonneg; (lia || done).
Qed.

Lemma ranges_antisym x y :
  ranges_wf x → ranges_wf y → cap_le x y → cap_le y x → x = y.
Proof.
  destruct x as [a|], y as [b|]; cbn; try done. intros. f_equal. apply range_antisym; auto.
Qed.

Lemma anchored_antisym (x y : option AnchoredChangeCapabilities) :
  cap_le x y → cap_le y x → x = y.
Proof. destruct x as [[]|], y as [[]|]; cbn; try done. intros [? ?] [? ?]. f_equal. antisym. Qed.

Lemma level_antisym (x y : CancellationLevel) : cap_le x y → cap_le y x → x = y.
Proof. destruct x, y; unfold cap_le, level_order; cbn; done || lia. Qed.

Lemma caps_antisym a b : caps_wf a → caps_wf b → cap_le a b → cap_le b a → a = b.
Proof.
  intros [Hra Hpa] [Hrb Hpb].
  destruct a as [[] [] [] [] [] [] [[]] [] ? [] []], b as [[] [] [] [] [] [] [[]] [] ? [] []].
  intros (H1&H2&H3&H4&H5&H6&H7&H8&H9&H10&H11) (G1&G2&G3&G4&G5&G6&G7&G8&G9&G10&G11).
  unfold cap_le, identity_order, revision_order, enumeration_order, change_order,
    hydration_order, mutation_order, materialization_order, eviction_order, naming_order,
    limits_order in *. cbn in *. f_equal.
  1-3: antisym.
  - destruct H4 as (?&?&?), G4 as (?&?&?). f_equal; try (by apply bool_antisym).
    by apply anchored_antisym.
  - destruct H5 as (?&?&?&?), G5 as (?&?&?&?).
    f_equal; first [by apply bool_antisym|by apply ranges_antisym].
  - antisym.
  - f_equal. antisym.
  - antisym.
  - by apply level_antisym.
  - antisym.
  - antisym.
Qed.

(** ** The order is a preorder *)
Lemma limit_refl x : limit_le x x.
Proof. destruct x; cbn; done || lia. Qed.
Lemma limit_trans x y z : limit_le x y → limit_le y z → limit_le x z.
Proof. destruct x, y, z; cbn; done || lia. Qed.

Lemma range_le_refl (a : RangeHydrationCapabilities) : cap_le a a.
Proof. split; [apply Z.divide_refl|by intros ?]. Qed.
Lemma range_le_trans (a b c : RangeHydrationCapabilities) : cap_le a b → cap_le b c → cap_le a c.
Proof.
  intros [H1 H2] [H3 H4]. split; [exact (Z.divide_trans _ _ _ H3 H1)|].
  intros Hx. auto.
Qed.

Lemma option_le_refl `{CapOrder A} (R : ∀ a : A, cap_le a a) (x : option A) : cap_le x x.
Proof. destruct x; cbn; auto. Qed.
Lemma option_le_trans `{CapOrder A} (T : ∀ a b c : A, cap_le a b → cap_le b c → cap_le a c)
    (x y z : option A) : cap_le x y → cap_le y z → cap_le x z.
Proof. destruct x, y, z; cbn; try done. apply T. Qed.

#[export] Instance caps_preorder : PreOrder (cap_le (A := CloudFilesCapabilities)).
Proof.
  split.
  - intros a. unfold cap_le at 1, caps_order, identity_order, revision_order,
      enumeration_order, change_order, hydration_order, mutation_order, materialization_order,
      eviction_order, naming_order, limits_order, cap_le, bool_order, level_order.
    split_and!; try done; try apply limit_refl.
    + apply (option_le_refl (A := AnchoredChangeCapabilities)). intros x. split; intros ?; done.
    + apply (option_le_refl range_le_refl).
    + apply (option_le_refl range_le_refl).
  - intros a b c. unfold cap_le, caps_order, identity_order, revision_order,
      enumeration_order, change_order, hydration_order, mutation_order, materialization_order,
      eviction_order, naming_order, limits_order, cap_le, bool_order, level_order.
    intros Hab Hbc.
    repeat match goal with H : _ ∧ _ |- _ => destruct H end.
    split_and!; auto; try (by eapply limit_trans); try lia.
    + eapply (option_le_trans (A := AnchoredChangeCapabilities)); [|done..].
      intros ??? [??] [??]. unfold cap_le, bool_order in *. split; unfold cap_le, bool_order; auto.
    + by eapply (option_le_trans range_le_trans).
    + by eapply (option_le_trans range_le_trans).
Qed.

Lemma meet_unique a b m m' :
  caps_wf m → caps_wf m' → is_meet caps_normal a b m → is_meet caps_normal a b m' → m = m'.
Proof.
  intros Hm Hm' (H1 & H2 & H3 & H4) (G1 & G2 & G3 & G4). apply caps_antisym; auto.
Qed.

Lemma unconstrained_top a : cap_le a CloudFilesCapabilities_unconstrained.
Proof.
  unfold cap_le, caps_order, identity_order, revision_order,
    enumeration_order, change_order, hydration_order, mutation_order, materialization_order,
    eviction_order, naming_order, limits_order, limit_le, cap_le, bool_order; cbn.
  split_and!; try done; try (by destruct (native_identity_max_bytes _));
    try (by destruct (max_transfer_chunk _)); try (by destruct (max_in_flight_requests _));
    try (by destruct (directory_page_size_hint _)); try (by destruct (name_max_encoded_bytes _)).
  - destruct (anchored _); cbn; [|done]. by split.
  - destruct (hydration_range _); cbn; [|done]. split; [apply Z.divide_1_l|done].
  - destruct (progressive_range _); cbn; [|done]. split; [apply Z.divide_1_l|done].
  - destruct (caps_cancellation a); unfold level_order; cbn; lia.
Qed.

(** ** When a negotiation fails *)
Definition ranges_overflow (x y : option RangeHydrationCapabilities) : Prop :=
  ∃ a b, x = Some a ∧ y = Some b ∧
    U64_MAX < Z.lcm (alignment_get (range_alignment a)) (alignment_get (range_alignment b)).

Lemma intersect_ranges_fails x y :
  ranges_wf x → ranges_wf y →
  (∃ z, intersect_ranges x y = Ok z) ↔ ¬ ranges_overflow x y.
Proof.
  intros Hx Hy. unfold ranges_overflow. destruct x as [a|], y as [b|]; cbn.
  1: { unfold RangeHydrationCapabilities_intersection.
       rewrite Alignment_intersection_eq by first [by apply (Hx a)|by apply (Hy b)]. cbn.
       case_decide; cbn; split; [intros _ (?&?&[= <-]&[= <-]&?); lia|eauto
         |by intros [? [=]]|intros Hn; exfalso; apply Hn; eexists _, _; split_and!; done || lia]. }
  all: split; [by intros _ (?&?&?&?&?)|eauto].
Qed.

Definition caps_overflow (a b : CloudFilesCapabilities) : Prop :=
  ranges_overflow (hydration_range (caps_hydration a)) (hydration_range (caps_hydration b)) ∨
  ranges_overflow (progressive_range (caps_hydration a)) (progressive_range (caps_hydration b)).

Lemma intersection_succeeds a b :
  caps_wf a → caps_wf b →
  (∃ c, CloudFilesCapabilities_intersection a b = Ok c) ↔ ¬ caps_overflow a b.
Proof.
  intros [Ha1 Ha2] [Hb1 Hb2]. unfold caps_overflow.
  pose proof (intersect_ranges_fails _ _ Ha1 Hb1) as Hr.
  pose proof (intersect_ranges_fails _ _ Ha2 Hb2) as Hp.
  unfold CloudFilesCapabilities_intersection, HydrationCapabilities_intersection.
  destruct (intersect_ranges (hydration_range _) _) as [r|e]; cbn.
  - destruct (intersect_ranges (progressive_range _) _) as [p|e]; cbn.
    + split; [intros _ [?|?]; [by apply Hr; [eauto|]|by apply Hp; [eauto|]]|eauto].
    + split; [by intros [? [=]]|]. intros Hn. exfalso.
      destruct (proj2 Hp) as [? [=]]. tauto.
  - split; [by intros [? [=]]|]. intros Hn. exfalso. destruct (proj2 Hr) as [? [=]]. tauto.
Qed.

Lemma caps_overflow_comm a b : caps_overflow a b → caps_overflow b a.
Proof.
  intros [(x&y&?&?&?)|(x&y&?&?&?)]; [left|right]; exists y, x; by rewrite Z.lcm_comm.
Qed.

Lemma intersection_comm a b c :
  caps_wf a → caps_wf b →
  CloudFilesCapabilities_intersection a b = Ok c → CloudFilesCapabilities_intersection b a = Ok c.
Proof.
  intros Ha Hb Hc.
  destruct (proj2 (intersection_succeeds b a Hb Ha)) as [c' Hc'].
  { intros Ho. by apply (proj1 (intersection_succeeds a b Ha Hb)); [eauto|apply caps_overflow_comm]. }
  rewrite Hc'. f_equal.
  destruct (caps_meet a b c Ha Hb Hc) as [Hw (H1 & H2 & H3 & H4)].
  destruct (caps_meet b a c' Hb Ha Hc') as [Hw' (G1 & G2 & G3 & G4)].
  apply (meet_unique a b); [done|done| |]; split_and!; auto.
Qed.

Lemma unconstrained_wf : caps_wf CloudFilesCapabilities_unconstrained.
Proof. split; intros r [= <-]; unfold range_wf, Alignment_wf; cbn; width. Qed.

Lemma intersection_unconstrained a :
  caps_wf a → ∃ c, CloudFilesCapabilities_intersection a CloudFilesCapabilities_unconstrained = Ok c.
Proof.
  intros Ha. apply intersection_succeeds; [done|apply unconstrained_wf|].
  destruct Ha as [H1 H2].
  intros [(x&y&Hx&[= <-]&Hl)|(x&y&Hx&[= <-]&Hl)]; cbn in Hl; rewrite Z.lcm_1_r in Hl.
  - destruct (H1 _ Hx). lia.
  - destruct (H2 _ Hx). lia.
Qed.

Definition sample_caps (alignment : Z) : CloudFilesCapabilities :=
  mk_CloudFilesCapabilities
    (mk_IdentityCapabilities true true true false) (mk_RevisionCapabilities true true false)
    (mk_EnumerationCapabilities true false) (mk_ChangeCapabilities None true true)
    (mk_HydrationCapabilities true
       (Some (mk_RangeHydrationCapabilities (mk_Alignment alignment) true)) None false)
    (mk_MutationCapabilities true true true true true false true)
    (mk_MaterializationCapabilities (mk_ContentStorageModes false true false))
    (mk_EvictionCapabilities true false true true) ExactRequest
    (mk_NamingCapabilities true true true)
    (mk_CloudFilesLimits (Some alignment) None (Some 8) None None).

Lemma sample_caps_wf alignment : 0 < alignment ≤ U64_MAX → caps_wf (sample_caps alignment).
Proof. split; intros r Hr; cbn in Hr; [injection Hr as <-; done|done]. Qed.

(** Combining alignments. On [u64] inputs the Euclidean loop ends within
    its 129 turns, more turns change nothing, and it returns the greatest
    common divisor. The intersection of two alignments is their least common
    multiple when that fits [u64], and otherwise the overflow error that
    names both; it is again a valid alignment, does not depend on the order,
    and exactly the offsets that satisfy both requirements satisfy it. *)
Theorem alignment_intersection_spec (a b : Alignment) :
  Alignment_wf a → Alignment_wf b →
  (∀ fuel, (gcd_fuel ≤ fuel)%nat →
     gcd_loop fuel (alignment_get a) (alignment_get b) =
     Z.gcd (alignment_get a) (alignment_get b)) ∧
  (∀ e, Alignment_intersection a b = Err e ↔
     U64_MAX < Z.lcm (alignment_get a) (alignment_get b) ∧
     e = AlignmentIntersectionOverflow (alignment_get a) (alignment_get b)) ∧
  (∀ c, Alignment_intersection a b = Ok c →
     Alignment_wf c ∧ alignment_get c = Z.lcm (alignment_get a) (alignment_get b) ∧
     Alignment_intersection b a = Ok c ∧
     ∀ offset, (alignment_get c | offset) ↔
       (alignment_get a | offset) ∧ (alignment_get b | offset)).
Proof.
  intros Ha Hb. pose proof (Alignment_intersection_eq a b Ha Hb) as Heq. cbn in Heq. split_and!.
  - intros fuel Hf. unfold Alignment_wf in *. unfold gcd_fuel in Hf.
    apply (gcd_loop_spec fuel 64); [lia|lia|]. rewrite U64_MAX_eq in *. cbn. lia.
  - intros e. rewrite Heq. case_decide; crush.
  - intros c Hc. split; [exact (Alignment_intersection_wf a b c Ha Hb Hc)|].
    rewrite Heq in Hc. case_decide; [|done]. injection Hc as <-. split; [done|]. split.
    + rewrite Alignment_intersection_eq by done. cbn. rewrite Z.lcm_comm. by rewrite decide_True.
    + intros offset. cbn. split.
      * intros Hd. split; (etrans; [|exact Hd]); [apply Z.divide_lcm_l|apply Z.divide_lcm_r].
      * intros [? ?]. by apply Z.lcm_least.
Qed.

Example alignment_intersection_spec_witness :
  Alignment_wf (mk_Alignment 4096) ∧ Alignment_wf (mk_Alignment 6144) ∧
  Alignment_intersection (mk_Alignment 4096) (mk_Alignment 6144) = Ok (mk_Alignment 12288) ∧
  alignment_get (mk_Alignment 12288) = Z.lcm 4096 6144.
Proof.
  assert (H1 : Alignment_wf (mk_Alignment 4096)) by (unfold Alignment_wf; cbn; width).
  assert (H2 : Alignment_wf (mk_Alignment 6144)) by (unfold Alignment_wf; cbn; width).
  assert (H3 : Alignment_intersection (mk_Alignment 4096) (mk_Alignment 6144) =
               Ok (mk_Alignment 12288)) by (vm_compute; reflexivity).
  split_and!; [done|done|done|].
  apply (alignment_intersection_spec (mk_Alignment 4096) (mk_Alignment 6144) H1 H2). exact H3.
Defined.

(** Capability negotiation is a meet. The effective description of two
    boundaries guarantees only what both do, carries every constraint of
    either, promises nothing about unsupported eviction, and is the greatest
    such description; negotiation is commutative, associative wherever both
    orders succeed, and fails exactly when two offered range alignments have
    no common [u64] multiple. The unconstrained description never makes it
    fail and changes nothing exactly when the other side already promises
    nothing about unsupported eviction; the core requirements hold of the
    result exactly when they hold of both sides. *)
Theorem capability_negotiation (a b d : CloudFilesCapabilities) :
  caps_wf a → caps_wf b → caps_wf d →
  (∀ c, CloudFilesCapabilities_intersection a b = Ok c →
     caps_wf c ∧ is_meet caps_normal a b c ∧
     CloudFilesCapabilities_intersection b a = Ok c ∧
     (CloudFilesCapabilities_validate_core_requirements c = Ok () ↔
      CloudFilesCapabilities_validate_core_requirements a = Ok () ∧
      CloudFilesCapabilities_validate_core_requirements b = Ok ())) ∧
  ((∃ c, CloudFilesCapabilities_intersection a b = Ok c) ↔ ¬ caps_overflow a b) ∧
  (∀ ab bd x y,
     CloudFilesCapabilities_intersection a b = Ok ab →
     CloudFilesCapabilities_intersection ab d = Ok x →
     CloudFilesCapabilities_intersection b d = Ok bd →
     CloudFilesCapabilities_intersection a bd = Ok y → x = y) ∧
  (∃ c, CloudFilesCapabilities_intersection a CloudFilesCapabilities_unconstrained = Ok c) ∧
  (CloudFilesCapabilities_intersection a CloudFilesCapabilities_unconstrained = Ok a ↔
   caps_normal a).
Proof.
  intros Ha Hb Hd. split_and!.
  - intros c Hc. destruct (caps_meet a b c Ha Hb Hc) as [Hw Hm].
    split_and!; [done|done|by apply intersection_comm|].
    unfold CloudFilesCapabilities_intersection in Hc.
    apply result_bind_ok in Hc as (h & _ & [= <-]).
    unfold CloudFilesCapabilities_validate_core_requirements,
      IdentityCapabilities_validate_core_requirements. cbn.
    destruct (caps_identity a) as [[] [] [] []], (caps_identity b) as [[] [] [] []]; cbn;
      first [tauto|split; [by intros ?|by intros [? ?]]].
  - by apply intersection_succeeds.
  - intros ab bd x y Hab Hx Hbd Hy.
    destruct (caps_meet a b ab Ha Hb Hab) as [Hwab (A1 & A2 & A3 & A4)].
    destruct (caps_meet ab d x Hwab Hd Hx) as [Hwx (X1 & X2 & X3 & X4)].
    destruct (caps_meet b d bd Hb Hd Hbd) as [Hwbd (B1 & B2 & B3 & B4)].
    destruct (caps_meet a bd y Ha Hwbd Hy) as [Hwy (Y1 & Y2 & Y3 & Y4)].
    apply caps_antisym; [done|done| |].
    + apply Y4; [done|by transitivity ab|]. apply B4; [done|by transitivity ab|done].
    + apply X4; [done| |by transitivity bd]. apply A4; [done|done|by transitivity bd].
  - by apply intersection_unconstrained.
  - destruct (intersection_unconstrained a Ha) as [c Hc].
    destruct (caps_meet a _ c Ha unconstrained_wf Hc) as [Hw (H1 & H2 & H3 & H4)]. split.
    + intros Heq. rewrite Heq in Hc. by injection Hc as ->.
    + intros Hn. rewrite Hc. f_equal. apply caps_antisym; [done|done|done|].
      apply H4; [done|reflexivity|apply unconstrained_top].
Qed.

Example capability_negotiation_witness :
  caps_wf (sample_caps 4) ∧ caps_wf (sample_caps 6) ∧
  ¬ caps_overflow (sample_caps 4) (sample_caps 6).
Proof.
  assert (H4 : caps_wf (sample_caps 4)) by (apply sample_caps_wf; width).
  assert (H6 : caps_wf (sample_caps 6)) by (apply sample_caps_wf; width).
  split_and!; [done|done|].
  apply (capability_negotiation (sample_caps 4) (sample_caps 6) (sample_caps 4) H4 H6 H4).
  eexists. vm_compute. reflexivity.
Defined.

(** The unconstrained description is not an identity in general: it clears
    what a side claims about eviction it does not support. *)
Lemma unconstrained_not_identity :
  ∃ a c, caps_wf a ∧
    CloudFilesCapabilities_intersection a CloudFilesCapabilities_unconstrained = Ok c ∧ c ≠ a.
Proof.
  exists (mk_CloudFilesCapabilities
    (mk_IdentityCapabilities true true true true) (mk_RevisionCapabilities true true true)
    (mk_EnumerationCapabilities true true) (mk_ChangeCapabilities None true true)
    (mk_HydrationCapabilities true None None true)
    (mk_MutationCapabilities true true true true true true true)
    (mk_MaterializationCapabilities (mk_ContentStorageModes true true true))
    (mk_EvictionCapabilities false true false false) RangeSubset
    (mk_NamingCapabilities true true true) (mk_CloudFilesLimits None None None None None)).
  eexists. split_and!; [split; intros ? Hr; discriminate Hr|reflexivity|discriminate].
Qed.
