(* ===== verification/HydrationWork.v ===== *)
(** * Hydration work sharing

    The coordinator of [hydration.rs]: the table of in-flight backend reads
    and its per-content index, the registration of a whole-file, an empty
    and a range request, the capacity limits and the release of work.  A
    registration runs under the coordinator's mutex, so it is one transition
    of [CoordinatorState]; it may fail after having changed the state, and
    the action monad keeps that state. *)
From S2P Require Export Action ByteRange Capabilities.

Inductive HydrationError : Type :=
  | HydrationCancelled
  | HydrationBackend (e : CloudBackendError)
  | HydrationContract (e : CloudFilesCoreError)
  | InFlightLimitExceeded (scope : string).

#[export] Instance HydrationError_eq_dec : EqDecision HydrationError.
Proof. solve_decision. Defined.

Abbreviation hydration_result := (result HydrationError).

Record HydrationLimits : Type := mk_HydrationLimits {
  max_in_flight_work : Z;
  max_in_flight_per_content : Z;
}.

Definition HydrationLimits_DEFAULT : HydrationLimits := mk_HydrationLimits 1024 128.

Record HydrationRequest : Type := HydrationRequest_new {
  hydration_read : ContentReadRequest;
  hydration_alignment : Alignment;
  hydration_session_generation : SessionGeneration;
}.

#[export] Instance HydrationRequest_eq_dec : EqDecision HydrationRequest.
Proof. solve_decision. Defined.

Definition HydrationRequest_whole (key : CloudItemKey) (revision : ContentRevision)
    (expected_size : Z) (session_generation : SessionGeneration) : HydrationRequest :=
  HydrationRequest_new (ContentReadRequest_whole key revision expected_size)
    Alignment_ONE session_generation.

Definition HydrationRequest_range (key : CloudItemKey) (revision : ContentRevision)
    (expected_size : Z) (range : ByteRange) (alignment : Alignment)
    (session_generation : SessionGeneration) : HydrationRequest :=
  HydrationRequest_new (ContentReadRequest_range key revision expected_size range)
    alignment session_generation.

(** ** The key under which reads are shared *)
Record HydrationContentKey : Type := mk_HydrationContentKey {
  hck_key : CloudItemKey;
  hck_revision : ContentRevision;
  hck_expected_size : Z;
  hck_session_generation : SessionGeneration;
  hck_alignment : Alignment;
}.

#[export] Instance HydrationContentKey_eq_dec : EqDecision HydrationContentKey.
Proof. solve_decision. Defined.
#[export] Program Instance HydrationContentKey_countable : Countable HydrationContentKey :=
  inj_countable'
    (λ c, (hck_key c, hck_revision c, hck_expected_size c,
           hck_session_generation c, hck_alignment c))
    (λ '(k, r, s, g, a), mk_HydrationContentKey k r s g a) _.
Next Obligation. by intros []. Qed.

Definition HydrationContentKey_from_request (request : HydrationRequest)
    : HydrationContentKey :=
  mk_HydrationContentKey
    (request_key (hydration_read request))
    (request_revision (hydration_read request))
    (request_expected_size (hydration_read request))
    (hydration_session_generation request)
    (hydration_alignment request).

(** ** In-flight work

    A shared future is the read it performs: every clone of it resolves to
    the same result, [shared_read_result] of the backend's answer. *)
Abbreviation SharedRead := ContentReadRequest (only parsing).

Record WorkDependency : Type := mk_WorkDependency {
  dep_id : Z;
  dep_start : Z;
  dep_end : Z;
  dep_future : SharedRead;
}.

Record WorkEntry : Type := mk_WorkEntry {
  entry_content : HydrationContentKey;
  entry_start : Z;
  entry_end : Z;
  entry_whole : bool;
  entry_future : SharedRead;
  entry_waiter_count : Z;
}.

Record CoordinatorState : Type := mk_CoordinatorState {
  next_work_id : Z;
  work : gmap Z WorkEntry;
  by_content : gmap HydrationContentKey (gset (Z * Z * Z));
}.

Definition CoordinatorState_default : CoordinatorState := mk_CoordinatorState 0 ∅ ∅.

Definition with_work (s : CoordinatorState) (w : gmap Z WorkEntry) : CoordinatorState :=
  mk_CoordinatorState (next_work_id s) w (by_content s).

Definition with_waiter_count (e : WorkEntry) (count : Z) : WorkEntry :=
  mk_WorkEntry (entry_content e) (entry_start e) (entry_end e) (entry_whole e)
    (entry_future e) count.

Definition entry_dependency (id : Z) (e : WorkEntry) : WorkDependency :=
  mk_WorkDependency id (entry_start e) (entry_end e) (entry_future e).

(** The body of the future that [insert_work] shares. *)
Definition shared_read_result
    (read_content : ContentReadRequest → backend_result ContentReadResponse)
    (request : SharedRead) : hydration_result ContentReadResponse :=
  response ← map_err HydrationBackend (read_content request);
  _ ← map_err HydrationContract (ContentReadRequest_validate_response request response);
  mret response.

(** ** Extents *)
Definition logical_extent (request : ContentReadRequest) : hydration_result (Z * Z) :=
  match request_range request with
  | ReadWhole => Ok (0, request_expected_size request)
  | ReadRange range =>
      if decide (range_offset range > request_expected_size request) then
        Err (HydrationBackend (CloudBackendError_new InvalidRequest))
      else Ok (range_offset range,
               Z.min (ByteRange_end_exclusive range) (request_expected_size request))
  end.

Definition aligned_extent (first last total_size : Z) (alignment : Alignment)
    : hydration_result (Z * Z) :=
  let a := alignment_get alignment in
  let aligned_start := first / a * a in
  if decide (last = total_size) then Ok (aligned_start, total_size)
  else
    let remainder := last mod a in
    aligned_end ←
      (if decide (remainder = 0) then Ok last
       else ok_or (checked_add U64_MAX last (a - remainder))
              (HydrationContract (InvalidByteRange "aligned hydration range exceeds u64")));
    Ok (aligned_start, Z.min aligned_end total_size).

Definition ranges_overlap (left_start left_end right_start right_end : Z) : bool :=
  bool_decide (left_start < right_end) && bool_decide (right_start < left_end).

(** ** Capacity and insertion *)
Definition content_index (s : CoordinatorState) (content : HydrationContentKey)
    : gset (Z * Z * Z) := default ∅ (by_content s !! content).

Definition ensure_capacity (s : CoordinatorState) (content : HydrationContentKey)
    (additional : Z) (limits : HydrationLimits) : hydration_result unit :=
  if decide (max_in_flight_work limits = 0 ∨
             saturating_add USIZE_MAX (Z.of_nat (size (work s))) additional
               > max_in_flight_work limits) then
    Err (InFlightLimitExceeded "global")
  else if decide (max_in_flight_per_content limits = 0 ∨
                  saturating_add USIZE_MAX (Z.of_nat (size (content_index s content)))
                    additional > max_in_flight_per_content limits) then
    Err (InFlightLimitExceeded "content")
  else Ok tt.

Definition insert_work (content : HydrationContentKey) (request : ContentReadRequest)
    (first last : Z) (whole : bool)
    : action CoordinatorState HydrationError WorkDependency := λ s,
  let id := next_work_id s in
  match checked_add U64_MAX id 1 with
  | None =>
      (Err (HydrationContract
              (InvalidContentResponse "hydration work identity exhausted")), s)
  | Some next =>
      (Ok (mk_WorkDependency id first last request),
       mk_CoordinatorState next
         (<[id := mk_WorkEntry content first last whole request 0]> (work s))
         (<[content := {[ (first, last, id) ]} ∪ content_index s content]>
            (by_content s)))
  end.

Definition insert_range_work (content : HydrationContentKey)
    (original_request : ContentReadRequest) (first last : Z)
    : action CoordinatorState HydrationError WorkDependency :=
  range ← pure_result (map_err HydrationContract
                         (ByteRange_new first (saturating_sub last first)));
  insert_work content
    (ContentReadRequest_range (request_key original_request)
       (request_revision original_request)
       (request_expected_size original_request) range)
    first last false.

(** ** Registration *)
Definition set_waiter_count (id count : Z) (s : CoordinatorState) : CoordinatorState :=
  match work s !! id with
  | Some e => with_work s (<[id := with_waiter_count e count]> (work s))
  | None => s
  end.

(** One more waiter for [id]; the count saturates. *)
Definition add_waiter (s : CoordinatorState) (id : Z) : CoordinatorState :=
  match work s !! id with
  | Some e => set_waiter_count id (saturating_add USIZE_MAX (entry_waiter_count e) 1) s
  | None => s
  end.

(** [self.work.iter_mut().find(..)]: the table is a [HashMap], whose order is
    unspecified; [matching_work_unique] below shows that at most one entry
    matches at either call, so the order is immaterial. *)
Definition find_work (p : WorkEntry → bool) (s : CoordinatorState)
    : option (Z * WorkEntry) :=
  head (filter (λ ie, p ie.2 = true) (map_to_list (work s))).

Definition is_whole_of (content : HydrationContentKey) (e : WorkEntry) : bool :=
  bool_decide (entry_content e = content) && entry_whole e.

Definition is_empty_at (content : HydrationContentKey) (offset : Z) (e : WorkEntry) : bool :=
  bool_decide (entry_content e = content) && negb (entry_whole e) &&
  bool_decide (entry_start e = offset) && bool_decide (entry_end e = offset).

(** Ends a registration: the waiter counts are updated under the same lock. *)
Definition update_state {A} (f : CoordinatorState → CoordinatorState) (a : A)
    : action CoordinatorState HydrationError A := λ s, (Ok a, f s).

(** The two registrations that need a single work item: an existing match
    gets one more waiter, otherwise the read is inserted. *)
Definition register_new (limits : HydrationLimits) (content : HydrationContentKey)
    (request : ContentReadRequest) (first last : Z) (whole : bool) (s : CoordinatorState)
    : action CoordinatorState HydrationError (list WorkDependency) :=
  _ ← pure_result (ensure_capacity s content 1 limits);
  dependency ← insert_work content request first last whole;
  update_state (set_waiter_count (dep_id dependency) 1) [dependency].

Definition register_single (limits : HydrationLimits) (content : HydrationContentKey)
    (request : ContentReadRequest) (p : WorkEntry → bool) (first last : Z) (whole : bool)
    : action CoordinatorState HydrationError (list WorkDependency) := λ s,
  match find_work p s with
  | Some (id, e) => (Ok [entry_dependency id e], add_waiter s id)
  | None => register_new limits content request first last whole s s
  end.

Definition register_whole (limits : HydrationLimits) (content : HydrationContentKey)
    (request : ContentReadRequest)
    : action CoordinatorState HydrationError (list WorkDependency) :=
  register_single limits content request (is_whole_of content)
    0 (hck_expected_size content) true.

Definition register_empty_range (limits : HydrationLimits) (content : HydrationContentKey)
    (request : ContentReadRequest) (offset : Z)
    : action CoordinatorState HydrationError (list WorkDependency) :=
  register_single limits content request (is_empty_at content offset) offset offset false.

(** The order of [BTreeSet<(u64, u64, u64)>] and of the sort keys. *)
Definition tuple_leb (x y : Z * Z * Z) : bool :=
  let '(a, b, c) := x in
  let '(a', b', c') := y in
  (a <? a') || ((a =? a') && ((b <? b') || ((b =? b') && (c <=? c')))).

Definition dependency_leb (x y : WorkDependency) : bool :=
  (dep_start x <? dep_start y) ||
  ((dep_start x =? dep_start y) && (dep_end x <=? dep_end y)).

Definition overlapping_dependencies (s : CoordinatorState) (content : HydrationContentKey)
    (physical_start physical_end : Z) : list WorkDependency :=
  omap (λ '(first, last, id),
      entry ← work s !! id;
      if entry_whole entry || ranges_overlap physical_start physical_end first last
      then Some (mk_WorkDependency id first last (entry_future entry)) else None)
    (take_while (λ '(first, _, _), bool_decide (first < physical_end))
       (sort_by tuple_leb (elements (content_index s content)))).

(** The gap scan: [cursor] runs over the sorted dependencies. *)
Fixpoint scan_gaps (physical_end cursor : Z) (dependencies : list WorkDependency)
    : list (Z * Z) :=
  match dependencies with
  | [] => if decide (cursor < physical_end) then [(cursor, physical_end)] else []
  | dependency :: dependencies =>
      let gap_end := Z.min (dep_start dependency) physical_end in
      let rest := scan_gaps physical_end
        (Z.max cursor (Z.min (dep_end dependency) physical_end)) dependencies in
      if decide (cursor < gap_end) then (cursor, gap_end) :: rest else rest
  end.

(** The insertion loop; an error leaves the gaps inserted before it. *)
Fixpoint insert_gaps (content : HydrationContentKey) (original_request : ContentReadRequest)
    (gaps : list (Z * Z))
    : action CoordinatorState HydrationError (list WorkDependency) :=
  match gaps with
  | [] => mret []
  | (first, last) :: gaps =>
      dependency ← insert_range_work content original_request first last;
      dependencies ← insert_gaps content original_request gaps;
      mret (dependency :: dependencies)
  end.

Definition add_waiters (ids : list Z) (s : CoordinatorState) : CoordinatorState :=
  foldl add_waiter s ids.

Definition register_gaps (limits : HydrationLimits) (content : HydrationContentKey)
    (original_request : ContentReadRequest) (existing : list WorkDependency)
    (gaps : list (Z * Z)) (s : CoordinatorState)
    : action CoordinatorState HydrationError (list WorkDependency) :=
  _ ← pure_result (ensure_capacity s content (Z.of_nat (length gaps)) limits);
  inserted ← insert_gaps content original_request gaps;
  let dependencies := sort_by dependency_leb (existing ++ inserted) in
  update_state (add_waiters (dep_id <$> dependencies)) dependencies.

Definition register_range (limits : HydrationLimits) (content : HydrationContentKey)
    (original_request : ContentReadRequest) (physical_start physical_end : Z)
    : action CoordinatorState HydrationError (list WorkDependency) := λ s,
  let existing := sort_by dependency_leb
    (overlapping_dependencies s content physical_start physical_end) in
  register_gaps limits content original_request existing
    (scan_gaps physical_end physical_start existing) s s.

(** The locked part of [HydrationCoordinator::request]: the logical extent
    and the work it depends on. *)
Definition HydrationCoordinator_register (limits : HydrationLimits)
    (request : HydrationRequest)
    : action CoordinatorState HydrationError (Z * Z * list WorkDependency) :=
  let content := HydrationContentKey_from_request request in
  let read := hydration_read request in
  extent ← pure_result (logical_extent read);
  let '(target_start, target_end) := extent in
  dependencies ←
    (match request_range read with
     | ReadWhole => register_whole limits content read
     | ReadRange _ =>
         if decide (target_start = target_end) then
           register_empty_range limits content read target_start
         else
           physical ← pure_result (aligned_extent target_start target_end
             (hck_expected_size content) (hydration_alignment request));
           register_range limits content read physical.1 physical.2
     end);
  mret (target_start, target_end, dependencies).

(** ** Release *)
Definition remove_work (id : Z) (e : WorkEntry) (s : CoordinatorState) : CoordinatorState :=
  mk_CoordinatorState (next_work_id s) (delete id (work s))
    (match by_content s !! entry_content e with
     | Some index =>
         let index := index ∖ {[ (entry_start e, entry_end e, id) ]} in
         if decide (index = ∅) then delete (entry_content e) (by_content s)
         else <[entry_content e := index]> (by_content s)
     | None => by_content s
     end).

Definition release_one (s : CoordinatorState) (id : Z) : CoordinatorState :=
  match work s !! id with
  | Some e =>
      let count := saturating_sub (entry_waiter_count e) 1 in
      if decide (count = 0) then remove_work id e s else set_waiter_count id count s
  | None => s
  end.

Definition release_all (ids : list Z) (s : CoordinatorState) : CoordinatorState :=
  foldl release_one s ids.

(** ** The coordinator's invariant *)

(** A physical boundary: a multiple of the alignment, or the end of the file. *)
Definition aligned_at (c : HydrationContentKey) (x : Z) : Prop :=
  (alignment_get (hck_alignment c) | x) ∨ x = hck_expected_size c.

Definition read_wf (q : ContentReadRequest) : Prop :=
  in_u64 (request_expected_size q) ∧
  match request_range q with ReadWhole => True | ReadRange rg => ByteRange_wf rg end.

(** A read of the content [c] whose extent is [first, last). *)
Definition reads (c : HydrationContentKey) (q : ContentReadRequest) (first last : Z) : Prop :=
  read_wf q ∧ request_key q = hck_key c ∧ request_revision q = hck_revision c ∧
  request_expected_size q = hck_expected_size c ∧ request_extent q = (first, last).

Record entry_wf (e : WorkEntry) : Prop := mk_entry_wf {
  ewf_alignment : Alignment_wf (hck_alignment (entry_content e));
  ewf_bounds : 0 ≤ entry_start e ≤ entry_end e ∧
               entry_end e ≤ hck_expected_size (entry_content e);
  ewf_whole : entry_whole e = true →
    entry_start e = 0 ∧ entry_end e = hck_expected_size (entry_content e);
  ewf_empty : entry_whole e = false → entry_start e = entry_end e →
    entry_start e = hck_expected_size (entry_content e);
  ewf_aligned : aligned_at (entry_content e) (entry_start e) ∧
                aligned_at (entry_content e) (entry_end e);
  ewf_reads : reads (entry_content e) (entry_future e) (entry_start e) (entry_end e);
}.

(** Two works of one content do not duplicate each other: at most one is
    whole, and two ranges share no byte. *)
Definition separate (e1 e2 : WorkEntry) : Prop :=
  ¬ (entry_whole e1 = true ∧ entry_whole e2 = true) ∧
  (entry_whole e1 = false → entry_whole e2 = false →
   (entry_end e1 ≤ entry_start e2 ∨ entry_end e2 ≤ entry_start e1) ∧
   ¬ (entry_start e1 = entry_end e1 ∧ entry_start e2 = entry_end e2)).

Lemma separate_sym e1 e2 : separate e1 e2 → separate e2 e1.
Proof. intros [H1 H2]. split; [tauto|]. intros Hw2 Hw1. destruct (H2 Hw1 Hw2). tauto. Qed.

Record coordinator_inv (limits : HydrationLimits) (s : CoordinatorState) : Prop :=
  mk_coordinator_inv {
  inv_next : 0 ≤ next_work_id s ≤ U64_MAX;
  inv_work : ∀ id e, work s !! id = Some e → 0 ≤ id < next_work_id s ∧ entry_wf e;
  inv_index : ∀ c first last id, (first, last, id) ∈ content_index s c ↔
    ∃ e, work s !! id = Some e ∧ entry_content e = c ∧
         entry_start e = first ∧ entry_end e = last;
  inv_index_nonempty : ∀ c, by_content s !! c ≠ Some ∅;
  inv_separate : ∀ id1 id2 e1 e2, work s !! id1 = Some e1 → work s !! id2 = Some e2 →
    id1 ≠ id2 → entry_content e1 = entry_content e2 → separate e1 e2;
  inv_global_capacity : Z.of_nat (size (work s)) ≤ max_in_flight_work limits;
  inv_content_capacity : ∀ c,
    Z.of_nat (size (content_index s c)) ≤ max_in_flight_per_content limits;
}.

(** The limits of a coordinator: [usize] values short of the largest, which
    no table of entries reaches. *)
Definition limits_wf (limits : HydrationLimits) : Prop :=
  0 ≤ max_in_flight_work limits < USIZE_MAX ∧
  0 ≤ max_in_flight_per_content limits < USIZE_MAX.

Lemma coordinator_inv_default limits :
  limits_wf limits → coordinator_inv limits CoordinatorState_default.
Proof.
  intros [Hg Hc]. split; cbn; unfold content_index; cbn.
  - width.
  - intros ? ? H. by rewrite lookup_empty in H.
  - intros. rewrite lookup_empty. split; [set_solver|].
    intros (? & H & _). by rewrite lookup_empty in H.
  - intros c. by rewrite lookup_empty.
  - intros ? ? ? ? H. by rewrite lookup_empty in H.
  - rewrite map_size_empty. lia.
  - intros c. rewrite lookup_empty. cbn. rewrite size_empty. lia.
Qed.

(** *** The invariant does not read the waiter counts *)
Definition work_shape (e : WorkEntry) : WorkEntry := with_waiter_count e 0.

Definition same_shape (s s' : CoordinatorState) : Prop :=
  next_work_id s' = next_work_id s ∧ by_content s' = by_content s ∧
  work_shape <$> work s' = work_shape <$> work s.

Lemma same_shape_refl s : same_shape s s.
Proof. done. Qed.

Lemma same_shape_trans s1 s2 s3 : same_shape s1 s2 → same_shape s2 s3 → same_shape s1 s3.
Proof. intros (?&?&?) (?&?&?). split_and!; congruence. Qed.

Lemma same_shape_lookup s s' id e' :
  same_shape s s' → work s' !! id = Some e' →
  ∃ e, work s !! id = Some e ∧ work_shape e' = work_shape e.
Proof.
  intros (_ & _ & Hw) He'. apply (f_equal (lookup id)) in Hw.
  rewrite !lookup_fmap, He' in Hw. destruct (work s !! id) as [e|]; [|done].
  exists e. split; [done|]. exact (inj Some _ _ Hw).
Qed.

Lemma same_shape_sym s s' : same_shape s s' → same_shape s' s.
Proof. intros (?&?&?). split_and!; congruence. Qed.

Lemma work_shape_wf e e' : work_shape e' = work_shape e → entry_wf e → entry_wf e'.
Proof. destruct e, e'. intros [= -> -> -> -> ->] []. by split. Qed.

Lemma work_shape_separate e1 e2 e1' e2' :
  work_shape e1' = work_shape e1 → work_shape e2' = work_shape e2 →
  separate e1 e2 → separate e1' e2'.
Proof. destruct e1, e2, e1', e2'. by intros [= -> -> -> -> ->] [= -> -> -> -> ->]. Qed.

Lemma work_shape_content e e' : work_shape e' = work_shape e → entry_content e' = entry_content e.
Proof. destruct e, e'. by intros [= -> -> -> -> ->]. Qed.

Lemma work_shape_fields e e' : work_shape e' = work_shape e →
  entry_content e' = entry_content e ∧ entry_start e' = entry_start e ∧
  entry_end e' = entry_end e ∧ entry_whole e' = entry_whole e ∧
  entry_future e' = entry_future e.
Proof. destruct e, e'. by intros [= -> -> -> -> ->]. Qed.

Lemma coordinator_inv_shape limits s s' :
  same_shape s s' → coordinator_inv limits s → coordinator_inv limits s'.
Proof.
  intros Hsh Hinv. pose proof Hsh as (Hn & Hb & Hw).
  assert (Hidx : ∀ c, content_index s' c = content_index s c).
  { intros c. unfold content_index. by rewrite Hb. }
  destruct Hinv as [H1 H2 H3 H4 H5 H6 H7]. split.
  - by rewrite Hn.
  - intros id e' He'. destruct (same_shape_lookup _ _ _ _ Hsh He') as (e & He & Hee).
    destruct (H2 _ _ He). rewrite Hn. split; [done|]. by eapply work_shape_wf.
  - intros c a b id. rewrite Hidx, H3. split; intros (e & He & <- & <- & <-).
    + destruct (same_shape_lookup _ _ _ _ (same_shape_sym _ _ Hsh) He) as (e' & He' & Hee).
      apply work_shape_fields in Hee as (?&?&?&_). by exists e'.
    + destruct (same_shape_lookup _ _ _ _ Hsh He) as (e' & He' & Hee).
      apply work_shape_fields in Hee as (?&?&?&_). by exists e'.
  - intros c. by rewrite Hb.
  - intros id1 id2 e1 e2 He1 He2 ? Hc.
    destruct (same_shape_lookup _ _ _ _ Hsh He1) as (e1' & ? & Hs1).
    destruct (same_shape_lookup _ _ _ _ Hsh He2) as (e2' & ? & Hs2).
    apply (work_shape_separate e1' e2'); [done..|]. eapply H5; [done..|].
    by rewrite <- (work_shape_content _ _ Hs1), <- (work_shape_content _ _ Hs2).
  - by rewrite <- (map_size_fmap work_shape), Hw, map_size_fmap.
  - intros c. by rewrite Hidx.
Qed.

(** *** Insertion *)
Definition insert_entry (e : WorkEntry) (s : CoordinatorState) : CoordinatorState :=
  mk_CoordinatorState (next_work_id s + 1) (<[next_work_id s := e]> (work s))
    (<[entry_content e :=
        {[ (entry_start e, entry_end e, next_work_id s) ]} ∪ content_index s (entry_content e)]>
       (by_content s)).

Lemma insert_work_eq content request first last whole s :
  insert_work content request first last whole s =
  if decide (next_work_id s < U64_MAX) then
    let e := mk_WorkEntry content first last whole request 0 in
    (Ok (entry_dependency (next_work_id s) e), insert_entry e s)
  else (Err (HydrationContract
               (InvalidContentResponse "hydration work identity exhausted")), s).
Proof.
  unfold insert_work. destruct (checked_add _ _ _) as [n|] eqn:Hn.
  - apply checked_add_spec in Hn as [? ->]. by rewrite decide_True by lia.
  - apply checked_add_none in Hn. by rewrite decide_False by lia.
Qed.

Lemma content_index_insert e s c :
  content_index (insert_entry e s) c =
  if decide (c = entry_content e)
  then {[ (entry_start e, entry_end e, next_work_id s) ]} ∪ content_index s c
  else content_index s c.
Proof.
  unfold content_index at 1. cbn. case_decide as Hc.
  - subst. by rewrite lookup_insert_eq.
  - by rewrite lookup_insert_ne.
Qed.

Lemma inv_fresh limits s : coordinator_inv limits s → work s !! next_work_id s = None.
Proof.
  intros Hinv. destruct (work s !! next_work_id s) as [e|] eqn:He; [|done].
  apply (inv_work _ _ Hinv) in He. lia.
Qed.

Lemma lookup_insert_entry limits s e id e' :
  coordinator_inv limits s → work (insert_entry e s) !! id = Some e' →
  (id = next_work_id s ∧ e' = e) ∨ (id ≠ next_work_id s ∧ work s !! id = Some e').
Proof. intros _. cbn. rewrite lookup_insert_Some. naive_solver. Qed.

Lemma insert_entry_inv limits s e :
  coordinator_inv limits s → next_work_id s < U64_MAX → entry_wf e →
  (∀ id e', work s !! id = Some e' → entry_content e' = entry_content e → separate e' e) →
  Z.of_nat (size (work s)) + 1 ≤ max_in_flight_work limits →
  Z.of_nat (size (content_index s (entry_content e))) + 1 ≤ max_in_flight_per_content limits →
  coordinator_inv limits (insert_entry e s).
Proof.
  intros Hinv Hnext Hwf Hsep Hg Hc. pose proof (inv_fresh _ _ Hinv) as Hfresh.
  pose proof Hinv as [H1 H2 H3 H4 H5 H6 H7]. split.
  - cbn. lia.
  - intros id e' He'. cbn [insert_entry next_work_id].
    destruct (lookup_insert_entry _ _ _ _ _ Hinv He') as [[-> ->]|[_ Hold]];
      [split; [lia|done]|].
    destruct (H2 _ _ Hold). split; [lia|done].
  - intros c a b id. rewrite content_index_insert. cbn [insert_entry work].
    setoid_rewrite lookup_insert_Some. case_decide as Hce.
    + subst c. rewrite elem_of_union, elem_of_singleton, H3. split.
      * intros [[= -> -> ->]|(e' & He' & <- & <- & <-)]; [exists e; auto|].
        exists e'. split_and!; [|done..]. right. split; [|done]. intros <-. congruence.
      * intros (e' & [[<- <-]|[? He']] & Hcc & <- & <-); [by left|].
        right. by exists e'.
    + rewrite H3. split.
      * intros (e' & He' & <- & <- & <-). exists e'. split_and!; [|done..]. right.
        split; [|done]. intros <-. congruence.
      * intros (e' & [[<- <-]|[? He']] & Hcc & <- & <-); [by subst|]. by exists e'.
  - intros c. cbn. destruct (decide (c = entry_content e)) as [->|].
    + rewrite lookup_insert_eq. intros [= Hemp]. set_solver.
    + by rewrite lookup_insert_ne.
  - intros id1 id2 e1 e2 He1 He2 Hne Heq.
    destruct (lookup_insert_entry _ _ _ _ _ Hinv He1) as [[-> ->]|[? Hold1]],
      (lookup_insert_entry _ _ _ _ _ Hinv He2) as [[-> ->]|[? Hold2]]; [done| | |eauto].
    + apply separate_sym. by eapply Hsep.
    + by eapply Hsep.
  - cbn. rewrite map_size_insert_None by done. lia.
  - intros c. rewrite content_index_insert. case_decide as Hce; [|done]. subst.
    pose proof (size_union_alt {[(entry_start e, entry_end e, next_work_id s)]}
      (content_index s (entry_content e))) as Hu.
    pose proof (subseteq_size
      (content_index s (entry_content e) ∖ {[(entry_start e, entry_end e, next_work_id s)]})
      (content_index s (entry_content e)) ltac:(set_solver)).
    rewrite size_singleton in Hu. lia.
Qed.

(** *** Removal *)
Lemma content_index_remove id e s c :
  content_index (remove_work id e s) c =
  if decide (c = entry_content e)
  then content_index s c ∖ {[ (entry_start e, entry_end e, id) ]}
  else content_index s c.
Proof.
  unfold content_index at 1. cbn. unfold content_index.
  destruct (decide (c = entry_content e)) as [->|Hc].
  - destruct (by_content s !! entry_content e) as [index|] eqn:Hi; cbn; [|rewrite Hi; cbn; set_solver].
    case_decide as He; [rewrite lookup_delete_eq; cbn; by rewrite He|].
    by rewrite lookup_insert_eq.
  - destruct (by_content s !! entry_content e) as [index|] eqn:Hi; cbn; [|done].
    case_decide; [by rewrite lookup_delete_ne|by rewrite lookup_insert_ne].
Qed.

Lemma remove_work_inv limits s id e :
  coordinator_inv limits s → work s !! id = Some e →
  coordinator_inv limits (remove_work id e s).
Proof.
  intros [H1 H2 H3 H4 H5 H6 H7] He. split.
  - done.
  - intros id' e' He'. cbn in He'. apply lookup_delete_Some in He' as [_ He']. by apply H2.
  - intros c a b id'. rewrite content_index_remove. cbn [remove_work work].
    setoid_rewrite lookup_delete_Some. case_decide as Hce.
    + subst c. rewrite elem_of_difference, elem_of_singleton, H3. split.
      * intros [(e' & He' & Hc & <- & <-) Hneq]. exists e'.
        split_and!; [|done..]. intros <-. simplify_eq.
      * intros (e' & [Hne He'] & Hc & <- & <-). split; [by exists e'|]. by intros [= _ _ ->].
    + rewrite H3. split.
      * intros (e' & He' & <- & <- & <-). exists e'.
        split_and!; [|done..]. intros <-. simplify_eq.
      * intros (e' & [Hne He'] & Hc & <- & <-). by exists e'.
  - intros c. cbn. destruct (by_content s !! entry_content e) as [index|] eqn:Hi; [|done].
    case_decide as Hem.
    + by intros [_ ?%H4]%lookup_delete_Some.
    + intros [[_ ?]|[_ ?%H4]]%lookup_insert_Some; done.
  - intros id1 id2 e1 e2 He1 He2. cbn in He1, He2. apply lookup_delete_Some in He1 as [_ ?], He2 as [_ ?].
    by eapply H5.
  - cbn. rewrite map_size_delete_Some by (eexists; done). lia.
  - intros c. rewrite content_index_remove. specialize (H7 c). case_decide; [|done].
    pose proof (subseteq_size (content_index s c ∖ {[(entry_start e, entry_end e, id)]})
      (content_index s c) ltac:(set_solver)). lia.
Qed.

(** *** Waiter counts *)
Lemma set_waiter_count_shape id n s : same_shape s (set_waiter_count id n s).
Proof.
  unfold set_waiter_count. destruct (work s !! id) as [e|] eqn:He; [|done].
  split_and!; [done..|]. cbn. rewrite fmap_insert. apply insert_id.
  rewrite lookup_fmap, He. done.
Qed.

Lemma add_waiter_shape s id : same_shape s (add_waiter s id).
Proof.
  unfold add_waiter. destruct (work s !! id); [|done]. apply set_waiter_count_shape.
Qed.

Lemma add_waiters_shape ids : ∀ s, same_shape s (add_waiters ids s).
Proof.
  induction ids as [|id ids IH]; intros s; cbn; [done|].
  eapply same_shape_trans; [apply add_waiter_shape|apply IH].
Qed.

Lemma release_one_inv limits s id : coordinator_inv limits s → coordinator_inv limits (release_one s id).
Proof.
  intros Hinv. unfold release_one. destruct (work s !! id) as [e|] eqn:He; [|done].
  case_decide; [by apply remove_work_inv|].
  eapply coordinator_inv_shape; [apply set_waiter_count_shape|done].
Qed.

Lemma release_all_inv limits ids : ∀ s,
  coordinator_inv limits s → coordinator_inv limits (release_all ids s).
Proof.
  induction ids as [|id ids IH]; intros s Hinv; cbn; [done|]. by apply IH, release_one_inv.
Qed.

Definition waiter_count_of (s : CoordinatorState) (id : Z) : Z :=
  match work s !! id with Some e => entry_waiter_count e | None => 0 end.

Lemma lookup_add_waiters ids id : ∀ s,
  NoDup ids →
  work (add_waiters ids s) !! id =
  (λ e, if decide (id ∈ ids)
        then with_waiter_count e (saturating_add USIZE_MAX (entry_waiter_count e) 1)
        else e) <$> work s !! id.
Proof.
  induction ids as [|i ids IH]; intros s Hnd; cbn.
  - destruct (work s !! id) as [e|]; [|done]. cbn. rewrite decide_False; [done|].
    apply not_elem_of_nil.
  - apply list.NoDup_cons in Hnd as [Hi Hnd]. unfold add_waiters in IH. rewrite IH by done. clear IH.
    destruct (decide (id = i)) as [->|Hne].
    + unfold add_waiter, set_waiter_count. destruct (work s !! i) as [e|] eqn:He.
      * cbn. rewrite lookup_insert_eq. cbn.
        by rewrite (decide_False (P := i ∈ ids)), decide_True by set_solver.
      * by rewrite He.
    + replace (work (add_waiter s i) !! id) with (work s !! id).
      * destruct (work s !! id) as [e|]; [|done]. cbn. f_equal.
        destruct (decide (id ∈ ids)).
        -- by rewrite decide_True by set_solver.
        -- by rewrite decide_False by set_solver.
      * unfold add_waiter, set_waiter_count. destruct (work s !! i); [|done].
        cbn. by rewrite lookup_insert_ne.
Qed.

Lemma lookup_release_one s i id :
  work (release_one s i) !! id =
  if decide (id = i) then
    e ← work s !! id;
    let count := saturating_sub (entry_waiter_count e) 1 in
    if decide (count = 0) then None else Some (with_waiter_count e count)
  else work s !! id.
Proof.
  unfold release_one, set_waiter_count. case_decide as Hid; [subst id|].
  - destruct (work s !! i) as [e|] eqn:He; cbn; [|by rewrite He].
    case_decide; cbn; [by rewrite lookup_delete_eq|by rewrite lookup_insert_eq].
  - destruct (work s !! i) as [e|] eqn:He; cbn; [|done].
    case_decide; cbn; [by rewrite lookup_delete_ne|by rewrite lookup_insert_ne].
Qed.

Lemma lookup_release_all ids id : ∀ s,
  NoDup ids →
  work (release_all ids s) !! id =
  if decide (id ∈ ids) then
    e ← work s !! id;
    let count := saturating_sub (entry_waiter_count e) 1 in
    if decide (count = 0) then None else Some (with_waiter_count e count)
  else work s !! id.
Proof.
  induction ids as [|i ids IH]; intros s Hnd; cbn; [done|].
  apply list.NoDup_cons in Hnd as [Hi Hnd]. unfold release_all in IH.
  rewrite IH, lookup_release_one by done.
  destruct (decide (id = i)) as [->|Hne].
  - by rewrite (decide_False (P := i ∈ ids)), decide_True by set_solver.
  - destruct (decide (id ∈ ids)).
    + by rewrite decide_True by set_solver.
    + by rewrite decide_False by set_solver.
Qed.

Lemma release_all_next ids : ∀ s, next_work_id (release_all ids s) = next_work_id s.
Proof.
  induction ids as [|i ids IH]; intros s; cbn; [done|]. unfold release_all in IH.
  rewrite IH. unfold release_one, set_waiter_count. destruct (work s !! i); [|done].
  by case_decide.
Qed.

(** *** Capacity *)
Definition room_for (limits : HydrationLimits) (s : CoordinatorState)
    (content : HydrationContentKey) (n : Z) : Prop :=
  max_in_flight_work limits ≠ 0 ∧ Z.of_nat (size (work s)) + n ≤ max_in_flight_work limits ∧
  max_in_flight_per_content limits ≠ 0 ∧
  Z.of_nat (size (content_index s content)) + n ≤ max_in_flight_per_content limits.

Lemma ensure_capacity_ok limits s content n :
  limits_wf limits → ensure_capacity s content n limits = Ok tt ↔ room_for limits s content n.
Proof.
  intros [? ?]. unfold ensure_capacity, room_for. width. repeat case_decide; crush.
Qed.

(** *** What a registration leaves *)
Record registered (content : HydrationContentKey) (s s' : CoordinatorState)
    (deps : list WorkDependency) : Prop := mk_registered {
  reg_nodup : NoDup (dep_id <$> deps);
  reg_deps : ∀ d, d ∈ deps → ∃ e, work s' !! dep_id d = Some e ∧
    d = entry_dependency (dep_id d) e ∧ entry_content e = content ∧
    entry_waiter_count e = saturating_add USIZE_MAX (waiter_count_of s (dep_id d)) 1;
  reg_frame : ∀ id, id ∉ dep_id <$> deps → work s' !! id = work s !! id;
  reg_kept : ∀ id e, work s !! id = Some e →
    ∃ e', work s' !! id = Some e' ∧ work_shape e' = work_shape e;
  reg_next : next_work_id s ≤ next_work_id s';
}.

(** A failed registration changes no work in flight; work it inserted before
    the identities ran out has no waiter. *)
Definition refused (s s' : CoordinatorState) : Prop :=
  next_work_id s ≤ next_work_id s' ∧
  (∀ id e, work s !! id = Some e → work s' !! id = Some e) ∧
  (∀ id e, work s' !! id = Some e → work s !! id = None → entry_waiter_count e = 0) ∧
  (next_work_id s' < U64_MAX → s' = s).

Lemma refused_refl s : refused s s.
Proof. split_and!; [lia|done| |done]. intros. congruence. Qed.

Lemma find_work_some p s id e :
  find_work p s = Some (id, e) → work s !! id = Some e ∧ p e = true.
Proof.
  unfold find_work. destruct (filter _ _) as [|x l] eqn:Hf; [done|]. cbn. intros [= ->].
  assert (Hx : (id, e) ∈ filter (λ ie : Z * WorkEntry, p ie.2 = true) (map_to_list (work s)))
    by (rewrite Hf; constructor).
  by apply list_elem_of_filter in Hx as [? ?%elem_of_map_to_list].
Qed.

Lemma find_work_none p s : find_work p s = None → ∀ id e, work s !! id = Some e → p e = false.
Proof.
  unfold find_work. destruct (filter _ _) as [|x l] eqn:Hf; [|done]. intros _ id e He.
  destruct (p e) eqn:Hp; [|done]. exfalso.
  assert (Hx : (id, e) ∈ filter (λ ie : Z * WorkEntry, p ie.2 = true) (map_to_list (work s))).
  { apply list_elem_of_filter. split; [done|]. by apply elem_of_map_to_list. }
  rewrite Hf in Hx. by apply elem_of_nil in Hx.
Qed.

Lemma is_whole_of_true c e : is_whole_of c e = true ↔ entry_content e = c ∧ entry_whole e = true.
Proof. unfold is_whole_of. by rewrite andb_true_iff, bool_decide_eq_true. Qed.

Lemma is_empty_at_true c x e : is_empty_at c x e = true ↔
  entry_content e = c ∧ entry_whole e = false ∧ entry_start e = x ∧ entry_end e = x.
Proof.
  unfold is_empty_at. rewrite !andb_true_iff, negb_true_iff, !bool_decide_eq_true. tauto.
Qed.

(** At most one entry matches either search of the table. *)
Lemma matching_work_unique limits s c x id1 id2 e1 e2 :
  coordinator_inv limits s → work s !! id1 = Some e1 → work s !! id2 = Some e2 →
  (is_whole_of c e1 = true ∧ is_whole_of c e2 = true) ∨
  (is_empty_at c x e1 = true ∧ is_empty_at c x e2 = true) →
  id1 = id2.
Proof.
  intros Hinv He1 He2 Hm. destruct (decide (id1 = id2)) as [|Hne]; [done|]. exfalso.
  rewrite !is_whole_of_true, !is_empty_at_true in Hm.
  destruct (inv_separate _ _ Hinv _ _ _ _ He1 He2 Hne) as [H1 H2].
  - destruct Hm as [[[? ?] [? ?]]|[(?&?) (?&?)]]; congruence.
  - destruct Hm as [[[? ?] [? ?]]|[(?&?&?&?) (?&?&?&?)]]; [tauto|].
    destruct H2 as [_ H2]; [done..|]. apply H2. split; congruence.
Qed.

#[export] Hint Resolve refused_refl set_waiter_count_shape add_waiter_shape
  add_waiters_shape same_shape_refl : forge.

(** *** One work item *)
Lemma registered_single content s s' id e0 e :
  work s !! id = Some e0 →
  work s' = <[id := with_waiter_count e0 (saturating_add USIZE_MAX (entry_waiter_count e0) 1)]>
              (work s) →
  next_work_id s' = next_work_id s → entry_content e0 = content →
  e = entry_dependency id e0 → registered content s s' [e].
Proof.
  intros He0 Hw Hn Hc ->. split; cbn.
  - apply list.NoDup_singleton.
  - intros d ->%list_elem_of_singleton. cbn. rewrite Hw, lookup_insert_eq.
    eexists. split_and!; [done..|]. cbn. unfold waiter_count_of. by rewrite He0.
  - intros id' Hid'. rewrite Hw, lookup_insert_ne; [done|]. intros <-. by apply Hid', list_elem_of_singleton.
  - intros id' e' He'. rewrite Hw. destruct (decide (id = id')) as [<-|].
    + rewrite lookup_insert_eq. eexists. split; [done|]. by simplify_eq.
    + rewrite lookup_insert_ne by done. eauto.
  - lia.
Qed.

Lemma register_new_spec limits content q first last whole s :
  limits_wf limits → coordinator_inv limits s →
  let e0 := mk_WorkEntry content first last whole q 0 in
  entry_wf e0 →
  (∀ id e, work s !! id = Some e → entry_content e = content → separate e e0) →
  wp (register_new limits content q first last whole s) (λ r s',
    coordinator_inv limits s' ∧
    match r with
    | Ok deps => registered content s s' deps ∧
        ∃ d, deps = [d] ∧ dep_start d = first ∧ dep_end d = last
    | Err _ => refused s s'
    end) s.
Proof.
  intros Hlim Hinv e0 Hwf Hsep. apply wp_bind, wp_pure.
  destruct (ensure_capacity s content 1 limits) as [[]|err] eqn:Hcap;
    [|by split; auto with forge].
  apply ensure_capacity_ok in Hcap as (_ & Hg & _ & Hc); [|done].
  apply wp_bind, wp_equiv. rewrite insert_work_eq.
  case_decide as Hnext; [|by split; auto with forge]. cbv zeta.
  change (mk_WorkEntry content first last whole q 0) with e0.
  assert (Hinv' : coordinator_inv limits (insert_entry e0 s)) by by apply insert_entry_inv.
  pose proof (inv_fresh _ _ Hinv) as Hfresh. unfold update_state, wp. cbn [fst snd].
  split.
  - eapply coordinator_inv_shape; [apply set_waiter_count_shape|exact Hinv'].
  - split; [|by eexists]. unfold set_waiter_count. cbn. rewrite lookup_insert_eq.
    split; cbn; rewrite ?insert_insert_eq.
    + apply list.NoDup_singleton.
    + intros d ->%list_elem_of_singleton. cbn. rewrite lookup_insert_eq.
      eexists. split_and!; [done..|]. cbn. unfold waiter_count_of. rewrite Hfresh. by width.
    + intros id Hid. rewrite lookup_insert_ne; [done|].
      intros <-. by apply Hid, list_elem_of_singleton.
    + intros id e He. rewrite lookup_insert_ne; [by eauto|]. intros <-. congruence.
    + lia.
Qed.

Lemma register_single_spec limits content q p first last whole s :
  limits_wf limits → coordinator_inv limits s →
  let e0 := mk_WorkEntry content first last whole q 0 in
  entry_wf e0 →
  (∀ id e, work s !! id = Some e → p e = true →
     entry_content e = content ∧ entry_start e = first ∧ entry_end e = last) →
  (∀ id e, work s !! id = Some e → entry_content e = content → p e = false → separate e e0) →
  wp (register_single limits content q p first last whole) (λ r s',
    coordinator_inv limits s' ∧
    match r with
    | Ok deps => registered content s s' deps ∧
        ∃ d, deps = [d] ∧ dep_start d = first ∧ dep_end d = last
    | Err _ => refused s s'
    end) s.
Proof.
  intros Hlim Hinv e0 Hwf Hp Hsep. apply wp_equiv. unfold register_single.
  destruct (find_work p s) as [[id e]|] eqn:Hf; apply wp_equiv.
  - apply find_work_some in Hf as [He Hpe]. destruct (Hp _ _ He Hpe) as (Hc & Hst & Hen).
    split; [by eapply coordinator_inv_shape; [apply add_waiter_shape|]|].
    split; [|by eexists]. unfold add_waiter, set_waiter_count. rewrite He.
    by eapply registered_single; rewrite ?He.
  - by apply register_new_spec; eauto using find_work_none.
Qed.

(** *** The gap scan *)
Definition covers (ds : list WorkDependency) (x : Z) : Prop :=
  ∃ d, d ∈ ds ∧ dep_start d ≤ x < dep_end d.

Definition by_start : relation WorkDependency := λ d d', dep_start d ≤ dep_start d'.

#[export] Instance by_start_trans : Transitive by_start.
Proof. unfold by_start. intros ???. lia. Qed.

Lemma scan_gaps_cover pe ds : ∀ cursor x,
  cursor ≤ x < pe →
  covers ds x ∨ ∃ g, g ∈ scan_gaps pe cursor ds ∧ g.1 ≤ x < g.2.
Proof.
  induction ds as [|d ds IH]; intros cursor x Hx; cbn.
  - rewrite decide_True by lia. right. exists (cursor, pe). split; [constructor|done].
  - set (c' := Z.max cursor (Z.min (dep_end d) pe)).
    assert (Hrest : c' ≤ x → covers (d :: ds) x ∨ ∃ g, g ∈ scan_gaps pe c' ds ∧ g.1 ≤ x < g.2).
    { intros ?. destruct (IH c' x) as [(d' & ? & ?)|]; [lia| |by right].
      left. exists d'. split; [by constructor|done]. }
    destruct (decide (dep_start d ≤ x < dep_end d)) as [Hd|Hd].
    { left. exists d. split; [constructor|done]. }
    case_decide as Hgap.
    + destruct (decide (x < Z.min (dep_start d) pe)) as [Hl|Hl].
      * right. eexists. split; [constructor|]. cbn. lia.
      * destruct Hrest as [|(g & ? & ?)]; [unfold c'; lia|by left|].
        right. exists g. split; [by constructor|done].
    + apply Hrest. unfold c'. lia.
Qed.

(** Gaps are non-empty, in order, between the bounds, and share no byte with
    a dependency; every boundary is one of the scan's or of a dependency. *)
Lemma scan_gaps_sound pe ds (P : Z → Prop) : ∀ cursor,
  StronglySorted by_start ds → P cursor → P pe →
  (∀ d, d ∈ ds → P (dep_start d) ∧ P (dep_end d) ∧ dep_start d ≤ dep_end d) →
  StronglySorted (λ g g', g.2 ≤ g'.1) (scan_gaps pe cursor ds) ∧
  ∀ g, g ∈ scan_gaps pe cursor ds →
    cursor ≤ g.1 < g.2 ∧ g.2 ≤ pe ∧ P g.1 ∧ P g.2 ∧
    ∀ d, d ∈ ds → dep_end d ≤ g.1 ∨ g.2 ≤ dep_start d.
Proof.
  induction ds as [|d ds IH]; intros cursor Hsorted Hc Hpe HP; cbn.
  - case_decide; [|split; [constructor|by intros ? ?%elem_of_nil]].
    split; [repeat constructor|]. intros g ->%list_elem_of_singleton. cbn.
    split_and!; try done. by intros ? ?%elem_of_nil.
  - inversion_clear Hsorted as [|? ? Hds Hd]. rewrite list.Forall_forall in Hd.
    destruct (HP d) as (Hs & He & Hse); [constructor|].
    destruct (IH (Z.max cursor (Z.min (dep_end d) pe)) Hds) as [IHs IHg]; clear IH.
    { assert (P (Z.min (dep_end d) pe)) by
        by destruct (Z.min_spec (dep_end d) pe) as [[_ ->]|[_ ->]].
      by destruct (Z.max_spec cursor (Z.min (dep_end d) pe)) as [[_ ->]|[_ ->]]. }
    { done. }
    { intros d' ?. apply HP. by constructor. }
    assert (Hrest : ∀ g, g ∈ scan_gaps pe (Z.max cursor (Z.min (dep_end d) pe)) ds →
      cursor ≤ g.1 < g.2 ∧ g.2 ≤ pe ∧ P g.1 ∧ P g.2 ∧
      ∀ d', d' ∈ d :: ds → dep_end d' ≤ g.1 ∨ g.2 ≤ dep_start d').
    { intros g Hg. destruct (IHg g Hg) as (? & ? & ? & ? & Hsep).
      split_and!; try done; [lia|lia|]. intros d' [->|?]%elem_of_cons; [lia|auto]. }
    case_decide as Hgap; [|by split].
    split.
    + constructor; [done|]. apply list.Forall_forall. intros g Hg. cbn.
      destruct (IHg g Hg) as ([? ?] & _). lia.
    + intros g [->|Hg]%elem_of_cons; [|by apply Hrest]. cbn.
      split_and!; try lia; [done| |].
      * destruct (Z.min_spec (dep_start d) pe) as [[_ ->]|[_ ->]]; done.
      * intros d' [->|Hd']%elem_of_cons; [lia|]. specialize (Hd d' Hd').
        unfold by_start in Hd. lia.
Qed.

(** *** The insertion loop *)

(** The read a request is about belongs to its content key. *)
Definition of_content (content : HydrationContentKey) (q : ContentReadRequest) : Prop :=
  Alignment_wf (hck_alignment content) ∧ in_u64 (hck_expected_size content) ∧
  request_key q = hck_key content ∧ request_revision q = hck_revision content ∧
  request_expected_size q = hck_expected_size content.

Definition gap_read (q : ContentReadRequest) (g : Z * Z) : ContentReadRequest :=
  ContentReadRequest_range (request_key q) (request_revision q) (request_expected_size q)
    (mk_ByteRange g.1 (g.2 - g.1)).

Definition gap_entry (content : HydrationContentKey) (q : ContentReadRequest) (g : Z * Z)
    : WorkEntry :=
  mk_WorkEntry content g.1 g.2 false (gap_read q g) 0.

Definition gap_wf (content : HydrationContentKey) (g : Z * Z) : Prop :=
  0 ≤ g.1 < g.2 ∧ g.2 ≤ hck_expected_size content ∧
  aligned_at content g.1 ∧ aligned_at content g.2.

Lemma gap_entry_wf content q g :
  of_content content q → gap_wf content g → entry_wf (gap_entry content q g).
Proof.
  intros (Ha & Hsz & Hk & Hr & He) (Hg & Hle & Hal). split; cbn.
  - done.
  - lia.
  - done.
  - lia.
  - done.
  - unfold reads, read_wf, request_extent, ByteRange_wf; cbn. rewrite He.
    unfold in_u64 in Hsz. split_and!; try done; try lia. f_equal; lia.
Qed.

Lemma insert_range_work_eq content q g :
  of_content content q → gap_wf content g →
  insert_range_work content q g.1 g.2 = insert_work content (gap_read q g) g.1 g.2 false.
Proof.
  intros (Ha & Hsz & _) (Hg & Hle & _). unfold insert_range_work, saturating_sub.
  rewrite Z.max_r by lia. unfold ByteRange_new. rewrite decide_False by lia.
  destruct (checked_add _ _ _) eqn:Hc; [|apply checked_add_none in Hc; width].
  unfold pure_result. cbn. reflexivity.
Qed.

(** What the loop inserts: one work per gap, in order, with fresh identities
    and no waiter yet. *)
Record inserted_gaps (content : HydrationContentKey) (q : ContentReadRequest)
    (gaps : list (Z * Z)) (s s' : CoordinatorState) (ds : list WorkDependency) : Prop :=
  mk_inserted_gaps {
  ins_gaps : Forall2 (λ g d, next_work_id s ≤ dep_id d ∧
    work s' !! dep_id d = Some (gap_entry content q g) ∧
    d = entry_dependency (dep_id d) (gap_entry content q g)) gaps ds;
  ins_nodup : NoDup (dep_id <$> ds);
  ins_frame : ∀ id, id ∉ dep_id <$> ds → work s' !! id = work s !! id;
}.

Definition gaps_free (s : CoordinatorState) (content : HydrationContentKey)
    (gaps : list (Z * Z)) : Prop :=
  ∀ g id e, g ∈ gaps → work s !! id = Some e → entry_content e = content →
    entry_whole e = false → entry_end e ≤ g.1 ∨ g.2 ≤ entry_start e.

Definition room_for_gaps (limits : HydrationLimits) (s : CoordinatorState)
    (content : HydrationContentKey) (n : Z) : Prop :=
  Z.of_nat (size (work s)) + n ≤ max_in_flight_work limits ∧
  Z.of_nat (size (content_index s content)) + n ≤ max_in_flight_per_content limits.

Lemma insert_gap_step limits content q g gaps s :
  coordinator_inv limits s → next_work_id s < U64_MAX → of_content content q →
  Forall (gap_wf content) (g :: gaps) → StronglySorted (λ g g', g.2 ≤ g'.1) (g :: gaps) →
  gaps_free s content (g :: gaps) →
  room_for_gaps limits s content (Z.of_nat (length (g :: gaps))) →
  let s1 := insert_entry (gap_entry content q g) s in
  coordinator_inv limits s1 ∧ gaps_free s1 content gaps ∧
  room_for_gaps limits s1 content (Z.of_nat (length gaps)).
Proof.
  intros Hinv Hnext Hq [Hg Hgs]%list.Forall_cons Hsorted Hfree [Hr1 Hr2] s1. cbn [length] in *.
  inversion_clear Hsorted as [|? ? _ Hgg]. rewrite list.Forall_forall in Hgg.
  pose proof (inv_fresh _ _ Hinv) as Hfresh. split_and!.
  - apply insert_entry_inv; try done; [by apply gap_entry_wf| |lia|cbn; lia].
    intros id e He Hc. split; [by intros [_ ?]|]. intros Hw _. cbn. split.
    + eapply Hfree; [constructor|done..].
    + destruct Hg. lia.
  - intros g' id e Hg' He Hc Hw.
    destruct (lookup_insert_entry _ _ _ _ _ Hinv He) as [[-> ->]|[_ Hold]].
    + left. by apply Hgg.
    + eapply Hfree; [by constructor|done..].
  - unfold room_for_gaps, s1. rewrite content_index_insert. cbn.
    rewrite map_size_insert_None, decide_True by done.
    pose proof (size_union_alt {[(g.1, g.2, next_work_id s)]} (content_index s content)) as Hu.
    pose proof (subseteq_size (content_index s content ∖ {[(g.1, g.2, next_work_id s)]})
      (content_index s content) ltac:(set_solver)).
    rewrite size_singleton in Hu. lia.
Qed.

Lemma insert_gaps_spec limits content q gaps : ∀ s,
  coordinator_inv limits s → of_content content q →
  Forall (gap_wf content) gaps → StronglySorted (λ g g', g.2 ≤ g'.1) gaps →
  gaps_free s content gaps →
  room_for_gaps limits s content (Z.of_nat (length gaps)) →
  wp (insert_gaps content q gaps) (λ r s',
    coordinator_inv limits s' ∧ next_work_id s ≤ next_work_id s' ∧
    match r with
    | Ok ds => inserted_gaps content q gaps s s' ds
    | Err _ => U64_MAX ≤ next_work_id s' ∧ refused s s'
    end) s.
Proof.
  induction gaps as [|[a b] gaps IH]; intros s Hinv Hq Hwf Hsorted Hfree Hroom.
  - apply wp_ret. split_and!; [done|lia|]. by split; [constructor|constructor|].
  - pose proof Hwf as [Hg Hgs]%list.Forall_cons. cbn [insert_gaps].
    apply wp_bind, wp_equiv.
    pose proof (insert_range_work_eq content q (a, b) Hq Hg) as Heq. cbn in Heq.
    rewrite Heq, insert_work_eq. clear Heq.
    case_decide as Hnext; [|split_and!; [done|cbn; lia|cbn; lia|apply refused_refl]].
    cbv zeta. cbn [fst snd].
    change (mk_WorkEntry content a b false (gap_read q (a, b)) 0)
      with (gap_entry content q (a, b)).
    set (s1 := insert_entry (gap_entry content q (a, b)) s).
    destruct (insert_gap_step limits content q (a, b) gaps s) as (Hinv1 & Hfree1 & Hroom1);
      [done..|].
    inversion_clear Hsorted as [|? ? Hsorted' _].
    pose proof (inv_fresh _ _ Hinv) as Hfresh.
    apply wp_bind. eapply wp_mono; [by apply IH|].
    intros r s' (Hinv' & Hn' & Hr).
    assert (Hn1 : next_work_id s1 = next_work_id s + 1) by done.
    destruct r as [ds|err]; [apply wp_ret|]; (split; [done|split; [lia|]]).
    + destruct Hr as [Hgaps Hnd Hframe].
      assert (Hids : next_work_id s ∉ dep_id <$> ds).
      { intros (d & Hd & Hin)%list_elem_of_fmap. apply list_elem_of_lookup in Hin as [i Hi].
        destruct (Forall2_lookup_r _ _ _ _ _ Hgaps Hi) as (g & _ & ? & _). lia. }
      split; cbn.
      * constructor.
        -- split_and!; [cbn; lia| |done]. cbn. rewrite Hframe by done. cbn. by rewrite lookup_insert_eq.
        -- eapply list.Forall2_impl; [exact Hgaps|]. intros g d (? & ? & ?).
           split_and!; [lia|done..].
      * by apply list.NoDup_cons.
      * intros id Hid. rewrite Hframe by set_solver. cbn.
        apply lookup_insert_ne. set_solver.
    + destruct Hr as (Hmax & _ & Hk & Hz & _).
      split; [done|]. split_and!; [lia| | |lia].
      * intros id e He. apply Hk. cbn. rewrite lookup_insert_ne; [done|]. intros <-. congruence.
      * intros id e He Hno. destruct (decide (id = next_work_id s)) as [->|Hne].
        -- rewrite (Hk (next_work_id s) (gap_entry content q (a, b))) in He;
             [by simplify_eq|]. cbn. by rewrite lookup_insert_eq.
        -- apply (Hz _ _ He). cbn. by rewrite lookup_insert_ne.
Qed.

(** *** Sharing a range *)
Lemma take_while_sublist {A} (p : A → bool) (l : list A) : sublist (take_while p l) l.
Proof.
  induction l as [|x l IH]; cbn; [done|]. destruct (p x); [by apply sublist_skip|].
  apply sublist_nil_l.
Qed.

Lemma NoDup_omap_id {A} (f : A → option WorkDependency) (key : A → Z) (l : list A) :
  NoDup l → (∀ x y, x ∈ l → y ∈ l → key x = key y → x = y) →
  (∀ x d, f x = Some d → dep_id d = key x) →
  NoDup (dep_id <$> omap f l).
Proof.
  intros Hnd Hinj Hf. induction Hnd as [|x l Hx Hnd IH]; cbn; [constructor|].
  assert (IH' : NoDup (dep_id <$> omap f l)).
  { apply IH. intros y z ? ?. apply Hinj; by constructor. }
  destruct (f x) as [d|] eqn:Hfx; [|done]. cbn. apply list.NoDup_cons. split; [|done].
  intros (d' & Hd & (y & Hy & Hfy)%list_elem_of_omap)%list_elem_of_fmap.
  assert (x = y); [|by subst].
  apply Hinj; [by constructor|by constructor|].
  by rewrite <- (Hf _ _ Hfx), <- (Hf _ _ Hfy).
Qed.

Definition overlaps (e : WorkEntry) (first last : Z) : Prop :=
  entry_start e < last ∧ first < entry_end e.

#[export] Instance tuple_first_trans : Transitive (λ x y : Z * Z * Z, x.1.1 ≤ y.1.1).
Proof. intros ???. lia. Qed.

Lemma elem_of_overlapping limits s c ps pe d :
  coordinator_inv limits s → 0 ≤ ps < pe → pe ≤ hck_expected_size c →
  d ∈ overlapping_dependencies s c ps pe ↔
  ∃ e, work s !! dep_id d = Some e ∧ d = entry_dependency (dep_id d) e ∧
       entry_content e = c ∧ overlaps e ps pe.
Proof.
  intros Hinv Hps Hpe. unfold overlapping_dependencies. rewrite list_elem_of_omap.
  assert (Hin : ∀ x, x ∈ take_while (λ '(first, _, _), bool_decide (first < pe))
      (sort_by tuple_leb (elements (content_index s c))) ↔
    (∃ e, work s !! x.2 = Some e ∧ entry_content e = c ∧ entry_start e = x.1.1 ∧
          entry_end e = x.1.2) ∧ x.1.1 < pe).
  { intros [[a b] id]. rewrite (elem_of_take_while (λ x y : Z * Z * Z, x.1.1 ≤ y.1.1)).
    - by rewrite sort_by_perm, elem_of_elements, (inv_index _ _ Hinv), bool_decide_eq_true.
    - apply sort_by_sorted; [apply _| |];
        intros [[? ?] ?] [[? ?] ?]; unfold tuple_leb; cbn;
        rewrite ?orb_true_iff, ?orb_false_iff, ?andb_true_iff, ?andb_false_iff; lia.
    - intros [[? ?] ?] [[? ?] ?]. cbn. rewrite !bool_decide_eq_true. lia. }
  unfold ranges_overlap. split.
  - intros ([[a b] id] & Hx%Hin & Hsome). cbn in *.
    destruct Hx as [(e & He & Hc & <- & <-) Hlt]. rewrite He in Hsome. cbn in Hsome.
    destruct (inv_work _ _ Hinv _ _ He) as [_ Hwf].
    destruct (entry_whole e) eqn:Hw; cbn in Hsome.
    + injection Hsome as <-. exists e. split_and!; try done.
      destruct (ewf_whole _ Hwf Hw). unfold overlaps. rewrite Hc in *. lia.
    + destruct (bool_decide_reflect (ps < entry_end e)),
        (bool_decide_reflect (entry_start e < pe)); cbn in Hsome; simplify_eq.
      exists e. by split_and!.
  - intros (e & He & -> & Hc & Hov1 & Hov2). cbn in *.
    exists (entry_start e, entry_end e, dep_id d). rewrite Hin. split; [eauto 10|].
    cbn. rewrite He. cbn. rewrite !bool_decide_true by lia. cbn. by rewrite orb_true_r.
Qed.

Lemma overlapping_nodup limits s c ps pe :
  coordinator_inv limits s → NoDup (dep_id <$> overlapping_dependencies s c ps pe).
Proof.
  intros Hinv. apply (NoDup_omap_id _ snd).
  - eapply sublist_NoDup; [|apply take_while_sublist].
    rewrite sort_by_perm. apply NoDup_elements.
  - assert (Hin : ∀ x, x ∈ take_while (λ '(first, _, _), bool_decide (first < pe))
      (sort_by tuple_leb (elements (content_index s c))) → x ∈ content_index s c).
    { intros x Hx. apply elem_of_elements. rewrite <- (sort_by_perm tuple_leb).
      eapply elem_of_sublist; [done|apply take_while_sublist]. }
    intros [[a b] id] [[a' b'] id'] H1%Hin H2%Hin Heq. cbn in Heq. subst id'.
    apply (inv_index _ _ Hinv) in H1 as (e & ? & _ & <- & <-), H2 as (e' & ? & _ & <- & <-).
    by simplify_eq.
  - intros [[a b] id] d. cbn. destruct (work s !! id) as [e|]; [|done]. cbn.
    destruct (_ || _); [|done]. by intros [= <-].
Qed.

Lemma dependency_sorted l : StronglySorted by_start (sort_by dependency_leb l).
Proof.
  apply sort_by_sorted; [apply _| |]; intros ? ?; unfold dependency_leb, by_start;
    rewrite ?orb_true_iff, ?orb_false_iff, ?andb_true_iff, ?andb_false_iff; lia.
Qed.

(** What a range registration shares and what it reads: the dependencies
    cover the physical extent in order, every work in flight that overlaps
    it is reused, and new work reads only bytes no work in flight reads. *)
Record shared_range (s : CoordinatorState) (content : HydrationContentKey)
    (ps pe : Z) (deps : list WorkDependency) : Prop := mk_shared_range {
  sr_cover : ∀ x, ps ≤ x < pe → covers deps x;
  sr_sorted : StronglySorted by_start deps;
  sr_reused : ∀ id e, work s !! id = Some e → entry_content e = content →
    id ∈ dep_id <$> deps ↔ overlaps e ps pe;
  sr_new : ∀ d, d ∈ deps → work s !! dep_id d = None →
    ps ≤ dep_start d < dep_end d ∧ dep_end d ≤ pe ∧
    ∀ id e, work s !! id = Some e → entry_content e = content →
      entry_end e ≤ dep_start d ∨ dep_end d ≤ entry_start e;
}.

(** The gaps a range registration would read. *)
Definition range_gaps (s : CoordinatorState) (content : HydrationContentKey) (ps pe : Z)
    : list (Z * Z) :=
  scan_gaps pe ps (sort_by dependency_leb (overlapping_dependencies s content ps pe)).

(** A range registration fails only for want of capacity, with nothing
    changed, or of identities. *)
Definition range_refused (limits : HydrationLimits) (s s' : CoordinatorState)
    (content : HydrationContentKey) (ps pe : Z) : Prop :=
  refused s s' ∧
  (U64_MAX ≤ next_work_id s' ∨
   s' = s ∧ ¬ room_for limits s content (Z.of_nat (length (range_gaps s content ps pe)))).

Section register_range.
Context (limits : HydrationLimits) (content : HydrationContentKey)
  (q : ContentReadRequest) (ps pe : Z) (s : CoordinatorState).
Hypothesis Hlim : limits_wf limits.
Hypothesis Hinv : coordinator_inv limits s.
Hypothesis Hq : of_content content q.
Hypothesis Hextent : 0 ≤ ps < pe.
Hypothesis Hend : pe ≤ hck_expected_size content.
Hypothesis Haligned : aligned_at content ps ∧ aligned_at content pe.

Let existing := sort_by dependency_leb (overlapping_dependencies s content ps pe).
Let gaps := scan_gaps pe ps existing.

Lemma elem_of_existing d :
  d ∈ existing ↔
  ∃ e, work s !! dep_id d = Some e ∧ d = entry_dependency (dep_id d) e ∧
       entry_content e = content ∧ overlaps e ps pe.
Proof. unfold existing. rewrite sort_by_perm. by eapply elem_of_overlapping. Qed.

Lemma existing_gaps :
  StronglySorted (λ g g', g.2 ≤ g'.1) gaps ∧
  ∀ g, g ∈ gaps → ps ≤ g.1 < g.2 ∧ g.2 ≤ pe ∧ gap_wf content g ∧
    ∀ id e, work s !! id = Some e → entry_content e = content →
      entry_end e ≤ g.1 ∨ g.2 ≤ entry_start e.
Proof.
  destruct (scan_gaps_sound pe existing (aligned_at content) ps) as [Hs Hg];
    [apply dependency_sorted|apply Haligned|apply Haligned| |].
  { intros d (e & He & -> & Hc & _)%elem_of_existing. cbn.
    destruct (inv_work _ _ Hinv _ _ He) as [_ [_ Hb _ _ Hal _]]. rewrite Hc in *.
    destruct Hal. split_and!; [done..|lia]. }
  split; [done|]. intros g Hin. destruct (Hg g Hin) as (? & ? & ? & ? & Hsep).
  split_and!; try lia; [split_and!; by try lia|].
  intros id e He Hc.
  destruct (decide (entry_start e < pe)), (decide (ps < entry_end e)); [|lia..].
  apply (Hsep (entry_dependency id e)). apply elem_of_existing. by exists e.
Qed.

(** The state before the waiters are counted. *)
Lemma dependencies_registered s1 ds :
  inserted_gaps content q gaps s s1 ds →
  let deps := sort_by dependency_leb (existing ++ ds) in
  NoDup (dep_id <$> deps) ∧
  (∀ d, d ∈ deps → ∃ e, work s1 !! dep_id d = Some e ∧
     d = entry_dependency (dep_id d) e ∧ entry_content e = content ∧
     entry_waiter_count e = waiter_count_of s (dep_id d)) ∧
  (∀ id, id ∉ dep_id <$> deps → work s1 !! id = work s !! id) ∧
  (∀ id e, work s !! id = Some e → work s1 !! id = Some e) ∧
  shared_range s content ps pe deps.
Proof.
  intros [Hgaps Hnd Hframe] deps.
  assert (Hdeps : ∀ d, d ∈ deps ↔ d ∈ existing ∨ d ∈ ds).
  { intros d. unfold deps. by rewrite sort_by_perm, elem_of_app. }
  assert (Hids : ∀ id, id ∈ dep_id <$> deps ↔ id ∈ dep_id <$> existing ∨ id ∈ dep_id <$> ds).
  { intros id. unfold deps. by rewrite sort_by_perm, fmap_app, elem_of_app. }
  assert (Hnew : ∀ d, d ∈ ds → ∃ g, g ∈ gaps ∧ work s !! dep_id d = None ∧
    work s1 !! dep_id d = Some (gap_entry content q g) ∧
    d = entry_dependency (dep_id d) (gap_entry content q g)).
  { intros d [i Hi]%list_elem_of_lookup.
    destruct (Forall2_lookup_r _ _ _ _ _ Hgaps Hi) as (g & Hg & Hn & ?).
    exists g. split_and!; [by eapply list_elem_of_lookup_2| |tauto..].
    destruct (work s !! dep_id d) as [e|] eqn:He; [|done].
    apply (inv_work _ _ Hinv) in He. lia. }
  assert (Hdisj : ∀ id, id ∈ dep_id <$> existing → id ∈ dep_id <$> ds → False).
  { intros ? (d & -> & (e & He & _)%elem_of_existing)%list_elem_of_fmap
      (d' & Hid & (g & _ & Hno & _)%Hnew)%list_elem_of_fmap. congruence. }
  destruct existing_gaps as [_ Hgp]. split_and!.
  - unfold deps. rewrite sort_by_perm, fmap_app. apply list.NoDup_app. split_and!; [|eauto|done].
    unfold existing. rewrite sort_by_perm. by eapply overlapping_nodup.
  - intros d [Hd|Hd]%Hdeps.
    + pose proof Hd as (e & He & Hde & Hc & _)%elem_of_existing. exists e.
      split_and!; try done.
      * rewrite Hframe; [done|]. intros Hin. eapply Hdisj; [|done].
        by apply list_elem_of_fmap_2.
      * unfold waiter_count_of. by rewrite He.
    + destruct (Hnew d Hd) as (g & _ & Hno & He & Hde). eexists. split_and!; [done..|].
      unfold waiter_count_of. by rewrite Hno.
  - intros id Hid. apply Hframe. rewrite Hids in Hid. tauto.
  - intros id e He. rewrite Hframe; [done|].
    intros (d & -> & (g & _ & Hno & _)%Hnew)%list_elem_of_fmap. congruence.
  - split.
    + intros x Hx. destruct (scan_gaps_cover pe existing ps x Hx) as [(d & Hd & ?)|(g & Hg & ?)].
      * exists d. split; [|done]. apply Hdeps. by left.
      * apply list_elem_of_lookup in Hg as [i Hi].
        destruct (Forall2_lookup_l _ _ _ _ _ Hgaps Hi) as (d & Hd & _ & _ & Hde).
        exists d. split; [apply Hdeps; right; by eapply list_elem_of_lookup_2|].
        by rewrite Hde.
    + apply dependency_sorted.
    + intros id e He Hc. rewrite Hids. split.
      * intros [(d & -> & (e' & He' & _ & _ & ?)%elem_of_existing)%list_elem_of_fmap
               |(d & -> & (g & _ & Hno & _)%Hnew)%list_elem_of_fmap]; by simplify_eq.
      * intros Hov. left. apply list_elem_of_fmap. exists (entry_dependency id e).
        split; [done|]. apply elem_of_existing. by exists e.
    + intros d [(e & He & _)%elem_of_existing|Hd]%Hdeps Hno; [congruence|].
      destruct (Hnew d Hd) as (g & Hg & _ & _ & ->).
      destruct (Hgp g Hg) as (? & ? & _ & Hsep). cbn; split_and!; by try lia.
Qed.

Lemma register_range_spec :
  wp (register_range limits content q ps pe) (λ r s',
    coordinator_inv limits s' ∧
    match r with
    | Ok deps => registered content s s' deps ∧ shared_range s content ps pe deps
    | Err _ => range_refused limits s s' content ps pe
    end) s.
Proof.
  change (wp (register_gaps limits content q existing gaps s) (λ r s',
    coordinator_inv limits s' ∧
    match r with
    | Ok deps => registered content s s' deps ∧ shared_range s content ps pe deps
    | Err _ => range_refused limits s s' content ps pe
    end) s).
  apply wp_bind, wp_pure.
  destruct (ensure_capacity _ _ _ _) as [[]|err] eqn:Hcap.
  2: { split; [done|]. split; [apply refused_refl|]. right. split; [done|].
       intros Hroom. apply ensure_capacity_ok in Hroom; [|done].
       change (range_gaps s content ps pe) with gaps in Hroom. congruence. }
  apply ensure_capacity_ok in Hcap as (_ & Hg & _ & Hc); [|done].
  destruct existing_gaps as [Hsorted Hgp].
  apply wp_bind. eapply wp_mono.
  { eapply (insert_gaps_spec limits content q gaps); try done.
    - apply list.Forall_forall. intros g Hin. by apply Hgp.
    - intros g id e Hin He Hce _. by eapply Hgp. }
  intros r s1 (Hinv1 & Hn & Hr). destruct r as [ds|err]; [|split; [done|split; [by destruct Hr|left; by destruct Hr]]].
  destruct (dependencies_registered s1 ds Hr) as (Hnd & Hd & Hframe & Hkept & Hshared).
  set (deps := sort_by dependency_leb (existing ++ ds)) in *.
  unfold update_state, wp. split.
  - eapply coordinator_inv_shape; [apply add_waiters_shape|done].
  - split; [|done].
    assert (Hlk := λ id, lookup_add_waiters (dep_id <$> deps) id s1 Hnd).
    split; [done| | | |].
    + intros d Hin. destruct (Hd d Hin) as (e & He & Hde & Hce & Hcount).
      rewrite Hlk, He, <- Hcount. cbn. rewrite decide_True by by apply list_elem_of_fmap_2.
      eexists. by split_and!.
    + intros id Hid. rewrite Hlk, Hframe by done.
      destruct (work s !! id); [|done]. cbn. by rewrite decide_False.
    + intros id e He. rewrite Hlk, (Hkept _ _ He). eexists. split; [done|].
      by case_decide.
    + by rewrite (proj1 (add_waiters_shape _ _)).
Qed.
End register_range.
