(* ===== verification/Hydration.v ===== *)
(** * Hydration waiters

    The waiters of [hydration.rs] on top of the work sharing of
    [HydrationWork.v]: the registration of a request, the race between
    completion and cancellation, the single release of a waiter's work, the
    assembly of the requested bytes from the shared reads, and the system of
    one coordinator with any number of waiters as a step relation.  A
    terminal race is one [compare_exchange]; the release that its winner owes
    is a later step, so other calls come between the two. *)
From S2P Require Export HydrationWork.

Definition TERMINAL_PENDING : Z := 0.
Definition TERMINAL_COMPLETED : Z := 1.
Definition TERMINAL_CANCELLED : Z := 2.

(** The part of a waiter that its cancellation handles share: [cancel_tx] is
    whether the sender is still there, [cancel_rx] whether the receiver's
    future is resolved (by a message or by the sender's drop). *)
Record WaiterInner : Type := mk_WaiterInner {
  terminal : Z;
  released : bool;
  work_ids : list Z;
  cancel_tx : bool;
  cancel_rx : bool;
}.

Record HydrationWaiter : Type := mk_HydrationWaiter {
  waiter_request : HydrationRequest;
  target_start : Z;
  target_end : Z;
  dependencies : list WorkDependency;
  inner : WaiterInner;
}.

Inductive HydrationCancellationOutcome : Type :=
  | Cancelled
  | AlreadyCancelled
  | AlreadyCompleted.

#[export] Instance HydrationCancellationOutcome_eq_dec :
  EqDecision HydrationCancellationOutcome.
Proof. solve_decision. Defined.

Definition with_inner (w : HydrationWaiter) (i : WaiterInner) : HydrationWaiter :=
  mk_HydrationWaiter (waiter_request w) (target_start w) (target_end w) (dependencies w) i.

(** [HydrationCoordinator::request]. *)
Definition HydrationCoordinator_request (limits : HydrationLimits) (request : HydrationRequest)
    : action CoordinatorState HydrationError HydrationWaiter :=
  registration ← HydrationCoordinator_register limits request;
  let '(target_start, target_end, dependencies) := registration in
  mret (mk_HydrationWaiter request target_start target_end dependencies
    (mk_WaiterInner TERMINAL_PENDING false (dep_id <$> dependencies) true false)).

(** ** The terminal race *)

(** [AtomicU8::compare_exchange]: the value read and the value left. *)
Definition compare_exchange (cell expected new : Z) : result Z Z * Z :=
  if decide (cell = expected) then (Ok cell, new) else (Err cell, cell).

(** The winner's [cancel_tx.lock().take()]: taking the sender, to send or to
    drop it, resolves the receiver. *)
Definition take_sender (i : WaiterInner) (t : Z) : WaiterInner :=
  mk_WaiterInner t (released i) (work_ids i) false (cancel_rx i || cancel_tx i).

Definition cancel_race (i : WaiterInner) : HydrationCancellationOutcome * WaiterInner :=
  match compare_exchange (terminal i) TERMINAL_PENDING TERMINAL_CANCELLED with
  | (Ok _, t) => (Cancelled, take_sender i t)
  | (Err seen, _) =>
      (if decide (seen = TERMINAL_CANCELLED) then AlreadyCancelled else AlreadyCompleted, i)
  end.

Definition complete_race (i : WaiterInner) : bool * WaiterInner :=
  match compare_exchange (terminal i) TERMINAL_PENDING TERMINAL_COMPLETED with
  | (Ok _, t) => (true, take_sender i t)
  | (Err _, _) => (false, i)
  end.

Definition WaiterInner_release_work (i : WaiterInner) (s : CoordinatorState)
    : WaiterInner * CoordinatorState :=
  if released i then (i, s)
  else (mk_WaiterInner (terminal i) true (work_ids i) (cancel_tx i) (cancel_rx i),
        release_all (work_ids i) s).

Definition WaiterInner_cancel (i : WaiterInner) (s : CoordinatorState)
    : HydrationCancellationOutcome * (WaiterInner * CoordinatorState) :=
  match cancel_race i with
  | (Cancelled, i) => (Cancelled, WaiterInner_release_work i s)
  | (outcome, i) => (outcome, (i, s))
  end.

Definition WaiterInner_complete (i : WaiterInner) (s : CoordinatorState)
    : bool * (WaiterInner * CoordinatorState) :=
  match complete_race i with
  | (true, i) => (true, WaiterInner_release_work i s)
  | (false, i) => (false, (i, s))
  end.

(** ** Assembly *)
Definition checked_slice_total (lengths : list Z) : hydration_result Z :=
  foldl (λ total length, total ← total;
      ok_or (checked_add USIZE_MAX total length)
        (HydrationContract (InvalidContentResponse "hydration result length exceeds usize")))
    (Ok 0) lengths.

Definition combine_slices (slices : list (list byte)) : hydration_result (list byte) :=
  match slices with
  | [] => Ok []
  | [slice] => Ok slice
  | _ => _ ← checked_slice_total (byte_count <$> slices); Ok (concat slices)
  end.

(** The loop over the dependencies and their responses. *)
Fixpoint collect_slices (target_end cursor : Z)
    (pairs : list (WorkDependency * ContentReadResponse))
    : hydration_result (list (list byte) * Z) :=
  match pairs with
  | [] => Ok ([], cursor)
  | (dependency, response) :: pairs =>
      if decide (dep_end dependency ≤ cursor ∨ dep_start dependency >= target_end) then
        collect_slices target_end cursor pairs
      else
        let copy_start := Z.max cursor (dep_start dependency) in
        let copy_end := Z.min target_end (dep_end dependency) in
        let relative_start := saturating_sub copy_start (response_offset response) in
        let relative_end := saturating_sub copy_end (response_offset response) in
        if decide (relative_end > byte_count (response_bytes response) ∨
                   relative_start > relative_end) then
          Err (HydrationContract (InvalidContentResponse
            "hydration dependency did not cover its claimed logical range"))
        else
          let slice := byte_slice (response_bytes response) relative_start relative_end in
          if decide (copy_end = target_end) then Ok ([slice], copy_end)
          else
            rest ← collect_slices target_end copy_end pairs;
            Ok (slice :: rest.1, rest.2)
  end.

Definition HydrationWaiter_assemble (self : HydrationWaiter)
    (responses : list ContentReadResponse) : hydration_result ContentReadResponse :=
  let read := hydration_read (waiter_request self) in
  if decide (target_start self = target_end self) then
    map_err HydrationContract
      (ContentReadResponse_new (request_revision read) (target_start self) []
         (request_expected_size read))
  else if decide (length responses ≠ length (dependencies self)) then
    Err (HydrationContract (InvalidContentResponse
      "hydration dependency result count changed"))
  else
    collected ← collect_slices (target_end self) (target_start self)
                  (zip (dependencies self) responses);
    if decide (collected.2 ≠ target_end self) then
      Err (HydrationContract (InvalidContentResponse
        "hydration dependencies left an uncovered logical range"))
    else
      bytes ← combine_slices collected.1;
      response ← map_err HydrationContract
        (ContentReadResponse_new (request_revision read) (target_start self) bytes
           (request_expected_size read));
      _ ← map_err HydrationContract (ContentReadRequest_validate_response read response);
      Ok response.

(** [HydrationWaiter::wait]: [selected] is what [select] returned, the joined
    results of the shared reads or [None] for the cancellation signal. *)
Definition HydrationWaiter_wait (self : HydrationWaiter)
    (selected : option (hydration_result (list ContentReadResponse))) (s : CoordinatorState)
    : hydration_result ContentReadResponse * (WaiterInner * CoordinatorState) :=
  if decide (terminal (inner self) = TERMINAL_CANCELLED) then
    (Err HydrationCancelled, (inner self, s))
  else match selected with
  | Some joined =>
      match WaiterInner_complete (inner self) s with
      | (true, after) => (joined ≫= HydrationWaiter_assemble self, after)
      | (false, after) => (Err HydrationCancelled, after)
      end
  | None => (Err HydrationCancelled, (inner self, s))
  end.

(** The results of the shared reads, once all of them succeeded. *)
Definition joined_reads
    (read_content : ContentReadRequest → backend_result ContentReadResponse)
    (self : HydrationWaiter) : hydration_result (list ContentReadResponse) :=
  mapM (λ d, shared_read_result read_content (dep_future d)) (dependencies self).

(** [Drop for HydrationWaiter]: a waiter that did not finish cancels. *)
Definition HydrationWaiter_drop (finished : bool) (i : WaiterInner) (s : CoordinatorState)
    : WaiterInner * CoordinatorState :=
  if finished then (i, s) else (WaiterInner_cancel i s).2.

(** ** The system: one coordinator and its waiters *)
Record HydrationSystem : Type := mk_HydrationSystem {
  coordinator : CoordinatorState;
  waiters : gmap Z HydrationWaiter;
}.

Definition HydrationSystem_new : HydrationSystem :=
  mk_HydrationSystem CoordinatorState_default ∅.

Definition unreleased (ws : gmap Z HydrationWaiter) : gmap Z HydrationWaiter :=
  filter (λ '(_, w), released (inner w) = false) ws.

(** The waiters that hold the work [id]. *)
Definition holders (ws : gmap Z HydrationWaiter) (id : Z) : gmap Z HydrationWaiter :=
  filter (λ '(_, w), released (inner w) = false ∧ id ∈ work_ids (inner w)) ws.

Definition HydrationRequest_wf (r : HydrationRequest) : Prop :=
  read_wf (hydration_read r) ∧ Alignment_wf (hydration_alignment r).

Definition after_request (sys : HydrationSystem) (wid : Z)
    (out : hydration_result HydrationWaiter * CoordinatorState) : HydrationSystem :=
  mk_HydrationSystem out.2
    (match out.1 with Ok w => <[wid := w]> (waiters sys) | Err _ => waiters sys end).

Definition set_inner (sys : HydrationSystem) (wid : Z) (w : HydrationWaiter)
    (s : CoordinatorState) (i : WaiterInner) : HydrationSystem :=
  mk_HydrationSystem s (<[wid := with_inner w i]> (waiters sys)).

(** Fewer waiters are alive than a [usize] counts. *)
Inductive hydration_step (limits : HydrationLimits) (sys : HydrationSystem)
    : HydrationSystem → Prop :=
  | step_request wid request :
      waiters sys !! wid = None → HydrationRequest_wf request →
      Z.of_nat (size (unreleased (waiters sys))) < USIZE_MAX →
      hydration_step limits sys
        (after_request sys wid
           (HydrationCoordinator_request limits request (coordinator sys)))
  | step_cancel wid w :
      waiters sys !! wid = Some w →
      hydration_step limits sys
        (set_inner sys wid w (coordinator sys) (cancel_race (inner w)).2)
  | step_complete wid w :
      waiters sys !! wid = Some w →
      hydration_step limits sys
        (set_inner sys wid w (coordinator sys) (complete_race (inner w)).2)
  | step_release wid w :
      waiters sys !! wid = Some w → terminal (inner w) ≠ TERMINAL_PENDING →
      hydration_step limits sys
        (let '(i, s) := WaiterInner_release_work (inner w) (coordinator sys) in
         set_inner sys wid w s i).

Definition hydration_reachable (limits : HydrationLimits) : HydrationSystem → Prop :=
  rtc (hydration_step limits) HydrationSystem_new.

(** ** Extents *)
Lemma logical_extent_ok q a b :
  read_wf q →
  logical_extent q = Ok (a, b) →
  request_extent q = (a, b) ∧ 0 ≤ a ≤ b ∧ b ≤ request_expected_size q ∧
  (a = b → request_range q ≠ ReadWhole → a = request_expected_size q).
Proof.
  intros [Hsz Hrg]. unfold logical_extent, request_extent.
  destruct (request_range q) as [|rg]; [intros [= <- <-]; unfold in_u64 in Hsz; split_and!; (done || lia)|].
  case_decide; [done|]. rewrite ByteRange_end_wf by done. intros [= <- <-].
  destruct Hrg as (?&?&?). split_and!; try lia. f_equal. lia.
Qed.

Lemma logical_extent_err q e :
  logical_extent q = Err e ↔
  ∃ rg, request_range q = ReadRange rg ∧ request_expected_size q < range_offset rg ∧
        e = HydrationBackend (CloudBackendError_new InvalidRequest).
Proof.
  unfold logical_extent. destruct (request_range q) as [|rg].
  - split; [done|]. by intros (? & [=] & _).
  - case_decide; split; try done.
    + intros [= <-]. exists rg. split_and!; [done|lia|done].
    + by intros (? & [= <-] & _ & ->).
    + intros (? & [= <-] & ? & _). lia.
Qed.

Lemma aligned_extent_ok a b size al ps pe :
  Alignment_wf al → 0 ≤ a < b → b ≤ size → size ≤ U64_MAX →
  aligned_extent a b size al = Ok (ps, pe) →
  0 ≤ ps ≤ a ∧ b ≤ pe ≤ size ∧ (alignment_get al | ps) ∧
  ((alignment_get al | pe) ∨ pe = size) ∧
  a - ps < alignment_get al ∧ pe - b < alignment_get al.
Proof.
  destruct al as [al]. unfold Alignment_wf, aligned_extent. cbn. intros Hal Ha Hb Hs.
  assert (Hps : 0 ≤ a / al * al ≤ a ∧ a - a / al * al < al).
  { pose proof (Z.div_mod a al). pose proof (Z.mod_pos_bound a al).
    pose proof (Z.div_pos a al). nia. }
  assert (Hdiv : (al | a / al * al)) by apply Z.divide_factor_r.
  case_decide as Hend; [intros [= <- <-]; split_and!; auto; lia|].
  pose proof (Z.mod_pos_bound b al).
  case_decide as Hrem; cbn.
  - intros [= <- <-]. split_and!; auto; try lia.
    left. rewrite Z.min_l by lia. by apply Z.mod_divide; [lia|].
  - unfold checked_add, ok_or. case_decide; [|done]. cbn. intros [= <- <-].
    split_and!; auto; try lia.
    destruct (Z.min_spec (b + (al - b mod al)) size) as [[_ ->]|[_ ->]]; [left|by right].
    exists (b / al + 1). pose proof (Z.div_mod b al). lia.
Qed.

(** ** Registration *)

(** The dependencies of a request: in order, covering the requested bytes,
    each a read of the same content. *)
Record serves (request : HydrationRequest) (first last : Z) (deps : list WorkDependency)
    : Prop := mk_serves {
  serves_extent : request_extent (hydration_read request) = (first, last);
  serves_bounds : 0 ≤ first ≤ last ∧ last ≤ request_expected_size (hydration_read request);
  serves_cover : ∀ x, first ≤ x < last → covers deps x;
  serves_sorted : StronglySorted by_start deps;
  serves_reads : ∀ d, d ∈ deps → 0 ≤ dep_start d ≤ dep_end d ∧
    reads (HydrationContentKey_from_request request) (dep_future d) (dep_start d) (dep_end d);
}.

Lemma registered_reads limits content s s' deps d :
  coordinator_inv limits s' → registered content s s' deps → d ∈ deps →
  0 ≤ dep_start d ≤ dep_end d ∧ reads content (dep_future d) (dep_start d) (dep_end d).
Proof.
  intros Hinv Hreg Hd. destruct (reg_deps _ _ _ _ Hreg d Hd) as (e & He & -> & <- & _).
  destruct (inv_work _ _ Hinv _ _ He) as [_ []]. cbn. split; [lia|done].
Qed.

Lemma request_of_content r :
  HydrationRequest_wf r →
  of_content (HydrationContentKey_from_request r) (hydration_read r).
Proof. intros [[? ?] ?]. by split_and!. Qed.

Lemma request_separate_whole content q e :
  entry_content e = content → is_whole_of content e = false →
  separate e (mk_WorkEntry content 0 (hck_expected_size content) true q 0).
Proof.
  intros Hc Hp. split; [|done]. intros [Hw _].
  assert (is_whole_of content e = true) by by apply is_whole_of_true. congruence.
Qed.

Lemma request_separate_empty content q e :
  entry_wf e → entry_content e = content →
  is_empty_at content (hck_expected_size content) e = false →
  separate e (mk_WorkEntry content (hck_expected_size content) (hck_expected_size content)
                false q 0).
Proof.
  intros Hwf Hc Hp. pose proof (ewf_bounds _ Hwf) as Hb. rewrite Hc in Hb.
  split; [by intros [_ ?]|]. intros Hw _. cbn. split; [lia|]. intros [He _].
  assert (is_empty_at content (hck_expected_size content) e = true); [|congruence].
  apply is_empty_at_true. pose proof (ewf_empty _ Hwf Hw He). rewrite Hc in *.
  split_and!; (done || lia).
Qed.

Section register.
Context (limits : HydrationLimits) (r : HydrationRequest) (s : CoordinatorState).
Hypothesis Hlim : limits_wf limits.
Hypothesis Hinv : coordinator_inv limits s.
Hypothesis Hr : HydrationRequest_wf r.

Let content := HydrationContentKey_from_request r.
Let read := hydration_read r.

Definition register_post (first last : Z) (res : hydration_result (list WorkDependency))
    (s' : CoordinatorState) : Prop :=
  coordinator_inv limits s' ∧
  match res with
  | Ok deps => registered content s s' deps ∧ serves r first last deps
  | Err _ => refused s s'
  end.

Lemma new_entry_wf first last whole :
  request_extent read = (first, last) →
  0 ≤ first ≤ last → last ≤ request_expected_size read →
  (whole = true → first = 0 ∧ last = request_expected_size read) →
  (whole = false → first = last → first = request_expected_size read) →
  aligned_at content first → aligned_at content last →
  entry_wf (mk_WorkEntry content first last whole read 0).
Proof.
  intros. destruct Hr as [Hrd Hal]. by split.
Qed.

Lemma register_whole_post :
  request_range read = ReadWhole →
  wp (register_whole limits content read) (register_post 0 (request_expected_size read)) s.
Proof.
  intros Hrange. pose proof Hr as [[Hsz _] _]. fold read in Hsz.
  assert (Hext : request_extent read = (0, request_expected_size read)).
  { unfold request_extent. by rewrite Hrange. }
  eapply wp_mono.
  - apply register_single_spec; [done|done| | |].
    + apply new_entry_wf; first [done|by right|by left; apply Z.divide_0_r|
        unfold in_u64 in Hsz; cbn; fold read; lia].
    + intros id e He [Hc Hw]%is_whole_of_true.
      destruct (inv_work _ _ Hinv _ _ He) as [_ Hwf].
      destruct (ewf_whole _ Hwf Hw). rewrite Hc in *. done.
    + intros id e He Hc Hp. by apply request_separate_whole.
  - intros [deps|err] s' [Hinv' Hres]; (split; [done|]); [|done].
    destruct Hres as (Hreg & d & -> & Hs & He). split; [done|]. split.
    + done.
    + unfold in_u64 in Hsz. fold read. lia.
    + intros x Hx. exists d. split; [constructor|]. rewrite Hs, He. done.
    + repeat constructor.
    + intros d' ?. by eapply registered_reads.
Qed.

Lemma register_empty_post offset :
  request_range read ≠ ReadWhole → request_extent read = (offset, offset) →
  offset = request_expected_size read →
  wp (register_empty_range limits content read offset) (register_post offset offset) s.
Proof.
  intros Hrange Hext Hoff. pose proof Hr as [[Hsz _] _]. fold read in Hsz.
  assert (Hoff' : offset = hck_expected_size content) by done.
  eapply wp_mono.
  - apply register_single_spec; [done|done| | |].
    + apply new_entry_wf; first [done|by right|unfold in_u64 in Hsz; lia].
    + intros id e He (Hc & Hw & Hs & He')%is_empty_at_true. done.
    + intros id e He Hc Hp. rewrite Hoff' in *. apply request_separate_empty; [|done..].
      by apply (inv_work _ _ Hinv _ _ He).
  - intros [deps|err] s' [Hinv' Hres]; (split; [done|]); [|done].
    destruct Hres as (Hreg & d & -> & Hs & He). split; [done|]. split.
    + done.
    + unfold in_u64 in Hsz. fold read. lia.
    + intros x Hx. lia.
    + repeat constructor.
    + intros d' ?. by eapply registered_reads.
Qed.

Lemma register_range_post first last ps pe :
  request_extent read = (first, last) → 0 ≤ first < last →
  last ≤ request_expected_size read →
  aligned_extent first last (request_expected_size read) (hydration_alignment r) = Ok (ps, pe) →
  wp (register_range limits content read ps pe) (register_post first last) s.
Proof.
  intros Hext Hf Hl Hal. pose proof Hr as [[Hsz _] Halw]. fold read in Hsz.
  apply aligned_extent_ok in Hal as (Hps & Hpe & Hdps & Hdpe & _);
    [|done|lia|lia|unfold in_u64 in Hsz; lia].
  eapply wp_mono.
  - apply register_range_spec; [done|done|by apply request_of_content|lia|cbn; fold read; lia|].
    split; [by left|]. destruct Hdpe; [by left|by right].
  - intros [deps|err] s' [Hinv' Hres]; (split; [done|]); [|by destruct Hres].
    destruct Hres as (Hreg & Hsh). split; [done|]. split.
    + done.
    + fold read. lia.
    + intros x Hx. apply (sr_cover _ _ _ _ _ Hsh). lia.
    + by apply (sr_sorted _ _ _ _ _ Hsh).
    + intros d' ?. by eapply registered_reads.
Qed.

Lemma HydrationCoordinator_register_spec :
  wp (HydrationCoordinator_register limits r) (λ res s',
    coordinator_inv limits s' ∧
    match res with
    | Ok (first, last, deps) => registered content s s' deps ∧ serves r first last deps
    | Err _ => refused s s'
    end) s.
Proof.
  unfold HydrationCoordinator_register. fold content read.
  apply wp_bind, wp_pure. destruct (logical_extent read) as [[a b]|e] eqn:Hlog;
    [|by split; auto with forge].
  apply logical_extent_ok in Hlog as (Hext & Hab & Hsz & Hempty); [|apply Hr].
  apply wp_bind. apply wp_mono with (register_post a b).
  - destruct (request_range read) as [|rg] eqn:Hrange.
    + unfold request_extent in Hext. rewrite Hrange in Hext. injection Hext as <- <-.
      by apply register_whole_post.
    + case_decide as Heq.
      * subst b. apply register_empty_post; [congruence|done|]. by apply Hempty.
      * apply wp_bind, wp_pure.
        destruct (aligned_extent _ _ _ _) as [[ps pe]|e] eqn:Hal;
          [|by split; auto with forge].
        apply register_range_post; [done|lia|done|done].
  - intros [deps|e] s' Hpost; [apply wp_ret|]; exact Hpost.
Qed.
End register.

(** ** The invariant of the system *)
Section filter_size.
Context {A : Type} (P : Z * A → Prop) `{!∀ x, Decision (P x)}.

Lemma size_filter_fresh (m : gmap Z A) i y :
  m !! i = None →
  size (filter P (<[i := y]> m)) =
  (size (filter P m) + (if decide (P (i, y)) then 1 else 0))%nat.
Proof.
  intros Hi. rewrite map_filter_insert. case_decide.
  - rewrite map_size_insert_None; [lia|]. by apply map_lookup_filter_None_2; left.
  - rewrite delete_id by done. lia.
Qed.

Lemma size_filter_replace (m : gmap Z A) i x y :
  m !! i = Some x →
  (size (filter P (<[i := y]> m)) + (if decide (P (i, x)) then 1 else 0))%nat =
  (size (filter P m) + (if decide (P (i, y)) then 1 else 0))%nat.
Proof.
  intros Hi. rewrite <- (insert_delete_id m i x Hi), insert_insert_eq.
  rewrite !size_filter_fresh by apply lookup_delete_eq. lia.
Qed.
End filter_size.

Record waiter_wf (w : HydrationWaiter) : Prop := mk_waiter_wf {
  ww_ids : work_ids (inner w) = dep_id <$> dependencies w;
  ww_nodup : NoDup (work_ids (inner w));
  ww_request : HydrationRequest_wf (waiter_request w);
  ww_serves : serves (waiter_request w) (target_start w) (target_end w) (dependencies w);
  ww_terminal : terminal (inner w) = TERMINAL_PENDING → released (inner w) = false;
}.

(** The dependency is still in flight, with the extent and the shared read
    the waiter registered. *)
Definition in_flight (s : CoordinatorState) (w : HydrationWaiter) (d : WorkDependency) : Prop :=
  ∃ e, work s !! dep_id d = Some e ∧ d = entry_dependency (dep_id d) e ∧
       entry_content e = HydrationContentKey_from_request (waiter_request w).

Record system_inv (limits : HydrationLimits) (sys : HydrationSystem) : Prop := mk_system_inv {
  si_coordinator : coordinator_inv limits (coordinator sys);
  si_counts : ∀ id e, work (coordinator sys) !! id = Some e →
    entry_waiter_count e = Z.of_nat (size (holders (waiters sys) id));
  si_waiters : ∀ wid w, waiters sys !! wid = Some w → waiter_wf w;
  si_in_flight : ∀ wid w d, waiters sys !! wid = Some w → released (inner w) = false →
    d ∈ dependencies w → in_flight (coordinator sys) w d;
  si_held : next_work_id (coordinator sys) < U64_MAX →
    ∀ id e, work (coordinator sys) !! id = Some e → 0 < entry_waiter_count e;
}.

Lemma holders_lookup ws id wid w :
  holders ws id !! wid = Some w ↔
  ws !! wid = Some w ∧ released (inner w) = false ∧ id ∈ work_ids (inner w).
Proof. unfold holders. by rewrite map_lookup_filter_Some. Qed.

Lemma holders_bound ws id : (size (holders ws id) ≤ size (unreleased ws))%nat.
Proof.
  apply map_subseteq_size, map_subseteq_spec. intros wid w (? & ? & _)%holders_lookup.
  by apply map_lookup_filter_Some.
Qed.

Lemma size_pos {A} (m : gmap Z A) i x : m !! i = Some x → (0 < size m)%nat.
Proof.
  intros Hi. destruct (decide (size m = 0%nat)) as [H0|]; [|lia].
  apply map_size_empty_inv in H0. subst. by rewrite lookup_empty in Hi.
Qed.

(** The counts, for work in flight and for identities not in the table. *)
Lemma waiter_count_holders limits sys id :
  system_inv limits sys →
  waiter_count_of (coordinator sys) id = Z.of_nat (size (holders (waiters sys) id)).
Proof.
  intros Hinv. unfold waiter_count_of.
  destruct (work (coordinator sys) !! id) as [e|] eqn:He; [by eapply si_counts|].
  destruct (decide (holders (waiters sys) id = ∅)) as [->|Hne].
  { by rewrite map_size_empty. }
  apply map_choose in Hne as (wid & w & (Hw & Hrel & Hid)%holders_lookup). exfalso.
  rewrite (ww_ids _ (si_waiters _ _ Hinv _ _ Hw)) in Hid.
  apply list_elem_of_fmap in Hid as (d & -> & Hd).
  destruct (si_in_flight _ _ Hinv _ _ _ Hw Hrel Hd) as (e & He' & _). congruence.
Qed.

Lemma system_inv_new limits : limits_wf limits → system_inv limits HydrationSystem_new.
Proof.
  intros Hlim. split; cbn.
  - by apply coordinator_inv_default.
  - intros ? ? H. by rewrite lookup_empty in H.
  - intros ? ? H. by rewrite lookup_empty in H.
  - intros ? ? ? H. by rewrite lookup_empty in H.
  - intros _ ? ? H. by rewrite lookup_empty in H.
Qed.

(** A step that changes neither the table nor what the waiters hold. *)
Lemma system_inv_inner limits sys wid w i :
  system_inv limits sys → waiters sys !! wid = Some w →
  released i = released (inner w) → work_ids i = work_ids (inner w) →
  (terminal i = TERMINAL_PENDING → terminal (inner w) = TERMINAL_PENDING) →
  system_inv limits (set_inner sys wid w (coordinator sys) i).
Proof.
  intros Hinv Hw Hrel Hids Hterm. pose proof Hinv as [H1 H2 H3 H4 H5].
  assert (Hlk : ∀ wid' w', waiters (set_inner sys wid w (coordinator sys) i) !! wid' = Some w' →
    ∃ w0, waiters sys !! wid' = Some w0 ∧ waiter_request w' = waiter_request w0 ∧
      dependencies w' = dependencies w0 ∧ released (inner w') = released (inner w0) ∧
      (waiter_wf w0 → waiter_wf w')).
  { intros wid' w' [[<- <-]|[Hne Hw']]%(lookup_insert_Some (waiters sys)); [|by exists w'].
    exists w. split_and!; try done. intros []. split; cbn; rewrite ?Hids, ?Hrel; auto. }
  split; cbn [coordinator set_inner]; try done.
  - intros id e He. rewrite (H2 id e He). f_equal.
    pose proof (size_filter_replace
      (λ '(_, w), released (inner w) = false ∧ id ∈ work_ids (inner w))
      (waiters sys) wid w (with_inner w i) Hw) as Hsz.
    cbn in Hsz. rewrite Hrel, Hids in Hsz. unfold holders. cbn. lia.
  - intros wid' w' (w0 & Hw0 & _ & _ & _ & Hwf)%Hlk. eauto.
  - intros wid' w' d (w0 & Hw0 & Hreq & Hdeps & Hr & _)%Hlk Hrel' Hd.
    rewrite Hr in Hrel'. rewrite Hdeps in Hd. unfold in_flight. rewrite Hreq. by eapply H4.
Qed.

Lemma in_flight_kept s s' w d :
  (∀ id e, work s !! id = Some e → ∃ e', work s' !! id = Some e' ∧ work_shape e' = work_shape e) →
  in_flight s w d → in_flight s' w d.
Proof.
  intros Hkept (e & He & Hd & Hc). destruct (Hkept _ _ He) as (e' & He' & Hs).
  apply work_shape_fields in Hs as (Hc' & Hst & Hen & _ & Hf).
  exists e'. split_and!; [done| |congruence]. unfold entry_dependency. rewrite Hst, Hen, Hf. exact Hd.
Qed.

Lemma system_inv_refused limits sys s' :
  system_inv limits sys → coordinator_inv limits s' → refused (coordinator sys) s' →
  system_inv limits (mk_HydrationSystem s' (waiters sys)).
Proof.
  intros Hinv Hc (Hn & Hkept & Hzero & Hsame). split; cbn.
  - done.
  - intros id e He. destruct (work (coordinator sys) !! id) as [e0|] eqn:He0.
    + pose proof (Hkept _ _ He0). simplify_eq. by eapply si_counts.
    + rewrite (Hzero _ _ He He0), <- (waiter_count_holders _ _ _ Hinv).
      unfold waiter_count_of. by rewrite He0.
  - apply (si_waiters _ _ Hinv).
  - intros wid w d Hw Hrel Hd. eapply in_flight_kept; [|by eapply si_in_flight].
    intros id e He. exists e. split; [by apply Hkept|done].
  - intros Hlt. pose proof (Hsame Hlt). subst s'. by apply (si_held _ _ Hinv).
Qed.

Lemma system_inv_registered limits sys wid w s' :
  system_inv limits sys → coordinator_inv limits s' →
  waiters sys !! wid = None → waiter_wf w → released (inner w) = false →
  Z.of_nat (size (unreleased (waiters sys))) < USIZE_MAX →
  registered (HydrationContentKey_from_request (waiter_request w)) (coordinator sys) s'
    (dependencies w) →
  system_inv limits (mk_HydrationSystem s' (<[wid := w]> (waiters sys))).
Proof.
  intros Hinv Hc Hfresh Hwf Hrel Hlive Hreg.
  assert (Hcount : ∀ id, Z.of_nat (size (holders (<[wid := w]> (waiters sys)) id)) =
    waiter_count_of (coordinator sys) id + if decide (id ∈ dep_id <$> dependencies w) then 1 else 0).
  { intros id. rewrite (waiter_count_holders _ _ _ Hinv). unfold holders.
    rewrite size_filter_fresh by done. rewrite <- (ww_ids _ Hwf).
    destruct (decide (id ∈ work_ids (inner w))).
    - rewrite decide_True by done. lia.
    - rewrite decide_False by tauto. lia. }
  assert (Hsmall : ∀ id, waiter_count_of (coordinator sys) id < USIZE_MAX).
  { intros id. rewrite (waiter_count_holders _ _ _ Hinv).
    pose proof (holders_bound (waiters sys) id). lia. }
  assert (Hnonneg : ∀ id, 0 ≤ waiter_count_of (coordinator sys) id).
  { intros id. rewrite (waiter_count_holders _ _ _ Hinv). lia. }
  assert (Hentry : ∀ id e, work s' !! id = Some e →
    entry_waiter_count e = waiter_count_of (coordinator sys) id +
      (if decide (id ∈ dep_id <$> dependencies w) then 1 else 0)).
  { intros id e He. case_decide as Hid.
    - apply list_elem_of_fmap in Hid as (d & -> & Hd).
      destruct (reg_deps _ _ _ _ Hreg d Hd) as (e' & He' & _ & _ & Hcnt).
      simplify_eq. rewrite Hcnt. unfold saturating_add.
      specialize (Hsmall (dep_id d)). lia.
    - rewrite (reg_frame _ _ _ _ Hreg _ Hid) in He. unfold waiter_count_of. rewrite He. lia. }
  split; cbn; [done| | | |].
  - intros id e He. by rewrite Hcount, (Hentry _ _ He).
  - intros wid' w' [[<- <-]|[_ ?]]%lookup_insert_Some; [done|]. by eapply si_waiters.
  - intros wid' w' d [[<- <-]|[_ Hw]]%lookup_insert_Some Hr Hd.
    + destruct (reg_deps _ _ _ _ Hreg d Hd) as (e & ? & ? & ? & _). by exists e.
    + eapply in_flight_kept; [apply (reg_kept _ _ _ _ Hreg)|by eapply si_in_flight].
  - intros Hlt id e He. rewrite (Hentry _ _ He). pose proof (Hnonneg id).
    case_decide as Hid; [lia|]. rewrite (reg_frame _ _ _ _ Hreg _ Hid) in He.
    pose proof (reg_next _ _ _ _ Hreg).
    unfold waiter_count_of. rewrite He. rewrite Z.add_0_r.
    apply (si_held _ _ Hinv) with id; [lia|done].
Qed.

Lemma system_inv_release limits sys wid w :
  system_inv limits sys → waiters sys !! wid = Some w →
  terminal (inner w) ≠ TERMINAL_PENDING → released (inner w) = false →
  system_inv limits
    (set_inner sys wid w (release_all (work_ids (inner w)) (coordinator sys))
       (mk_WaiterInner (terminal (inner w)) true (work_ids (inner w))
          (cancel_tx (inner w)) (cancel_rx (inner w)))).
Proof.
  intros Hinv Hw Hterm Hrel. set (i := mk_WaiterInner _ _ _ _ _).
  set (s' := release_all _ _). pose proof (si_waiters _ _ Hinv _ _ Hw) as Hwf.
  assert (Hlk := λ id, lookup_release_all (work_ids (inner w)) id (coordinator sys) (ww_nodup _ Hwf)).
  fold s' in Hlk.
  assert (Hcount : ∀ id, Z.of_nat (size (holders (<[wid := with_inner w i]> (waiters sys)) id)) =
    Z.of_nat (size (holders (waiters sys) id)) -
      if decide (id ∈ work_ids (inner w)) then 1 else 0).
  { intros id. pose proof (size_filter_replace
      (λ '(_, w), released (inner w) = false ∧ id ∈ work_ids (inner w))
      (waiters sys) wid w (with_inner w i) Hw) as Hsz. cbn in Hsz.
    unfold holders. rewrite (decide_False (P := true = false ∧ _)) in Hsz by by intros [].
    destruct (decide (id ∈ work_ids (inner w))).
    - rewrite decide_True in Hsz by done. lia.
    - rewrite decide_False in Hsz by tauto. lia. }
  assert (Hentry : ∀ id e, work s' !! id = Some e → ∃ e0,
    work (coordinator sys) !! id = Some e0 ∧ work_shape e = work_shape e0 ∧
    entry_waiter_count e = Z.of_nat (size (holders (<[wid := with_inner w i]> (waiters sys)) id)) ∧
    (0 < entry_waiter_count e0 → 0 < entry_waiter_count e)).
  { intros id e He. rewrite Hlk in He. rewrite Hcount. case_decide as Hid.
    - destruct (work (coordinator sys) !! id) as [e0|] eqn:He0; [|done]. cbn in He.
      case_decide as Hz; [done|]. injection He as <-. exists e0. cbn.
      rewrite <- (si_counts _ _ Hinv _ _ He0). unfold saturating_sub in *.
      split_and!; [done|done|lia|lia].
    - exists e. rewrite <- (si_counts _ _ Hinv _ _ He). split_and!; [done|done|lia|done]. }
  split; cbn [coordinator set_inner waiters].
  - apply release_all_inv, Hinv.
  - intros id e He. by destruct (Hentry _ _ He) as (e0 & _ & _ & ? & _).
  - intros wid' w' [[<- <-]|[_ ?]]%lookup_insert_Some; [|by eapply si_waiters].
    destruct Hwf. split; cbn; auto. by intros ?%Hterm.
  - intros wid' w' d [[<- <-]|[Hne Hw']]%lookup_insert_Some Hr Hd; [done|].
    destruct (si_in_flight _ _ Hinv _ _ _ Hw' Hr Hd) as (e0 & He0 & Hde & Hc).
    assert (Hpos : (0 < size (holders (<[wid := with_inner w i]> (waiters sys)) (dep_id d)))%nat).
    { apply (size_pos _ wid' w'). apply holders_lookup. rewrite lookup_insert_ne by done.
      split_and!; [done|done|]. rewrite (ww_ids _ (si_waiters _ _ Hinv _ _ Hw')).
      by apply list_elem_of_fmap_2. }
    specialize (Hcount (dep_id d)). rewrite <- (si_counts _ _ Hinv _ _ He0) in Hcount.
    unfold in_flight. rewrite Hlk. case_decide; [|by exists e0].
    rewrite He0. cbn. unfold saturating_sub. rewrite decide_False by lia.
    eexists. split_and!; [done..|]. done.
  - unfold s'. rewrite release_all_next. intros Hlt id e He.
    destruct (Hentry _ _ He) as (e0 & He0 & _ & _ & Hpos). apply Hpos.
    by apply (si_held _ _ Hinv) with id.
Qed.

Lemma cancel_race_fields i :
  released (cancel_race i).2 = released i ∧ work_ids (cancel_race i).2 = work_ids i ∧
  (terminal (cancel_race i).2 = TERMINAL_PENDING → terminal i = TERMINAL_PENDING).
Proof. unfold cancel_race, compare_exchange. by case_decide. Qed.

Lemma complete_race_fields i :
  released (complete_race i).2 = released i ∧ work_ids (complete_race i).2 = work_ids i ∧
  (terminal (complete_race i).2 = TERMINAL_PENDING → terminal i = TERMINAL_PENDING).
Proof. unfold complete_race, compare_exchange. by case_decide. Qed.

Lemma with_inner_id w : with_inner w (inner w) = w.
Proof. by destruct w. Qed.

Lemma set_inner_id sys wid w :
  waiters sys !! wid = Some w → set_inner sys wid w (coordinator sys) (inner w) = sys.
Proof.
  intros Hw. unfold set_inner. rewrite with_inner_id, insert_id by done. by destruct sys.
Qed.

Lemma HydrationCoordinator_request_spec limits r s :
  limits_wf limits → coordinator_inv limits s → HydrationRequest_wf r →
  wp (HydrationCoordinator_request limits r) (λ res s',
    coordinator_inv limits s' ∧
    match res with
    | Ok w => waiter_wf w ∧ waiter_request w = r ∧ released (inner w) = false ∧
        terminal (inner w) = TERMINAL_PENDING ∧
        registered (HydrationContentKey_from_request r) s s' (dependencies w)
    | Err _ => refused s s'
    end) s.
Proof.
  intros Hlim Hinv Hr. apply wp_bind.
  eapply wp_mono; [by apply HydrationCoordinator_register_spec|].
  intros [[[a b] deps]|e] s' [Hinv' Hres]; [|done].
  destruct Hres as [Hreg Hserves]. apply wp_ret. split; [done|].
  split_and!; try done. split; try done. by apply (reg_nodup _ _ _ _ Hreg).
Qed.

Lemma system_inv_step limits sys sys' :
  limits_wf limits → system_inv limits sys → hydration_step limits sys sys' →
  system_inv limits sys'.
Proof.
  intros Hlim Hinv Hstep. destruct Hstep as [wid r Hfresh Hr Hlive|wid w Hw|wid w Hw|wid w Hw Ht].
  - pose proof (HydrationCoordinator_request_spec limits r (coordinator sys) Hlim
      (si_coordinator _ _ Hinv) Hr) as Hspec.
    apply wp_equiv in Hspec. unfold after_request.
    destruct (HydrationCoordinator_request _ _ _) as [[w|e] s']; cbn in *.
    + destruct Hspec as (? & ? & <- & ? & _ & ?). by apply system_inv_registered.
    + destruct Hspec. by apply system_inv_refused.
  - destruct (cancel_race_fields (inner w)) as (? & ? & ?). by apply system_inv_inner.
  - destruct (complete_race_fields (inner w)) as (? & ? & ?). by apply system_inv_inner.
  - unfold WaiterInner_release_work. destruct (released (inner w)) eqn:Hrel.
    + by rewrite set_inner_id.
    + by apply system_inv_release.
Qed.

Lemma reachable_inv limits sys :
  limits_wf limits → hydration_reachable limits sys → system_inv limits sys.
Proof.
  intros Hlim Hreach. unfold hydration_reachable in Hreach.
  apply (rtc_ind_r (R := hydration_step limits) (system_inv limits) HydrationSystem_new);
    [by apply system_inv_new| |done].
  intros sys1 sys2 _ Hstep Hinv. by eapply system_inv_step.
Qed.

(** ** Assembly *)
Definition slice_read (file : list byte) (d : WorkDependency) (r : ContentReadResponse) : Prop :=
  response_offset r = dep_start d ∧ 0 ≤ dep_start d ≤ dep_end d ∧
  dep_end d ≤ byte_count file ∧ response_bytes r = byte_slice file (dep_start d) (dep_end d).

Lemma collect_slices_exact file last ds rs : ∀ cursor,
  Forall2 (slice_read file) ds rs → StronglySorted by_start ds →
  0 ≤ cursor < last → last ≤ byte_count file →
  (∀ x, cursor ≤ x < last → covers ds x) →
  ∃ slices, collect_slices last cursor (zip ds rs) = Ok (slices, last) ∧
    concat slices = byte_slice file cursor last.
Proof.
  intros cursor Hrs. revert cursor.
  induction Hrs as [|d r ds rs (Hoff & Hb & He & Hbytes) Hrs IH];
    intros cursor Hsorted Hcur Hlast Hcover.
  { destruct (Hcover cursor) as (d & []%elem_of_nil & _). lia. }
  inversion_clear Hsorted as [|? ? Hsorted' Hd]. rewrite list.Forall_forall in Hd.
  cbn [zip zip_with collect_slices].
  case_decide as Hskip.
  { apply IH; try done. intros x Hx. destruct (Hcover x Hx) as (d' & Hd' & Hx').
    apply elem_of_cons in Hd' as [->|Hd']; [lia|]. by exists d'. }
  assert (Hstart : dep_start d ≤ cursor).
  { destruct (Hcover cursor) as (d' & Hd' & Hx'); [lia|].
    apply elem_of_cons in Hd' as [->|Hd']; [lia|].
    specialize (Hd d' Hd'). unfold by_start in Hd. lia. }
  rewrite Hoff, Hbytes, byte_slice_count by lia. rewrite (Z.max_l cursor) by lia.
  unfold saturating_sub. rewrite !Z.max_r by lia. rewrite decide_False by lia.
  rewrite byte_slice_slice by lia.
  replace (dep_start d + (cursor - dep_start d)) with cursor by lia.
  replace (dep_start d + (Z.min last (dep_end d) - dep_start d)) with (Z.min last (dep_end d)) by lia.
  case_decide as Hdone.
  { eexists. rewrite Hdone. split; [done|]. cbn. apply app_nil_r. }
  destruct (IH (Z.min last (dep_end d))) as (slices & Hok & Hcat); try done; [lia| |].
  { intros x Hx. destruct (Hcover x) as (d' & Hd' & Hx'); [lia|].
    apply elem_of_cons in Hd' as [->|Hd']; [lia|]. by exists d'. }
  rewrite Hok. cbn. eexists. split; [done|]. cbn. rewrite Hcat. apply byte_slice_app; lia.
Qed.

Lemma checked_slice_total_ok lengths : ∀ total,
  0 ≤ total → Forall (λ l, 0 ≤ l) lengths → total + foldr Z.add 0 lengths ≤ USIZE_MAX →
  foldl (λ total length, total ← total;
      ok_or (checked_add USIZE_MAX total length)
        (HydrationContract (InvalidContentResponse "hydration result length exceeds usize")))
    (Ok total) lengths = Ok (total + foldr Z.add 0 lengths).
Proof.
  induction lengths as [|l lengths IH]; intros total Ht Hl Hsum; cbn [foldl foldr] in *.
  - by rewrite Z.add_0_r.
  - apply list.Forall_cons in Hl as [Hl Hls].
    assert (Hpos : 0 ≤ foldr Z.add 0 lengths) by by clear -Hls; induction Hls; cbn; lia.
    unfold checked_add at 2. cbn. rewrite decide_True by lia. cbn.
    rewrite IH by (done || lia). f_equal. lia.
Qed.

Lemma combine_slices_ok slices :
  byte_count (concat slices) ≤ USIZE_MAX → combine_slices slices = Ok (concat slices).
Proof.
  intros Hsum. assert (Htotal : checked_slice_total (byte_count <$> slices) =
    Ok (0 + foldr Z.add 0 (byte_count <$> slices))).
  { apply checked_slice_total_ok; [done| |].
    - apply list.Forall_forall. intros ? (b & -> & _)%list_elem_of_fmap. apply byte_count_nonneg.
    - assert (foldr Z.add 0 (byte_count <$> slices) = byte_count (concat slices)); [|lia].
      clear Hsum. induction slices as [|b slices IH]; [done|]. cbn. rewrite byte_count_app. lia. }
  unfold combine_slices. destruct slices as [|s1 [|s2 slices]]; [done| |].
  - cbn. by rewrite app_nil_r.
  - by rewrite Htotal.
Qed.

Lemma mapM_result_ok {E A B} (f : A → result E B) l : ∀ rs,
  mapM f l = Ok rs ↔ Forall2 (λ x r, f x = Ok r) l rs.
Proof.
  induction l as [|x l IH]; intros rs; cbn.
  - split; [intros [= <-]; constructor|by inversion 1].
  - rewrite result_bind_ok. setoid_rewrite result_bind_ok. setoid_rewrite IH. split.
    + intros (r & Hr & rs' & Hrs' & [= <-]). by constructor.
    + inversion 1; subst. by repeat eexists.
Qed.

Lemma Forall2_impl_in {A B} (P Q : A → B → Prop) l k :
  Forall2 P l k → (∀ x y, x ∈ l → P x y → Q x y) → Forall2 Q l k.
Proof.
  induction 1 as [|x y l k Hxy Hlk IH]; intros HPQ; constructor.
  - apply HPQ; [constructor|done].
  - apply IH. intros x' y' ?. apply HPQ. by constructor.
Qed.

(** A backend that answers a read of this content with bytes of the file. *)
Definition reads_file (read_content : ContentReadRequest → backend_result ContentReadResponse)
    (content : HydrationContentKey) (file : list byte) : Prop :=
  byte_count file = hck_expected_size content ∧
  ∀ q r, read_content q = Ok r → request_key q = hck_key content →
    request_revision q = hck_revision content →
    ContentReadResponse_wf r ∧
    response_bytes r =
      byte_slice file (response_offset r) (response_offset r + response_byte_len r).

Lemma shared_read_slice read_content content file d r :
  reads_file read_content content file →
  0 ≤ dep_start d ≤ dep_end d → reads content (dep_future d) (dep_start d) (dep_end d) →
  shared_read_result read_content (dep_future d) = Ok r →
  slice_read file d r.
Proof.
  intros [Hsize Hfile] Hb (Hwf & Hk & Hrev & Hes & Hext) Hread.
  apply result_bind_ok in Hread as (r' & Hr'%map_err_ok & Hread).
  apply result_bind_ok in Hread as ([] & Hval%map_err_ok & [= <-]).
  destruct (Hfile _ _ Hr' Hk Hrev) as [Hrwf Hbytes].
  apply validate_response_iff in Hval as (_ & Htot & Hoff & Hend); [|done|apply Hwf|apply Hwf].
  rewrite Hext in Hoff, Hend. cbn in Hoff, Hend.
  pose proof Hrwf as (Hlen & _ & Hle & _). rewrite <- Hlen in Hend.
  split_and!; try done; [lia|lia|lia|]. by rewrite Hbytes, Hoff, <- Hend, Hoff.
Qed.

Lemma assemble_exact w file rs :
  waiter_wf w → byte_count file = request_expected_size (hydration_read (waiter_request w)) →
  Forall2 (slice_read file) (dependencies w) rs →
  HydrationWaiter_assemble w rs =
  Ok (mk_ContentReadResponse (request_revision (hydration_read (waiter_request w)))
        (target_start w) (byte_slice file (target_start w) (target_end w))
        (target_end w - target_start w) (byte_count file)).
Proof.
  intros [_ _ [[Hsz Hrg] Hal] [Hext Hb Hcover Hsorted _] _] Hfile Hrs.
  unfold in_u64 in Hsz. unfold HydrationWaiter_assemble. rewrite <- Hfile in *.
  case_decide as Hempty.
  { rewrite ContentReadResponse_new_succeeds by (change (byte_count []) with 0; lia). cbn.
    by rewrite Hempty, byte_slice_empty, Z.sub_diag. }
  rewrite decide_False by (apply Forall2_length in Hrs; lia).
  destruct (collect_slices_exact file (target_end w) (dependencies w) rs (target_start w))
    as (slices & Hok & Hcat); try done; try lia.
  rewrite Hok. cbn. rewrite decide_False by (intros Hn; by apply Hn).
  assert (Hcount : byte_count (byte_slice file (target_start w) (target_end w)) =
    target_end w - target_start w) by (apply byte_slice_count; lia).
  rewrite combine_slices_ok by (rewrite Hcat, Hcount; width). cbn.
  rewrite ContentReadResponse_new_succeeds by (rewrite ?Hcat; lia). cbn.
  set (resp := mk_ContentReadResponse _ _ _ _ _).
  assert (Hval : ContentReadRequest_validate_response (hydration_read (waiter_request w)) resp = Ok tt).
  { apply validate_response_iff.
    - unfold ContentReadResponse_wf, resp. cbn. rewrite Hcat. split_and!; (done || lia).
    - unfold in_u64. lia.
    - done.
    - rewrite Hext. unfold resp. cbn. rewrite Hcat. split_and!; (done || lia). }
  rewrite Hval. cbn. unfold resp. by rewrite Hcat, Hcount.
Qed.

Lemma assemble_validates w rs resp :
  waiter_wf w → HydrationWaiter_assemble w rs = Ok resp →
  ContentReadRequest_validate_response (hydration_read (waiter_request w)) resp = Ok tt.
Proof.
  intros [_ _ [[Hsz Hrg] Hal] [Hext Hb _ _ _] _]. unfold in_u64 in Hsz.
  unfold HydrationWaiter_assemble. case_decide as Hempty.
  - intros Hnew%map_err_ok. apply ContentReadResponse_new_ok in Hnew as (Hwf & Hr & Ho & Hby & Ht);
      [|unfold in_u64; lia|done].
    apply validate_response_iff; [done|done|done|]. rewrite Hext, Hr, Ho, Hby, Ht. cbn.
    change (byte_count []) with 0. split_and!; (done || lia).
  - case_decide; [done|].
    intros (collected & _ & Hrest)%result_bind_ok. case_decide; [done|].
    apply result_bind_ok in Hrest as (bytes & _ & Hrest).
    apply result_bind_ok in Hrest as (resp' & _ & Hrest).
    by apply result_bind_ok in Hrest as ([] & Hval%map_err_ok & [= <-]).
Qed.

Lemma wait_pending w selected s :
  terminal (inner w) = TERMINAL_PENDING →
  (HydrationWaiter_wait w selected s).1 =
  match selected with
  | Some joined => joined ≫= HydrationWaiter_assemble w
  | None => Err HydrationCancelled
  end.
Proof.
  intros Hp. unfold HydrationWaiter_wait, WaiterInner_complete, complete_race, compare_exchange.
  rewrite Hp. cbn. by destruct selected.
Qed.

Lemma wait_settled w selected s :
  terminal (inner w) ≠ TERMINAL_PENDING →
  (HydrationWaiter_wait w selected s).1 = Err HydrationCancelled.
Proof.
  intros Hp. unfold HydrationWaiter_wait, WaiterInner_complete, complete_race, compare_exchange.
  case_decide; [done|]. destruct selected; [|done]. by rewrite decide_False.
Qed.

(** ** Sharing and refusal *)
(** What a range request adds to the table: only aligned reads inside the
    physical extent, bound to the content the request names. *)
Definition new_reads_aligned (s s' : CoordinatorState) (content : HydrationContentKey)
    (ps pe : Z) : Prop :=
  ∀ id e, work s' !! id = Some e → work s !! id = None →
    entry_content e = content ∧ ps ≤ entry_start e < entry_end e ∧ entry_end e ≤ pe ∧
    aligned_at content (entry_start e) ∧ aligned_at content (entry_end e) ∧
    request_key (entry_future e) = hck_key content ∧
    request_revision (entry_future e) = hck_revision content ∧
    request_extent (entry_future e) = (entry_start e, entry_end e).

Lemma shared_new_reads limits s s' content ps pe deps :
  coordinator_inv limits s' → registered content s s' deps →
  shared_range s content ps pe deps → new_reads_aligned s s' content ps pe.
Proof.
  intros Hinv Hreg Hsh id e He Hno.
  destruct (decide (id ∈ dep_id <$> deps)) as [Hin|Hin];
    [|by rewrite (reg_frame _ _ _ _ Hreg _ Hin), Hno in He].
  apply list_elem_of_fmap in Hin as (d & -> & Hd).
  destruct (reg_deps _ _ _ _ Hreg d Hd) as (e' & He' & Hde & Hc & _). simplify_eq.
  destruct (sr_new _ _ _ _ _ Hsh d Hd Hno) as (H1 & H2 & _). rewrite Hde in H1, H2. cbn in H1, H2.
  destruct (inv_work _ _ Hinv _ _ He) as [_ [_ _ _ _ [? ?] (_ & ? & ? & _ & ?)]].
  split_and!; (done || lia).
Qed.

Lemma request_range_shares limits s r rg a b ps pe :
  limits_wf limits → coordinator_inv limits s → HydrationRequest_wf r →
  request_range (hydration_read r) = ReadRange rg →
  logical_extent (hydration_read r) = Ok (a, b) → a ≠ b →
  aligned_extent a b (request_expected_size (hydration_read r)) (hydration_alignment r) =
    Ok (ps, pe) →
  wp (HydrationCoordinator_request limits r) (λ res s',
    match res with
    | Ok w => target_start w = a ∧ target_end w = b ∧
        shared_range s (HydrationContentKey_from_request r) ps pe (dependencies w) ∧
        new_reads_aligned s s' (HydrationContentKey_from_request r) ps pe
    | Err _ => range_refused limits s s' (HydrationContentKey_from_request r) ps pe
    end) s.
Proof.
  intros Hlim Hinv Hr Hrange Hlog Hne Hal. pose proof Hr as [[Hsz Hrg] Halw].
  destruct (logical_extent_ok _ _ _ (proj1 Hr) Hlog) as (Hext & Hab & Hb & _).
  pose proof Hal as Hal'. unfold in_u64 in Hsz.
  apply aligned_extent_ok in Hal' as (Hps & Hpe & Hdps & Hdpe & _); [|done|lia..].
  unfold HydrationCoordinator_request, HydrationCoordinator_register. rewrite Hrange, Hlog.
  apply wp_bind, wp_bind, wp_pure. cbv beta iota. apply wp_bind. rewrite decide_False by done.
  apply wp_bind, wp_pure. cbn [hck_expected_size HydrationContentKey_from_request].
  rewrite Hal. eapply wp_mono.
  { apply register_range_spec; [done|done|by apply request_of_content|
      cbn; lia|cbn; lia|split; [by left|destruct Hdpe; [by left|by right]]]. }
  intros [deps|e] s' [Hinv' Hres]; [|done]. destruct Hres as [Hreg Hsh].
  apply wp_ret, wp_ret. split_and!; try done. by eapply shared_new_reads.
Qed.

(** ** Theorems *)

(** C20. In every reachable interleaving of requests, cancellations,
    completions and releases, the table of in-flight reads stays within the
    global and the per-content limit and agrees with its index; no two reads
    of one content duplicate each other; each read's waiter count is exactly
    the number of unreleased waiters that hold it; a waiter that has not
    released keeps every read it depends on; and once every waiter has
    released (and the work identities are not used up) nothing is left. *)
Theorem hydration_accounting (limits : HydrationLimits) (sys : HydrationSystem) :
  limits_wf limits → hydration_reachable limits sys →
  let s := coordinator sys in
  Z.of_nat (size (work s)) ≤ max_in_flight_work limits ∧
  (∀ c, Z.of_nat (size (content_index s c)) ≤ max_in_flight_per_content limits) ∧
  (∀ c first last id, (first, last, id) ∈ content_index s c ↔
     ∃ e, work s !! id = Some e ∧ entry_content e = c ∧
          entry_start e = first ∧ entry_end e = last) ∧
  (∀ id1 id2 e1 e2, work s !! id1 = Some e1 → work s !! id2 = Some e2 → id1 ≠ id2 →
     entry_content e1 = entry_content e2 → separate e1 e2) ∧
  (∀ id e, work s !! id = Some e →
     entry_waiter_count e = Z.of_nat (size (holders (waiters sys) id))) ∧
  (∀ wid w d, waiters sys !! wid = Some w → released (inner w) = false →
     d ∈ dependencies w → in_flight s w d) ∧
  ((∀ wid w, waiters sys !! wid = Some w → released (inner w) = true) →
   next_work_id s < U64_MAX → work s = ∅ ∧ by_content s = ∅).
Proof.
  intros Hlim Hreach s. pose proof (reachable_inv _ _ Hlim Hreach) as Hinv.
  pose proof (si_coordinator _ _ Hinv) as Hc.
  split_and!; [apply Hc|apply Hc|apply Hc|apply Hc|apply Hinv|apply Hinv|].
  intros Hall Hnext. assert (Hw : work s = ∅).
  { apply map_empty. intros id. destruct (work s !! id) as [e|] eqn:He; [|done].
    pose proof (si_held _ _ Hinv Hnext _ _ He) as Hpos.
    rewrite (si_counts _ _ Hinv _ _ He) in Hpos.
    destruct (decide (holders (waiters sys) id = ∅)) as [Hemp|Hne].
    - rewrite Hemp, map_size_empty in Hpos. lia.
    - apply map_choose in Hne as (wid & w & (Hwl & Hrel & _)%holders_lookup).
      specialize (Hall _ _ Hwl). congruence. }
  split; [done|]. apply map_empty. intros c.
  destruct (by_content s !! c) as [index|] eqn:Hi; [|done].
  destruct (set_choose_or_empty index) as [[[[a b] id] Hin]|Hemp].
  - assert (Hin' : (a, b, id) ∈ content_index s c) by (unfold content_index; by rewrite Hi).
    apply (inv_index _ _ Hc) in Hin' as (e & He & _).
    fold s in Hw. change (work s !! id = Some e) in He. by rewrite Hw, lookup_empty in He.
  - apply leibniz_equiv in Hemp. subst. by apply (inv_index_nonempty _ _ Hc) in Hi.
Qed.

(** C21. A range request reads no byte twice.  Its physical extent is the
    least aligned one around the logical range, cut at the end of the file;
    the dependencies of the waiter cover it in order, reuse exactly the work
    in flight that overlaps it, and add reads only for bytes that no work in
    flight reads, each aligned and bound to the request's key and revision.
    It is refused only for want of capacity, with nothing changed, or of work
    identities. *)
Theorem hydration_range_sharing (limits : HydrationLimits) (sys : HydrationSystem)
    (r : HydrationRequest) (rg : ByteRange) (first last ps pe : Z) :
  limits_wf limits → hydration_reachable limits sys → HydrationRequest_wf r →
  request_range (hydration_read r) = ReadRange rg →
  logical_extent (hydration_read r) = Ok (first, last) → first ≠ last →
  aligned_extent first last (request_expected_size (hydration_read r))
    (hydration_alignment r) = Ok (ps, pe) →
  let s := coordinator sys in
  let content := HydrationContentKey_from_request r in
  let alignment := alignment_get (hydration_alignment r) in
  0 ≤ ps ≤ first ∧ last ≤ pe ≤ request_expected_size (hydration_read r) ∧
  (alignment | ps) ∧ ((alignment | pe) ∨ pe = request_expected_size (hydration_read r)) ∧
  first - ps < alignment ∧ pe - last < alignment ∧
  match HydrationCoordinator_request limits r s with
  | (Ok w, s') => target_start w = first ∧ target_end w = last ∧
      shared_range s content ps pe (dependencies w) ∧ new_reads_aligned s s' content ps pe
  | (Err _, s') => range_refused limits s s' content ps pe
  end.
Proof.
  intros Hlim Hreach Hr Hrange Hlog Hne Hal s content alignment.
  pose proof (si_coordinator _ _ (reachable_inv _ _ Hlim Hreach)) as Hinv.
  pose proof (request_range_shares limits s r rg first last ps pe Hlim Hinv Hr Hrange Hlog Hne Hal)
    as Hwp.
  destruct (logical_extent_ok _ _ _ (proj1 Hr) Hlog) as (Hext & Hab & Hb & _).
  pose proof Hr as [[Hsz _] Halw]. unfold in_u64 in Hsz.
  apply aligned_extent_ok in Hal as (? & ? & ? & ? & ? & ?); [|done|lia..].
  split_and!; (done || lia).
Qed.

(** ** One terminal outcome *)
Inductive waiter_call : Type :=
  | CallCancel
  | CallComplete.

Inductive waiter_answer : Type :=
  | AnswerCancel (outcome : HydrationCancellationOutcome)
  | AnswerComplete (won : bool).

Definition waiter_do (call : waiter_call) (i : WaiterInner) (s : CoordinatorState)
    : waiter_answer * (WaiterInner * CoordinatorState) :=
  match call with
  | CallCancel => let '(o, after) := WaiterInner_cancel i s in (AnswerCancel o, after)
  | CallComplete => let '(b, after) := WaiterInner_complete i s in (AnswerComplete b, after)
  end.

Fixpoint waiter_run (calls : list waiter_call) (i : WaiterInner) (s : CoordinatorState)
    : list waiter_answer * (WaiterInner * CoordinatorState) :=
  match calls with
  | [] => ([], (i, s))
  | call :: calls =>
      let '(answer, (i, s)) := waiter_do call i s in
      let '(answers, after) := waiter_run calls i s in
      (answer :: answers, after)
  end.

(** What the call that comes first answers, and what the calls after it do. *)
Definition winning_answer (call : waiter_call) : waiter_answer :=
  match call with CallCancel => AnswerCancel Cancelled | CallComplete => AnswerComplete true end.

Definition losing_answer (winner call : waiter_call) : waiter_answer :=
  match call, winner with
  | CallCancel, CallCancel => AnswerCancel AlreadyCancelled
  | CallCancel, CallComplete => AnswerCancel AlreadyCompleted
  | CallComplete, _ => AnswerComplete false
  end.

Definition settled (winner : waiter_call) (i : WaiterInner) : WaiterInner :=
  mk_WaiterInner
    (match winner with CallCancel => TERMINAL_CANCELLED | CallComplete => TERMINAL_COMPLETED end)
    true (work_ids i) false (cancel_rx i || cancel_tx i).

Lemma waiter_run_settled winner calls i s :
  waiter_run calls (settled winner i) s = (losing_answer winner <$> calls, (settled winner i, s)).
Proof.
  induction calls as [|call calls IH]; [done|]. cbn [waiter_run].
  assert (Hdo : waiter_do call (settled winner i) s = (losing_answer winner call, (settled winner i, s)))
    by by destruct call, winner.
  by rewrite Hdo, IH.
Qed.

(** Whatever sequence of cancellations and completions a pending waiter
    receives, the first call wins and releases the waiter's work exactly
    once; every later cancellation reports the outcome that won, every later
    completion fails, and none of them touches the coordinator. *)
Theorem hydration_terminal_race (winner : waiter_call) (calls : list waiter_call)
    (i : WaiterInner) (s : CoordinatorState) :
  terminal i = TERMINAL_PENDING → released i = false →
  waiter_run (winner :: calls) i s =
  (winning_answer winner :: (losing_answer winner <$> calls),
   (settled winner i, release_all (work_ids i) s)).
Proof.
  intros Hp Hr. cbn [waiter_run].
  assert (Hdo : waiter_do winner i s =
    (winning_answer winner, (settled winner i, release_all (work_ids i) s))).
  { destruct i; cbn in Hp, Hr; subst. by destruct winner. }
  by rewrite Hdo, waiter_run_settled.
Qed.

(** C23. Whatever the backend answers, a response that a waiter of a
    reachable system returns is a valid answer to exactly the request it was
    registered for; when the backend answers with bytes of the file, the
    waiter whose shared reads succeed and that wins the race returns the
    requested bytes, assembled without a gap or an overlap; a failed read is
    reported as it is, and a waiter that lost the race reports the
    cancellation. *)
Theorem hydration_delivers (limits : HydrationLimits) (sys : HydrationSystem) (wid : Z)
    (w : HydrationWaiter) :
  limits_wf limits → hydration_reachable limits sys → waiters sys !! wid = Some w →
  let read := hydration_read (waiter_request w) in
  (∀ selected s resp, (HydrationWaiter_wait w selected s).1 = Ok resp →
     ContentReadRequest_validate_response read resp = Ok tt) ∧
  (∀ read_content file responses s,
     reads_file read_content (HydrationContentKey_from_request (waiter_request w)) file →
     terminal (inner w) = TERMINAL_PENDING →
     joined_reads read_content w = Ok responses →
     let '(first, last) := request_extent read in
     (HydrationWaiter_wait w (Some (Ok responses)) s).1 =
     Ok (mk_ContentReadResponse (request_revision read) first
           (byte_slice file first last) (last - first) (request_expected_size read))) ∧
  (∀ e s, terminal (inner w) = TERMINAL_PENDING →
     (HydrationWaiter_wait w (Some (Err e)) s).1 = Err e) ∧
  (∀ selected s, terminal (inner w) ≠ TERMINAL_PENDING →
     (HydrationWaiter_wait w selected s).1 = Err HydrationCancelled).
Proof.
  intros Hlim Hreach Hw read.
  pose proof (si_waiters _ _ (reachable_inv _ _ Hlim Hreach) _ _ Hw) as Hwf. split_and!.
  - intros selected s resp Hresp.
    destruct (decide (terminal (inner w) = TERMINAL_PENDING)) as [Hp|Hp].
    + rewrite wait_pending in Hresp by done. destruct selected as [joined|]; [|done].
      apply result_bind_ok in Hresp as (rs & _ & Hresp). by eapply assemble_validates.
    + by rewrite wait_settled in Hresp.
  - intros read_content file responses s Hfile Hp Hjoin. pose proof Hfile as [Hsize _].
    unfold read. rewrite (serves_extent _ _ _ _ (ww_serves _ Hwf)), wait_pending by done. cbn.
    rewrite (assemble_exact w file); [by rewrite Hsize|done|done|].
    apply (Forall2_impl_in (λ d r, shared_read_result read_content (dep_future d) = Ok r));
      [by apply mapM_result_ok|].
    intros d rd Hd Hread. destruct (serves_reads _ _ _ _ (ww_serves _ Hwf) d Hd) as [Hb Hrd].
    by eapply shared_read_slice.
  - intros e s Hp. by rewrite wait_pending.
  - intros selected s Hp. by apply wait_settled.
Qed.
