(* ===== verification/HydrationDemo.v ===== *)
(** * A hydration session

    A ten-byte file read through the coordinator with 4-byte alignment: two
    overlapping range requests share their reads.  The session instantiates
    the theorems of [Hydration.v], and shows what is left behind when the
    work identities run out in the middle of a registration. *)
From S2P Require Export Hydration.

Definition demo_key : CloudItemKey :=
  CloudItemKey_new (CloudScope_new (mk_opaque "namespace") (mk_opaque "root")) (mk_opaque "item").
Definition demo_revision : ContentRevision := mk_opaque [Byte.x01].
Definition demo_file : list byte :=
  [Byte.x10; Byte.x11; Byte.x12; Byte.x13; Byte.x14;
   Byte.x15; Byte.x16; Byte.x17; Byte.x18; Byte.x19].

Definition demo_request (offset length : Z) : HydrationRequest :=
  HydrationRequest_range demo_key demo_revision 10 (mk_ByteRange offset length)
    (mk_Alignment 4) (mk_SessionGeneration 1).

(** A backend that serves every read from the file. *)
Definition demo_read (q : ContentReadRequest) : backend_result ContentReadResponse :=
  let '(first, last) := request_extent q in
  if decide (0 ≤ first ≤ last ∧ last ≤ 10) then
    map_err (λ _, CloudBackendError_new InvalidRequest)
      (ContentReadResponse_new (request_revision q) first (byte_slice demo_file first last) 10)
  else Err (CloudBackendError_new InvalidRequest).

Definition demo_step (sys : HydrationSystem) (wid offset length : Z) : HydrationSystem :=
  after_request sys wid
    (HydrationCoordinator_request HydrationLimits_DEFAULT (demo_request offset length)
       (coordinator sys)).

(** The first request reads [0, 4), the second one [4, 8) only. *)
Definition demo_first : HydrationSystem := demo_step HydrationSystem_new 0 0 3.
Definition demo_second : HydrationSystem := demo_step demo_first 1 2 5.

Lemma demo_limits : limits_wf HydrationLimits_DEFAULT.
Proof. by vm_compute. Qed.

Lemma demo_reachable : hydration_reachable HydrationLimits_DEFAULT demo_second.
Proof.
  eapply rtc_l; [|eapply rtc_l; [|apply rtc_refl]].
  - apply (step_request _ _ 0 (demo_request 0 3)); by vm_compute.
  - apply (step_request _ demo_first 1 (demo_request 2 5)); by vm_compute.
Qed.

Definition demo_waiter : HydrationWaiter :=
  default (mk_HydrationWaiter (demo_request 0 1) 0 0 [] (mk_WaiterInner 2 true [] false false))
    (waiters demo_second !! 1).

Lemma response_of_slice revision file a b r :
  0 ≤ a ≤ b → b ≤ byte_count file → byte_count file ≤ U64_MAX →
  ContentReadResponse_new revision a (byte_slice file a b) (byte_count file) = Ok r →
  ContentReadResponse_wf r ∧
  response_bytes r = byte_slice file (response_offset r) (response_offset r + response_byte_len r).
Proof.
  intros Ha Hb Hmax. pose proof (byte_slice_count file a b Ha Hb) as Hcount.
  rewrite ContentReadResponse_new_succeeds by lia. intros [= <-].
  unfold ContentReadResponse_wf. cbn. rewrite Hcount. split_and!; try (done || lia).
  by replace (a + (b - a)) with b by lia.
Qed.

Lemma demo_reads_file :
  reads_file demo_read (HydrationContentKey_from_request (waiter_request demo_waiter)) demo_file.
Proof.
  split; [by vm_compute|]. intros q r Hr _ _. unfold demo_read in Hr.
  destruct (request_extent q) as [a b]. case_decide as Hab; [|discriminate].
  apply map_err_ok in Hr. change 10 with (byte_count demo_file) in Hab, Hr.
  eapply response_of_slice; [apply Hab|apply Hab|by vm_compute|exact Hr].
Qed.

Lemma hydration_accounting_witness :
  size (work (coordinator demo_second)) = 2%nat ∧
  Z.of_nat (size (work (coordinator demo_second))) ≤ 1024.
Proof.
  split; [by vm_compute|].
  exact (proj1 (hydration_accounting HydrationLimits_DEFAULT demo_second
    demo_limits demo_reachable)).
Defined.

Lemma hydration_range_sharing_witness :
  ∃ ps pe, aligned_extent 6 10 10 (mk_Alignment 4) = Ok (ps, pe) ∧ 0 ≤ ps ≤ 6.
Proof.
  exists 4, 10. split; [by vm_compute|].
  refine (proj1 (hydration_range_sharing HydrationLimits_DEFAULT demo_second
    (demo_request 6 9) (mk_ByteRange 6 9) 6 10 4 10 demo_limits demo_reachable _ _ _ _ _));
    by vm_compute.
Defined.

Lemma hydration_terminal_race_witness :
  waiter_run [CallComplete; CallCancel; CallComplete] (inner demo_waiter) (coordinator demo_second) =
  ([AnswerComplete true; AnswerCancel AlreadyCompleted; AnswerComplete false],
   (settled CallComplete (inner demo_waiter),
    release_all [0; 1] (coordinator demo_second))).
Proof.
  exact (hydration_terminal_race CallComplete [CallCancel; CallComplete] (inner demo_waiter)
    (coordinator demo_second) ltac:(by vm_compute) ltac:(by vm_compute)).
Defined.

(** Bytes [2, 7) of the file, from the two shared reads. *)
Lemma hydration_delivers_witness :
  (HydrationWaiter_wait demo_waiter (Some (joined_reads demo_read demo_waiter))
     (coordinator demo_second)).1 =
  Ok (mk_ContentReadResponse demo_revision 2
        [Byte.x12; Byte.x13; Byte.x14; Byte.x15; Byte.x16] 5 10).
Proof.
  destruct (hydration_delivers HydrationLimits_DEFAULT demo_second 1 demo_waiter
    demo_limits demo_reachable ltac:(by vm_compute)) as (_ & Hdeliver & _).
  pose (responses := match joined_reads demo_read demo_waiter with Ok l => l | Err _ => [] end).
  assert (Hjoin : joined_reads demo_read demo_waiter = Ok responses) by by vm_compute.
  rewrite Hjoin.
  exact (Hdeliver demo_read demo_file responses (coordinator demo_second)
    demo_reads_file ltac:(by vm_compute) Hjoin).
Defined.

(** ** Running out of identities

    With one identity left, a request over [0, 10) beside the read [4, 8)
    needs two new reads.  The first is inserted, the second is refused, and
    the first stays in the table without a waiter that could release it. *)
Definition exhausted_state : CoordinatorState :=
  insert_entry
    (mk_WorkEntry (HydrationContentKey_from_request (demo_request 4 4)) 4 8 false
       (hydration_read (demo_request 4 4)) 1)
    (mk_CoordinatorState (U64_MAX - 2) ∅ ∅).

Lemma exhaustion_strands_work :
  let '(res, s) := HydrationCoordinator_request HydrationLimits_DEFAULT (demo_request 0 10)
                     exhausted_state in
  res = Err (HydrationContract (InvalidContentResponse "hydration work identity exhausted")) ∧
  entry_waiter_count <$> work s !! (U64_MAX - 1) = Some 0.
Proof. by vm_compute. Qed.
