(* ===== verification/Health.v ===== *)
(** * Health checks

    [aster_forge_runtime/src/health.rs]: registered checks with their
    requirement, timeout and scopes, the run of the checks of one scope, and
    the aggregate report.  A check's future is a value of an abstract type;
    awaiting it, with or without [tokio::time::timeout], and the measured
    duration are parameters, so a run is a function of what the futures do. *)
From stdpp Require Export pretty.
From S2P Require Export Prelude.

Inductive HealthStatus : Type := Healthy | Degraded | Unhealthy.

#[export] Instance HealthStatus_eq_dec : EqDecision HealthStatus.
Proof. solve_decision. Defined.

Definition HealthStatus_as_str (s : HealthStatus) : string :=
  match s with Healthy => "healthy" | Degraded => "degraded" | Unhealthy => "unhealthy" end.

Definition HealthStatus_is_issue (s : HealthStatus) : bool :=
  match s with Healthy => false | _ => true end.

Inductive HealthCheckScope : Type := Liveness | Readiness | Diagnostics.

#[export] Instance HealthCheckScope_eq_dec : EqDecision HealthCheckScope.
Proof. solve_decision. Defined.

Definition HealthCheckScope_as_str (s : HealthCheckScope) : string :=
  match s with
  | Liveness => "liveness" | Readiness => "readiness" | Diagnostics => "diagnostics"
  end.

Record HealthCheckScopes : Type := mk_HealthCheckScopes {
  scopes_liveness : bool;
  scopes_readiness : bool;
  scopes_diagnostics : bool;
}.

#[export] Instance HealthCheckScopes_eq_dec : EqDecision HealthCheckScopes.
Proof. solve_decision. Defined.

Definition HealthCheckScopes_all := mk_HealthCheckScopes true true true.
Definition HealthCheckScopes_liveness := mk_HealthCheckScopes true false false.
Definition HealthCheckScopes_readiness := mk_HealthCheckScopes false true false.
Definition HealthCheckScopes_diagnostics := mk_HealthCheckScopes false false true.
Definition HealthCheckScopes_readiness_and_diagnostics := mk_HealthCheckScopes false true true.

Definition HealthCheckScopes_contains (self : HealthCheckScopes) (scope : HealthCheckScope)
    : bool :=
  match scope with
  | Liveness => scopes_liveness self
  | Readiness => scopes_readiness self
  | Diagnostics => scopes_diagnostics self
  end.

Inductive HealthCheckRequirement : Type := CheckRequired | CheckOptional.

#[export] Instance HealthCheckRequirement_eq_dec : EqDecision HealthCheckRequirement.
Proof. solve_decision. Defined.

Definition HealthCheckRequirement_runtime_failure_status (r : HealthCheckRequirement)
    : HealthStatus :=
  match r with CheckRequired => Unhealthy | CheckOptional => Degraded end.

(** A [Duration] is a count of nanoseconds. *)
Record HealthCheckOptions : Type := mk_HealthCheckOptions {
  options_requirement : HealthCheckRequirement;
  options_timeout : option Z;
  options_scopes : HealthCheckScopes;
}.

Definition HealthCheckOptions_required (timeout : option Z) : HealthCheckOptions :=
  mk_HealthCheckOptions CheckRequired timeout HealthCheckScopes_all.
Definition HealthCheckOptions_optional (timeout : option Z) : HealthCheckOptions :=
  mk_HealthCheckOptions CheckOptional timeout HealthCheckScopes_all.
Definition HealthCheckOptions_with_timeout (o : HealthCheckOptions) (timeout : option Z) :=
  mk_HealthCheckOptions (options_requirement o) timeout (options_scopes o).
Definition HealthCheckOptions_with_scopes (o : HealthCheckOptions) (scopes : HealthCheckScopes) :=
  mk_HealthCheckOptions (options_requirement o) (options_timeout o) scopes.

Record HealthCheckDescriptor : Type := mk_HealthCheckDescriptor {
  check_name : string;
  check_requirement : HealthCheckRequirement;
  check_timeout : option Z;
  check_scopes : HealthCheckScopes;
}.

(** ** Reports *)
Inductive HealthComponentDetailValue : Type :=
  | Text (value : string)
  | Integer (value : Z)
  | Unsigned (value : Z)
  | Boolean (value : bool)
  | DurationMillis (value : Z).

#[export] Instance HealthComponentDetailValue_eq_dec : EqDecision HealthComponentDetailValue.
Proof. solve_decision. Defined.

Definition HealthComponentDetailValue_value_type (v : HealthComponentDetailValue) : string :=
  match v with
  | Text _ => "text"
  | Integer _ => "integer"
  | Unsigned _ => "unsigned"
  | Boolean _ => "boolean"
  | DurationMillis _ => "duration_millis"
  end.

Definition as_millis (duration : Z) : Z := duration / 1000000.

Definition saturating_duration_millis (duration : Z) : Z := Z.min U64_MAX (as_millis duration).

Definition pad3 (n : Z) : string :=
  (if decide (n < 10) then "00" else if decide (n < 100) then "0" else "") +:+ pretty n.

Definition duration_millis_display_value (millis : Z) : string :=
  if decide (millis < 1000) then pretty millis +:+ "ms"
  else pretty (millis / 1000) +:+ "." +:+ pad3 (millis mod 1000) +:+ "s".

Definition HealthComponentDetailValue_display_value (v : HealthComponentDetailValue) : string :=
  match v with
  | Text value => value
  | Integer value => pretty value
  | Unsigned value => pretty value
  | Boolean value => if value then "true" else "false"
  | DurationMillis value => duration_millis_display_value value
  end.

Record HealthComponentReport : Type := mk_HealthComponentReport {
  component_report_name : string;
  component_report_status : HealthStatus;
  component_report_message : string;
  component_report_duration : option Z;
  component_report_details : list (string * HealthComponentDetailValue);
}.

Definition HealthComponentReport_healthy (name message : string) :=
  mk_HealthComponentReport name Healthy message None [].
Definition HealthComponentReport_degraded (name message : string) :=
  mk_HealthComponentReport name Degraded message None [].
Definition HealthComponentReport_unhealthy (name message : string) :=
  mk_HealthComponentReport name Unhealthy message None [].

Definition HealthComponentReport_with_duration (r : HealthComponentReport) (duration : Z) :=
  mk_HealthComponentReport (component_report_name r) (component_report_status r)
    (component_report_message r) (Some duration) (component_report_details r).

Definition HealthComponentReport_with_detail (r : HealthComponentReport) (key : string)
    (value : HealthComponentDetailValue) :=
  mk_HealthComponentReport (component_report_name r) (component_report_status r)
    (component_report_message r) (component_report_duration r)
    (component_report_details r ++ [(key, value)]).

Definition HealthComponentReport_detail (r : HealthComponentReport) (key : string)
    : option HealthComponentDetailValue :=
  snd ∘ snd <$> list_find (λ kv, kv.1 = key) (component_report_details r).

(** [SystemHealthReport]: its components; the aggregate duration is left out. *)
Definition SystemHealthReport : Type := list HealthComponentReport.

Definition SystemHealthReport_has_issues (components : SystemHealthReport) : bool :=
  existsb (λ c, HealthStatus_is_issue (component_report_status c)) components.

Definition SystemHealthReport_status (components : SystemHealthReport) : HealthStatus :=
  if existsb (λ c, bool_decide (component_report_status c = Unhealthy)) components then Unhealthy
  else if existsb (λ c, bool_decide (component_report_status c = Degraded)) components
  then Degraded else Healthy.

Definition summary_line (c : HealthComponentReport) : string :=
  component_report_name c +:+ " " +:+ HealthStatus_as_str (component_report_status c).

Definition details_line (c : HealthComponentReport) : string :=
  component_report_name c +:+ "=" +:+ HealthStatus_as_str (component_report_status c)
    +:+ ": " +:+ component_report_message c.

Definition SystemHealthReport_summary (components : SystemHealthReport) : string :=
  if decide (components = []) then "system health check did not run any components"
  else String.concat ", " (summary_line <$> components).

Definition SystemHealthReport_details (components : SystemHealthReport) : string :=
  String.concat "; " (details_line <$> components).

Definition component_issues (components : SystemHealthReport) : SystemHealthReport :=
  filter (λ c, HealthStatus_is_issue (component_report_status c) = true) components.

Definition SystemHealthReport_issue_summary (components : SystemHealthReport) : string :=
  let summary := String.concat ", " (summary_line <$> component_issues components) in
  if decide (summary = "") then SystemHealthReport_summary components else summary.

Definition SystemHealthReport_issue_details (components : SystemHealthReport) : string :=
  let details := String.concat "; " (details_line <$> component_issues components) in
  if decide (details = "") then SystemHealthReport_details components else details.

Definition runtime_failure_component (name : string) (requirement : HealthCheckRequirement)
    (message : string) : HealthComponentReport :=
  match HealthCheckRequirement_runtime_failure_status requirement with
  | Healthy => HealthComponentReport_healthy name message
  | Degraded => HealthComponentReport_degraded name message
  | Unhealthy => HealthComponentReport_unhealthy name message
  end.

Definition timeout_component (name : string) (requirement : HealthCheckRequirement)
    (timeout : Z) : HealthComponentReport :=
  runtime_failure_component name requirement
    ("health check timed out after " +:+ pretty (as_millis timeout) +:+ "ms").

(** ** Running the checks *)
Section checks.
Context {F : Type}.

(** What awaiting a check's future gives: its report, or a panic; under a
    timeout, [None] when the timer fires first. *)
Inductive check_end : Type :=
  | CheckReturned (component : HealthComponentReport)
  | CheckPanicked.

Context (await : F → check_end) (timeout_await : Z → F → option check_end) (elapsed : F → Z).

Record RegisteredHealthCheck : Type := mk_RegisteredHealthCheck {
  registered_name : string;
  registered_options : HealthCheckOptions;
  registered_check : F;
}.

Definition RegisteredHealthCheck_descriptor (c : RegisteredHealthCheck)
    : HealthCheckDescriptor :=
  mk_HealthCheckDescriptor (registered_name c) (options_requirement (registered_options c))
    (options_timeout (registered_options c)) (options_scopes (registered_options c)).

(** [HealthCheckRegistry]: the checks in registration order. *)
Definition HealthCheckRegistry : Type := list RegisteredHealthCheck.

Definition HealthCheckRegistry_register_with_options (name : string)
    (options : HealthCheckOptions) (check : F) (r : HealthCheckRegistry) : HealthCheckRegistry :=
  r ++ [mk_RegisteredHealthCheck name options check].

Definition HealthCheckRegistry_register_required (name : string) (timeout : option Z)
    (check : F) : HealthCheckRegistry → HealthCheckRegistry :=
  HealthCheckRegistry_register_with_options name (HealthCheckOptions_required timeout) check.

Definition HealthCheckRegistry_register_optional (name : string) (timeout : option Z)
    (check : F) : HealthCheckRegistry → HealthCheckRegistry :=
  HealthCheckRegistry_register_with_options name (HealthCheckOptions_optional timeout) check.

Definition run_registered_check (c : RegisteredHealthCheck) : HealthComponentReport :=
  let outcome :=
    match options_timeout (registered_options c) with
    | Some timeout =>
        match timeout_await timeout (registered_check c) with
        | Some e => e
        | None => CheckReturned (timeout_component (registered_name c)
                    (options_requirement (registered_options c)) timeout)
        end
    | None => await (registered_check c)
    end in
  let duration := elapsed (registered_check c) in
  match outcome with
  | CheckReturned component =>
      if decide (is_Some (component_report_duration component)) then component
      else HealthComponentReport_with_duration component duration
  | CheckPanicked =>
      HealthComponentReport_with_duration
        (runtime_failure_component (registered_name c)
           (options_requirement (registered_options c)) "health check panicked") duration
  end.

Definition HealthCheckRegistry_run_selected (include : RegisteredHealthCheck → bool)
    (r : HealthCheckRegistry) : SystemHealthReport :=
  run_registered_check <$> filter (λ c, include c = true) r.

Definition HealthCheckRegistry_run : HealthCheckRegistry → SystemHealthReport :=
  HealthCheckRegistry_run_selected (λ _, true).

Definition HealthCheckRegistry_run_scope (scope : HealthCheckScope)
    : HealthCheckRegistry → SystemHealthReport :=
  HealthCheckRegistry_run_selected
    (λ c, HealthCheckScopes_contains (options_scopes (registered_options c)) scope).

Definition HealthCheckRegistry_descriptors (r : HealthCheckRegistry)
    : list HealthCheckDescriptor := RegisteredHealthCheck_descriptor <$> r.

Definition HealthCheckRegistry_descriptors_for_scope (r : HealthCheckRegistry)
    (scope : HealthCheckScope) : list HealthCheckDescriptor :=
  RegisteredHealthCheck_descriptor <$>
    filter (λ c, HealthCheckScopes_contains (options_scopes (registered_options c)) scope = true) r.

(** ** Verification *)

(** Awaiting the check under its options ends in a panic or a timeout. *)
Definition runtime_failed (c : RegisteredHealthCheck) : Prop :=
  match options_timeout (registered_options c) with
  | Some timeout =>
      timeout_await timeout (registered_check c) = None ∨
      timeout_await timeout (registered_check c) = Some CheckPanicked
  | None => await (registered_check c) = CheckPanicked
  end.

(** It returns [component] in time. *)
Definition returned (c : RegisteredHealthCheck) (component : HealthComponentReport) : Prop :=
  match options_timeout (registered_options c) with
  | Some timeout =>
      timeout_await timeout (registered_check c) = Some (CheckReturned component)
  | None => await (registered_check c) = CheckReturned component
  end.

Lemma runtime_failure_status name requirement message duration :
  component_report_status
    (HealthComponentReport_with_duration
       (runtime_failure_component name requirement message) duration) =
  HealthCheckRequirement_runtime_failure_status requirement.
Proof. by destruct requirement. Qed.

Lemma runtime_failure_no_duration name requirement message :
  component_report_duration (runtime_failure_component name requirement message) = None.
Proof. by destruct requirement. Qed.

Lemma run_failed_status c :
  runtime_failed c →
  component_report_status (run_registered_check c) =
  HealthCheckRequirement_runtime_failure_status (options_requirement (registered_options c)).
Proof.
  unfold runtime_failed, run_registered_check, timeout_component.
  destruct (options_timeout _) as [t|]; [intros [-> | ->]|intros ->];
    [rewrite decide_False by (rewrite runtime_failure_no_duration; by intros [])|..];
    apply runtime_failure_status.
Qed.

Lemma run_returned_status c component :
  returned c component →
  component_report_status (run_registered_check c) = component_report_status component.
Proof.
  unfold returned, run_registered_check.
  destruct (options_timeout _) as [t|]; intros ->; by case_decide.
Qed.

Lemma run_has_duration c : is_Some (component_report_duration (run_registered_check c)).
Proof.
  unfold run_registered_check.
  destruct (match options_timeout _ with Some _ => _ | None => _ end) as [component|];
    [case_decide; [done|]|]; cbn; eauto.
Qed.

Lemma status_unhealthy components :
  SystemHealthReport_status components = Unhealthy ↔
  ∃ c, c ∈ components ∧ component_report_status c = Unhealthy.
Proof.
  unfold SystemHealthReport_status.
  destruct (existsb (λ c, bool_decide (_ = Unhealthy)) components) eqn:E.
  - apply existsb_exists in E as (c & Hc & ?%bool_decide_eq_true).
    apply list_elem_of_In in Hc. split; [eauto|done].
  - split; [by destruct (existsb (λ c, bool_decide (_ = Degraded)) components)|
      intros (c & Hc & Hs)].
    rewrite <- not_true_iff_false, existsb_exists in E. destruct E.
    exists c. by rewrite <- list_elem_of_In, bool_decide_eq_true.
Qed.

Lemma status_healthy components :
  SystemHealthReport_status components = Healthy ↔
  ∀ c, c ∈ components → component_report_status c = Healthy.
Proof.
  split.
  - unfold SystemHealthReport_status. intros Hs c Hc.
    destruct (component_report_status c) eqn:E; [done|exfalso..];
      (destruct (existsb (λ c, bool_decide (_ = Unhealthy)) _) eqn:EU; [done|]);
      (destruct (existsb (λ c, bool_decide (_ = Degraded)) _) eqn:ED; [done|]).
    + rewrite <- not_true_iff_false, existsb_exists in ED. destruct ED.
      exists c. by rewrite <- list_elem_of_In, bool_decide_eq_true.
    + rewrite <- not_true_iff_false, existsb_exists in EU. destruct EU.
      exists c. by rewrite <- list_elem_of_In, bool_decide_eq_true.
  - intros Hall. destruct (SystemHealthReport_status components) eqn:E; [done|..].
    + unfold SystemHealthReport_status in E.
      destruct (existsb _ _); [done|]. destruct (existsb _ _) eqn:ED; [|done].
      apply existsb_exists in ED as (c & Hc & Hs%bool_decide_eq_true).
      by rewrite (Hall c) in Hs by by apply list_elem_of_In.
    + apply status_unhealthy in E as (c & Hc & Hs). by rewrite (Hall c) in Hs.
Qed.

Lemma has_issues_status components :
  SystemHealthReport_has_issues components = true ↔
  SystemHealthReport_status components ≠ Healthy.
Proof.
  rewrite status_healthy. unfold SystemHealthReport_has_issues.
  rewrite existsb_exists. split.
  - intros (c & Hc & Hi) Hall. rewrite Hall in Hi; [done|by apply list_elem_of_In].
  - intros Hn.
    destruct (existsb (λ c, HealthStatus_is_issue (component_report_status c)) components) eqn:E;
      [by apply existsb_exists in E|].
    destruct Hn. intros c Hc. destruct (component_report_status c) eqn:Es; [done|exfalso..];
      rewrite <- not_true_iff_false, existsb_exists in E; destruct E; exists c;
      (split; [by apply list_elem_of_In|by rewrite Es]).
Qed.

Lemma returned_or_failed c : (∃ component, returned c component) ∨ runtime_failed c.
Proof.
  unfold returned, runtime_failed. destruct (options_timeout _) as [t|].
  - destruct (timeout_await _ _) as [[component|]|]; eauto.
  - destruct (await _) as [component|]; eauto.
Qed.

Definition in_scope (scope : HealthCheckScope) (c : RegisteredHealthCheck) : Prop :=
  HealthCheckScopes_contains (options_scopes (registered_options c)) scope = true.

#[local] Instance in_scope_dec scope c : Decision (in_scope scope c).
Proof. unfold in_scope. apply _. Defined.

Lemma elem_of_run_scope scope r component :
  component ∈ HealthCheckRegistry_run_scope scope r ↔
  ∃ c, c ∈ r ∧ in_scope scope c ∧ component = run_registered_check c.
Proof.
  unfold HealthCheckRegistry_run_scope, HealthCheckRegistry_run_selected, in_scope.
  rewrite list_elem_of_fmap. setoid_rewrite list_elem_of_filter. naive_solver.
Qed.

(** What the readers of a scope may rely on. *)
Definition scope_contract (scope : HealthCheckScope) (r : HealthCheckRegistry)
    (report : SystemHealthReport) : Prop :=
  Forall2 (λ c component, is_Some (component_report_duration component) ∧
      (∀ x, returned c x → component_report_status component = component_report_status x) ∧
      (runtime_failed c → component_report_status component =
         HealthCheckRequirement_runtime_failure_status
           (options_requirement (registered_options c))))
    (filter (in_scope scope) r) report ∧
  (SystemHealthReport_status report = Healthy ↔
     ∀ c, c ∈ r → in_scope scope c →
       ∃ x, returned c x ∧ component_report_status x = Healthy) ∧
  (SystemHealthReport_status report = Unhealthy ↔
     ∃ c, c ∈ r ∧ in_scope scope c ∧
       ((∃ x, returned c x ∧ component_report_status x = Unhealthy) ∨
        runtime_failed c ∧ options_requirement (registered_options c) = CheckRequired)).

(** Running the checks of a scope gives one report per check in that
    scope, in registration order, each with a duration and the status the
    check returned, or the failure status of its requirement when it panicked
    or timed out.  The aggregate is healthy exactly when every check in scope
    returned healthy, and unhealthy exactly when one returned unhealthy or a
    required one panicked or timed out: an optional check that fails only
    degrades, and a check outside the scope has no effect. *)
Theorem run_scope_contract scope r :
  scope_contract scope r (HealthCheckRegistry_run_scope scope r).
Proof.
  split; [|split].
  - unfold HealthCheckRegistry_run_scope, HealthCheckRegistry_run_selected.
    apply Forall2_fmap_r, Forall_Forall2_diag, list.Forall_true. intros c.
    auto using run_has_duration, run_returned_status, run_failed_status.
  - rewrite status_healthy. setoid_rewrite elem_of_run_scope. split.
    + intros Hall c Hc Hs. pose proof (Hall _ (ex_intro _ c (conj Hc (conj Hs eq_refl)))) as Hh.
      destruct (returned_or_failed c) as [[x Hx]|Hf].
      * rewrite (run_returned_status _ _ Hx) in Hh. eauto.
      * rewrite (run_failed_status _ Hf) in Hh. by destruct (options_requirement _).
    + intros Hall _ (c & Hc & Hs & ->). destruct (Hall c Hc Hs) as (x & Hx & Hh).
      by rewrite (run_returned_status _ _ Hx).
  - rewrite status_unhealthy. setoid_rewrite elem_of_run_scope. split.
    + intros (_ & (c & Hc & Hs & ->) & Hu). exists c. split; [done|]. split; [done|].
      destruct (returned_or_failed c) as [[x Hx]|Hf].
      * rewrite (run_returned_status _ _ Hx) in Hu. eauto.
      * rewrite (run_failed_status _ Hf) in Hu.
        by destruct (options_requirement _); [right|].
    + intros (c & Hc & Hs & Hcase). exists (run_registered_check c). split; [by exists c|].
      destruct Hcase as [(x & Hx & Hu)|[Hf Hr]].
      * by rewrite (run_returned_status _ _ Hx).
      * by rewrite (run_failed_status _ Hf), Hr.
Qed.

(** The issue texts drop healthy components and are never empty when a named
    component has an issue. *)
Lemma component_issues_spec components c :
  c ∈ component_issues components ↔
  c ∈ components ∧ component_report_status c ≠ Healthy.
Proof.
  unfold component_issues. rewrite list_elem_of_filter.
  by destruct (component_report_status c); naive_solver.
Qed.
End checks.
