(* ===== verification/RuntimeGraph.v ===== *)
(** * Runtime components: registration, startup and shutdown order

    [aster_forge_runtime/src/component.rs], [startup.rs] and [shutdown.rs]:
    the registry that describes a process by its components, the phases that
    start and stop them, the validation of their dependency graph and the
    depth-first order in which shutdown phases run.  A phase is a call on the
    outside world that returns, fails or panics; [tokio::time::timeout] is a
    parameter, and measured durations are left out of the reports. *)
From stdpp Require Export relations.
From S2P Require Export Health.

(** ** Descriptors *)
Inductive RuntimeComponentKind : Type :=
  | Core | Database | CacheKind | Storage | Mail | Tasks | ExternalAuth | Product.

Definition RuntimeComponentKind_as_str (k : RuntimeComponentKind) : string :=
  match k with
  | Core => "core"
  | Database => "database"
  | CacheKind => "cache"
  | Storage => "storage"
  | Mail => "mail"
  | Tasks => "tasks"
  | ExternalAuth => "external_auth"
  | Product => "product"
  end.

Inductive StartupPhaseFailurePolicy : Type := StartupRequired | StartupOptional.

#[export] Instance StartupPhaseFailurePolicy_eq_dec : EqDecision StartupPhaseFailurePolicy.
Proof. solve_decision. Defined.

(** A [Duration] is a count of nanoseconds. *)
Record RuntimeShutdownDescriptor : Type := mk_RuntimeShutdownDescriptor {
  shutdown_phase_name : string;
  shutdown_timeout : option Z;
}.

Record RuntimeStartupDescriptor : Type := mk_RuntimeStartupDescriptor {
  startup_phase_name : string;
  startup_failure_policy : StartupPhaseFailurePolicy;
}.

Record RuntimeTaskDescriptor : Type := mk_RuntimeTaskDescriptor {
  task_name : string;
  task_display_name : string;
}.

Record RuntimeComponentDescriptor : Type := mk_RuntimeComponentDescriptor {
  component_name : string;
  component_kind : RuntimeComponentKind;
  component_dependencies : list string;
  component_startup_phases : list RuntimeStartupDescriptor;
  component_health_checks : list HealthCheckDescriptor;
  component_tasks : list RuntimeTaskDescriptor;
  component_shutdown_phases : list RuntimeShutdownDescriptor;
}.

Definition RuntimeComponentDescriptor_new (name : string) : RuntimeComponentDescriptor :=
  mk_RuntimeComponentDescriptor name Product [] [] [] [] [].

Inductive RuntimeComponentGraphError : Type :=
  | MissingDependency (component dependency : string)
  | Cycle (cycle : string).

#[export] Instance RuntimeComponentGraphError_eq_dec : EqDecision RuntimeComponentGraphError.
Proof. solve_decision. Defined.

(** ** Phases *)
Inductive phase_end : Type :=
  | PhaseReturned (r : result string unit)
  | PhasePanicked.

Inductive StartupPhaseStatus : Type :=
  | StartupSucceeded
  | StartupFailed (error : string)
  | SkippedAfterFailure (error : string).

Inductive ShutdownPhaseStatus : Type :=
  | ShutdownSucceeded
  | ShutdownFailed (error : string)
  | ShutdownTimedOut.

Definition StartupPhaseStatus_is_success (s : StartupPhaseStatus) : bool :=
  match s with StartupSucceeded => true | _ => false end.

Definition StartupPhaseStatus_is_failure (s : StartupPhaseStatus) : bool :=
  negb (StartupPhaseStatus_is_success s).

Definition ShutdownPhaseStatus_is_failure (s : ShutdownPhaseStatus) : bool :=
  match s with ShutdownSucceeded => false | _ => true end.

Record StartupPhaseReport : Type := mk_StartupPhaseReport {
  startup_report_name : string;
  startup_report_policy : StartupPhaseFailurePolicy;
  startup_report_status : StartupPhaseStatus;
}.

Record ShutdownPhaseReport : Type := mk_ShutdownPhaseReport {
  shutdown_report_name : string;
  shutdown_report_status : ShutdownPhaseStatus;
}.

Definition StartupReport_aborted (phases : list StartupPhaseReport) : bool :=
  existsb (λ p, match startup_report_status p with
    | StartupFailed _ => bool_decide (startup_report_policy p = StartupRequired)
    | _ => false end) phases.

Definition StartupReport_has_failures (phases : list StartupPhaseReport) : bool :=
  existsb (λ p, StartupPhaseStatus_is_failure (startup_report_status p)) phases.

Definition ShutdownReport_has_failures (phases : list ShutdownPhaseReport) : bool :=
  existsb (λ p, ShutdownPhaseStatus_is_failure (shutdown_report_status p)) phases.

Section registry.
Context {W F : Type}.

(** A phase callback, and the timer that may cut it off. *)
Definition phase_fn : Type := W → phase_end * W.
Context (tokio_timeout : Z → phase_fn → W → option phase_end * W).

Record RegisteredStartupPhase : Type := mk_RegisteredStartupPhase {
  registered_startup_name : string;
  registered_startup_policy : StartupPhaseFailurePolicy;
  registered_startup_phase : phase_fn;
}.

Record RuntimeComponentShutdownPhase : Type := mk_RuntimeComponentShutdownPhase {
  phase_component_name : string;
  phase_phase_name : string;
  phase_timeout : option Z;
  phase_phase : phase_fn;
}.

Record RuntimeComponentRegistry : Type := mk_RuntimeComponentRegistry {
  registry_components : list RuntimeComponentDescriptor;
  registry_startup : list RegisteredStartupPhase;
  registry_health : HealthCheckRegistry (F := F);
  registry_shutdown : list RuntimeComponentShutdownPhase;
}.

Definition RuntimeComponentRegistry_new : RuntimeComponentRegistry :=
  mk_RuntimeComponentRegistry [] [] [] [].

(** *** Startup *)
Definition startup_status (policy : StartupPhaseFailurePolicy) (e : phase_end)
    : StartupPhaseStatus :=
  match match e with
        | PhaseReturned r => r
        | PhasePanicked => Err "startup phase panicked"
        end with
  | Ok _ => StartupSucceeded
  | Err error =>
      if decide (policy = StartupOptional) then SkippedAfterFailure error
      else StartupFailed error
  end.

Fixpoint StartupCoordinator_run (phases : list RegisteredStartupPhase) (w : W)
    : list StartupPhaseReport * W :=
  match phases with
  | [] => ([], w)
  | phase :: phases =>
      let '(e, w) := registered_startup_phase phase w in
      let status := startup_status (registered_startup_policy phase) e in
      let report := mk_StartupPhaseReport (registered_startup_name phase)
        (registered_startup_policy phase) status in
      match status with
      | StartupFailed _ => ([report], w)
      | _ => let '(reports, w) := StartupCoordinator_run phases w in (report :: reports, w)
      end
  end.

(** *** One shutdown phase *)
Definition shutdown_status (e : option phase_end) : ShutdownPhaseStatus :=
  match e with
  | Some (PhaseReturned (Ok _)) => ShutdownSucceeded
  | Some (PhaseReturned (Err error)) => ShutdownFailed error
  | Some PhasePanicked => ShutdownFailed "shutdown phase panicked"
  | None => ShutdownTimedOut
  end.

Definition run_shutdown_phase (timeout : option Z) (phase : phase_fn) (w : W)
    : ShutdownPhaseStatus * W :=
  match timeout with
  | Some duration => let '(e, w) := tokio_timeout duration phase w in (shutdown_status e, w)
  | None => let '(e, w) := phase w in (shutdown_status (Some e), w)
  end.

(** *** Registration *)

(** [RuntimeComponentRegistry::component]: the index of the descriptor, which
    is created when the name is new. *)
Definition RuntimeComponentRegistry_component (name : string) (r : RuntimeComponentRegistry)
    : nat * RuntimeComponentRegistry :=
  match list_find (λ c, component_name c = name) (registry_components r) with
  | Some (index, _) => (index, r)
  | None =>
      (length (registry_components r),
       mk_RuntimeComponentRegistry
         (registry_components r ++ [RuntimeComponentDescriptor_new name])
         (registry_startup r) (registry_health r) (registry_shutdown r))
  end.

(** [descriptor_mut] of a builder. *)
Definition descriptor_mut (index : nat)
    (f : RuntimeComponentDescriptor → RuntimeComponentDescriptor)
    (r : RuntimeComponentRegistry) : RuntimeComponentRegistry :=
  mk_RuntimeComponentRegistry (alter f index (registry_components r))
    (registry_startup r) (registry_health r) (registry_shutdown r).

Definition RuntimeComponentBuilder_kind (index : nat) (kind : RuntimeComponentKind) :=
  descriptor_mut index (λ c,
    mk_RuntimeComponentDescriptor (component_name c) kind (component_dependencies c)
      (component_startup_phases c) (component_health_checks c) (component_tasks c) (component_shutdown_phases c)).

Definition RuntimeComponentBuilder_depends_on (index : nat) (dependency : string) :=
  descriptor_mut index (λ c,
    if decide (dependency ∈ component_dependencies c) then c
    else mk_RuntimeComponentDescriptor (component_name c) (component_kind c)
      (component_dependencies c ++ [dependency])
      (component_startup_phases c) (component_health_checks c) (component_tasks c) (component_shutdown_phases c)).

Definition RuntimeComponentBuilder_depends_on_all (index : nat) (dependencies : list string)
    (r : RuntimeComponentRegistry) : RuntimeComponentRegistry :=
  foldl (λ r dependency, RuntimeComponentBuilder_depends_on index dependency r) r dependencies.

Definition RuntimeComponentBuilder_startup (index : nat) (phase_name : string)
    (failure_policy : StartupPhaseFailurePolicy) (phase : phase_fn)
    (r : RuntimeComponentRegistry) : RuntimeComponentRegistry :=
  descriptor_mut index (λ c,
      mk_RuntimeComponentDescriptor (component_name c) (component_kind c)
        (component_dependencies c)
        (component_startup_phases c ++ [mk_RuntimeStartupDescriptor phase_name failure_policy])
        (component_health_checks c) (component_tasks c) (component_shutdown_phases c))
    (mk_RuntimeComponentRegistry (registry_components r)
       (registry_startup r ++ [mk_RegisteredStartupPhase phase_name failure_policy phase])
       (registry_health r) (registry_shutdown r)).

Definition RuntimeComponentBuilder_task (index : nat) (name display_name : string) :=
  descriptor_mut index (λ c,
    mk_RuntimeComponentDescriptor (component_name c) (component_kind c)
      (component_dependencies c) (component_startup_phases c)
      (component_health_checks c) (component_tasks c ++ [mk_RuntimeTaskDescriptor name display_name])
      (component_shutdown_phases c)).

Definition RuntimeComponentBuilder_health_with_options (index : nat) (check_name : string)
    (options : HealthCheckOptions) (check : F) (r : RuntimeComponentRegistry)
    : RuntimeComponentRegistry :=
  descriptor_mut index (λ c,
      mk_RuntimeComponentDescriptor (component_name c) (component_kind c)
        (component_dependencies c) (component_startup_phases c)
        (component_health_checks c ++
           [mk_HealthCheckDescriptor check_name (options_requirement options)
              (options_timeout options) (options_scopes options)])
        (component_tasks c) (component_shutdown_phases c))
    (mk_RuntimeComponentRegistry (registry_components r) (registry_startup r)
       (HealthCheckRegistry_register_with_options check_name options check (registry_health r))
       (registry_shutdown r)).

Definition RuntimeComponentBuilder_shutdown (index : nat) (phase_name : string)
    (timeout : option Z) (phase : phase_fn) (r : RuntimeComponentRegistry)
    : RuntimeComponentRegistry :=
  match registry_components r !! index with
  | None => r
  | Some c =>
      descriptor_mut index (λ c,
          mk_RuntimeComponentDescriptor (component_name c) (component_kind c)
            (component_dependencies c) (component_startup_phases c) (component_health_checks c) (component_tasks c)
            (component_shutdown_phases c ++ [mk_RuntimeShutdownDescriptor phase_name timeout]))
        (mk_RuntimeComponentRegistry (registry_components r) (registry_startup r)
           (registry_health r) (registry_shutdown r ++
              [mk_RuntimeComponentShutdownPhase (component_name c) phase_name timeout phase]))
  end.

(** What a registration function does to a registry, call by call. *)
Inductive registry_call : Type :=
  | CallKind (name : string) (kind : RuntimeComponentKind)
  | CallDependsOn (name dependency : string)
  | CallDependsOnAll (name : string) (dependencies : list string)
  | CallStartup (name phase_name : string) (policy : StartupPhaseFailurePolicy) (phase : phase_fn)
  | CallHealth (name check_name : string) (options : HealthCheckOptions) (check : F)
  | CallTask (name task_name display_name : string)
  | CallShutdown (name phase_name : string) (timeout : option Z) (phase : phase_fn).

Definition registry_do (call : registry_call) (r : RuntimeComponentRegistry)
    : RuntimeComponentRegistry :=
  match call with
  | CallKind name kind =>
      let '(i, r) := RuntimeComponentRegistry_component name r in
      RuntimeComponentBuilder_kind i kind r
  | CallDependsOn name dependency =>
      let '(i, r) := RuntimeComponentRegistry_component name r in
      RuntimeComponentBuilder_depends_on i dependency r
  | CallDependsOnAll name dependencies =>
      let '(i, r) := RuntimeComponentRegistry_component name r in
      RuntimeComponentBuilder_depends_on_all i dependencies r
  | CallStartup name phase_name policy phase =>
      let '(i, r) := RuntimeComponentRegistry_component name r in
      RuntimeComponentBuilder_startup i phase_name policy phase r
  | CallHealth name check_name options check =>
      let '(i, r) := RuntimeComponentRegistry_component name r in
      RuntimeComponentBuilder_health_with_options i check_name options check r
  | CallTask name task_name display_name =>
      let '(i, r) := RuntimeComponentRegistry_component name r in
      RuntimeComponentBuilder_task i task_name display_name r
  | CallShutdown name phase_name timeout phase =>
      let '(i, r) := RuntimeComponentRegistry_component name r in
      RuntimeComponentBuilder_shutdown i phase_name timeout phase r
  end.

Definition RuntimeComponentRegistry_configured (calls : list registry_call)
    : RuntimeComponentRegistry :=
  foldl (λ r call, registry_do call r) RuntimeComponentRegistry_new calls.

(** The one-call forms: they name the component, set its kind and register. *)
Definition RuntimeComponentRegistry_component_health_with_options (name : string)
    (kind : RuntimeComponentKind) (check_name : string) (options : HealthCheckOptions)
    (check : F) (r : RuntimeComponentRegistry) : RuntimeComponentRegistry :=
  let '(i, r) := RuntimeComponentRegistry_component name r in
  RuntimeComponentBuilder_health_with_options i check_name options check
    (RuntimeComponentBuilder_kind i kind r).

Definition RuntimeComponentRegistry_component_startup (name : string)
    (kind : RuntimeComponentKind) (phase_name : string) (policy : StartupPhaseFailurePolicy)
    (phase : phase_fn) (r : RuntimeComponentRegistry) : RuntimeComponentRegistry :=
  let '(i, r) := RuntimeComponentRegistry_component name r in
  RuntimeComponentBuilder_startup i phase_name policy phase
    (RuntimeComponentBuilder_kind i kind r).

Definition RuntimeComponentRegistry_component_task (name : string)
    (kind : RuntimeComponentKind) (task_name display_name : string)
    (r : RuntimeComponentRegistry) : RuntimeComponentRegistry :=
  let '(i, r) := RuntimeComponentRegistry_component name r in
  RuntimeComponentBuilder_task i task_name display_name (RuntimeComponentBuilder_kind i kind r).

Definition RuntimeComponentRegistry_component_shutdown (name : string)
    (kind : RuntimeComponentKind) (phase_name : string) (timeout : option Z)
    (phase : phase_fn) (r : RuntimeComponentRegistry) : RuntimeComponentRegistry :=
  let '(i, r) := RuntimeComponentRegistry_component name r in
  RuntimeComponentBuilder_shutdown i phase_name timeout phase
    (RuntimeComponentBuilder_kind i kind r).

(** *** Validation of the dependency graph *)
Definition descriptor_by_name (components : list RuntimeComponentDescriptor)
    : gmap string RuntimeComponentDescriptor :=
  foldl (λ m c, <[component_name c := c]> m) ∅ components.

Definition dependencies_of (m : gmap string RuntimeComponentDescriptor) (name : string)
    : list string :=
  match m !! name with Some c => component_dependencies c | None => [] end.

(** The first dependency, in registration order, that was never registered. *)
Definition missing_dependency (m : gmap string RuntimeComponentDescriptor)
    (components : list RuntimeComponentDescriptor) : option (string * string) :=
  head (components ≫= λ c,
    (component_name c,.) <$> filter (λ d, m !! d = None) (component_dependencies c)).

(** The walk's two mutable sets: the stack of open components and the set of
    finished ones. *)
Definition validation_state : Type := list string * gset string.

Definition validation : Type := option (result RuntimeComponentGraphError validation_state).

(** [for dependency in .. { visit(dependency)?; }]; [None] is out of fuel. *)
Fixpoint validate_each (visit : string → validation_state → validation)
    (names : list string) (st : validation_state) : validation :=
  match names with
  | [] => Some (Ok st)
  | name :: names =>
      match visit name st with
      | Some (Ok st) => validate_each visit names st
      | r => r
      end
  end.

Fixpoint validate_component_dependencies (fuel : nat)
    (m : gmap string RuntimeComponentDescriptor) (name : string) (st : validation_state)
    : validation :=
  match fuel with
  | O => None
  | S fuel =>
      let '(visiting, visited) := st in
      if decide (name ∈ visited) then Some (Ok st)
      else match list_find (λ n, n = name) visiting with
        | Some (position, _) =>
            Some (Err (Cycle (String.concat " -> " (drop position visiting ++ [name]))))
        | None =>
            match validate_each (validate_component_dependencies fuel m)
                    (dependencies_of m name) (visiting ++ [name], visited) with
            | Some (Ok (visiting, visited)) =>
                Some (Ok (removelast visiting, {[name]} ∪ visited))
            | r => r
            end
        end
  end.

Definition RuntimeComponentRegistry_validate (r : RuntimeComponentRegistry)
    : option (result RuntimeComponentGraphError unit) :=
  let m := descriptor_by_name (registry_components r) in
  match missing_dependency m (registry_components r) with
  | Some (component, dependency) => Some (Err (MissingDependency component dependency))
  | None =>
      (λ v, v ≫= λ _, Ok tt) <$>
        validate_each
          (validate_component_dependencies (S (length (registry_components r))) m)
          (component_name <$> registry_components r) ([], ∅)
  end.

(** *** Shutdown *)
Definition phase_indices_by_component (phases : list RuntimeComponentShutdownPhase)
    : gmap string (list nat) :=
  foldl (λ m ip, <[phase_component_name ip.2 :=
      default [] (m !! phase_component_name ip.2) ++ [ip.1]]> m)
    ∅ (imap pair phases).

Record order_state : Type := mk_order_state {
  order_visiting : gset string;
  order_visited : gset string;
  order_ordered : list nat;
}.

Fixpoint order_each (visit : string → order_state → option order_state)
    (names : list string) (st : order_state) : option order_state :=
  match names with
  | [] => Some st
  | name :: names => visit name st ≫= order_each visit names
  end.

Fixpoint push_shutdown_component_order (fuel : nat) (indices : gmap string (list nat))
    (m : gmap string RuntimeComponentDescriptor) (name : string) (st : order_state)
    : option order_state :=
  match fuel with
  | O => None
  | S fuel =>
      if decide (name ∈ order_visited st) then Some st
      else if decide (name ∈ order_visiting st) then Some st
      else
        st ← order_each (push_shutdown_component_order fuel indices m)
               (filter (λ d, is_Some (indices !! d)) (dependencies_of m name))
               (mk_order_state ({[name]} ∪ order_visiting st) (order_visited st)
                  (order_ordered st));
        Some (mk_order_state (order_visiting st ∖ {[name]}) ({[name]} ∪ order_visited st)
                (order_ordered st ++ default [] (indices !! name)))
  end.

Definition RuntimeComponentRegistry_shutdown_order (r : RuntimeComponentRegistry)
    : option (list nat) :=
  let indices := phase_indices_by_component (registry_shutdown r) in
  order_ordered <$>
    order_each
      (push_shutdown_component_order (S (size indices)) indices
         (descriptor_by_name (registry_components r)))
      (phase_component_name <$> registry_shutdown r) (mk_order_state ∅ ∅ []).

Fixpoint run_shutdown_phases (phases : list RuntimeComponentShutdownPhase) (w : W)
    : list ShutdownPhaseReport * W :=
  match phases with
  | [] => ([], w)
  | registered :: phases =>
      let '(status, w) := run_shutdown_phase (phase_timeout registered) (phase_phase registered) w in
      let '(reports, w) := run_shutdown_phases phases w in
      (mk_ShutdownPhaseReport (phase_phase_name registered) status :: reports, w)
  end.

Definition RuntimeComponentRegistry_shutdown (r : RuntimeComponentRegistry) (w : W)
    : option (list ShutdownPhaseReport * W) :=
  order ← RuntimeComponentRegistry_shutdown_order r;
  Some (run_shutdown_phases (omap (λ i, registry_shutdown r !! i) order) w).
(** ** Verification *)

(** *** Registration *)

(** A registry's components have different names, whatever was registered. *)
Definition names_distinct (r : RuntimeComponentRegistry) : Prop :=
  NoDup (component_name <$> registry_components r).

Lemma descriptor_mut_names index f r :
  (∀ c, component_name (f c) = component_name c) →
  component_name <$> registry_components (descriptor_mut index f r) =
  component_name <$> registry_components r.
Proof.
  intros Hf. cbn. apply list_eq. intros i. rewrite !list_lookup_fmap.
  destruct (decide (i = index)) as [->|Hne].
  - rewrite list_lookup_alter_eq. destruct (registry_components r !! index); cbn; [by rewrite Hf|done].
  - by rewrite list_lookup_alter_ne.
Qed.

Lemma RuntimeComponentRegistry_component_distinct name r i r' :
  RuntimeComponentRegistry_component name r = (i, r') → names_distinct r → names_distinct r'.
Proof.
  unfold RuntimeComponentRegistry_component, names_distinct.
  destruct (list_find _ _) as [[j c]|] eqn:E; intros [= <- <-]; [done|]. cbn.
  rewrite fmap_app. intros HN. apply list.NoDup_app. split; [done|]. split; [|apply list.NoDup_singleton].
  intros x (c & -> & Hc)%list_elem_of_fmap. cbn. rewrite list_elem_of_singleton. intros Hx.
  apply list_find_None in E. rewrite list.Forall_forall in E. by destruct (E c).
Qed.

Lemma depends_on_names index d r :
  component_name <$> registry_components (RuntimeComponentBuilder_depends_on index d r) =
  component_name <$> registry_components r.
Proof. apply descriptor_mut_names. intros c. by case_decide. Qed.

Lemma depends_on_all_names index ds r :
  component_name <$> registry_components (RuntimeComponentBuilder_depends_on_all index ds r) =
  component_name <$> registry_components r.
Proof.
  unfold RuntimeComponentBuilder_depends_on_all.
  revert r. induction ds as [|d ds IH]; intros r; cbn; [done|].
  by rewrite IH, depends_on_names.
Qed.

Lemma registry_do_distinct call r : names_distinct r → names_distinct (registry_do call r).
Proof.
  intros HN. destruct call; cbn;
    (destruct (RuntimeComponentRegistry_component name r) as [i r'] eqn:E);
    apply RuntimeComponentRegistry_component_distinct in E; try done; unfold names_distinct in *.
  - unfold RuntimeComponentBuilder_kind. by rewrite descriptor_mut_names.
  - by rewrite depends_on_names.
  - by rewrite depends_on_all_names.
  - unfold RuntimeComponentBuilder_startup. by rewrite descriptor_mut_names.
  - unfold RuntimeComponentBuilder_health_with_options. by rewrite descriptor_mut_names.
  - unfold RuntimeComponentBuilder_task. by rewrite descriptor_mut_names.
  - unfold RuntimeComponentBuilder_shutdown.
    destruct (registry_components r' !! i); [|done]. by rewrite descriptor_mut_names.
Qed.

(** The one-call forms add nothing to the builder's calls: they are covered by
    every statement about a list of calls. *)
Lemma component_again name r i r' f :
  RuntimeComponentRegistry_component name r = (i, r') →
  (∀ c, component_name (f c) = component_name c) →
  RuntimeComponentRegistry_component name (descriptor_mut i f r') = (i, descriptor_mut i f r').
Proof.
  unfold RuntimeComponentRegistry_component at 1. intros Hi Hf.
  assert (∃ c, registry_components r' !! i = Some c ∧ component_name c = name ∧
    ∀ j y, registry_components r' !! j = Some y → (j < i)%nat → component_name y ≠ name)
    as (c & Hc & Hname & Hbefore).
  { destruct (list_find _ _) as [[j c]|] eqn:E; injection Hi as <- <-.
    - apply list_find_Some in E as (? & ? & ?). eauto.
    - eexists. cbn. rewrite lookup_app_r, Nat.sub_diag by done. repeat split.
      apply list_find_None in E. rewrite list.Forall_forall in E.
      intros j y Hy Hj. rewrite lookup_app_l in Hy by done.
      eapply E, list_elem_of_lookup_2, Hy. }
  unfold RuntimeComponentRegistry_component, descriptor_mut. cbn.
  rewrite (proj2 (list_find_Some _ _ i (f c))); [done|]. split; [|split].
  - by rewrite list_lookup_alter_eq, Hc.
  - by rewrite Hf.
  - intros j y Hy Hj. rewrite list_lookup_alter_ne in Hy by lia. eauto.
Qed.

Lemma component_shutdown_calls name kind phase_name timeout phase r :
  RuntimeComponentRegistry_component_shutdown name kind phase_name timeout phase r =
  registry_do (CallShutdown name phase_name timeout phase) (registry_do (CallKind name kind) r).
Proof.
  unfold RuntimeComponentRegistry_component_shutdown. cbn.
  destruct (RuntimeComponentRegistry_component name r) as [i r'] eqn:E.
  unfold RuntimeComponentBuilder_kind. by rewrite (component_again name r i r' _ E).
Qed.

Lemma configured_distinct calls : names_distinct (RuntimeComponentRegistry_configured calls).
Proof.
  unfold RuntimeComponentRegistry_configured.
  assert (names_distinct RuntimeComponentRegistry_new) as HN by apply base.NoDup_nil_2.
  revert HN. generalize RuntimeComponentRegistry_new.
  induction calls as [|call calls IH]; intros r HN; cbn; auto using registry_do_distinct.
Qed.
(** *** The dependency graph *)

(** [depends m c d]: component [c] declares the dependency [d]. *)
Definition depends (m : gmap string RuntimeComponentDescriptor) (c d : string) : Prop :=
  d ∈ dependencies_of m c.

(** A list of names, each depending on the next one. *)
Definition chain (m : gmap string RuntimeComponentDescriptor) (l : list string) : Prop :=
  ∀ i x y, l !! i = Some x → l !! S i = Some y → depends m x y.

(** A chain that ends where it starts. *)
Definition cycle_path (m : gmap string RuntimeComponentDescriptor) (l : list string) : Prop :=
  chain m l ∧ ∃ x mid, l = x :: mid ++ [x].

Definition acyclic (m : gmap string RuntimeComponentDescriptor) : Prop :=
  ∀ x, ¬ tc (depends m) x x.

Lemma chain_snoc m l y :
  chain m l → (∀ x, list.last l = Some x → depends m x y) → chain m (l ++ [y]).
Proof.
  intros Hc Hl i a b Ha Hb. rewrite lookup_app in Hb.
  destruct (l !! S i) as [b'|] eqn:E.
  - injection Hb as ->. rewrite lookup_app_l in Ha by (apply lookup_lt_Some in E; lia). eauto.
  - apply list_lookup_singleton_Some in Hb as [Hi <-]. apply lookup_ge_None in E.
    rewrite lookup_app_l in Ha by lia. apply Hl.
    rewrite list.last_lookup. by replace (Nat.pred (length l)) with i by lia.
Qed.

Lemma chain_drop m n l : chain m l → chain m (drop n l).
Proof. intros Hc i x y. rewrite !lookup_drop, Nat.add_succ_r. apply Hc. Qed.

Lemma chain_tc m x l y : chain m (x :: l ++ [y]) → tc (depends m) x y.
Proof.
  revert x. induction l as [|z l IH]; intros x Hc.
  - apply tc_once, (Hc 0%nat); done.
  - apply (tc_l _ _ z); [by apply (Hc 0%nat)|]. apply IH. exact (chain_drop m 1 _ Hc).
Qed.

(** What holds of the walk's stack and of its finished set. *)
Record validation_inv (m : gmap string RuntimeComponentDescriptor) (st : validation_state)
    : Prop := {
  stack_distinct : NoDup st.1;
  stack_chain : chain m st.1;
  stack_registered : ∀ x, x ∈ st.1 → is_Some (m !! x);
  stack_open : ∀ x, x ∈ st.1 → x ∉ st.2;
  finished_closed : ∀ x d, x ∈ st.2 → depends m x d → d ∈ st.2;
  finished_acyclic : ∀ x, x ∈ st.2 → ¬ tc (depends m) x x;
}.

Lemma finished_reach m st x y :
  validation_inv m st → x ∈ st.2 → tc (depends m) x y → y ∈ st.2.
Proof. intros HI Hx. induction 1; eauto using finished_closed. Qed.

(** Opening a component, and closing it once its dependencies are finished. *)
Lemma validation_inv_open m vs V name :
  validation_inv m (vs, V) → is_Some (m !! name) → name ∉ vs → name ∉ V →
  (∀ x, list.last vs = Some x → depends m x name) → validation_inv m (vs ++ [name], V).
Proof.
  intros [HN HC HR HO HF HA] Hm Hvs HV Hlast. cbn in *. split; cbn; try done.
  - apply list.NoDup_app. split; [done|]. split; [|apply list.NoDup_singleton].
    intros x Hx. rewrite list_elem_of_singleton. by intros ->.
  - by apply chain_snoc.
  - intros x [Hx| ->%list_elem_of_singleton]%elem_of_app; auto.
  - intros x [Hx| ->%list_elem_of_singleton]%elem_of_app; auto.
Qed.

Lemma validation_inv_close m vs V name :
  validation_inv m (vs ++ [name], V) → (∀ d, depends m name d → d ∈ V) →
  validation_inv m (vs, {[name]} ∪ V).
Proof.
  intros HI Hdeps. pose proof HI as [HN HC HR HO HF HA]. cbn in *.
  apply list.NoDup_app in HN as (HN & Hnew & _). split; cbn.
  - done.
  - intros i x y Hx Hy. apply (HC i); by apply lookup_app_l_Some.
  - intros x Hx. apply HR, elem_of_app. by left.
  - intros x Hx. rewrite elem_of_union, elem_of_singleton.
    intros [->|Hv]; [by apply (Hnew name); [|apply list_elem_of_singleton]|].
    apply (HO x); [apply elem_of_app; by left|done].
  - intros x d. rewrite !elem_of_union, elem_of_singleton. intros [->|Hx] Hd; eauto.
  - intros x. rewrite elem_of_union, elem_of_singleton. intros [->|Hx] Hcyc; [|by eapply HA].
    apply (HO name); [apply elem_of_app; right; by apply list_elem_of_singleton|].
    inversion Hcyc as [? ? Hd|? d ? Hd Hr]; subst; [auto|].
    exact (finished_reach _ _ _ _ HI (Hdeps d Hd) Hr).
Qed.
(** A visit either finishes its component, restoring the stack, or reports a
    cycle of declared dependencies. *)
Definition visit_ends (m : gmap string RuntimeComponentDescriptor) (names : list string)
    (st : validation_state) (v : validation) : Prop :=
  (∃ V, v = Some (Ok (st.1, V)) ∧ st.2 ⊆ V ∧ validation_inv m (st.1, V) ∧
     ∀ name, name ∈ names → name ∈ V) ∨
  (∃ cycle, v = Some (Err (Cycle (String.concat " -> " cycle))) ∧ cycle_path m cycle).

Lemma validate_each_ends m visit names st :
  validation_inv m st →
  (∀ name V, name ∈ names → validation_inv m (st.1, V) → 
     visit_ends m [name] (st.1, V) (visit name (st.1, V))) →
  visit_ends m names st (validate_each visit names st).
Proof.
  destruct st as [vs V]. cbn [fst]. revert V.
  induction names as [|name names IH]; intros V HI Hvisit; cbn.
  - left. exists V. repeat split; try done; [apply HI..|]. by intros ? ?%elem_of_nil.
  - destruct (Hvisit name V) as [(V1 & -> & Hsub & HI1 & Hn)|(cycle & -> & Hc)];
      [by apply elem_of_cons; left|done| |by right; exists cycle]. cbn in *.
    destruct (IH V1 HI1) as [(V2 & -> & Hsub2 & HI2 & Hn2)|?]; [|left|by right].
    + intros n V' Hin. apply Hvisit. apply elem_of_cons. by right.
    + exists V2. split; [done|]. split; [set_solver|]. split; [done|].
      intros n [->|Hin]%elem_of_cons; [|auto]. apply Hsub2, Hn, elem_of_cons. by left.
Qed.

Lemma validate_component_ends m (Hall : ∀ x d, depends m x d → is_Some (m !! d)) fuel name st :
  (size m < fuel + length st.1)%nat → validation_inv m st → is_Some (m !! name) →
  (∀ x, list.last st.1 = Some x → depends m x name) →
  visit_ends m [name] st (validate_component_dependencies fuel m name st).
Proof.
  revert name st. induction fuel as [|fuel IH]; intros name [vs V] Hfuel HI Hm Hlast;
    cbn [fst snd] in *.
  { exfalso. apply (Nat.lt_irrefl (length vs)). eapply Nat.le_lt_trans; [|exact Hfuel].
    rewrite <- (size_list_to_set (C := gset string) vs) by apply HI.
    rewrite <- size_dom. apply subseteq_size. intros x Hx%elem_of_list_to_set.
    apply elem_of_dom. by apply HI. }
  cbn [validate_component_dependencies]. case_decide as HV.
  { left. exists V. repeat split; try apply HI; [done..|].
    by intros n ->%list_elem_of_singleton. }
  destruct (list_find _ vs) as [[position n]|] eqn:E.
  - apply list_find_Some in E as (Hp & -> & _). right.
    exists (drop position vs ++ [name]). split; [done|]. split.
    + apply chain_snoc; [apply chain_drop, HI|]. intros x Hx. apply Hlast.
      by rewrite <- (take_drop position vs), list.last_app, Hx.
    + exists name, (drop (S position) vs). by rewrite (drop_S _ name).
  - apply list_find_None in E. rewrite list.Forall_forall in E.
    assert (name ∉ vs) as Hvs by (intros Hin; by apply (E name)).
    pose proof (validation_inv_open _ _ _ _ HI Hm Hvs HV Hlast) as HIo.
    destruct (validate_each_ends m (validate_component_dependencies fuel m)
      (dependencies_of m name) (vs ++ [name], V) HIo) as [(V1 & -> & Hsub & HI1 & Hn)|Hc].
    + intros d V1 Hd HI1. apply IH; cbn; [|done|by eapply Hall|].
      * rewrite length_app. cbn. lia.
      * intros x. rewrite list.last_snoc. by intros [= ->].
    + cbn in *. left. exists ({[name]} ∪ V1). rewrite removelast_last.
      split; [done|]. split; [set_solver|]. split; [by apply validation_inv_close|].
      intros n ->%list_elem_of_singleton. set_solver.
    + right. destruct Hc as (cycle & -> & Hc). by exists cycle.
Qed.
(** *** Descriptors by name *)
Lemma dom_descriptor_by_name cs :
  dom (descriptor_by_name cs) = list_to_set (component_name <$> cs).
Proof.
  unfold descriptor_by_name.
  induction cs as [|c cs IH] using rev_ind; [by apply dom_empty_L|].
  rewrite foldl_snoc, fmap_app, list_to_set_app_L, dom_insert_L, IH. cbn. set_solver.
Qed.

Lemma descriptor_registered cs name :
  is_Some (descriptor_by_name cs !! name) ↔ name ∈ component_name <$> cs.
Proof. by rewrite <- elem_of_dom, dom_descriptor_by_name, elem_of_list_to_set. Qed.

Lemma size_descriptor_by_name cs : (size (descriptor_by_name cs) ≤ length cs)%nat.
Proof.
  unfold descriptor_by_name. induction cs as [|c cs IH] using rev_ind; [done|].
  rewrite foldl_snoc, map_size_insert, length_app. cbn.
  destruct (_ !! component_name c); cbn; lia.
Qed.

Lemma descriptor_by_name_lookup cs name c :
  NoDup (component_name <$> cs) →
  descriptor_by_name cs !! name = Some c ↔ c ∈ cs ∧ component_name c = name.
Proof.
  unfold descriptor_by_name.
  induction cs as [|c' cs IH] using rev_ind; intros HN.
  - split; [done|]. intros [[]%elem_of_nil _].
  - rewrite fmap_app in HN. apply list.NoDup_app in HN as (HN & Hnew & _).
    rewrite foldl_snoc, elem_of_app, list_elem_of_singleton.
    destruct (decide (component_name c' = name)) as [<-|Hne].
    + rewrite lookup_insert_eq. split; [intros [= ->]; auto|].
      intros [[Hc|Hc] Hname]; [|by rewrite Hc].
      exfalso. apply (Hnew (component_name c)); [by apply list_elem_of_fmap_2|].
      rewrite Hname. cbn. by apply list_elem_of_singleton.
    + rewrite lookup_insert_ne by done. rewrite (IH HN). naive_solver.
Qed.

(** [c] was registered with the dependency [d]. *)
Definition declares (r : RuntimeComponentRegistry) (c d : string) : Prop :=
  ∃ x, x ∈ registry_components r ∧ component_name x = c ∧ d ∈ component_dependencies x.

Lemma depends_declares r c d :
  names_distinct r → depends (descriptor_by_name (registry_components r)) c d ↔ declares r c d.
Proof.
  intros HN. unfold depends, dependencies_of, declares. split.
  - destruct (_ !! c) as [x|] eqn:E; [|by intros ?%elem_of_nil].
    apply descriptor_by_name_lookup in E as [Hx <-]; [|done]. eauto.
  - intros (x & Hx & <- & Hd).
    by rewrite (proj2 (descriptor_by_name_lookup _ _ x HN) (conj Hx eq_refl)).
Qed.

Definition registered (r : RuntimeComponentRegistry) (name : string) : Prop :=
  name ∈ component_name <$> registry_components r.

(** [d] is the first dependency, in registration order, that is not registered. *)
Definition first_missing (m : gmap string RuntimeComponentDescriptor)
    (cs : list RuntimeComponentDescriptor) (c d : string) : Prop :=
  ∃ before x after d1 d2,
    cs = before ++ x :: after ∧ component_name x = c ∧
    component_dependencies x = d1 ++ d :: d2 ∧ m !! d = None ∧
    (∀ d', d' ∈ d1 → is_Some (m !! d')) ∧
    (∀ y d', y ∈ before → d' ∈ component_dependencies y → is_Some (m !! d')).

Lemma missing_in_one (m : gmap string RuntimeComponentDescriptor) (ds : list string) :
  match head (filter (λ d, m !! d = None) ds) with
  | Some d => ∃ d1 d2, ds = d1 ++ d :: d2 ∧ m !! d = None ∧
      ∀ d', d' ∈ d1 → is_Some (m !! d')
  | None => ∀ d', d' ∈ ds → is_Some (m !! d')
  end.
Proof.
  destruct (head _) as [d|] eqn:E.
  - assert (d ∈ filter (λ d, m !! d = None) ds) as [Hd _]%list_elem_of_filter
      by (apply list_elem_of_lookup; exists 0%nat; by rewrite <- head_lookup).
    apply head_filter_Some in E as (d1 & d2 & -> & Hall). exists d1, d2.
    split; [done|]. split; [done|]. rewrite list.Forall_forall in Hall.
    intros d' Hd'. by apply not_eq_None_Some, Hall.
  - apply head_None in E. intros d Hd. apply not_eq_None_Some. intros Hn.
    assert (d ∈ filter (λ d, m !! d = None) ds) as Hin by by apply list_elem_of_filter.
    rewrite E in Hin. by apply elem_of_nil in Hin.
Qed.

Lemma missing_dependency_spec m cs :
  match missing_dependency m cs with
  | Some (c, d) => first_missing m cs c d
  | None => ∀ x d, x ∈ cs → d ∈ component_dependencies x → is_Some (m !! d)
  end.
Proof.
  unfold missing_dependency. induction cs as [|x cs IH]; [by intros ? ? ?%elem_of_nil|].
  rewrite bind_cons, head_app. pose proof (missing_in_one m (component_dependencies x)) as Hx.
  destruct (filter _ (component_dependencies x)) as [|d ds]; cbn in *.
  - destruct (head _) as [[c d]|].
    + destruct IH as (before & y & after & d1 & d2 & -> & ? & ? & ? & ? & Hb).
      exists (x :: before), y, after, d1, d2. split_and!; try done.
      intros z d' [->|?]%elem_of_cons; eauto.
    + intros z d [->|?]%elem_of_cons; eauto.
  - destruct Hx as (d1 & d2 & Ed & Hn & Hs).
    exists [], x, cs, d1, d2. split_and!; try done. by intros ? ? ?%elem_of_nil.
Qed.
Lemma cycle_path_tc m l : cycle_path m l → ∃ x, tc (depends m) x x.
Proof. intros (Hc & x & mid & ->). eauto using chain_tc. Qed.

(** What [validate] answers for a registry whose names are distinct. *)
Definition validate_contract (r : RuntimeComponentRegistry)
    (v : option (result RuntimeComponentGraphError unit)) : Prop :=
  let m := descriptor_by_name (registry_components r) in
  (∀ c d, depends m c d ↔ declares r c d) ∧
  (v = Some (Ok tt) ↔ (∀ c d, declares r c d → registered r d) ∧ acyclic m) ∧
  (v = Some (Ok tt) ∨
   (∃ c d, v = Some (Err (MissingDependency c d)) ∧ first_missing m (registry_components r) c d) ∨
   (∃ cycle, v = Some (Err (Cycle (String.concat " -> " cycle))) ∧ cycle_path m cycle ∧
      ∀ c d, declares r c d → registered r d)).

Lemma validation_inv_empty m : validation_inv m ([], ∅).
Proof.
  split; cbn; try set_solver; [apply base.NoDup_nil_2|]. by intros i x y ?.
Qed.

Lemma validate_outcome r :
  names_distinct r →
  let m := descriptor_by_name (registry_components r) in
  let v := RuntimeComponentRegistry_validate r in
  (v = Some (Ok tt) ∧ (∀ c d, declares r c d → registered r d) ∧ acyclic m) ∨
  (∃ c d, v = Some (Err (MissingDependency c d)) ∧ first_missing m (registry_components r) c d) ∨
  (∃ cycle, v = Some (Err (Cycle (String.concat " -> " cycle))) ∧ cycle_path m cycle ∧
     ∀ c d, declares r c d → registered r d).
Proof.
  intros HN m v. subst v. unfold RuntimeComponentRegistry_validate. fold m.
  pose proof (missing_dependency_spec m (registry_components r)) as Hmiss.
  destruct (missing_dependency m _) as [[c d]|]; [right; left; eauto|].
  assert (∀ c d, declares r c d → registered r d) as Hreg.
  { intros c d (x & Hx & _ & Hd). apply descriptor_registered. eauto. }
  assert (∀ c d, depends m c d → is_Some (m !! d)) as Hdep.
  { intros c d Hd%depends_declares; [|done]. apply descriptor_registered.
    exact (Hreg _ _ Hd). }
  destruct (validate_each_ends m
    (validate_component_dependencies (S (length (registry_components r))) m)
    (component_name <$> registry_components r) ([], ∅) (validation_inv_empty m))
    as [(V & -> & _ & HI & Hin)|(cycle & -> & Hc)].
  - intros name V Hname HI. apply validate_component_ends; try done.
    + cbn. pose proof (size_descriptor_by_name (registry_components r)). unfold m. lia.
    + by apply descriptor_registered.
  - left. split; [done|]. split; [done|]. intros x Hx.
    apply (finished_acyclic _ _ HI x); [|done]. apply Hin.
    assert (∃ d, depends m x d) as (d & Hd) by (inversion Hx; eauto).
    apply depends_declares in Hd as (y & Hy & <- & _); [|done]. by apply list_elem_of_fmap_2.
  - right. right. exists cycle. auto.
Qed.

Lemma first_missing_declared m r c d :
  first_missing m (registry_components r) c d → declares r c d ∧ m !! d = None.
Proof.
  intros (before & x & after & d1 & d2 & E & <- & Ed & Hn & _). split; [|done].
  exists x. rewrite E, Ed. split; [|split; [done|]]; apply elem_of_app; right;
    apply elem_of_cons; by left.
Qed.

(** C26. For whatever was registered, [validate] ends: it accepts exactly
    when every declared dependency is registered and no component reaches
    itself; otherwise it names the first missing dependency in registration
    order, or prints a path of declared dependencies that returns to its
    start. *)
Theorem validate_correct calls :
  let r := RuntimeComponentRegistry_configured calls in
  validate_contract r (RuntimeComponentRegistry_validate r).
Proof.
  intros r. assert (names_distinct r) as HN by apply configured_distinct.
  split; [by intros; apply depends_declares|].
  destruct (validate_outcome r HN) as [(-> & Hreg & Hac)|[(c & d & -> & Hf)|(cy & -> & Hc & Hreg)]].
  - split; [by split|by left].
  - split; [|right; left; eauto]. split; [done|]. intros [Hreg _].
    apply first_missing_declared in Hf as [Hd Hn]. apply Hreg, descriptor_registered in Hd.
    rewrite Hn in Hd. by destruct Hd.
  - split; [|right; right; eauto]. split; [done|]. intros [_ Hac].
    apply cycle_path_tc in Hc as [x Hx]. by destruct (Hac x).
Qed.
(** *** Shutdown order *)

(** The indices of the phases of [c], in registration order. *)
Definition component_phases (phases : list RuntimeComponentShutdownPhase) (c : string)
    : list nat :=
  (filter (λ ip, phase_component_name ip.2 = c) (imap pair phases)).*1.

Definition owns_phase (phases : list RuntimeComponentShutdownPhase) (c : string) : Prop :=
  c ∈ phase_component_name <$> phases.

Lemma phase_indices_lookup phases c :
  phase_indices_by_component phases !! c =
  match component_phases phases c with [] => None | l => Some l end.
Proof.
  unfold phase_indices_by_component, component_phases.
  induction (imap pair phases) as [|[i p] ips IH] using rev_ind; [done|].
  rewrite foldl_snoc, list.filter_app, fmap_app, filter_cons, filter_nil. cbn.
  destruct (decide (phase_component_name p = c)) as [<-|Hne].
  - rewrite lookup_insert_eq, IH. cbn.
    by destruct (filter _ ips).*1.
  - rewrite lookup_insert_ne by done. cbn. by rewrite app_nil_r.
Qed.

Lemma phase_indices_default phases c :
  default [] (phase_indices_by_component phases !! c) = component_phases phases c.
Proof. rewrite phase_indices_lookup. by destruct (component_phases _ _). Qed.

Lemma elem_of_component_phases phases c i :
  i ∈ component_phases phases c ↔ ∃ p, phases !! i = Some p ∧ phase_component_name p = c.
Proof.
  unfold component_phases. rewrite list_elem_of_fmap. split.
  - intros ([j p] & -> & [Hp (k & p' & [= <- <-] & Hk)%elem_of_lookup_imap]%list_elem_of_filter).
    eauto.
  - intros (p & Hi & Hp). exists (i, p). split; [done|].
    apply list_elem_of_filter. split; [done|]. apply elem_of_lookup_imap. eauto.
Qed.

Lemma phase_indices_owner phases c :
  is_Some (phase_indices_by_component phases !! c) ↔ owns_phase phases c.
Proof.
  unfold owns_phase. rewrite phase_indices_lookup, list_elem_of_fmap.
  pose proof (elem_of_component_phases phases c) as Hin.
  destruct (component_phases phases c) as [|i l]; split.
  - by intros [].
  - intros (p & -> & [i Hi]%list_elem_of_lookup).
    exfalso. apply (not_elem_of_nil i), Hin. eauto.
  - intros _. destruct (proj1 (Hin i)) as (p & Hp & Hc); [apply elem_of_cons; by left|].
    exists p. split; [done|]. by eapply list_elem_of_lookup_2.
  - eauto.
Qed.

Lemma component_phases_distinct phases c : NoDup (component_phases phases c).
Proof.
  unfold component_phases. eapply sublist_NoDup; [|apply fmap_sublist, sublist_filter].
  replace ((imap pair phases).*1) with (seq 0 (length phases)); [apply NoDup_seq|].
  apply list_eq. intros i. rewrite list_lookup_fmap, list_lookup_imap.
  destruct (phases !! i) as [p|] eqn:E; cbn.
  - rewrite lookup_seq_lt; [done|by apply lookup_lt_Some in E].
  - rewrite lookup_seq_ge; [done|by apply lookup_ge_None in E].
Qed.
Section order.
Context (phases : list RuntimeComponentShutdownPhase) (m : gmap string RuntimeComponentDescriptor).

(** Every dependency of a component in [out] comes before it, unless it
    depends back on it. *)
Definition dependencies_first (out : list string) : Prop :=
  ∀ before x after d, out = before ++ x :: after → depends m x d → owns_phase phases d →
    d ∈ before ∨ rtc (depends m) d x.

(** The walk's state, with the components it has emitted. *)
Record order_inv (st : order_state) (out : list string) : Prop := {
  emitted_phases : order_ordered st = out ≫= component_phases phases;
  emitted_visited : ∀ c, c ∈ order_visited st ↔ c ∈ out;
  emitted_distinct : NoDup out;
  emitted_closed : ∀ c, c ∈ order_visiting st → c ∉ out;
  emitted_owned : ∀ c, c ∈ order_visiting st ∨ c ∈ out → owns_phase phases c;
  emitted_first : dependencies_first out;
}.

(** A visit that restores the open set and leaves each of [names] emitted or
    open. *)
Definition order_ends (names : list string) (st : order_state) (out : list string)
    (o : option order_state) : Prop :=
  ∃ st' out', o = Some st' ∧ order_visiting st' = order_visiting st ∧
    order_inv st' (out ++ out') ∧
    ∀ name, name ∈ names → name ∈ out ++ out' ∨ name ∈ order_visiting st.

Lemma order_each_ends visit names st out :
  order_inv st out →
  (∀ name st' out', name ∈ names → order_visiting st' = order_visiting st →
     order_inv st' out' → order_ends [name] st' out' (visit name st')) →
  order_ends names st out (order_each visit names st).
Proof.
  revert st out. induction names as [|name names IH]; intros st out HI Hvisit; cbn.
  - exists st, []. rewrite app_nil_r. repeat split; try apply HI; try done.
    intros ? ?%elem_of_nil. done.
  - destruct (Hvisit name st out) as (st1 & out1 & -> & HV1 & HI1 & Hn1);
      [apply elem_of_cons; by left|done..|]. cbn.
    destruct (IH st1 (out ++ out1) HI1) as (st2 & out2 & -> & HV2 & HI2 & Hn2).
    { intros n st' out' Hn HV' HI'. apply Hvisit; [apply elem_of_cons; by right| |done].
      by rewrite HV', HV1. }
    exists st2, (out1 ++ out2). rewrite <- app_assoc in HI2. split; [done|].
    split; [by rewrite HV2|]. split; [done|].
    setoid_rewrite HV1 in Hn2. setoid_rewrite <- app_assoc in Hn2.
    intros n [->|Hn]%elem_of_cons; [|auto].
    destruct (Hn1 name) as [?|?]; [by apply list_elem_of_singleton| |auto].
    left. rewrite app_assoc. apply elem_of_app. auto.
Qed.

Lemma order_inv_open st out name :
  order_inv st out → name ∉ order_visited st → owns_phase phases name →
  order_inv (mk_order_state ({[name]} ∪ order_visiting st) (order_visited st)
    (order_ordered st)) out.
Proof.
  intros [HP HV HN HC HO HF] Hn Hown. split; cbn; try done.
  - intros c [->%elem_of_singleton|Hc]%elem_of_union; [by rewrite <- HV|auto].
  - intros c [[->%elem_of_singleton|Hc]%elem_of_union|Hc]; auto.
Qed.

Lemma dependencies_first_snoc out name :
  dependencies_first out →
  (∀ d, depends m name d → owns_phase phases d → d ∈ out ∨ rtc (depends m) d name) →
  dependencies_first (out ++ [name]).
Proof.
  intros HF Hname before x after d E Hd Hown.
  destruct after as [|y after _] using rev_ind.
  - apply app_inj_tail in E as [-> ->]. auto.
  - rewrite app_comm_cons, app_assoc in E. apply app_inj_tail in E as [-> _]. eauto.
Qed.

Lemma order_inv_close V st out name :
  name ∉ V → order_visiting st = {[name]} ∪ V → order_inv st out →
  (∀ d, depends m name d → owns_phase phases d → d ∈ out ∨ rtc (depends m) d name) →
  order_inv (mk_order_state V ({[name]} ∪ order_visited st)
    (order_ordered st ++ component_phases phases name)) (out ++ [name]).
Proof.
  intros Hn HVst [HP HV HN HC HO HF] Hdeps. split; cbn.
  - by rewrite HP, bind_app, bind_singleton.
  - intros c. rewrite elem_of_union, elem_of_singleton, elem_of_app, list_elem_of_singleton, HV.
    tauto.
  - apply list.NoDup_app. split; [done|]. split; [|apply list.NoDup_singleton].
    intros x Hx ->%list_elem_of_singleton. apply (HC name); [set_solver|done].
  - intros c Hc [Hin| ->%list_elem_of_singleton]%elem_of_app; [|done].
    apply (HC c); [set_solver|done].
  - intros c [Hc|[Hc| ->%list_elem_of_singleton]%elem_of_app]; apply HO; set_solver.
  - by apply dependencies_first_snoc.
Qed.

Lemma push_order_ends fuel name st out :
  (size (phase_indices_by_component phases) < fuel + size (order_visiting st))%nat →
  order_inv st out → owns_phase phases name →
  (∀ v, v ∈ order_visiting st → rtc (depends m) v name) →
  order_ends [name] st out
    (push_shutdown_component_order fuel (phase_indices_by_component phases) m name st).
Proof.
  revert name st out. induction fuel as [|fuel IH]; intros name st out Hfuel HI Hown Hreach.
  { exfalso. apply (Nat.lt_irrefl (size (order_visiting st))).
    eapply Nat.le_lt_trans; [|exact Hfuel]. rewrite <- size_dom. apply subseteq_size.
    intros x Hx. apply elem_of_dom, phase_indices_owner, (emitted_owned _ _ HI). by left. }
  cbn [push_shutdown_component_order]. case_decide as HV; [|case_decide as HG].
  - exists st, []. rewrite app_nil_r. split; [done|]. split; [done|]. split; [done|].
    intros n ->%list_elem_of_singleton. left. by apply (emitted_visited _ _ HI).
  - exists st, []. rewrite app_nil_r. split; [done|]. split; [done|]. split; [done|].
    intros n ->%list_elem_of_singleton. by right.
  - set (st0 := mk_order_state _ _ _).
    destruct (order_each_ends
      (push_shutdown_component_order fuel (phase_indices_by_component phases) m)
      (filter (λ d, is_Some (phase_indices_by_component phases !! d)) (dependencies_of m name))
      st0 out (order_inv_open _ _ _ HI HV Hown)) as (st1 & out1 & -> & HV1 & HI1 & Hn1).
    + intros d st' out' [Hd Hdep]%list_elem_of_filter HV' HI'. apply IH; [|done| |].
      * rewrite HV'. cbn. rewrite size_union, size_singleton by set_solver. lia.
      * by apply phase_indices_owner.
      * rewrite HV'. cbn. intros v [->%elem_of_singleton|Hv]%elem_of_union.
        -- by apply rtc_once.
        -- by eapply rtc_r; [apply Hreach|].
    + cbn in *. eexists _, (out1 ++ [name]). split; [done|]. cbn.
      assert (order_visiting st1 ∖ {[name]} = order_visiting st) as -> by set_solver.
      split; [done|]. rewrite app_assoc, phase_indices_default. split.
      * apply order_inv_close; try done. intros d Hd Hd'.
        destruct (Hn1 d) as [?|[->%elem_of_singleton|?]%elem_of_union]; auto using rtc_refl.
        apply list_elem_of_filter. by split; [apply phase_indices_owner|].
      * intros n ->%list_elem_of_singleton. left. apply elem_of_app.
        right. by apply list_elem_of_singleton.
Qed.
End order.
Lemma order_inv_empty phases m : order_inv phases m (mk_order_state ∅ ∅ []) [].
Proof.
  split; cbn; try set_solver; [by apply base.NoDup_nil_2|]. by intros [|? ?] ? ? ?.
Qed.

Lemma shutdown_order_spec r :
  ∃ components, RuntimeComponentRegistry_shutdown_order r =
      Some (components ≫= component_phases (registry_shutdown r)) ∧
    NoDup components ∧
    (∀ c, c ∈ components ↔ owns_phase (registry_shutdown r) c) ∧
    dependencies_first (registry_shutdown r) (descriptor_by_name (registry_components r))
      components.
Proof.
  unfold RuntimeComponentRegistry_shutdown_order.
  set (phases := registry_shutdown r). set (m := descriptor_by_name (registry_components r)).
  destruct (order_each_ends phases m
    (push_shutdown_component_order (S (size (phase_indices_by_component phases)))
       (phase_indices_by_component phases) m)
    (phase_component_name <$> phases) _ [] (order_inv_empty phases m))
    as (st & out & -> & HV & HI & Hin).
  - intros name st' out' Hname HV' HI'. apply push_order_ends; [|done|done|].
    + lia.
    + rewrite HV'. cbn. set_solver.
  - cbn in *. exists out. pose proof HI as [HP HVis HN HC HO HF].
    split; [by rewrite <- HP|]. split; [done|]. split; [|done]. intros c. split; [by auto|].
    intros Hc. destruct (Hin c Hc) as [?|?]; [done|set_solver].
Qed.

(** The phases of the components, component by component. *)
Definition phases_of (phases : list RuntimeComponentShutdownPhase) (c : string)
    : list RuntimeComponentShutdownPhase :=
  filter (λ p, phase_component_name p = c) phases.

Lemma component_phases_lookup phases c :
  omap (λ i, phases !! i) (component_phases phases c) = phases_of phases c.
Proof.
  unfold component_phases, phases_of.
  cut (∀ k : list RuntimeComponentShutdownPhase, omap (λ i, (k ++ phases) !! i)
    (filter (λ ip, phase_component_name ip.2 = c)
       (imap (λ i p, ((length k + i)%nat, p)) phases)).*1 =
    filter (λ p, phase_component_name p = c) phases); [intros Hcut; exact (Hcut [])|].
  clear -phases c. induction phases as [|p l IH]; intros k; [done|].
  rewrite imap_cons, Nat.add_0_r, !filter_cons. cbn [snd].
  specialize (IH (k ++ [p])). rewrite <- app_assoc in IH. cbn in IH.
  rewrite (imap_ext ((λ i p0, ((length k + i)%nat, p0)) ∘ S)
    (λ i p0, ((length (k ++ [p]) + i)%nat, p0))) in *.
  2:{ intros i x _. cbn. rewrite length_app. cbn. f_equal. lia. }
  case_decide; [|done]. cbn. by rewrite lookup_app_r, Nat.sub_diag, IH by lia.
Qed.

Lemma filter_split phases c (cs : list string) :
  c ∉ cs →
  filter (λ p, phase_component_name p = c) phases ++
    filter (λ p, phase_component_name p ∈ cs) phases ≡ₚ
  filter (λ p, phase_component_name p ∈ c :: cs) phases.
Proof.
  intros Hc. induction phases as [|p l IH]; [done|]. rewrite !filter_cons.
  destruct (decide (phase_component_name p = c)) as [<-|Hne].
  - rewrite decide_False by done. rewrite decide_True by (apply elem_of_cons; by left).
    cbn. by rewrite IH.
  - destruct (decide (phase_component_name p ∈ cs)).
    + rewrite decide_True by (apply elem_of_cons; by right).
      by rewrite <- Permutation_middle, IH.
    + rewrite decide_False; [done|]. by intros [?|?]%elem_of_cons.
Qed.

Lemma phases_of_all phases components :
  NoDup components → (∀ p, p ∈ phases → phase_component_name p ∈ components) →
  components ≫= phases_of phases ≡ₚ phases.
Proof.
  intros HN Hall.
  trans (filter (λ p, phase_component_name p ∈ components) phases).
  - clear Hall. induction HN as [|c cs Hc HN IH].
    + cbn. by induction phases.
    + rewrite bind_cons, IH. by apply filter_split.
  - clear HN. induction phases as [|p l IH]; [done|]. rewrite filter_cons, decide_True.
    + rewrite IH; [done|]. intros q Hq. apply Hall, elem_of_cons. by right.
    + apply Hall, elem_of_cons. by left.
Qed.

Lemma run_shutdown_phases_names phases w :
  shutdown_report_name <$> (run_shutdown_phases phases w).1 = phase_phase_name <$> phases.
Proof.
  revert w. induction phases as [|p l IH]; intros w; [done|]. cbn.
  destruct (run_shutdown_phase _ _ w) as [s w1]. specialize (IH w1).
  destruct (run_shutdown_phases l w1) as [reports w2]. cbn in *. by rewrite IH.
Qed.

(** An order of the components that shut down: each one that owns phases
    once, after its direct dependencies that own phases, unless they depend
    back on it. *)
Definition shutdown_plan (r : RuntimeComponentRegistry) (components : list string) : Prop :=
  let m := descriptor_by_name (registry_components r) in
  NoDup components ∧
  (∀ c, c ∈ components ↔ owns_phase (registry_shutdown r) c) ∧
  (∀ before c after d, components = before ++ c :: after → depends m c d →
     owns_phase (registry_shutdown r) d → d ∈ before ∨ rtc (depends m) d c) ∧
  (acyclic m → ∀ before c after d, components = before ++ c :: after → depends m c d →
     owns_phase (registry_shutdown r) d → d ∈ before) ∧
  components ≫= phases_of (registry_shutdown r) ≡ₚ registry_shutdown r.

Lemma shutdown_runs r : ∃ components, shutdown_plan r components ∧
  ∀ w, RuntimeComponentRegistry_shutdown r w =
    Some (run_shutdown_phases (components ≫= phases_of (registry_shutdown r)) w).
Proof.
  destruct (shutdown_order_spec r) as (components & Horder & HN & Hown & HF).
  exists components. split; [split_and!|].
  - done.
  - done.
  - exact HF.
  - intros Hac before c after d E Hd Hd'. destruct (HF before c after d E Hd Hd') as [?|Hr]; [done|].
    destruct (Hac c). eapply tc_rtc_r; [by apply tc_once|done].
  - apply phases_of_all; [done|]. intros p Hp. apply Hown. by apply list_elem_of_fmap_2.
  - intros w. unfold RuntimeComponentRegistry_shutdown. rewrite Horder. cbn. do 2 f_equal.
    clear -components. induction components as [|c cs IH]; [done|].
    by rewrite !bind_cons, list.omap_app, IH, component_phases_lookup.
Qed.


(** *** Startup *)

(** The effects of phases that all run. *)
Definition startup_world (phases : list RegisteredStartupPhase) (w : W) : W :=
  foldl (λ w p, (registered_startup_phase p w).2) w phases.

(** What the end of a phase means under its policy. *)
Inductive reports_end : StartupPhaseFailurePolicy → phase_end → StartupPhaseStatus → Prop :=
  | end_succeeded policy : reports_end policy (PhaseReturned (Ok tt)) StartupSucceeded
  | end_failed error : reports_end StartupRequired (PhaseReturned (Err error)) (StartupFailed error)
  | end_panicked : reports_end StartupRequired PhasePanicked (StartupFailed "startup phase panicked")
  | end_skipped error :
      reports_end StartupOptional (PhaseReturned (Err error)) (SkippedAfterFailure error)
  | end_skipped_panic :
      reports_end StartupOptional PhasePanicked (SkippedAfterFailure "startup phase panicked").

Lemma startup_status_end policy e : reports_end policy e (startup_status policy e).
Proof. destruct policy, e as [[[]|]|]; constructor. Qed.

Lemma startup_status_required policy e error :
  startup_status policy e = StartupFailed error → policy = StartupRequired.
Proof. unfold startup_status. destruct policy, e as [[]|]; done. Qed.

(** The report [report] tells how phase [p] ended when it ran in [w]. *)
Definition reports_phase (p : RegisteredStartupPhase) (w : W) (report : StartupPhaseReport) : Prop :=
  startup_report_name report = registered_startup_name p ∧
  startup_report_policy report = registered_startup_policy p ∧
  reports_end (registered_startup_policy p) (registered_startup_phase p w).1
    (startup_report_status report).

(** Startup runs the phases in registration order and reports each phase it
    ran, with its policy and how it ended: success, failure or panic.  It stops
    exactly after the first required phase that fails or panics, in which case
    the report is aborted and nothing after that phase has run; optional
    failures are reported and skipped. *)
Definition startup_contract (phases : list RegisteredStartupPhase) (w : W)
    (reports : list StartupPhaseReport) (w' : W) : Prop :=
  ∃ ran rest,
    phases = ran ++ rest ∧ w' = startup_world ran w ∧ length reports = length ran ∧
    (∀ i p report, ran !! i = Some p → reports !! i = Some report →
       reports_phase p (startup_world (take i ran) w) report) ∧
    ((rest = [] ∧ StartupReport_aborted reports = false) ∨
     (∃ init report error, reports = init ++ [report] ∧
        startup_report_policy report = StartupRequired ∧
        startup_report_status report = StartupFailed error ∧
        StartupReport_aborted reports = true ∧ StartupReport_aborted init = false)).

Lemma startup_correct phases w :
  let '(reports, w') := StartupCoordinator_run phases w in startup_contract phases w reports w'.
Proof.
  unfold startup_contract. revert w. induction phases as [|p phases IH]; intros w; cbn.
  { exists [], []. repeat split; [done..|by left]. }
  destruct (registered_startup_phase p w) as [e w1] eqn:Ep.
  pose proof (startup_status_end (registered_startup_policy p) e) as Hend.
  destruct (startup_status (registered_startup_policy p) e) eqn:Es;
    [specialize (IH w1); destruct (StartupCoordinator_run phases w1) as [reports w2]| |
     specialize (IH w1); destruct (StartupCoordinator_run phases w1) as [reports w2]].
  2:{ exists [p], phases. cbn. rewrite Ep. split; [done|]. split; [done|]. split; [done|]. split.
      - intros [|i] q report Hq Hr; [|done]. simplify_eq/=.
        unfold reports_phase. cbn. by rewrite Ep.
      - right. pose proof (startup_status_required _ _ _ Es) as Hr.
        eexists [], _, error. repeat split; cbn; [done|by rewrite Hr]. }
  all: destruct IH as (ran & rest & -> & -> & Hlen & Hall & Hcase);
    exists (p :: ran), rest; cbn; rewrite Ep, Hlen;
    split; [done|]; split; [done|]; split; [done|]; split;
    [intros [|i] q report Hq Hr;
       [simplify_eq/=; unfold reports_phase; cbn; by rewrite Ep
       |cbn; rewrite Ep; by apply (Hall i)]
    |destruct Hcase as [[-> Ha]|(init & report & error' & -> & ? & ? & ? & ?)];
       [by left|right; eexists (_ :: init), report, error'; by repeat split]].
Qed.
End registry.
