(* ===== verification/Text.v ===== *)
(** * Text

    [str] of the source: a sequence of Unicode scalar values, with the
    operations of the Rust standard library the modelled parsers use.
    Lengths are UTF-8 byte lengths.  [str::parse::<u64>] and decimal
    formatting are written out, with their round trip. *)
From Stdlib Require Import Sorting.Sorted.
From S2P Require Export Prelude.

Definition char : Type := Z.
Definition str : Type := list char.

(** An ASCII literal. *)
Fixpoint lit (s : string) : str :=
  match s with
  | EmptyString => []
  | String a s => Z.of_nat (Ascii.nat_of_ascii a) :: lit s
  end.

(** [char::len_utf8] and [str::len]. *)
Definition len_utf8 (c : char) : Z :=
  if decide (c < 128) then 1 else if decide (c < 2048) then 2
  else if decide (c < 65536) then 3 else 4.

Definition str_len (s : str) : Z := foldr (λ c n, len_utf8 c + n) 0 s.

(** [char::is_whitespace]: the Unicode property [White_Space]. *)
Definition is_whitespace (c : char) : bool :=
  bool_decide (9 ≤ c ≤ 13) || bool_decide (c = 32) || bool_decide (c = 133)
  || bool_decide (c = 160) || bool_decide (c = 5760) || bool_decide (8192 ≤ c ≤ 8202)
  || bool_decide (c = 8232) || bool_decide (c = 8233) || bool_decide (c = 8239)
  || bool_decide (c = 8287) || bool_decide (c = 12288).

Fixpoint trim_start_matches (p : char → bool) (s : str) : str :=
  match s with
  | [] => []
  | c :: s' => if p c then trim_start_matches p s' else s
  end.

Definition trim_end_matches (p : char → bool) (s : str) : str :=
  reverse (trim_start_matches p (reverse s)).

Definition trim_start : str → str := trim_start_matches is_whitespace.
Definition trim_end : str → str := trim_end_matches is_whitespace.
Definition trim (s : str) : str := trim_end (trim_start s).

(** [split_once] and [split] on a character. *)
Fixpoint split_once (sep : char) (s : str) : option (str * str) :=
  match s with
  | [] => None
  | c :: s =>
      if decide (c = sep) then Some ([], s)
      else '(a, b) ← split_once sep s; Some (c :: a, b)
  end.

Fixpoint split (sep : char) (s : str) : list str :=
  match s with
  | [] => [[]]
  | c :: s =>
      if decide (c = sep) then [] :: split sep s
      else match split sep s with
        | [] => [[c]]
        | part :: parts => (c :: part) :: parts
        end
  end.

Fixpoint join (sep : str) (parts : list str) : str :=
  match parts with
  | [] => []
  | [part] => part
  | part :: parts => part ++ sep ++ join sep parts
  end.

Definition to_ascii_lowercase (c : char) : char :=
  if decide (65 ≤ c ≤ 90) then c + 32 else c.

Definition eq_ignore_ascii_case (a b : str) : bool :=
  bool_decide (to_ascii_lowercase <$> a = to_ascii_lowercase <$> b).

Definition is_ascii_digit (c : char) : bool := bool_decide (48 ≤ c ≤ 57).
Definition is_ascii_alphabetic (c : char) : bool :=
  bool_decide (65 ≤ c ≤ 90) || bool_decide (97 ≤ c ≤ 122).

(** ** Numbers *)

(** [checked_mul(10)] and [checked_add(digit)] over the digits. *)
Fixpoint parse_digits (acc : Z) (s : str) : option Z :=
  match s with
  | [] => Some acc
  | c :: s =>
      if is_ascii_digit c then
        let acc := acc * 10 + (c - 48) in
        if decide (acc ≤ U64_MAX) then parse_digits acc s else None
      else None
  end.

(** [str::parse::<u64>]: one or more digits after an optional plus sign. *)
Definition parse_u64 (s : str) : option Z :=
  match s with
  | [] => None
  | c :: s' =>
      if decide (c = 43) then
        if decide (s' = []) then None else parse_digits 0 s'
      else parse_digits 0 s
  end.

(** Decimal [Display] of a non-negative integer below [10 ^ fuel]. *)
Fixpoint show_digits (fuel : nat) (n : Z) : str :=
  match fuel with
  | O => []
  | S fuel => if decide (n < 10) then [48 + n] else show_digits fuel (n / 10) ++ [48 + n mod 10]
  end.

Definition show_u64 (n : Z) : str := show_digits 20 n.

(** ** Lemmas *)
Lemma str_len_nonneg s : 0 ≤ str_len s.
Proof.
  unfold str_len. induction s as [|c s IH]; [done|]. cbn [foldr].
  assert (0 ≤ len_utf8 c) by (unfold len_utf8; repeat case_decide; lia). lia.
Qed.

Lemma str_len_app s t : str_len (s ++ t) = str_len s + str_len t.
Proof. unfold str_len. induction s as [|c s IH]; [done|]. cbn [foldr app]. rewrite IH. lia. Qed.

Lemma trim_start_matches_none p c s :
  p c = false → trim_start_matches p (c :: s) = c :: s.
Proof. cbn. by intros ->. Qed.

(** Trimming keeps a text whose first and last characters stay. *)
Lemma trim_id s :
  (∀ c, head s = Some c → is_whitespace c = false) →
  (∀ c, list.last s = Some c → is_whitespace c = false) → trim s = s.
Proof.
  intros Hh Hl. unfold trim, trim_start, trim_end, trim_end_matches.
  assert (trim_start_matches is_whitespace s = s) as ->.
  { destruct s as [|c s]; [done|]. apply trim_start_matches_none. by apply Hh. }
  destruct s as [|c s _] using rev_ind; [done|].
  rewrite reverse_snoc, trim_start_matches_none by apply Hl, list.last_snoc.
  by rewrite reverse_cons, reverse_involutive.
Qed.

Lemma split_nonempty sep s : split sep s ≠ [].
Proof. destruct s as [|c s]; cbn; [done|]. case_decide; [done|]. by destruct (split sep s). Qed.

Lemma split_plain sep s : sep ∉ s → split sep s = [s].
Proof.
  induction s as [|c s IH]; cbn; [done|].
  intros [Hc Hs]%not_elem_of_cons. rewrite decide_False by congruence. by rewrite IH.
Qed.

Lemma split_app sep s t : sep ∉ s → split sep (s ++ sep :: t) = s :: split sep t.
Proof.
  induction s as [|c s IH]; cbn.
  - intros _. by rewrite decide_True.
  - intros [Hc Hs]%not_elem_of_cons. rewrite decide_False by congruence. by rewrite IH.
Qed.

(** Splitting what was joined gives the parts back. *)
Lemma split_join sep parts :
  parts ≠ [] → (∀ part, part ∈ parts → sep ∉ part) → split sep (join [sep] parts) = parts.
Proof.
  induction parts as [|part parts IH]; [done|]. intros _ Hsep.
  assert (sep ∉ part) by (apply Hsep, elem_of_cons; by left).
  destruct parts as [|part' parts]; [by apply split_plain|].
  change (join [sep] (part :: part' :: parts)) with
    (part ++ sep :: join [sep] (part' :: parts)).
  rewrite split_app by done. f_equal. apply IH; [done|].
  intros q Hq. apply Hsep, elem_of_cons. by right.
Qed.

Lemma split_once_app sep s t : sep ∉ s → split_once sep (s ++ sep :: t) = Some (s, t).
Proof.
  induction s as [|c s IH]; cbn.
  - intros _. by rewrite decide_True.
  - intros [Hc Hs]%not_elem_of_cons. rewrite decide_False by congruence. by rewrite IH.
Qed.

Lemma split_once_some sep s a b :
  split_once sep s = Some (a, b) ↔ s = a ++ sep :: b ∧ sep ∉ a.
Proof.
  split; [|intros [-> ?]; by apply split_once_app].
  revert a. induction s as [|c s IH]; intros a; cbn; [done|]. case_decide as Hc.
  - intros [= <- <-]. subst. split; [done|]. apply not_elem_of_nil.
  - destruct (split_once sep s) as [[a' b']|]; [|done]. cbn. intros [= <- <-].
    destruct (IH a' eq_refl) as [-> Ha]. split; [done|].
    apply not_elem_of_cons. split; [congruence|done].
Qed.

Lemma parse_digits_app s t acc :
  parse_digits acc (s ++ t) = parse_digits acc s ≫= λ acc, parse_digits acc t.
Proof.
  revert acc. induction s as [|c s IH]; intros acc; cbn; [done|].
  destruct (is_ascii_digit c); [|done]. case_decide; [apply IH|done].
Qed.

Lemma is_ascii_digit_true c : is_ascii_digit c = true ↔ 48 ≤ c ≤ 57.
Proof. unfold is_ascii_digit. apply bool_decide_eq_true. Qed.

Lemma show_digits_parse fuel n :
  (0 < fuel)%nat → 0 ≤ n < 10 ^ Z.of_nat fuel → n ≤ U64_MAX →
  ∃ c s, show_digits fuel n = c :: s ∧ is_ascii_digit c = true ∧
    parse_digits 0 (show_digits fuel n) = Some n.
Proof.
  revert n. induction fuel as [|fuel IH]; intros n Hf Hn Hmax; [lia|].
  rewrite Nat2Z.inj_succ, Z.pow_succ_r in Hn by lia. cbn. case_decide as Hten.
  - exists (48 + n), []. rewrite (proj2 (is_ascii_digit_true _)) by lia.
    split; [done|]. split; [done|].
    cbn [parse_digits]. rewrite (proj2 (is_ascii_digit_true _)) by lia. cbv zeta.
    rewrite decide_True by lia. f_equal. lia.
  - destruct (IH (n / 10)) as (c & s & E & Hc & Hp).
    + destruct fuel; [cbn in Hn; lia|lia].
    + split; [apply Z.div_pos; lia|]. apply Z.div_lt_upper_bound; lia.
    + pose proof (Z.div_le_upper_bound n 10 U64_MAX). lia.
    + exists c, (s ++ [48 + n mod 10]). split; [by rewrite E|]. split; [done|].
      rewrite parse_digits_app, Hp. cbn.
      pose proof (Z.mod_pos_bound n 10 ltac:(lia)).
      rewrite (proj2 (is_ascii_digit_true _)) by lia.
      replace (n / 10 * 10 + (48 + n mod 10 - 48)) with n
        by (pose proof (Z.div_mod n 10); lia).
      by rewrite decide_True.
Qed.

Lemma show_u64_parse n :
  in_u64 n → ∃ c s, show_u64 n = c :: s ∧ is_ascii_digit c = true ∧ parse_u64 (show_u64 n) = Some n.
Proof.
  intros [H0 Hmax]. destruct (show_digits_parse 20 n) as (c & s & E & Hc & Hp); [lia| |done|].
  - split; [done|]. eapply Z.le_lt_trans; [exact Hmax|]. done.
  - exists c, s. split; [done|]. split; [done|]. unfold show_u64. rewrite E in *. cbn [parse_u64].
    apply is_ascii_digit_true in Hc. by rewrite decide_False by lia.
Qed.

Lemma show_digits_all fuel n :
  0 ≤ n → ∀ c, c ∈ show_digits fuel n → 48 ≤ c ≤ 57.
Proof.
  revert n. induction fuel as [|fuel IH]; intros n Hn c; cbn; [by intros ?%elem_of_nil|].
  case_decide.
  - intros ->%list_elem_of_singleton. lia.
  - intros [Hc|Hc]%elem_of_app.
    + apply (IH (n / 10)); [apply Z.div_pos; lia|done].
    + apply list_elem_of_singleton in Hc as ->.
      pose proof (Z.mod_pos_bound n 10 ltac:(lia)). lia.
Qed.

Lemma show_u64_digits n c : 0 ≤ n → c ∈ show_u64 n → 48 ≤ c ≤ 57.
Proof. intros Hn Hc. exact (show_digits_all 20 n Hn c Hc). Qed.

Lemma digit_not_whitespace c : 48 ≤ c ≤ 57 → is_whitespace c = false.
Proof.
  intros Hc. unfold is_whitespace. by rewrite !bool_decide_eq_false_2 by lia.
Qed.

Lemma parse_digits_range s acc n :
  in_u64 acc → parse_digits acc s = Some n → in_u64 n.
Proof.
  unfold in_u64. revert acc. induction s as [|c s IH]; intros acc Hacc; cbn [parse_digits].
  - by intros [= <-].
  - destruct (is_ascii_digit c) eqn:Hc; [|done]. apply is_ascii_digit_true in Hc.
    cbv zeta. case_decide; [|done]. apply IH. lia.
Qed.

Lemma parse_u64_range s n : parse_u64 s = Some n → in_u64 n.
Proof.
  assert (in_u64 0) by (unfold in_u64, U64_MAX; lia).
  destruct s as [|c s]; [done|]. cbn [parse_u64].
  case_decide; [case_decide; [done|]|]; by apply parse_digits_range.
Qed.

Lemma trim_plain s : (∀ c, c ∈ s → is_whitespace c = false) → trim s = s.
Proof.
  intros Hs. apply trim_id; intros c Hc; apply Hs.
  - destruct s; [done|]. injection Hc as ->. apply elem_of_cons. by left.
  - apply list.last_Some in Hc as [l ->]. apply elem_of_app. right. by apply list_elem_of_singleton.
Qed.

(** ** UTF-8 and affixes *)

(** [str::from_utf8]: the well-formed byte sequences of RFC 3629. *)
Definition continuation (b : Z) : bool := bool_decide (128 ≤ b ≤ 191).

Fixpoint from_utf8 (bytes : list Z) : option str :=
  match bytes with
  | [] => Some []
  | b0 :: rest0 =>
      if decide (0 ≤ b0 ≤ 127) then cons b0 <$> from_utf8 rest0
      else match rest0 with
      | [] => None
      | b1 :: rest1 =>
          if decide (194 ≤ b0 ≤ 223) then
            if continuation b1 then cons ((b0 - 192) * 64 + (b1 - 128)) <$> from_utf8 rest1 else None
          else match rest1 with
          | [] => None
          | b2 :: rest2 =>
              if decide (224 ≤ b0 ≤ 239) then
                if continuation b1 && continuation b2
                   && (bool_decide (b0 ≠ 224) || bool_decide (160 ≤ b1))
                   && (bool_decide (b0 ≠ 237) || bool_decide (b1 ≤ 159))
                then cons ((b0 - 224) * 4096 + (b1 - 128) * 64 + (b2 - 128)) <$> from_utf8 rest2
                else None
              else match rest2 with
              | [] => None
              | b3 :: rest3 =>
                  if bool_decide (240 ≤ b0 ≤ 244)
                     && continuation b1 && continuation b2 && continuation b3
                     && (bool_decide (b0 ≠ 240) || bool_decide (144 ≤ b1))
                     && (bool_decide (b0 ≠ 244) || bool_decide (b1 ≤ 143))
                  then cons ((b0 - 240) * 262144 + (b1 - 128) * 4096 + (b2 - 128) * 64 + (b3 - 128))
                         <$> from_utf8 rest3
                  else None
              end
          end
      end
  end.

Definition starts_with (c : char) (s : str) : bool := bool_decide (head s = Some c).
Definition ends_with (c : char) (s : str) : bool := bool_decide (list.last s = Some c).

Fixpoint strip_prefix (prefix s : str) : option str :=
  match prefix, s with
  | [], _ => Some s
  | c :: prefix, d :: s => if decide (c = d) then strip_prefix prefix s else None
  | _ :: _, [] => None
  end.

Lemma strip_prefix_some prefix s rest : strip_prefix prefix s = Some rest ↔ s = prefix ++ rest.
Proof.
  revert s. induction prefix as [|c prefix IH]; intros s; cbn.
  - split; [by intros [= ->]|by intros ->].
  - destruct s as [|d s]; [done|]. case_decide as Hc.
    + rewrite IH. subst. naive_solver.
    + naive_solver.
Qed.

(** [str::as_bytes]: the UTF-8 encoding of scalar values. *)
Definition encode_char (c : char) : list Z :=
  if decide (c < 128) then [c]
  else if decide (c < 2048) then [192 + c / 64; 128 + c mod 64]
  else if decide (c < 65536) then [224 + c / 4096; 128 + c / 64 mod 64; 128 + c mod 64]
  else [240 + c / 262144; 128 + c / 4096 mod 64; 128 + c / 64 mod 64; 128 + c mod 64].

Definition as_bytes (s : str) : list Z := s ≫= encode_char.

Lemma as_bytes_ascii s : (∀ c, c ∈ s → c < 128) → as_bytes s = s.
Proof.
  induction s as [|c s IH]; intros Hs; [done|].
  unfold as_bytes in *. rewrite bind_cons, IH.
  - unfold encode_char. by rewrite decide_True by (apply Hs, elem_of_cons; by left).
  - intros d Hd. apply Hs, elem_of_cons. by right.
Qed.

(** ** Order

    Lexicographic order: of byte slices, and of texts, where the order of
    scalar values is the order of their UTF-8 bytes. *)
Fixpoint slice_cmp (a b : list Z) : comparison :=
  match a, b with
  | [], [] => Eq
  | [], _ :: _ => Lt
  | _ :: _, [] => Gt
  | x :: a, y :: b => match x ?= y with Eq => slice_cmp a b | c => c end
  end.

Definition key_lt (a b : list Z) : Prop := slice_cmp a b = Lt.

Lemma slice_cmp_eq a b : slice_cmp a b = Eq ↔ a = b.
Proof.
  revert b. induction a as [|x a IH]; intros [|y b]; cbn; try done.
  destruct (x ?= y) eqn:E.
  - apply Z.compare_eq in E as ->. rewrite IH. naive_solver.
  - split; [done|]. intros [= -> _]. by rewrite Z.compare_refl in E.
  - split; [done|]. intros [= -> _]. by rewrite Z.compare_refl in E.
Qed.

#[export] Instance key_lt_trans : Transitive key_lt.
Proof.
  unfold key_lt. intros a b c. revert b c.
  induction a as [|x a IH]; intros [|y b] [|z c]; cbn; try done.
  destruct (x ?= y) eqn:E1; destruct (y ?= z) eqn:E2; try done; intros H1 H2.
  - apply Z.compare_eq in E1 as ->. rewrite E2. by eapply IH.
  - apply Z.compare_eq in E1 as ->. by rewrite E2.
  - apply Z.compare_eq in E2 as ->. by rewrite E1.
  - assert (x < z) as Hz by (rewrite Z.compare_lt_iff in *; lia).
    by rewrite (proj2 (Z.compare_lt_iff x z) Hz).
Qed.

Lemma key_lt_irrefl a : ¬ key_lt a a.
Proof. unfold key_lt. by rewrite (proj2 (slice_cmp_eq a a) eq_refl). Qed.

(** [Vec::<String>::sort] and [dedup]. *)
Definition str_leb (a b : str) : bool := match slice_cmp a b with Gt => false | _ => true end.

Definition sort_strs : list str → list str := sort_by str_leb.

Fixpoint dedup (l : list str) : list str :=
  match l with
  | [] => []
  | x :: l' =>
      match l' with
      | [] => [x]
      | y :: _ => if decide (x = y) then dedup l' else x :: dedup l'
      end
  end.

Definition str_le (a b : str) : Prop := a = b ∨ key_lt a b.

#[export] Instance str_le_trans : Transitive str_le.
Proof. intros a b c [->|H1] [->|H2]; unfold str_le; auto. right. by etrans. Qed.

Lemma slice_cmp_gt a b : slice_cmp a b = Gt → key_lt b a.
Proof.
  unfold key_lt. revert b. induction a as [|x a IH]; intros [|y b]; cbn; try done.
  rewrite (Z.compare_antisym x y). destruct (x ?= y); cbn; auto; done.
Qed.

Lemma sort_strs_sorted l : StronglySorted str_le (sort_strs l).
Proof.
  apply sort_by_sorted; [apply _|..]; unfold str_leb, str_le; intros a b;
    destruct (slice_cmp a b) eqn:E; try done; intros _.
  - left. by apply slice_cmp_eq.
  - by right.
  - right. by apply slice_cmp_gt.
Qed.

Lemma elem_of_dedup x l : x ∈ dedup l ↔ x ∈ l.
Proof.
  induction l as [|y [|z l] IH]; [done|done|]. cbn [dedup] in *.
  case_decide as E.
  - subst. rewrite IH, !elem_of_cons. tauto.
  - rewrite elem_of_cons, IH, !elem_of_cons. tauto.
Qed.

Lemma dedup_sorted l : StronglySorted str_le l → StronglySorted key_lt (dedup l).
Proof.
  induction 1 as [|x l Hl IH Hx]; [constructor|]. destruct l as [|y l]; [repeat constructor|].
  cbn [dedup] in *. case_decide as E; [done|]. constructor; [done|].
  apply list.Forall_forall. intros z Hz. rewrite (elem_of_dedup z (y :: l)) in Hz.
  apply list.Forall_cons in Hx as [Hxy Hx]. destruct Hxy as [?|Hxy]; [done|].
  apply StronglySorted_inv in Hl as [_ Hy].
  apply elem_of_cons in Hz as [->|Hz]; [done|].
  rewrite list.Forall_forall in Hy. destruct (Hy z Hz) as [<-|Hyz]; [done|by etrans].
Qed.

(** The canonical list of a set of texts. *)
Lemma elem_of_sort_dedup x l : x ∈ dedup (sort_strs l) ↔ x ∈ l.
Proof. unfold sort_strs. by rewrite elem_of_dedup, elem_of_sort_by. Qed.

Lemma sort_dedup_sorted l : StronglySorted key_lt (dedup (sort_strs l)).
Proof. apply dedup_sorted, sort_strs_sorted. Qed.

Lemma key_sorted_distinct l : StronglySorted key_lt l → NoDup l.
Proof.
  induction 1 as [|x l Hl IH Hx]; constructor; [|done].
  rewrite list.Forall_forall in Hx. intros Hin%Hx. by apply key_lt_irrefl in Hin.
Qed.
