(* ===== verification/HttpRange.v ===== *)
(** * HTTP byte ranges

    [aster_forge_utils/src/http_range.rs]: the parser of the [Range] header,
    from the raw text to the ranges it selects in one representation. *)
From S2P Require Export Text.

Record HttpByteRange : Type := mk_HttpByteRange {
  range_start : Z;
  range_end : Z;
  range_length : Z;
  range_total_size : Z;
}.

#[export] Instance HttpByteRange_eq_dec : EqDecision HttpByteRange.
Proof. solve_decision. Defined.

Record HttpByteRangeSet : Type := mk_HttpByteRangeSet {
  requested_count : Z;
  set_ranges : list HttpByteRange;
}.

Inductive HttpRangeError : Type :=
  | UnsupportedUnit
  | MultipleRangesUnsupported
  | HeaderTooLong
  | TooManyRanges
  | RangeMalformed
  | InvalidNumber
  | EmptyRepresentation
  | Unsatisfiable.

#[export] Instance HttpRangeError_eq_dec : EqDecision HttpRangeError.
Proof. solve_decision. Defined.

Definition HttpByteRange_new (start end_ total_size : Z) : result HttpRangeError HttpByteRange :=
  if decide (total_size = 0) then Err EmptyRepresentation
  else if decide (end_ < start ∨ total_size ≤ end_) then Err Unsatisfiable
  else Ok (mk_HttpByteRange start end_ (end_ - start + 1) total_size).

Definition HttpByteRange_content_range_header (r : HttpByteRange) : str :=
  lit "bytes " ++ show_u64 (range_start r) ++ lit "-" ++ show_u64 (range_end r) ++ lit "/"
    ++ show_u64 (range_total_size r).

Definition parse_bound (value : str) : result HttpRangeError Z :=
  ok_or (parse_u64 value) InvalidNumber.

(** The character ['-']. *)
Definition dash : char := 45.
Definition comma : char := 44.
Definition equals : char := 61.

Definition parse_byte_range_spec (spec : str) (total_size : Z)
    : result HttpRangeError (option HttpByteRange) :=
  '(start_raw, end_raw) ← ok_or (split_once dash spec) RangeMalformed;
  if decide (start_raw = [] ∧ end_raw = []) then Err RangeMalformed
  else if decide (start_raw = []) then
    suffix_length ← parse_bound end_raw;
    if decide (suffix_length = 0 ∨ total_size = 0) then Ok None
    else
      let length := Z.min suffix_length total_size in
      Some <$> HttpByteRange_new (total_size - length) (total_size - 1) total_size
  else
    start ← parse_bound start_raw;
    end_ ← (if decide (end_raw = []) then Ok None else Some <$> parse_bound end_raw);
    if match end_ with Some e => bool_decide (e < start) | None => false end
    then Err RangeMalformed
    else if decide (total_size = 0 ∨ total_size ≤ start) then Ok None
    else
      let end_ := Z.min (default (total_size - 1) end_) (total_size - 1) in
      Some <$> HttpByteRange_new start end_ total_size.

(** The loop over the non-empty members, with its early return. *)
Fixpoint parse_specs (specs : list str) (total_size : Z)
    : result HttpRangeError (list HttpByteRange) :=
  match specs with
  | [] => Ok []
  | spec :: specs =>
      range ← parse_byte_range_spec spec total_size;
      ranges ← parse_specs specs total_size;
      Ok (match range with Some range => range :: ranges | None => ranges end)
  end.

Definition nonempty_specs (range_set : str) : list str :=
  filter (λ spec, spec ≠ []) (trim <$> split comma range_set).

Definition parse_byte_ranges (raw : str) (total_size maximum_raw_bytes maximum_specs : Z)
    : result HttpRangeError HttpByteRangeSet :=
  if decide (maximum_raw_bytes < str_len raw) then Err HeaderTooLong
  else
    '(unit_, range_set) ← ok_or (split_once equals (trim_start raw)) UnsupportedUnit;
    if negb (eq_ignore_ascii_case unit_ (lit "bytes")) then Err UnsupportedUnit
    else
      let count := Z.of_nat (length (filter (λ spec, trim spec ≠ []) (split comma range_set))) in
      if decide (count = 0) then Err RangeMalformed
      else if decide (maximum_specs < count) then Err TooManyRanges
      else
        ranges ← parse_specs (nonempty_specs range_set) total_size;
        if decide (ranges = []) then
          Err (if decide (total_size = 0) then EmptyRepresentation else Unsatisfiable)
        else Ok (mk_HttpByteRangeSet count ranges).

Definition parse_single_byte_range (raw : str) (total_size : Z)
    : result HttpRangeError HttpByteRange :=
  set_ ← map_err (λ e, if decide (e = TooManyRanges) then MultipleRangesUnsupported else e)
    (parse_byte_ranges raw total_size (str_len raw) 1);
  ok_or (head (set_ranges set_)) Unsatisfiable.

Example parse_example :
  parse_single_byte_range (lit "  BYTES=5-99") 20 = Ok (mk_HttpByteRange 5 19 15 20).
Proof. vm_compute. reflexivity. Qed.

(** ** Verification *)

(** The range-spec grammar of RFC 9110, section 14.1.1, as data. *)
Inductive range_spec : Type :=
  | FirstLast (first last : Z)
  | FirstOpen (first : Z)
  | Suffix (length : Z).

Definition spec_bounded (s : range_spec) : Prop :=
  match s with
  | FirstLast a b => in_u64 a ∧ in_u64 b
  | FirstOpen a => in_u64 a
  | Suffix n => in_u64 n
  end.

Definition spec_valid (s : range_spec) : Prop :=
  match s with FirstLast a b => a ≤ b | _ => True end.

#[export] Instance spec_valid_dec s : Decision (spec_valid s).
Proof. destruct s; apply _. Defined.

Definition render_spec (s : range_spec) : str :=
  match s with
  | FirstLast a b => show_u64 a ++ dash :: show_u64 b
  | FirstOpen a => show_u64 a ++ [dash]
  | Suffix n => dash :: show_u64 n
  end.

(** The bytes a specifier selects in a representation of [total] bytes. *)
Definition selects (s : range_spec) (total i : Z) : Prop :=
  0 ≤ i < total ∧
  match s with
  | FirstLast a b => a ≤ i ≤ b
  | FirstOpen a => a ≤ i
  | Suffix n => total - n ≤ i
  end.

(** [r] is exactly the bytes [s] selects, and there is one of them. *)
Definition resolves (s : range_spec) (total : Z) (r : HttpByteRange) : Prop :=
  range_total_size r = total ∧ 0 ≤ range_start r ≤ range_end r ∧ range_end r < total ∧
  range_length r = range_end r - range_start r + 1 ∧
  ∀ i, range_start r ≤ i ≤ range_end r ↔ selects s total i.

Definition resolve_spec (s : range_spec) (total : Z) : option HttpByteRange :=
  let range a b := if decide (a ≤ b) then Some (mk_HttpByteRange a b (b - a + 1) total) else None in
  match s with
  | FirstLast a b => range a (Z.min b (total - 1))
  | FirstOpen a => range a (total - 1)
  | Suffix n => range (Z.max 0 (total - n)) (total - 1)
  end.

(** The resolution is exactly the selected bytes, and it is missing exactly
    when there are none. *)
Lemma resolve_spec_correct s total :
  in_u64 total → spec_bounded s →
  match resolve_spec s total with
  | Some r => resolves s total r
  | None => ∀ i, ¬ selects s total i
  end.
Proof.
  unfold in_u64. intros Ht Hs.
  destruct s as [a b|a|n]; cbn in *; unfold in_u64 in *; case_decide; unfold resolves, selects; cbn;
    (split_and!; try lia; intros i; lia) || (intros i; lia).
Qed.

Lemma HttpByteRange_new_ok a b total :
  a ≤ b → b < total → total ≠ 0 →
  HttpByteRange_new a b total = Ok (mk_HttpByteRange a b (b - a + 1) total).
Proof.
  intros. unfold HttpByteRange_new. rewrite decide_False by done. by rewrite decide_False by lia.
Qed.

Lemma not_digit_in n c : 0 ≤ n → ¬ 48 ≤ c ≤ 57 → c ∉ show_u64 n.
Proof. intros Hn Hc Hin. by apply show_u64_digits in Hin. Qed.

Lemma show_not_nil n : in_u64 n → show_u64 n ≠ [].
Proof. intros Hn. by destruct (show_u64_parse n Hn) as (c & s & -> & _). Qed.

Lemma parse_bound_show n : in_u64 n → parse_bound (show_u64 n) = Ok n.
Proof.
  intros Hn. unfold parse_bound. by destruct (show_u64_parse n Hn) as (c & s & _ & _ & ->).
Qed.

(** A rendered specifier parses to its resolution; reversed bounds are
    malformed. *)
Lemma parse_rendered_spec s total :
  in_u64 total → spec_bounded s →
  parse_byte_range_spec (render_spec s) total =
  if decide (spec_valid s) then Ok (resolve_spec s total) else Err RangeMalformed.
Proof.
  intros Ht Hs. pose proof Ht as [Ht0 _]. unfold parse_byte_range_spec.
  destruct s as [a b|a|n]; cbn [render_spec spec_bounded resolve_spec] in *.
  - destruct Hs as [Ha Hb]. pose proof Ha as [Ha0 _].
    rewrite split_once_app by (apply not_digit_in; [lia|unfold dash; lia]). cbn [ok_or mbind result_bind].
    pose proof (show_not_nil a Ha). pose proof (show_not_nil b Hb).
    rewrite !decide_False by tauto. rewrite !parse_bound_show by done. cbn.
    destruct (decide (a ≤ b)) as [Hv|Hv];
      [rewrite bool_decide_eq_false_2 by lia|by rewrite bool_decide_eq_true_2 by lia].
    case_decide; [rewrite decide_False by lia; done|].
    rewrite decide_True by lia. rewrite HttpByteRange_new_ok by lia. done.
  - pose proof Hs as [Ha0 _].
    rewrite split_once_app by (apply not_digit_in; [lia|unfold dash; lia]). cbn [ok_or mbind result_bind].
    pose proof (show_not_nil a Hs). rewrite !decide_False by tauto.
    rewrite parse_bound_show by done. cbn [mbind result_bind].
    rewrite (decide_True (P := spec_valid (FirstOpen a))) by done.
    rewrite decide_True by done. cbn.
    case_decide; [rewrite decide_False by lia; done|].
    rewrite decide_True by lia. rewrite Z.min_id, HttpByteRange_new_ok by lia. done.
  - pose proof Hs as [Hn0 _].
    cbn [split_once]. rewrite decide_True by done. cbn [ok_or mbind result_bind].
    pose proof (show_not_nil n Hs). rewrite decide_False by tauto. rewrite decide_True by done.
    rewrite parse_bound_show by done. cbn [mbind result_bind].
    rewrite (decide_True (P := spec_valid (Suffix n))) by done.
    case_decide; [rewrite decide_False by lia; done|].
    rewrite decide_True by lia. rewrite HttpByteRange_new_ok by lia. cbn. do 3 f_equal; lia.
Qed.

Definition render_range_set (specs : list range_spec) : str :=
  lit "bytes=" ++ join [comma] (render_spec <$> specs).

Lemma elem_of_render s c :
  spec_bounded s → c ∈ render_spec s → 48 ≤ c ≤ 57 ∨ c = dash.
Proof.
  destruct s as [a b|a|n]; cbn [render_spec spec_bounded].
  - intros [[Ha _] [Hb _]] [Hc|[->|Hc]%elem_of_cons]%elem_of_app; [left|by right|left].
    + exact (show_u64_digits a c Ha Hc).
    + exact (show_u64_digits b c Hb Hc).
  - intros [Ha _] [Hc| ->%list_elem_of_singleton]%elem_of_app; [left|by right].
    exact (show_u64_digits a c Ha Hc).
  - intros [Hn _] [->|Hc]%elem_of_cons; [by right|left].
    exact (show_u64_digits n c Hn Hc).
Qed.

Lemma trim_render s : spec_bounded s → trim (render_spec s) = render_spec s.
Proof.
  intros Hs. apply trim_plain. intros c [Hc| ->]%elem_of_render; [|done..].
  by apply digit_not_whitespace.
Qed.

Lemma render_not_nil s : render_spec s ≠ [].
Proof. destruct s as [a b|a|n]; cbn [render_spec]; [by destruct (show_u64 a)..|done]. Qed.

Lemma comma_free s : spec_bounded s → comma ∉ render_spec s.
Proof. intros Hs [Hc|Hc]%elem_of_render; unfold comma, dash in *; [lia|done..]. Qed.

Lemma split_rendered specs :
  Forall spec_bounded specs → specs ≠ [] →
  split comma (join [comma] (render_spec <$> specs)) = render_spec <$> specs.
Proof.
  intros Hs Hne. apply split_join; [by destruct specs|].
  intros part (s & -> & Hin)%list_elem_of_fmap. apply comma_free.
  rewrite list.Forall_forall in Hs. auto.
Qed.

Lemma filter_all {A} (P : A → Prop) `{∀ x, Decision (P x)} (l : list A) :
  Forall P l → filter P l = l.
Proof.
  induction 1 as [|x l Hx Hl IH]; [done|]. by rewrite filter_cons_True, IH.
Qed.

Lemma nonempty_rendered specs :
  Forall spec_bounded specs →
  filter (λ spec, spec ≠ []) (trim <$> (render_spec <$> specs)) = render_spec <$> specs ∧
  filter (λ spec, trim spec ≠ []) (render_spec <$> specs) = render_spec <$> specs.
Proof.
  intros Hs.
  assert (trim <$> (render_spec <$> specs) = render_spec <$> specs) as ->.
  { induction Hs as [|s specs Hs _ IH]; [done|]. rewrite !fmap_cons, trim_render by done.
    f_equal. exact IH. }
  split; apply filter_all, Forall_fmap; eapply Forall_impl; try exact Hs; intros s Hb; cbn.
  - apply render_not_nil.
  - rewrite trim_render by done. apply render_not_nil.
Qed.

Lemma parse_rendered_specs specs total :
  in_u64 total → Forall spec_bounded specs →
  parse_specs (render_spec <$> specs) total =
  if decide (Forall spec_valid specs) then Ok (omap (λ s, resolve_spec s total) specs)
  else Err RangeMalformed.
Proof.
  intros Ht. induction 1 as [|s specs Hs _ IH]; [done|].
  change (parse_specs (render_spec <$> s :: specs) total) with
    (parse_byte_range_spec (render_spec s) total ≫= λ range,
       parse_specs (render_spec <$> specs) total ≫= λ ranges,
       Ok (match range with Some range => range :: ranges | None => ranges end)).
  rewrite (parse_rendered_spec s total Ht Hs), IH.
  destruct (decide (spec_valid s)) as [Hv|Hv]; destruct (decide (Forall spec_valid specs)) as [Hvs|Hvs];
    cbn [mbind result_bind].
  - rewrite decide_True by by constructor. cbn. by destruct (resolve_spec s total).
  - rewrite decide_False; [done|]. by intros [_ ?]%list.Forall_cons.
  - rewrite decide_False; [done|]. by intros [? _]%list.Forall_cons.
  - rewrite decide_False; [done|]. by intros [? _]%list.Forall_cons.
Qed.

Definition no_range_error (total : Z) : HttpRangeError :=
  if decide (total = 0) then EmptyRepresentation else Unsatisfiable.

(** What a header written from [specs] parses to. *)
Definition parsed_range_set (specs : list range_spec) (total maximum_specs : Z)
    : result HttpRangeError HttpByteRangeSet :=
  let ranges := omap (λ s, resolve_spec s total) specs in
  if decide (specs = []) then Err RangeMalformed
  else if decide (maximum_specs < Z.of_nat (length specs)) then Err TooManyRanges
  else if decide (Forall spec_valid specs) then
    if decide (ranges = []) then Err (no_range_error total)
    else Ok (mk_HttpByteRangeSet (Z.of_nat (length specs)) ranges)
  else Err RangeMalformed.

(** C28. Writing a list of range specifiers in the RFC 9110 grammar and
    parsing the text gives the specifiers back, resolved in order: each one
    becomes exactly the bytes of the representation it selects, end bounds
    clamped and suffixes limited, and those that select nothing are dropped.
    An empty list, one longer than the limit, one with reversed bounds and
    one that selects nothing at all have their own errors. *)
Theorem range_set_round_trip specs total maximum_raw_bytes maximum_specs :
  in_u64 total → Forall spec_bounded specs →
  parse_byte_ranges (render_range_set specs) total maximum_raw_bytes maximum_specs =
    (if decide (maximum_raw_bytes < str_len (render_range_set specs)) then Err HeaderTooLong
     else parsed_range_set specs total maximum_specs) ∧
  Forall (λ s, match resolve_spec s total with
    | Some r => resolves s total r
    | None => ∀ i, ¬ selects s total i
    end) specs.
Proof.
  intros Ht Hs. split; [|eapply Forall_impl; [|exact Hs]; intros; by apply resolve_spec_correct].
  unfold parse_byte_ranges. case_decide; [done|].
  assert (split_once equals (trim_start (render_range_set specs)) =
    Some (lit "bytes", join [comma] (render_spec <$> specs))) as -> by reflexivity.
  cbn [ok_or mbind result_bind]. unfold parsed_range_set.
  destruct (decide (specs = [])) as [->|Hne]; [done|].
  change (negb (eq_ignore_ascii_case (lit "bytes") (lit "bytes"))) with false.
  unfold nonempty_specs. rewrite split_rendered by done.
  destruct (nonempty_rendered specs Hs) as [-> ->]. rewrite length_fmap.
  rewrite decide_False by (destruct specs; cbn; [done|lia]).
  case_decide; [done|]. rewrite (parse_rendered_specs specs total Ht Hs).
  by destruct (decide (Forall spec_valid specs)).
Qed.

Lemma range_set_round_trip_witness :
  parse_byte_ranges (render_range_set [FirstLast 5 99; Suffix 3; FirstOpen 40]) 20 100 3 =
  Ok (mk_HttpByteRangeSet 3 [mk_HttpByteRange 5 19 15 20; mk_HttpByteRange 17 19 3 20]).
Proof.
  destruct (range_set_round_trip [FirstLast 5 99; Suffix 3; FirstOpen 40] 20 100 3) as [E _].
  - unfold in_u64, U64_MAX. lia.
  - repeat constructor; unfold in_u64, U64_MAX; lia.
  - rewrite E. vm_compute. reflexivity.
Defined.

(** ** Arbitrary headers *)

(** A range of a representation of [total] bytes, its length included. *)
Definition well_formed (total : Z) (r : HttpByteRange) : Prop :=
  range_total_size r = total ∧ 0 ≤ range_start r ≤ range_end r ∧ range_end r < total ∧
  range_length r = range_end r - range_start r + 1.

Lemma HttpByteRange_new_well_formed a b total r :
  0 ≤ a → HttpByteRange_new a b total = Ok r → well_formed total r.
Proof.
  intros Ha. unfold HttpByteRange_new, well_formed. case_decide; [done|]. case_decide; [done|].
  intros [= <-]. cbn. lia.
Qed.

Lemma parse_bound_range s n : parse_bound s = Ok n → in_u64 n.
Proof. unfold parse_bound. rewrite ok_or_ok. apply parse_u64_range. Qed.

Lemma HttpByteRange_new_total a b total :
  a ≤ b → b < total → 0 ≤ a → ∃ r, HttpByteRange_new a b total = Ok r.
Proof. intros. eexists. apply HttpByteRange_new_ok; lia. Qed.

(** One specifier either is refused for its text or gives a range in bounds;
    the inner constructor never fails. *)
Lemma parse_byte_range_spec_cases spec total :
  in_u64 total →
  match parse_byte_range_spec spec total with
  | Ok (Some r) => well_formed total r
  | Ok None => True
  | Err e => e = RangeMalformed ∨ e = InvalidNumber
  end.
Proof.
  intros [Ht _]. unfold parse_byte_range_spec.
  destruct (split_once dash spec) as [[a b]|]; cbn [ok_or mbind result_bind]; [|by left].
  case_decide; [by left|].
  assert (∀ s e, parse_bound s = Err e → e = RangeMalformed ∨ e = InvalidNumber) as Hbound.
  { intros s e. unfold parse_bound. destruct (parse_u64 s); [done|]. intros [= <-]. by right. }
  case_decide.
  - destruct (parse_bound b) as [n|e] eqn:Eb; cbn [mbind result_bind]; [|by eapply Hbound].
    apply parse_bound_range in Eb as [Hn _]. case_decide; [done|].
    destruct (HttpByteRange_new_total (total - Z.min n total) (total - 1) total) as [r Hr]; try lia.
    rewrite Hr. cbn. eapply HttpByteRange_new_well_formed; [|exact Hr]. lia.
  - destruct (parse_bound a) as [start|e] eqn:Ea; cbn [mbind result_bind]; [|by eapply Hbound].
    apply parse_bound_range in Ea as [Ha _].
    assert (∀ m, match m with Some e => bool_decide (e < start) | None => false end = false →
      match (if decide (total = 0 ∨ total ≤ start) then Ok None
             else Some <$> HttpByteRange_new start
                    (Z.min (default (total - 1) m) (total - 1)) total) with
      | Ok (Some r) => well_formed total r
      | Ok None => True
      | Err e => e = RangeMalformed ∨ e = InvalidNumber
      end) as Hnew.
    { intros m Hm. case_decide; [done|].
      destruct (HttpByteRange_new_total start (Z.min (default (total - 1) m) (total - 1)) total)
        as [r Hr]; [|lia|done|].
      - destruct m as [e|]; cbn; [apply bool_decide_eq_false in Hm|]; lia.
      - rewrite Hr. cbn. by eapply HttpByteRange_new_well_formed. }
    destruct b as [|cb b]; [rewrite decide_True by done; by apply (Hnew None)|].
    rewrite decide_False by done. cbn [mbind result_bind].
    destruct (parse_bound (cb :: b)) as [e|e'] eqn:Eb; cbn [fmap result_fmap mbind result_bind];
      [|by eapply Hbound].
    destruct (bool_decide (e < start)) eqn:Hlt; [by left|]. by apply (Hnew (Some e)).
Qed.

Lemma parse_specs_cases specs total :
  in_u64 total →
  match parse_specs specs total with
  | Ok ranges => Forall (well_formed total) ranges ∧ (length ranges ≤ length specs)%nat
  | Err e => e = RangeMalformed ∨ e = InvalidNumber
  end.
Proof.
  intros Ht. induction specs as [|spec specs IH]; cbn [parse_specs]; [done|].
  pose proof (parse_byte_range_spec_cases spec total Ht) as Hs.
  destruct (parse_byte_range_spec spec total) as [o|e]; cbn [mbind result_bind]; [|done].
  destruct (parse_specs specs total) as [ranges|e]; cbn [mbind result_bind]; [|done].
  destruct IH as [IH Hlen]. destruct o as [r|]; cbn; [|split; [done|lia]].
  split; [by constructor|lia].
Qed.

(** What a caller may rely on for any header text. *)
Definition parse_contract (raw : str) (total maximum_raw_bytes maximum_specs : Z)
    (r : result HttpRangeError HttpByteRangeSet) : Prop :=
  match r with
  | Ok set_ =>
      str_len raw ≤ maximum_raw_bytes ∧ Forall (well_formed total) (set_ranges set_) ∧
      1 ≤ Z.of_nat (length (set_ranges set_)) ≤ requested_count set_ ∧
      requested_count set_ ≤ maximum_specs
  | Err HeaderTooLong => maximum_raw_bytes < str_len raw
  | Err EmptyRepresentation => total = 0 ∧ str_len raw ≤ maximum_raw_bytes
  | Err Unsatisfiable => total ≠ 0 ∧ str_len raw ≤ maximum_raw_bytes
  | Err MultipleRangesUnsupported => False
  | Err _ => str_len raw ≤ maximum_raw_bytes
  end.

Lemma nonempty_specs_length range_set :
  length (nonempty_specs range_set) = length (filter (λ s, trim s ≠ []) (split comma range_set)).
Proof.
  unfold nonempty_specs. induction (split comma range_set) as [|s l IH]; [done|].
  rewrite fmap_cons, !filter_cons. repeat case_decide; cbn [length]; try done.
  f_equal. exact IH.
Qed.

Lemma parse_byte_ranges_contract raw total maximum_raw_bytes maximum_specs :
  in_u64 total →
  parse_contract raw total maximum_raw_bytes maximum_specs
    (parse_byte_ranges raw total maximum_raw_bytes maximum_specs).
Proof.
  intros Ht. unfold parse_byte_ranges. case_decide; [done|].
  assert (str_len raw ≤ maximum_raw_bytes) as Hlen by lia.
  destruct (split_once equals (trim_start raw)) as [[u range_set]|]; cbn [ok_or mbind result_bind]; [|done].
  destruct (negb _); [done|]. rewrite <- nonempty_specs_length.
  case_decide; [done|]. case_decide; [done|].
  pose proof (parse_specs_cases (nonempty_specs range_set) total Ht) as Hp.
  destruct (parse_specs _ total) as [ranges|e]; cbn [mbind result_bind].
  - destruct Hp as [Hwf Hlen']. case_decide as Hne; [by case_decide|]. cbn.
    split; [done|]. split; [done|]. destruct ranges; [done|]. cbn in *. lia.
  - by destruct Hp as [->| ->].
Qed.

(** For any header text the parser answers within its limits: a set has
    between one and [maximum_specs] ranges, each of them inside the
    representation with its length computed without overflow, and no longer
    text than allowed was inspected; each error has its cause.  The
    single-range parser returns the one range of such a set, never complains
    about the length, and reports several ranges as unsupported exactly when
    a set of at most one range was exceeded. *)
Theorem parse_byte_ranges_bounded raw total maximum_raw_bytes maximum_specs :
  in_u64 total →
  parse_contract raw total maximum_raw_bytes maximum_specs
    (parse_byte_ranges raw total maximum_raw_bytes maximum_specs) ∧
  (∀ r, well_formed total r → in_u64 (range_length r) ∧ range_length r ≤ total) ∧
  match parse_single_byte_range raw total with
  | Ok r => well_formed total r ∧
      parse_byte_ranges raw total (str_len raw) 1 = Ok (mk_HttpByteRangeSet 1 [r])
  | Err e => e ≠ HeaderTooLong ∧ e ≠ TooManyRanges ∧
      (e = MultipleRangesUnsupported ↔
       parse_byte_ranges raw total (str_len raw) 1 = Err TooManyRanges)
  end.
Proof.
  intros Ht. split; [by apply parse_byte_ranges_contract|]. split.
  { unfold well_formed, in_u64. destruct Ht. intros r Hr. lia. }
  unfold parse_single_byte_range.
  pose proof (parse_byte_ranges_contract raw total (str_len raw) 1 Ht) as Hc.
  destruct (parse_byte_ranges raw total (str_len raw) 1) as [[count ranges]|e];
    cbn [map_err mbind result_bind parse_contract set_ranges requested_count] in *.
  - destruct Hc as (_ & Hwf & Hl & Hcount). destruct ranges as [|r [|r' ranges]]; cbn in *; try lia.
    apply list.Forall_cons in Hwf as [Hwf _]. split; [done|]. do 2 f_equal. lia.
  - assert (e ≠ HeaderTooLong) as Hlong by (intros ->; exact (Z.lt_irrefl _ Hc)).
    assert (e ≠ MultipleRangesUnsupported) as Hmulti by (intros ->; exact Hc).
    clear Hc. case_decide; [subst|]; (split; [congruence|]); (split; [congruence|]);
      split; congruence.
Qed.

Lemma parse_byte_ranges_bounded_witness :
  in_u64 20 ∧
  parse_contract (lit "bytes=0-") 20 100 4 (parse_byte_ranges (lit "bytes=0-") 20 100 4).
Proof.
  assert (in_u64 20) as H20 by (unfold in_u64, U64_MAX; lia). split; [exact H20|].
  destruct (parse_byte_ranges_bounded (lit "bytes=0-") 20 100 4 H20) as [H _]. exact H.
Defined.

(** The grammar of RFC 9110 has digits only; the number parser of the
    standard library also takes a leading plus sign. *)
Lemma plus_sign_accepted :
  parse_single_byte_range (lit "bytes=+5-+9") 20 = parse_single_byte_range (lit "bytes=5-9") 20.
Proof. vm_compute. reflexivity. Qed.
