(* ===== verification/DavPath.v ===== *)
(** * WebDAV: backend values and paths

    [aster_forge_webdav/src/path.rs] and the values of [backend.rs] that the
    protocol modules exchange.  Percent coding is the [percent_encoding]
    crate's, a parameter; everything the path module does around it is
    written out. *)
From S2P Require Export Text.

(** ** Backend values *)
Inductive DavBackendErrorKind : Type :=
  | DavNotFound
  | DavForbidden
  | DavConflict
  | DavAlreadyExists
  | DavInsufficientStorage
  | DavPayloadTooLarge
  | DavLocked
  | DavInvalidInput
  | DavUnsupported
  | DavInternal.

#[export] Instance DavBackendErrorKind_eq_dec : EqDecision DavBackendErrorKind.
Proof. solve_decision. Defined.

Record DavBackendError : Type := DavBackendError_new { backend_error_kind : DavBackendErrorKind }.

#[export] Instance DavBackendError_eq_dec : EqDecision DavBackendError.
Proof. solve_decision. Defined.

Inductive FsError : Type :=
  | FsNotFound | FsForbidden | FsGeneralFailure | FsExists | FsInsufficientStorage
  | FsTooLarge | FsBadRequest.

Definition DavBackendError_from (error : FsError) : DavBackendError :=
  DavBackendError_new match error with
  | FsNotFound => DavNotFound
  | FsForbidden => DavForbidden
  | FsGeneralFailure => DavInternal
  | FsExists => DavAlreadyExists
  | FsInsufficientStorage => DavInsufficientStorage
  | FsTooLarge => DavPayloadTooLarge
  | FsBadRequest => DavInvalidInput
  end.

(** ** Paths *)
Record DavPath : Type := mk_DavPath { DavPath_as_str : str }.

#[export] Instance DavPath_eq_dec : EqDecision DavPath.
Proof. solve_decision. Defined.

Inductive DavPathError : Type := InvalidEncoding | PathEscape | InvalidChildName.

#[export] Instance DavPathError_eq_dec : EqDecision DavPathError.
Proof. solve_decision. Defined.

Definition slash : char := 47.
Definition backslash : char := 92.
Definition dot : str := lit ".".
Definition dotdot : str := lit "..".
#[global] Arguments dot : simpl never.
#[global] Arguments dotdot : simpl never.

(** [windows(3).any(..)]: an encoded slash or backslash. *)
Fixpoint contains_encoded_path_separator (path : str) : bool :=
  match path with
  | c0 :: ((c1 :: c2 :: _) as rest) =>
      (bool_decide (c0 = 37) &&
         (bool_decide (to_ascii_lowercase c1 = 50) && bool_decide (to_ascii_lowercase c2 = 102)
          || bool_decide (to_ascii_lowercase c1 = 53) && bool_decide (to_ascii_lowercase c2 = 99)))
      || contains_encoded_path_separator rest
  | _ => false
  end.

Definition ensure_leading_slash (path : str) : str :=
  if decide (path = [] ∨ path = [slash]) then [slash]
  else if starts_with slash path then path else slash :: path.

(** The loop of [clean_decoded_path] from segment [index] on. *)
Fixpoint clean_segments (index : nat) (parts segments : list str) (is_collection : bool)
    : result DavPathError (list str * bool) :=
  match parts with
  | [] => Ok (segments, is_collection)
  | segment :: parts =>
      if decide (segment = []) then
        clean_segments (S index) parts segments (if decide (0 < index)%nat then true else is_collection)
      else if decide (segment = dot) then clean_segments (S index) parts segments true
      else if decide (segment = dotdot) then
        match segments with
        | [] => Err PathEscape
        | _ => clean_segments (S index) parts (removelast segments) true
        end
      else clean_segments (S index) parts (segments ++ [segment]) false
  end.

Definition clean_decoded_path (path : str) : result DavPathError str :=
  '(segments, is_collection) ← clean_segments 0 (split slash path) [] false;
  if decide (segments = []) then Ok [slash]
  else
    let cleaned := slash :: join [slash] segments in
    Ok (if is_collection && negb (ends_with slash cleaned) then cleaned ++ [slash] else cleaned).

Definition DavPath_root : DavPath := mk_DavPath [slash].

Definition DavPath_is_collection (p : DavPath) : bool :=
  bool_decide (DavPath_as_str p = [slash]) || ends_with slash (DavPath_as_str p).

Definition child_relative_path (parent : str) (name : list Z) (is_collection : bool)
    : result DavPathError str :=
  name ← ok_or (from_utf8 name) InvalidEncoding;
  if decide (name = [] ∨ name = dot ∨ name = dotdot ∨ slash ∈ name ∨ backslash ∈ name) then
    Err InvalidChildName
  else
    let relative :=
      if decide (parent = [slash]) then slash :: name
      else if ends_with slash parent then parent ++ name
      else parent ++ slash :: name in
    Ok (if is_collection && negb (ends_with slash relative) then relative ++ [slash] else relative).

Definition trim_end_slashes : str → str := trim_end_matches (λ c, bool_decide (c = slash)).

Definition parent_relative_path (relative : str) : option str :=
  if decide (relative = [slash]) then None
  else
    let segments := filter (λ s, s ≠ []) (split slash (trim_end_slashes relative)) in
    if decide (length segments ≤ 1)%nat then Some [slash]
    else Some (slash :: join [slash] (removelast segments) ++ [slash]).

Definition DavPath_parent (p : DavPath) : option DavPath :=
  mk_DavPath <$> parent_relative_path (DavPath_as_str p).

Definition DavPath_join_child (p : DavPath) (decoded_name : list Z) (is_collection : bool)
    : result DavPathError DavPath :=
  mk_DavPath <$> child_relative_path (DavPath_as_str p) decoded_name is_collection.

Definition display_name (relative : str) : str :=
  if decide (relative = [slash]) then []
  else default [] (list.last (split slash (trim_end_slashes relative))).

Section coding.
(** [percent_decode_str(..).decode_utf8()] and [utf8_percent_encode]. *)
Context (percent_decode : str → option str) (percent_encode : str → str).

Definition DavPath_new (path : str) : result DavPathError DavPath :=
  let encoded := ensure_leading_slash path in
  if contains_encoded_path_separator encoded then Err InvalidEncoding
  else
    decoded ← ok_or (percent_decode encoded) InvalidEncoding;
    canonical ← clean_decoded_path decoded;
    Ok (mk_DavPath canonical).

Definition encode_href (path : str) : str := percent_encode path.

Definition href_for_relative (prefix relative : str) : str :=
  encode_href (if decide (relative = [slash]) then prefix ++ [slash] else prefix ++ relative).

Definition href_for_dav_path (prefix : str) (path : DavPath) : str :=
  href_for_relative prefix (DavPath_as_str path).
End coding.

Example clean_example :
  clean_decoded_path (lit "/a/./b//../c d/") = Ok (lit "/a/c d/").
Proof. vm_compute. reflexivity. Qed.

(** ** Verification *)

(** A name that may appear between slashes. *)
Definition good_segment (s : str) : Prop := s ≠ [] ∧ s ≠ dot ∧ s ≠ dotdot ∧ slash ∉ s.

(** The canonical text of a list of names; a trailing slash marks a
    collection. *)
Definition canonical (segments : list str) (is_collection : bool) : str :=
  match segments with
  | [] => [slash]
  | _ => slash :: join [slash] segments ++ (if is_collection then [slash] else [])
  end.

Lemma join_snoc sep parts part :
  parts ≠ [] → join sep (parts ++ [part]) = join sep parts ++ sep ++ part.
Proof.
  induction parts as [|p [|q parts] IH]; intros Hne; [done|done|].
  change (p ++ sep ++ join sep ((q :: parts) ++ [part]) =
    (p ++ sep ++ join sep (q :: parts)) ++ sep ++ part).
  rewrite IH by done. by rewrite <- !app_assoc.
Qed.

Lemma good_last segments s :
  Forall good_segment (segments ++ [s]) → ∃ l c, s = l ++ [c] ∧ c ≠ slash.
Proof.
  intros [_ (Hne & _ & _ & Hslash)%list.Forall_singleton]%list.Forall_app.
  destruct s as [|c l _] using rev_ind; [done|]. exists l, c. split; [done|].
  intros ->. apply Hslash, elem_of_app. right. by apply list_elem_of_singleton.
Qed.

(** The text of the names alone does not end in a slash. *)
Lemma joined_last segments :
  Forall good_segment segments → segments ≠ [] →
  ∃ l c, join [slash] segments = l ++ [c] ∧ c ≠ slash.
Proof.
  intros Hg Hne. destruct segments as [|s segments _] using rev_ind; [done|].
  destruct (good_last _ _ Hg) as (l & c & -> & Hc).
  destruct segments as [|q segments]; [by exists l, c|].
  rewrite join_snoc by done. exists (join [slash] (q :: segments) ++ [slash] ++ l), c.
  by rewrite <- !app_assoc.
Qed.

Lemma ends_with_snoc c l d : ends_with c (l ++ [d]) = bool_decide (d = c).
Proof. unfold ends_with. rewrite list.last_snoc. apply bool_decide_ext. naive_solver. Qed.

Lemma joined_no_slash segments :
  Forall good_segment segments → segments ≠ [] →
  ends_with slash (slash :: join [slash] segments) = false.
Proof.
  intros Hg Hne. destruct (joined_last segments Hg Hne) as (l & c & -> & Hc).
  rewrite app_comm_cons, ends_with_snoc. by apply bool_decide_eq_false.
Qed.

(** Splitting canonical text gives the names back between empty ends. *)
Lemma split_canonical segments is_collection :
  Forall good_segment segments → segments ≠ [] →
  split slash (canonical segments is_collection) =
  [] :: segments ++ (if is_collection then [[]] else []).
Proof.
  intros Hg Hne. unfold canonical. destruct segments as [|s segments]; [done|].
  set (segs := s :: segments) in *.
  change (split slash (slash :: ?x)) with (if decide (slash = slash) then [] :: split slash x
    else match split slash x with [] => [[slash]] | p :: ps => (slash :: p) :: ps end).
  rewrite decide_True by done. f_equal.
  assert (∀ part, part ∈ segs → slash ∉ part) as Hfree.
  { intros part Hin. rewrite list.Forall_forall in Hg. apply Hg, Hin. }
  destruct is_collection.
  - rewrite <- (app_nil_r [slash]) at 2. rewrite <- join_snoc by done.
    apply split_join; [by destruct segs|].
    intros part [Hin| ->%list_elem_of_singleton]%elem_of_app; [auto|apply not_elem_of_nil].
  - rewrite !app_nil_r. by apply split_join.
Qed.

(** *** Cleaning *)
Lemma split_free sep s part : part ∈ split sep s → sep ∉ part.
Proof.
  revert part. induction s as [|c s IH]; intros part; cbn.
  - intros ->%list_elem_of_singleton. apply not_elem_of_nil.
  - case_decide as Hc.
    + intros [->|Hin]%elem_of_cons; [apply not_elem_of_nil|auto].
    + destruct (split sep s) as [|p ps]; [intros ->%list_elem_of_singleton|intros [->|Hin]%elem_of_cons].
      * by intros ?%list_elem_of_singleton.
      * intros [?|Hp]%elem_of_cons; [done|]. by apply (IH p); [apply elem_of_cons; left|].
      * apply IH, elem_of_cons. by right.
Qed.

Lemma clean_segments_good index parts segments c segments' c' :
  Forall good_segment segments → (∀ part, part ∈ parts → slash ∉ part) →
  clean_segments index parts segments c = Ok (segments', c') → Forall good_segment segments'.
Proof.
  revert index segments c. induction parts as [|s parts IH]; intros index segments c Hg Hfree.
  { by intros [= <- <-]. }
  assert (∀ part, part ∈ parts → slash ∉ part) as Hfree'.
  { intros part Hin. apply Hfree, elem_of_cons. by right. }
  cbn. repeat case_decide; try by apply IH.
  - destruct segments as [|x xs]; [done|]. apply IH; [|done].
    destruct (exists_last (l := x :: xs)) as (l & y & E); [done|]. rewrite E in *.
    rewrite removelast_last. by apply list.Forall_app in Hg as [? _].
  - apply IH; [|done]. apply list.Forall_app. split; [done|]. apply list.Forall_singleton.
    repeat split; try done. apply Hfree, elem_of_cons. by left.
Qed.

(** How far below the mount a sequence of segments leads. *)
Definition depth (parts : list str) : Z :=
  foldr (λ s d, (if decide (s = [] ∨ s = dot) then 0 else if decide (s = dotdot) then -1 else 1) + d)
    0 parts.

(** Some prefix of the path leads above the mount. *)
Definition escapes (parts : list str) : Prop := ∃ before after, parts = before ++ after ∧ depth before < 0.

Lemma clean_segments_error index parts segments c e :
  clean_segments index parts segments c = Err e →
  e = PathEscape ∧ ∃ before after, parts = before ++ after ∧ Z.of_nat (length segments) + depth before < 0.
Proof.
  revert index segments c. induction parts as [|s parts IH]; intros index segments c; cbn; [done|].
  assert (∀ n d, (∃ before after, parts = before ++ after ∧ n + depth before < 0) →
    d + (if decide (s = [] ∨ s = dot) then 0 else if decide (s = dotdot) then -1 else 1) = n →
    ∃ before after, s :: parts = before ++ after ∧ d + depth before < 0) as Hcons.
  { intros n d (b & a & -> & Hlt) Hd. exists (s :: b), a. split; [done|].
    change (depth (s :: b)) with ((if decide (s = [] ∨ s = dot) then 0 else
      if decide (s = dotdot) then -1 else 1) + depth b). lia. }
  destruct (decide (s = [])) as [H1|H1]; [|destruct (decide (s = dot)) as [H2|H2];
    [|destruct (decide (s = dotdot)) as [H3|H3]]].
  - intros [-> H]%IH. split; [done|]. apply (Hcons _ _ H). rewrite decide_True by auto. lia.
  - intros [-> H]%IH. split; [done|]. apply (Hcons _ _ H). rewrite decide_True by auto. lia.
  - destruct segments as [|x xs].
    + intros [= <-]. split; [done|]. exists [s], parts. split; [done|]. cbn.
      rewrite decide_False by tauto. rewrite decide_True by done. lia.
    + intros [-> H]%IH. split; [done|]. apply (Hcons _ _ H).
      rewrite decide_False by tauto.
      destruct (exists_last (l := x :: xs)) as (l & y & E); [done|]. rewrite E.
      rewrite removelast_last, length_app. cbn. lia.
  - intros [-> H]%IH. split; [done|]. apply (Hcons _ _ H).
    rewrite decide_False by tauto. rewrite length_app. cbn. lia.
Qed.

Lemma clean_segments_stays index parts segments c r :
  clean_segments index parts segments c = Ok r →
  ∀ before after, parts = before ++ after → 0 ≤ Z.of_nat (length segments) + depth before.
Proof.
  revert index segments c. induction parts as [|s parts IH]; intros index segments c; cbn.
  { intros _ before after E. symmetry in E. apply app_nil in E as [-> _]. cbn. lia. }
  intros Hclean [|s' before] after; [cbn; lia|]. intros [= <- ->].
  change (depth (s :: before)) with ((if decide (s = [] ∨ s = dot) then 0 else
    if decide (s = dotdot) then -1 else 1) + depth before).
  destruct (decide (s = [])) as [H1|H1]; [|destruct (decide (s = dot)) as [H2|H2];
    [|destruct (decide (s = dotdot)) as [H3|H3]]].
  - rewrite decide_True by auto. pose proof (IH _ _ _ Hclean before after eq_refl). lia.
  - rewrite decide_True by auto. pose proof (IH _ _ _ Hclean before after eq_refl). lia.
  - rewrite decide_False by tauto.
    destruct segments as [|x xs]; [done|]. pose proof (IH _ _ _ Hclean before after eq_refl) as Hd.
    destruct (exists_last (l := x :: xs)) as (l & y & E); [done|]. rewrite E in *.
    rewrite removelast_last in Hd. rewrite length_app. cbn. lia.
  - rewrite decide_False by tauto.
    pose proof (IH _ _ _ Hclean before after eq_refl) as Hd. rewrite length_app in Hd. cbn in Hd. lia.
Qed.

(** Names are kept as they are. *)
Lemma clean_segments_names index names rest segments c :
  Forall good_segment names →
  clean_segments index (names ++ rest) segments c =
  clean_segments (index + length names) rest (segments ++ names)
    (match names with [] => c | _ => false end).
Proof.
  revert index segments c. induction names as [|s names IH]; intros index segments c Hg.
  - cbn. by rewrite Nat.add_0_r, app_nil_r.
  - apply list.Forall_cons in Hg as [(H1 & H2 & H3 & _) Hg]. cbn.
    rewrite !decide_False by done. rewrite IH by done. rewrite <- app_assoc. cbn.
    rewrite Nat.add_succ_r. by destruct names.
Qed.

(** The text that cleaning makes of names and a mark. *)
Lemma cleaned_canonical segments c :
  Forall good_segment segments →
  (if decide (segments = []) then [slash]
   else let cleaned := slash :: join [slash] segments in
     if c && negb (ends_with slash cleaned) then cleaned ++ [slash] else cleaned) =
  canonical segments c.
Proof.
  intros Hg. destruct segments as [|s segments]; [done|]. rewrite decide_False by done.
  cbv zeta. rewrite joined_no_slash by done. unfold canonical.
  destruct c; cbn [andb negb]; [done|]. by rewrite app_nil_r.
Qed.

Lemma clean_canonical segments c :
  Forall good_segment segments → clean_decoded_path (canonical segments c) = Ok (canonical segments c).
Proof.
  intros Hg. unfold clean_decoded_path.
  destruct (decide (segments = [])) as [->|Hne]; [vm_compute; reflexivity|].
  rewrite split_canonical by done. cbn [clean_segments]. rewrite decide_True by done.
  rewrite (clean_segments_names 1) by done.
  rewrite decide_False by lia. destruct segments as [|s segs]; [done|]. destruct c.
  - cbn [clean_segments app]. rewrite decide_True by done.
    rewrite decide_True by (cbn; lia). cbn [mbind result_bind]. by rewrite <- cleaned_canonical.
  - cbn [clean_segments app mbind result_bind]. by rewrite <- cleaned_canonical.
Qed.

Lemma clean_decoded_path_spec path :
  match clean_decoded_path path with
  | Ok p => ¬ escapes (split slash path) ∧
      ∃ segments c, Forall good_segment segments ∧ p = canonical segments c
  | Err e => e = PathEscape ∧ escapes (split slash path)
  end.
Proof.
  unfold clean_decoded_path.
  destruct (clean_segments 0 (split slash path) [] false) as [[segments c]|e] eqn:E;
    cbn [mbind result_bind].
  - assert (Forall good_segment segments) as Hg.
    { eapply clean_segments_good; [|intros part; apply split_free|exact E]. by constructor. }
    assert (¬ escapes (split slash path)) as Hno.
    { intros (before & after & Hsplit & Hlt).
      pose proof (clean_segments_stays _ _ _ _ _ E before after Hsplit) as Hd. cbn in Hd. lia. }
    pose proof (cleaned_canonical segments c Hg) as Hc.
    destruct (decide (segments = [])); (split; [done|]); exists segments, c; by split.
  - apply clean_segments_error in E as [-> (before & after & Hsplit & Hlt)].
    split; [done|]. by exists before, after.
Qed.

(** *** Children and parents *)
Lemma canonical_cons segments c :
  segments ≠ [] →
  canonical segments c = slash :: join [slash] segments ++ (if c then [slash] else []).
Proof. by destruct segments. Qed.

Lemma canonical_not_root segments c :
  Forall good_segment segments → segments ≠ [] → canonical segments c ≠ [slash].
Proof.
  intros Hg Hne. rewrite canonical_cons by done.
  destruct (joined_last segments Hg Hne) as (l & x & -> & _). intros [= E].
  by destruct l.
Qed.

Lemma canonical_ends segments c :
  Forall good_segment segments → segments ≠ [] → ends_with slash (canonical segments c) = c.
Proof.
  intros Hg Hne. rewrite canonical_cons by done. destruct c.
  - rewrite app_comm_cons, ends_with_snoc. by apply bool_decide_eq_true.
  - rewrite app_nil_r. by apply joined_no_slash.
Qed.

Lemma canonical_snoc segments name c :
  segments ≠ [] →
  canonical (segments ++ [name]) c =
  slash :: join [slash] segments ++ [slash] ++ name ++ (if c then [slash] else []).
Proof.
  intros Hne. rewrite canonical_cons by (by destruct segments).
  rewrite join_snoc by done. by rewrite <- !app_assoc.
Qed.

Lemma trim_end_canonical segments c :
  Forall good_segment segments → segments ≠ [] →
  trim_end_slashes (canonical segments c) = canonical segments false.
Proof.
  intros Hg Hne. rewrite !canonical_cons, app_nil_r by done.
  destruct (joined_last segments Hg Hne) as (l & x & -> & Hx).
  unfold trim_end_slashes, trim_end_matches.
  assert (bool_decide (x = slash) = false) as Hf by by apply bool_decide_eq_false.
  assert (trim_start_matches (λ c0, bool_decide (c0 = slash))
    (reverse (slash :: (l ++ [x]) ++ (if c then [slash] else []))) =
    reverse (slash :: l ++ [x])) as ->; [|by rewrite reverse_involutive].
  assert (reverse (slash :: l ++ [x]) = x :: reverse (slash :: l)) as Hr.
  { by rewrite app_comm_cons, reverse_snoc. }
  destruct c.
  - rewrite app_comm_cons, reverse_snoc. cbn [trim_start_matches].
    rewrite bool_decide_eq_true_2 by done. rewrite Hr. by apply trim_start_matches_none.
  - rewrite app_nil_r, Hr. by apply trim_start_matches_none.
Qed.

Lemma filter_names `{∀ s : list char, Decision (s ≠ [])} segments :
  Forall good_segment segments →
  filter (λ s : list char, s ≠ []) ([] :: segments) = segments.
Proof.
  intros Hg. rewrite filter_cons_False by (intros Hn; by apply Hn).
  induction Hg as [|s segments [Hs _] Hg IH]; [done|].
  rewrite filter_cons_True by done. by rewrite IH.
Qed.

Lemma parent_canonical segments c :
  Forall good_segment segments → segments ≠ [] →
  parent_relative_path (canonical segments c) = Some (canonical (removelast segments) true).
Proof.
  intros Hg Hne. unfold parent_relative_path.
  rewrite decide_False by by apply canonical_not_root.
  rewrite trim_end_canonical, split_canonical, app_nil_r by done.
  rewrite filter_names by done.
  destruct segments as [|s segments _] using rev_ind; [done|]. rewrite removelast_last, length_app.
  destruct segments as [|q segments]; [done|]. by rewrite decide_False by (cbn; lia).
Qed.

Lemma display_canonical segments c :
  Forall good_segment segments →
  display_name (canonical segments c) = default [] (list.last segments).
Proof.
  intros Hg. unfold display_name. destruct (decide (segments = [])) as [->|Hne]; [done|].
  rewrite decide_False by by apply canonical_not_root.
  rewrite trim_end_canonical, split_canonical, app_nil_r by done.
  by destruct segments.
Qed.

(** A name the backend may give to a child. *)
Definition child_name (name : str) : Prop := good_segment name ∧ backslash ∉ name.

#[export] Instance child_name_dec name : Decision (child_name name).
Proof. unfold child_name, good_segment. apply _. Defined.

Lemma child_canonical segments c bytes name c' :
  Forall good_segment segments → from_utf8 bytes = Some name →
  child_relative_path (canonical segments c) bytes c' =
  if decide (child_name name) then Ok (canonical (segments ++ [name]) c') else Err InvalidChildName.
Proof.
  intros Hg Hname. unfold child_relative_path. rewrite Hname. cbn [ok_or mbind result_bind].
  destruct (decide (child_name name)) as [Hc|Hc].
  2:{ rewrite decide_True; [done|]. unfold child_name, good_segment in Hc.
      destruct (decide (name = [])); [tauto|]. destruct (decide (name = dot)); [tauto|].
      destruct (decide (name = dotdot)); [tauto|]. destruct (decide (slash ∈ name)); [tauto|].
      destruct (decide (backslash ∈ name)); tauto. }
  destruct Hc as [(H1 & H2 & H3 & H4) H5]. rewrite decide_False by tauto.
  assert (Forall good_segment (segments ++ [name])) as Hg'.
  { apply list.Forall_app. split; [done|]. by apply list.Forall_singleton. }
  assert ((if decide (canonical segments c = [slash]) then slash :: name
    else if ends_with slash (canonical segments c) then canonical segments c ++ name
    else canonical segments c ++ slash :: name) = slash :: join [slash] (segments ++ [name])) as ->.
  { destruct (decide (segments = [])) as [->|Hne]; [done|].
    rewrite decide_False by by apply canonical_not_root.
    rewrite canonical_ends, canonical_cons, join_snoc by done.
    destruct c; [|rewrite app_nil_r]; cbn; by rewrite <- ?app_assoc. }
  rewrite <- cleaned_canonical by done. by rewrite decide_False by by destruct segments.
Qed.

(** A path as every constructor makes it. *)
Definition path_wf (p : DavPath) : Prop :=
  ∃ segments c, Forall good_segment segments ∧ DavPath_as_str p = canonical segments c.

(** The same path, marked as a collection. *)
Definition as_collection (p : str) : str := if ends_with slash p then p else p ++ [slash].

(** *** What a request path means *)
(** The path below the mount that a request names: it starts with a slash. *)
Definition rooted (path : str) : str :=
  match path with
  | c :: _ => if decide (c = slash) then path else slash :: path
  | [] => [slash]
  end.

Lemma ensure_leading_slash_rooted path : ensure_leading_slash path = rooted path.
Proof.
  unfold ensure_leading_slash, rooted. destruct path as [|c path]; [done|].
  case_decide as H; [destruct H as [[=]|[= -> ->]]; done|]. unfold starts_with.
  destruct (decide (c = slash)) as [->|Hc]; cbn; [by rewrite bool_decide_eq_true_2|].
  rewrite bool_decide_eq_false_2; [done|congruence].
Qed.

(** [%2F] or [%5C], in either case, somewhere in the text. *)
Definition encoded_separator (path : str) : Prop :=
  ∃ before c1 c2 after, path = before ++ 37 :: c1 :: c2 :: after ∧
    ((c1 = 50 ∧ (c2 = 102 ∨ c2 = 70)) ∨ (c1 = 53 ∧ (c2 = 99 ∨ c2 = 67))).

Lemma to_ascii_lowercase_digit c d : 48 ≤ d ≤ 57 → to_ascii_lowercase c = d ↔ c = d.
Proof. intros Hd. unfold to_ascii_lowercase. case_decide; split; lia. Qed.

Lemma to_ascii_lowercase_letter c d : 97 ≤ d ≤ 122 → to_ascii_lowercase c = d ↔ c = d ∨ c = d - 32.
Proof. intros Hd. unfold to_ascii_lowercase. case_decide; split; lia. Qed.

Lemma contains_encoded_spec path :
  contains_encoded_path_separator path = true ↔ encoded_separator path.
Proof.
  unfold encoded_separator. induction path as [|c0 path IH].
  { split; [done|]. intros (before & ? & ? & ? & E & _). by destruct before. }
  destruct path as [|c1 [|c2 path]];
    [split; [done|]; intros (before & ? & ? & ? & E%(f_equal length) & _);
     rewrite length_app in E; cbn in E; lia..|].
  change (contains_encoded_path_separator (c0 :: c1 :: c2 :: path)) with
    ((bool_decide (c0 = 37) &&
       (bool_decide (to_ascii_lowercase c1 = 50) && bool_decide (to_ascii_lowercase c2 = 102)
        || bool_decide (to_ascii_lowercase c1 = 53) && bool_decide (to_ascii_lowercase c2 = 99)))
     || contains_encoded_path_separator (c1 :: c2 :: path)).
  rewrite orb_true_iff, IH, andb_true_iff, orb_true_iff, !andb_true_iff, !bool_decide_eq_true.
  rewrite (to_ascii_lowercase_digit c1 50), (to_ascii_lowercase_digit c1 53),
    (to_ascii_lowercase_letter c2 102), (to_ascii_lowercase_letter c2 99) by lia.
  change (102 - 32) with 70. change (99 - 32) with 67.
  split.
  - intros [(-> & H)|(before & d1 & d2 & after & E & H)].
    + by exists [], c1, c2, path.
    + exists (c0 :: before), d1, d2, after. split; [cbn; by rewrite E|done].
  - intros ([|c before] & d1 & d2 & after & E & H); cbn in E; injection E.
    + intros -> -> -> ->. by left.
    + intros E' _. right. by exists before, d1, d2, after.
Qed.

(** The names that are left, read from the last segment to the first: each
    [..] takes away the next name that is not taken away itself. *)
Fixpoint surviving (skips : nat) (reversed : list str) : list str :=
  match reversed with
  | [] => []
  | s :: rest =>
      if decide (s = [] ∨ s = dot) then surviving skips rest
      else if decide (s = dotdot) then surviving (S skips) rest
      else match skips with
           | O => surviving 0 rest ++ [s]
           | S skips => surviving skips rest
           end
  end.

Lemma surviving_none skips l s r :
  s = [] ∨ s = dot → surviving skips (l ++ s :: r) = surviving skips (l ++ r).
Proof.
  intros Hs. revert skips. induction l as [|x l IH]; intros skips; cbn; [by rewrite decide_True|].
  rewrite !IH. destruct skips; [|rewrite IH]; done.
Qed.

(** A name and the [..] after it take each other away. *)
Lemma surviving_pair skips l s r :
  good_segment s → surviving skips (l ++ dotdot :: s :: r) = surviving skips (l ++ r).
Proof.
  intros (H1 & H2 & H3 & _). revert skips. induction l as [|x l IH]; intros skips; cbn.
  - rewrite decide_False by (by intros [|]). rewrite decide_True by done.
    by rewrite decide_False, decide_False by tauto.
  - rewrite !IH. destruct skips; [|rewrite IH]; done.
Qed.

Lemma surviving_good segments : Forall good_segment segments → surviving 0 (reverse segments) = segments.
Proof.
  induction segments as [|s segments IH] using rev_ind; [done|].
  intros [Hg (H1 & H2 & H3 & _)%list.Forall_singleton]%list.Forall_app.
  rewrite reverse_snoc. cbn. rewrite decide_False by tauto. rewrite decide_False by done.
  by rewrite IH.
Qed.

Lemma clean_segments_surviving index parts segments c segments' c' :
  Forall good_segment segments → (∀ part, part ∈ parts → slash ∉ part) →
  clean_segments index parts segments c = Ok (segments', c') →
  segments' = surviving 0 (reverse parts ++ reverse segments).
Proof.
  revert index segments c. induction parts as [|s parts IH]; intros index segments c Hg Hfree;
    cbn [clean_segments].
  { intros [= <- <-]. by rewrite reverse_nil, app_nil_l, surviving_good. }
  assert (∀ part, part ∈ parts → slash ∉ part) as Hfree'.
  { intros part Hin. apply Hfree, elem_of_cons. by right. }
  rewrite reverse_cons, <- app_assoc. cbn [app].
  destruct (decide (s = [])) as [Hs|Hs1]; [|destruct (decide (s = dot)) as [Hs|Hs2];
    [|destruct (decide (s = dotdot)) as [->|Hs3]]].
  - intros H. rewrite surviving_none by auto. by eapply IH.
  - intros H. rewrite surviving_none by auto. by eapply IH.
  - destruct segments as [|x xs]; [done|].
    destruct (exists_last (l := x :: xs)) as (l & y & E); [done|]. rewrite E in *.
    apply list.Forall_app in Hg as [Hl [Hy _]%list.Forall_cons].
    rewrite removelast_last, reverse_snoc. intros H. rewrite surviving_pair by done. by eapply IH.
  - intros H. apply IH in H; [|apply list.Forall_app; split; [done|]; apply list.Forall_singleton|done].
    + by rewrite reverse_snoc in H.
    + repeat split; try done. apply Hfree, elem_of_cons. by left.
Qed.

(** The mark of a collection: the text ends in a slash, [.] or [..]. *)
Definition collection_end (parts : list str) : bool :=
  match list.last parts with
  | Some s => bool_decide (s = [] ∨ s = dot ∨ s = dotdot)
  | None => false
  end.

Lemma clean_segments_collection index parts s segments c segments' c' :
  clean_segments index (parts ++ [s]) segments c = Ok (segments', c') →
  (0 < index + length parts)%nat ∨ s ≠ [] →
  c' = bool_decide (s = [] ∨ s = dot ∨ s = dotdot).
Proof.
  revert index segments c. induction parts as [|x parts IH]; intros index segments c; cbn.
  - destruct (decide (s = [])) as [Hs|H1]; [|destruct (decide (s = dot)) as [Hs|H2];
      [|destruct (decide (s = dotdot)) as [Hs|H3]]].
    + subst s. case_decide; intros [= _ <-] [?|?]; try done; try lia.
      all: symmetry; apply bool_decide_eq_true; auto.
    + intros [= _ <-] _. symmetry. apply bool_decide_eq_true. tauto.
    + destruct segments; [done|]. intros [= _ <-] _. symmetry. apply bool_decide_eq_true. tauto.
    + intros [= _ <-] _. symmetry. apply bool_decide_eq_false. tauto.
  - intros H _. assert (0 < S index + length parts)%nat as Hlt by lia.
    destruct (decide (x = [])); [by eapply IH; [exact H|left]|].
    destruct (decide (x = dot)); [by eapply IH; [exact H|left]|].
    destruct (decide (x = dotdot)); [destruct segments; [done|]|]; by eapply IH; [exact H|left].
Qed.

(** The canonical text that a decoded path stands for: the names left of its
    segments, and a trailing slash where it names a collection. *)
Definition resolved (decoded : str) : str :=
  canonical (surviving 0 (reverse (split slash decoded))) (collection_end (split slash decoded)).

Lemma clean_decoded_resolved decoded p : clean_decoded_path decoded = Ok p → p = resolved decoded.
Proof.
  unfold clean_decoded_path, resolved.
  destruct (clean_segments 0 (split slash decoded) [] false) as [[segments c]|e] eqn:E;
    cbn [mbind result_bind]; [|done].
  assert (Forall good_segment segments) as Hg.
  { eapply clean_segments_good; [|intros part; apply split_free|exact E]. by constructor. }
  pose proof (cleaned_canonical segments c Hg) as Hc.
  pose proof (clean_segments_surviving _ _ _ _ _ _ (proj2 (list.Forall_nil _) I) (split_free _ _) E) as Hsegs.
  rewrite reverse_nil, app_nil_r in Hsegs. rewrite <- Hsegs. intros Hp.
  assert (p = canonical segments c) as -> by (destruct (decide (segments = [])); injection Hp as <-; exact Hc).
  destruct (decide (segments = [])) as [->|Hne]; [done|]. f_equal. unfold collection_end.
  destruct (split slash decoded) as [|s parts _] using rev_ind; [cbn in E; congruence|].
  rewrite list.last_snoc. eapply clean_segments_collection; [exact E|].
  destruct parts; [right|left; cbn; lia]. intros ->. injection E as E _. by subst.
Qed.

(** C30. Whatever the request path and the percent decoder, [DavPath::new]
    gives a canonical path below the mount: names without slashes, none of
    them empty, [.] or [..], and cleaning it again changes nothing.  Its names
    are those of the decoded path that no [..] takes away, and it is a
    collection exactly when the decoded path ends in a slash, [.] or [..].  A
    path is refused exactly when it, with the slash it may lack, holds an
    encoded slash or backslash or does not decode - reported as its encoding -
    or, otherwise, when one of its prefixes leads above the mount. *)
Theorem dav_path_canonical percent_decode path :
  match DavPath_new percent_decode path with
  | Ok p => ¬ encoded_separator (rooted path) ∧
      path_wf p ∧ clean_decoded_path (DavPath_as_str p) = Ok (DavPath_as_str p) ∧
      ∃ decoded, percent_decode (rooted path) = Some decoded ∧
        ¬ escapes (split slash decoded) ∧ DavPath_as_str p = resolved decoded
  | Err InvalidEncoding => encoded_separator (rooted path) ∨ percent_decode (rooted path) = None
  | Err PathEscape => ¬ encoded_separator (rooted path) ∧
      ∃ decoded, percent_decode (rooted path) = Some decoded ∧ escapes (split slash decoded)
  | Err InvalidChildName => False
  end.
Proof.
  unfold DavPath_new. rewrite ensure_leading_slash_rooted.
  destruct (contains_encoded_path_separator _) eqn:Hsep; [left; by apply contains_encoded_spec|].
  apply not_true_iff_false in Hsep. rewrite contains_encoded_spec in Hsep.
  destruct (percent_decode _) as [decoded|]; cbn [ok_or mbind result_bind]; [|by right].
  pose proof (clean_decoded_path_spec decoded) as Hc.
  destruct (clean_decoded_path decoded) as [p|e] eqn:Hp; cbn [mbind result_bind].
  - apply clean_decoded_resolved in Hp. destruct Hc as (Hno & segments & c & Hg & E).
    split; [done|]. split; [by exists segments, c|]. split; [|by exists decoded].
    cbn [DavPath_as_str]. rewrite E. by apply clean_canonical.
  - destruct Hc as [-> Hesc]. eauto.
Qed.

(** On canonical paths, parent undoes join: joining a decoded child name
    succeeds exactly for a valid name, the result is canonical, is a
    collection exactly when asked, displays the name, and its parent is the
    path itself as a collection.  Only the root has no parent, and parents
    are canonical. *)
Theorem dav_path_children p bytes name is_collection :
  path_wf p → from_utf8 bytes = Some name →
  (match DavPath_join_child p bytes is_collection with
   | Ok child => child_name name ∧ path_wf child ∧
       DavPath_is_collection child = is_collection ∧
       display_name (DavPath_as_str child) = name ∧
       DavPath_parent child = Some (mk_DavPath (as_collection (DavPath_as_str p)))
   | Err e => e = InvalidChildName ∧ ¬ child_name name
   end) ∧
  match DavPath_parent p with
  | Some q => p ≠ DavPath_root ∧ path_wf q ∧ DavPath_is_collection q = true
  | None => p = DavPath_root
  end.
Proof.
  destruct p as [p]. intros (segments & c & Hg & Hp) Hname. cbn in Hp. subst p. split.
  - unfold DavPath_join_child. cbn [DavPath_as_str].
    rewrite (child_canonical _ _ _ name) by done. case_decide as Hn; cbn [fmap result_fmap]; [|done].
    assert (Forall good_segment (segments ++ [name])) as Hg'.
    { apply list.Forall_app. split; [done|]. apply list.Forall_singleton, Hn. }
    assert (segments ++ [name] ≠ []) as Hne by by destruct segments.
    split; [done|]. split; [by exists (segments ++ [name]), is_collection|].
    unfold DavPath_is_collection, DavPath_parent. cbn [DavPath_as_str].
    rewrite canonical_ends, display_canonical, parent_canonical, list.last_snoc, removelast_last by done.
    rewrite bool_decide_eq_false_2 by by apply canonical_not_root.
    split; [done|]. split; [done|]. cbn [fmap option_fmap option_map]. do 2 f_equal.
    unfold as_collection. destruct (decide (segments = [])) as [->|Hns]; [done|].
    rewrite canonical_ends by done. destruct c; [done|].
    by rewrite !canonical_cons, app_nil_r by done.
  - unfold DavPath_parent. cbn [DavPath_as_str].
    destruct (decide (segments = [])) as [->|Hne]; [done|].
    rewrite parent_canonical by done. cbn [fmap option_fmap option_map].
    destruct (exists_last Hne) as (l & s & ->). rewrite removelast_last.
    apply list.Forall_app in Hg as Hgl. destruct Hgl as [Hgl _].
    split; [intros [= E]; by apply canonical_not_root in E|]. split; [by exists l, true|].
    unfold DavPath_is_collection. cbn [DavPath_as_str].
    destruct (decide (l = [])) as [->|Hl]; [done|].
    rewrite (canonical_ends l true) by done. apply orb_true_r.
Qed.

Lemma dav_path_children_witness :
  DavPath_parent (mk_DavPath (lit "/docs/a.txt")) = Some (mk_DavPath (lit "/docs/")).
Proof.
  destruct (dav_path_children (mk_DavPath (lit "/docs/")) (lit "a.txt") (lit "a.txt") false) as [H _].
  - exists [lit "docs"], true. split; [|reflexivity]. apply list.Forall_singleton.
    unfold good_segment. apply (bool_decide_unpack _). vm_compute. exact I.
  - reflexivity.
  - vm_compute in H. vm_compute. apply H.
Defined.
