(* ===== verification/DavTraversal.v ===== *)
(** * WebDAV: directory pages and traversal budgets

    [aster_forge_webdav/src/traversal.rs]: the validation of pages that a
    product enumerates, the page state that survives between requests, and
    the budget of a recursive traversal.  Entries are any type with a stable
    key, cursors any type with decidable equality; the enumerator and the
    cancellation source act on an abstract world. *)
From Stdlib Require Import Sorting.Sorted.
From S2P Require Export DavPath.

(** ** Directory pages *)
Record DavDirectoryPageLimits : Type := mk_DavDirectoryPageLimits {
  maximum_page_entries : Z;
  maximum_pages : Z;
}.

Inductive DavDirectoryPageValidationError : Type :=
  | PageInvalidLimit
  | TooManyEntries
  | EmptyContinuation
  | CursorLoop
  | EmptyStableKey
  | DuplicateEntry
  | OutOfOrderEntry.

#[export] Instance DavDirectoryPageValidationError_eq_dec :
  EqDecision DavDirectoryPageValidationError.
Proof. solve_decision. Defined.

Inductive DavDirectoryReadError : Type :=
  | ReadInvalidLimit
  | ReadCancelled
  | PageLimitExceeded
  | ReadBackend (error : DavBackendError)
  | InvalidPage (error : DavDirectoryPageValidationError).

Definition DavDirectoryPageLimits_new (maximum_entries maximum_pages : Z)
    : result DavDirectoryReadError DavDirectoryPageLimits :=
  if decide (maximum_entries = 0 ∨ maximum_pages = 0) then Err ReadInvalidLimit
  else Ok (mk_DavDirectoryPageLimits maximum_entries maximum_pages).

Section pages.
Context {E C W : Type} `{Countable C} (stable_key : E → list Z).

Record DavDirectoryPage : Type := mk_DavDirectoryPage {
  page_entries : list E;
  page_next_cursor : option C;
}.

Record DavDirectoryPageRequest : Type := mk_DavDirectoryPageRequest {
  request_path : DavPath;
  request_cursor : option C;
  request_maximum_entries : Z;
}.

(** The comparison with a previous key. *)
Definition check_order (previous key : list Z) : result DavDirectoryPageValidationError unit :=
  match slice_cmp previous key with
  | Eq => Err DuplicateEntry
  | Gt => Err OutOfOrderEntry
  | Lt => Ok tt
  end.

(** The loop over the entries; [previous] is the key before in this page. *)
Fixpoint validate_entries (previous_stable_key previous : option (list Z)) (entries : list E)
    : result DavDirectoryPageValidationError unit :=
  match entries with
  | [] => Ok tt
  | entry :: entries =>
      let key := stable_key entry in
      if decide (key = []) then Err EmptyStableKey
      else
        _ ← match previous, previous_stable_key with
            | None, Some previous_page_key => check_order previous_page_key key
            | _, _ => Ok tt
            end;
        _ ← match previous with Some previous => check_order previous key | None => Ok tt end;
        validate_entries previous_stable_key (Some key) entries
  end.

Definition validate_directory_page (current_cursor : option C) (seen_cursors : gset C)
    (previous_stable_key : option (list Z)) (maximum_entries : Z) (page : DavDirectoryPage)
    : result DavDirectoryPageValidationError unit :=
  if decide (maximum_entries = 0) then Err PageInvalidLimit
  else if decide (maximum_entries < Z.of_nat (length (page_entries page))) then Err TooManyEntries
  else if decide (page_entries page = [] ∧ is_Some (page_next_cursor page)) then
    Err EmptyContinuation
  else if match page_next_cursor page with
    | Some cursor => bool_decide (current_cursor = Some cursor) || bool_decide (cursor ∈ seen_cursors)
    | None => false
    end then Err CursorLoop
  else validate_entries previous_stable_key None (page_entries page).

Record DavDirectoryPageState : Type := mk_DavDirectoryPageState {
  current_cursor : option C;
  seen_cursors : gset C;
  last_stable_key : option (list Z);
  poisoned : option DavDirectoryPageValidationError;
  finished : bool;
  pages_read : Z;
}.

Definition DavDirectoryPageState_new : DavDirectoryPageState :=
  mk_DavDirectoryPageState None ∅ None None false 0.

Record DavValidatedDirectoryPage : Type := mk_DavValidatedDirectoryPage {
  validated_entries : list E;
  validated_has_more : bool;
}.

(** [state.current_cursor.replace(cursor)], keeping the previous one as seen. *)
Definition advance_cursor (next : option C) (s : DavDirectoryPageState) : option C * gset C :=
  match next with
  | Some cursor =>
      (Some cursor, match current_cursor s with
                    | Some previous => {[previous]} ∪ seen_cursors s
                    | None => seen_cursors s
                    end)
  | None => (None, seen_cursors s)
  end.

(** The state after a valid page. *)
Definition accept_page (page : DavDirectoryPage) (s : DavDirectoryPageState)
    : DavDirectoryPageState :=
  let '(cursor, seen) := advance_cursor (page_next_cursor page) s in
  mk_DavDirectoryPageState cursor seen
    (match list.last (page_entries page) with
     | Some last => Some (stable_key last)
     | None => last_stable_key s
     end)
    (poisoned s) (negb (bool_decide (is_Some (page_next_cursor page)))) (pages_read s + 1).

Definition poison (error : DavDirectoryPageValidationError) (s : DavDirectoryPageState)
    : DavDirectoryPageState :=
  mk_DavDirectoryPageState (current_cursor s) (seen_cursors s) (last_stable_key s) (Some error)
    (finished s) (pages_read s).

Context (read_directory_page : DavDirectoryPageRequest → W →
           result DavBackendError DavDirectoryPage * W)
        (is_cancelled : W → bool * W).

Definition read_result : Type :=
  result DavDirectoryReadError (option DavValidatedDirectoryPage).

Definition read_next_directory_page (path : DavPath) (requested_entries : Z)
    (limits : DavDirectoryPageLimits) (s : DavDirectoryPageState) (w : W)
    : read_result * DavDirectoryPageState * W :=
  match poisoned s with
  | Some error => (Err (InvalidPage error), s, w)
  | None =>
      if finished s then (Ok None, s, w)
      else if decide (requested_entries = 0 ∨ maximum_page_entries limits = 0
                      ∨ maximum_pages limits = 0) then (Err ReadInvalidLimit, s, w)
      else
        let '(cancelled, w) := is_cancelled w in
        if cancelled then (Err ReadCancelled, s, w)
        else if decide (maximum_pages limits ≤ pages_read s) then (Err PageLimitExceeded, s, w)
        else
          let maximum_entries := Z.min requested_entries (maximum_page_entries limits) in
          match read_directory_page
                  (mk_DavDirectoryPageRequest path (current_cursor s) maximum_entries) w with
          | (Err e, w) => (Err (ReadBackend e), s, w)
          | (Ok page, w) =>
              match validate_directory_page (current_cursor s) (seen_cursors s)
                      (last_stable_key s) maximum_entries page with
              | Err error => (Err (InvalidPage error), poison error s, w)
              | Ok _ =>
                  (Ok (Some (mk_DavValidatedDirectoryPage (page_entries page)
                               (bool_decide (is_Some (page_next_cursor page))))),
                   accept_page page s, w)
              end
          end
  end.

(** A client that keeps asking, with what it passed and what it got. *)
Record read_step : Type := mk_read_step {
  step_cursor : option C;
  step_requested : Z;
  step_limits : DavDirectoryPageLimits;
  step_result : read_result;
}.

Fixpoint read_pages (path : DavPath) (requests : list (Z * DavDirectoryPageLimits))
    (s : DavDirectoryPageState) (w : W) : list read_step * DavDirectoryPageState * W :=
  match requests with
  | [] => ([], s, w)
  | (requested, limits) :: requests =>
      let '(r, s', w) := read_next_directory_page path requested limits s w in
      let '(steps, s'', w) := read_pages path requests s' w in
      (mk_read_step (current_cursor s) requested limits r :: steps, s'', w)
  end.

(** *** Verification of the pages *)
Definition optional (o : option (list Z)) : list (list Z) :=
  match o with Some k => [k] | None => [] end.

Lemma check_order_ok a b : check_order a b = Ok tt ↔ key_lt a b.
Proof. unfold check_order, key_lt. by destruct (slice_cmp a b). Qed.

Lemma check_order_unit a b u : check_order a b = Ok u → key_lt a b.
Proof. destruct u. apply check_order_ok. Qed.

(** Accepted entries continue a strictly ascending list of keys. *)
Lemma validate_entries_sorted stable previous entries u :
  validate_entries stable previous entries = Ok u →
  StronglySorted key_lt
    (optional (match previous with Some k => Some k | None => stable end) ++
     (stable_key <$> entries)) ∧
  Forall (λ e, stable_key e ≠ []) entries.
Proof.
  revert previous u. induction entries as [|e entries IH]; intros previous u; cbn [validate_entries].
  - intros _. split; [|by constructor]. cbn.
    destruct previous; [|destruct stable]; cbn; repeat constructor.
  - case_decide as Hne; [done|]. intros [[] [H1 Hrest]]%result_bind_ok.
    apply result_bind_ok in Hrest as ([] & H2 & Hrest).
    apply IH in Hrest as [Hs Hall]. split; [|by constructor].
    cbn [optional app] in Hs. rewrite fmap_cons.
    assert (∀ k, match previous with Some k => Some k | None => stable end = Some k →
      key_lt k (stable_key e)) as Hk.
    { intros k. destruct previous as [q|]; [intros [= <-]; by eapply check_order_unit|].
      destruct stable as [q|]; [intros [= <-]; by eapply check_order_unit|done]. }
    destruct (match previous with Some k => Some k | None => stable end) as [k|]; [|done].
    cbn [optional app]. apply SSorted_cons; [done|].
    specialize (Hk k eq_refl). constructor; [done|].
    apply StronglySorted_inv in Hs as [_ Hs]. eapply Forall_impl; [|exact Hs].
    intros x Hx. by etrans.
Qed.

(** What holds between requests: [ks] are the keys returned so far, [cs] the
    cursors of the requests whose pages were accepted. *)
Record page_inv (s : DavDirectoryPageState) (ks : list (list Z)) (cs : list (option C)) : Prop := {
  keys_sorted : StronglySorted key_lt ks;
  keys_nonempty : Forall (λ k, k ≠ []) ks;
  last_key : last_stable_key s = list.last ks;
  cursors_distinct : NoDup cs;
  cursors_count : pages_read s = Z.of_nat (length cs);
  cursors_new : finished s = false → current_cursor s ∉ cs;
  cursors_seen : finished s = false →
    ∀ c, c ∈ cs → c = None ∨ ∃ x, c = Some x ∧ x ∈ seen_cursors s;
  cursors_first : finished s = false → current_cursor s = None → cs = [];
}.

Lemma page_inv_new : page_inv DavDirectoryPageState_new [] [].
Proof.
  split; cbn; [constructor|constructor|done|constructor|done|intros _; apply not_elem_of_nil| |done].
  by intros _ c ?%elem_of_nil.
Qed.

Lemma sorted_extend ks l :
  StronglySorted key_lt ks → StronglySorted key_lt (optional (list.last ks) ++ l) →
  StronglySorted key_lt (ks ++ l).
Proof.
  intros Hks. destruct ks as [|k ks _] using rev_ind; [intros Hl; exact Hl|].
  rewrite list.last_snoc. cbn [optional app]. intros [Hl Hk]%StronglySorted_inv.
  rewrite <- app_assoc. cbn [app].
  induction ks as [|x ks IH]; [by constructor|]. cbn [app] in *.
  apply StronglySorted_inv in Hks as [Hks Hx]. constructor; [by apply IH|].
  apply list.Forall_app in Hx as [Hx1 Hx2]. apply list.Forall_cons in Hx2 as [Hx2 _].
  apply list.Forall_app. split; [done|]. constructor; [done|].
  eapply Forall_impl; [|exact Hk]. intros y Hy. by etrans.
Qed.

(** The entries and the request cursor of a step, when its page was accepted. *)
Definition step_entries (r : read_result) : list E :=
  match r with Ok (Some page) => validated_entries page | _ => [] end.
Definition step_accepted (cursor : option C) (r : read_result) : list (option C) :=
  match r with Ok (Some _) => [cursor] | _ => [] end.

Lemma validate_directory_page_ok cursor seen key maximum page u :
  validate_directory_page cursor seen key maximum page = Ok u →
  Z.of_nat (length (page_entries page)) ≤ maximum ∧
  (∀ c, page_next_cursor page = Some c → cursor ≠ Some c ∧ c ∉ seen) ∧
  (is_Some (page_next_cursor page) → page_entries page ≠ []) ∧
  validate_entries key None (page_entries page) = Ok u.
Proof.
  unfold validate_directory_page. case_decide; [done|]. case_decide; [done|]. case_decide as He; [done|].
  destruct (page_next_cursor page) as [c|].
  - destruct (_ || _) eqn:Eloop; [done|].
    apply orb_false_iff in Eloop as [?%bool_decide_eq_false ?%bool_decide_eq_false].
    intros Hv. split; [lia|]. split; [by intros c' [= <-]|]. split; [|done].
    intros Hs Hp. by apply He.
  - intros Hv. split; [lia|]. split; [done|]. split; [by intros []|done].
Qed.

Lemma accept_page_inv page s ks cs :
  page_inv s ks cs → finished s = false →
  (∀ c, page_next_cursor page = Some c → current_cursor s ≠ Some c ∧ c ∉ seen_cursors s) →
  validate_entries (last_stable_key s) None (page_entries page) = Ok tt →
  page_inv (accept_page page s) (ks ++ (stable_key <$> page_entries page))
    (cs ++ [current_cursor s]).
Proof.
  intros [HS HN HL HD HC Hnew Hseen Hfirst] Hfin Hcur Hv.
  apply validate_entries_sorted in Hv as [Hsorted Hall]. rewrite HL in Hsorted. cbn in Hsorted.
  unfold accept_page, advance_cursor.
  assert (finished s = false → NoDup (cs ++ [current_cursor s])) as HD'.
  { intros _. apply list.NoDup_app. split; [done|]. split; [|apply list.NoDup_singleton].
    intros c Hc ->%list_elem_of_singleton. by apply Hnew. }
  destruct (page_next_cursor page) as [c|] eqn:Ec; split; cbn; try done; auto.
  all: try (by apply sorted_extend; [done|]; destruct (list.last ks)).
  all: try (apply list.Forall_app; split; [done|]; by apply Forall_fmap).
  all: try (rewrite list.last_app, list.fmap_last; by destruct (list.last (page_entries page))).
  all: try (rewrite length_app; cbn; lia).
  - intros _ [Hin| Heq%list_elem_of_singleton]%elem_of_app; destruct (Hcur c eq_refl) as [H1 H2].
    + destruct (Hseen Hfin _ Hin) as [?|(x & [= <-] & ?)]; done.
    + by destruct H1.
  - intros _ d [Hin| ->%list_elem_of_singleton]%elem_of_app.
    + destruct (Hseen Hfin _ Hin) as [?|(x & -> & ?)]; [by left|right]. exists x.
      split; [done|]. destruct (current_cursor s); [set_solver|done].
    + destruct (current_cursor s) as [x|]; [right|by left]. exists x. split; [done|set_solver].
Qed.
(** One request: its result, the pages it may add, and what it keeps. *)
Lemma read_next_inv path requested limits s w ks cs :
  page_inv s ks cs →
  let '(r, s', w') := read_next_directory_page path requested limits s w in
  page_inv s' (ks ++ (stable_key <$> step_entries r)) (cs ++ step_accepted (current_cursor s) r) ∧
  (∀ page, r = Ok (Some page) →
     Z.of_nat (length (validated_entries page)) ≤ requested ∧
     Z.of_nat (length (validated_entries page)) ≤ maximum_page_entries limits ∧
     (validated_has_more page = true → validated_entries page ≠ []) ∧
     pages_read s < maximum_pages limits ∧ finished s' = negb (validated_has_more page)) ∧
  (∀ e, r = Err (InvalidPage e) → poisoned s' = Some e).
Proof.
  intros HI. unfold read_next_directory_page.
  assert (page_inv s (ks ++ []) (cs ++ [])) as HI' by by rewrite !app_nil_r.
  destruct (poisoned s) as [e|] eqn:Hp; [split; [done|]; split; [done|]; by intros ? [= <-]|].
  destruct (finished s) eqn:Hfin; [done|]. case_decide; [done|].
  destruct (is_cancelled w) as [[] wc]; [done|]. case_decide; [done|].
  destruct (read_directory_page _ wc) as [[page|e] w']; [|done].
  destruct (validate_directory_page _ _ _ _ page) as [[]|e] eqn:Ev.
  - apply validate_directory_page_ok in Ev as (Hlen & Hcur & Hmore & Hv).
    split; [by apply accept_page_inv|]. split; [|done]. intros p [= <-]. cbn.
    split; [lia|]. split; [lia|].
    split; [intros Hm%bool_decide_eq_true; by apply Hmore|]. split; [lia|].
    unfold accept_page. by destruct (advance_cursor _ _).
  - split; [|split; [done|by intros ? [= <-]]]. cbn. rewrite !app_nil_r.
    by destruct HI as [HS HN HL HD HC Hnew Hseen Hfirst]; split.
Qed.

Definition steps_keys (steps : list read_step) : list (list Z) :=
  steps ≫= λ x, stable_key <$> step_entries (step_result x).
Definition steps_cursors (steps : list read_step) : list (option C) :=
  steps ≫= λ x, step_accepted (step_cursor x) (step_result x).

Lemma read_pages_inv path requests s w ks cs :
  page_inv s ks cs →
  let '(steps, s', w') := read_pages path requests s w in
  page_inv s' (ks ++ steps_keys steps) (cs ++ steps_cursors steps).
Proof.
  revert s w ks cs. induction requests as [|[requested limits] requests IH]; intros s w ks cs HI; cbn.
  { by rewrite !app_nil_r. }
  pose proof (read_next_inv path requested limits s w ks cs HI) as Hr.
  destruct (read_next_directory_page path requested limits s w) as [[r s1] w1].
  destruct Hr as [HI1 _]. specialize (IH s1 w1 _ _ HI1).
  destruct (read_pages path requests s1 w1) as [[steps s2] w2].
  unfold steps_keys, steps_cursors. by rewrite !bind_cons, !app_assoc.
Qed.

(** A poisoned or finished state answers without asking the product. *)
Lemma read_pages_poisoned path requests s w e :
  poisoned s = Some e →
  read_pages path requests s w =
  ((λ rq, mk_read_step (current_cursor s) rq.1 rq.2 (Err (InvalidPage e))) <$> requests, s, w).
Proof.
  intros Hp. induction requests as [|[requested limits] requests IH]; [done|]. cbn.
  unfold read_next_directory_page. by rewrite Hp, IH.
Qed.

Lemma read_pages_finished path requests s w :
  poisoned s = None → finished s = true →
  read_pages path requests s w =
  ((λ rq, mk_read_step (current_cursor s) rq.1 rq.2 (Ok None)) <$> requests, s, w).
Proof.
  intros Hp Hf. induction requests as [|[requested limits] requests IH]; [done|]. cbn.
  unfold read_next_directory_page. by rewrite Hp, Hf, IH.
Qed.

(** Each accepted page respects the limits of its own request, where [n]
    pages were accepted before. *)
Fixpoint within_limits (n : Z) (steps : list read_step) : Prop :=
  match steps with
  | [] => True
  | x :: steps =>
      match step_result x with
      | Ok (Some page) =>
          Z.of_nat (length (validated_entries page)) ≤ step_requested x ∧
          Z.of_nat (length (validated_entries page)) ≤ maximum_page_entries (step_limits x) ∧
          (validated_has_more page = true → validated_entries page ≠ []) ∧
          n < maximum_pages (step_limits x) ∧
          (validated_has_more page = false → Forall (λ y, step_result y = Ok None) steps) ∧
          within_limits (n + 1) steps
      | Err (InvalidPage e) => Forall (λ y, step_result y = Err (InvalidPage e)) steps
      | _ => within_limits n steps
      end
  end.

Lemma read_next_pages path requested limits s w :
  let '(r, s1, w1) := read_next_directory_page path requested limits s w in
  match r with
  | Ok (Some _) => pages_read s1 = pages_read s + 1 ∧ poisoned s1 = None ∧
      pages_read s < maximum_pages limits
  | _ => pages_read s1 = pages_read s
  end.
Proof.
  unfold read_next_directory_page. destruct (poisoned s) eqn:Hp; [done|].
  destruct (finished s); [done|]. case_decide; [done|]. destruct (is_cancelled w) as [[] wc]; [done|].
  case_decide; [done|]. destruct (read_directory_page _ wc) as [[page|e] w']; [|done].
  destruct (validate_directory_page _ _ _ _ page) as [[]|e]; [|done].
  unfold accept_page. destruct (advance_cursor _ _). split; [done|]. split; [done|]. lia.
Qed.

Lemma read_pages_limits path requests s w ks cs :
  page_inv s ks cs →
  within_limits (pages_read s) (read_pages path requests s w).1.1.
Proof.
  revert s w ks cs. induction requests as [|[requested limits] requests IH]; intros s w ks cs HI; [done|].
  cbn. pose proof (read_next_inv path requested limits s w ks cs HI) as Hr.
  pose proof (read_next_pages path requested limits s w) as Hn.
  destruct (read_next_directory_page path requested limits s w) as [[r s1] w1].
  destruct Hr as (HI1 & Hok & Hpoison). specialize (IH s1 w1 _ _ HI1).
  destruct (read_pages path requests s1 w1) as [[steps s2] w2] eqn:Er. cbn in *.
  destruct r as [[page|]|[]]; try by rewrite <- Hn.
  - destruct Hn as (Hn & Hp & _). destruct (Hok page eq_refl) as (? & ? & ? & ? & Hf).
    rewrite Hn in IH. split_and!; try done. intros Hm. rewrite Hm in Hf.
    rewrite read_pages_finished in Er by done. injection Er as <- _ _.
    apply Forall_fmap. by apply list.Forall_true.
  - rewrite (read_pages_poisoned _ _ _ _ error) in Er by by apply Hpoison.
    injection Er as <- _ _. apply Forall_fmap. by apply list.Forall_true.
Qed.

End pages.

(** ** Traversal budgets *)
Record DavTraversalLimits : Type := mk_DavTraversalLimits {
  maximum_visited_resources : Z;
  maximum_queued_work_items : Z;
  maximum_failures : Z;
  maximum_depth : option Z;
}.

Record DavTraversalProgress : Type := mk_DavTraversalProgress {
  visited_resources : Z;
  queued_work_items : Z;
  failures : Z;
  completed_mutations : Z;
}.

Definition DavTraversalProgress_default := mk_DavTraversalProgress 0 0 0 0.

Inductive DavTraversalErrorKind : Type :=
  | InvalidLimits
  | TraversalCancelled
  | VisitedResourceLimitExceeded
  | QueuedWorkLimitExceeded
  | FailureLimitExceeded
  | DepthLimitExceeded.

Record DavTraversalError : Type := mk_DavTraversalError {
  traversal_error_kind : DavTraversalErrorKind;
  traversal_error_progress : DavTraversalProgress;
}.

Definition DavTraversalError_partial_execution (e : DavTraversalError) : bool :=
  bool_decide (completed_mutations (traversal_error_progress e) ≠ 0).

Record DavTraversalBudget : Type := mk_DavTraversalBudget {
  budget_limits : DavTraversalLimits;
  budget_progress : DavTraversalProgress;
}.

Definition DavTraversalBudget_new (limits : DavTraversalLimits)
    : result DavTraversalError DavTraversalBudget :=
  if decide (maximum_visited_resources limits = 0 ∨ maximum_queued_work_items limits = 0
             ∨ maximum_failures limits = 0) then
    Err (mk_DavTraversalError InvalidLimits DavTraversalProgress_default)
  else Ok (mk_DavTraversalBudget limits DavTraversalProgress_default).

Definition checked_increment (value maximum : Z) : option Z :=
  next ← checked_add USIZE_MAX value 1;
  if decide (next ≤ maximum) then Some next else None.

Definition DavTraversalBudget_error (b : DavTraversalBudget) (kind : DavTraversalErrorKind) :=
  mk_DavTraversalError kind (budget_progress b).

Definition DavTraversalBudget_checkpoint (cancelled : bool) (b : DavTraversalBudget)
    : result DavTraversalError unit :=
  if cancelled then Err (DavTraversalBudget_error b TraversalCancelled) else Ok tt.

Definition DavTraversalBudget_visit (depth : Z) (b : DavTraversalBudget)
    : result DavTraversalError unit * DavTraversalBudget :=
  let p := budget_progress b in
  if match maximum_depth (budget_limits b) with
     | Some maximum => bool_decide (maximum < depth)
     | None => false
     end then (Err (DavTraversalBudget_error b DepthLimitExceeded), b)
  else match checked_increment (visited_resources p)
               (maximum_visited_resources (budget_limits b)) with
  | None => (Err (DavTraversalBudget_error b VisitedResourceLimitExceeded), b)
  | Some visited =>
      (Ok tt, mk_DavTraversalBudget (budget_limits b)
         (mk_DavTraversalProgress visited (queued_work_items p) (failures p)
            (completed_mutations p)))
  end.

Definition DavTraversalBudget_reserve_work (additional : Z) (b : DavTraversalBudget)
    : result DavTraversalError unit * DavTraversalBudget :=
  let p := budget_progress b in
  match checked_add USIZE_MAX (queued_work_items p) additional with
  | None => (Err (DavTraversalBudget_error b QueuedWorkLimitExceeded), b)
  | Some queued =>
      if decide (maximum_queued_work_items (budget_limits b) < queued) then
        (Err (DavTraversalBudget_error b QueuedWorkLimitExceeded), b)
      else (Ok tt, mk_DavTraversalBudget (budget_limits b)
              (mk_DavTraversalProgress (visited_resources p) queued (failures p)
                 (completed_mutations p)))
  end.

Definition DavTraversalBudget_complete_work (b : DavTraversalBudget) : DavTraversalBudget :=
  let p := budget_progress b in
  mk_DavTraversalBudget (budget_limits b)
    (mk_DavTraversalProgress (visited_resources p) (saturating_sub (queued_work_items p) 1)
       (failures p) (completed_mutations p)).

Definition DavTraversalBudget_record_failure (b : DavTraversalBudget)
    : result DavTraversalError unit * DavTraversalBudget :=
  let p := budget_progress b in
  match checked_increment (failures p) (maximum_failures (budget_limits b)) with
  | None => (Err (DavTraversalBudget_error b FailureLimitExceeded), b)
  | Some n =>
      (Ok tt, mk_DavTraversalBudget (budget_limits b)
         (mk_DavTraversalProgress (visited_resources p) (queued_work_items p) n
            (completed_mutations p)))
  end.

Definition DavTraversalBudget_record_completed_mutation (b : DavTraversalBudget)
    : DavTraversalBudget :=
  let p := budget_progress b in
  mk_DavTraversalBudget (budget_limits b)
    (mk_DavTraversalProgress (visited_resources p) (queued_work_items p) (failures p)
       (saturating_add USIZE_MAX (completed_mutations p) 1)).

(** *** Verification of the budget *)
Inductive budget_call : Type :=
  | CallVisit (depth : Z)
  | CallReserve (additional : Z)
  | CallComplete
  | CallFailure
  | CallMutation.

Definition budget_do (call : budget_call) (b : DavTraversalBudget)
    : result DavTraversalError unit * DavTraversalBudget :=
  match call with
  | CallVisit depth => DavTraversalBudget_visit depth b
  | CallReserve additional => DavTraversalBudget_reserve_work additional b
  | CallComplete => (Ok tt, DavTraversalBudget_complete_work b)
  | CallFailure => DavTraversalBudget_record_failure b
  | CallMutation => (Ok tt, DavTraversalBudget_record_completed_mutation b)
  end.

Definition call_ok (call : budget_call) : Prop :=
  match call with CallReserve additional => 0 ≤ additional | _ => True end.

(** Every counter is within its limit. *)
Definition budget_inv (b : DavTraversalBudget) : Prop :=
  let l := budget_limits b in
  let p := budget_progress b in
  0 ≤ visited_resources p ≤ maximum_visited_resources l ∧
  0 ≤ queued_work_items p ≤ maximum_queued_work_items l ∧
  0 ≤ failures p ≤ maximum_failures l ∧
  0 ≤ completed_mutations p ≤ USIZE_MAX.

Definition limits_ok (l : DavTraversalLimits) : Prop :=
  in_u64 (maximum_visited_resources l) ∧ in_u64 (maximum_queued_work_items l) ∧
  in_u64 (maximum_failures l).

Lemma checked_increment_spec value maximum :
  maximum ≤ USIZE_MAX →
  checked_increment value maximum = if decide (value < maximum) then Some (value + 1) else None.
Proof.
  intros Hm. unfold checked_increment, checked_add.
  repeat case_decide; cbn; try case_decide; try done; width.
Qed.

Lemma budget_step call b :
  limits_ok (budget_limits b) → budget_inv b → call_ok call →
  let '(r, b') := budget_do call b in
  budget_limits b' = budget_limits b ∧ budget_inv b' ∧
  match r with
  | Ok _ => True
  | Err e => b' = b ∧ traversal_error_progress e = budget_progress b
  end.
Proof.
  intros (HL1 & HL2 & HL3) HI Hc. unfold limits_ok, budget_inv in *.
  destruct call as [depth|additional| | |]; cbn [budget_do call_ok] in *.
  - unfold DavTraversalBudget_visit. destruct (match maximum_depth _ with Some _ => _ | None => _ end); [done|].
    rewrite checked_increment_spec by width. case_decide; [|done]. cbn. split; [done|]. split; [lia|done].
  - unfold DavTraversalBudget_reserve_work, checked_add. case_decide; [|done]. case_decide; [done|].
    cbn. split; [done|]. split; [lia|done].
  - cbn. unfold saturating_sub. split; [done|]. split; [lia|done].
  - unfold DavTraversalBudget_record_failure.
    rewrite checked_increment_spec by width. case_decide; [|done]. cbn. split; [done|]. split; [lia|done].
  - cbn. unfold saturating_add. split; [done|]. split; [width|done].
Qed.

Lemma budget_run limits b calls :
  limits_ok limits → Forall call_ok calls → DavTraversalBudget_new limits = Ok b →
  budget_inv (foldl (λ b call, (budget_do call b).2) b calls).
Proof.
  intros HL Hcalls. unfold DavTraversalBudget_new. case_decide; [done|]. intros [= <-].
  assert (limits_ok (budget_limits (mk_DavTraversalBudget limits DavTraversalProgress_default)) ∧
    budget_inv (mk_DavTraversalBudget limits DavTraversalProgress_default)) as Hb.
  { split; [done|]. destruct HL as (? & ? & ?). unfold budget_inv. cbn. width. }
  revert Hb. generalize (mk_DavTraversalBudget limits DavTraversalProgress_default).
  induction Hcalls as [|call calls Hc _ IH]; intros b [HL' HI]; [done|]. cbn. apply IH.
  pose proof (budget_step call b HL' HI Hc) as Hstep.
  destruct (budget_do call b) as [r b']. destruct Hstep as (E & HI' & _). cbn. by rewrite E.
Qed.
