(* ===== verification/HttpValidators.v ===== *)
(** * HTTP validators

    [aster_forge_utils/src/http_validators.rs]: the entity-tag lists of
    [If-Match] and [If-None-Match], scanned byte by byte under an element
    limit, their comparison with the current tag, and HTTP-date ranges.  One
    entity tag is parsed and compared by the [headers] crate, which is a
    parameter. *)
From S2P Require Export Text.

Definition MAX_ETAG_LIST_ELEMENTS : Z := 128.
Definition MAX_HTTP_DATE_EPOCH_SECONDS : Z := 253402300799.

Inductive HttpValidatorError : Type := InvalidEtagList | InvalidHttpDate.

#[export] Instance HttpValidatorError_eq_dec : EqDecision HttpValidatorError.
Proof. solve_decision. Defined.

(** ** Dates: a [SystemTime] is a count of nanoseconds since the Unix epoch. *)
Definition SystemTime : Type := Z.

Definition validate_http_date (time : SystemTime) : result HttpValidatorError unit :=
  if decide (time < 0) then Err InvalidHttpDate
  else if decide (MAX_HTTP_DATE_EPOCH_SECONDS < time / 1000000000) then Err InvalidHttpDate
  else Ok tt.

(** Whole seconds, towards the epoch on both sides. *)
Definition http_date_epoch_seconds (time : SystemTime) : Z :=
  if decide (0 ≤ time) then time / 1000000000 else - (- time / 1000000000).

(** ** Byte scanning *)
Definition is_ows (b : Z) : bool := bool_decide (b = 32) || bool_decide (b = 9).

Definition trim_start_ows : list Z → list Z := trim_start_matches is_ows.
Definition trim_ows (value : list Z) : list Z :=
  trim_end_matches is_ows (trim_start_ows value).

Definition quote : Z := 34.
Definition comma_byte : Z := 44.

(** The field values of one header, joined with commas. *)
Definition combined_header_bytes (values : list (list Z)) : option (list Z) :=
  match values with
  | [] => None
  | _ => Some (join [44] values)
  end.

Section tags.
(** [headers::ETag]: decoding a rendered tag, parsing one from text, and the
    two comparisons, [IfMatch::precondition_passes] and the negation of
    [IfNoneMatch::precondition_passes]. *)
Context {ETag : Type} (etag_decode : list Z → option ETag) (etag_parse : str → option ETag)
        (strong_match weak_match : ETag → ETag → bool).

Record ParsedEntityTag : Type := mk_ParsedEntityTag {
  parsed_tag : ETag;
  parsed_weak : bool;
}.

Inductive ParsedEtagList : Type :=
  | AnyTag
  | Tags (tags : list ParsedEntityTag).

Definition parse_entity_tag_bytes (value : list Z) : result HttpValidatorError ETag :=
  ok_or (etag_decode value) InvalidEtagList.

Definition try_format_entity_tag (value : str) : result HttpValidatorError str :=
  let value := trim value in
  if decide (value = lit "*") then Err InvalidEtagList
  else
    let rendered :=
      if starts_with quote value || bool_decide (is_Some (strip_prefix (lit "W/" ++ [quote]) value))
      then value else quote :: value ++ [quote] in
    _ ← ok_or (etag_parse rendered) InvalidEtagList;
    Ok rendered.

Definition parse_entity_tag (value : str) : result HttpValidatorError ETag :=
  rendered ← try_format_entity_tag value;
  ok_or (etag_parse rendered) InvalidEtagList.

(** [elements.saturating_add(1)] against the limit. *)
Definition count_element (elements : Z) : result HttpValidatorError Z :=
  let elements := saturating_add USIZE_MAX elements 1 in
  if decide (MAX_ETAG_LIST_ELEMENTS < elements) then Err InvalidEtagList else Ok elements.

(** [while let Some(rest) = remaining.strip_prefix(b",")]; [None] is out of
    fuel. *)
Fixpoint skip_commas (fuel : nat) (remaining : list Z) (elements : Z)
    : option (result HttpValidatorError (list Z * Z)) :=
  match fuel with
  | O => None
  | S fuel =>
      match strip_prefix [comma_byte] remaining with
      | Some rest =>
          match count_element elements with
          | Ok elements => skip_commas fuel (trim_start_ows rest) elements
          | Err e => Some (Err e)
          end
      | None => Some (Ok (remaining, elements))
      end
  end.

(** One tag at the start of [remaining]: the tag and the rest. *)
Definition take_tag (remaining : list Z) : result HttpValidatorError (ParsedEntityTag * list Z) :=
  let weak := bool_decide (is_Some (strip_prefix (lit "W/") remaining)) in
  quoted ← ok_or (strip_prefix [quote] (if weak then drop 2 remaining else remaining))
             InvalidEtagList;
  '(inside, _) ← ok_or (split_once quote quoted) InvalidEtagList;
  let consumed := (length inside + 2 + (if weak then 2 else 0))%nat in
  tag ← parse_entity_tag_bytes (take consumed remaining);
  Ok (mk_ParsedEntityTag tag weak, drop consumed remaining).

(** The outer loop, from the start of an element. *)
Fixpoint etag_elements (fuel : nat) (remaining : list Z) (elements : Z)
    (tags : list ParsedEntityTag) : option (result HttpValidatorError ParsedEtagList) :=
  match fuel with
  | O => None
  | S fuel =>
      match skip_commas (S (length remaining)) (trim_start_ows remaining) elements with
      | None => None
      | Some (Err e) => Some (Err e)
      | Some (Ok (remaining, elements)) =>
          match remaining with
          | [] => Some (Ok (Tags tags))
          | _ =>
              match (elements ← count_element elements;
                     '(tag, rest) ← take_tag remaining; Ok (elements, tag, rest)) with
              | Err e => Some (Err e)
              | Ok (elements, tag, rest) =>
                  let trimmed := trim_start_ows rest in
                  if decide (trimmed = []) then Some (Ok (Tags (tags ++ [tag])))
                  else match strip_prefix [comma_byte] trimmed with
                    | Some rest => etag_elements fuel rest elements (tags ++ [tag])
                    | None => Some (Err InvalidEtagList)
                    end
              end
          end
      end
  end.

Definition parse_etag_list_fuel (fuel : nat) (raw : list Z)
    : option (result HttpValidatorError ParsedEtagList) :=
  if decide (trim_ows raw = [42]) then Some (Ok AnyTag) else etag_elements fuel raw 0 [].

(** The loop takes a byte or more per turn: see [parse_etag_list_total]. *)
Definition parse_etag_list (raw : list Z) : result HttpValidatorError ParsedEtagList :=
  default (Err InvalidEtagList) (parse_etag_list_fuel (S (length raw)) raw).

Definition candidates_match (matches : ETag → ETag → bool) (candidates : list ParsedEntityTag)
    (current_etag : option str) : result HttpValidatorError bool :=
  if decide (candidates = []) then Ok false
  else match current_etag with
    | None => Ok false
    | Some current_etag =>
        current ← parse_entity_tag current_etag;
        Ok (existsb (λ c, matches (parsed_tag c) current) candidates)
    end.

Definition strong_candidates_match := candidates_match strong_match.
Definition weak_candidates_match := candidates_match weak_match.

Definition header_matches (candidates_match : list ParsedEntityTag → option str →
    result HttpValidatorError bool) (raw : list Z) (resource_exists : bool)
    (current_etag : option str) : result HttpValidatorError bool :=
  parsed ← parse_etag_list raw;
  match parsed with
  | AnyTag => Ok resource_exists
  | Tags candidates => candidates_match candidates (if resource_exists then current_etag else None)
  end.

Definition if_match_header_matches (raw : str) := header_matches strong_candidates_match (as_bytes raw).
Definition if_none_match_header_matches (raw : str) := header_matches weak_candidates_match (as_bytes raw).

Definition headers_match (candidates_match : list ParsedEntityTag → option str →
    result HttpValidatorError bool) (values : list (list Z)) (resource_exists : bool)
    (current_etag : option str) : result HttpValidatorError (option bool) :=
  match combined_header_bytes values with
  | None => Ok None
  | Some raw => Some <$> header_matches candidates_match raw resource_exists current_etag
  end.

Definition if_match_headers_match := headers_match strong_candidates_match.
Definition if_none_match_headers_match := headers_match weak_candidates_match.

Definition if_match_headers_have_strong_tag (values : list (list Z))
    : result HttpValidatorError (option bool) :=
  match combined_header_bytes values with
  | None => Ok None
  | Some raw =>
      parsed ← parse_etag_list raw;
      Ok (Some match parsed with
        | AnyTag => false
        | Tags candidates => existsb (λ c, negb (parsed_weak c)) candidates
        end)
  end.
(** ** Verification *)
(** Bytes are characters of a [str]; arithmetic on their number. *)
Ltac count_bytes := unfold trim_start_ows, str, char in *; lia.

Lemma trim_start_matches_length p s : (length (trim_start_matches p s) ≤ length s)%nat.
Proof. induction s as [|c s IH]; cbn; [done|]. destruct (p c); cbn; lia. Qed.

Lemma strip_one_length c s rest : strip_prefix [c] s = Some rest → length s = S (length rest).
Proof. intros E%strip_prefix_some. by rewrite E. Qed.

Lemma skip_commas_total fuel remaining elements :
  (length remaining < fuel)%nat →
  ∃ r, skip_commas fuel remaining elements = Some r ∧
    ∀ rest n, r = Ok (rest, n) → (length rest ≤ length remaining)%nat.
Proof.
  revert remaining elements. induction fuel as [|fuel IH]; intros remaining elements Hf; [lia|].
  cbn [skip_commas]. destruct (strip_prefix _ remaining) as [rest|] eqn:E.
  - apply strip_one_length in E. unfold count_element. case_decide; [by eexists|].
    destruct (IH (trim_start_ows rest) (saturating_add USIZE_MAX elements 1)) as (r & -> & Hr).
    { pose proof (trim_start_matches_length is_ows rest). count_bytes. }
    exists r. split; [done|]. intros rest' n ->. pose proof (Hr rest' n eq_refl) as Hl.
    pose proof (trim_start_matches_length is_ows rest). count_bytes.
  - eexists. split; [done|]. intros rest n [= -> ->]. count_bytes.
Qed.

Lemma take_tag_shorter remaining tag rest :
  take_tag remaining = Ok (tag, rest) → (length rest < length remaining)%nat.
Proof.
  unfold take_tag. intros (quoted & Hq & H)%result_bind_ok.
  apply result_bind_ok in H as ([inside x] & Hin & H). apply result_bind_ok in H as (t & _ & [= _ <-]).
  apply ok_or_ok in Hq, Hin. apply strip_prefix_some in Hq.
  assert (remaining ≠ []) as Hne.
  { intros ->. by destruct (bool_decide _). }
  rewrite length_drop. destruct remaining; [done|]. cbn. count_bytes.
Qed.

Lemma etag_elements_total fuel remaining elements tags :
  (length remaining < fuel)%nat → is_Some (etag_elements fuel remaining elements tags).
Proof.
  revert remaining elements tags. induction fuel as [|fuel IH]; intros remaining elements tags Hf; [lia|].
  cbn [etag_elements].
  pose proof (trim_start_matches_length is_ows remaining) as Hl. fold (trim_start_ows remaining) in Hl.
  destruct (skip_commas_total (S (length remaining)) (trim_start_ows remaining) elements)
    as (r & -> & Hr); [count_bytes|].
  destruct r as [[rest n]|e]; [|done]. pose proof (Hr rest n eq_refl) as Hrest.
  destruct rest as [|b rest]; [done|].
  destruct (n ← count_element n; _) as [[[n' tag] rest']|e] eqn:E; [|done].
  apply result_bind_ok in E as (n'' & _ & E). apply result_bind_ok in E as ([t r'] & Ht & [= -> -> ->]).
  apply take_tag_shorter in Ht. case_decide; [done|].
  destruct (strip_prefix _ (trim_start_ows rest')) as [rest2|] eqn:E2; [|done].
  apply strip_one_length in E2. apply IH.
  pose proof (trim_start_matches_length is_ows rest'). count_bytes.
Qed.

(** The fuel of [parse_etag_list] is enough, so its default never shows. *)
Lemma parse_etag_list_total raw :
  parse_etag_list_fuel (S (length raw)) raw = Some (parse_etag_list raw).
Proof.
  unfold parse_etag_list. assert (is_Some (parse_etag_list_fuel (S (length raw)) raw)) as [r ->].
  { unfold parse_etag_list_fuel. case_decide; [done|]. apply etag_elements_total. lia. }
  done.
Qed.

(** *** Lists as clients write them *)
Definition render_tag (weak : bool) (inside : list Z) : list Z :=
  (if weak then lit "W/" else []) ++ quote :: inside ++ [quote].

Definition render_tags (tags : list (bool * list Z)) : list Z :=
  join (lit ", ") ((λ t, render_tag t.1 t.2) <$> tags).

Lemma render_tag_head weak inside rest :
  trim_start_ows (render_tag weak inside ++ rest) = render_tag weak inside ++ rest ∧
  strip_prefix [comma_byte] (render_tag weak inside ++ rest) = None.
Proof. by destruct weak. Qed.

Lemma take_rendered weak inside rest tag :
  quote ∉ inside → etag_decode (render_tag weak inside) = Some tag →
  take_tag (render_tag weak inside ++ rest) = Ok (mk_ParsedEntityTag tag weak, rest).
Proof.
  intros Hq Htag. unfold take_tag.
  assert (bool_decide (is_Some (strip_prefix (lit "W/") (render_tag weak inside ++ rest))) = weak)
    as Hw by by destruct weak.
  rewrite Hw.
  assert (strip_prefix [quote] (if weak then drop 2 (render_tag weak inside ++ rest)
    else render_tag weak inside ++ rest) = Some (inside ++ quote :: rest)) as ->.
  { destruct weak; cbn; by rewrite <- app_assoc. }
  cbn [ok_or mbind result_bind]. rewrite split_once_app by done. cbn [ok_or mbind result_bind].
  match goal with |- context [take ?n _] =>
    assert (n = length (render_tag weak inside)) as -> end.
  { unfold render_tag. rewrite length_app. cbn. rewrite length_app. destruct weak; cbn; count_bytes. }
  rewrite take_app_length, drop_app_length. unfold parse_entity_tag_bytes. by rewrite Htag.
Qed.

(** The tags a list of rendered tags decodes to. *)
Definition decodes (t : bool * list Z) (p : ParsedEntityTag) : Prop :=
  (quote ∉ t.2) ∧ etag_decode (render_tag t.1 t.2) = Some (parsed_tag p) ∧ parsed_weak p = t.1.

Lemma take_decodes t p rest :
  decodes t p → take_tag (render_tag t.1 t.2 ++ rest) = Ok (p, rest).
Proof.
  destruct t as [weak inside], p as [tag w]. unfold decodes. cbn. intros (Hq & Htag & ->).
  by apply take_rendered.
Qed.

Lemma count_element_spec n :
  0 ≤ n ≤ 128 → count_element n = if decide (128 < n + 1) then Err InvalidEtagList else Ok (n + 1).
Proof.
  intros Hn. unfold count_element, MAX_ETAG_LIST_ELEMENTS.
  assert (saturating_add USIZE_MAX n 1 = n + 1) as -> by width. done.
Qed.

Lemma etag_elements_rendered fuel tags parsed prefix n acc :
  Forall2 decodes tags parsed → tags ≠ [] → 0 ≤ n ≤ 128 →
  (prefix = [] ∨ prefix = [32]) → (length tags < fuel)%nat →
  etag_elements fuel (prefix ++ render_tags tags) n acc =
  Some (if decide (128 < n + Z.of_nat (length tags)) then Err InvalidEtagList
        else Ok (Tags (acc ++ parsed))).
Proof.
  intros Hall. revert fuel prefix n acc.
  induction Hall as [|t p tags parsed Hp Hall IH]; intros fuel prefix n acc Hne Hn Hprefix Hf; [done|].
  destruct fuel as [|fuel]; [lia|]. cbn [etag_elements].
  assert (∃ rest, render_tags (t :: tags) = render_tag t.1 t.2 ++ rest ∧
    rest = match tags with [] => [] | _ => comma_byte :: 32 :: render_tags tags end) as (rest & Er & Hrest).
  { eexists. split; [|reflexivity]. destruct tags; [by rewrite app_nil_r|done]. }
  rewrite Er. destruct (render_tag_head t.1 t.2 rest) as [Htrim Hcomma].
  assert (trim_start_ows (prefix ++ render_tag t.1 t.2 ++ rest) = render_tag t.1 t.2 ++ rest) as ->.
  { by destruct Hprefix as [->| ->]. }
  cbn [skip_commas]. rewrite Hcomma.
  destruct (render_tag t.1 t.2 ++ rest) as [|b body] eqn:Eb.
  { by destruct t as [[] inside]. }
  rewrite <- Eb, (take_decodes t p rest Hp), count_element_spec by done.
  case_decide; cbn [mbind result_bind].
  { rewrite decide_True by (cbn [length]; lia). done. }
  rewrite Hrest. destruct tags as [|t' tags].
  - apply Forall2_nil_inv_l in Hall as ->. rewrite decide_True by done.
    by rewrite decide_False by (cbn; lia).
  - change (trim_start_ows (comma_byte :: 32 :: render_tags (t' :: tags))) with
      (comma_byte :: 32 :: render_tags (t' :: tags)).
    cbv zeta. rewrite decide_False by done. cbn [strip_prefix]. rewrite decide_True by done.
    assert (length (t' :: tags) < fuel)%nat as Hfuel by (cbn [length] in *; lia).
    pose proof (IH fuel [32] (n + 1) (acc ++ [p]) ltac:(done) ltac:(lia) (or_intror eq_refl) Hfuel)
      as HIH. cbn [app] in HIH. rewrite HIH, <- app_assoc. cbn [length app].
    repeat case_decide; (done || lia).
Qed.

Lemma render_tags_length tags : (length tags ≤ length (render_tags tags))%nat.
Proof.
  unfold render_tags. induction tags as [|t [|t' tags] IH]; [done| |].
  - cbn. unfold render_tag. rewrite length_app. cbn. lia.
  - change (length (t :: t' :: tags) ≤ length (render_tag t.1 t.2 ++ lit ", " ++
      join (lit ", ") ((λ t, render_tag t.1 t.2) <$> t' :: tags)))%nat.
    rewrite !length_app. cbn [length lit] in *. unfold str, char in *. lia.
Qed.

(** A rendered list parses to its tags in order, up to the element limit. *)
Lemma etag_list_round_trip tags parsed :
  Forall2 decodes tags parsed → tags ≠ [] →
  parse_etag_list (render_tags tags) =
  if decide (128 < Z.of_nat (length tags)) then Err InvalidEtagList else Ok (Tags parsed).
Proof.
  intros Hall Hne. pose proof (parse_etag_list_total (render_tags tags)) as Ht.
  unfold parse_etag_list_fuel in Ht. rewrite decide_False in Ht.
  - rewrite (etag_elements_rendered _ tags parsed [] 0 [] Hall Hne) in Ht.
    + cbn [app] in Ht. injection Ht as <-. done.
    + lia.
    + by left.
    + pose proof (render_tags_length tags). count_bytes.
  - destruct tags as [|[weak inside] tags]; [done|]. intros E.
    assert (42 ∈ trim_ows (render_tags ((weak, inside) :: tags))) as Hin
      by (rewrite E; by apply list_elem_of_singleton).
    assert (∃ rest, trim_start_ows (render_tags ((weak, inside) :: tags)) =
      (if weak then 87 else quote) :: rest) as [rest Er].
    { unfold render_tags. destruct tags; destruct weak; by eexists. }
    unfold trim_ows in E. rewrite Er in E.
    apply (f_equal reverse) in E. unfold trim_end_matches in E. rewrite reverse_involutive in E.
    rewrite reverse_cons in E.
    assert (∀ p l b, p b = false → list.last (trim_start_matches p (l ++ [b])) = Some b) as Hlast.
    { clear. intros p l b Hb. induction l as [|c l IH]; cbn; [by rewrite Hb|].
      destruct (p c); [done|]. by rewrite app_comm_cons, list.last_snoc. }
    apply (f_equal list.last) in E. rewrite Hlast in E by by destruct weak.
    by destruct weak.
Qed.

End tags.
Arguments AnyTag {ETag}.

