(* ===== verification/DavMethod.v ===== *)
(** * WebDAV: methods and method sets

    [aster_forge_webdav/src/request.rs]: the recognized methods, their names,
    and the set of methods as bits of a [u64], with its iterator and its
    rendering. *)
From S2P Require Export Text.

Inductive DavMethod : Type :=
  | MOptions
  | MPropfind
  | MProppatch
  | MGet
  | MHead
  | MPut
  | MPatch
  | MMkcol
  | MDelete
  | MCopy
  | MMove
  | MLock
  | MUnlock
  | MAcl
  | MReport
  | MVersionControl
  | MCheckout
  | MCheckin
  | MUncheckout
  | MMkworkspace
  | MUpdate
  | MLabel
  | MMerge
  | MBaselineControl
  | MMkactivity
  | MSearch
  | MOrderpatch
  | MMkredirectref
  | MUpdateredirectref
  | MBind
  | MUnbind
  | MRebind
  | MPost.

#[export] Instance DavMethod_eq_dec : EqDecision DavMethod.
Proof. solve_decision. Defined.

(** The canonical order of [Allow]. *)
Definition DavMethod_ALL : list DavMethod :=
  [MOptions; MGet; MHead; MPost; MPut; MPatch; MDelete; MMkcol; MCopy; MMove; MPropfind;
   MProppatch; MLock; MUnlock; MAcl; MReport; MVersionControl; MCheckout; MCheckin;
   MUncheckout; MMkworkspace; MUpdate; MLabel; MMerge; MBaselineControl; MMkactivity;
   MSearch; MOrderpatch; MMkredirectref; MUpdateredirectref; MBind; MUnbind; MRebind].

Definition DavMethod_index (m : DavMethod) : Z :=
  match m with
  | MOptions => 0
  | MGet => 1
  | MHead => 2
  | MPost => 3
  | MPut => 4
  | MPatch => 5
  | MDelete => 6
  | MMkcol => 7
  | MCopy => 8
  | MMove => 9
  | MPropfind => 10
  | MProppatch => 11
  | MLock => 12
  | MUnlock => 13
  | MAcl => 14
  | MReport => 15
  | MVersionControl => 16
  | MCheckout => 17
  | MCheckin => 18
  | MUncheckout => 19
  | MMkworkspace => 20
  | MUpdate => 21
  | MLabel => 22
  | MMerge => 23
  | MBaselineControl => 24
  | MMkactivity => 25
  | MSearch => 26
  | MOrderpatch => 27
  | MMkredirectref => 28
  | MUpdateredirectref => 29
  | MBind => 30
  | MUnbind => 31
  | MRebind => 32
  end.

Definition DavMethod_as_str (m : DavMethod) : str :=
  lit match m with
  | MOptions => "OPTIONS"
  | MPropfind => "PROPFIND"
  | MProppatch => "PROPPATCH"
  | MGet => "GET"
  | MHead => "HEAD"
  | MPut => "PUT"
  | MPatch => "PATCH"
  | MMkcol => "MKCOL"
  | MDelete => "DELETE"
  | MCopy => "COPY"
  | MMove => "MOVE"
  | MLock => "LOCK"
  | MUnlock => "UNLOCK"
  | MAcl => "ACL"
  | MReport => "REPORT"
  | MVersionControl => "VERSION-CONTROL"
  | MCheckout => "CHECKOUT"
  | MCheckin => "CHECKIN"
  | MUncheckout => "UNCHECKOUT"
  | MMkworkspace => "MKWORKSPACE"
  | MUpdate => "UPDATE"
  | MLabel => "LABEL"
  | MMerge => "MERGE"
  | MBaselineControl => "BASELINE-CONTROL"
  | MMkactivity => "MKACTIVITY"
  | MSearch => "SEARCH"
  | MOrderpatch => "ORDERPATCH"
  | MMkredirectref => "MKREDIRECTREF"
  | MUpdateredirectref => "UPDATEREDIRECTREF"
  | MBind => "BIND"
  | MUnbind => "UNBIND"
  | MRebind => "REBIND"
  | MPost => "POST"
  end.

Definition DavMethod_from_name (method : str) : option DavMethod :=
  if decide (method = lit "OPTIONS") then Some MOptions
  else if decide (method = lit "PROPFIND") then Some MPropfind
  else if decide (method = lit "PROPPATCH") then Some MProppatch
  else if decide (method = lit "GET") then Some MGet
  else if decide (method = lit "HEAD") then Some MHead
  else if decide (method = lit "PUT") then Some MPut
  else if decide (method = lit "PATCH") then Some MPatch
  else if decide (method = lit "MKCOL") then Some MMkcol
  else if decide (method = lit "DELETE") then Some MDelete
  else if decide (method = lit "COPY") then Some MCopy
  else if decide (method = lit "MOVE") then Some MMove
  else if decide (method = lit "LOCK") then Some MLock
  else if decide (method = lit "UNLOCK") then Some MUnlock
  else if decide (method = lit "ACL") then Some MAcl
  else if decide (method = lit "REPORT") then Some MReport
  else if decide (method = lit "VERSION-CONTROL") then Some MVersionControl
  else if decide (method = lit "CHECKOUT") then Some MCheckout
  else if decide (method = lit "CHECKIN") then Some MCheckin
  else if decide (method = lit "UNCHECKOUT") then Some MUncheckout
  else if decide (method = lit "MKWORKSPACE") then Some MMkworkspace
  else if decide (method = lit "UPDATE") then Some MUpdate
  else if decide (method = lit "LABEL") then Some MLabel
  else if decide (method = lit "MERGE") then Some MMerge
  else if decide (method = lit "BASELINE-CONTROL") then Some MBaselineControl
  else if decide (method = lit "MKACTIVITY") then Some MMkactivity
  else if decide (method = lit "SEARCH") then Some MSearch
  else if decide (method = lit "ORDERPATCH") then Some MOrderpatch
  else if decide (method = lit "MKREDIRECTREF") then Some MMkredirectref
  else if decide (method = lit "UPDATEREDIRECTREF") then Some MUpdateredirectref
  else if decide (method = lit "BIND") then Some MBind
  else if decide (method = lit "UNBIND") then Some MUnbind
  else if decide (method = lit "REBIND") then Some MRebind
  else if decide (method = lit "POST") then Some MPost
  else None.

(** ** Sets as bits *)

(** [DavMethodSet(u64)]. *)
Definition DavMethodSet : Type := Z.

Definition u64_not (a : Z) : Z := Z.lxor a U64_MAX.
Definition method_bit (m : DavMethod) : Z := Z.shiftl 1 (DavMethod_index m).

Definition DavMethodSet_empty : DavMethodSet := 0.
Definition DavMethodSet_with (s : DavMethodSet) (m : DavMethod) : DavMethodSet :=
  Z.lor s (method_bit m).
Definition DavMethodSet_from_methods (methods : list DavMethod) : DavMethodSet :=
  foldl DavMethodSet_with DavMethodSet_empty methods.
Definition DavMethodSet_without (s : DavMethodSet) (m : DavMethod) : DavMethodSet :=
  Z.land s (u64_not (method_bit m)).
Definition DavMethodSet_union (s other : DavMethodSet) : DavMethodSet := Z.lor s other.
Definition DavMethodSet_contains (s : DavMethodSet) (m : DavMethod) : bool :=
  negb (bool_decide (Z.land s (method_bit m) = 0)).
Definition DavMethodSet_is_subset_of (s other : DavMethodSet) : bool :=
  bool_decide (Z.land s (u64_not other) = 0).
Definition DavMethodSet_is_empty (s : DavMethodSet) : bool := bool_decide (s = 0).

(** [DavMethodSetIter::next], from the methods that are left. *)
Fixpoint DavMethodSetIter_next (s : DavMethodSet) (rest : list DavMethod)
    : option (DavMethod * list DavMethod) :=
  match rest with
  | [] => None
  | m :: rest => if DavMethodSet_contains s m then Some (m, rest) else DavMethodSetIter_next s rest
  end.

(** Running the iterator to its end; [ALL] has 33 methods. *)
Fixpoint drain_iter (fuel : nat) (s : DavMethodSet) (rest : list DavMethod) : list DavMethod :=
  match fuel with
  | O => []
  | S fuel =>
      match DavMethodSetIter_next s rest with
      | Some (m, rest) => m :: drain_iter fuel s rest
      | None => []
      end
  end.

Definition DavMethodSet_iter (s : DavMethodSet) : list DavMethod := drain_iter 34 s DavMethod_ALL.

Definition DavMethodSet_render (s : DavMethodSet) : str :=
  foldl (λ rendered m,
    (if decide (rendered = []) then rendered else rendered ++ lit ", ") ++ DavMethod_as_str m)
    [] (DavMethodSet_iter s).

(** ** Verification *)
Lemma DavMethod_all m : m ∈ DavMethod_ALL.
Proof. apply list_elem_of_In. destruct m; cbn; tauto. Qed.

Lemma DavMethod_ALL_distinct : NoDup DavMethod_ALL.
Proof. apply (bool_decide_unpack _). vm_compute. exact I. Qed.

(** The index is the position in [ALL]. *)
Lemma DavMethod_index_position m : DavMethod_ALL !! Z.to_nat (DavMethod_index m) = Some m.
Proof. by destruct m. Qed.

Lemma DavMethod_index_range m : 0 ≤ DavMethod_index m < 33.
Proof. destruct m; cbn; lia. Qed.

Lemma DavMethod_index_inj m n : DavMethod_index m = DavMethod_index n → m = n.
Proof.
  intros E. pose proof (DavMethod_index_position m) as Hm.
  rewrite E, DavMethod_index_position in Hm. congruence.
Qed.

Lemma DavMethod_name_round_trip m : DavMethod_from_name (DavMethod_as_str m) = Some m.
Proof. by destruct m; vm_compute. Qed.

Lemma DavMethod_from_name_some s m : DavMethod_from_name s = Some m → s = DavMethod_as_str m.
Proof. unfold DavMethod_from_name. repeat case_decide; intros [= <-] || intros [=]; assumption. Qed.

Lemma method_bit_spec m i : 0 ≤ i → Z.testbit (method_bit m) i = bool_decide (i = DavMethod_index m).
Proof.
  intros Hi. unfold method_bit. pose proof (DavMethod_index_range m).
  rewrite Z.shiftl_1_l, Z.pow2_bits_eqb by lia.
  case_bool_decide as E; [by rewrite E, Z.eqb_refl|]. apply Z.eqb_neq. lia.
Qed.

Lemma contains_testbit s m :
  DavMethodSet_contains s m = Z.testbit s (DavMethod_index m).
Proof.
  unfold DavMethodSet_contains. pose proof (DavMethod_index_range m).
  destruct (Z.testbit s (DavMethod_index m)) eqn:E.
  - apply negb_true_iff, bool_decide_eq_false. intros H0.
    apply (f_equal (λ z, Z.testbit z (DavMethod_index m))) in H0.
    rewrite Z.land_spec, E, method_bit_spec, bool_decide_eq_true_2 in H0 by (done || lia).
    by rewrite Z.bits_0 in H0.
  - apply negb_false_iff, bool_decide_eq_true. apply Z.bits_inj'. intros i Hi.
    rewrite Z.land_spec, Z.bits_0, method_bit_spec by done.
    case_bool_decide as Ei; [subst; by rewrite E|]. apply andb_false_r.
Qed.

(** A set value: built by the public constructors only. *)
Inductive set_expr : Type :=
  | EEmpty
  | EWith (e : set_expr) (m : DavMethod)
  | EWithout (e : set_expr) (m : DavMethod)
  | EUnion (e1 e2 : set_expr).

Fixpoint set_bits (e : set_expr) : DavMethodSet :=
  match e with
  | EEmpty => DavMethodSet_empty
  | EWith e m => DavMethodSet_with (set_bits e) m
  | EWithout e m => DavMethodSet_without (set_bits e) m
  | EUnion e1 e2 => DavMethodSet_union (set_bits e1) (set_bits e2)
  end.

(** The set it denotes. *)
Fixpoint set_denote (e : set_expr) (m : DavMethod) : bool :=
  match e with
  | EEmpty => false
  | EWith e n => set_denote e m || bool_decide (m = n)
  | EWithout e n => set_denote e m && negb (bool_decide (m = n))
  | EUnion e1 e2 => set_denote e1 m || set_denote e2 m
  end.

(** Only the bits of methods are used. *)
Definition method_bits (s : DavMethodSet) : Prop :=
  ∀ i, 0 ≤ i → Z.testbit s i = true → ∃ m, i = DavMethod_index m.

Lemma U64_MAX_ones : U64_MAX = Z.ones 64.
Proof. reflexivity. Qed.

Lemma u64_not_testbit a i : 0 ≤ i < 64 → Z.testbit (u64_not a) i = negb (Z.testbit a i).
Proof.
  intros Hi. unfold u64_not. rewrite Z.lxor_spec, U64_MAX_ones, Z.ones_spec_low by done.
  apply xorb_true_r.
Qed.

Lemma index_eq_decide m n : bool_decide (DavMethod_index m = DavMethod_index n) = bool_decide (m = n).
Proof. apply bool_decide_ext. split; [apply DavMethod_index_inj|by intros ->]. Qed.

Lemma set_bits_spec e :
  method_bits (set_bits e) ∧ ∀ m, Z.testbit (set_bits e) (DavMethod_index m) = set_denote e m.
Proof.
  induction e as [|e [IHb IH] n|e [IHb IH] n|e1 [IHb1 IH1] e2 [IHb2 IH2]]; cbn.
  - split; [intros i _; by rewrite Z.bits_0|]. intros m. apply Z.bits_0.
  - unfold DavMethodSet_with. split.
    + intros i Hi. rewrite Z.lor_spec, method_bit_spec by done.
      intros [?|E%bool_decide_eq_true]%orb_true_iff; eauto.
    + intros m. pose proof (DavMethod_index_range m).
      by rewrite Z.lor_spec, IH, method_bit_spec, index_eq_decide by lia.
  - unfold DavMethodSet_without. split.
    + intros i Hi. rewrite Z.land_spec. intros [? _]%andb_true_iff. eauto.
    + intros m. pose proof (DavMethod_index_range m).
      by rewrite Z.land_spec, IH, u64_not_testbit, method_bit_spec, index_eq_decide by lia.
  - unfold DavMethodSet_union. split.
    + intros i Hi. rewrite Z.lor_spec. intros [?|?]%orb_true_iff; eauto.
    + intros m. by rewrite Z.lor_spec, IH1, IH2.
Qed.

Lemma set_bits_nonneg e : 0 ≤ set_bits e.
Proof.
  induction e as [|e IH m|e IH m|e1 IH1 e2 IH2]; cbn.
  - done.
  - apply Z.lor_nonneg. split; [done|]. apply Z.shiftl_nonneg. lia.
  - apply Z.land_nonneg. by left.
  - by apply Z.lor_nonneg.
Qed.

Lemma method_bits_zero s : 0 ≤ s → method_bits s → s = 0 ↔ ∀ m, Z.testbit s (DavMethod_index m) = false.
Proof.
  intros Hs Hb. split; [intros -> m; apply Z.bits_0|].
  intros Hall. apply Z.bits_inj'. intros i Hi. rewrite Z.bits_0.
  destruct (Z.testbit s i) eqn:E; [|done]. destruct (Hb i Hi E) as [m ->]. by rewrite Hall in E.
Qed.

Lemma iter_next_spec s rest :
  match DavMethodSetIter_next s rest with
  | Some (m, rest') =>
      filter (λ m, DavMethodSet_contains s m = true) rest =
      m :: filter (λ m, DavMethodSet_contains s m = true) rest' ∧ (length rest' < length rest)%nat
  | None => filter (λ m, DavMethodSet_contains s m = true) rest = []
  end.
Proof.
  induction rest as [|m rest IH]; [done|]. cbn [DavMethodSetIter_next].
  destruct (DavMethodSet_contains s m) eqn:E.
  - rewrite filter_cons_True by done. split; [done|cbn; lia].
  - rewrite filter_cons_False by congruence.
    destruct (DavMethodSetIter_next s rest) as [[n rest']|]; [|done].
    destruct IH as [-> Hlen]. split; [done|cbn; lia].
Qed.

Lemma drain_iter_spec fuel s rest :
  (length rest < fuel)%nat →
  drain_iter fuel s rest = filter (λ m, DavMethodSet_contains s m = true) rest.
Proof.
  revert rest. induction fuel as [|fuel IH]; intros rest Hf; [lia|]. cbn [drain_iter].
  pose proof (iter_next_spec s rest) as Hn.
  destruct (DavMethodSetIter_next s rest) as [[m rest']|]; [|done].
  destruct Hn as [-> Hlen]. f_equal. apply IH. lia.
Qed.

Lemma DavMethodSet_iter_filter s :
  DavMethodSet_iter s = filter (λ m, DavMethodSet_contains s m = true) DavMethod_ALL.
Proof. apply drain_iter_spec. cbn. lia. Qed.

(** *** Rendering *)
Definition separator : str := lit ", ".

Lemma DavMethod_as_str_not_nil m : DavMethod_as_str m ≠ [].
Proof. by destruct m. Qed.

Lemma DavMethod_as_str_plain m c : c ∈ DavMethod_as_str m → c ≠ 44 ∧ is_whitespace c = false.
Proof.
  assert (Forall (λ c, c ≠ 44 ∧ is_whitespace c = false) (DavMethod_as_str m)) as Hall.
  { apply (bool_decide_unpack _). by destruct m; vm_compute. }
  rewrite list.Forall_forall in Hall. apply Hall.
Qed.

Lemma join_foldl acc ms :
  acc ≠ [] →
  foldl (λ rendered m,
    (if decide (rendered = []) then rendered else rendered ++ lit ", ") ++ DavMethod_as_str m) acc ms =
  join separator (acc :: (DavMethod_as_str <$> ms)).
Proof.
  revert acc. induction ms as [|m ms IH]; intros acc Hacc; [done|]. cbn [foldl].
  rewrite decide_False by done. rewrite IH.
  - change (join separator (acc :: (DavMethod_as_str <$> m :: ms))) with
      (acc ++ separator ++ join separator (DavMethod_as_str m :: (DavMethod_as_str <$> ms))).
    destruct ms as [|n ms]; cbn; by rewrite <- !app_assoc.
  - intros E. apply app_nil in E as [E _]. by apply app_nil in E as [-> _].
Qed.

Lemma render_join s : DavMethodSet_render s = join separator (DavMethod_as_str <$> DavMethodSet_iter s).
Proof.
  unfold DavMethodSet_render. destruct (DavMethodSet_iter s) as [|m ms]; [done|].
  cbn [foldl fmap list_fmap]. rewrite decide_True by done. cbn [app].
  apply join_foldl, DavMethod_as_str_not_nil.
Qed.

(** What a client makes of the header value. *)
Definition parse_allow (value : str) : list (option DavMethod) :=
  (λ name, DavMethod_from_name (trim name)) <$> split 44 value.

Lemma trim_name m : trim (DavMethod_as_str m) = DavMethod_as_str m.
Proof. apply trim_plain. intros c Hc. apply (DavMethod_as_str_plain m c Hc). Qed.

Lemma trim_spaced s : trim (32 :: s) = trim s.
Proof. done. Qed.

Lemma comma_not_in_name m : 44 ∉ DavMethod_as_str m.
Proof. intros Hin. destruct (DavMethod_as_str_plain _ _ Hin) as [H _]. by apply H. Qed.

Lemma split_names ms m :
  split 44 (join separator (DavMethod_as_str <$> m :: ms)) =
  DavMethod_as_str m :: ((λ m, 32 :: DavMethod_as_str m) <$> ms).
Proof.
  revert m. induction ms as [|n ms IH]; intros m.
  - apply split_plain, comma_not_in_name.
  - change (join separator (DavMethod_as_str <$> m :: n :: ms)) with
      (DavMethod_as_str m ++ 44 :: 32 :: join separator (DavMethod_as_str <$> n :: ms)).
    rewrite split_app by apply comma_not_in_name.
    f_equal. cbn [split]. rewrite decide_False by done. by rewrite IH.
Qed.

(** A method set behaves as the mathematical set that its constructors
    denote: membership, emptiness and inclusion agree with it, the bits stay
    in a [u64], iteration yields exactly its methods, each once and in
    canonical order, and parsing the rendered [Allow] value gives them
    back. *)
Theorem method_set_refines e f :
  let s := set_bits e in
  (∀ m, DavMethodSet_contains s m = set_denote e m) ∧
  (DavMethodSet_is_empty s = true ↔ ∀ m, set_denote e m = false) ∧
  (DavMethodSet_is_subset_of s (set_bits f) = true ↔
     ∀ m, set_denote e m = true → set_denote f m = true) ∧
  in_u64 s ∧
  DavMethodSet_iter s = filter (λ m, set_denote e m = true) DavMethod_ALL ∧
  (DavMethodSet_iter s ≠ [] → parse_allow (DavMethodSet_render s) = Some <$> DavMethodSet_iter s).
Proof.
  intros s. destruct (set_bits_spec e) as [Hb Hbits]. destruct (set_bits_spec f) as [_ Hbitsf].
  pose proof (set_bits_nonneg e) as Hs. fold s in Hb, Hbits, Hs.
  assert (∀ m, DavMethodSet_contains s m = set_denote e m) as Hc.
  { intros m. by rewrite contains_testbit. }
  split; [done|]. split; [|split; [|split; [|split]]].
  - unfold DavMethodSet_is_empty. rewrite bool_decide_eq_true, method_bits_zero by done.
    by setoid_rewrite Hbits.
  - unfold DavMethodSet_is_subset_of. rewrite bool_decide_eq_true, method_bits_zero.
    + split; intros Hall m; specialize (Hall m); pose proof (DavMethod_index_range m);
        rewrite Z.land_spec, u64_not_testbit, Hbits, Hbitsf in * by lia;
        destruct (set_denote e m), (set_denote f m); naive_solver.
    + apply Z.land_nonneg. by left.
    + intros i Hi. rewrite Z.land_spec. intros [? _]%andb_true_iff. eauto.
  - split; [done|]. destruct (decide (s = 0)) as [->|Hne]; [done|].
    assert (Z.log2 s < 33) as Hlog.
    { destruct (Hb (Z.log2 s)) as [m Hm]; [apply Z.log2_nonneg|apply Z.bit_log2; lia|].
      pose proof (DavMethod_index_range m). lia. }
    apply Z.log2_lt_pow2 in Hlog; [|lia]. width.
  - rewrite DavMethodSet_iter_filter. apply list_filter_iff. intros m. by rewrite Hc.
  - intros Hne. rewrite render_join. unfold parse_allow.
    destruct (DavMethodSet_iter s) as [|m ms]; [done|]. rewrite split_names. cbn [fmap list_fmap].
    rewrite trim_name, DavMethod_name_round_trip. f_equal. rewrite <- list_fmap_compose.
    apply list_fmap_ext. intros i n _. cbn [compose].
    by rewrite trim_spaced, trim_name, DavMethod_name_round_trip.
Qed.
