(* ===== verification/DavConditional.v ===== *)
(** * WebDAV: HTTP conditional requests

    [aster_forge_webdav/src/conditional.rs]: the RFC 9110 order of
    [If-Match], [If-Unmodified-Since], [If-None-Match] and
    [If-Modified-Since], and what follows from it for range processing.
    Header values are byte lists; reading them as text, HTTP dates and single
    entity tags are the [http], [httpdate] and [headers] crates', parameters
    here.  The [If] header that comes before is in [DavIf]. *)
From S2P Require Export HttpValidators DavMethod DavPath.

(** [HeaderMap]: the field values of each name, in order. *)
Definition HeaderValue : Type := list Z.
Definition HeaderMap : Type := string → list HeaderValue.

Record DavConditionalResource : Type := mk_DavConditionalResource {
  resource_exists : bool;
  resource_etag : option str;
  resource_last_modified : option SystemTime;
}.

Definition DavConditionalResource_missing : DavConditionalResource :=
  mk_DavConditionalResource false None None.

Inductive DavConditionalOutcome : Type := Proceed | NotModified | PreconditionFailed.

#[export] Instance DavConditionalOutcome_eq_dec : EqDecision DavConditionalOutcome.
Proof. solve_decision. Defined.

Inductive DavRangeEvaluation : Type := Evaluate | Skip.

(** ** Protocol errors ([protocol.rs]) *)
Inductive DavProtocolErrorKind : Type := ProtocolBadRequest | ProtocolPreconditionFailed.

Record DavProtocolError : Type := mk_DavProtocolError {
  protocol_error_kind : DavProtocolErrorKind;
  protocol_error_status : Z;
  protocol_error_message : string;
}.

Definition DavProtocolError_bad_request (message : string) : DavProtocolError :=
  mk_DavProtocolError ProtocolBadRequest 400 message.
Definition DavProtocolError_precondition_failed : DavProtocolError :=
  mk_DavProtocolError ProtocolPreconditionFailed 412 "Precondition failed".

Inductive DavConditionalPlanError : Type :=
  | PlanProtocol (error : DavProtocolError)
  | PlanInvalidRepresentation.

(** The two validator headers of a plan. *)
Record validators : Type := mk_validators {
  header_last_modified : option HeaderValue;
  header_etag : option HeaderValue;
}.

Record DavConditionalPlan : Type := mk_DavConditionalPlan {
  plan_outcome : DavConditionalOutcome;
  plan_range : DavRangeEvaluation;
  plan_validator_headers : validators;
}.

(** The statuses that keep validators; [insert] replaces. *)
Definition keeps_validators (status : Z) : bool :=
  bool_decide (status = 200) || bool_decide (status = 206) || bool_decide (status = 304)
  || bool_decide (status = 412) || bool_decide (status = 416).

Definition DavConditionalPlan_apply_response_headers (p : DavConditionalPlan) (status : Z)
    (headers : HeaderMap) : HeaderMap :=
  if keeps_validators status then
    λ name,
      match (if decide (name = "last-modified") then header_last_modified (plan_validator_headers p)
             else if decide (name = "etag") then header_etag (plan_validator_headers p)
             else None) with
      | Some value => [value]
      | None => headers name
      end
  else headers.

Section planning.
Context {ETag : Type} (etag_decode : list Z → option ETag) (etag_parse : str → option ETag)
        (strong_match weak_match : ETag → ETag → bool)
        (to_str : HeaderValue → option str) (from_str : str → option HeaderValue)
        (parse_http_date : str → option SystemTime) (fmt_http_date : SystemTime → str).

Definition try_format_http_date (time : SystemTime) : result HttpValidatorError str :=
  _ ← validate_http_date time; Ok (fmt_http_date time).

Definition entity_tag_header_value (etag : str) : result DavConditionalPlanError HeaderValue :=
  rendered ← map_err (λ _, PlanInvalidRepresentation) (try_format_entity_tag etag_parse etag);
  ok_or (from_str rendered) PlanInvalidRepresentation.

(** [if let Ok(value) = ..]. *)
Definition ok {E A} (r : result E A) : option A :=
  match r with Ok a => Some a | Err _ => None end.

Definition validator_headers (resource : DavConditionalResource) : validators :=
  if resource_exists resource then
    mk_validators
      (last_modified ← resource_last_modified resource;
       value ← ok (try_format_http_date last_modified); from_str value)
      (etag ← resource_etag resource; ok (entity_tag_header_value etag))
  else mk_validators None None.

Definition optional_http_date (values : list HeaderValue) : option SystemTime :=
  match values with
  | [value] => raw ← to_str value; parse_http_date raw
  | _ => None
  end.

Definition plan (outcome : DavConditionalOutcome) (method : DavMethod) (headers : validators)
    : DavConditionalPlan :=
  mk_DavConditionalPlan outcome
    (if decide (outcome = Proceed ∧ method = MGet) then Evaluate else Skip) headers.

(** A tag condition, with the two errors told apart by parsing again without
    a current tag. *)
Definition tag_condition
    (headers_match : list HeaderValue → bool → option str → result HttpValidatorError (option bool))
    (values : list HeaderValue) (resource : DavConditionalResource) (message : string)
    : result DavConditionalPlanError (option bool) :=
  match headers_match values (resource_exists resource) (resource_etag resource) with
  | Ok o => Ok o
  | Err _ =>
      match headers_match values (resource_exists resource) None with
      | Err _ => Err (PlanProtocol (DavProtocolError_bad_request message))
      | Ok _ => Err PlanInvalidRepresentation
      end
  end.

(** The dates of a date condition that applies: the resource's and the
    header's, in seconds. *)
Definition date_condition (values : list HeaderValue) (resource : DavConditionalResource)
    : result DavConditionalPlanError (option (Z * Z)) :=
  match optional_http_date values, resource_exists resource, resource_last_modified resource with
  | Some since, true, Some last_modified =>
      _ ← map_err (λ _, PlanInvalidRepresentation) (validate_http_date last_modified);
      Ok (Some (http_date_epoch_seconds last_modified, http_date_epoch_seconds since))
  | _, _, _ => Ok None
  end.

Definition is_get_or_head (method : DavMethod) : bool :=
  match method with MGet | MHead => true | _ => false end.

Definition plan_http_conditionals (method : DavMethod) (headers : HeaderMap)
    (resource : DavConditionalResource) : result DavConditionalPlanError DavConditionalPlan :=
  let validator_headers := validator_headers resource in
  if_match ← tag_condition (if_match_headers_match etag_decode etag_parse strong_match)
    (headers "if-match") resource "Invalid If-Match header";
  if decide (if_match = Some false) then Ok (plan PreconditionFailed method validator_headers)
  else
    unmodified ← (if decide (if_match = None) then
        date_condition (headers "if-unmodified-since") resource else Ok None);
    if match unmodified with
       | Some (last_modified, since) => bool_decide (since < last_modified)
       | None => false
       end then Ok (plan PreconditionFailed method validator_headers)
    else
      if_none_match ← tag_condition (if_none_match_headers_match etag_decode etag_parse weak_match)
        (headers "if-none-match") resource "Invalid If-None-Match header";
      if decide (if_none_match = Some true) then
        Ok (plan (if is_get_or_head method then NotModified else PreconditionFailed) method
              validator_headers)
      else
        modified ← (if decide (if_none_match = None) then
            if is_get_or_head method then date_condition (headers "if-modified-since") resource
            else Ok None
          else Ok None);
        if match modified with
           | Some (last_modified, since) => bool_decide (last_modified ≤ since)
           | None => false
           end then Ok (plan NotModified method validator_headers)
        else Ok (plan Proceed method validator_headers).

(** ** Verification *)
Definition if_match_of (headers : HeaderMap) (resource : DavConditionalResource) :=
  if_match_headers_match etag_decode etag_parse strong_match (headers "if-match")
    (resource_exists resource) (resource_etag resource).
Definition if_none_match_of (headers : HeaderMap) (resource : DavConditionalResource) :=
  if_none_match_headers_match etag_decode etag_parse weak_match (headers "if-none-match")
    (resource_exists resource) (resource_etag resource).

(** A header is present when it has a field value. *)
Lemma combined_none values : combined_header_bytes values = None ↔ values = [].
Proof. by destruct values. Qed.

Lemma headers_match_present cm values exists_ etag o :
  headers_match etag_decode cm values exists_ etag = Ok o → o = None ↔ values = [].
Proof.
  unfold headers_match. rewrite <- combined_none.
  destruct (combined_header_bytes values) as [raw|]; [|by intros [= <-]].
  destruct (header_matches _ _ raw exists_ etag); cbn; [|done]. by intros [= <-].
Qed.

(** What a tag condition answers: nothing without the header; for [*] whether
    the resource exists; for a list of tags whether one of them matches the
    tag of the existing resource. *)
Definition tag_answer (matches : ETag → ETag → bool) (values : list HeaderValue)
    (resource : DavConditionalResource) (o : option bool) : Prop :=
  match o with
  | None => values = []
  | Some b => values ≠ [] ∧ ∃ tags, parse_etag_list etag_decode (join [44] values) = Ok tags ∧
      match tags with
      | AnyTag => b = resource_exists resource
      | Tags candidates => b = true ↔ ∃ c etag current, c ∈ candidates ∧
          resource_exists resource = true ∧ resource_etag resource = Some etag ∧
          parse_entity_tag etag_parse etag = Ok current ∧ matches (parsed_tag c) current = true
      end
  end.

Lemma combined_some values : values ≠ [] → combined_header_bytes values = Some (join [44] values).
Proof. by destruct values. Qed.

Lemma headers_match_answer matches values resource o :
  headers_match etag_decode (candidates_match etag_parse matches) values (resource_exists resource)
    (resource_etag resource) = Ok o → tag_answer matches values resource o.
Proof.
  intros H. pose proof (headers_match_present _ _ _ _ _ H) as Hp. destruct o as [b|]; [|by apply Hp].
  assert (values ≠ []) as Hne by (by intros E%Hp). split; [done|].
  unfold headers_match in H. rewrite combined_some in H by done. unfold header_matches in H.
  destruct (parse_etag_list etag_decode _) as [tags|]; cbn in H; [|done]. exists tags. split; [done|].
  destruct tags as [|candidates]; [by injection H as <-|]. unfold candidates_match in H.
  destruct (decide (candidates = [])) as [->|Hc]; cbn in H.
  { injection H as <-. split; [done|]. by intros (? & ? & ? & ?%elem_of_nil & _). }
  destruct (resource_exists resource); [|injection H as <-; naive_solver].
  destruct (resource_etag resource) as [etag|]; [|injection H as <-; naive_solver].
  destruct (parse_entity_tag etag_parse etag) as [current|] eqn:E; cbn in H; [|done].
  injection H as <-. rewrite existsb_exists. split.
  - intros (c & Hin%list_elem_of_In & Hm). by exists c, etag, current.
  - intros (c & etag' & current' & Hin & _ & [= <-] & Hcur & Hm). exists c.
    rewrite list_elem_of_In in Hin. split; [done|]. congruence.
Qed.

Lemma tag_condition_ok hm values resource message o :
  tag_condition hm values resource message = Ok o →
  hm values (resource_exists resource) (resource_etag resource) = Ok o.
Proof.
  unfold tag_condition. destruct (hm values _ _) as [o'|e]; [by intros [= ->]|].
  by destruct (hm values _ None).
Qed.

(** A tag condition that cannot be evaluated, and the error it gives: the
    header does not parse, or it names tags and the current one does not. *)
Definition tag_error (values : list HeaderValue) (resource : DavConditionalResource)
    (message : string) (e : DavConditionalPlanError) : Prop :=
  values ≠ [] ∧
  ((∃ x, parse_etag_list etag_decode (join [44] values) = Err x) ∧
     e = PlanProtocol (DavProtocolError_bad_request message) ∨
   (∃ candidates etag x, parse_etag_list etag_decode (join [44] values) = Ok (Tags candidates) ∧
      candidates ≠ [] ∧ resource_exists resource = true ∧ resource_etag resource = Some etag ∧
      parse_entity_tag etag_parse etag = Err x) ∧
     e = PlanInvalidRepresentation).

Lemma tag_condition_err matches values resource message e :
  tag_condition (headers_match etag_decode (candidates_match etag_parse matches)) values resource message = Err e →
  tag_error values resource message e.
Proof.
  unfold tag_condition, tag_error, headers_match.
  destruct (decide (values = [])) as [->|Hne]; [done|]. rewrite combined_some by done. intros H.
  split; [done|]. revert H. unfold header_matches.
  destruct (parse_etag_list etag_decode _) as [[|candidates]|x]; cbn; [done| |intros [= <-]; eauto].
  unfold candidates_match. case_decide; cbn; [done|].
  destruct (resource_exists resource); cbn; [|done].
  destruct (resource_etag resource) as [etag|]; cbn; [|done].
  destruct (parse_entity_tag etag_parse etag) as [current|x] eqn:E; cbn; [done|].
  intros [= <-]. right. split; [|done]. by exists candidates, etag, x.
Qed.

(** The date that a header gives: it has one field value, which is a date. *)
Definition header_date (values : list HeaderValue) : option SystemTime :=
  match values with
  | [value] => raw ← to_str value; parse_http_date raw
  | [] | _ :: _ :: _ => None
  end.

(** What the date header says of the resource, when it says anything:
    [Some true] when the resource was modified after the date. *)
Definition modified_after (values : list HeaderValue) (resource : DavConditionalResource) : option bool :=
  since ← header_date values;
  last_modified ← (if resource_exists resource then resource_last_modified resource else None);
  Some (bool_decide (http_date_epoch_seconds since < http_date_epoch_seconds last_modified)).

(** The header's date would be compared with one that HTTP cannot express. *)
Definition date_unrepresentable (values : list HeaderValue) (resource : DavConditionalResource) : Prop :=
  ∃ since t, header_date values = Some since ∧ resource_exists resource = true ∧
    resource_last_modified resource = Some t ∧ validate_http_date t = Err InvalidHttpDate.

Lemma header_date_optional values : optional_http_date values = header_date values.
Proof. by destruct values as [|? []]. Qed.

Lemma date_condition_ok values resource o :
  date_condition values resource = Ok o →
  modified_after values resource =
    (λ '(last_modified, since), bool_decide (since < last_modified)) <$> o ∧
  ¬ date_unrepresentable values resource.
Proof.
  unfold date_condition, modified_after, date_unrepresentable. rewrite header_date_optional.
  destruct (header_date values) as [s|]; [|intros [= <-]; naive_solver].
  destruct (resource_exists resource); [|intros [= <-]; naive_solver].
  destruct (resource_last_modified resource) as [t|]; [|intros [= <-]; naive_solver].
  destruct (validate_http_date t) eqn:E; [|done]. intros [= <-]. split; [done|].
  by intros (s0 & t0 & _ & _ & [= <-] & Ht); rewrite E in Ht.
Qed.

Lemma date_condition_err values resource e :
  date_condition values resource = Err e →
  e = PlanInvalidRepresentation ∧ date_unrepresentable values resource.
Proof.
  unfold date_condition, date_unrepresentable. rewrite header_date_optional.
  destruct (header_date values) as [s|]; [|done].
  destruct (resource_exists resource); [|done].
  destruct (resource_last_modified resource) as [t|]; [|done].
  destruct (validate_http_date t) as [u|x] eqn:E; [done|].
  assert (x = InvalidHttpDate) as -> by (unfold validate_http_date in E; repeat case_match; congruence).
  intros [= <-]. split; [done|]. by exists s, t.
Qed.

(** The validators of a plan: those of the resource that HTTP can express. *)
Definition expressible_validators (resource : DavConditionalResource) (v : validators) : Prop :=
  (∀ value, header_last_modified v = Some value ↔
     ∃ t, resource_exists resource = true ∧ resource_last_modified resource = Some t ∧
       validate_http_date t = Ok tt ∧ from_str (fmt_http_date t) = Some value) ∧
  (∀ value, header_etag v = Some value ↔
     ∃ etag rendered, resource_exists resource = true ∧ resource_etag resource = Some etag ∧
       try_format_entity_tag etag_parse etag = Ok rendered ∧ from_str rendered = Some value).

Lemma validator_headers_expressible resource : expressible_validators resource (validator_headers resource).
Proof.
  unfold validator_headers, expressible_validators. destruct (resource_exists resource); [|naive_solver].
  cbn. unfold try_format_http_date, entity_tag_header_value. split; intros value.
  - destruct (resource_last_modified resource) as [t|]; cbn; [|naive_solver].
    destruct (validate_http_date t) as [[]|] eqn:E; cbn; split; [by exists t| |done|];
      intros (t' & _ & [= <-] & Hok & Hv); congruence.
  - destruct (resource_etag resource) as [etag|]; cbn; [|naive_solver].
    destruct (try_format_entity_tag etag_parse etag) as [rendered|] eqn:E; cbn.
    + destruct (from_str rendered) eqn:E'; cbn; split; [by intros [= <-]; exists etag, rendered| |done|];
        intros (etag' & rendered' & _ & [= <-] & Hok & Hv); congruence.
    + split; [done|]. intros (etag' & rendered' & _ & [= <-] & Hok & Hv). congruence.
Qed.

(** RFC 9110, section 13.2.2: the outcome from what the conditions answer,
    [None] for one that is absent or cannot be applied.  [im] and [inm] are
    the tag comparisons, [iu] and [ims] tell whether the resource was modified
    after the date of the header. *)
Definition rfc9110 (get_or_head : bool) (im iu inm ims : option bool) : DavConditionalOutcome :=
  match im, iu with
  | Some false, _ | None, Some true => PreconditionFailed
  | _, _ =>
      match inm, ims with
      | Some true, _ => if get_or_head then NotModified else PreconditionFailed
      | None, Some false => if get_or_head then NotModified else Proceed
      | _, _ => Proceed
      end
  end.

(** [If-Match] or its date fails the precondition, so that the other
    conditions are not looked at. *)
Definition fails_first (im iu : option bool) : Prop :=
  im = Some false ∨ (im = None ∧ iu = Some true).

Definition conditional_contract (method : DavMethod) (headers : HeaderMap)
    (resource : DavConditionalResource) (p : DavConditionalPlan) : Prop :=
  let iu := modified_after (headers "if-unmodified-since") resource in
  ∃ im inm, if_match_of headers resource = Ok im ∧ tag_answer strong_match (headers "if-match") resource im ∧
    (im = None → ¬ date_unrepresentable (headers "if-unmodified-since") resource) ∧
    (fails_first im iu ∨
     if_none_match_of headers resource = Ok inm ∧ tag_answer weak_match (headers "if-none-match") resource inm ∧
     (inm = None → method = MGet ∨ method = MHead →
      ¬ date_unrepresentable (headers "if-modified-since") resource)) ∧
    plan_outcome p = rfc9110 (bool_decide (method = MGet ∨ method = MHead)) im iu inm
                       (modified_after (headers "if-modified-since") resource) ∧
    (plan_range p = Evaluate ↔ plan_outcome p = Proceed ∧ method = MGet) ∧
    plan_validator_headers p = validator_headers resource ∧
    expressible_validators resource (plan_validator_headers p).

(** The reasons for which no plan is made, in the order in which the
    conditions are evaluated: each needs that none before it decides. *)
Definition conditional_failure (method : DavMethod) (headers : HeaderMap)
    (resource : DavConditionalResource) (e : DavConditionalPlanError) : Prop :=
  tag_error (headers "if-match") resource "Invalid If-Match header" e ∨
  ∃ im, if_match_of headers resource = Ok im ∧
    (im = None ∧ date_unrepresentable (headers "if-unmodified-since") resource ∧
       e = PlanInvalidRepresentation ∨
     ¬ fails_first im (modified_after (headers "if-unmodified-since") resource) ∧
     (im = None → ¬ date_unrepresentable (headers "if-unmodified-since") resource) ∧
     (tag_error (headers "if-none-match") resource "Invalid If-None-Match header" e ∨
      if_none_match_of headers resource = Ok None ∧ (method = MGet ∨ method = MHead) ∧
      date_unrepresentable (headers "if-modified-since") resource ∧ e = PlanInvalidRepresentation)).

Lemma plan_range_evaluate outcome method headers :
  plan_range (plan outcome method headers) = Evaluate ↔ outcome = Proceed ∧ method = MGet.
Proof. cbn. by case_decide. Qed.

Lemma plan_contract_intro outcome method headers resource im inm :
  if_match_of headers resource = Ok im →
  (im = None → ¬ date_unrepresentable (headers "if-unmodified-since") resource) →
  fails_first im (modified_after (headers "if-unmodified-since") resource) ∨
    if_none_match_of headers resource = Ok inm ∧
    (inm = None → method = MGet ∨ method = MHead →
     ¬ date_unrepresentable (headers "if-modified-since") resource) →
  outcome = rfc9110 (bool_decide (method = MGet ∨ method = MHead)) im
    (modified_after (headers "if-unmodified-since") resource) inm
    (modified_after (headers "if-modified-since") resource) →
  conditional_contract method headers resource (plan outcome method (validator_headers resource)).
Proof.
  intros Him Hiu Hinm Ho. exists im, inm. split; [done|].
  split; [by apply headers_match_answer|]. split; [done|].
  split; [|split; [done|split; [apply plan_range_evaluate|split; [done|apply validator_headers_expressible]]]].
  destruct Hinm as [|[Hinm Hims]]; [by left|right]. split; [done|].
  split; [by apply headers_match_answer|done].
Qed.

Lemma get_or_head_spec method :
  is_get_or_head method = bool_decide (method = MGet ∨ method = MHead).
Proof. symmetry. destruct method; cbn; (by apply bool_decide_eq_true; auto) || by apply bool_decide_eq_false; intros [|]. Qed.

Lemma rfc9110_first g im iu inm ims : fails_first im iu → rfc9110 g im iu inm ims = PreconditionFailed.
Proof. by intros [->|[-> ->]]. Qed.

Lemma rfc9110_then g im iu inm ims :
  ¬ fails_first im iu → rfc9110 g im iu inm ims = rfc9110 g None None inm ims.
Proof. unfold fails_first. destruct im as [[]|], iu as [[]|]; naive_solver. Qed.

Lemma get_or_head_true method : is_get_or_head method = true ↔ method = MGet ∨ method = MHead.
Proof. rewrite get_or_head_spec. apply bool_decide_eq_true. Qed.

(** Each date condition, evaluated or skipped, against the table. *)
Lemma unmodified_fails headers resource im um :
  (if decide (im = None) then date_condition (headers "if-unmodified-since") resource else Ok None) = Ok um →
  (match um with
   | Some (last_modified, since) => bool_decide (since < last_modified)
   | None => false
   end = true ∨ im = Some false ↔
   fails_first im (modified_after (headers "if-unmodified-since") resource)) ∧
  (im = None → ¬ date_unrepresentable (headers "if-unmodified-since") resource).
Proof.
  intros Eum. unfold fails_first. case_decide.
  - apply date_condition_ok in Eum as [Eum Hrep]. split; [|done].
    rewrite Eum. destruct um as [[lm s]|]; cbn; [|naive_solver].
    split; [intros [->|?]; [auto|congruence]|]. intros [?|[_ [= ->]]]; [congruence|auto].
  - injection Eum as <-. naive_solver.
Qed.

Lemma modified_outcome method headers resource inm mo :
  inm ≠ Some true →
  (if decide (inm = None) then
     if is_get_or_head method then date_condition (headers "if-modified-since") resource else Ok None
   else Ok None) = Ok mo →
  rfc9110 (bool_decide (method = MGet ∨ method = MHead)) None None inm
    (modified_after (headers "if-modified-since") resource) =
  (if match mo with
     | Some (last_modified, since) => bool_decide (last_modified ≤ since)
     | None => false
     end then NotModified else Proceed) ∧
  (inm = None → method = MGet ∨ method = MHead →
   ¬ date_unrepresentable (headers "if-modified-since") resource).
Proof.
  rewrite <- get_or_head_spec, <- get_or_head_true. intros Hinm Emo. case_decide as Hnone.
  - subst inm. destruct (is_get_or_head method).
    + apply date_condition_ok in Emo as [Emo Hrep]. split; [|done].
      rewrite Emo. destruct mo as [[lm s]|]; cbn; [|done].
      repeat case_bool_decide; try done; lia.
    + injection Emo as <-. cbn. split; [by destruct (modified_after _ _) as [[]|]|done].
  - injection Emo as <-. split; [by destruct inm as [[]|]|done].
Qed.

(** The conditions from [If-None-Match] on, when the first two let pass. *)
Lemma later_conditions method headers resource im (r : result DavConditionalPlanError DavConditionalPlan) :
  let iu := modified_after (headers "if-unmodified-since") resource in
  if_match_of headers resource = Ok im → ¬ fails_first im iu →
  (im = None → ¬ date_unrepresentable (headers "if-unmodified-since") resource) →
  r = (if_none_match ← tag_condition (if_none_match_headers_match etag_decode etag_parse weak_match)
         (headers "if-none-match") resource "Invalid If-None-Match header";
       if decide (if_none_match = Some true) then
         Ok (plan (if is_get_or_head method then NotModified else PreconditionFailed) method
               (validator_headers resource))
       else
         modified ← (if decide (if_none_match = None) then
             if is_get_or_head method then date_condition (headers "if-modified-since") resource
             else Ok None
           else Ok None);
         if match modified with
            | Some (last_modified, since) => bool_decide (last_modified ≤ since)
            | None => false
            end then Ok (plan NotModified method (validator_headers resource))
         else Ok (plan Proceed method (validator_headers resource))) →
  match r with
  | Ok p => conditional_contract method headers resource p
  | Err e => conditional_failure method headers resource e
  end.
Proof.
  intros iu Him Hnf Hiu ->.
  destruct (tag_condition _ (headers "if-none-match") _ _) as [inm|e] eqn:Einm; cbn [mbind result_bind].
  2:{ right. exists im. split; [done|]. right. do 2 (split; [done|]). left. by eapply tag_condition_err. }
  apply tag_condition_ok in Einm. fold (if_none_match_of headers resource) in Einm.
  destruct (decide (inm = Some true)) as [->|Hinm].
  { apply (plan_contract_intro _ _ _ _ im (Some true)); [done|done|by right|].
    by rewrite rfc9110_then, get_or_head_spec. }
  destruct (if decide (inm = None) then _ else Ok None) as [mo|e] eqn:Emo; cbn [mbind result_bind].
  2:{ right. exists im. split; [done|]. right. do 2 (split; [done|]). right.
      case_decide; [subst inm|done]. destruct (is_get_or_head method) eqn:Hg; [|done].
      apply get_or_head_true in Hg. by apply date_condition_err in Emo as [-> Ht]. }
  apply modified_outcome in Emo as [Emo Hims]; [|done]. rewrite <- (rfc9110_then _ im _ _ _ Hnf) in Emo.
  destruct (match mo with Some _ => _ | None => _ end);
    by apply (plan_contract_intro _ _ _ _ im inm); [| |right|].
Qed.

Lemma plan_meets_contract method headers resource :
  match plan_http_conditionals method headers resource with
  | Ok p => conditional_contract method headers resource p
  | Err e => conditional_failure method headers resource e
  end.
Proof.
  unfold plan_http_conditionals.
  destruct (tag_condition _ (headers "if-match") _ _) as [im|e] eqn:Eim; cbn [mbind result_bind].
  2:{ left. by eapply tag_condition_err. }
  apply tag_condition_ok in Eim. fold (if_match_of headers resource) in Eim.
  destruct (decide (im = Some false)) as [->|Him].
  { by apply (plan_contract_intro _ _ _ _ (Some false) None); [| |by left; left|]. }
  destruct (if decide (im = None) then _ else Ok None) as [um|e] eqn:Eum; cbn [mbind result_bind].
  2:{ right. exists im. split; [done|]. left. case_decide; [|done].
      by apply date_condition_err in Eum as [-> Ht]. }
  apply unmodified_fails in Eum as [Eum Hiu].
  destruct (match um with Some _ => _ | None => _ end).
  { assert (fails_first im (modified_after (headers "if-unmodified-since") resource))
      by (apply Eum; auto).
    apply (plan_contract_intro _ _ _ _ im None); [done|done|by left|by rewrite rfc9110_first]. }
  apply (later_conditions _ _ _ im); [done| |done|done].
  intros Hf. apply Eum in Hf as []; done.
Qed.

(** C34. The planner evaluates conditions in the order of RFC 9110: the
    outcome of every plan is the one of the table [rfc9110] on what [If-Match],
    [If-Unmodified-Since], [If-None-Match] and [If-Modified-Since] answer for
    the resource: a tag header answers when it is present, [*] with whether the
    resource exists and a list with whether a tag of it matches the current
    one.  Ranges are looked at exactly for a GET that proceeds, and the plan
    carries the validators of the resource that HTTP can express.  No plan is
    made exactly for the first condition that is reached and cannot be
    evaluated: a tag header that does not parse, reported as a bad request that
    names it, a current tag that does not parse and would be compared, or,
    where a date header applies, a modification time that HTTP cannot express.  A later condition is not even
    parsed when an earlier one fails, and a suppressed date header has no
    influence, errors included. *)
Theorem conditional_precedence method headers resource :
  match plan_http_conditionals method headers resource with
  | Ok p => conditional_contract method headers resource p
  | Err e => conditional_failure method headers resource e
  end ∧
  (∀ headers', (∀ name, name ≠ "if-unmodified-since" → headers' name = headers name) →
     headers "if-match" ≠ [] →
     plan_http_conditionals method headers' resource = plan_http_conditionals method headers resource) ∧
  (∀ headers', (∀ name, name ≠ "if-modified-since" → headers' name = headers name) →
     headers "if-none-match" ≠ [] ∨ (method ≠ MGet ∧ method ≠ MHead) →
     plan_http_conditionals method headers' resource = plan_http_conditionals method headers resource).
Proof.
  split; [apply plan_meets_contract|split].
  - intros headers' Heq Hne. unfold plan_http_conditionals. rewrite (Heq "if-match") by done.
    rewrite (Heq "if-none-match"), (Heq "if-modified-since") by done.
    destruct (tag_condition _ (headers "if-match") _ _) as [im|e] eqn:Eim; cbn [mbind result_bind]; [|done].
    apply tag_condition_ok, headers_match_present in Eim. rewrite !(decide_False (P := im = None)) by tauto.
    done.
  - intros headers' Heq Hne. unfold plan_http_conditionals. rewrite (Heq "if-match") by done.
    rewrite (Heq "if-none-match"), (Heq "if-unmodified-since") by done.
    destruct (tag_condition _ (headers "if-match") _ _) as [im|e]; cbn [mbind result_bind]; [|done].
    case_decide; [done|]. destruct (if decide (im = None) then _ else _) as [um|e]; cbn [mbind result_bind]; [|done].
    destruct (match um with Some _ => _ | None => _ end); [done|].
    destruct (tag_condition _ (headers "if-none-match") _ _) as [inm|e] eqn:Einm; cbn [mbind result_bind]; [|done].
    case_decide; [done|]. apply tag_condition_ok, headers_match_present in Einm.
    destruct Hne as [Hne|Hne].
    + by rewrite !(decide_False (P := inm = None)) by tauto.
    + assert (is_get_or_head method = false) as ->
        by (rewrite get_or_head_spec; apply bool_decide_eq_false; tauto). done.
Qed.
End planning.
