(* ===== verification/DavIf.v ===== *)
(** * WebDAV: protocol headers

    [aster_forge_webdav/src/protocol.rs] and the request head of
    [request.rs]: [Depth], [Overwrite], [Destination], [Timeout] and
    [Lock-Token], the parser of the [If] header, its evaluation against
    resource states, and the lock tokens it submits.  URIs and authorities
    are parsed by the [http] crate, percent coding is the
    [percent_encoding] crate's; both are parameters. *)
From S2P Require Export DavConditional.

Inductive Depth : Type := DepthZero | DepthOne | DepthInfinity.

#[export] Instance Depth_eq_dec : EqDecision Depth.
Proof. solve_decision. Defined.

Definition Depth_is_infinity (d : Depth) : bool :=
  match d with DepthInfinity => true | _ => false end.

Record Destination : Type := mk_Destination {
  destination_path : DavPath;
  destination_relative : str;
}.

Inductive IfStateCondition : Type :=
  | Token (value : str) (negated : bool)
  | Etag (value : str) (negated : bool).

Record IfStateList : Type := mk_IfStateList { conditions : list IfStateCondition }.

Record IfResourceGroup : Type := mk_IfResourceGroup {
  tagged_path : option str;
  group_lists : list IfStateList;
}.

Record IfHeader : Type := mk_IfHeader { groups : list IfResourceGroup }.

Record DavIfResourceState : Type := mk_DavIfResourceState {
  state_etag : option str;
  state_lock_tokens : list str;
}.

Definition DavIfResourceState_default : DavIfResourceState := mk_DavIfResourceState None [].

Inductive DavIfEvaluationError : Type :=
  | IfProtocol (error : DavProtocolError)
  | IfBackend (error : DavBackendError).

(** [http::Uri] and [http::uri::Authority], by their accessors. *)
Record Authority : Type := mk_Authority {
  authority_as_str : str;
  authority_host : str;
  authority_port_u16 : option Z;
}.

Record Uri : Type := mk_Uri {
  uri_scheme_str : option str;
  uri_authority : option Authority;
  uri_path : str;
}.

(** ** The [If] header parser

    The parser's position is the text that is left.  [None] is out of fuel. *)
Definition invalid_if : DavProtocolError := DavProtocolError_bad_request "Invalid If header".

Definition is_linear_whitespace (c : char) : bool :=
  bool_decide (c = 32) || bool_decide (c = 9) || bool_decide (c = 13) || bool_decide (c = 10).

Definition skip_linear_whitespace : str → str := trim_start_matches is_linear_whitespace.

Definition angle_open : char := 60.
Definition angle_close : char := 62.
Definition bracket_open : char := 91.
Definition bracket_close : char := 93.
Definition paren_open : char := 40.
Definition paren_close : char := 41.

Definition expect_char (expected : char) (s : str) : result DavProtocolError str :=
  ok_or (strip_prefix [expected] s) invalid_if.

Definition parse_delimited (opening closing : char) (s : str)
    : result DavProtocolError (str * str) :=
  s ← expect_char opening s;
  '(value, rest) ← ok_or (split_once closing s) invalid_if;
  let value := trim value in
  if decide (value = []) then Err invalid_if else Ok (value, rest).

Definition parse_angle_value : str → result DavProtocolError (str * str) :=
  parse_delimited angle_open angle_close.
Definition parse_bracket_value : str → result DavProtocolError (str * str) :=
  parse_delimited bracket_open bracket_close.

Definition is_ascii_whitespace (c : char) : bool :=
  bool_decide (c = 32) || bool_decide (c = 9) || bool_decide (c = 10) || bool_decide (c = 12)
  || bool_decide (c = 13).

Definition consume_not (s : str) : bool * str :=
  if negb (eq_ignore_ascii_case (take 3 s) (lit "not")) then (false, s)
  else
    match head (drop 3 s) with
    | Some c =>
        if negb (is_ascii_whitespace c) && negb (bool_decide (c = angle_open))
           && negb (bool_decide (c = bracket_open))
        then (false, s) else (true, drop 3 s)
    | None => (true, drop 3 s)
    end.

(** [trim_matches] of angle brackets. *)
Definition is_angle (c : char) : bool :=
  bool_decide (c = angle_open) || bool_decide (c = angle_close).

Definition normalize_lock_token (value : str) : str :=
  trim_end_matches is_angle (trim_start_matches is_angle (trim value)).

Definition parse_condition (s : str) : result DavProtocolError (IfStateCondition * str) :=
  let '(negated, s) := consume_not s in
  let s := skip_linear_whitespace s in
  match head s with
  | Some c =>
      if decide (c = angle_open) then
        '(value, s) ← parse_angle_value s; Ok (Token (normalize_lock_token value) negated, s)
      else if decide (c = bracket_open) then
        '(value, s) ← parse_bracket_value s; Ok (Etag value negated, s)
      else Err invalid_if
  | None => Err invalid_if
  end.

(** The loop inside the parentheses. *)
Fixpoint parse_conditions (fuel : nat) (s : str) (acc : list IfStateCondition)
    : option (result DavProtocolError (list IfStateCondition * str)) :=
  match fuel with
  | O => None
  | S fuel =>
      match skip_linear_whitespace s with
      | [] => Some (Err invalid_if)
      | c :: rest =>
          if decide (c = paren_close) then Some (Ok (acc, rest))
          else match parse_condition (c :: rest) with
            | Ok (condition, s) => parse_conditions fuel s (acc ++ [condition])
            | Err e => Some (Err e)
            end
      end
  end.

Definition parse_state_list (s : str) : option (result DavProtocolError (IfStateList * str)) :=
  match expect_char paren_open s with
  | Err e => Some (Err e)
  | Ok s =>
      match parse_conditions (S (length s)) s [] with
      | Some (Ok (conditions, s)) =>
          Some (if decide (conditions = []) then Err invalid_if
                else Ok (mk_IfStateList conditions, s))
      | Some (Err e) => Some (Err e)
      | None => None
      end
  end.

(** The lists after a resource tag. *)
Fixpoint parse_tagged_lists (fuel : nat) (s : str) (acc : list IfStateList)
    : option (result DavProtocolError (list IfStateList * str)) :=
  match fuel with
  | O => None
  | S fuel =>
      let s := skip_linear_whitespace s in
      if decide (head s = Some paren_open) then
        match parse_state_list s with
        | Some (Ok (l, s)) => parse_tagged_lists fuel s (acc ++ [l])
        | Some (Err e) => Some (Err e)
        | None => None
        end
      else Some (Ok (acc, s))
  end.

(** The tagged production. *)
Fixpoint parse_tagged_groups (fuel : nat) (s : str) (acc : list IfResourceGroup)
    : option (result DavProtocolError (list IfResourceGroup)) :=
  match fuel with
  | O => None
  | S fuel =>
      if decide (s = []) then Some (Ok acc)
      else match parse_angle_value s with
        | Err e => Some (Err e)
        | Ok (tag, s) =>
            match parse_tagged_lists (S (length s)) s [] with
            | None => None
            | Some (Err e) => Some (Err e)
            | Some (Ok (lists, s)) =>
                if decide (lists = []) then Some (Err invalid_if)
                else
                  let acc := acc ++ [mk_IfResourceGroup (Some tag) lists] in
                  let s := skip_linear_whitespace s in
                  if decide (s = []) then Some (Ok acc)
                  else if decide (head s = Some angle_open) then parse_tagged_groups fuel s acc
                  else Some (Err invalid_if)
            end
        end
  end.

(** The untagged production. *)
Fixpoint parse_untagged_lists (fuel : nat) (s : str) (acc : list IfStateList)
    : option (result DavProtocolError (list IfStateList)) :=
  match fuel with
  | O => None
  | S fuel =>
      if decide (s = []) then Some (Ok acc)
      else match parse_state_list s with
        | None => None
        | Some (Err e) => Some (Err e)
        | Some (Ok (l, s)) =>
            let s := skip_linear_whitespace s in
            if decide (head s = Some angle_open) then Some (Err invalid_if)
            else parse_untagged_lists fuel s (acc ++ [l])
        end
  end.

Definition IfHeaderParser_parse (input : str) : option (result DavProtocolError IfHeader) :=
  let s := skip_linear_whitespace input in
  if decide (s = []) then Some (Err invalid_if)
  else if decide (head s = Some angle_open) then
    match parse_tagged_groups (S (length s)) s [] with
    | Some r => Some (mk_IfHeader <$> r)
    | None => None
    end
  else
    match parse_untagged_lists (S (length s)) s [] with
    | Some r => Some (mk_IfHeader ∘ (λ lists, [mk_IfResourceGroup None lists]) <$> r)
    | None => None
    end.

Example parse_if_example :
  IfHeaderParser_parse (lit "</a> (<t1> Not [e]) (<t2>) </b>(not<t3>)") =
  Some (Ok (mk_IfHeader
    [mk_IfResourceGroup (Some (lit "/a"))
       [mk_IfStateList [Token (lit "t1") false; Etag (lit "e") true];
        mk_IfStateList [Token (lit "t2") false]];
     mk_IfResourceGroup (Some (lit "/b")) [mk_IfStateList [Token (lit "t3") true]]])).
Proof. vm_compute. reflexivity. Qed.

(** ** Other headers *)
Definition strip_mount_prefix (path prefix : str) : option str :=
  rest ← strip_prefix prefix path;
  if decide (prefix = [slash] ∨ path = prefix ∨ head rest = Some slash) then Some rest else None.

Definition effective_port (scheme : str) (authority : Authority) : option Z :=
  match authority_port_u16 authority with
  | Some port => Some port
  | None =>
      if eq_ignore_ascii_case scheme (lit "http") then Some 80
      else if eq_ignore_ascii_case scheme (lit "https") then Some 443 else None
  end.

Section protocol.
Context {ETag : Type} (etag_decode : list Z → option ETag) (etag_parse : str → option ETag)
        (weak_match : ETag → ETag → bool)
        (to_str : HeaderValue → option str)
        (parse_uri : str → option Uri) (parse_authority : str → option Authority)
        (percent_decode : str → option str) (percent_encode : str → str).

Definition bad_request {A} (message : string) : result DavProtocolError A :=
  Err (DavProtocolError_bad_request message).

Definition header_text (values : list HeaderValue) (message : string)
    : result DavProtocolError (option str) :=
  match values with
  | [] => Ok None
  | value :: _ => Some <$> ok_or (to_str value) (DavProtocolError_bad_request message)
  end.

Definition parse_depth_header (headers : HeaderMap) : result DavProtocolError (option Depth) :=
  value ← header_text (headers "depth") "Invalid Depth header";
  match value with
  | None => Ok None
  | Some value =>
      if eq_ignore_ascii_case value (lit "0") then Ok (Some DepthZero)
      else if eq_ignore_ascii_case value (lit "1") then Ok (Some DepthOne)
      else if eq_ignore_ascii_case value (lit "infinity") then Ok (Some DepthInfinity)
      else bad_request "Invalid Depth header"
  end.

Definition parse_propfind_depth (headers : HeaderMap) : result DavProtocolError Depth :=
  depth ← parse_depth_header headers;
  Ok match depth with
    | Some DepthZero => DepthZero
    | Some DepthOne => DepthOne
    | Some DepthInfinity | None => DepthInfinity
    end.

Definition parse_copy_depth (headers : HeaderMap) : result DavProtocolError Depth :=
  depth ← parse_depth_header headers;
  match depth with
  | Some DepthZero => Ok DepthZero
  | Some DepthInfinity | None => Ok DepthInfinity
  | Some DepthOne => bad_request "Invalid Depth header"
  end.

Definition parse_move_depth (headers : HeaderMap) : result DavProtocolError Depth :=
  depth ← parse_depth_header headers; Ok (default DepthInfinity depth).

Definition parse_delete_depth (headers : HeaderMap) : result DavProtocolError Depth :=
  depth ← parse_depth_header headers; Ok (default DepthInfinity depth).

Definition parse_lock_depth (headers : HeaderMap) : result DavProtocolError Depth :=
  depth ← parse_depth_header headers;
  match depth with
  | None | Some DepthInfinity => Ok DepthInfinity
  | Some DepthZero => Ok DepthZero
  | Some DepthOne => bad_request "Invalid Depth header"
  end.

Definition parse_overwrite (headers : HeaderMap) : result DavProtocolError bool :=
  value ← header_text (headers "overwrite") "Invalid Overwrite header";
  match value with
  | None => Ok true
  | Some value =>
      let value := trim value in
      if eq_ignore_ascii_case value (lit "T") then Ok true
      else if eq_ignore_ascii_case value (lit "F") then Ok false
      else bad_request "Invalid Overwrite header"
  end.

Definition origin_authority_matches (uri_scheme : str) (uri_authority : Authority)
    (request_scheme request_host : str) : bool :=
  if negb (eq_ignore_ascii_case uri_scheme request_scheme) then false
  else match parse_authority request_host with
    | None => false
    | Some request_authority =>
        if bool_decide (64 ∈ authority_as_str uri_authority)
           || bool_decide (64 ∈ authority_as_str request_authority) then false
        else
          eq_ignore_ascii_case (authority_host uri_authority) (authority_host request_authority)
          && bool_decide (effective_port uri_scheme uri_authority =
                          effective_port request_scheme request_authority)
    end.

Definition destination_relative_path (headers : HeaderMap) (prefix request_scheme request_host : str)
    : result DavProtocolError Destination :=
  value ← header_text (headers "destination") "Invalid Destination header";
  raw ← ok_or (trim <$> value) (DavProtocolError_bad_request "Missing Destination header");
  uri ← ok_or (parse_uri raw) (DavProtocolError_bad_request "Invalid Destination header");
  _ ← match uri_scheme_str uri, uri_authority uri with
      | Some scheme, Some authority =>
          if origin_authority_matches scheme authority request_scheme request_host then Ok tt
          else bad_request "Destination must stay on this WebDAV server"
      | None, None =>
          if starts_with slash raw then Ok tt else bad_request "Invalid Destination header"
      | _, _ => bad_request "Invalid Destination header"
      end;
  relative ← ok_or (strip_mount_prefix (uri_path uri) prefix)
    (DavProtocolError_bad_request "Destination must stay under WebDAV prefix");
  path ← map_err (λ _, DavProtocolError_bad_request "Invalid Destination header")
    (DavPath_new percent_decode relative);
  Ok (mk_Destination path (DavPath_as_str path)).

(** The fuel of the parser is enough: see [parse_if_total]. *)
Definition parse_if_header (headers : HeaderMap) : result DavProtocolError (option IfHeader) :=
  value ← header_text (headers "if") "Invalid If header";
  match value with
  | None => Ok None
  | Some raw => Some <$> default (Err invalid_if) (IfHeaderParser_parse raw)
  end.

Definition parse_lock_timeout_candidate (maximum : Z) (candidate : str) : option Z :=
  if eq_ignore_ascii_case candidate (lit "Infinite") then Some maximum
  else
    seconds ← strip_prefix (lit "Second-") candidate;
    seconds ← parse_u64 seconds;
    Some (Z.min (seconds * 1000000000) maximum).

(** The loop over the candidates; a [Duration] is in nanoseconds. *)
Fixpoint first_timeout (maximum : Z) (candidates : list str) : result DavProtocolError Z :=
  match candidates with
  | [] => bad_request "Invalid Timeout header"
  | candidate :: candidates =>
      match parse_lock_timeout_candidate maximum candidate with
      | Some timeout => Ok timeout
      | None => first_timeout maximum candidates
      end
  end.

Definition parse_lock_timeout (headers : HeaderMap) (maximum : Z) : result DavProtocolError Z :=
  value ← header_text (headers "timeout") "Invalid Timeout header";
  match value with
  | None => Ok maximum
  | Some raw => first_timeout maximum (filter (λ s, s ≠ []) (trim <$> split 44 raw))
  end.

Definition strip_suffix_char (c : char) (s : str) : option str :=
  if ends_with c s then Some (removelast s) else None.

Definition parse_lock_token_header (headers : HeaderMap) : result DavProtocolError str :=
  value ← header_text (headers "lock-token") "Invalid Lock-Token header";
  raw ← ok_or (trim <$> value) (DavProtocolError_bad_request "Missing Lock-Token header");
  ok_or (token ← strip_prefix [angle_open] raw;
         token ← strip_suffix_char angle_close token;
         if decide (token ≠ [] ∧ (angle_open ∉ token) ∧ angle_close ∉ token) then Some token
         else None)
    (DavProtocolError_bad_request "Invalid Lock-Token header").

(** ** Evaluation of [If] *)
Definition evaluate_condition (state : DavIfResourceState) (c : IfStateCondition) : bool :=
  match c with
  | Token value negated => xorb (bool_decide (value ∈ state_lock_tokens state)) negated
  | Etag value negated =>
      xorb match state_etag state with
           | Some etag =>
               match if_none_match_header_matches etag_decode etag_parse weak_match
                       value true (Some etag) with
               | Ok b => b
               | Err _ => false
               end
           | None => false
           end negated
  end.

Definition evaluate_if_state_list (l : IfStateList) (state : DavIfResourceState) : bool :=
  forallb (evaluate_condition state) (conditions l).

Definition tagged_dav_path (prefix tag request_scheme request_host : str)
    : result DavProtocolError (option DavPath) :=
  uri ← ok_or (parse_uri tag) invalid_if;
  path ← match uri_scheme_str uri, uri_authority uri with
         | Some scheme, Some authority =>
             Ok (if origin_authority_matches scheme authority request_scheme request_host
                 then Some (uri_path uri) else None)
         | None, None => Ok (Some (uri_path uri))
         | _, _ => Err invalid_if
         end;
  match path with
  | None => Ok None
  | Some path =>
      if negb (starts_with slash path) then Err invalid_if
      else match strip_mount_prefix path prefix with
        | None => Ok None
        | Some relative => Some <$> map_err (λ _, invalid_if) (DavPath_new percent_decode relative)
        end
  end.

Section evaluation.
(** [DavIfStateResolver::resolve_if_state], on the world it reads. *)
Context {W : Type} (resolve_if_state : DavPath → W → result DavBackendError DavIfResourceState * W).

Fixpoint enforce_groups (groups : list IfResourceGroup) (request_path : DavPath)
    (prefix request_scheme request_host : str) (w : W)
    : result DavIfEvaluationError unit * W :=
  match groups with
  | [] => (Err (IfProtocol DavProtocolError_precondition_failed), w)
  | group :: groups =>
      match (match tagged_path group with
             | Some tag => tagged_dav_path prefix tag request_scheme request_host
             | None => Ok (Some request_path)
             end) with
      | Err e => (Err (IfProtocol e), w)
      | Ok path =>
          match (match path with
                 | Some path => resolve_if_state path w
                 | None => (Ok DavIfResourceState_default, w)
                 end) with
          | (Err e, w) => (Err (IfBackend e), w)
          | (Ok state, w) =>
              if existsb (λ l, evaluate_if_state_list l state) (group_lists group) then (Ok tt, w)
              else enforce_groups groups request_path prefix request_scheme request_host w
          end
      end
  end.

Definition enforce_if_header (if_header : option IfHeader) (request_path : DavPath)
    (prefix request_scheme request_host : str) (w : W) : result DavIfEvaluationError unit * W :=
  match if_header with
  | None => (Ok tt, w)
  | Some h => enforce_groups (groups h) request_path prefix request_scheme request_host w
  end.
End evaluation.

(** ** Submitted lock tokens *)
Definition path_equivalent (left_ right_ : str) : bool :=
  if decide (left_ = right_) then true
  else match percent_decode left_, percent_decode right_ with
    | Some l, Some r => bool_decide (l = r)
    | Some l, None => bool_decide (l = right_)
    | None, Some r => bool_decide (left_ = r)
    | None, None => false
    end.

Definition if_tag_matches_path (tag request_path request_scheme request_host : str) : bool :=
  if path_equivalent tag request_path then true
  else match parse_uri tag with
    | None => false
    | Some uri =>
        match uri_scheme_str uri, uri_authority uri with
        | Some scheme, Some authority =>
            origin_authority_matches scheme authority request_scheme request_host
            && path_equivalent (uri_path uri) request_path
        | None, None => path_equivalent (uri_path uri) request_path
        | _, _ => false
        end
    end.

Definition condition_token (include_negated : bool) (c : IfStateCondition) : option str :=
  match c with
  | Token value negated => if include_negated || negb negated then Some value else None
  | Etag _ _ => None
  end.

Definition group_applies (request_path request_scheme request_host : str)
    (group : IfResourceGroup) : bool :=
  match tagged_path group with
  | None => true
  | Some tag => if_tag_matches_path tag request_path request_scheme request_host
  end.

Definition submitted_lock_tokens_matching_path (if_header : IfHeader)
    (request_path request_scheme request_host : str) (include_negated : bool) : list str :=
  dedup (sort_strs
    (filter (λ g, group_applies request_path request_scheme request_host g = true) (groups if_header)
       ≫= λ g, group_lists g ≫= λ l, omap (condition_token include_negated) (conditions l))).

Definition submitted_lock_tokens (if_header : IfHeader)
    (request_path request_scheme request_host : str) : list str :=
  submitted_lock_tokens_matching_path if_header request_path request_scheme request_host true.

Definition submitted_mutation_lock_tokens (if_header : IfHeader)
    (request_path request_scheme request_host : str) : list str :=
  submitted_lock_tokens_matching_path if_header request_path request_scheme request_host false.

Definition submitted_lock_tokens_for_path (headers : HeaderMap)
    (request_path request_scheme request_host : str) : list str :=
  match parse_if_header headers with
  | Ok (Some h) => submitted_lock_tokens h request_path request_scheme request_host
  | _ => []
  end.

(** ** Request heads ([request.rs]) *)
Record DavRequestOrigin : Type := mk_DavRequestOrigin {
  origin_scheme : str;
  origin_host : str;
}.

Record DavRequestTarget : Type := mk_DavRequestTarget {
  request_target : DavPath;
  request_origin : DavRequestOrigin;
  request_mount_path : str;
}.

Record DavRequestHead : Type := mk_DavRequestHead {
  head_method : DavMethod;
  head_target : DavPath;
  head_origin : DavRequestOrigin;
  head_depth : option Depth;
  head_overwrite : option bool;
  head_destination : option Destination;
  head_if_header : option IfHeader;
}.

Definition DavRequestHead_parse_target (uri : Uri) (mount_path : str) (origin : DavRequestOrigin)
    : result DavProtocolError DavRequestTarget :=
  relative ← ok_or (strip_mount_prefix (uri_path uri) mount_path)
    (DavProtocolError_bad_request "Request target must stay under WebDAV prefix");
  target ← map_err (λ _, DavProtocolError_bad_request "Invalid request path")
    (DavPath_new percent_decode relative);
  Ok (mk_DavRequestTarget target origin mount_path).

Definition DavRequestHead_parse_known_method (method : DavMethod) (t : DavRequestTarget)
    (headers : HeaderMap) : result DavProtocolError DavRequestHead :=
  depth ← match method with
    | MPropfind => Some <$> parse_propfind_depth headers
    | MCopy => Some <$> parse_copy_depth headers
    | MMove => Some <$> parse_move_depth headers
    | MDelete => Some <$> parse_delete_depth headers
    | MLock => Some <$> parse_lock_depth headers
    | _ => Ok None
    end;
  '(overwrite, destination) ← match method with
    | MCopy | MMove =>
        overwrite ← parse_overwrite headers;
        destination ← destination_relative_path headers (request_mount_path t)
          (origin_scheme (request_origin t)) (origin_host (request_origin t));
        Ok (Some overwrite, Some destination)
    | _ => Ok (None, None)
    end;
  if_header ← parse_if_header headers;
  Ok (mk_DavRequestHead method (request_target t) (request_origin t) depth overwrite destination
        if_header).
End protocol.

(** ** Verification *)

(** *** The parser ends *)
Ltac count_chars := unfold skip_linear_whitespace, str, char in *; lia.

Lemma skip_length s : (length (skip_linear_whitespace s) ≤ length s)%nat.
Proof. apply trim_start_matches_length. Qed.

Lemma split_once_length sep s a b : split_once sep s = Some (a, b) → (length b < length s)%nat.
Proof. intros [-> _]%split_once_some. rewrite length_app. cbn. lia. Qed.

Lemma parse_delimited_shorter opening closing s value rest :
  parse_delimited opening closing s = Ok (value, rest) → (length rest < length s)%nat.
Proof.
  unfold parse_delimited, expect_char. intros (s1 & Hs & H)%result_bind_ok.
  apply result_bind_ok in H as ([v r] & Hv & H). apply ok_or_ok in Hs, Hv.
  apply strip_one_length in Hs. apply split_once_length in Hv.
  case_decide; [done|]. injection H as _ <-. count_chars.
Qed.

Lemma consume_not_length s : (length (consume_not s).2 ≤ length s)%nat.
Proof.
  unfold consume_not. destruct (negb _); [done|].
  destruct (head (drop 3 s)); [destruct (_ && _); [done|]|]; cbn; rewrite length_drop; lia.
Qed.

Lemma parse_condition_shorter s c rest :
  parse_condition s = Ok (c, rest) → (length rest < length s)%nat.
Proof.
  unfold parse_condition. pose proof (consume_not_length s) as Hn.
  destruct (consume_not s) as [negated s1]. cbn in Hn. pose proof (skip_length s1) as Hs.
  destruct (head (skip_linear_whitespace s1)) as [d|]; [|done].
  case_decide; [|case_decide; [|done]]; intros ([v r] & Hv & [= _ <-])%result_bind_ok;
    apply parse_delimited_shorter in Hv; count_chars.
Qed.

(** A loop that had enough fuel: it ends, and what it leaves is no longer. *)
Definition loop_ends {A} (n : nat) (o : option (result DavProtocolError (A * str))) : Prop :=
  ∃ r, o = Some r ∧ ∀ a rest, r = Ok (a, rest) → (length rest ≤ n)%nat.

Lemma parse_conditions_ends fuel s acc :
  (length s < fuel)%nat → loop_ends (length s) (parse_conditions fuel s acc).
Proof.
  revert s acc. induction fuel as [|fuel IH]; intros s acc Hf; [lia|]. cbn [parse_conditions].
  pose proof (skip_length s) as Hs. destruct (skip_linear_whitespace s) as [|c rest] eqn:E.
  { by eexists. }
  case_decide.
  - eexists. split; [done|]. intros a r [= _ <-]. cbn in Hs. count_chars.
  - destruct (parse_condition (c :: rest)) as [[cond s1]|e] eqn:Ec; [|by eexists].
    apply parse_condition_shorter in Ec.
    destruct (IH s1 (acc ++ [cond])) as (r & -> & Hr); [count_chars|].
    exists r. split; [done|]. intros a rest' Er. specialize (Hr a rest' Er). count_chars.
Qed.

Lemma parse_state_list_ends s :
  ∃ r, parse_state_list s = Some r ∧ ∀ l rest, r = Ok (l, rest) → (length rest < length s)%nat.
Proof.
  unfold parse_state_list, expect_char. destruct (strip_prefix _ s) as [s1|] eqn:E; cbn [ok_or]; [|by eexists].
  apply strip_one_length in E.
  destruct (parse_conditions_ends (S (length s1)) s1 []) as (r & -> & Hr); [lia|].
  destruct r as [[cs rest]|e]; [|by eexists]. specialize (Hr cs rest eq_refl).
  eexists. split; [done|]. case_decide; intros l rest' [= <- <-]. count_chars.
Qed.

Lemma parse_tagged_lists_ends fuel s acc :
  (length s < fuel)%nat → loop_ends (length s) (parse_tagged_lists fuel s acc).
Proof.
  revert s acc. induction fuel as [|fuel IH]; intros s acc Hf; [lia|]. cbn [parse_tagged_lists].
  pose proof (skip_length s) as Hs. case_decide.
  - destruct (parse_state_list_ends (skip_linear_whitespace s)) as (r & -> & Hr).
    destruct r as [[l s1]|e]; [|by eexists]. specialize (Hr l s1 eq_refl).
    destruct (IH s1 (acc ++ [l])) as (r & -> & Hr'); [count_chars|].
    exists r. split; [done|]. intros a rest Er. specialize (Hr' a rest Er). count_chars.
  - eexists. split; [done|]. intros a rest [= _ <-]. count_chars.
Qed.

Lemma parse_tagged_groups_ends fuel s acc :
  (length s < fuel)%nat → is_Some (parse_tagged_groups fuel s acc).
Proof.
  revert s acc. induction fuel as [|fuel IH]; intros s acc Hf; [lia|]. cbn [parse_tagged_groups].
  case_decide; [done|]. destruct (parse_angle_value s) as [[tag s1]|e] eqn:E; [|done].
  apply parse_delimited_shorter in E.
  destruct (parse_tagged_lists_ends (S (length s1)) s1 []) as (r & -> & Hr); [lia|].
  destruct r as [[lists s2]|e]; [|done]. specialize (Hr lists s2 eq_refl).
  case_decide; [done|]. case_decide; [done|]. case_decide; [|done].
  apply IH. pose proof (skip_length s2). count_chars.
Qed.

Lemma parse_untagged_lists_ends fuel s acc :
  (length s < fuel)%nat → is_Some (parse_untagged_lists fuel s acc).
Proof.
  revert s acc. induction fuel as [|fuel IH]; intros s acc Hf; [lia|]. cbn [parse_untagged_lists].
  case_decide; [done|]. destruct (parse_state_list_ends s) as (r & -> & Hr).
  destruct r as [[l s1]|e]; [|done]. specialize (Hr l s1 eq_refl).
  case_decide; [done|]. apply IH. pose proof (skip_length s1). count_chars.
Qed.

Lemma parse_if_total input : is_Some (IfHeaderParser_parse input).
Proof.
  unfold IfHeaderParser_parse. case_decide; [done|]. set (s := skip_linear_whitespace input).
  case_decide.
  - destruct (parse_tagged_groups_ends (S (length s)) s []) as [r ->]; [lia|done].
  - destruct (parse_untagged_lists_ends (S (length s)) s []) as [r ->]; [lia|done].
Qed.

(** *** Writing a header *)
Definition not_text (negated : bool) : str := if negated then lit "Not " else [].

Definition render_condition (c : IfStateCondition) : str :=
  match c with
  | Token value negated => not_text negated ++ angle_open :: value ++ [angle_close]
  | Etag value negated => not_text negated ++ bracket_open :: value ++ [bracket_close]
  end.

Definition render_list (l : IfStateList) : str :=
  paren_open :: join [32] (render_condition <$> conditions l) ++ [paren_close].

Definition render_group (g : IfResourceGroup) : str :=
  match tagged_path g with
  | Some tag => angle_open :: tag ++ angle_close :: 32 :: join [32] (render_list <$> group_lists g)
  | None => join [32] (render_list <$> group_lists g)
  end.

Definition render_if (h : IfHeader) : str := join [32] (render_group <$> groups h).

(** A value that can stand between delimiters. *)
Definition good_value (closing : char) (value : str) : Prop :=
  value ≠ [] ∧ (closing ∉ value) ∧ trim value = value.

Definition good_condition (c : IfStateCondition) : Prop :=
  match c with
  | Token value _ => good_value angle_close value ∧ normalize_lock_token value = value
  | Etag value _ => good_value bracket_close value
  end.

Definition good_list (l : IfStateList) : Prop :=
  conditions l ≠ [] ∧ Forall good_condition (conditions l).

Definition good_lists (ls : list IfStateList) : Prop := ls ≠ [] ∧ Forall good_list ls.

Definition good_header (h : IfHeader) : Prop :=
  (∃ ls, groups h = [mk_IfResourceGroup None ls] ∧ good_lists ls) ∨
  (groups h ≠ [] ∧ Forall (λ g, good_lists (group_lists g) ∧
     ∃ tag, tagged_path g = Some tag ∧ good_value angle_close tag) (groups h)).

(** Each item after a space. *)
Definition spaced (items : list str) : str := items ≫= cons 32.

Lemma join_spaced item items : join [32] (item :: items) = item ++ spaced items.
Proof.
  revert item. induction items as [|x items IH]; intros item; [by rewrite app_nil_r|].
  change (join [32] (item :: x :: items)) with (item ++ 32 :: join [32] (x :: items)).
  by rewrite IH.
Qed.

Lemma spaced_length items : (length items ≤ length (spaced items))%nat.
Proof.
  induction items as [|x items IH]; [done|]. unfold spaced in *. rewrite bind_cons, length_app.
  cbn. count_chars.
Qed.

Lemma parse_delimited_render opening closing value rest :
  good_value closing value →
  parse_delimited opening closing (opening :: value ++ closing :: rest) = Ok (value, rest).
Proof.
  intros (Hne & Hc & Htrim). unfold parse_delimited, expect_char. cbn [strip_prefix].
  rewrite decide_True by done. cbn [ok_or mbind result_bind].
  rewrite split_once_app by done. cbn [ok_or mbind result_bind]. rewrite Htrim.
  by rewrite decide_False.
Qed.

Lemma consume_not_render negated c rest :
  c = angle_open ∨ c = bracket_open →
  ∃ s, consume_not (not_text negated ++ c :: rest) = (negated, s) ∧
    skip_linear_whitespace s = c :: rest.
Proof.
  intros Hc. destruct negated.
  - exists (32 :: c :: rest). by destruct Hc as [->| ->].
  - exists (c :: rest). split; [|by destruct Hc as [->| ->]]. cbn [not_text app]. unfold consume_not.
    assert (eq_ignore_ascii_case (take 3 (c :: rest)) (lit "not") = false) as ->; [|done].
    apply bool_decide_eq_false. by destruct Hc as [->| ->].
Qed.

Lemma parse_condition_render c rest :
  good_condition c → parse_condition (render_condition c ++ rest) = Ok (c, rest).
Proof.
  intros Hc. unfold parse_condition. destruct c as [value negated|value negated]; cbn [render_condition].
  - destruct Hc as [Hv Hn]. rewrite <- app_assoc. cbn [app]. rewrite <- app_assoc. cbn [app].
    destruct (consume_not_render negated angle_open (value ++ angle_close :: rest)) as (s & -> & ->);
      [by left|]. cbn [head]. rewrite decide_True by done.
    unfold parse_angle_value. rewrite parse_delimited_render by done. cbn. by rewrite Hn.
  - rewrite <- app_assoc. cbn [app]. rewrite <- app_assoc. cbn [app].
    destruct (consume_not_render negated bracket_open (value ++ bracket_close :: rest)) as (s & -> & ->);
      [by right|]. cbn [head]. rewrite decide_False by done. rewrite decide_True by done.
    unfold parse_bracket_value. by rewrite parse_delimited_render.
Qed.

Lemma skip_item x d :
  head x = Some d → is_linear_whitespace d = false → skip_linear_whitespace (32 :: x) = x.
Proof. destruct x as [|c x]; [done|]. intros [= ->] Hd.
  change (skip_linear_whitespace (d :: x) = d :: x). by apply trim_start_matches_none.
Qed.

Lemma render_condition_head c :
  ∃ d s, render_condition c = d :: s ∧ is_linear_whitespace d = false ∧ d ≠ paren_close.
Proof. destruct c as [v []|v []]; repeat eexists; done. Qed.

Lemma parse_conditions_render cs fuel acc rest :
  Forall good_condition cs → (length cs < fuel)%nat →
  parse_conditions fuel (spaced (render_condition <$> cs) ++ paren_close :: rest) acc =
  Some (Ok (acc ++ cs, rest)).
Proof.
  intros Hcs. revert fuel acc. induction Hcs as [|c cs Hc Hcs IH]; intros fuel acc Hf;
    (destruct fuel as [|fuel]; [cbn in Hf; lia|]); cbn [parse_conditions].
  - by rewrite app_nil_r.
  - change (spaced (render_condition <$> c :: cs)) with
      (32 :: render_condition c ++ spaced (render_condition <$> cs)).
    destruct (render_condition_head c) as (d & s & E & Hws & Hd).
    cbn [app]. rewrite <- app_assoc. set (tail := spaced _ ++ _).
    rewrite (skip_item _ d) by (by rewrite E || done).
    rewrite E at 1. cbn [app]. rewrite decide_False by done.
    change (d :: s ++ tail) with ((d :: s) ++ tail). rewrite <- E.
    rewrite parse_condition_render by done. subst tail. rewrite IH by (cbn in Hf; lia).
    by rewrite <- app_assoc.
Qed.

(** Leading linear whitespace makes no difference to the loops. *)
Lemma skip_idemp s : skip_linear_whitespace (skip_linear_whitespace s) = skip_linear_whitespace s.
Proof.
  unfold skip_linear_whitespace. induction s as [|c s IH]; [done|]. cbn.
  destruct (is_linear_whitespace c) eqn:E; [done|]. cbn. by rewrite E.
Qed.

Lemma parse_conditions_skip fuel s s' acc :
  skip_linear_whitespace s = skip_linear_whitespace s' →
  parse_conditions fuel s acc = parse_conditions fuel s' acc.
Proof. intros E. destruct fuel as [|fuel]; [done|]. cbn [parse_conditions]. by rewrite E. Qed.

Lemma parse_state_list_render l rest :
  good_list l → parse_state_list (render_list l ++ rest) = Some (Ok (l, rest)).
Proof.
  intros [Hne Hl]. destruct l as [cs]. cbn [conditions] in *. unfold parse_state_list, render_list.
  cbn [conditions]. set (body := join [32] (render_condition <$> cs)).
  assert (expect_char paren_open ((paren_open :: body ++ [paren_close]) ++ rest) =
    Ok (body ++ paren_close :: rest)) as ->.
  { unfold expect_char. cbn [app strip_prefix]. rewrite decide_True by done. cbn.
    by rewrite <- app_assoc. }
  destruct cs as [|c cs]; [done|].
  rewrite (parse_conditions_skip _ _ (spaced (render_condition <$> c :: cs) ++ paren_close :: rest)).
  - rewrite parse_conditions_render; [by rewrite decide_False|done|].
    subst body. rewrite fmap_cons, join_spaced, !length_app.
    pose proof (spaced_length (render_condition <$> cs)) as Hs. rewrite length_fmap in Hs.
    cbn. count_chars.
  - subst body. by rewrite fmap_cons, join_spaced.
Qed.

Lemma render_list_head l : ∃ s, render_list l = paren_open :: s.
Proof. by eexists. Qed.

(** What may follow the lists of a resource. *)
Definition stops (rest : str) : Prop := head (skip_linear_whitespace rest) ≠ Some paren_open.

Lemma parse_tagged_lists_render ls fuel acc rest :
  Forall good_list ls → stops rest → (length ls < fuel)%nat →
  parse_tagged_lists fuel (spaced (render_list <$> ls) ++ rest) acc =
  Some (Ok (acc ++ ls, skip_linear_whitespace rest)).
Proof.
  intros Hls Hstop. revert fuel acc. induction Hls as [|l ls Hl Hls IH]; intros fuel acc Hf;
    (destruct fuel as [|fuel]; [cbn in Hf; lia|]); cbn [parse_tagged_lists].
  - rewrite decide_False by done. by rewrite app_nil_r.
  - change (spaced (render_list <$> l :: ls)) with (32 :: render_list l ++ spaced (render_list <$> ls)).
    cbn [app]. rewrite <- app_assoc. rewrite (skip_item _ paren_open) by done.
    rewrite decide_True by done. rewrite parse_state_list_render by done.
    rewrite IH by (cbn in Hf; lia). by rewrite <- app_assoc.
Qed.

Lemma parse_untagged_lists_render ls fuel acc :
  Forall good_list ls → (length ls < fuel)%nat →
  parse_untagged_lists fuel (join [32] (render_list <$> ls)) acc = Some (Ok (acc ++ ls)).
Proof.
  intros Hls. revert fuel acc. induction Hls as [|l ls Hl Hls IH]; intros fuel acc Hf;
    (destruct fuel as [|fuel]; [cbn in Hf; lia|]); cbn [parse_untagged_lists].
  - rewrite decide_True by done. by rewrite app_nil_r.
  - rewrite fmap_cons, join_spaced. rewrite decide_False by by destruct l.
    rewrite parse_state_list_render by done.
    destruct ls as [|l' ls].
    + cbn. destruct fuel as [|fuel]; [cbn in Hf; lia|]. cbn [parse_untagged_lists].
      rewrite decide_False by done. by rewrite decide_True.
    + assert (skip_linear_whitespace (spaced (render_list <$> l' :: ls)) =
        join [32] (render_list <$> l' :: ls)) as ->.
      { rewrite fmap_cons, join_spaced. by apply (skip_item _ paren_open). }
      rewrite decide_False by (rewrite fmap_cons, join_spaced; by destruct l').
      rewrite IH by (cbn in *; lia). by rewrite <- app_assoc.
Qed.

(** A tagged group as it is parsed. *)
Lemma render_tagged g tag rest :
  tagged_path g = Some tag →
  render_group g ++ rest =
  angle_open :: tag ++ angle_close :: (32 :: join [32] (render_list <$> group_lists g)) ++ rest.
Proof.
  intros E. unfold render_group. rewrite E. cbn [app]. by rewrite <- app_assoc.
Qed.

Lemma render_group_length g :
  Forall good_list (group_lists g) → (length (group_lists g) < length (render_group g))%nat ∨
  tagged_path g = None.
Proof.
  intros _. destruct (tagged_path g) as [tag|] eqn:E; [left|by right].
  pose proof (render_tagged g tag [] E) as Er. rewrite !app_nil_r in Er. rewrite Er. clear Er.
  cbn [length]. rewrite length_app. cbn [length].
  destruct (group_lists g) as [|l ls]; [cbn; lia|]. rewrite fmap_cons, join_spaced, length_app.
  pose proof (spaced_length (render_list <$> ls)) as Hs. rewrite length_fmap in Hs.
  cbn [length]. count_chars.
Qed.

Lemma parse_tagged_groups_render gs fuel acc :
  Forall (λ g, good_lists (group_lists g) ∧
    ∃ tag, tagged_path g = Some tag ∧ good_value angle_close tag) gs →
  (length gs < fuel)%nat →
  parse_tagged_groups fuel (join [32] (render_group <$> gs)) acc = Some (Ok (acc ++ gs)).
Proof.
  intros Hgs. revert fuel acc.
  induction Hgs as [|g gs [[Hne Hls] (tag & Etag & Htag)] Hgs IH]; intros fuel acc Hf;
    (destruct fuel as [|fuel]; [cbn in Hf; lia|]); cbn [parse_tagged_groups].
  { rewrite decide_True by done. by rewrite app_nil_r. }
  rewrite fmap_cons, join_spaced, (render_tagged g tag) by done.
  set (rest := spaced (render_group <$> gs)). rewrite decide_False by done.
  unfold parse_angle_value. rewrite parse_delimited_render by done.
  assert (∀ g' gs', gs = g' :: gs' →
    skip_linear_whitespace rest = join [32] (render_group <$> gs) ∧
    head (join [32] (render_group <$> gs)) = Some angle_open) as Hrest.
  { intros g' gs' E. subst rest. rewrite E in *. apply list.Forall_cons in Hgs as [[_ (t & Et & _)] _].
    rewrite fmap_cons, join_spaced.
    assert (head (render_group g' ++ spaced (render_group <$> gs')) = Some angle_open) as Hh
      by by rewrite (render_tagged g' t). split; [by apply (skip_item _ angle_open)|done]. }
  assert (stops rest) as Hstop.
  { unfold stops. destruct gs as [|g' gs'] eqn:E; [done|].
    destruct (Hrest g' gs' eq_refl) as [-> ->]. done. }
  assert ((32 :: join [32] (render_list <$> group_lists g)) ++ rest =
    spaced (render_list <$> group_lists g) ++ rest) as ->.
  { destruct (group_lists g) as [|l ls]; [done|]. by rewrite fmap_cons, join_spaced. }
  rewrite parse_tagged_lists_render; [|done..|].
  2:{ pose proof (spaced_length (render_list <$> group_lists g)) as Hs.
      rewrite length_fmap in Hs. rewrite length_app. count_chars. }
  cbn [app]. rewrite decide_False by done. rewrite skip_idemp.
  assert (mk_IfResourceGroup (Some tag) (group_lists g) = g) as ->.
  { destruct g as [t ls]. cbn in *. by subst t. }
  destruct gs as [|g' gs'] eqn:E; [by rewrite decide_True|].
  destruct (Hrest g' gs' eq_refl) as [-> Hh].
  rewrite decide_False by by intros En; rewrite En in Hh. rewrite decide_True by done.
  rewrite IH by (cbn in *; lia). by rewrite <- app_assoc.
Qed.

Lemma parse_rendered_header h :
  good_header h → IfHeaderParser_parse (render_if h) = Some (Ok h).
Proof.
  intros Hh. unfold IfHeaderParser_parse, render_if. destruct h as [gs]. cbn [groups] in *.
  destruct Hh as [(ls & E & Hne & Hls)|[Hne Hgs]].
  - cbn [groups] in E. subst gs. cbn [groups fmap list_fmap join render_group tagged_path group_lists] in *.
    destruct ls as [|l ls]; [done|].
    assert (skip_linear_whitespace (join [32] (render_list <$> l :: ls)) =
      join [32] (render_list <$> l :: ls)) as ->.
    { rewrite fmap_cons, join_spaced. by apply trim_start_matches_none. }
    rewrite decide_False by (rewrite fmap_cons, join_spaced; by destruct l).
    rewrite decide_False by (rewrite fmap_cons, join_spaced; by destruct l).
    rewrite parse_untagged_lists_render; [done|done|].
    rewrite fmap_cons, join_spaced, length_app.
    pose proof (spaced_length (render_list <$> ls)) as Hs. rewrite length_fmap in Hs.
    cbn [length render_list]. count_chars.
  - cbn [groups] in *. destruct gs as [|g gs]; [done|].
    pose proof Hgs as [[_ (tag & Etag & _)] _]%list.Forall_cons.
    assert (head (join [32] (render_group <$> g :: gs)) = Some angle_open) as Hhead.
    { rewrite fmap_cons, join_spaced. by rewrite (render_tagged g tag). }
    assert (skip_linear_whitespace (join [32] (render_group <$> g :: gs)) =
      join [32] (render_group <$> g :: gs)) as ->.
    { destruct (join [32] (render_group <$> g :: gs)) as [|c s]; [done|].
      injection Hhead as ->. by apply trim_start_matches_none. }
    rewrite decide_False by by intros En; rewrite En in Hhead.
    rewrite decide_True by done. rewrite parse_tagged_groups_render; [done|done|].
    rewrite fmap_cons, join_spaced, length_app.
    pose proof (spaced_length (render_group <$> gs)) as Hs. rewrite length_fmap in Hs.
    assert (0 < length (render_group g))%nat as Hpos.
    { pose proof (render_tagged g tag [] Etag) as Er. rewrite app_nil_r in Er. rewrite Er. cbn. lia. }
    cbn [length]. count_chars.
Qed.

(** *** The shape of what is accepted *)
Definition shaped_lists (ls : list IfStateList) : Prop :=
  ls ≠ [] ∧ Forall (λ l, conditions l ≠ []) ls.

Definition shaped (h : IfHeader) : Prop :=
  (∃ ls, groups h = [mk_IfResourceGroup None ls] ∧ shaped_lists ls) ∨
  (groups h ≠ [] ∧ Forall (λ g, is_Some (tagged_path g) ∧ shaped_lists (group_lists g)) (groups h)).

(** The parser's only error, and a property of what it returns. *)
Definition parsed_with {A} (P : A → Prop) (r : result DavProtocolError A) : Prop :=
  match r with Ok a => P a | Err e => e = invalid_if end.

Lemma parse_delimited_error opening closing s :
  parsed_with (λ _, True) (parse_delimited opening closing s).
Proof.
  unfold parse_delimited, expect_char. destruct (strip_prefix _ s); cbn; [|done].
  destruct (split_once _ _) as [[v r]|]; cbn; [|done]. by case_decide.
Qed.

Lemma parse_condition_error s : parsed_with (λ _, True) (parse_condition s).
Proof.
  unfold parse_condition. destruct (consume_not s) as [n s1].
  destruct (head _); [|done]. case_decide; [|case_decide; [|done]].
  - unfold parse_angle_value. pose proof (parse_delimited_error angle_open angle_close (skip_linear_whitespace s1)).
    by destruct (parse_delimited _ _ _) as [[]|].
  - unfold parse_bracket_value. pose proof (parse_delimited_error bracket_open bracket_close (skip_linear_whitespace s1)).
    by destruct (parse_delimited _ _ _) as [[]|].
Qed.

Lemma parse_conditions_error fuel s acc r :
  parse_conditions fuel s acc = Some r → parsed_with (λ _, True) r.
Proof.
  revert s acc. induction fuel as [|fuel IH]; intros s acc; [done|]. cbn [parse_conditions].
  destruct (skip_linear_whitespace s) as [|c rest]; [by intros [= <-]|].
  case_decide; [by intros [= <-]|]. pose proof (parse_condition_error (c :: rest)) as He.
  destruct (parse_condition _) as [[cond s1]|e]; [apply IH|by intros [= <-]].
Qed.

Lemma parse_state_list_shape s r :
  parse_state_list s = Some r → parsed_with (λ lr, conditions lr.1 ≠ []) r.
Proof.
  unfold parse_state_list, expect_char. destruct (strip_prefix _ s) as [s1|]; cbn [ok_or]; [|by intros [= <-]].
  destruct (parse_conditions _ s1 []) as [[[cs rest]|e]|] eqn:E; [| |done].
  - intros [= <-]. by case_decide.
  - apply parse_conditions_error in E. by intros [= <-].
Qed.

Lemma parse_tagged_lists_shape fuel s acc r :
  Forall (λ l, conditions l ≠ []) acc →
  parse_tagged_lists fuel s acc = Some r →
  parsed_with (λ lr, Forall (λ l, conditions l ≠ []) lr.1) r.
Proof.
  revert s acc. induction fuel as [|fuel IH]; intros s acc Hacc; [done|]. cbn [parse_tagged_lists].
  case_decide; [|by intros [= <-]].
  destruct (parse_state_list _) as [r'|] eqn:E; [|done]. apply parse_state_list_shape in E.
  destruct r' as [[l s1]|e]; [|by intros [= <-]]. apply IH.
  apply list.Forall_app. split; [done|]. by repeat constructor.
Qed.

Lemma parse_tagged_groups_shape fuel s acc r :
  Forall (λ g, is_Some (tagged_path g) ∧ shaped_lists (group_lists g)) acc →
  (acc ≠ [] ∨ s ≠ []) →
  parse_tagged_groups fuel s acc = Some r →
  parsed_with (λ gs, gs ≠ [] ∧
    Forall (λ g, is_Some (tagged_path g) ∧ shaped_lists (group_lists g)) gs) r.
Proof.
  revert s acc. induction fuel as [|fuel IH]; intros s acc Hacc Hne; [done|]. cbn [parse_tagged_groups].
  case_decide as Hs; [intros [= <-]; split; [tauto|done]|].
  unfold parse_angle_value. pose proof (parse_delimited_error angle_open angle_close s) as He.
  destruct (parse_delimited _ _ s) as [[tag s1]|e]; [|by intros [= <-]].
  destruct (parse_tagged_lists _ s1 []) as [r'|] eqn:E; [|done].
  apply parse_tagged_lists_shape in E; [|by constructor].
  destruct r' as [[lists s2]|e]; [|by intros [= <-]]. cbn in E.
  case_decide as Hl; [by intros [= <-]|].
  assert (Forall (λ g, is_Some (tagged_path g) ∧ shaped_lists (group_lists g))
    (acc ++ [mk_IfResourceGroup (Some tag) lists])) as Hacc'.
  { apply list.Forall_app. split; [done|]. constructor; [|by constructor]. by repeat split. }
  case_decide; [intros [= <-]; split; [by destruct acc|done]|].
  case_decide; [|by intros [= <-]]. apply IH; [done|]. by right.
Qed.

Lemma parse_untagged_lists_shape fuel s acc r :
  Forall (λ l, conditions l ≠ []) acc → (acc ≠ [] ∨ s ≠ []) →
  parse_untagged_lists fuel s acc = Some r → parsed_with shaped_lists r.
Proof.
  revert s acc. induction fuel as [|fuel IH]; intros s acc Hacc Hne; [done|]. cbn [parse_untagged_lists].
  case_decide as Hs; [intros [= <-]; split; [tauto|done]|].
  destruct (parse_state_list s) as [r'|] eqn:E; [|done]. apply parse_state_list_shape in E.
  destruct r' as [[l s1]|e]; [|by intros [= <-]]. case_decide; [by intros [= <-]|].
  apply IH; [|left; by destruct acc].
  apply list.Forall_app. split; [done|]. by repeat constructor.
Qed.

Lemma parse_if_shape input r : IfHeaderParser_parse input = Some r → parsed_with shaped r.
Proof.
  unfold IfHeaderParser_parse. case_decide; [by intros [= <-]|]. case_decide.
  - destruct (parse_tagged_groups _ _ []) as [r'|] eqn:E; [|done].
    apply parse_tagged_groups_shape in E; [|by constructor|by right].
    intros [= <-]. destruct r' as [gs|e]; [by right|done].
  - destruct (parse_untagged_lists _ _ []) as [r'|] eqn:E; [|done].
    apply parse_untagged_lists_shape in E; [|by constructor|by right].
    intros [= <-]. destruct r' as [ls|e]; [left; by exists ls|done].
Qed.

(** C35. The [If] header parser ends on every input: it refuses it with one
    error, or returns a header of the shape of RFC 4918, one untagged resource
    or only tagged ones, none without a list, no list without a condition.
    Reading back a written header gives that header: tags, lists, tokens,
    entity tags and negations, in order. *)
Theorem if_header_round_trip :
  (∀ input, ∃ r, IfHeaderParser_parse input = Some r ∧ parsed_with shaped r) ∧
  (∀ h, good_header h → IfHeaderParser_parse (render_if h) = Some (Ok h)).
Proof.
  split; [|exact parse_rendered_header]. intros input.
  destruct (parse_if_total input) as [r Hr]. exists r. split; [done|]. by eapply parse_if_shape.
Qed.

(** *** Evaluation *)
Section evaluation_spec.
Context {ETag W : Type} (etag_decode : list Z → option ETag) (etag_parse : str → option ETag)
        (weak_match : ETag → ETag → bool)
        (parse_uri : str → option Uri) (parse_authority : str → option Authority)
        (percent_decode : str → option str)
        (resolve_if_state : DavPath → W → result DavBackendError DavIfResourceState * W).

(** The state a group is evaluated against; a tag outside this server or
    mount stands for a resource without tokens and entity tag. *)
Definition group_state (request_path : DavPath) (prefix request_scheme request_host : str) (w : W)
    (group : IfResourceGroup) : result DavIfEvaluationError DavIfResourceState :=
  path ← map_err IfProtocol
    match tagged_path group with
    | Some tag => tagged_dav_path parse_uri parse_authority percent_decode prefix tag
                    request_scheme request_host
    | None => Ok (Some request_path)
    end;
  match path with
  | Some path => map_err IfBackend (resolve_if_state path w).1
  | None => Ok DavIfResourceState_default
  end.

(** Some list of the group holds: all of its conditions do. *)
Definition group_matches (group : IfResourceGroup) (state : DavIfResourceState) : Prop :=
  ∃ l, l ∈ group_lists group ∧
    ∀ c, c ∈ conditions l → evaluate_condition etag_decode etag_parse weak_match state c = true.

Lemma existsb_matches group state :
  existsb (λ l, evaluate_if_state_list etag_decode etag_parse weak_match l state)
    (group_lists group) = true ↔ group_matches group state.
Proof.
  unfold group_matches, evaluate_if_state_list. rewrite existsb_exists.
  setoid_rewrite forallb_forall. setoid_rewrite list_elem_of_In. done.
Qed.

(** The verdict on a list of groups, evaluated in order. *)
Inductive verdict (state_of : IfResourceGroup → result DavIfEvaluationError DavIfResourceState) :
    list IfResourceGroup → result DavIfEvaluationError unit → Prop :=
  | verdict_none : verdict state_of [] (Err (IfProtocol DavProtocolError_precondition_failed))
  | verdict_error group gs e :
      state_of group = Err e → verdict state_of (group :: gs) (Err e)
  | verdict_match group gs state :
      state_of group = Ok state → group_matches group state → verdict state_of (group :: gs) (Ok tt)
  | verdict_next group gs state r :
      state_of group = Ok state → ¬ group_matches group state → verdict state_of gs r →
      verdict state_of (group :: gs) r.

(** With a resolver that only reads, the [If] header is enforced group by
    group: a request passes when it has no header, or when some group has a
    list all of whose conditions hold of the state of its resource and every
    earlier group was resolved without error and did not match; it fails with
    412 when every group was resolved and none matches, and with the first
    resolution error otherwise.  A positive token condition holds exactly when
    the resource carries that lock, and a tag outside the mount satisfies only
    negated conditions. *)
Theorem if_header_enforced h request_path prefix request_scheme request_host w :
  (∀ p, (resolve_if_state p w).2 = w) →
  (let '(r, w') := enforce_if_header etag_decode etag_parse weak_match parse_uri parse_authority
       percent_decode resolve_if_state h request_path prefix request_scheme request_host w in
   w' = w ∧
   match h with
   | None => r = Ok tt
   | Some h => verdict (group_state request_path prefix request_scheme request_host w) (groups h) r
   end) ∧
  (∀ value negated state,
     evaluate_condition etag_decode etag_parse weak_match state (Token value negated) = true ↔
     if negated then value ∉ state_lock_tokens state else value ∈ state_lock_tokens state) ∧
  (∀ c, evaluate_condition etag_decode etag_parse weak_match DavIfResourceState_default c =
     match c with Token _ negated | Etag _ negated => negated end).
Proof.
  intros Hread. split; [|split].
  - unfold enforce_if_header. destruct h as [h|]; [|done].
    induction (groups h) as [|g gs IH]; cbn [enforce_groups]; [by split; [|constructor]|].
    destruct (match tagged_path g with Some _ => _ | None => _ end) as [path|e] eqn:Epath.
    2:{ split; [done|]. apply verdict_error. unfold group_state. by rewrite Epath. }
    assert (∃ r0, match path with
      | Some path => resolve_if_state path w
      | None => (Ok DavIfResourceState_default, w) end = (r0, w) ∧
      group_state request_path prefix request_scheme request_host w g = map_err IfBackend r0)
      as (r0 & -> & Hg).
    { unfold group_state. rewrite Epath. cbn [map_err mbind result_bind]. destruct path as [p|].
      - specialize (Hread p). destruct (resolve_if_state p w) as [r0 w']. cbn in *. subst. eauto.
      - by eexists. }
    destruct r0 as [state|e]; [|split; [done|]; by apply verdict_error].
    destruct (existsb _ _) eqn:Ex.
    + split; [done|]. eapply verdict_match; [done|]. by apply existsb_matches.
    + destruct (enforce_groups _ _ _ _ _ _ _ gs _ _ _ _ w) as [r w'].
      destruct IH as [-> IH]. split; [done|]. eapply verdict_next; [done| |done].
      rewrite <- existsb_matches. by rewrite Ex.
  - intros value negated state. cbn. destruct negated.
    + rewrite xorb_true_r, negb_true_iff. apply bool_decide_eq_false.
    + rewrite xorb_false_r. apply bool_decide_eq_true.
  - intros [value negated|value negated]; cbn; [|done].
    rewrite bool_decide_eq_false_2 by apply not_elem_of_nil. done.
Qed.
End evaluation_spec.

(** A resource that carries the lock [t]. *)
Definition demo_resolver (_ : DavPath) (w : unit) : result DavBackendError DavIfResourceState * unit :=
  (Ok (mk_DavIfResourceState None [lit "t"]), w).
Definition demo_if : IfHeader :=
  mk_IfHeader [mk_IfResourceGroup None [mk_IfStateList [Token (lit "t") false]]].

Lemma if_header_enforced_witness :
  let '(r, w') := enforce_if_header (ETag := unit) (λ _, None) (λ _, None) (λ _ _, false)
      (λ _, None) (λ _, None) Some demo_resolver (Some demo_if)
      DavPath_root (lit "/dav") (lit "https") (lit "host") tt in
  w' = tt ∧
  verdict (ETag := unit) (λ _, None) (λ _, None) (λ _ _, false)
    (group_state (λ _, None) (λ _, None) Some demo_resolver DavPath_root (lit "/dav")
       (lit "https") (lit "host") tt) (groups demo_if) r ∧
  r = Ok tt.
Proof.
  destruct (if_header_enforced (ETag := unit) (λ _, None) (λ _, None) (λ _ _, false)
    (λ _, None) (λ _, None) Some demo_resolver (Some demo_if)
    DavPath_root (lit "/dav") (lit "https") (lit "host") tt (λ _, eq_refl)) as [[Hw Hv] _].
  split; [exact Hw|]. split; [exact Hv|reflexivity].
Defined.

(** *** Submitted tokens *)
Section tokens_spec.
Context (parse_uri : str → option Uri) (parse_authority : str → option Authority)
        (percent_decode : str → option str).

(** A token condition of a group that applies to the path. *)
Lemma elem_of_submitted h request_path request_scheme request_host negated_too token :
  token ∈ submitted_lock_tokens_matching_path parse_uri parse_authority percent_decode h
    request_path request_scheme request_host negated_too ↔
  ∃ g l negated, g ∈ groups h ∧
    group_applies parse_uri parse_authority percent_decode request_path request_scheme
      request_host g = true ∧
    l ∈ group_lists g ∧ Token token negated ∈ conditions l ∧ (negated = true → negated_too = true).
Proof.
  unfold submitted_lock_tokens_matching_path. rewrite elem_of_sort_dedup, list_elem_of_bind.
  setoid_rewrite list_elem_of_filter. setoid_rewrite list_elem_of_bind.
  setoid_rewrite list_elem_of_omap. split.
  - intros (g & (l & (c & Hc & Htok) & Hl) & Ha & Hg).
    destruct c as [value negated|value negated]; cbn in Htok; [|done].
    destruct (negated_too || negb negated) eqn:E; [|done]. injection Htok as ->.
    exists g, l, negated. repeat split; try done. intros ->. by destruct negated_too.
  - intros (g & l & negated & Hg & Ha & Hl & Hc & Hneg). exists g. split; [|done].
    exists l. split; [|done]. eexists. split; [exact Hc|]. cbn.
    destruct negated; cbn; [by rewrite Hneg|by rewrite orb_true_r].
Qed.

Lemma submitted_sorted h request_path request_scheme request_host negated_too :
  StronglySorted key_lt (submitted_lock_tokens_matching_path parse_uri parse_authority
    percent_decode h request_path request_scheme request_host negated_too).
Proof. apply sort_dedup_sorted. Qed.
End tokens_spec.
