(* ===== verification/DavLock.v ===== *)
(** * WebDAV: lock-token enforcement

    [aster_forge_webdav/src/lock.rs] and [DavMutationCredentials] of
    [backend.rs]: which locks conflict with a mutation, which of their tokens
    the request submitted for their lock roots, and the credentials that
    result.  The lock system is a port on an abstract world.  The planning of
    LOCK requests and the responses need the XML module and are left out. *)
From S2P Require Export DavIf.

Record DavLock {X : Type} : Type := mk_DavLock {
  lock_token : str;
  lock_path : DavPath;
  lock_principal : option str;
  lock_owner : option X;
  lock_timeout_at : option SystemTime;
  lock_timeout : option Z;
  lock_shared : bool;
  lock_deep : bool;
}.
Arguments DavLock : clear implicits.

Record DavMutationCredentials : Type := mk_DavMutationCredentials {
  submitted_tokens : list str;
}.

Definition DavMutationCredentials_default : DavMutationCredentials := mk_DavMutationCredentials [].

Definition DavMutationCredentials_merge (c other : DavMutationCredentials) : DavMutationCredentials :=
  mk_DavMutationCredentials (dedup (sort_strs (submitted_tokens c ++ submitted_tokens other))).

Inductive DavLockEnforcementError : Type :=
  | LockBackend (error : DavBackendError)
  | LockConflict (path : DavPath).

Section locks.
Context {X W : Type}.
Context (parse_uri : str → option Uri) (parse_authority : str → option Authority)
        (percent_decode : str → option str) (percent_encode : str → str).
(** [DavLockSystem::conflicting_locks]. *)
Context (conflicting_locks : DavPath → bool → W → result DavBackendError (list (DavLock X)) * W).

Record DavLockConflictEvaluation : Type := mk_DavLockConflictEvaluation {
  evaluation_credentials : DavMutationCredentials;
  evaluation_unsubmitted : list (DavLock X);
}.

(** The tokens submitted for the root of a lock. *)
Definition tokens_for (prefix : str) (if_header : option IfHeader)
    (request_scheme request_host : str) (path : DavPath) : list str :=
  match if_header with
  | None => []
  | Some h => submitted_mutation_lock_tokens parse_uri parse_authority percent_decode h
                (href_for_dav_path percent_encode prefix path) request_scheme request_host
  end.

(** The matching tokens of the locks on one root. *)
Definition matching_tokens (conflicts : list (DavLock X)) (path : DavPath) (submitted : list str)
    : list str :=
  omap (λ candidate, if decide (lock_token candidate ∈ submitted) then Some (lock_token candidate)
                     else None)
    (filter (λ candidate, lock_path candidate = path) conflicts).

(** The loop over the conflicts; [before] are the ones already looked at. *)
Fixpoint evaluate_conflicts (submitted_for : DavPath → list str)
    (conflicts before rest : list (DavLock X)) (tokens : list str) (unsubmitted : list (DavLock X))
    : list str * list (DavLock X) :=
  match rest with
  | [] => (tokens, unsubmitted)
  | lock :: rest =>
      if existsb (λ previous, bool_decide (lock_path previous = lock_path lock)) before then
        evaluate_conflicts submitted_for conflicts (before ++ [lock]) rest tokens unsubmitted
      else
        let matching := matching_tokens conflicts (lock_path lock) (submitted_for (lock_path lock)) in
        if decide (matching = []) then
          evaluate_conflicts submitted_for conflicts (before ++ [lock]) rest tokens
            (unsubmitted ++ [lock])
        else
          evaluate_conflicts submitted_for conflicts (before ++ [lock]) rest (tokens ++ matching)
            unsubmitted
  end.

Definition evaluate_lock_conflicts (path : DavPath) (deep : bool) (prefix : str)
    (if_header : option IfHeader) (request_scheme request_host : str) (w : W)
    : result DavBackendError DavLockConflictEvaluation * W :=
  match conflicting_locks path deep w with
  | (Err e, w) => (Err e, w)
  | (Ok conflicts, w) =>
      let '(tokens, unsubmitted) :=
        evaluate_conflicts (tokens_for prefix if_header request_scheme request_host)
          conflicts [] conflicts [] [] in
      (Ok (mk_DavLockConflictEvaluation (mk_DavMutationCredentials (dedup (sort_strs tokens)))
             unsubmitted), w)
  end.

Definition enforce_unlocked (path : DavPath) (deep : bool) (prefix : str)
    (if_header : option IfHeader) (request_scheme request_host : str) (w : W)
    : result DavLockEnforcementError DavMutationCredentials * W :=
  let '(r, w) := evaluate_lock_conflicts path deep prefix if_header request_scheme request_host w in
  (evaluation ← map_err LockBackend r;
   match evaluation_unsubmitted evaluation with
   | lock :: _ => Err (LockConflict (lock_path lock))
   | [] => Ok (evaluation_credentials evaluation)
   end, w).

Definition unsubmitted_lock_conflicts (path : DavPath) (deep : bool) (prefix : str)
    (if_header : option IfHeader) (request_scheme request_host : str) (w : W)
    : result DavBackendError (list (DavLock X)) * W :=
  let '(r, w) := evaluate_lock_conflicts path deep prefix if_header request_scheme request_host w in
  (evaluation_unsubmitted <$> r, w).

Definition enforce_parent_unlocked (path : DavPath) (prefix : str) (if_header : option IfHeader)
    (request_scheme request_host : str) (w : W)
    : result DavLockEnforcementError DavMutationCredentials * W :=
  match DavPath_parent path with
  | None => (Ok DavMutationCredentials_default, w)
  | Some parent => enforce_unlocked parent false prefix if_header request_scheme request_host w
  end.

(** ** Verification *)
Lemma elem_of_matching conflicts path submitted t :
  t ∈ matching_tokens conflicts path submitted ↔
  ∃ l, l ∈ conflicts ∧ lock_path l = path ∧ lock_token l = t ∧ t ∈ submitted.
Proof.
  unfold matching_tokens. rewrite list_elem_of_omap. setoid_rewrite list_elem_of_filter. split.
  - intros (l & [Hp Hl] & Ht). case_decide; [|done]. injection Ht as <-. eauto.
  - intros (l & Hl & Hp & <- & Ht). exists l. by rewrite decide_True.
Qed.

(** The root of [l] has a conflicting lock whose token was submitted for it. *)
Definition covered (submitted_for : DavPath → list str) (conflicts : list (DavLock X))
    (l : DavLock X) : Prop :=
  ∃ l', l' ∈ conflicts ∧ lock_path l' = lock_path l ∧ lock_token l' ∈ submitted_for (lock_path l).

Lemma covered_matching submitted_for conflicts l :
  matching_tokens conflicts (lock_path l) (submitted_for (lock_path l)) ≠ [] ↔
  covered submitted_for conflicts l.
Proof.
  split.
  - intros Hne. destruct (matching_tokens _ _ _) as [|t ts] eqn:E; [done|].
    assert (t ∈ t :: ts) as Hin by (apply elem_of_cons; by left). rewrite <- E in Hin.
    apply elem_of_matching in Hin as (l' & ? & ? & <- & ?). by exists l'.
  - intros (l' & Hl & Hp & Ht) E. apply (not_elem_of_nil (lock_token l')). rewrite <- E.
    apply elem_of_matching. eauto.
Qed.

Lemma covered_root submitted_for conflicts l l' :
  lock_path l = lock_path l' → covered submitted_for conflicts l → covered submitted_for conflicts l'.
Proof. unfold covered. by intros ->. Qed.

(** What the loop has established for the locks it has seen. *)
Record conflicts_inv (submitted_for : DavPath → list str) (conflicts before : list (DavLock X))
    (tokens : list str) (unsubmitted : list (DavLock X)) : Prop := {
  inv_tokens : ∀ t, t ∈ tokens ↔
    ∃ l, l ∈ before ∧ t ∈ matching_tokens conflicts (lock_path l) (submitted_for (lock_path l));
  inv_unsubmitted : ∀ u, u ∈ unsubmitted → u ∈ before ∧ ¬ covered submitted_for conflicts u;
  inv_complete : ∀ l, l ∈ before → ¬ covered submitted_for conflicts l →
    lock_path l ∈ lock_path <$> unsubmitted;
  inv_distinct : NoDup (lock_path <$> unsubmitted);
}.

Lemma seen_path (before : list (DavLock X)) (l : DavLock X) :
  existsb (λ previous, bool_decide (lock_path previous = lock_path l)) before = true ↔
  ∃ p, p ∈ before ∧ lock_path p = lock_path l.
Proof.
  rewrite existsb_exists. setoid_rewrite bool_decide_eq_true. setoid_rewrite list_elem_of_In. done.
Qed.

Lemma evaluate_conflicts_inv submitted_for conflicts before rest tokens unsubmitted :
  conflicts_inv submitted_for conflicts before tokens unsubmitted →
  let '(tokens', unsubmitted') :=
    evaluate_conflicts submitted_for conflicts before rest tokens unsubmitted in
  conflicts_inv submitted_for conflicts (before ++ rest) tokens' unsubmitted'.
Proof.
  revert before tokens unsubmitted. induction rest as [|l rest IH]; intros before tokens unsubmitted HI;
    cbn [evaluate_conflicts]; [by rewrite app_nil_r|].
  assert (before ++ l :: rest = (before ++ [l]) ++ rest) as -> by by rewrite <- app_assoc.
  destruct (existsb _ before) eqn:Hseen; [|case_decide as Hm]; apply IH;
    destruct HI as [HT HU HC HD].
  - apply seen_path in Hseen as (p & Hp & Epath). split; [|..|done].
    + intros t. rewrite HT. setoid_rewrite elem_of_app. setoid_rewrite list_elem_of_singleton.
      split; [naive_solver|]. intros (x & [Hx| ->] & Hin); [eauto|]. exists p. by rewrite Epath.
    + intros u Hu. destruct (HU u Hu) as [? ?]. split; [|done]. apply elem_of_app. by left.
    + intros x [Hx| ->%list_elem_of_singleton]%elem_of_app Hn; [auto|]. rewrite <- Epath.
      apply HC; [done|]. intros Hcov. apply Hn. by eapply covered_root.
  - assert (¬ covered submitted_for conflicts l) as Hn by by rewrite <- covered_matching; auto.
    assert (lock_path l ∉ lock_path <$> unsubmitted) as Hnew.
    { intros (u & Eu & Hu)%list_elem_of_fmap. destruct (HU u Hu) as [Hb _].
      rewrite <- not_true_iff_false in Hseen. apply Hseen, seen_path. by exists u. }
    split.
    + intros t. rewrite HT. setoid_rewrite elem_of_app. setoid_rewrite list_elem_of_singleton.
      split; [naive_solver|]. intros (x & [Hx| ->] & Hin); [eauto|].
      rewrite Hm in Hin. by apply elem_of_nil in Hin.
    + intros u [Hu| ->%list_elem_of_singleton]%elem_of_app; rewrite elem_of_app.
      * destruct (HU u Hu). by split; [left|].
      * split; [right; by apply list_elem_of_singleton|done].
    + intros x Hx Hxn. rewrite fmap_app, elem_of_app. cbn. rewrite list_elem_of_singleton.
      apply elem_of_app in Hx as [Hx| ->%list_elem_of_singleton]; [left; auto|by right].
    + rewrite fmap_app. apply list.NoDup_app. split; [done|]. split; [|apply list.NoDup_singleton].
      intros p Hp. cbn. rewrite list_elem_of_singleton. by intros ->.
  - split; [|..|done].
    + intros t. rewrite elem_of_app, HT. setoid_rewrite elem_of_app.
      setoid_rewrite list_elem_of_singleton. naive_solver.
    + intros u Hu. destruct (HU u Hu) as [? ?]. split; [|done]. apply elem_of_app. by left.
    + intros x [Hx| ->%list_elem_of_singleton]%elem_of_app Hn; [auto|].
      by apply covered_matching in Hm.
Qed.

Lemma conflicts_inv_empty submitted_for conflicts : conflicts_inv submitted_for conflicts [] [] [].
Proof.
  split; [|by intros ? ?%elem_of_nil|by intros ? ?%elem_of_nil|apply base.NoDup_nil_2].
  intros t. split; [by intros ?%elem_of_nil|by intros (l & ?%elem_of_nil & _)].
Qed.

(** A token was submitted, not negated, for a lock root: in a group of the
    [If] header that is untagged or tagged with the root. *)
Definition token_submitted (prefix : str) (if_header : option IfHeader)
    (request_scheme request_host : str) (path : DavPath) (t : str) : Prop :=
  ∃ h g l, if_header = Some h ∧ g ∈ groups h ∧
    group_applies parse_uri parse_authority percent_decode
      (href_for_dav_path percent_encode prefix path) request_scheme request_host g = true ∧
    l ∈ group_lists g ∧ Token t false ∈ conditions l.

Lemma elem_of_tokens_for prefix if_header request_scheme request_host path t :
  t ∈ tokens_for prefix if_header request_scheme request_host path ↔
  token_submitted prefix if_header request_scheme request_host path t.
Proof.
  unfold tokens_for, token_submitted. destruct if_header as [h|].
  - unfold submitted_mutation_lock_tokens. rewrite elem_of_submitted. split.
    + intros (g & l & [] & Hg & Ha & Hl & Hc & Hn); [by specialize (Hn eq_refl)|]. eauto 10.
    + intros (h' & g & l & [= <-] & Hg & Ha & Hl & Hc). by exists g, l, false.
  - split; [by intros ?%elem_of_nil|by intros (? & ? & ? & [=] & _)].
Qed.

(** C37. A mutation passes lock enforcement only when every conflicting lock
    has, on its own root, some conflicting lock whose token the request
    submitted there without negation; its credentials are then exactly the
    submitted tokens of conflicting locks, sorted and without repetition.
    Otherwise the error names a root for which nothing was submitted; a
    backend error is passed on.  In particular a conflict always stops a
    request without an [If] header. *)
Theorem locks_enforced path deep prefix if_header request_scheme request_host w :
  let submitted := token_submitted prefix if_header request_scheme request_host in
  match enforce_unlocked path deep prefix if_header request_scheme request_host w,
        conflicting_locks path deep w with
  | (Ok credentials, w'), (Ok conflicts, w'') =>
      w' = w'' ∧
      (∀ l, l ∈ conflicts → ∃ l', l' ∈ conflicts ∧ lock_path l' = lock_path l ∧
         submitted (lock_path l) (lock_token l')) ∧
      (∀ t, t ∈ submitted_tokens credentials ↔
         ∃ l, l ∈ conflicts ∧ lock_token l = t ∧ submitted (lock_path l) t) ∧
      StronglySorted key_lt (submitted_tokens credentials) ∧
      (if_header = None → conflicts = [])
  | (Err (LockConflict root), w'), (Ok conflicts, w'') =>
      w' = w'' ∧ (∃ l, l ∈ conflicts ∧ lock_path l = root) ∧
      ∀ l, l ∈ conflicts → lock_path l = root → ¬ submitted root (lock_token l)
  | (Err (LockBackend e), w'), (Err e', w'') => e = e' ∧ w' = w''
  | _, _ => False
  end.
Proof.
  intros submitted. unfold enforce_unlocked, evaluate_lock_conflicts.
  destruct (conflicting_locks path deep w) as [[conflicts|e] w1]; [|done].
  set (sf := tokens_for prefix if_header request_scheme request_host).
  pose proof (evaluate_conflicts_inv sf conflicts [] conflicts [] [] (conflicts_inv_empty sf conflicts)) as HI.
  destruct (evaluate_conflicts sf conflicts [] conflicts [] []) as [tokens unsubmitted].
  cbn [app] in HI. destruct HI as [HT HU HC _]. cbn.
  assert (∀ p t, t ∈ sf p ↔ submitted p t) as Hsub by (intros; apply elem_of_tokens_for).
  destruct unsubmitted as [|u us].
  - assert (∀ l, l ∈ conflicts → ∃ l', l' ∈ conflicts ∧ lock_path l' = lock_path l ∧
      submitted (lock_path l) (lock_token l')) as Hall.
    { intros l Hl. destruct (matching_tokens conflicts (lock_path l) (sf (lock_path l))) eqn:E.
      - exfalso. assert (¬ covered sf conflicts l) as Hn by by rewrite <- covered_matching, E; auto.
        specialize (HC l Hl Hn). by apply elem_of_nil in HC.
      - assert (covered sf conflicts l) as (l' & ? & ? & ?) by by apply covered_matching; rewrite E.
        exists l'. by rewrite <- Hsub. }
    split; [done|]. split; [done|]. split; [|split; [apply sort_dedup_sorted|]].
    + intros t. cbn. rewrite elem_of_sort_dedup, HT. setoid_rewrite elem_of_matching.
      setoid_rewrite Hsub. split.
      * intros (l & Hl & l' & Hl' & Hp & Ht & Hs). exists l'. by rewrite Hp.
      * intros (l & Hl & Ht & Hs). exists l. split; [done|]. by exists l.
    + intros ->. destruct conflicts as [|l conflicts]; [done|].
      destruct (Hall l) as (l' & _ & _ & h & g & x & [=] & _). apply elem_of_cons. by left.
  - destruct (HU u) as [Hu Hn]; [apply elem_of_cons; by left|].
    split; [done|]. split; [by exists u|]. intros l Hl Hp Hs. apply Hn. exists l.
    split; [done|]. split; [done|]. by rewrite Hsub.
Qed.
End locks.
