(* ===== verification/DavMutation.v ===== *)
(** * WebDAV: recursive COPY, MOVE and DELETE

    [aster_forge_webdav/src/mutation.rs] up to its response composition, with
    [DavMutationFailure] of [resource.rs]: the executor that walks source and
    destination collections with an explicit stack of work items, a table of
    frames that carries failures to the enclosing collections, and a traversal
    budget.  The enumerator, the cancellation source and the mutation port act
    on an abstract world.

    An index into the table that is out of range, where the source panics, is
    [None], as is running out of fuel; [DavMutationSpec] proves that neither
    happens.  The two sorts of the source are unstable; their keys are
    distinct for the children of one directory, so a stable sort gives the
    same result. *)
From S2P Require Export DavTraversal.

(** ** Values *)
Inductive DavMutationOperation : Type := OpCopy | OpMove | OpDelete.

#[export] Instance DavMutationOperation_eq_dec : EqDecision DavMutationOperation.
Proof. solve_decision. Defined.

Inductive DavMutationStepKind : Type :=
  | CopyFile | MoveFile | PrepareCollection | DeleteFile | DeleteCollection.

#[export] Instance DavMutationStepKind_eq_dec : EqDecision DavMutationStepKind.
Proof. solve_decision. Defined.

Inductive DavMutationTargetRole : Type := RoleSource | RoleDestination.

Inductive DavResourceKind : Type := KindFile | KindCollection.

#[export] Instance DavResourceKind_eq_dec : EqDecision DavResourceKind.
Proof. solve_decision. Defined.

Record DavMutationCommand : Type := mk_DavMutationCommand {
  command_operation : DavMutationOperation;
  command_step : DavMutationStepKind;
  command_role : DavMutationTargetRole;
  command_source : DavPath;
  command_destination : option DavPath;
}.

Definition DavMutationCommand_affected_path (c : DavMutationCommand) : DavPath :=
  default (command_source c) (command_destination c).

Inductive DavMutationStepError : Type :=
  | StepLocked (affected_path lock_root : DavPath)
  | StepStatus (affected_path : DavPath) (status : Z).

Record DavMutationFailure : Type := mk_DavMutationFailure {
  failure_path : DavPath;
  failure_status : Z;
  failure_lock_path : option DavPath;
}.

Definition DavMutationFailure_locked (path lock_path : DavPath) : DavMutationFailure :=
  mk_DavMutationFailure path 423 (Some lock_path).
Definition DavMutationFailure_status (path : DavPath) (status : Z) : DavMutationFailure :=
  mk_DavMutationFailure path status None.

Definition DavMutationStepError_backend (affected_path : DavPath) : DavMutationStepError :=
  StepStatus affected_path 500.

Definition DavMutationStepError_from_backend (affected_path : DavPath) (error : DavBackendError)
    : DavMutationStepError :=
  StepStatus affected_path
    match backend_error_kind error with
    | DavNotFound => 404
    | DavForbidden => 403
    | DavConflict | DavAlreadyExists => 409
    | DavInsufficientStorage => 507
    | DavPayloadTooLarge => 413
    | DavLocked => 423
    | DavInvalidInput => 400
    | DavUnsupported => 405
    | DavInternal => 500
    end.

Definition DavMutationStepError_into_failure (e : DavMutationStepError) : DavMutationFailure :=
  match e with
  | StepLocked affected_path lock_root => DavMutationFailure_locked affected_path lock_root
  | StepStatus affected_path status => DavMutationFailure_status affected_path status
  end.

Record DavMutationExecutorLimits : Type := mk_DavMutationExecutorLimits {
  traversal : DavTraversalLimits;
  directory_pages : DavDirectoryPageLimits;
  directory_page_entries : Z;
  maximum_directory_entries : Z;
}.

Record DavMutationRequest : Type := mk_DavMutationRequest {
  mutation_operation : DavMutationOperation;
  mutation_source : DavPath;
  mutation_source_kind : DavResourceKind;
  mutation_destination : option DavPath;
  mutation_destination_kind : option DavResourceKind;
  mutation_destination_existed : bool;
  recurse_collections : bool;
}.

Inductive DavMutationStop : Type := StopCancelled | StopInsufficientStorage | StopBackend.

#[export] Instance DavMutationStop_eq_dec : EqDecision DavMutationStop.
Proof. solve_decision. Defined.

Record DavMutationOutcome : Type := mk_DavMutationOutcome {
  outcome_operation : DavMutationOperation;
  outcome_request_target : DavPath;
  outcome_destination_existed : bool;
  outcome_failures : list DavMutationFailure;
  outcome_stop : option DavMutationStop;
  outcome_progress : DavTraversalProgress;
}.

Definition DavMutationOutcome_is_complete_success (o : DavMutationOutcome) : bool :=
  bool_decide (outcome_failures o = []) && bool_decide (outcome_stop o = None).

#[export] Instance DavMutationFailure_eq_dec : EqDecision DavMutationFailure.
Proof. solve_decision. Defined.

Record Child : Type := mk_Child {
  child_entry_name : list Z;
  child_key : list Z;
  child_path : DavPath;
  child_is_collection : bool;
}.

Inductive Work : Type :=
  | TransferDirectory (source destination : DavPath) (depth : Z) (parent : option nat)
  | TransferFile (source destination : DavPath) (depth : Z) (parent : option nat)
  | ReplaceWithFile (source destination : DavPath) (depth : Z) (parent : option nat)
  | DeleteNode (path : DavPath) (is_collection : bool) (role : DavMutationTargetRole) (depth : Z)
      (parent : option nat)
  | FinalizeTransfer (source : DavPath) (frame : nat)
  | FinalizeFileReplacement (source destination : DavPath) (depth : Z) (frame : nat)
  | FinalizeDelete (path : DavPath) (role : DavMutationTargetRole) (frame : nat).

Record Frame : Type := mk_Frame {
  frame_parent : option nat;
  frame_failed : bool;
}.

Definition stop_from_traversal (error : DavTraversalError) : DavMutationStop :=
  match traversal_error_kind error with
  | TraversalCancelled => StopCancelled
  | _ => StopInsufficientStorage
  end.

(** ** Frames *)
(** [frames[frame].failed = true], a panic out of range. *)
Definition fail_frame (frame : nat) (frames : list Frame) : option (list Frame) :=
  f ← frames !! frame; Some (<[frame := mk_Frame (frame_parent f) true]> frames).

Definition propagate_frame_failure (frame : nat) (frames : list Frame) : option (list Frame) :=
  f ← frames !! frame;
  if frame_failed f then
    match frame_parent f with
    | Some parent => fail_frame parent frames
    | None => Some frames
    end
  else Some frames.

(** ** Merging the children of two collections *)
(** The order of the sort: by name, then by key. *)
Definition child_leb (a b : Child) : bool :=
  match slice_cmp (child_entry_name a) (child_entry_name b) with
  | Lt => true
  | Gt => false
  | Eq => negb (bool_decide (slice_cmp (child_key a) (child_key b) = Gt))
  end.

Definition child_order (children : list Child) : list Child :=
  sort_by child_leb children.

Section merging.
Context (destination_root : DavPath) (depth : Z) (frame : nat).

Definition source_child_work (child : Child) : result DavPathError Work :=
  destination ← DavPath_join_child destination_root (child_entry_name child) (child_is_collection child);
  Ok (if child_is_collection child
      then TransferDirectory (child_path child) destination depth (Some frame)
      else TransferFile (child_path child) destination depth (Some frame)).

Definition matching_children_work (source destination : Child) : result DavPathError Work :=
  destination_path ←
    DavPath_join_child destination_root (child_entry_name source) (child_is_collection source);
  Ok (if child_is_collection source
      then TransferDirectory (child_path source) destination_path depth (Some frame)
      else if child_is_collection destination
      then ReplaceWithFile (child_path source) (child_path destination) depth (Some frame)
      else TransferFile (child_path source) destination_path depth (Some frame)).

Definition destination_delete_work (child : Child) : Work :=
  DeleteNode (child_path child) (child_is_collection child) RoleDestination depth (Some frame).

(** The merge loop over the two sorted lists. *)
Fixpoint merge_sorted (source : list Child) : list Child → result DavPathError (list Work) :=
  fix go (destination : list Child) :=
    match source, destination with
    | source_child :: source', destination_child :: destination' =>
        match slice_cmp (child_entry_name source_child) (child_entry_name destination_child) with
        | Lt => item ← source_child_work source_child;
                cons item <$> merge_sorted source' destination
        | Eq => item ← matching_children_work source_child destination_child;
                cons item <$> merge_sorted source' destination'
        | Gt => cons (destination_delete_work destination_child) <$> go destination'
        end
    | source_child :: source', [] =>
        item ← source_child_work source_child; cons item <$> merge_sorted source' []
    | [], destination_child :: destination' =>
        cons (destination_delete_work destination_child) <$> go destination'
    | [], [] => Ok []
    end.

Definition merge_transfer_children (source destination : list Child)
    : result DavPathError (list Work) :=
  merge_sorted (child_order source) (child_order destination).
End merging.

(** ** The executor *)
Section executor.
Context {E C W : Type} `{Countable C} (stable_key entry_name : E → list Z) (is_dir : E → bool).
Context (read_directory_page : DavDirectoryPageRequest (C := C) → W →
           result DavBackendError (DavDirectoryPage (E := E) (C := C)) * W)
        (is_cancelled : W → bool * W)
        (execute : DavMutationCommand → W → result DavMutationStepError unit * W).

(** Failures, budget and world: what the execution accumulates. *)
Record account : Type := mk_account {
  acc_failures : list DavMutationFailure;
  acc_budget : DavTraversalBudget;
  acc_world : W;
}.

Definition with_budget (a : account) (b : DavTraversalBudget) : account :=
  mk_account (acc_failures a) b (acc_world a).
Definition with_world (a : account) (w : W) : account :=
  mk_account (acc_failures a) (acc_budget a) w.

Record execution : Type := mk_execution {
  exec_work : list Work;
  exec_frames : list Frame;
  exec_stop : option DavMutationStop;
  exec_account : account;
}.

Definition stopped (stop : DavMutationStop) (work : list Work) (frames : list Frame) (a : account)
    : execution := mk_execution work frames (Some stop) a.
Definition running (work : list Work) (frames : list Frame) (a : account) : execution :=
  mk_execution work frames None a.

Section operation.
Context (operation : DavMutationOperation) (recurse : bool) (limits : DavMutationExecutorLimits).

(** The entries of one page as children. *)
Fixpoint children_of (path : DavPath) (entries : list E) : result DavDirectoryReadError (list Child) :=
  match entries with
  | [] => Ok []
  | entry :: entries =>
      child_path ← map_err (λ _, ReadBackend (DavBackendError_new DavInternal))
        (DavPath_join_child path (entry_name entry) (is_dir entry));
      cons (mk_Child (entry_name entry) (stable_key entry) child_path (is_dir entry))
        <$> children_of path entries
  end.

(** The loop of [read_children]; one turn per page. *)
Fixpoint read_children_from (fuel : nat) (path : DavPath) (state : DavDirectoryPageState)
    (children : list Child) (w : W) : option (result DavDirectoryReadError (list Child) * W) :=
  match fuel with
  | O => None
  | S fuel =>
      let '(r, state, w) := read_next_directory_page stable_key read_directory_page is_cancelled
        path (directory_page_entries limits) (directory_pages limits) state w in
      match r with
      | Err e => Some (Err e, w)
      | Ok None => Some (Ok children, w)
      | Ok (Some page) =>
          if match checked_add USIZE_MAX (Z.of_nat (length children))
                     (Z.of_nat (length (validated_entries page))) with
             | Some count => bool_decide (maximum_directory_entries limits < count)
             | None => true
             end then Some (Err (ReadBackend (DavBackendError_new DavInsufficientStorage)), w)
          else match children_of path (validated_entries page) with
          | Err e => Some (Err e, w)
          | Ok more => read_children_from fuel path state (children ++ more) w
          end
      end
  end.

(** [maximum_pages] pages and the request that finds none left. *)
Definition read_fuel : nat := S (S (Z.to_nat (maximum_pages (directory_pages limits)))).

Definition read_children (path : DavPath) (w : W)
    : option (result DavDirectoryReadError (list Child) * W) :=
  read_children_from read_fuel path DavDirectoryPageState_new [] w.

(** The answer is whether the step was applied. *)
Definition apply_step (command : DavMutationCommand) (frame : nat) (frames : list Frame) (a : account)
    : option (result DavTraversalError bool * list Frame * account) :=
  match execute command (acc_world a) with
  | (Ok _, w) =>
      Some (Ok true, frames,
            mk_account (acc_failures a) (DavTraversalBudget_record_completed_mutation (acc_budget a)) w)
  | (Err error, w) =>
      frames ← fail_frame frame frames;
      Some match DavTraversalBudget_record_failure (acc_budget a) with
           | (Err e, b) => (Err e, frames, mk_account (acc_failures a) b w)
           | (Ok _, b) =>
               (Ok false, frames,
                mk_account (acc_failures a ++ [DavMutationStepError_into_failure error]) b w)
           end
  end.

(** The stop it sets, the frames and the account it leaves. *)
Definition record_directory_read_failure (error : DavDirectoryReadError) (path : DavPath)
    (frame : nat) (frames : list Frame) (a : account)
    : option (option DavMutationStop * list Frame * account) :=
  match error with
  | ReadCancelled => Some (Some StopCancelled, frames, a)
  | PageLimitExceeded | ReadInvalidLimit | InvalidPage _ =>
      Some (Some StopInsufficientStorage, frames, a)
  | ReadBackend error =>
      if decide (backend_error_kind error = DavInsufficientStorage) then
        Some (Some StopInsufficientStorage, frames, a)
      else
        frames ← fail_frame frame frames;
        Some match DavTraversalBudget_record_failure (acc_budget a) with
             | (Err e, b) => (Some (stop_from_traversal e), frames, with_budget a b)
             | (Ok _, b) =>
                 (None, frames,
                  mk_account (acc_failures a ++ [DavMutationStepError_into_failure
                      (DavMutationStepError_from_backend path error)]) b (acc_world a))
             end
  end.

(** A step, after which the loop goes on; [finish] says what else the item
    does to the frames. *)
Definition step_then (finish : list Frame → option (list Frame)) (command : DavMutationCommand)
    (frame : nat) (work : list Work) (frames : list Frame) (a : account) : option execution :=
  '(r, frames, a) ← apply_step command frame frames a;
  frames ← finish frames;
  Some (mk_execution work frames
          (match r with Ok _ => None | Err e => Some (stop_from_traversal e) end) a).

(** [budget.visit(depth)] or stop. *)
Definition visiting (depth : Z) (work : list Work) (frames : list Frame) (a : account)
    (k : account → option execution) : option execution :=
  match DavTraversalBudget_visit depth (acc_budget a) with
  | (Err e, b) => Some (stopped (stop_from_traversal e) work frames (with_budget a b))
  | (Ok _, b) => k (with_budget a b)
  end.

(** [budget.reserve_work(next.len())] or stop, then [next] goes on the stack. *)
Definition push_work (next work : list Work) (frames : list Frame) (a : account) : execution :=
  match DavTraversalBudget_reserve_work (Z.of_nat (length next)) (acc_budget a) with
  | (Err e, b) => stopped (stop_from_traversal e) work frames (with_budget a b)
  | (Ok _, b) => running (next ++ work) frames (with_budget a b)
  end.

(** [read_children] or the end of the item. *)
Definition reading (path : DavPath) (frame : nat) (work : list Work) (frames : list Frame)
    (a : account) (k : list Child → account → option execution) : option execution :=
  '(r, w) ← read_children path (acc_world a);
  let a := with_world a w in
  match r with
  | Ok children => k children a
  | Err error =>
      '(stop, frames, a) ← record_directory_read_failure error path frame frames a;
      frames ← propagate_frame_failure frame frames;
      Some (mk_execution work frames stop a)
  end.

(** [parent.unwrap_or_else(..)]: the frame of a file. *)
Definition file_frame (parent : option nat) (frames : list Frame) : nat * list Frame :=
  match parent with
  | Some frame => (frame, frames)
  | None => (length frames, frames ++ [mk_Frame None false])
  end.

Definition transfer_command (source destination : DavPath) : DavMutationCommand :=
  mk_DavMutationCommand operation (if decide (operation = OpMove) then MoveFile else CopyFile)
    RoleDestination source (Some destination).

Definition transfer_directory (source destination : DavPath) (depth : Z) (parent : option nat)
    (work : list Work) (frames : list Frame) (a : account) : option execution :=
  visiting depth work frames a (λ a,
    let frame := length frames in
    let frames := frames ++ [mk_Frame parent false] in
    '(r, frames, a) ← apply_step
       (mk_DavMutationCommand operation PrepareCollection RoleDestination source (Some destination))
       frame frames a;
    let stop := match r with Ok _ => None | Err e => Some (stop_from_traversal e) end in
    let applied := match r with Ok applied => applied | Err _ => false end in
    if negb applied || negb recurse then
      frames ← propagate_frame_failure frame frames;
      Some (mk_execution work frames stop a)
    else
      reading source frame work frames a (λ source_children a,
      reading destination frame work frames a (λ destination_children a,
      match checked_add USIZE_MAX depth 1 with
      | None => Some (stopped StopInsufficientStorage work frames a)
      | Some child_depth =>
          match merge_transfer_children destination child_depth frame source_children
                  destination_children with
          | Err _ =>
              frames ← propagate_frame_failure frame frames;
              Some (stopped StopBackend work frames a)
          | Ok next => Some (push_work (next ++ [FinalizeTransfer source frame]) work frames a)
          end
      end))).

Definition delete_directory (path : DavPath) (role : DavMutationTargetRole) (depth : Z)
    (parent : option nat) (work : list Work) (frames : list Frame) (a : account) : option execution :=
  visiting depth work frames a (λ a,
    let frame := length frames in
    let frames := frames ++ [mk_Frame parent false] in
    reading path frame work frames a (λ children a,
    match checked_add USIZE_MAX depth 1 with
    | None => Some (stopped StopInsufficientStorage work frames a)
    | Some child_depth =>
        Some (push_work
          (map (λ child, DeleteNode (child_path child) (child_is_collection child) role child_depth
                           (Some frame)) children ++ [FinalizeDelete path role frame])
          work frames a)
    end)).

(** A finalizer: propagate when the frame failed, [k] otherwise. *)
Definition finalizing (frame : nat) (work : list Work) (frames : list Frame) (a : account)
    (skip : bool) (k : option execution) : option execution :=
  f ← frames !! frame;
  if skip || frame_failed f then
    frames ← propagate_frame_failure frame frames;
    Some (running work frames a)
  else k.

(** One item of the loop. *)
Definition process (item : Work) (work : list Work) (frames : list Frame) (a : account)
    : option execution :=
  match item with
  | TransferFile source destination depth parent =>
      visiting depth work frames a (λ a,
        let '(frame, frames) := file_frame parent frames in
        step_then Some (transfer_command source destination) frame work frames a)
  | ReplaceWithFile source destination depth parent =>
      let frame := length frames in
      let frames := frames ++ [mk_Frame parent false] in
      Some (push_work
        [DeleteNode destination true RoleDestination depth (Some frame);
         FinalizeFileReplacement source destination depth frame] work frames a)
  | TransferDirectory source destination depth parent =>
      transfer_directory source destination depth parent work frames a
  | DeleteNode path false role depth parent =>
      visiting depth work frames a (λ a,
        let '(frame, frames) := file_frame parent frames in
        step_then Some (mk_DavMutationCommand operation DeleteFile role path None)
          frame work frames a)
  | DeleteNode path true role depth parent =>
      delete_directory path role depth parent work frames a
  | FinalizeTransfer source frame =>
      finalizing frame work frames a (negb (bool_decide (operation = OpMove)))
        (step_then (propagate_frame_failure frame)
           (mk_DavMutationCommand operation DeleteCollection RoleSource source None)
           frame work frames a)
  | FinalizeFileReplacement source destination depth frame =>
      finalizing frame work frames a false
        (visiting depth work frames a (λ a,
           step_then (propagate_frame_failure frame) (transfer_command source destination)
             frame work frames a))
  | FinalizeDelete path role frame =>
      finalizing frame work frames a false
        (step_then (propagate_frame_failure frame)
           (mk_DavMutationCommand operation DeleteCollection role path None)
           frame work frames a)
  end.

(** [while stop.is_none()]. *)
Fixpoint run_work (fuel : nat) (x : execution) : option execution :=
  match fuel with
  | O => None
  | S fuel =>
      match exec_stop x with
      | Some _ => Some x
      | None =>
          let a := exec_account x in
          let '(cancelled, w) := is_cancelled (acc_world a) in
          let a := with_world a w in
          match DavTraversalBudget_checkpoint cancelled (acc_budget a) with
          | Err e => Some (stopped (stop_from_traversal e) (exec_work x) (exec_frames x) a)
          | Ok _ =>
              match exec_work x with
              | [] => Some (running [] (exec_frames x) a)
              | item :: work =>
                  x ← process item work (exec_frames x)
                        (with_budget a (DavTraversalBudget_complete_work (acc_budget a)));
                  run_work fuel x
              end
          end
      end
  end.
End operation.

(** The first work item of a request, unless its shape is invalid. *)
Definition root_work (request : DavMutationRequest) : option Work :=
  let source := mutation_source request in
  match mutation_operation request, mutation_source_kind request, mutation_destination request,
        mutation_destination_kind request with
  | OpDelete, kind, _, _ =>
      Some (DeleteNode source (bool_decide (kind = KindCollection)) RoleSource 0 None)
  | OpMove, KindCollection, Some destination, _ =>
      if recurse_collections request then Some (TransferDirectory source destination 0 None) else None
  | _, KindFile, Some destination, Some KindCollection =>
      Some (ReplaceWithFile source destination 0 None)
  | _, KindFile, Some destination, _ => Some (TransferFile source destination 0 None)
  | OpCopy, KindCollection, Some destination, _ => Some (TransferDirectory source destination 0 None)
  | _, _, None, _ => None
  end.

Definition mutation_outcome (request : DavMutationRequest) (failures : list DavMutationFailure)
    (stop : option DavMutationStop) (progress : DavTraversalProgress) : DavMutationOutcome :=
  mk_DavMutationOutcome (mutation_operation request)
    (default (mutation_source request) (mutation_destination request))
    (mutation_destination_existed request) failures stop progress.

Definition execute_recursive_mutation (fuel : nat) (request : DavMutationRequest)
    (limits : DavMutationExecutorLimits) (w : W) : option (DavMutationOutcome * W) :=
  match DavTraversalBudget_new (traversal limits) with
  | Err error =>
      Some (mutation_outcome request [] (Some (stop_from_traversal error))
              (traversal_error_progress error), w)
  | Ok budget =>
      if decide (directory_page_entries limits = 0 ∨ maximum_directory_entries limits = 0) then
        Some (mutation_outcome request [] (Some StopInsufficientStorage) (budget_progress budget), w)
      else match root_work request with
      | None => Some (mutation_outcome request [] (Some StopBackend) (budget_progress budget), w)
      | Some root =>
          x ← run_work (mutation_operation request) (recurse_collections request) limits fuel
                (push_work [root] [] [] (mk_account [] budget w));
          let a := exec_account x in
          Some (mutation_outcome request (acc_failures a) (exec_stop x)
                  (budget_progress (acc_budget a)), acc_world a)
      end
  end.
End executor.
