(* ===== verification/DavMutationSpec.v ===== *)
(** * WebDAV: recursive mutations against a recursive reference

    The reference walks the collections by recursion on the tree, with a
    state-and-stop monad instead of the stack and a returned flag instead of
    the frames.  [mutation_walks] shows that the executor of [DavMutation]
    computes the same outcome, within a number of iterations linear in the
    visited-resource limit. *)
From S2P Require Export DavMutation.

Section spec.
Context {E C W : Type} `{Countable C} (stable_key entry_name : E → list Z) (is_dir : E → bool).
Context (read_directory_page : DavDirectoryPageRequest (C := C) → W →
           result DavBackendError (DavDirectoryPage (E := E) (C := C)) * W)
        (is_cancelled : W → bool * W)
        (execute : DavMutationCommand → W → result DavMutationStepError unit * W).

(** ** The monad of the reference *)
(** [None] is lack of fuel. *)
Definition walk (A : Type) : Type :=
  account (W := W) → option (result DavMutationStop A * account (W := W)).

#[export] Instance walk_ret : MRet walk := λ A x a, Some (Ok x, a).
#[export] Instance walk_bind : MBind walk := λ A B f m a,
  match m a with
  | Some (Ok x, a) => f x a
  | Some (Err s, a) => Some (Err s, a)
  | None => None
  end.

Definition stop_walk {A} (s : DavMutationStop) : walk A := λ a, Some (Err s, a).

(** A budget operation. *)
Definition walk_budget (op : DavTraversalBudget → result DavTraversalError unit * DavTraversalBudget)
    : walk unit := λ a,
  let '(r, b) := op (acc_budget a) in Some (map_err stop_from_traversal r, with_budget a b).

(** The cancellation check. *)
Definition walk_checkpoint : walk unit := λ a,
  let '(cancelled, w) := is_cancelled (acc_world a) in
  Some (if cancelled then Err StopCancelled else Ok tt, with_world a w).

(** The check before each piece of work and the end of its wait. *)
Definition walk_enter : walk unit :=
  _ ← walk_checkpoint; walk_budget (λ b, (Ok tt, DavTraversalBudget_complete_work b)).

Definition walk_record (failure : DavMutationFailure) : walk unit := λ a,
  Some (Ok tt, mk_account (acc_failures a ++ [failure]) (acc_budget a) (acc_world a)).

(** Counting a failure and recording it. *)
Definition walk_failure (failure : DavMutationFailure) : walk unit :=
  _ ← walk_budget DavTraversalBudget_record_failure; walk_record failure.

(** One step of the port; the answer is whether it failed. *)
Definition walk_step (command : DavMutationCommand) : walk bool := λ a,
  match execute command (acc_world a) with
  | (Ok _, w) =>
      Some (Ok false, mk_account (acc_failures a)
                        (DavTraversalBudget_record_completed_mutation (acc_budget a)) w)
  | (Err error, w) =>
      (_ ← walk_failure (DavMutationStepError_into_failure error); mret true) (with_world a w)
  end.

Section operation.
Context (operation : DavMutationOperation) (recurse : bool) (limits : DavMutationExecutorLimits).

(** The children of a collection, or [None] when the product could not list
    it and the failure is recorded. *)
Definition walk_children (path : DavPath) : walk (option (list Child)) := λ a,
  '(r, w) ← read_children stable_key entry_name is_dir read_directory_page is_cancelled limits
              path (acc_world a);
  match r with
  | Ok children => Some (Ok (Some children), with_world a w)
  | Err ReadCancelled => Some (Err StopCancelled, with_world a w)
  | Err (ReadBackend error) =>
      if decide (backend_error_kind error = DavInsufficientStorage) then
        Some (Err StopInsufficientStorage, with_world a w)
      else
        (_ ← walk_failure (DavMutationStepError_into_failure
               (DavMutationStepError_from_backend path error)); mret None) (with_world a w)
  | Err _ => Some (Err StopInsufficientStorage, with_world a w)
  end.

Definition walk_depth (depth : Z) : walk Z :=
  match checked_add USIZE_MAX depth 1 with
  | Some depth => mret depth
  | None => stop_walk StopInsufficientStorage
  end.

Definition walk_merge (destination : DavPath) (depth : Z) (source_children destination_children : list Child)
    : walk (list Work) :=
  match merge_transfer_children destination depth 0 source_children destination_children with
  | Ok next => mret next
  | Err _ => stop_walk StopBackend
  end.

Definition walk_visit (depth : Z) : walk unit := walk_budget (DavTraversalBudget_visit depth).
Definition walk_reserve (n : nat) : walk unit :=
  walk_budget (DavTraversalBudget_reserve_work (Z.of_nat n)).

(** The items of a collection in order; the answer is whether any failed. *)
Fixpoint walk_all (f : Work → walk bool) (items : list Work) : walk bool :=
  match items with
  | [] => mret false
  | item :: items => failed ← f item; more ← walk_all f items; mret (failed || more)
  end.

(** The whole tree of an item, by recursion on the tree; parents and
    finalizers play no part. *)
Fixpoint walk_item (fuel : nat) (item : Work) : walk bool :=
  match fuel with
  | O => λ _, None
  | S fuel =>
      _ ← walk_enter;
      match item with
      | TransferFile source destination depth _ =>
          _ ← walk_visit depth; walk_step (transfer_command operation source destination)
      | TransferDirectory source destination depth _ =>
          _ ← walk_visit depth;
          failed ← walk_step (mk_DavMutationCommand operation PrepareCollection RoleDestination source
                                (Some destination));
          if failed || negb recurse then mret failed
          else
            source_children ← walk_children source;
            match source_children with
            | None => mret true
            | Some source_children =>
                destination_children ← walk_children destination;
                match destination_children with
                | None => mret true
                | Some destination_children =>
                    child_depth ← walk_depth depth;
                    next ← walk_merge destination child_depth source_children destination_children;
                    _ ← walk_reserve (S (length next));
                    failed ← walk_all (walk_item fuel) next;
                    _ ← walk_enter;
                    if negb (bool_decide (operation = OpMove)) || failed then mret failed
                    else walk_step
                      (mk_DavMutationCommand operation DeleteCollection RoleSource source None)
                end
            end
      | ReplaceWithFile source destination depth _ =>
          _ ← walk_reserve 2;
          failed ← walk_item fuel (DeleteNode destination true RoleDestination depth None);
          _ ← walk_enter;
          if failed : bool then mret true
          else _ ← walk_visit depth; walk_step (transfer_command operation source destination)
      | DeleteNode path false role depth _ =>
          _ ← walk_visit depth;
          walk_step (mk_DavMutationCommand operation DeleteFile role path None)
      | DeleteNode path true role depth _ =>
          _ ← walk_visit depth;
          children ← walk_children path;
          match children with
          | None => mret true
          | Some children =>
              child_depth ← walk_depth depth;
              _ ← walk_reserve (S (length children));
              failed ← walk_all (walk_item fuel)
                (map (λ child, DeleteNode (child_path child) (child_is_collection child) role
                                 child_depth None) children);
              _ ← walk_enter;
              if failed : bool then mret failed
              else walk_step (mk_DavMutationCommand operation DeleteCollection role path None)
          end
      | _ => mret false
      end
  end.

(** A directory of a transfer may be followed by a replaced collection at the
    same depth. *)
Definition walk_fuel : nat :=
  S (S (2 * Z.to_nat (maximum_visited_resources (traversal limits)))).

Definition walk_root (root : Work) : walk unit :=
  _ ← walk_reserve 1; _ ← walk_item walk_fuel root; walk_checkpoint.
End operation.

(** The reference for a whole request. *)
Definition mutation_reference (request : DavMutationRequest) (limits : DavMutationExecutorLimits) (w : W)
    : option (DavMutationOutcome * W) :=
  match DavTraversalBudget_new (traversal limits) with
  | Err error =>
      Some (mutation_outcome request [] (Some (stop_from_traversal error))
              (traversal_error_progress error), w)
  | Ok budget =>
      if decide (directory_page_entries limits = 0 ∨ maximum_directory_entries limits = 0) then
        Some (mutation_outcome request [] (Some StopInsufficientStorage) (budget_progress budget), w)
      else match root_work request with
      | None => Some (mutation_outcome request [] (Some StopBackend) (budget_progress budget), w)
      | Some root =>
          '(r, a) ← walk_root (mutation_operation request) (recurse_collections request) limits root
                      (mk_account [] budget w);
          Some (mutation_outcome request (acc_failures a)
                  (match r with Ok _ => None | Err s => Some s end) (budget_progress (acc_budget a)),
                acc_world a)
      end
  end.

(** ** Verification *)
Lemma walk_bind_some {A B} (m : walk A) (f : A → walk B) a r a' :
  (m ≫= f) a = Some (r, a') →
  (∃ x a1, m a = Some (Ok x, a1) ∧ f x a1 = Some (r, a')) ∨
  (∃ s, m a = Some (Err s, a') ∧ r = Err s).
Proof.
  unfold mbind, walk_bind. destruct (m a) as [[[x|s] a1]|]; [|intros [= <- <-]|done]; eauto.
Qed.

Lemma walk_bind_total {A B} (m : walk A) (f : A → walk B) a :
  is_Some (m a) → (∀ x a1, m a = Some (Ok x, a1) → is_Some (f x a1)) → is_Some ((m ≫= f) a).
Proof.
  intros [[[x|s] a1] E1] Hf; unfold mbind, walk_bind; rewrite E1; [by apply Hf|by eexists].
Qed.

Lemma walk_ret_bind {A B} (x : A) (f : A → walk B) a : (mret x ≫= f) a = f x a.
Proof. done. Qed.

Lemma walk_stop_bind {A B} s (f : A → walk B) a : (stop_walk s ≫= f) a = Some (Err s, a).
Proof. done. Qed.

Lemma walk_ret_some {A} (x : A) a r a' :
  (mret x : walk A) a = Some (r, a') → r = Ok x ∧ a' = a.
Proof. by intros [= <- <-]. Qed.

(** *** Visits *)
Definition visited (a : account (W := W)) : Z := visited_resources (budget_progress (acc_budget a)).
Definition visit_limit (a : account (W := W)) : Z :=
  maximum_visited_resources (budget_limits (acc_budget a)).

(** [m] visits nothing. *)
Definition idle {A} (m : walk A) : Prop :=
  ∀ a r a', m a = Some (r, a') → visited a' = visited a ∧ visit_limit a' = visit_limit a.

Lemma idle_ret {A} (x : A) : idle (mret x : walk A).
Proof. by intros a r a' [-> ->]%walk_ret_some. Qed.

Lemma idle_bind {A B} (m : walk A) (f : A → walk B) :
  idle m → (∀ x, idle (f x)) → idle (m ≫= f).
Proof.
  intros Hm Hf a r a' [(x & a1 & E1 & E2)|(s & E1 & ->)]%walk_bind_some; [|by eapply Hm].
  destruct (Hm _ _ _ E1) as [<- <-]. by eapply Hf.
Qed.

Lemma idle_budget op :
  (∀ b, let '(_, b') := op b in
     visited_resources (budget_progress b') = visited_resources (budget_progress b) ∧
     budget_limits b' = budget_limits b) →
  idle (walk_budget op).
Proof.
  intros Hop a r a'. unfold walk_budget. specialize (Hop (acc_budget a)).
  destruct (op (acc_budget a)) as [r0 b]. intros [= <- <-].
  unfold visited, visit_limit. cbn. destruct Hop as [-> ->]. done.
Qed.

Lemma idle_reserve n : idle (walk_reserve n).
Proof.
  apply idle_budget. intros b. unfold DavTraversalBudget_reserve_work.
  destruct (checked_add _ _ _); [case_decide|]; done.
Qed.

Lemma idle_failure failure : idle (walk_failure failure).
Proof.
  apply idle_bind.
  - apply idle_budget. intros b. unfold DavTraversalBudget_record_failure.
    by destruct (checked_increment _ _).
  - intros _ a r a' [= <- <-]. done.
Qed.

Lemma idle_checkpoint : idle walk_checkpoint.
Proof. intros a r a'. unfold walk_checkpoint. destruct (is_cancelled _). by intros [= <- <-]. Qed.

Lemma idle_enter : idle walk_enter.
Proof. apply idle_bind; [apply idle_checkpoint|]. intros _. by apply idle_budget. Qed.

Lemma idle_step command : idle (walk_step command).
Proof.
  intros a r a'. unfold walk_step. destruct (execute command _) as [[u|e] w]; [by intros [= <- <-]|].
  intros Hm. change (visited a) with (visited (with_world a w)).
  change (visit_limit a) with (visit_limit (with_world a w)). revert Hm.
  apply idle_bind; [apply idle_failure|]. intros _. apply idle_ret.
Qed.

Lemma idle_children limits path : idle (walk_children limits path).
Proof.
  intros a r a'. unfold walk_children. destruct (read_children _ _ _ _ _ _ _ _) as [[r0 w]|]; [|done].
  cbn. destruct r0 as [children|[]]; try by intros [= <- <-].
  case_decide; [by intros [= <- <-]|]. intros Hm.
  change (visited a) with (visited (with_world a w)).
  change (visit_limit a) with (visit_limit (with_world a w)). revert Hm.
  apply idle_bind; [apply idle_failure|]. intros _. apply idle_ret.
Qed.

Lemma idle_depth depth : idle (walk_depth depth).
Proof. unfold walk_depth. destruct (checked_add _ _ _); [apply idle_ret|]. by intros a r a' [= <- <-]. Qed.

Lemma idle_merge d depth sc dc : idle (walk_merge d depth sc dc).
Proof.
  unfold walk_merge. destruct (merge_transfer_children _ _ _ _ _); [apply idle_ret|].
  by intros a r a' [= <- <-].
Qed.

Lemma visit_some depth a r a' :
  walk_visit depth a = Some (r, a') →
  visit_limit a' = visit_limit a ∧
  match r with
  | Ok _ => visited a' = visited a + 1 ∧ visited a' ≤ visit_limit a
  | Err _ => visited a' = visited a
  end.
Proof.
  unfold walk_visit, walk_budget, DavTraversalBudget_visit.
  destruct (match maximum_depth _ with Some _ => _ | None => _ end); [by intros [= <- <-]|].
  unfold checked_increment, checked_add.
  destruct (decide (_ + 1 ≤ USIZE_MAX)); cbn; [|by intros [= <- <-]].
  case_decide; cbn; [|by intros [= <- <-]]. intros [= <- <-]. done.
Qed.

(** Visits only grow, up to the limit. *)
Definition grows {A} (m : walk A) : Prop :=
  ∀ a r a', m a = Some (r, a') →
    visited a ≤ visited a' ∧ visit_limit a' = visit_limit a ∧
    visited a' ≤ Z.max (visited a) (visit_limit a).

Lemma idle_grows {A} (m : walk A) : idle m → grows m.
Proof. intros Hm a r a' E1. destruct (Hm _ _ _ E1) as [-> ->]. repeat split; lia. Qed.

Lemma grows_bind {A B} (m : walk A) (f : A → walk B) :
  grows m → (∀ x, grows (f x)) → grows (m ≫= f).
Proof.
  intros Hm Hf a r a' [(x & a1 & E1 & E2)|(s & E1 & ->)]%walk_bind_some; [|by eapply Hm].
  destruct (Hm _ _ _ E1) as (? & Hl & ?). destruct (Hf _ _ _ _ E2) as (? & Hl' & ?).
  rewrite Hl in *. repeat split; [lia|done|lia].
Qed.

Lemma grows_visit depth : grows (walk_visit depth).
Proof.
  intros a r a' E1. destruct (visit_some _ _ _ _ E1) as [Hl Hr].
  destruct r; repeat split; lia.
Qed.

Lemma grows_all f items : (∀ item, grows (f item)) → grows (walk_all f items).
Proof.
  intros Hf. induction items as [|item items IH]; [apply idle_grows, idle_ret|].
  apply grows_bind; [done|]. intros failed. apply grows_bind; [done|]. intros more.
  apply idle_grows, idle_ret.
Qed.

Create HintDb walks.
#[local] Hint Resolve idle_enter idle_checkpoint idle_step idle_children idle_depth idle_merge
  idle_reserve idle_ret : walks.

Ltac walk_cases :=
  repeat match goal with
    | |- grows (_ ≫= _) => apply grows_bind; [|intros ?]
    | |- grows (walk_visit _) => apply grows_visit
    | |- grows (walk_all _ _) => apply grows_all
    | |- grows (match ?x with _ => _ end) => destruct x
    | |- grows _ => solve [apply idle_grows; auto with walks]
    end.

Lemma grows_item operation recurse limits fuel item : grows (walk_item operation recurse limits fuel item).
Proof.
  revert item. induction fuel as [|fuel IH]; intros item; [done|].
  destruct item; cbn [walk_item]; walk_cases; auto.
Qed.

(** *** Enough fuel *)
Lemma walk_bind_idle {A B} (m : walk A) (f : A → walk B) a :
  is_Some (m a) → idle m →
  (∀ x a1, visited a1 = visited a → visit_limit a1 = visit_limit a → is_Some (f x a1)) →
  is_Some ((m ≫= f) a).
Proof.
  intros Hm Hi Hf. apply walk_bind_total; [done|]. intros x a1 E1. destruct (Hi _ _ _ E1). by apply Hf.
Qed.

Lemma total_ret {A} (x : A) a : is_Some ((mret x : walk A) a).
Proof. by eexists. Qed.

Lemma total_budget op a : is_Some (walk_budget op a).
Proof. unfold walk_budget. destruct (op _). by eexists. Qed.

Lemma total_checkpoint a : is_Some (walk_checkpoint a).
Proof. unfold walk_checkpoint. destruct (is_cancelled _). by eexists. Qed.

Lemma total_enter a : is_Some (walk_enter a).
Proof. apply walk_bind_total; [apply total_checkpoint|]. intros. apply total_budget. Qed.

Lemma total_failure failure a : is_Some (walk_failure failure a).
Proof. apply walk_bind_total; [apply total_budget|]. by eexists. Qed.

Lemma total_step command a : is_Some (walk_step command a).
Proof.
  unfold walk_step. destruct (execute command _) as [[u|e] w]; [by eexists|].
  apply walk_bind_total; [apply total_failure|]. intros. apply total_ret.
Qed.

Lemma total_depth depth a : is_Some (walk_depth depth a).
Proof. unfold walk_depth. destruct (checked_add _ _ _); by eexists. Qed.

Lemma total_merge d depth sc dc a : is_Some (walk_merge d depth sc dc a).
Proof. unfold walk_merge. destruct (merge_transfer_children _ _ _ _ _); by eexists. Qed.

Lemma read_children_from_total limits fuel path state children w :
  (Z.to_nat (maximum_pages (directory_pages limits) - pages_read state) < fuel)%nat →
  is_Some (read_children_from stable_key entry_name is_dir read_directory_page is_cancelled limits
             fuel path state children w).
Proof.
  revert state children w. induction fuel as [|fuel IH]; intros state children w Hf; [lia|]. cbn.
  pose proof (read_next_pages stable_key read_directory_page is_cancelled path
    (directory_page_entries limits) (directory_pages limits) state w) as Hn.
  destruct (read_next_directory_page _ _ _ _ _ _ _ _) as [[[[page|]|e] s] w1]; try by eexists.
  destruct (match checked_add _ _ _ with Some _ => _ | None => _ end); [by eexists|].
  destruct (children_of _ _ _ _ _); [|by eexists]. apply IH. lia.
Qed.

Lemma total_children limits path a : is_Some (walk_children limits path a).
Proof.
  unfold walk_children, read_children.
  destruct (read_children_from_total limits (read_fuel limits) path DavDirectoryPageState_new []
    (acc_world a)) as [[r w] ->]; [unfold read_fuel; cbn; lia|].
  cbn. destruct r as [children|[| | |error|error]]; try by eexists.
  case_decide; [by eexists|]. apply walk_bind_total; [apply total_failure|]. intros. apply total_ret.
Qed.

Create HintDb totals.
#[local] Hint Resolve total_ret total_budget total_enter total_step total_depth total_merge
  total_children : totals.

Lemma total_all f items a :
  (∀ item, grows (f item)) →
  (∀ item a1, visited a ≤ visited a1 → visit_limit a1 = visit_limit a → is_Some (f item a1)) →
  is_Some (walk_all f items a).
Proof.
  intros Hg. revert a. induction items as [|item items IH]; intros a Hf; [by eexists|]. cbn.
  apply walk_bind_total; [by apply Hf|]. intros failed a1 E1. destruct (Hg _ _ _ _ E1) as (Hv & Hl & _).
  apply walk_bind_total; [|intros; apply total_ret]. apply IH. intros x a2 Hv2 Hl2.
  apply Hf; [lia|congruence].
Qed.

(** The turns that the tree under an item can need: its visits, and twice
    that for replaced collections. *)
Definition item_fuel (item : Work) (a : account (W := W)) : nat :=
  (2 * Z.to_nat (visit_limit a - visited a) +
   match item with ReplaceWithFile _ _ _ _ => 2 | _ => 1 end)%nat.

Ltac total_idle :=
  apply walk_bind_idle; [solve [auto with totals]|solve [auto with walks]|intros].

Lemma total_item operation recurse limits fuel item a :
  (item_fuel item a ≤ fuel)%nat → is_Some (walk_item operation recurse limits fuel item a).
Proof.
  revert item a. induction fuel as [|fuel IH]; intros item a Hf; [unfold item_fuel in Hf; destruct item; lia|].
  assert (∀ items a1, (2 * Z.to_nat (visit_limit a1 - visited a1) + 2 ≤ fuel)%nat →
    is_Some (walk_all (walk_item operation recurse limits fuel) items a1)) as Hall.
  { intros items a1 Hf1. apply total_all; [intros; apply grows_item|]. intros x a2 Hv Hl. apply IH.
    unfold item_fuel. rewrite Hl. destruct x; lia. }
  unfold item_fuel in Hf.
  assert (∀ depth (k : walk bool),
    (∀ a1, visited a1 = visited a + 1 → visited a1 ≤ visit_limit a → visit_limit a1 = visit_limit a →
       is_Some (k a1)) →
    ∀ a1, visited a1 = visited a → visit_limit a1 = visit_limit a →
    is_Some ((_ ← walk_visit depth; k) a1)) as Hvisit.
  { intros depth k Hk a1 Hv Hl. apply walk_bind_total; [apply total_budget|]. intros [] a2 E1.
    apply visit_some in E1 as (Hl1 & Hv1 & Hv2). apply Hk; congruence || lia. }
  destruct item as [source destination depth parent|source destination depth parent|
    source destination depth parent|path [] role depth parent| | |]; cbn [walk_item]; total_idle.
  - apply Hvisit; [|done..]. intros. total_idle. destruct (_ || _); [auto with totals|].
    total_idle. case_match; [|auto with totals]. total_idle. case_match; [|auto with totals].
    total_idle. total_idle. apply walk_bind_idle; [apply total_budget|apply idle_reserve|]. intros.
    apply walk_bind_total; [apply Hall; lia|]. intros. total_idle.
    destruct (_ || _); auto with totals.
  - apply Hvisit; [|done..]. auto with totals.
  - apply walk_bind_idle; [apply total_budget|apply idle_reserve|]. intros.
    apply walk_bind_total; [apply IH; unfold item_fuel; lia|]. intros. total_idle.
    case_match; [auto with totals|]. apply walk_bind_total; [apply total_budget|auto with totals].
  - apply Hvisit; [|done..]. intros. total_idle. case_match; [|auto with totals].
    total_idle. apply walk_bind_idle; [apply total_budget|apply idle_reserve|]. intros.
    apply walk_bind_total; [apply Hall; lia|]. intros. total_idle.
    case_match; auto with totals.
  - apply Hvisit; [|done..]. auto with totals.
  - auto with totals.
  - auto with totals.
  - auto with totals.
Qed.

(** *** Frames *)
Definition mark (parent : option nat) (failed : bool) (frames : list Frame) : list Frame :=
  match parent, failed with
  | Some p, true => alter (λ f, mk_Frame (frame_parent f) true) p frames
  | _, _ => frames
  end.

Definition parent_ok (parent : option nat) (frames : list Frame) : Prop :=
  match parent with Some p => (p < length frames)%nat | None => True end.

Lemma length_mark parent failed frames : length (mark parent failed frames) = length frames.
Proof. destruct parent, failed; cbn; [apply length_alter|done..]. Qed.

Lemma parent_ok_more parent failed frames new :
  parent_ok parent frames → parent_ok parent (mark parent failed frames ++ new).
Proof. destruct parent; cbn [parent_ok]; [|done]. rewrite length_app, length_mark. lia. Qed.

Lemma mark_mark parent f1 f2 frames new :
  parent_ok parent frames →
  mark parent f2 (mark parent f1 frames ++ new) = mark parent (f1 || f2) frames ++ new.
Proof.
  destruct parent as [p|]; cbn [parent_ok mark]; [|done]. intros Hp.
  destruct f2; cbn [mark]; [|by rewrite orb_false_r]. rewrite orb_true_r.
  rewrite alter_app_l by by (destruct f1; rewrite ?length_alter).
  f_equal. destruct f1; [|done]. rewrite list_alter_alter_eq. done.
Qed.

(** The frame of a collection is the last one when the collection starts. *)
Lemma mark_own parent b failed frames new :
  mark (Some (length frames)) failed (frames ++ mk_Frame parent b :: new) =
  frames ++ mk_Frame parent (b || failed) :: new.
Proof.
  destruct failed; cbn [mark]; [|by rewrite orb_false_r].
  rewrite orb_true_r, alter_app_r_alt, Nat.sub_diag by lia. done.
Qed.

Lemma lookup_own (f : Frame) frames new : (frames ++ f :: new) !! length frames = Some f.
Proof. by rewrite lookup_app_r, Nat.sub_diag by lia. Qed.

Lemma fail_frame_mark p frames :
  (p < length frames)%nat → fail_frame p frames = Some (mark (Some p) true frames).
Proof.
  intros Hp. unfold fail_frame. destruct (lookup_lt_is_Some_2 frames p Hp) as [f Hf].
  rewrite Hf. cbn. f_equal. apply list_eq. intros i. destruct (decide (i = p)) as [->|Hne].
  - by rewrite list_lookup_insert_eq, list_lookup_alter_eq, Hf by done.
  - by rewrite list_lookup_insert_ne, list_lookup_alter_ne by done.
Qed.

Lemma propagate_own parent failed frames new :
  parent_ok parent frames →
  propagate_frame_failure (length frames) (frames ++ mk_Frame parent failed :: new) =
  Some (mark parent failed frames ++ mk_Frame parent failed :: new).
Proof.
  intros Hp. unfold propagate_frame_failure. rewrite lookup_own. cbn.
  destruct failed; [|by destruct parent]. destruct parent as [p|]; [|done]. cbn in Hp.
  rewrite fail_frame_mark by (rewrite length_app; lia). f_equal.
  by apply alter_app_l.
Qed.

(** *** The machine *)
Section machine.
Context (operation : DavMutationOperation) (recurse : bool) (limits : DavMutationExecutorLimits).

Abbreviation run := (run_work stable_key entry_name is_dir read_directory_page is_cancelled execute
                   operation recurse limits).
Abbreviation process := (process stable_key entry_name is_dir read_directory_page is_cancelled execute
                       operation recurse limits).
Abbreviation walker := (walk_item operation recurse limits).

(** [x] becomes [y] in [n] iterations. *)
Definition reach (n : nat) (x y : execution) : Prop := ∀ k, run (n + k) x = run k y.

(** [x] stops with [s] in [n] iterations and one that sees it. *)
Definition halts (n : nat) (x : execution) (s : DavMutationStop) (a : account) : Prop :=
  ∃ work frames, ∀ k, run (S (n + k)) x = Some (stopped s work frames a).

Lemma reach_trans n m x y z : reach n x y → reach m y z → reach (n + m) x z.
Proof. intros H1 H2 k. by rewrite <- Nat.add_assoc, H1. Qed.

Lemma reach_halts n m x y s a : reach n x y → halts m y s a → halts (n + m) x s a.
Proof.
  intros H1 (work & frames & H2). exists work, frames. intros k. rewrite <- (H2 k), <- H1. f_equal. lia.
Qed.

Lemma halts_stopped s work frames a : halts 0 (stopped s work frames a) s a.
Proof. by exists work, frames. Qed.

Lemma run_enter k item work frames a :
  run (S k) (running (item :: work) frames a) =
  match walk_enter a with
  | Some (Ok _, a) => process item work frames a ≫= run k
  | Some (Err s, a) => Some (stopped s (item :: work) frames a)
  | None => None
  end.
Proof.
  cbn [run_work running exec_stop exec_account exec_work exec_frames].
  unfold walk_enter, walk_checkpoint, walk_budget, mbind, walk_bind.
  destruct (is_cancelled (acc_world a)) as [[] w]; done.
Qed.

Lemma reach_step item work frames a a1 x :
  walk_enter a = Some (Ok tt, a1) → process item work frames a1 = Some x →
  reach 1 (running (item :: work) frames a) x.
Proof. intros E1 E2 k. cbn [Nat.add]. by rewrite run_enter, E1, E2. Qed.

Lemma halts_enter item work frames a s a1 :
  walk_enter a = Some (Err s, a1) → halts 0 (running (item :: work) frames a) s a1.
Proof. intros E1. exists (item :: work), frames. intros k. by rewrite run_enter, E1. Qed.

(** *** The pieces of an item *)
Lemma visiting_walk depth work frames a k :
  visiting depth work frames a k =
  match walk_visit depth a with
  | Some (Ok _, a) => k a
  | Some (Err s, a) => Some (stopped s work frames a)
  | None => None
  end.
Proof.
  unfold visiting, walk_visit, walk_budget. by destruct (DavTraversalBudget_visit _ _) as [[]].
Qed.

Lemma push_walk next work frames a :
  Some (push_work next work frames a) =
  match walk_reserve (length next) a with
  | Some (Ok _, a) => Some (running (next ++ work) frames a)
  | Some (Err s, a) => Some (stopped s work frames a)
  | None => None
  end.
Proof.
  unfold push_work, walk_reserve, walk_budget. by destruct (DavTraversalBudget_reserve_work _ _) as [[]].
Qed.

Definition failed_of (r : result DavMutationStop bool) : bool :=
  match r with Ok failed => failed | Err _ => true end.
Definition stop_of {A} (r : result DavMutationStop A) : option DavMutationStop :=
  match r with Ok _ => None | Err s => Some s end.

Lemma apply_walk command frame frames a r a1 :
  (frame < length frames)%nat → walk_step command a = Some (r, a1) →
  ∃ r', apply_step execute command frame frames a =
          Some (r', mark (Some frame) (failed_of r) frames, a1) ∧
    match r, r' with
    | Ok failed, Ok applied => applied = negb failed
    | Err s, Err e => stop_from_traversal e = s
    | _, _ => False
    end.
Proof.
  intros Hf. unfold walk_step, apply_step. destruct (execute command (acc_world a)) as [[u|e] w].
  { intros [= <- <-]. by exists (Ok true). }
  rewrite fail_frame_mark by done. cbn -[mark].
  unfold walk_failure, walk_budget, walk_record, mbind, walk_bind. cbn -[mark].
  destruct (DavTraversalBudget_record_failure (acc_budget a)) as [[u|e'] b]; cbn -[mark];
    intros [= <- <-]; by eexists.
Qed.

Lemma step_then_walk finish command frame work frames a r a1 frames' :
  (frame < length frames)%nat → walk_step command a = Some (r, a1) →
  finish (mark (Some frame) (failed_of r) frames) = Some frames' →
  step_then execute finish command frame work frames a = Some (mk_execution work frames' (stop_of r) a1).
Proof.
  intros Hf Hs Hfin. destruct (apply_walk _ _ _ _ _ _ Hf Hs) as (r' & Ha & Hr).
  unfold step_then. rewrite Ha. cbn -[mark]. rewrite Hfin. cbn.
  destruct r, r'; cbn; try done. by rewrite Hr.
Qed.

Lemma reading_walk path parent work frames a k r a1 :
  parent_ok parent frames → walk_children limits path a = Some (r, a1) →
  match r with
  | Ok (Some children) =>
      reading stable_key entry_name is_dir read_directory_page is_cancelled limits path
        (length frames) work (frames ++ [mk_Frame parent false]) a k = k children a1
  | Ok None =>
      reading stable_key entry_name is_dir read_directory_page is_cancelled limits path
        (length frames) work (frames ++ [mk_Frame parent false]) a k =
      Some (running work (mark parent true frames ++ [mk_Frame parent true]) a1)
  | Err s => ∃ frames',
      reading stable_key entry_name is_dir read_directory_page is_cancelled limits path
        (length frames) work (frames ++ [mk_Frame parent false]) a k =
      Some (stopped s work frames' a1)
  end.
Proof.
  intros Hp. unfold walk_children, reading.
  destruct (read_children _ _ _ _ _ _ _ _) as [[r0 w]|]; [|done]. cbn -[mark].
  assert (propagate_frame_failure (length frames) (frames ++ [mk_Frame parent false]) =
    Some (mark parent false frames ++ [mk_Frame parent false])) as Hfalse by by apply propagate_own.
  destruct r0 as [children|[| | |error|error]]; try by intros [= <- <-].
  1,2,3: intros [= <- <-]; eexists; cbn -[mark]; by rewrite Hfalse.
  2: intros [= <- <-]; eexists; cbn -[mark]; by rewrite Hfalse.
  cbn -[mark]. case_decide.
  { intros [= <- <-]. eexists. cbn -[mark]. by rewrite Hfalse. }
  rewrite fail_frame_mark by (rewrite length_app; cbn; lia). rewrite mark_own. cbn -[mark].
  unfold walk_failure, walk_budget, walk_record, mbind, walk_bind. cbn -[mark].
  destruct (DavTraversalBudget_record_failure (acc_budget a)) as [[u|e] b]; cbn -[mark];
    intros [= <- <-]; [|eexists]; rewrite propagate_own by done; done.
Qed.

(** A finalizer reads the frame of its own collection. *)
Lemma finalizing_own parent failed skip work frames new (a : account (W := W)) k :
  parent_ok parent frames →
  finalizing (length frames) work (frames ++ mk_Frame parent failed :: new) a skip k =
  if skip || failed then
    Some (running work (mark parent failed frames ++ mk_Frame parent failed :: new) a)
  else k.
Proof.
  intros Hp. unfold finalizing. rewrite lookup_own. cbn -[mark].
  destruct (skip || failed); [|done]. by rewrite propagate_own.
Qed.

(** The last step of a collection, on its own frame. *)
Lemma last_step command parent work frames new a r a1 :
  parent_ok parent frames → walk_step command a = Some (r, a1) →
  step_then execute (propagate_frame_failure (length frames)) command (length frames) work
    (frames ++ mk_Frame parent false :: new) a =
  Some (mk_execution work
          (mark parent (failed_of r) frames ++ mk_Frame parent (failed_of r) :: new) (stop_of r) a1).
Proof.
  intros Hp Hs. eapply step_then_walk; [rewrite length_app; cbn; lia|done|].
  rewrite mark_own. cbn [orb]. by apply propagate_own.
Qed.

(** *** The simulation *)
(** From [x] the machine does what the reference answered, [r] with account
    [a'], in a number of iterations paid by the visits; a replacement gives
    back less, since only its collection visits. *)
Definition sim (replace : bool) (x : execution) (parent : option nat) (work : list Work)
    (frames : list Frame) (a : account) (r : result DavMutationStop bool) (a' : account) : Prop :=
  ∃ n, match r with
       | Ok failed =>
           (∃ new, reach n x (running work (mark parent failed frames ++ new) a')) ∧
           Z.of_nat n ≤ 4 * (visited a' - visited a) - (if replace then 0 else 2)
       | Err s =>
           halts n x s a' ∧
           Z.of_nat n ≤ 4 * (visited a' - visited a) + (if replace then 2 else 1)
       end.

Lemma sim_halts b x parent work frames a s a' n :
  halts n x s a' → Z.of_nat n ≤ 4 * (visited a' - visited a) + 1 →
  sim b x parent work frames a (Err s) a'.
Proof. intros Hh Hn. exists n. split; [done|]. destruct b; lia. Qed.

(** Every item starts by entering. *)
Lemma sim_enter b item parent work frames a (body : walk bool) r a' :
  (_ ← walk_enter; body) a = Some (r, a') →
  (∀ a1, walk_enter a = Some (Ok tt, a1) → visited a1 = visited a → body a1 = Some (r, a') →
     sim b (running (item :: work) frames a) parent work frames a r a') →
  sim b (running (item :: work) frames a) parent work frames a r a'.
Proof.
  intros Hm Hbody. apply walk_bind_some in Hm as [([] & a1 & E1 & E2)|(s & E1 & ->)].
  - apply Hbody with a1; [done|by eapply idle_enter|done].
  - eapply sim_halts; [by apply halts_enter|]. apply idle_enter in E1 as [-> _]. lia.
Qed.

(** An item that stops while it is processed. *)
Lemma sim_stopped b item parent work frames a a1 s work' frames' a' :
  walk_enter a = Some (Ok tt, a1) → process item work frames a1 = Some (stopped s work' frames' a') →
  visited a ≤ visited a' → sim b (running (item :: work) frames a) parent work frames a (Err s) a'.
Proof.
  intros E1 E2 Hv. eapply (sim_halts _ _ _ _ _ _ _ _ (1 + 0)).
  - eapply reach_halts; [by eapply reach_step|apply halts_stopped].
  - lia.
Qed.

(** An item that is done at once. *)
Lemma sim_once item parent work frames a a1 failed new a' :
  walk_enter a = Some (Ok tt, a1) →
  process item work frames a1 = Some (running work (mark parent failed frames ++ new) a') →
  visited a + 1 ≤ visited a' →
  sim false (running (item :: work) frames a) parent work frames a (Ok failed) a'.
Proof.
  intros E1 E2 Hv. exists 1%nat. split; [exists new; by eapply reach_step|]. lia.
Qed.

Lemma sim_file item depth parent command work frames a r a' :
  (∀ a, process item work frames a =
     visiting depth work frames a (λ a, let '(frame, frames) := file_frame parent frames in
       step_then execute Some command frame work frames a)) →
  parent_ok parent frames →
  (_ ← walk_enter; _ ← walk_visit depth; walk_step command) a = Some (r, a') →
  sim false (running (item :: work) frames a) parent work frames a r a'.
Proof.
  intros Hproc Hp Hm. eapply sim_enter; [done|]. intros a1 E1 Hv1 E2.
  specialize (Hproc a1). rewrite visiting_walk in Hproc.
  apply walk_bind_some in E2 as [(u & a2 & E2 & E3)|(s & E2 & ->)]; rewrite E2 in Hproc;
    apply visit_some in E2 as [_ Hv2].
  2:{ eapply sim_stopped; [done..|lia]. }
  pose proof (idle_step _ _ _ _ E3) as [Hv3 _].
  assert (∃ frames', let '(frame, frames0) := file_frame parent frames in
    step_then execute Some command frame work frames0 a2 =
      Some (mk_execution work frames' (stop_of r) a') ∧
    ∀ failed, r = Ok failed → ∃ new, frames' = mark parent failed frames ++ new) as (frames' & Hstep).
  { destruct parent as [p|]; cbn [file_frame].
    - eexists. split; [by eapply step_then_walk|]. intros failed ->. exists []. by rewrite app_nil_r.
    - eexists. split; [eapply step_then_walk; [rewrite length_app; cbn; lia|done|done]|].
      intros failed ->. rewrite mark_own. by eexists. }
  destruct (file_frame parent frames) as [frame frames0]. destruct Hstep as [Hstep Hf].
  rewrite Hstep in Hproc. destruct r as [failed|s]; cbn in Hproc.
  - destruct (Hf failed eq_refl) as [new ->]. eapply sim_once; [done..|lia].
  - eapply sim_stopped; [done..|lia].
Qed.

Definition work_parent (item : Work) : option nat :=
  match item with
  | TransferDirectory _ _ _ parent | TransferFile _ _ _ parent | ReplaceWithFile _ _ _ parent
  | DeleteNode _ _ _ _ parent => parent
  | FinalizeTransfer _ frame | FinalizeFileReplacement _ _ _ frame | FinalizeDelete _ _ frame =>
      Some frame
  end.

Definition is_task (item : Work) : Prop :=
  match item with
  | FinalizeTransfer _ _ | FinalizeFileReplacement _ _ _ _ | FinalizeDelete _ _ _ => False
  | _ => True
  end.

Definition replaces (item : Work) : bool :=
  match item with ReplaceWithFile _ _ _ _ => true | _ => false end.

(** What the induction on the fuel provides. *)
Definition simulates (f : Work → walk bool) : Prop :=
  ∀ item a r a', is_task item → f item a = Some (r, a') →
  ∀ work frames, parent_ok (work_parent item) frames →
  sim (replaces item) (running (item :: work) frames a) (work_parent item) work frames a r a'.

Lemma sim_weaken b x parent work frames a r a' :
  sim b x parent work frames a r a' → sim true x parent work frames a r a'.
Proof. intros (n & Hn). exists n. destruct r; destruct Hn; (split; [done|destruct b; lia]). Qed.

Lemma sim_all f items frame a r a' work frames :
  simulates f → (∀ item, grows (f item)) → Forall is_task items →
  (∀ item, item ∈ items → work_parent item = Some frame) → parent_ok (Some frame) frames →
  walk_all f items a = Some (r, a') →
  sim true (running (items ++ work) frames a) (Some frame) work frames a r a'.
Proof.
  intros Hf Hg Htasks Hparent. revert a r a' frames Htasks Hparent.
  induction items as [|item items IH]; intros a r a' frames Htasks Hparent Hp Hm; cbn [walk_all] in Hm.
  { apply walk_ret_some in Hm as [-> ->]. exists 0%nat. split; [|lia]. exists [].
    rewrite app_nil_r. done. }
  apply list.Forall_cons in Htasks as [Ht Hts].
  assert (work_parent item = Some frame) as Hip by (apply Hparent, elem_of_cons; by left).
  apply walk_bind_some in Hm as [(failed & a1 & E1 & E2)|(s & E1 & ->)];
    pose proof (Hg _ _ _ _ E1) as (Hv1 & _).
  all: pose proof (Hf _ _ _ _ Ht E1 (items ++ work) frames) as Hx; rewrite Hip in Hx;
    destruct (sim_weaken _ _ _ _ _ _ _ _ (Hx Hp)) as (n & Hn & Hc).
  2:{ exists n. by split. }
  destruct Hn as (new & Hn).
  apply walk_bind_some in E2 as [(more & a2 & E2 & E3)|(s & E2 & ->)];
    pose proof (grows_all _ _ Hg _ _ _ E2) as (Hv2 & _);
    destruct (IH a1 _ _ (mark (Some frame) failed frames ++ new) Hts
      (λ x Hx, Hparent x (proj2 (elem_of_cons _ _ _) (or_intror Hx)))
      (parent_ok_more _ _ _ _ Hp) E2) as (m & Hm & Hc2).
  - apply walk_ret_some in E3 as [-> ->]. destruct Hm as (new2 & Hm). exists (n + m)%nat.
    split; [|lia]. exists (new ++ new2). rewrite app_assoc, <- mark_mark by done.
    by eapply reach_trans.
  - exists (n + m)%nat. split; [by eapply reach_halts|lia].
Qed.

(** A collection: its items, then its finalizer on its own frame. *)
Lemma sim_collection (b : bool) x next fin parent work frames (body : walk bool)
    (rest : bool → walk bool) a a1 r a' :
  grows body → (∀ failed, grows (rest failed)) → parent_ok parent frames →
  reach 1 x (running ((next ++ [fin]) ++ work) (frames ++ [mk_Frame parent false]) a1) →
  visited a + (if b then 0 else 1) ≤ visited a1 →
  (∀ r1 a2, body a1 = Some (r1, a2) →
     sim (negb b) (running (next ++ fin :: work) (frames ++ [mk_Frame parent false]) a1)
       (Some (length frames)) (fin :: work) (frames ++ [mk_Frame parent false]) a1 r1 a2) →
  (∀ failed a2 new, rest failed a2 = Some (r, a') →
     match r with
     | Ok failed' => ∃ new', process fin work (frames ++ mk_Frame parent failed :: new) a2 =
         Some (running work (mark parent failed' frames ++ new') a')
     | Err s => ∃ frames', process fin work (frames ++ mk_Frame parent failed :: new) a2 =
         Some (stopped s work frames' a')
     end) →
  (failed ← body; _ ← walk_enter; rest failed) a1 = Some (r, a') →
  sim b x parent work frames a r a'.
Proof.
  intros Hgb Hgr Hp Hreach Hv Hbody Hrest Hm. rewrite <- app_assoc in Hreach. cbn in Hreach.
  apply walk_bind_some in Hm as [(failed & a2 & E1 & Hm)|(s & E1 & ->)];
    destruct (Hgb _ _ _ E1) as (Hv1 & _); destruct (Hbody _ _ E1) as (n & Hn & Hc).
  2:{ exists (1 + n)%nat. split; [by eapply reach_halts|]. destruct b; cbn in Hc; lia. }
  destruct Hn as (new & Hn). rewrite mark_own in Hn. cbn [orb] in Hn. rewrite <- app_assoc in Hn.
  cbn in Hn. pose proof (reach_trans _ _ _ _ _ Hreach Hn) as Hn1.
  apply walk_bind_some in Hm as [([] & a3 & E2 & E3)|(s & E2 & ->)];
    pose proof (idle_enter _ _ _ E2) as [Hv2 _].
  2:{ exists (1 + n + 0)%nat. split; [by eapply reach_halts, halts_enter|]. destruct b; cbn in Hc; lia. }
  destruct (Hgr _ _ _ _ E3) as (Hv3 & _). specialize (Hrest _ _ new E3).
  destruct r as [failed'|s].
  - destruct Hrest as (new' & Hfin). exists (1 + n + 1)%nat. split; [|destruct b; cbn in Hc; lia].
    exists new'. eapply reach_trans; [done|]. by eapply reach_step.
  - destruct Hrest as (frames' & Hfin). exists (1 + n + (1 + 0))%nat.
    split; [|destruct b; cbn in Hc; lia]. eapply reach_halts; [done|].
    eapply reach_halts; [by eapply reach_step|apply halts_stopped].
Qed.

(** A finalizer that runs a last step unless it is skipped or the frame
    failed. *)
Lemma finalizing_step command skip parent work frames (failed : bool) new a r a' :
  parent_ok parent frames →
  (if skip || failed then mret failed : walk bool else walk_step command) a = Some (r, a') →
  let x := finalizing (length frames) work (frames ++ mk_Frame parent failed :: new) a skip
    (step_then execute (propagate_frame_failure (length frames)) command (length frames) work
       (frames ++ mk_Frame parent failed :: new) a) in
  match r with
  | Ok failed' => ∃ new', x = Some (running work (mark parent failed' frames ++ new') a')
  | Err s => ∃ frames', x = Some (stopped s work frames' a')
  end.
Proof.
  intros Hp. rewrite finalizing_own by done. destruct (skip || failed) eqn:Hs.
  - intros [-> ->]%walk_ret_some. by eexists.
  - apply orb_false_iff in Hs as [_ ->]. intros Hstep. cbn zeta. rewrite (last_step _ _ _ _ _ _ _ _ Hp Hstep).
    destruct r; by eexists.
Qed.

(** *** Parents *)
Definition reparent (parent : option nat) (item : Work) : Work :=
  match item with
  | TransferDirectory source destination depth _ => TransferDirectory source destination depth parent
  | TransferFile source destination depth _ => TransferFile source destination depth parent
  | ReplaceWithFile source destination depth _ => ReplaceWithFile source destination depth parent
  | DeleteNode path is_collection role depth _ => DeleteNode path is_collection role depth parent
  | _ => item
  end.

Lemma walk_item_reparent fuel parent item : walker fuel (reparent parent item) = walker fuel item.
Proof. destruct fuel; [done|]. by destruct item as [| | |? []| | |]. Qed.

Lemma walk_all_reparent fuel parent items :
  walk_all (walker fuel) (map (reparent parent) items) = walk_all (walker fuel) items.
Proof. induction items as [|item items IH]; [done|]. cbn. by rewrite walk_item_reparent, IH. Qed.

Lemma reparent_tasks parent items :
  Forall is_task items →
  Forall is_task (map (reparent parent) items) ∧
  ∀ item, item ∈ map (reparent parent) items → work_parent item = parent.
Proof.
  induction 1 as [|item items Ht _ [IH1 IH2]]; cbn.
  { split; [done|]. by intros item ?%elem_of_nil. }
  split; [apply list.Forall_cons; split; [by destruct item|done]|].
  intros x [->|Hx]%elem_of_cons; [by destruct item|auto].
Qed.

Lemma source_child_reparent d depth frame child :
  source_child_work d depth frame child =
  reparent (Some frame) <$> source_child_work d depth 0 child.
Proof.
  unfold source_child_work. destruct (DavPath_join_child _ _ _); [|done]. cbn.
  by destruct (child_is_collection child).
Qed.

Lemma matching_reparent d depth frame source destination :
  matching_children_work d depth frame source destination =
  reparent (Some frame) <$> matching_children_work d depth 0 source destination.
Proof.
  unfold matching_children_work. destruct (DavPath_join_child _ _ _); [|done]. cbn.
  by destruct (child_is_collection source), (child_is_collection destination).
Qed.

Lemma child_work_task d depth child item :
  source_child_work d depth 0 child = Ok item → is_task item.
Proof.
  unfold source_child_work. destruct (DavPath_join_child _ _ _); [|done]. cbn.
  intros [= <-]. by destruct (child_is_collection child).
Qed.

Lemma matching_task d depth source destination item :
  matching_children_work d depth 0 source destination = Ok item → is_task item.
Proof.
  unfold matching_children_work. destruct (DavPath_join_child _ _ _); [|done]. cbn.
  intros [= <-]. by destruct (child_is_collection source), (child_is_collection destination).
Qed.

Lemma merge_sorted_reparent d depth frame source destination :
  merge_sorted d depth frame source destination =
    map (reparent (Some frame)) <$> merge_sorted d depth 0 source destination ∧
  ∀ next, merge_sorted d depth 0 source destination = Ok next → Forall is_task next.
Proof.
  revert destination. induction source as [|sc source IH]; intros destination.
  - induction destination as [|dc destination [IH1 IH2]]; cbn; [split; [done|by intros ? [= <-]]|].
    cbn in IH1, IH2. rewrite IH1. destruct (merge_sorted d depth 0 [] destination) eqn:E1;
      cbn in E1; rewrite E1 in *; cbn; (split; [done|]); [|done].
    intros next [= <-]. apply list.Forall_cons. split; [exact I|by apply IH2].
  - induction destination as [|dc destination [IH1 IH2]]; cbn.
    + rewrite source_child_reparent. destruct (source_child_work d depth 0 sc) eqn:Es; cbn; [|done].
      destruct (IH []) as [-> IHt]. destruct (merge_sorted d depth 0 source []); cbn; (split; [done|]); [|done].
      intros next [= <-]. apply list.Forall_cons. split; [by eapply child_work_task|auto].
    + destruct (slice_cmp _ _).
      * rewrite matching_reparent. destruct (matching_children_work d depth 0 sc dc) eqn:Es; cbn; [|done].
        destruct (IH destination) as [-> IHt].
        destruct (merge_sorted d depth 0 source destination); cbn; (split; [done|]); [|done].
        intros next [= <-]. apply list.Forall_cons. split; [by eapply matching_task|auto].
      * rewrite source_child_reparent. destruct (source_child_work d depth 0 sc) eqn:Es; cbn; [|done].
        destruct (IH (dc :: destination)) as [-> IHt].
        destruct (merge_sorted d depth 0 source (dc :: destination)); cbn; (split; [done|]); [|done].
        intros next [= <-]. apply list.Forall_cons. split; [by eapply child_work_task|auto].
      * cbn in IH1, IH2. rewrite IH1.
        destruct (merge_sorted d depth 0 (sc :: source) destination) eqn:E1;
          cbn in E1; rewrite E1 in *; cbn; (split; [done|]); [|done].
        intros next [= <-]. apply list.Forall_cons. split; [exact I|by apply IH2].
Qed.

Lemma merge_reparent d depth frame sc dc :
  merge_transfer_children d depth frame sc dc =
    map (reparent (Some frame)) <$> merge_transfer_children d depth 0 sc dc ∧
  ∀ next, merge_transfer_children d depth 0 sc dc = Ok next → Forall is_task next.
Proof. apply merge_sorted_reparent. Qed.

(** *** The items *)
(** Work that is pushed, or the stop of its reservation. *)
Lemma sim_push b item next work frames parent frames1 a a1 a2 (k : walk bool) r a' :
  walk_enter a = Some (Ok tt, a1) → process item work frames a1 = Some (push_work next work frames1 a2) →
  grows k → visited a ≤ visited a2 →
  (_ ← walk_reserve (length next); k) a2 = Some (r, a') →
  (∀ a3, reach 1 (running (item :: work) frames a) (running (next ++ work) frames1 a3) →
     visited a3 = visited a2 → k a3 = Some (r, a') →
     sim b (running (item :: work) frames a) parent work frames a r a') →
  sim b (running (item :: work) frames a) parent work frames a r a'.
Proof.
  intros E1 Hproc Hk Hv Hm Hsim. rewrite push_walk in Hproc.
  apply walk_bind_some in Hm as [(u & a3 & E2 & E3)|(s & E2 & ->)]; rewrite E2 in Hproc;
    pose proof (idle_reserve _ _ _ _ E2) as [Hv2 _].
  - apply (Hsim a3); [by eapply reach_step|done|done].
  - eapply sim_stopped; [done..|lia].
Qed.

Lemma sim_tasks fuel items frame a work frames :
  simulates (walker fuel) → Forall is_task items → (frame < length frames)%nat →
  ∀ r a', walk_all (walker fuel) items a = Some (r, a') →
  sim true (running (map (reparent (Some frame)) items ++ work) frames a) (Some frame) work frames a r a'.
Proof.
  intros IH Htasks Hframe r a' Hm. destruct (reparent_tasks (Some frame) items Htasks) as [Ht Hp].
  eapply sim_all; [done|intros; apply grows_item|done..|]. by rewrite walk_all_reparent.
Qed.

Lemma sim_replace fuel source destination depth parent a r a' work frames :
  simulates (walker fuel) → parent_ok parent frames →
  walker (S fuel) (ReplaceWithFile source destination depth parent) a = Some (r, a') →
  sim true (running (ReplaceWithFile source destination depth parent :: work) frames a) parent work
    frames a r a'.
Proof.
  intros IH Hp Hm. cbn [walk_item] in Hm. eapply sim_enter; [exact Hm|]. intros a1 E1 Hv1 E2.
  eapply (sim_push _ _ [DeleteNode destination true RoleDestination depth (Some (length frames));
       FinalizeFileReplacement source destination depth (length frames)]);
    [done|done| |lia|exact E2|].
  { walk_cases; auto using grows_item. }
  clear E2. intros a3 Hreach Hv3 Hm3.
  eapply (sim_collection true _ [_] _ _ _ _
    (walker fuel (DeleteNode destination true RoleDestination depth None)));
    [apply grows_item| |done|exact Hreach|lia| | |exact Hm3].
  - intros failed. cbn beta. walk_cases.
  - intros r1 a2 E3.
    rewrite <- (walk_item_reparent fuel (Some (length frames))) in E3.
    apply (IH (DeleteNode destination true RoleDestination depth (Some (length frames))) _ _ _ I E3).
    cbn. rewrite length_app. cbn. lia.
  - intros failed a2 new Hr. cbn [process]. rewrite finalizing_own by done. cbn [orb].
    destruct failed.
    { apply walk_ret_some in Hr as [-> ->]. by eexists. }
    rewrite visiting_walk.
    apply walk_bind_some in Hr as [(u & a4 & E3 & E4)|(s & E3 & ->)]; rewrite E3; [|by eexists].
    rewrite (last_step _ _ _ _ _ _ _ _ Hp E4). destruct r; by eexists.
Qed.

Lemma sim_reading item parent work frames a a1 path k a2 (kw : list Child → walk bool) r a' :
  walk_enter a = Some (Ok tt, a1) →
  process item work frames a1 =
    reading stable_key entry_name is_dir read_directory_page is_cancelled limits path
      (length frames) work (frames ++ [mk_Frame parent false]) a2 k →
  parent_ok parent frames → visited a + 1 ≤ visited a2 →
  (children ← walk_children limits path;
   match children with Some children => kw children | None => mret true end) a2 = Some (r, a') →
  (∀ children a3, process item work frames a1 = k children a3 → visited a3 = visited a2 →
     kw children a3 = Some (r, a') →
     sim false (running (item :: work) frames a) parent work frames a r a') →
  sim false (running (item :: work) frames a) parent work frames a r a'.
Proof.
  intros E1 Hproc Hp Hv Hm Hsim.
  apply walk_bind_some in Hm as [(children & a3 & E2 & E3)|(s & E2 & ->)];
    pose proof (idle_children _ _ _ _ _ E2) as [Hv3 _];
    pose proof (reading_walk path parent work frames a2 k _ _ Hp E2) as Hread.
  2:{ destruct Hread as [frames' Hr]. rewrite Hr in Hproc. eapply sim_stopped; [done..|lia]. }
  destruct children as [children|]; rewrite Hread in Hproc; [by eapply Hsim|].
  apply walk_ret_some in E3 as [-> ->]. eapply sim_once; [done..|lia].
Qed.

(** The rest of a collection whose children are known. *)
Lemma sim_children fuel item parent work frames a a1 a2 next fin skip command r a' :
  simulates (walker fuel) → parent_ok parent frames → walk_enter a = Some (Ok tt, a1) →
  process item work frames a1 =
    Some (push_work (map (reparent (Some (length frames))) next ++ [fin]) work
            (frames ++ [mk_Frame parent false]) a2) →
  visited a + 1 ≤ visited a2 → Forall is_task next →
  (∀ frames' a, process fin work frames' a =
     finalizing (length frames) work frames' a skip
       (step_then execute (propagate_frame_failure (length frames)) command (length frames) work
          frames' a)) →
  (_ ← walk_reserve (S (length next));
   failed ← walk_all (walker fuel) next;
   _ ← walk_enter;
   if skip || failed then mret failed else walk_step command) a2 = Some (r, a') →
  sim false (running (item :: work) frames a) parent work frames a r a'.
Proof.
  intros IH Hp E1 Hproc Hv Htasks Hfin Hm.
  eapply sim_push; [exact E1|exact Hproc| |lia| |].
  2:{ rewrite length_app, length_map. cbn. rewrite Nat.add_1_r. exact Hm. }
  { walk_cases; auto using grows_item. }
  clear Hm. intros a3 Hreach Hv3 Hm.
  eapply (sim_collection false _ _ _ _ _ _ (walk_all (walker fuel) next));
    [apply grows_all; intros; apply grows_item| |done|exact Hreach|lia| | |exact Hm].
  - intros failed. cbn beta. walk_cases.
  - intros r1 a4 E2. apply (sim_tasks fuel); [done|done|rewrite length_app; cbn; lia|done].
  - intros failed a4 new Hr. rewrite Hfin.
    exact (finalizing_step command skip parent work frames failed new a4 r a' Hp Hr).
Qed.

Lemma sim_delete_directory fuel path role depth parent a r a' work frames :
  simulates (walker fuel) → parent_ok parent frames →
  walker (S fuel) (DeleteNode path true role depth parent) a = Some (r, a') →
  sim false (running (DeleteNode path true role depth parent :: work) frames a) parent work
    frames a r a'.
Proof.
  intros IH Hp Hm. cbn [walk_item] in Hm. eapply sim_enter; [exact Hm|]. intros a1 E1 Hv1 E2. clear Hm.
  assert (process (DeleteNode path true role depth parent) work frames a1 =
    delete_directory stable_key entry_name is_dir read_directory_page is_cancelled limits path role
      depth parent work frames a1) as Hproc by done.
  unfold delete_directory in Hproc. rewrite visiting_walk in Hproc.
  apply walk_bind_some in E2 as [(u & a2 & E2 & E3)|(s & E2 & ->)]; rewrite E2 in Hproc;
    apply visit_some in E2 as [_ Hv2].
  2:{ eapply sim_stopped; [done..|lia]. }
  destruct Hv2 as [Hv2 _].
  eapply sim_reading; [exact E1|exact Hproc|done|lia|exact E3|].
  clear Hproc E3. intros children a3 Hproc Hv3 E4. unfold walk_depth in E4.
  destruct (checked_add USIZE_MAX depth 1) as [child_depth|].
  2:{ rewrite walk_stop_bind in E4. injection E4 as <- <-. eapply sim_stopped; [done..|lia]. }
  rewrite walk_ret_bind in E4.
  set (items := map (λ child, DeleteNode (child_path child) (child_is_collection child) role
    child_depth None) children) in E4.
  assert (Forall is_task items) as Htasks.
  { apply list.Forall_forall. intros x Hx. unfold items in Hx.
    by apply list_elem_of_In, in_map_iff in Hx as (c & <- & _). }
  eapply (sim_children fuel _ _ _ _ _ _ a3 items (FinalizeDelete path role (length frames)) false);
    [done..| |lia|done| |].
  - rewrite Hproc. do 3 f_equal. unfold items. by rewrite map_map.
  - done.
  - unfold items. rewrite length_map. exact E4.
Qed.

Lemma sim_transfer_directory fuel source destination depth parent a r a' work frames :
  simulates (walker fuel) → parent_ok parent frames →
  walker (S fuel) (TransferDirectory source destination depth parent) a = Some (r, a') →
  sim false (running (TransferDirectory source destination depth parent :: work) frames a) parent work
    frames a r a'.
Proof.
  intros IH Hp Hm. cbn [walk_item] in Hm. eapply sim_enter; [exact Hm|]. intros a1 E1 Hv1 E2. clear Hm.
  assert (process (TransferDirectory source destination depth parent) work frames a1 =
    transfer_directory stable_key entry_name is_dir read_directory_page is_cancelled execute operation
      recurse limits source destination depth parent work frames a1) as Hproc by done.
  unfold transfer_directory in Hproc. rewrite visiting_walk in Hproc.
  apply walk_bind_some in E2 as [(u & a2 & E2 & E3)|(s & E2 & ->)]; rewrite E2 in Hproc;
    apply visit_some in E2 as [_ Hv2].
  2:{ eapply sim_stopped; [done..|lia]. }
  destruct Hv2 as [Hv2 _]. cbn zeta in Hproc.
  assert (length frames < length (frames ++ [mk_Frame parent false]))%nat as Hlast
    by (rewrite length_app; cbn; lia).
  apply walk_bind_some in E3 as [(failed & a3 & E3 & E4)|(s & E3 & ->)];
    pose proof (idle_step _ _ _ _ E3) as [Hv3 _];
    destruct (apply_walk _ _ _ _ _ _ Hlast E3) as (r' & Hstep & Hr'); rewrite Hstep in Hproc;
    destruct r' as [applied|e]; try done; rewrite mark_own in Hproc; cbn [failed_of orb] in Hproc;
    cbn -[mark reading] in Hproc.
  2:{ rewrite propagate_own in Hproc by done. cbn -[mark] in Hproc. rewrite Hr' in Hproc.
      eapply sim_stopped; [done..|lia]. }
  subst applied. rewrite negb_involutive in Hproc. destruct (failed || negb recurse) eqn:Hend.
  { apply walk_ret_some in E4 as [-> ->]. rewrite propagate_own in Hproc by done.
    eapply sim_once; [done..|lia]. }
  apply orb_false_iff in Hend as [-> _].
  eapply sim_reading; [exact E1|exact Hproc|done|lia|exact E4|].
  clear Hproc E4. intros source_children a4 Hproc Hv4 E4.
  eapply sim_reading; [exact E1|exact Hproc|done|lia|exact E4|].
  clear Hproc E4. intros destination_children a5 Hproc Hv5 E4. unfold walk_depth in E4.
  destruct (checked_add USIZE_MAX depth 1) as [child_depth|].
  2:{ rewrite walk_stop_bind in E4. injection E4 as <- <-. eapply sim_stopped; [done..|lia]. }
  rewrite walk_ret_bind in E4. unfold walk_merge in E4.
  destruct (merge_reparent destination child_depth (length frames) source_children
    destination_children) as [Hmerge Htasks]. rewrite Hmerge in Hproc.
  destruct (merge_transfer_children destination child_depth 0 _ _) as [next|e].
  2:{ cbn -[mark propagate_frame_failure] in Hproc. rewrite propagate_own in Hproc by done.
      rewrite walk_stop_bind in E4. injection E4 as <- <-. eapply sim_stopped; [done..|lia]. }
  rewrite walk_ret_bind in E4.
  eapply (sim_children fuel _ _ _ _ _ _ a5 next (FinalizeTransfer source (length frames))
    (negb (bool_decide (operation = OpMove)))); [done..| |lia|by apply Htasks| |].
  - exact Hproc.
  - done.
  - exact E4.
Qed.

Lemma sim_item fuel : simulates (walker fuel).
Proof.
  induction fuel as [|fuel IH]; intros item a r a' Ht Hm work frames Hp; [done|].
  destruct item as [source destination depth parent|source destination depth parent|
    source destination depth parent|path [] role depth parent| | |]; cbn [work_parent replaces] in *;
    try done.
  - by apply (sim_transfer_directory fuel).
  - eapply sim_file; [|done|exact Hm]. done.
  - by apply (sim_replace fuel).
  - by apply (sim_delete_directory fuel).
  - eapply sim_file; [|done|exact Hm]. done.
Qed.

(** *** The root *)
Lemma run_done k frames a :
  run (S k) (running [] frames a) =
  match walk_checkpoint a with
  | Some (Ok _, a) => Some (running [] frames a)
  | Some (Err s, a) => Some (stopped s [] frames a)
  | None => None
  end.
Proof.
  cbn [run_work running exec_stop exec_account exec_work exec_frames].
  unfold walk_checkpoint. by destruct (is_cancelled (acc_world a)) as [[] w].
Qed.

Lemma run_root root a budget_limit extra :
  is_task root → work_parent root = None →
  visited a = 0 → visit_limit a = budget_limit →
  budget_limit = maximum_visited_resources (traversal limits) →
  ∃ r a' x, walk_root operation recurse limits root a = Some (r, a') ∧
    run (4 * Z.to_nat budget_limit + 3 + extra) (push_work [root] [] [] a) = Some x ∧
    exec_stop x = stop_of r ∧ exec_account x = a'.
Proof.
  intros Ht Hpar Hv Hl ->. unfold walk_root.
  pose proof (push_walk [root] [] [] a) as Hpush. cbn [length app] in Hpush.
  destruct (total_budget (DavTraversalBudget_reserve_work (Z.of_nat 1)) a) as [[r0 a1] E0].
  change (walk_reserve 1 a = Some (r0, a1)) in E0. rewrite E0 in Hpush.
  destruct (idle_reserve 1 a r0 a1 E0) as [Hv1 Hl1]. destruct r0 as [u|s].
  2:{ injection Hpush as ->. exists (Err s), a1, (stopped s [] [] a1).
      unfold mbind, walk_bind. rewrite E0. split; [done|].
      split; [|done]. rewrite !Nat.add_succ_r. done. }
  injection Hpush as ->.
  destruct (total_item operation recurse limits (walk_fuel limits) root a1) as [[r1 a2] E1].
  { unfold item_fuel, walk_fuel. rewrite Hv1, Hl1, Hv, Hl. destruct root; lia. }
  destruct (grows_item _ _ _ _ _ _ _ _ E1) as (Hv2 & _ & Hmax).
  pose proof (sim_weaken _ _ _ _ _ _ _ _
    (sim_item _ root _ _ _ Ht E1 [] [] ltac:(by rewrite Hpar))) as (n & Hn).
  rewrite Hpar in Hn. set (total := (4 * Z.to_nat _ + 3 + extra)%nat).
  destruct r1 as [failed|s].
  - destruct Hn as [(new & Hn) Hc]. destruct (total_checkpoint a2) as [[r2 a3] E2].
    assert (∃ k, total = n + S k)%nat as (k & ->).
    { exists (total - n - 1)%nat. unfold total. lia. }
    exists r2, a3. unfold mbind, walk_bind. rewrite E0, E1, Hn, run_done, E2.
    destruct r2; by eexists.
  - destruct Hn as [(work & frames & Hn) Hc].
    assert (∃ k, total = S (n + k))%nat as (k & ->).
    { exists (total - n - 1)%nat. unfold total. lia. }
    exists (Err s), a2, (stopped s work frames a2).
    unfold mbind, walk_bind. rewrite E0, E1. by rewrite Hn.
Qed.
End machine.

Lemma root_work_task request root :
  root_work request = Some root → is_task root ∧ work_parent root = None.
Proof.
  unfold root_work.
  destruct (mutation_operation request), (mutation_source_kind request),
    (mutation_destination request), (mutation_destination_kind request) as [[]|],
    (recurse_collections request); by intros [= <-].
Qed.

(** Iterations that are enough for every request. *)
Definition mutation_fuel (limits : DavMutationExecutorLimits) : nat :=
  (4 * Z.to_nat (maximum_visited_resources (traversal limits)) + 3)%nat.

(** C38. For every request, limits and product, the iterative executor with
    its stack, frames and finalizers has exactly the outcome of the recursive
    walk of the tree: the same steps in the same order against the same
    world, the same failures, stop and progress.  It ends within four
    iterations per resource that may be visited and three more, and never
    indexes a frame out of range. *)
Theorem mutation_walks request limits w extra :
  execute_recursive_mutation stable_key entry_name is_dir read_directory_page is_cancelled execute
    (mutation_fuel limits + extra) request limits w = mutation_reference request limits w ∧
  is_Some (mutation_reference request limits w).
Proof.
  unfold execute_recursive_mutation, mutation_reference, DavTraversalBudget_new.
  case_decide; [by split|]. case_decide; [by split|].
  destruct (root_work request) as [root|] eqn:Er; [|by split].
  destruct (root_work_task _ _ Er) as [Ht Hp].
  destruct (run_root (mutation_operation request) (recurse_collections request) limits root
    (mk_account [] (mk_DavTraversalBudget (traversal limits) DavTraversalProgress_default) w)
    (maximum_visited_resources (traversal limits)) extra Ht Hp eq_refl eq_refl eq_refl) as (r & a' & x & Hwalk & Hrun & Hstop & <-).
  unfold mutation_fuel. rewrite Hrun, Hwalk. cbn. rewrite Hstop.
  destruct r; split; done || by eexists.
Qed.
End spec.
