(* ===== verification/DavDelete.v ===== *)
(** * WebDAV: recursive DELETE and the namespace

    The product side of a mutation is given by what it promises: an
    enumeration that reaches its last page has listed exactly the children of
    a collection, a delete step that succeeds removes exactly its resource,
    and nothing else changes the namespace.  Under that contract the executor
    of [DavMutation] keeps the namespace a tree at every outcome. *)
From S2P Require Export DavMutationSpec.

(** ** Paths *)
Lemma parent_is_collection q p : DavPath_parent q = Some p → DavPath_is_collection p = true.
Proof.
  unfold DavPath_parent, parent_relative_path, DavPath_is_collection.
  case_decide; [done|]. case_decide; intros [= <-]; [done|].
  cbn [DavPath_as_str]. rewrite app_comm_cons, ends_with_snoc. apply orb_true_r.
Qed.

Lemma child_kind p name d q : DavPath_join_child p name d = Ok q → DavPath_is_collection q = d.
Proof.
  unfold DavPath_join_child, child_relative_path.
  destruct (from_utf8 name) as [n|]; [|done]. cbn [ok_or mbind result_bind].
  case_decide as Hn; [done|]. cbn [fmap result_fmap]. intros [= <-].
  assert (∃ pre c, c ≠ slash ∧ (if decide (DavPath_as_str p = [slash]) then slash :: n
    else if ends_with slash (DavPath_as_str p) then DavPath_as_str p ++ n
    else DavPath_as_str p ++ slash :: n) = pre ++ [c]) as (pre & c & Hc & ->).
  { destruct n as [|c n _] using rev_ind; [tauto|].
    assert (c ≠ slash).
    { intros ->. apply Hn. do 3 right. left. apply elem_of_app. right. by apply list_elem_of_singleton. }
    case_decide; [by exists (slash :: n), c|].
    destruct (ends_with _ _);
      [exists (DavPath_as_str p ++ n), c|exists (DavPath_as_str p ++ slash :: n), c];
      (split; [done|]); by rewrite <- app_assoc. }
  unfold DavPath_is_collection. rewrite ends_with_snoc, (bool_decide_eq_false_2 (c = slash)) by done.
  destruct d; cbn [andb negb DavPath_as_str]; rewrite ends_with_snoc.
  - by rewrite (bool_decide_eq_true_2 (slash = slash)), orb_true_r by done.
  - rewrite !bool_decide_eq_false_2; [done|done|]. intros E. by apply (app_inj_tail pre []) in E as [_ ?].
Qed.

(** [q] is [p] or lies under it. *)
Inductive below (p : DavPath) : DavPath → Prop :=
  | below_self : below p p
  | below_parent q q' : DavPath_parent q = Some q' → below p q' → below p q.

Lemma below_child p q : below p q → q = p ∨ ∃ c, DavPath_parent c = Some p ∧ below c q.
Proof.
  induction 1 as [|q q' Hq _ [->|(c & Hc & Hb)]]; [by left|right..].
  - exists q. split; [done|constructor].
  - exists c. split; [done|]. by eapply below_parent.
Qed.

Lemma below_trans p c q : DavPath_parent c = Some p → below c q → below p q.
Proof.
  intros Hc. induction 1 as [|q q' Hq _ IH]; [|by eapply below_parent].
  eapply below_parent; [done|constructor].
Qed.

(** Every resource has its parent collection. *)
Definition closed (nodes : DavPath → Prop) : Prop :=
  ∀ q p, nodes q → DavPath_parent q = Some p → nodes p.

Lemma closed_below nodes p q : closed nodes → below p q → nodes q → nodes p.
Proof. intros Hc. induction 1 as [|q q' Hq _ IH]; [done|]. intros Hn. apply IH. by eapply Hc. Qed.

Lemma complete_success_spec o :
  DavMutationOutcome_is_complete_success o = true ↔ outcome_failures o = [] ∧ outcome_stop o = None.
Proof.
  unfold DavMutationOutcome_is_complete_success. by rewrite andb_true_iff, !bool_decide_eq_true.
Qed.

Section namespace.
Context {E C W : Type} `{Countable C} (stable_key entry_name : E → list Z) (is_dir : E → bool).
Context (read_directory_page : DavDirectoryPageRequest (C := C) → W →
           result DavBackendError (DavDirectoryPage (E := E) (C := C)) * W)
        (is_cancelled : W → bool * W)
        (execute : DavMutationCommand → W → result DavMutationStepError unit * W)
        (nodes : W → DavPath → Prop).

(** The pages from a cursor on, up to the last. *)
Inductive enumerates : W → DavPath → option C → list E → Prop :=
  | enumerates_last w w' path cursor maximum entries :
      read_directory_page (mk_DavDirectoryPageRequest path cursor maximum) w =
        (Ok (mk_DavDirectoryPage entries None), w') →
      enumerates w path cursor entries
  | enumerates_more w w1 w2 path cursor maximum entries c more :
      read_directory_page (mk_DavDirectoryPageRequest path cursor maximum) w =
        (Ok (mk_DavDirectoryPage entries (Some c)), w1) →
      is_cancelled w1 = (false, w2) → enumerates w2 path (Some c) more →
      enumerates w path cursor (entries ++ more).

Definition is_delete (step : DavMutationStepKind) : Prop :=
  step = DeleteFile ∨ step = DeleteCollection.

(** What the product promises. *)
Record faithful_product : Prop := {
  cancelled_same : ∀ w q, nodes (is_cancelled w).2 q ↔ nodes w q;
  read_same : ∀ request w q, nodes (read_directory_page request w).2 q ↔ nodes w q;
  listing : ∀ w path entries, enumerates w path None entries →
    ∀ q, nodes w q ∧ DavPath_parent q = Some path ↔
      ∃ e, e ∈ entries ∧ DavPath_join_child path (entry_name e) (is_dir e) = Ok q;
  delete_ok : ∀ c w w', is_delete (command_step c) → execute c w = (Ok tt, w') →
    ∀ q, nodes w' q ↔ nodes w q ∧ q ≠ command_source c;
  delete_err : ∀ c w e w', is_delete (command_step c) → execute c w = (Err e, w') →
    ∀ q, nodes w' q ↔ nodes w q;
}.

Context (product : faithful_product).

(** ** Listing a collection *)
Lemma children_of_spec path entries children :
  children_of stable_key entry_name is_dir path entries = Ok children →
  (∀ c, c ∈ children → child_is_collection c = DavPath_is_collection (child_path c)) ∧
  ∀ q, (∃ c, c ∈ children ∧ child_path c = q) ↔
    ∃ e, e ∈ entries ∧ DavPath_join_child path (entry_name e) (is_dir e) = Ok q.
Proof.
  revert children. induction entries as [|e entries IH]; intros children; cbn.
  { intros [= <-]. split; [by intros c ?%elem_of_nil|].
    intros q. split; intros (x & ?%elem_of_nil & _); done. }
  destruct (DavPath_join_child path (entry_name e) (is_dir e)) as [p|] eqn:Ej; [|done]. cbn.
  destruct (children_of _ _ _ path entries) as [more|]; [|done]. cbn. intros [= <-].
  destruct (IH more eq_refl) as [IHk IHq]. split.
  - intros c [->|Hc]%elem_of_cons; [|auto]. cbn. symmetry. by eapply child_kind.
  - intros q. setoid_rewrite elem_of_cons. specialize (IHq q). split.
    + intros (c & [->|Hc] & Hq); [exists e; split; [by left|]; by rewrite Ej, <- Hq|].
      destruct (proj1 IHq) as (e' & ? & ?); eauto.
    + intros (e' & [->|He] & Hq).
      * rewrite Ej in Hq. injection Hq as <-. eexists. split; [by left|done].
      * destruct (proj2 IHq) as (c & ? & ?); eauto.
Qed.

Lemma children_of_app path entries entries' children children' :
  children_of stable_key entry_name is_dir path entries = Ok children →
  children_of stable_key entry_name is_dir path entries' = Ok children' →
  children_of stable_key entry_name is_dir path (entries ++ entries') = Ok (children ++ children').
Proof.
  intros Hc Hc'. revert children Hc. induction entries as [|e entries IH]; intros children; cbn.
  { by intros [= <-]. }
  destruct (DavPath_join_child _ _ _); [|done]. cbn.
  destruct (children_of _ _ _ path entries) as [more|]; [|done]. cbn. intros [= <-].
  by rewrite (IH more eq_refl).
Qed.

Lemma read_children_enumerates limits fuel path state children w r w' :
  poisoned state = None → finished state = false →
  read_children_from stable_key entry_name is_dir read_directory_page is_cancelled limits
    fuel path state children w = Some (r, w') →
  (∀ q, nodes w' q ↔ nodes w q) ∧
  ∀ result, r = Ok result → ∃ w1 entries more,
    is_cancelled w = (false, w1) ∧ enumerates w1 path (current_cursor state) entries ∧
    children_of stable_key entry_name is_dir path entries = Ok more ∧ result = children ++ more.
Proof.
  revert state children w. induction fuel as [|fuel IH]; intros state children w Hp Hf; [done|]. cbn.
  unfold read_next_directory_page. rewrite Hp, Hf.
  case_decide; [by intros [= <- <-]|].
  pose proof (cancelled_same product w) as Hsame. destruct (is_cancelled w) as [[] w1]; cbn in Hsame.
  { by intros [= <- <-]. }
  case_decide; [by intros [= <- <-]|].
  set (request := mk_DavDirectoryPageRequest path (current_cursor state) _).
  pose proof (read_same product request w1) as Hread.
  destruct (read_directory_page request w1) as [[[entries next]|e] w2] eqn:Er; cbn in Hread.
  2:{ intros [= <- <-]. split; [|done]. intros q. by rewrite Hread. }
  destruct (validate_directory_page _ _ _ _ _ _) as [u|e].
  2:{ intros [= <- <-]. split; [|done]. intros q. by rewrite Hread. }
  cbn [validated_entries page_entries page_next_cursor].
  destruct (match checked_add _ _ _ with Some _ => _ | None => _ end).
  { intros [= <- <-]. split; [|done]. intros q. by rewrite Hread. }
  destruct (children_of _ _ _ path entries) as [more|e] eqn:Ec.
  2:{ intros [= <- <-]. split; [|done]. intros q. by rewrite Hread. }
  destruct next as [c|].
  - intros Hm. destruct fuel as [|fuel]; [done|].
    destruct (IH (accept_page stable_key (mk_DavDirectoryPage entries (Some c)) state)
      (children ++ more) w2 Hp eq_refl Hm) as [Hns Hok]. split.
    { intros q. by rewrite Hns, Hread. }
    intros result ->. destruct (Hok result eq_refl) as (w3 & entries' & more' & Hc & He & Hco & ->).
    exists w1, (entries ++ entries'), (more ++ more'). split; [done|]. split.
    { eapply enumerates_more; [exact Er|exact Hc|exact He]. }
    split; [|by rewrite app_assoc]. by apply children_of_app.
  - destruct fuel as [|fuel]; [done|]. cbn. unfold read_next_directory_page. cbn.
    rewrite Hp. intros [= <- <-]. split.
    { intros q. by rewrite Hread. }
    intros result [= <-]. exists w1, entries, more. split; [done|].
    split; [by eapply enumerates_last|done].
Qed.

Lemma walk_children_listed limits path a r a' :
  walk_children stable_key entry_name is_dir read_directory_page is_cancelled limits path a =
    Some (r, a') →
  (∀ q, nodes (acc_world a') q ↔ nodes (acc_world a) q) ∧
  (∃ more, acc_failures a' = acc_failures a ++ more ∧ (r = Ok None → more ≠ [])) ∧
  ∀ children, r = Ok (Some children) →
    (∀ c, c ∈ children → child_is_collection c = DavPath_is_collection (child_path c)) ∧
    ∀ q, (∃ c, c ∈ children ∧ child_path c = q) ↔
      nodes (acc_world a) q ∧ DavPath_parent q = Some path.
Proof.
  unfold walk_children, read_children.
  destruct (read_children_from _ _ _ _ _ _ _ _ _ _ _) as [[r0 w]|] eqn:Er; [|done].
  apply read_children_enumerates in Er as [Hns Hok]; [|done..]. cbn.
  destruct r0 as [children|[| | |error|error]];
    try (intros [= <- <-]; split; [done|]; split; [exists []; by rewrite app_nil_r|done]).
  - intros [= <- <-]. split; [done|]. split; [exists []; by rewrite app_nil_r|].
    intros ? [= <-]. destruct (Hok children eq_refl) as (w1 & entries & more & Hc & He & Hco & ->).
    cbn [app]. destruct (children_of_spec _ _ _ Hco) as [Hk Hq]. split; [done|].
    intros q. rewrite Hq, <- (listing product _ _ _ He).
    pose proof (cancelled_same product (acc_world a) q) as Hsame. rewrite Hc in Hsame. cbn in Hsame.
    by rewrite Hsame.
  - case_decide; [intros [= <- <-]; split; [done|]; split; [exists []; by rewrite app_nil_r|done]|].
    unfold mbind, walk_bind, walk_failure, mbind, walk_bind, walk_budget, walk_record. cbn.
    destruct (DavTraversalBudget_record_failure (acc_budget a)) as [[u|e] b]; cbn;
      intros [= <- <-]; (split; [done|]); (split; [|done]); [by eexists|exists []; by rewrite app_nil_r].
Qed.

(** ** Deleting *)
(** From [a] to [a']: the namespace stays a tree and only loses resources of
    [scope]; when no failure is answered, all of [gone] is gone; a failure is
    recorded. *)
Record deleting (scope : DavPath) (gone : DavPath → Prop) (a a' : account (W := W))
    (r : result DavMutationStop bool) : Prop := {
  del_closed : closed (nodes (acc_world a'));
  del_shrinks : ∀ q, nodes (acc_world a') q → nodes (acc_world a) q;
  del_outside : ∀ q, nodes (acc_world a) q → ¬ below scope q → nodes (acc_world a') q;
  del_gone : r = Ok false → ∀ q, gone q → ¬ nodes (acc_world a') q;
  del_failures : ∃ more, acc_failures a' = acc_failures a ++ more ∧ (r = Ok true → more ≠ []);
}.

Definition same_nodes (a a' : account (W := W)) : Prop :=
  ∀ q, nodes (acc_world a') q ↔ nodes (acc_world a) q.

Lemma closed_same a a' : same_nodes a a' → closed (nodes (acc_world a)) → closed (nodes (acc_world a')).
Proof. intros Hs Hc q p Hq Hp. apply Hs. eapply Hc; [by apply Hs|done]. Qed.

Lemma deleting_same scope gone a a' r more :
  closed (nodes (acc_world a)) → same_nodes a a' → acc_failures a' = acc_failures a ++ more →
  r ≠ Ok false → (r = Ok true → more ≠ []) → deleting scope gone a a' r.
Proof.
  intros Hc Hs Hf Hr Hm. split.
  - by eapply closed_same.
  - intros q. apply Hs.
  - intros q Hq _. by apply Hs.
  - done.
  - by exists more.
Qed.

Lemma deleting_after scope gone a a1 a' r :
  same_nodes a a1 → acc_failures a1 = acc_failures a → deleting scope gone a1 a' r →
  deleting scope gone a a' r.
Proof.
  intros Hs Hf [H1 H2 H3 H4 (more & H5 & H6)]. split; [done| | |done|].
  - intros q Hq. by apply Hs, H2.
  - intros q Hq. by apply H3, Hs.
  - exists more. by rewrite H5, Hf.
Qed.

(** [m] leaves the namespace and the failures alone. *)
Definition quiet {A} (m : walk A) : Prop :=
  ∀ a r a', m a = Some (r, a') → same_nodes a a' ∧ acc_failures a' = acc_failures a.

Lemma quiet_budget op : quiet (walk_budget op).
Proof. intros a r a'. unfold walk_budget. destruct (op _). by intros [= <- <-]. Qed.

Lemma quiet_enter : quiet (walk_enter is_cancelled).
Proof.
  intros a r a'. unfold walk_enter, walk_checkpoint, walk_budget, mbind, walk_bind.
  pose proof (cancelled_same product (acc_world a)) as Hs.
  destruct (is_cancelled (acc_world a)) as [[] w]; intros [= <- <-]; by split.
Qed.

Lemma quiet_depth depth : quiet (walk_depth (W := W) depth).
Proof. intros a r a'. unfold walk_depth. destruct (checked_add _ _ _); intros [= <- <-]; by split. Qed.

(** A quiet step, then the rest. *)
Lemma deleting_bind {A} (m : walk A) (k : A → walk bool) scope gone a r a' :
  quiet m → closed (nodes (acc_world a)) → (m ≫= k) a = Some (r, a') →
  (∀ x a1, closed (nodes (acc_world a1)) → same_nodes a a1 → k x a1 = Some (r, a') →
     deleting scope gone a1 a' r) →
  deleting scope gone a a' r.
Proof.
  intros Hq Hc Hm Hk. apply walk_bind_some in Hm as [(x & a1 & E1 & E2)|(s & E1 & ->)];
    destruct (Hq _ _ _ E1) as [Hs Hf].
  - eapply deleting_after; [done..|]. apply (Hk x); [by eapply closed_same|done|done].
  - apply (deleting_same _ _ _ _ _ []); try done. by rewrite app_nil_r.
Qed.

(** The step that removes a resource without children. *)
Lemma deleting_step command path a r a' :
  is_delete (command_step command) → command_source command = path →
  closed (nodes (acc_world a)) → (∀ q, nodes (acc_world a) q → DavPath_parent q ≠ Some path) →
  walk_step execute command a = Some (r, a') → deleting path (below path) a a' r.
Proof.
  intros Hd <- Hc Hleaf. unfold walk_step.
  destruct (execute command (acc_world a)) as [[[]|e] w] eqn:Ex.
  - intros [= <- <-]. pose proof (delete_ok product _ _ _ Hd Ex) as Hok. cbn.
    assert (closed (nodes w)) as Hc'.
    { intros q p Hq Hp. apply Hok in Hq as [Hq _]. apply Hok. split; [by eapply Hc|].
      intros ->. by eapply Hleaf. }
    split; cbn; [done| | | |by exists []; rewrite app_nil_r].
    + intros q Hq. by apply Hok in Hq as [? _].
    + intros q Hq Hb. apply Hok. split; [done|]. intros ->. apply Hb. constructor.
    + intros _ q [->|(c & Hcp & Hcb)]%below_child Hq; [by apply Hok in Hq as [_ ?]|].
      pose proof (closed_below _ _ _ Hc' Hcb Hq) as Hn. apply Hok in Hn as [Hn _]. by eapply Hleaf.
  - pose proof (delete_err product _ _ _ _ Hd Ex) as Herr.
    unfold walk_failure, walk_budget, walk_record, mbind, walk_bind. cbn.
    destruct (DavTraversalBudget_record_failure (acc_budget a)) as [[u|e'] b]; cbn; intros [= <- <-].
    + by eapply deleting_same.
    + apply (deleting_same _ _ _ _ _ []); try done. by rewrite app_nil_r.
Qed.

Section walking.
Context (recurse : bool) (limits : DavMutationExecutorLimits).

Abbreviation walker := (walk_item stable_key entry_name is_dir read_directory_page is_cancelled execute
                          OpDelete recurse limits).

(** What the induction on the fuel provides. *)
Definition deletes (f : Work → walk bool) : Prop :=
  ∀ path coll role depth parent a r a', coll = DavPath_is_collection path →
  closed (nodes (acc_world a)) → f (DeleteNode path coll role depth parent) a = Some (r, a') →
  deleting path (below path) a a' r.

Lemma deleting_all f path role depth children a r a' :
  deletes f → closed (nodes (acc_world a)) →
  (∀ c, c ∈ children → child_is_collection c = DavPath_is_collection (child_path c)) →
  (∀ c, c ∈ children → DavPath_parent (child_path c) = Some path) →
  walk_all f (map (λ child, DeleteNode (child_path child) (child_is_collection child) role depth None)
                children) a = Some (r, a') →
  deleting path (λ q, ∃ c, c ∈ children ∧ below (child_path c) q) a a' r.
Proof.
  intros Hf. revert a r a'. induction children as [|c children IH]; intros a r a' Hc Hk Hp; cbn.
  { intros [-> ->]%walk_ret_some. split; try done; [|by exists []; rewrite app_nil_r].
    by intros _ q (x & ?%elem_of_nil & _). }
  assert (c ∈ c :: children) as Hin by (apply elem_of_cons; by left).
  intros [(failed & a1 & E1 & E2)|(s & E1 & ->)]%walk_bind_some;
    apply Hf in E1 as [D1 D2 D3 D4 (m1 & D5 & D6)]; try done; try by apply Hk.
  2:{ split; [done|done| |done|by exists m1]. intros q Hq Hb. apply D3; [done|].
      intros Hb'. apply Hb. eapply below_trans; [by apply Hp|done]. }
  assert (∀ q, nodes (acc_world a) q → ¬ below path q → nodes (acc_world a1) q) as D3'.
  { intros q Hq Hb. apply D3; [done|]. intros Hb'. apply Hb. eapply below_trans; [by apply Hp|done]. }
  apply walk_bind_some in E2 as [(more & a2 & E2 & E3)|(s & E2 & ->)];
    apply IH in E2 as [F1 F2 F3 F4 (m2 & F5 & F6)]; try done;
    try (intros x Hx; (apply Hk || apply Hp); apply elem_of_cons; by right).
  - apply walk_ret_some in E3 as [-> ->]. split; [done|auto|auto| |].
    + intros [= Hor]. apply orb_false_iff in Hor as [-> ->].
      intros q (x & [->|Hx]%elem_of_cons & Hb) Hq; [|by eapply F4; eauto].
      eapply D4; [done|exact Hb|auto].
    + exists (m1 ++ m2). rewrite F5, D5, app_assoc. split; [done|]. intros [= Hor].
      apply orb_true_iff in Hor as [-> | ->].
      * intros [? _]%app_nil. by apply D6.
      * intros [_ ?]%app_nil. by apply F6.
  - split; [done|auto|auto|done|]. exists (m1 ++ m2). by rewrite F5, D5, app_assoc.
Qed.

Lemma delete_item fuel : deletes (walker fuel).
Proof.
  induction fuel as [|fuel IH]; [done|].
  intros path coll role depth parent a r a' Hcoll Hc Hm.
  destruct coll; cbn [walk_item] in Hm;
    (eapply deleting_bind; [apply quiet_enter|done|exact Hm|]); clear Hc Hm;
    intros u1 a1 Hc Hs1 Hm; cbn beta in Hm; clear u1 Hs1;
    (eapply deleting_bind; [apply quiet_budget|done|exact Hm|]); clear Hc Hm;
    intros u2 a2 Hc Hs2 Hm; cbn beta in Hm; clear u2 Hs2 a a1; rename a2 into a.
  2:{ eapply deleting_step; [| | | |exact Hm]; [by left|done|done|].
      intros q _ Hq%parent_is_collection. congruence. }
  apply walk_bind_some in Hm as [(children & a1 & E1 & Hm)|(s & E1 & ->)];
    apply walk_children_listed in E1 as (Hs1 & (m1 & Hf1 & Hm1) & Hlist).
  2:{ by eapply deleting_same. }
  destruct children as [children|].
  2:{ apply walk_ret_some in Hm as [-> ->]. eapply deleting_same; try done. intros _. by apply Hm1. }
  destruct (Hlist children eq_refl) as [Hk Hq]. clear Hlist Hm1.
  assert (closed (nodes (acc_world a1))) as Hc1 by by eapply closed_same.
  assert (∀ q, (∃ c, c ∈ children ∧ child_path c = q) ↔
    nodes (acc_world a1) q ∧ DavPath_parent q = Some path) as Hq1 by (intros q; by rewrite Hq, Hs1).
  assert (same_nodes a a1) as Hs1' by done.
  assert (deleting path (below path) a1 a' r → deleting path (below path) a a' r) as Hback.
  { intros [D1 D2 D3 D4 (m2 & D5 & D6)]. split; [done|..|done|].
    - intros q Hn. by apply Hs1, D2.
    - intros q Hn. by apply D3, Hs1.
    - exists (m1 ++ m2). rewrite D5, Hf1, app_assoc. split; [done|].
      intros Hr [_ ?]%app_nil. by apply D6. }
  apply Hback. clear Hback Hs1 Hs1' Hq Hf1 m1 Hc a. rename a1 into a, Hc1 into Hc.
  eapply deleting_bind; [apply quiet_depth|done|exact Hm|]. clear Hm.
  intros child_depth a1 Hc1 Hs1 Hm.
  eapply deleting_bind; [apply quiet_budget|done|exact Hm|]. clear Hm.
  intros u2 a2 Hc2 Hs2 Hm. cbn beta in Hm.
  apply walk_bind_some in Hm as [(failed & a3 & E1 & Hm)|(s & E1 & ->)];
    apply (deleting_all _ path) in E1 as [D1 D2 D3 D4 (m1 & D5 & D6)]; try done.
  all: try (intros c Hin; apply Hq1; by exists c).
  2:{ split; try done. by exists m1. }
  apply walk_bind_some in Hm as [([] & a4 & E2 & Hm)|(s & E2 & ->)];
    apply quiet_enter in E2 as [Hs4 Hf4].
  2:{ split; [by eapply closed_same| | |done|exists m1; by rewrite Hf4].
      - intros q Hn. by apply D2, Hs4.
      - intros q Hn Hb. by apply Hs4, D3. }
  assert (closed (nodes (acc_world a4))) as Hc4 by by eapply closed_same.
  destruct failed.
  - apply walk_ret_some in Hm as [-> ->]. split; [done| | |done|].
    + intros q Hn. by apply D2, Hs4.
    + intros q Hn Hb. by apply Hs4, D3.
    + exists m1. rewrite Hf4. split; [done|]. intros _. by apply D6.
  - apply deleting_step with (path := path) in Hm as [F1 F2 F3 F4 (m2 & F5 & F6)];
      [|by right|done|done|].
    2:{ intros q Hn Hpar. assert (nodes (acc_world a2) q) as Hn2 by by apply D2, Hs4.
        destruct (proj2 (Hq1 q)) as (c & Hin & <-); [by split; [apply Hs1, Hs2|]|].
        eapply D4; [done| |by apply Hs4]. exists c. split; [done|constructor]. }
    split; [done| | |done|].
    + intros q Hn. by apply D2, Hs4, F2.
    + intros q Hn Hb. apply F3; [|done]. by apply Hs4, D3.
    + exists (m1 ++ m2). rewrite F5, Hf4, D5, app_assoc. split; [done|].
      intros Hr [_ ?]%app_nil. by apply F6.
Qed.

(** The whole request: with neither stop nor failure, the target is gone. *)
Record deleted (path : DavPath) (a a' : account (W := W)) (r : result DavMutationStop unit) : Prop := {
  deleted_closed : closed (nodes (acc_world a'));
  deleted_shrinks : ∀ q, nodes (acc_world a') q → nodes (acc_world a) q;
  deleted_outside : ∀ q, nodes (acc_world a) q → ¬ below path q → nodes (acc_world a') q;
  deleted_gone : ∀ u, r = Ok u → acc_failures a' = [] → ∀ q, below path q → ¬ nodes (acc_world a') q;
}.

Lemma deleting_root path coll a r a' :
  coll = DavPath_is_collection path → closed (nodes (acc_world a)) →
  walk_root stable_key entry_name is_dir read_directory_page is_cancelled execute OpDelete recurse limits
    (DeleteNode path coll RoleSource 0 None) a = Some (r, a') →
  deleted path a a' r.
Proof.
  intros Hcoll Hc Hm. unfold walk_root in Hm.
  apply walk_bind_some in Hm as [(u & a1 & E1 & Hm)|(s & E1 & ->)];
    apply quiet_budget in E1 as [Hs1 Hf1].
  2:{ split; [by eapply closed_same| | |done]; intros q; rewrite (Hs1 q); done. }
  assert (closed (nodes (acc_world a1))) as Hc1 by by eapply closed_same.
  apply walk_bind_some in Hm as [(failed & a2 & E2 & Hm)|(s & E2 & ->)];
    apply delete_item in E2 as [D1 D2 D3 D4 (m & D5 & D6)]; try done.
  2:{ split; [done| | |done].
      - intros q Hq. by apply Hs1, D2.
      - intros q Hq. by apply D3, Hs1. }
  assert (same_nodes a2 a' ∧ acc_failures a' = acc_failures a2) as [Hs3 Hf3].
  { revert Hm. unfold walk_checkpoint. pose proof (cancelled_same product (acc_world a2)) as Hs.
    destruct (is_cancelled (acc_world a2)) as [c w]. intros [= _ <-]. by split. }
  split; [by eapply closed_same| | |].
  - intros q Hq. by apply Hs1, D2, Hs3.
  - intros q Hq Hb. by apply Hs3, D3; [apply Hs1|].
  - intros _ _ Hnil q Hb Hq. apply Hs3 in Hq. destruct failed; [|by eapply D4].
    rewrite Hf3, D5 in Hnil. apply app_nil in Hnil as [_ Hnil]. by apply D6.
Qed.
End walking.

(** C39. Under the product's contract a recursive DELETE keeps the namespace
    a tree whatever happens - failures of single resources, limits,
    cancellation, invalid pages: every resource that is left still has its
    parent collection, nothing outside the target is touched, nothing is
    created, and a complete success leaves nothing at or under the target. *)
Theorem delete_keeps_namespace request limits w extra :
  mutation_operation request = OpDelete →
  bool_decide (mutation_source_kind request = KindCollection) =
    DavPath_is_collection (mutation_source request) →
  closed (nodes w) →
  match execute_recursive_mutation stable_key entry_name is_dir read_directory_page is_cancelled
          execute (mutation_fuel limits + extra) request limits w with
  | Some (outcome, w') =>
      closed (nodes w') ∧ (∀ q, nodes w' q → nodes w q) ∧
      (∀ q, nodes w q → ¬ below (mutation_source request) q → nodes w' q) ∧
      (DavMutationOutcome_is_complete_success outcome = true →
         ∀ q, below (mutation_source request) q → ¬ nodes w' q)
  | None => False
  end.
Proof.
  intros Hop Hkind Hc. unfold execute_recursive_mutation, DavTraversalBudget_new.
  assert (∀ progress stop w', w' = w →
    let outcome := mutation_outcome request [] (Some stop) progress in
    closed (nodes w') ∧ (∀ q, nodes w' q → nodes w q) ∧
    (∀ q, nodes w q → ¬ below (mutation_source request) q → nodes w' q) ∧
    (DavMutationOutcome_is_complete_success outcome = true →
       ∀ q, below (mutation_source request) q → ¬ nodes w' q)) as Hstopped.
  { intros progress stop w' ->. split; [done|]. split; [done|]. split; [done|].
    by intros [_ ?]%complete_success_spec. }
  do 2 (match goal with |- context [if decide ?P then _ else _] => destruct (decide P) end;
        [by apply Hstopped|]).
  unfold root_work. rewrite Hop, Hkind.
  destruct (run_root stable_key entry_name is_dir read_directory_page is_cancelled execute OpDelete
    (recurse_collections request) limits
    (DeleteNode (mutation_source request) (DavPath_is_collection (mutation_source request)) RoleSource 0 None)
    (mk_account [] (mk_DavTraversalBudget (traversal limits) DavTraversalProgress_default) w)
    (maximum_visited_resources (traversal limits)) extra I eq_refl eq_refl eq_refl eq_refl)
    as (r & a' & x & Hwalk & Hrun & Hstop & Hacc).
  unfold mutation_fuel. rewrite Hrun. cbn. rewrite Hacc, Hstop. clear Hrun Hstop Hacc x.
  apply (deleting_root (recurse_collections request) limits _ _ (mk_account [] _ w) _ _ eq_refl Hc)
    in Hwalk as [H1 H2 H3 H4].
  cbn in *. split; [done|]. split; [done|]. split; [done|].
  intros [Hf Hs]%complete_success_spec. cbn in Hf, Hs. destruct r; [|done]. by eapply H4.
Qed.
End namespace.

(** ** A product in memory *)
(** The root with at most a collection [/d/] and a file [/d/f]. *)
Definition demo_root : DavPath := DavPath_root.
Definition demo_dir : DavPath := mk_DavPath (lit "/d/").
Definition demo_file : DavPath := mk_DavPath (lit "/d/f").

Definition demo_nodes (w : bool * bool) (q : DavPath) : Prop :=
  q = demo_root ∨ (w.1 = true ∧ q = demo_dir) ∨ (w.2 = true ∧ q = demo_file).

Definition demo_entries (path : DavPath) (w : bool * bool) : list (str * bool) :=
  if decide (path = demo_root) then if w.1 then [(lit "d", true)] else []
  else if decide (path = demo_dir) then if w.2 then [(lit "f", false)] else []
  else [].

Definition demo_read (request : DavDirectoryPageRequest (C := unit)) (w : bool * bool)
    : result DavBackendError (DavDirectoryPage (E := str * bool) (C := unit)) * (bool * bool) :=
  (Ok (mk_DavDirectoryPage (demo_entries (request_path request) w) None), w).

Definition demo_delete (c : DavMutationCommand) (w : bool * bool)
    : result DavMutationStepError unit * (bool * bool) :=
  if decide (command_source c = demo_file) then (Ok tt, (w.1, false))
  else if decide (command_source c = demo_dir) then (Ok tt, (false, w.2))
  else (Err (StepStatus (command_source c) 404), w).

Lemma demo_product :
  faithful_product (C := unit) fst snd demo_read (λ w, (false, w)) demo_delete demo_nodes.
Proof.
  split; try done.
  - intros w path entries He. inversion He as [w0 w' path0 cursor maximum entries0 Hr|
      w0 w1 w2 path0 cursor maximum entries0 c more Hr]; subst; [|done].
    injection Hr as <- _. intros q. unfold demo_nodes, demo_entries. cbn [request_path].
    destruct w as [[] []]; cbn [fst snd];
      (destruct (decide (path = demo_root)) as [->|Hroot];
       [|destruct (decide (path = demo_dir)) as [->|Hdir]]); split.
    all: try (intros (e & ?%elem_of_nil & _); done).
    all: try (intros (e & ->%list_elem_of_singleton & Hj); vm_compute in Hj; injection Hj as <-;
              split; [auto|reflexivity]).
    all: intros [Hn Hp]; destruct Hn as [->|[[? ->]|[? ->]]]; try done; vm_compute in Hp;
      try discriminate Hp.
    all: try (injection Hp as <-; exfalso; (by apply Hroot) || by apply Hdir).
    all: eexists; (split; [by apply list_elem_of_singleton|reflexivity]).
  - intros c w w' _ Hd q. revert Hd. unfold demo_delete, demo_nodes.
    case_decide as Hf; [|case_decide as Hdr; [|done]]; intros [= <-]; cbn; rewrite ?Hf, ?Hdr;
      split; intros Hq.
    + destruct Hq as [->|[[? ->]|[? ->]]]; [split; [auto|done]|split; [auto|done]|done].
    + destruct Hq as [[->|[[? ->]|[? ->]]] ?]; naive_solver.
    + destruct Hq as [->|[[? ->]|[? ->]]]; [split; [auto|done]|done|split; [auto|done]].
    + destruct Hq as [[->|[[? ->]|[? ->]]] ?]; naive_solver.
  - intros c w e w' _ Hd q. revert Hd. unfold demo_delete.
    case_decide; [done|]. case_decide; [done|]. by intros [= _ <-].
Qed.

Definition demo_limits : DavMutationExecutorLimits :=
  mk_DavMutationExecutorLimits (mk_DavTraversalLimits 8 8 8 None) (mk_DavDirectoryPageLimits 8 8) 8 8.
Definition demo_request : DavMutationRequest :=
  mk_DavMutationRequest OpDelete demo_dir KindCollection None None false true.
Definition demo_execution : option (DavMutationOutcome * (bool * bool)) :=
  execute_recursive_mutation (C := unit) fst fst snd demo_read (λ w, (false, w)) demo_delete
    (mutation_fuel demo_limits + 0) demo_request demo_limits (true, true).

Lemma delete_keeps_namespace_witness :
  match demo_execution with
  | Some (outcome, w') =>
      w' = (false, false) ∧ DavMutationOutcome_is_complete_success outcome = true ∧
      closed (demo_nodes w') ∧ ∀ q, below demo_dir q → ¬ demo_nodes w' q
  | None => False
  end.
Proof.
  pose proof (delete_keeps_namespace fst fst snd demo_read (λ w, (false, w)) demo_delete demo_nodes
    demo_product demo_request demo_limits (true, true) 0 eq_refl ltac:(vm_compute; reflexivity)) as H.
  assert (closed (demo_nodes (true, true))) as Hc.
  { intros q p [->|[[_ ->]|[_ ->]]] Hp; vm_compute in Hp; [done| |]; injection Hp as <-;
      unfold demo_nodes; auto. }
  specialize (H Hc). unfold demo_execution.
  assert (∃ o, demo_execution = Some (o, (false, false)) ∧
    DavMutationOutcome_is_complete_success o = true) as (o & Ho & Hs)
    by (eexists; split; vm_compute; reflexivity).
  unfold demo_execution in Ho. rewrite Ho in H |- *. destruct H as (H1 & _ & _ & H4).
  split; [reflexivity|]. split; [exact Hs|]. split; [exact H1|]. exact (H4 Hs).
Defined.
