(* ===== verification/TaskLease.v ===== *)
(** * Task leases, retry classes and heartbeats

    [aster_forge_tasks/src/error.rs], [lease.rs], [retry.rs] and the
    evaluation of one heartbeat of [heartbeat.rs]: the in-memory guard that
    task code and heartbeats share to decide whether a worker may keep
    writing.  An [Instant] or a [Duration] is a [Z] of nanoseconds, an [i64]
    a [Z] with its range; the time of a call and whether the observed shutdown
    token is cancelled by then are arguments.  The mutex makes every method
    one atomic step, so a history of the guard is a list of steps. *)
From S2P Require Export Prelude.

(** ** Errors *)
Inductive TaskCoreError : Type :=
  | Codec (message : string)
  | InvalidValue (message : string)
  | Io (message : string)
  | LeaseLost (task_id processing_token : Z)
  | LeaseRenewalTimedOut (task_id processing_token : Z)
  | CancellationRequested (task_id processing_token : Z)
  | WorkerShutdownRequested (task_id processing_token : Z).

#[export] Instance TaskCoreError_eq_dec : EqDecision TaskCoreError.
Proof. solve_decision. Defined.

Definition is_task_lease_lost (e : TaskCoreError) : bool :=
  match e with LeaseLost _ _ => true | _ => false end.
Definition is_task_lease_renewal_timed_out (e : TaskCoreError) : bool :=
  match e with LeaseRenewalTimedOut _ _ => true | _ => false end.
Definition is_task_cancellation_requested (e : TaskCoreError) : bool :=
  match e with CancellationRequested _ _ => true | _ => false end.
Definition is_task_worker_shutdown_requested (e : TaskCoreError) : bool :=
  match e with WorkerShutdownRequested _ _ => true | _ => false end.

(** ** Retry classes *)
Inductive TaskRetryClass : Type := RetryAuto | RetryManual | RetryNever.

Definition should_auto_retry (c : TaskRetryClass) : bool :=
  match c with RetryAuto => true | _ => false end.
Definition can_manual_retry (c : TaskRetryClass) : bool :=
  match c with RetryAuto | RetryManual => true | RetryNever => false end.

Definition default_task_retry_delay_secs (attempt_count : Z) : Z :=
  match attempt_count with 1 => 5 | 2 => 15 | 3 => 60 | _ => 300 end.

(** ** The guard *)
Record TaskLease : Type := mk_TaskLease {
  lease_task_id : Z;
  lease_processing_token : Z;
}.

#[export] Instance TaskLease_eq_dec : EqDecision TaskLease.
Proof. solve_decision. Defined.

Inductive TaskLeaseTermination : Type :=
  | TermLost | TermRenewalTimedOut | TermShutdownRequested | TermCancellationRequested.

#[export] Instance TaskLeaseTermination_eq_dec : EqDecision TaskLeaseTermination.
Proof. solve_decision. Defined.

(** [observes_shutdown] is [shutdown_token.is_some()]; [control_stop] is
    whether that token of the guard's own has been cancelled. *)
Record TaskLeaseGuard : Type := mk_TaskLeaseGuard {
  guard_lease : TaskLease;
  renewal_timeout : Z;
  observes_shutdown : bool;
  last_renewed_at : Z;
  termination : option TaskLeaseTermination;
  control_stop : bool;
}.

Definition task_lease_lost (lease : TaskLease) : TaskCoreError :=
  LeaseLost (lease_task_id lease) (lease_processing_token lease).
Definition task_lease_renewal_timed_out (lease : TaskLease) : TaskCoreError :=
  LeaseRenewalTimedOut (lease_task_id lease) (lease_processing_token lease).
Definition task_worker_shutdown_requested (lease : TaskLease) : TaskCoreError :=
  WorkerShutdownRequested (lease_task_id lease) (lease_processing_token lease).

Definition TaskLeaseGuard_new (now : Z) (lease : TaskLease) (timeout : Z) : TaskLeaseGuard :=
  mk_TaskLeaseGuard lease timeout false now None false.

Definition TaskLeaseGuard_with_shutdown_token (now : Z) (lease : TaskLease) (timeout : Z)
    : TaskLeaseGuard :=
  mk_TaskLeaseGuard lease timeout true now None false.

(** [Instant::elapsed] saturates at zero. *)
Definition elapsed (now : Z) (g : TaskLeaseGuard) : Z :=
  saturating_sub now (last_renewed_at g).

Definition terminate (t : TaskLeaseTermination) (g : TaskLeaseGuard) : TaskLeaseGuard :=
  mk_TaskLeaseGuard (guard_lease g) (renewal_timeout g) (observes_shutdown g)
    (last_renewed_at g) (Some t) true.

Definition record_renewed (now : Z) (g : TaskLeaseGuard) : TaskLeaseGuard :=
  if decide (termination g = None) then
    mk_TaskLeaseGuard (guard_lease g) (renewal_timeout g) (observes_shutdown g)
      now (termination g) (control_stop g)
  else g.

Definition mark_lost (g : TaskLeaseGuard) : TaskCoreError * TaskLeaseGuard :=
  (task_lease_lost (guard_lease g), terminate TermLost g).

Definition mark_cancel_requested (g : TaskLeaseGuard) : TaskCoreError * TaskLeaseGuard :=
  (CancellationRequested (lease_task_id (guard_lease g)) (lease_processing_token (guard_lease g)),
   terminate TermCancellationRequested g).

Definition mark_shutdown_requested (g : TaskLeaseGuard) : TaskCoreError * TaskLeaseGuard :=
  (task_worker_shutdown_requested (guard_lease g), terminate TermShutdownRequested g).

Definition ensure_active (now : Z) (shutdown_cancelled : bool) (g : TaskLeaseGuard)
    : result TaskCoreError unit * TaskLeaseGuard :=
  let lease := guard_lease g in
  match termination g with
  | Some TermLost => (Err (task_lease_lost lease), g)
  | Some TermRenewalTimedOut => (Err (task_lease_renewal_timed_out lease), g)
  | Some TermShutdownRequested => (Err (task_worker_shutdown_requested lease), g)
  | Some TermCancellationRequested =>
      (Err (CancellationRequested (lease_task_id lease) (lease_processing_token lease)), g)
  | None =>
      if observes_shutdown g && shutdown_cancelled then
        (Err (task_worker_shutdown_requested lease), terminate TermShutdownRequested g)
      else if decide (renewal_timeout g ≤ elapsed now g) then
        (Err (task_lease_renewal_timed_out lease), terminate TermRenewalTimedOut g)
      else (Ok tt, g)
  end.

Definition remaining_renewal_budget (now : Z) (g : TaskLeaseGuard) : Z :=
  saturating_sub (renewal_timeout g) (elapsed now g).

(** ** Lease timing, in seconds *)
Definition i64_to_u64_saturating (value : Z) : Z :=
  if decide (0 ≤ value) then value else U64_MAX.

Definition task_lease_renewal_timeout (processing_stale_secs heartbeat_secs : Z) : Z :=
  let stale_secs := i64_to_u64_saturating (Z.max processing_stale_secs 1) in
  let heartbeat_secs := Z.max heartbeat_secs 1 in
  Z.max (saturating_sub stale_secs heartbeat_secs) 1.

(** ** One heartbeat *)
Inductive TaskHeartbeatOutcome : Type :=
  | HeartbeatRenewed | HeartbeatLost | HeartbeatCancellationRequested.

Definition TaskHeartbeatOutcome_from_bool (renewed : bool) : TaskHeartbeatOutcome :=
  if renewed then HeartbeatRenewed else HeartbeatLost.

(** [now] is the time at which the guard is used, [from_core] is
    [Error::from]. *)
Definition evaluate_heartbeat_result {E} (from_core : TaskCoreError → E) (now : Z)
    (shutdown_cancelled : bool) (outcome : result E TaskHeartbeatOutcome) (g : TaskLeaseGuard)
    : result E unit * TaskLeaseGuard :=
  match outcome with
  | Ok HeartbeatRenewed => (Ok tt, record_renewed now g)
  | Ok HeartbeatLost => let (e, g') := mark_lost g in (Err (from_core e), g')
  | Ok HeartbeatCancellationRequested =>
      let (e, g') := mark_cancel_requested g in (Err (from_core e), g')
  | Err _ => let (r, g') := ensure_active now shutdown_cancelled g in (map_err from_core r, g')
  end.

(** ** What the guard guarantees *)
(** The error that reports a termination. *)
Definition termination_error (lease : TaskLease) (t : TaskLeaseTermination) : TaskCoreError :=
  match t with
  | TermLost => task_lease_lost lease
  | TermRenewalTimedOut => task_lease_renewal_timed_out lease
  | TermShutdownRequested => task_worker_shutdown_requested lease
  | TermCancellationRequested =>
      CancellationRequested (lease_task_id lease) (lease_processing_token lease)
  end.

(** Waiters on [control_stop] are woken exactly by a termination. *)
Definition guard_inv (g : TaskLeaseGuard) : Prop :=
  control_stop g = true ↔ termination g ≠ None.

(** What task code, heartbeats and other holders of the guard do to it. *)
Inductive guard_step : TaskLeaseGuard → TaskLeaseGuard → Prop :=
  | step_renewed now g : guard_step g (record_renewed now g)
  | step_lost g : guard_step g (mark_lost g).2
  | step_cancel g : guard_step g (mark_cancel_requested g).2
  | step_shutdown g : guard_step g (mark_shutdown_requested g).2
  | step_ensure now cancelled g : guard_step g (ensure_active now cancelled g).2
  | step_heartbeat (now : Z) (cancelled : bool) (outcome : result TaskCoreError TaskHeartbeatOutcome) g :
      guard_step g (evaluate_heartbeat_result id now cancelled outcome g).2.

Lemma terminate_inv t g : guard_inv (terminate t g).
Proof. by split. Qed.

Lemma record_renewed_keeps now g :
  termination (record_renewed now g) = termination g ∧
  control_stop (record_renewed now g) = control_stop g ∧
  guard_lease (record_renewed now g) = guard_lease g ∧
  renewal_timeout (record_renewed now g) = renewal_timeout g.
Proof. unfold record_renewed. by case_decide. Qed.

Lemma ensure_active_terminated now cancelled g t :
  termination g = Some t →
  ensure_active now cancelled g = (Err (termination_error (guard_lease g) t), g).
Proof. unfold ensure_active. intros ->. by destruct t. Qed.

(** The writes of a worker are allowed exactly while its guard is not
    terminated, no shutdown is observed and a renewal budget is left. *)
Lemma ensure_active_ok now cancelled g :
  (ensure_active now cancelled g).1 = Ok tt ↔
  termination g = None ∧ observes_shutdown g && cancelled = false ∧
  0 < remaining_renewal_budget now g.
Proof.
  unfold ensure_active, remaining_renewal_budget, saturating_sub.
  destruct (termination g) as [[]|]; cbn; [naive_solver..|].
  destruct (observes_shutdown g && cancelled); cbn; [naive_solver|].
  case_decide; cbn; split; try done; intros; crush.
Qed.

Lemma ensure_active_result now cancelled g :
  let (r, g') := ensure_active now cancelled g in
  guard_lease g' = guard_lease g ∧
  match r with
  | Ok _ => g' = g ∧ termination g = None
  | Err e => ∃ t, termination g' = Some t ∧ e = termination_error (guard_lease g) t
  end.
Proof.
  destruct (termination g) as [t|] eqn:Ht.
  - rewrite (ensure_active_terminated _ _ _ t) by done. eauto.
  - unfold ensure_active. rewrite Ht. destruct (observes_shutdown g && cancelled); [by eauto|].
    case_decide; eauto.
Qed.

Lemma ensure_active_inv now cancelled g :
  guard_inv g → guard_inv (ensure_active now cancelled g).2.
Proof.
  unfold ensure_active. intros Hg. destruct (termination g) as [[]|]; cbn; try done.
  destruct (observes_shutdown g && cancelled); cbn; [apply terminate_inv|].
  case_decide; cbn; [apply terminate_inv|done].
Qed.

Lemma guard_step_inv g g' : guard_step g g' → guard_inv g → guard_inv g'.
Proof.
  assert (∀ now h, guard_inv h → guard_inv (record_renewed now h)) as Hr.
  { intros now h Hh. unfold guard_inv. by destruct (record_renewed_keeps now h) as (-> & -> & _). }
  intros [] Hg; cbn; auto using terminate_inv, ensure_active_inv.
  destruct outcome as [[]|e]; cbn; auto using terminate_inv.
  pose proof (ensure_active_inv now cancelled g0 Hg) as Hinv. by destruct (ensure_active _ _ g0).
Qed.

(** A termination is never undone: at most its reason changes. *)
Lemma guard_step_terminated g g' :
  guard_step g g' → termination g ≠ None → termination g' ≠ None.
Proof.
  assert (∀ now cancelled h, termination h ≠ None → termination (ensure_active now cancelled h).2 ≠ None) as He.
  { intros now cancelled h Hh. destruct (termination h) as [t|] eqn:Ht; [|done].
    rewrite (ensure_active_terminated _ _ _ t) by done. cbn. by rewrite Ht. }
  intros [] Hg; cbn; try done; auto.
  - by destruct (record_renewed_keeps now g0) as (-> & _).
  - destruct outcome as [[]|e]; cbn; try done.
    + by destruct (record_renewed_keeps now g0) as (-> & _).
    + specialize (He now cancelled g0 Hg). by destruct (ensure_active _ _ g0).
Qed.

Lemma guard_steps_terminated g g' now cancelled :
  rtc guard_step g g' → termination g ≠ None → (ensure_active now cancelled g').1 ≠ Ok tt.
Proof.
  intros Hsteps Hg Hok. apply ensure_active_ok in Hok as [Hn _].
  enough (termination g' ≠ None) by done. clear Hn.
  induction Hsteps; eauto using guard_step_terminated.
Qed.

(** The lease and the observed token are the guard's for life. *)
Lemma guard_step_keeps g g' :
  guard_step g g' → guard_lease g' = guard_lease g ∧ observes_shutdown g' = observes_shutdown g.
Proof.
  assert (∀ now h, guard_lease (record_renewed now h) = guard_lease h ∧
                   observes_shutdown (record_renewed now h) = observes_shutdown h) as Hr.
  { intros. unfold record_renewed. by case_decide. }
  assert (∀ now cancelled h, guard_lease (ensure_active now cancelled h).2 = guard_lease h ∧
            observes_shutdown (ensure_active now cancelled h).2 = observes_shutdown h) as He.
  { intros now cancelled h. unfold ensure_active. destruct (termination h) as [[]|]; try done.
    destruct (observes_shutdown h && cancelled); [done|]. by case_decide. }
  intros []; cbn; auto. destruct outcome as [[]|e]; cbn; auto.
  specialize (He now cancelled g0). by destruct (ensure_active _ _ g0).
Qed.

Lemma guard_steps_keep g g' :
  rtc guard_step g g' → guard_lease g' = guard_lease g ∧ observes_shutdown g' = observes_shutdown g.
Proof.
  induction 1 as [|g g1 g' Hs _ [-> ->]]; [done|]. by apply guard_step_keeps.
Qed.

(** A worker stops writing before its persisted lease is stale: the renewal
    timeout is at least one heartbeat shorter, unless the lease is not longer
    than a heartbeat. *)
Lemma task_lease_renewal_timeout_spec stale heartbeat :
  in_i64 stale → in_u64 heartbeat →
  let timeout := task_lease_renewal_timeout stale heartbeat in
  1 ≤ timeout ≤ Z.max stale 1 ∧
  (Z.max heartbeat 1 < Z.max stale 1 → timeout + Z.max heartbeat 1 = Z.max stale 1).
Proof.
  unfold in_i64, in_u64, task_lease_renewal_timeout, i64_to_u64_saturating, saturating_sub.
  intros. rewrite decide_True by lia. lia.
Qed.
