(* ===== verification/TaskSteps.v ===== *)
(** * Task steps

    [aster_forge_tasks/src/steps.rs]: the progress steps of a task, with the
    transitions that set one step and the failure of the active step.  The
    clock is an argument; a mutable slice is the list before and after. *)
From S2P Require Export TaskLease.

Inductive TaskStepStatus : Type :=
  | StepPending | StepActive | StepSucceeded | StepFailed | StepSkipped | StepCanceled.

#[export] Instance TaskStepStatus_eq_dec : EqDecision TaskStepStatus.
Proof. solve_decision. Defined.

Record TaskStepInfo : Type := mk_TaskStepInfo {
  step_key : string;
  step_title : string;
  step_status : TaskStepStatus;
  step_progress_current : Z;
  step_progress_total : Z;
  step_detail : option string;
  step_started_at : option Z;
  step_finished_at : option Z;
}.

Record TaskStepSpec : Type := mk_TaskStepSpec {
  spec_key : string;
  spec_title : string;
}.

Definition new_task_step (now : Z) (spec : TaskStepSpec) (status : TaskStepStatus)
    (detail : option string) : TaskStepInfo :=
  mk_TaskStepInfo (spec_key spec) (spec_title spec) status 0 0 detail
    (if decide (status = StepActive) then Some now else None) None.

Definition initial_task_steps_from_specs (now : Z) (specs : list TaskStepSpec) : list TaskStepInfo :=
  imap (λ index spec,
    new_task_step now spec (if decide (index = 0%nat) then StepActive else StepPending)
      (if decide (index = 0%nat) then Some "Waiting for worker" else None)) specs.

(** The position of the step that [iter_mut().find] borrows. *)
Definition find_task_step (steps : list TaskStepInfo) (key : string) : result TaskCoreError nat :=
  ok_or (fst <$> list_find (λ s, step_key s = key) steps)
    (InvalidValue ("task step '" +:+ key +:+ "' not found")).

Definition activate_step (now : Z) (detail : option string) (progress : option (Z * Z))
    (s : TaskStepInfo) : TaskStepInfo :=
  mk_TaskStepInfo (step_key s) (step_title s) StepActive
    (from_option fst (step_progress_current s) progress)
    (from_option snd (step_progress_total s) progress)
    detail (Some (default now (step_started_at s))) None.

Definition set_task_step_active (now : Z) (steps : list TaskStepInfo) (key : string)
    (detail : option string) (progress : option (Z * Z)) : result TaskCoreError (list TaskStepInfo) :=
  i ← find_task_step steps key;
  Ok (alter (activate_step now detail progress) i steps).

Definition succeed_step (now : Z) (detail : option string) (progress : option (Z * Z))
    (s : TaskStepInfo) : TaskStepInfo :=
  let '(current, total) :=
    match progress with
    | Some p => p
    | None =>
        (if decide (0 < step_progress_total s) then step_progress_total s else step_progress_current s,
         step_progress_total s)
    end in
  mk_TaskStepInfo (step_key s) (step_title s) StepSucceeded current total
    detail (Some (default now (step_started_at s))) (Some now).

Definition set_task_step_succeeded (now : Z) (steps : list TaskStepInfo) (key : string)
    (detail : option string) (progress : option (Z * Z)) : result TaskCoreError (list TaskStepInfo) :=
  i ← find_task_step steps key;
  Ok (alter (succeed_step now detail progress) i steps).

(** A step that ends without progress of its own. *)
Definition end_step (now : Z) (status : TaskStepStatus) (detail : option string) (s : TaskStepInfo)
    : TaskStepInfo :=
  mk_TaskStepInfo (step_key s) (step_title s) status (step_progress_current s)
    (step_progress_total s) detail (Some (default now (step_started_at s))) (Some now).

Definition set_task_step_skipped (now : Z) (steps : list TaskStepInfo) (key : string)
    (detail : option string) : result TaskCoreError (list TaskStepInfo) :=
  i ← find_task_step steps key;
  Ok (alter (end_step now StepSkipped detail) i steps).

(** A pending step fails with [started_at] set to now, whatever it was. *)
Definition fail_pending_step (now : Z) (detail : option string) (s : TaskStepInfo) : TaskStepInfo :=
  mk_TaskStepInfo (step_key s) (step_title s) StepFailed (step_progress_current s)
    (step_progress_total s) detail (Some now) (Some now).

(** [iter_mut().rev().find]: the last position of a status. *)
Fixpoint rfind_status (status : TaskStepStatus) (steps : list TaskStepInfo) : option nat :=
  match steps with
  | [] => None
  | s :: steps =>
      match rfind_status status steps with
      | Some i => Some (S i)
      | None => if decide (step_status s = status) then Some 0%nat else None
      end
  end.

Definition mark_active_step_failed (now : Z) (steps : list TaskStepInfo) (detail : option string)
    : list TaskStepInfo :=
  match list_find (λ s, step_status s = StepActive) steps with
  | Some (i, _) => alter (end_step now StepFailed detail) i steps
  | None =>
      match rfind_status StepPending steps with
      | Some i => alter (fail_pending_step now detail) i steps
      | None => steps
      end
  end.

(** ** What the transitions guarantee *)
(** At most one step differs, its key and title do not. *)
Definition one_step (P : TaskStepInfo → TaskStepInfo → Prop) (steps steps' : list TaskStepInfo) : Prop :=
  ∃ l1 s s' l2, steps = l1 ++ s :: l2 ∧ steps' = l1 ++ s' :: l2 ∧
    step_key s' = step_key s ∧ step_title s' = step_title s ∧ P s s'.

Lemma alter_one_step f (P : TaskStepInfo → TaskStepInfo → Prop) steps i s :
  steps !! i = Some s → step_key (f s) = step_key s → step_title (f s) = step_title s → P s (f s) →
  one_step P steps (alter f i steps).
Proof.
  intros Hi Hk Ht HP. exists (take i steps), s, (f s), (drop (S i) steps).
  split; [by rewrite take_drop_middle|]. split; [|done].
  rewrite <- (take_drop_middle steps i s) at 1 by done.
  rewrite alter_app_r_alt by (rewrite length_take; lia).
  apply lookup_lt_Some in Hi. rewrite length_take, Nat.min_l by lia. by rewrite Nat.sub_diag.
Qed.

Lemma find_task_step_ok steps key i :
  find_task_step steps key = Ok i ↔
  ∃ s, steps !! i = Some s ∧ step_key s = key ∧
    ∀ j s', (j < i)%nat → steps !! j = Some s' → step_key s' ≠ key.
Proof.
  unfold find_task_step. rewrite ok_or_ok, fmap_Some. split.
  - intros ([j s] & Hf & ->). apply list_find_Some in Hf as (? & ? & Hmin). cbn.
    exists s. split; [done|]. split; [done|]. intros k s' Hlt Hk. by eapply Hmin.
  - intros (s & Hi & Hk & Hmin). exists (i, s). split; [|done]. apply list_find_Some.
    split; [done|]. split; [done|]. intros j y Hy Hlt. by eapply Hmin.
Qed.

Lemma find_task_step_err steps key e :
  find_task_step steps key = Err e → ∀ s, s ∈ steps → step_key s ≠ key.
Proof.
  unfold find_task_step. destruct (list_find _ steps) as [[i s]|] eqn:Hf; [done|].
  apply list_find_None in Hf. rewrite list.Forall_forall in Hf. auto.
Qed.

(** A transition of a step by key: an unknown key is an error, a known one
    moves that step and leaves the others. *)
Lemma set_task_step_spec (f : TaskStepInfo → TaskStepInfo) (P : TaskStepInfo → TaskStepInfo → Prop) steps key :
  (∀ s, step_key (f s) = step_key s ∧ step_title (f s) = step_title s ∧ P s (f s)) →
  match i ← find_task_step steps key; Ok (alter f i steps) with
  | Ok steps' => one_step (λ s s', step_key s = key ∧ P s s') steps steps'
  | Err e => ∀ s, s ∈ steps → step_key s ≠ key
  end.
Proof.
  intros Hf. destruct (find_task_step steps key) as [i|e] eqn:Hi; cbn.
  - apply find_task_step_ok in Hi as (s & Hs & Hk & _). destruct (Hf s) as (? & ? & ?).
    by eapply alter_one_step.
  - by eapply find_task_step_err.
Qed.

Lemma set_task_step_succeeded_spec now steps key detail progress :
  match set_task_step_succeeded now steps key detail progress with
  | Ok steps' => one_step (λ s s', step_key s = key ∧ step_status s' = StepSucceeded ∧
      step_finished_at s' = Some now ∧ step_progress_total s' =
        match progress with Some (_, total) => total | None => step_progress_total s end ∧
      (progress = None → 0 < step_progress_total s → step_progress_current s' = step_progress_total s'))
      steps steps'
  | Err e => ∀ s, s ∈ steps → step_key s ≠ key
  end.
Proof.
  apply set_task_step_spec. intros s. unfold succeed_step.
  destruct progress as [[]|]; cbn; [done|]. repeat split. intros _ ?. by rewrite decide_True.
Qed.

Lemma rfind_status_some status steps i :
  rfind_status status steps = Some i →
  (∃ s, steps !! i = Some s ∧ step_status s = status) ∧
  ∀ j s', (i < j)%nat → steps !! j = Some s' → step_status s' ≠ status.
Proof.
  revert i. induction steps as [|s steps IH]; intros i; cbn; [done|].
  destruct (rfind_status status steps) as [k|] eqn:Hk.
  - intros [= <-]. destruct (IH k eq_refl) as [Hs Hmax]. split; [done|].
    intros [|j] s' Hlt Hj; [lia|]. apply (Hmax j); [lia|done].
  - case_decide as Hst; [|done]. intros [= <-]. split; [by exists s|].
    intros [|j] s' Hlt Hj; [lia|]. cbn in Hj. intros Hs'.
    clear IH Hst. revert Hk j s' Hlt Hj Hs'. induction steps as [|x steps IH]; intros; [done|].
    cbn in Hk. destruct (rfind_status status steps); [done|]. case_decide; [done|].
    destruct j as [|j]; [naive_solver|]. eapply (IH eq_refl j); [lia|done..].
Qed.

(** A failed task with a step to blame shows it; without an active or pending
    step its steps are as they were. *)
Lemma mark_active_step_failed_spec now steps detail :
  one_step (λ s s', (step_status s = StepActive ∨ step_status s = StepPending) ∧
      step_status s' = StepFailed ∧ step_finished_at s' = Some now ∧ step_detail s' = detail)
    steps (mark_active_step_failed now steps detail) ∨
  mark_active_step_failed now steps detail = steps ∧
    ∀ s, s ∈ steps → step_status s ≠ StepActive.
Proof.
  unfold mark_active_step_failed. destruct (list_find _ steps) as [[i s]|] eqn:Hf.
  - left. apply list_find_Some in Hf as (Hi & Hs & _). eapply alter_one_step; [exact Hi|done..|]. cbn. auto.
  - apply list_find_None in Hf. rewrite list.Forall_forall in Hf.
    destruct (rfind_status _ steps) as [i|] eqn:Hr; [|by right].
    left. apply rfind_status_some in Hr as [(s & Hi & Hs) _]. eapply alter_one_step; [exact Hi|done..|]. cbn. auto.
Qed.

(** A task starts on its first step. *)
Lemma initial_task_steps_active now specs i s :
  initial_task_steps_from_specs now specs !! i = Some s →
  (step_status s = StepActive ↔ i = 0%nat) ∧ (step_started_at s = Some now ↔ i = 0%nat).
Proof.
  unfold initial_task_steps_from_specs. rewrite list_lookup_imap, fmap_Some.
  intros (spec & _ & ->). unfold new_task_step. cbn. by destruct i.
Qed.
