(* ===== verification/TaskDispatch.v ===== *)
(** * Task claiming, batches and dispatch counters

    [aster_forge_tasks/src/dispatch.rs]: the timing of a claim request, the
    validation of what a product store claimed for a lane, the counters, the
    bounded runs of a batch and of the lanes, and the drain loop.

    Product tables, [chrono] and [futures] are parameters: a task row is seen
    through the two record traits, a store through its [claim], a future is a
    value of an abstract type that [buffer_unordered] runs in a world. *)
From S2P Require Export TaskLease Action.

(** [i64::checked_add(1)]. *)
Definition i64_checked_succ (z : Z) : option Z := checked_add I64_MAX z 1.

(** The views [TaskRecord] and [ClaimableTaskRecord] of a product row. *)
Class ClaimableTaskRecord (Task Kind : Type) := {
  task_id : Task → Z;
  task_kind : Task → Kind;
  task_processing_token : Task → Z;
}.

Record TaskLaneConfig (Kind Lane : Type) : Type := mk_TaskLaneConfig {
  lane_id : Lane;
  lane_kinds : list Kind;
  lane_limit : Z;
  lane_cluster_limit : option Z;
}.
Arguments mk_TaskLaneConfig {Kind Lane}.
Arguments lane_id {Kind Lane}.
Arguments lane_kinds {Kind Lane}.
Arguments lane_limit {Kind Lane}.
Arguments lane_cluster_limit {Kind Lane}.

Record TaskClaimCandidate : Type := mk_TaskClaimCandidate {
  candidate_index : nat;
  candidate_task_id : Z;
  candidate_expected_token : Z;
  candidate_next_token : Z;
}.

(** ** Counters *)
Record DispatchStats : Type := mk_DispatchStats {
  stats_canceled : Z;
  stats_claimed : Z;
  stats_succeeded : Z;
  stats_retried : Z;
  stats_failed : Z;
}.

#[export] Instance DispatchStats_eq_dec : EqDecision DispatchStats.
Proof. solve_decision. Defined.

Definition DispatchStats_default : DispatchStats := mk_DispatchStats 0 0 0 0 0.

Record TaskDispatchOutcome : Type := mk_TaskDispatchOutcome {
  outcome_canceled : Z;
  outcome_succeeded : Z;
  outcome_retried : Z;
  outcome_failed : Z;
}.

#[export] Instance TaskDispatchOutcome_eq_dec : EqDecision TaskDispatchOutcome.
Proof. solve_decision. Defined.

Definition TaskDispatchOutcome_default := mk_TaskDispatchOutcome 0 0 0 0.
Definition TaskDispatchOutcome_canceled := mk_TaskDispatchOutcome 1 0 0 0.
Definition TaskDispatchOutcome_succeeded := mk_TaskDispatchOutcome 0 1 0 0.
Definition TaskDispatchOutcome_retried := mk_TaskDispatchOutcome 0 0 1 0.
Definition TaskDispatchOutcome_failed := mk_TaskDispatchOutcome 0 0 0 1.

(** The sums are plain [usize] additions. *)
Definition DispatchStats_add (self other : DispatchStats) : DispatchStats :=
  mk_DispatchStats (u64_add (stats_canceled self) (stats_canceled other))
    (u64_add (stats_claimed self) (stats_claimed other))
    (u64_add (stats_succeeded self) (stats_succeeded other))
    (u64_add (stats_retried self) (stats_retried other))
    (u64_add (stats_failed self) (stats_failed other)).

Definition DispatchStats_has_activity (self : DispatchStats) : bool :=
  bool_decide (0 < stats_claimed self) || bool_decide (0 < stats_succeeded self)
  || bool_decide (0 < stats_retried self) || bool_decide (0 < stats_failed self)
  || bool_decide (0 < stats_canceled self).

Definition DispatchStats_add_outcome (self : DispatchStats) (outcome : TaskDispatchOutcome)
    : DispatchStats :=
  mk_DispatchStats (u64_add (stats_canceled self) (outcome_canceled outcome))
    (stats_claimed self)
    (u64_add (stats_succeeded self) (outcome_succeeded outcome))
    (u64_add (stats_retried self) (outcome_retried outcome))
    (u64_add (stats_failed self) (outcome_failed outcome)).

(** [usize::try_from(active)] and back are exact at 64 bits. *)
Definition available_lane_capacity (limit active : Z) : Z := saturating_sub limit active.
Definition claim_limit_to_u64 (limit : Z) : Z := limit.

(** ** Claiming *)
Section claiming.
Context {W Task Kind Lane E : Type} `{ClaimableTaskRecord Task Kind}.
Context `{EqDecision Kind, EqDecision Lane}.
Context (from_core : TaskCoreError → E).

Definition task_claim_candidate (index : nat) (task : Task) : result TaskCoreError TaskClaimCandidate :=
  next ← ok_or (i64_checked_succ (task_processing_token task))
    (InvalidValue "background task processing token overflow");
  Ok (mk_TaskClaimCandidate index (task_id task) (task_processing_token task) next).

Fixpoint task_claim_candidates_from (index : nat) (tasks : list Task)
    : result TaskCoreError (list TaskClaimCandidate) :=
  match tasks with
  | [] => Ok []
  | task :: tasks =>
      candidate ← task_claim_candidate index task;
      candidates ← task_claim_candidates_from (S index) tasks;
      Ok (candidate :: candidates)
  end.

Definition task_claim_candidates (tasks : list Task) : result TaskCoreError (list TaskClaimCandidate) :=
  task_claim_candidates_from 0 tasks.

(** The arithmetic of [chrono]: [DateTime::checked_add_signed] and
    [checked_sub_signed] of a [Duration], and its bounds. *)
Context {DateTime TimeDelta : Type}.
Context (try_seconds : Z → option TimeDelta) (delta_max : TimeDelta).
Context (checked_add_signed checked_sub_signed : DateTime → TimeDelta → option DateTime).
Context (min_utc max_utc : DateTime).

Record TaskClaimRequest : Type := mk_TaskClaimRequest {
  request_lane : TaskLaneConfig Kind Lane;
  request_max_claim : Z;
  request_now : DateTime;
  request_stale_before : DateTime;
  request_lease_expires_at : DateTime;
  request_processing_stale_secs : Z;
}.

Definition stale_delta (processing_stale_secs : Z) : TimeDelta :=
  default delta_max (try_seconds (Z.max processing_stale_secs 1)).

Definition task_lease_expires_at (now : DateTime) (processing_stale_secs : Z) : DateTime :=
  default max_utc (checked_add_signed now (stale_delta processing_stale_secs)).

Definition TaskClaimRequest_at (self : TaskClaimRequest) (now : DateTime) : TaskClaimRequest :=
  mk_TaskClaimRequest (request_lane self) (request_max_claim self) now
    (default min_utc (checked_sub_signed now (stale_delta (request_processing_stale_secs self))))
    (task_lease_expires_at now (request_processing_stale_secs self))
    (request_processing_stale_secs self).

Context (claim : TaskClaimRequest → action W E (list (Task * TaskLease))).
Context (utc_now : W → DateTime) (task_lane : Kind → Lane).

(** The contract check of one claim; [seen] is the [HashSet] before it. *)
Definition valid_claim (lane_config : TaskLaneConfig Kind Lane) (seen : gset Z)
    (task : Task) (lease : TaskLease) : bool :=
  negb (bool_decide (task_lane (task_kind task) ≠ lane_id lane_config)
        || negb (bool_decide (task_kind task ∈ lane_kinds lane_config))
        || bool_decide (lease_task_id lease ≠ task_id task)
        || bool_decide (i64_checked_succ (task_processing_token task)
                        ≠ Some (lease_processing_token lease))
        || bool_decide (task_id task ∈ seen)).

Fixpoint check_claims (lane_config : TaskLaneConfig Kind Lane) (seen : gset Z)
    (claimed : list (Task * TaskLease)) : result TaskCoreError unit :=
  match claimed with
  | [] => Ok tt
  | (task, lease) :: claimed =>
      if valid_claim lane_config seen task lease
      then check_claims lane_config ({[task_id task]} ∪ seen) claimed
      else Err (InvalidValue "store returned an invalid or duplicate claim")
  end.

Definition claim_request (now : DateTime) (lane_config : TaskLaneConfig Kind Lane)
    (max_claim processing_stale_secs : Z) : TaskClaimRequest :=
  TaskClaimRequest_at (mk_TaskClaimRequest lane_config max_claim now now now processing_stale_secs) now.

Definition claim_due_for_lane (lane_config : TaskLaneConfig Kind Lane)
    (available_slots processing_stale_secs : Z) : action W E (list (Task * TaskLease)) := λ w,
  let max_claim := Z.min available_slots (lane_limit lane_config) in
  if decide (max_claim = 0) then (Ok [], w)
  else
    (claimed ← claim (claim_request (utc_now w) lane_config max_claim processing_stale_secs);
     if decide (max_claim < Z.of_nat (length claimed)) then
       pure_result (Err (from_core (InvalidValue "store exceeded local claim capacity")))
     else
       _ ← with_error from_core (pure_result (check_claims lane_config ∅ claimed));
       mret claimed) w.

(** *** What a claim guarantees *)
(** The lease that belongs to a row: its id and the next token, in range. *)
Definition claim_ok (lane_config : TaskLaneConfig Kind Lane) (c : Task * TaskLease) : Prop :=
  task_lane (task_kind c.1) = lane_id lane_config ∧
  task_kind c.1 ∈ lane_kinds lane_config ∧
  lease_task_id c.2 = task_id c.1 ∧
  lease_processing_token c.2 = task_processing_token c.1 + 1 ∧
  task_processing_token c.1 < I64_MAX.

Lemma valid_claim_true lane_config seen task lease :
  valid_claim lane_config seen task lease = true ↔
  claim_ok lane_config (task, lease) ∧ task_id task ∉ seen.
Proof.
  unfold valid_claim, claim_ok. cbn.
  rewrite negb_true_iff, !orb_false_iff, negb_false_iff, bool_decide_eq_true.
  rewrite !bool_decide_eq_false. unfold i64_checked_succ.
  assert (checked_add I64_MAX (task_processing_token task) 1 = Some (lease_processing_token lease) ↔
    lease_processing_token lease = task_processing_token task + 1 ∧
    task_processing_token task < I64_MAX) as Hs.
  { rewrite checked_add_spec. split; intros []; split; lia. }
  destruct (decide (task_lane (task_kind task) = lane_id lane_config));
    destruct (decide (lease_task_id lease = task_id task));
    destruct (decide (checked_add I64_MAX (task_processing_token task) 1
                      = Some (lease_processing_token lease))); naive_solver.
Qed.

Lemma check_claims_ok lane_config seen claimed :
  check_claims lane_config seen claimed = Ok tt ↔
  Forall (claim_ok lane_config) claimed ∧ NoDup (task_id ∘ fst <$> claimed) ∧
  (∀ c, c ∈ claimed → task_id c.1 ∉ seen).
Proof.
  revert seen. induction claimed as [|[task lease] claimed IH]; intros seen; cbn [check_claims].
  { split; [|done]. intros _. repeat split; [constructor..|]. intros c Hc. by apply elem_of_nil in Hc. }
  rewrite fmap_cons, list.NoDup_cons, list.Forall_cons. cbn [compose fst].
  destruct (valid_claim lane_config seen task lease) eqn:Hv.
  - apply valid_claim_true in Hv as [Hok Hnew]. rewrite IH. cbn. split.
    + intros (Hall & Hnd & Hseen). split; [by split|]. split; [split; [|done]|].
      * rewrite list_elem_of_fmap. intros (c & Hid & Hc). apply (Hseen c Hc).
        cbn in Hid. rewrite <- Hid. set_solver.
      * intros c Hc. apply elem_of_cons in Hc as [->|Hc]; [done|]. specialize (Hseen c Hc). set_solver.
    + intros ([_ Hall] & [Hni Hnd] & Hseen). split; [done|]. split; [done|].
      intros c Hc. apply not_elem_of_union. split; [|apply Hseen; set_solver].
      rewrite not_elem_of_singleton. intros Heq. apply Hni. rewrite list_elem_of_fmap.
      exists c. by rewrite <- Heq.
  - split; [done|]. intros ([Hok _] & _ & Hseen).
    assert (valid_claim lane_config seen task lease = true); [|congruence].
    apply valid_claim_true. split; [done|]. apply (Hseen (task, lease)). set_solver.
Qed.

(** A lane never receives more than its capacity, a task twice, a task of
    another lane, or a lease that is not the successor of the row's token; a
    lane without capacity does not ask the store. *)
Lemma claim_due_for_lane_ok lane_config available_slots stale_secs w :
  let max_claim := Z.min available_slots (lane_limit lane_config) in
  (max_claim = 0 → claim_due_for_lane lane_config available_slots stale_secs w = (Ok [], w)) ∧
  wp (claim_due_for_lane lane_config available_slots stale_secs) (λ r _,
    match r with
    | Ok claimed =>
        Z.of_nat (length claimed) ≤ Z.max 0 max_claim ∧
        Forall (claim_ok lane_config) claimed ∧ NoDup (task_id ∘ fst <$> claimed)
    | Err _ => True
    end) w.
Proof.
  intros max_claim. unfold claim_due_for_lane. fold max_claim. split.
  { intros ->. by rewrite decide_True. }
  unfold wp at 1. case_decide as Hz.
  { cbn. repeat split; [lia|constructor..]. }
  match goal with |- let (_, _) := ?m w in _ => change (wp m (λ r _, match r with
    | Ok claimed => Z.of_nat (length claimed) ≤ Z.max 0 max_claim ∧
        Forall (claim_ok lane_config) claimed ∧ NoDup (task_id ∘ fst <$> claimed)
    | Err _ => True end) w) end.
  apply wp_bind. apply wp_equiv. destruct (claim _ w) as [[claimed|e] w']; cbn; [|done].
  case_decide as Hcap; [by apply wp_pure|]. wp_steps.
  destruct (check_claims lane_config ∅ claimed) as [[]|e] eqn:Hc; cbn; [|done].
  apply check_claims_ok in Hc as (? & ? & _). wp_steps. repeat split; [lia|done..].
Qed.

(** The candidate of one row, [None] being the token overflow. *)
Definition next_candidate (index : nat) (task : Task) : TaskClaimCandidate :=
  mk_TaskClaimCandidate index (task_id task) (task_processing_token task)
    (task_processing_token task + 1).

Lemma task_claim_candidate_ok index task candidate :
  task_claim_candidate index task = Ok candidate ↔
  task_processing_token task < I64_MAX ∧ candidate = next_candidate index task.
Proof.
  unfold task_claim_candidate, i64_checked_succ, checked_add.
  case_decide; cbn.
  - split; [intros [= <-]; split; [lia|done]|by intros [_ ->]].
  - split; [done|]. intros [? _]. lia.
Qed.

Lemma task_claim_candidates_from_ok index tasks candidates :
  task_claim_candidates_from index tasks = Ok candidates ↔
  Forall (λ task, task_processing_token task < I64_MAX) tasks ∧
  candidates = imap (λ i, next_candidate (index + i)) tasks.
Proof.
  revert index candidates. induction tasks as [|task tasks IH]; intros index candidates.
  { cbn. split; [intros [= <-]; done|by intros [_ ->]]. }
  cbn [task_claim_candidates_from imap]. rewrite Nat.add_0_r.
  rewrite (imap_ext _ (λ i, next_candidate (S index + i))) by (intros; cbn; f_equal; lia).
  rewrite list.Forall_cons, result_bind_ok. split.
  - intros (c & Hc & Hrest). apply task_claim_candidate_ok in Hc as [Hlt ->].
    apply result_bind_ok in Hrest as (l & Hl & [= <-]). apply IH in Hl as [Hall ->]. done.
  - intros [[Hlt Hall] ->]. eexists. rewrite task_claim_candidate_ok. split; [done|].
    apply result_bind_ok. eexists. by rewrite IH.
Qed.
End claiming.

Arguments TaskClaimRequest : clear implicits.

(** ** Batches and lanes *)
Section batches.
Context {W : Type} {Future : Type → Type}.

(** [futures::stream::iter(..).buffer_unordered(limit).collect()]: the outputs
    in the order of completion. *)
Context (buffer_unordered : ∀ O, Z → list (Future O) → W → list O * W).
Arguments buffer_unordered {O}.

Definition run_with_concurrency_limit {T O} (items : list T) (limit : Z) (handler : T → Future O)
    : W → list O * W :=
  buffer_unordered (Z.max limit 1) (handler <$> items).

(** The loop over the results: successes are counted, the first error kept. *)
Fixpoint aggregate {E A} (add : DispatchStats → A → DispatchStats) (results : list (result E A))
    (stats : DispatchStats) (first_error : option E) : DispatchStats * option E :=
  match results with
  | [] => (stats, first_error)
  | Ok a :: results => aggregate add results (add stats a) first_error
  | Err e :: results =>
      aggregate add results stats (Some (default e first_error))
  end.

Definition aggregated {E A} (add : DispatchStats → A → DispatchStats) (results : list (result E A))
    : result E DispatchStats :=
  match aggregate add results DispatchStats_default None with
  | (_, Some first_error) => Err first_error
  | (stats, None) => Ok stats
  end.

Definition dispatch_lanes {Kind Lane E} (lane_configs : list (TaskLaneConfig Kind Lane))
    (lane_parallelism : Z) (dispatch_lane : TaskLaneConfig Kind Lane → Future (result E DispatchStats))
    : action W E DispatchStats := λ w,
  let (lane_results, w) :=
    buffer_unordered (Z.max lane_parallelism 1) (dispatch_lane <$> lane_configs) w in
  (aggregated DispatchStats_add lane_results, w).

(** [leb] is the stable order of [sort_by_key(sort_key)]. *)
Definition run_claimed_task_batch {T E} (leb : T → T → bool) (claimed_tasks : list T)
    (handler : T → Future (result E TaskDispatchOutcome)) : action W E DispatchStats := λ w,
  let concurrency := Z.max (Z.of_nat (length claimed_tasks)) 1 in
  let (results, w) :=
    run_with_concurrency_limit (sort_by leb claimed_tasks) concurrency handler w in
  (aggregated DispatchStats_add_outcome results, w).

(** [sleep] is [tokio::time::sleep], during which the world moves on. *)
Fixpoint drain_rounds {E} (max_rounds : nat) (sleep : W → W)
    (dispatch_due : action W E DispatchStats) (count_processing : action W E Z)
    (total : DispatchStats) : action W E DispatchStats :=
  match max_rounds with
  | O => mret total
  | S max_rounds =>
      stats ← dispatch_due;
      let total := DispatchStats_add total stats in
      if decide (0 < stats_claimed stats)
      then drain_rounds max_rounds sleep dispatch_due count_processing total
      else
        count ← count_processing;
        if decide (count = 0) then mret total
        else λ w, drain_rounds max_rounds sleep dispatch_due count_processing total (sleep w)
  end.

Definition drain_dispatcher {E} (max_rounds : Z) (sleep : W → W)
    (dispatch_due : action W E DispatchStats) (count_processing : action W E Z)
    : action W E DispatchStats :=
  drain_rounds (Z.to_nat max_rounds) sleep dispatch_due count_processing DispatchStats_default.
End batches.

(** *** Counters do not depend on the order of completion *)
Lemma aggregate_app {E A} add (rs1 rs2 : list (result E A)) stats first_error :
  aggregate add (rs1 ++ rs2) stats first_error =
  let (stats, first_error) := aggregate add rs1 stats first_error in
  aggregate add rs2 stats first_error.
Proof. revert stats first_error. induction rs1 as [|[] rs1 IH]; cbn; auto. Qed.

Lemma aggregate_ok {E A} add (l : list A) stats :
  aggregate (E := E) add (Ok <$> l) stats None = (foldl add stats l, None).
Proof. revert stats. induction l as [|a l IH]; cbn; auto. Qed.

Lemma u64_add_swap a b c : u64_add (u64_add a b) c = u64_add (u64_add a c) b.
Proof.
  unfold u64_add. rewrite !Zplus_mod_idemp_l. f_equal. lia.
Qed.

Lemma foldl_perm {A B} (f : B → A → B) (l l' : list A) b :
  (∀ b x y, f (f b x) y = f (f b y) x) → l ≡ₚ l' → foldl f b l = foldl f b l'.
Proof.
  intros Hf Hp. revert b. induction Hp as [|x l l' Hp IH|x y l|l1 l2 l3 Hp1 IH1 Hp2 IH2]; intros b; cbn.
  - done.
  - apply IH.
  - by rewrite Hf.
  - by rewrite IH1.
Qed.

Lemma DispatchStats_add_outcome_swap stats a b :
  DispatchStats_add_outcome (DispatchStats_add_outcome stats a) b =
  DispatchStats_add_outcome (DispatchStats_add_outcome stats b) a.
Proof. unfold DispatchStats_add_outcome; cbn. f_equal; apply u64_add_swap. Qed.

Lemma DispatchStats_add_swap stats a b :
  DispatchStats_add (DispatchStats_add stats a) b = DispatchStats_add (DispatchStats_add stats b) a.
Proof. unfold DispatchStats_add; cbn. f_equal; apply u64_add_swap. Qed.

(** An error is reported exactly when a result is one; it is the first in the
    order of completion.  Otherwise the counters are the sums, in any order. *)
Lemma aggregate_error {E A} add (rs : list (result E A)) stats first_error :
  (aggregate add rs stats first_error).2 =
  match first_error with
  | Some e => Some e
  | None => head (omap (λ r, match r with Ok _ => None | Err e => Some e end) rs)
  end.
Proof.
  revert stats first_error. induction rs as [|[a|e] rs IH]; intros stats first_error; cbn.
  - by destruct first_error.
  - by rewrite IH.
  - rewrite IH. by destruct first_error.
Qed.

Lemma results_ok {E A} (rs : list (result E A)) :
  head (omap (λ r, match r with Ok _ => None | Err e => Some e end) rs) = None →
  ∃ l, rs = Ok <$> l.
Proof.
  induction rs as [|[a|e] rs IH]; cbn; [by exists []| |done].
  intros Hn. destruct (IH Hn) as [l ->]. by exists (a :: l).
Qed.

Lemma aggregated_ok {E A} add (rs : list (result E A)) stats :
  aggregated add rs = Ok stats ↔ ∃ l, rs = Ok <$> l ∧ stats = foldl add DispatchStats_default l.
Proof.
  unfold aggregated. split.
  - pose proof (aggregate_error add rs DispatchStats_default None) as He.
    destruct (aggregate add rs _ None) as [s [e|]] eqn:Ha; [done|]. cbn in He.
    symmetry in He. apply results_ok in He as [l ->]. rewrite aggregate_ok in Ha.
    injection Ha as <-. intros [= <-]. eauto.
  - intros (l & -> & ->). by rewrite aggregate_ok.
Qed.

Lemma aggregated_perm {E A} add (rs rs' : list (result E A)) stats :
  (∀ s a b, add (add s a) b = add (add s b) a) → rs ≡ₚ rs' →
  aggregated add rs = Ok stats → aggregated add rs' = Ok stats.
Proof.
  intros Hadd Hp (l & -> & ->)%aggregated_ok.
  apply aggregated_ok. symmetry in Hp.
  apply Permutation_map_inv in Hp as (l' & -> & Hp). exists l'. split; [done|].
  by apply foldl_perm.
Qed.
