(* ===== verification/TaskExecution.v ===== *)
(** * Execution of a claimed task

    [aster_forge_tasks/src/execution.rs]: the lifecycle of one claimed task
    over the hooks of a product store, from the lease-bound context to the
    durable outcome, and the batch that runs it.

    The store is a class over the world [W].  An operation stands for its call
    together with whatever other actors (users, other workers, the heartbeat)
    did to the world before it took effect, so a run of the functions below
    includes every interleaving at the awaits. *)
From S2P Require Export TaskDispatch.

(** ** The product hooks *)
Record TaskPermanentFailure (DateTime : Type) : Type := mk_TaskPermanentFailure {
  failure_attempt_count : Z;
  failure_storage_error : string;
  failure_display_error : string;
  failure_failed_steps_json : option string;
  failure_can_retry : bool;
  failure_finished_at : DateTime;
}.
Arguments mk_TaskPermanentFailure {DateTime}.
Arguments failure_attempt_count {DateTime}.
Arguments failure_storage_error {DateTime}.
Arguments failure_display_error {DateTime}.
Arguments failure_failed_steps_json {DateTime}.
Arguments failure_can_retry {DateTime}.
Arguments failure_finished_at {DateTime}.

Record TaskRetryUpdate (DateTime : Type) : Type := mk_TaskRetryUpdate {
  retry_attempt_count : Z;
  retry_retry_at : DateTime;
  retry_storage_error : string;
  retry_display_error : string;
  retry_failed_steps_json : option string;
}.
Arguments mk_TaskRetryUpdate {DateTime}.
Arguments retry_attempt_count {DateTime}.
Arguments retry_retry_at {DateTime}.
Arguments retry_storage_error {DateTime}.
Arguments retry_display_error {DateTime}.
Arguments retry_failed_steps_json {DateTime}.

(** [ExecutableTaskRecord]; the counts are [i32]. *)
Class ExecutableTaskRecord (Task : Type) := {
  cancellation_requested : Task → bool;
  attempt_count : Task → Z;
  max_attempts : Task → Z;
}.

(** [ClaimedTaskExecutionStore], with the clock the lifecycle reads; the
    context of a task body is its lease guard. *)
Class ClaimedTaskExecutionStore (W Task E DateTime : Type) := {
  from_core : TaskCoreError → E;
  process_task : Task → TaskLeaseGuard → action W E unit;
  confirm_task_succeeded : Task → TaskLease → action W E bool;
  is_lease_lost_error : E → bool;
  is_lease_renewal_timed_out_error : E → bool;
  is_worker_shutdown_requested_error : E → bool;
  is_cancellation_requested_error : E → bool;
  cancel_task_if_requested : Task → TaskLease → action W E bool;
  retry_class : Task → E → TaskRetryClass;
  storage_error : E → string;
  display_error : string → string;
  failed_steps_json : Task → string → W → option string * W;
  mark_task_failed : Task → TaskLease → TaskPermanentFailure DateTime → action W E bool;
  mark_task_retry : Task → TaskLease → TaskRetryUpdate DateTime → action W E bool;
  release_task_for_shutdown : Task → TaskLease → action W E bool;
  record_task_transition : Task → string → W → W;
  wake_dispatcher : W → W;
  utc_now : W → DateTime;
}.

Definition I32_MAX : Z := 2 ^ 31 - 1.
#[global] Arguments I32_MAX : simpl never.

(** A hook that cannot fail. *)
Definition infallible {W E A} (f : W → A * W) : action W E A := λ w,
  let (a, w') := f w in (Ok a, w').
Definition update {W E} (f : W → W) : action W E unit := λ w, (Ok tt, f w).

Section execution.
Context {W Task E DateTime : Type}.
Context `{ExecutableTaskRecord Task, ClaimedTaskExecutionStore W Task E DateTime}.

Abbreviation run A := (action W E A).

(** [Utc::now() + chrono::Duration::seconds(..)], the arithmetic of [chrono]. *)
Context (add_seconds : DateTime → Z → DateTime).

Definition cancellation_outcome (task : Task) (lease : TaskLease)
    : run (option TaskDispatchOutcome) :=
  requested ← cancel_task_if_requested task lease;
  if requested : bool then
    _ ← update (record_task_transition task "canceled");
    mret (Some TaskDispatchOutcome_canceled)
  else mret None.

(** [cancellation_outcome(..).await?.unwrap_or_default()]. *)
Definition cancellation_or_default (task : Task) (lease : TaskLease) : run TaskDispatchOutcome :=
  outcome ← cancellation_outcome task lease;
  mret (default TaskDispatchOutcome_default outcome).

(** The errors that end a worker rather than the task. *)
Definition is_control_error (error : E) : bool :=
  is_lease_lost_error error || is_lease_renewal_timed_out_error error
  || is_worker_shutdown_requested_error error || is_cancellation_requested_error error.

Definition complete_succeeded (task : Task) (lease : TaskLease) : run TaskDispatchOutcome :=
  confirmed ← confirm_task_succeeded task lease;
  if negb confirmed then cancellation_or_default task lease
  else
    _ ← update (record_task_transition task "succeeded");
    mret TaskDispatchOutcome_succeeded.

Definition complete_stopped (task : Task) (lease : TaskLease) (error : E) : run TaskDispatchOutcome :=
  _ ← (if is_worker_shutdown_requested_error error then
         released ← release_task_for_shutdown task lease;
         if released : bool then update wake_dispatcher else mret tt
       else mret tt);
  cancellation_or_default task lease.

Definition complete_failed (task : Task) (lease : TaskLease) (error : E)
    (retry_delay_secs : Z → Z) : run TaskDispatchOutcome :=
  let attempts := saturating_add I32_MAX (attempt_count task) 1 in
  let stored := storage_error error in
  let displayed := display_error stored in
  steps ← infallible (failed_steps_json task displayed);
  let class := retry_class task error in
  now ← infallible (λ w, (utc_now w, w));
  if should_auto_retry class && bool_decide (attempts < max_attempts task) then
    retried ← mark_task_retry task lease
      (mk_TaskRetryUpdate attempts (add_seconds now (retry_delay_secs attempts)) stored displayed steps);
    if negb retried then cancellation_or_default task lease
    else
      _ ← update wake_dispatcher;
      _ ← update (record_task_transition task "retry");
      mret TaskDispatchOutcome_retried
  else
    failed ← mark_task_failed task lease
      (mk_TaskPermanentFailure attempts stored displayed steps (can_manual_retry class) now);
    if negb failed then cancellation_or_default task lease
    else
      _ ← update (record_task_transition task "failed");
      mret TaskDispatchOutcome_failed.

Definition complete_claimed_task (task : Task) (lease : TaskLease) (task_result : result E unit)
    (retry_delay_secs : Z → Z) : run TaskDispatchOutcome :=
  outcome ← cancellation_outcome task lease;
  match outcome with
  | Some outcome => mret outcome
  | None =>
      match task_result with
      | Ok _ => complete_succeeded task lease
      | Err error =>
          if is_control_error error then complete_stopped task lease error
          else complete_failed task lease error retry_delay_secs
      end
  end.

(** An awaited result that is not propagated. *)
Definition attempt {A} (m : run A) : run (result E A) := λ w,
  let (r, w') := m w in (Ok r, w').

(** [started] and [checked] are the instants of [TaskExecutionContext::new]
    and of the [ensure_active] that precedes the task body, [shutdown] whether
    the worker's token is cancelled at the latter, and [heartbeat] what the
    spawned heartbeat did to the shared guard in between. *)
Definition process_claimed_task (task : Task) (lease : TaskLease) (timeout started checked : Z)
    (shutdown : bool) (heartbeat : TaskLeaseGuard → TaskLeaseGuard) (retry_delay_secs : Z → Z)
    : run TaskDispatchOutcome :=
  let guard := heartbeat (TaskLeaseGuard_with_shutdown_token started lease timeout) in
  if cancellation_requested task then cancellation_or_default task lease
  else
    task_result ←
      match ensure_active checked shutdown guard with
      | (Ok _, guard) => attempt (process_task task guard)
      | (Err error, _) => mret (Err (from_core error))
      end;
    complete_claimed_task task lease task_result retry_delay_secs.
End execution.

(** [run_claimed_task_batch_with_store]: [async_move] is the future of an
    async block, [environment] what one execution meets: the instants, the
    shutdown token and the heartbeat's moves. *)
Definition run_claimed_task_batch_with_store {W Task E DateTime : Type} {Future : Type → Type}
    `{ExecutableTaskRecord Task, ClaimedTaskExecutionStore W Task E DateTime}
    (buffer_unordered : ∀ O, Z → list (Future O) → W → list O * W)
    (async_move : ∀ A, action W E A → Future (result E A))
    (add_seconds : DateTime → Z → DateTime)
    (environment : Task * TaskLease → Z * Z * bool * (TaskLeaseGuard → TaskLeaseGuard))
    (leb : Task * TaskLease → Task * TaskLease → bool) (claimed_tasks : list (Task * TaskLease))
    (timeout : Z) (retry_delay_secs : Z → Z) : action W E DispatchStats :=
  run_claimed_task_batch buffer_unordered leb claimed_tasks (λ claimed,
    let '(started, checked, shutdown, heartbeat) := environment claimed in
    async_move TaskDispatchOutcome
      (process_claimed_task add_seconds claimed.1 claimed.2 timeout started checked shutdown
         heartbeat retry_delay_secs)).

(** ** What the store promises *)
(** The durable transitions committed under one task and lease. *)
Inductive TaskTransition : Type :=
  | TransSucceeded
  | TransCanceled
  | TransReleased
  | TransRetried (attempt : Z)
  | TransFailed (attempt : Z) (can_retry : bool).

#[export] Instance TaskTransition_eq_dec : EqDecision TaskTransition.
Proof. solve_decision. Defined.

(** What one execution tells metrics and the dispatcher. *)
Inductive TaskReport : Type := Recorded (status : string) | Woke.

#[export] Instance TaskReport_eq_dec : EqDecision TaskReport.
Proof. solve_decision. Defined.

(** The documented contract of the hooks.  [committed] reads what is durable
    under the lease, [reports] what this execution has reported; an operation
    that answers [false] changed neither, one that answers an error did not
    report.  The fenced writes need a row that is still executable under the
    lease, [confirm_task_succeeded] reads authoritative storage, a task body
    may commit its own success. *)
Class ExecutionLaws (W Task E DateTime : Type) `{ClaimedTaskExecutionStore W Task E DateTime} := {
  committed : Task → TaskLease → W → list TaskTransition;
  reports : W → list TaskReport;
  body_law task lease guard w :
    committed task lease w = [] →
    wp (process_task task guard) (λ _ w',
      (committed task lease w' = [] ∨ committed task lease w' = [TransSucceeded]) ∧
      reports w' = reports w) w;
  cancel_law task lease w :
    wp (cancel_task_if_requested task lease) (λ r w', reports w' = reports w ∧
      match r with
      | Ok true => (committed task lease w = [] ∨ committed task lease w = [TransReleased]) ∧
                   committed task lease w' = committed task lease w ++ [TransCanceled]
      | Ok false => committed task lease w' = committed task lease w
      | Err _ => True
      end) w;
  confirm_law task lease w :
    wp (confirm_task_succeeded task lease) (λ r w', reports w' = reports w ∧
      match r with
      | Ok confirmed => committed task lease w' = committed task lease w ∧
                        (confirmed = true → committed task lease w = [TransSucceeded])
      | Err _ => True
      end) w;
  retry_law task lease update w :
    wp (mark_task_retry task lease update) (λ r w', reports w' = reports w ∧
      match r with
      | Ok true => committed task lease w = [] ∧
                   committed task lease w' = [TransRetried (retry_attempt_count update)]
      | Ok false => committed task lease w' = committed task lease w
      | Err _ => True
      end) w;
  fail_law task lease failure w :
    wp (mark_task_failed task lease failure) (λ r w', reports w' = reports w ∧
      match r with
      | Ok true => committed task lease w = [] ∧
                   committed task lease w' = [TransFailed (failure_attempt_count failure) (failure_can_retry failure)]
      | Ok false => committed task lease w' = committed task lease w
      | Err _ => True
      end) w;
  release_law task lease w :
    wp (release_task_for_shutdown task lease) (λ r w', reports w' = reports w ∧
      match r with
      | Ok true => committed task lease w = [] ∧ committed task lease w' = [TransReleased]
      | Ok false => committed task lease w' = committed task lease w
      | Err _ => True
      end) w;
  steps_law task lease displayed w :
    committed task lease (failed_steps_json task displayed w).2 = committed task lease w ∧
    reports (failed_steps_json task displayed w).2 = reports w;
  record_law task lease task' status w :
    committed task lease (record_task_transition task' status w) = committed task lease w ∧
    reports (record_task_transition task' status w) = reports w ++ [Recorded status];
  wake_law task lease w :
    committed task lease (wake_dispatcher w) = committed task lease w ∧
    reports (wake_dispatcher w) = reports w ++ [Woke];
}.

(** ** What an execution accounts for *)
Section accounting.
Context {W Task E DateTime : Type}.
Context `{ExecutableTaskRecord Task, !ClaimedTaskExecutionStore W Task E DateTime}.
Context `{!ExecutionLaws W Task E DateTime} (add_seconds : DateTime → Z → DateTime).

Definition next_attempt (task : Task) : Z := saturating_add I32_MAX (attempt_count task) 1.

Definition retries (task : Task) (error : E) : Prop :=
  retry_class task error = RetryAuto ∧ next_attempt task < max_attempts task.

(** The counters an execution returns, against the transitions that are
    durable under its lease and the reports it made. *)
Inductive accounted (task : Task) : TaskDispatchOutcome → list TaskTransition → list TaskReport → Prop :=
  | acc_succeeded :
      accounted task TaskDispatchOutcome_succeeded [TransSucceeded] [Recorded "succeeded"]
  | acc_canceled :
      accounted task TaskDispatchOutcome_canceled [TransCanceled] [Recorded "canceled"]
  | acc_released_canceled :
      accounted task TaskDispatchOutcome_canceled [TransReleased; TransCanceled]
        [Woke; Recorded "canceled"]
  | acc_retried error :
      is_control_error error = false → retries task error →
      accounted task TaskDispatchOutcome_retried [TransRetried (next_attempt task)]
        [Woke; Recorded "retry"]
  | acc_failed error :
      is_control_error error = false → ¬ retries task error →
      accounted task TaskDispatchOutcome_failed
        [TransFailed (next_attempt task) (can_manual_retry (retry_class task error))]
        [Recorded "failed"]
  | acc_nothing : accounted task TaskDispatchOutcome_default [] []
  | acc_unconfirmed : accounted task TaskDispatchOutcome_default [TransSucceeded] []
  | acc_released : accounted task TaskDispatchOutcome_default [TransReleased] [Woke].

(** An execution that ends with an error has recorded no transition. *)
Definition accounts (task : Task) (lease : TaskLease) (before : list TaskReport)
    (r : result E TaskDispatchOutcome) (w : W) : Prop :=
  match r with
  | Ok o => ∃ made, reports w = before ++ made ∧ accounted task o (committed task lease w) made
  | Err _ => reports w = before ∨ reports w = before ++ [Woke]
  end.

(** The state in which the cancellation check is a way out: nothing, a
    success or a release is durable, and the reports say so. *)
Inductive settling : list TaskTransition → list TaskReport → Prop :=
  | settling_nothing : settling [] []
  | settling_success : settling [TransSucceeded] []
  | settling_released : settling [TransReleased] [Woke].

Lemma settling_reports before log made :
  settling log made → before ++ made = before ∨ before ++ made = before ++ [Woke].
Proof. intros []; rewrite ?app_nil_r; auto. Qed.

Lemma wp_update (f : W → W) (Φ : result E unit → W → Prop) w : Φ (Ok tt) (f w) → wp (update f) Φ w.
Proof. done. Qed.

Lemma wp_infallible {A} (f : W → A * W) (Φ : result E A → W → Prop) w :
  (let (a, w') := f w in Φ (Ok a) w') → wp (infallible f) Φ w.
Proof. unfold wp, infallible. by destruct (f w). Qed.

Lemma cancellation_accounts task lease before made w :
  reports w = before ++ made → settling (committed task lease w) made →
  wp (cancellation_or_default task lease) (accounts task lease before) w.
Proof.
  intros Hr Hs. unfold cancellation_or_default, cancellation_outcome. do 2 apply wp_bind.
  eapply wp_mono; [apply cancel_law|]. intros r w' [Hr' Hc]. rewrite Hr in Hr'.
  destruct r as [[]|e].
  - apply wp_bind, wp_update. wp_steps. cbn [default].
    destruct (record_law task lease task "canceled" w') as [Hc' Hn].
    exists (made ++ [Recorded "canceled"]). rewrite Hn, Hr', Hc', app_assoc. split; [done|].
    destruct Hc as [Hc ->]. inversion Hs as [Hl|Hl|Hl]; subst; rewrite <- Hl in *; cbn;
      [constructor|by destruct Hc|constructor].
  - wp_steps. exists made. split; [done|]. rewrite Hc. inversion Hs; constructor.
  - cbn. rewrite Hr'. by eapply settling_reports.
Qed.

(** The end of a fenced write: on [false] the lease is settled as before, on
    [true] the rest of the branch reports the write. *)
Lemma write_accounts task lease before w (write : action W E bool) (log : list TaskTransition)
    (rest : action W E TaskDispatchOutcome) :
  reports w = before → settling (committed task lease w) [] →
  wp write (λ r w', reports w' = reports w ∧
    match r with
    | Ok true => committed task lease w = [] ∧ committed task lease w' = log
    | Ok false => committed task lease w' = committed task lease w
    | Err _ => True
    end) w →
  (∀ w', reports w' = before → committed task lease w' = log → wp rest (accounts task lease before) w') →
  wp (written ← write; if negb written then cancellation_or_default task lease else rest)
    (accounts task lease before) w.
Proof.
  intros Hr Hs Hlaw Hrest. apply wp_bind. eapply wp_mono; [exact Hlaw|].
  intros [[]|e] w' [Hr' Hc]; cbn [negb].
  - apply Hrest; [congruence|tauto].
  - apply (cancellation_accounts _ _ _ []); [by rewrite app_nil_r, Hr'|by rewrite Hc].
  - left. congruence.
Qed.

Lemma complete_succeeded_accounts task lease w :
  settling (committed task lease w) [] →
  wp (complete_succeeded task lease) (accounts task lease (reports w)) w.
Proof.
  intros Hs. unfold complete_succeeded. apply wp_bind. eapply wp_mono; [apply confirm_law|].
  intros [[]|e] w' [Hr Hc]; cbn [negb].
  - apply wp_bind, wp_update. wp_steps. destruct (record_law task lease task "succeeded" w') as [Hc' Hn].
    exists [Recorded "succeeded"]. rewrite Hn, Hr, Hc'. split; [done|].
    destruct Hc as [-> Hc]. rewrite Hc by done. constructor.
  - apply (cancellation_accounts _ _ _ []); [by rewrite app_nil_r|by destruct Hc as [-> _]].
  - by left.
Qed.

Lemma complete_stopped_accounts task lease error w :
  settling (committed task lease w) [] →
  wp (complete_stopped task lease error) (accounts task lease (reports w)) w.
Proof.
  intros Hs. unfold complete_stopped. apply wp_bind.
  destruct (is_worker_shutdown_requested_error error).
  - apply wp_bind. eapply wp_mono; [apply release_law|]. intros [[]|e] w' [Hr Hc]; [| |by left].
    + apply wp_update. destruct (wake_law task lease w') as [Hc' Hn].
      apply (cancellation_accounts _ _ _ [Woke]); [by rewrite Hn, Hr|].
      rewrite Hc'. destruct Hc as [_ ->]. constructor.
    + apply wp_ret. apply (cancellation_accounts _ _ _ []); [by rewrite app_nil_r|by rewrite Hc].
  - apply wp_ret. apply (cancellation_accounts _ _ _ []); [by rewrite app_nil_r|done].
Qed.

Lemma retries_spec task error :
  should_auto_retry (retry_class task error) && bool_decide (next_attempt task < max_attempts task) = true ↔
  retries task error.
Proof.
  unfold retries. rewrite andb_true_iff, bool_decide_eq_true.
  destruct (retry_class task error); cbn; naive_solver.
Qed.

Lemma complete_failed_accounts task lease error delay w :
  is_control_error error = false → settling (committed task lease w) [] →
  wp (complete_failed add_seconds task lease error delay) (accounts task lease (reports w)) w.
Proof.
  intros Hctl Hs. unfold complete_failed. apply wp_bind, wp_infallible.
  destruct (steps_law task lease (display_error (storage_error error)) w) as [Hsc Hsr].
  destruct (failed_steps_json _ _ w) as [steps w1]. cbn in Hsc, Hsr |- *. rewrite <- Hsr.
  rewrite <- Hsc in Hs. fold (next_attempt task).
  apply wp_bind, wp_infallible.
  destruct (should_auto_retry _ && _) eqn:Hauto.
  - apply retries_spec in Hauto. eapply write_accounts; [done|done|apply retry_law|]. cbn.
    intros w' Hr Hc. apply wp_bind, wp_update, wp_bind, wp_update. wp_steps.
    destruct (wake_law task lease w') as [Hc1 Hn1].
    destruct (record_law task lease task "retry" (wake_dispatcher w')) as [Hc2 Hn2].
    exists [Woke; Recorded "retry"]. rewrite Hn2, Hn1, Hr, Hc2, Hc1, Hc, <- app_assoc. split; [done|].
    by eapply acc_retried.
  - assert (¬ retries task error) as Hno by (intros Hy; apply retries_spec in Hy; congruence).
    eapply write_accounts; [done|done|apply fail_law|]. cbn.
    intros w' Hr Hc. apply wp_bind, wp_update. wp_steps.
    destruct (record_law task lease task "failed" w') as [Hc1 Hn1].
    exists [Recorded "failed"]. rewrite Hn1, Hr, Hc1, Hc. split; [done|]. by apply acc_failed.
Qed.

Lemma complete_accounts task lease task_result delay w :
  settling (committed task lease w) [] →
  wp (complete_claimed_task add_seconds task lease task_result delay)
    (accounts task lease (reports w)) w.
Proof.
  intros Hs. unfold complete_claimed_task, cancellation_outcome. do 2 apply wp_bind.
  eapply wp_mono; [apply cancel_law|]. intros [[]|e] w' [Hr Hc]; [| |by left].
  - apply wp_bind, wp_update. wp_steps. destruct (record_law task lease task "canceled" w') as [Hc' Hn].
    exists [Recorded "canceled"]. rewrite Hn, Hr, Hc'. split; [done|]. destruct Hc as [Hc ->].
    inversion Hs as [Hl|Hl|]; rewrite <- Hl in *; [constructor|by destruct Hc].
  - apply wp_ret. rewrite <- Hc in Hs. rewrite <- Hr. destruct task_result as [[]|error].
    + by apply complete_succeeded_accounts.
    + destruct (is_control_error error) eqn:Hctl;
        [by apply complete_stopped_accounts|by apply complete_failed_accounts].
Qed.

Lemma attempt_body task lease guard w (Φ : result E (result E unit) → W → Prop) :
  committed task lease w = [] →
  (∀ r w', settling (committed task lease w') [] → reports w' = reports w → Φ (Ok r) w') →
  wp (attempt (process_task task guard)) Φ w.
Proof.
  intros Hc HΦ. pose proof (body_law task lease guard w Hc) as Hb.
  unfold wp, attempt in *. destruct (process_task task guard w) as [r w'].
  destruct Hb as [[Hb|Hb] Hr]; apply HΦ; try done; rewrite Hb; constructor.
Qed.

(** A worker that is shutting down does not start the task body: whatever the
    heartbeat did to the guard, the result handed on is a lease error. *)
Lemma shutdown_skips_body task lease timeout started checked heartbeat delay w :
  (∀ g, rtc guard_step g (heartbeat g)) → cancellation_requested task = false →
  ∃ t, process_claimed_task add_seconds task lease timeout started checked true heartbeat delay w =
    complete_claimed_task add_seconds task lease (Err (from_core (termination_error lease t))) delay w.
Proof.
  intros Hheart Hnc. unfold process_claimed_task. rewrite Hnc.
  set (g0 := TaskLeaseGuard_with_shutdown_token started lease timeout).
  destruct (guard_steps_keep _ _ (Hheart g0)) as [Hl Ho].
  pose proof (ensure_active_result checked true (heartbeat g0)) as Hr.
  destruct (ensure_active checked true (heartbeat g0)) as [[[]|e] g] eqn:Ha.
  - assert ((ensure_active checked true (heartbeat g0)).1 = Ok tt) as Hok by by rewrite Ha.
    apply ensure_active_ok in Hok as (_ & Hobs & _). by rewrite Ho in Hobs.
  - destruct Hr as (_ & t & _ & ->). exists t. by rewrite Hl.
Qed.

(** C40. An execution accounts for exactly what it made durable: started on a
    lease under which nothing is committed, whatever the task body returns, the
    heartbeat does to the guard and other actors do to storage between the
    calls, the counters it returns are those of the one transition committed
    under its lease (a release may precede a cancellation), and metrics and
    dispatcher hear of that transition alone; a retry is scheduled only for an
    ordinary error of an automatically retryable class with attempts left, a
    permanent failure only otherwise; an unconfirmed success counts for
    nothing; and an execution that ends with a storage error has recorded no
    transition. *)
Theorem execution_accounted task lease timeout started checked shutdown heartbeat delay w :
  committed task lease w = [] →
  wp (process_claimed_task add_seconds task lease timeout started checked shutdown heartbeat delay)
    (accounts task lease (reports w)) w.
Proof.
  intros Hc. unfold process_claimed_task. destruct (cancellation_requested task).
  { apply (cancellation_accounts _ _ _ []); [by rewrite app_nil_r|rewrite Hc; constructor]. }
  apply wp_bind. destruct (ensure_active _ _ _) as [[[]|error] guard].
  - apply (attempt_body _ lease); [done|]. intros r w' Hs Hr. rewrite <- Hr. by apply complete_accounts.
  - apply wp_ret, complete_accounts. rewrite Hc. constructor.
Qed.
End accounting.

(** ** A store over one row *)
(** A row with its cancellation flag, the transitions of the lease and the
    reports; the task is its attempt counts, its body fails. *)
Record demo_store : Type := mk_demo_store {
  demo_cancel : bool;
  demo_log : list TaskTransition;
  demo_reports : list TaskReport;
}.

Definition demo_write (fenced : bool) (t : TaskTransition) : action demo_store TaskCoreError bool := λ w,
  if bool_decide (demo_log w = []) && bool_decide (demo_cancel w = fenced)
  then (Ok true, mk_demo_store (demo_cancel w) [t] (demo_reports w))
  else (Ok false, w).

Definition demo_report (r : TaskReport) (w : demo_store) : demo_store :=
  mk_demo_store (demo_cancel w) (demo_log w) (demo_reports w ++ [r]).

#[export] Instance demo_record : ExecutableTaskRecord (Z * Z) := {
  cancellation_requested _ := false;
  attempt_count := fst;
  max_attempts := snd;
}.

#[export] Instance demo_task_store : ClaimedTaskExecutionStore demo_store (Z * Z) TaskCoreError Z := {
  from_core e := e;
  process_task _ _ w := (Err (Codec "backend unavailable"), w);
  confirm_task_succeeded _ _ w := (Ok (bool_decide (demo_log w = [TransSucceeded])), w);
  is_lease_lost_error := is_task_lease_lost;
  is_lease_renewal_timed_out_error := is_task_lease_renewal_timed_out;
  is_worker_shutdown_requested_error := is_task_worker_shutdown_requested;
  is_cancellation_requested_error := is_task_cancellation_requested;
  cancel_task_if_requested _ _ := demo_write true TransCanceled;
  retry_class _ _ := RetryAuto;
  storage_error _ := "codec";
  display_error stored := stored;
  failed_steps_json _ _ w := (None, w);
  mark_task_failed _ _ f := demo_write false (TransFailed (failure_attempt_count f) (failure_can_retry f));
  mark_task_retry _ _ u := demo_write false (TransRetried (retry_attempt_count u));
  release_task_for_shutdown _ _ := demo_write false TransReleased;
  record_task_transition _ status := demo_report (Recorded status);
  wake_dispatcher := demo_report Woke;
  utc_now _ := 0;
}.

Lemma demo_write_law fenced t w :
  wp (demo_write fenced t) (λ r w', demo_reports w' = demo_reports w ∧
    match r with
    | Ok true => demo_log w = [] ∧ demo_log w' = [t]
    | Ok false => demo_log w' = demo_log w
    | Err _ => True
    end) w.
Proof.
  unfold wp, demo_write. destruct (bool_decide (demo_log w = [])) eqn:Hl; cbn; [|done].
  apply bool_decide_eq_true in Hl. by destruct (bool_decide (demo_cancel w = fenced)).
Qed.

#[export] Program Instance demo_laws : ExecutionLaws demo_store (Z * Z) TaskCoreError Z := {
  committed _ _ := demo_log;
  reports := demo_reports;
}.
Next Obligation. intros. unfold wp. cbn. auto. Qed.
Next Obligation.
  intros. cbn. eapply wp_mono; [apply demo_write_law|]. cbn. intros [[]|] w' [? Hc]; split; try done.
  destruct Hc as [-> ->]. auto.
Qed.
Next Obligation. intros. unfold wp. cbn. rewrite bool_decide_eq_true. auto. Qed.
Next Obligation. intros. apply demo_write_law. Qed.
Next Obligation. intros. apply demo_write_law. Qed.
Next Obligation. intros. apply demo_write_law. Qed.
Next Obligation. done. Qed.
Next Obligation. done. Qed.
Next Obligation. done. Qed.

(** The third of four attempts fails and is scheduled again. *)
Definition demo_run (task : Z * Z) : result TaskCoreError TaskDispatchOutcome * demo_store :=
  process_claimed_task Z.add task (mk_TaskLease 7 2) 60 0 1 false id default_task_retry_delay_secs
    (mk_demo_store false [] []).

Lemma execution_accounted_witness :
  demo_run (2, 4) = (Ok TaskDispatchOutcome_retried,
    mk_demo_store false [TransRetried 3] [Woke; Recorded "retry"]) ∧
  accounts (2, 4) (mk_TaskLease 7 2) [] (demo_run (2, 4)).1 (demo_run (2, 4)).2.
Proof.
  split; [by vm_compute|].
  exact (execution_accounted Z.add (2, 4) (mk_TaskLease 7 2) 60 0 1 false id
    default_task_retry_delay_secs (mk_demo_store false [] []) eq_refl).
Defined.
