(* ===== verification/BatchWriter.v ===== *)
(** * The buffered batch writer

    [aster_forge_runtime/src/buffered.rs]: a bounded in-memory queue that one
    owned worker writes in batches, with a separate lane for one overflow
    record, failures that block a lane until they are explicitly retried, and
    flushes with a captured scope.

    Every critical section of the mutex is one function on [State].  An
    [Instant] is a [Z]; [try_send] to the observer, the outcome of a sink call
    and the time of a call are arguments.  [writer_step] interleaves the
    sections of any number of callers with those of the worker.  [usize] and
    [u64] sums are the plain additions of the source. *)
From S2P Require Export Prelude.

(** ** Values *)
Record BufferedBatchConfig : Type := mk_BufferedBatchConfig {
  queue_capacity : Z;
  batch_size : Z;
  delayed_flush_after : Z;
}.

Inductive WriteFailureClass : Type := Retryable | Permanent | UnknownCommit.

#[export] Instance WriteFailureClass_eq_dec : EqDecision WriteFailureClass.
Proof. solve_decision. Defined.

Inductive WriteFailureCause (E : Type) : Type :=
  | Persistence (error : E)
  | Panicked
  | CauseCancelled
  | NotAttempted.
Arguments Persistence {E}.
Arguments Panicked {E}.
Arguments CauseCancelled {E}.
Arguments NotAttempted {E}.

Record WriteFailure (E : Type) : Type := mk_WriteFailure {
  failure_class : WriteFailureClass;
  failure_cause : WriteFailureCause E;
}.
Arguments mk_WriteFailure {E}.
Arguments failure_class {E}.
Arguments failure_cause {E}.

Inductive OverflowPolicy : Type := OverflowReject | DirectWrite.

#[export] Instance OverflowPolicy_eq_dec : EqDecision OverflowPolicy.
Proof. solve_decision. Defined.

Inductive BufferedWriterState : Type := Created | Running | Draining | Stopped.

#[export] Instance BufferedWriterState_eq_dec : EqDecision BufferedWriterState.
Proof. solve_decision. Defined.

Inductive RecordAdmission : Type := Queued | DirectPersisted.

Inductive RecordError (T E : Type) : Type :=
  | InvalidRecord (item : T) (error : E)
  | NotRunning (item : T)
  | Full (item : T)
  | DirectFailed (failure : WriteFailure E).
Arguments InvalidRecord {T E}.
Arguments NotRunning {T E}.
Arguments Full {T E}.
Arguments DirectFailed {T E}.

Inductive BufferFlushError (E : Type) : Type :=
  | FlushNotStarted
  | FlushStopped
  | FlushWrite (failure : WriteFailure E)
  | FlushDeadline.
Arguments FlushNotStarted {E}.
Arguments FlushStopped {E}.
Arguments FlushWrite {E}.
Arguments FlushDeadline {E}.

Inductive BufferedWriterEvent : Type :=
  | EventQueued | EventDirectPersisted | EventBatchPersisted | EventFailed | EventRejected
  | EventStopped.

(** [reply] is the sender of a oneshot channel, named by a number. *)
Record Direct (T E : Type) : Type := mk_Direct {
  direct_item : T;
  direct_reply : option nat;
  direct_failure : option (WriteFailure E);
}.
Arguments mk_Direct {T E}.
Arguments direct_item {T E}.
Arguments direct_reply {T E}.
Arguments direct_failure {T E}.

Record State (T E : Type) : Type := mk_State {
  lifecycle : BufferedWriterState;
  queue : list T;
  oldest : option Z;
  direct : option (Direct T E);
  failure : option (WriteFailure E);
  failure_records : Z;
  flush_through : Z;
  persisted : Z;
  direct_persisted : Z;
  observer_dropped : Z;
}.
Arguments mk_State {T E}.
Arguments lifecycle {T E}.
Arguments queue {T E}.
Arguments oldest {T E}.
Arguments direct {T E}.
Arguments failure {T E}.
Arguments failure_records {T E}.
Arguments flush_through {T E}.
Arguments persisted {T E}.
Arguments direct_persisted {T E}.
Arguments observer_dropped {T E}.

(** The immutable part of [Core]; [observed] is [events.is_some()]. *)
Record Core : Type := mk_Core {
  config : BufferedBatchConfig;
  overflow : OverflowPolicy;
  observed : bool;
}.

(** [ManagedBatchWriter::new] normalizes the capacities. *)
Definition ManagedBatchWriter_config (c : BufferedBatchConfig) : BufferedBatchConfig :=
  mk_BufferedBatchConfig (Z.max (queue_capacity c) 1) (Z.max (batch_size c) 1)
    (delayed_flush_after c).

Section writer.
Context {T E : Type}.

Abbreviation State := (State T E).

Definition State_created : State :=
  mk_State Created [] None None None 0 0 0 0 0.

(** Updates of single fields. *)
Definition with_lifecycle (l : BufferedWriterState) (s : State) : State :=
  mk_State l (queue s) (oldest s) (direct s) (failure s) (failure_records s) (flush_through s)
    (persisted s) (direct_persisted s) (observer_dropped s).
Definition with_queue (q : list T) (at_ : option Z) (s : State) : State :=
  mk_State (lifecycle s) q at_ (direct s) (failure s) (failure_records s) (flush_through s)
    (persisted s) (direct_persisted s) (observer_dropped s).
Definition with_direct (d : option (Direct T E)) (s : State) : State :=
  mk_State (lifecycle s) (queue s) (oldest s) d (failure s) (failure_records s) (flush_through s)
    (persisted s) (direct_persisted s) (observer_dropped s).
Definition with_failure (f : option (WriteFailure E)) (records : Z) (s : State) : State :=
  mk_State (lifecycle s) (queue s) (oldest s) (direct s) f records (flush_through s)
    (persisted s) (direct_persisted s) (observer_dropped s).
Definition with_flush_through (through : Z) (s : State) : State :=
  mk_State (lifecycle s) (queue s) (oldest s) (direct s) (failure s) (failure_records s) through
    (persisted s) (direct_persisted s) (observer_dropped s).
Definition with_persisted (p d : Z) (s : State) : State :=
  mk_State (lifecycle s) (queue s) (oldest s) (direct s) (failure s) (failure_records s)
    (flush_through s) p d (observer_dropped s).
Definition with_dropped (n : Z) (s : State) : State :=
  mk_State (lifecycle s) (queue s) (oldest s) (direct s) (failure s) (failure_records s)
    (flush_through s) (persisted s) (direct_persisted s) n.

Definition queue_len (s : State) : Z := Z.of_nat (length (queue s)).

Definition batch_persisted (s : State) : Z := u64_sub (persisted s) (direct_persisted s).
Definition batch_watermark (s : State) : Z := u64_add (batch_persisted s) (queue_len s).
Definition next_batch_size (s : State) (maximum : Z) : Z :=
  let remaining := saturating_sub (flush_through s) (batch_persisted s) in
  if decide (remaining = 0) then maximum else Z.min maximum remaining.

Context (core : Core).

(** [try_send] answers per event whether the bounded channel took it. *)
Context (try_send : BufferedWriterEvent → bool).

Definition event (ev : BufferedWriterEvent) (s : State) : State :=
  if observed core && negb (try_send ev)
  then with_dropped (saturating_add U64_MAX (observer_dropped s) 1) s else s.

(** ** Admission *)
(** What [record] has done when it gives up the lock: an answer, or a direct
    record whose reply it awaits. *)
Inductive admission : Type :=
  | Answered (answer : result (RecordError T E) RecordAdmission)
  | Awaiting.

Definition record (now : Z) (item : T) (reply : nat) (s : State) : admission * State :=
  if decide (lifecycle s ≠ Running) then
    (Answered (Err (NotRunning item)), event EventRejected s)
  else if decide (queue_len s < queue_capacity (config core)) then
    let at_ := if decide (queue s = []) then Some now else oldest s in
    (Answered (Ok Queued), event EventQueued (with_queue (queue s ++ [item]) at_ s))
  else if decide (overflow core = OverflowReject ∨ direct s ≠ None) then
    (Answered (Err (Full item)), event EventRejected s)
  else (Awaiting, with_direct (Some (mk_Direct item (Some reply) None)) s).

(** The rest of [record]: a reply, or a sender dropped without one. *)
Definition direct_answer (reply : option (result (WriteFailure E) RecordAdmission))
    : result (RecordError T E) RecordAdmission :=
  map_err DirectFailed (default (Err (mk_WriteFailure UnknownCommit CauseCancelled)) reply).

Definition start (s : State) : result BufferedWriterState unit * State :=
  if decide (lifecycle s ≠ Created) then (Err (lifecycle s), s)
  else (Ok tt, with_lifecycle Running s).

Definition begin_drain (s : State) : State :=
  if decide (lifecycle s ≠ Stopped) then with_lifecycle Draining s else s.

(** ** Flushing *)
(** The scope that a flush captures at its first poll. *)
Definition flush_targets (s : State) : result (BufferFlushError E) (Z * Z) :=
  if decide (lifecycle s = Created) then Err FlushNotStarted
  else Ok (batch_watermark s,
           u64_add (direct_persisted s) (if decide (direct s = None) then 0 else 1)).

(** The failure that an idle scope reports. *)
Definition scope_failure (batch_pending direct_pending : bool) (s : State)
    : option (WriteFailure E) :=
  match (if batch_pending then failure s else None) with
  | Some f => Some f
  | None => if direct_pending then d ← direct s; direct_failure d else None
  end.

(** One round of the loop of [flush]: an answer, or [None] to wait for the
    next change. *)
Definition flush_round (now deadline : Z) (targets : Z * Z) (s : State)
    : option (result (BufferFlushError E) unit) * State :=
  let batch_pending := bool_decide (batch_persisted s < targets.1) in
  let direct_pending := bool_decide (direct_persisted s < targets.2) in
  if negb batch_pending && negb direct_pending then (Some (Ok tt), s)
  else
    let work_pending := batch_pending && bool_decide (failure s = None)
      || direct_pending && match direct s with
                           | Some d => bool_decide (direct_failure d = None)
                           | None => false
                           end in
    match (if work_pending then None else scope_failure batch_pending direct_pending s) with
    | Some f => (Some (Err (FlushWrite f)), s)
    | None =>
        if decide (lifecycle s = Stopped) then (Some (Err FlushStopped), s)
        else if decide (deadline ≤ now) then (Some (Err FlushDeadline), s)
        else (None, if batch_pending
                    then with_flush_through (Z.max (flush_through s) targets.1) s else s)
    end.

Definition is_retryable (f : option (WriteFailure E)) : bool :=
  match f with Some f => bool_decide (failure_class f = Retryable) | None => false end.

Definition retry_failed (s : State) : State :=
  if decide (lifecycle s = Stopped) then s
  else
    let s :=
      if is_retryable (failure s) then
        let s := with_failure None 0 s in
        with_flush_through (Z.max (flush_through s) (batch_watermark s)) s
      else s in
    match direct s with
    | Some d =>
        if is_retryable (direct_failure d)
        then with_direct (Some (mk_Direct (direct_item d) (direct_reply d) None)) s else s
    | None => s
    end.

(** ** The worker *)
(** [oldest.and_then(|at| at.checked_add(delayed_flush_after))], with the largest
    instant [instant_max]. *)
Context (instant_max : Z).

Definition flush_due (s : State) : option Z :=
  at_ ← oldest s; checked_add instant_max at_ (delayed_flush_after (config core)).

Definition batch_ready (now : Z) (s : State) : bool :=
  bool_decide (queue s ≠ []) && bool_decide (failure s = None)
  && (bool_decide (batch_persisted s < flush_through s)
      || bool_decide (lifecycle s = Draining)
      || bool_decide (batch_size (config core) ≤ queue_len s)
      || match flush_due s with Some at_ => bool_decide (at_ ≤ now) | None => false end).

(** The next sink call: its records, and whether it is for the direct lane. *)
Definition select_work (now : Z) (prefer_batch : bool) (s : State) : option (list T * bool) :=
  let ready := batch_ready now s in
  let batch := if ready then
      Some (take (Z.to_nat (next_batch_size s (batch_size (config core)))) (queue s), false)
    else None in
  match direct s with
  | Some d => if bool_decide (direct_failure d = None) && negb (prefer_batch && ready)
              then Some ([direct_item d], true) else batch
  | None => batch
  end.

Abbreviation replies := (list (nat * result (WriteFailure E) RecordAdmission)).

(** The reply that taking a oneshot sender and using it delivers. *)
Definition send_reply (d : Direct T E) (answer : result (WriteFailure E) RecordAdmission) : replies :=
  match direct_reply d with Some n => [(n, answer)] | None => [] end.

Definition complete (is_direct : bool) (count : nat) (outcome : result (WriteFailure E) unit)
    (s : State) : replies * State :=
  if is_direct then
    let '(sent, s) :=
      match direct s with
      | None => ([], s)
      | Some d =>
          match outcome with
          | Ok _ => (send_reply d (Ok DirectPersisted),
              with_persisted (u64_add (persisted s) 1) (u64_add (direct_persisted s) 1)
                (with_direct None s))
          | Err f => (send_reply d (Err f),
              with_direct (Some (mk_Direct (direct_item d) None (Some f))) s)
          end
      end in
    (sent, event match outcome with Ok _ => EventDirectPersisted | Err _ => EventFailed end s)
  else
    match outcome with
    | Err f => ([], event EventFailed (with_failure (Some f) (Z.of_nat count) s))
    | Ok _ =>
        let q := drop count (queue s) in
        ([], event EventBatchPersisted
               (with_persisted (u64_add (persisted s) (Z.of_nat count)) (direct_persisted s)
                  (with_queue q (if decide (q = []) then None else oldest s) s)))
    end.

(** A blocked direct record keeps its failure and has no reply left to send. *)
Definition block_direct (f : WriteFailure E) (d : Direct T E) : replies * Direct T E :=
  (send_reply d (Err f), mk_Direct (direct_item d) None
     (Some (default f (direct_failure d)))).

Definition finish (s : State) : replies * State :=
  let not_attempted := mk_WriteFailure Retryable NotAttempted in
  let '(sent, s) :=
    match direct s with
    | Some d =>
        if decide (direct_failure d = None) then
          let (sent, d) := block_direct not_attempted d in (sent, with_direct (Some d) s)
        else ([], s)
    | None => ([], s)
    end in
  (sent, event EventStopped (with_lifecycle Stopped s)).

Definition fail_worker (cause : WriteFailureCause E) (s : State) : replies * State :=
  let f := mk_WriteFailure UnknownCommit cause in
  let s := if bool_decide (queue s ≠ []) && bool_decide (failure s = None)
           then with_failure (Some f) (queue_len s) s else s in
  let '(sent, s) :=
    match direct s with
    | Some d => let (sent, d) := block_direct f d in (sent, with_direct (Some d) s)
    | None => ([], s)
    end in
  let (sent', s) := finish (event EventFailed s) in
  (sent ++ sent', s).

(** What [snapshot] and [unconfirmed] read. *)
Record BufferedWriterSnapshot : Type := mk_BufferedWriterSnapshot {
  snapshot_state : BufferedWriterState;
  snapshot_queued : Z;
  snapshot_direct_pending : Z;
  snapshot_persisted : Z;
  snapshot_direct_persisted : Z;
  snapshot_observer_events_dropped : Z;
  snapshot_batch_failure : option (WriteFailure E);
  snapshot_batch_failure_records : Z;
  snapshot_direct_failure : option (WriteFailure E);
}.

Definition snapshot (s : State) : BufferedWriterSnapshot :=
  mk_BufferedWriterSnapshot (lifecycle s) (queue_len s) (if decide (direct s = None) then 0 else 1)
    (persisted s) (direct_persisted s) (observer_dropped s) (failure s) (failure_records s)
    (d ← direct s; direct_failure d).

Definition unconfirmed (s : State) : list T :=
  queue s ++ match direct s with Some d => [direct_item d] | None => [] end.
End writer.
