(* ===== verification/BatchWriterSpec.v ===== *)
(** * What the batch writer guarantees

    The interleavings of callers and worker of [BatchWriter] as a step
    relation, with the records admitted and the sink calls made as ghost
    state, and the invariant of its reachable states. *)
From S2P Require Export BatchWriter.

Section system.
Context {T E : Type}.

(** A sink call that has ended; one that the worker did not survive ended
    with an unknown commit. *)
Record attempt : Type := mk_attempt {
  attempt_direct : bool;
  attempt_items : list T;
  attempt_outcome : result (WriteFailure E) unit;
}.

Inductive worker_phase : Type :=
  | NotStarted
  | Looping (prefer_batch : bool)
  | Writing (items : list T) (is_direct : bool)
  | Exited.

Record writer : Type := mk_writer {
  shared : State T E;
  worker : worker_phase;
  cancelled : bool;
  admitted : list T;
  admitted_direct : list T;
  attempts : list attempt;
  replied : list (nat * result (WriteFailure E) RecordAdmission);
}.

Definition writer_new : writer := mk_writer State_created NotStarted false [] [] [] [].

Context (core : Core) (instant_max : Z).
Hypothesis Hcapacity : 1 ≤ queue_capacity (config core).
Hypothesis Hsize : 1 ≤ batch_size (config core).

Definition with_shared (s : State T E) (w : writer) : writer :=
  mk_writer s (worker w) (cancelled w) (admitted w) (admitted_direct w) (attempts w) (replied w).

(** What an admission adds to the ghost lists. *)
Definition recorded (item : T) (r : @admission T E * State T E) (w : writer) : writer :=
  let (a, s) := r in
  match a with
  | Answered (Ok _) =>
      mk_writer s (worker w) (cancelled w) (admitted w ++ [item]) (admitted_direct w) (attempts w) (replied w)
  | Answered (Err _) => with_shared s w
  | Awaiting =>
      mk_writer s (worker w) (cancelled w) (admitted w) (admitted_direct w ++ [item]) (attempts w) (replied w)
  end.

(** The worker's share of a step: replies sent, phase, and the sink call that
    ended, if any. *)
Definition worked (r : list (nat * result (WriteFailure E) RecordAdmission) * State T E)
    (phase : worker_phase) (ended : list attempt) (w : writer) : writer :=
  mk_writer r.2 phase (cancelled w) (admitted w) (admitted_direct w) (attempts w ++ ended)
    (replied w ++ r.1).

Definition interrupted (cause : WriteFailureCause E) (phase : worker_phase) : list attempt :=
  match phase with
  | Writing items is_direct =>
      [mk_attempt is_direct items (Err (mk_WriteFailure UnknownCommit cause))]
  | _ => []
  end.

(** One critical section of a caller or of the worker.  Oneshot channels are
    numbered by the direct records. *)
Inductive writer_step : writer → writer → Prop :=
  | step_start w :
      (start (shared w)).1 = Ok tt →
      writer_step w (mk_writer (start (shared w)).2 (Looping false) (cancelled w) (admitted w)
        (admitted_direct w) (attempts w) (replied w))
  | step_record sent now item w :
      writer_step w (recorded item (record core sent now item (length (admitted_direct w)) (shared w)) w)
  | step_begin_drain w : writer_step w (with_shared (begin_drain (shared w)) w)
  | step_flush now deadline targets w :
      writer_step w (with_shared (flush_round now deadline targets (shared w)).2 w)
  | step_retry w : writer_step w (with_shared (retry_failed (shared w)) w)
  | step_cancel w :
      writer_step w (mk_writer (shared w) (worker w) true (admitted w) (admitted_direct w)
        (attempts w) (replied w))
  | step_select now prefer items is_direct w :
      worker w = Looping prefer → cancelled w = false →
      select_work core instant_max now prefer (shared w) = Some (items, is_direct) →
      writer_step w (worked ([], shared w) (Writing items is_direct) [] w)
  | step_complete sent items is_direct outcome w :
      worker w = Writing items is_direct →
      writer_step w (worked (complete core sent is_direct (length items) outcome (shared w))
        (Looping is_direct) [mk_attempt is_direct items outcome] w)
  | step_exit sent prefer w :
      worker w = Looping prefer → cancelled w = true →
      writer_step w (worked (finish core sent (shared w)) Exited [] w)
  | step_crash sent cause w :
      worker w ≠ NotStarted → worker w ≠ Exited →
      writer_step w (worked (fail_worker core sent cause (shared w)) Exited
        (interrupted cause (worker w)) w)
  | step_stopped w :
      worker w = NotStarted ∨ worker w = Exited →
      writer_step w (with_shared (with_lifecycle Stopped (shared w)) w).

Definition writer_reachable (w : writer) : Prop := rtc writer_step writer_new w.

(** ** The invariant *)
Definition lane_attempts (is_direct : bool) (l : list attempt) : list attempt :=
  filter (λ a, attempt_direct a = is_direct) l.
Arguments lane_attempts : simpl never.

Definition acked_by (a : attempt) : list T :=
  match attempt_outcome a with Ok _ => attempt_items a | Err _ => [] end.

(** The records of a lane that the sink has acknowledged, in order. *)
Definition acked (is_direct : bool) (w : writer) : list T :=
  lane_attempts is_direct (attempts w) ≫= acked_by.

Definition direct_items (s : State T E) : list T :=
  match direct s with Some d => [direct_item d] | None => [] end.

(** A sink call after which some of its records may be durable, unconfirmed. *)
Definition maybe_committed (a : attempt) : Prop :=
  ∃ f, attempt_outcome a = Err f ∧ failure_class f ≠ Retryable.

Definition lane_failure (is_direct : bool) (s : State T E) : option (WriteFailure E) :=
  if is_direct then d ← direct s; direct_failure d else failure s.

Definition lane_blocked (is_direct : bool) (w : writer) : Prop :=
  worker w = Exited ∨
  ∃ f, lane_failure is_direct (shared w) = Some f ∧ failure_class f ≠ Retryable.

Record writer_inv (w : writer) : Prop := {
  inv_batch : admitted w = acked false w ++ queue (shared w);
  inv_direct : admitted_direct w = acked true w ++ direct_items (shared w);
  inv_persisted :
    persisted (shared w) = Z.of_nat (length (acked false w) + length (acked true w));
  inv_direct_persisted : direct_persisted (shared w) = Z.of_nat (length (acked true w));
  inv_capacity : queue_len (shared w) ≤ queue_capacity (config core);
  inv_failed : failure (shared w) ≠ None →
    0 < failure_records (shared w) ≤ queue_len (shared w);
  inv_writing :
    match worker w with
    | NotStarted => attempts w = []
    | Writing items false => items ≠ [] ∧ failure (shared w) = None ∧
        Z.of_nat (length items) ≤ batch_size (config core) ∧
        ∃ rest, queue (shared w) = items ++ rest
    | Writing items true => ∃ d, direct (shared w) = Some d ∧ direct_failure d = None ∧
        items = [direct_item d]
    | _ => True
    end;
  inv_created : lifecycle (shared w) = Created → worker w = NotStarted;
  inv_replay is_direct l1 a l2 :
    lane_attempts is_direct (attempts w) = l1 ++ a :: l2 → maybe_committed a →
    l2 = [] ∧ lane_blocked is_direct w;
  inv_sizes : Forall (λ a, attempt_items a ≠ [] ∧
    Z.of_nat (length (attempt_items a)) ≤ batch_size (config core)) (attempts w);
  inv_replies : NoDup (fst <$> replied w);
  inv_reply_ids n : n ∈ fst <$> replied w → (n < length (admitted_direct w))%nat;
  inv_reply_open d n : direct (shared w) = Some d → direct_reply d = Some n →
    S n = length (admitted_direct w) ∧ n ∉ fst <$> replied w;
  inv_reply_ok n admission : (n, Ok admission) ∈ replied w → (n < length (acked true w))%nat;
}.

(** *** Steps that leave the lanes alone *)
Definition same_lanes (s s' : State T E) : Prop :=
  queue s' = queue s ∧ direct s' = direct s ∧ failure s' = failure s ∧
  failure_records s' = failure_records s ∧ persisted s' = persisted s ∧
  direct_persisted s' = direct_persisted s ∧ (lifecycle s' = Created → lifecycle s = Created).

Lemma event_same sent ev (s : State T E) : same_lanes s (event core sent ev s).
Proof. unfold event. by destruct (observed core && _). Qed.

Lemma event_lifecycle sent ev (s : State T E) : lifecycle (event core sent ev s) = lifecycle s.
Proof. unfold event. by destruct (observed core && _). Qed.

Lemma same_lanes_trans (s1 s2 s3 : State T E) : same_lanes s1 s2 → same_lanes s2 s3 → same_lanes s1 s3.
Proof. intros (?&?&?&?&?&?&?) (?&?&?&?&?&?&?). repeat split; try congruence; auto. Qed.

Lemma flush_round_same now deadline targets (s : State T E) : same_lanes s (flush_round now deadline targets s).2.
Proof.
  unfold flush_round. destruct (_ && _); [done|].
  destruct (if _ || _ then _ else _); [done|].
  by repeat case_decide.
Qed.

Lemma acked_same w s' lane : acked lane (with_shared s' w) = acked lane w.
Proof. done. Qed.

Lemma lane_failure_same lane (s s' : State T E) : same_lanes s s' → lane_failure lane s' = lane_failure lane s.
Proof. intros (_ & Hd & Hf & _). destruct lane; cbn; congruence. Qed.

Lemma inv_frame w s' : same_lanes (shared w) s' → writer_inv w → writer_inv (with_shared s' w).
Proof.
  intros Hs [].
  assert (∀ lane, lane_failure lane s' = lane_failure lane (shared w)) as Hl
    by (intros; by apply lane_failure_same).
  destruct Hs as (Hq & Hd & Hf & Hr & Hp & Hdp & Hc).
  split; unfold acked, queue_len, direct_items in *; cbn;
    rewrite ?Hq, ?Hd, ?Hf, ?Hr, ?Hp, ?Hdp; auto.
  intros lane l1 a l2 Ha Hm. destruct (inv_replay0 _ _ _ _ Ha Hm) as [-> Hb].
  split; [done|]. destruct Hb as [?|(f & Hb & ?)]; [by left|]. right. exists f. by rewrite Hl.
Qed.

(** A change of phase that the worker's clause allows. *)
Lemma inv_phase w phase :
  writer_inv w → worker w ≠ Exited → lifecycle (shared w) ≠ Created →
  match phase with
  | NotStarted => attempts w = []
  | Writing items false => items ≠ [] ∧ failure (shared w) = None ∧
      Z.of_nat (length items) ≤ batch_size (config core) ∧ ∃ rest, queue (shared w) = items ++ rest
  | Writing items true => ∃ d, direct (shared w) = Some d ∧ direct_failure d = None ∧
      items = [direct_item d]
  | _ => True
  end →
  writer_inv (mk_writer (shared w) phase (cancelled w) (admitted w) (admitted_direct w)
    (attempts w) (replied w)).
Proof.
  intros [] Hw Hl Hphase. split; auto; [by intros|].
  intros lane l1 a l2 Ha Hm. destruct (inv_replay0 _ _ _ _ Ha Hm) as [-> Hb].
  split; [done|]. destruct Hb as [?|?]; [done|by right].
Qed.

(** The new writer starts with the invariant. *)
Lemma inv_new : writer_inv writer_new.
Proof.
  split; cbn; try done; try (unfold queue_len; cbn; lia).
  - intros lane [|] ? ? Ha; discriminate Ha.
  - constructor.
  - intros n Hn. by apply elem_of_nil in Hn.
  - intros n a Hn. by apply elem_of_nil in Hn.
Qed.

(** *** Admission *)
Lemma inv_record sent now item w :
  writer_inv w →
  writer_inv (recorded item (record core sent now item (length (admitted_direct w)) (shared w)) w).
Proof.
  intros Hinv. unfold record. case_decide as Hrun; [by apply inv_frame; [apply event_same|]|].
  assert (lifecycle (shared w) ≠ Created) as Hnew by (intros Hc; destruct (lifecycle (shared w)); done).
  case_decide as Hroom.
  - destruct Hinv. cbn [recorded].
    set (s' := with_queue _ _ _). pose proof (event_same sent EventQueued s') as (Hq & Hd & Hf & Hr & Hp & Hdp & _).
    assert (lifecycle (event core sent EventQueued s') = lifecycle (shared w)) as Hlc
      by (rewrite event_lifecycle; done).
    split; unfold queue_len, direct_items in *; cbn; rewrite ?Hq, ?Hd, ?Hf, ?Hr, ?Hp, ?Hdp, ?Hlc; cbn; auto.
    + rewrite inv_batch0. by rewrite <- app_assoc.
    + rewrite length_app. cbn. lia.
    + intros Hn. specialize (inv_failed0 Hn). rewrite length_app. cbn. lia.
    + destruct (worker w) as [| |items []|]; try done. destruct inv_writing0 as (? & ? & ? & rest & ->).
      repeat split; [done..|]. exists (rest ++ [item]). by rewrite app_assoc.
    + intros lane l1 a l2 Ha Hm. destruct (inv_replay0 _ _ _ _ Ha Hm) as [-> Hb].
      split; [done|]. destruct Hb as [?|(f & Hb & ?)]; [by left|]. right. exists f. split; [|done].
      rewrite <- Hb. destruct lane; cbn; by rewrite ?Hd, ?Hf.
  - case_decide as Hfull; [by apply inv_frame; [apply event_same|]|].
    assert (direct (shared w) = None) as Hnone by (destruct (direct (shared w)); [exfalso; apply Hfull; by right|done]).
    destruct Hinv. cbn [recorded].
    split; unfold direct_items in *; cbn; auto.
    + rewrite Hnone, app_nil_r in inv_direct0. unfold acked in *. cbn. by rewrite inv_direct0.
    + destruct (worker w) as [| |items []|]; try done.
      destruct inv_writing0 as (d & ? & _). congruence.
    + intros lane l1 a l2 Ha Hm. destruct (inv_replay0 _ _ _ _ Ha Hm) as [-> Hb].
      split; [done|]. destruct Hb as [?|(f & Hb & ?)]; [by left|]. right. exists f. split; [|done].
      destruct lane; [|done]. cbn in Hb. by rewrite Hnone in Hb.
    + intros n Hn. specialize (inv_reply_ids0 n Hn). rewrite length_app. cbn. lia.
    + intros d n [= <-] [= <-]. rewrite length_app. cbn. split; [lia|].
      intros Hn. specialize (inv_reply_ids0 _ Hn). lia.
Qed.

(** *** The worker *)
Lemma select_work_inv now prefer items is_direct w :
  writer_inv w → worker w = Looping prefer →
  select_work core instant_max now prefer (shared w) = Some (items, is_direct) →
  writer_inv (worked ([], shared w) (Writing items is_direct) [] w).
Proof.
  intros Hinv Hw Hsel. unfold worked. cbn. rewrite !app_nil_r.
  apply inv_phase; [done|by rewrite Hw|..].
  { intros Hc. by rewrite (inv_created _ Hinv Hc) in Hw. }
  unfold select_work in Hsel.
  set (batch := if batch_ready core instant_max now (shared w) then _ else _) in Hsel.
  assert (batch = Some (items, is_direct) → is_direct = false ∧ items ≠ [] ∧
    failure (shared w) = None ∧ Z.of_nat (length items) ≤ batch_size (config core) ∧
    ∃ rest, queue (shared w) = items ++ rest) as Hbatch.
  { unfold batch, batch_ready. destruct (bool_decide (queue (shared w) ≠ [])) eqn:Hq; [|done].
    destruct (bool_decide (failure (shared w) = None)) eqn:Hf; [|done]. cbn [andb].
    apply bool_decide_eq_true in Hq, Hf. destruct (_ || _); [|done]. intros [= <- <-].
    set (n := next_batch_size (shared w) (batch_size (config core))).
    assert (1 ≤ n ≤ batch_size (config core)) as Hn.
    { unfold n, next_batch_size, saturating_sub. case_decide; lia. }
    split; [done|]. split.
    { destruct (queue (shared w)) as [|x q]; [done|]. destruct (Z.to_nat n) eqn:Hz; [lia|done]. }
    split; [done|]. split; [rewrite length_take; lia|].
    exists (drop (Z.to_nat n) (queue (shared w))). by rewrite take_drop. }
  destruct (direct (shared w)) as [d|] eqn:Hd; [|by destruct (Hbatch Hsel) as (-> & ?)].
  destruct (bool_decide (direct_failure d = None) && _) eqn:Hdir.
  - apply andb_true_iff in Hdir as [Hdf _]. apply bool_decide_eq_true in Hdf.
    injection Hsel as <- <-. eauto.
  - by destruct (Hbatch Hsel) as (-> & ?).
Qed.

Lemma lane_attempts_snoc lane l a :
  lane_attempts lane (l ++ [a]) =
  lane_attempts lane l ++ (if decide (attempt_direct a = lane) then [a] else []).
Proof. unfold lane_attempts. by rewrite list.filter_app, list.filter_cons, list.filter_nil. Qed.

Lemma acked_worked lane r phase ended w :
  acked lane (worked r phase ended w) = acked lane w ++ (lane_attempts lane ended ≫= acked_by).
Proof. unfold acked, worked, lane_attempts. cbn. by rewrite list.filter_app, bind_app. Qed.

Lemma acked_one lane r phase a w :
  acked lane (worked r phase [a] w) =
  acked lane w ++ (if Bool.eqb (attempt_direct a) lane then acked_by a else []).
Proof.
  rewrite acked_worked. unfold lane_attempts. rewrite list.filter_cons, list.filter_nil.
  destruct a as [[] items o], lane; cbn; case_decide; cbn; by rewrite ?app_nil_r.
Qed.

(** A lane that is not blocked has no call that may have committed. *)
Lemma unblocked_calls lane w :
  writer_inv w → ¬ lane_blocked lane w →
  Forall (λ a, ¬ maybe_committed a) (lane_attempts lane (attempts w)).
Proof.
  intros Hinv Hb. apply list.Forall_forall. intros a Ha Hm. apply Hb.
  apply list_elem_of_split in Ha as (l1 & l2 & Hl). by destruct (inv_replay _ Hinv _ _ _ _ Hl Hm).
Qed.

(** So one more call is the last that may have, if it blocks the lane. *)
Lemma replay_snoc lane l l1 a x l2 :
  Forall (λ a, ¬ maybe_committed a) (lane_attempts lane l) →
  lane_attempts lane (l ++ [x]) = l1 ++ a :: l2 → maybe_committed a → l2 = [] ∧ a = x.
Proof.
  rewrite lane_attempts_snoc. intros Hl Heq Ha.
  destruct l2 as [|y l2 _] using rev_ind.
  - split; [done|]. case_decide; [by apply app_inj_2 in Heq as [_ [= <-]]|].
    rewrite app_nil_r in Heq. rewrite Heq in Hl.
    apply list.Forall_app in Hl as [_ Hl]. by apply list.Forall_cons in Hl as [? _].
  - exfalso. assert (a ∈ lane_attempts lane l); [|rewrite list.Forall_forall in Hl; by eapply Hl].
    case_decide.
    + rewrite app_comm_cons, app_assoc in Heq. apply app_inj_2 in Heq as [-> _]; [|done]. set_solver.
    + rewrite app_nil_r in Heq. rewrite Heq. set_solver.
Qed.

(** The obligations about sink calls of a step that ends one. *)
Lemma ended_replay w r phase a :
  writer_inv w → ¬ lane_blocked (attempt_direct a) w →
  (maybe_committed a → lane_blocked (attempt_direct a) (worked r phase [a] w)) →
  (∀ lane, lane ≠ attempt_direct a → lane_blocked lane w → lane_blocked lane (worked r phase [a] w)) →
  ∀ lane l1 b l2, lane_attempts lane (attempts w ++ [a]) = l1 ++ b :: l2 → maybe_committed b →
    l2 = [] ∧ lane_blocked lane (worked r phase [a] w).
Proof.
  intros Hinv Hopen Hblock Hkeep lane l1 b l2 Heq Hb.
  destruct (decide (lane = attempt_direct a)) as [->|Hne].
  - eapply replay_snoc in Heq as [-> ->]; [auto|by apply unblocked_calls|done].
  - rewrite lane_attempts_snoc, decide_False, app_nil_r in Heq by congruence.
    destruct (inv_replay _ Hinv _ _ _ _ Heq Hb). auto.
Qed.

Definition bounded (w : writer) : Prop :=
  Z.of_nat (length (admitted w) + length (admitted_direct w)) ≤ U64_MAX.

(** The obligations about replies of a step that sends [sent] for the direct
    record. *)
Lemma reply_sent w d sent :
  writer_inv w → direct (shared w) = Some d →
  (∀ m a, (m, a) ∈ sent → direct_reply d = Some m) → (length sent ≤ 1)%nat →
  NoDup (fst <$> replied w ++ sent) ∧
  (∀ n, n ∈ fst <$> replied w ++ sent → (n < length (admitted_direct w))%nat).
Proof.
  intros Hinv Hd Hsent Hlen. rewrite fmap_app. destruct sent as [|[m a] [|]]; cbn in Hlen; [|clear Hlen|lia].
  - rewrite app_nil_r. split; [apply (inv_replies _ Hinv)|apply (inv_reply_ids _ Hinv)].
  - destruct (inv_reply_open _ Hinv d m Hd) as [Hm Hnew]; [by eapply Hsent, list_elem_of_here|].
    split.
    + cbn. apply list.NoDup_app. split; [apply (inv_replies _ Hinv)|]. split; [set_solver|apply list.NoDup_singleton].
    + intros n [Hn|Hn]%elem_of_app; [by apply (inv_reply_ids _ Hinv)|].
      apply list_elem_of_singleton in Hn as ->. cbn. lia.
Qed.

Lemma send_reply_fact (d : Direct T E) answer :
  (length (send_reply d answer) ≤ 1)%nat ∧
  ∀ m a, (m, a) ∈ send_reply d answer → direct_reply d = Some m ∧ a = answer.
Proof.
  unfold send_reply. destruct (direct_reply d) as [n|]; cbn; (split; [lia|]); intros m a Hm.
  - apply list_elem_of_singleton in Hm as [= -> ->]. done.
  - by apply elem_of_nil in Hm.
Qed.

Lemma writing_open items is_direct w :
  writer_inv w → worker w = Writing items is_direct → ¬ lane_blocked is_direct w.
Proof.
  intros Hinv Hw [Hb|(f & Hf & Hc)]; [congruence|]. pose proof (inv_writing _ Hinv) as Hi. rewrite Hw in Hi.
  destruct is_direct; cbn in Hf.
  - destruct Hi as (d & Hd & Hdf & _). rewrite Hd in Hf. cbn in Hf. congruence.
  - destruct Hi as (_ & Hn & _). congruence.
Qed.

Lemma inv_complete_direct sent items outcome w :
  writer_inv w → worker w = Writing items true → bounded w →
  writer_inv (worked (complete core sent true (length items) outcome (shared w))
    (Looping true) [mk_attempt true items outcome] w).
Proof.
  intros Hinv Hw Hbound. pose proof (writing_open _ _ _ Hinv Hw) as Hopen.
  pose proof (inv_writing _ Hinv) as Hi. rewrite Hw in Hi. destruct Hi as (d & Hd & Hdf & ->).
  unfold complete. rewrite Hd.
  pose proof (inv_direct _ Hinv) as Hadm. unfold direct_items in Hadm. rewrite Hd in Hadm.
  assert (Z.of_nat (length (acked false w) + S (length (acked true w))) ≤ U64_MAX) as Hsum.
  { unfold bounded in Hbound. rewrite (inv_batch _ Hinv), Hadm, !length_app in Hbound. cbn in Hbound. lia. }
  destruct (send_reply_fact d (match outcome with Ok _ => Ok DirectPersisted | Err f => Err f end)) as [Hone Hfor].
  destruct (reply_sent w d _ Hinv Hd (λ m a H, proj1 (Hfor m a H)) Hone) as [Hnd Hids].
  destruct outcome as [[]|f].
  - set (s' := with_persisted _ _ _). pose proof (event_same sent EventDirectPersisted s') as (Hq & Hd' & Hf' & Hr & Hp & Hdp & _).
    assert (lifecycle (event core sent EventDirectPersisted s') = lifecycle (shared w)) as Hlc by by rewrite event_lifecycle.
    split; rewrite ?acked_one; unfold queue_len, direct_items in *; cbn;
      rewrite ?Hq, ?Hd', ?Hf', ?Hr, ?Hp, ?Hdp, ?Hlc; cbn; rewrite ?app_nil_r; auto.
    + apply (inv_batch _ Hinv).
    + rewrite (inv_persisted _ Hinv), length_app. cbn. rewrite u64_add_exact; width.
    + rewrite (inv_direct_persisted _ Hinv), length_app. cbn. rewrite u64_add_exact; width.
    + apply (inv_capacity _ Hinv).
    + apply (inv_failed _ Hinv).
    + intros Hc. by rewrite (inv_created _ Hinv Hc) in Hw.
    + apply ended_replay; [done|done|by intros (? & ? & _)|].
      intros [] Hne; [done|]. intros [?|(f & Hf & ?)]; [congruence|]. right. exists f. split; [|done].
      cbn in *. by rewrite Hf'.
    + apply list.Forall_app. split; [apply (inv_sizes _ Hinv)|]. repeat constructor; [done|].
      cbn. pose proof Hsize. lia.
    + done.
    + intros n a [Hn|Hn]%elem_of_app; rewrite length_app; cbn.
      * apply (inv_reply_ok _ Hinv) in Hn. lia.
      * destruct (Hfor _ _ Hn) as [Hrep _]. destruct (inv_reply_open _ Hinv d n Hd Hrep) as [Hlast _].
        rewrite Hadm, length_app in Hlast. cbn in Hlast. lia.
  - set (s' := with_direct _ _). pose proof (event_same sent EventFailed s') as (Hq & Hd' & Hf' & Hr & Hp & Hdp & _).
    assert (lifecycle (event core sent EventFailed s') = lifecycle (shared w)) as Hlc by by rewrite event_lifecycle.
    split; rewrite ?acked_one; unfold queue_len, direct_items in *; cbn;
      rewrite ?Hq, ?Hd', ?Hf', ?Hr, ?Hp, ?Hdp, ?Hlc; cbn; rewrite ?app_nil_r; try apply Hinv; auto.
    + intros Hc. by rewrite (inv_created _ Hinv Hc) in Hw.
    + apply ended_replay; [done|done|..].
      * intros (f' & [= <-] & Hf). right. exists f. cbn. by rewrite Hd'.
      * intros [] Hne; [done|]. intros [?|(f' & Hf & ?)]; [congruence|]. right. exists f'. split; [|done].
        cbn in *. by rewrite Hf'.
    + apply list.Forall_app. split; [apply (inv_sizes _ Hinv)|]. repeat constructor; [done|].
      cbn. pose proof Hsize. lia.
    + by intros d' n [= <-].
    + intros n a [Hn|Hn]%elem_of_app; [by apply (inv_reply_ok _ Hinv) in Hn|].
      by apply Hfor in Hn as [_ [=]].
Qed.

Lemma inv_complete_batch sent items outcome w :
  writer_inv w → worker w = Writing items false → bounded w →
  writer_inv (worked (complete core sent false (length items) outcome (shared w))
    (Looping false) [mk_attempt false items outcome] w).
Proof.
  intros Hinv Hw Hbound. pose proof (writing_open _ _ _ Hinv Hw) as Hopen.
  pose proof (inv_writing _ Hinv) as Hi. rewrite Hw in Hi. destruct Hi as (Hne & Hfn & Hlen & rest & Hrest).
  pose proof (inv_capacity _ Hinv) as Hcap.
  assert (Forall (λ a, attempt_items a ≠ [] ∧ Z.of_nat (length (attempt_items a)) ≤ batch_size (config core))
    (attempts w ++ [mk_attempt false items outcome])) as Hsizes.
  { apply list.Forall_app. split; [apply (inv_sizes _ Hinv)|]. by repeat constructor. }
  assert (∀ s' phase, direct s' = direct (shared w) → ∀ lane, lane ≠ false → lane_blocked lane w →
    lane_blocked lane (mk_writer s' phase (cancelled w) (admitted w) (admitted_direct w)
      (attempts w ++ [mk_attempt false items outcome]) (replied w ++ []))) as Hother.
  { intros s' phase Hd [] Hl; [|done]. intros [?|(f' & Hf & ?)]; [congruence|]. right. exists f'.
    split; [|done]. cbn in *. by rewrite Hd. }
  unfold complete. destruct outcome as [[]|f].
  - rewrite Hrest, drop_app_length.
    assert (Z.of_nat (length (acked false w) + length items + length (acked true w)) ≤ U64_MAX) as Hsum.
    { unfold bounded in Hbound. rewrite (inv_batch _ Hinv), (inv_direct _ Hinv), Hrest, !length_app in Hbound. lia. }
    set (s' := with_persisted _ _ _). pose proof (event_same sent EventBatchPersisted s') as (Hq & Hd & Hf & Hr & Hp & Hdp & _).
    assert (lifecycle (event core sent EventBatchPersisted s') = lifecycle (shared w)) as Hlc by by rewrite event_lifecycle.
    split; rewrite ?acked_one; unfold queue_len, direct_items in *; cbn;
      rewrite ?Hq, ?Hd, ?Hf, ?Hr, ?Hp, ?Hdp, ?Hlc; cbn; rewrite ?app_nil_r; try apply Hinv; auto.
    + rewrite (inv_batch _ Hinv), Hrest. by rewrite <- app_assoc.
    + rewrite (inv_persisted _ Hinv), length_app. cbn. rewrite u64_add_exact; width.
    + rewrite Hrest, length_app in Hcap. lia.
    + done.
    + intros Hc. by rewrite (inv_created _ Hinv Hc) in Hw.
    + apply ended_replay; [done|done|by intros (? & ? & _)|by apply Hother].
  - set (s' := with_failure _ _ _). pose proof (event_same sent EventFailed s') as (Hq & Hd & Hf & Hr & Hp & Hdp & _).
    assert (lifecycle (event core sent EventFailed s') = lifecycle (shared w)) as Hlc by by rewrite event_lifecycle.
    split; rewrite ?acked_one; unfold queue_len, direct_items in *; cbn;
      rewrite ?Hq, ?Hd, ?Hf, ?Hr, ?Hp, ?Hdp, ?Hlc; cbn; rewrite ?app_nil_r; try apply Hinv; auto.
    + intros _. rewrite Hrest, length_app. destruct items; [done|]. cbn. lia.
    + intros Hc. by rewrite (inv_created _ Hinv Hc) in Hw.
    + apply ended_replay; [done|done| |by apply Hother].
      intros (f' & [= <-] & ?). right. exists f. cbn. by rewrite Hf.
Qed.

(** What the end of the worker does to the lanes. *)
Record lanes_ended (sent : list (nat * result (WriteFailure E) RecordAdmission))
    (s s' : State T E) : Prop := {
  ended_queue : queue s' = queue s;
  ended_persisted : persisted s' = persisted s;
  ended_direct_persisted : direct_persisted s' = direct_persisted s;
  ended_lifecycle : lifecycle s' = Stopped;
  ended_failure : failure s' = failure s ∧ failure_records s' = failure_records s ∨
    queue s ≠ [] ∧ failure_records s' = queue_len s;
  ended_direct : direct s' = direct s ∧ sent = [] ∨
    ∃ d d' f, direct s = Some d ∧ direct s' = Some d' ∧ direct_item d' = direct_item d ∧
      direct_reply d' = None ∧ sent = send_reply d (Err f);
}.

Definition ends (w : writer) (ended : list attempt) : Prop :=
  ended = [] ∨ ∃ a f, ended = [a] ∧ ¬ lane_blocked (attempt_direct a) w ∧
    attempt_outcome a = Err f ∧ attempt_items a ≠ [] ∧
    Z.of_nat (length (attempt_items a)) ≤ batch_size (config core).

Lemma ends_acked lane r phase ended w :
  ends w ended → acked lane (worked r phase ended w) = acked lane w.
Proof.
  intros [->|(a & f & -> & _ & Ho & _)].
  - rewrite acked_worked. unfold lane_attempts. by rewrite list.filter_nil, app_nil_r.
  - rewrite acked_one. unfold acked_by. rewrite Ho. destruct (Bool.eqb _ _); by rewrite app_nil_r.
Qed.

Lemma inv_exited sent s' ended w :
  writer_inv w → ends w ended → lanes_ended sent (shared w) s' →
  writer_inv (worked (sent, s') Exited ended w).
Proof.
  intros Hinv Hends []. 
  assert (NoDup (fst <$> replied w ++ sent) ∧
    (∀ n, n ∈ fst <$> replied w ++ sent → (n < length (admitted_direct w))%nat) ∧
    direct_items s' = direct_items (shared w) ∧
    (∀ d n, direct s' = Some d → direct_reply d = Some n →
      S n = length (admitted_direct w) ∧ n ∉ fst <$> replied w ++ sent) ∧
    (∀ n a, (n, Ok a) ∈ sent → False)) as (Hnd & Hids & Hitems & Hopen & Herr).
  { unfold direct_items. destruct ended_direct0 as [[-> ->]|(d & d' & f & Hd & -> & Hit & Hr & ->)].
    - rewrite app_nil_r. split; [apply (inv_replies _ Hinv)|]. split; [apply (inv_reply_ids _ Hinv)|].
      split; [done|]. split; [apply (inv_reply_open _ Hinv)|]. intros n a Hn. by apply elem_of_nil in Hn.
    - destruct (send_reply_fact d (Err f)) as [Hone Hfor].
      destruct (reply_sent w d _ Hinv Hd (λ m a H, proj1 (Hfor m a H)) Hone) as [? ?].
      split; [done|]. split; [done|]. rewrite Hd, Hit. split; [done|].
      split; [by intros ? n [= <-] Hn; rewrite Hr in Hn|]. intros n a Hn. by apply Hfor in Hn as [_ [=]]. }
  split; rewrite ?ends_acked by done; unfold queue_len in *; cbn;
    rewrite ?ended_queue0, ?ended_persisted0, ?ended_direct_persisted0, ?ended_lifecycle0, ?Hitems;
    try apply Hinv; auto; try done.
  - destruct ended_failure0 as [[-> ->]|[Hq ->]]; [apply (inv_failed _ Hinv)|].
    intros _. destruct (queue (shared w)); [done|]. cbn. lia.
  - intros lane l1 a l2 Ha Hm. split; [|by left]. destruct Hends as [->|(b & f & -> & Hb & _)].
    + rewrite app_nil_r in Ha. by eapply (inv_replay _ Hinv).
    + destruct (decide (lane = attempt_direct b)) as [->|Hne].
      * eapply replay_snoc in Ha as [-> _]; [done|by apply unblocked_calls|done].
      * rewrite lane_attempts_snoc, decide_False, app_nil_r in Ha by congruence.
        by eapply (inv_replay _ Hinv).
  - destruct Hends as [->|(b & f & -> & _ & _ & Hs)]; [rewrite app_nil_r; apply (inv_sizes _ Hinv)|].
    apply list.Forall_app. split; [apply (inv_sizes _ Hinv)|]. constructor; [done|constructor].
  - intros n a [Hn|Hn]%elem_of_app; [by eapply (inv_reply_ok _ Hinv)|]. by apply Herr in Hn.
Qed.

Lemma finish_ended sent (s : State T E) : lanes_ended (finish core sent s).1 s (finish core sent s).2.
Proof.
  assert (∀ s1 r, queue s1 = queue s → persisted s1 = persisted s → direct_persisted s1 = direct_persisted s →
    failure s1 = failure s → failure_records s1 = failure_records s →
    (direct s1 = direct s ∧ r = [] ∨ ∃ d d' f, direct s = Some d ∧ direct s1 = Some d' ∧
      direct_item d' = direct_item d ∧ direct_reply d' = None ∧ r = send_reply d (Err f)) →
    lanes_ended r s (event core sent EventStopped (with_lifecycle Stopped s1))) as Hend.
  { intros s1 r ? ? ? ? ? Hd.
    destruct (event_same sent EventStopped (with_lifecycle Stopped s1)) as (? & Hd' & ? & ? & ? & ? & _).
    split; cbn in *; try congruence; [by rewrite event_lifecycle|left; split; congruence|].
    destruct Hd as [[]|(d & d' & f & ? & ? & ?)]; [left; split; congruence|].
    right. exists d, d', f. split; [done|]. split; [congruence|done]. }
  unfold finish. destruct (direct s) as [d|] eqn:Hd.
  - case_decide as Hf; cbn; apply Hend; cbn; auto.
    right. eexists d, _, _. split; [done|]. split; [reflexivity|]. by cbn.
  - cbn. apply Hend; auto.
Qed.

Lemma fail_worker_ended sent cause (s : State T E) :
  lanes_ended (fail_worker core sent cause s).1 s (fail_worker core sent cause s).2.
Proof.
  unfold fail_worker. set (f := mk_WriteFailure UnknownCommit cause).
  set (s1 := if bool_decide (queue s ≠ []) && _ then _ else s).
  assert (queue s1 = queue s ∧ persisted s1 = persisted s ∧ direct_persisted s1 = direct_persisted s ∧
    direct s1 = direct s ∧ (failure s1 = failure s ∧ failure_records s1 = failure_records s ∨
    queue s ≠ [] ∧ failure_records s1 = queue_len s)) as (Hq & Hp & Hdp & Hd & Hf).
  { unfold s1. destruct (bool_decide (queue s ≠ [])) eqn:Hn; cbn; [|by auto 10].
    apply bool_decide_eq_true in Hn. destruct (bool_decide (failure s = None)); cbn; auto 10. }
  clearbody s1. destruct (direct s1) as [d|] eqn:Hd1; cbn.
  - set (s2 := with_direct _ s1).
    destruct (event_same sent EventFailed s2) as (Hq2 & Hd2 & Hf2 & Hr2 & Hp2 & Hdp2 & _).
    destruct (finish_ended sent (event core sent EventFailed s2)) as [F1 F2 F3 F4 F5 F6].
    destruct (finish core sent (event core sent EventFailed s2)) as [r s3] eqn:Hfin. cbn in *.
    assert (direct s3 = direct s2 ∧ r = []) as [Hd3 ->].
    { unfold finish in Hfin. rewrite Hd2 in Hfin. cbn in Hfin. injection Hfin as <- <-.
      destruct (event_same sent EventStopped (with_lifecycle Stopped (event core sent EventFailed s2)))
        as (_ & Hds & _). cbn in *. split; [|done]. by rewrite Hds, Hd2. }
    rewrite app_nil_r. unfold queue_len in *. split; try congruence.
    + destruct F5 as [[X1 X2]|[X1 X2]]; [rewrite Hf2 in X1; rewrite Hr2 in X2|right; rewrite Hq2, Hq in X1, X2; done].
      rewrite X1, X2. exact Hf.
    + right. exists d, (block_direct f d).2, f. rewrite <- Hd. by rewrite Hd3.
  - destruct (event_same sent EventFailed s1) as (Hq2 & Hd2 & Hf2 & Hr2 & Hp2 & Hdp2 & _).
    destruct (finish_ended sent (event core sent EventFailed s1)) as [F1 F2 F3 F4 F5 F6].
    destruct (finish core sent (event core sent EventFailed s1)) as [r s3] eqn:Hfin. cbn in *.
    unfold queue_len in *. split; try congruence.
    + destruct F5 as [[X1 X2]|[X1 X2]]; [rewrite Hf2 in X1; rewrite Hr2 in X2|right; rewrite Hq2, Hq in X1, X2; done].
      rewrite X1, X2. exact Hf.
    + destruct F6 as [[? ->]|(d & _ & _ & Hds & _)]; [left; split; congruence|congruence].
Qed.

(** *** Retries *)
(** A retry touches the failures of the lanes only, and only retryable ones. *)
Lemma retry_lanes (s : State T E) :
  let s' := retry_failed s in
  queue s' = queue s ∧ persisted s' = persisted s ∧ direct_persisted s' = direct_persisted s ∧
  lifecycle s' = lifecycle s ∧
  (failure s' = failure s ∧ failure_records s' = failure_records s ∨
   failure s' = None ∧ is_retryable (failure s) = true) ∧
  (direct s' = direct s ∨ ∃ d, direct s = Some d ∧ is_retryable (direct_failure d) = true ∧
     direct s' = Some (mk_Direct (direct_item d) (direct_reply d) None)).
Proof.
  unfold retry_failed. case_decide; [by auto 10|].
  set (s1 := if is_retryable (failure s) then _ else s).
  assert (queue s1 = queue s ∧ persisted s1 = persisted s ∧ direct_persisted s1 = direct_persisted s ∧
    lifecycle s1 = lifecycle s ∧ direct s1 = direct s ∧
    (failure s1 = failure s ∧ failure_records s1 = failure_records s ∨
     failure s1 = None ∧ is_retryable (failure s) = true)) as (Hq & Hp & Hdp & Hl & Hd & Hf).
  { unfold s1. destruct (is_retryable (failure s)); cbn; auto 10. }
  clearbody s1. cbv zeta. destruct (direct s1) as [d|] eqn:Hd1.
  - destruct (is_retryable (direct_failure d)) eqn:Hr; cbn; rewrite ?Hd1, <- ?Hd; repeat split; eauto 10.
  - rewrite Hd1. repeat split; auto.
Qed.

Lemma retryable_class f : is_retryable (E := E) (Some f) = true → failure_class f = Retryable.
Proof. cbn. apply bool_decide_eq_true. Qed.

Lemma inv_retry w : writer_inv w → writer_inv (with_shared (retry_failed (shared w)) w).
Proof.
  intros [].
  destruct (retry_lanes (shared w)) as (Hq & Hp & Hdp & Hl & Hf & Hd). cbv zeta in *.
  set (s' := retry_failed (shared w)) in *. clearbody s'.
  assert (direct_items s' = direct_items (shared w)) as Hitems.
  { unfold direct_items. destruct Hd as [->|(d & -> & _ & ->)]; done. }
  split; unfold acked, queue_len in *; cbn; rewrite ?Hq, ?Hp, ?Hdp, ?Hl, ?Hitems; auto.
  - intros Hn. destruct Hf as [[Hf Hr]|[Hf _]]; [|done]. rewrite Hr. apply inv_failed0. by rewrite <- Hf.
  - destruct (worker w) as [| |items []|]; try done.
    + destruct inv_writing0 as (d & Hw & Hdf & ->). exists d.
      destruct Hd as [->|(d' & Hd' & Hr & _)]; [done|]. rewrite Hw in Hd'. injection Hd' as <-.
      by rewrite Hdf in Hr.
    + destruct inv_writing0 as (? & Hn & ? & ?). repeat split; [done| |done|done].
      destruct Hf as [[Hf _]|[Hf _]]; congruence.
  - intros lane l1 a l2 Ha Hm. destruct (inv_replay0 _ _ _ _ Ha Hm) as [-> Hb].
    split; [done|]. destruct Hb as [?|(f & Hb & Hc)]; [by left|]. right. exists f. split; [|done].
    destruct lane; cbn in *.
    + destruct Hd as [->|(d & Hd & Hr & _)]; [done|]. rewrite Hd in Hb. cbn in Hb. rewrite Hb in Hr.
      by apply retryable_class in Hr.
    + destruct Hf as [[-> _]|[_ Hr]]; [done|]. rewrite Hb in Hr. by apply retryable_class in Hr.
  - intros d n Hdn Hrep. destruct Hd as [Hd|(d' & Hd' & _ & Hd)]; rewrite Hd in Hdn; [eauto|].
    injection Hdn as <-. eauto.
Qed.

(** *** Every reachable writer *)
Lemma writer_step_inv w w' : writer_step w w' → bounded w → writer_inv w → writer_inv w'.
Proof.
  intros [w0 Hs|sent now item w0|w0|now deadline targets w0|w0|w0|now prefer items is_direct w0 Hw _ Hsel
    |sent items is_direct outcome w0 Hw|sent prefer w0 Hw _|sent cause w0 Hn He|w0 Hw] Hb Hinv.
  - unfold start in *. case_decide as Hl; [done|]. cbn.
    pose proof (inv_created _ Hinv Hl) as Hw.
    apply (inv_phase (with_shared (with_lifecycle Running (shared w0)) w0)); [|by cbn; rewrite Hw|done|done].
    by apply inv_frame.
  - by apply inv_record.
  - apply inv_frame; [|done]. unfold begin_drain. by case_decide.
  - apply inv_frame; [apply flush_round_same|done].
  - by apply inv_retry.
  - destruct Hinv. by split.
  - by eapply select_work_inv.
  - destruct is_direct; [by apply inv_complete_direct|by apply inv_complete_batch].
  - rewrite (surjective_pairing (finish _ _ _)). apply inv_exited; [done|by left|apply finish_ended].
  - rewrite (surjective_pairing (fail_worker _ _ _ _)). apply inv_exited; [done| |apply fail_worker_ended].
    destruct (worker w0) as [|?|items is_direct|] eqn:Hw; try done; [by left|].
    right. eexists _, _. split; [reflexivity|]. cbn. split; [by eapply writing_open|].
    split; [done|]. pose proof (inv_writing _ Hinv) as Hi. rewrite Hw in Hi. destruct is_direct.
    + destruct Hi as (d & _ & _ & ->). cbn. split; [done|]. pose proof Hsize. lia.
    + by destruct Hi as (? & _ & ? & _).
  - by apply inv_frame.
Qed.

Lemma writer_step_admits w w' :
  writer_step w w' →
  (∃ l, admitted w' = admitted w ++ l) ∧ (∃ l, admitted_direct w' = admitted_direct w ++ l).
Proof.
  intros []; cbn; try (split; exists []; by rewrite app_nil_r).
  unfold recorded. destruct (record _ _ _ _ _ _) as [[[]|] s]; cbn;
    split; first [by eexists|exists []; by rewrite app_nil_r].
Qed.

Lemma writer_steps_admits w w' :
  rtc writer_step w w' →
  (∃ l, admitted w' = admitted w ++ l) ∧ (∃ l, admitted_direct w' = admitted_direct w ++ l).
Proof.
  induction 1 as [w|w w1 w' Hs _ [[l Hl] [d Hd]]]; [split; exists []; by rewrite app_nil_r|].
  destruct (writer_step_admits _ _ Hs) as [[l0 Hl0] [d0 Hd0]].
  split; eexists; rewrite ?Hl, ?Hd, ?Hl0, ?Hd0; by rewrite <- app_assoc.
Qed.

Lemma bounded_before w w' : rtc writer_step w w' → bounded w' → bounded w.
Proof.
  intros [[l Hl] [d Hd]]%writer_steps_admits. unfold bounded. rewrite Hl, Hd, !length_app. lia.
Qed.

Lemma writer_reachable_inv w : writer_reachable w → bounded w → writer_inv w.
Proof.
  unfold writer_reachable. intros Hr. revert w Hr.
  refine (rtc_ind_r _ _ _ _); [intros _; apply inv_new|].
  intros w w' Hr Hs IH Hb. eapply writer_step_inv; [done|..];
    [|apply IH]; eapply bounded_before; eauto using rtc_once.
Qed.

(** ** Flushing *)
(** Without overflow the counters are the lengths of the ghost lists. *)
Lemma batch_persisted_exact w :
  writer_inv w → bounded w → batch_persisted (shared w) = Z.of_nat (length (acked false w)).
Proof.
  intros Hinv Hb. unfold batch_persisted. unfold bounded in Hb.
  rewrite (inv_batch _ Hinv), (inv_direct _ Hinv), !length_app in Hb.
  rewrite u64_sub_exact; rewrite ?(inv_persisted _ Hinv), ?(inv_direct_persisted _ Hinv); width.
Qed.

Lemma flush_targets_exact w targets :
  writer_inv w → bounded w → flush_targets (shared w) = Ok targets →
  targets = (Z.of_nat (length (admitted w)), Z.of_nat (length (admitted_direct w))).
Proof.
  intros Hinv Hb. unfold flush_targets, batch_watermark. case_decide; [done|]. intros [= <-].
  rewrite (batch_persisted_exact w), (inv_direct_persisted _ Hinv) by done.
  unfold bounded in Hb. pose proof (inv_batch _ Hinv) as Ha. pose proof (inv_direct _ Hinv) as Hd.
  assert (Z.of_nat (length (direct_items (shared w))) = if decide (direct (shared w) = None) then 0 else 1) as Hone.
  { unfold direct_items. destruct (direct (shared w)); by case_decide. }
  rewrite <- Hone. rewrite Ha, Hd, !length_app in *. unfold queue_len.
  rewrite !u64_add_exact; f_equal; width.
Qed.

(** The records of the lanes that a flush has in scope are acknowledged. *)
Definition in_scope_acked (w w' : writer) : Prop :=
  admitted w `prefix_of` acked false w' ∧ admitted_direct w `prefix_of` acked true w'.

Lemma prefix_by_length (a l k : list T) (x : list T) :
  a ++ x = l ++ k → a `prefix_of` l ↔ (length a ≤ length l)%nat.
Proof.
  intros Heq. split; [apply prefix_length|]. intros Hle.
  exists (drop (length a) l). rewrite <- (take_drop (length a) l) at 1. f_equal.
  rewrite <- (take_app_le l k) by done. rewrite <- Heq. by rewrite take_app_length.
Qed.

Lemma in_scope_acked_spec w w' :
  writer_inv w' → rtc writer_step w w' →
  in_scope_acked w w' ↔
  (length (admitted w) ≤ length (acked false w'))%nat ∧
  (length (admitted_direct w) ≤ length (acked true w'))%nat.
Proof.
  intros Hinv [[l Hl] [d Hd]]%writer_steps_admits. unfold in_scope_acked.
  rewrite (prefix_by_length _ _ (queue (shared w')) l) by (rewrite <- Hl; apply (inv_batch _ Hinv)).
  rewrite (prefix_by_length _ _ (direct_items (shared w')) d) by (rewrite <- Hd; apply (inv_direct _ Hinv)).
  done.
Qed.

Lemma flush_round_ok now deadline targets (s : State T E) :
  (flush_round now deadline targets s).1 = Some (Ok tt) ↔
  targets.1 ≤ batch_persisted s ∧ targets.2 ≤ direct_persisted s.
Proof.
  unfold flush_round. destruct (bool_decide (batch_persisted s < targets.1)) eqn:Hb;
    destruct (bool_decide (direct_persisted s < targets.2)) eqn:Hd; cbn [negb andb];
    try apply bool_decide_eq_true in Hb; try apply bool_decide_eq_true in Hd;
    try apply bool_decide_eq_false in Hb; try apply bool_decide_eq_false in Hd.
  1-3: split; [|lia]; destruct (if _ || _ then None else _); [done|]; by repeat case_decide.
  split; [lia|done].
Qed.

(** The errors of a flush name what keeps its scope unacknowledged. *)
Lemma flush_round_err now deadline targets (s : State T E) e :
  (flush_round now deadline targets s).1 = Some (Err e) →
  match e with
  | FlushNotStarted => False
  | FlushStopped => lifecycle s = Stopped
  | FlushWrite f =>
      (batch_persisted s < targets.1 ∧ lane_failure false s = Some f) ∨
      (direct_persisted s < targets.2 ∧ lane_failure true s = Some f)
  | FlushDeadline => deadline ≤ now
  end.
Proof.
  unfold flush_round. destruct (negb _ && negb _); [done|].
  destruct (if _ || _ then None else _) as [f|] eqn:Hf.
  - cbn. intros [= <-]. destruct (_ || _); [done|]. unfold scope_failure in Hf.
    destruct (bool_decide (batch_persisted s < targets.1)) eqn:Hb.
    + apply bool_decide_eq_true in Hb. destruct (failure s) as [f'|] eqn:Hfs; [left; naive_solver|].
      destruct (bool_decide (direct_persisted s < targets.2)) eqn:Hd; [|done].
      apply bool_decide_eq_true in Hd. by right.
    + destruct (bool_decide (direct_persisted s < targets.2)) eqn:Hd; [|done].
      apply bool_decide_eq_true in Hd. by right.
  - destruct (decide (lifecycle s = Stopped)); [by intros [= <-]|].
    destruct (decide (deadline ≤ now)); [by intros [= <-]|done].
Qed.

(** *** An undisturbed worker *)
(** One turn of the worker with a sink that succeeds and nobody else around. *)
Definition worker_turn (sent : BufferedWriterEvent → bool) (now : Z) (w : writer) : writer :=
  match worker w with
  | Looping prefer =>
      match select_work core instant_max now prefer (shared w) with
      | Some (items, is_direct) =>
          let w := worked ([], shared w) (Writing items is_direct) [] w in
          worked (complete core sent is_direct (length items) (Ok tt) (shared w))
            (Looping is_direct) [mk_attempt is_direct items (Ok tt)] w
      | None => w
      end
  | _ => w
  end.

(** The worker waits for work, a flush of the first [scope] records is stored,
    and no lane has failed. *)
Definition flushing (scope : nat) (w : writer) : Prop :=
  (∃ prefer, worker w = Looping prefer) ∧ cancelled w = false ∧
  failure (shared w) = None ∧ lane_failure true (shared w) = None ∧
  ((0 < scope)%nat → Z.of_nat scope ≤ flush_through (shared w)) ∧ (scope ≤ length (admitted w))%nat.

Definition outstanding (w : writer) : nat :=
  length (queue (shared w)) + length (direct_items (shared w)).

Definition scope_done (scope : nat) (w : writer) : Prop :=
  (scope ≤ length (acked false w))%nat ∧ direct_items (shared w) = [].

Lemma scope_done_empty scope w :
  writer_inv w → flushing scope w → outstanding w = 0%nat → scope_done scope w.
Proof.
  intros Hinv (_ & _ & _ & _ & _ & Hle) Ho. unfold outstanding in Ho.
  rewrite (inv_batch _ Hinv), length_app in Hle.
  split; [lia|]. by apply nil_length_inv; lia.
Qed.

(** A worker that finds no work has finished the scope. *)
Lemma flushing_idle scope now prefer w :
  writer_inv w → bounded w → flushing scope w →
  select_work core instant_max now prefer (shared w) = None → scope_done scope w.
Proof.
  intros Hinv Hb (_ & _ & Hf & Hd & Hthrough & Hle) Hs. unfold select_work in Hs. cbn in Hd.
  destruct (batch_ready core instant_max now (shared w)) eqn:Hready.
  { destruct (direct (shared w)); [|done]. by destruct (_ && _) in Hs. }
  assert (direct (shared w) = None) as Hnone.
  { destruct (direct (shared w)) as [d|]; [|done]. cbn in Hd.
    rewrite Hd, (bool_decide_eq_true_2 (None = None)), andb_false_r in Hs by done. done. }
  split; [|unfold direct_items; by rewrite Hnone].
  rewrite (inv_batch _ Hinv), length_app in Hle.
  unfold batch_ready in Hready. rewrite (bool_decide_eq_true_2 (failure _ = None)) in Hready by done.
  destruct (bool_decide (queue (shared w) ≠ [])) eqn:Hq.
  - destruct (bool_decide (batch_persisted _ < _)) eqn:Hp; [done|]. apply bool_decide_eq_false in Hp.
    rewrite batch_persisted_exact in Hp by done. lia.
  - apply bool_decide_eq_false, dec_stable in Hq. rewrite Hq in Hle. cbn in Hle. lia.
Qed.

Lemma worker_turn_steps sent now w :
  cancelled w = false → rtc writer_step w (worker_turn sent now w).
Proof.
  intros Hc. unfold worker_turn. destruct (worker w) as [|prefer| |] eqn:Hw; try done.
  destruct (select_work _ _ _ _ _) as [[items is_direct]|] eqn:Hs; [|done].
  eapply rtc_l; [by eapply step_select|]. by apply rtc_once, step_complete.
Qed.

Lemma worker_turns_steps sent now n w :
  cancelled w = false →
  rtc writer_step w (Nat.iter n (worker_turn sent now) w) ∧
  cancelled (Nat.iter n (worker_turn sent now) w) = false.
Proof.
  intros Hc. induction n as [|n [IH Hcn]]; [done|]. rewrite Nat.iter_succ. split.
  - eapply rtc_trans; [exact IH|]. by apply worker_turn_steps.
  - unfold worker_turn at 1. destruct (worker _); try done.
    by destruct (select_work _ _ _ _ _) as [[]|].
Qed.

Lemma worker_turns_bounded sent now n w :
  bounded w → bounded (Nat.iter n (worker_turn sent now) w).
Proof.
  intros Hb. induction n as [|n IH]; [done|]. rewrite Nat.iter_succ.
  unfold worker_turn at 1. destruct (worker _); try done.
  by destruct (select_work _ _ _ _ _) as [[]|].
Qed.

(** Acknowledgements are never withdrawn. *)
Lemma writer_steps_acks lane w w' : rtc writer_step w w' → acked lane w `prefix_of` acked lane w'.
Proof.
  induction 1 as [w|w w1 w' Hs _ IH]; [done|]. etrans; [|exact IH].
  destruct Hs; rewrite ?acked_worked; try done; try by apply prefix_app_r.
  unfold recorded. by destruct (record _ _ _ _ _ _) as [[[]|] s].
Qed.

Lemma complete_ok sent items is_direct w :
  writer_inv w → worker w = Writing items is_direct →
  let s := (complete core sent is_direct (length items) (Ok tt) (shared w)).2 in
  failure s = failure (shared w) ∧
  (lane_failure true (shared w) = None → lane_failure true s = None) ∧
  flush_through s = flush_through (shared w) ∧
  (length (queue s) + length (direct_items s) < outstanding w)%nat.
Proof.
  intros Hinv Hw. pose proof (inv_writing _ Hinv) as Hi. rewrite Hw in Hi.
  assert (∀ ev s0, flush_through (event core sent ev s0) = flush_through (T := T) (E := E) s0) as Hthrough
    by (intros; unfold event; by destruct (observed core && _)).
  unfold complete, outstanding. cbv zeta. destruct is_direct.
  - destruct Hi as (d & Hd & Hdf & ->). rewrite Hd. cbn. rewrite Hthrough.
    destruct (event_same sent EventDirectPersisted (with_persisted (u64_add (persisted (shared w)) 1)
      (u64_add (direct_persisted (shared w)) 1) (with_direct None (shared w)))) as (-> & Hd' & -> & _).
    unfold direct_items. rewrite Hd', Hd. cbn. repeat split. lia.
  - destruct Hi as (Hne & _ & _ & rest & Hrest). cbn. rewrite Hthrough, Hrest, drop_app_length.
    destruct (event_same sent EventBatchPersisted (with_persisted
      (u64_add (persisted (shared w)) (Z.of_nat (length items))) (direct_persisted (shared w))
      (with_queue rest (if decide (rest = []) then None else oldest (shared w)) (shared w))))
      as (-> & Hd' & -> & _).
    unfold direct_items. rewrite Hd'. cbn. repeat split; [done|]. rewrite length_app.
    destruct items; [done|]. cbn. lia.
Qed.

Lemma worker_turn_flushing scope sent now prefer w :
  writer_inv w → bounded w → flushing scope w → worker w = Looping prefer →
  select_work core instant_max now prefer (shared w) ≠ None →
  writer_inv (worker_turn sent now w) ∧ flushing scope (worker_turn sent now w) ∧
  (outstanding (worker_turn sent now w) < outstanding w)%nat ∧
  admitted (worker_turn sent now w) = admitted w ∧
  admitted_direct (worker_turn sent now w) = admitted_direct w.
Proof.
  intros Hinv Hb (_ & Hc & Hf & Hd & Hthrough & Hle) Hw Hs.
  destruct (select_work core instant_max now prefer (shared w)) as [[items is_direct]|] eqn:Hsel; [|done].
  unfold worker_turn. rewrite Hw, Hsel.
  pose proof (select_work_inv _ _ _ _ _ Hinv Hw Hsel) as Hinv1.
  set (w1 := worked _ _ _ w) in *.
  destruct (complete_ok sent items is_direct w1 Hinv1 eq_refl) as (Hcf & Hcd & Hct & Hco).
  split; [|split; [|split; [|done]]].
  - destruct is_direct; [by apply inv_complete_direct|by apply inv_complete_batch].
  - split; [by eexists|]. split; [done|]. cbn [shared worked admitted].
    change (shared w1) with (shared w) in *. rewrite Hcf, Hct. split; [done|]. split; [by apply Hcd|done].
  - done.
Qed.

Lemma worker_turns_drain scope sent now n w :
  writer_inv w → bounded w → flushing scope w → (outstanding w ≤ n)%nat →
  let w' := Nat.iter n (worker_turn sent now) w in
  writer_inv w' ∧ scope_done scope w' ∧ admitted w' = admitted w ∧
  admitted_direct w' = admitted_direct w.
Proof.
  revert w. induction n as [|n IH]; intros w Hinv Hb Hfl Hn; cbv zeta.
  { cbn. split; [done|]. split; [apply scope_done_empty; [done..|lia]|done]. }
  rewrite Nat.iter_succ_r. pose proof Hfl as ([prefer Hw] & _).
  destruct (select_work core instant_max now prefer (shared w)) as [work|] eqn:Hsel.
  - destruct (worker_turn_flushing scope sent now prefer w) as (Hinv1 & Hfl1 & Hlt & Ha & Hd);
      [done..|by rewrite Hsel|].
    assert (bounded (worker_turn sent now w)) as Hb1 by (unfold bounded in *; by rewrite Ha, Hd).
    destruct (IH (worker_turn sent now w) Hinv1 Hb1 Hfl1) as (Hi & Hz' & Ha' & Hd'); [lia|].
    split; [done|]. split; [done|]. split; congruence.
  - assert (worker_turn sent now w = w) as Hstay by (unfold worker_turn; by rewrite Hw, Hsel).
    assert (∀ m, Nat.iter m (worker_turn sent now) w = w) as Hiter.
    { intros m. induction m as [|m IHm]; [done|]. by rewrite Nat.iter_succ, IHm. }
    rewrite Hstay, Hiter. split; [done|]. split; [by eapply flushing_idle|done].
Qed.
End system.

(** The core of a writer: [new] keeps both capacities at least one. *)
Definition managed (c : BufferedBatchConfig) (policy : OverflowPolicy) (observed : bool) : Core :=
  mk_Core (ManagedBatchWriter_config c) policy observed.

Lemma managed_capacity c policy observed : 1 ≤ queue_capacity (config (managed c policy observed)).
Proof. cbn. lia. Qed.

Lemma managed_size c policy observed : 1 ≤ batch_size (config (managed c policy observed)).
Proof. cbn. lia. Qed.

Section contract.
Context {T E : Type} (c : BufferedBatchConfig) (policy : OverflowPolicy) (observed : bool).
Context (instant_max : Z).

Abbreviation core := (managed c policy observed).
Abbreviation step := (writer_step (T := T) (E := E) core instant_max).

Lemma managed_reachable_inv (w : writer (T := T) (E := E)) :
  writer_reachable core instant_max w → bounded w → writer_inv core w.
Proof.
  apply writer_reachable_inv; [apply managed_capacity|apply managed_size].
Qed.

(** A lane with a call that may have committed is not being written. *)
Lemma blocked_not_writing is_direct items (w : writer (T := T) (E := E)) :
  writer_inv core w → lane_blocked is_direct w → worker w ≠ Writing items is_direct.
Proof.
  intros Hinv Hb Hw. pose proof (inv_writing _ _ Hinv) as Hi. rewrite Hw in Hi.
  destruct Hb as [Hb|(f & Hb & _)]; [congruence|]. destruct is_direct; cbn in Hb.
  - destruct Hi as (d & Hd & Hdf & _). rewrite Hd in Hb. cbn in Hb. congruence.
  - destruct Hi as (_ & Hf & _). congruence.
Qed.

(** A flush at a bounded state: its scope is what was admitted at its capture,
    and it is over exactly when that scope is acknowledged. *)
Lemma flush_answers now deadline targets (w w' : writer (T := T) (E := E)) :
  writer_reachable core instant_max w → flush_targets (shared w) = Ok targets →
  rtc step w w' → bounded w' →
  (flush_round now deadline targets (shared w')).1 = Some (Ok tt) ↔ in_scope_acked w w'.
Proof.
  intros Hr Ht Hs Hb.
  assert (bounded w) as Hb0 by (by eapply bounded_before).
  assert (writer_inv core w) as Hinv by (by apply managed_reachable_inv).
  assert (writer_inv core w') as Hinv'
    by (apply managed_reachable_inv; [by eapply rtc_trans|done]).
  rewrite flush_round_ok, (in_scope_acked_spec core instant_max) by done.
  rewrite (flush_targets_exact core w targets) by done. cbn [fst snd].
  rewrite (batch_persisted_exact core w'), (inv_direct_persisted _ _ Hinv') by done. lia.
Qed.

(** A flush that waits has stored its scope. *)
Lemma flush_waits now deadline (direct_through : Z) (scope : nat) (w : writer (T := T) (E := E)) :
  writer_inv core w → bounded w →
  (∃ prefer, worker w = Looping prefer) → cancelled w = false →
  (∀ lane, lane_failure lane (shared w) = None) → lifecycle (shared w) ≠ Stopped →
  now < deadline → (length (acked false w) < scope ≤ length (admitted w))%nat →
  flushing scope
    (with_shared (flush_round now deadline (Z.of_nat scope, direct_through) (shared w)).2 w).
Proof.
  intros Hinv Hb Hw Hc Hf Hl Hnow Hscope.
  pose proof (flush_round_same now deadline (Z.of_nat scope, direct_through) (shared w)) as Hsame.
  split; [done|]. split; [done|].
  split; [rewrite <- (Hf false); by apply (lane_failure_same false)|].
  split; [rewrite <- (Hf true); by apply (lane_failure_same true)|]. split; [intros _|cbn; lia].
  unfold flush_round. cbn [shared with_shared fst snd]. rewrite (batch_persisted_exact core w) by done.
  rewrite (bool_decide_eq_true_2 (_ < Z.of_nat scope)) by lia.
  rewrite (bool_decide_eq_true_2 (failure _ = None)) by (by rewrite <- (Hf false)).
  cbn [negb andb orb]. rewrite decide_False by done. rewrite decide_False by lia. cbn. lia.
Qed.

(** A flush with no lane failed and time left waits; the turns of an
    undisturbed worker then acknowledge its scope. *)
Lemma flush_delivers now deadline targets sent later n (w w' : writer (T := T) (E := E)) :
  writer_reachable core instant_max w → flush_targets (shared w) = Ok targets →
  rtc step w w' → bounded w' →
  (∃ prefer, worker w' = Looping prefer) → cancelled w' = false →
  (∀ lane, lane_failure lane (shared w') = None) → lifecycle (shared w') ≠ Stopped →
  now < deadline → (outstanding w' ≤ n)%nat →
  in_scope_acked w (Nat.iter n (worker_turn core instant_max sent later)
    (with_shared (flush_round now deadline targets (shared w')).2 w')).
Proof.
  intros Hr Ht Hs Hb Hw Hc Hf Hl Hnow Hn.
  assert (bounded w) as Hb0 by (by eapply bounded_before).
  assert (writer_inv core w) as Hinv by (by apply managed_reachable_inv).
  assert (writer_inv core w') as Hinv' by (apply managed_reachable_inv; [by eapply rtc_trans|done]).
  destruct (writer_steps_admits core instant_max _ _ Hs) as [[l Hadm] [d Hadmd]].
  rewrite (flush_targets_exact core w targets) by done.
  set (pair := (_, _)). set (w1 := with_shared _ w').
  pose proof (flush_round_same now deadline pair (shared w')) as Hsame.
  pose proof (inv_frame core w' _ Hsame Hinv') as Hinv1. fold w1 in Hinv1.
  assert (rtc step w w1) as Hs1 by (eapply rtc_trans; [done|]; by apply rtc_once, step_flush).
  assert (outstanding w1 = outstanding w') as Hout.
  { unfold outstanding, direct_items, w1. cbn. destruct Hsame as (Hq & Hd & _). by rewrite Hq, Hd. }
  destruct (worker_turns_steps core instant_max sent later n w1 Hc) as [Hs2 _].
  set (scope := if decide (length (acked false w') < length (admitted w))%nat
                then length (admitted w) else 0%nat).
  assert (flushing scope w1) as Hfl.
  { unfold scope. case_decide.
    - apply flush_waits; try done. rewrite Hadm, length_app. lia.
    - split; [done|]. split; [done|].
      split; [rewrite <- (Hf false); by apply (lane_failure_same false)|].
      split; [rewrite <- (Hf true); by apply (lane_failure_same true)|]. split; lia. }
  destruct (worker_turns_drain core instant_max (managed_capacity _ _ _) (managed_size _ _ _)
    scope sent later n w1) as (Hinv2 & [Hdone Hdir] & _ & Had); [done..|lia|].
  apply (in_scope_acked_spec core instant_max); [done|by eapply rtc_trans|]. split.
  - unfold scope in Hdone. case_decide; [done|].
    pose proof (prefix_length _ _ (writer_steps_acks core instant_max false _ _ Hs2)) as Hle.
    change (acked false w1) with (acked false w') in Hle. lia.
  - pose proof (inv_direct _ _ Hinv2) as Hd2. rewrite Hdir, app_nil_r in Hd2.
    rewrite <- Hd2, Had. cbn. rewrite Hadmd, length_app. lia.
Qed.
End contract.

(** C2. Nothing is lost, reordered or written twice.  In every reachable
    interleaving of callers and worker that has admitted fewer than [2^64]
    records: the records admitted to the queue are those that the sink has
    acknowledged, in order, followed by those that [unconfirmed] hands back,
    and likewise for the direct lane; the counters of the snapshot are exact;
    the queue stays within its capacity and every sink call within the batch
    size; after a call that failed without a retryable class - the records may
    be durable - that lane makes no further call and none is in flight; a call
    in flight is for the oldest records of its lane; and each direct record is
    answered at most once, with success only if the sink acknowledged it. *)
Theorem batch_writer_retains {T E : Type} c policy observed instant_max
    (w : writer (T := T) (E := E)) :
  writer_reachable (managed c policy observed) instant_max w → bounded w →
  (admitted w = acked false w ++ queue (shared w) ∧
   admitted_direct w = acked true w ++ direct_items (shared w) ∧
   unconfirmed (shared w) = queue (shared w) ++ direct_items (shared w)) ∧
  (snapshot_persisted (snapshot (shared w)) =
     Z.of_nat (length (acked false w) + length (acked true w)) ∧
   snapshot_direct_persisted (snapshot (shared w)) = Z.of_nat (length (acked true w)) ∧
   snapshot_queued (snapshot (shared w)) ≤ Z.max (queue_capacity c) 1 ∧
   Forall (λ a, 1 ≤ Z.of_nat (length (attempt_items a)) ≤ Z.max (batch_size c) 1) (attempts w)) ∧
  (∀ lane l1 a l2 items,
     lane_attempts lane (attempts w) = l1 ++ a :: l2 → maybe_committed a →
     l2 = [] ∧ worker w ≠ Writing items lane) ∧
  (∀ items is_direct, worker w = Writing items is_direct →
     items ≠ [] ∧
     items `prefix_of` (if is_direct then direct_items (shared w) else queue (shared w))) ∧
  NoDup (fst <$> replied w) ∧
  (∀ n admission, (n, Ok admission) ∈ replied w →
     ∃ item, acked true w !! n = Some item ∧ admitted_direct w !! n = Some item).
Proof.
  intros Hr Hb. pose proof (managed_reachable_inv c policy observed instant_max w Hr Hb) as Hinv.
  split; [|split; [|split; [|split; [|split]]]].
  - split; [apply (inv_batch _ _ Hinv)|]. split; [apply (inv_direct _ _ Hinv)|done].
  - split; [apply (inv_persisted _ _ Hinv)|]. split; [apply (inv_direct_persisted _ _ Hinv)|].
    split; [apply (inv_capacity _ _ Hinv)|].
    eapply list.Forall_impl; [apply (inv_sizes _ _ Hinv)|]. cbn. intros a [Hne Hle].
    destruct (attempt_items a); [done|]. cbn in *. lia.
  - intros lane l1 a l2 items Ha Hm. destruct (inv_replay _ _ Hinv _ _ _ _ Ha Hm) as [-> Hbl].
    split; [done|]. by eapply blocked_not_writing.
  - intros items is_direct Hw. pose proof (inv_writing _ _ Hinv) as Hi. rewrite Hw in Hi.
    destruct is_direct.
    + destruct Hi as (d & Hd & _ & ->). unfold direct_items. by rewrite Hd.
    + destruct Hi as (Hne & _ & _ & rest & ->). split; [done|]. by eexists.
  - apply (inv_replies _ _ Hinv).
  - intros n admission Hn. pose proof (inv_reply_ok _ _ Hinv n admission Hn) as Hlt.
    destruct (lookup_lt_is_Some_2 (acked true w) n Hlt) as [item Hitem].
    exists item. split; [done|]. rewrite (inv_direct _ _ Hinv). by apply lookup_app_l_Some.
Qed.

(** C25. What a flush promises.  Its scope is what was admitted when it
    captured it.  A round of its loop, at any later moment, answers [Ok]
    exactly when the sink has acknowledged all of that scope, however late; an
    error leaves the scope unacknowledged and names the cause - the failure of
    a lane in scope, a stopped writer, or the deadline - and never that it was
    not started.  With no lane failed and time left it waits, and an undisturbed worker with
    a sink that accepts writes the scope within as many turns as records are
    outstanding, so that the flush is then answered [Ok]. *)
Theorem flush_contract {T E : Type} c policy observed instant_max now deadline targets
    (w w' : writer (T := T) (E := E)) :
  let core := managed c policy observed in
  let answer v at_ := (flush_round at_ deadline targets (shared v)).1 in
  writer_reachable core instant_max w → flush_targets (shared w) = Ok targets →
  rtc (writer_step core instant_max) w w' → bounded w' →
  (answer w' now = Some (Ok tt) ↔ in_scope_acked w w') ∧
  (∀ e, answer w' now = Some (Err e) →
     ¬ in_scope_acked w w' ∧
     match e with
     | FlushNotStarted => False
     | FlushStopped => lifecycle (shared w') = Stopped
     | FlushWrite f =>
         (¬ admitted w `prefix_of` acked false w' ∧ lane_failure false (shared w') = Some f) ∨
         (¬ admitted_direct w `prefix_of` acked true w' ∧ lane_failure true (shared w') = Some f)
     | FlushDeadline => deadline ≤ now
     end) ∧
  ((∃ prefer, worker w' = Looping prefer) → cancelled w' = false →
   (∀ lane, lane_failure lane (shared w') = None) → lifecycle (shared w') ≠ Stopped →
   now < deadline →
   ∀ sent later at_ n, (outstanding w' ≤ n)%nat →
     let w1 := with_shared (flush_round now deadline targets (shared w')).2 w' in
     answer (Nat.iter n (worker_turn core instant_max sent later) w1) at_ = Some (Ok tt)).
Proof.
  intros core answer Hr Ht Hs Hb.
  pose proof (flush_answers c policy observed instant_max now deadline targets w w' Hr Ht Hs Hb) as Hok.
  assert (writer_inv core w') as Hinv'
    by (apply (managed_reachable_inv c policy observed instant_max); [by eapply rtc_trans|done]).
  split; [exact Hok|]. split.
  - intros e He. split; [intros Hin%Hok; unfold answer in He; congruence|].
    pose proof (flush_round_err now deadline targets (shared w') e He) as Hcause.
    destruct e as [| |f|]; try done.
    pose proof (flush_targets_exact core w targets
      ltac:(apply (managed_reachable_inv c policy observed instant_max); [done|by eapply bounded_before])
      ltac:(by eapply bounded_before) Ht) as Heq. subst targets. cbn [fst snd] in Hcause.
    rewrite (batch_persisted_exact core w'), (inv_direct_persisted _ _ Hinv') in Hcause by done.
    destruct Hcause as [[Hlt Hf]|[Hlt Hf]]; [left|right]; (split; [|done]);
      intros Hp%prefix_length; lia.
  - intros Hw Hc Hf Hl Hnow sent later at_ n Hn w1.
    destruct (worker_turns_steps core instant_max sent later n w1 Hc) as [Hs2 _].
    assert (rtc (writer_step core instant_max) w (Nat.iter n (worker_turn core instant_max sent later) w1)) as Hs'.
    { eapply rtc_trans; [exact Hs|]. eapply rtc_l; [apply step_flush|exact Hs2]. }
    apply (flush_answers c policy observed instant_max at_ deadline targets w); [done|done|exact Hs'| |].
    + by apply (worker_turns_bounded).
    + by apply flush_delivers.
Qed.

(** A run: one record is queued, one overflows into the direct lane, which the
    worker serves first; then it writes the queued one. *)
Definition demo_core : Core := managed (mk_BufferedBatchConfig 1 4 1000) DirectWrite true.
Definition demo_sent : BufferedWriterEvent → bool := λ _, true.

Definition demo_started : writer (T := nat) (E := nat) :=
  mk_writer (start State_created).2 (Looping false) false [] [] [] [].
Definition demo_admit (item : nat) (w : writer) : writer (E := nat) :=
  recorded item (record demo_core demo_sent 0 item (length (admitted_direct w)) (shared w)) w.
Definition demo_admitted : writer (T := nat) (E := nat) := demo_admit 8 (demo_admit 7 demo_started).
Definition demo_direct : writer := worker_turn demo_core 5000 demo_sent 1 demo_admitted.
Definition demo_writing : writer := worked ([], shared demo_direct) (Writing [7%nat] false) [] demo_direct.

Lemma demo_admitted_reachable : writer_reachable demo_core 5000 demo_admitted.
Proof.
  eapply rtc_l; [apply step_start; reflexivity|].
  eapply rtc_l; [apply (step_record _ _ demo_sent 0 7%nat)|].
  apply rtc_once, (step_record _ _ demo_sent 0 8%nat).
Qed.

Lemma demo_writing_reachable : writer_reachable demo_core 5000 demo_writing.
Proof.
  eapply rtc_trans; [apply demo_admitted_reachable|].
  eapply rtc_trans; [by apply (worker_turn_steps demo_core 5000 demo_sent 1)|].
  apply rtc_once, (step_select _ _ 1001 true); reflexivity.
Qed.

Lemma batch_writer_retains_witness :
  replied demo_writing = [(0%nat, Ok DirectPersisted)] ∧
  worker demo_writing = Writing [7%nat] false ∧ snapshot_queued (snapshot (shared demo_writing)) = 1 ∧
  admitted demo_writing = acked false demo_writing ++ queue (shared demo_writing).
Proof.
  split; [reflexivity|]. split; [reflexivity|]. split; [reflexivity|].
  refine (proj1 (proj1 (batch_writer_retains (mk_BufferedBatchConfig 1 4 1000) DirectWrite true 5000
    demo_writing demo_writing_reachable _))).
  by vm_compute.
Defined.

Lemma flush_contract_witness :
  let w1 := with_shared (flush_round 1 10 (1, 1) (shared demo_admitted)).2 demo_admitted in
  (flush_round 1 10 (1, 1) (shared demo_admitted)).1 = None ∧
  (flush_round 9 10 (1, 1)
    (shared (Nat.iter 2 (worker_turn demo_core 5000 demo_sent 2) w1))).1 = Some (Ok tt).
Proof.
  split; [reflexivity|].
  refine (proj2 (proj2 (flush_contract (mk_BufferedBatchConfig 1 4 1000) DirectWrite true 5000 1 10 (1, 1)
    demo_admitted demo_admitted demo_admitted_reachable _ _ _)) _ _ _ _ _ demo_sent 2 9 2%nat _).
  - reflexivity.
  - apply rtc_refl.
  - by vm_compute.
  - eexists. reflexivity.
  - reflexivity.
  - intros []; reflexivity.
  - discriminate.
  - lia.
  - vm_compute. lia.
Defined.
