(* ===== verification/AuthToken.v ===== *)
(** * Session tokens

    [aster_forge_auth/src]: [error.rs], [ids.rs], [time.rs] and the issuing
    and strict verification of JWTs of [jwt.rs].

    The [jsonwebtoken] crate is a class: its algorithms, header decoder,
    encoder and decoder, with the laws its documentation states.  The reading
    of the injected clock, the next identity of the injected source and
    whether the crypto provider is installed are arguments of a call. *)
From S2P Require Export Text.

Inductive AuthError : Type :=
  | CryptoProviderNotInitialized | CryptoProviderAlreadyInstalled | KeyTooShort | InvalidPolicy
  | TokenTooLarge | InvalidToken | TokenExpired | NotYetValid | MissingClaim | WrongTokenType
  | AlgorithmMismatch | IssuerMismatch | AudienceMismatch | Encoding | ResourceLimit | AuthCancelled.

#[export] Instance AuthError_eq_dec : EqDecision AuthError.
Proof. solve_decision. Defined.

(** ** Identifiers *)
(** [char::is_control]: the general category [Cc]. *)
Definition is_control (c : char) : bool := bool_decide (0 ≤ c ≤ 31) || bool_decide (127 ≤ c ≤ 159).

Definition validate_identifier (value : str) : result AuthError unit :=
  if decide (trim value = [] ∨ 256 < str_len value ∨ existsb is_control value = true)
  then Err InvalidPolicy else Ok tt.

(** [new] of the three identifier types, which are their text. *)
Definition identifier_new (value : str) : result AuthError str :=
  _ ← validate_identifier value; Ok value.

Definition identifier_ok (value : str) : Prop := validate_identifier value = Ok tt.

(** ** Claims *)
Inductive AuthTokenType : Type := Access | Refresh.
Inductive Restriction : Type := Unrestricted | MustChangePassword.

#[export] Instance AuthTokenType_eq_dec : EqDecision AuthTokenType.
Proof. solve_decision. Defined.
#[export] Instance Restriction_eq_dec : EqDecision Restriction.
Proof. solve_decision. Defined.

Definition SessionVersion_next (version : Z) : result AuthError Z :=
  ok_or (checked_add U64_MAX version 1) InvalidPolicy.

Record TokenClaims : Type := mk_TokenClaims {
  claim_sub : str;
  claim_sid : str;
  claim_session_version : Z;
  claim_token_type : AuthTokenType;
  claim_jti : option str;
  claim_restriction : Restriction;
  claim_iat : Z;
  claim_exp : Z;
  claim_nbf : option Z;
  claim_iss : str;
  claim_aud : str;
}.

#[export] Instance TokenClaims_eq_dec : EqDecision TokenClaims.
Proof. solve_decision. Defined.

(** What the types of the fields guarantee. *)
Definition claims_typed (c : TokenClaims) : Prop :=
  identifier_ok (claim_sub c) ∧ identifier_ok (claim_sid c) ∧ in_u64 (claim_session_version c) ∧
  match claim_jti c with Some jti => identifier_ok jti | None => True end ∧
  in_i64 (claim_iat c) ∧ in_i64 (claim_exp c) ∧
  match claim_nbf c with Some nbf => in_i64 nbf | None => True end.

#[export] Instance claims_typed_dec c : Decision (claims_typed c).
Proof. unfold claims_typed, identifier_ok, in_i64. destruct (claim_jti c), (claim_nbf c); apply _. Defined.

(** ** Policy and key *)
Inductive JwtAlgorithm : Type := Hs256 | Hs384 | Hs512.

#[export] Instance JwtAlgorithm_eq_dec : EqDecision JwtAlgorithm.
Proof. solve_decision. Defined.

Definition minimum_key_bytes (a : JwtAlgorithm) : Z :=
  match a with Hs256 => 32 | Hs384 => 48 | Hs512 => 64 end.

(** The shared secret; its text is its bytes. *)
Definition JwtKey : Type := list byte.

Definition key_len (key : JwtKey) : Z := Z.of_nat (length key).

Definition JwtKey_hmac (secret : list byte) : result AuthError JwtKey :=
  if decide (key_len secret < minimum_key_bytes Hs256) then Err KeyTooShort else Ok secret.

Definition JwtKey_check (key : JwtKey) (a : JwtAlgorithm) : result AuthError unit :=
  if decide (key_len key < minimum_key_bytes a) then Err KeyTooShort else Ok tt.

Record JwtPolicy : Type := mk_JwtPolicy {
  policy_issuer : str;
  policy_audience : str;
  access_ttl_secs : Z;
  refresh_ttl_secs : Z;
  policy_algorithm : JwtAlgorithm;
  leeway_secs : Z;
  max_token_bytes : Z;
}.

(** [i64::try_from] of a [u64]. *)
Definition i64_from_u64 (z : Z) : result AuthError Z :=
  if decide (z ≤ I64_MAX) then Ok z else Err InvalidPolicy.

Definition validate_ttl (ttl : Z) : result AuthError unit :=
  if decide (ttl = 0) then Err InvalidPolicy else _ ← i64_from_u64 ttl; Ok tt.

Definition JwtPolicy_new (issuer audience : str) (access refresh : Z) : result AuthError JwtPolicy :=
  _ ← validate_identifier issuer;
  _ ← validate_identifier audience;
  _ ← validate_ttl access;
  _ ← validate_ttl refresh;
  Ok (mk_JwtPolicy issuer audience access refresh Hs256 0 (16 * 1024)).

Definition JwtPolicy_with_algorithm (a : JwtAlgorithm) (p : JwtPolicy) : JwtPolicy :=
  mk_JwtPolicy (policy_issuer p) (policy_audience p) (access_ttl_secs p) (refresh_ttl_secs p) a
    (leeway_secs p) (max_token_bytes p).

Definition JwtPolicy_with_leeway (seconds : Z) (p : JwtPolicy) : result AuthError JwtPolicy :=
  _ ← i64_from_u64 seconds;
  Ok (mk_JwtPolicy (policy_issuer p) (policy_audience p) (access_ttl_secs p) (refresh_ttl_secs p)
    (policy_algorithm p) seconds (max_token_bytes p)).

Definition JwtPolicy_with_max_token_bytes (bytes : Z) (p : JwtPolicy) : result AuthError JwtPolicy :=
  if decide (bytes = 0) then Err InvalidPolicy
  else Ok (mk_JwtPolicy (policy_issuer p) (policy_audience p) (access_ttl_secs p)
    (refresh_ttl_secs p) (policy_algorithm p) (leeway_secs p) bytes).

(** What every policy built by these constructors satisfies. *)
Record policy_ok (p : JwtPolicy) : Prop := {
  policy_ok_access : 0 < access_ttl_secs p ≤ I64_MAX;
  policy_ok_refresh : 0 < refresh_ttl_secs p ≤ I64_MAX;
  policy_ok_leeway : 0 ≤ leeway_secs p ≤ I64_MAX;
}.

(** [SystemClock], given what [SystemTime::now] says of the Unix epoch. *)
Definition SystemClock_now (since_epoch : option Z) : result AuthError Z :=
  seconds ← ok_or since_epoch InvalidPolicy; i64_from_u64 seconds.

Record AuthTokenPair : Type := mk_AuthTokenPair {
  access_token : str;
  refresh_token : str;
  refresh_jti : str;
  access_expires_at : Z;
  refresh_expires_at : Z;
}.

(** ** The [jsonwebtoken] crate *)
Class JsonWebToken (Algorithm : Type) := {
  algorithm_eq_dec :: EqDecision Algorithm;
  HS256 : Algorithm;
  HS384 : Algorithm;
  HS512 : Algorithm;
  decode_header : str → option Algorithm;
  encode : Algorithm → TokenClaims → JwtKey → option str;
  decode : str → JwtKey → Algorithm → option TokenClaims;
}.

(** Its documentation: the header of an encoded token names its algorithm; a
    token decodes under its own key and algorithm to the claims encoded;
    decoding checks the header's algorithm, and the deserialized claims
    satisfy the types of their fields. *)
Class JsonWebTokenLaws Algorithm `{JsonWebToken Algorithm} : Prop := {
  algorithms_distinct : NoDup [HS256; HS384; HS512];
  encode_header a claims key token : encode a claims key = Some token → decode_header token = Some a;
  decode_encode a claims key token :
    claims_typed claims → encode a claims key = Some token → decode token key a = Some claims;
  decode_checked a key token claims :
    decode token key a = Some claims → decode_header token = Some a ∧ claims_typed claims;
}.

Section token.
Context {Algorithm : Type} `{JsonWebToken Algorithm}.

Definition upstream (a : JwtAlgorithm) : Algorithm :=
  match a with Hs256 => HS256 | Hs384 => HS384 | Hs512 => HS512 end.

Definition ensure_initialized (initialized : bool) : result AuthError unit :=
  if initialized then Ok tt else Err CryptoProviderNotInitialized.

(** ** Issuing *)
(** The closure [expiry] of [issue]. *)
Definition issue_expiry (now ttl : Z) : result AuthError Z :=
  ttl ← i64_from_u64 ttl; ok_or (checked_add I64_MAX now ttl) InvalidPolicy.

Definition JwtSigner_issue (key : JwtKey) (policy : JwtPolicy) (initialized : bool)
    (clock : result AuthError Z) (next_id : result AuthError str)
    (subject session : str) (version : Z) (restriction : Restriction) : result AuthError AuthTokenPair :=
  _ ← ensure_initialized initialized;
  _ ← JwtKey_check key (policy_algorithm policy);
  now ← clock;
  if decide (now < 0) then Err InvalidPolicy else
  access_exp ← issue_expiry now (access_ttl_secs policy);
  refresh_exp ← issue_expiry now (refresh_ttl_secs policy);
  jti ← next_id;
  let claims token_type jti exp :=
    mk_TokenClaims subject session version token_type jti restriction now exp None
      (policy_issuer policy) (policy_audience policy) in
  let algorithm := upstream (policy_algorithm policy) in
  access ← ok_or (encode algorithm (claims Access None access_exp) key) Encoding;
  refresh ← ok_or (encode algorithm (claims Refresh (Some jti) refresh_exp) key) Encoding;
  if decide (max_token_bytes policy < str_len access ∨ max_token_bytes policy < str_len refresh)
  then Err TokenTooLarge
  else Ok (mk_AuthTokenPair access refresh jti access_exp refresh_exp).

(** ** Verification *)
(** The checks of the decoded claims that do not read the clock. *)
Definition check_policy_claims (policy : JwtPolicy) (expected : AuthTokenType) (claims : TokenClaims)
    : result AuthError unit :=
  if decide (claim_iss claims ≠ policy_issuer policy) then Err IssuerMismatch
  else if decide (claim_aud claims ≠ policy_audience policy) then Err AudienceMismatch
  else if decide (claim_token_type claims ≠ expected) then Err WrongTokenType
  else match expected, claim_jti claims with
       | Refresh, None => Err MissingClaim
       | Access, Some _ => Err InvalidToken
       | _, _ =>
           if decide (claim_iat claims < 0 ∨ claim_exp claims ≤ claim_iat claims)
           then Err InvalidToken
           else match claim_nbf claims with
                | Some nbf => if decide (nbf < 0 ∨ claim_exp claims ≤ nbf) then Err InvalidToken
                              else Ok tt
                | None => Ok tt
                end
       end.

(** The checks against the clock, in 128 bits. *)
Definition check_times (now leeway : Z) (claims : TokenClaims) : result AuthError unit :=
  let latest := now + leeway in
  if decide (latest < claim_iat claims) then Err NotYetValid
  else if match claim_nbf claims with Some nbf => bool_decide (latest < nbf) | None => false end
  then Err NotYetValid
  else if decide (claim_exp claims + leeway ≤ now) then Err TokenExpired
  else Ok tt.

Definition JwtVerifier_verify (key : JwtKey) (policy : JwtPolicy) (initialized : bool)
    (clock : result AuthError Z) (token : str) (expected : AuthTokenType)
    : result AuthError TokenClaims :=
  _ ← ensure_initialized initialized;
  _ ← JwtKey_check key (policy_algorithm policy);
  if decide (max_token_bytes policy < str_len token) then Err TokenTooLarge else
  alg ← ok_or (decode_header token) InvalidToken;
  if decide (alg ≠ upstream (policy_algorithm policy)) then Err AlgorithmMismatch else
  claims ← ok_or (decode token key (upstream (policy_algorithm policy))) InvalidToken;
  _ ← check_policy_claims policy expected claims;
  now ← clock;
  if decide (now < 0) then Err InvalidPolicy else
  leeway ← i64_from_u64 (leeway_secs policy);
  _ ← check_times now leeway claims;
  Ok claims.
End token.

(** ** The constructors of policies *)
Lemma i64_from_u64_ok z x : i64_from_u64 z = Ok x ↔ z ≤ I64_MAX ∧ x = z.
Proof. unfold i64_from_u64. case_decide; crush. Qed.

Lemma JwtPolicy_new_ok issuer audience access refresh p :
  in_u64 access → in_u64 refresh → JwtPolicy_new issuer audience access refresh = Ok p → policy_ok p.
Proof.
  unfold JwtPolicy_new, validate_ttl. intros Ha Hr.
  repeat (setoid_rewrite result_bind_ok || case_decide || crush);
    repeat match goal with H : i64_from_u64 _ = Ok _ |- _ => apply i64_from_u64_ok in H as [? ->] end;
    subst; split; cbn; rewrite ?U64_MAX_eq; unfold in_u64, I64_MAX in *; lia.
Qed.

Lemma JwtPolicy_with_leeway_ok seconds p p' :
  in_u64 seconds → policy_ok p → JwtPolicy_with_leeway seconds p = Ok p' → policy_ok p'.
Proof.
  unfold JwtPolicy_with_leeway. intros Hs [] (x & [? ->]%i64_from_u64_ok & [= <-])%result_bind_ok.
  split; cbn; unfold in_u64 in *; lia || done.
Qed.

Lemma JwtPolicy_with_algorithm_ok a p : policy_ok p → policy_ok (JwtPolicy_with_algorithm a p).
Proof. by intros []. Qed.

Lemma JwtPolicy_with_max_token_bytes_ok bytes p p' :
  policy_ok p → JwtPolicy_with_max_token_bytes bytes p = Ok p' → policy_ok p'.
Proof.
  unfold JwtPolicy_with_max_token_bytes. case_decide; [done|]. intros [] [= <-]. by split.
Qed.

(** A key for the policy's algorithm. *)
Definition key_ok (key : JwtKey) (p : JwtPolicy) : Prop :=
  minimum_key_bytes (policy_algorithm p) ≤ key_len key.

Lemma JwtKey_check_ok key p : JwtKey_check key (policy_algorithm p) = Ok tt ↔ key_ok key p.
Proof. unfold JwtKey_check, key_ok. case_decide; crush. Qed.

Section properties.
Context {Algorithm : Type} `{!JsonWebToken Algorithm, !JsonWebTokenLaws Algorithm}.

(** What an accepted token promises about its claims at time [now]. *)
Record token_valid (p : JwtPolicy) (now : Z) (expected : AuthTokenType) (c : TokenClaims) : Prop := {
  valid_issuer : claim_iss c = policy_issuer p;
  valid_audience : claim_aud c = policy_audience p;
  valid_type : claim_token_type c = expected;
  valid_jti : is_Some (claim_jti c) ↔ expected = Refresh;
  valid_span : 0 ≤ claim_iat c < claim_exp c;
  valid_nbf nbf : claim_nbf c = Some nbf → 0 ≤ nbf < claim_exp c ∧ nbf ≤ now + leeway_secs p;
  valid_time : claim_iat c - leeway_secs p ≤ now < claim_exp c + leeway_secs p;
}.

Lemma check_policy_claims_ok p expected c :
  check_policy_claims p expected c = Ok tt ↔
  claim_iss c = policy_issuer p ∧ claim_aud c = policy_audience p ∧ claim_token_type c = expected ∧
  (is_Some (claim_jti c) ↔ expected = Refresh) ∧ 0 ≤ claim_iat c < claim_exp c ∧
  ∀ nbf, claim_nbf c = Some nbf → 0 ≤ nbf < claim_exp c.
Proof.
  unfold check_policy_claims. do 3 (case_decide; [split; [done|intros; crush]|]).
  assert ((is_Some (claim_jti c) ↔ expected = Refresh) ↔
    match expected, claim_jti c with Refresh, None | Access, Some _ => False | _, _ => True end) as ->.
  { destruct expected, (claim_jti c); rewrite is_Some_alt; naive_solver. }
  destruct expected, (claim_jti c); try naive_solver; case_decide; try (naive_solver lia);
    (destruct (claim_nbf c) as [nbf|]; [case_decide|]); naive_solver lia.
Qed.

Lemma check_times_ok now leeway c :
  check_times now leeway c = Ok tt ↔
  claim_iat c - leeway ≤ now < claim_exp c + leeway ∧
  ∀ nbf, claim_nbf c = Some nbf → nbf ≤ now + leeway.
Proof.
  unfold check_times. cbv zeta. case_decide; [split; [done|lia]|].
  destruct (claim_nbf c) as [nbf|]; [destruct (bool_decide _) eqn:Hn|];
    [apply bool_decide_eq_true in Hn|apply bool_decide_eq_false in Hn|].
  { split; [done|]. intros [_ Hnbf]. specialize (Hnbf _ eq_refl). lia. }
  all: case_decide; [split; [done|lia]|]; split; [|done]; intros _; split; [lia|].
  - intros ? [= <-]. lia.
  - done.
Qed.

(** Acceptance, as a condition on the token. *)
Lemma JwtVerifier_verify_ok key p initialized clock token expected c :
  policy_ok p →
  JwtVerifier_verify key p initialized clock token expected = Ok c ↔
  initialized = true ∧ key_ok key p ∧ str_len token ≤ max_token_bytes p ∧
  decode token key (upstream (policy_algorithm p)) = Some c ∧
  ∃ now, clock = Ok now ∧ 0 ≤ now ∧ token_valid p now expected c.
Proof.
  intros Hp. unfold JwtVerifier_verify, ensure_initialized. rewrite <- JwtKey_check_ok.
  destruct initialized; [cbn|by split; [|intros [? _]]].
  destruct (JwtKey_check key _) as [[]|e]; [cbn|naive_solver].
  case_decide; [split; [done|intros (_ & _ & ? & _); lia]|].
  split.
  - intros (a & Ha%ok_or_ok & Hc)%result_bind_ok. case_decide as Halg; [done|].
    apply result_bind_ok in Hc as (c' & Hd%ok_or_ok & Hc).
    apply result_bind_ok in Hc as ([] & (?&?&?&?&?&?)%check_policy_claims_ok & Hc).
    apply result_bind_ok in Hc as (now & Hclock & Hc). case_decide; [done|].
    apply result_bind_ok in Hc as (leeway & [? ->]%i64_from_u64_ok & Hc).
    apply result_bind_ok in Hc as ([] & [? Hnbf]%check_times_ok & [= <-]).
    do 2 (split; [done|]). split; [lia|]. split; [done|]. exists now. split; [done|]. split; [lia|].
    split; auto.
  - intros (_ & _ & _ & Hd & now & -> & Hnow & []).
    rewrite (proj1 (decode_checked _ _ _ _ Hd)). cbn. rewrite decide_False by tauto.
    rewrite Hd. cbn. rewrite (proj2 (check_policy_claims_ok p expected c)).
    2:{ do 5 (split; [done|]). intros nbf Hn. by destruct (valid_nbf0 nbf Hn). }
    cbn. rewrite decide_False by lia. rewrite (proj2 (i64_from_u64_ok _ _)) by (split; [apply Hp|done]).
    cbn. rewrite (proj2 (check_times_ok _ _ _)); [done|]. split; [done|].
    intros nbf Hn. by destruct (valid_nbf0 nbf Hn).
Qed.

#[local] Arguments str_len : simpl never.

(** The claims that [issue] encodes. *)
Definition issued_claims (p : JwtPolicy) (now : Z) (subject session : str) (version : Z)
    (restriction : Restriction) (expected : AuthTokenType) (pair : AuthTokenPair) : TokenClaims :=
  mk_TokenClaims subject session version expected
    (match expected with Access => None | Refresh => Some (refresh_jti pair) end) restriction now
    (match expected with Access => access_expires_at pair | Refresh => refresh_expires_at pair end)
    None (policy_issuer p) (policy_audience p).

Definition token_of (pair : AuthTokenPair) (expected : AuthTokenType) : str :=
  match expected with Access => access_token pair | Refresh => refresh_token pair end.

Definition expires_at (pair : AuthTokenPair) (expected : AuthTokenType) : Z :=
  match expected with Access => access_expires_at pair | Refresh => refresh_expires_at pair end.

Definition ttl_of (p : JwtPolicy) (expected : AuthTokenType) : Z :=
  match expected with Access => access_ttl_secs p | Refresh => refresh_ttl_secs p end.

Lemma issue_expiry_ok now ttl x :
  issue_expiry now ttl = Ok x ↔ ttl ≤ I64_MAX ∧ now + ttl ≤ I64_MAX ∧ x = now + ttl.
Proof.
  unfold issue_expiry. rewrite result_bind_ok. setoid_rewrite i64_from_u64_ok.
  setoid_rewrite ok_or_ok. setoid_rewrite checked_add_spec. naive_solver.
Qed.

Lemma JwtSigner_issue_ok key p initialized clock next_id subject session version restriction pair :
  JwtSigner_issue key p initialized clock next_id subject session version restriction = Ok pair →
  initialized = true ∧ key_ok key p ∧ next_id = Ok (refresh_jti pair) ∧
  ∃ now, clock = Ok now ∧ 0 ≤ now ∧
    ∀ expected,
      encode (upstream (policy_algorithm p))
        (issued_claims p now subject session version restriction expected pair) key =
        Some (token_of pair expected) ∧
      str_len (token_of pair expected) ≤ max_token_bytes p ∧
      expires_at pair expected = now + ttl_of p expected ∧ now + ttl_of p expected ≤ I64_MAX.
Proof.
  unfold JwtSigner_issue, ensure_initialized. rewrite <- JwtKey_check_ok.
  destruct initialized; [cbn|done]. destruct (JwtKey_check key _) as [[]|e]; [cbn|done].
  intros (now & Hclock & Hi)%result_bind_ok. case_decide; [done|].
  apply result_bind_ok in Hi as (a & (Ha & Ha' & ->)%issue_expiry_ok & Hi).
  apply result_bind_ok in Hi as (r & (Hr & Hr' & ->)%issue_expiry_ok & Hi).
  apply result_bind_ok in Hi as (jti & -> & Hi).
  apply result_bind_ok in Hi as (access & Hea%ok_or_ok & Hi).
  apply result_bind_ok in Hi as (refresh & Her%ok_or_ok & Hi).
  case_decide as Hlen; [done|]. injection Hi as <-.
  do 3 (split; [done|]). exists now. split; [done|]. split; [lia|].
  intros []; cbn; split_and!; done || lia.
Qed.
End properties.

(** The instant at which a verifier with its leeway turns from refusing a
    token as too young to accepting it, and from accepting to refusing it as
    expired. *)
Definition verdict_at {A} (iat exp leeway at_ : Z) (c : A) : result AuthError A :=
  if decide (at_ + leeway < iat) then Err NotYetValid
  else if decide (exp + leeway ≤ at_) then Err TokenExpired else Ok c.

(** C33. Tokens round-trip through the verifier, which accepts nothing else.
    A pair that [issue] builds expires after the policy's lifetimes, without
    overflow.  A verifier with the same key, issuer, audience and algorithm,
    room for the token and any leeway gives back exactly the claims issued,
    from the leeway before the issue until the leeway after the expiry, and
    names the side on which it is too early or too late; an access token is
    never accepted for a refresh token nor conversely.  Whatever text it is
    given, the claims it accepts are decoded with its key and algorithm and
    satisfy its policy at that time. *)
Theorem jwt_round_trip `{!JsonWebToken Algorithm, !JsonWebTokenLaws Algorithm}
    key p p' initialized now jti subject session version restriction pair :
  policy_ok p → policy_ok p' → policy_issuer p' = policy_issuer p →
  policy_audience p' = policy_audience p → policy_algorithm p' = policy_algorithm p →
  max_token_bytes p ≤ max_token_bytes p' →
  identifier_ok subject → identifier_ok session → identifier_ok jti → in_u64 version →
  JwtSigner_issue key p initialized (Ok now) (Ok jti) subject session version restriction = Ok pair →
  (refresh_jti pair = jti ∧
   ∀ type, expires_at pair type = now + ttl_of p type ∧ expires_at pair type ≤ I64_MAX) ∧
  (∀ type expected at_, 0 ≤ at_ →
     JwtVerifier_verify key p' true (Ok at_) (token_of pair type) expected =
       if decide (type = expected) then
         verdict_at now (expires_at pair type) (leeway_secs p') at_
           (issued_claims p now subject session version restriction type pair)
       else Err WrongTokenType) ∧
  (∀ token expected clock c,
     JwtVerifier_verify key p' true clock token expected = Ok c →
     decode token key (upstream (policy_algorithm p')) = Some c ∧
     ∃ at_, clock = Ok at_ ∧ token_valid p' at_ expected c).
Proof.
  intros Hp Hp' Hiss Haud Halg Hmax Hsub Hsid Hjti Hver
    (_ & Hkey & [= ->] & now0 & [= <-] & Hnow & Hpair)%JwtSigner_issue_ok.
  split; [split; [done|]; intros type; destruct (Hpair type) as (_ & _ & ? & ?); lia|]. split.
  - intros type expected at_ Hat. destruct (Hpair type) as (He & Hlen & Hexp & Hexp').
    assert (ttl_of p type > 0) as Httl by (destruct Hp, type; cbn; lia).
    assert (claims_typed (issued_claims p now subject session version restriction type pair)) as Htyped.
    { unfold claims_typed, issued_claims, in_i64. cbn. unfold expires_at in *.
      split_and!; try done; destruct type; done || lia. }
    pose proof (decode_encode _ _ _ _ Htyped He) as Hd.
    unfold JwtVerifier_verify, ensure_initialized. rewrite Halg. cbn.
    rewrite (proj2 (JwtKey_check_ok key p)) by done. cbn. rewrite decide_False by lia.
    rewrite (encode_header _ _ _ _ He). cbn. rewrite decide_False by tauto. rewrite Hd. cbn.
    unfold check_policy_claims. cbn [claim_iss claim_aud claim_token_type issued_claims].
    rewrite Hiss, Haud, (decide_False (P := policy_issuer p ≠ _)) by tauto.
    rewrite (decide_False (P := policy_audience p ≠ _)) by tauto.
    destruct (decide (type = expected)) as [<-|Hne];
      [rewrite (decide_False (P := type ≠ type)) by tauto|by rewrite (decide_True (P := type ≠ expected))].
    assert (0 ≤ now < expires_at pair type) by lia. unfold expires_at in *.
    assert (i64_from_u64 (leeway_secs p') = Ok (leeway_secs p')) as Hlee
      by (apply i64_from_u64_ok; split; [apply Hp'|done]).
    destruct type; cbn in *; rewrite decide_False by lia; cbn; rewrite decide_False by lia; cbn;
      rewrite Hlee; cbn; unfold check_times, verdict_at; cbn; by repeat case_decide.
  - intros token expected clock c (_ & _ & _ & Hd & at_ & Hc & _ & Hv)%JwtVerifier_verify_ok; [|done].
    eauto.
Qed.

(** ** An instance *)
(** A codec whose tokens name algorithm, key and claims in the clear. *)
Module Demo.
#[export] Instance token_type_countable : Countable AuthTokenType :=
  inj_countable' (λ t, bool_decide (t = Access)) (λ b, if (b : bool) then Access else Refresh)
    ltac:(by intros []).
#[export] Instance restriction_countable : Countable Restriction :=
  inj_countable' (λ t, bool_decide (t = Unrestricted))
    (λ b, if (b : bool) then Unrestricted else MustChangePassword) ltac:(by intros []).
#[export] Instance claims_countable : Countable TokenClaims :=
  inj_countable'
    (λ c, ((claim_sub c, claim_sid c, claim_session_version c, claim_token_type c),
           (claim_jti c, claim_restriction c, claim_iat c, claim_exp c),
           (claim_nbf c, claim_iss c, claim_aud c)))
    (λ '((sub, sid, version, type), (jti, restriction, iat, exp), (nbf, iss, aud)),
       mk_TokenClaims sub sid version type jti restriction iat exp nbf iss aud) ltac:(by intros []).

Definition token_of_parts (parts : nat * TokenClaims * JwtKey) : str := [Zpos (countable.encode parts)].

Definition parts_of_token (token : str) : option (nat * TokenClaims * JwtKey) :=
  match token with [Zpos n] => countable.decode n | _ => None end.

#[local] Arguments token_of_parts : simpl never.
#[local] Arguments parts_of_token : simpl never.

#[export] Instance jwt : JsonWebToken nat := {
  HS256 := 0%nat; HS384 := 1%nat; HS512 := 2%nat;
  decode_header token := (λ parts, parts.1.1) <$> parts_of_token token;
  encode a claims key := Some (token_of_parts (a, claims, key));
  decode token key a :=
    '(a', claims, key') ← parts_of_token token;
    if decide (a' = a ∧ key' = key ∧ claims_typed claims) then Some claims else None;
}.

#[export] Instance jwt_laws : JsonWebTokenLaws nat.
Proof.
  assert (∀ parts, parts_of_token (token_of_parts parts) = Some parts) as Hp
    by (intros; apply countable.decode_encode).
  split.
  - apply (bool_decide_unpack _). reflexivity.
  - intros a claims key token [= <-]. cbn. by rewrite Hp.
  - intros a claims key token Ht [= <-]. cbn. rewrite Hp. cbn. by rewrite decide_True.
  - intros a key token claims. cbn. destruct (parts_of_token token) as [[[a' c] k]|]; [|done]. cbn.
    case_decide as Hd; [|done]. intros [= <-]. destruct Hd as (-> & _ & ?). done.
Qed.

Definition key : JwtKey := replicate 32 Byte.x00.
Definition policy : JwtPolicy := mk_JwtPolicy (lit "forge") (lit "app") 900 86400 Hs256 0 16384.
Definition verifier_policy : JwtPolicy := mk_JwtPolicy (lit "forge") (lit "app") 60 60 Hs256 30 16384.

Definition tokens : AuthTokenPair :=
  match JwtSigner_issue key policy true (Ok 1000) (Ok (lit "j1")) (lit "alice") (lit "s1") 7 Unrestricted with
  | Ok issued => issued
  | Err _ => mk_AuthTokenPair [] [] [] 0 0
  end.
End Demo.
Import (hints) Demo.

Lemma jwt_round_trip_witness :
  let verify at_ := JwtVerifier_verify (Algorithm := nat) Demo.key Demo.verifier_policy true (Ok at_)
    (token_of Demo.tokens Refresh) Refresh in
  verify 969 = Err NotYetValid ∧ claim_jti <$> verify 87429 = Ok (Some (lit "j1")) ∧
  verify 87430 = Err TokenExpired.
Proof.
  pose proof (jwt_round_trip (Algorithm := nat) Demo.key Demo.policy Demo.verifier_policy true 1000 (lit "j1") (lit "alice")
    (lit "s1") 7 Unrestricted Demo.tokens) as H.
  assert (policy_ok Demo.policy) as Hp by (split; unfold I64_MAX; cbn; lia).
  assert (policy_ok Demo.verifier_policy) as Hp' by (split; unfold I64_MAX; cbn; lia).
  specialize (H Hp Hp' eq_refl eq_refl eq_refl ltac:(cbn; lia) eq_refl eq_refl eq_refl
    ltac:(split; vm_compute; congruence) ltac:(vm_compute; reflexivity)).
  destruct H as (_ & H & _). cbv beta zeta.
  rewrite !H by lia. vm_compute. auto.
Defined.
