(* ===== verification/AuthRefresh.v ===== *)
(** * Refresh tokens are single-use

    [aster_forge_auth/src/refresh.rs]: the classification of a refresh
    request against the authoritative session, and the workflow that verifies
    a token, waits for the coordinator, issues a candidate pair and commits it
    through the product's store.

    The store is a class over the world [W]; a call of it stands for itself
    and whatever other actors committed before it took effect.  Its laws are
    the documented contract, over a view of the durable sessions.  The
    coordinator's answer, the readings of the clocks, the next identity and
    the state of the cancellation tokens are arguments of a call. *)
From S2P Require Export AuthToken Action.

#[export] Instance in_i64_dec z : Decision (in_i64 z).
Proof. unfold in_i64. apply _. Defined.

(** ** Values *)
Record ClientContext : Type := mk_ClientContext {
  ip_address : option str;
  user_agent : option str;
}.

Inductive RefreshPolicy : Type :=
  | Strict
  | SameClientWithin (seconds : Z).

Record RefreshSession : Type := mk_RefreshSession {
  session_subject : str;
  session_id : str;
  session_current_jti : str;
  session_previous_jti : option str;
  session_last_seen_at : Z;
  session_expires_at : Z;
  session_revoked : bool;
  session_client : ClientContext;
}.

Record RefreshRotationRequest : Type := mk_RefreshRotationRequest {
  request_subject : str;
  request_session_id : str;
  request_session_version : Z;
  request_restriction : Restriction;
  request_current_jti : str;
  request_valid_until : Z;
  request_next_jti : str;
  request_next_expires_at : Z;
  request_client : ClientContext;
  request_now : Z;
  request_policy : RefreshPolicy;
}.

Inductive RefreshRejection : Type :=
  | Unavailable | Expired | AccountDisabled | Restricted | Stale | ReuseDetected.

#[export] Instance RefreshRejection_eq_dec : EqDecision RefreshRejection.
Proof. solve_decision. Defined.

Inductive RefreshDecision : Type :=
  | Rotate
  | Reject (reason : RefreshRejection).

#[export] Instance RefreshDecision_eq_dec : EqDecision RefreshDecision.
Proof. solve_decision. Defined.

(** ** Classification *)
(** [i64::checked_sub]. *)
Definition i64_checked_sub (a b : Z) : option Z :=
  if decide (in_i64 (a - b)) then Some (a - b) else None.

Definition is_recent (request : RefreshRotationRequest) (session : RefreshSession) (seconds : Z) : bool :=
  match i64_checked_sub (request_now request) (session_last_seen_at session) with
  | Some age => bool_decide (0 ≤ age) && bool_decide (age ≤ seconds)
  | None => false
  end.

Definition is_same_client (request : RefreshRotationRequest) (session : RefreshSession) : bool :=
  let stored := session_client session in
  let given := request_client request in
  match user_agent stored with Some ua => bool_decide (trim ua ≠ []) | None => false end
  && bool_decide (user_agent stored = user_agent given)
  && (bool_decide (ip_address stored = None) || bool_decide (ip_address given = None)
      || bool_decide (ip_address stored = ip_address given)).

Definition classify_refresh (request : RefreshRotationRequest) (session : option RefreshSession)
    : RefreshDecision :=
  if decide (request_valid_until request ≤ request_now request) then Reject Expired
  else match session with
  | None => Reject Unavailable
  | Some session =>
      if decide (session_subject session ≠ request_subject request ∨
                 session_id session ≠ request_session_id request ∨ session_revoked session = true)
      then Reject Unavailable
      else if decide (session_expires_at session ≤ request_now request) then Reject Expired
      else if decide (session_current_jti session = request_current_jti request) then Rotate
      else match request_policy request with
      | SameClientWithin seconds =>
          if bool_decide (session_previous_jti session = Some (request_current_jti request))
             && is_recent request session seconds && is_same_client request session
          then Reject Stale else Reject ReuseDetected
      | Strict => Reject ReuseDetected
      end
  end.

(** ** The store *)
Inductive RefreshStoreOutcome : Type :=
  | StoreRotated
  | StoreConflict
  | StoreRejected (reason : RefreshRejection).

Class RefreshSessionStore (W E : Type) := {
  rotate_refresh : RefreshRotationRequest → action W E RefreshStoreOutcome;
  resolve_conflict : RefreshRotationRequest → action W E RefreshRejection;
}.

Inductive RefreshError (E : Type) : Type :=
  | AuthFailed (error : AuthError)
  | StoreFailed (error : E).
Arguments AuthFailed {E}.
Arguments StoreFailed {E}.

Inductive RefreshOutcome : Type :=
  | Rotated (pair : AuthTokenPair)
  | Rejected (reason : RefreshRejection).

(** ** The service *)
Record RefreshTokenService : Type := mk_RefreshTokenService {
  signer_key : JwtKey;
  signer_policy : JwtPolicy;
  verifier_key : JwtKey;
  verifier_policy : JwtPolicy;
  refresh_policy : RefreshPolicy;
}.

(** What a call observes of its surroundings, in the order it looks. *)
Record surroundings : Type := mk_surroundings {
  initialized : bool;
  clock_before : result AuthError Z;
  acquired : result AuthError unit;
  clock_after : result AuthError Z;
  clock_now : result AuthError Z;
  clock_signer : result AuthError Z;
  next_id : result AuthError str;
  cancelled_or_closed : bool;
}.

Section service.
Context {Algorithm : Type} `{!JsonWebToken Algorithm}.
Context {W E : Type} `{!RefreshSessionStore W E}.

Definition auth {A} (r : result AuthError A) : action W (RefreshError E) A :=
  pure_result (map_err AuthFailed r).

Definition verify_refresh (service : RefreshTokenService) (env : surroundings)
    (clock : result AuthError Z) (token : str) : result AuthError TokenClaims :=
  JwtVerifier_verify (verifier_key service) (verifier_policy service) (initialized env) clock token
    Refresh.

Definition issue_candidate (service : RefreshTokenService) (env : surroundings) (claims : TokenClaims)
    : result AuthError AuthTokenPair :=
  JwtSigner_issue (signer_key service) (signer_policy service) (initialized env) (clock_signer env)
    (next_id env) (claim_sub claims) (claim_sid claims) (claim_session_version claims)
    (claim_restriction claims).

Definition rotation_request (service : RefreshTokenService) (claims : TokenClaims) (current : str)
    (candidate : AuthTokenPair) (client : ClientContext) (now : Z) : RefreshRotationRequest :=
  mk_RefreshRotationRequest (claim_sub claims) (claim_sid claims) (claim_session_version claims)
    (claim_restriction claims) current (claim_exp claims + leeway_secs (verifier_policy service))
    (refresh_jti candidate) (refresh_expires_at candidate) client now (refresh_policy service).

(** The part of the call that enters persistence. *)
Definition commit_candidate (request : RefreshRotationRequest) (candidate : AuthTokenPair)
    : action W (RefreshError E) RefreshOutcome :=
  outcome ← with_error StoreFailed (rotate_refresh request);
  match outcome with
  | StoreRotated => mret (Rotated candidate)
  | StoreRejected reason => mret (Rejected reason)
  | StoreConflict =>
      reason ← with_error StoreFailed (resolve_conflict request); mret (Rejected reason)
  end.

Definition refresh_with_cancellation (service : RefreshTokenService) (env : surroundings)
    (token : str) (client : ClientContext) : action W (RefreshError E) RefreshOutcome :=
  claims ← auth (verify_refresh service env (clock_before env) token);
  current ← auth (ok_or (claim_jti claims) MissingClaim);
  _ ← auth (acquired env);
  _ ← auth (verify_refresh service env (clock_after env) token);
  now ← auth (clock_now env);
  candidate ← auth (issue_candidate service env claims);
  if decide (refresh_jti candidate = current) then auth (Err InvalidPolicy)
  else if cancelled_or_closed env then auth (Err AuthCancelled)
  else commit_candidate (rotation_request service claims current candidate client now) candidate.
End service.

(** ** The durable sessions *)
(** [issued] holds every refresh identity ever stored, [rotations] the
    rotations committed, each the identity spent and its successor. *)
Record session_table : Type := mk_session_table {
  sessions : gmap str RefreshSession;
  issued : gset str;
  rotations : list (str * str);
}.

Definition rotated_session (request : RefreshRotationRequest) (s : RefreshSession) : RefreshSession :=
  mk_RefreshSession (session_subject s) (session_id s) (request_next_jti request)
    (Some (session_current_jti s)) (request_now request) (request_next_expires_at request)
    (session_revoked s) (request_client request).

Definition rotated (request : RefreshRotationRequest) (s : RefreshSession) (t : session_table)
    : session_table :=
  mk_session_table (<[request_session_id request := rotated_session request s]> (sessions t))
    ({[request_next_jti request]} ∪ issued t)
    (rotations t ++ [(request_current_jti request, request_next_jti request)]).

(** One committed transaction of any actor. *)
Inductive table_step : session_table → session_table → Prop :=
  | commit_login sid s t :
      sessions t !! sid = None → session_current_jti s ∉ issued t →
      table_step t (mk_session_table (<[sid := s]> (sessions t))
        ({[session_current_jti s]} ∪ issued t) (rotations t))
  | commit_update sid s s' t :
      sessions t !! sid = Some s → session_current_jti s' = session_current_jti s →
      (session_revoked s = true → session_revoked s' = true) →
      table_step t (mk_session_table (<[sid := s']> (sessions t)) (issued t) (rotations t))
  | commit_purge sid t :
      table_step t (mk_session_table (delete sid (sessions t)) (issued t) (rotations t))
  | commit_rotation request s t :
      sessions t !! request_session_id request = Some s →
      classify_refresh request (Some s) = Rotate → request_next_jti request ∉ issued t →
      table_step t (rotated request s t).

(** A session that can no longer be refreshed. *)
Definition unusable (sid : str) (t : session_table) : Prop :=
  ∀ s, sessions t !! sid = Some s → session_revoked s = true.

Definition at_time (now : Z) (r : RefreshRotationRequest) : RefreshRotationRequest :=
  mk_RefreshRotationRequest (request_subject r) (request_session_id r) (request_session_version r)
    (request_restriction r) (request_current_jti r) (request_valid_until r) (request_next_jti r)
    (request_next_expires_at r) (request_client r) now (request_policy r).

(** The facts that a store may know beyond the classification. *)
Definition account_rejection (reason : RefreshRejection) : Prop :=
  reason = Unavailable ∨ reason = AccountDisabled ∨ reason = Restricted.

(** A rejection and what it has committed: reuse revokes before it is
    reported. *)
Definition refused (request : RefreshRotationRequest) (reason : RefreshRejection)
    (before after : session_table) : Prop :=
  (classify_refresh request (sessions before !! request_session_id request) = Reject reason ∨
   account_rejection reason) ∧
  if decide (reason = ReuseDetected)
  then rtc table_step before after ∧ unusable (request_session_id request) after
  else after = before.

(** The documented contract: an operation takes effect after the transactions
    of others, at a time not before the request's; it classifies the session
    it then finds; a rotation is committed only for [Rotate] and to a fresh
    identity; a lost race changes nothing and is resolved by a rejection; a
    failure of the store leaves it unknown what was committed. *)
Class RefreshStoreLaws W E `{RefreshSessionStore W E} := {
  view : W → session_table;
  rotate_law request w :
    let (r, w') := rotate_refresh request w in ∃ before now,
    rtc table_step (view w) before ∧ request_now request ≤ now ∧
    match r with
    | Ok StoreRotated =>
        (∃ s, sessions before !! request_session_id request = Some s ∧
         classify_refresh (at_time now request) (Some s) = Rotate ∧
         (request_next_jti request ∉ issued before) ∧
         view w' = rotated (at_time now request) s before)
    | Ok StoreConflict => view w' = before
    | Ok (StoreRejected reason) => refused (at_time now request) reason before (view w')
    | Err _ => rtc table_step before (view w')
    end;
  resolve_law request w :
    let (r, w') := resolve_conflict request w in ∃ before now,
    rtc table_step (view w) before ∧ request_now request ≤ now ∧
    match r with
    | Ok reason => refused (at_time now request) reason before (view w')
    | Err _ => rtc table_step before (view w')
    end;
}.

(** ** The classification *)
Lemma owned_session request s :
  ¬ (session_subject s ≠ request_subject request ∨ session_id s ≠ request_session_id request ∨
     session_revoked s = true) ↔
  session_subject s = request_subject request ∧ session_id s = request_session_id request ∧
  session_revoked s = false.
Proof.
  destruct (decide (session_subject s = request_subject request)),
    (decide (session_id s = request_session_id request)), (session_revoked s); naive_solver.
Qed.

Lemma classify_rotate request session :
  classify_refresh request session = Rotate ↔
  ∃ s, session = Some s ∧ request_now request < request_valid_until request ∧
    session_subject s = request_subject request ∧ session_id s = request_session_id request ∧
    session_revoked s = false ∧ request_now request < session_expires_at s ∧
    session_current_jti s = request_current_jti request.
Proof.
  unfold classify_refresh. case_decide; [split; [done|]; intros (?&_&?&_); lia|].
  destruct session as [s|]; [|naive_solver]. split.
  - case_decide as Ho; [done|]. apply owned_session in Ho as (?&?&?). case_decide; [done|]. case_decide.
    + intros _. exists s. split_and!; done || lia.
    + destruct (request_policy request); [done|]. by destruct (_ && _).
  - intros (s' & [= <-] & ? & ? & ? & ? & ? & ?).
    rewrite decide_False by (by apply owned_session). rewrite decide_False by lia. by rewrite decide_True.
Qed.

(** The client that holds the session, as far as both tell who they are: the
    same user agent, that is not blank, and no different address. *)
Definition same_client (stored given : ClientContext) : Prop :=
  (∃ ua, user_agent stored = Some ua ∧ trim ua ≠ [] ∧ user_agent given = Some ua) ∧
  (∀ a b, ip_address stored = Some a → ip_address given = Some b → a = b).

(** The identity was spent by the last rotation, at most [seconds] ago and by
    the client that asks again. *)
Definition within_grace (policy : RefreshPolicy) (client : ClientContext) (jti : str) (now : Z)
    (s : RefreshSession) : Prop :=
  ∃ seconds, policy = SameClientWithin seconds ∧ session_previous_jti s = Some jti ∧
    in_i64 (now - session_last_seen_at s) ∧ 0 ≤ now - session_last_seen_at s ≤ seconds ∧
    same_client (session_client s) client.

(** A session of the subject that can be refreshed at the time. *)
Definition live_session (subject sid : str) (now : Z) (s : RefreshSession) : Prop :=
  session_subject s = subject ∧ session_id s = sid ∧ session_revoked s = false ∧
  now < session_expires_at s.

Lemma is_same_client_spec request s :
  is_same_client request s = true ↔ same_client (session_client s) (request_client request).
Proof.
  unfold is_same_client, same_client.
  rewrite !andb_true_iff, !orb_true_iff, !bool_decide_eq_true.
  destruct (user_agent (session_client s)) as [ua|]; [rewrite bool_decide_eq_true|naive_solver].
  destruct (ip_address (session_client s)) as [a|], (ip_address (request_client request)) as [b|];
    naive_solver.
Qed.

Lemma is_recent_spec request s seconds :
  is_recent request s seconds = true ↔
  in_i64 (request_now request - session_last_seen_at s) ∧
  0 ≤ request_now request - session_last_seen_at s ≤ seconds.
Proof.
  unfold is_recent, i64_checked_sub. case_decide; [|naive_solver].
  rewrite andb_true_iff, !bool_decide_eq_true. naive_solver.
Qed.

(** Each rejection of a spent identity or an expired one, and its reason. *)
Lemma classify_rejection request session reason :
  classify_refresh request session = Reject reason →
  match reason with
  | Expired =>
      request_valid_until request ≤ request_now request ∨
      ∃ s, session = Some s ∧ session_subject s = request_subject request ∧
        session_id s = request_session_id request ∧ session_revoked s = false ∧
        session_expires_at s ≤ request_now request
  | Stale | ReuseDetected =>
      request_now request < request_valid_until request ∧
      ∃ s, session = Some s ∧
        live_session (request_subject request) (request_session_id request) (request_now request) s ∧
        session_current_jti s ≠ request_current_jti request ∧
        (reason = Stale ↔ within_grace (request_policy request) (request_client request)
                            (request_current_jti request) (request_now request) s)
  | _ => True
  end.
Proof.
  unfold classify_refresh. case_decide as Hv; [intros [= <-]; by left|].
  destruct session as [s|]; [|by intros [= <-]].
  case_decide as Ho; [by intros [= <-]|]. apply owned_session in Ho as (?&?&?).
  case_decide as He; [intros [= <-]; right; by exists s|].
  case_decide as Hcur; [done|].
  assert (live_session (request_subject request) (request_session_id request) (request_now request) s)
    by (split_and!; done || lia).
  unfold within_grace. destruct (request_policy request) as [|seconds].
  { intros [= <-]. split; [lia|]. exists s. naive_solver. }
  destruct (_ && _) eqn:Hb; intros [= <-]; (split; [lia|]); exists s; (do 3 (split; [done|]));
    [apply andb_true_iff in Hb as [[Hp%bool_decide_eq_true Hr%is_recent_spec]%andb_true_iff
       Hc%is_same_client_spec]; naive_solver|].
  split; [done|]. intros (seconds' & [= <-] & Hp & Hi & Hage & Hc). exfalso.
  apply not_true_iff_false in Hb. apply Hb.
  rewrite (proj2 (is_recent_spec _ _ _)), (proj2 (is_same_client_spec _ _)), bool_decide_true by done.
  done.
Qed.

(** Reuse is reported only of a live session of this subject. *)
Lemma classify_reuse request session :
  classify_refresh request session = Reject ReuseDetected → is_Some session.
Proof. intros (_ & s & -> & _)%classify_rejection. by exists s. Qed.

(** ** Single use *)
Record table_inv (t : session_table) : Prop := {
  inv_current sid s : sessions t !! sid = Some s →
    session_current_jti s ∈ issued t ∧ session_current_jti s ∉ (rotations t).*1;
  inv_unique sid1 sid2 s1 s2 :
    sessions t !! sid1 = Some s1 → sessions t !! sid2 = Some s2 →
    session_current_jti s1 = session_current_jti s2 → sid1 = sid2;
  inv_issued jti : jti ∈ (rotations t).*1 ∨ jti ∈ (rotations t).*2 → jti ∈ issued t;
  inv_once : NoDup (rotations t).*1 ∧ NoDup (rotations t).*2;
}.

Lemma table_inv_replace sid s t j l :
  table_inv t → session_current_jti s = j →
  (* the identity of the session is fresh or the one it had *)
  ((j ∉ issued t) ∧ l = {[j]} ∪ issued t ∨
   (∃ s0, sessions t !! sid = Some s0 ∧ session_current_jti s0 = j) ∧ l = issued t) →
  table_inv (mk_session_table (<[sid := s]> (sessions t)) l (rotations t)).
Proof.
  intros [] Hj Hcase.
  assert (j ∉ (rotations t).*1) as Hspent.
  { destruct Hcase as [[Hf _]|[(s0 & Hs0 & <-) _]]; [|by apply (inv_current0 sid)].
    intros Hin. by apply Hf, inv_issued0; left. }
  assert (∀ sid' s', sid' ≠ sid → sessions t !! sid' = Some s' → session_current_jti s' ≠ j) as Hother.
  { intros sid' s' Hne Hs' Heq. destruct Hcase as [[Hf _]|[(s0 & Hs0 & <-) _]]; [|by eauto].
    apply Hf. rewrite <- Heq. by apply (inv_current0 sid'). }
  assert (issued t ⊆ l ∧ j ∈ l) as [Hsub Hl].
  { destruct Hcase as [[_ ->]|[(s0 & Hs0 & <-) ->]]; [set_solver|]. split; [done|]. by apply (inv_current0 sid). }
  split; cbn; [| |intros jti Hjti; by apply Hsub, inv_issued0|done].
  - intros sid' s' [[<- <-]|[Hne Hs']]%lookup_insert_Some; [by rewrite Hj|].
    destruct (inv_current0 _ _ Hs'). split; [by apply Hsub|done].
  - intros sid1 sid2 s1 s2 [[<- <-]|[Hn1 H1]]%lookup_insert_Some [[<- <-]|[Hn2 H2]]%lookup_insert_Some;
      [done| | |by eauto]; rewrite ?Hj; intros Heq; exfalso; by eapply Hother; eauto.
Qed.

Lemma elem_of_fmap_snoc {A B} (f : A → B) l x y : y ∈ f <$> l ++ [x] ↔ y ∈ f <$> l ∨ y = f x.
Proof. rewrite fmap_app, elem_of_app. cbn. by rewrite list_elem_of_singleton. Qed.

Lemma NoDup_fmap_snoc {A B} (f : A → B) l x :
  NoDup (f <$> l) → f x ∉ f <$> l → NoDup (f <$> l ++ [x]).
Proof.
  intros Hl Hx. rewrite fmap_app. apply list.NoDup_app. split; [done|].
  split; [|apply list.NoDup_singleton]. by intros y Hy ->%list_elem_of_singleton.
Qed.

Lemma table_inv_rotated request s t :
  table_inv t → sessions t !! request_session_id request = Some s →
  classify_refresh request (Some s) = Rotate → request_next_jti request ∉ issued t →
  table_inv (rotated request s t).
Proof.
  intros [] Hs (s' & [= <-] & _ & _ & _ & _ & _ & Hcur)%classify_rotate Hfresh.
  destruct (inv_current0 _ _ Hs) as [Hissued Hspent]. rewrite Hcur in Hissued, Hspent.
  assert (request_next_jti request ≠ request_current_jti request) as Hne by congruence.
  assert (∀ sid' s', sid' ≠ request_session_id request → sessions t !! sid' = Some s' →
    session_current_jti s' ≠ request_current_jti request ∧ session_current_jti s' ≠ request_next_jti request)
    as Hother.
  { intros sid' s' Hsid Hs'. split; intros Heq.
    - apply Hsid. eapply inv_unique0; [exact Hs'|exact Hs|congruence].
    - apply Hfresh. rewrite <- Heq. by eapply inv_current0. }
  assert (∀ jti, jti ∈ (rotations t).*1 ∨ jti ∈ (rotations t).*2 → jti ≠ request_next_jti request) as Hnew.
  { intros jti Hj ->. by apply Hfresh, inv_issued0. }
  destruct inv_once0 as [Honce1 Honce2].
  split; unfold rotated; cbn [sessions issued rotations].
  - intros sid' s' [[<- <-]|[Hsid Hs']]%lookup_insert_Some; cbn.
    + split; [set_solver|]. rewrite elem_of_fmap_snoc. cbn.
      intros [Hin|Heq]; [|done]. eapply Hnew; [by left|done].
    + destruct (inv_current0 _ _ Hs'). destruct (Hother sid' s'); [done..|]. split; [set_solver|].
      rewrite elem_of_fmap_snoc. cbn. tauto.
  - intros sid1 sid2 s1 s2 [[<- <-]|[Hn1 H1]]%lookup_insert_Some [[<- <-]|[Hn2 H2]]%lookup_insert_Some;
      cbn; [done| | |by eauto]; intros Heq; exfalso.
    + destruct (Hother sid2 s2); [done..|congruence].
    + destruct (Hother sid1 s1); [done..|congruence].
  - intros jti. rewrite !elem_of_fmap_snoc. cbn. set_solver.
  - split; apply NoDup_fmap_snoc; try done. intros Hj. eapply Hnew; [by right|done].
Qed.

Lemma table_step_inv t t' : table_step t t' → table_inv t → table_inv t'.
Proof.
  intros [sid s t0 Hnone Hfresh|sid s s' t0 Hs Hj _|sid t0|request s t0 Hs Hc Hf] Hinv.
  - eapply table_inv_replace; [done|done|]. by left.
  - eapply table_inv_replace; [done|done|]. right. split; [by exists s|done].
  - destruct Hinv. split; cbn; [| |done|done].
    + intros sid' s' [_ Hs']%lookup_delete_Some. eauto.
    + intros sid1 sid2 s1 s2 [_ H1]%lookup_delete_Some [_ H2]%lookup_delete_Some. eauto.
  - by apply table_inv_rotated.
Qed.

Lemma table_steps_inv t t' : rtc table_step t t' → table_inv t → table_inv t'.
Proof. induction 1; eauto using table_step_inv. Qed.

(** Nothing that was rotated is forgotten. *)
Lemma table_step_rotations t t' : table_step t t' → rotations t `prefix_of` rotations t'.
Proof. intros []; cbn; try done. by apply prefix_app_r. Qed.

Lemma table_steps_rotations t t' : rtc table_step t t' → rotations t `prefix_of` rotations t'.
Proof. induction 1; [done|]. etrans; [by apply table_step_rotations|done]. Qed.

(** ** A call *)
Section calls.
Context {Algorithm : Type} `{!JsonWebToken Algorithm, !JsonWebTokenLaws Algorithm}.
Context {W E : Type} `{!RefreshSessionStore W E, !RefreshStoreLaws W E}.
Implicit Types (w : W) (r : result (RefreshError E) RefreshOutcome).

(** A call that enters persistence, with the request and candidate it brings. *)
Definition enters (service : RefreshTokenService) (env : surroundings) (token : str)
    (client : ClientContext) (claims : TokenClaims) (current : str) (candidate : AuthTokenPair)
    (now : Z) : Prop :=
  verify_refresh service env (clock_before env) token = Ok claims ∧
  claim_jti claims = Some current ∧ acquired env = Ok tt ∧
  (∃ again, verify_refresh service env (clock_after env) token = Ok again) ∧
  clock_now env = Ok now ∧ issue_candidate service env claims = Ok candidate ∧
  refresh_jti candidate ≠ current ∧ cancelled_or_closed env = false.

Lemma refresh_enters service env token client w r w' :
  refresh_with_cancellation service env token client w = (r, w') →
  (∃ e, r = Err (AuthFailed e) ∧ w' = w) ∨
  ∃ claims current candidate now, enters service env token client claims current candidate now ∧
    commit_candidate (rotation_request service claims current candidate client now) candidate w = (r, w').
Proof.
  unfold refresh_with_cancellation, auth, pure_result, enters. rewrite bind_unfold.
  destruct (verify_refresh service env (clock_before env) token) as [claims|e]; cbn; [|naive_solver].
  rewrite bind_unfold. destruct (claim_jti claims) as [current|] eqn:Hj; cbn; [|naive_solver].
  rewrite bind_unfold. destruct (acquired env) as [[]|e]; cbn; [|naive_solver].
  rewrite bind_unfold.
  destruct (verify_refresh service env (clock_after env) token) as [again|e]; cbn; [|naive_solver].
  rewrite bind_unfold. destruct (clock_now env) as [now|e]; cbn; [|naive_solver].
  rewrite bind_unfold. destruct (issue_candidate service env claims) as [candidate|e] eqn:Hissue; cbn; [|naive_solver].
  case_decide; cbn; [naive_solver|]. destruct (cancelled_or_closed env); cbn; [naive_solver|].
  intros Hc. right. exists claims, current, candidate, now. split; [|exact Hc].
  do 3 (split; [done|]). split; [by exists again|done].
Qed.

(** What a call that has entered persistence leaves behind. *)
Lemma commit_candidate_spec request candidate w r w' :
  commit_candidate request candidate w = (r, w') →
  ∃ before now, rtc table_step (view w) before ∧ request_now request ≤ now ∧
  match r with
  | Ok (Rotated tokens) => tokens = candidate ∧
      ∃ s, sessions before !! request_session_id request = Some s ∧
        classify_refresh (at_time now request) (Some s) = Rotate ∧
        (request_next_jti request ∉ issued before) ∧ view w' = rotated (at_time now request) s before
  | Ok (Rejected reason) => refused (at_time now request) reason before (view w')
  | Err (StoreFailed _) => rtc table_step before (view w')
  | Err (AuthFailed _) => False
  end.
Proof.
  unfold commit_candidate. rewrite bind_unfold. unfold with_error at 1.
  pose proof (rotate_law request w) as Hrot. destruct (rotate_refresh request w) as [[[| |reason]|e] w1]; cbn.
  - destruct Hrot as (before & now & Hb & Hn & s & ?). intros [= <- <-]. exists before, now.
    split; [done|]. split; [done|]. split; [done|]. by exists s.
  - destruct Hrot as (before1 & now1 & Hb1 & _ & Hv).
    rewrite bind_unfold. unfold with_error.
    pose proof (resolve_law request w1) as Hres. destruct (resolve_conflict request w1) as [[reason|e] w2]; cbn;
      intros [= <- <-]; destruct Hres as (before & now & Hb & Hn & Hr); exists before, now;
      (split; [by etrans; [exact Hb1|rewrite <- Hv]|done]).
  - destruct Hrot as (before & now & ?). intros [= <- <-]. by exists before, now.
  - destruct Hrot as (before & now & ?). intros [= <- <-]. by exists before, now.
Qed.

(** Every call is a sequence of committed transactions. *)
Lemma refused_steps request reason before after :
  refused request reason before after → rtc table_step before after.
Proof. intros [_ Hr]. case_decide; [by destruct Hr|by subst]. Qed.

Lemma refresh_steps service env token client w r w' :
  refresh_with_cancellation service env token client w = (r, w') → rtc table_step (view w) (view w').
Proof.
  intros [(e & -> & ->)|(claims & current & candidate & now & _ & Hc)]%refresh_enters; [done|].
  apply commit_candidate_spec in Hc as (before & at_ & Hb & _ & Hr). etrans; [exact Hb|].
  destruct r as [[tokens|reason]|[|]]; [|by eapply refused_steps|done|done].
  destruct Hr as (_ & s & Hs & Hc & Hf & ->). apply rtc_once. by eapply commit_rotation.
Qed.

(** ** Histories *)
Definition spent (service : RefreshTokenService) (env : surroundings) (token : str) : option str :=
  match verify_refresh service env (clock_before env) token with
  | Ok claims => claim_jti claims
  | Err _ => None
  end.

(** The pair that a call hands to its client, with the identity it was given
    for. *)
Definition handed_out (jti : option str) (r : result (RefreshError E) RefreshOutcome)
    : list (str * AuthTokenPair) :=
  match jti, r with Some jti, Ok (Rotated tokens) => [(jti, tokens)] | _, _ => [] end.

(** Any number of services, calls and other actors on one store. *)
Inductive service_step : W * list (str * AuthTokenPair) → W * list (str * AuthTokenPair) → Prop :=
  | step_others w w' released :
      rtc table_step (view w) (view w') → service_step (w, released) (w', released)
  | step_refresh service env token client w r w' released :
      refresh_with_cancellation service env token client w = (r, w') →
      service_step (w, released) (w', released ++ handed_out (spent service env token) r).

Definition exchanged (x : str * AuthTokenPair) : str * str := (x.1, refresh_jti x.2).

Lemma rotated_call service env token client w tokens w' :
  refresh_with_cancellation service env token client w = (Ok (Rotated tokens), w') →
  ∃ jti before, spent service env token = Some jti ∧ rtc table_step (view w) before ∧
    rotations (view w') = rotations before ++ [(jti, refresh_jti tokens)] ∧
    (table_inv before → jti ∉ (rotations before).*1).
Proof.
  intros [(e & [=] & _)|(claims & current & candidate & now & Hent & Hc)]%refresh_enters.
  apply commit_candidate_spec in Hc as (before & at_ & Hb & _ & -> & s & Hs & Hcl & _ & Hv).
  destruct Hent as (Hver & Hjti & _). exists current, before. unfold spent. rewrite Hver.
  split; [done|]. split; [done|]. split; [by rewrite Hv|].
  intros Hinv. apply classify_rotate in Hcl as (s' & [= <-] & _ & _ & _ & _ & _ & Hcur). cbn in Hcur.
  rewrite <- Hcur. by eapply inv_current.
Qed.

Lemma service_step_sound x y :
  service_step x y → rtc table_step (view x.1) (view y.1) ∧
  ∃ l new, y.2 = x.2 ++ l ∧ rotations (view x.1) ++ new `prefix_of` rotations (view y.1) ∧
    exchanged <$> l `sublist_of` new.
Proof.
  intros [w w' released Hs|service env token client w r w' released Hc]; cbn.
  - split; [done|]. exists [], []. rewrite !app_nil_r. split; [done|]. split; [|done].
    by apply table_steps_rotations.
  - split; [by eapply refresh_steps|]. exists (handed_out (spent service env token) r).
    destruct r as [[tokens|reason]|e].
    + pose proof (rotated_call _ _ _ _ _ _ _ Hc) as (jti & before & Hsp & Hb & Hrot & _).
      rewrite Hsp. apply table_steps_rotations in Hb as [new Hnew].
      exists (new ++ [(jti, refresh_jti tokens)]). split; [done|].
      split; [rewrite Hrot, Hnew; by rewrite <- app_assoc|]. cbn. by apply sublist_inserts_l.
    + exists []. split; [done|]. rewrite app_nil_r.
      split; [by eapply table_steps_rotations, refresh_steps|by destruct (spent _ _ _)].
    + exists []. split; [done|]. rewrite app_nil_r.
      split; [by eapply table_steps_rotations, refresh_steps|by destruct (spent _ _ _)].
Qed.

Lemma service_steps_sound x y :
  rtc service_step x y → x.2 = [] → rtc table_step (view x.1) (view y.1) ∧ ∃ new,
    rotations (view x.1) ++ new `prefix_of` rotations (view y.1) ∧ exchanged <$> y.2 `sublist_of` new.
Proof.
  intros Hs Hnil. revert y Hs. refine (rtc_ind_r _ _ _ _); [|intros y z _ Hz IH].
  - split; [done|]. exists []. by rewrite Hnil, app_nil_r.
  - destruct IH as [IHs (new & Hnew & Hsub)].
    apply service_step_sound in Hz as [Hz (l & new' & Hl & Hnew' & Hsub')].
    split; [by etrans|]. destruct Hnew as [k Hk]. exists (new ++ k ++ new').
    rewrite Hk in Hnew'. split; [by rewrite <- !app_assoc in Hnew'|].
    rewrite Hl, fmap_app. apply sublist_app; [done|]. by apply sublist_inserts_l.
Qed.
End calls.

(** C11. A refresh token is exchanged at most once.  Whatever calls of whatever
    services, with whatever tokens, clients, clocks and failures, run on one
    store that keeps its contract, and whatever other actors commit: the pairs
    handed out to clients were given for distinct token identities, have
    distinct new identities, and each was committed as a rotation of the
    session; and once an identity has been rotated - also when the answer was
    lost - no later call hands out a pair for it. *)
Theorem refresh_single_use `{!JsonWebToken Algorithm, !JsonWebTokenLaws Algorithm}
    `{!RefreshSessionStore W E, !RefreshStoreLaws W E} (w0 w : W) released :
  table_inv (view w0) → rtc service_step (w0, []) (w, released) →
  NoDup released.*1 ∧ NoDup ((λ x, refresh_jti x.2) <$> released) ∧
  (∃ new, rotations (view w0) ++ new `prefix_of` rotations (view w) ∧
     exchanged <$> released `sublist_of` new) ∧
  (∀ service env token client r w' jti,
     refresh_with_cancellation service env token client w = (r, w') →
     spent service env token = Some jti → jti ∈ (rotations (view w)).*1 →
     ∀ tokens, r ≠ Ok (Rotated tokens)).
Proof.
  intros Hinv0 Hs.
  destruct (service_steps_sound _ _ Hs eq_refl) as [Hsteps (new & Hnew & Hsub)]. cbn in *.
  pose proof (table_steps_inv _ _ Hsteps Hinv0) as Hinv. destruct (inv_once _ Hinv) as [Honce1 Honce2].
  assert (exchanged <$> released `sublist_of` rotations (view w)) as Hall.
  { destruct Hnew as [k ->]. apply sublist_inserts_r, sublist_inserts_l. done. }
  split; [|split; [|split; [by exists new|]]].
  - assert (released.*1 = (exchanged <$> released).*1) as -> by (by rewrite <- list_fmap_compose).
    eapply sublist_NoDup; [exact Honce1|]. by apply fmap_sublist.
  - assert (((λ x, refresh_jti x.2) <$> released) = (exchanged <$> released).*2) as ->
      by (by rewrite <- list_fmap_compose).
    eapply sublist_NoDup; [exact Honce2|]. by apply fmap_sublist.
  - intros service env token client r w' jti Hc Hsp Hin tokens ->.
    apply rotated_call in Hc as (jti' & before & Hsp' & Hb & _ & Hnot). rewrite Hsp in Hsp'.
    injection Hsp' as <-. apply Hnot; [by eapply table_steps_inv|].
    destruct (table_steps_rotations _ _ Hb) as [k ->]. rewrite fmap_app. set_solver.
Qed.


(** ** An instance *)
(** A store in memory with nobody else around: one transaction per call. *)
Module RefreshDemo.
Import (hints) AuthToken.Demo.
Definition revoke (s : RefreshSession) : RefreshSession :=
  mk_RefreshSession (session_subject s) (session_id s) (session_current_jti s) (session_previous_jti s)
    (session_last_seen_at s) (session_expires_at s) true (session_client s).

Definition with_session (sid : str) (s : RefreshSession) (t : session_table) : session_table :=
  mk_session_table (<[sid := s]> (sessions t)) (issued t) (rotations t).

Definition reject (request : RefreshRotationRequest) (reason : RefreshRejection) (t : session_table)
    : session_table :=
  match sessions t !! request_session_id request with
  | Some s => if decide (reason = ReuseDetected) then with_session (request_session_id request) (revoke s) t else t
  | None => t
  end.

Definition rotate (request : RefreshRotationRequest) (t : session_table)
    : result string RefreshStoreOutcome * session_table :=
  match sessions t !! request_session_id request with
  | Some s =>
      match classify_refresh request (Some s) with
      | Rotate => if decide (request_next_jti request ∈ issued t) then (Err "unique constraint"%string, t)
                  else (Ok StoreRotated, rotated request s t)
      | Reject reason => (Ok (StoreRejected reason), reject request reason t)
      end
  | None => (Ok (StoreRejected Unavailable), t)
  end.

Definition resolve (request : RefreshRotationRequest) (t : session_table)
    : result string RefreshRejection * session_table :=
  match classify_refresh request (sessions t !! request_session_id request) with
  | Rotate => (Err "conflict persists"%string, t)
  | Reject reason => (Ok reason, reject request reason t)
  end.

#[export] Instance store : RefreshSessionStore session_table string := {
  rotate_refresh := rotate;
  resolve_conflict := resolve;
}.

Lemma at_time_now request : at_time (request_now request) request = request.
Proof. by destruct request. Qed.

Lemma reject_refused request reason t :
  classify_refresh request (sessions t !! request_session_id request) = Reject reason →
  refused request reason t (reject request reason t).
Proof.
  intros Hc. split; [by left|]. unfold reject.
  destruct (sessions t !! request_session_id request) as [s|] eqn:Hs.
  - case_decide as Hr; [|done]. split.
    + apply rtc_once. by apply (commit_update _ s).
    + intros s'. cbn. rewrite lookup_insert_eq. by intros [= <-].
  - case_decide as Hr; [|done]. subst. by apply classify_reuse in Hc as [].
Qed.

#[export] Instance store_laws : RefreshStoreLaws session_table string.
Proof.
  refine {| view := id |}.
  - intros request t. cbn. unfold rotate.
    destruct (sessions t !! request_session_id request) as [s|] eqn:Hs.
    + destruct (classify_refresh request (Some s)) eqn:Hc.
      * case_decide; exists t, (request_now request); rewrite ?at_time_now;
          (split; [done|]); (split; [lia|]); [done|]. by exists s.
      * exists t, (request_now request). rewrite ?at_time_now. split; [done|]. split; [lia|].
        apply reject_refused. by rewrite Hs.
    + exists t, (request_now request). rewrite ?at_time_now. split; [done|]. split; [lia|].
      split; [right; by left|]. by rewrite decide_False.
  - intros request t. cbn. unfold resolve.
    destruct (classify_refresh request _) eqn:Hc; exists t, (request_now request); rewrite ?at_time_now;
      (split; [done|]); (split; [lia|]); [done|]. by apply reject_refused.
Defined.

Definition service : RefreshTokenService :=
  mk_RefreshTokenService AuthToken.Demo.key AuthToken.Demo.policy AuthToken.Demo.key
    AuthToken.Demo.policy Strict.
Definition env (now : Z) (jti : string) : surroundings :=
  mk_surroundings true (Ok now) (Ok tt) (Ok now) (Ok now) (Ok now) (Ok (lit jti)) false.
Definition client : ClientContext := mk_ClientContext None None.

(** The session of the pair that [AuthToken.Demo] issues. *)
Definition login : session_table :=
  mk_session_table
    {[lit "s1" := mk_RefreshSession (lit "alice") (lit "s1") (lit "j1") None 1000 87400 false client]}
    {[lit "j1"]} [].

Definition call (now : Z) (jti : string) (token : str) : session_table → _ :=
  refresh_with_cancellation (Algorithm := nat) service (env now jti) token client.
Definition first : session_table := (call 1500 "j2" (refresh_token AuthToken.Demo.tokens) login).2.
End RefreshDemo.
Import (hints) AuthToken.Demo.
Import (hints) RefreshDemo.

Lemma login_inv : table_inv RefreshDemo.login.
Proof.
  assert (∀ sid s, sessions RefreshDemo.login !! sid = Some s → sid = lit "s1" ∧ session_current_jti s = lit "j1")
    as Hone by (cbn; by intros sid s [<- <-]%lookup_singleton_Some).
  split.
  - intros sid s [_ ->]%Hone. split; [cbn; set_solver|cbn; by intros ?%elem_of_nil].
  - by intros sid1 sid2 s1 s2 [-> _]%Hone [-> _]%Hone.
  - intros jti [?%elem_of_nil|?%elem_of_nil]; done.
  - split; constructor.
Qed.

(** The first exchange gives a pair; replaying the token gives none. *)
Lemma refresh_single_use_witness :
  (match (RefreshDemo.call 1500 "j2" (refresh_token AuthToken.Demo.tokens) RefreshDemo.login).1 with
   | Ok (Rotated tokens) => bool_decide (refresh_jti tokens = lit "j2")
   | _ => false
   end = true) ∧
  ∀ tokens,
    (RefreshDemo.call 1600 "j3" (refresh_token AuthToken.Demo.tokens) RefreshDemo.first).1 ≠
      Ok (Rotated tokens).
Proof.
  split; [vm_compute; reflexivity|].
  intros tokens.
  pose proof (rtc_once _ _ (step_refresh (Algorithm := nat) (E := string) RefreshDemo.service
    (RefreshDemo.env 1500 "j2") (refresh_token AuthToken.Demo.tokens) RefreshDemo.client
    RefreshDemo.login _ RefreshDemo.first [] (surjective_pairing _))) as Hs.
  refine (proj2 (proj2 (proj2 (refresh_single_use _ _ _ login_inv Hs))) RefreshDemo.service
    (RefreshDemo.env 1600 "j3") (refresh_token AuthToken.Demo.tokens) RefreshDemo.client _ _ (lit "j1")
    (surjective_pairing _) _ _ tokens).
  - vm_compute. reflexivity.
  - vm_compute. left.
Defined.

