(* ===== verification/AuthCoordinator.v ===== *)
(** * The refresh coordinator

    [aster_forge_auth/src/coordinator.rs]: a bounded table of locks, one per
    refresh identity in use, that serializes the requests of one token and
    forgets a lock with its last reservation.

    [acquire] and the drop of a [Reservation] run on any number of threads, so
    they are split at the accesses to shared state: the closed token, the
    semaphore, the critical sections of the map's mutex, the polls of the
    [select!] and the drops of the two strong references.  A request is an
    entry of a list, its phase the point it has reached; a lock is a number
    that is never reused while a weak reference remains.  That a
    [tokio::sync::Mutex] is granted to one owner at a time, and that an [Arc]
    counts its strong references, is the documented behaviour of these
    types. *)
From S2P Require Export AuthToken.

(** ** State *)
Inductive phase : Type :=
  | Entered                  (* past the check for closed and cancelled *)
  | Permitted                (* owns a permit of the budget *)
  | Waiting (lock : nat)     (* in [select!]: the future and the reservation refer to the lock *)
  | Polled (lock : nat)      (* this poll saw neither token cancelled *)
  | Holding (lock : nat)     (* the guard and the reservation refer to the lock *)
  | Dropping (lock : nat)    (* future or guard gone, the reservation's reference left *)
  | Dropped                  (* no reference left; the map is still to be cleaned *)
  | Cleaned                  (* the permit is still to be returned *)
  | Gone.

#[export] Instance phase_eq_dec : EqDecision phase.
Proof. solve_decision. Defined.

Record request : Type := mk_request {
  request_jti : str;
  request_phase : phase;
}.

Record Inner : Type := mk_Inner {
  locks : gmap str nat;
  available_permits : Z;
  maximum : Z;
  closed : bool;
  requests : list request;
  next_lock : nat;
}.

(** The strong references to a lock that a request owns, and its permit. *)
Definition references (p : phase) : option (nat * nat) :=
  match p with
  | Waiting l | Polled l | Holding l => Some (l, 2%nat)
  | Dropping l => Some (l, 1%nat)
  | _ => None
  end.

Definition references_to (lock : nat) (r : request) : nat :=
  match references (request_phase r) with
  | Some (l, n) => if decide (l = lock) then n else 0
  | None => 0
  end.

Definition strong_count (lock : nat) (s : Inner) : nat :=
  sum_list_with (references_to lock) (requests s).

Definition owns_permit (r : request) : bool :=
  match request_phase r with Entered | Gone => false | _ => true end.

(** ** Operations *)
(** [Semaphore::MAX_PERMITS] is [usize::MAX >> 3]. *)
Definition MAX_PERMITS : Z := U64_MAX / 8.

Definition from_limit (maximum : Z) : Inner := mk_Inner ∅ maximum maximum false [] 0.

Definition RefreshCoordinator_new (maximum : Z) : result AuthError Inner :=
  if decide (maximum = 0 ∨ MAX_PERMITS < maximum) then Err InvalidPolicy else Ok (from_limit maximum).

Definition active_requests (s : Inner) : Z := maximum s - available_permits s.
Definition tracked_ids (s : Inner) : nat := size (locks s).

Definition with_request (i : nat) (p : phase) (s : Inner) : Inner :=
  mk_Inner (locks s) (available_permits s) (maximum s) (closed s)
    (alter (λ r, mk_request (request_jti r) p) i (requests s)) (next_lock s).
Definition with_locks (m : gmap str nat) (next : nat) (s : Inner) : Inner :=
  mk_Inner m (available_permits s) (maximum s) (closed s) (requests s) next.
Definition with_available (n : Z) (s : Inner) : Inner :=
  mk_Inner (locks s) n (maximum s) (closed s) (requests s) (next_lock s).

Definition close (s : Inner) : Inner :=
  mk_Inner (locks s) (available_permits s) (maximum s) true (requests s) (next_lock s).

(** The check at the head of [acquire]. *)
Definition enter (cancelled : bool) (jti : str) (s : Inner) : result AuthError Inner :=
  if closed s || cancelled then Err AuthCancelled
  else Ok (mk_Inner (locks s) (available_permits s) (maximum s) (closed s)
    (requests s ++ [mk_request jti Entered]) (next_lock s)).

(** [try_acquire_owned]. *)
Definition take_permit (i : nat) (s : Inner) : result AuthError Inner :=
  if decide (available_permits s = 0) then Err ResourceLimit
  else Ok (with_request i Permitted (with_available (available_permits s - 1) s)).

(** The critical section of [acquire]: the live lock of the map, or a new
    one. *)
Definition register (i : nat) (jti : str) (s : Inner) : Inner :=
  match locks s !! jti with
  | Some lock =>
      if decide (strong_count lock s = 0)%nat
      then with_request i (Waiting (next_lock s))
             (with_locks (<[jti := next_lock s]> (locks s)) (S (next_lock s)) s)
      else with_request i (Waiting lock) s
  | None => with_request i (Waiting (next_lock s))
              (with_locks (<[jti := next_lock s]> (locks s)) (S (next_lock s)) s)
  end.

(** The critical section of [Reservation::drop]. *)
Definition clean (i : nat) (jti : str) (s : Inner) : Inner :=
  match locks s !! jti with
  | Some lock =>
      if decide (strong_count lock s = 0)%nat
      then with_request i Cleaned (with_locks (delete jti (locks s)) (next_lock s) s)
      else with_request i Cleaned s
  | None => with_request i Cleaned s
  end.

Definition return_permit (i : nat) (s : Inner) : Inner :=
  with_request i Gone (with_available (available_permits s + 1) s).

(** Some request owns the mutex. *)
Definition is_held (lock : nat) (s : Inner) : bool :=
  existsb (λ r, bool_decide (request_phase r = Holding lock)) (requests s).

(** One access of one thread. *)
Inductive coordinator_step : Inner → Inner → Prop :=
  | step_close s : coordinator_step s (close s)
  | step_enter cancelled jti s s' : enter cancelled jti s = Ok s' → coordinator_step s s'
  | step_permit i jti s s' :
      requests s !! i = Some (mk_request jti Entered) → take_permit i s = Ok s' → coordinator_step s s'
  | step_refused i jti e s :
      requests s !! i = Some (mk_request jti Entered) → take_permit i s = Err e →
      coordinator_step s (with_request i Gone s)
  | step_register i jti s :
      requests s !! i = Some (mk_request jti Permitted) → coordinator_step s (register i jti s)
  | step_poll i jti lock s :
      requests s !! i = Some (mk_request jti (Waiting lock)) → closed s = false →
      coordinator_step s (with_request i (Polled lock) s)
  | step_pending i jti lock s :
      requests s !! i = Some (mk_request jti (Polled lock)) → is_held lock s = true →
      coordinator_step s (with_request i (Waiting lock) s)
  | step_granted i jti lock s :
      requests s !! i = Some (mk_request jti (Polled lock)) → is_held lock s = false →
      coordinator_step s (with_request i (Holding lock) s)
  | step_abandon i jti lock s :
      (* cancelled, closed, or the caller dropped the future *)
      requests s !! i = Some (mk_request jti (Waiting lock)) →
      coordinator_step s (with_request i (Dropping lock) s)
  | step_release i jti lock s :
      requests s !! i = Some (mk_request jti (Holding lock)) →
      coordinator_step s (with_request i (Dropping lock) s)
  | step_drop i jti lock s :
      requests s !! i = Some (mk_request jti (Dropping lock)) →
      coordinator_step s (with_request i Dropped s)
  | step_clean i jti s :
      requests s !! i = Some (mk_request jti Dropped) → coordinator_step s (clean i jti s)
  | step_return i jti s :
      requests s !! i = Some (mk_request jti Cleaned) → coordinator_step s (return_permit i s).

Definition coordinator_reachable (limit : Z) (s : Inner) : Prop :=
  ∃ s0, RefreshCoordinator_new limit = Ok s0 ∧ rtc coordinator_step s0 s.

(** ** Counting *)
Lemma sum_list_with_alter {A} (f : A → nat) (g : A → A) i l x :
  l !! i = Some x → (sum_list_with f (alter g i l) + f x = sum_list_with f l + f (g x))%nat.
Proof.
  revert i. induction l as [|y l IH]; intros [|i] Hx; try done.
  - injection Hx as ->. cbn. lia.
  - specialize (IH i Hx). change (alter g (S i) (y :: l)) with (y :: alter g i l). cbn [sum_list_with]. lia.
Qed.

Lemma sum_list_with_zero {A} (f : A → nat) l :
  sum_list_with f l = 0%nat ↔ ∀ i x, l !! i = Some x → f x = 0%nat.
Proof.
  induction l as [|y l IH]; cbn; [done|]. split.
  - intros Hs [|i] x; cbn; [intros [= <-]; lia|]. apply IH. lia.
  - intros Hall. rewrite (Hall 0%nat y eq_refl). apply IH. intros i. apply (Hall (S i)).
Qed.

Definition permits (s : Inner) : nat := sum_list_with (λ r, Nat.b2n (owns_permit r)) (requests s).

#[local] Arguments permits : simpl never.
#[local] Arguments with_request : simpl never.

(** A request with a strong reference to a lock. *)
Definition refers (r : request) (lock : nat) : Prop := ∃ n, references (request_phase r) = Some (lock, n).

Lemma strong_count_zero lock s :
  strong_count lock s = 0%nat ↔ ∀ i r, requests s !! i = Some r → ¬ refers r lock.
Proof.
  unfold strong_count. rewrite sum_list_with_zero.
  assert (∀ r, references_to lock r = 0%nat ↔ ¬ refers r lock) as Hr; [|by setoid_rewrite Hr].
  intros r. unfold references_to, refers. destruct (request_phase r); cbn; try case_decide; naive_solver.
Qed.

Lemma is_held_true lock s :
  is_held lock s = true ↔ ∃ i r, requests s !! i = Some r ∧ request_phase r = Holding lock.
Proof.
  unfold is_held. rewrite existsb_exists. setoid_rewrite bool_decide_eq_true. split.
  - intros (r & [i Hi]%list_elem_of_In%list_elem_of_lookup & Hr). eauto.
  - intros (i & r & Hi & Hr). exists r. split; [|done]. by eapply list_elem_of_In, list_elem_of_lookup_2.
Qed.

Lemma with_request_lookup i p s j r jti q :
  requests s !! i = Some (mk_request jti q) →
  requests (with_request i p s) !! j = Some r ↔
  j = i ∧ r = mk_request jti p ∨ j ≠ i ∧ requests s !! j = Some r.
Proof.
  intros Hi. unfold with_request. cbn. destruct (decide (j = i)) as [->|Hne].
  - rewrite list_lookup_alter_eq, Hi. cbn. naive_solver.
  - rewrite list_lookup_alter_ne by done. naive_solver.
Qed.

Lemma with_request_permits i p s jti q :
  requests s !! i = Some (mk_request jti q) →
  (permits (with_request i p s) + Nat.b2n (owns_permit (mk_request jti q)) =
   permits s + Nat.b2n (owns_permit (mk_request jti p)))%nat.
Proof.
  intros Hi. exact (sum_list_with_alter (λ r, Nat.b2n (owns_permit r))
    (λ r, mk_request (request_jti r) p) _ _ _ Hi).
Qed.

(** ** The invariant *)
Record coordinator_inv (limit : Z) (s : Inner) : Prop := {
  inv_maximum : maximum s = limit;
  inv_budget : 0 ≤ available_permits s ∧ available_permits s + Z.of_nat (permits s) = limit;
  inv_mapped i r lock :
    requests s !! i = Some r → refers r lock → locks s !! request_jti r = Some lock;
  inv_tracked jti lock : locks s !! jti = Some lock →
    ∃ i r, requests s !! i = Some r ∧ request_jti r = jti ∧
      (refers r lock ∨ request_phase r = Dropped);
  inv_held i j ri rj lock :
    requests s !! i = Some ri → requests s !! j = Some rj →
    request_phase ri = Holding lock → request_phase rj = Holding lock → i = j;
  inv_next jti lock : locks s !! jti = Some lock → (lock < next_lock s)%nat;
  inv_injective jti1 jti2 lock :
    locks s !! jti1 = Some lock → locks s !! jti2 = Some lock → jti1 = jti2;
}.

Lemma inv_from_limit limit : 0 ≤ limit → coordinator_inv limit (from_limit limit).
Proof. intros. split; cbn; try done. unfold permits. cbn. lia. Qed.

(** A request moves on without a change of the map or of its permit. *)
Lemma inv_move limit i jti q p s :
  coordinator_inv limit s → requests s !! i = Some (mk_request jti q) →
  owns_permit (mk_request jti q) = owns_permit (mk_request jti p) →
  (∀ lock, refers (mk_request jti p) lock → refers (mk_request jti q) lock) →
  (∀ lock, refers (mk_request jti q) lock → refers (mk_request jti p) lock ∨ p = Dropped) →
  q ≠ Dropped → (∀ lock, p = Holding lock → is_held lock s = false) →
  coordinator_inv limit (with_request i p s).
Proof.
  intros [] Hi Howns Hnew Hold Hq Hheld.
  assert (∀ j r, requests (with_request i p s) !! j = Some r ↔
    j = i ∧ r = mk_request jti p ∨ j ≠ i ∧ requests s !! j = Some r) as Hlook
    by (intros; by eapply with_request_lookup).
  split; try done.
  - pose proof (with_request_permits i p s jti q Hi) as Hper. rewrite Howns in Hper.
    change (available_permits (with_request i p s)) with (available_permits s).
    lia.
  - intros j r lock [[-> ->]|[Hne Hj]]%Hlook Hr; cbn; [|eauto].
    apply (inv_mapped0 i (mk_request jti q) lock Hi). by apply Hnew.
  - intros jti' lock Hl. destruct (inv_tracked0 _ _ Hl) as (j & r & Hj & Hjti & Hr).
    destruct (decide (j = i)) as [->|Hne].
    + rewrite Hi in Hj. injection Hj as <-. exists i, (mk_request jti p). rewrite Hlook.
      split; [by left|]. split; [done|]. destruct Hr as [Hr|Hr]; [|done]. by apply Hold.
    + exists j, r. rewrite Hlook. auto.
  - intros j k rj rk lock [[-> ->]|[Hj Hrj]]%Hlook [[-> ->]|[Hk Hrk]]%Hlook; cbn; [done| | |eauto];
      intros H1 H2; exfalso.
    + assert (is_held lock s = true) as Ht by (apply is_held_true; eauto). by rewrite Hheld in Ht.
    + assert (is_held lock s = true) as Ht by (apply is_held_true; eauto). by rewrite Hheld in Ht.
Qed.

(** A request gains or returns its permit; it has no reference. *)
Lemma inv_budget_move limit i jti q p n s :
  coordinator_inv limit s → requests s !! i = Some (mk_request jti q) →
  references q = None → references p = None → q ≠ Dropped → 0 ≤ n →
  n + Z.of_nat (Nat.b2n (owns_permit (mk_request jti p))) =
    available_permits s + Z.of_nat (Nat.b2n (owns_permit (mk_request jti q))) →
  coordinator_inv limit (with_request i p (with_available n s)).
Proof.
  intros [] Hi Hq Hp Hnd Hn Hbal. set (s1 := with_available n s).
  assert (∀ j r, requests (with_request i p s1) !! j = Some r ↔
    j = i ∧ r = mk_request jti p ∨ j ≠ i ∧ requests s !! j = Some r) as Hlook
    by (intros; by apply (with_request_lookup i p s1 j r jti q)).
  split; try done.
  - pose proof (with_request_permits i p s1 jti q Hi) as Hper.
    change (available_permits (with_request i p s1)) with n. change (permits s1) with (permits s) in Hper.
    destruct inv_budget0. split; [done|]. lia.
  - intros j r lock [[-> ->]|[Hne Hj]]%Hlook [k Hr]; cbn in *; [congruence|]. eapply inv_mapped0; [done|by exists k].
  - intros jti' lock Hl. destruct (inv_tracked0 _ _ Hl) as (j & r & Hj & Hjti & Hr).
    exists j, r. rewrite Hlook. split; [|done]. right. split; [|done]. intros ->.
    rewrite Hi in Hj. injection Hj as <-. destruct Hr as [[k Hr]|Hr]; cbn in Hr; congruence.
  - intros j k rj rk lock [[-> ->]|[Hj Hrj]]%Hlook [[-> ->]|[Hk Hrk]]%Hlook; cbn; [done| | |eauto];
      intros H1 H2; exfalso; subst p; discriminate Hp.
Qed.

Lemma inv_enter limit cancelled jti s s' :
  coordinator_inv limit s → enter cancelled jti s = Ok s' → coordinator_inv limit s'.
Proof.
  unfold enter. destruct (closed s || cancelled); [done|]. intros [] [= <-].
  assert (∀ j r, (requests s ++ [mk_request jti Entered]) !! j = Some r →
    requests s !! j = Some r ∨ r = mk_request jti Entered) as Hlook.
  { intros j r [?|[_ Hr]]%lookup_app_Some; [by left|right].
    destruct (j - length (requests s))%nat; cbn in Hr; [by injection Hr as <-|done]. }
  split; cbn; try done.
  - unfold permits. cbn. rewrite sum_list_with_app. cbn. unfold permits in inv_budget0. lia.
  - intros j r lock [Hj| ->]%Hlook Hr; [eauto|by destruct Hr].
  - intros jti' lock Hl. destruct (inv_tracked0 _ _ Hl) as (j & r & Hj & Hr). exists j, r.
    split; [by apply lookup_app_l_Some|done].
  - intros j k rj rk lock [Hj| ->]%Hlook [Hk| ->]%Hlook; cbn; try done. eauto.
Qed.

(** A new lock replaces one that nobody refers to. *)
Lemma inv_register_new limit i jti s :
  coordinator_inv limit s → requests s !! i = Some (mk_request jti Permitted) →
  (∀ lock, locks s !! jti = Some lock → strong_count lock s = 0%nat) →
  coordinator_inv limit (with_request i (Waiting (next_lock s))
    (with_locks (<[jti := next_lock s]> (locks s)) (S (next_lock s)) s)).
Proof.
  intros [] Hi Hdead. set (s1 := with_locks _ _ s).
  assert (∀ j r, requests (with_request i (Waiting (next_lock s)) s1) !! j = Some r ↔
    j = i ∧ r = mk_request jti (Waiting (next_lock s)) ∨ j ≠ i ∧ requests s !! j = Some r) as Hlook
    by (intros; by apply (with_request_lookup i _ s1 j r jti Permitted)).
  assert (∀ jti' lock, locks s1 !! jti' = Some lock ↔
    jti' = jti ∧ lock = next_lock s ∨ jti' ≠ jti ∧ locks s !! jti' = Some lock) as Hmap.
  { intros jti' lock. cbn. rewrite lookup_insert_Some. naive_solver. }
  split; try done.
  - pose proof (with_request_permits i (Waiting (next_lock s)) s1 jti Permitted Hi) as Hper.
    change (permits s1) with (permits s) in Hper. cbn in Hper.
    change (available_permits (with_request i (Waiting (next_lock s)) s1)) with (available_permits s). lia.
  - intros j r lock [[-> ->]|[Hne Hj]]%Hlook Hr; apply Hmap.
    + left. destruct Hr as [k Hr]. cbn in Hr. by injection Hr as -> _.
    + right. pose proof (inv_mapped0 _ _ _ Hj Hr) as Hl. split; [|done]. intros Heq. rewrite Heq in Hl.
      by apply (proj1 (strong_count_zero lock s) (Hdead _ Hl) j r).
  - intros jti' lock [[-> ->]|[Hne Hl]]%Hmap.
    + exists i, (mk_request jti (Waiting (next_lock s))). rewrite Hlook. split; [by left|]. split; [done|].
      left. by eexists.
    + destruct (inv_tracked0 _ _ Hl) as (j & r & Hj & Hjti & Hr). exists j, r. rewrite Hlook.
      split; [|done]. right. split; [|done]. intros ->. rewrite Hi in Hj. by injection Hj as <-.
  - intros j k rj rk lock [[-> ->]|[Hj Hrj]]%Hlook [[-> ->]|[Hk Hrk]]%Hlook; cbn; try done. eauto.
  - intros jti' lock [[-> ->]|[Hne Hl]]%Hmap; unfold with_request; cbn; [lia|]. specialize (inv_next0 _ _ Hl). lia.
  - intros jti1 jti2 lock [[-> ->]|[Hne1 Hl1]]%Hmap [[-> Heq]|[Hne2 Hl2]]%Hmap; [done| | |eauto]; exfalso.
    + specialize (inv_next0 _ _ Hl2). lia.
    + subst. specialize (inv_next0 _ _ Hl1). lia.
Qed.

Lemma inv_register limit i jti s :
  coordinator_inv limit s → requests s !! i = Some (mk_request jti Permitted) →
  coordinator_inv limit (register i jti s).
Proof.
  intros Hinv Hi. unfold register. destruct (locks s !! jti) as [lock|] eqn:Hl.
  2: by apply inv_register_new; [| |congruence].
  case_decide as Hc; [by apply inv_register_new; [| |congruence]|].
  pose proof Hinv as [].
  assert (∀ j r, requests (with_request i (Waiting lock) s) !! j = Some r ↔
    j = i ∧ r = mk_request jti (Waiting lock) ∨ j ≠ i ∧ requests s !! j = Some r) as Hlook
    by (intros; by apply (with_request_lookup i _ s j r jti Permitted)).
  split; try done.
  - pose proof (with_request_permits i (Waiting lock) s jti Permitted Hi) as Hper. cbn in Hper.
    change (available_permits (with_request i (Waiting lock) s)) with (available_permits s). lia.
  - intros j r lock' [[-> ->]|[Hne Hj]]%Hlook Hr; [|by eapply inv_mapped0].
    destruct Hr as [k Hr]. cbn in Hr. injection Hr as <- _. exact Hl.
  - intros jti' lock' Hl'. destruct (inv_tracked0 _ _ Hl') as (j & r & Hj & Hr). exists j, r.
    rewrite Hlook. split; [|done]. right. split; [|done]. intros ->. rewrite Hi in Hj.
    injection Hj as <-. destruct Hr as (_ & [[k Hr]|Hr]); by cbn in Hr.
  - intros j k rj rk lock' [[-> ->]|[Hj Hrj]]%Hlook [[-> ->]|[Hk Hrk]]%Hlook; cbn; try done. eauto.
Qed.

Lemma inv_clean limit i jti s :
  coordinator_inv limit s → requests s !! i = Some (mk_request jti Dropped) →
  coordinator_inv limit (clean i jti s).
Proof.
  intros [] Hi. set (m := match locks s !! jti with
    | Some lock => if decide (strong_count lock s = 0%nat) then delete jti (locks s) else locks s
    | None => locks s end).
  assert (clean i jti s = with_request i Cleaned (with_locks m (next_lock s) s)) as ->.
  { unfold clean, m. destruct (locks s !! jti); [case_decide|]; [done|by destruct s..]. }
  set (s1 := with_locks m (next_lock s) s).
  assert (∀ j r, requests (with_request i Cleaned s1) !! j = Some r ↔
    j = i ∧ r = mk_request jti Cleaned ∨ j ≠ i ∧ requests s !! j = Some r) as Hlook
    by (intros; by apply (with_request_lookup i _ s1 j r jti Dropped)).
  assert (∀ jti' lock, m !! jti' = Some lock →
    locks s !! jti' = Some lock ∧ (jti' = jti → strong_count lock s ≠ 0%nat)) as Hsub.
  { intros jti' lock. unfold m. destruct (locks s !! jti) as [l0|] eqn:Hl0; [case_decide|].
    - intros [Hne ?]%lookup_delete_Some. split; [done|congruence].
    - intros Hl. split; [done|]. intros ->. congruence.
    - intros Hl. split; [done|]. intros ->. congruence. }
  assert (∀ j r lock, requests s !! j = Some r → refers r lock → m !! request_jti r = Some lock) as Hkeep.
  { intros j r lock Hj Hr. pose proof (inv_mapped0 _ _ _ Hj Hr) as Hl. unfold m.
    destruct (locks s !! jti) as [l0|] eqn:Hl0; [case_decide as Hz|]; [|done..].
    rewrite lookup_delete_ne; [done|]. intros Heq. rewrite <- Heq, Hl0 in Hl. injection Hl as ->.
    by apply (proj1 (strong_count_zero lock s) Hz j r). }
  split; try done.
  - pose proof (with_request_permits i Cleaned s1 jti Dropped Hi) as Hper.
    change (permits s1) with (permits s) in Hper. cbn in Hper.
    change (available_permits (with_request i Cleaned s1)) with (available_permits s). lia.
  - intros j r lock [[-> ->]|[Hne Hj]]%Hlook Hr; [by destruct Hr|by eapply Hkeep].
  - intros jti' lock [Hl Hcount]%Hsub.
    assert (∃ j r, j ≠ i ∧ requests s !! j = Some r ∧ request_jti r = jti' ∧
      (refers r lock ∨ request_phase r = Dropped)) as (j & r & Hne & Hj & Hr).
    { destruct (decide (jti' = jti)) as [->|Hne].
      - specialize (Hcount eq_refl).
        destruct (decide (Exists (λ r, references_to lock r ≠ 0%nat) (requests s))) as [Hex|Hno].
        + apply list.Exists_exists in Hex as (r & [j Hj]%list_elem_of_lookup & Hr). exists j, r.
          assert (refers r lock) as Href.
          { unfold references_to in Hr. unfold refers. destruct (references _) as [[l n]|]; [|done].
            case_decide; [subst; by exists n|done]. }
          split; [|split; [done|]; split; [|by left]].
          * intros ->. rewrite Hi in Hj. injection Hj as <-. by destruct Href.
          * eapply inv_injective0; [by eapply inv_mapped0|done].
        + destruct Hcount. apply sum_list_with_zero. intros j r Hj. destruct (decide (references_to lock r = 0%nat)); [done|].
          destruct Hno. apply list.Exists_exists. exists r. split; [by eapply list_elem_of_lookup_2|done].
      - destruct (inv_tracked0 _ _ Hl) as (j & r & Hj & Hjti & Hr). exists j, r. split; [|done].
        intros ->. rewrite Hi in Hj. injection Hj as <-. by apply Hne. }
    exists j, r. rewrite Hlook. split; [by right|done].
  - intros j k rj rk lock [[-> ->]|[Hj Hrj]]%Hlook [[-> ->]|[Hk Hrk]]%Hlook; cbn; try done. eauto.
  - intros jti' lock [Hl _]%Hsub. by apply (inv_next0 jti').
  - intros jti1 jti2 lock [Hl1 _]%Hsub [Hl2 _]%Hsub. eauto.
Qed.

Lemma coordinator_step_inv limit s s' : coordinator_step s s' → coordinator_inv limit s → coordinator_inv limit s'.
Proof.
  intros [s0|cancelled jti s0 s1 He|i jti s0 s1 Hi Hp|i jti e s0 Hi Hp|i jti s0 Hi|i jti lock s0 Hi _
    |i jti lock s0 Hi Hh|i jti lock s0 Hi Hh|i jti lock s0 Hi|i jti lock s0 Hi|i jti lock s0 Hi
    |i jti s0 Hi|i jti s0 Hi] Hinv.
  - by destruct Hinv; split.
  - by eapply inv_enter.
  - unfold take_permit in Hp. case_decide; [done|]. injection Hp as <-.
    pose proof (inv_budget _ _ Hinv). eapply inv_budget_move; try done; cbn; lia.
  - replace s0 with (with_available (available_permits s0) s0) at 1 by (by destruct s0).
    pose proof (inv_budget _ _ Hinv). eapply inv_budget_move; try done; cbn; lia.
  - by apply inv_register.
  - eapply inv_move; try done; naive_solver.
  - eapply inv_move; try done; naive_solver.
  - eapply inv_move; try done; naive_solver.
  - eapply inv_move; try done; unfold refers; cbn; naive_solver.
  - eapply inv_move; try done; unfold refers; cbn; naive_solver.
  - eapply inv_move; try done; unfold refers; cbn; naive_solver.
  - by apply inv_clean.
  - pose proof (inv_budget _ _ Hinv). eapply inv_budget_move; try done; cbn; lia.
Qed.

Lemma coordinator_steps_inv limit s s' :
  rtc coordinator_step s s' → coordinator_inv limit s → coordinator_inv limit s'.
Proof. induction 1; eauto using coordinator_step_inv. Qed.

Lemma coordinator_reachable_inv limit s :
  0 ≤ limit → coordinator_reachable limit s → coordinator_inv limit s.
Proof.
  intros Hl (s0 & Hn & Hs). unfold RefreshCoordinator_new in Hn. case_decide; [done|]. injection Hn as <-.
  eapply coordinator_steps_inv; [done|]. by apply inv_from_limit.
Qed.

Lemma permits_length s : permits s = length (filter owns_permit (requests s)).
Proof.
  unfold permits. induction (requests s) as [|r l IH]; [done|]. cbn [sum_list_with].
  rewrite IH, list.filter_cons. by destruct (decide (owns_permit r)), (owns_permit r).
Qed.

(** Every tracked identity belongs to a request that owns a permit. *)
Lemma tracked_permits limit s : coordinator_inv limit s → (tracked_ids s ≤ permits s)%nat.
Proof.
  intros Hinv. unfold tracked_ids. rewrite <- (size_dom (D := gset str)), permits_length.
  rewrite <- (length_fmap request_jti (filter owns_permit (requests s))). unfold size, set_size. cbn.
  apply submseteq_length, NoDup_submseteq; [apply NoDup_elements|].
  intros jti [lock Hl]%elem_of_elements%elem_of_dom.
  destruct (inv_tracked _ _ Hinv _ _ Hl) as (j & r & Hj & <- & Hr).
  apply list_elem_of_fmap_2, list_elem_of_filter. split; [|by eapply list_elem_of_lookup_2].
  unfold owns_permit. destruct Hr as [[n Hr]|Hr]; by destruct (request_phase r).
Qed.


(** Two requests for one token: the second waits until the first releases. *)
Definition demo_waiting : Inner :=
  with_request 1 (Polled 0) (with_request 0 (Holding 0)
    (mk_Inner {[lit "j" := 0%nat]} 0 2 false
      [mk_request (lit "j") (Waiting 0); mk_request (lit "j") (Waiting 0)] 1)).

Lemma demo_waiting_reachable : coordinator_reachable 2 demo_waiting.
Proof.
  exists (from_limit 2). split; [reflexivity|].
  eapply rtc_l; [by apply (step_enter false (lit "j"))|].
  eapply rtc_l; [by apply (step_enter false (lit "j"))|].
  eapply rtc_l; [by apply (step_permit 0 (lit "j"))|].
  eapply rtc_l; [by apply (step_permit 1 (lit "j"))|].
  eapply rtc_l; [by apply (step_register 0 (lit "j"))|].
  eapply rtc_l; [by apply (step_register 1 (lit "j"))|].
  eapply rtc_l; [by apply (step_poll 0 (lit "j") 0)|].
  eapply rtc_l; [by apply (step_granted 0 (lit "j") 0)|].
  eapply rtc_l; [by apply (step_poll 1 (lit "j") 0)|].
  apply rtc_refl.
Qed.

