(* ===== verification/FetchWaiters.v ===== *)
(** * Windows fetch callbacks: waiters, watchdogs and the terminal gate

    [aster_forge_cloud_files/windows/src]: [waiter_registry.rs],
    [watchdog.rs], [progress.rs], the callback ranges and the terminal gate of
    [connection.rs].  A fetch callback waits in the core coordinator of
    [Hydration]; the registry correlates it with native cancellations,
    progress reports and watchdog polls, and the gate, shared by the request,
    its registration and the registry, decides which of them ends the
    callback.

    A gate is a cell of a shared list, a cancellation handle the number of its
    waiter in the hydration system.  An [Instant] is a [Z].  The native calls
    themselves and the payload of a callback snapshot beside its correlation,
    file size and range are not modelled. *)
From S2P Require Export Hydration.

(** The errors of these modules. *)
Inductive WindowsCloudFilesError : Type :=
  | ActiveFetchWaiterIdOverflow
  | ActiveFetchWaiterCountOverflow
  | InvalidCallbackSnapshot (reason : string)
  | InvalidProviderProgress (reason : string)
  | InvalidWatchdogTimeout (reason : string)
  | WindowsCore (error : CloudFilesCoreError).

Definition windows_result : Type → Type := result WindowsCloudFilesError.

(** ** Callback ranges *)
Inductive WindowsCallbackRangeLength : Type :=
  | Exact (length : Z)
  | ToEnd.

Record WindowsCallbackRange : Type := mk_WindowsCallbackRange {
  callback_offset : Z;
  callback_length : WindowsCallbackRangeLength;
}.

Definition invalid_callback (reason : string) : WindowsCloudFilesError := InvalidCallbackSnapshot reason.

Definition WindowsCallbackRange_exact (offset length : Z) : windows_result WindowsCallbackRange :=
  if decide (I64_MAX < offset) then
    Err (invalid_callback "callback range offset exceeds signed CFAPI boundary")
  else if decide (length = 0) then Err (invalid_callback "callback range length must be non-zero")
  else if decide (I64_MAX < length) then
    Err (invalid_callback "callback range length exceeds signed CFAPI boundary")
  else if match checked_add U64_MAX offset length with
          | None => true
          | Some last => bool_decide (I64_MAX < last)
          end
  then Err (invalid_callback "callback range end exceeds signed CFAPI boundary")
  else Ok (mk_WindowsCallbackRange offset (Exact length)).

Definition WindowsCallbackRange_to_end (offset : Z) : windows_result WindowsCallbackRange :=
  if decide (I64_MAX < offset) then
    Err (invalid_callback "callback range offset exceeds signed CFAPI boundary")
  else Ok (mk_WindowsCallbackRange offset ToEnd).

(** [from_cfapi] on two [i64]s. *)
Definition WindowsCallbackRange_from_cfapi (offset length : Z) : windows_result WindowsCallbackRange :=
  if decide (offset < 0) then Err (invalid_callback "callback range offset must be non-negative")
  else if decide (length = -1) then WindowsCallbackRange_to_end offset
  else if decide (1 ≤ length) then WindowsCallbackRange_exact offset length
  else Err (invalid_callback "callback range length must be positive or CF_EOF").

(** [callback_range] of a cancellation. *)
Definition callback_range (range : WindowsCallbackRange) (file_size : Z) : windows_result ByteRange :=
  length ← match callback_length range with
           | Exact length => Ok length
           | ToEnd => ok_or (checked_sub file_size (callback_offset range))
               (InvalidCallbackSnapshot "cancellation range offset exceeds callback file size")
           end;
  if decide (length = 0) then
    Err (InvalidCallbackSnapshot "cancellation range must not be empty")
  else if decide (file_size < u64_add (callback_offset range) length) then
    Err (InvalidCallbackSnapshot "cancellation range exceeds callback file size")
  else map_err WindowsCore (ByteRange_new (callback_offset range) length).

Definition range_covers (outer inner : ByteRange) : bool :=
  bool_decide (range_offset outer ≤ range_offset inner)
  && bool_decide (ByteRange_end_exclusive inner ≤ ByteRange_end_exclusive outer).

Definition byte_ranges_overlap (left right : ByteRange) : bool :=
  bool_decide (range_offset left < ByteRange_end_exclusive right)
  && bool_decide (range_offset right < ByteRange_end_exclusive left).

(** ** Progress *)
Record WindowsFetchDataProgress : Type := mk_WindowsFetchDataProgress {
  progress_total : Z;
  progress_completed : Z;
}.

Definition WindowsFetchDataProgress_new (total completed : Z) : windows_result WindowsFetchDataProgress :=
  if decide (total < completed) then
    Err (InvalidProviderProgress "completed bytes exceed total bytes")
  else if decide (I64_MAX < total) then
    Err (InvalidProviderProgress "total bytes exceed signed CFAPI boundary")
  else if decide (I64_MAX < completed) then
    Err (InvalidProviderProgress "completed bytes exceed signed CFAPI boundary")
  else Ok (mk_WindowsFetchDataProgress total completed).

Definition advance_from (self previous : WindowsFetchDataProgress) : windows_result WindowsFetchDataProgress :=
  if decide (progress_total self ≠ progress_total previous) then
    Err (InvalidProviderProgress "progress total changed during one transfer")
  else if decide (progress_completed self < progress_completed previous) then
    Err (InvalidProviderProgress "completed bytes regressed during one transfer")
  else Ok self.

(** ** Watchdogs *)
(** A [Duration] is a [Z] of nanoseconds. *)
Definition WINDOWS_CFAPI_CALLBACK_TIMEOUT : Z := 60 * 10 ^ 9.

Definition WindowsFetchDataWatchdogConfig_new (timeout : Z) : windows_result Z :=
  if decide (timeout = 0) then Err (InvalidWatchdogTimeout "timeout must be positive")
  else if decide (WINDOWS_CFAPI_CALLBACK_TIMEOUT < timeout) then
    Err (InvalidWatchdogTimeout "timeout exceeds the fixed CFAPI callback timeout")
  else Ok timeout.

Record WindowsFetchDataWatchdog : Type := mk_WindowsFetchDataWatchdog {
  watchdog_timeout : Z;
  last_activity : Z;
}.

Definition touch (now : Z) (w : WindowsFetchDataWatchdog) : WindowsFetchDataWatchdog :=
  mk_WindowsFetchDataWatchdog (watchdog_timeout w) now.

(** [deadline], with the largest instant [instant_max]. *)
Definition deadline (instant_max : Z) (w : WindowsFetchDataWatchdog) : option Z :=
  checked_add instant_max (last_activity w) (watchdog_timeout w).

Definition is_due (instant_max now : Z) (w : WindowsFetchDataWatchdog) : bool :=
  match deadline instant_max w with Some at_ => bool_decide (at_ ≤ now) | None => false end.

(** ** The terminal gate *)
Inductive FetchTerminalState : Type :=
  | FetchPending | NativeAttempted | PlatformCancelled | WatchdogTimedOut.

#[export] Instance FetchTerminalState_eq_dec : EqDecision FetchTerminalState.
Proof. solve_decision. Defined.

(** One [compare_exchange]. *)
Definition transition (from to cell : FetchTerminalState) : bool * FetchTerminalState :=
  if decide (cell = from) then (true, to) else (false, cell).

(** The calls on a gate, as the exchanges they try in order until one
    succeeds. *)
Inductive gate_call : Type := BeginNative | CancelByPlatform | CancelByWatchdog.

#[export] Instance gate_call_eq_dec : EqDecision gate_call.
Proof. solve_decision. Defined.

Definition gate_exchanges (call : gate_call) : list (FetchTerminalState * FetchTerminalState) :=
  match call with
  | BeginNative => [(FetchPending, NativeAttempted); (WatchdogTimedOut, NativeAttempted)]
  | CancelByPlatform => [(FetchPending, PlatformCancelled); (WatchdogTimedOut, PlatformCancelled)]
  | CancelByWatchdog => [(FetchPending, WatchdogTimedOut)]
  end.

Fixpoint try_exchanges (exchanges : list (FetchTerminalState * FetchTerminalState))
    (cell : FetchTerminalState) : bool * FetchTerminalState :=
  match exchanges with
  | [] => (false, cell)
  | (from, to) :: exchanges =>
      let (won, cell) := transition from to cell in
      if won then (true, cell) else try_exchanges exchanges cell
  end.

(** A call that nobody interrupts. *)
Definition gate_run (call : gate_call) : FetchTerminalState → bool * FetchTerminalState :=
  try_exchanges (gate_exchanges call).

(** ** The registry *)
Record WindowsFetchDataCorrelation : Type := mk_WindowsFetchDataCorrelation {
  corr_generation : Z;
  corr_connection_key : Z;
  corr_transfer_key : Z;
  corr_request_key : Z;
  corr_file_id : Z;
}.

#[export] Instance correlation_eq_dec : EqDecision WindowsFetchDataCorrelation.
Proof. solve_decision. Defined.
#[export] Instance correlation_countable : Countable WindowsFetchDataCorrelation :=
  inj_countable'
    (λ c, (corr_generation c, corr_connection_key c, corr_transfer_key c, corr_request_key c, corr_file_id c))
    (λ '(g, c, t, r, f), mk_WindowsFetchDataCorrelation g c t r f) ltac:(by intros []).

Record ActiveWaiter : Type := mk_ActiveWaiter {
  waiter_id : Z;
  waiter_range : ByteRange;
  waiter_cancellation : Z;
  waiter_terminal : nat;
  waiter_watchdog : WindowsFetchDataWatchdog;
  waiter_progress : option WindowsFetchDataProgress;
}.

Record WindowsFetchDataWaiterMetrics : Type := mk_metrics {
  active_waiters : Z;
  registered_waiters : Z;
  cancellation_callbacks : Z;
  unmatched_cancellations : Z;
  fully_matched_waiters : Z;
  partially_matched_waiters : Z;
  cancelled_waiters : Z;
  already_cancelled_waiters : Z;
  completion_races : Z;
  watchdog_timeouts : Z;
  progress_callbacks : Z;
  progress_updates : Z;
}.

Record RegistryState : Type := mk_RegistryState {
  next_waiter_id : Z;
  active : gmap WindowsFetchDataCorrelation (list ActiveWaiter);
  metrics : WindowsFetchDataWaiterMetrics;
  watchdog_config : Z;
}.

(** [new] and [with_watchdog_config]. *)
Definition registry_new (config : Z) : RegistryState :=
  mk_RegistryState 0 ∅ (mk_metrics 0 0 0 0 0 0 0 0 0 0 0 0) config.

Definition with_metrics (m : WindowsFetchDataWaiterMetrics) (s : RegistryState) : RegistryState :=
  mk_RegistryState (next_waiter_id s) (active s) m (watchdog_config s).
Definition with_active (a : gmap WindowsFetchDataCorrelation (list ActiveWaiter)) (s : RegistryState)
    : RegistryState :=
  mk_RegistryState (next_waiter_id s) a (metrics s) (watchdog_config s).

Definition count (n by_ : Z) : Z := saturating_add U64_MAX n by_.

(** The metrics of one kind of call. *)
Definition count_active (n registered : Z) (m : WindowsFetchDataWaiterMetrics) :=
  mk_metrics n (count (registered_waiters m) registered) (cancellation_callbacks m)
    (unmatched_cancellations m) (fully_matched_waiters m) (partially_matched_waiters m)
    (cancelled_waiters m) (already_cancelled_waiters m) (completion_races m) (watchdog_timeouts m)
    (progress_callbacks m) (progress_updates m).
Definition count_callback (unmatched : Z) (m : WindowsFetchDataWaiterMetrics) :=
  mk_metrics (active_waiters m) (registered_waiters m) (count (cancellation_callbacks m) 1)
    (count (unmatched_cancellations m) unmatched) (fully_matched_waiters m)
    (partially_matched_waiters m) (cancelled_waiters m) (already_cancelled_waiters m)
    (completion_races m) (watchdog_timeouts m) (progress_callbacks m) (progress_updates m).
Definition count_progress (updated : Z) (m : WindowsFetchDataWaiterMetrics) :=
  mk_metrics (active_waiters m) (registered_waiters m) (cancellation_callbacks m)
    (unmatched_cancellations m) (fully_matched_waiters m) (partially_matched_waiters m)
    (cancelled_waiters m) (already_cancelled_waiters m) (completion_races m) (watchdog_timeouts m)
    (count (progress_callbacks m) 1) (count (progress_updates m) updated).
Definition count_timeouts (n : Z) (m : WindowsFetchDataWaiterMetrics) :=
  mk_metrics (active_waiters m) (registered_waiters m) (cancellation_callbacks m)
    (unmatched_cancellations m) (fully_matched_waiters m) (partially_matched_waiters m)
    (cancelled_waiters m) (already_cancelled_waiters m) (completion_races m)
    (count (watchdog_timeouts m) n) (progress_callbacks m) (progress_updates m).

(** *** Registration *)
(** [register_at]; the registration handed out is the correlation and the id. *)
Definition register_at (correlation : WindowsFetchDataCorrelation) (range : ByteRange)
    (cancellation : Z) (terminal : nat) (now : Z) (s : RegistryState) : windows_result Z * RegistryState :=
  let id := next_waiter_id s in
  match checked_add U64_MAX id 1 with
  | None => (Err ActiveFetchWaiterIdOverflow, s)
  | Some next =>
      match checked_add USIZE_MAX (active_waiters (metrics s)) 1 with
      | None => (Err ActiveFetchWaiterCountOverflow, s)
      | Some n =>
          let waiter := mk_ActiveWaiter id range cancellation terminal
            (mk_WindowsFetchDataWatchdog (watchdog_config s) now) None in
          (Ok id, mk_RegistryState next
             (<[correlation := default [] (active s !! correlation) ++ [waiter]]> (active s))
             (count_active n 1 (metrics s)) (watchdog_config s))
      end
  end.

Definition unregister (correlation : WindowsFetchDataCorrelation) (id : Z) (s : RegistryState)
    : RegistryState :=
  match active s !! correlation with
  | None => s
  | Some waiters =>
      let kept := filter (λ w, waiter_id w ≠ id) waiters in
      let s' := with_active (if decide (kept = []) then delete correlation (active s)
                             else <[correlation := kept]> (active s)) s in
      if decide (length kept = length waiters) then s'
      else with_metrics (count_active (saturating_sub (active_waiters (metrics s)) 1) 0 (metrics s)) s'
  end.

(** *** Cancellation *)
(** The first critical section of [cancel]: the handles and gates of the
    covered waiters, and the numbers of covered and of partly covered ones. *)
Definition cancel_select (correlation : WindowsFetchDataCorrelation) (range : ByteRange)
    (s : RegistryState) : option (list ActiveWaiter * Z * Z) * RegistryState :=
  match active s !! correlation with
  | None => (None, with_metrics (count_callback 1 (metrics s)) s)
  | Some waiters =>
      let covered := filter (λ w, range_covers range (waiter_range w) = true) waiters in
      let partly := filter (λ w, range_covers range (waiter_range w) = false ∧
                                 byte_ranges_overlap range (waiter_range w) = true) waiters in
      let fully_matched := Z.of_nat (length covered) in
      let partially_matched := Z.of_nat (length partly) in
      (Some (covered, fully_matched, partially_matched),
       with_metrics (count_callback
         (if decide (fully_matched = 0 ∧ partially_matched = 0) then 1 else 0) (metrics s)) s)
  end.

Record WindowsFetchDataCancellationOutcome : Type := mk_cancellation_outcome {
  outcome_fully_matched : Z;
  outcome_partially_matched : Z;
  outcome_cancelled : Z;
  outcome_already_cancelled : Z;
  outcome_already_completed : Z;
}.

(** One outcome of a handle, counted. *)
Definition count_outcome (o : HydrationCancellationOutcome) (c : WindowsFetchDataCancellationOutcome)
    : WindowsFetchDataCancellationOutcome :=
  let bump (is_ : HydrationCancellationOutcome) n :=
    if decide (o = is_) then saturating_add USIZE_MAX n 1 else n in
  mk_cancellation_outcome (outcome_fully_matched c) (outcome_partially_matched c)
    (bump Cancelled (outcome_cancelled c)) (bump AlreadyCancelled (outcome_already_cancelled c))
    (bump AlreadyCompleted (outcome_already_completed c)).

(** The last critical section of [cancel]. *)
Definition cancel_account (c : WindowsFetchDataCancellationOutcome) (s : RegistryState) : RegistryState :=
  let m := metrics s in
  with_metrics (mk_metrics (active_waiters m) (registered_waiters m) (cancellation_callbacks m)
    (unmatched_cancellations m) (count (fully_matched_waiters m) (outcome_fully_matched c))
    (count (partially_matched_waiters m) (outcome_partially_matched c))
    (count (cancelled_waiters m) (outcome_cancelled c))
    (count (already_cancelled_waiters m) (outcome_already_cancelled c))
    (count (completion_races m) (outcome_already_completed c))
    (watchdog_timeouts m) (progress_callbacks m) (progress_updates m)) s.

(** *** Progress *)
(** [report_progress_correlation]: the first sample that does not advance
    refuses the report before any waiter is touched. *)
Fixpoint check_progress (progress : WindowsFetchDataProgress) (waiters : list ActiveWaiter)
    : windows_result unit :=
  match waiters with
  | [] => Ok tt
  | w :: waiters =>
      _ ← match waiter_progress w with
          | Some previous => _ ← advance_from progress previous; Ok tt
          | None => Ok tt
          end;
      check_progress progress waiters
  end.

Definition with_progress (progress : WindowsFetchDataProgress) (now : Z) (w : ActiveWaiter) : ActiveWaiter :=
  mk_ActiveWaiter (waiter_id w) (waiter_range w) (waiter_cancellation w) (waiter_terminal w)
    (touch now (waiter_watchdog w)) (Some progress).

Definition report_progress (correlation : WindowsFetchDataCorrelation)
    (progress : WindowsFetchDataProgress) (now : Z) (s : RegistryState) : windows_result Z * RegistryState :=
  match active s !! correlation with
  | None => (Ok 0, with_metrics (count_progress 0 (metrics s)) s)
  | Some waiters =>
      match check_progress progress waiters with
      | Err e => (Err e, with_metrics (count_progress 0 (metrics s)) s)
      | Ok _ =>
          let updated := Z.of_nat (length waiters) in
          (Ok updated,
           with_metrics (count_progress updated (metrics s))
             (with_active (<[correlation := with_progress progress now <$> waiters]> (active s)) s))
      end
  end.

(** ** The adapter *)
(** The registry, the gates of the callbacks accepted so far, and the core
    system in which they wait. *)
Record fetch_world : Type := mk_fetch_world {
  registry : RegistryState;
  gates : list FetchTerminalState;
  hydration : HydrationSystem;
}.

Definition with_registry (s : RegistryState) (w : fetch_world) : fetch_world :=
  mk_fetch_world s (gates w) (hydration w).

(** A call on the gate number [g]. *)
Definition gate_at (call : gate_call) (g : nat) (w : fetch_world) : bool * fetch_world :=
  match gates w !! g with
  | Some cell =>
      let (won, cell) := gate_run call cell in
      (won, mk_fetch_world (registry w) (<[g := cell]> (gates w)) (hydration w))
  | None => (false, w)
  end.

(** [HydrationCancellationHandle::cancel]. *)
Definition cancel_handle (wid : Z) (w : fetch_world) : HydrationCancellationOutcome * fetch_world :=
  match waiters (hydration w) !! wid with
  | Some waiter =>
      let '(outcome, (i, s)) := WaiterInner_cancel (inner waiter) (coordinator (hydration w)) in
      (outcome, mk_fetch_world (registry w) (gates w) (set_inner (hydration w) wid waiter s i))
  | None => (AlreadyCompleted, w)
  end.

(** The loop over the targets: the gate first, then the waiter. *)
Fixpoint cancel_targets (targets : list ActiveWaiter) (c : WindowsFetchDataCancellationOutcome)
    (w : fetch_world) : WindowsFetchDataCancellationOutcome * fetch_world :=
  match targets with
  | [] => (c, w)
  | t :: targets =>
      let (_, w) := gate_at CancelByPlatform (waiter_terminal t) w in
      let (outcome, w) := cancel_handle (waiter_cancellation t) w in
      cancel_targets targets (count_outcome outcome c) w
  end.

Definition registry_cancel (correlation : WindowsFetchDataCorrelation) (range : WindowsCallbackRange)
    (file_size : Z) (w : fetch_world)
    : windows_result WindowsFetchDataCancellationOutcome * fetch_world :=
  match callback_range range file_size with
  | Err e => (Err e, w)
  | Ok range =>
      let (selected, s) := cancel_select correlation range (registry w) in
      let w := with_registry s w in
      match selected with
      | None => (Ok (mk_cancellation_outcome 0 0 0 0 0), w)
      | Some (targets, fully, partially) =>
          let (c, w) := cancel_targets targets (mk_cancellation_outcome fully partially 0 0 0) w in
          (Ok c, with_registry (cancel_account c (registry w)) w)
      end
  end.

(** The critical section of [poll_watchdog], in the order in which the map
    yields its waiters; a gate is tried only for a due waiter. *)
Fixpoint poll_select (instant_max now : Z) (waiters : list ActiveWaiter) (w : fetch_world)
    : list ActiveWaiter * fetch_world :=
  match waiters with
  | [] => ([], w)
  | t :: waiters =>
      if bool_decide (gates w !! waiter_terminal t = Some WatchdogTimedOut)
         || negb (is_due instant_max now (waiter_watchdog t))
      then poll_select instant_max now waiters w
      else
        let (_, w) := gate_at CancelByWatchdog (waiter_terminal t) w in
        let (targets, w) := poll_select instant_max now waiters w in
        (t :: targets, w)
  end.

Fixpoint poll_cancel (targets : list ActiveWaiter) (c : WindowsFetchDataCancellationOutcome)
    (w : fetch_world) : WindowsFetchDataCancellationOutcome * fetch_world :=
  match targets with
  | [] => (c, w)
  | t :: targets =>
      let (outcome, w) := cancel_handle (waiter_cancellation t) w in
      poll_cancel targets (count_outcome outcome c) w
  end.

Definition poll_watchdog (instant_max now : Z) (w : fetch_world)
    : WindowsFetchDataCancellationOutcome * fetch_world :=
  let all := concat ((map_to_list (active (registry w))).*2) in
  let (targets, w) := poll_select instant_max now all w in
  let (c, w) := poll_cancel targets (mk_cancellation_outcome 0 0 0 0 0) w in
  (c, with_registry (with_metrics (count_timeouts (outcome_cancelled c) (metrics (registry w)))
        (registry w)) w).
