(* ===== verification/FetchWaitersSpec.v ===== *)
(** * What the fetch callbacks guarantee

    The terminal gate of [FetchWaiters] under any interleaving of the single
    exchanges of any number of threads; the registry, the gates and the core
    hydration system as one adapter; and what a cancellation does. *)
From S2P Require Export FetchWaiters.
From S2P Require Import HydrationDemo.

(** ** The gate, exchange by exchange *)
Record gate_system : Type := mk_gate_system {
  cell : FetchTerminalState;
  running : list (gate_call * list (FetchTerminalState * FetchTerminalState));
  finished : list (gate_call * bool);
}.

Definition gate_new : gate_system := mk_gate_system FetchPending [] [].

(** One exchange of the thread that is at [(from, to) :: rest] of its call. *)
Definition exchange (i : nat) (call : gate_call) (from to : FetchTerminalState)
    (rest : list (FetchTerminalState * FetchTerminalState)) (s : gate_system) : gate_system :=
  let (won, c) := transition from to (cell s) in
  if won then mk_gate_system c (delete i (running s)) (finished s ++ [(call, true)])
  else match rest with
       | [] => mk_gate_system c (delete i (running s)) (finished s ++ [(call, false)])
       | _ => mk_gate_system c (<[i := (call, rest)]> (running s)) (finished s)
       end.

Inductive gate_step : gate_system → gate_system → Prop :=
  | step_call call s :
      gate_step s (mk_gate_system (cell s) (running s ++ [(call, gate_exchanges call)]) (finished s))
  | step_exchange i call from to rest s :
      running s !! i = Some (call, (from, to) :: rest) →
      gate_step s (exchange i call from to rest s).

Definition wins (call : gate_call) (s : gate_system) : nat :=
  length (filter (λ x, x = (call, true)) (finished s)).

#[local] Arguments wins : simpl never.

Definition settled_cell (c : FetchTerminalState) : Prop := c = NativeAttempted ∨ c = PlatformCancelled.

(** Where a thread can be: at the start of its call, or past a failed exchange
    from [FetchPending]. *)
Definition thread_ok (c : FetchTerminalState)
    (t : gate_call * list (FetchTerminalState * FetchTerminalState)) : Prop :=
  t.2 = gate_exchanges t.1 ∨
  c ≠ FetchPending ∧ t.1 ≠ CancelByWatchdog ∧ t.2 = drop 1 (gate_exchanges t.1).

Record gate_inv (s : gate_system) : Prop := {
  gate_wins :
    match cell s with
    | FetchPending => wins BeginNative s = 0 ∧ wins CancelByPlatform s = 0 ∧ wins CancelByWatchdog s = 0
    | WatchdogTimedOut => wins BeginNative s = 0 ∧ wins CancelByPlatform s = 0 ∧ wins CancelByWatchdog s = 1
    | NativeAttempted => wins BeginNative s = 1 ∧ wins CancelByPlatform s = 0 ∧ wins CancelByWatchdog s ≤ 1
    | PlatformCancelled => wins BeginNative s = 0 ∧ wins CancelByPlatform s = 1 ∧ wins CancelByWatchdog s ≤ 1
    end%nat;
  gate_lost call : (call, false) ∈ finished s → call ≠ CancelByWatchdog → settled_cell (cell s);
  gate_threads : Forall (thread_ok (cell s)) (running s);
}.

Lemma wins_snoc call c r won l x :
  wins call (mk_gate_system c r (l ++ [(x, won)])) =
  (wins call (mk_gate_system c r l) + if decide (x = call ∧ won = true) then 1 else 0)%nat.
Proof.
  unfold wins. cbn. rewrite list.filter_app, length_app, list.filter_cons, list.filter_nil. f_equal.
  case_decide as H1; case_decide as H2; naive_solver.
Qed.

Lemma wins_finished call c r r' c' l : wins call (mk_gate_system c r l) = wins call (mk_gate_system c' r' l).
Proof. done. Qed.

Lemma thread_ok_mono c c' t : (c ≠ FetchPending → c' ≠ FetchPending) → thread_ok c t → thread_ok c' t.
Proof. intros Hc [?|(?&?&?)]; [by left|right; auto]. Qed.

Lemma exchange_inv i call from to rest s :
  gate_inv s → running s !! i = Some (call, (from, to) :: rest) → gate_inv (exchange i call from to rest s).
Proof.
  intros Hinv Hi. pose proof Hinv as [Hw Hl Ht].
  assert (thread_ok (cell s) (call, (from, to) :: rest)) as Hok by (by eapply list.Forall_lookup_1).
  destruct s as [c r l]. cbn in *. unfold exchange, transition. cbn.
  assert ((call, from, to, rest) ∈ [
    (BeginNative, FetchPending, NativeAttempted, [(WatchdogTimedOut, NativeAttempted)]);
    (BeginNative, WatchdogTimedOut, NativeAttempted, []);
    (CancelByPlatform, FetchPending, PlatformCancelled, [(WatchdogTimedOut, PlatformCancelled)]);
    (CancelByPlatform, WatchdogTimedOut, PlatformCancelled, []);
    (CancelByWatchdog, FetchPending, WatchdogTimedOut, [])] ∧
    (from = FetchPending ∨ c ≠ FetchPending)) as [Hin Hfrom].
  { unfold thread_ok in Hok. cbn in Hok. destruct call, Hok as [Heq|(Hc & Hn & Heq)]; cbn in Heq; try done;
      injection Heq as -> -> ->; (split; [set_solver|auto]). }
  assert (∀ c', (c ≠ FetchPending → c' ≠ FetchPending) → Forall (thread_ok c') (delete i r)) as Hrun.
  { intros c' Hc. apply list.Forall_delete. eapply list.Forall_impl; [exact Ht|]. intros t. by apply thread_ok_mono. }
  case_decide as Hcell.
  - subst c. split.
    + rewrite !wins_snoc. rewrite !(wins_finished _ _ (delete i r) r from). cbn [cell].
      set_unfold in Hin. destruct_or!; simplify_eq; cbn [cell] in *;
        clear -Hw; repeat (case_decide as Hd; [try by destruct Hd|try by (destruct Hd; split)]; clear Hd); lia.
    + cbn. intros call' [Hf|[= -> ]%list_elem_of_singleton]%elem_of_app Hne.
      assert (settled_cell from) as Hs by eauto. destruct Hs; set_unfold in Hin; naive_solver.
    + cbn. apply Hrun. intros ? ->. set_unfold in Hin. naive_solver.
  - destruct rest as [|x rest].
    + split.
      * rewrite !wins_snoc. rewrite !decide_False by naive_solver. rewrite !Nat.add_0_r. done.
      * cbn. intros call' [Hf|[= -> ]%list_elem_of_singleton]%elem_of_app Hne; [eauto|].
        unfold settled_cell. set_unfold in Hin. destruct c; naive_solver.
      * cbn. apply Hrun. auto.
    + split; [done|done|]. cbn. apply list.Forall_insert; [done|]. right. cbn.
      set_unfold in Hin. destruct c; naive_solver.
Qed.

Definition gate_reachable (s : gate_system) : Prop := rtc gate_step gate_new s.

Lemma gate_reachable_inv s : gate_reachable s → gate_inv s.
Proof.
  revert s. refine (rtc_ind_r _ _ _ _).
  - split; cbn; [done|by intros ? ?%elem_of_nil|constructor].
  - intros s s' _ [call s0|i call from to rest s0 Hi] Hinv; [|by apply exchange_inv].
    destruct Hinv as [Hw Hl Ht]. split; [exact Hw|exact Hl|]. cbn.
    apply list.Forall_app. split; [done|]. constructor; [by left|constructor].
Qed.

(** Calls that nobody interrupts are the sequence of their exchanges. *)
Lemma gate_run_cases call c :
  gate_run call c =
    match call, c with
    | _, NativeAttempted | _, PlatformCancelled => (false, c)
    | BeginNative, _ => (true, NativeAttempted)
    | CancelByPlatform, _ => (true, PlatformCancelled)
    | CancelByWatchdog, FetchPending => (true, WatchdogTimedOut)
    | CancelByWatchdog, WatchdogTimedOut => (false, c)
    end.
Proof. by destruct call, c. Qed.

(** A callback is ended exactly once.  However any number of threads
    interleave the exchanges of [begin_native], [cancel_by_platform] and
    [cancel_by_watchdog] on one gate: over its whole life at most one
    [begin_native] or [cancel_by_platform] answers true, and the gate says
    which; the watchdog times out at most once, and does not keep the request
    from failing natively or from being cancelled by the platform.  As soon as
    one of the two calls has returned, whatever its answer - and dropping the
    request makes one - the callback has been completed natively once or
    cancelled by the platform, never both. *)
Theorem fetch_completed_once s :
  gate_reachable s →
  (wins BeginNative s + wins CancelByPlatform s ≤ 1)%nat ∧ (wins CancelByWatchdog s ≤ 1)%nat ∧
  (cell s = NativeAttempted ↔ wins BeginNative s = 1%nat) ∧
  (cell s = PlatformCancelled ↔ wins CancelByPlatform s = 1%nat) ∧
  (∀ call won, (call, won) ∈ finished s → call ≠ CancelByWatchdog →
     (wins BeginNative s + wins CancelByPlatform s = 1)%nat) ∧
  (cell s = WatchdogTimedOut →
     gate_run BeginNative (cell s) = (true, NativeAttempted) ∧
     gate_run CancelByPlatform (cell s) = (true, PlatformCancelled)).
Proof.
  intros [Hw Hl _]%gate_reachable_inv.
  split; [|split; [|split; [|split; [|split]]]].
  1-4: destruct (cell s); lia || (split; [intros [=]; lia|lia]) || (split; [intros _; lia|done]).
  - intros call won Hin Hne. assert (settled_cell (cell s)) as [Hc|Hc]; [|rewrite Hc in Hw; lia..].
    destruct won; [|by eapply Hl]. unfold settled_cell.
    assert (wins call s ≠ 0%nat) as Hnz.
    { unfold wins. intros Hz%nil_length_inv. apply (elem_of_nil (call, true)). rewrite <- Hz.
      by apply list_elem_of_filter. }
    destruct (cell s), call; try done; try lia; auto.
  - intros ->. done.
Qed.

Lemma fetch_completed_once_witness :
  let s := exchange 1 CancelByPlatform WatchdogTimedOut PlatformCancelled []
    (exchange 1 CancelByPlatform FetchPending PlatformCancelled [(WatchdogTimedOut, PlatformCancelled)]
    (exchange 0 CancelByWatchdog FetchPending WatchdogTimedOut []
    (mk_gate_system FetchPending [(CancelByWatchdog, gate_exchanges CancelByWatchdog);
       (BeginNative, gate_exchanges BeginNative); (CancelByPlatform, gate_exchanges CancelByPlatform)] []))) in
  cell s = PlatformCancelled ∧ wins CancelByPlatform s = 1%nat ∧ wins BeginNative s = 0%nat.
Proof.
  intros s. assert (gate_reachable s) as Hr.
  { eapply rtc_l; [apply (step_call CancelByWatchdog)|].
    eapply rtc_l; [apply (step_call BeginNative)|].
    eapply rtc_l; [apply (step_call CancelByPlatform)|].
    eapply rtc_l; [by apply (step_exchange 0)|].
    eapply rtc_l; [by apply (step_exchange 1)|].
    by apply rtc_once, (step_exchange 1). }
  destruct (fetch_completed_once s Hr) as (_ & _ & _ & Hp & _).
  split; [reflexivity|]. split; [apply Hp; reflexivity|reflexivity].
Defined.

(** ** The adapter *)
(** The world with the registrations that are alive. *)
Record fetch_system : Type := mk_fetch_system {
  world : fetch_world;
  live : list (WindowsFetchDataCorrelation * Z);
}.

Definition fetch_new (config : Z) : fetch_system :=
  mk_fetch_system (mk_fetch_world (registry_new config) [] HydrationSystem_new) [].

Definition on_registry (s : RegistryState) (f : fetch_system) : fetch_system :=
  mk_fetch_system (with_registry s (world f)) (live f).

(** Critical sections, exchanges and core steps of any thread.  A cancellation
    or a poll is its critical sections and, per target, an exchange sequence
    of its gate and a cancellation of its waiter, all as steps of their own. *)
Inductive fetch_step (limits : HydrationLimits) : fetch_system → fetch_system → Prop :=
  | fetch_accept f :
      fetch_step limits f (mk_fetch_system
        (mk_fetch_world (registry (world f)) (gates (world f) ++ [FetchPending]) (hydration (world f)))
        (live f))
  | fetch_register correlation range wid gate now id s f :
      is_Some (waiters (hydration (world f)) !! wid) → (gate < length (gates (world f)))%nat →
      register_at correlation range wid gate now (registry (world f)) = (Ok id, s) →
      fetch_step limits f (mk_fetch_system (with_registry s (world f)) ((correlation, id) :: live f))
  | fetch_unregister l1 correlation id l2 f :
      live f = l1 ++ (correlation, id) :: l2 →
      fetch_step limits f (mk_fetch_system
        (with_registry (unregister correlation id (registry (world f))) (world f)) (l1 ++ l2))
  | fetch_select correlation range f :
      fetch_step limits f (on_registry (cancel_select correlation range (registry (world f))).2 f)
  | fetch_account c f : fetch_step limits f (on_registry (cancel_account c (registry (world f))) f)
  | fetch_progress correlation progress now f :
      fetch_step limits f
        (on_registry (report_progress correlation progress now (registry (world f))).2 f)
  | fetch_timeouts n f :
      fetch_step limits f (on_registry
        (with_metrics (count_timeouts n (metrics (registry (world f)))) (registry (world f))) f)
  | fetch_gate g from to f :
      fetch_step limits f (mk_fetch_system
        (mk_fetch_world (registry (world f)) (alter (λ c, (transition from to c).2) g (gates (world f)))
          (hydration (world f))) (live f))
  | fetch_hydration h f :
      hydration_step limits (hydration (world f)) h →
      fetch_step limits f (mk_fetch_system (mk_fetch_world (registry (world f)) (gates (world f)) h) (live f)).

Definition fetch_reachable (limits : HydrationLimits) (config : Z) (f : fetch_system) : Prop :=
  rtc (fetch_step limits) (fetch_new config) f.

(** *** The registry *)
Definition waiters_of (s : RegistryState) (c : WindowsFetchDataCorrelation) : list ActiveWaiter :=
  default [] (active s !! c).

(** The registry holds exactly the live registrations. *)
Record registry_wf (live : list (WindowsFetchDataCorrelation * Z)) (s : RegistryState) : Prop := {
  registry_live c id : (c, id) ∈ live ↔ id ∈ waiter_id <$> waiters_of s c;
  registry_ids : NoDup live.*2;
  registry_lists c : active s !! c ≠ Some [] ∧ NoDup (waiter_id <$> waiters_of s c);
  registry_count : active_waiters (metrics s) = Z.of_nat (length live);
  registry_next id : id ∈ live.*2 → 0 ≤ id < next_waiter_id s;
  registry_bounds : 0 ≤ next_waiter_id s ≤ U64_MAX ∧ active_waiters (metrics s) ≤ USIZE_MAX;
}.

Lemma registry_wf_new config : registry_wf [] (registry_new config).
Proof.
  split; cbn; try done.
  - intros c id. unfold waiters_of. cbn. rewrite lookup_empty. cbn. split; by intros ?%elem_of_nil.
  - constructor.
  - intros c. unfold waiters_of. cbn. rewrite lookup_empty. split; [done|constructor].
  - by intros p ?%elem_of_nil.
Qed.

(** Steps that keep the identities and the number of active waiters. *)
Lemma registry_wf_same live s s' :
  (∀ c, fmap waiter_id <$> active s' !! c = fmap waiter_id <$> active s !! c) →
  next_waiter_id s' = next_waiter_id s → active_waiters (metrics s') = active_waiters (metrics s) →
  registry_wf live s → registry_wf live s'.
Proof.
  intros Hids Hn Ha [].
  assert (∀ c, waiter_id <$> waiters_of s' c = waiter_id <$> waiters_of s c) as Hw.
  { intros c. specialize (Hids c). unfold waiters_of.
    destruct (active s' !! c), (active s !! c); cbn in *; congruence. }
  split; rewrite ?Hn, ?Ha; try done.
  - intros c id. by rewrite Hw.
  - intros c. rewrite Hw. destruct (registry_lists0 c) as [Hne Hd]. split; [|done]. intros Hs'.
    specialize (Hids c). rewrite Hs' in Hids. destruct (active s !! c) as [[|]|]; cbn in Hids; done.
Qed.

Lemma registry_wf_register live c range wid gate now id s s' :
  registry_wf live s → register_at c range wid gate now s = (Ok id, s') → registry_wf ((c, id) :: live) s'.
Proof.
  intros [] Hr. unfold register_at in Hr.
  destruct (checked_add U64_MAX _ 1) as [next|] eqn:Hnext; [|done].
  destruct (checked_add USIZE_MAX _ 1) as [n|] eqn:Hcount; [|done].
  apply checked_add_spec in Hnext as [? ->], Hcount as [? ->]. injection Hr as <- <-.
  set (a := mk_ActiveWaiter _ _ _ _ _ _). set (s' := mk_RegistryState _ _ _ _).
  assert (∀ c', waiters_of s' c' = if decide (c' = c) then waiters_of s c ++ [a] else waiters_of s c') as Hw.
  { intros c'. unfold waiters_of at 1. cbn. case_decide as Hc.
    - subst. by rewrite lookup_insert_eq.
    - by rewrite lookup_insert_ne. }
  assert (next_waiter_id s ∉ live.*2) as Hfresh by (intros Hin; specialize (registry_next0 _ Hin); lia).
  assert (∀ c', next_waiter_id s ∉ waiter_id <$> waiters_of s c') as Hfresh'.
  { intros c' Hin%registry_live0. by apply (list_elem_of_fmap_2 snd) in Hin. }
  split.
  - intros c' id. rewrite Hw, elem_of_cons. case_decide as Hc.
    + subst. rewrite fmap_app, elem_of_app, <- registry_live0. cbn. rewrite list_elem_of_singleton.
      split; [intros [[= ->]|]; auto|intros [?| ->]; auto].
    + rewrite <- registry_live0. naive_solver.
  - cbn. constructor; done.
  - intros c'. rewrite Hw. split.
    + cbn. destruct (decide (c' = c)) as [->|Hne].
      * rewrite lookup_insert_eq. intros [=Hnil]. by destruct (default [] _).
      * rewrite lookup_insert_ne by done. apply registry_lists0.
    + case_decide; [|apply registry_lists0]. rewrite fmap_app. apply list.NoDup_app.
      split; [apply registry_lists0|]. split; [|apply list.NoDup_singleton].
      intros x Hx ->%list_elem_of_singleton. by apply (Hfresh' c).
  - cbn. rewrite registry_count0. lia.
  - intros id [->|Hin]%elem_of_cons; cbn; [lia|]. specialize (registry_next0 _ Hin). lia.
  - cbn. lia.
Qed.

Lemma unregister_waiters c id s c' :
  waiters_of (unregister c id s) c' =
    if decide (c' = c) then filter (λ w, waiter_id w ≠ id) (waiters_of s c) else waiters_of s c'.
Proof.
  unfold unregister, waiters_of. destruct (active s !! c) as [ws|] eqn:Hws.
  - assert (∀ m t, waiters_of (if decide (length (filter (λ w, waiter_id w ≠ id) ws) = length ws) then m else
      with_metrics t m) c' = waiters_of m c') as Hm by (intros; by case_decide).
    unfold waiters_of in Hm. rewrite Hm. cbn. set (kept := filter _ ws).
    destruct (decide (c' = c)) as [->|Hne], (decide (kept = [])) as [Hk|Hk].
    + by rewrite lookup_delete_eq, Hk.
    + by rewrite lookup_insert_eq.
    + by rewrite lookup_delete_ne.
    + by rewrite lookup_insert_ne.
  - case_decide; [subst; by rewrite Hws|done].
Qed.

Lemma elem_of_kept id id' (ws : list ActiveWaiter) :
  id' ∈ waiter_id <$> filter (λ w, waiter_id w ≠ id) ws ↔ id' ∈ waiter_id <$> ws ∧ id' ≠ id.
Proof.
  rewrite !list_elem_of_fmap. setoid_rewrite list_elem_of_filter. naive_solver.
Qed.

Lemma NoDup_kept id (ws : list ActiveWaiter) :
  NoDup (waiter_id <$> ws) → NoDup (waiter_id <$> filter (λ w, waiter_id w ≠ id) ws).
Proof.
  induction ws as [|a ws IH]; [done|]. rewrite list.filter_cons. intros [Ha Hws]%list.NoDup_cons.
  case_decide; [|auto]. cbn [fmap list_fmap]. apply list.NoDup_cons. split; [|auto].
  intros [Hin _]%elem_of_kept. done.
Qed.

Lemma registry_wf_unregister l1 c id l2 s :
  registry_wf (l1 ++ (c, id) :: l2) s → registry_wf (l1 ++ l2) (unregister c id s).
Proof.
  intros [].
  assert (id ∈ waiter_id <$> waiters_of s c) as Hin by (apply registry_live0; set_solver).
  assert (length (filter (λ w, waiter_id w ≠ id) (waiters_of s c)) ≠ length (waiters_of s c)) as Hlen.
  { apply list_elem_of_fmap in Hin as (a & -> & Ha).
    pose proof (length_filter_lt (λ w, waiter_id w ≠ waiter_id a) _ _ Ha). naive_solver lia. }
  assert (id ∉ (l1 ++ l2).*2) as Hout.
  { rewrite fmap_app in *. cbn in registry_ids0. apply list.NoDup_app in registry_ids0 as (_ & Hd & Hn).
    apply list.NoDup_cons in Hn as [Hn _]. rewrite elem_of_app. intros [Hi|Hi]; [|done].
    apply (Hd id Hi). by left. }
  assert (∀ p, p ∈ l1 ++ l2 → p ∈ l1 ++ (c, id) :: l2) as Hsub by set_solver.
  split.
  - intros c' id'. rewrite unregister_waiters. specialize (registry_live0 c' id').
    assert ((c', id') ∈ l1 ++ l2 ↔ (c', id') ∈ l1 ++ (c, id) :: l2 ∧ (c', id') ≠ (c, id)) as ->.
    { split; [|set_solver]. intros Hp. split; [by apply Hsub|]. intros Heq. rewrite Heq in Hp.
      by apply (list_elem_of_fmap_2 snd) in Hp. }
    rewrite registry_live0. case_decide as Hc; [subst; rewrite elem_of_kept|]; [|naive_solver].
    split; intros [Hi Hne]; (split; [done|congruence]).
  - rewrite fmap_app in *. cbn in registry_ids0. rewrite <- Permutation_middle in registry_ids0.
    by apply list.NoDup_cons in registry_ids0 as [_ ?].
  - intros c'. rewrite unregister_waiters. split.
    + unfold unregister. destruct (active s !! c) as [ws|] eqn:Hws; [|apply registry_lists0].
      assert (∀ m t (b : Prop) `{Decision b}, active (if decide b then m else with_metrics t m) = active m) as Hm
        by (intros; by case_decide).
      rewrite Hm. cbn. set (kept := filter _ ws).
      destruct (decide (c' = c)) as [->|Hne], (decide (kept = [])) as [Hk|Hk].
      * by rewrite lookup_delete_eq.
      * rewrite lookup_insert_eq. congruence.
      * rewrite lookup_delete_ne by done. apply registry_lists0.
      * rewrite lookup_insert_ne by done. apply registry_lists0.
    + case_decide; [apply NoDup_kept|]; apply registry_lists0.
  - unfold unregister. unfold waiters_of in Hlen. destruct (active s !! c) as [ws|]; [|done]. cbn in Hlen.
    rewrite decide_False by done. cbn. rewrite registry_count0, !length_app. cbn. width.
  - intros id' Hid'. assert (next_waiter_id (unregister c id s) = next_waiter_id s) as ->
      by (unfold unregister; destruct (active s !! c); [by case_decide|done]).
    apply registry_next0. rewrite fmap_app in *. set_solver.
  - unfold unregister. destruct (active s !! c); [|done]. case_decide; cbn; width.
Qed.

(** *** The world *)
Record fetch_inv (limits : HydrationLimits) (f : fetch_system) : Prop := {
  fetch_registry : registry_wf (live f) (registry (world f));
  fetch_waiters c a : a ∈ waiters_of (registry (world f)) c →
    (waiter_terminal a < length (gates (world f)))%nat ∧
    is_Some (waiters (hydration (world f)) !! waiter_cancellation a);
  fetch_core : hydration_reachable limits (hydration (world f));
}.

Lemma hydration_step_keeps limits h h' wid :
  hydration_step limits h h' → is_Some (waiters h !! wid) → is_Some (waiters h' !! wid).
Proof.
  assert (∀ s i j w, is_Some (waiters h !! wid) → is_Some (waiters (set_inner h j w s i) !! wid)) as Hset.
  { intros s i j w Hw. cbn. destruct (decide (j = wid)) as [->|?];
      [rewrite lookup_insert_eq; by eexists|by rewrite lookup_insert_ne]. }
  intros [j request Hn _ _|j w Hw|j w Hw|j w Hw _] Hs; [|by apply Hset..|].
  - unfold after_request. cbn. destruct (HydrationCoordinator_request _ _ _).1; [|done].
    destruct (decide (j = wid)) as [->|?]; [rewrite lookup_insert_eq; by eexists|by rewrite lookup_insert_ne].
  - destruct (WaiterInner_release_work _ _) as [i s]. by apply Hset.
Qed.

Lemma registry_wf_progress live c progress now s :
  registry_wf live s → registry_wf live (report_progress c progress now s).2.
Proof.
  unfold report_progress. destruct (active s !! c) as [ws|] eqn:Hws; [destruct (check_progress _ _)|];
    cbn; apply registry_wf_same; try done; cbn; intros c'.
  destruct (decide (c' = c)) as [->|Hne]; [|by rewrite lookup_insert_ne].
  rewrite lookup_insert_eq, Hws. cbn. f_equal. rewrite <- list_fmap_compose. by apply list_fmap_ext.
Qed.

Lemma progress_waiters c progress now s c' a :
  a ∈ waiters_of (report_progress c progress now s).2 c' →
  ∃ a0, a0 ∈ waiters_of s c' ∧ waiter_terminal a = waiter_terminal a0 ∧
    waiter_cancellation a = waiter_cancellation a0.
Proof.
  unfold report_progress, waiters_of. destruct (active s !! c) as [ws|] eqn:Hws;
    [destruct (check_progress _ _)|]; cbn; [|eauto..].
  destruct (decide (c' = c)) as [->|Hne]; [|rewrite lookup_insert_ne by done; eauto].
  rewrite lookup_insert_eq, Hws. cbn. intros (a1 & -> & Ha1)%list_elem_of_fmap. by exists a1.
Qed.

Lemma fetch_step_inv limits f f' : fetch_step limits f f' → fetch_inv limits f → fetch_inv limits f'.
Proof.
  intros [f0|c range wid gate now id s f0 Hwid Hgate Hr|l1 c id l2 f0 Hl|c range f0|o f0|c progress now f0
    |n f0|g from to f0|h f0 Hh] [Hreg Hw Hcore].
  - split; cbn; [done| |done]. intros c a Ha. rewrite length_app. destruct (Hw c a Ha). split; [lia|done].
  - split; cbn; [by eapply registry_wf_register| |done]. intros c' a.
    unfold register_at in Hr. destruct (checked_add _ _ _); [|done]. destruct (checked_add _ _ _); [|done].
    injection Hr as <- <-. unfold waiters_of. cbn. destruct (decide (c' = c)) as [->|Hne].
    + rewrite lookup_insert_eq. cbn. intros [Ha| ->%list_elem_of_singleton]%elem_of_app; [by apply (Hw c)|done].
    + rewrite lookup_insert_ne by done. apply (Hw c').
  - split; cbn; [apply registry_wf_unregister; by rewrite Hl in Hreg| |done]. intros c' a.
    rewrite unregister_waiters. case_decide; [|apply Hw]. intros [_ Ha]%list_elem_of_filter. by apply (Hw c).
  - assert (active (cancel_select c range (registry (world f0))).2 = active (registry (world f0)) ∧
      next_waiter_id (cancel_select c range (registry (world f0))).2 = next_waiter_id (registry (world f0)) ∧
      active_waiters (metrics (cancel_select c range (registry (world f0))).2) =
        active_waiters (metrics (registry (world f0)))) as (Ha & Hn & Hm)
      by (unfold cancel_select; by destruct (active _ !! c)).
    split; cbn; [|unfold waiters_of; rewrite Ha; apply Hw|done].
    eapply registry_wf_same; [|done..|done]. intros c'. by rewrite Ha.
  - split; cbn; [by apply (registry_wf_same _ (registry (world f0)))|apply Hw|done].
  - split; cbn; [by apply registry_wf_progress| |done].
    intros c' a (a0 & Ha0 & -> & ->)%progress_waiters. by apply (Hw c').
  - split; cbn; [by apply (registry_wf_same _ (registry (world f0)))|apply Hw|done].
  - split; cbn; [done| |done]. intros c a Ha. rewrite length_alter. by apply (Hw c).
  - split; cbn; [done| |by eapply rtc_r]. intros c a Ha. destruct (Hw c a Ha). split; [done|].
    by eapply hydration_step_keeps.
Qed.

Lemma fetch_reachable_inv limits config f : fetch_reachable limits config f → fetch_inv limits f.
Proof.
  unfold fetch_reachable. revert f. refine (rtc_ind_r _ _ _ _).
  - split; cbn; [apply registry_wf_new| |apply rtc_refl].
    intros c a. unfold waiters_of. cbn. rewrite lookup_empty. by intros ?%elem_of_nil.
  - intros f f' _ Hs Hinv. by eapply fetch_step_inv.
Qed.

(** *** A cancellation *)
(** Cancelling a handle is two steps of the core at most. *)
Lemma cancel_handle_steps limits wid w :
  rtc (hydration_step limits) (hydration w) (hydration (cancel_handle wid w).2) ∧
  registry (cancel_handle wid w).2 = registry w ∧ gates (cancel_handle wid w).2 = gates w.
Proof.
  unfold cancel_handle. destruct (waiters (hydration w) !! wid) as [waiter|] eqn:Hw; [|done].
  unfold WaiterInner_cancel. pose proof (step_cancel limits (hydration w) wid waiter Hw) as Hc.
  unfold cancel_race in *. destruct (compare_exchange _ _ _) as [[seen|seen] t] eqn:Hx; cbn in Hc.
  - assert (t ≠ TERMINAL_PENDING) as Ht.
    { unfold compare_exchange in Hx. case_decide; [|done]. by injection Hx as _ <-. }
    set (i1 := take_sender (inner waiter) t) in *.
    pose proof (step_release limits (set_inner (hydration w) wid waiter (coordinator (hydration w)) i1) wid
      (with_inner waiter i1) ltac:(cbn; by rewrite lookup_insert_eq) ltac:(done)) as Hrel. cbn in Hrel.
    destruct (WaiterInner_release_work i1 _) as [i s]. cbn. split; [|done].
    eapply rtc_l; [exact Hc|]. apply rtc_once. unfold set_inner in *. cbn in Hrel.
    by rewrite insert_insert_eq in Hrel.
  - case_decide; cbn; (split; [by apply rtc_once|done]).
Qed.

Lemma cancel_handle_settles wid w waiter :
  waiters (hydration w) !! wid = Some waiter →
  ∃ waiter', waiters (hydration (cancel_handle wid w).2) !! wid = Some waiter' ∧
    terminal (inner waiter') ≠ TERMINAL_PENDING.
Proof.
  intros Hw. unfold cancel_handle, WaiterInner_cancel, cancel_race. rewrite Hw.
  unfold compare_exchange. case_decide as Hp.
  - unfold WaiterInner_release_work. cbn. destruct (released (inner waiter)); cbn;
      eexists; (split; [by rewrite lookup_insert_eq|done]).
  - case_decide; cbn; eexists; (split; [by rewrite lookup_insert_eq|done]).
Qed.

(** What one target of a cancellation leaves settled stays settled. *)
Definition handle_settled (wid : Z) (w : fetch_world) : Prop :=
  ∃ waiter, waiters (hydration w) !! wid = Some waiter ∧ terminal (inner waiter) ≠ TERMINAL_PENDING.

Lemma cancel_handle_keeps wid wid' w :
  handle_settled wid w → handle_settled wid (cancel_handle wid' w).2.
Proof.
  intros (waiter & Hw & Ht). destruct (decide (wid' = wid)) as [->|Hne]; [by eapply cancel_handle_settles|].
  exists waiter. split; [|done]. unfold cancel_handle.
  destruct (waiters (hydration w) !! wid'); [|done]. destruct (WaiterInner_cancel _ _) as [o [i s]].
  cbn. by rewrite lookup_insert_ne.
Qed.

Lemma gate_at_other call g w :
  registry (gate_at call g w).2 = registry w ∧ hydration (gate_at call g w).2 = hydration w ∧
  length (gates (gate_at call g w).2) = length (gates w).
Proof.
  unfold gate_at. destruct (gates w !! g); [|done]. destruct (gate_run _ _). cbn. by rewrite length_insert.
Qed.

Lemma gate_at_platform g w g' :
  (g < length (gates w))%nat →
  gates (gate_at CancelByPlatform g w).2 !! g' =
    if decide (g' = g) then
      (λ c, if decide (c = NativeAttempted) then c else PlatformCancelled) <$> gates w !! g
    else gates w !! g'.
Proof.
  intros [c Hc]%lookup_lt_is_Some_2. unfold gate_at. rewrite Hc, gate_run_cases.
  pose proof (lookup_lt_Some _ _ _ Hc) as Hlt. case_decide as Hg; [subst g'|];
    destruct c; cbn; rewrite ?list_lookup_insert_eq, ?list_lookup_insert_ne by done; done.
Qed.

(** The state of a gate after a platform cancellation. *)
Definition platform_ended (c : FetchTerminalState) : FetchTerminalState :=
  if decide (c = NativeAttempted) then c else PlatformCancelled.

Lemma cancel_targets_spec limits targets c w c' w' :
  (∀ t, t ∈ targets → (waiter_terminal t < length (gates w))%nat ∧
     is_Some (waiters (hydration w) !! waiter_cancellation t)) →
  cancel_targets targets c w = (c', w') →
  registry w' = registry w ∧ rtc (hydration_step limits) (hydration w) (hydration w') ∧
  (∀ g, gates w' !! g = if decide (g ∈ waiter_terminal <$> targets)
                        then platform_ended <$> gates w !! g else gates w !! g) ∧
  (∀ t, t ∈ targets → handle_settled (waiter_cancellation t) w') ∧
  (∀ wid, handle_settled wid w → handle_settled wid w') ∧
  outcome_fully_matched c' = outcome_fully_matched c ∧
  outcome_partially_matched c' = outcome_partially_matched c ∧
  (outcome_cancelled c + outcome_already_cancelled c + outcome_already_completed c +
     Z.of_nat (length targets) ≤ USIZE_MAX →
   0 ≤ outcome_cancelled c → 0 ≤ outcome_already_cancelled c → 0 ≤ outcome_already_completed c →
   outcome_cancelled c' + outcome_already_cancelled c' + outcome_already_completed c' =
   outcome_cancelled c + outcome_already_cancelled c + outcome_already_completed c +
     Z.of_nat (length targets)).
Proof.
  revert c w. induction targets as [|t targets IH]; intros c w Ht.
  { cbn. intros [= <- <-]. split_and!; try done; try lia. by intros t ?%elem_of_nil. }
  destruct (Ht t) as [Hg Hh]; [by left|]. cbn [cancel_targets].
  pose proof (gate_at_other CancelByPlatform (waiter_terminal t) w) as (Hreg1 & Hhyd1 & Hlen1).
  pose proof (gate_at_platform (waiter_terminal t) w) as Hgates1.
  destruct (gate_at _ _ w) as [won w1]. cbn in *.
  pose proof (cancel_handle_steps limits (waiter_cancellation t) w1) as (Hsteps & Hreg2 & Hgates2).
  pose proof (cancel_handle_settles (waiter_cancellation t) w1) as Hset.
  pose proof (λ wid, cancel_handle_keeps wid (waiter_cancellation t) w1) as Hkeep.
  destruct (cancel_handle _ w1) as [outcome w2]. cbn in *. intros Hc.
  apply IH in Hc as (Hreg & Hrtc & Hgates & Htargets & Hkept & Hfull & Hpart & Hsum).
  2:{ intros t' Ht'. rewrite Hgates2, Hlen1. destruct (Ht t') as [? Hsome]; [by right|]. split; [done|].
      rewrite <- Hhyd1 in Hsome. clear -Hsteps Hsome. induction Hsteps; eauto using hydration_step_keeps. }
  split; [congruence|]. split; [rewrite <- Hhyd1; by etrans|]. split; [|split; [|split; [|split; [|split]]]].
  - intros g. rewrite Hgates, Hgates2, Hgates1 by done. cbn.
    destruct (decide (g = waiter_terminal t)) as [->|Hne].
    + rewrite (decide_True (P := waiter_terminal t ∈ _ :: _)) by (by left).
      case_decide; [|done]. rewrite <- option_fmap_compose. apply option_fmap_ext. intros x.
      unfold platform_ended, compose. repeat case_decide; congruence.
    + destruct (decide (g ∈ waiter_terminal <$> targets)) as [Hin|Hin].
      * rewrite decide_True by (by right). done.
      * rewrite decide_False by (by intros [?|?]%elem_of_cons). done.
  - intros t' [->|Ht']%elem_of_cons; [|by apply Htargets]. apply Hkept.
    rewrite <- Hhyd1 in Hh. destruct Hh as [waiter Hw]. by eapply Hset.
  - intros wid (waiter & Hw & Hp). apply Hkept, Hkeep. exists waiter. by rewrite Hhyd1.
  - rewrite Hfull. by destruct c.
  - rewrite Hpart. by destruct c.
  - intros Hle H1 H2 H3. cbn [length] in Hle |- *.
    assert (outcome_cancelled (count_outcome outcome c) + outcome_already_cancelled (count_outcome outcome c) +
      outcome_already_completed (count_outcome outcome c) = outcome_cancelled c + outcome_already_cancelled c +
      outcome_already_completed c + 1 ∧ 0 ≤ outcome_cancelled (count_outcome outcome c) ∧
      0 ≤ outcome_already_cancelled (count_outcome outcome c) ∧
      0 ≤ outcome_already_completed (count_outcome outcome c)) as (He & ? & ? & ?).
    { unfold count_outcome, saturating_add. destruct outcome; cbn; repeat case_decide; try done; split_and!; lia. }
    rewrite Hsum; lia.
Qed.

Lemma waiters_le_live live s c : registry_wf live s → (length (waiters_of s c) ≤ length live)%nat.
Proof.
  intros []. rewrite <- (length_fmap waiter_id), <- (length_fmap snd live).
  apply submseteq_length, NoDup_submseteq; [apply registry_lists0|].
  intros id Hid%registry_live0. by apply (list_elem_of_fmap_2 snd) in Hid.
Qed.

Lemma check_progress_ok progress ws a previous :
  check_progress progress ws = Ok tt → a ∈ ws → waiter_progress a = Some previous →
  progress_total progress = progress_total previous ∧
  progress_completed previous ≤ progress_completed progress.
Proof.
  induction ws as [|x ws IH]; [by intros _ ?%elem_of_nil|]. cbn.
  intros (u & Hx & Hc)%result_bind_ok [->|Ha]%elem_of_cons Hp; [|by apply IH].
  rewrite Hp in Hx. unfold advance_from in Hx. case_decide as Ht; [done|]. case_decide; [done|].
  split; [done|lia].
Qed.

(** C9. The callbacks of the adapter are accounted for.  In every reachable
    interleaving of accepted callbacks, registrations, drops, gate exchanges,
    cancellations, reports, polls and core hydration steps: the registry holds
    exactly the live registrations, under distinct identities and no empty
    entry, and its metric counts them; the core stays in a state of its own
    system.  A cancellation then picks exactly the waiters of its correlation
    whose range lies within its own: their gates end as cancelled unless the
    native completion came first, no other gate changes, their core waiters
    are decided, each is counted under one outcome, and the registrations
    stay; an invalid range changes nothing.  A progress report is accepted
    only if it keeps the total and does not regress for any waiter, and
    otherwise leaves them all. *)
Theorem fetch_callbacks_accounted limits config f :
  fetch_reachable limits config f →
  let s := registry (world f) in
  (∀ c id, (c, id) ∈ live f ↔ id ∈ waiter_id <$> waiters_of s c) ∧ NoDup (live f).*2 ∧
  active_waiters (metrics s) = Z.of_nat (length (live f)) ∧ (∀ c, active s !! c ≠ Some []) ∧
  hydration_reachable limits (hydration (world f)) ∧
  (∀ c range file_size r w', registry_cancel c range file_size (world f) = (r, w') →
     match r with
     | Err _ => w' = world f
     | Ok o => ∃ br, callback_range range file_size = Ok br ∧
         let targets := filter (λ a, range_covers br (waiter_range a) = true) (waiters_of s c) in
         outcome_fully_matched o = Z.of_nat (length targets) ∧
         outcome_cancelled o + outcome_already_cancelled o + outcome_already_completed o =
           Z.of_nat (length targets) ∧
         (∀ g, gates w' !! g = if decide (g ∈ waiter_terminal <$> targets)
                               then platform_ended <$> gates (world f) !! g
                               else gates (world f) !! g) ∧
         (∀ t, t ∈ targets → handle_settled (waiter_cancellation t) w') ∧
         active (registry w') = active s ∧
         rtc (hydration_step limits) (hydration (world f)) (hydration w')
     end) ∧
  (∀ c progress now, match report_progress c progress now s with
     | (Err _, s') => active s' = active s
     | (Ok n, s') => n = Z.of_nat (length (waiters_of s c)) ∧
         ∀ a previous, a ∈ waiters_of s c → waiter_progress a = Some previous →
           progress_total progress = progress_total previous ∧
           progress_completed previous ≤ progress_completed progress
     end).
Proof.
  intros [Hwf Hw Hcore]%fetch_reachable_inv s.
  split; [apply Hwf|]. split; [apply Hwf|]. split; [apply Hwf|].
  split; [intros c; apply Hwf|]. split; [done|]. split.
  - intros c range file_size r w'. unfold registry_cancel.
    destruct (callback_range range file_size) as [br|e] eqn:Hr; [|by intros [= <- <-]].
    unfold cancel_select. fold s. pose proof (waiters_le_live _ _ c Hwf) as Hle. fold s in Hle.
    pose proof (registry_count _ _ Hwf) as Hcount. pose proof (registry_bounds _ _ Hwf) as [_ Hbound].
    specialize (Hw c). fold s in Hw, Hcount, Hbound. unfold waiters_of in *.
    destruct (active s !! c) as [ws|] eqn:Hws.
    + cbn [default] in *. set (targets := filter (λ a, range_covers br (waiter_range a) = true) ws) in *.
      destruct (cancel_targets _ _ _) as [o w1] eqn:Ho. intros [= <- <-]. exists br. split; [done|].
      apply (cancel_targets_spec limits) in Ho as (Hreg & Hrtc & Hgates & Hset & _ & Hfull & _ & Hsum).
      2:{ intros t [_ Ht]%list_elem_of_filter. by apply Hw. }
      cbn in *. rewrite Hfull, Hreg. cbn.
      assert (length targets ≤ length ws)%nat as Hlen by apply length_filter.
      rewrite Hsum by lia. done.
    + intros [= <- <-]. exists br. cbn. split_and!; try done. by intros t ?%elem_of_nil.
  - intros c progress now. unfold report_progress. unfold waiters_of.
    destruct (active s !! c) as [ws|] eqn:Hws; [|split; [done|by intros a p ?%elem_of_nil]].
    destruct (check_progress progress ws) as [[]|e] eqn:Hc; [|done]. cbn. split; [done|].
    intros a previous. by apply check_progress_ok.
Qed.

(** Two waiters of one callback: a cancellation of [0, 4) covers the first and
    only touches the second. *)
Definition demo_correlation : WindowsFetchDataCorrelation := mk_WindowsFetchDataCorrelation 1 2 3 4 5.

Definition demo_register (wid : Z) (gate : nat) (offset length : Z) (s : RegistryState) : RegistryState :=
  (register_at demo_correlation (mk_ByteRange offset length) wid gate 100 s).2.

Definition demo_fetch : fetch_system :=
  mk_fetch_system
    (mk_fetch_world (demo_register 1 1 2 5 (demo_register 0 0 0 3 (registry_new 60)))
      [FetchPending; FetchPending] demo_second)
    [(demo_correlation, 1); (demo_correlation, 0)].

Lemma fetch_lift limits f h h' :
  rtc (hydration_step limits) h h' →
  rtc (fetch_step limits)
    (mk_fetch_system (mk_fetch_world (registry (world f)) (gates (world f)) h) (live f))
    (mk_fetch_system (mk_fetch_world (registry (world f)) (gates (world f)) h') (live f)).
Proof.
  induction 1 as [h|h h1 h' Hs _ IH]; [done|]. eapply rtc_l; [|exact IH].
  exact (fetch_hydration limits h1 (mk_fetch_system (mk_fetch_world (registry (world f)) (gates (world f)) h) (live f)) Hs).
Qed.

Lemma demo_fetch_reachable : fetch_reachable HydrationLimits_DEFAULT 60 demo_fetch.
Proof.
  eapply rtc_trans; [apply (fetch_lift _ (fetch_new 60)), demo_reachable|].
  eapply rtc_l; [apply fetch_accept|]. eapply rtc_l; [apply fetch_accept|].
  eapply rtc_l; [apply (fetch_register _ demo_correlation (mk_ByteRange 0 3) 0 0 100 0);
    [by eexists; vm_compute|cbn; lia|vm_compute; reflexivity]|].
  eapply rtc_l; [apply (fetch_register _ demo_correlation (mk_ByteRange 2 5) 1 1 100 1);
    [by eexists; vm_compute|cbn; lia|vm_compute; reflexivity]|].
  apply rtc_refl.
Qed.

Lemma fetch_callbacks_accounted_witness :
  let w' := (registry_cancel demo_correlation (mk_WindowsCallbackRange 0 (Exact 4)) 10 (world demo_fetch)).2 in
  gates w' = [PlatformCancelled; FetchPending] ∧ handle_settled 0 w'.
Proof.
  split; [vm_compute; reflexivity|].
  destruct (fetch_callbacks_accounted _ _ _ demo_fetch_reachable) as (_ & _ & _ & _ & _ & Hcancel & _).
  specialize (Hcancel demo_correlation (mk_WindowsCallbackRange 0 (Exact 4)) 10 _ _ (surjective_pairing _)).
  assert ((registry_cancel demo_correlation (mk_WindowsCallbackRange 0 (Exact 4)) 10 (world demo_fetch)).1 =
    Ok (mk_cancellation_outcome 1 1 1 0 0)) as Hr by (vm_compute; reflexivity).
  rewrite Hr in Hcancel. destruct Hcancel as (br & Hbr & _ & _ & _ & Hset & _).
  vm_compute in Hbr. injection Hbr as <-.
  assert (∃ t, t ∈ waiters_of (registry (world demo_fetch)) demo_correlation ∧ waiter_cancellation t = 0 ∧
    range_covers (mk_ByteRange 0 4) (waiter_range t) = true) as (t & Ht & Hz & Hc).
  { eexists. split; [vm_compute; left|]. split; reflexivity. }
  pose proof (Hset t (proj2 (list_elem_of_filter _ _ _) (conj Hc Ht))) as Hs. by rewrite Hz in Hs.
Defined.
