(* ===== verification/Lifecycle.v ===== *)
(** * The life of a process

    [aster_forge_runtime/src/lifecycle.rs]: the builder that assembles a
    runtime from components, and the run that starts it, waits for its service
    and shuts it down; and the coordinator of [shutdown.rs].  The service, the
    hooks and the phases are calls on the outside world that return or panic;
    cancellation tokens and the listener for process signals belong to tokio
    and are the class [ProcessWorld]. *)
From S2P Require Export RuntimeGraph.

(** ** Tokens and signals *)
Class ProcessWorld (W : Type) := {
  cancel : nat → W → W;                 (* [CancellationToken::cancel] *)
  cancelled : nat → W → bool;
  (* [tokio::spawn] of the task that waits for a signal, and the task's
     remaining steps when it is aborted and joined *)
  spawn_signal_task : (W → W) → W → W;
  abort_signal_task : W → W;
}.

Section lifecycle.
Context {W F A : Type} `{ProcessWorld W}.
Context (tokio_timeout : Z → phase_fn (W := W) → W → option phase_end * W).

(** ** The coordinator of independent phases *)
Record RegisteredShutdownPhase : Type := mk_RegisteredShutdownPhase {
  shutdown_phase_label : string;
  shutdown_phase_limit : option Z;
  shutdown_phase_call : phase_fn (W := W);
}.

Fixpoint ShutdownCoordinator_run (phases : list RegisteredShutdownPhase) (w : W)
    : list ShutdownPhaseReport * W :=
  match phases with
  | [] => ([], w)
  | phase :: phases =>
      let '(status, w) := run_shutdown_phase tokio_timeout (shutdown_phase_limit phase)
                            (shutdown_phase_call phase) w in
      let '(reports, w) := ShutdownCoordinator_run phases w in
      (mk_ShutdownPhaseReport (shutdown_phase_label phase) status :: reports, w)
  end.

(** [spawn_termination_signal_handler]: the spawned task cancels the token
    and runs the callback once the signal has come, or listening failed. *)
Definition spawn_termination_signal_handler (shutdown_token : nat) (on_signal : W → W) (w : W) : W :=
  spawn_signal_task (λ w, on_signal (cancel shutdown_token w)) w.

(** ** Assembly *)
(** A future that returns or panics; its drop is inside the boundary. *)
Definition service_fn : Type := W → option A * W.
(** A hook; [true] when it panicked. *)
Definition hook_fn : Type := W → bool * W.

Record RuntimeServiceParts : Type := mk_RuntimeServiceParts {
  parts_service : service_fn;
  parts_shutdown_token : nat;
  parts_stop_on_signal : W → W;
}.

Record RuntimeServiceComponent : Type := mk_RuntimeServiceComponent {
  service_component_name : string;
  service_component_kind : RuntimeComponentKind;
  service_parts : RuntimeServiceParts;
}.

Record ShutdownResourceComponent : Type := mk_ShutdownResourceComponent {
  resource_component_name : string;
  resource_component_kind : RuntimeComponentKind;
  resource_phase_name : string;
  resource_dependencies : list string;
  resource_shutdown : phase_fn (W := W);
}.

Inductive AsterRuntimeError : Type :=
  | MissingService
  | DuplicateService
  | ComponentGraph (source : RuntimeComponentGraphError)
  | Startup (report : list StartupPhaseReport) (shutdown_report : list ShutdownPhaseReport)
  | Service (shutdown_report : list ShutdownPhaseReport) (before_shutdown_panicked : bool)
  | BeforeShutdown (shutdown_report : list ShutdownPhaseReport)
  | ShutdownFailures (report : list ShutdownPhaseReport).

(** What a component registers: the calls its registration function makes. *)
Definition registration : Type := list (registry_call (W := W) (F := F)).

Record AsterRuntimeBuilder : Type := mk_AsterRuntimeBuilder {
  builder_service : option RuntimeServiceParts;
  builder_shutdown_token : nat;
  builder_before_shutdown : hook_fn;
  builder_components : list registration;
  builder_assembly_error : option AsterRuntimeError;
}.

(** The token is fresh; the hook does nothing. *)
Definition AsterRuntimeBuilder_new (token : nat) : AsterRuntimeBuilder :=
  mk_AsterRuntimeBuilder None token (λ w, (false, w)) [] None.

Definition RuntimeServiceComponent_apply (c : RuntimeServiceComponent) (b : AsterRuntimeBuilder)
    : AsterRuntimeBuilder :=
  mk_AsterRuntimeBuilder (Some (service_parts c)) (builder_shutdown_token b) (builder_before_shutdown b)
    (builder_components b ++ [[CallKind (service_component_name c) (service_component_kind c)]])
    (match builder_service b with
     | Some _ => Some DuplicateService
     | None => builder_assembly_error b
     end).

Definition RuntimeComponentBundleRegistration_apply (bundle : registration) (b : AsterRuntimeBuilder)
    : AsterRuntimeBuilder :=
  mk_AsterRuntimeBuilder (builder_service b) (builder_shutdown_token b) (builder_before_shutdown b)
    (builder_components b ++ [bundle]) (builder_assembly_error b).

Definition ShutdownResourceComponent_register (c : ShutdownResourceComponent) : registration :=
  [CallKind (resource_component_name c) (resource_component_kind c);
   CallDependsOnAll (resource_component_name c) (resource_dependencies c);
   CallShutdown (resource_component_name c) (resource_phase_name c) None (resource_shutdown c)].

(** Factories that receive the runtime's token. *)
Definition RuntimeComponentWithShutdown_apply (build : nat → AsterRuntimeBuilder → AsterRuntimeBuilder)
    (b : AsterRuntimeBuilder) : AsterRuntimeBuilder :=
  build (builder_shutdown_token b) b.

Definition TryRuntimeComponentWithShutdown_apply {E}
    (build : nat → result E (AsterRuntimeBuilder → AsterRuntimeBuilder))
    (b : AsterRuntimeBuilder) : result E AsterRuntimeBuilder :=
  component ← build (builder_shutdown_token b);
  Ok (component b).

Definition AsterRuntimeBuilder_before_shutdown (hook : hook_fn) (b : AsterRuntimeBuilder)
    : AsterRuntimeBuilder :=
  mk_AsterRuntimeBuilder (builder_service b) (builder_shutdown_token b) hook
    (builder_components b) (builder_assembly_error b).

Record AsterRuntime : Type := mk_AsterRuntime {
  runtime_service : service_fn;
  runtime_shutdown_token : nat;
  runtime_service_shutdown_token : nat;
  runtime_stop_on_signal : W → W;
  runtime_before_shutdown : hook_fn;
  runtime_registry : RuntimeComponentRegistry (W := W) (F := F);
}.

(** [None] is a validation that does not end; it never happens. *)
Definition AsterRuntimeBuilder_build (b : AsterRuntimeBuilder)
    : option (result AsterRuntimeError AsterRuntime) :=
  match builder_assembly_error b with
  | Some error => Some (Err error)
  | None =>
      match builder_service b with
      | None => Some (Err MissingService)
      | Some service =>
          let registry := foldl (λ r calls, foldl (λ r call, registry_do call r) r calls)
            RuntimeComponentRegistry_new (builder_components b) in
          valid ← RuntimeComponentRegistry_validate registry;
          Some match valid with
          | Err source => Err (ComponentGraph source)
          | Ok _ =>
              Ok (mk_AsterRuntime (parts_service service) (builder_shutdown_token b)
                (parts_shutdown_token service)
                (λ w, parts_stop_on_signal service (cancel (parts_shutdown_token service) w))
                (builder_before_shutdown b) registry)
          end
      end
  end.

(** ** The run *)
(** The two drop guards cancel their tokens on every exit. *)
Definition drop_guards (rt : AsterRuntime) (w : W) : W :=
  cancel (runtime_shutdown_token rt) (cancel (runtime_service_shutdown_token rt) w).

(** [None] is a shutdown that does not end; it never happens. *)
Definition AsterRuntime_run (rt : AsterRuntime) (w : W) : option (result AsterRuntimeError A * W) :=
  let '(startup_report, w) := StartupCoordinator_run (registry_startup (runtime_registry rt)) w in
  if StartupReport_aborted startup_report then
    let w := cancel (runtime_shutdown_token rt) w in
    let w := cancel (runtime_service_shutdown_token rt) w in
    '(shutdown_report, w) ← RuntimeComponentRegistry_shutdown tokio_timeout (runtime_registry rt) w;
    Some (Err (Startup startup_report shutdown_report), drop_guards rt w)
  else
    let w := spawn_termination_signal_handler (runtime_shutdown_token rt) (runtime_stop_on_signal rt) w in
    let '(output, w) := runtime_service rt w in
    let w := cancel (runtime_shutdown_token rt) w in
    let w := cancel (runtime_service_shutdown_token rt) w in
    let w := abort_signal_task w in
    let '(before_shutdown_failed, w) := runtime_before_shutdown rt w in
    '(report, w) ← RuntimeComponentRegistry_shutdown tokio_timeout (runtime_registry rt) w;
    Some (match output with
          | None => Err (Service report before_shutdown_failed)
          | Some output =>
              if before_shutdown_failed : bool then Err (BeforeShutdown report)
              else if ShutdownReport_has_failures report then Err (ShutdownFailures report)
              else Ok output
          end, drop_guards rt w).

Definition AsterRuntimeBuilder_run (b : AsterRuntimeBuilder) (w : W)
    : option (result AsterRuntimeError A * W) :=
  built ← AsterRuntimeBuilder_build b;
  match built with
  | Err error => Some (Err error, w)
  | Ok rt => AsterRuntime_run rt w
  end.

(** ** The lower-level runner *)
(** Its outcome: the output, or the panic that is resumed. *)
Inductive lifecycle_end : Type :=
  | Returned (output : A)
  | ServicePanic
  | CleanupPanic.

Definition ServiceLifecycle_run (server : service_fn) (shutdown_token : nat) (stop_on_signal : W → W)
    (after_stop : hook_fn) (w : W) : lifecycle_end * W :=
  let w := spawn_termination_signal_handler shutdown_token stop_on_signal w in
  let '(server_result, w) := server w in
  let w := cancel shutdown_token w in
  let w := abort_signal_task w in
  let '(cleanup_panicked, w) := after_stop w in
  (match server_result, cleanup_panicked with
   | Some output, false => Returned output
   | None, _ => ServicePanic
   | Some _, true => CleanupPanic
   end, cancel shutdown_token w).

End lifecycle.
