(* ===== verification/LifecycleSpec.v ===== *)
(** * What a run of the process guarantees

    The documented behaviour of cancellation tokens as a class of laws, what
    assembling components builds, the contract of a whole run, and a process
    to run. *)
From S2P Require Export Lifecycle.

(** A token stays cancelled. *)
Definition keeps_tokens `{ProcessWorld W} (f : W → W) : Prop :=
  ∀ t w, cancelled t w = true → cancelled t (f w) = true.

Class ProcessLaws (W : Type) `{ProcessWorld W} : Prop := {
  cancel_law t w : cancelled t (cancel t w) = true;
  cancel_keeps t : keeps_tokens (cancel t);
  abort_keeps : keeps_tokens abort_signal_task;
}.

Section spec.
Context {W F A : Type} `{ProcessLaws W}.
Context (tokio_timeout : Z → phase_fn (W := W) → W → option phase_end * W).

Abbreviation builder := (AsterRuntimeBuilder (W := W) (F := F) (A := A)).
Abbreviation registry_of := (RuntimeComponentRegistry (W := W) (F := F)).

(** ** Assembly *)
(** The components of a product, in the order they are added. *)
Inductive component : Type :=
  | ServiceComponent (c : RuntimeServiceComponent (W := W) (A := A))
  | BundleComponent (bundle : registration (W := W) (F := F))
  | WithShutdown (build : nat → component).

Fixpoint apply_component (c : component) : builder → builder :=
  match c with
  | ServiceComponent c => RuntimeServiceComponent_apply c
  | BundleComponent bundle => RuntimeComponentBundleRegistration_apply bundle
  | WithShutdown build => RuntimeComponentWithShutdown_apply (λ token, apply_component (build token))
  end.

Definition assemble (token : nat) (hook : hook_fn) (components : list component) : builder :=
  AsterRuntimeBuilder_before_shutdown hook
    (foldl (λ b c, apply_component c b) (AsterRuntimeBuilder_new token) components).

(** The services among them, and what they register. *)
Fixpoint services_of (token : nat) (c : component) : list (RuntimeServiceParts (W := W) (A := A)) :=
  match c with
  | ServiceComponent c => [service_parts c]
  | BundleComponent _ => []
  | WithShutdown build => services_of token (build token)
  end.

Fixpoint calls_of (token : nat) (c : component) : list (registry_call (W := W) (F := F)) :=
  match c with
  | ServiceComponent c => [CallKind (service_component_name c) (service_component_kind c)]
  | BundleComponent bundle => bundle
  | WithShutdown build => calls_of token (build token)
  end.

Definition service_or_error (services : list (RuntimeServiceParts (W := W) (A := A))) : option AsterRuntimeError :=
  match services with _ :: _ :: _ => Some DuplicateService | _ => None end.

Lemma apply_component_spec token c services calls hook :
  apply_component c (mk_AsterRuntimeBuilder (list.last services) token hook calls (service_or_error services)) =
  mk_AsterRuntimeBuilder (list.last (services ++ services_of token c)) token hook
    (calls ++ [calls_of token c]) (service_or_error (services ++ services_of token c)).
Proof.
  induction c as [c|bundle|build IH]; cbn [apply_component services_of calls_of].
  - unfold RuntimeServiceComponent_apply. cbn. rewrite list.last_snoc.
    destruct services as [|s [|s' l]]; cbn; try done. by destruct (list.last (s' :: l)).
  - unfold RuntimeComponentBundleRegistration_apply. cbn. by rewrite app_nil_r.
  - unfold RuntimeComponentWithShutdown_apply. cbn. apply IH.
Qed.

Lemma assemble_spec token hook components :
  assemble token hook components =
  mk_AsterRuntimeBuilder (list.last (components ≫= services_of token)) token hook
    (calls_of token <$> components) (service_or_error (components ≫= services_of token)).
Proof.
  unfold assemble. assert (∀ services calls, foldl (λ b c, apply_component c b)
    (mk_AsterRuntimeBuilder (list.last services) token (λ w, (false, w)) calls (service_or_error services)) components =
    mk_AsterRuntimeBuilder (list.last (services ++ (components ≫= services_of token))) token (λ w, (false, w))
      (calls ++ (calls_of token <$> components)) (service_or_error (services ++ (components ≫= services_of token)))) as Hfold.
  { induction components as [|c components IH]; intros services calls; cbn [foldl].
    - cbn. by rewrite !app_nil_r.
    - rewrite apply_component_spec, IH. by rewrite bind_cons, fmap_cons, <- !app_assoc. }
  change (AsterRuntimeBuilder_new token) with
    (mk_AsterRuntimeBuilder (W := W) (F := F) (A := A) (list.last []) token (λ w, (false, w)) [] (service_or_error [])).
  by rewrite Hfold.
Qed.

Definition configured (token : nat) (components : list component) : registry_of :=
  RuntimeComponentRegistry_configured (concat (calls_of token <$> components)).

Lemma foldl_concat calls (r : registry_of) :
  foldl (λ r calls, foldl (λ r call, registry_do call r) r calls) r calls =
  foldl (λ r call, registry_do call r) r (concat calls).
Proof. revert r. induction calls as [|c calls IH]; intros r; cbn; [done|]. by rewrite foldl_app, IH. Qed.

(** A graph that [validate] accepts. *)
Definition graph_valid (r : registry_of) : Prop :=
  (∀ c d, declares r c d → registered r d) ∧ acyclic (descriptor_by_name (registry_components r)).

Lemma build_spec token hook components :
  let r := configured token components in
  AsterRuntimeBuilder_build (assemble token hook components) =
    match components ≫= services_of token with
    | [] => Some (Err MissingService)
    | [service] => (λ v, match v with
        | Err source => Err (ComponentGraph source)
        | Ok _ => Ok (mk_AsterRuntime (parts_service service) token (parts_shutdown_token service)
            (λ w, parts_stop_on_signal service (cancel (parts_shutdown_token service) w)) hook r)
        end) <$> RuntimeComponentRegistry_validate r
    | _ => Some (Err DuplicateService)
    end.
Proof.
  intros r. rewrite assemble_spec. unfold AsterRuntimeBuilder_build. cbn.
  destruct (components ≫= services_of token) as [|s [|s' l]] eqn:Hs; cbn; try done.
  rewrite foldl_concat. fold (RuntimeComponentRegistry_configured (W := W) (F := F) (concat (calls_of token <$> components))).
  fold (configured token components). subst r. by destruct (RuntimeComponentRegistry_validate (configured token components)).
Qed.

Lemma configured_valid token components :
  let r := configured token components in
  (RuntimeComponentRegistry_validate r = Some (Ok tt) ∧ graph_valid r) ∨
  (∃ e, RuntimeComponentRegistry_validate r = Some (Err e) ∧ ¬ graph_valid r).
Proof.
  intros r. assert (names_distinct r) as HN by apply configured_distinct.
  destruct (validate_outcome r HN) as [(-> & Hreg & Hac)|[(c & d & -> & Hf)|(cy & -> & Hc & Hreg)]].
  - by left.
  - right. eexists. split; [done|]. intros [Hreg _]. apply first_missing_declared in Hf as [Hd Hn].
    apply Hreg, descriptor_registered in Hd. rewrite Hn in Hd. by destruct Hd.
  - right. eexists. split; [done|]. intros [_ Hac]. apply cycle_path_tc in Hc as [x Hx]. by destruct (Hac x).
Qed.

(** ** The run *)
(** Components shut down in the world [w1], after both tokens are cancelled:
    every registered phase once, dependencies before their dependents. *)
Definition shuts_down (rt : AsterRuntime (W := W) (F := F) (A := A)) (w1 : W)
    (reports : list ShutdownPhaseReport) (w2 : W) : Prop :=
  let r := runtime_registry rt in
  cancelled (runtime_shutdown_token rt) w1 = true ∧ cancelled (runtime_service_shutdown_token rt) w1 = true ∧
  ∃ order, shutdown_plan r order ∧
    run_shutdown_phases tokio_timeout (order ≫= phases_of (registry_shutdown r)) w1 = (reports, w2) ∧
    shutdown_report_name <$> reports = phase_phase_name <$> order ≫= phases_of (registry_shutdown r).

Lemma shutdown_shuts_down rt w1 :
  cancelled (runtime_shutdown_token rt) w1 = true → cancelled (runtime_service_shutdown_token rt) w1 = true →
  ∃ reports w2, RuntimeComponentRegistry_shutdown tokio_timeout (runtime_registry rt) w1 = Some (reports, w2) ∧
    shuts_down rt w1 reports w2.
Proof.
  intros H1 H2. destruct (shutdown_runs tokio_timeout (runtime_registry rt)) as (order & Hplan & Hrun).
  rewrite Hrun. set (run := order ≫= _). destruct (run_shutdown_phases tokio_timeout run w1) as [reports w2] eqn:Hr.
  exists reports, w2. split; [done|]. split_and!; [done|done|]. exists order. split_and!; [done|exact Hr|].
  pose proof (run_shutdown_phases_names tokio_timeout run w1) as Hn. by rewrite Hr in Hn.
Qed.

(** What [run] does in [w], and what it returns. *)
Definition run_contract (rt : AsterRuntime (W := W) (F := F) (A := A)) (w : W)
    (result : result AsterRuntimeError A) (w' : W) : Prop :=
  let sd := runtime_shutdown_token rt in
  let sv := runtime_service_shutdown_token rt in
  ∃ startup w0 w1 reports w2,
    startup_contract (registry_startup (runtime_registry rt)) w startup w0 ∧
    shuts_down rt w1 reports w2 ∧
    w' = drop_guards rt w2 ∧ cancelled sd w' = true ∧ cancelled sv w' = true ∧
    ((StartupReport_aborted startup = true ∧ result = Err (Startup startup reports) ∧
      w1 = cancel sv (cancel sd w0)) ∨
     (StartupReport_aborted startup = false ∧ ∃ output ws failed,
        runtime_service rt (spawn_termination_signal_handler sd (runtime_stop_on_signal rt) w0) = (output, ws) ∧
        runtime_before_shutdown rt (abort_signal_task (cancel sv (cancel sd ws))) = (failed, w1) ∧
        (∀ a, result = Ok a ↔ output = Some a ∧ failed = false ∧ ShutdownReport_has_failures reports = false) ∧
        (∀ e, result = Err e ↔
           e = Service reports failed ∧ output = None ∨
           e = BeforeShutdown reports ∧ output ≠ None ∧ failed = true ∨
           e = ShutdownFailures reports ∧ output ≠ None ∧ failed = false ∧
             ShutdownReport_has_failures reports = true))).

Lemma AsterRuntime_run_spec rt w :
  keeps_tokens (λ w, (runtime_before_shutdown rt w).2) →
  ∃ r w', AsterRuntime_run tokio_timeout rt w = Some (r, w') ∧ run_contract rt w r w'.
Proof.
  intros Hhook. unfold AsterRuntime_run.
  pose proof (startup_correct (registry_startup (runtime_registry rt)) w) as Hstart.
  destruct (StartupCoordinator_run _ w) as [startup w0].
  assert (∀ w2, cancelled (runtime_shutdown_token rt) (drop_guards rt w2) = true ∧
    cancelled (runtime_service_shutdown_token rt) (drop_guards rt w2) = true) as Hguards.
  { intros w2. split; [apply cancel_law|]. apply cancel_keeps, cancel_law. }
  destruct (StartupReport_aborted startup) eqn:Hab.
  - destruct (shutdown_shuts_down rt (cancel (runtime_service_shutdown_token rt) (cancel (runtime_shutdown_token rt) w0)))
      as (reports & w2 & -> & Hs); [apply cancel_keeps, cancel_law|apply cancel_law|].
    eexists _, _. split; [done|]. exists startup, w0. eexists _, reports, w2.
    destruct (Hguards w2). split_and!; try done. by left.
  - set (ws0 := spawn_termination_signal_handler _ _ w0). destruct (runtime_service rt ws0) as [output ws] eqn:Hsvc.
    set (wc := abort_signal_task _).
    assert (cancelled (runtime_shutdown_token rt) wc = true ∧ cancelled (runtime_service_shutdown_token rt) wc = true)
      as [Hc1 Hc2].
    { split; apply abort_keeps; [apply cancel_keeps, cancel_law|apply cancel_law]. }
    pose proof (Hhook _ _ Hc1) as Hd1. pose proof (Hhook _ _ Hc2) as Hd2. cbn in Hd1, Hd2.
    destruct (runtime_before_shutdown rt wc) as [failed w1] eqn:Hb. cbn in Hd1, Hd2.
    destruct (shutdown_shuts_down rt w1 Hd1 Hd2) as (reports & w2 & -> & Hs).
    eexists _, _. split; [done|]. exists startup, w0, w1, reports, w2.
    destruct (Hguards w2). split_and!; try done. right. split; [done|]. exists output, ws, failed.
    split_and!; [exact Hsvc|exact Hb|..]; intros x;
      destruct output as [a|], failed, (ShutdownReport_has_failures reports); naive_solver.
Qed.
End spec.

(** ** A process *)
(** A world that logs what happens. *)
Module LoggedProcess.

Record world : Type := mk_world {
  log : list string;
  cancelled_tokens : gset nat;
}.

Definition say (line : string) (w : world) : world := mk_world (log w ++ [line]) (cancelled_tokens w).

#[export] Instance logged_process : ProcessWorld world := {|
  cancel t w := mk_world (log w) ({[t]} ∪ cancelled_tokens w);
  cancelled t w := bool_decide (t ∈ cancelled_tokens w);
  spawn_signal_task f w := say "listen" w;
  abort_signal_task w := say "unlisten" w;
|}.

#[export] Instance logged_laws : ProcessLaws world.
Proof.
  split.
  - intros t w. cbn. apply bool_decide_eq_true. set_solver.
  - intros t t' w. cbn. rewrite !bool_decide_eq_true. set_solver.
  - intros t w. cbn. done.
Qed.

Definition phase_says (line : string) (r : result string unit) : phase_fn (W := world) :=
  λ w, (PhaseReturned r, say line w).
Definition no_timeout (d : Z) (p : phase_fn (W := world)) : world → option phase_end * world :=
  λ w, let '(e, w) := p w in (Some e, w).

Definition hook : hook_fn := λ w : world, (false, say "hook" w).

(** A service on its own token, and two bundles; the database is a dependency
    of the tasks, and its startup is required. *)
Definition components (database_starts : result string unit)
    : list (component (W := world) (F := unit) (A := Z)) :=
  [ServiceComponent (mk_RuntimeServiceComponent "http" Core
     (mk_RuntimeServiceParts (λ w, (Some 7, say "serve" w)) 1 (say "stop")));
   BundleComponent [CallKind "tasks" Tasks; CallDependsOn "tasks" "database";
     CallShutdown "tasks" "stop tasks" None (phase_says "stop tasks" (Ok tt))];
   WithShutdown (λ token, BundleComponent [CallStartup "database" "connect" StartupRequired
       (phase_says "connect" database_starts);
     CallShutdown "database" "close" None (phase_says "close" (Ok tt))])].

Definition run (database_starts : result string unit) :=
  AsterRuntimeBuilder_run no_timeout (assemble 0 hook (components database_starts)) (mk_world [] ∅).

Example run_serves : (λ r, (r.1, log r.2)) <$> run (Ok tt) =
  Some (Ok 7, ["connect"; "listen"; "serve"; "unlisten"; "hook"; "close"; "stop tasks"]%string).
Proof. vm_compute. reflexivity. Qed.

Example run_aborts : (λ r, log r.2) <$> run (Err "refused"%string) =
  Some ["connect"; "close"; "stop tasks"]%string.
Proof. vm_compute. reflexivity. Qed.

End LoggedProcess.

Import (hints) LoggedProcess.


