(* ===== verification/Process.v ===== *)
(** * Concurrent processes

    An async function whose calls interleave with those of other processes is
    a tree of the events it performs; each event is atomic and the answer
    chooses the branch.  Processes share a state; a step runs the next event
    of one process, or lets the environment act.  [safe] is the rely-guarantee
    reading of a tree, and [safe_reachable] says that processes that are safe
    one by one are safe together. *)
From stdpp Require Export relations.
From S2P Require Export Prelude.

Section process.
Context {E : Type} {answer : E → Type}.

Inductive prog (A : Type) : Type :=
  | Return (a : A)
  | Act (e : E) (k : answer e → prog A).
Arguments Return {A} a.
Arguments Act {A} e k.

Fixpoint prog_bind {A B} (f : A → prog B) (p : prog A) : prog B :=
  match p with
  | Return a => f a
  | Act e k => Act e (λ x, prog_bind f (k x))
  end.

Definition act (e : E) : prog (answer e) := Act e Return.

(** Two concurrent parts of one process, joined at the end: the event
    [choose] picks the part that moves next. *)
Section par.
Context (choose : E) (picks_left : answer choose → bool).

Fixpoint prog_map {A B} (f : A → B) (p : prog A) : prog B :=
  match p with
  | Return a => Return (f a)
  | Act e k => Act e (λ x, prog_map f (k x))
  end.

Fixpoint par {A B} (p : prog A) (q : prog B) {struct p} : prog (A * B) :=
  match p with
  | Return a => prog_map (pair a) q
  | Act e k =>
      (fix par_right (q : prog B) : prog (A * B) :=
         match q with
         | Return b => prog_map (λ a, (a, b)) (Act e k)
         | Act e' k' => Act choose (λ c,
             if picks_left c then Act e (λ x, par (k x) q)
             else Act e' (λ y, par_right (k' y)))
         end) q
  end.
End par.

(** ** Interleavings *)
Context {S : Type} (handle : nat → ∀ e : E, S → answer e → S → Prop) (env : S → S → Prop).

Definition system (A : Type) : Type := list (prog A) * S.

(** A step, labelled with the process that makes it. *)
Inductive sys_step {A} : option nat → system A → system A → Prop :=
  | step_process i e k x ps s s' :
      ps !! i = Some (Act e k) → handle i e s x s' →
      sys_step (Some i) (ps, s) (<[i := k x]> ps, s')
  | step_env ps s s' : env s s' → sys_step None (ps, s) (ps, s').

Definition sys_steps {A} : system A → system A → Prop := rtc (λ c c', ∃ l, sys_step l c c').

(** Executions in which process [i] performs [n] events. *)
Inductive steps_of {A} (i : nat) : nat → system A → system A → Prop :=
  | steps_nil c : steps_of i 0 c c
  | steps_own n c c' c'' : sys_step (Some i) c c' → steps_of i n c' c'' → steps_of i (1 + n) c c''
  | steps_other n l c c' c'' : sys_step l c c' → l ≠ Some i → steps_of i n c' c'' → steps_of i n c c''.

Lemma steps_of_sys_steps {A} i n (c c' : system A) : steps_of i n c c' → sys_steps c c'.
Proof.
  unfold sys_steps. induction 1 as [c|n c c' c'' Hc _ IH|n l c c' c'' Hc _ _ IH];
    [constructor|eapply rtc_l; eauto..].
Qed.

Lemma steps_of_program {A} i n (c c' : system A) p :
  c.1 !! i = Some p → steps_of i n c c' → ∃ p', c'.1 !! i = Some p'.
Proof.
  intros Hp Hs. revert p Hp. induction Hs as [c|n c c' c'' Hc _ IH|n l c c' c'' Hc _ _ IH]; [eauto|..];
    intros p Hp; destruct Hc as [j e k x ps s s' Hj _|ps s s' _]; cbn in *; [|eauto| |eauto];
    (destruct (decide (j = i)) as [->|]; [eapply IH, list_lookup_insert_eq; by eapply lookup_lt_Some|
       eapply IH; rewrite list_lookup_insert_ne; done]).
Qed.

(** ** Rely and guarantee *)
Section safety.
Context (I : S → Prop) (R : nat → S → S → Prop) (allowed : nat → E → S → Prop).
Context `{!∀ i, PreOrder (R i)}.

(** However the state moved in between, the next event is allowed, keeps the
    invariant, and is nothing the other processes do not rely on. *)
Fixpoint safe {A} (i : nat) (Φ : A → S → Prop) (p : prog A) (s : S) : Prop :=
  match p with
  | Return a => Φ a s
  | Act e k => ∀ s1, R i s s1 → I s1 → allowed i e s1 ∧
      ∀ x s2, handle i e s1 x s2 → I s2 ∧ (∀ j, j ≠ i → R j s1 s2) ∧ safe i Φ (k x) s2
  end.

Definition stable {A} (i : nat) (Φ : A → S → Prop) : Prop :=
  ∀ a s s', Φ a s → R i s s' → I s' → Φ a s'.

Lemma safe_stable {A} i (Φ : A → S → Prop) p : stable i Φ → stable (A := unit) i (λ _, safe i Φ p).
Proof.
  intros HΦ _ s s'. destruct p as [a|e k]; cbn; [apply HΦ|].
  intros Hs HR _ s1 HR1. apply Hs. by transitivity s'.
Qed.

Lemma safe_bind {A B} i (Φ : B → S → Prop) (f : A → prog B) p s :
  safe i (λ a, safe i Φ (f a)) p s → safe i Φ (prog_bind f p) s.
Proof.
  revert s. induction p as [a|e k IH]; cbn; [done|].
  intros s Hs s1 HR HI. destruct (Hs s1 HR HI) as [Ha Hs1]. split; [done|].
  intros x s2 Hx. destruct (Hs1 x s2 Hx) as (? & ? & ?). auto.
Qed.

Lemma safe_mono {A} i (Φ Ψ : A → S → Prop) p s :
  (∀ a s, Φ a s → Ψ a s) → safe i Φ p s → safe i Ψ p s.
Proof.
  intros Hm. revert s. induction p as [a|e k IH]; cbn; [auto|].
  intros s Hs s1 HR HI. destruct (Hs s1 HR HI) as [Ha Hs1]. split; [done|].
  intros x s2 Hx. destruct (Hs1 x s2 Hx) as (? & ? & ?). auto.
Qed.

Definition all_safe {A} (Φ : nat → A → S → Prop) (c : system A) : Prop :=
  I c.2 ∧ ∀ i p, c.1 !! i = Some p → safe i (Φ i) p c.2.

Lemma safe_step {A} (Φ : nat → A → S → Prop) l c c' :
  (∀ i, stable i (Φ i)) → (∀ s s', I s → env s s' → I s' ∧ ∀ i, R i s s') →
  all_safe Φ c → sys_step l c c' → all_safe Φ c'.
Proof.
  intros HΦ Henv [HI Hs] Hc. destruct Hc as [i e k x ps s s' Hp Hx|ps s s' He]; cbn in *.
  - destruct (Hs i _ Hp s (reflexivity s) HI) as [_ Hk]. destruct (Hk x s' Hx) as (HI' & HR & Hn).
    split; [done|]. intros j p [(<- & <- & _)|[Hne Hj]]%list_lookup_insert_Some; [done|].
    eapply (safe_stable j (Φ j) p (HΦ j) tt); eauto.
  - destruct (Henv s s' HI He) as [HI' HR]. split; [done|]. intros j p Hj.
    eapply (safe_stable j (Φ j) p (HΦ j) tt); eauto.
Qed.

Lemma safe_reachable {A} (Φ : nat → A → S → Prop) c c' :
  (∀ i, stable i (Φ i)) → (∀ s s', I s → env s s' → I s' ∧ ∀ i, R i s s') →
  all_safe Φ c → sys_steps c c' → all_safe Φ c'.
Proof.
  intros HΦ Henv Hc Hsteps. induction Hsteps as [|c c' c'' [l Hl] _ IH]; [done|].
  eapply IH, safe_step; eauto.
Qed.
(** One part of a process, which relies on [Rel] and in turn guarantees
    [Guar] to the other parts. *)
Fixpoint safe_part {A} (i : nat) (Rel Guar : S → S → Prop) (Φ : A → S → Prop) (p : prog A) (s : S) : Prop :=
  match p with
  | Return a => Φ a s
  | Act e k => ∀ s1, Rel s s1 → I s1 → allowed i e s1 ∧
      ∀ x s2, handle i e s1 x s2 → I s2 ∧ (∀ j, j ≠ i → R j s1 s2) ∧ Guar s1 s2 ∧
        safe_part i Rel Guar Φ (k x) s2
  end.

(** A process has no other part. *)
Lemma safe_part_safe {A} i (Φ : A → S → Prop) p s :
  safe_part i (R i) (λ _ _, True) Φ p s → safe i Φ p s.
Proof.
  revert s. induction p as [a|e k IH]; cbn; [done|].
  intros s Hs s1 HR HI. destruct (Hs s1 HR HI) as [Ha Hs1]. split; [done|].
  intros x s2 Hx. destruct (Hs1 x s2 Hx) as (? & ? & _ & ?). auto.
Qed.

Lemma safe_part_bind {A B} i Rel Guar (Φ : B → S → Prop) (f : A → prog B) p s :
  safe_part i Rel Guar (λ a, safe_part i Rel Guar Φ (f a)) p s → safe_part i Rel Guar Φ (prog_bind f p) s.
Proof.
  revert s. induction p as [a|e k IH]; cbn; [done|].
  intros s Hs s1 HR HI. destruct (Hs s1 HR HI) as [Ha Hs1]. split; [done|].
  intros x s2 Hx. destruct (Hs1 x s2 Hx) as (? & ? & ? & ?). auto.
Qed.

Lemma safe_part_assoc {A B C} i Rel Guar (Φ : C → S → Prop) (f : A → prog B) (k : B → prog C) p s :
  safe_part i Rel Guar Φ (prog_bind (λ a, prog_bind k (f a)) p) s →
  safe_part i Rel Guar Φ (prog_bind k (prog_bind f p)) s.
Proof.
  revert s. induction p as [a|e x IH]; cbn; [done|].
  intros s Hs s1 HR HI. destruct (Hs s1 HR HI) as [Ha Hs1]. split; [done|].
  intros y s2 Hx. destruct (Hs1 y s2 Hx) as (? & ? & ? & ?). auto.
Qed.

Lemma safe_part_mono {A} i Rel Guar (Φ Ψ : A → S → Prop) p s :
  (∀ a s, Φ a s → Ψ a s) → safe_part i Rel Guar Φ p s → safe_part i Rel Guar Ψ p s.
Proof.
  intros HΦ. revert s. induction p as [a|e k IH]; cbn; [auto|].
  intros s Hs s1 Hs1 HI. destruct (Hs s1 Hs1 HI) as [Ha Hk]. split; [done|].
  intros x s2 Hx. destruct (Hk x s2 Hx) as (? & ? & ? & ?). auto.
Qed.

Section parallel.
Context (choose : E) (picks_left : answer choose → bool) (i : nat).
Context (Relp Relq Rel : S → S → Prop) `{!PreOrder Relp, !PreOrder Relq, !PreOrder Rel}.
(** Each part guarantees what the other relies on; choosing changes nothing. *)
Context (Relp_all : ∀ s s', Rel s s' → Relp s s') (Relq_all : ∀ s s', Rel s s' → Relq s s').
Context (R_refl : ∀ j s, R j s s).
Context (choose_allowed : ∀ s, I s → allowed i choose s).
Context (choose_handle : ∀ s x s', handle i choose s x s' → s' = s).

(** A postcondition its part's rely keeps. *)
Definition kept {A} (Rel : S → S → Prop) (Φ : A → S → Prop) : Prop :=
  ∀ a s s', Φ a s → Rel s s' → I s' → Φ a s'.

Lemma safe_part_kept {A} Rl G (Φ : A → S → Prop) p s s' : PreOrder Rl →
  kept Rl Φ → safe_part i Rl G Φ p s → Rl s s' → I s' → safe_part i Rl G Φ p s'.
Proof.
  intros HPO HΦ. destruct p as [a|e k]; cbn; [eauto|].
  intros Hs HR HI s1 HR1. apply Hs. by transitivity s'.
Qed.

(** One event of a part inside the parallel composition. *)
Lemma safe_part_after {A C} Rl G (Φ : A → S → Prop) (Ψ : C → S → Prop) e k (k' : answer e → prog C) s :
  (∀ s s', Rel s s' → Rl s s') → safe_part i Rl G Φ (Act e k) s →
  (∀ x s1 s2, Rel s s1 → G s1 s2 → I s2 → safe_part i Rl G Φ (k x) s2 →
     safe_part i Rel (λ _ _, True) Ψ (k' x) s2) →
  safe_part i Rel (λ _ _, True) Ψ (Act e k') s.
Proof.
  intros HRl Hs Hk s1 HR HI. destruct (Hs s1 (HRl _ _ HR) HI) as [Ha Hs1]. split; [done|].
  intros x s2 Hx. destruct (Hs1 x s2 Hx) as (HI2 & Hj & HG & Hp). split_and!; [done..|]. eauto.
Qed.

Lemma safe_part_choose {C} (Ψ : C → S → Prop) (k : answer choose → prog C) s :
  (∀ x s1, Rel s s1 → I s1 → safe_part i Rel (λ _ _, True) Ψ (k x) s1) →
  safe_part i Rel (λ _ _, True) Ψ (Act choose k) s.
Proof.
  intros Hk s1 HR HI. split; [auto|]. intros x s2 ->%choose_handle. split_and!; auto.
Qed.

Lemma safe_par {A B} (Φ : A → S → Prop) (Ψ : B → S → Prop) (p : prog A) (q : prog B) s :
  kept Relp Φ → kept Relq Ψ → I s →
  safe_part i Relp Relq Φ p s → safe_part i Relq Relp Ψ q s →
  safe_part i Rel (λ _ _, True) (λ r s, Φ r.1 s ∧ Ψ r.2 s) (par choose picks_left p q) s.
Proof.
  intros HΦ HΨ. revert q s. induction p as [a|e k IHp].
  - (* the left part has ended: its postcondition is carried along *)
    intros q. cbn [par]. induction q as [b|e' k' IHq]; intros s HI Hp Hq; [done|].
    cbn [prog_map]. eapply (safe_part_after Relq Relp); [done|exact Hq|].
    intros x s1 s2 HR HG HI2 Hk'. apply (IHq x); [done| |done].
    eapply HΦ; [exact Hp| |done]. transitivity s1; [auto|done].
  - intros q. induction q as [b|e' k' IHq]; intros s HI Hp Hq.
    + clear IHp. cbn [par]. revert s HI Hp Hq. generalize (Act e k) as p. clear e k.
      induction p as [a|e k IHp]; intros s HI Hp Hq; [done|].
      cbn [prog_map]. eapply (safe_part_after Relp Relq); [done|exact Hp|].
      intros x s1 s2 HR HG HI2 Hk. apply (IHp x); [done|done|].
      eapply HΨ; [exact Hq| |done]. transitivity s1; [auto|done].
    + cbn [par]. apply safe_part_choose. intros x s1 HR1 HI1.
      assert (safe_part i Relp Relq Φ (Act e k) s1) as Hp1 by (eapply safe_part_kept; eauto).
      assert (safe_part i Relq Relp Ψ (Act e' k') s1) as Hq1 by (eapply (safe_part_kept Relq); eauto).
      destruct (picks_left x).
      * eapply (safe_part_after Relp Relq); [done|exact Hp1|]. intros y s2 s3 HR2 HG HI3 Hk.
        apply IHp; [done|done|]. eapply (safe_part_kept Relq); [done|done|exact Hq1| |done].
        transitivity s2; [auto|done].
      * eapply (safe_part_after Relq Relp); [done|exact Hq1|]. intros y s2 s3 HR2 HG HI3 Hk.
        apply (IHq y); [done| |done]. eapply (safe_part_kept Relp); [done|done|exact Hp1| |done].
        transitivity s2; [auto|done].
Qed.
End parallel.
End safety.

(** ** Bounded programs *)
(** Every point a program can reach satisfies [P]. *)
Fixpoint all_points {A} (P : prog A → Prop) (p : prog A) : Prop :=
  P p ∧ match p with Return _ => True | Act e k => ∀ x, all_points P (k x) end.

Lemma all_points_here {A} (P : prog A → Prop) p : all_points P p → P p.
Proof. by destruct p; intros []. Qed.

Lemma all_points_step {A} (P : prog A → Prop) l c c' :
  (∀ i p, c.1 !! i = Some p → all_points P p) → sys_step l c c' →
  ∀ i p, c'.1 !! i = Some p → all_points P p.
Proof.
  intros Hall Hs. destruct Hs as [i e k x ps s s' Hp Hx|ps s s' He]; [|exact Hall]. cbn in *.
  intros j p [(<- & <- & _)|[_ Hj]]%list_lookup_insert_Some; [|by apply (Hall j)].
  by apply (Hall i _ Hp).
Qed.

Lemma all_points_steps {A} (P : prog A → Prop) c c' :
  (∀ i p, c.1 !! i = Some p → all_points P p) → sys_steps c c' →
  ∀ i p, c'.1 !! i = Some p → all_points P p.
Proof.
  intros Hall Hs. induction Hs as [|c c' c'' [l Hl] _ IH]; [done|].
  apply IH. by eapply all_points_step.
Qed.

(** Along answers that satisfy [ok], the program performs at most [n] events. *)
Fixpoint ends_in {A} (ok : ∀ e : E, answer e → Prop) (n : nat) (p : prog A) : Prop :=
  match p with
  | Return _ => True
  | Act e k => match n with O => False | Datatypes.S n => ∀ x, ok e x → ends_in ok n (k x) end
  end.

Lemma ends_in_mono {A} ok n m (p : prog A) : (n ≤ m)%nat → ends_in ok n p → ends_in ok m p.
Proof.
  revert m p. induction n as [|n IH]; intros m [a|e k] Hm; cbn; try done; destruct m as [|m]; try done;
    try lia.
  intros Hk x Hx. apply IH; [lia|auto].
Qed.

(** A run that returns [a] has performed at least [n] events. *)
Fixpoint returns_after {A} (a : A) (n : nat) (p : prog A) : Prop :=
  match n, p with
  | O, _ => True
  | Datatypes.S _, Return b => b ≠ a
  | Datatypes.S n, Act e k => ∀ x, returns_after a n (k x)
  end.

Lemma steps_of_ends {A} (ok : ∀ e : E, answer e → Prop) (i : nat) (P : S → Prop) m :
  ∀ n (c c' : system A) p,
  (∀ s e x s', P s → handle i e s x s' → ok e x) →
  (∀ l (c c' : system A), P c.2 → sys_step l c c' → P c'.2) →
  c.1 !! i = Some p → P c.2 → ends_in ok m p → steps_of i n c c' →
  (n ≤ m)%nat ∧ ∃ p', c'.1 !! i = Some p' ∧ ends_in ok (m - n) p'.
Proof.
  intros n c c' p Hok HP Hp Hc Hm Hs. revert m p Hp Hc Hm.
  induction Hs as [c|n c c' c'' Hstep _ IH|n l c c' c'' Hstep Hl _ IH]; intros m p Hp Hc Hm.
  - split; [lia|]. exists p. by rewrite Nat.sub_0_r.
  - pose proof (HP _ _ _ Hc Hstep) as Hc'. inversion Hstep as [i' e k x ps s s' Hk Hx| ]; subst.
    cbn in *. simplify_eq. destruct m as [|m]; [done|].
    destruct (IH m (k x)) as (? & p' & ? & ?); eauto.
    { rewrite list_lookup_insert_eq; [done|]. by eapply lookup_lt_Some. }
    split; [lia|]. exists p'. by rewrite Nat.sub_succ.
  - pose proof (HP _ _ _ Hc Hstep) as Hc'. eapply (IH m p); eauto.
    inversion Hstep as [j e k x ps s s' Hk Hx|]; subst; cbn in *; [|done].
    rewrite list_lookup_insert_ne; [done|]. congruence.
Qed.

Lemma steps_of_returns {A} (i : nat) (a : A) m n (c c' : system A) p p' :
  c.1 !! i = Some p → returns_after a m p → steps_of i n c c' →
  c'.1 !! i = Some p' → returns_after a (m - n) p'.
Proof.
  intros Hp Hm Hs Hp'. revert m p Hp Hm.
  induction Hs as [c|n c c' c'' Hstep _ IH|n l c c' c'' Hstep Hl _ IH]; intros m p Hp Hm.
  - simplify_eq. by rewrite Nat.sub_0_r.
  - inversion Hstep as [i' e k x ps s s' Hk Hx|]; subst. cbn in *. simplify_eq.
    destruct m as [|m]; [done|]. rewrite Nat.sub_succ. eapply IH; eauto.
    rewrite list_lookup_insert_eq; [done|]. by eapply lookup_lt_Some.
  - eapply (IH Hp' m p); eauto.
    inversion Hstep as [j e k x ps s s' Hk Hx|]; subst; cbn in *; [|done].
    rewrite list_lookup_insert_ne; [done|]. congruence.
Qed.
End process.

#[global] Arguments prog {E} answer A.
#[global] Arguments Return {E answer A} a.
#[global] Arguments Act {E answer A} e k.
#[global] Arguments system {E} answer S A.

#[export] Instance prog_ret_inst {E} {answer : E → Type} : MRet (prog answer) := λ A a, Return a.
#[export] Instance prog_bind_inst {E} {answer : E → Type} : MBind (prog answer) := λ A B f p, prog_bind f p.
