(* ===== verification/Duration.v ===== *)
(** * Durations and backoff

    [std::time::Duration] as a count of nanoseconds, its conversions to and
    from [f64] seconds, and [aster_forge_utils/src/backoff.rs]: doubling,
    jitter and the cap on a delay. *)
From S2P Require Export Prelude.

(** ** Durations *)
Definition NANOS_PER_SEC : Z := 1000000000.
Definition DURATION_MAX : Z := U64_MAX * NANOS_PER_SEC + 999999999.
Definition U128_MAX : Z := 2 ^ 128 - 1.
#[global] Arguments DURATION_MAX : simpl never.
#[global] Arguments U128_MAX : simpl never.

Definition from_secs (secs : Z) : Z := secs * NANOS_PER_SEC.
Definition from_millis (millis : Z) : Z := millis * 10 ^ 6.
Definition duration_saturating_add (a b : Z) : Z := saturating_add DURATION_MAX a b.

Definition in_duration (d : Z) : Prop := 0 ≤ d ≤ DURATION_MAX.

(** [chrono::Duration::MAX], in nanoseconds. *)
Definition CHRONO_DURATION_MAX : Z := I64_MAX * 10 ^ 6.

(** ** Seconds as [f64]

    A finite [f64] that is not negative is a fraction; every operation rounds
    its exact result to 53 bits, half to even.  Durations stay far from the
    subnormal and infinite ranges. *)
Definition round_half_even (n d : Z) : Z :=
  let q := n / d in
  let r := n mod d in
  if decide (2 * r < d) then q
  else if decide (d < 2 * r) then q + 1
  else if Z.even q then q else q + 1.

Definition scaled (n d e : Z) : Z * Z :=
  if decide (0 ≤ e) then (n * 2 ^ e, d) else (n, d * 2 ^ (- e)).

Definition f64_round (x : Z * Z) : Z * Z :=
  let '(n, d) := x in
  if decide (n = 0) then (0, 1)
  else
    let e := 52 - (Z.log2 n - Z.log2 d) in
    let '(n', d') := scaled n d e in
    let e := if decide (2 ^ 52 * d' ≤ n') then e else e + 1 in
    let '(n', d') := scaled n d e in
    let m := round_half_even n' d' in
    if decide (0 ≤ e) then (m, 2 ^ e) else (m * 2 ^ (- e), 1).

Definition f64_add (x y : Z * Z) : Z * Z := f64_round (x.1 * y.2 + y.1 * x.2, x.2 * y.2).
Definition f64_div (x : Z * Z) (k : Z) : Z * Z := f64_round (x.1, x.2 * k).

Definition as_secs_f64 (d : Z) : Z * Z :=
  f64_add (f64_round (d / NANOS_PER_SEC, 1)) (f64_div (d mod NANOS_PER_SEC, 1) NANOS_PER_SEC).

(** Rounds to the nearest nanosecond, half to even. *)
Definition from_secs_f64 (x : Z * Z) : Z := round_half_even (x.1 * NANOS_PER_SEC) x.2.

(** ** [backoff.rs] *)
Fixpoint double_delay (remaining : nat) (delay : Z) : Z :=
  match remaining with
  | O => delay
  | S remaining =>
      if decide (delay < DURATION_MAX)
      then double_delay remaining (duration_saturating_add delay delay) else delay
  end.

Definition exponential_delay (initial_delay retry_index : Z) : Z :=
  double_delay (Z.to_nat (Z.min retry_index 127)) initial_delay.

Definition cap_delay (delay max_delay : Z) : Z := Z.min delay max_delay.

Definition duration_from_nanos (nanos : Z) : Z :=
  let nanos := Z.min nanos DURATION_MAX in
  nanos / NANOS_PER_SEC * NANOS_PER_SEC + nanos mod NANOS_PER_SEC.

Definition apply_jitter (delay percent : Z) : Z :=
  duration_from_nanos (Z.min U128_MAX (delay * percent) / 100).

(** [random_range] of the [rand] crate draws from the inclusive range. *)
Definition randomized_jitter (random_range : Z → Z → Z) (delay min_percent max_percent : Z) : Z :=
  let min_percent := Z.min min_percent 1000 in
  let max_percent := Z.max (Z.min max_percent 1000) min_percent in
  apply_jitter delay (random_range min_percent max_percent).

(** ** Rounding *)
Lemma round_half_even_bounds n d :
  0 ≤ n → 0 < d → n / d ≤ round_half_even n d ≤ n / d + 1.
Proof. intros. unfold round_half_even. repeat case_match; lia. Qed.

Lemma round_half_even_upper n d k :
  0 ≤ n → 0 < d → 0 < k → k * d ≤ n → k * (round_half_even n d * d) ≤ (k + 1) * n.
Proof.
  intros Hn Hd Hk Hkn. pose proof (round_half_even_bounds n d Hn Hd).
  pose proof (Z.mul_div_le n d Hd).
  assert (round_half_even n d * d ≤ n + d) by nia. nia.
Qed.

Lemma scaled_pos n d e : 0 < n → 0 < d → 0 < (scaled n d e).1 ∧ 0 < (scaled n d e).2.
Proof.
  intros. unfold scaled. case_decide; cbn.
  - assert (0 < 2 ^ e) by (apply Z.pow_pos_nonneg; lia). nia.
  - assert (0 < 2 ^ (- e)) by (apply Z.pow_pos_nonneg; lia). nia.
Qed.

(** A fraction with its scale: the value is unchanged. *)
Lemma scaled_large n d :
  0 < n → 0 < d → let e := 52 - (Z.log2 n - Z.log2 d) in
  2 ^ 51 * (scaled n d e).2 ≤ (scaled n d e).1.
Proof.
  intros Hn Hd e. pose proof (Z.log2_spec n Hn) as [Hn1 Hn2]. pose proof (Z.log2_spec d Hd) as [Hd1 Hd2].
  pose proof (Z.log2_nonneg n). pose proof (Z.log2_nonneg d). unfold scaled. case_decide; cbn.
  - transitivity (2 ^ (Z.log2 n) * 2 ^ e).
    + rewrite <- Z.pow_add_r by lia. replace (Z.log2 n + e) with (51 + Z.succ (Z.log2 d)) by lia.
      rewrite Z.pow_add_r by lia. nia.
    + apply Z.mul_le_mono_nonneg_r; [apply Z.pow_nonneg; lia|done].
  - transitivity (2 ^ 51 * (2 ^ Z.succ (Z.log2 d) * 2 ^ (- e))).
    + assert (0 < 2 ^ (- e)) by (apply Z.pow_pos_nonneg; lia). nia.
    + rewrite <- !Z.pow_add_r by lia. replace (51 + (Z.succ (Z.log2 d) + - e)) with (Z.log2 n) by lia. done.
Qed.

Lemma scaled_succ n d e k : 0 < n → 0 < d →
  k * (scaled n d e).2 ≤ (scaled n d e).1 → 0 < k → k * (scaled n d (e + 1)).2 ≤ (scaled n d (e + 1)).1.
Proof.
  intros Hn Hd Hk Hk0. unfold scaled in *. repeat case_decide; cbn in *; try lia.
  - rewrite Z.pow_add_r by lia. assert (0 < 2 ^ e) by (apply Z.pow_pos_nonneg; lia). nia.
  - assert (e = -1) as -> by lia. cbn in *. lia.
  - replace (- e) with (- (e + 1) + 1) in Hk by lia. rewrite Z.pow_add_r in Hk by lia.
    assert (0 < 2 ^ (- (e + 1))) by (apply Z.pow_pos_nonneg; lia). nia.
Qed.

(** Rounding adds at most an eighth (in truth a relative [2^-53]). *)
Lemma f64_round_upper n d : 0 ≤ n → 0 < d →
  0 ≤ (f64_round (n, d)).1 ∧ 0 < (f64_round (n, d)).2 ∧
  8 * ((f64_round (n, d)).1 * d) ≤ 9 * (n * (f64_round (n, d)).2).
Proof.
  intros Hn Hd. unfold f64_round. case_decide as Hn0; [subst; cbn; lia|].
  set (e0 := 52 - (Z.log2 n - Z.log2 d)). rewrite (surjective_pairing (scaled n d e0)).
  set (e := if decide _ then e0 else e0 + 1).
  assert (2 ^ 51 * (scaled n d e).2 ≤ (scaled n d e).1) as Hl.
  { pose proof (scaled_large n d ltac:(lia) Hd) as Hl. fold e0 in Hl. cbn zeta in Hl.
    unfold e. case_match; [done|]. apply scaled_succ; lia. }
  destruct (scaled_pos n d e) as [Hn' Hd']; [lia..|].
  rewrite (surjective_pairing (scaled n d e)).
  set (m := round_half_even _ _).
  pose proof (round_half_even_upper (scaled n d e).1 (scaled n d e).2 8 ltac:(lia) Hd' ltac:(lia) ltac:(lia)) as Hm.
  fold m in Hm. pose proof (round_half_even_bounds (scaled n d e).1 (scaled n d e).2 ltac:(lia) Hd') as Hb.
  fold m in Hb. pose proof (Z.div_pos (scaled n d e).1 (scaled n d e).2 ltac:(lia) Hd').
  clearbody m. unfold scaled in *. destruct (decide (0 ≤ e)) as [He|He]; cbn in *.
  - assert (0 < 2 ^ e) by (apply Z.pow_pos_nonneg; lia). split_and!; [lia|lia|nia].
  - assert (0 < 2 ^ (- e)) by (apply Z.pow_pos_nonneg; lia). split_and!; [nia|lia|nia].
Qed.

(** ** Doubling *)
Lemma DURATION_MAX_pos : 0 < DURATION_MAX < 2 ^ 127.
Proof. unfold DURATION_MAX, U64_MAX, NANOS_PER_SEC. lia. Qed.

Lemma double_delay_spec n d : 0 ≤ d ≤ DURATION_MAX →
  double_delay n d = Z.min DURATION_MAX (d * 2 ^ Z.of_nat n).
Proof.
  pose proof DURATION_MAX_pos. revert d. induction n as [|n IH]; intros d Hd; cbn [double_delay].
  - cbn. lia.
  - assert (0 < 2 ^ Z.of_nat n) by (apply Z.pow_pos_nonneg; lia).
    rewrite Nat2Z.inj_succ, Z.pow_succ_r by lia. case_decide.
    + unfold duration_saturating_add, saturating_add. rewrite IH by lia.
      destruct (Z.min_spec DURATION_MAX (d + d)) as [[? ->]|[? ->]]; [|f_equal; lia]. nia.
    + assert (d = DURATION_MAX) as -> by lia. nia.
Qed.

Lemma exponential_delay_spec d i : in_duration d → 0 ≤ i →
  exponential_delay d i = Z.min DURATION_MAX (d * 2 ^ i).
Proof.
  intros Hd Hi. unfold exponential_delay. rewrite double_delay_spec by done. rewrite Z2Nat.id by lia.
  destruct (Z.min_spec i 127) as [[? ->]|[? ->]]; [done|].
  pose proof DURATION_MAX_pos. assert (2 ^ 127 ≤ 2 ^ i) by (apply Z.pow_le_mono_r; lia).
  destruct (decide (d = 0)) as [->|]; [done|]. destruct Hd. nia.
Qed.

Lemma duration_from_nanos_spec n : 0 ≤ n → duration_from_nanos n = Z.min n DURATION_MAX.
Proof.
  intros. unfold duration_from_nanos. pose proof (Z.div_mod (Z.min n DURATION_MAX) NANOS_PER_SEC ltac:(done)). lia.
Qed.

Lemma apply_jitter_range d p : 0 ≤ d → 0 ≤ p → in_duration (apply_jitter d p).
Proof.
  intros Hd Hp. pose proof DURATION_MAX_pos. unfold apply_jitter.
  assert (0 ≤ Z.min U128_MAX (d * p) / 100) by (apply Z.div_pos; unfold U128_MAX; nia).
  rewrite duration_from_nanos_spec by done. unfold in_duration. lia.
Qed.

(** Two roundings and their sum: at most [81/64] of the exact seconds. *)
Lemma as_secs_f64_upper d : 0 ≤ d →
  0 ≤ (as_secs_f64 d).1 ∧ 0 < (as_secs_f64 d).2 ∧
  64 * ((as_secs_f64 d).1 * NANOS_PER_SEC) ≤ 81 * (d * (as_secs_f64 d).2).
Proof.
  intros Hd. unfold as_secs_f64, f64_add, f64_div. cbn [fst snd].
  set (s := d / NANOS_PER_SEC). set (f := d mod NANOS_PER_SEC).
  assert (d = s * NANOS_PER_SEC + f ∧ 0 ≤ s ∧ 0 ≤ f) as (Hdf & Hs & Hf).
  { pose proof (Z.div_mod d NANOS_PER_SEC ltac:(done)). pose proof (Z.mod_pos_bound d NANOS_PER_SEC ltac:(done)).
    pose proof (Z.div_pos d NANOS_PER_SEC Hd ltac:(done)). lia. }
  destruct (f64_round_upper s 1 Hs ltac:(done)) as (Ha & Hb & Hab).
  destruct (f64_round_upper f (1 * NANOS_PER_SEC) Hf ltac:(done)) as (Hc & He & Hce).
  set (x := f64_round (s, 1)) in *. set (y := f64_round (f, 1 * NANOS_PER_SEC)) in *.
  clearbody x y s f.
  destruct (f64_round_upper (x.1 * y.2 + y.1 * x.2) (x.2 * y.2)) as (Hu & Hv & Huv); [nia..|].
  set (z := f64_round _) in *. split_and!; [done|done|].
  assert (0 < x.2 * y.2) as Hpos by nia.
  apply (Z.mul_le_mono_pos_r _ _ (x.2 * y.2)); [done|]. rewrite Hdf.
  assert (8 * (x.1 * y.2 + y.1 * x.2) * NANOS_PER_SEC ≤
          9 * ((s * NANOS_PER_SEC + f) * (x.2 * y.2))) as Hsum.
  { pose proof (Z.mul_le_mono_nonneg_r _ _ y.2 ltac:(lia) Hab).
    pose proof (Z.mul_le_mono_nonneg_r _ _ x.2 ltac:(lia) Hce).
    clear - H H0. unfold NANOS_PER_SEC in *. lia. }
  clearbody z.
  transitivity (72 * ((x.1 * y.2 + y.1 * x.2) * z.2) * NANOS_PER_SEC); [unfold NANOS_PER_SEC; lia|].
  transitivity (9 * z.2 * (8 * (x.1 * y.2 + y.1 * x.2) * NANOS_PER_SEC)); [lia|].
  transitivity (9 * z.2 * (9 * ((s * NANOS_PER_SEC + f) * (x.2 * y.2)))); [|lia].
  apply Z.mul_le_mono_nonneg_l; lia.
Qed.

(** [d / k] seconds, for a small divisor. *)
Lemma from_secs_f64_div_upper d k : 0 ≤ d → 2 ≤ k → NANOS_PER_SEC ≤ d →
  0 ≤ from_secs_f64 (f64_div (as_secs_f64 d) k) < d.
Proof.
  intros Hd Hk Hs. destruct (as_secs_f64_upper d Hd) as (Ha & Hb & Hab).
  set (x := as_secs_f64 d) in *. unfold f64_div, from_secs_f64.
  destruct (f64_round_upper x.1 (x.2 * k)) as (Hu & Hv & Huv); [lia|nia|]. clearbody x.
  set (z := f64_round _) in *.
  pose proof (round_half_even_bounds (z.1 * NANOS_PER_SEC) z.2 ltac:(unfold NANOS_PER_SEC; lia) Hv) as Hr.
  pose proof (Z.div_pos (z.1 * NANOS_PER_SEC) z.2 ltac:(unfold NANOS_PER_SEC; lia) Hv).
  split; [lia|]. apply (Z.le_lt_trans _ (z.1 * NANOS_PER_SEC / z.2 + 1)); [lia|].
  assert (1024 * (z.1 * NANOS_PER_SEC) ≤ 729 * (d * z.2)) as Hz.
  { apply (Z.mul_le_mono_pos_r _ _ (x.2 * k)); [nia|].
    assert (8 * (z.1 * (x.2 * k)) * NANOS_PER_SEC ≤ 9 * (x.1 * NANOS_PER_SEC * z.2)) by (unfold NANOS_PER_SEC; lia).
    assert (64 * (x.1 * NANOS_PER_SEC) * z.2 ≤ 81 * (d * x.2) * z.2) by (apply Z.mul_le_mono_nonneg_r; lia).
    assert (0 ≤ d * x.2 * z.2 * (k - 2)) by (apply Z.mul_nonneg_nonneg; [|lia]; apply Z.mul_nonneg_nonneg; nia).
    lia. }
  assert (z.1 * NANOS_PER_SEC / z.2 ≤ 729 * d / 1024).
  { apply Z.div_le_lower_bound; [done|]. pose proof (Z.mul_div_le (z.1 * NANOS_PER_SEC) z.2 Hv).
    set (q := z.1 * NANOS_PER_SEC / z.2) in *.
    apply (Z.mul_le_mono_pos_r _ _ z.2); [done|].
    transitivity (1024 * (z.2 * q)); [lia|]. lia. }
  pose proof (Z.mul_div_le (729 * d) 1024 ltac:(done)). unfold NANOS_PER_SEC in Hs.
  set (q := _ / z.2) in *. clearbody q. lia.
Qed.
