(* ===== verification/Database.v ===== *)
(** * Database errors, retries and transactions

    [aster_forge_db/src]: [lib.rs] (error classes), [retry.rs] and
    [transaction.rs].  SeaORM and sqlx are third-party: their error type is a
    parameter read through [SeaOrmError], a transaction is a class of three
    calls.  The delay between attempts and the timeout of an attempt belong to
    tokio and are parameters too; tracing has no counterpart. *)
From S2P Require Export Action Duration.

(** ** Error classes *)
Inductive DatabaseErrorKind : Type :=
  | Deadlock
  | SerializationFailure
  | LockTimeout
  | UniqueConstraint
  | ForeignKeyConstraint.

#[export] Instance DatabaseErrorKind_eq_dec : EqDecision DatabaseErrorKind.
Proof. solve_decision. Defined.

Definition is_transient_locking (k : DatabaseErrorKind) : bool :=
  match k with Deadlock | SerializationFailure | LockTimeout => true | _ => false end.

(** The classes of [sqlx::error::ErrorKind] that the source tells apart. *)
Inductive ErrorKind : Type := UniqueViolation | ForeignKeyViolation | OtherViolation.

Definition database_error_kind_from_signals (driver_kind : ErrorKind)
    (mysql_number : option Z) (postgres_code : option string) (sqlite_code : option Z)
    : option DatabaseErrorKind :=
  let by_sqlite :=
    match (λ code, Z.land code 255) <$> sqlite_code with
    | Some 5 | Some 6 => Some LockTimeout
    | _ => None
    end in
  let by_postgres :=
    match postgres_code with
    | Some "40P01"%string => Some Deadlock
    | Some "40001"%string => Some SerializationFailure
    | Some "55P03"%string => Some LockTimeout
    | _ => by_sqlite
    end in
  match driver_kind with
  | UniqueViolation => Some UniqueConstraint
  | ForeignKeyViolation => Some ForeignKeyConstraint
  | OtherViolation =>
      match mysql_number with
      | Some 1205 => Some LockTimeout
      | Some 1213 => Some Deadlock
      | _ => by_postgres
      end
  end.

(** What the source reads off a [sea_orm::DbErr]: its text, whether it is a
    connection failure, and the signals of a driver error. *)
Class SeaOrmError (DbErr : Type) := {
  DbErr_to_string : DbErr → string;
  DbErr_is_connection : DbErr → bool;   (* [ConnectionAcquire] or [Conn] *)
  DbErr_driver : DbErr → option (ErrorKind * option Z * option string * option Z);
  DbErr_custom : string → DbErr;
}.

Definition database_error_kind `{SeaOrmError DbErr} (error : DbErr) : option DatabaseErrorKind :=
  match DbErr_driver error with
  | Some (kind, mysql, postgres, sqlite) => database_error_kind_from_signals kind mysql postgres sqlite
  | None => None
  end.

Inductive DbError : Type :=
  | DatabaseConnection (message : string)
  | DatabaseOperation (message : string)
  | DatabaseOperationClassified (message : string) (kind : DatabaseErrorKind)
  | CommitOutcomeUnknown (message : string) (kind : option DatabaseErrorKind)
  | RetryExhausted
  | NonRetryable (message : string).

#[export] Instance DbError_eq_dec : EqDecision DbError.
Proof. solve_decision. Defined.

Definition DbError_database_error_kind (e : DbError) : option DatabaseErrorKind :=
  match e with
  | DatabaseOperationClassified _ kind => Some kind
  | CommitOutcomeUnknown _ kind => kind
  | _ => None
  end.

Definition commit_outcome_is_unknown (e : DbError) : bool :=
  match e with CommitOutcomeUnknown _ _ => true | _ => false end.

Definition DbError_is_retryable (e : DbError) : bool :=
  match e with
  | DatabaseConnection _ => true
  | DatabaseOperationClassified _ kind => is_transient_locking kind
  | _ => false
  end.

Definition DbError_from `{SeaOrmError DbErr} (value : DbErr) : DbError :=
  match database_error_kind value with
  | Some kind => DatabaseOperationClassified (DbErr_to_string value) kind
  | None => DatabaseOperation (DbErr_to_string value)
  end.

(** ** Retries *)
Record RetryConfig : Type := mk_RetryConfig {
  max_retries : Z;      (* [u32] *)
  base_delay_ms : Z;    (* [u64] *)
  max_delay_ms : Z;     (* [u64] *)
}.

Definition RetryConfig_connection : RetryConfig := mk_RetryConfig 3 100 5000.
Definition RetryConfig_deadlock : RetryConfig := mk_RetryConfig 3 5 50.
Definition RetryConfig_default : RetryConfig := RetryConfig_connection.

Definition calculate_delay (random_range : Z → Z → Z) (config : RetryConfig) (attempt : Z) : Z :=
  let raw := exponential_delay (from_millis (base_delay_ms config)) attempt in
  cap_delay (randomized_jitter random_range raw 50 150) (from_millis (max_delay_ms config)).

Definition duration_millis_u64 (duration : Z) : Z := Z.min U64_MAX (duration / 10 ^ 6).

Definition is_retryable_sea_orm_error `{SeaOrmError DbErr} (error : DbErr) : bool :=
  DbErr_is_connection error ||
  match database_error_kind error with Some kind => is_transient_locking kind | None => false end.

Section retry.
Context {W DbErr : Type} `{SeaOrmError DbErr}.
(** [tokio::time::sleep], the outcome of [tokio::time::timeout] on one
    attempt, and the sampled percentage of each delay. *)
Context (sleep : Z → W → W).
Context (random_range : Z → Z → Z).

Definition slept {E} (delay : Z) : action W E unit := λ w, (Ok tt, sleep delay w).

(** The loops, unrolled [fuel] times; [None] is a loop that has not ended. *)
Fixpoint with_sea_orm_retry {T} (fuel : nat) (config : RetryConfig)
    (operation : action W DbErr T) (attempt : Z) : action W DbErr (option T) :=
  match fuel with
  | O => mret None
  | S fuel => λ w,
      match operation w with
      | (Ok value, w) => (Ok (Some value), w)
      | (Err error, w) =>
          if bool_decide (attempt < max_retries config) && is_retryable_sea_orm_error error
          then (slept (calculate_delay random_range config attempt);;
                with_sea_orm_retry fuel config operation (attempt + 1)) w
          else (Err error, w)
      end
  end.

Definition timed_out_message (operation_name : string) (attempt_timeout : Z) : string :=
  "operation '" +:+ operation_name +:+ "' timed out after "
    +:+ pretty.pretty (duration_millis_u64 attempt_timeout) +:+ "ms".

(** [timeout] answers [None] when it cut the attempt off. *)
Fixpoint with_sea_orm_retry_timeout {T} (timeout : Z → action W DbErr T → W → option (result DbErr T) * W)
    (fuel : nat) (operation_name : string) (config : RetryConfig) (attempt_timeout : Z)
    (operation : action W DbErr T) (attempt : Z) : action W DbErr (option T) :=
  match fuel with
  | O => mret None
  | S fuel => λ w,
      let again := slept (calculate_delay random_range config attempt);;
        with_sea_orm_retry_timeout timeout fuel operation_name config attempt_timeout operation (attempt + 1) in
      match timeout attempt_timeout operation w with
      | (Some (Ok value), w) => (Ok (Some value), w)
      | (Some (Err error), w) =>
          if bool_decide (attempt < max_retries config) && is_retryable_sea_orm_error error
          then again w else (Err error, w)
      | (None, w) =>
          if bool_decide (attempt < max_retries config) then again w
          else (Err (DbErr_custom (timed_out_message operation_name attempt_timeout)), w)
      end
  end.

(** [for attempt in 0..=max_retries]: [attempts] are those still to come. *)
Fixpoint with_retry_from {T} (config : RetryConfig) (operation : action W DbError T)
    (attempts : list Z) (last_err : option DbError) : action W DbError T :=
  match attempts with
  | [] => pure_result (Err (default RetryExhausted last_err))
  | attempt :: attempts => λ w,
      match operation w with
      | (Ok val, w) => (Ok val, w)
      | (Err e, w) =>
          if bool_decide (attempt = max_retries config) || negb (DbError_is_retryable e)
          then (Err e, w)
          else (slept (calculate_delay random_range config attempt);;
                with_retry_from config operation attempts (Some e)) w
      end
  end.

Definition with_retry {T} (config : RetryConfig) (operation : action W DbError T) : action W DbError T :=
  with_retry_from config operation (seqZ 0 (max_retries config + 1)) None.
End retry.

(** ** Transactions *)
(** [sea_orm::TransactionTrait] and [TransactionSession]. *)
Class TransactionTrait (W DbErr Txn : Type) := {
  txn_begin : action W DbErr Txn;
  txn_commit : Txn → action W DbErr unit;
  txn_rollback : Txn → action W DbErr unit;
}.

Inductive CommitFailureAction : Type := Retry | ReturnKnownFailure | ReturnOutcomeUnknown.

#[export] Instance CommitFailureAction_eq_dec : EqDecision CommitFailureAction.
Proof. solve_decision. Defined.

Definition commit_failure_action (retryable outcome_known_rolled_back : bool) (attempt max_retries : Z)
    : CommitFailureAction :=
  if negb outcome_known_rolled_back then ReturnOutcomeUnknown
  else if retryable then
    if decide (attempt < max_retries) then Retry else ReturnKnownFailure
  else ReturnKnownFailure.

Definition commit_outcome_known_rolled_back (kind : option DatabaseErrorKind) : bool :=
  match kind with Some Deadlock | Some SerializationFailure => true | _ => false end.

Definition transaction_delay (config : RetryConfig) (attempt : Z) : Z :=
  cap_delay (exponential_delay (from_millis (base_delay_ms config)) attempt)
    (from_millis (max_delay_ms config)).

Section transaction.
Context {W DbErr Txn : Type} `{SeaOrmError DbErr, TransactionTrait W DbErr Txn}.
Context (sleep : Z → W → W).
(** The product's error type and its [From<DbError>]. *)
Context {E : Type} (from_db : DbError → E).

Definition database_operation_with_context (error : DbErr) (context : string) : DbError :=
  let message := context +:+ ": " +:+ DbErr_to_string error in
  match database_error_kind error with
  | Some kind => DatabaseOperationClassified message kind
  | None => DatabaseOperation message
  end.

Definition begin : action W DbError Txn :=
  with_error (λ e, database_operation_with_context e "begin transaction") txn_begin.
Definition commit (txn : Txn) : action W DbError unit :=
  with_error (λ e, database_operation_with_context e "commit transaction") (txn_commit txn).
Definition rollback (txn : Txn) : action W DbError unit :=
  with_error (λ e, database_operation_with_context e "rollback transaction") (txn_rollback txn).

Fixpoint with_transaction_retry {T} (fuel : nat) (config : RetryConfig)
    (operation : Txn → action W E T) (should_retry : E → bool) (attempt : Z)
    : action W E (option T) :=
  match fuel with
  | O => mret None
  | S fuel => λ w,
      let again := λ w, with_transaction_retry fuel config operation should_retry (attempt + 1)
                          (sleep (transaction_delay config attempt) w) in
      match txn_begin w with
      | (Err error, w) =>
          let error := from_db (database_operation_with_context error "begin transaction") in
          if bool_decide (attempt < max_retries config) && should_retry error then again w
          else (Err error, w)
      | (Ok txn, w) =>
          match operation txn w with
          | (Ok value, w) =>
              match txn_commit txn w with
              | (Ok _, w) => (Ok (Some value), w)
              | (Err error, w) =>
                  let kind := database_error_kind error in
                  let message := "commit transaction: " +:+ DbErr_to_string error in
                  let classified_error := from_db
                    match kind with
                    | Some kind => DatabaseOperationClassified message kind
                    | None => DatabaseOperation message
                    end in
                  match commit_failure_action (should_retry classified_error)
                          (commit_outcome_known_rolled_back kind) attempt (max_retries config) with
                  | Retry => again w
                  | ReturnKnownFailure => (Err classified_error, w)
                  | ReturnOutcomeUnknown => (Err (from_db (CommitOutcomeUnknown message kind)), w)
                  end
              end
          | (Err error, w) =>
              let '(_, w) := txn_rollback txn w in
              if bool_decide (attempt < max_retries config) && should_retry error then again w
              else (Err error, w)
          end
      end
  end.

Definition with_transaction {T} (operation : Txn → action W E T) : action W E T := λ w,
  match begin w with
  | (Err error, w) => (Err (from_db error), w)
  | (Ok txn, w) =>
      match operation txn w with
      | (Ok value, w) =>
          match commit txn w with
          | (Ok _, w) => (Ok value, w)
          | (Err error, w) => (Err (from_db error), w)
          end
      | (Err error, w) => let '(_, w) := rollback txn w in (Err error, w)
      end
  end.
End transaction.
