(* ===== verification/DatabaseSpec.v ===== *)
(** * What retries and transactions promise

    The contract of a transaction as a class of laws over the transactions
    that became durable, the bound and the outcome of every retry loop, and
    an implementation of the laws for concrete runs. *)
From S2P Require Export Database.

(** ** Delays *)
Lemma from_millis_duration ms : in_u64 ms → in_duration (from_millis ms).
Proof. unfold in_u64, in_duration, from_millis, DURATION_MAX, NANOS_PER_SEC, U64_MAX. lia. Qed.

(** The delay before retry [attempt] is the base doubled [attempt] times and
    capped; with jitter it still never exceeds the cap. *)
Lemma transaction_delay_spec config attempt :
  in_u64 (base_delay_ms config) → in_u64 (max_delay_ms config) → 0 ≤ attempt →
  transaction_delay config attempt =
    Z.min (from_millis (base_delay_ms config) * 2 ^ attempt) (from_millis (max_delay_ms config)).
Proof.
  intros Hb Hm Ha. unfold transaction_delay, cap_delay.
  rewrite exponential_delay_spec by auto using from_millis_duration.
  pose proof (from_millis_duration _ Hm) as [_ Hmax]. lia.
Qed.

Lemma calculate_delay_range random_range config attempt :
  (∀ a b, 0 ≤ a ≤ b → a ≤ random_range a b ≤ b) →
  in_u64 (base_delay_ms config) → in_u64 (max_delay_ms config) → 0 ≤ attempt →
  0 ≤ calculate_delay random_range config attempt ≤ from_millis (max_delay_ms config).
Proof.
  intros Hr Hb Hm Ha. unfold calculate_delay, cap_delay, randomized_jitter.
  rewrite exponential_delay_spec by auto using from_millis_duration.
  pose proof (from_millis_duration _ Hm) as [Hm0 _]. pose proof (from_millis_duration _ Hb) as [Hb0 _].
  assert (0 < 2 ^ attempt) by (apply Z.pow_pos_nonneg; lia). pose proof DURATION_MAX_pos.
  destruct (Hr (Z.min 50 1000) (Z.max (Z.min 150 1000) (Z.min 50 1000))) as [Hp _]; [lia|].
  destruct (apply_jitter_range (Z.min DURATION_MAX (from_millis (base_delay_ms config) * 2 ^ attempt))
    (random_range (Z.min 50 1000) (Z.max (Z.min 150 1000) (Z.min 50 1000)))) as [Hj _]; [nia|lia|lia].
Qed.

(** ** Retry loops *)
Section retry_spec.
Context {W E : Type}.

(** From attempt [a] to attempt [b], every attempt failed with an error worth
    another one. *)
Inductive retried {T} (again : E → bool) (pause : Z → W → W) (operation : action W E T)
    : Z → W → Z → W → Prop :=
  | retried_here a w : retried again pause operation a w a w
  | retried_once a w e w1 b w2 :
      operation w = (Err e, w1) → again e = true →
      retried again pause operation (a + 1) (pause a w1) b w2 →
      retried again pause operation a w b w2.

(** The outcome of a loop: that of its last attempt, which succeeded, was the
    last one allowed, or failed for good. *)
Definition retry_outcome {T} (again : E → bool) (pause : Z → W → W) (operation : action W E T)
    (first last : Z) (w : W) (r : result E T) (w' : W) : Prop :=
  ∃ b w1, retried again pause operation first w b w1 ∧ first ≤ b ≤ last ∧
    operation w1 = (r, w') ∧ (∀ e, r = Err e → b = last ∨ again e = false).

Lemma retry_outcome_once {T} again pause (operation : action W E T) a last w r w' :
  a ≤ last → operation w = (r, w') → (∀ e, r = Err e → a = last ∨ again e = false) →
  retry_outcome again pause operation a last w r w'.
Proof. intros. exists a, w. split_and!; [constructor|lia|lia|done..]. Qed.

Lemma retry_outcome_again {T} again pause (operation : action W E T) a last w e w1 r w' :
  operation w = (Err e, w1) → again e = true →
  retry_outcome again pause operation (a + 1) last (pause a w1) r w' →
  retry_outcome again pause operation a last w r w'.
Proof.
  intros Ho He (b & w2 & Hr & Hb & Hlast). exists b, w2.
  split_and!; [by econstructor|lia|lia|apply Hlast|apply Hlast].
Qed.
End retry_spec.

Section retries.
Context {W DbErr : Type} `{SeaOrmError DbErr}.
Context (sleep : Z → W → W) (random_range : Z → Z → Z).

Definition pause (config : RetryConfig) (attempt : Z) (w : W) : W :=
  sleep (calculate_delay random_range config attempt) w.

(** The loop of [with_sea_orm_retry] ends within its budget, with the outcome
    of its last attempt. *)
Lemma with_sea_orm_retry_spec {T} fuel config (operation : action W DbErr T) attempt w :
  attempt ≤ max_retries config → (Z.to_nat (max_retries config - attempt) < fuel)%nat →
  ∃ r w', with_sea_orm_retry sleep random_range fuel config operation attempt w = (Some <$> r, w') ∧
    retry_outcome is_retryable_sea_orm_error (pause config) operation attempt (max_retries config) w r w'.
Proof.
  revert attempt w. induction fuel as [|fuel IH]; intros attempt w Ha Hf; [lia|]. cbn.
  destruct (operation w) as [[v|e] w1] eqn:Ho.
  - exists (Ok v), w1. split; [done|]. by apply retry_outcome_once.
  - destruct (bool_decide (attempt < _)) eqn:Hlt; [apply bool_decide_eq_true in Hlt|apply bool_decide_eq_false in Hlt];
      cbn [andb]; [destruct (is_retryable_sea_orm_error e) eqn:He|].
    + rewrite (bind_ok _ _ _ tt (pause config attempt w1)) by done.
      destruct (IH (attempt + 1) (pause config attempt w1)) as (r & w' & -> & Hr); [lia..|].
      exists r, w'. split; [done|]. by eapply retry_outcome_again.
    + exists (Err e), w1. split; [done|]. apply retry_outcome_once; [done..|]. intros ? [= <-]. auto.
    + exists (Err e), w1. split; [done|]. apply retry_outcome_once; [done..|]. intros ? [= <-]. left. lia.
Qed.

Lemma with_retry_from_spec {T} config (operation : action W DbError T) n :
  ∀ attempt last w, max_retries config = attempt + Z.of_nat n →
  retry_outcome DbError_is_retryable (pause config) operation attempt (max_retries config) w
    (with_retry_from sleep random_range config operation (seqZ attempt (Z.of_nat n + 1)) last w).1
    (with_retry_from sleep random_range config operation (seqZ attempt (Z.of_nat n + 1)) last w).2.
Proof.
  induction n as [|n IH]; intros attempt last w Hn;
    rewrite seqZ_cons by lia; cbn [with_retry_from];
    destruct (operation w) as [[v|e] w1] eqn:Ho; try by (cbn; apply retry_outcome_once; [lia|..]).
  - rewrite bool_decide_true by lia. cbn. apply retry_outcome_once; [lia|done|]. intros ? _. left. lia.
  - rewrite bool_decide_false by lia. cbn [orb]. destruct (DbError_is_retryable e) eqn:He; cbn [negb].
    + rewrite (bind_ok _ _ _ tt (pause config attempt w1)) by done. eapply retry_outcome_again; [done..|].
      replace (Z.pred (Z.of_nat (S n) + 1)) with (Z.of_nat n + 1) by lia.
      rewrite <- Z.add_1_r. apply IH. lia.
    + cbn. apply retry_outcome_once; [lia|done|]. intros ? [= <-]. auto.
Qed.

(** [with_retry] makes the same decisions, and never reports
    [RetryExhausted] of its own. *)
Lemma with_retry_spec {T} config (operation : action W DbError T) w :
  0 ≤ max_retries config →
  retry_outcome DbError_is_retryable (pause config) operation 0 (max_retries config) w
    (with_retry sleep random_range config operation w).1
    (with_retry sleep random_range config operation w).2.
Proof.
  intros Hm. unfold with_retry. pose proof (with_retry_from_spec config operation
    (Z.to_nat (max_retries config)) 0 None w ltac:(lia)) as Hr.
  by rewrite Z2Nat.id in Hr.
Qed.
End retries.

(** ** Transactions *)
(** The transactions that were begun and those that are durable. *)
Class TransactionView (W Txn : Type) := {
  begun : W → list Txn;
  committed : W → list Txn;
}.

Definition same_commits `{TransactionView W Txn} (w w' : W) : Prop :=
  begun w' = begun w ∧ committed w' = committed w.

#[export] Instance same_commits_preorder `{TransactionView W Txn} : PreOrder same_commits.
Proof. unfold same_commits. split; [by intros ?|]. intros ??? [-> ->] [-> ->]. done. Qed.

(** The failures that a database reports only after it rolled the transaction
    back. *)
Definition reported_rolled_back (kind : option DatabaseErrorKind) : Prop :=
  kind = Some Deadlock ∨ kind = Some SerializationFailure.

Lemma commit_outcome_known_rolled_back_iff kind :
  commit_outcome_known_rolled_back kind = true ↔ reported_rolled_back kind.
Proof.
  unfold reported_rolled_back. split; [destruct kind as [[]|]; cbn; auto; discriminate|].
  by intros [->| ->].
Qed.

(** A failed commit leaves the transaction rolled back when the driver
    reports a deadlock or a serialization failure, and may have gone through
    otherwise. *)
Class TransactionLaws (W DbErr Txn : Type)
    `{SeaOrmError DbErr, TransactionTrait W DbErr Txn, TransactionView W Txn} : Prop := {
  begin_law w : match txn_begin w with
    | (Ok t, w') => (t ∉ begun w) ∧ begun w' = t :: begun w ∧ committed w' = committed w
    | (Err _, w') => same_commits w w'
    end;
  commit_law t w : match txn_commit t w with
    | (Ok _, w') => begun w' = begun w ∧ committed w' = t :: committed w
    | (Err e, w') => begun w' = begun w ∧
        (committed w' = committed w ∨
         (¬ reported_rolled_back (database_error_kind e)) ∧
         committed w' = t :: committed w)
    end;
  rollback_law t w : same_commits w (txn_rollback t w).2;
}.

Section transactions.
Context {W DbErr Txn E T : Type} `{TransactionLaws W DbErr Txn}.
Context (sleep : Z → W → W) (from_db : DbError → E).
Context (operation : Txn → action W E T).

(** What is durable after a run that started from [w]. *)
Definition transaction_outcome (w : W) (r : result E T) (w' : W) : Prop :=
  match r with
  | Ok v => ∃ t w1 w2, (t ∉ begun w) ∧ committed w' = t :: committed w ∧
      operation t w1 = (Ok v, w2) ∧ committed w1 = committed w
  | Err e => committed w' = committed w ∨
      ∃ t message kind, (t ∉ begun w) ∧ committed w' = t :: committed w ∧
        e = from_db (CommitOutcomeUnknown message kind) ∧ ¬ reported_rolled_back kind
  end.

Lemma transaction_outcome_mono w0 w r w' :
  (∀ t, t ∈ begun w0 → t ∈ begun w) → committed w = committed w0 →
  transaction_outcome w r w' → transaction_outcome w0 r w'.
Proof.
  intros Hb Hc. destruct r as [v|e]; cbn.
  - intros (t & w1 & w2 & Ht & Hw & Ho & Hw1). exists t, w1, w2. rewrite <- Hc. split_and!; [by intros ?%Hb|done..].
  - rewrite Hc. intros [|(t & m & k & Ht & Hw)]; [by left|]. right. exists t, m, k. split; [by intros ?%Hb|done].
Qed.

Context (sleep_law : ∀ d w, same_commits w (sleep d w)).
Context (operation_law : ∀ t w, same_commits w (operation t w).2).

(** One attempt that is repeated has left nothing behind but a begun
    transaction. *)
Definition attempt_failed (w w' : W) : Prop :=
  committed w' = committed w ∧ (begun w' = begun w ∨ ∃ t, begun w' = t :: begun w).

Lemma attempt_failed_length w w' : attempt_failed w w' → (length (begun w') ≤ S (length (begun w)))%nat.
Proof. intros [_ [->|[t ->]]]; cbn; lia. Qed.

Lemma with_transaction_retry_spec fuel config should_retry attempt w :
  attempt ≤ max_retries config → (Z.to_nat (max_retries config - attempt) < fuel)%nat →
  ∃ r w', with_transaction_retry sleep from_db fuel config operation should_retry attempt w = (Some <$> r, w') ∧
    transaction_outcome w r w' ∧
    (length (begun w') ≤ length (begun w) + Z.to_nat (max_retries config - attempt) + 1)%nat.
Proof.
  revert attempt w. induction fuel as [|fuel IH]; intros attempt w Ha Hf; [lia|]. cbn [with_transaction_retry].
  assert (∀ w1, attempt_failed w w1 → attempt < max_retries config →
    ∃ r w', with_transaction_retry sleep from_db fuel config operation should_retry (attempt + 1)
              (sleep (transaction_delay config attempt) w1) = (Some <$> r, w') ∧
      transaction_outcome w r w' ∧
      (length (begun w') ≤ length (begun w) + Z.to_nat (max_retries config - attempt) + 1)%nat) as Hagain.
  { intros w1 Hw1 Hlt. pose proof (attempt_failed_length _ _ Hw1). destruct Hw1 as [Hc Hb].
    destruct (sleep_law (transaction_delay config attempt) w1) as [Hsb Hsc].
    destruct (IH (attempt + 1) (sleep (transaction_delay config attempt) w1)) as (r & w' & -> & Ho & Hl); [lia..|].
    exists r, w'. split_and!; [done| |rewrite Hsb in Hl; lia].
    eapply transaction_outcome_mono; [|by rewrite Hsc|done]. rewrite Hsb. intros t Ht.
    destruct Hb as [->|[t' ->]]; [done|by right]. }
  assert (∀ w1 e, attempt_failed w w1 → ∃ r w', (Err (A := option T) e, w1) = (Some <$> r, w') ∧
    transaction_outcome w r w' ∧
    (length (begun w') ≤ length (begun w) + Z.to_nat (max_retries config - attempt) + 1)%nat) as Hfail.
  { intros w1 e Hw1. exists (Err e), w1. pose proof (attempt_failed_length _ _ Hw1).
    split_and!; [done|left; apply Hw1|lia]. }
  pose proof (begin_law w) as Hb. destruct (txn_begin w) as [[t|e] w1].
  2: { assert (attempt_failed w w1) by (destruct Hb; split; auto).
       destruct (bool_decide (attempt < _)) eqn:Hlt; [apply bool_decide_eq_true in Hlt|]; cbn [andb]; [case_match|]; auto. }
  destruct Hb as (Ht & Hb1 & Hc1).
  pose proof (operation_law t w1) as [Hb2 Hc2]. destruct (operation t w1) as [[v|e] w2] eqn:Ho; cbn in Hb2, Hc2.
  - pose proof (commit_law t w2) as Hc. destruct (txn_commit t w2) as [[[]|e] w3].
    + exists (Ok v), w3. destruct Hc as [Hb3 Hc3]. split_and!; [done| |rewrite Hb3, Hb2, Hb1; cbn; lia].
      exists t, w1, w2. by rewrite Hc3, Hc2, Hc1.
    + destruct Hc as [Hb3 Hc3]. rewrite Hc2, Hc1 in Hc3. rewrite Hb2, Hb1 in Hb3. unfold commit_failure_action.
      destruct (commit_outcome_known_rolled_back (database_error_kind e)) eqn:Hk; cbn [negb].
      * apply commit_outcome_known_rolled_back_iff in Hk.
        assert (attempt_failed w w3) by (destruct Hc3 as [?|[? _]]; [split; eauto|done]).
        repeat case_match; simplify_eq; auto.
      * exists (Err (from_db (CommitOutcomeUnknown ("commit transaction: " +:+ DbErr_to_string e) (database_error_kind e)))), w3.
        split_and!; [done| |rewrite Hb3; cbn; lia]. destruct Hc3 as [?|[_ Hc3]]; [by left|]. right.
        eexists t, _, _. rewrite <- commit_outcome_known_rolled_back_iff, Hk. split_and!; done.
  - pose proof (rollback_law t w2) as [Hb3 Hc3]. destruct (txn_rollback t w2) as [r w3]. cbn in Hb3, Hc3.
    assert (attempt_failed w w3) by (split; [congruence|right; exists t; congruence]).
    destruct (bool_decide (attempt < _)) eqn:Hlt; [apply bool_decide_eq_true in Hlt|]; cbn [andb]; [case_match|]; auto.
Qed.

(** Without a retry, a failed commit may be durable under any error. *)
Lemma with_transaction_spec w :
  let '(r, w') := with_transaction from_db operation w in
  match r with
  | Ok v => transaction_outcome w r w'
  | Err _ => committed w' = committed w ∨ ∃ t, (t ∉ begun w) ∧ committed w' = t :: committed w
  end.
Proof.
  unfold with_transaction, begin, commit, rollback, with_error.
  pose proof (begin_law w) as Hb. destruct (txn_begin w) as [[t|e] w1]; cbn; [|left; apply Hb].
  destruct Hb as (Ht & Hb1 & Hc1).
  pose proof (operation_law t w1) as [Hb2 Hc2]. destruct (operation t w1) as [[v|e] w2] eqn:Ho; cbn in Hb2, Hc2.
  - pose proof (commit_law t w2) as Hc. destruct (txn_commit t w2) as [[[]|e] w3]; cbn.
    + destruct Hc as [Hb3 Hc3]. exists t, w1, w2. by rewrite Hc3, Hc2, Hc1.
    + destruct Hc as [_ [Hc|[_ Hc]]]; rewrite Hc2, Hc1 in Hc; [by left|right; eauto].
  - pose proof (rollback_law t w2) as [Hb3 Hc3]. destruct (txn_rollback t w2) as [r w3]. cbn in *. left. congruence.
Qed.

End transactions.

(** ** A database *)
(** Commits answer from a script: success, or a driver error by its Postgres
    code; a lost answer ([08006]) may come after the commit went through. *)
Module ScriptedDatabase.

Record world : Type := mk_world {
  world_begun : list nat;
  world_committed : list nat;
  world_answers : list (option string);
  world_slept : Z;
}.

#[export] Instance scripted_error : SeaOrmError string := {|
  DbErr_to_string e := e;
  DbErr_is_connection e := bool_decide (e = "08001"%string);
  DbErr_driver e := Some (OtherViolation, None, Some e, None);
  DbErr_custom m := m;
|}.

#[export] Instance scripted_view : TransactionView world nat := {|
  begun := world_begun;
  committed := world_committed;
|}.

Definition fresh_txn (w : world) : nat := S (list_max (world_begun w)).

#[export] Instance scripted_transactions : TransactionTrait world string nat := {|
  txn_begin w := (Ok (fresh_txn w),
    mk_world (fresh_txn w :: world_begun w) (world_committed w) (world_answers w) (world_slept w));
  txn_commit t w :=
    match world_answers w with
    | Some e :: answers =>
        (Err e, mk_world (world_begun w)
           (if bool_decide (e = "08006"%string) then t :: world_committed w else world_committed w)
           answers (world_slept w))
    | _ => (Ok tt, mk_world (world_begun w) (t :: world_committed w) (tail (world_answers w)) (world_slept w))
    end;
  txn_rollback t w := (Ok tt, w);
|}.

Definition sleep (delay : Z) (w : world) : world :=
  mk_world (world_begun w) (world_committed w) (world_answers w) (world_slept w + delay).

Lemma fresh_txn_begun w : fresh_txn w ∉ world_begun w.
Proof.
  unfold fresh_txn. intros Hin. assert (∀ l n, n ∈ l → (n ≤ list_max l)%nat) as Hmax.
  { induction l as [|x l IH]; [by intros n ?%elem_of_nil|]. cbn.
    intros n [->|Hn]%elem_of_cons; [lia|]. specialize (IH n Hn). unfold list_max in *. lia. }
  specialize (Hmax _ _ Hin). lia.
Qed.

#[export] Instance scripted_laws : TransactionLaws world string nat.
Proof.
  split.
  - intros w. cbn. split_and!; [apply fresh_txn_begun|done|done].
  - intros t w. cbn. destruct (world_answers w) as [|[e|] answers]; cbn; [done| |done].
    split; [done|]. case_bool_decide as He; [|by left]. subst. right.
    split; [|done]. by intros [|].
  - done.
Qed.

(** A callback that returns the number of its transaction. *)
Definition operation (t : nat) : action world DbError nat := λ w, (Ok t, w).

Definition run (answers : list (option string)) : result DbError (option nat) * world :=
  with_transaction_retry sleep (λ e, e) 4 RetryConfig_deadlock operation DbError_is_retryable 0
    (mk_world [] [] answers 0).

(** Two rolled-back commits and then a success; a lost answer is not retried. *)
Example run_retries : run [Some "40001"; Some "40P01"; None] =
  (Ok (Some 3%nat), mk_world [3; 2; 1]%nat [3%nat] [] (from_millis 15)).
Proof. reflexivity. Qed.

Example run_unknown : run [Some "40001"; Some "08006"; None] =
  (Err (CommitOutcomeUnknown "commit transaction: 08006" None),
   mk_world [2; 1]%nat [2%nat] [None] (from_millis 5)).
Proof. reflexivity. Qed.

End ScriptedDatabase.

Import (hints) ScriptedDatabase.

(** C8. A retried transaction takes effect exactly once.  For any database
    that keeps its contract and any callback that works inside the
    transaction it is given: the loop ends within its budget and begins at
    most [max_retries + 1] transactions.  Success means exactly one of them
    is durable, the one in which the callback returned the value.  An error
    means that none is, unless it is [CommitOutcomeUnknown] for a failure the
    driver does not report as rolled back: then at most that one
    is. *)
Theorem transaction_exactly_once {W DbErr Txn E T : Type} `{TransactionLaws W DbErr Txn}
    (sleep : Z → W → W) (from_db : DbError → E) (operation : Txn → action W E T)
    (config : RetryConfig) (should_retry : E → bool) (fuel : nat) (w : W) :
  (∀ d w, same_commits w (sleep d w)) →
  (∀ t w, same_commits w (operation t w).2) →
  0 ≤ max_retries config → (Z.to_nat (max_retries config) < fuel)%nat →
  ∃ r w', with_transaction_retry sleep from_db fuel config operation should_retry 0 w = (Some <$> r, w') ∧
    match r with
    | Ok v => ∃ t w1 w2, (t ∉ begun w) ∧ committed w' = t :: committed w ∧
        operation t w1 = (Ok v, w2) ∧ committed w1 = committed w
    | Err e => committed w' = committed w ∨
        ∃ t message kind, (t ∉ begun w) ∧ committed w' = t :: committed w ∧
          e = from_db (CommitOutcomeUnknown message kind) ∧ ¬ reported_rolled_back kind
    end ∧
    Z.of_nat (length (begun w')) ≤ Z.of_nat (length (begun w)) + max_retries config + 1.
Proof.
  intros Hsleep Hop Hm Hf.
  destruct (with_transaction_retry_spec sleep from_db operation Hsleep Hop fuel config should_retry 0 w)
    as (r & w' & Hr & Ho & Hl); [done|by rewrite Z.sub_0_r|].
  exists r, w'. split_and!; [done|exact Ho|]. rewrite Z.sub_0_r in Hl. lia.
Qed.

Lemma transaction_exactly_once_witness :
  (∃ r w', ScriptedDatabase.run [Some "40001"; Some "08006"; None] = (Some <$> r, w') ∧
    Z.of_nat (length (begun w')) ≤ 4) ∧
  (ScriptedDatabase.run [Some "40001"; Some "08006"; None]).2.(ScriptedDatabase.world_committed) = [2%nat].
Proof.
  split; [|reflexivity].
  destruct (transaction_exactly_once ScriptedDatabase.sleep (λ e, e) ScriptedDatabase.operation
    RetryConfig_deadlock DbError_is_retryable 4
    (ScriptedDatabase.mk_world [] [] [Some "40001"%string; Some "08006"%string; None] 0))
    as (r & w' & Hr & _ & Hl);
    [by intros d []|by intros t []|by cbn|by cbn; lia|].
  exists r, w'. split; [exact Hr|exact Hl].
Defined.
