(* ===== verification/RuntimeLease.v ===== *)
(** * Runtime leases

    [aster_forge_runtime/src/lease.rs], the supervisor that runs a singleton
    worker group only while its process owns a lease, over the database store
    of [aster_forge_db/src/runtime_lease.rs].  Both are processes in the sense
    of [Process]: their events are the SQL statements, the clock readings, the
    sleeps and what happens to the workload, so several supervisors interleave
    between any two of them.  Tracing and the table's DDL have no counterpart. *)
From S2P Require Export Process Database.

(** ** Configuration *)
Definition DEFAULT_RUNTIME_LEASE_TTL : Z := from_secs 30.
Definition DEFAULT_RUNTIME_LEASE_RETRY_INTERVAL : Z := from_secs 5.

Record RuntimeLeaseConfig : Type := mk_RuntimeLeaseConfig {
  config_lease_id : string;
  config_owner_id : string;
  config_ttl : Z;
  config_renew_interval : Z;
  config_standby_retry_interval : Z;
}.

Definition RuntimeLeaseConfig_new (lease_id owner_id : string) : RuntimeLeaseConfig :=
  mk_RuntimeLeaseConfig lease_id owner_id DEFAULT_RUNTIME_LEASE_TTL (from_secs 10)
    DEFAULT_RUNTIME_LEASE_RETRY_INTERVAL.

Definition RuntimeLeaseConfig_ttl (ttl : Z) (c : RuntimeLeaseConfig) : RuntimeLeaseConfig :=
  mk_RuntimeLeaseConfig (config_lease_id c) (config_owner_id c) ttl
    (config_renew_interval c) (config_standby_retry_interval c).

Definition RuntimeLeaseConfig_renew_interval (interval : Z) (c : RuntimeLeaseConfig) : RuntimeLeaseConfig :=
  mk_RuntimeLeaseConfig (config_lease_id c) (config_owner_id c) (config_ttl c)
    interval (config_standby_retry_interval c).

Definition RuntimeLeaseConfig_standby_retry_interval (interval : Z) (c : RuntimeLeaseConfig) : RuntimeLeaseConfig :=
  mk_RuntimeLeaseConfig (config_lease_id c) (config_owner_id c) (config_ttl c)
    (config_renew_interval c) interval.

Definition duration_half (duration : Z) : Z := from_secs_f64 (f64_div (as_secs_f64 duration) 2).
Definition duration_third (duration : Z) : Z := from_secs_f64 (f64_div (as_secs_f64 duration) 3).

Definition effective_ttl (c : RuntimeLeaseConfig) : Z :=
  if decide (config_ttl c = 0) then DEFAULT_RUNTIME_LEASE_TTL else config_ttl c.

Definition effective_renew_interval (c : RuntimeLeaseConfig) : Z :=
  let ttl := effective_ttl c in
  if decide (config_renew_interval c = 0) then Z.max (duration_third ttl) (from_secs 1)
  else if decide (ttl ≤ config_renew_interval c) then Z.max (duration_half ttl) (from_secs 1)
  else config_renew_interval c.

Definition effective_standby_retry_interval (c : RuntimeLeaseConfig) : Z :=
  if decide (config_standby_retry_interval c = 0) then DEFAULT_RUNTIME_LEASE_RETRY_INTERVAL
  else config_standby_retry_interval c.

(** Timestamps are nanoseconds of UTC up to [DateTime::MAX_UTC]. *)
Definition RuntimeLeaseConfig_expires_at (max_utc : Z) (c : RuntimeLeaseConfig) (now : Z) : Z :=
  let ttl := if decide (effective_ttl c ≤ CHRONO_DURATION_MAX) then effective_ttl c else CHRONO_DURATION_MAX in
  default max_utc (checked_add max_utc now ttl).

(** ** Claims and answers *)
Record RuntimeLeaseClaim : Type := mk_RuntimeLeaseClaim {
  claim_lease_id : string;
  claim_owner_id : string;
  claim_now : Z;
  claim_expires_at : Z;
}.

Record RuntimeLeaseOwner : Type := mk_RuntimeLeaseOwner {
  owner_owner_id : string;
  owner_expires_at : Z;
}.

Inductive RuntimeLeaseAcquire : Type :=
  | Acquired
  | Standby (owner : option RuntimeLeaseOwner).

Definition RuntimeLeaseAcquire_acquired (a : RuntimeLeaseAcquire) : bool :=
  match a with Acquired => true | _ => false end.

(** ** The table *)
(** A row; its key, [lease_id], is the key of the map that holds it. *)
Record Model : Type := mk_Model {
  row_owner_id : string;
  row_expires_at : Z;
  row_last_renewed_at : Z;
  row_created_at : Z;
  row_updated_at : Z;
}.

(** The columns an [update_many] sets. *)
Record row_update : Type := mk_row_update {
  set_owner_id : option string;
  set_expires_at : Z;
  set_renewed_at : Z;
}.

Definition apply_update (u : row_update) (m : Model) : Model :=
  mk_Model (default (row_owner_id m) (set_owner_id u)) (set_expires_at u) (set_renewed_at u)
    (row_created_at m) (set_renewed_at u).

(** The statements SeaORM runs: [insert], [find_by_id], and [update_many] and
    [delete_many] on the rows of one key that satisfy a condition. *)
Class LeaseTable (D DbErr : Type) := {
  lease_insert : string → Model → D → result DbErr unit * D;
  lease_find : string → D → result DbErr (option Model) * D;
  lease_update : string → (Model → bool) → row_update → D → result DbErr Z * D;
  lease_delete : string → (Model → bool) → D → result DbErr unit * D;
}.

(** ** Events *)
Inductive lease_event : Type :=
  | IsCancelled
  | Now
  | Insert (lease_id : string) (row : Model)
  | Find (lease_id : string)
  | Update (lease_id : string) (filter : Model → bool) (u : row_update)
  | Delete (lease_id : string) (filter : Model → bool)
  | SleepOrShutdown (duration : Z)      (* the biased [select!]; [true] is the shutdown branch *)
  | StartWorkload
  | CancelWorkload
  | StopWorkload.

Definition answer (DbErr : Type) (e : lease_event) : Type :=
  match e with
  | IsCancelled | SleepOrShutdown _ => bool
  | Now => Z
  | Insert _ _ | Delete _ _ => result DbErr unit
  | Find _ => result DbErr (option Model)
  | Update _ _ _ => result DbErr Z
  | StartWorkload | CancelWorkload | StopWorkload => unit
  end.

(** ** The contract between supervisor and store *)
Class RuntimeLeaseStore (DbErr : Type) := {
  store_error : Type;
  try_acquire : RuntimeLeaseClaim → prog (answer DbErr) (result store_error RuntimeLeaseAcquire);
  renew : string → string → Z → Z → prog (answer DbErr) (result store_error bool);
  release : string → string → prog (answer DbErr) (result store_error unit);
}.

(** ** The database store *)
Section store.
Context {DbErr : Type} `{SeaOrmError DbErr}.

Abbreviation io A := (prog (answer DbErr) A).
Abbreviation db_result A := (result DbError A).

Definition act (e : lease_event) : io (answer DbErr e) := Process.act e.

Definition standby_from_model (model : Model) : RuntimeLeaseAcquire :=
  Standby (Some (mk_RuntimeLeaseOwner (row_owner_id model) (row_expires_at model))).

Definition owner_or_expired (claim : RuntimeLeaseClaim) (m : Model) : bool :=
  bool_decide (row_owner_id m = claim_owner_id claim) || bool_decide (row_expires_at m ≤ claim_now claim).

Definition owned_by (owner_id : string) (m : Model) : bool := bool_decide (row_owner_id m = owner_id).

Definition acquire_existing_lease (claim : RuntimeLeaseClaim) (insert_error : DbErr)
    : io (db_result RuntimeLeaseAcquire) :=
  existing ← act (Find (claim_lease_id claim));
  match existing with
  | Err e => mret (Err (DbError_from e))
  | Ok None => mret (Err (DbError_from insert_error))
  | Ok (Some existing) =>
      if bool_decide (row_owner_id existing ≠ claim_owner_id claim)
         && bool_decide (claim_now claim < row_expires_at existing)
      then mret (Ok (standby_from_model existing))
      else
        update ← act (Update (claim_lease_id claim) (owner_or_expired claim)
          (mk_row_update (Some (claim_owner_id claim)) (claim_expires_at claim) (claim_now claim)));
        match update with
        | Err e => mret (Err (DbError_from e))
        | Ok rows_affected =>
            if decide (rows_affected = 1) then mret (Ok Acquired)
            else
              found ← act (Find (claim_lease_id claim));
              match found with
              | Err e => mret (Err (DbError_from e))
              | Ok None => mret (Ok (Standby None))
              | Ok (Some model) => mret (Ok (standby_from_model model))
              end
        end
  end.

Definition try_insert_lease (claim : RuntimeLeaseClaim) : io (db_result RuntimeLeaseAcquire) :=
  insert_result ← act (Insert (claim_lease_id claim)
    (mk_Model (claim_owner_id claim) (claim_expires_at claim) (claim_now claim)
       (claim_now claim) (claim_now claim)));
  match insert_result with
  | Ok _ => mret (Ok Acquired)
  | Err insert_error => acquire_existing_lease claim insert_error
  end.

Definition renew_lease (lease_id owner_id : string) (now expires : Z) : io (db_result bool) :=
  update ← act (Update lease_id (owned_by owner_id) (mk_row_update None expires now));
  match update with
  | Err e => mret (Err (DbError_from e))
  | Ok rows_affected => mret (Ok (bool_decide (rows_affected = 1)))
  end.

Definition release_lease (lease_id owner_id : string) : io (db_result unit) :=
  deleted ← act (Delete lease_id (owned_by owner_id));
  mret (map_err DbError_from deleted).

#[export] Instance RuntimeLeaseDbStore : RuntimeLeaseStore DbErr := {|
  store_error := DbError;
  try_acquire := try_insert_lease;
  renew := renew_lease;
  release := release_lease;
|}.
End store.

(** ** The supervisor *)
Section supervisor.
Context {DbErr : Type} `{RuntimeLeaseStore DbErr} (max_utc : Z).

Abbreviation io A := (prog (answer DbErr) A).

(** The [loop] of [run_owned_runtime_lease]; [None] is a loop that used up
    its turns. *)
Fixpoint owned_loop (fuel : nat) (config : RuntimeLeaseConfig) : io (option unit) :=
  match fuel with
  | O => mret None
  | S fuel =>
      shutdown ← act (SleepOrShutdown (effective_renew_interval config));
      if shutdown : bool then
        act CancelWorkload;;
        act StopWorkload;;
        release (config_lease_id config) (config_owner_id config);;
        mret (Some tt)
      else
        now ← act Now;
        renewed ← renew (config_lease_id config) (config_owner_id config) now
          (RuntimeLeaseConfig_expires_at max_utc config now);
        match renewed with
        | Ok true => owned_loop fuel config
        | Ok false | Err _ =>
            act CancelWorkload;;
            act StopWorkload;;
            mret (Some tt)
        end
  end.

Definition run_owned_runtime_lease (fuel : nat) (config : RuntimeLeaseConfig) : io (option unit) :=
  act StartWorkload;;
  owned_loop fuel config.

Definition sleep_or_shutdown (duration : Z) : io bool := act (SleepOrShutdown duration).

Fixpoint run_runtime_lease_supervisor (fuel : nat) (config : RuntimeLeaseConfig) : io (option unit) :=
  match fuel with
  | O => mret None
  | S fuel =>
      cancelled ← act IsCancelled;
      if cancelled : bool then mret (Some tt)
      else
        now ← act Now;
        acquired ← try_acquire (mk_RuntimeLeaseClaim (config_lease_id config)
          (config_owner_id config) now (RuntimeLeaseConfig_expires_at max_utc config now));
        match acquired with
        | Ok Acquired =>
            ended ← run_owned_runtime_lease fuel config;
            match ended with
            | None => mret None
            | Some _ => run_runtime_lease_supervisor fuel config
            end
        | Ok (Standby _) | Err _ =>
            sleep_or_shutdown (effective_standby_retry_interval config);;
            run_runtime_lease_supervisor fuel config
        end
  end.
End supervisor.

(** ** The system *)
(** A process: its settings, whether its shutdown token is cancelled, its
    workload, and the expiry of the last claim or renewal that the database
    acknowledged and that has not been given up. *)
Inductive workload_state : Type := Idle | Working | Cancelled.

Record supervisor : Type := mk_supervisor {
  sup_config : RuntimeLeaseConfig;
  sup_shutdown : bool;
  sup_workload : workload_state;
  sup_granted : option Z;
}.

Record lease_world (D : Type) : Type := mk_lease_world {
  database : D;
  clock : Z;
  supervisors : list supervisor;
}.
Arguments mk_lease_world {D} database clock supervisors.
Arguments database {D} l.
Arguments clock {D} l.
Arguments supervisors {D} l.

Section system.
Context {D DbErr : Type} `{LeaseTable D DbErr}.
(** How far the clock of a process may be from the true time. *)
Context (skew : Z).

Definition with_supervisor (i : nat) (f : supervisor → supervisor) (w : lease_world D) : lease_world D :=
  mk_lease_world (database w) (clock w) (alter f i (supervisors w)).
Definition with_database (d : D) (w : lease_world D) : lease_world D :=
  mk_lease_world d (clock w) (supervisors w).

Definition set_workload (s : workload_state) (p : supervisor) : supervisor :=
  mk_supervisor (sup_config p) (sup_shutdown p) s (sup_granted p).
Definition set_granted (g : option Z) (p : supervisor) : supervisor :=
  mk_supervisor (sup_config p) (sup_shutdown p) (sup_workload p) g.
Definition set_shutdown (p : supervisor) : supervisor :=
  mk_supervisor (sup_config p) true (sup_workload p) (sup_granted p).

Definition is_shutdown (i : nat) (w : lease_world D) : bool :=
  match supervisors w !! i with Some p => sup_shutdown p | None => true end.

(** What an event of process [i] does, and the answers it may get. *)
Definition handle (i : nat) (e : lease_event) (w : lease_world D) : answer DbErr e → lease_world D → Prop :=
  match e with
  | IsCancelled | SleepOrShutdown _ => λ x w', x = is_shutdown i w ∧ w' = w
  | Now => λ x w', Z.abs (x - clock w) ≤ skew ∧ w' = w
  | Insert lease_id row => λ x w', let '(r, d) := lease_insert lease_id row (database w) in
      x = r ∧ w' = with_database d match r with
        | Ok _ => with_supervisor i (set_granted (Some (row_expires_at row))) w
        | Err _ => w
        end
  | Find lease_id => λ x w', let '(r, d) := lease_find lease_id (database w) in
      x = r ∧ w' = with_database d w
  | Update lease_id filter u => λ x w', let '(r, d) := lease_update lease_id filter u (database w) in
      x = r ∧ w' = with_database d
        match r with
        | Ok 1 => with_supervisor i (set_granted (Some (set_expires_at u))) w
        | _ => w
        end
  | Delete lease_id filter => λ x w', let '(r, d) := lease_delete lease_id filter (database w) in
      x = r ∧ w' = with_database d (with_supervisor i (set_granted None) w)
  | StartWorkload => λ _ w', w' = with_supervisor i (set_workload Working) w
  | CancelWorkload => λ _ w', w' = with_supervisor i (set_workload Cancelled) w
  | StopWorkload => λ _ w', w' = with_supervisor i (set_workload Idle) w
  end.

(** Time passes, and a shutdown token is cancelled. *)
Inductive environment : lease_world D → lease_world D → Prop :=
  | time_passes t w : clock w ≤ t → environment w (mk_lease_world (database w) t (supervisors w))
  | shutdown_requested i w : environment w (with_supervisor i set_shutdown w).

Definition lease_start (configs : list RuntimeLeaseConfig) (d : D) (t : Z) : lease_world D :=
  mk_lease_world d t ((λ c, mk_supervisor c false Idle None) <$> configs).

End system.
