(* ===== verification/RuntimeLeaseSpec.v ===== *)
(** * Leases are exclusive

    The contract of the lease table as a class of laws, the rely-guarantee
    proof that supervisors which share it never both hold an unexpired lease,
    and the bound on what a supervisor still does once it is told to stop. *)
From S2P Require Export RuntimeLease.

(** ** The table's contract *)
(** The rows a database holds.  A statement that fails may or may not have
    been applied. *)
Class LeaseRows (D : Type) := rows : D → gmap string Model.

Definition updated_rows (lease_id : string) (filter : Model → bool) (u : row_update)
    (r : gmap string Model) : gmap string Model :=
  match r !! lease_id with
  | Some m => if filter m then <[lease_id := apply_update u m]> r else r
  | None => r
  end.

Definition remaining_rows (lease_id : string) (filter : Model → bool) (r : gmap string Model)
    : gmap string Model :=
  match r !! lease_id with
  | Some m => if filter m then delete lease_id r else r
  | None => r
  end.

Class LeaseTableLaws (D DbErr : Type) `{LeaseTable D DbErr, LeaseRows D} : Prop := {
  insert_law lease_id m d : match lease_insert lease_id m d with
    | (Ok _, d') => rows d !! lease_id = None ∧ rows d' = <[lease_id := m]> (rows d)
    | (Err _, d') => rows d' = rows d ∨ rows d !! lease_id = None ∧ rows d' = <[lease_id := m]> (rows d)
    end;
  find_law lease_id d : match lease_find lease_id d with
    | (Ok found, d') => found = rows d !! lease_id ∧ rows d' = rows d
    | (Err _, d') => rows d' = rows d
    end;
  update_law lease_id filter u d : match lease_update lease_id filter u d with
    | (Ok n, d') => rows d' = updated_rows lease_id filter u (rows d) ∧
        (n = 1 ↔ ∃ m, rows d !! lease_id = Some m ∧ filter m = true)
    | (Err _, d') => rows d' = rows d ∨ rows d' = updated_rows lease_id filter u (rows d)
    end;
  delete_law lease_id filter d : match lease_delete lease_id filter d with
    | (Ok _, d') => rows d' = remaining_rows lease_id filter (rows d)
    | (Err _, d') => rows d' = rows d ∨ rows d' = remaining_rows lease_id filter (rows d)
    end;
}.

(** ** Expiry *)
Lemma expires_at_min max_utc c now : RuntimeLeaseConfig_expires_at max_utc c now =
  Z.min max_utc (now + Z.min (effective_ttl c) CHRONO_DURATION_MAX).
Proof. unfold RuntimeLeaseConfig_expires_at, checked_add. repeat case_decide; cbn; lia. Qed.

Lemma expires_at_mono max_utc c now now' : now ≤ now' → RuntimeLeaseConfig_expires_at max_utc c now ≤ RuntimeLeaseConfig_expires_at max_utc c now'.
Proof. rewrite !expires_at_min. lia. Qed.

Lemma expires_at_shift max_utc c now k : 0 ≤ k → RuntimeLeaseConfig_expires_at max_utc c (now + k) ≤ RuntimeLeaseConfig_expires_at max_utc c now + k.
Proof. rewrite !expires_at_min. lia. Qed.

(** ** Intervals *)
(** A renewal is never due at once, and comes before the lease expires
    whenever the lease lasts more than a second. *)
Lemma effective_renew_interval_spec c :
  in_duration (config_ttl c) → in_duration (config_renew_interval c) →
  0 < effective_renew_interval c ∧
  (from_secs 1 < effective_ttl c → effective_renew_interval c < effective_ttl c) ∧
  (config_renew_interval c ≠ 0 → config_renew_interval c < effective_ttl c →
     effective_renew_interval c = config_renew_interval c).
Proof.
  intros [Ht _] [Hr _]. unfold effective_renew_interval.
  assert (∀ k, 2 ≤ k → from_secs 1 < effective_ttl c →
    from_secs_f64 (f64_div (as_secs_f64 (effective_ttl c)) k) < effective_ttl c) as Hdiv.
  { intros k Hk Hs. unfold from_secs, NANOS_PER_SEC in Hs. apply from_secs_f64_div_upper; unfold NANOS_PER_SEC; lia. }
  unfold duration_third, duration_half.
  repeat case_decide; split_and!; intros; try lia; try (unfold from_secs, NANOS_PER_SEC; lia);
    apply Z.max_lub_lt; auto; apply Hdiv; lia.
Qed.

(** With a lease of a second or less, an interval that has to be derived is
    not shorter than the lease. *)
Lemma short_lease_renewed_late c :
  effective_ttl c ≤ from_secs 1 →
  config_renew_interval c = 0 ∨ effective_ttl c ≤ config_renew_interval c →
  effective_ttl c ≤ effective_renew_interval c.
Proof. intros Ht Hr. unfold effective_renew_interval. repeat case_decide; lia. Qed.

(** ** Rely and guarantee *)
Section exclusion.
Context {D DbErr : Type} `{SeaOrmError DbErr, LeaseTableLaws D DbErr}.
Context (max_utc skew : Z) (Hskew : 0 ≤ skew).

Abbreviation world := (lease_world D).
#[local] Abbreviation handle := (handle (DbErr := DbErr) skew).

(** What no other process changes of process [i]. *)
Definition view (i : nat) (w : world) : option (RuntimeLeaseConfig * workload_state * option Z) :=
  (λ p, (sup_config p, sup_workload p, sup_granted p)) <$> supervisors w !! i.

Definition relies (i : nat) (w w' : world) : Prop := view i w' = view i w ∧ clock w ≤ clock w'.

#[export] Instance relies_preorder i : PreOrder (relies i).
Proof. split; [by intros w|]. intros w1 w2 w3 [? ?] [? ?]. split; [congruence|lia]. Qed.

(** A grant of [p] is on record, up to the skew, or it has run out. *)
Definition holds (r : gmap string Model) (now : Z) (c : RuntimeLeaseConfig) (e : Z) : Prop :=
  (∃ m, r !! config_lease_id c = Some m ∧ row_owner_id m = config_owner_id c ∧ e ≤ row_expires_at m + 2 * skew) ∨
  e ≤ now + 3 * skew.

Record lease_inv (w : world) : Prop := {
  inv_distinct i j p q : i ≠ j → supervisors w !! i = Some p → supervisors w !! j = Some q →
    config_lease_id (sup_config p) = config_lease_id (sup_config q) →
    config_owner_id (sup_config p) ≠ config_owner_id (sup_config q);
  inv_granted i p e : supervisors w !! i = Some p → sup_granted p = Some e →
    e ≤ RuntimeLeaseConfig_expires_at max_utc (sup_config p) (clock w + skew) ∧
    holds (rows (database w)) (clock w) (sup_config p) e;
  inv_working i p : supervisors w !! i = Some p → sup_workload p ≠ Idle → sup_granted p ≠ None;
}.

(** What a process may do at each event. *)
Definition allowed (i : nat) (e : lease_event) (w : world) : Prop :=
  match supervisors w !! i with
  | None => False
  | Some p =>
      match e with
      | Insert lease_id row => sup_workload p = Idle ∧ lease_id = config_lease_id (sup_config p)
      | Update lease_id _ u => lease_id = config_lease_id (sup_config p) ∧
          sup_workload p = (if set_owner_id u is Some _ then Idle else Working)
      | Delete lease_id _ => sup_workload p = Idle ∧ lease_id = config_lease_id (sup_config p)
      | StartWorkload => sup_workload p = Idle ∧ sup_granted p ≠ None
      | CancelWorkload => sup_workload p = Working
      | StopWorkload => sup_workload p = Cancelled
      | _ => True
      end
  end.

(** The changes a process makes to the rows: a claim or renewal under a clock
    reading [now], or its release. *)
Definition row_claimed (c : RuntimeLeaseConfig) (now : Z) (r r' : gmap string Model) : Prop :=
  r' = r ∨ ∃ m', row_owner_id m' = config_owner_id c ∧ row_expires_at m' = RuntimeLeaseConfig_expires_at max_utc c now ∧
    (∀ m, r !! config_lease_id c = Some m → row_owner_id m = config_owner_id c ∨ row_expires_at m ≤ now) ∧
    r' = <[config_lease_id c := m']> r.

Definition row_released (c : RuntimeLeaseConfig) (r r' : gmap string Model) : Prop :=
  r' = r ∨ (∀ m, r !! config_lease_id c = Some m → row_owner_id m = config_owner_id c) ∧
    r' = delete (config_lease_id c) r.

(** The grants of the others survive it. *)
Lemma row_step_others c now r r' t q e :
  row_claimed c now r r' ∨ row_released c r r' → now ≤ t + skew →
  (config_lease_id c = config_lease_id q → config_owner_id c ≠ config_owner_id q) →
  holds r t q e → holds r' t q e.
Proof.
  intros Hstep Hnow Hq [(m & Hm & Ho & He)|]; [|by right].
  destruct (decide (config_lease_id c = config_lease_id q)) as [Heq|Hne].
  - specialize (Hq Heq). destruct Hstep as [[->|(m' & Hm' & _ & Hold & ->)]|[->|[Hold ->]]].
    + left. eauto.
    + rewrite <- Heq in Hm. destruct (Hold m Hm); [congruence|]. right. lia.
    + left. eauto.
    + rewrite <- Heq in Hm. specialize (Hold m Hm). congruence.
  - left. exists m. destruct Hstep as [[->|(m' & _ & _ & _ & ->)]|[->|[_ ->]]]; [done| |done|].
    + by rewrite lookup_insert_ne.
    + by rewrite lookup_delete_ne.
Qed.

(** So does the process's own grant, when it claims again later. *)
Lemma row_claimed_own c now r r' t e :
  row_claimed c now r r' → e ≤ RuntimeLeaseConfig_expires_at max_utc c now + 2 * skew → holds r t c e → holds r' t c e.
Proof.
  intros [->|(m' & Ho & He & _ & ->)] Hle Hh; [done|]. left. exists m'.
  rewrite lookup_insert_eq, He. auto.
Qed.

Lemma handle_relies i j e (w : world) x w' : j ≠ i → handle i e w x w' → relies j w w'.
Proof.
  intros Hne Hx. assert (∀ f d, relies j w (with_database d (with_supervisor i f w))) as Hsup.
  { intros f d. split; [|done]. unfold view. cbn. by rewrite list_lookup_alter_ne. }
  assert (∀ d, relies j w (with_database d w)) as Hdb by (intros; by split).
  assert (∀ f, relies j w (with_supervisor i f w)) as Hsup' by (intros; apply (Hsup f (database w))).
  destruct e; cbn in Hx; repeat case_match; destruct_and?; subst; auto; by split.
Qed.

(** One event of process [i] keeps the invariant. *)
Lemma inv_step i p f (w : world) d now :
  lease_inv w → supervisors w !! i = Some p → sup_config (f p) = sup_config p →
  row_claimed (sup_config p) now (rows (database w)) (rows d) ∨
    row_released (sup_config p) (rows (database w)) (rows d) → now ≤ clock w + skew →
  (∀ e, sup_granted (f p) = Some e →
     e ≤ RuntimeLeaseConfig_expires_at max_utc (sup_config p) (clock w + skew) ∧ holds (rows d) (clock w) (sup_config p) e) →
  (sup_workload (f p) ≠ Idle → sup_granted (f p) ≠ None) →
  lease_inv (with_database d (with_supervisor i f w)).
Proof.
  intros HI Hp Hc Hr Hnow Hg Hw.
  assert (∀ j q, alter f i (supervisors w) !! j = Some q →
    j = i ∧ q = f p ∨ j ≠ i ∧ supervisors w !! j = Some q) as Hlook.
  { intros j q. destruct (decide (j = i)) as [->|Hne].
    - rewrite list_lookup_alter_eq, Hp. cbn. intros [= <-]. auto.
    - rewrite list_lookup_alter_ne by done. auto. }
  assert (∀ j q, alter f i (supervisors w) !! j = Some q →
    ∃ q', supervisors w !! j = Some q' ∧ sup_config q = sup_config q') as Hconf.
  { intros j q [[-> ->]|[_ ?]]%Hlook; [exists p; split; [done|by rewrite Hc]|eauto]. }
  split; cbn.
  - intros j k q q' Hne (q1 & Hq1 & ->)%Hconf (q2 & Hq2 & ->)%Hconf. by eapply (inv_distinct w HI j k).
  - intros j q e [[-> ->]|[Hne Hj]]%Hlook He; [rewrite Hc; auto|].
    destruct (inv_granted w HI j q e Hj He) as [? Hh]. split; [done|].
    eapply row_step_others; [done..| |done]. intros Heq. by apply (inv_distinct w HI i j).
  - intros j q [[-> ->]|[Hne Hj]]%Hlook; [done|]. by apply (inv_working w HI j).
Qed.

Lemma inv_environment (w w' : world) : lease_inv w → environment w w' → lease_inv w' ∧ ∀ i, relies i w w'.
Proof.
  intros HI Hw. destruct Hw as [t w Ht|i w].
  - split; [|by intros i; split]. split; cbn; [apply HI| |apply HI].
    intros i p e Hp He. destruct (inv_granted w HI i p e Hp He) as [Hb Hh].
    pose proof (expires_at_mono max_utc (sup_config p) (clock w + skew) (t + skew) ltac:(lia)).
    split; [lia|]. destruct Hh as [?|?]; [by left|right; lia].
  - split.
    + destruct (supervisors w !! i) as [p|] eqn:Hp.
      * apply (inv_step i p set_shutdown w (database w) (clock w)); try done; [by left; left|lia| |].
        -- intros e. apply (inv_granted w HI i p e Hp).
        -- apply (inv_working w HI i p Hp).
      * replace (with_supervisor i set_shutdown w) with w; [done|].
        destruct w as [d t ps]. unfold with_supervisor. cbn. f_equal. apply list_eq. intros j.
        destruct (decide (j = i)) as [->|]; [|by rewrite list_lookup_alter_ne].
        cbn in Hp. by rewrite list_lookup_alter_eq, Hp.
    + intros j. split; [|done]. unfold view. cbn. destruct (decide (j = i)) as [->|].
      * rewrite list_lookup_alter_eq. by destruct (supervisors w !! i).
      * by rewrite list_lookup_alter_ne.
Qed.

(** ** One event at a time

    The state of process [i]: its settings, its workload and its grant; and
    what it knows of a clock reading. *)
#[local] Abbreviation Act := (Process.Act (answer := answer DbErr)).
#[local] Abbreviation safe := (safe handle (lease_inv) relies allowed).

Definition local (i : nat) (c : RuntimeLeaseConfig) (s : workload_state) (g : option Z) (w : world) : Prop :=
  view i w = Some (c, s, g).

Definition fresh (c : RuntimeLeaseConfig) (g : option Z) (now : Z) (w : world) : Prop :=
  now ≤ clock w + skew ∧ ∀ e, g = Some e → e ≤ RuntimeLeaseConfig_expires_at max_utc c now + 2 * skew.

Lemma local_sup i c s g w : local i c s g w →
  ∃ p, supervisors w !! i = Some p ∧ sup_config p = c ∧ sup_workload p = s ∧ sup_granted p = g.
Proof. unfold local, view. destruct (supervisors w !! i) as [p|]; cbn; [|done]. intros [= <- <- <-]. eauto. Qed.

Lemma local_relies i c s g w w' : local i c s g w → relies i w w' → local i c s g w'.
Proof. unfold local. by intros ? [-> _]. Qed.

Lemma fresh_relies i c g now w w' : fresh c g now w → relies i w w' → fresh c g now w'.
Proof. intros [? ?] [_ ?]. split; [lia|done]. Qed.

Lemma local_with i c s g w d f p :
  supervisors w !! i = Some p → (sup_config (f p), sup_workload (f p), sup_granted (f p)) = (c, s, g) →
  local i c s g (with_database d (with_supervisor i f w)).
Proof. intros Hp Hf. unfold local, view. cbn. rewrite list_lookup_alter_eq, Hp. cbn. by rewrite Hf. Qed.

Lemma safe_event {A} i (Φ : A → world → Prop) e k w :
  (∀ w1, relies i w w1 → lease_inv w1 →
     allowed i e w1 ∧ ∀ x w2, handle i e w1 x w2 → lease_inv w2 ∧ safe i Φ (k x) w2) →
  safe i Φ (Act e k) w.
Proof.
  intros Hk w1 HR HI. destruct (Hk w1 HR HI) as [Ha Hx]. split; [done|]. intros x w2 Hw2.
  destruct (Hx x w2 Hw2) as [HI2 Hs]. split_and!; [done| |done]. intros j Hj. by eapply handle_relies.
Qed.

(** An event that changes nothing. *)
Lemma safe_look {A} i (Φ : A → world → Prop) e k c s g w :
  local i c s g w → (∀ w1, local i c s g w1 → allowed i e w1) →
  (∀ w1 x w2, local i c s g w1 → handle i e w1 x w2 → w2 = w1) →
  (∀ x w2, local i c s g w2 → safe i Φ (k x) w2) →
  safe i Φ (Act e k) w.
Proof.
  intros Hl Ha Hh Hk. apply safe_event. intros w1 HR HI. eapply local_relies in Hl; [|done].
  split; [auto|]. intros x w2 Hx. rewrite (Hh w1 x w2 Hl Hx). auto.
Qed.

Lemma safe_cancelled {A} i (Φ : A → world → Prop) k c s g w :
  local i c s g w → (∀ b w2, local i c s g w2 → safe i Φ (k b) w2) →
  safe i Φ (Act IsCancelled k) w.
Proof.
  intros Hl Hk. eapply safe_look; [done| | |done].
  - intros w1 (p & Hp & _)%local_sup. unfold allowed. by rewrite Hp.
  - by intros w1 x w2 _ [_ ->].
Qed.

Lemma safe_select {A} i (Φ : A → world → Prop) d k c s g w :
  local i c s g w → (∀ b w2, local i c s g w2 → safe i Φ (k b) w2) →
  safe i Φ (Act (SleepOrShutdown d) k) w.
Proof.
  intros Hl Hk. eapply safe_look; [done| | |done].
  - intros w1 (p & Hp & _)%local_sup. unfold allowed. by rewrite Hp.
  - by intros w1 x w2 _ [_ ->].
Qed.

(** A reading of the clock is fresh: the grant is not newer than a claim
    under this reading would be, up to the skew. *)
Lemma safe_now {A} i (Φ : A → world → Prop) k c s g w :
  local i c s g w → (∀ now w2, local i c s g w2 → fresh c g now w2 → safe i Φ (k now) w2) →
  safe i Φ (Act Now k) w.
Proof.
  intros Hl Hk. apply safe_event. intros w1 HR HI. eapply local_relies in Hl; [|done].
  destruct (local_sup _ _ _ _ _ Hl) as (p & Hp & <- & <- & <-).
  split; [unfold allowed; by rewrite Hp|]. intros now w2 [Hnow ->]. split; [done|].
  apply Hk; [done|]. split; [lia|]. intros e He.
  destruct (inv_granted w1 HI i p e Hp He) as [Hb _].
  pose proof (expires_at_shift max_utc (sup_config p) now (2 * skew) ltac:(lia)).
  pose proof (expires_at_mono max_utc (sup_config p) (clock w1 + skew) (now + 2 * skew) ltac:(lia)). lia.
Qed.

Lemma safe_find {A} i (Φ : A → world → Prop) k c s g now lease_id w :
  local i c s g w → fresh c g now w →
  (∀ r w2, local i c s g w2 → fresh c g now w2 → safe i Φ (k r) w2) →
  safe i Φ (Act (Find lease_id) k) w.
Proof.
  intros Hl Hf Hk. apply safe_event. intros w1 HR HI.
  eapply local_relies in Hl; [|done]. eapply fresh_relies in Hf; [|done].
  destruct (local_sup _ _ _ _ _ Hl) as (p & Hp & <- & <- & <-).
  split; [unfold allowed; by rewrite Hp|]. intros r w2 Hx. cbn in Hx.
  pose proof (find_law lease_id (database w1)) as Hlaw.
  destruct (lease_find lease_id (database w1)) as [r' d]. destruct Hx as [-> ->].
  assert (rows d = rows (database w1)) as Hd by (destruct r'; naive_solver).
  split; [|by apply Hk].
  split; cbn; [apply HI|rewrite Hd; apply HI|apply HI].
Qed.

(** A statement that claims or renews, and its acknowledgement. *)
Lemma inv_claim i p (w : world) d now g :
  lease_inv w → supervisors w !! i = Some p → fresh (sup_config p) (sup_granted p) now w →
  row_claimed (sup_config p) now (rows (database w)) (rows d) →
  g = None ∨ g = Some (RuntimeLeaseConfig_expires_at max_utc (sup_config p) now) ∧
    (∃ m, rows d !! config_lease_id (sup_config p) = Some m ∧
       row_owner_id m = config_owner_id (sup_config p) ∧ row_expires_at m = RuntimeLeaseConfig_expires_at max_utc (sup_config p) now) →
  lease_inv (with_database d
    (if g is Some e then with_supervisor i (set_granted (Some e)) w else w)).
Proof.
  intros HI Hp [Hnow Hf] Hr Hg.
  assert (∀ e, sup_granted p = Some e → e ≤ RuntimeLeaseConfig_expires_at max_utc (sup_config p) (clock w + skew) ∧
    holds (rows d) (clock w) (sup_config p) e) as Hown.
  { intros e He. destruct (inv_granted w HI i p e Hp He) as [? Hh]. split; [done|].
    eapply row_claimed_own; eauto. }
  destruct Hg as [->|[-> (m & Hm & Ho & He)]].
  - pose proof (inv_step i p (λ p, p) w d now HI Hp eq_refl (or_introl Hr) Hnow) as Hi.
    unfold with_supervisor in Hi. rewrite list_alter_id in Hi by done. destruct w. apply Hi; [auto|].
    by apply (inv_working _ HI i).
  - apply (inv_step i p (set_granted (Some _)) w d now HI Hp eq_refl (or_introl Hr) Hnow); [|done]. cbn. intros e [= <-].
    split; [by apply expires_at_mono|]. left. exists m. split_and!; [done..|lia].
Qed.

Lemma updated_rows_claimed c now f u r :
  (∀ m, f m = true → row_owner_id m = config_owner_id c ∨
     (set_owner_id u = Some (config_owner_id c) ∧ row_expires_at m ≤ now)) →
  set_owner_id u = None ∨ set_owner_id u = Some (config_owner_id c) →
  set_expires_at u = RuntimeLeaseConfig_expires_at max_utc c now →
  row_claimed c now r (updated_rows (config_lease_id c) f u r) ∧
  ((∃ m, r !! config_lease_id c = Some m ∧ f m = true) →
     ∃ m, updated_rows (config_lease_id c) f u r !! config_lease_id c = Some m ∧
       row_owner_id m = config_owner_id c ∧ row_expires_at m = RuntimeLeaseConfig_expires_at max_utc c now).
Proof.
  intros Hf Ho He. unfold updated_rows. destruct (r !! config_lease_id c) as [m|] eqn:Hm.
  2: { split; [by left|]. by intros (m & ? & _). }
  destruct (f m) eqn:Hfm.
  - assert (row_owner_id (apply_update u m) = config_owner_id c) as Hown.
    { destruct (Hf m Hfm) as [Hx|[Hx _]]; cbn; rewrite ?Hx; [|done]. destruct Ho as [-> | ->]; done. }
    split.
    + right. exists (apply_update u m). split_and!; [done|done| |done]. rewrite Hm. intros ? [= <-].
      destruct (Hf m Hfm) as [?|[_ ?]]; auto.
    + intros _. exists (apply_update u m). by rewrite lookup_insert_eq.
  - split; [by left|]. intros (m' & [= <-] & ?). congruence.
Qed.

Lemma safe_insert {A} i (Φ : A → world → Prop) k c g now row w :
  local i c Idle g w → fresh c g now w →
  row_owner_id row = config_owner_id c → row_expires_at row = RuntimeLeaseConfig_expires_at max_utc c now →
  (∀ w2, local i c Idle (Some (RuntimeLeaseConfig_expires_at max_utc c now)) w2 → safe i Φ (k (Ok tt)) w2) →
  (∀ e w2, local i c Idle g w2 → fresh c g now w2 → safe i Φ (k (Err e)) w2) →
  safe i Φ (Act (Insert (config_lease_id c) row) k) w.
Proof.
  intros Hl Hf Ho He Hok Herr. apply safe_event. intros w1 HR HI.
  eapply local_relies in Hl; [|done]. eapply fresh_relies in Hf; [|done].
  destruct (local_sup _ _ _ _ _ Hl) as (p & Hp & <- & Hidle & <-).
  split; [unfold allowed; by rewrite Hp|]. intros r w2 Hx. cbn in Hx.
  pose proof (insert_law (config_lease_id (sup_config p)) row (database w1)) as Hlaw.
  destruct (lease_insert _ _ _) as [r' d]. destruct Hx as [-> ->].
  assert (rows (database w1) !! config_lease_id (sup_config p) = None →
    rows d = <[config_lease_id (sup_config p) := row]> (rows (database w1)) →
    row_claimed (sup_config p) now (rows (database w1)) (rows d)) as Hclaim.
  { intros Hnone Hd. right. exists row. rewrite Hnone. split_and!; [done..|by intros ? [=]|done]. }
  destruct r' as [[]|e].
  - destruct Hlaw as [Hnone Hd]. rewrite He. split.
    + apply (inv_claim i p w1 d now (Some (RuntimeLeaseConfig_expires_at max_utc (sup_config p) now)) HI Hp Hf); [auto|].
      right. split; [done|]. exists row. by rewrite Hd, lookup_insert_eq.
    + apply Hok. eapply local_with; [done|]. cbn. by rewrite Hidle.
  - split; [|by apply Herr].
    apply (inv_claim i p w1 d now None HI Hp Hf); [|by left]. destruct Hlaw as [?|[? ?]]; [by left|auto].
Qed.

Lemma safe_update {A} i (Φ : A → world → Prop) k c s g now f u w :
  local i c s g w → fresh c g now w →
  s = (if set_owner_id u is Some _ then Idle else Working) →
  (∀ m, f m = true → row_owner_id m = config_owner_id c ∨
     (set_owner_id u = Some (config_owner_id c) ∧ row_expires_at m ≤ now)) →
  set_owner_id u = None ∨ set_owner_id u = Some (config_owner_id c) →
  set_expires_at u = RuntimeLeaseConfig_expires_at max_utc c now →
  (∀ w2, local i c s (Some (RuntimeLeaseConfig_expires_at max_utc c now)) w2 → safe i Φ (k (Ok 1)) w2) →
  (∀ r w2, r ≠ Ok 1 → local i c s g w2 → fresh c g now w2 → safe i Φ (k r) w2) →
  safe i Φ (Act (Update (config_lease_id c) f u) k) w.
Proof.
  intros Hl Hf Hs Hfilter Ho He Hok Herr. apply safe_event. intros w1 HR HI.
  eapply local_relies in Hl; [|done]. eapply fresh_relies in Hf; [|done].
  destruct (local_sup _ _ _ _ _ Hl) as (p & Hp & <- & Hst & <-).
  split; [unfold allowed; by rewrite Hp, Hst|]. intros r w2 Hx. cbn in Hx.
  pose proof (update_law (config_lease_id (sup_config p)) f u (database w1)) as Hlaw.
  destruct (lease_update _ _ _ _) as [r' d]. destruct Hx as [-> ->].
  destruct (updated_rows_claimed (sup_config p) now f u (rows (database w1)) Hfilter Ho He) as [Hc Hm].
  assert (r' = Ok 1 ∨ r' ≠ Ok 1) as [->|Hne].
  { destruct r' as [n|]; [destruct (decide (n = 1)) as [->|]|]; [by left|right; congruence..]. }
  - destruct Hlaw as [Hd [Hex _]]. rewrite He. split.
    + apply (inv_claim i p w1 d now (Some (RuntimeLeaseConfig_expires_at max_utc (sup_config p) now)) HI Hp Hf); [by rewrite Hd|].
      right. split; [done|]. rewrite Hd. auto.
    + apply Hok. eapply local_with; [done|]. cbn. by rewrite Hst.
  - replace (match r' with Ok 1 => with_supervisor i (set_granted (Some (set_expires_at u))) w1 | _ => w1 end)
      with w1 by (by repeat case_match).
    split; [|by apply Herr].
    apply (inv_claim i p w1 d now None HI Hp Hf); [|by left].
    destruct r'; [destruct Hlaw as [-> _]; done|destruct Hlaw as [?|Hd]; [by left|by rewrite Hd]].
Qed.

Lemma safe_delete {A} i (Φ : A → world → Prop) k c g w :
  local i c Idle g w → (∀ r w2, local i c Idle None w2 → safe i Φ (k r) w2) →
  safe i Φ (Act (Delete (config_lease_id c) (owned_by (config_owner_id c))) k) w.
Proof.
  intros Hl Hk. apply safe_event. intros w1 HR HI. eapply local_relies in Hl; [|done].
  destruct (local_sup _ _ _ _ _ Hl) as (p & Hp & <- & Hst & <-).
  split; [unfold allowed; by rewrite Hp|]. intros r w2 Hx. cbn in Hx.
  pose proof (delete_law (config_lease_id (sup_config p)) (owned_by (config_owner_id (sup_config p)))
    (database w1)) as Hlaw.
  destruct (lease_delete _ _ _) as [r' d]. destruct Hx as [-> ->]. split.
  - apply (inv_step i p (set_granted None) w1 d (clock w1) HI Hp eq_refl); [|lia|done|cbn; by rewrite Hst]. right.
    assert (row_released (sup_config p) (rows (database w1)) (remaining_rows (config_lease_id (sup_config p))
      (owned_by (config_owner_id (sup_config p))) (rows (database w1)))) as Hrel.
    { unfold remaining_rows. destruct (rows (database w1) !! config_lease_id (sup_config p)) as [m|] eqn:Hm; [|by left].
      unfold owned_by. case_bool_decide as Ho; [|by left]. right. rewrite Hm. split; [by intros ? [= <-]|done]. }
    destruct r'; [by rewrite Hlaw|destruct Hlaw as [?|Hd]; [by left|by rewrite Hd]].
  - apply Hk. eapply local_with; [done|]. cbn. by rewrite Hst.
Qed.

(** The workload. *)
Lemma safe_workload {A} i (Φ : A → world → Prop) e k c s s' g w :
  local i c s g w →
  match e with
  | StartWorkload => s = Idle ∧ s' = Working ∧ g ≠ None
  | CancelWorkload => s = Working ∧ s' = Cancelled
  | StopWorkload => s = Cancelled ∧ s' = Idle
  | _ => False
  end →
  (∀ x w2, local i c s' g w2 → safe i Φ (k x) w2) →
  safe i Φ (Act e k) w.
Proof.
  intros Hl He Hk. apply safe_event. intros w1 HR HI. eapply local_relies in Hl; [|done].
  destruct (local_sup _ _ _ _ _ Hl) as (p & Hp & <- & Hst & <-).
  assert (handle i e w1 = λ _ w2, w2 = with_supervisor i (set_workload s') w1) as Hhandle.
  { destruct e; cbn; destruct_and?; subst; try done. }
  split; [unfold allowed; rewrite Hp; destruct e; naive_solver|].
  rewrite Hhandle. intros x w2 ->. split.
  - apply (inv_step i p (set_workload s') w1 (database w1) (clock w1) HI Hp eq_refl); [by left; left|lia| |].
    { intros x' Hx'. by apply (inv_granted w1 HI i). }
    cbn. intros Hs'. destruct e; destruct_and?; subst; try done.
    apply (inv_working w1 HI i p Hp). congruence.
  - apply Hk. by eapply (local_with i _ _ _ w1 (database w1)).
Qed.

(** ** The programs *)
#[local] Ltac next := cbn [mbind prog_bind_inst prog_bind RuntimeLease.act Process.act mret prog_ret_inst
  map_err sleep_or_shutdown].

Lemma owned_loop_safe {A} i (Φ : A → world → Prop) (k : option unit → prog (answer DbErr) A) c fuel :
  (∀ g w, local i c Idle g w → safe i Φ (k (Some tt)) w) → (∀ w, safe i Φ (k None) w) →
  ∀ e w, local i c Working (Some e) w → safe i Φ (owned_loop max_utc fuel c ≫= k) w.
Proof.
  intros Hend Hnone. induction fuel as [|fuel IH]; intros e w Hl; [apply Hnone|].
  assert (∀ g w, local i c Working g w → ∀ k', (∀ g w, local i c Idle g w → safe i Φ k' w) →
    safe i Φ (Act CancelWorkload (λ _, Act StopWorkload (λ _, k'))) w) as Hstop.
  { intros g w1 Hl1 k' Hk'. eapply safe_workload; [exact Hl1|split; reflexivity|]. intros _ w2 Hl2.
    eapply safe_workload; [exact Hl2|split; reflexivity|]. intros _ w3. apply Hk'. }
  cbn [owned_loop]. next. eapply safe_select; [done|]. intros [] w1 Hl1; next.
  - eapply Hstop; [done|]. intros g w2 Hl2. eapply safe_delete; [done|].
    intros r w3 Hl3. next. by eapply Hend.
  - eapply safe_now; [done|]. intros now w2 Hl2 Hf. cbn [renew RuntimeLeaseDbStore]. unfold renew_lease. next.
    eapply safe_update; [done|done|done| |by left|done| |].
    + intros m Hm%bool_decide_eq_true. by left.
    + intros w3 Hl3. next. by eapply IH.
    + intros [n|err] w3 Hne Hl3 _; next; [rewrite bool_decide_false by congruence|]; next;
        eapply Hstop; try done; intros g w4; apply Hend.
Qed.

Definition ended (i : nat) (r : option unit) (w : world) : Prop :=
  r = Some tt → ∃ c g, local i c Idle g w.

Lemma ended_stable i : stable lease_inv relies i (ended i).
Proof. intros r w w' He HR _ Hr. destruct (He Hr) as (c & g & Hl). exists c, g. by eapply local_relies. Qed.

Lemma supervisor_safe i c fuel : ∀ g w,
  local i c Idle g w → safe i (ended i) (run_runtime_lease_supervisor max_utc fuel c) w.
Proof.
  induction fuel as [|fuel IH]; intros g w Hl; [done|].
  cbn [run_runtime_lease_supervisor]. next. eapply safe_cancelled; [done|]. intros [] w1 Hl1; next.
  { intros _. by exists c, g. }
  assert (∀ g w2, local i c Idle g w2 → safe i (ended i)
    (prog_bind (λ _, run_runtime_lease_supervisor max_utc fuel c)
       (RuntimeLease.act (SleepOrShutdown (effective_standby_retry_interval c)))) w2) as Hwait.
  { intros g' w2 Hl2. next. eapply safe_select; [done|]. intros b w3 Hl3. next. by eapply IH. }
  assert (∀ e w2, local i c Idle (Some e) w2 → safe i (ended i)
    (prog_bind (λ r, match r with None => mret None | Some _ => run_runtime_lease_supervisor max_utc fuel c end)
       (run_owned_runtime_lease max_utc fuel c)) w2) as Howned.
  { intros e w2 Hl2. unfold run_owned_runtime_lease. next.
    eapply safe_workload; [done|by split_and!|]. intros _ w3 Hl3.
    eapply (owned_loop_safe i (ended i)
      (λ r, match r with None => mret None | Some _ => run_runtime_lease_supervisor max_utc fuel c end)); [|done|done].
    intros g' w4 Hl4. by eapply IH. }
  eapply safe_now; [done|]. intros now w2 Hl2 Hf2. cbn [try_acquire RuntimeLeaseDbStore].
  unfold try_insert_lease, acquire_existing_lease, claim_lease_id, claim_owner_id, claim_now, claim_expires_at. next.
  eapply safe_insert; [done|done|done|done| |].
  { intros w3 Hl3. next. by eapply Howned. }
  intros err w3 Hl3 Hf3. next. eapply safe_find; [done|done|]. intros [[row|]|e] w4 Hl4 Hf4; next; try by eapply Hwait.
  case_match eqn:Hb; next; [by eapply Hwait|].
  eapply safe_update; [done|done|done| |by right|done| |].
  - intros m [->%bool_decide_eq_true|?%bool_decide_eq_true]%orb_true_iff; auto.
  - intros w5 Hl5. next. by eapply Howned.
  - intros [n|e] w5 Hne Hl5 Hf5; next; [|by eapply Hwait].
    rewrite decide_False by congruence. next. eapply safe_find; [done|done|].
    intros [[m|]|e] w6 Hl6 _; next; by eapply Hwait.
Qed.
End exclusion.

(** ** Stopping *)
Section stopping.
Context {DbErr : Type} `{SeaOrmError DbErr} (max_utc : Z).

#[local] Abbreviation Act := (Process.Act (answer := answer DbErr)).

(** The answers of a cancelled token. *)
Definition told_to_stop (e : lease_event) : answer DbErr e → Prop :=
  match e with IsCancelled | SleepOrShutdown _ => λ x, x = true | _ => λ _, True end.

Definition stops_in (n : nat) {A} (p : prog (answer DbErr) A) : Prop := ends_in told_to_stop n p.
Definition always_stops {A} : prog (answer DbErr) A → Prop := all_points (stops_in 10).

#[local] Ltac next := cbn [mbind prog_bind_inst prog_bind RuntimeLease.act Process.act mret prog_ret_inst
  map_err sleep_or_shutdown].

Lemma stops_act {A} n e (k : answer DbErr e → prog (answer DbErr) A) :
  (∀ x, told_to_stop e x → stops_in n (k x)) → stops_in (S n) (Act e k).
Proof. done. Qed.

(** A program whose every continuation always stops, and that itself stops. *)
Lemma always_act {A} n e (k : answer DbErr e → prog (answer DbErr) A) :
  (n < 10)%nat → (∀ x, always_stops (k x)) → (∀ x, told_to_stop e x → stops_in n (k x)) →
  always_stops (Act e k) ∧ stops_in (S n) (Act e k).
Proof.
  intros Hn Hk Hs. split; [|by apply stops_act]. split; [|done].
  eapply ends_in_mono; [|by apply stops_act]. lia.
Qed.

Lemma always_return {A} (a : A) : always_stops (Return a) ∧ stops_in 0 (Return a).
Proof. by repeat split. Qed.

Lemma stops_mono {A} n m (p : prog (answer DbErr) A) : (n ≤ m)%nat → stops_in n p → stops_in m p.
Proof. apply ends_in_mono. Qed.

(** Both at once, with the bound. *)
Definition bounded (n : nat) {A} (p : prog (answer DbErr) A) : Prop := always_stops p ∧ stops_in n p.

Lemma bounded_mono {A} n m (p : prog (answer DbErr) A) : (n ≤ m)%nat → bounded n p → bounded m p.
Proof. intros ? []. split; [done|by eapply stops_mono]. Qed.

Lemma bounded_act {A} n e (k : answer DbErr e → prog (answer DbErr) A) :
  (n < 10)%nat → (∀ x, bounded n (k x)) → bounded (S n) (Act e k).
Proof. intros Hn Hk. apply always_act; [done|intros; apply Hk|intros; apply Hk]. Qed.

Lemma bounded_wait {A} n m e (k : answer DbErr e → prog (answer DbErr) A) :
  (n < 10)%nat → (∀ x, told_to_stop e x → bounded n (k x)) → (∀ x, bounded m (k x)) →
  bounded (S n) (Act e k).
Proof. intros Hn Hk Hm. apply always_act; [done|intros; apply Hm|intros; by apply Hk]. Qed.

Lemma owned_loop_bounded {A} (k : option unit → prog (answer DbErr) A) c fuel :
  (∀ r, bounded 1 (k r)) → bounded 5 (owned_loop max_utc fuel c ≫= k).
Proof.
  intros Hk. assert (∀ r, bounded 3 (Act CancelWorkload (λ _, Act StopWorkload (λ _, k r)))) as Hstop.
  { intros r. apply bounded_act; [lia|]. intros _. apply bounded_act; [lia|]. intros _. apply Hk. }
  induction fuel as [|fuel IH]; [apply (bounded_mono 1); [lia|apply Hk]|].
  cbn [owned_loop]. next.
  assert (bounded 4 (Act CancelWorkload (λ _, Act StopWorkload (λ _,
    prog_bind k (prog_bind (λ _, Return (Some tt)) (release (config_lease_id c) (config_owner_id c))))))) as Hrel.
  { do 2 (apply bounded_act; [lia|]; intros _). cbn [release RuntimeLeaseDbStore]. unfold release_lease. next.
    apply bounded_act; [lia|]. intros r. next. apply Hk. }
  eapply (bounded_wait 4 7); [lia|by intros [] [=]|]. intros []; next; [by apply (bounded_mono 4); [lia|]|].
  apply bounded_act; [lia|]. intros now. cbn [renew RuntimeLeaseDbStore]. unfold renew_lease. next.
  apply bounded_act; [lia|]. intros [n|e]; next; [case_match|]; [exact IH|..]; next;
    apply (bounded_mono 3); try lia; apply Hstop.
Qed.

Lemma supervisor_bounded c fuel : bounded 1 (run_runtime_lease_supervisor max_utc fuel c).
Proof.
  induction fuel as [|fuel IH]; [by apply (bounded_mono 0); [lia|apply always_return]|].
  cbn [run_runtime_lease_supervisor]. next.
  apply (bounded_wait 0 10); [lia|intros [] [=]; apply always_return|].
  intros []; next; [by apply (bounded_mono 0); [lia|apply always_return]|].
  apply bounded_act; [lia|]. intros now. cbn [try_acquire RuntimeLeaseDbStore].
  unfold try_insert_lease, acquire_existing_lease, run_owned_runtime_lease.
  assert (bounded 2 (prog_bind (λ _, run_runtime_lease_supervisor max_utc fuel c)
    (RuntimeLease.act (SleepOrShutdown (effective_standby_retry_interval c))))) as Hwait.
  { next. apply bounded_act; [lia|]. intros b. next. exact IH. }
  assert (bounded 6 (prog_bind
    (λ r, match r with None => mret None | Some _ => run_runtime_lease_supervisor max_utc fuel c end)
    (run_owned_runtime_lease max_utc fuel c))) as Howned.
  { unfold run_owned_runtime_lease. next. apply bounded_act; [lia|]. intros _.
    apply (owned_loop_bounded
      (λ r, match r with None => mret None | Some _ => run_runtime_lease_supervisor max_utc fuel c end)).
    intros [[]|]; [exact IH|]. apply (bounded_mono 0); [lia|]. apply always_return. }
  next. apply bounded_act; [lia|]. intros [[]|err]; next.
  { by apply (bounded_mono 6); [lia|]. }
  apply bounded_act; [lia|]. intros [[row|]|e]; next; try by (apply (bounded_mono 2); [lia|]).
  destruct (bool_decide _ && bool_decide _); next; [by apply (bounded_mono 2); [lia|]|].
  apply bounded_act; [lia|]. intros [n|e]; next; [case_decide|]; next; try by (apply (bounded_mono 2); [lia|]).
  - exact Howned.
  - apply (bounded_mono 3); [lia|]. apply bounded_act; [lia|]. intros [[m|]|e]; next; exact Hwait.
Qed.

(** A supervisor does not run out of turns before as many events. *)
Lemma returns_after_mono {A} (a : A) n m (p : prog (answer DbErr) A) :
  (m ≤ n)%nat → returns_after a n p → returns_after a m p.
Proof.
  revert n p. induction m as [|m IH]; intros [|n] p Hm; try done; [lia|].
  destruct p as [b|e k]; cbn; [done|]. intros Hk x. eapply IH, Hk. lia.
Qed.

Lemma returns_after_act {A} (a : A) n e (k : answer DbErr e → prog (answer DbErr) A) :
  (∀ x, returns_after a n (k x)) → returns_after a n (Act e k).
Proof. destruct n as [|n]; [done|]. intros Hk x. eapply returns_after_mono, Hk. lia. Qed.

Lemma owned_loop_returns (k : option unit → prog (answer DbErr) (option unit)) c fuel : ∀ n,
  (n ≤ fuel)%nat → returns_after None n (k (Some tt)) →
  returns_after None n (owned_loop max_utc fuel c ≫= k).
Proof.
  induction fuel as [|fuel IH]; intros [|n] Hn Hk; try done; [lia|].
  cbn [owned_loop]. next. intros []; next.
  - assert (returns_after None n (k (Some tt))) by (by eapply returns_after_mono; [|done]; lia).
    do 2 (apply returns_after_act; intros _). cbn [release RuntimeLeaseDbStore]. unfold release_lease. next.
    by apply returns_after_act.
  - assert (returns_after None n (k (Some tt))) by (by eapply returns_after_mono; [|done]; lia).
    apply returns_after_act. intros now. cbn [renew RuntimeLeaseDbStore]. unfold renew_lease. next.
    apply returns_after_act. intros [m|e]; next; [case_match|]; next.
    + apply IH; [lia|done].
    + by do 2 (apply returns_after_act; intros _).
    + by do 2 (apply returns_after_act; intros _).
Qed.

Lemma supervisor_returns c fuel : ∀ n, (n ≤ fuel)%nat →
  returns_after None n (run_runtime_lease_supervisor max_utc fuel c).
Proof.
  induction fuel as [|fuel IH]; intros [|n] Hn; try done; [lia|].
  cbn [run_runtime_lease_supervisor]. next. intros []; next; [by destruct n|].
  assert (returns_after None n (run_runtime_lease_supervisor max_utc fuel c)) as Hrun by (apply IH; lia).
  assert (returns_after None n (prog_bind (λ _, run_runtime_lease_supervisor max_utc fuel c)
    (RuntimeLease.act (SleepOrShutdown (effective_standby_retry_interval c))))) as Hwait.
  { next. apply returns_after_act. intros b. exact Hrun. }
  assert (returns_after None n (prog_bind
    (λ r, match r with None => mret None | Some _ => run_runtime_lease_supervisor max_utc fuel c end)
    (run_owned_runtime_lease max_utc fuel c))) as Howned.
  { unfold run_owned_runtime_lease. next. apply returns_after_act. intros _.
    apply (owned_loop_returns
      (λ r, match r with None => mret None | Some _ => run_runtime_lease_supervisor max_utc fuel c end)); [lia|done]. }
  apply returns_after_act. intros now. cbn [try_acquire RuntimeLeaseDbStore].
  unfold try_insert_lease, acquire_existing_lease. next.
  apply returns_after_act. intros [[]|err]; next; [exact Howned|].
  apply returns_after_act. intros [[row|]|e]; next; try exact Hwait.
  destruct (bool_decide _ && bool_decide _); next; [exact Hwait|]. apply returns_after_act. intros [m|e]; next; [case_decide|]; next; try exact Hwait.
  - exact Howned.
  - apply returns_after_act. intros [[m'|]|e]; next; exact Hwait.
Qed.
End stopping.

(** ** The system of all supervisors *)
Section lease_system.
Context {D DbErr : Type} `{SeaOrmError DbErr, LeaseTableLaws D DbErr}.
Context (max_utc skew : Z) (Hskew : 0 ≤ skew).

Definition lease_system (fuel : nat) (configs : list RuntimeLeaseConfig) (d : D) (t : Z)
    : system (answer DbErr) (lease_world D) (option unit) :=
  (run_runtime_lease_supervisor max_utc fuel <$> configs, lease_start configs d t).

(** No two supervisors of one lease share an owner id. *)
Definition distinct_owners (configs : list RuntimeLeaseConfig) : Prop :=
  ∀ i j c c', i ≠ j → configs !! i = Some c → configs !! j = Some c' →
    config_lease_id c = config_lease_id c' → config_owner_id c ≠ config_owner_id c'.

Abbreviation lease_steps := (sys_steps (A := option unit) (handle (D := D) (DbErr := DbErr) skew) environment).
Abbreviation lease_steps_of := (steps_of (A := option unit) (handle (D := D) (DbErr := DbErr) skew) environment).

Lemma lease_start_lookup configs (d : D) t i p :
  supervisors (lease_start configs d t) !! i = Some p ↔
  ∃ c, configs !! i = Some c ∧ p = mk_supervisor c false Idle None.
Proof. cbn. rewrite list_lookup_fmap. destruct (configs !! i); cbn; naive_solver. Qed.

Lemma lease_system_safe fuel configs d t c :
  distinct_owners configs → lease_steps (lease_system fuel configs d t) c →
  all_safe (handle skew) (lease_inv max_utc skew) relies allowed (λ i, ended i) c.
Proof.
  intros Hd. apply safe_reachable.
  - intros i. apply _.
  - intros i. apply ended_stable.
  - intros w w'. by apply inv_environment.
  - split; cbn.
    + split.
      * intros i j p q Hne (ci & Hi & ->)%lease_start_lookup (cj & Hj & ->)%lease_start_lookup. by apply (Hd i j).
      * by intros i p e (ci & _ & ->)%lease_start_lookup.
      * by intros i p (ci & _ & ->)%lease_start_lookup.
    + intros i p. rewrite list_lookup_fmap. destruct (configs !! i) as [ci|] eqn:Hi; cbn; [|done].
      intros [= <-]. apply (supervisor_safe max_utc skew Hskew i ci fuel None).
      unfold local, view. cbn. by rewrite list_lookup_fmap, Hi.
Qed.

Lemma is_shutdown_step l (c c' : system (answer DbErr) (lease_world D) (option unit)) i :
  is_shutdown i c.2 = true → sys_step (handle skew) environment l c c' → is_shutdown i c'.2 = true.
Proof.
  assert (∀ j f (w : lease_world D) d, (∀ p, sup_shutdown p = true → sup_shutdown (f p) = true) →
    is_shutdown i w = true → is_shutdown i (with_database d (with_supervisor j f w)) = true) as Halter.
  { intros j f w d Hf. unfold is_shutdown. cbn. destruct (decide (i = j)) as [->|].
    - rewrite list_lookup_alter_eq. destruct (supervisors w !! j); cbn; auto.
    - by rewrite list_lookup_alter_ne. }
  intros Hs Hc. destruct Hc as [j e k x ps w w' _ Hx|ps w w' [t w1 _|j w1]]; cbn in *.
  - assert (∀ f, (∀ p, sup_shutdown p = true → sup_shutdown (f p) = true) →
      is_shutdown i (with_supervisor j f w) = true) as Hw by (intros; by apply (Halter j f w (database w))).
    destruct e; cbn in Hx; repeat case_match; destruct_and?; subst; auto; by apply Halter.
  - done.
  - by apply (Halter j set_shutdown w1 (database w1)).
Qed.

(** An event can always happen: databases and clocks answer. *)
Lemma handle_total i e (w : lease_world D) : ∃ (x : answer DbErr e) w', handle skew i e w x w'.
Proof.
  destruct e; cbn; try (exists tt; by eexists); try by (eexists _, _; split).
  - exists (clock w), w. split; [lia|done].
  - destruct (lease_insert _ _ _). by eexists _, _.
  - destruct (lease_find _ _). by eexists _, _.
  - destruct (lease_update _ _ _ _). by eexists _, _.
  - destruct (lease_delete _ _ _). by eexists _, _.
Qed.

Lemma told_to_stop_handle i e (w : lease_world D) (x : answer DbErr e) w' :
  is_shutdown i w = true → handle skew i e w x w' → told_to_stop e x.
Proof. intros Hs Hx. destruct e; cbn in *; try done; destruct Hx; congruence. Qed.
End lease_system.

(** ** Running the system *)
Section running.
Context {D DbErr : Type} `{SeaOrmError DbErr, LeaseTable D DbErr}.

(** The event of a process whose clock shows [now]. *)
Definition perform (i : nat) (e : lease_event) (now : Z) (w : lease_world D) : answer DbErr e * lease_world D :=
  match e with
  | IsCancelled | SleepOrShutdown _ => (is_shutdown i w, w)
  | Now => (now, w)
  | Insert lease_id row => let '(r, d) := lease_insert lease_id row (database w) in
      (r, with_database d match r with
        | Ok _ => with_supervisor i (set_granted (Some (row_expires_at row))) w
        | Err _ => w
        end)
  | Find lease_id => let '(r, d) := lease_find lease_id (database w) in (r, with_database d w)
  | Update lease_id filter u => let '(r, d) := lease_update lease_id filter u (database w) in
      (r, with_database d match r with
        | Ok 1 => with_supervisor i (set_granted (Some (set_expires_at u))) w
        | _ => w
        end)
  | Delete lease_id filter => let '(r, d) := lease_delete lease_id filter (database w) in
      (r, with_database d (with_supervisor i (set_granted None) w))
  | StartWorkload => (tt, with_supervisor i (set_workload Working) w)
  | CancelWorkload => (tt, with_supervisor i (set_workload Cancelled) w)
  | StopWorkload => (tt, with_supervisor i (set_workload Idle) w)
  end.

Lemma perform_handle i e (w : lease_world D) :
  handle 0 i e w (perform i e (clock w) w).1 (perform i e (clock w) w).2.
Proof.
  destruct e; cbn; try done.
  - split; [lia|done].
  - by destruct (lease_insert _ _ _).
  - by destruct (lease_find _ _).
  - by destruct (lease_update _ _ _ _).
  - by destruct (lease_delete _ _ _).
Qed.

Inductive schedule : Type := Run (i : nat) | Wait (t : Z) | Shutdown (i : nat).

Definition run_one (s : schedule) (c : system (answer DbErr) (lease_world D) (option unit))
    : option (system (answer DbErr) (lease_world D) (option unit)) :=
  match s with
  | Run i =>
      match c.1 !! i with
      | Some (Act e k) =>
          let '(x, w) := perform i e (clock c.2) c.2 in Some (<[i := k x]> c.1, w)
      | _ => None
      end
  | Wait t => if decide (clock c.2 ≤ t)
              then Some (c.1, mk_lease_world (database c.2) t (supervisors c.2)) else None
  | Shutdown i => Some (c.1, with_supervisor i set_shutdown c.2)
  end.

Fixpoint run_all (l : list schedule) (c : system (answer DbErr) (lease_world D) (option unit)) :=
  match l with
  | [] => Some c
  | s :: l => match run_one s c with Some c => run_all l c | None => None end
  end.

#[export] Instance schedule_eq_dec : EqDecision schedule.
Proof. solve_decision. Defined.

Lemma run_one_label s c c' : run_one s c = Some c' →
  sys_step (handle (D := D) (DbErr := DbErr) 0) environment (if s is Run i then Some i else None) c c'.
Proof.
  destruct c as [ps w]. destruct s as [i|t|i]; cbn.
  - destruct (ps !! i) as [[r|e k]|] eqn:Hi; try done.
    pose proof (perform_handle i e w) as Hp. destruct (perform i e (clock w) w) as [x w'].
    intros [= <-]. by apply (step_process _ _ i e k x).
  - case_decide; [|done]. intros [= <-]. apply step_env. by apply time_passes.
  - intros [= <-]. apply step_env. apply shutdown_requested.
Qed.

Lemma run_all_steps_of i l c c' : run_all l c = Some c' →
  steps_of (handle (D := D) (DbErr := DbErr) 0) environment i (length (filter (λ s, s = Run i) l)) c c'.
Proof.
  revert c. induction l as [|s l IH]; intros c; cbn; [intros [= ->]; constructor|].
  destruct (run_one s c) as [c1|] eqn:Hs; [|done]. intros Hl%IH. apply run_one_label in Hs.
  case_decide as Heq; [subst; by eapply steps_own|]. eapply steps_other; [done| |done].
  destruct s; congruence.
Qed.

Lemma run_all_steps l c c' : run_all l c = Some c' →
  sys_steps (handle (D := D) (DbErr := DbErr) 0) environment c c'.
Proof. intros Hr. eapply steps_of_sys_steps. by apply (run_all_steps_of 0%nat l). Qed.
End running.

(** A table in memory. *)
Module MemoryLeases.

#[export] Instance memory_error : SeaOrmError string := {|
  DbErr_to_string e := e;
  DbErr_is_connection _ := false;
  DbErr_driver _ := None;
  DbErr_custom m := m;
|}.

#[export] Instance memory_table : LeaseTable (gmap string Model) string := {|
  lease_insert id m d :=
    match d !! id with Some _ => (Err "duplicate key"%string, d) | None => (Ok tt, <[id := m]> d) end;
  lease_find id d := (Ok (d !! id), d);
  lease_update id f u d := (Ok match d !! id with Some m => if f m then 1 else 0 | None => 0 end,
    updated_rows id f u d);
  lease_delete id f d := (Ok tt, remaining_rows id f d);
|}.

#[export] Instance memory_rows : LeaseRows (gmap string Model) := λ d, d.

#[export] Instance memory_laws : LeaseTableLaws (gmap string Model) string.
Proof.
  split; unfold rows, memory_rows; cbn; try done.
  - intros id m d. destruct (d !! id) eqn:Hd; auto.
  - intros id f u d. split; [done|]. destruct (d !! id) as [m|]; [destruct (f m) eqn:Hf|]; split; intros Hx;
      try done; try (by exists m); destruct Hx as (? & [= <-] & ?); congruence.
Qed.

Definition configs : list RuntimeLeaseConfig :=
  [RuntimeLeaseConfig_new "workers" "node-a"; RuntimeLeaseConfig_new "workers" "node-b"].

Lemma configs_distinct : distinct_owners configs.
Proof.
  intros [|[|i]] [|[|j]] c c' Hne; cbn; try done; by intros [= <-] [= <-].
Qed.

Definition max_utc : Z := from_secs (10 ^ 11).

(** Node a owns the lease and stalls; node b takes over once it has expired. *)
Definition takeover : list schedule :=
  [Run 0; Run 0; Run 0; Run 0;                     (* a: cancelled?, now, insert, start *)
   Run 1; Run 1; Run 1; Run 1;                     (* b: cancelled?, now, insert fails, standby *)
   Wait (from_secs 30); Run 1; Run 1; Run 1; Run 1; Run 1; Run 1; Run 1].

Definition start := lease_system (DbErr := string) max_utc 10 configs (∅ : gmap string Model) 0.

Definition states (c : option (system (answer string) (lease_world (gmap string Model)) (option unit))) :=
  (λ c, (λ p, (config_lease_id (sup_config p), sup_workload p, sup_granted p)) <$> supervisors c.2) <$> c.

Example takeover_states : states (run_all takeover start) =
  Some [("workers"%string, Working, Some (from_secs 30)); ("workers"%string, Working, Some (from_secs 60))].
Proof. vm_compute. reflexivity. Qed.

(** Node a then renews in vain and stops. *)
Example takeover_ends : states (run_all (takeover ++ replicate 5 (Run 0)) start) =
  Some [("workers"%string, Idle, Some (from_secs 30)); ("workers"%string, Working, Some (from_secs 60))].
Proof. vm_compute. reflexivity. Qed.

Definition returned (i : nat) (c : system (answer string) (lease_world (gmap string Model)) (option unit))
    : option (option unit) :=
  match c.1 !! i with Some (Return r) => Some r | _ => None end.

Lemma two_runs {A B C E} (m : option A) (f : A → option B) (g : A → C) (h : B → E) a b :
  (c ← m; c' ← f c; Some (g c, h c')) = Some (a, b) →
  ∃ c c', m = Some c ∧ f c = Some c' ∧ g c = a ∧ h c' = b.
Proof. destruct m as [c|]; cbn; [|done]. destruct (f c) as [c'|] eqn:Hf; cbn; [|done]. intros [= <- <-]. eauto 6. Qed.

(** Told to stop, node a gives the lease back and returns. *)
Example shutdown_states :
  (c ← run_all [Run 0; Run 0; Run 0; Run 0; Shutdown 0] start;
   c' ← run_all (replicate 5 (Run 0)) c;
   Some (is_shutdown 0 c.2, returned 0 c')) = Some (true, Some (Some tt)).
Proof. vm_compute. reflexivity. Qed.

Lemma shutdown_reached : ∃ c c',
  run_all [Run 0; Run 0; Run 0; Run 0; Shutdown 0] start = Some c ∧
  run_all (replicate 5 (Run 0)) c = Some c' ∧ is_shutdown 0 c.2 = true ∧ returned 0 c' = Some (Some tt).
Proof. exact (two_runs _ _ _ _ _ _ shutdown_states). Qed.

End MemoryLeases.

Import (hints) MemoryLeases.

(** C18. A lease has one holder at a time.  Any number of supervisors share
    one table whose statements are atomic and may fail before or after taking
    effect; their clocks stay within [skew] of the true time and owner ids
    differ.  However their events interleave: a workload that is not stopped
    runs under an acknowledged grant, and of two workloads of one lease that
    run at once, one has outlived its grant, up to three times the skew (so
    with exact clocks at most one unexpired workload runs).  A supervisor only
    claims or releases the lease while its workload is stopped, only renews
    while it runs, starts it only on a grant, and has stopped it when it
    returns. *)
Theorem runtime_lease_exclusive {D DbErr : Type} `{SeaOrmError DbErr, LeaseTableLaws D DbErr}
    (max_utc skew : Z) (fuel : nat) (configs : list RuntimeLeaseConfig) (d : D) (t : Z)
    (c : system (answer DbErr) (lease_world D) (option unit)) :
  0 ≤ skew → distinct_owners configs →
  sys_steps (handle skew) environment (lease_system max_utc fuel configs d t) c →
  (∀ i p, supervisors c.2 !! i = Some p → sup_workload p ≠ Idle → ∃ e, sup_granted p = Some e) ∧
  (∀ i j p q ei ej, i ≠ j → supervisors c.2 !! i = Some p → supervisors c.2 !! j = Some q →
     config_lease_id (sup_config p) = config_lease_id (sup_config q) →
     sup_workload p ≠ Idle → sup_granted p = Some ei → sup_workload q ≠ Idle → sup_granted q = Some ej →
     Z.min ei ej ≤ clock c.2 + 3 * skew) ∧
  (∀ i e k, c.1 !! i = Some (Act e k) → allowed i e c.2) ∧
  (∀ i, c.1 !! i = Some (Return (Some tt)) →
     ∃ p, supervisors c.2 !! i = Some p ∧ sup_workload p = Idle).
Proof.
  intros Hskew Hd Hc.
  destruct (lease_system_safe max_utc skew Hskew fuel configs d t c Hd Hc) as [HI Hsafe].
  split_and!.
  - intros i p Hp Hw. pose proof (inv_working _ _ _ HI i p Hp Hw). destruct (sup_granted p); [eauto|done].
  - intros i j p q ei ej Hne Hp Hq Hl Hwp Hei Hwq Hej.
    destruct (inv_granted _ _ _ HI i p ei Hp Hei) as [_ [(m & Hm & Ho & _)|?]]; [|lia].
    destruct (inv_granted _ _ _ HI j q ej Hq Hej) as [_ [(m' & Hm' & Ho' & _)|?]]; [|lia].
    destruct (inv_distinct _ _ _ HI i j p q Hne Hp Hq Hl). congruence.
  - intros i e k Hk. destruct (Hsafe i _ Hk c.2 (reflexivity c.2) HI) as [Ha _]. done.
  - intros i Hr. destruct (Hsafe i _ Hr eq_refl) as (cf & g & (p & Hp & _ & Hw & _)%local_sup). eauto.
Qed.

Lemma runtime_lease_exclusive_witness : ∃ c p q,
  run_all MemoryLeases.takeover MemoryLeases.start = Some c ∧
  supervisors c.2 = [p; q] ∧ sup_workload p = Working ∧ sup_workload q = Working ∧
  Z.min (from_secs 30) (from_secs 60) ≤ clock c.2 + 3 * 0.
Proof.
  pose proof MemoryLeases.takeover_states as Hs.
  destruct (run_all MemoryLeases.takeover MemoryLeases.start) as [c|] eqn:Hc; [|discriminate Hs].
  cbn [MemoryLeases.states fmap option_fmap option_map] in Hs.
  destruct (supervisors c.2) as [|p [|q [|]]] eqn:Hsup; try discriminate Hs.
  cbn in Hs. injection Hs as Hlp Hwp Hgp Hlq Hwq Hgq. exists c, p, q. split; [reflexivity|].
  pose proof (run_all_steps _ _ _ Hc) as Hr. clear Hc. unfold MemoryLeases.start in Hr.
  destruct (runtime_lease_exclusive _ _ _ _ _ _ c (Z.le_refl 0) MemoryLeases.configs_distinct Hr) as (_ & Hex & _).
  split_and!; [done..|]. clear Hr.
  apply (Hex 0%nat 1%nat p q); rewrite ?Hsup; try done; congruence.
Defined.

(** C19. A supervisor told to stop stops.  Once its token is cancelled, a
    process performs at most ten more events, whatever it was doing, however
    the others interleave and whatever its statements answer; until then it
    is never stuck, and when it has ended its workload is stopped.  The turns
    given to its loops do not matter: the program only runs out of them after
    as many events. *)
Theorem runtime_lease_stops {D DbErr : Type} `{SeaOrmError DbErr, LeaseTableLaws D DbErr}
    (max_utc skew : Z) (fuel m n i : nat) (configs : list RuntimeLeaseConfig) (d : D) (t : Z)
    (c c' : system (answer DbErr) (lease_world D) (option unit)) :
  0 ≤ skew → distinct_owners configs → (i < length configs)%nat →
  steps_of (handle skew) environment i m (lease_system max_utc fuel configs d t) c →
  is_shutdown i c.2 = true → steps_of (handle skew) environment i n c c' →
  (n ≤ 10)%nat ∧
  ((∃ e k, c'.1 !! i = Some (Act e k) ∧ (n < 10)%nat ∧
      ∃ c'', sys_step (handle skew) environment (Some i) c' c'') ∨
   (∃ r, c'.1 !! i = Some (Return r) ∧ ((m + n < fuel)%nat → r = Some tt) ∧
      (r = Some tt → ∃ p, supervisors c'.2 !! i = Some p ∧ sup_workload p = Idle))).
Proof.
  intros Hskew Hd Hi Hm Hs Hn.
  destruct (lookup_lt_is_Some_2 configs i Hi) as [cf Hcf].
  set (p0 := run_runtime_lease_supervisor max_utc fuel cf).
  assert ((lease_system max_utc fuel configs d t).1 !! i = Some p0) as Hp0.
  { cbn. by rewrite list_lookup_fmap, Hcf. }
  destruct (steps_of_program _ _ _ _ _ _ _ Hp0 Hm) as [p1 Hp1].
  assert (all_points (stops_in 10) p1) as Hstop.
  { refine (all_points_steps _ _ (stops_in 10) _ c _ (steps_of_sys_steps _ _ _ _ _ _ Hm) i p1 Hp1).
    intros j p. cbn. rewrite list_lookup_fmap. destruct (configs !! j) as [cj|]; cbn; [|done].
    intros [= <-]. apply (supervisor_bounded max_utc cj fuel). }
  apply all_points_here in Hstop.
  destruct (steps_of_ends (handle skew) environment told_to_stop i (λ w, is_shutdown i w = true) 10 n c c' p1)
    as (Hle & p2 & Hp2 & Hend); [intros; by eapply told_to_stop_handle|intros; by eapply is_shutdown_step|done..|].
  split; [done|]. destruct p2 as [r|e k].
  - right. assert (r = Some tt → ∃ cf g, local i cf Idle g c'.2) as Hidle.
    { destruct (lease_system_safe max_utc skew Hskew fuel configs d t c' Hd) as [_ Hsafe].
      - eapply rtc_trans; eapply steps_of_sys_steps; [exact Hm|exact Hn].
      - exact (Hsafe i _ Hp2). }
    assert ((m + n < fuel)%nat → r = Some tt) as Hr.
    { intros Hlt. pose proof (supervisor_returns max_utc cf fuel fuel (le_n _)) as Hret.
      pose proof (steps_of_returns _ _ i None fuel m _ _ _ _ Hp0 Hret Hm Hp1) as Hret1.
      pose proof (steps_of_returns _ _ i None (fuel - m) n _ _ _ _ Hp1 Hret1 Hn Hp2) as Hret2.
      destruct (fuel - m - n)%nat eqn:Hf; [lia|]. destruct r as [[]|]; [done|]. by destruct Hret2. }
    exists r. split_and!; [done|done|].
    intros (? & ? & (p & Hp & _ & Hw & _)%local_sup)%Hidle. eauto.
  - left. exists e, k. destruct (handle_total skew Hskew i e c'.2) as (x & w' & Hx).
    split_and!; [done| |].
    + destruct (decide (n < 10)%nat); [done|]. replace (10 - n)%nat with 0%nat in Hend by lia. done.
    + destruct c' as [ps w]. exists (<[i := k x]> ps, w'). by econstructor.
Qed.

(** Node a is told to stop while its workload runs; five events later it has
    ended. *)
Lemma runtime_lease_stops_witness : ∃ c c' p,
  run_all [Run 0; Run 0; Run 0; Run 0; Shutdown 0] MemoryLeases.start = Some c ∧
  run_all (replicate 5 (Run 0)) c = Some c' ∧
  supervisors c'.2 !! 0%nat = Some p ∧ sup_workload p = Idle.
Proof.
  destruct MemoryLeases.shutdown_reached as (c & c' & Hc & Hc' & Hshut & Hret).
  exists c, c'.
  pose proof (run_all_steps_of 0%nat _ _ _ Hc) as Hm. pose proof (run_all_steps_of 0%nat _ _ _ Hc') as Hn.
  unfold MemoryLeases.start in Hm.
  destruct (runtime_lease_stops _ _ _ _ _ 0%nat _ _ _ c c' (Z.le_refl 0) MemoryLeases.configs_distinct
    ltac:(cbn; lia) Hm Hshut Hn) as (_ & [(e & k & Hact & _)|(r & Hr & _ & Hidle)]).
  - unfold MemoryLeases.returned in Hret. rewrite Hact in Hret. discriminate Hret.
  - unfold MemoryLeases.returned in Hret. rewrite Hr in Hret. injection Hret as ->.
    destruct (Hidle eq_refl) as (p & Hp & Hw). exists p. exact (conj Hc (conj Hc' (conj Hp Hw))).
Defined.
