(* ===== verification/TaskRuntime.v ===== *)
(** * Worker loops

    [aster_forge_tasks/src/runtime.rs]: the delays of periodic workers, the
    adaptive backoff of the dispatcher, and the loops themselves as processes
    in the sense of [Process].  The product's callbacks, the clock and the
    cancellation token are the events; a callback returns its future without
    panicking.  Spawning and aborting the workers of a group is tokio's. *)
From S2P Require Export Process Duration.

Definition BACKGROUND_TASK_DISPATCH_ERROR_BACKOFF_CAP : Z := from_secs 5.

(** ** Delays *)
Definition duration_as_millis (d : Z) : Z := d / 10 ^ 6.
Definition u128_to_u64_saturating (value : Z) : Z := Z.min value U64_MAX.
Definition duration_saturating_mul (d k : Z) : Z := Z.min DURATION_MAX (d * k).

Definition effective_jitter_cap (base_interval jitter_cap : Z) : Z :=
  let bounded_ms := u128_to_u64_saturating (Z.min (duration_as_millis base_interval) U64_MAX) / 10 in
  Z.min jitter_cap (from_millis bounded_ms).

Definition periodic_sleep_duration (random_range : Z → Z → Z) (base_interval : Z)
    (jitter_cap : option Z) : Z :=
  let base_interval := if decide (base_interval = 0) then from_secs 1 else base_interval in
  match jitter_cap with
  | None => base_interval
  | Some jitter_cap =>
      let max_jitter_ms := duration_as_millis (effective_jitter_cap base_interval jitter_cap) in
      if decide (max_jitter_ms = 0) then base_interval
      else
        let max_jitter_ms := u128_to_u64_saturating (Z.min max_jitter_ms U64_MAX) in
        duration_saturating_add base_interval (from_millis (random_range 0 max_jitter_ms))
  end.

Definition effective_dispatch_base_interval (base_interval max_interval : Z) : Z :=
  if decide (base_interval = 0) then from_secs 1 else base_interval.

Definition effective_dispatch_max_interval (base_interval max_interval : Z) : Z :=
  Z.max max_interval base_interval.

(** ** The dispatcher's backoff *)
Inductive BackgroundTaskDispatchTrigger : Type := StartupTrigger | TimerTrigger | WakeupTrigger.

Record BackgroundTaskDispatchIteration : Type := mk_BackgroundTaskDispatchIteration {
  iteration_has_activity : bool;
  iteration_failed : bool;
}.

Definition idle_iteration : BackgroundTaskDispatchIteration := mk_BackgroundTaskDispatchIteration false false.
Definition active_iteration : BackgroundTaskDispatchIteration := mk_BackgroundTaskDispatchIteration true false.
Definition failed_iteration : BackgroundTaskDispatchIteration := mk_BackgroundTaskDispatchIteration false true.

Record BackgroundTaskDispatchBackoff : Type := mk_BackgroundTaskDispatchBackoff {
  backoff_idle_interval : Z;
  backoff_last_error : bool;
}.

Definition BackgroundTaskDispatchBackoff_new (base_interval max_interval : Z) : BackgroundTaskDispatchBackoff :=
  mk_BackgroundTaskDispatchBackoff (effective_dispatch_base_interval base_interval max_interval) false.

Definition backoff_sleep_duration (b : BackgroundTaskDispatchBackoff) (base_interval max_interval : Z) : Z :=
  let base_interval := effective_dispatch_base_interval base_interval max_interval in
  let max_interval := effective_dispatch_max_interval base_interval max_interval in
  if backoff_last_error b then Z.max base_interval BACKGROUND_TASK_DISPATCH_ERROR_BACKOFF_CAP
  else Z.min (Z.max (backoff_idle_interval b) base_interval) max_interval.

Definition backoff_record_iteration (trigger : BackgroundTaskDispatchTrigger)
    (iteration : BackgroundTaskDispatchIteration) (base_interval max_interval : Z)
    (b : BackgroundTaskDispatchBackoff) : BackgroundTaskDispatchBackoff :=
  let base_interval := effective_dispatch_base_interval base_interval max_interval in
  let max_interval := effective_dispatch_max_interval base_interval max_interval in
  if iteration_failed iteration then mk_BackgroundTaskDispatchBackoff base_interval true
  else if iteration_has_activity iteration || (if trigger is WakeupTrigger then true else false)
  then mk_BackgroundTaskDispatchBackoff base_interval false
  else mk_BackgroundTaskDispatchBackoff
    (Z.min (duration_saturating_mul (Z.max (backoff_idle_interval b) base_interval) 2) max_interval) false.

(** ** The loops *)
Inductive worker_event (Outcome : Type) : Type :=
  | WIsCancelled
  | WNow
  | WRunBody
  | WRecord (started_at finished_at : Z) (outcome : Outcome)
  | WInterval
  | WSleepOrShutdown (duration : Z)          (* [true] is the shutdown branch *)
  | WDispatchIteration
  | WBaseInterval
  | WMaxInterval
  | WSleepOrWakeup (duration : Z).           (* [None] is the shutdown branch *)
Arguments WIsCancelled {Outcome}.
Arguments WNow {Outcome}.
Arguments WRunBody {Outcome}.
Arguments WRecord {Outcome} started_at finished_at outcome.
Arguments WInterval {Outcome}.
Arguments WSleepOrShutdown {Outcome} duration.
Arguments WDispatchIteration {Outcome}.
Arguments WBaseInterval {Outcome}.
Arguments WMaxInterval {Outcome}.
Arguments WSleepOrWakeup {Outcome} duration.

Definition worker_answer {Outcome : Type} (e : worker_event Outcome) : Type :=
  match e with
  | WIsCancelled | WSleepOrShutdown _ => bool
  | WNow | WInterval | WBaseInterval | WMaxInterval => Z
  | WRunBody => result string Outcome          (* [Err] is a panic and its message *)
  | WRecord _ _ _ => unit
  | WDispatchIteration => BackgroundTaskDispatchIteration
  | WSleepOrWakeup _ => option BackgroundTaskDispatchTrigger
  end.

Section loops.
Context {Outcome : Type} (panic_outcome : string → Outcome) (random_range : Z → Z → Z).

Abbreviation worker A := (prog (worker_answer (Outcome := Outcome)) A).
Definition worker_act (e : worker_event Outcome) : worker (worker_answer e) := Process.act e.

Definition run_recorded_task_iteration : worker unit :=
  started_at ← worker_act WNow;
  ran ← worker_act WRunBody;
  let outcome := match ran with Ok outcome => outcome | Err panic_message => panic_outcome panic_message end in
  finished_at ← worker_act WNow;
  worker_act (WRecord started_at finished_at outcome).

(** [None] is a loop that used up its turns. *)
Fixpoint periodic_loop (fuel : nat) (jitter_cap : option Z) : worker (option unit) :=
  match fuel with
  | O => mret None
  | S fuel =>
      interval ← worker_act WInterval;
      shutdown ← worker_act (WSleepOrShutdown (periodic_sleep_duration random_range interval jitter_cap));
      if shutdown : bool then mret (Some tt)
      else
        cancelled ← worker_act WIsCancelled;
        if cancelled : bool then mret (Some tt)
        else
          run_recorded_task_iteration;;
          periodic_loop fuel jitter_cap
  end.

Definition run_periodic_task (fuel : nat) (jitter_cap : option Z) : worker (option unit) :=
  cancelled ← worker_act WIsCancelled;
  if cancelled : bool then mret (Some tt)
  else
    run_recorded_task_iteration;;
    periodic_loop fuel jitter_cap.

Definition dispatch_and_record (trigger : BackgroundTaskDispatchTrigger)
    (backoff : BackgroundTaskDispatchBackoff) : worker BackgroundTaskDispatchBackoff :=
  iteration ← worker_act WDispatchIteration;
  base_interval ← worker_act WBaseInterval;
  max_interval ← worker_act WMaxInterval;
  mret (backoff_record_iteration trigger iteration base_interval max_interval backoff).

Fixpoint dispatch_worker_loop (fuel : nat) (backoff : BackgroundTaskDispatchBackoff) : worker (option unit) :=
  match fuel with
  | O => mret None
  | S fuel =>
      base_interval ← worker_act WBaseInterval;
      max_interval ← worker_act WMaxInterval;
      trigger ← worker_act (WSleepOrWakeup (backoff_sleep_duration backoff base_interval max_interval));
      match trigger with
      | None => mret (Some tt)
      | Some trigger =>
          cancelled ← worker_act WIsCancelled;
          if cancelled : bool then mret (Some tt)
          else
            backoff ← dispatch_and_record trigger backoff;
            dispatch_worker_loop fuel backoff
      end
  end.

Definition run_dispatch_worker (fuel : nat) : worker (option unit) :=
  base_interval ← worker_act WBaseInterval;
  max_interval ← worker_act WMaxInterval;
  cancelled ← worker_act WIsCancelled;
  if cancelled : bool then mret (Some tt)
  else
    backoff ← dispatch_and_record StartupTrigger
      (BackgroundTaskDispatchBackoff_new base_interval max_interval);
    dispatch_worker_loop fuel backoff.
End loops.

(** ** Joining a group *)
Inductive join_end : Type := JoinFinished | JoinPanicked | JoinCancelled.

(** How many workers of a drained group panicked. *)
Fixpoint drain_task_handles (joined : list join_end) : Z :=
  match joined with
  | [] => 0
  | JoinPanicked :: joined => 1 + drain_task_handles joined
  | JoinFinished :: joined | JoinCancelled :: joined => drain_task_handles joined
  end.

(** ** Delays are bounded below and above *)
Lemma from_millis_as_millis d : 0 ≤ d → from_millis (duration_as_millis d) ≤ d.
Proof. intros. unfold from_millis, duration_as_millis. pose proof (Z.mul_div_le d (10 ^ 6)). lia. Qed.

Lemma effective_jitter_cap_bounds base cap : 0 ≤ base → 0 ≤ cap →
  0 ≤ effective_jitter_cap base cap ≤ cap ∧ 10 * effective_jitter_cap base cap ≤ base.
Proof.
  intros Hb Hc. unfold effective_jitter_cap, u128_to_u64_saturating.
  pose proof (from_millis_as_millis base Hb) as Hm.
  assert (0 ≤ duration_as_millis base) by (unfold duration_as_millis; apply Z.div_pos; lia).
  set (m := Z.min _ U64_MAX). assert (0 ≤ m ≤ duration_as_millis base) by (subst m; unfold U64_MAX; lia).
  pose proof (Z.mul_div_le m 10 ltac:(lia)). pose proof (Z.div_pos m 10). unfold from_millis in *. lia.
Qed.

(** A delay is at least the interval, or a second where that is zero, and
    jitter adds at most the cap and a tenth of the interval. *)
Lemma periodic_sleep_duration_bounds random_range base cap :
  (∀ lo hi, lo ≤ hi → lo ≤ random_range lo hi ≤ hi) → in_duration base →
  (∀ c, cap = Some c → in_duration c) →
  let base' := if decide (base = 0) then from_secs 1 else base in
  base' ≤ periodic_sleep_duration random_range base cap ∧
  periodic_sleep_duration random_range base cap ≤ base' + default 0 cap ∧
  10 * (periodic_sleep_duration random_range base cap - base') ≤ base'.
Proof.
  intros Hr Hb Hc base'. unfold periodic_sleep_duration. fold base'.
  assert (0 < base' ≤ DURATION_MAX) as Hb'.
  { subst base'. destruct Hb. case_decide; unfold from_secs, DURATION_MAX, U64_MAX, NANOS_PER_SEC in *; lia. }
  destruct cap as [c|]; cbn [default]; [|unfold id; lia].
  destruct (Hc c eq_refl) as [Hc0 _].
  destruct (effective_jitter_cap_bounds base' c) as [[He0 Hec] Heb]; [lia..|].
  set (e := effective_jitter_cap base' c) in *. pose proof (from_millis_as_millis e He0) as Hm.
  case_decide as Hz; [unfold id; lia|]. unfold duration_saturating_add, saturating_add, u128_to_u64_saturating, id.
  assert (0 ≤ duration_as_millis e) by (unfold duration_as_millis; apply Z.div_pos; lia).
  set (m := Z.min _ U64_MAX). assert (0 ≤ m ≤ duration_as_millis e) by (subst m; unfold U64_MAX; lia).
  pose proof (Hr 0 m ltac:(lia)). unfold from_millis in *. lia.
Qed.

(** [n] idle timer iterations double the wait up to the maximum. *)
Fixpoint record_idle (n : nat) (base_interval max_interval : Z) (b : BackgroundTaskDispatchBackoff)
    : BackgroundTaskDispatchBackoff :=
  match n with
  | O => b
  | S n => record_idle n base_interval max_interval
      (backoff_record_iteration TimerTrigger idle_iteration base_interval max_interval b)
  end.

Lemma idle_backoff_doubles n base max :
  in_duration base → in_duration max → base ≠ 0 →
  backoff_sleep_duration (record_idle n base max (BackgroundTaskDispatchBackoff_new base max)) base max =
  Z.min (base * 2 ^ Z.of_nat n) (Z.max max base).
Proof.
  intros [Hb0 Hb] [Hm0 Hm] Hne. unfold BackgroundTaskDispatchBackoff_new, effective_dispatch_base_interval.
  rewrite decide_False by done.
  assert (∀ k i, base ≤ i ≤ Z.max max base →
    backoff_sleep_duration (record_idle k base max (mk_BackgroundTaskDispatchBackoff i false)) base max =
    Z.min (i * 2 ^ Z.of_nat k) (Z.max max base)) as Hk; [|apply Hk; lia].
  induction k as [|k IH]; intros i Hi.
  - cbn -[Z.mul]. unfold backoff_sleep_duration, effective_dispatch_base_interval, effective_dispatch_max_interval.
    rewrite decide_False by done. cbn -[Z.mul]. lia.
  - cbn [record_idle]. unfold backoff_record_iteration at 1, effective_dispatch_base_interval, effective_dispatch_max_interval, duration_saturating_mul.
    rewrite decide_False by done. cbn [iteration_failed iteration_has_activity idle_iteration orb backoff_idle_interval].
    rewrite IH by lia. rewrite Nat2Z.inj_succ, Z.pow_succ_r by lia.
    assert (1 ≤ 2 ^ Z.of_nat k) by (apply Z.lt_pred_le, Z.pow_pos_nonneg; lia).
    destruct (Z.min_spec (Z.min DURATION_MAX (Z.max i base * 2)) (Z.max max base)) as [[? ->]|[? ->]]; nia.
Qed.

(** Activity, a wakeup or an error starts over; an error waits at least five
    seconds. *)
Lemma backoff_resets trigger iteration base max b :
  in_duration base → in_duration max → base ≠ 0 →
  iteration_failed iteration = true ∨ iteration_has_activity iteration = true ∨ trigger = WakeupTrigger →
  backoff_sleep_duration (backoff_record_iteration trigger iteration base max b) base max =
  if iteration_failed iteration then Z.max base BACKGROUND_TASK_DISPATCH_ERROR_BACKOFF_CAP else base.
Proof.
  intros [? _] [? _] Hne Hi. unfold backoff_record_iteration, backoff_sleep_duration,
    effective_dispatch_base_interval, effective_dispatch_max_interval.
  repeat rewrite decide_False by done. destruct (iteration_failed iteration); [done|].
  assert (iteration_has_activity iteration || (if trigger is WakeupTrigger then true else false) = true) as ->.
  { destruct Hi as [?|[->| ->]]; [done|done|by apply orb_true_r]. }
  cbn. lia.
Qed.

(** ** The loops stop *)
Section stopping.
Context {Outcome : Type} (panic_outcome : string → Outcome) (random_range : Z → Z → Z).

(** The answers of a cancelled token. *)
Definition worker_cancelled (e : worker_event Outcome) : worker_answer e → Prop :=
  match e with
  | WIsCancelled | WSleepOrShutdown _ => λ x, x = true
  | WSleepOrWakeup _ => λ x, x = None
  | _ => λ _, True
  end.

#[local] Ltac next := cbn [mbind prog_bind_inst prog_bind worker_act Process.act mret prog_ret_inst
  run_recorded_task_iteration dispatch_and_record ends_in].

(** A worker whose token is cancelled at any point of its loop ends within the
    iteration it is in. *)
Lemma periodic_loop_stops fuel jitter_cap :
  (0 < fuel)%nat → ends_in worker_cancelled 2 (periodic_loop panic_outcome random_range fuel jitter_cap).
Proof. intros Hf. destruct fuel as [|fuel]; [lia|]. cbn [periodic_loop]. next. intros i _. next. by intros ? ->. Qed.

Lemma periodic_iteration_stops fuel jitter_cap :
  (0 < fuel)%nat →
  ends_in worker_cancelled 6 (run_recorded_task_iteration panic_outcome;;
    periodic_loop panic_outcome random_range fuel jitter_cap).
Proof.
  intros Hf. next. intros s _. next. intros r _. next. intros f _. next. intros _ _. next.
  by apply (periodic_loop_stops fuel jitter_cap).
Qed.

Lemma dispatch_loop_stops fuel b :
  (0 < fuel)%nat → ends_in worker_cancelled 3 (dispatch_worker_loop (Outcome := Outcome) fuel b).
Proof.
  intros Hf. destruct fuel as [|fuel]; [lia|]. cbn [dispatch_worker_loop]. next.
  intros base _. next. intros max _. next. by intros ? ->.
Qed.

Lemma dispatch_iteration_stops fuel trigger b :
  (0 < fuel)%nat →
  ends_in worker_cancelled 6 (b ← dispatch_and_record (Outcome := Outcome) trigger b; dispatch_worker_loop fuel b).
Proof.
  intros Hf. next. intros it _. next. intros base _. next. intros max _. next. by apply dispatch_loop_stops.
Qed.
End stopping.
