(* ===== verification/Schedule.v ===== *)
(** * Scheduled tasks

    [aster_forge_tasks/src/schedule.rs], the runner that claims one due firing
    of a catalogued task at a time, over the database store of
    [aster_forge_db/src/scheduled_task.rs].  Both are processes in the sense of
    [Process]: their events are the SQL statements, the clock readings, the
    sleeps and the product's callbacks; the renewal worker that the runner
    spawns is a concurrent part of its process.  Tracing and the table's DDL
    have no counterpart. *)
From S2P Require Export Process Database Text TaskRuntime.
From S2P Require RuntimeLease.

(** ** The catalogue's values *)
Record ScheduledTaskCatalogEntry : Type := mk_ScheduledTaskCatalogEntry {
  catalog_namespace : str;
  catalog_task_name : str;
  catalog_display_name : str;
  catalog_first_run_at : Z;
}.

Record ScheduledTaskClaimRequest : Type := mk_ScheduledTaskClaimRequest {
  claiming_namespace : str;
  claiming_task_name : str;
  claiming_owner_id : str;
  claiming_now : Z;
  claiming_ttl : Z;
}.

Record ScheduledTaskClaim : Type := mk_ScheduledTaskClaim {
  firing_task_id : str;
  firing_namespace : str;
  firing_task_name : str;
  firing_owner_id : str;
  firing_scheduled_at : Z;
  firing_claimed_at : Z;
  firing_expires_at : Z;
}.

Record ScheduledTaskCompletion : Type := mk_ScheduledTaskCompletion {
  completion_claim : ScheduledTaskClaim;
  completion_finished_at : Z;
  completion_next_run_at : Z;
}.

Record ScheduledTaskClaimRenewal : Type := mk_ScheduledTaskClaimRenewal {
  renewal_claim : ScheduledTaskClaim;
  renewal_now : Z;
  renewal_ttl : Z;
}.

(** ** The table *)
Record ScheduledTaskModel : Type := mk_ScheduledTaskModel {
  task_row_namespace : str;
  task_row_task_name : str;
  task_row_display_name : str;
  task_row_next_run_at : Z;
  task_row_claim_owner_id : option str;
  task_row_claim_expires_at : option Z;
  task_row_last_claimed_at : option Z;
  task_row_last_finished_at : option Z;
  task_row_created_at : Z;
  task_row_updated_at : Z;
}.

(** The columns an [update_many] sets. *)
Record scheduled_task_update : Type := mk_scheduled_task_update {
  assign_display_name : option str;
  assign_next_run_at : option Z;
  assign_claim_owner_id : option (option str);
  assign_claim_expires_at : option (option Z);
  assign_last_claimed_at : option (option Z);
  assign_last_finished_at : option (option Z);
  assign_updated_at : Z;
}.

Definition assign (u : scheduled_task_update) (m : ScheduledTaskModel) : ScheduledTaskModel :=
  mk_ScheduledTaskModel (task_row_namespace m) (task_row_task_name m)
    (default (task_row_display_name m) (assign_display_name u))
    (default (task_row_next_run_at m) (assign_next_run_at u))
    (default (task_row_claim_owner_id m) (assign_claim_owner_id u))
    (default (task_row_claim_expires_at m) (assign_claim_expires_at u))
    (default (task_row_last_claimed_at m) (assign_last_claimed_at u))
    (default (task_row_last_finished_at m) (assign_last_finished_at u))
    (task_row_created_at m) (assign_updated_at u).

(** The statements SeaORM runs on the row of one key. *)
Class ScheduledTaskTable (D DbErr : Type) := {
  task_insert : str → ScheduledTaskModel → D → result DbErr ScheduledTaskModel * D;
  task_find : str → D → result DbErr (option ScheduledTaskModel) * D;
  task_update : str → (ScheduledTaskModel → bool) → scheduled_task_update → D → result DbErr Z * D;
}.

(** ** Events *)
Inductive schedule_event (Outcome : Type) : Type :=
  | ShutdownRequested
  | ClockNow
  | InsertTask (task_id : str) (row : ScheduledTaskModel)
  | FindTask (task_id : str)
  | UpdateTask (task_id : str) (filter : ScheduledTaskModel → bool) (u : scheduled_task_update)
  | SpawnRenewal
  | EitherPart                                   (* which of two concurrent parts moves *)
  | RenewalTickOrStop (interval : Z)             (* the [select!]; [true] is the stop branch *)
  | RenewalStopped                               (* [true]: the stop branch wins *)
  | RunTask
  | CancelRenewal
  | RecordOutcome (claim : ScheduledTaskClaim) (started_at finished_at : Z) (outcome : Outcome)
  | ReadInterval
  | SleepUnlessShutdown (duration : Z).          (* the biased [select!]; [true] is shutdown *)
Arguments ShutdownRequested {Outcome}.
Arguments ClockNow {Outcome}.
Arguments InsertTask {Outcome} task_id row.
Arguments FindTask {Outcome} task_id.
Arguments UpdateTask {Outcome} task_id filter u.
Arguments SpawnRenewal {Outcome}.
Arguments EitherPart {Outcome}.
Arguments RenewalTickOrStop {Outcome} interval.
Arguments RenewalStopped {Outcome}.
Arguments RunTask {Outcome}.
Arguments CancelRenewal {Outcome}.
Arguments RecordOutcome {Outcome} claim started_at finished_at outcome.
Arguments ReadInterval {Outcome}.
Arguments SleepUnlessShutdown {Outcome} duration.

Definition schedule_answer {Outcome : Type} (DbErr : Type) (e : schedule_event Outcome) : Type :=
  match e with
  | ShutdownRequested | EitherPart | RenewalTickOrStop _ | RenewalStopped | SleepUnlessShutdown _ => bool
  | ClockNow | ReadInterval => Z
  | InsertTask _ _ => result DbErr ScheduledTaskModel
  | FindTask _ => result DbErr (option ScheduledTaskModel)
  | UpdateTask _ _ _ => result DbErr Z
  | SpawnRenewal | CancelRenewal => unit
  | RunTask => result string Outcome              (* [Err] is a panic and its message *)
  | RecordOutcome _ _ _ _ => result string unit
  end.

(** ** The contract between runner and store *)
Class ScheduledTaskStore (Outcome DbErr : Type) := {
  schedule_error : Type;
  ensure_scheduled_task : ScheduledTaskCatalogEntry →
    prog (schedule_answer (Outcome := Outcome) DbErr) (result schedule_error unit);
  claim_scheduled_task : ScheduledTaskClaimRequest →
    prog (schedule_answer (Outcome := Outcome) DbErr) (result schedule_error (option ScheduledTaskClaim));
  renew_scheduled_task_claim : ScheduledTaskClaimRenewal →
    prog (schedule_answer (Outcome := Outcome) DbErr) (result schedule_error bool);
  complete_scheduled_task : ScheduledTaskCompletion →
    prog (schedule_answer (Outcome := Outcome) DbErr) (result schedule_error bool);
}.

(** ** Validation *)
Definition SCHEDULED_TASK_ID_MAX_LEN : Z := 191.
Definition SCHEDULED_TASK_NAMESPACE_MAX_LEN : Z := 64.
Definition SCHEDULED_TASK_NAME_MAX_LEN : Z := 128.
Definition SCHEDULED_TASK_DISPLAY_NAME_MAX_LEN : Z := 191.
Definition SCHEDULED_TASK_OWNER_ID_MAX_LEN : Z := 191.

Definition validate_non_empty (name : string) (value : str) : result DbError unit :=
  if decide (trim value = []) then Err (NonRetryable (name +:+ " must not be empty")) else Ok tt.

Definition validate_max_len (name : string) (value : str) (max_len : Z) : result DbError unit :=
  if decide (max_len < str_len value)
  then Err (NonRetryable (name +:+ " must be at most " +:+ pretty.pretty max_len +:+ " bytes")) else Ok tt.

Definition validate_claim_ttl (claim_ttl : Z) : result DbError unit :=
  if decide (claim_ttl = 0) then Err (NonRetryable "scheduled task claim TTL must not be zero") else Ok tt.

Definition validate_owner_id (owner_id : str) : result DbError unit :=
  validate_non_empty "scheduled task owner id" owner_id;;
  validate_max_len "scheduled task owner id" owner_id SCHEDULED_TASK_OWNER_ID_MAX_LEN.

Definition validate_catalog_entry (entry : ScheduledTaskCatalogEntry) : result DbError unit :=
  validate_non_empty "scheduled task namespace" (catalog_namespace entry);;
  validate_non_empty "scheduled task name" (catalog_task_name entry);;
  validate_non_empty "scheduled task display name" (catalog_display_name entry);;
  validate_max_len "scheduled task namespace" (catalog_namespace entry) SCHEDULED_TASK_NAMESPACE_MAX_LEN;;
  validate_max_len "scheduled task name" (catalog_task_name entry) SCHEDULED_TASK_NAME_MAX_LEN;;
  validate_max_len "scheduled task display name" (catalog_display_name entry) SCHEDULED_TASK_DISPLAY_NAME_MAX_LEN.

Definition validate_claim_request (request : ScheduledTaskClaimRequest) : result DbError unit :=
  validate_owner_id (claiming_owner_id request);;
  validate_max_len "scheduled task namespace" (claiming_namespace request) SCHEDULED_TASK_NAMESPACE_MAX_LEN;;
  validate_max_len "scheduled task name" (claiming_task_name request) SCHEDULED_TASK_NAME_MAX_LEN;;
  validate_claim_ttl (claiming_ttl request).

Definition validate_completion (completion : ScheduledTaskCompletion) : result DbError unit :=
  if decide (completion_next_run_at completion ≤ firing_scheduled_at (completion_claim completion))
  then Err (NonRetryable "scheduled task next run must be after the claimed scheduled time") else Ok tt.

Definition validate_renewal (renewal : ScheduledTaskClaimRenewal) : result DbError unit :=
  validate_owner_id (firing_owner_id (renewal_claim renewal));;
  validate_claim_ttl (renewal_ttl renewal).

Definition chrono_duration_from_std (duration : Z) : result DbError Z :=
  if decide (duration ≤ CHRONO_DURATION_MAX) then Ok duration
  else Err (NonRetryable "duration is too large for chrono").

Definition scheduled_task_row_id (namespace task_name : str) : result DbError str :=
  let task_id := namespace ++ lit ":" ++ task_name in
  if decide (SCHEDULED_TASK_ID_MAX_LEN < str_len task_id)
  then Err (NonRetryable ("scheduled task id must be at most " +:+
    pretty.pretty SCHEDULED_TASK_ID_MAX_LEN +:+ " bytes"))
  else Ok task_id.

Definition is_claim_fresh (model : ScheduledTaskModel) (now : Z) : bool :=
  match task_row_claim_owner_id model, task_row_claim_expires_at model with
  | Some _, Some expires_at => bool_decide (now < expires_at)
  | _, _ => false
  end.

(** ** The database store *)
Section store.
Context {Outcome DbErr : Type} `{SeaOrmError DbErr}.
(** [DateTime::MAX_UTC]; timestamps are nanoseconds of UTC. *)
Context (max_utc : Z).

Abbreviation io A := (prog (schedule_answer (Outcome := Outcome) DbErr) A).
Abbreviation db_result A := (result DbError A).

Definition schedule_act (e : schedule_event Outcome) : io (schedule_answer DbErr e) := Process.act e.

(** [expires_at] of a claim or renewal. *)
Definition claim_expiry (now claim_ttl : Z) : db_result Z :=
  claim_ttl ← chrono_duration_from_std claim_ttl;
  ok_or (checked_add max_utc now claim_ttl) (NonRetryable "scheduled task claim expiry overflow").

Definition refresh_existing_task (task_id : str) (entry : ScheduledTaskCatalogEntry)
    (insert_error : DbErr) : io (db_result ScheduledTaskModel) :=
  existing ← schedule_act (FindTask task_id);
  match existing with
  | Err e => mret (Err (DbError_from e))
  | Ok None => mret (Err (DbError_from insert_error))
  | Ok (Some existing) =>
      if decide (task_row_display_name existing = catalog_display_name entry) then mret (Ok existing)
      else
        update ← schedule_act (UpdateTask task_id (λ _, true)
          (mk_scheduled_task_update (Some (catalog_display_name entry)) None None None None None
             (catalog_first_run_at entry)));
        match update with
        | Err e => mret (Err (DbError_from e))
        | Ok _ =>
            found ← schedule_act (FindTask task_id);
            mret match found with
              | Err e => Err (DbError_from e)
              | Ok None => Err (DatabaseOperation "scheduled task disappeared after update")
              | Ok (Some model) => Ok model
              end
        end
  end.

Definition new_task_row (entry : ScheduledTaskCatalogEntry) : ScheduledTaskModel :=
  mk_ScheduledTaskModel (catalog_namespace entry) (catalog_task_name entry) (catalog_display_name entry)
    (catalog_first_run_at entry) None None None None (catalog_first_run_at entry) (catalog_first_run_at entry).

Definition ensure_task (entry : ScheduledTaskCatalogEntry) : io (db_result ScheduledTaskModel) :=
  match
    validate_catalog_entry entry;;
    scheduled_task_row_id (catalog_namespace entry) (catalog_task_name entry)
  with
  | Err e => mret (Err e)
  | Ok task_id =>
      insert_result ← schedule_act (InsertTask task_id (new_task_row entry));
      match insert_result with
      | Ok model => mret (Ok model)
      | Err insert_error => refresh_existing_task task_id entry insert_error
      end
  end.

(** The [filter]s of the claim; a comparison with [NULL] does not hold. *)
Definition claim_filter (due now : Z) (m : ScheduledTaskModel) : bool :=
  bool_decide (task_row_next_run_at m = due) && bool_decide (task_row_next_run_at m ≤ now) &&
  (bool_decide (task_row_claim_owner_id m = None) || bool_decide (task_row_claim_expires_at m = None) ||
   match task_row_claim_expires_at m with Some e => bool_decide (e ≤ now) | None => false end).

Definition claim_due (request : ScheduledTaskClaimRequest) : io (db_result (option ScheduledTaskClaim)) :=
  match
    validate_claim_request request;;
    scheduled_task_row_id (claiming_namespace request) (claiming_task_name request)
  with
  | Err e => mret (Err e)
  | Ok task_id =>
      existing ← schedule_act (FindTask task_id);
      match existing with
      | Err e => mret (Err (DbError_from e))
      | Ok None => mret (Ok None)
      | Ok (Some existing) =>
          if decide (claiming_now request < task_row_next_run_at existing) then mret (Ok None)
          else if is_claim_fresh existing (claiming_now request) then mret (Ok None)
          else
            match claim_expiry (claiming_now request) (claiming_ttl request) with
            | Err e => mret (Err e)
            | Ok expires_at =>
                update ← schedule_act (UpdateTask task_id
                  (claim_filter (task_row_next_run_at existing) (claiming_now request))
                  (mk_scheduled_task_update None None (Some (Some (claiming_owner_id request)))
                     (Some (Some expires_at)) (Some (Some (claiming_now request))) None
                     (claiming_now request)));
                match update with
                | Err e => mret (Err (DbError_from e))
                | Ok rows_affected =>
                    if decide (rows_affected ≠ 1) then mret (Ok None)
                    else mret (Ok (Some (mk_ScheduledTaskClaim task_id (task_row_namespace existing)
                      (task_row_task_name existing) (claiming_owner_id request)
                      (task_row_next_run_at existing) (claiming_now request) expires_at)))
                end
            end
      end
  end.

(** The owner and the claim's timestamp. *)
Definition owns_claim (claim : ScheduledTaskClaim) (m : ScheduledTaskModel) : bool :=
  bool_decide (task_row_claim_owner_id m = Some (firing_owner_id claim)) &&
  bool_decide (task_row_last_claimed_at m = Some (firing_claimed_at claim)).

Definition renew_claim (renewal : ScheduledTaskClaimRenewal) : io (db_result bool) :=
  match validate_renewal renewal;; claim_expiry (renewal_now renewal) (renewal_ttl renewal) with
  | Err e => mret (Err e)
  | Ok expires_at =>
      update ← schedule_act (UpdateTask (firing_task_id (renewal_claim renewal))
        (owns_claim (renewal_claim renewal))
        (mk_scheduled_task_update None None None (Some (Some expires_at)) None None (renewal_now renewal)));
      mret match update with
        | Err e => Err (DbError_from e)
        | Ok rows_affected => Ok (bool_decide (rows_affected = 1))
        end
  end.

Definition complete_claim (completion : ScheduledTaskCompletion) : io (db_result bool) :=
  match validate_completion completion with
  | Err e => mret (Err e)
  | Ok _ =>
      update ← schedule_act (UpdateTask (firing_task_id (completion_claim completion))
        (owns_claim (completion_claim completion))
        (mk_scheduled_task_update None (Some (completion_next_run_at completion)) (Some None) (Some None) None
           (Some (Some (completion_finished_at completion))) (completion_finished_at completion)));
      mret match update with
        | Err e => Err (DbError_from e)
        | Ok rows_affected => Ok (bool_decide (rows_affected = 1))
        end
  end.

#[export] Instance ScheduledTaskDbStore : ScheduledTaskStore Outcome DbErr := {|
  schedule_error := DbError;
  ensure_scheduled_task entry := ensured ← ensure_task entry; mret (ensured ≫= λ _, Ok tt);
  claim_scheduled_task := claim_due;
  renew_scheduled_task_claim := renew_claim;
  complete_scheduled_task := complete_claim;
|}.
End store.

(** ** The runner *)
Record ScheduledPeriodicTask : Type := mk_ScheduledPeriodicTask {
  scheduled_namespace : str;
  scheduled_task_name : str;
  scheduled_display_name : str;
  scheduled_owner_id : str;
  scheduled_claim_ttl : Z;
  scheduled_jitter_cap : option Z;
}.

Definition scheduled_claim_renew_interval (claim_ttl : Z) : Z := Z.max (claim_ttl / 3) (from_millis 10).

Section runner.
Context {Outcome DbErr : Type} `{ScheduledTaskStore Outcome DbErr}.
Context (max_utc : Z) (panic_outcome : string → Outcome) (random_range : Z → Z → Z).

Abbreviation io A := (prog (schedule_answer (Outcome := Outcome) DbErr) A).

Definition next_scheduled_run_at (finished_at interval : Z) : option Z :=
  if decide (interval ≤ CHRONO_DURATION_MAX) then checked_add max_utc finished_at interval else None.

(** A [select!] of the stop token and one call, which may be dropped before or
    after its statement took effect. *)
Definition unless_stopped {A} (call : io A) : io (option A) :=
  stopped ← schedule_act RenewalStopped;
  if stopped : bool then mret None
  else
    result ← call;
    stopped ← schedule_act RenewalStopped;
    mret (if stopped : bool then None else Some result).

(** [None] is a loop that used up its turns. *)
Fixpoint run_scheduled_claim_renewal_loop (fuel : nat) (claim : ScheduledTaskClaim)
    (claim_ttl interval : Z) : io (option unit) :=
  match fuel with
  | O => mret None
  | S fuel =>
      stopped ← schedule_act (RenewalTickOrStop interval);
      if stopped : bool then mret (Some tt)
      else
        now ← schedule_act ClockNow;
        renewed ← unless_stopped (renew_scheduled_task_claim (mk_ScheduledTaskClaimRenewal claim now claim_ttl));
        match renewed with
        | None => mret (Some tt)
        | Some (Ok false) => mret (Some tt)
        | Some (Ok true) | Some (Err _) => run_scheduled_claim_renewal_loop fuel claim claim_ttl interval
        end
  end.

(** The task body, its times and outcome, and the end of the renewals. *)
Definition run_task_body : io (Z * Z * Outcome) :=
  started_at ← schedule_act ClockNow;
  ran ← schedule_act RunTask;
  let outcome := match ran with Ok outcome => outcome | Err panic_message => panic_outcome panic_message end in
  finished_at ← schedule_act ClockNow;
  schedule_act CancelRenewal;;
  mret (started_at, finished_at, outcome).

(** From the spawned renewal worker to its join. *)
Definition run_renewed (fuel : nat) (claim : ScheduledTaskClaim) (claim_ttl : Z)
    : io ((Z * Z * Outcome) * option unit) :=
  schedule_act SpawnRenewal;;
  par (answer := schedule_answer DbErr) EitherPart id run_task_body
    (run_scheduled_claim_renewal_loop fuel claim claim_ttl (scheduled_claim_renew_interval claim_ttl)).

(** Recording, the next due time and the completion. *)
Definition finish_firing (claim : ScheduledTaskClaim) (started_at finished_at : Z) (outcome : Outcome)
    : io unit :=
  recorded ← schedule_act (RecordOutcome claim started_at finished_at outcome);
  match recorded with
  | Err _ => mret tt
  | Ok _ =>
      interval ← schedule_act ReadInterval;
      match next_scheduled_run_at finished_at interval with
      | None => mret tt
      | Some next_run_at =>
          complete_scheduled_task (mk_ScheduledTaskCompletion claim finished_at next_run_at);;
          mret tt
      end
  end.

Definition run_scheduled_periodic_iteration (fuel : nat) (task : ScheduledPeriodicTask) : io (option unit) :=
  now ← schedule_act ClockNow;
  ensured ← ensure_scheduled_task (mk_ScheduledTaskCatalogEntry (scheduled_namespace task)
    (scheduled_task_name task) (scheduled_display_name task) now);
  match ensured with
  | Err _ => mret (Some tt)
  | Ok _ =>
      claimed ← claim_scheduled_task (mk_ScheduledTaskClaimRequest (scheduled_namespace task)
        (scheduled_task_name task) (scheduled_owner_id task) now (scheduled_claim_ttl task));
      match claimed with
      | Err _ | Ok None => mret (Some tt)
      | Ok (Some claim) =>
          ran ← run_renewed fuel claim (scheduled_claim_ttl task);
          match ran with
          | (_, None) => mret None
          | (started_at, finished_at, outcome, Some _) =>
              finish_firing claim started_at finished_at outcome;;
              mret (Some tt)
          end
      end
  end.

Fixpoint scheduled_loop (fuel : nat) (task : ScheduledPeriodicTask) : io (option unit) :=
  match fuel with
  | O => mret None
  | S fuel =>
      interval ← schedule_act ReadInterval;
      shutdown ← schedule_act (SleepUnlessShutdown
        (periodic_sleep_duration random_range interval (scheduled_jitter_cap task)));
      if shutdown : bool then mret (Some tt)
      else
        cancelled ← schedule_act ShutdownRequested;
        if cancelled : bool then mret (Some tt)
        else
          ended ← run_scheduled_periodic_iteration fuel task;
          match ended with
          | None => mret None
          | Some _ => scheduled_loop fuel task
          end
  end.

Definition run_scheduled_periodic_task (fuel : nat) (task : ScheduledPeriodicTask) : io (option unit) :=
  cancelled ← schedule_act ShutdownRequested;
  if cancelled : bool then mret (Some tt)
  else
    ended ← run_scheduled_periodic_iteration fuel task;
    match ended with
    | None => mret None
    | Some _ => scheduled_loop fuel task
    end.
End runner.

(** ** Leased groups *)
(** Every task of a group shares its namespace, its owner id and its claim
    TTL; the group runs while its process holds a runtime lease
    ([RuntimeLease]). *)
Record LeasedScheduledRuntimeConfig : Type := mk_LeasedScheduledRuntimeConfig {
  leased_namespace : str;
  leased_lease_id : string;
  leased_claim_ttl : Z;
  leased_lease_ttl : Z;
  leased_lease_renew_interval : Z;
  leased_lease_standby_retry_interval : Z;
}.

Definition LeasedScheduledRuntimeConfig_new (namespace : str) (lease_id : string) : LeasedScheduledRuntimeConfig :=
  mk_LeasedScheduledRuntimeConfig namespace lease_id (from_secs 120) RuntimeLease.DEFAULT_RUNTIME_LEASE_TTL
    (from_secs 10) RuntimeLease.DEFAULT_RUNTIME_LEASE_RETRY_INTERVAL.

Definition LeasedScheduledRuntimeConfig_claim_ttl (ttl : Z) (c : LeasedScheduledRuntimeConfig) : LeasedScheduledRuntimeConfig :=
  mk_LeasedScheduledRuntimeConfig (leased_namespace c) (leased_lease_id c) ttl (leased_lease_ttl c)
    (leased_lease_renew_interval c) (leased_lease_standby_retry_interval c).
Definition LeasedScheduledRuntimeConfig_lease_ttl (ttl : Z) (c : LeasedScheduledRuntimeConfig) : LeasedScheduledRuntimeConfig :=
  mk_LeasedScheduledRuntimeConfig (leased_namespace c) (leased_lease_id c) (leased_claim_ttl c) ttl
    (leased_lease_renew_interval c) (leased_lease_standby_retry_interval c).
Definition LeasedScheduledRuntimeConfig_lease_renew_interval (interval : Z) (c : LeasedScheduledRuntimeConfig) : LeasedScheduledRuntimeConfig :=
  mk_LeasedScheduledRuntimeConfig (leased_namespace c) (leased_lease_id c) (leased_claim_ttl c) (leased_lease_ttl c)
    interval (leased_lease_standby_retry_interval c).
Definition LeasedScheduledRuntimeConfig_lease_standby_retry_interval (interval : Z) (c : LeasedScheduledRuntimeConfig) : LeasedScheduledRuntimeConfig :=
  mk_LeasedScheduledRuntimeConfig (leased_namespace c) (leased_lease_id c) (leased_claim_ttl c) (leased_lease_ttl c)
    (leased_lease_renew_interval c) interval.

Record LeasedScheduledRuntimeParts : Type := mk_LeasedScheduledRuntimeParts {
  parts_namespace : str;
  parts_owner_id : string;
  parts_claim_ttl : Z;
  parts_lease_config : RuntimeLease.RuntimeLeaseConfig;
}.

(** [owner_id] is the id the process generates. *)
Definition LeasedScheduledRuntimeConfig_into_parts (owner_id : string) (c : LeasedScheduledRuntimeConfig)
    : LeasedScheduledRuntimeParts :=
  mk_LeasedScheduledRuntimeParts (leased_namespace c) owner_id (leased_claim_ttl c)
    (RuntimeLease.RuntimeLeaseConfig_standby_retry_interval (leased_lease_standby_retry_interval c)
      (RuntimeLease.RuntimeLeaseConfig_renew_interval (leased_lease_renew_interval c)
        (RuntimeLease.RuntimeLeaseConfig_ttl (leased_lease_ttl c)
          (RuntimeLease.RuntimeLeaseConfig_new (leased_lease_id c) owner_id)))).

Record ScheduledRuntimeTaskGroup : Type := mk_ScheduledRuntimeTaskGroup {
  group_namespace : str;
  group_owner_id : string;
  group_claim_ttl : Z;
  group_tasks : list ScheduledPeriodicTask;
}.

(** A product's task name, its display name and its jitter. *)
Definition task_registration : Type := str * str * option Z.

Definition ScheduledRuntimeTaskGroup_scheduled (r : task_registration) (g : ScheduledRuntimeTaskGroup)
    : ScheduledRuntimeTaskGroup :=
  let '(name, display_name, jitter_cap) := r in
  mk_ScheduledRuntimeTaskGroup (group_namespace g) (group_owner_id g) (group_claim_ttl g)
    (group_tasks g ++ [mk_ScheduledPeriodicTask (group_namespace g) name display_name
       (lit (group_owner_id g)) (group_claim_ttl g) jitter_cap]).

(** The group that one acquisition of the lease starts, with the tasks the
    product's closure registers in it. *)
Definition leased_group (configure : list task_registration) (parts : LeasedScheduledRuntimeParts)
    : ScheduledRuntimeTaskGroup :=
  foldl (λ g r, ScheduledRuntimeTaskGroup_scheduled r g)
    (mk_ScheduledRuntimeTaskGroup (parts_namespace parts) (parts_owner_id parts) (parts_claim_ttl parts) [])
    configure.
#[global] Arguments leased_group : simpl never.
