(* ===== verification/ScheduleSpec.v ===== *)
(** * A firing is executed once per claim and completed once

    The contract of the scheduled-task table as a class of laws, and the
    rely-guarantee proof about any number of runners that share it: what a
    runner does between claim and completion, the order of the firings of one
    task, and who may execute a task body at the same time. *)
From S2P Require Export Schedule.

(** ** The table's contract *)
(** The rows a database holds.  A statement that fails may or may not have
    been applied. *)
Class TaskRows (D : Type) := task_rows : D → gmap str ScheduledTaskModel.

Definition assigned_rows (task_id : str) (filter : ScheduledTaskModel → bool) (u : scheduled_task_update)
    (r : gmap str ScheduledTaskModel) : gmap str ScheduledTaskModel :=
  match r !! task_id with
  | Some m => if filter m then <[task_id := assign u m]> r else r
  | None => r
  end.

Class ScheduledTaskTableLaws (D DbErr : Type) `{ScheduledTaskTable D DbErr, TaskRows D} : Prop := {
  task_insert_law task_id m d : match task_insert task_id m d with
    | (Ok _, d') => task_rows d !! task_id = None ∧ task_rows d' = <[task_id := m]> (task_rows d)
    | (Err _, d') => task_rows d' = task_rows d ∨
        task_rows d !! task_id = None ∧ task_rows d' = <[task_id := m]> (task_rows d)
    end;
  task_find_law task_id d : match task_find task_id d with
    | (Ok found, d') => found = task_rows d !! task_id ∧ task_rows d' = task_rows d
    | (Err _, d') => task_rows d' = task_rows d
    end;
  task_update_law task_id filter u d : match task_update task_id filter u d with
    | (Ok n, d') => task_rows d' = assigned_rows task_id filter u (task_rows d) ∧
        (n = 1 ↔ ∃ m, task_rows d !! task_id = Some m ∧ filter m = true)
    | (Err _, d') => task_rows d' = task_rows d ∨ task_rows d' = assigned_rows task_id filter u (task_rows d)
    end;
}.

(** ** The system *)
(** A claim that the database acknowledged: the due time of the firing, the
    claim's timestamp, and the last acknowledged expiry. *)
Record grant : Type := mk_grant {
  grant_firing : Z;
  grant_claimed_at : Z;
  grant_expires_at : Z;
}.

(** A runner: its task, whether its shutdown token and the stop token of its
    renewals are cancelled, and the claim it holds. *)
Record worker : Type := mk_worker {
  worker_task : ScheduledPeriodicTask;
  worker_shutdown : bool;
  worker_stop : bool;
  worker_held : option grant;
}.

(** What happened to firings, newest first: acknowledged claims, executions
    of the body, and acknowledged completions. *)
Inductive log_entry : Type :=
  | Granted (i : nat) (task_id : str) (firing : Z)
  | Ran (i : nat)
  | Finished (i : nat) (task_id : str) (firing : Z).

Record schedule_world (D : Type) : Type := mk_schedule_world {
  task_database : D;
  task_clock : Z;
  workers : list worker;
  task_log : list log_entry;
}.
Arguments mk_schedule_world {D} task_database task_clock workers task_log.
Arguments task_database {D} s.
Arguments task_clock {D} s.
Arguments workers {D} s.
Arguments task_log {D} s.

(** The row of a runner's task. *)
Definition worker_row_id (t : ScheduledPeriodicTask) : str :=
  scheduled_namespace t ++ lit ":" ++ scheduled_task_name t.

Definition set_worker_shutdown (p : worker) : worker :=
  mk_worker (worker_task p) true (worker_stop p) (worker_held p).
Definition set_worker_stop (b : bool) (p : worker) : worker :=
  mk_worker (worker_task p) (worker_shutdown p) b (worker_held p).
Definition set_worker_held (g : option grant) (p : worker) : worker :=
  mk_worker (worker_task p) (worker_shutdown p) (worker_stop p) g.
Definition extend_held (e : Z) (p : worker) : worker :=
  set_worker_held ((λ g, mk_grant (grant_firing g) (grant_claimed_at g) e) <$> worker_held p) p.

(** ** Phases *)
(** Where a runner stands with its last claim, as its log entries tell; [None]
    is a runner that completed what it had not claimed and run, or ran a claim
    twice. *)
Inductive firing_phase : Type := Waiting | Claimed (firing : Z) | Executed (firing : Z).

Definition next_phase (i : nat) (e : log_entry) (s : option firing_phase) : option firing_phase :=
  match e with
  | Granted j _ f => if decide (j = i) then s ≫= λ _, Some (Claimed f) else s
  | Ran j => if decide (j = i)
      then match s with Some (Claimed f) => Some (Executed f) | _ => None end else s
  | Finished j _ f => if decide (j = i)
      then match s with
        | Some (Executed f') => if decide (f' = f) then Some Waiting else None
        | _ => None
        end
      else s
  end.

Definition phase_of (i : nat) (log : list log_entry) : option firing_phase := foldr (next_phase i) (Some Waiting) log.
#[global] Arguments phase_of : simpl never.

(** The process an entry tells of. *)
Definition entry_of (i : nat) (e : log_entry) : Prop :=
  match e with Granted j _ _ | Ran j | Finished j _ _ => j = i end.

Lemma phase_of_others i j es log :
  j ≠ i → Forall (entry_of i) es → phase_of j (es ++ log) = phase_of j log.
Proof.
  intros Hne. induction 1 as [|e es He _ IH]; [done|].
  change (phase_of j ((e :: es) ++ log)) with (next_phase j e (phase_of j (es ++ log))). rewrite IH.
  destruct e as [k T' f|k|k T' f]; cbn in *; subst; by rewrite decide_False by congruence.
Qed.

Section system.
Context {D Outcome DbErr : Type} `{ScheduledTaskTable D DbErr, TaskRows D}.
(** How far the clock of a process may be from the true time. *)
Context (skew : Z).

Definition with_worker (i : nat) (f : worker → worker) (w : schedule_world D) : schedule_world D :=
  mk_schedule_world (task_database w) (task_clock w) (alter f i (workers w)) (task_log w).
Definition with_tasks (d : D) (w : schedule_world D) : schedule_world D :=
  mk_schedule_world d (task_clock w) (workers w) (task_log w).
Definition with_log (es : list log_entry) (w : schedule_world D) : schedule_world D :=
  mk_schedule_world (task_database w) (task_clock w) (workers w) (es ++ task_log w).

Definition told_to_shut_down (i : nat) (w : schedule_world D) : bool :=
  match workers w !! i with Some p => worker_shutdown p | None => true end.
(** The stop token of the renewals is a child of the shutdown token. *)
Definition told_to_stop_renewing (i : nat) (w : schedule_world D) : bool :=
  match workers w !! i with Some p => worker_shutdown p || worker_stop p | None => true end.

(** The due time of a row. *)
Definition due_at (task_id : str) (d : D) : Z :=
  default 0 (task_row_next_run_at <$> task_rows d !! task_id).

(** What runner [i] learns from the answer [r] of an update: its claim, a
    renewal of it, or the completion. *)
Definition worker_update (u : scheduled_task_update) (firing : Z) (r : result DbErr Z) (p : worker) : worker :=
  match assign_claim_owner_id u with
  | Some (Some _) =>
      set_worker_held match r, assign_last_claimed_at u, assign_claim_expires_at u with
        | Ok 1, Some (Some now), Some (Some e) => Some (mk_grant firing now e)
        | _, _, _ => None
        end p
  | Some None => set_worker_held None p
  | None =>
      match r, assign_claim_expires_at u with
      | Ok 1, Some (Some e) => extend_held e p
      | _, _ => p
      end
  end.

Definition logged_update (i : nat) (task_id : str) (u : scheduled_task_update) (firing : Z) (r : result DbErr Z)
    : list log_entry :=
  match r, assign_claim_owner_id u with
  | Ok 1, Some (Some _) => [Granted i task_id firing]
  | Ok 1, Some None => [Finished i task_id firing]
  | _, _ => []
  end.

(** What an event of process [i] does, and the answers it may get. *)
Definition schedule_handle (i : nat) (e : schedule_event Outcome) (w : schedule_world D)
    : schedule_answer DbErr e → schedule_world D → Prop :=
  match e with
  | ShutdownRequested | SleepUnlessShutdown _ => λ x w', x = told_to_shut_down i w ∧ w' = w
  | ClockNow => λ x w', Z.abs (x - task_clock w) ≤ skew ∧ w' = w
  | InsertTask task_id row => λ x w', let '(r, d) := task_insert task_id row (task_database w) in
      x = r ∧ w' = with_tasks d w
  | FindTask task_id => λ x w', let '(r, d) := task_find task_id (task_database w) in
      x = r ∧ w' = with_tasks d w
  | UpdateTask task_id filter u => λ x w', let '(r, d) := task_update task_id filter u (task_database w) in
      let firing := due_at task_id (task_database w) in
      x = r ∧ w' = with_log (logged_update i task_id u firing r)
        (with_tasks d (with_worker i (worker_update u firing r) w))
  | SpawnRenewal => λ _ w', w' = with_worker i (set_worker_stop false) w
  | CancelRenewal => λ _ w', w' = with_worker i (set_worker_stop true) w
  | EitherPart => λ _ w', w' = w
  | RenewalTickOrStop _ | RenewalStopped => λ x w', (x = true → told_to_stop_renewing i w = true) ∧ w' = w
  | RunTask => λ _ w', w' = with_log [Ran i] w
  | RecordOutcome _ _ _ _ => λ _ w', w' = w
  | ReadInterval => λ x w', in_duration x ∧ w' = w
  end.

(** Time passes, and a shutdown token is cancelled. *)
Inductive schedule_environment : schedule_world D → schedule_world D → Prop :=
  | schedule_time_passes t w : task_clock w ≤ t →
      schedule_environment w (mk_schedule_world (task_database w) t (workers w) (task_log w))
  | schedule_shutdown i w : schedule_environment w (with_worker i set_worker_shutdown w).

Definition schedule_start (tasks : list ScheduledPeriodicTask) (d : D) (t : Z) : schedule_world D :=
  mk_schedule_world d t ((λ task, mk_worker task false false None) <$> tasks) [].
End system.

(** ** What the change of a row does to the claims *)
(** Process [o] changes the row of [task_id] under a clock reading [now]. *)
Inductive row_change (o : str) (now : Z) (m m' : ScheduledTaskModel) : Prop :=
  | change_refresh : task_row_next_run_at m' = task_row_next_run_at m →
      task_row_claim_owner_id m' = task_row_claim_owner_id m →
      task_row_claim_expires_at m' = task_row_claim_expires_at m →
      task_row_last_claimed_at m' = task_row_last_claimed_at m → row_change o now m m'
  | change_claim : task_row_next_run_at m' = task_row_next_run_at m →
      (∀ o' x, task_row_claim_owner_id m = Some o' → task_row_claim_expires_at m = Some x → x ≤ now) →
      task_row_claim_owner_id m' = Some o → row_change o now m m'
  | change_own : task_row_next_run_at m ≤ task_row_next_run_at m' →
      task_row_claim_owner_id m = Some o →
      task_row_claim_owner_id m' = Some o ∨ task_row_claim_owner_id m' = None → row_change o now m m'.

Lemma row_change_due o now m m' : row_change o now m m' → task_row_next_run_at m ≤ task_row_next_run_at m'.
Proof. intros []; lia. Qed.

Inductive rows_change (o : str) (now : Z) (task_id : str) (r : gmap str ScheduledTaskModel)
    : gmap str ScheduledTaskModel → Prop :=
  | rows_same : rows_change o now task_id r r
  | rows_new m' : r !! task_id = None → rows_change o now task_id r (<[task_id := m']> r)
  | rows_changed m m' : r !! task_id = Some m → row_change o now m m' →
      rows_change o now task_id r (<[task_id := m']> r).

(** An update is such a change. *)
Lemma assigned_rows_change o now task_id f u r :
  (∀ m, r !! task_id = Some m → f m = true → row_change o now m (assign u m)) →
  rows_change o now task_id r (assigned_rows task_id f u r).
Proof.
  intros Hu. unfold assigned_rows. destruct (r !! task_id) as [m|] eqn:Hm; [|constructor].
  destruct (f m) eqn:Hf; [|constructor]. eapply rows_changed; eauto.
Qed.

(** Rows stay, and their due times only grow. *)
Lemma rows_change_due o now task_id r r' id m :
  rows_change o now task_id r r' → r !! id = Some m →
  ∃ m', r' !! id = Some m' ∧ task_row_next_run_at m ≤ task_row_next_run_at m'.
Proof.
  intros Hr Hm. destruct Hr as [|m' Hn|m0 m' Hm0 Hc].
  - exists m. split; [done|lia].
  - exists m. rewrite lookup_insert_ne by congruence. split; [done|lia].
  - destruct (decide (id = task_id)) as [->|].
    + exists m'. rewrite lookup_insert_eq. split; [done|]. simplify_eq. by eapply row_change_due.
    + exists m. rewrite lookup_insert_ne by done. split; [done|lia].
Qed.

(** ** The invariant *)
Section runners.
Context {D Outcome DbErr : Type} `{SeaOrmError DbErr, ScheduledTaskTableLaws D DbErr}.
Context (max_utc skew : Z) (Hskew : 0 ≤ skew).
Context (panic_outcome : string → Outcome) (random_range : Z → Z → Z).

Abbreviation world := (schedule_world D).
#[local] Abbreviation handle := (schedule_handle (Outcome := Outcome) (DbErr := DbErr) skew).
#[local] Abbreviation rows w := (task_rows (task_database w)).

(** A claim that runner [t] holds: the row is still claimed by it, for this
    firing and at least as long, up to the skew; or the row is someone else's
    and the claim has run out. *)
Definition claim_holds (r : gmap str ScheduledTaskModel) (now : Z) (t : ScheduledPeriodicTask) (g : grant) : Prop :=
  ∃ m, r !! worker_row_id t = Some m ∧
    ((task_row_claim_owner_id m = Some (scheduled_owner_id t) ∧
      task_row_last_claimed_at m = Some (grant_claimed_at g) ∧
      task_row_next_run_at m = grant_firing g ∧
      ∃ x, task_row_claim_expires_at m = Some x ∧ grant_expires_at g ≤ x + 2 * skew) ∨
     (task_row_claim_owner_id m ≠ Some (scheduled_owner_id t) ∧ grant_expires_at g ≤ now + 3 * skew)).

(** Later entries are of later firings than the completed ones. *)
Fixpoint log_ordered (log : list log_entry) : Prop :=
  match log with
  | [] => True
  | e :: log =>
      match e with
      | Granted _ T f | Finished _ T f => ∀ j f', Finished j T f' ∈ log → f' < f
      | Ran _ => True
      end ∧ log_ordered log
  end.

Record schedule_inv (w : world) : Prop := {
  inv_distinct i j p q : i ≠ j → workers w !! i = Some p → workers w !! j = Some q →
    worker_row_id (worker_task p) = worker_row_id (worker_task q) →
    scheduled_owner_id (worker_task p) ≠ scheduled_owner_id (worker_task q);
  inv_held i p g : workers w !! i = Some p → worker_held p = Some g →
    grant_expires_at g ≤ task_clock w + skew + scheduled_claim_ttl (worker_task p) ∧
    claim_holds (rows w) (task_clock w) (worker_task p) g;
  inv_finished j T f : Finished j T f ∈ task_log w →
    ∃ m, rows w !! T = Some m ∧ f < task_row_next_run_at m;
  inv_ordered : log_ordered (task_log w);
  inv_phase i : is_Some (phase_of i (task_log w));
  inv_claimed i p f : workers w !! i = Some p → phase_of i (task_log w) = Some (Claimed f) →
    ∃ g, worker_held p = Some g ∧ grant_firing g = f;
}.

(** The claims of the others survive the change of a row. *)
Lemma rows_change_others o now T r r' t g clock :
  rows_change o now T r r' → now ≤ clock + skew →
  (T = worker_row_id t → o ≠ scheduled_owner_id t) →
  claim_holds r clock t g → claim_holds r' clock t g.
Proof.
  intros Hr Hnow Ho (m & Hm & Hg). destruct Hr as [|m' Hn|m0 m' Hm0 Hc].
  - by exists m.
  - exists m. by rewrite lookup_insert_ne by congruence.
  - destruct (decide (T = worker_row_id t)) as [->|Hne].
    2: { exists m. by rewrite lookup_insert_ne by done. }
    specialize (Ho eq_refl). simplify_eq. exists m'. rewrite lookup_insert_eq. split; [done|].
    destruct Hc as [Hd Hown Hx Hl|Hd Hx Hown|Hd Hmo Hm'].
    + destruct Hg as [(? & ? & ? & x & ? & ?)|[? ?]]; [left|right].
      * split_and!; try congruence. exists x. split; [congruence|done].
      * split; [congruence|done].
    + right. split; [congruence|]. destruct Hg as [(? & ? & ? & x & Hxm & ?)|[? ?]]; [|done].
      specialize (Hx _ _ ltac:(done) Hxm). lia.
    + destruct Hg as [(? & _)|[? ?]]; [congruence|]. right. split; [|done].
      destruct Hm'; congruence.
Qed.

(** What process [i] may add to the log when it changes a row. *)
Definition entry_true (i : nat) (T : str) (r r' : gmap str ScheduledTaskModel) (e : log_entry) : Prop :=
  match e with
  | Granted j T' f => j = i ∧ T' = T ∧ ∃ m, r !! T = Some m ∧ task_row_next_run_at m = f
  | Ran j => j = i
  | Finished j T' f => j = i ∧ T' = T ∧ ∃ m m', r !! T = Some m ∧ task_row_next_run_at m = f ∧
      r' !! T = Some m' ∧ f < task_row_next_run_at m'
  end.

Lemma entry_true_of i T r r' es : Forall (entry_true i T r r') es → Forall (entry_of i) es.
Proof. apply Forall_impl. intros [j T' f|j|j T' f]; cbn; by intros; destruct_and?. Qed.

(** One event of process [i] keeps the invariant. *)
Lemma schedule_inv_step i p f (w : world) d now es s :
  schedule_inv w → workers w !! i = Some p → worker_task (f p) = worker_task p →
  rows_change (scheduled_owner_id (worker_task p)) now (worker_row_id (worker_task p)) (rows w) (task_rows d) →
  now ≤ task_clock w + skew →
  (∀ g, worker_held (f p) = Some g →
     grant_expires_at g ≤ task_clock w + skew + scheduled_claim_ttl (worker_task p) ∧
     claim_holds (task_rows d) (task_clock w) (worker_task p) g) →
  (length es ≤ 1)%nat → Forall (entry_true i (worker_row_id (worker_task p)) (rows w) (task_rows d)) es →
  phase_of i (es ++ task_log w) = Some s →
  (∀ f', s = Claimed f' → ∃ g, worker_held (f p) = Some g ∧ grant_firing g = f') →
  schedule_inv (with_log es (with_tasks d (with_worker i f w))).
Proof.
  intros HI Hp Ht Hr Hnow Hg Hlen Hes Hph Hs.
  assert (∀ j q, alter f i (workers w) !! j = Some q →
    j = i ∧ q = f p ∨ j ≠ i ∧ workers w !! j = Some q) as Hlook.
  { intros j q. destruct (decide (j = i)) as [->|Hne].
    - rewrite list_lookup_alter_eq, Hp. cbn. intros [= <-]. auto.
    - rewrite list_lookup_alter_ne by done. auto. }
  assert (∀ j q, alter f i (workers w) !! j = Some q →
    ∃ q', workers w !! j = Some q' ∧ worker_task q = worker_task q') as Hconf.
  { intros j q [[-> ->]|[_ ?]]%Hlook; [exists p; split; [done|by rewrite Ht]|eauto]. }
  assert (∀ j T f', Finished j T f' ∈ task_log w →
    ∃ m m', rows w !! T = Some m ∧ f' < task_row_next_run_at m ∧
      task_rows d !! T = Some m' ∧ task_row_next_run_at m ≤ task_row_next_run_at m') as Hfin.
  { intros j T f' (m & Hm & Hf)%(inv_finished w HI).
    destruct (rows_change_due _ _ _ _ _ _ _ Hr Hm) as (m' & Hm' & Hd). eauto 10. }
  split; cbn.
  - intros j k q q' Hne (q1 & Hq1 & ->)%Hconf (q2 & Hq2 & ->)%Hconf. by eapply (inv_distinct w HI j k).
  - intros j q g [[-> ->]|[Hne Hj]]%Hlook Hqg; [rewrite Ht; auto|].
    destruct (inv_held w HI j q g Hj Hqg) as [? Hh]. split; [done|].
    eapply rows_change_others; [done..| |done]. intros Heq. by apply (inv_distinct w HI i j).
  - intros j T f' [Hin|Hin]%elem_of_app.
    + destruct (proj1 (list.Forall_forall _ _) Hes _ Hin) as (-> & -> & m & m' & Hm & <- & Hm' & Hlt). eauto.
    + destruct (Hfin j T f' Hin) as (m & m' & _ & Hf & Hm' & Hle). exists m'. split; [done|lia].
  - destruct es as [|e [|]]; cbn in *; [apply HI| |lia]. split; [|apply HI].
    inversion Hes as [|? ? He _]; subst. destruct e as [j T f'|j|j T f']; cbn in He; [..|].
    + destruct He as (-> & -> & m & Hm & <-). intros k f2 (m1 & m2 & Hm1 & Hf2 & _)%Hfin. simplify_eq. lia.
    + done.
    + destruct He as (-> & -> & m & m' & Hm & <- & _). intros k f2 (m1 & m2 & Hm1 & Hf2 & _)%Hfin. simplify_eq. lia.
  - intros j. destruct (decide (j = i)) as [->|Hne]; [by rewrite Hph|].
    rewrite (phase_of_others i j es) by (try done; by eapply entry_true_of). apply HI.
  - intros j q f' [[-> ->]|[Hne Hj]]%Hlook Hq.
    + rewrite Hph in Hq. injection Hq as ->. by apply Hs.
    + rewrite (phase_of_others i j es) in Hq by (try done; by eapply entry_true_of). by eapply (inv_claimed w HI j).
Qed.

(** ** Rely and guarantee

    The state of process [i], and what its body and its renewals, which run
    at the same time, each know of it. *)
Definition local (i : nat) (t : ScheduledPeriodicTask) (g : option grant) (s : firing_phase) (w : world) : Prop :=
  ∃ p, workers w !! i = Some p ∧ worker_task p = t ∧ worker_held p = g ∧ phase_of i (task_log w) = Some s.

Definition body_local (i : nat) (t : ScheduledPeriodicTask) (f c : Z) (s : firing_phase) (w : world) : Prop :=
  ∃ e, local i t (Some (mk_grant f c e)) s w.

Definition renewal_local (i : nat) (t : ScheduledPeriodicTask) (g : grant) (w : world) : Prop :=
  ∃ s, local i t (Some g) s w.

Definition relies (i : nat) (w w' : world) : Prop :=
  (∀ t g s, local i t g s w → local i t g s w') ∧ task_clock w ≤ task_clock w' ∧
  (told_to_shut_down i w = true → told_to_shut_down i w' = true).

Definition body_relies (i : nat) (w w' : world) : Prop :=
  (∀ t f c s, body_local i t f c s w → body_local i t f c s w') ∧ task_clock w ≤ task_clock w'.

Definition renewal_relies (i : nat) (w w' : world) : Prop :=
  (∀ t g, renewal_local i t g w → renewal_local i t g w') ∧ task_clock w ≤ task_clock w'.

#[export] Instance relies_preorder i : PreOrder (relies i).
Proof. split; [intros w; split_and!; auto; lia|]. intros w1 w2 w3 (? & ? & ?) (? & ? & ?). split_and!; [auto|lia|auto]. Qed.
#[export] Instance body_relies_preorder i : PreOrder (body_relies i).
Proof. split; [intros w; split; auto; lia|]. intros w1 w2 w3 [? ?] [? ?]. split; [auto|lia]. Qed.
#[export] Instance renewal_relies_preorder i : PreOrder (renewal_relies i).
Proof. split; [intros w; split; auto; lia|]. intros w1 w2 w3 [? ?] [? ?]. split; [auto|lia]. Qed.

Lemma relies_body i w w' : relies i w w' → body_relies i w w'.
Proof. intros (Hl & ? & _). split; [|done]. intros t f c s [e He]. exists e. auto. Qed.
Lemma relies_renewal i w w' : relies i w w' → renewal_relies i w w'.
Proof. intros (Hl & ? & _). split; [|done]. intros t g [s Hs]. exists s. auto. Qed.

(** Events of process [i] change nothing that another relies on. *)
Lemma with_worker_relies i j f es d (w : world) : j ≠ i → Forall (entry_of i) es →
  relies j w (with_log es (with_tasks d (with_worker i f w))).
Proof.
  intros Hne Hes. split_and!; [|done|].
  - intros t g s (p & Hp & Ht & Hg & Hs). exists p. cbn. rewrite list_lookup_alter_ne by done.
    split_and!; [done..|]. by rewrite (phase_of_others i j es).
  - unfold told_to_shut_down. cbn. by rewrite list_lookup_alter_ne.
Qed.

Lemma logged_update_of i T u firing (r : result DbErr Z) : Forall (entry_of i) (logged_update i T u firing r).
Proof. unfold logged_update. repeat case_match; repeat constructor. Qed.

Lemma no_worker_relies i j es d (w : world) : j ≠ i → Forall (entry_of i) es →
  relies j w (with_log es (with_tasks d w)).
Proof.
  intros Hne Hes. split_and!; [|done|done].
  intros t g s (p & Hp & Ht & Hg & Hs). exists p. split_and!; [done..|]. cbn. by rewrite (phase_of_others i j es).
Qed.

Lemma schedule_handle_relies i j e (w : world) x w' : j ≠ i → handle i e w x w' → relies j w w'.
Proof.
  intros Hne Hx.
  pose proof (λ f es Hes, with_worker_relies i j f es (task_database w) w Hne Hes) as Hworker.
  pose proof (λ es d Hes, no_worker_relies i j es d w Hne Hes) as Hdb.
  destruct e; cbn in Hx; repeat case_match; destruct_and?; subst;
    first [reflexivity|by apply (Hdb [])|by apply (λ f, Hworker f [])|by apply (Hdb [Ran i]); repeat constructor|
      by apply with_worker_relies, logged_update_of].
Qed.

Lemma schedule_inv_environment (w w' : world) :
  schedule_inv w → schedule_environment w w' → schedule_inv w' ∧ ∀ i, relies i w w'.
Proof.
  intros HI Hw. destruct Hw as [t w Ht|i w].
  - split; [|intros i; split_and!; [intros t' g s Hl; exact Hl|done|done]].
    split; [apply HI| |apply HI..]. intros i p g Hp Hg.
    destruct (inv_held w HI i p g Hp Hg) as [? (m & Hm & Hor)]. cbn. split; [lia|]. exists m. split; [done|].
    destruct Hor as [?|[? ?]]; [by left|right; split; [done|lia]].
  - assert (∀ j q, alter set_worker_shutdown i (workers w) !! j = Some q →
      ∃ q', workers w !! j = Some q' ∧ worker_task q = worker_task q' ∧ worker_held q = worker_held q') as Hlook.
    { intros j q. destruct (decide (j = i)) as [->|Hne].
      - rewrite list_lookup_alter_eq. destruct (workers w !! i) as [p|]; cbn; [|done]. intros [= <-]. eauto.
      - rewrite list_lookup_alter_ne by done. eauto. }
    split.
    + split; cbn; [|intros j q g (q' & Hq & -> & ->)%Hlook; by apply (inv_held w HI j)|apply HI|apply HI|apply HI|].
      * intros j k q q' Hne (q1 & Hq1 & -> & _)%Hlook (q2 & Hq2 & -> & _)%Hlook. by eapply (inv_distinct w HI j k).
      * intros j q f (q' & Hq & _ & ->)%Hlook. by eapply (inv_claimed w HI j).
    + intros j. split_and!; [|done|].
      * intros t g s (p & Hp & Htk & Hg & Hs). destruct (decide (j = i)) as [->|Hne].
        -- exists (set_worker_shutdown p). cbn. by rewrite list_lookup_alter_eq, Hp.
        -- exists p. cbn. by rewrite list_lookup_alter_ne.
      * unfold told_to_shut_down. cbn. destruct (decide (j = i)) as [->|Hne].
        -- rewrite list_lookup_alter_eq. by destruct (workers w !! i).
        -- by rewrite list_lookup_alter_ne.
Qed.

(** ** One event at a time *)
#[local] Abbreviation Act := (Process.Act (answer := schedule_answer DbErr)).
#[local] Abbreviation io A := (prog (schedule_answer (Outcome := Outcome) DbErr) A).
#[local] Abbreviation part :=
  (safe_part handle schedule_inv relies (λ (_ : nat) (_ : schedule_event Outcome) (_ : world), True)).
#[local] Abbreviation alone i := (part i (relies i) (λ _ _, True)).

Lemma part_event {A} i Rel Guar (Φ : A → world → Prop) e (k : _ → io A) w :
  (∀ w1, Rel w w1 → schedule_inv w1 → ∀ x w2, handle i e w1 x w2 →
     schedule_inv w2 ∧ Guar w1 w2 ∧ part i Rel Guar Φ (k x) w2) →
  part i Rel Guar Φ (Act e k) w.
Proof.
  intros Hk w1 HR HI. split; [done|]. intros x w2 Hx. destruct (Hk w1 HR HI x w2 Hx) as (? & ? & ?).
  split_and!; [done| |done..]. intros j Hj. by eapply schedule_handle_relies.
Qed.

(** An event that changes nothing. *)
Lemma part_look {A} i Rel Guar `{!Reflexive Guar} (Φ : A → world → Prop) e (k : _ → io A) w :
  (∀ w1 x w2, handle i e w1 x w2 → w2 = w1) →
  (∀ w1 x, Rel w w1 → schedule_inv w1 → handle i e w1 x w1 → part i Rel Guar Φ (k x) w1) →
  part i Rel Guar Φ (Act e k) w.
Proof.
  intros He Hk. apply part_event. intros w1 HR HI x w2 Hx. pose proof (He _ _ _ Hx) as ->. auto.
Qed.

(** A reading of the clock, as long as nothing is known but the skew. *)
Definition clock_read (now : Z) (w : world) : Prop := now ≤ task_clock w + skew.
(** A renewal under this reading does not shorten the claim, up to the skew. *)
Definition renewal_fresh (t : ScheduledPeriodicTask) (g : grant) (now : Z) (w : world) : Prop :=
  clock_read now w ∧ grant_expires_at g ≤ now + scheduled_claim_ttl t + 2 * skew.

Lemma clock_read_later now w w' : clock_read now w → task_clock w ≤ task_clock w' → clock_read now w'.
Proof. unfold clock_read. lia. Qed.

Lemma worker_local_relies i t g s w w' : local i t g s w → relies i w w' → local i t g s w'.
Proof. intros Hl (Hr & _). auto. Qed.

Lemma alone_clock {A} i (Φ : A → world → Prop) (k : Z → io A) t g s w :
  local i t g s w → (∀ now w1, local i t g s w1 → clock_read now w1 → alone i Φ (k now) w1) →
  alone i Φ (Act ClockNow k) w.
Proof.
  intros Hl Hk. apply part_look; [by intros|by intros ? ? ? [_ ->]|].
  intros w1 now HR _ [Hnow _]. apply Hk; [by eapply worker_local_relies|]. unfold clock_read. lia.
Qed.

(** ** Statements *)
Lemma update_rows T f u (d : D) :
  let '(r, d') := task_update (DbErr := DbErr) T f u d in
  (task_rows d' = task_rows d ∨ task_rows d' = assigned_rows T f u (task_rows d)) ∧
  (r = Ok 1 → ∃ m, task_rows d !! T = Some m ∧ f m = true ∧ task_rows d' !! T = Some (assign u m)).
Proof.
  pose proof (task_update_law T f u d) as Hl. destruct (task_update T f u d) as [[n|err] d'].
  - destruct Hl as [Hd Hn]. split; [by right|]. intros [= ->]. destruct (proj1 Hn eq_refl) as (m & Hm & Hf).
    exists m. split_and!; [done..|]. rewrite Hd. unfold assigned_rows. rewrite Hm, Hf. apply lookup_insert_eq.
  - by split.
Qed.

Lemma update_rows_change (o : str) (now : Z) (T : str) (f : ScheduledTaskModel → bool) (u : scheduled_task_update) (r r' : gmap str ScheduledTaskModel) :
  (∀ m, r !! T = Some m → f m = true → row_change o now m (assign u m)) →
  r' = r ∨ r' = assigned_rows T f u r → rows_change o now T r r'.
Proof. intros Hu [->| ->]; [constructor|by apply assigned_rows_change]. Qed.

(** Changes that are no claim, renewal or completion keep every claim. *)
Lemma calm_rows (T : str) (r r' : gmap str ScheduledTaskModel) (t : ScheduledPeriodicTask) (g : grant) (clock : Z) : (∀ o, rows_change o clock T r r') →
  claim_holds r clock t g → claim_holds r' clock t g.
Proof.
  intros Hr. eapply (rows_change_others (0 :: scheduled_owner_id t)); [apply Hr|lia|].
  intros _ Ho. apply (f_equal length) in Ho. cbn in Ho. lia.
Qed.

Lemma inv_calm i p f (w : world) d :
  schedule_inv w → workers w !! i = Some p → (∀ q, worker_task (f q) = worker_task q) →
  (∀ q, worker_held (f q) = worker_held q) →
  (∀ o, rows_change o (task_clock w) (worker_row_id (worker_task p)) (rows w) (task_rows d)) →
  schedule_inv (with_log [] (with_tasks d (with_worker i f w))).
Proof.
  intros HI Hp Ht Hh Hr. destruct (inv_phase w HI i) as [s Hs].
  apply (schedule_inv_step i p f w d (task_clock w) [] s HI Hp (Ht p) (Hr _)); [lia| |cbn; lia|constructor|exact Hs|].
  - intros g. rewrite Hh. intros Hg. destruct (inv_held w HI i p g Hp Hg). split; [done|]. by eapply calm_rows.
  - intros f' ->. rewrite Hh. by apply (inv_claimed w HI i).
Qed.

Lemma with_worker_id i (f : worker → worker) d (w : world) :
  (∀ q, f q = q) → with_log [] (with_tasks d (with_worker i f w)) = with_tasks d w.
Proof.
  intros Hf. unfold with_worker, with_log, with_tasks. cbn. f_equal. apply list_alter_id. auto.
Qed.

Lemma with_worker_same i (w : world) : with_worker i id w = w.
Proof. unfold with_worker. rewrite list_alter_id by done. by destruct w. Qed.

Lemma alone_find {A} i (Φ : A → world → Prop) T (k : _ → io A) t g s now w :
  local i t g s w → clock_read now w →
  (∀ r w1, local i t g s w1 → clock_read now w1 → alone i Φ (k r) w1) →
  alone i Φ (Act (FindTask T) k) w.
Proof.
  intros Hl Hn Hk. apply part_event. intros w1 HR HI r w2 Hx. cbn in Hx.
  pose proof (task_find_law T (task_database w1)) as Hlaw.
  destruct (task_find T (task_database w1)) as [r' d]. destruct Hx as [-> ->].
  assert (task_rows d = rows w1) as Hd by (destruct r'; naive_solver).
  eapply worker_local_relies in Hl; [|done]. destruct HR as (_ & ? & _). split_and!; [|done|].
  - split; cbn; rewrite ?Hd; apply HI.
  - apply Hk; [done|by eapply clock_read_later].
Qed.

Lemma alone_insert {A} i (Φ : A → world → Prop) row (k : _ → io A) t g s now w :
  local i t g s w → clock_read now w →
  (∀ r w1, local i t g s w1 → clock_read now w1 → alone i Φ (k r) w1) →
  alone i Φ (Act (InsertTask (worker_row_id t) row) k) w.
Proof.
  intros Hl Hn Hk. apply part_event. intros w1 HR HI r w2 Hx. cbn in Hx.
  pose proof (task_insert_law (worker_row_id t) row (task_database w1)) as Hlaw.
  destruct (task_insert _ row (task_database w1)) as [r' d]. destruct Hx as [-> ->].
  eapply worker_local_relies in Hl; [|done]. destruct HR as (_ & ? & _).
  split_and!; [|done|apply Hk; [done|by eapply clock_read_later]].
  destruct Hl as (p & Hp & <- & _ & _).
  rewrite <- (with_worker_id i id) by done. eapply inv_calm; [done..|]. intros o.
  destruct r'; [destruct Hlaw as [? ->]|destruct Hlaw as [->|[? ->]]]; by constructor.
Qed.

(** The refresh of a display name. *)
Lemma alone_refresh {A} i (Φ : A → world → Prop) name at_ (k : _ → io A) t g s now w :
  local i t g s w → clock_read now w →
  (∀ r w1, local i t g s w1 → clock_read now w1 → alone i Φ (k r) w1) →
  alone i Φ (Act (UpdateTask (worker_row_id t) (λ _, true)
    (mk_scheduled_task_update name None None None None None at_)) k) w.
Proof.
  intros Hl Hn Hk. apply part_event. intros w1 HR HI r w2 Hx. cbn [schedule_handle] in Hx.
  set (u := mk_scheduled_task_update _ _ _ _ _ _ _) in *.
  pose proof (update_rows (worker_row_id t) (λ _, true) u (task_database w1)) as Hlaw.
  destruct (task_update _ _ _ _) as [r' d]. destruct Hx as [-> ->]. destruct Hlaw as [Hlaw _].
  assert (logged_update i (worker_row_id t) u (due_at (worker_row_id t) (task_database w1)) r' = []) as ->.
  { unfold logged_update. by repeat case_match. }
  rewrite with_worker_id by (intros q; unfold worker_update; cbn; by repeat case_match).
  eapply worker_local_relies in Hl; [|done]. destruct HR as (_ & ? & _).
  split_and!; [|done|apply Hk; [done|by eapply clock_read_later]].
  destruct Hl as (p & Hp & <- & _ & _).
  rewrite <- (with_worker_id i id) by done. eapply inv_calm; [done..|]. intros o.
  eapply update_rows_change; [|done]. intros m _ _. by apply change_refresh.
Qed.

Definition claim_update (o : str) (e now at_ : Z) : scheduled_task_update :=
  mk_scheduled_task_update None None (Some (Some o)) (Some (Some e)) (Some (Some now)) None at_.
Definition renewal_update (e at_ : Z) : scheduled_task_update :=
  mk_scheduled_task_update None None None (Some (Some e)) None None at_.
Definition completion_update (next finished at_ : Z) : scheduled_task_update :=
  mk_scheduled_task_update None (Some next) (Some None) (Some None) None (Some (Some finished)) at_.

Lemma claim_filter_change o e due now at_ m : claim_filter due now m = true →
  row_change o now m (assign (claim_update o e now at_) m) ∧ task_row_next_run_at m = due.
Proof.
  unfold claim_filter. intros [[Hd%bool_decide_eq_true _]%andb_true_iff Hav]%andb_true_iff. split; [|done].
  apply change_claim; [done| |done]. intros o' x Ho Hx. rewrite Ho, Hx in Hav.
  rewrite !bool_decide_false in Hav by done. by apply bool_decide_eq_true in Hav.
Qed.

Lemma due_at_some T (d : D) m : task_rows d !! T = Some m → due_at T d = task_row_next_run_at m.
Proof. unfold due_at. by intros ->. Qed.

Lemma ok_one_dec {E} (r : result E Z) : r = Ok 1 ∨ r ≠ Ok 1.
Proof. destruct r as [n|e]; [destruct (decide (n = 1)) as [->|]|]; [by left|right; congruence..]. Qed.

Lemma not_ok_one {A} (r : result DbErr Z) (a b : A) : r ≠ Ok 1 → match r with Ok 1 => a | _ => b end = b.
Proof. intros Hr. by repeat case_match. Qed.

Lemma logged_update_none i T u firing (r : result DbErr Z) : r ≠ Ok 1 → logged_update i T u firing r = [].
Proof. intros Hr. unfold logged_update. by apply not_ok_one. Qed.

Lemma alone_claim {A} i (Φ : A → world → Prop) (k : _ → io A) t g s now due e at_ w :
  local i t g s w → clock_read now w → (∀ f, s ≠ Claimed f) → e = now + scheduled_claim_ttl t →
  (∀ w1, local i t (Some (mk_grant due now e)) (Claimed due) w1 → alone i Φ (k (Ok 1)) w1) →
  (∀ r w1, r ≠ Ok 1 → local i t None s w1 → alone i Φ (k r) w1) →
  alone i Φ (Act (UpdateTask (worker_row_id t) (claim_filter due now)
    (claim_update (scheduled_owner_id t) e now at_)) k) w.
Proof.
  intros Hl Hn Hs He Hok Herr. apply part_event. intros w1 HR HI r w2 Hx. cbn [schedule_handle] in Hx.
  set (u := claim_update _ _ _ _) in *.
  pose proof (update_rows (worker_row_id t) (claim_filter due now) u (task_database w1)) as Hlaw.
  destruct (task_update _ _ _ _) as [r' d]. destruct Hx as [-> ->]. destruct Hlaw as [Hrows Hone].
  eapply worker_local_relies in Hl; [|done]. destruct HR as (_ & Hclock & _).
  destruct Hl as (p & Hp & <- & Hg & Hph).
  assert (rows_change (scheduled_owner_id (worker_task p)) now (worker_row_id (worker_task p)) (rows w1) (task_rows d)) as Hr.
  { eapply update_rows_change; [|exact Hrows]. intros m _ Hm. exact (proj1 (claim_filter_change _ e due now at_ m Hm)). }
  assert (now ≤ task_clock w1 + skew) as Hnow by (unfold clock_read in Hn; lia).
  destruct (ok_one_dec r') as [->|Hne].
  - destruct (Hone eq_refl) as (m & Hm & Hf & Hm').
    destruct (claim_filter_change (scheduled_owner_id (worker_task p)) e due now at_ m Hf) as [_ Hdue].
    rewrite (due_at_some _ _ m Hm), Hdue.
    assert (phase_of i (Granted i (worker_row_id (worker_task p)) due :: task_log w1) = Some (Claimed due)) as Hph'.
    { unfold phase_of in *. cbn. by rewrite decide_True, Hph. }
    split_and!; [|done|].
    + apply (schedule_inv_step i p (worker_update (DbErr := DbErr) u due (Ok 1)) w1 d now [_] (Claimed due) HI Hp eq_refl Hr Hnow); [|done| |done|].
      * cbn. intros g' [= <-]. split; [cbn; lia|]. exists (assign u m). split; [done|]. left. cbn.
        split_and!; [done..|]. exists e. split; [done|lia].
      * repeat constructor. eauto.
      * intros f' [= <-]. cbn. eauto.
    + apply Hok. exists (worker_update (DbErr := DbErr) u due (Ok 1) p). cbn. by rewrite list_lookup_alter_eq, Hp.
  - rewrite logged_update_none by done.
    set (f := worker_update u (due_at _ _) r').
    assert (worker_task (f p) = worker_task p ∧ worker_held (f p) = None) as [Hft Hfh].
    { subst f. unfold worker_update. cbn. by rewrite not_ok_one. }
    split_and!; [|done|].
    + apply (schedule_inv_step i p f w1 d now [] s HI Hp Hft Hr Hnow); [by rewrite Hfh|cbn; lia|constructor|done|].
      intros f' ->. by destruct (Hs f').
    + apply Herr; [done|]. exists (f p). cbn. by rewrite list_lookup_alter_eq, Hp.
Qed.

(** The row of a held claim that is still owned is due for its firing. *)
Lemma owned_row i p g (w : world) c m :
  schedule_inv w → workers w !! i = Some p → worker_held p = Some g →
  rows w !! worker_row_id (worker_task p) = Some m → owns_claim c m = true →
  firing_owner_id c = scheduled_owner_id (worker_task p) →
  task_row_claim_owner_id m = Some (scheduled_owner_id (worker_task p)) ∧
  task_row_last_claimed_at m = Some (grant_claimed_at g) ∧
  task_row_next_run_at m = grant_firing g ∧
  ∃ x, task_row_claim_expires_at m = Some x ∧ grant_expires_at g ≤ x + 2 * skew.
Proof.
  intros HI Hp Hg Hm [Ho%bool_decide_eq_true _]%andb_true_iff Hc. rewrite Hc in Ho.
  destruct (inv_held w HI i p g Hp Hg) as [_ (m' & Hm' & [?|[? _]])]; simplify_eq; done.
Qed.

Lemma alone_complete {A} i (Φ : A → world → Prop) (k : _ → io A) t g c next finished at_ w :
  local i t (Some g) (Executed (grant_firing g)) w →
  firing_owner_id c = scheduled_owner_id t → grant_firing g < next →
  (∀ r s w1, (∀ f, s ≠ Claimed f) → local i t None s w1 → alone i Φ (k r) w1) →
  alone i Φ (Act (UpdateTask (worker_row_id t) (owns_claim c) (completion_update next finished at_)) k) w.
Proof.
  intros Hl Ho Hnext Hk. apply part_event. intros w1 HR HI r w2 Hx. cbn [schedule_handle] in Hx.
  set (u := completion_update _ _ _) in *.
  pose proof (update_rows (worker_row_id t) (owns_claim c) u (task_database w1)) as Hlaw.
  destruct (task_update _ _ _ _) as [r' d]. destruct Hx as [-> ->]. destruct Hlaw as [Hrows Hone].
  eapply worker_local_relies in Hl; [|done]. destruct Hl as (p & Hp & <- & Hg & Hph).
  assert (rows_change (scheduled_owner_id (worker_task p)) (task_clock w1) (worker_row_id (worker_task p))
    (rows w1) (task_rows d)) as Hr.
  { eapply update_rows_change; [|exact Hrows]. intros m Hm Hf.
    destruct (owned_row i p g w1 c m) as (Hown & _ & Hd & _); [done..|].
    apply change_own; [cbn; lia|done|by right]. }
  assert (task_clock w1 ≤ task_clock w1 + skew) as Hnow by lia.
  destruct (ok_one_dec r') as [->|Hne].
  - destruct (Hone eq_refl) as (m & Hm & Hf & Hm').
    destruct (owned_row i p g w1 c m) as (_ & _ & Hdue & _); [done..|].
    rewrite (due_at_some _ _ m Hm), Hdue. set (f := grant_firing g) in *.
    assert (phase_of i (Finished i (worker_row_id (worker_task p)) f :: task_log w1) = Some Waiting) as Hph'.
    { unfold phase_of in *. cbn. rewrite decide_True by done. rewrite Hph. by rewrite decide_True. }
    split_and!; [|done|].
    + apply (schedule_inv_step i p (worker_update (DbErr := DbErr) u f (Ok 1)) w1 d (task_clock w1) [_] Waiting HI Hp eq_refl Hr Hnow);
        [done|cbn; lia| |done|done].
      repeat constructor. exists m, (assign u m). split_and!; [done..|cbn; lia].
    + apply (Hk _ Waiting); [done|]. exists (worker_update (DbErr := DbErr) u f (Ok 1) p). cbn.
      by rewrite list_lookup_alter_eq, Hp.
  - rewrite logged_update_none by done.
    set (f := worker_update u (due_at _ _) r').
    split_and!; [|done|].
    + by apply (schedule_inv_step i p f w1 d (task_clock w1) [] (Executed (grant_firing g)) HI Hp eq_refl Hr Hnow); [|cbn; lia| |exact Hph|].
    + eapply (Hk _ (Executed (grant_firing g))); [done|]. exists (f p). cbn. by rewrite list_lookup_alter_eq, Hp.
Qed.

(** ** The body and the renewals *)
#[local] Abbreviation body_part i := (part i (body_relies i) (renewal_relies i)).
#[local] Abbreviation renewal_part i := (part i (renewal_relies i) (body_relies i)).

Lemma body_local_relies i t f c s w w' : body_local i t f c s w → body_relies i w w' → body_local i t f c s w'.
Proof. intros Hl [Hr _]. auto. Qed.
Lemma renewal_local_relies i t g w w' : renewal_local i t g w → renewal_relies i w w' → renewal_local i t g w'.
Proof. intros Hl [Hr _]. auto. Qed.

(** A token or the log of the process changes, but no row. *)
Lemma inv_own_step i p f es s (w : world) :
  schedule_inv w → workers w !! i = Some p → worker_task (f p) = worker_task p →
  worker_held (f p) = worker_held p → (length es ≤ 1)%nat → Forall (λ e, e = Ran i) es →
  phase_of i (es ++ task_log w) = Some s →
  (∀ f', s = Claimed f' → phase_of i (task_log w) = Some s) →
  schedule_inv (with_log es (with_worker i f w)).
Proof.
  intros HI Hp Ht Hh Hlen Hes Hs Hc.
  apply (schedule_inv_step i p f w (task_database w) (task_clock w) es s HI Hp Ht); [constructor|lia| |done| |done|].
  - rewrite Hh. intros g. by apply (inv_held w HI i).
  - eapply Forall_impl; [|exact Hes]. by intros e ->.
  - intros f' ->. rewrite Hh. eapply (inv_claimed w HI i); eauto.
Qed.

Lemma body_clock {A} i (Φ : A → world → Prop) (k : Z → io A) t f c s w :
  body_local i t f c s w → (∀ now w1, body_local i t f c s w1 → body_part i Φ (k now) w1) →
  body_part i Φ (Act ClockNow k) w.
Proof.
  intros Hl Hk. apply part_look; [typeclasses eauto|by intros ? ? ? [_ ->]|].
  intros w1 now HR _ _. apply Hk. by eapply body_local_relies.
Qed.

Lemma body_run {A} i (Φ : A → world → Prop) (k : _ → io A) t f c w :
  body_local i t f c (Claimed f) w →
  (∀ r w1, body_local i t f c (Executed f) w1 → body_part i Φ (k r) w1) →
  body_part i Φ (Act RunTask k) w.
Proof.
  intros Hl Hk. apply part_event. intros w1 HR HI r w2 ->.
  eapply body_local_relies in Hl; [|done]. destruct Hl as (e & p & Hp & Ht & Hg & Hph).
  assert (phase_of i ([Ran i] ++ task_log w1) = Some (Executed f)) as Hph'.
  { unfold phase_of in *. cbn. by rewrite decide_True, Hph. }
  split_and!; [| |].
  - rewrite <- (with_worker_same i w1) at 1.
    by apply (inv_own_step i p id [Ran i] _ w1 HI Hp eq_refl eq_refl ltac:(cbn; lia) ltac:(repeat constructor) Hph').
  - split; [|done]. intros t' g [s (q & Hq & ? & ? & _)]. exists (Executed f), q. by simplify_eq.
  - apply Hk. exists e, p. done.
Qed.

Lemma body_cancel {A} i (Φ : A → world → Prop) (k : _ → io A) t f c s w :
  body_local i t f c s w → (∀ r w1, body_local i t f c s w1 → body_part i Φ (k r) w1) →
  body_part i Φ (Act CancelRenewal k) w.
Proof.
  intros Hl Hk. apply part_event. intros w1 HR HI r w2 ->.
  eapply body_local_relies in Hl; [|done]. destruct Hl as (e & p & Hp & Ht & Hg & Hph).
  assert (∀ g s', local i t g s' w1 → local i t g s' (with_worker i (set_worker_stop true) w1)) as Hkeep.
  { intros g s' (q & Hq & ? & ? & ?). exists (set_worker_stop true q). cbn. by rewrite list_lookup_alter_eq, Hq. }
  split_and!.
  - by apply (inv_own_step i p (set_worker_stop true) [] s w1 HI Hp eq_refl eq_refl ltac:(cbn; lia) ltac:(constructor)).
  - split; [|done]. intros t' g [s' (q & Hq & ? & ? & ?)]. exists s', (set_worker_stop true q). cbn.
    by rewrite list_lookup_alter_eq, Hq.
  - apply Hk. exists e. by apply Hkeep; exists p.
Qed.

Lemma renewal_wait {A} i (Φ : A → world → Prop) e (k : _ → io A) t g w :
  renewal_local i t g w → match e with RenewalTickOrStop _ | RenewalStopped => True | _ => False end →
  (∀ x w1, renewal_local i t g w1 → renewal_part i Φ (k x) w1) →
  renewal_part i Φ (Act e k) w.
Proof.
  intros Hl He Hk. apply part_look; [typeclasses eauto| |].
  - intros w1 x w2 Hx. destruct e; try done; by destruct Hx.
  - intros w1 x HR _ _. apply Hk. by eapply renewal_local_relies.
Qed.

Lemma renewal_clock {A} i (Φ : A → world → Prop) (k : Z → io A) t g w :
  renewal_local i t g w →
  (∀ now w1, renewal_local i t g w1 → renewal_fresh t g now w1 → renewal_part i Φ (k now) w1) →
  renewal_part i Φ (Act ClockNow k) w.
Proof.
  intros Hl Hk. apply part_look; [typeclasses eauto|by intros ? ? ? [_ ->]|].
  intros w1 now HR HI [Hnow _]. eapply renewal_local_relies in Hl; [|done]. apply Hk; [done|].
  destruct Hl as (s & p & Hp & <- & Hg & _). destruct (inv_held w1 HI i p g Hp Hg) as [Hb _].
  split; [unfold clock_read; lia|lia].
Qed.

(** A renewal may be stopped between any two events; its reading stays fresh. *)
Lemma renewal_stopped {A} i (Φ : A → world → Prop) (k : _ → io A) t g now w :
  renewal_local i t g w → renewal_fresh t g now w →
  (∀ x w1, renewal_local i t g w1 → renewal_fresh t g now w1 → renewal_part i Φ (k x) w1) →
  renewal_part i Φ (Act RenewalStopped k) w.
Proof.
  intros Hl [Hn Hg] Hk. apply part_look; [typeclasses eauto|by intros ? ? ? [_ ->]|].
  intros w1 x HR _ _. apply Hk; [by eapply renewal_local_relies|]. split; [|done].
  destruct HR as [_ ?]. by eapply clock_read_later.
Qed.

Lemma renewal_renews {A} i (Φ : A → world → Prop) (k : _ → io A) t g c now e at_ w :
  renewal_local i t g w → renewal_fresh t g now w →
  firing_owner_id c = scheduled_owner_id t → e = now + scheduled_claim_ttl t →
  (∀ r e' w1, renewal_local i t (mk_grant (grant_firing g) (grant_claimed_at g) e') w1 → renewal_part i Φ (k r) w1) →
  renewal_part i Φ (Act (UpdateTask (worker_row_id t) (owns_claim c) (renewal_update e at_)) k) w.
Proof.
  intros Hl [Hn Hfresh] Ho He Hk. apply part_event. intros w1 HR HI r w2 Hx. cbn [schedule_handle] in Hx.
  set (u := renewal_update _ _) in *.
  pose proof (update_rows (worker_row_id t) (owns_claim c) u (task_database w1)) as Hlaw.
  destruct (task_update _ _ _ _) as [r' d]. destruct Hx as [-> ->]. destruct Hlaw as [Hrows Hone].
  eapply renewal_local_relies in Hl; [|done]. destruct HR as (_ & Hclock).
  destruct Hl as (s & p & Hp & <- & Hg & Hph).
  set (due := due_at _ _).
  assert (logged_update i (worker_row_id (worker_task p)) u due r' = []) as ->.
  { unfold logged_update. by repeat case_match. }
  assert (rows_change (scheduled_owner_id (worker_task p)) (task_clock w1) (worker_row_id (worker_task p))
    (rows w1) (task_rows d)) as Hr.
  { eapply update_rows_change; [|exact Hrows]. intros m Hm Hf.
    destruct (owned_row i p g w1 c m) as (Hown & _); [done..|]. apply change_own; [cbn; lia|done|by left]. }
  assert (now ≤ task_clock w1 + skew) as Hnow by (unfold clock_read in Hn; lia).
  (* the claim holds after the statement, whether it was applied or not *)
  assert (claim_holds (task_rows d) (task_clock w1) (worker_task p) g) as Hholds.
  { destruct (inv_held w1 HI i p g Hp Hg) as [_ Hh]. destruct Hrows as [->| ->]; [done|].
    destruct Hh as (m & Hm & Hor). unfold assigned_rows. rewrite Hm. destruct (owns_claim c m) eqn:Hf.
    - destruct (owned_row i p g w1 c m) as (Hown & Hlast & Hdue & _); [done..|].
      exists (assign u m). rewrite lookup_insert_eq. split; [done|]. left. cbn.
      split_and!; [done..|]. exists e. split; [done|lia].
    - by exists m. }
  set (f := worker_update u due r').
  assert (worker_task (f p) = worker_task p) as Hft by (subst f; unfold worker_update; cbn; by repeat case_match).
  assert (∃ e', worker_held (f p) = Some (mk_grant (grant_firing g) (grant_claimed_at g) e') ∧
    (e' = grant_expires_at g ∨ e' = e ∧ r' = Ok 1)) as (e' & Hfh & He').
  { destruct (ok_one_dec r') as [->|Hne]; subst f; unfold worker_update; cbn.
    - rewrite Hg. eauto.
    - rewrite not_ok_one by done. exists (grant_expires_at g). rewrite Hg. destruct g. auto. }
  split_and!.
  - apply (schedule_inv_step i p f w1 d (task_clock w1) [] s HI Hp Hft Hr); [lia| |cbn; lia|constructor|exact Hph|].
    + rewrite Hfh. intros g' [= <-]. cbn. destruct He' as [->|[-> ->]].
      * destruct (inv_held w1 HI i p g Hp Hg) as [? _]. split; [done|]. by destruct g.
      * split; [lia|]. destruct (Hone eq_refl) as (m & Hm & Hf & Hm').
        destruct (owned_row i p g w1 c m) as (Hown & Hlast & Hdue & _); [done..|].
        exists (assign u m). split; [done|]. left. cbn. split_and!; [done..|]. exists e. split; [done|lia].
    + intros f' ->. rewrite Hfh. destruct (inv_claimed w1 HI i p f' Hp Hph) as (g' & Hg' & <-).
      simplify_eq. eauto.
  - split; [|done]. intros t' f0 c0 s0 [e0 (q & Hq & Ht & Hg0 & Hs0)]. simplify_eq.
    exists e', (f p). cbn. by rewrite list_lookup_alter_eq, Hp.
  - apply (Hk r' e'). exists s, (f p). cbn. by rewrite list_lookup_alter_eq, Hp.
Qed.

(** ** The programs *)
#[local] Ltac next := cbn [mbind prog_bind_inst prog_bind schedule_act Process.act mret prog_ret_inst].

Lemma claim_expiry_ok now ttl e : claim_expiry max_utc now ttl = Ok e → e = now + ttl.
Proof.
  unfold claim_expiry, chrono_duration_from_std, checked_add. case_decide; cbn; [|done].
  case_decide; cbn; [|done]. by intros [= <-].
Qed.

Lemma row_id_ok t T :
  scheduled_task_row_id (scheduled_namespace t) (scheduled_task_name t) = Ok T → T = worker_row_id t.
Proof. unfold scheduled_task_row_id. case_decide; [done|]. by intros [= <-]. Qed.

Lemma renewal_loop_safe i t claim interval fuel :
  firing_task_id claim = worker_row_id t → firing_owner_id claim = scheduled_owner_id t →
  ∀ g w, renewal_local i t g w →
  renewal_part i (λ _ _, True)
    (run_scheduled_claim_renewal_loop (H := ScheduledTaskDbStore max_utc)
      fuel claim (scheduled_claim_ttl t) interval) w.
Proof.
  intros HT Ho. induction fuel as [|fuel IH]; intros g w Hl; [done|].
  cbn [run_scheduled_claim_renewal_loop]. next. eapply renewal_wait; [done..|].
  intros [] w1 Hl1; next; [done|].
  eapply renewal_clock; [done|]. intros now w2 Hl2 Hf2. next. unfold unless_stopped. next.
  eapply renewal_stopped; [done..|]. intros [] w3 Hl3 Hf3; next; [done|].
  cbn [renew_scheduled_task_claim ScheduledTaskDbStore]. unfold renew_claim.
  cbn [renewal_claim renewal_now renewal_ttl]. rewrite HT.
  destruct (validate_renewal _ ≫= _) as [e|err] eqn:Hval.
  - apply result_bind_ok in Hval as ([] & _ & He%claim_expiry_ok). next.
    eapply renewal_renews; [done..|]. intros r e' w4 Hl4. next.
    eapply renewal_wait; [done..|]. intros stopped w5 Hl5. next.
    destruct stopped; [done|]. destruct r as [n|err]; [case_bool_decide|]; next; [by eapply IH|done|by eapply IH].
  - next. eapply renewal_wait; [done..|]. intros [] w5 Hl5; next; [done|by eapply IH].
Qed.

Definition idle (s : firing_phase) : Prop := ∀ f, s ≠ Claimed f.

Lemma body_safe i t f c w :
  body_local i t f c (Claimed f) w →
  body_part i (λ _ w, body_local i t f c (Executed f) w) (run_task_body panic_outcome) w.
Proof.
  intros Hl. unfold run_task_body. next. eapply body_clock; [done|]. intros started w1 Hl1. next.
  eapply body_run; [done|]. intros ran w2 Hl2. next.
  eapply body_clock; [done|]. intros finished w3 Hl3. next. by eapply body_cancel.
Qed.

(** The body with its renewals. *)
Lemma run_renewed_safe {A} i t g claim fuel (Φ : A → world → Prop) (k : _ → io A) w :
  firing_task_id claim = worker_row_id t → firing_owner_id claim = scheduled_owner_id t →
  local i t (Some g) (Claimed (grant_firing g)) w →
  (∀ r e w1, local i t (Some (mk_grant (grant_firing g) (grant_claimed_at g) e)) (Executed (grant_firing g)) w1 →
     alone i Φ (k r) w1) →
  alone i Φ (prog_bind k (run_renewed (H := ScheduledTaskDbStore max_utc) panic_outcome fuel claim
    (scheduled_claim_ttl t))) w.
Proof.
  intros HT Ho Hl Hk. unfold run_renewed. next. apply part_event. intros w1 HR HI r w2 ->.
  eapply worker_local_relies in Hl; [|done]. destruct Hl as (p & Hp & Ht & Hg & Hph).
  assert (schedule_inv (with_worker i (set_worker_stop false) w1)) as HI2.
  { by apply (inv_own_step i p (set_worker_stop false) [] _ w1 HI Hp eq_refl eq_refl ltac:(cbn; lia) ltac:(constructor) Hph). }
  assert (local i t (Some g) (Claimed (grant_firing g)) (with_worker i (set_worker_stop false) w1)) as Hl2.
  { exists (set_worker_stop false p). cbn. by rewrite list_lookup_alter_eq, Hp. }
  split_and!; [done..|]. apply safe_part_bind.
  apply safe_part_mono with (Φ := λ r w, body_local i t (grant_firing g) (grant_claimed_at g)
    (Executed (grant_firing g)) w ∧ True).
  { intros [x y] w3 [[e He] _]. by eapply Hk. }
  apply safe_par with (choose := EitherPart) (Relp := body_relies i) (Relq := renewal_relies i)
    (Φ := λ _ w, body_local i t (grant_firing g) (grant_claimed_at g) (Executed (grant_firing g)) w)
    (Ψ := λ _ _, True); try done; try typeclasses eauto.
  - apply relies_body.
  - apply relies_renewal.
  - intros a s s' Hs HR' _. exact (body_local_relies _ _ _ _ _ _ _ Hs HR').
  - apply body_safe. exists (grant_expires_at g). by destruct g.
  - eapply renewal_loop_safe; [done..|]. by exists (Claimed (grant_firing g)).
Qed.

Lemma ensure_safe {A} i t g s now entry (Φ : A → world → Prop) (k : _ → io A) w :
  catalog_namespace entry = scheduled_namespace t → catalog_task_name entry = scheduled_task_name t →
  local i t g s w → clock_read now w →
  (∀ r w1, local i t g s w1 → clock_read now w1 → alone i Φ (k r) w1) →
  alone i Φ (prog_bind k (ensure_scheduled_task (ScheduledTaskStore := ScheduledTaskDbStore max_utc) entry)) w.
Proof.
  intros Hns Hname Hl Hn Hk. cbn [ensure_scheduled_task ScheduledTaskDbStore]. unfold ensure_task. rewrite Hns, Hname.
  destruct (validate_catalog_entry entry ≫= _) as [T|err] eqn:Hval; next; [|by apply Hk].
  apply result_bind_ok in Hval as ([] & _ & ->%row_id_ok).
  eapply alone_insert; [done..|]. intros [row|err] w1 Hl1 Hn1; next; [by apply Hk|].
  unfold refresh_existing_task. next. eapply alone_find; [done..|]. intros [[m|]|e] w2 Hl2 Hn2; next; [|by apply Hk..].
  case_decide; next; [by apply Hk|]. eapply alone_refresh; [done..|].
  intros [n|e] w3 Hl3 Hn3; next; [|by apply Hk].
  eapply alone_find; [done..|]. intros r w4 Hl4 Hn4. next. by apply Hk.
Qed.

Lemma claim_safe {A} i t g s now (Φ : A → world → Prop) (k : _ → io A) w :
  local i t g s w → clock_read now w → idle s →
  (∀ r g' w1, (∀ c, r ≠ Ok (Some c)) → local i t g' s w1 → alone i Φ (k r) w1) →
  (∀ c g' w1, firing_task_id c = worker_row_id t → firing_owner_id c = scheduled_owner_id t →
     firing_scheduled_at c = grant_firing g' →
     local i t (Some g') (Claimed (grant_firing g')) w1 → alone i Φ (k (Ok (Some c))) w1) →
  alone i Φ (prog_bind k (claim_scheduled_task (ScheduledTaskStore := ScheduledTaskDbStore max_utc)
    (mk_ScheduledTaskClaimRequest (scheduled_namespace t) (scheduled_task_name t) (scheduled_owner_id t) now
      (scheduled_claim_ttl t)))) w.
Proof.
  intros Hl Hn Hs Hnone Hsome. cbn [claim_scheduled_task ScheduledTaskDbStore]. unfold claim_due.
  cbn [claiming_namespace claiming_task_name claiming_owner_id claiming_now claiming_ttl].
  destruct (validate_claim_request _ ≫= _) as [T|err] eqn:Hval; next; [|by eapply Hnone].
  apply result_bind_ok in Hval as ([] & _ & ->%row_id_ok).
  eapply alone_find; [done..|]. intros [[m|]|e] w1 Hl1 Hn1; next; [|by eapply Hnone..].
  case_decide; next; [by eapply Hnone|]. destruct (is_claim_fresh m now); next; [by eapply Hnone|].
  destruct (claim_expiry max_utc now (scheduled_claim_ttl t)) as [e|err] eqn:He; next; [|by eapply Hnone].
  eapply alone_claim; [done..|by eapply claim_expiry_ok| |].
  - intros w2 Hl2. next. rewrite decide_False by congruence. by apply (Hsome _ (mk_grant (task_row_next_run_at m) now e)).
  - intros [n|err] w2 Hne Hl2; next; [|by eapply Hnone].
    rewrite decide_True by congruence. by eapply Hnone.
Qed.

Lemma alone_asks {A} i (Φ : A → world → Prop) e (k : _ → io A) t g s w :
  local i t g s w → match e with RecordOutcome _ _ _ _ | ReadInterval => True | _ => False end →
  (∀ x w1, local i t g s w1 → alone i Φ (k x) w1) → alone i Φ (Act e k) w.
Proof.
  intros Hl He Hk. apply part_look; [by intros| |].
  - intros w1 x w2 Hx. destruct e; try done. by destruct Hx.
  - intros w1 x HR _ _. apply Hk. by eapply worker_local_relies.
Qed.

Lemma finish_safe {A} i t g c started finished outcome (Φ : A → world → Prop) (k : _ → io A) w :
  firing_task_id c = worker_row_id t → firing_owner_id c = scheduled_owner_id t →
  firing_scheduled_at c = grant_firing g → local i t (Some g) (Executed (grant_firing g)) w →
  (∀ g' s' w1, local i t g' s' w1 → idle s' → alone i Φ (k tt) w1) →
  alone i Φ (prog_bind k (finish_firing (H := ScheduledTaskDbStore max_utc) max_utc c started finished outcome)) w.
Proof.
  intros HT Ho Hf Hl Hk. unfold finish_firing. next. eapply alone_asks; [done..|].
  intros [[]|e] w1 Hl1; next; [|by eapply Hk].
  eapply alone_asks; [done..|]. intros interval w2 Hl2. next.
  destruct (next_scheduled_run_at max_utc finished interval) as [due|]; next; [|by eapply Hk].
  cbn [complete_scheduled_task ScheduledTaskDbStore]. unfold complete_claim, validate_completion.
  cbn [completion_claim completion_finished_at completion_next_run_at].
  case_decide; next; [by eapply Hk|]. rewrite HT.
  eapply alone_complete; [done..|lia|]. intros r s w3 Hs Hl3. next. by eapply Hk.
Qed.

Lemma iteration_safe {A} i t g s fuel (Φ : A → world → Prop) (k : _ → io A) w :
  local i t g s w → idle s →
  (∀ g' s' w1, local i t g' s' w1 → idle s' → alone i Φ (k (Some tt)) w1) → (∀ w1, alone i Φ (k None) w1) →
  alone i Φ (prog_bind k (run_scheduled_periodic_iteration (H := ScheduledTaskDbStore max_utc)
    max_utc panic_outcome fuel t)) w.
Proof.
  intros Hl Hs Hk Hnone. unfold run_scheduled_periodic_iteration. next.
  eapply alone_clock; [done|]. intros now w1 Hl1 Hn1. next.
  apply safe_part_assoc. eapply ensure_safe; [done..|]. intros [[]|e] w2 Hl2 Hn2; [|by eapply Hk].
  apply safe_part_assoc. eapply claim_safe; [done..| |].
  { intros [[c|]|e] g' w3 Hc Hl3; [by destruct (Hc c)|by eapply Hk..]. }
  intros c g' w3 HT Ho Hf Hl3. apply safe_part_assoc. eapply run_renewed_safe; [done..|].
  intros [[[started finished] outcome] [[]|]] e w4 Hl4; [|apply Hnone].
  apply safe_part_assoc. by eapply (finish_safe i t (mk_grant (grant_firing g') (grant_claimed_at g') e)).
Qed.

(** A runner ends only when it is told to. *)
Definition shut_down (i : nat) (r : option unit) (w : world) : Prop :=
  r = Some tt → told_to_shut_down i w = true.

Lemma shut_down_stable i : stable schedule_inv relies i (shut_down i).
Proof. intros r w w' He (_ & _ & Hs) _ Hr. auto. Qed.

Lemma alone_cancelled {A} i (Φ : A → world → Prop) (k : _ → io A) t g s w :
  local i t g s w → (∀ w1, told_to_shut_down i w1 = true → alone i Φ (k true) w1) →
  (∀ w1, local i t g s w1 → alone i Φ (k false) w1) →
  alone i Φ (Act ShutdownRequested k) w.
Proof.
  intros Hl Ht Hf. apply part_look; [by intros|by intros ? ? ? [_ ->]|].
  intros w1 [] HR _ [Hx _]; [by apply Ht|]. apply Hf. by eapply worker_local_relies.
Qed.

Lemma alone_sleep {A} i (Φ : A → world → Prop) d (k : _ → io A) t g s w :
  local i t g s w → (∀ w1, told_to_shut_down i w1 = true → alone i Φ (k true) w1) →
  (∀ w1, local i t g s w1 → alone i Φ (k false) w1) →
  alone i Φ (Act (SleepUnlessShutdown d) k) w.
Proof.
  intros Hl Ht Hf. apply part_look; [by intros|by intros ? ? ? [_ ->]|].
  intros w1 [] HR _ [Hx _]; [by apply Ht|]. apply Hf. by eapply worker_local_relies.
Qed.

Lemma scheduled_loop_safe i t fuel : ∀ g s w, local i t g s w → idle s →
  alone i (shut_down i) (scheduled_loop (H := ScheduledTaskDbStore max_utc) max_utc panic_outcome random_range fuel t) w.
Proof.
  induction fuel as [|fuel IH]; intros g s w Hl Hs; [done|]. cbn [scheduled_loop]. next.
  eapply alone_asks; [done..|]. intros interval w1 Hl1. next.
  eapply alone_sleep; [done| |]; [intros w2 Hw2; next; by intros _|]. intros w2 Hl2. next.
  eapply alone_cancelled; [done| |]; [intros w3 Hw3; next; by intros _|]. intros w3 Hl3. next.
  eapply iteration_safe; [done..| |done]. intros g' s' w4 Hl4 Hs4. by eapply IH.
Qed.

Lemma runner_safe i t fuel g s w : local i t g s w → idle s →
  safe handle schedule_inv relies (λ _ _ _, True) i (shut_down i)
    (run_scheduled_periodic_task (H := ScheduledTaskDbStore max_utc) max_utc panic_outcome random_range fuel t) w.
Proof.
  intros Hl Hs. apply safe_part_safe. unfold run_scheduled_periodic_task. next.
  eapply alone_cancelled; [done| |]; [intros w1 Hw1; next; by intros _|]. intros w1 Hl1. next.
  eapply iteration_safe; [done..| |done]. intros g' s' w4 Hl4 Hs4. by eapply scheduled_loop_safe.
Qed.
End runners.

(** ** The system of all runners *)
(** No two runners of one task share an owner id. *)
Definition distinct_workers (tasks : list ScheduledPeriodicTask) : Prop :=
  NoDup ((λ t, (worker_row_id t, scheduled_owner_id t)) <$> tasks).

(** Entries above a completion in the log are of later firings. *)
Lemma log_ordered_after l1 i T f l2 j f' :
  log_ordered (l1 ++ Finished i T f :: l2) → Granted j T f' ∈ l1 ∨ Finished j T f' ∈ l1 → f < f'.
Proof.
  intros Hl Hin.
  assert (∃ e, e ∈ l1 ∧ (e = Granted j T f' ∨ e = Finished j T f')) as (e & He & Hor) by naive_solver.
  clear Hin. induction l1 as [|e' l1 IH]; [by apply elem_of_nil in He|]. cbn in Hl. destruct Hl as [Hhd Htl].
  apply elem_of_cons in He as [<-|He]; [|by apply IH].
  assert (Finished i T f ∈ l1 ++ Finished i T f :: l2) as Hf by (apply elem_of_app; right; left).
  destruct Hor as [->| ->]; by eapply Hhd.
Qed.
Section scheduled_system.
Context {D Outcome DbErr : Type} `{SeaOrmError DbErr, ScheduledTaskTableLaws D DbErr}.
Context (max_utc skew : Z) (Hskew : 0 ≤ skew).
Context (panic_outcome : string → Outcome) (random_range : Z → Z → Z).

Definition schedule_system (fuel : nat) (tasks : list ScheduledPeriodicTask) (d : D) (t : Z)
    : system (schedule_answer (Outcome := Outcome) DbErr) (schedule_world D) (option unit) :=
  (run_scheduled_periodic_task (H := ScheduledTaskDbStore max_utc) max_utc panic_outcome random_range fuel <$> tasks,
   schedule_start tasks d t).

Lemma schedule_start_lookup tasks (d : D) t i p :
  workers (schedule_start tasks d t) !! i = Some p ↔
  ∃ task, tasks !! i = Some task ∧ p = mk_worker task false false None.
Proof. cbn. rewrite list_lookup_fmap. destruct (tasks !! i); cbn; naive_solver. Qed.

Lemma schedule_system_safe fuel tasks d t c :
  distinct_workers tasks →
  sys_steps (schedule_handle skew) schedule_environment (schedule_system fuel tasks d t) c →
  all_safe (schedule_handle skew) (schedule_inv skew) relies (λ _ _ _, True) (λ i, shut_down i) c.
Proof.
  intros Hd. apply safe_reachable.
  - intros i. apply _.
  - intros i. apply shut_down_stable.
  - intros w w'. by apply schedule_inv_environment.
  - split; cbn.
    + split; cbn; [|by intros i p g (task & _ & ->)%(schedule_start_lookup tasks d t)|by intros i T f []%elem_of_nil|done|by eexists|done].
      intros i j p q Hne (ti & Hi & ->)%(schedule_start_lookup tasks d t) (tj & Hj & ->)%(schedule_start_lookup tasks d t). cbn.
      intros Hrow Ho. apply Hne, (NoDup_lookup _ _ _ (worker_row_id ti, scheduled_owner_id ti) Hd).
      * by rewrite list_lookup_fmap, Hi.
      * rewrite list_lookup_fmap, Hj. cbn. by rewrite Hrow, Ho.
    + intros i p. rewrite list_lookup_fmap. destruct (tasks !! i) as [task|] eqn:Hi; cbn; [|done].
      intros [= <-]. apply runner_safe with (g := None) (s := Waiting); [done| |done].
      exists (mk_worker task false false None). cbn. by rewrite list_lookup_fmap, Hi.
Qed.

End scheduled_system.

(** Groups of different processes that register each task once. *)
Lemma group_tasks_spec configure parts :
  group_tasks (leased_group configure parts) =
  (λ r : task_registration, mk_ScheduledPeriodicTask (parts_namespace parts) r.1.1 r.1.2
     (lit (parts_owner_id parts)) (parts_claim_ttl parts) r.2) <$> configure.
Proof.
  unfold leased_group.
  assert (∀ g, group_namespace g = parts_namespace parts → group_owner_id g = parts_owner_id parts →
    group_claim_ttl g = parts_claim_ttl parts →
    group_tasks (foldl (λ g r, ScheduledRuntimeTaskGroup_scheduled r g) g configure) =
    group_tasks g ++ ((λ r : task_registration, mk_ScheduledPeriodicTask (parts_namespace parts) r.1.1 r.1.2
     (lit (parts_owner_id parts)) (parts_claim_ttl parts) r.2) <$> configure)) as Hg; [|by rewrite Hg].
  induction configure as [|[[name display] jitter] configure IH]; intros g Hn Ho Ht; cbn; [by rewrite app_nil_r|].
  rewrite IH by done. cbn. rewrite Hn, Ho, Ht. by rewrite <- app_assoc.
Qed.

Lemma lit_inj s s' : lit s = lit s' → s = s'.
Proof.
  revert s'. induction s as [|a s IH]; intros [|a' s']; cbn; try done. intros [= Ha Hs].
  f_equal; [|by apply IH]. apply Nat2Z.inj in Ha.
  by rewrite <- (Ascii.ascii_nat_embedding a), <- (Ascii.ascii_nat_embedding a'), Ha.
Qed.

Lemma leased_groups_distinct (groups : list (list task_registration * LeasedScheduledRuntimeParts)) :
  NoDup ((λ g, parts_owner_id g.2) <$> groups) →
  Forall (λ g : list task_registration * LeasedScheduledRuntimeParts, NoDup ((λ r : task_registration, r.1.1) <$> g.1)) groups →
  distinct_workers (groups ≫= λ g, group_tasks (leased_group g.1 g.2)).
Proof.
  unfold distinct_workers. induction groups as [|[configure parts] groups IH]; cbn; [constructor|].
  intros [Hown Hnd]%list.NoDup_cons [Hreg Hall]%list.Forall_cons. rewrite fmap_app. apply list.NoDup_app. split_and!.
  - rewrite group_tasks_spec, <- list_fmap_compose. cbn in Hreg.
    revert Hreg. induction configure as [|r configure IHc]; cbn; [constructor|].
    intros [Hr Hc]%list.NoDup_cons. apply list.NoDup_cons. split; [|by apply IHc].
    intros (r' & Heq & Hin)%list_elem_of_fmap. apply Hr, list_elem_of_fmap. exists r'. split; [|done].
    unfold worker_row_id in Heq. cbn in Heq. injection Heq as Heq. by simplify_list_eq.
  - intros [T o] (t & [= -> ->] & Ht)%list_elem_of_fmap (t' & [= Hrow Ho] & Ht')%list_elem_of_fmap.
    rewrite group_tasks_spec in Ht. apply list_elem_of_fmap in Ht as (r & -> & _). cbn in Ho.
    apply list_elem_of_bind in Ht' as ([configure' parts'] & Ht' & Hin).
    cbn in Ht'. rewrite group_tasks_spec in Ht'. apply list_elem_of_fmap in Ht' as (r' & -> & _). cbn in Ho.
    apply Hown, list_elem_of_fmap. exists (configure', parts'). split; [|done]. by apply lit_inj.
  - by apply IH.
Qed.

(** Row ids do not tell a namespace that holds a colon from a task name that
    does: two catalogue entries then share one row. *)
Lemma row_ids_collide : ∃ ns name ns' name',
  (ns, name) ≠ (ns', name') ∧ scheduled_task_row_id ns name = scheduled_task_row_id ns' name' ∧
  (∃ T, scheduled_task_row_id ns name = Ok T) ∧
  (∀ at_, validate_catalog_entry (mk_ScheduledTaskCatalogEntry ns name name at_) = Ok tt) ∧
  (∀ at_, validate_catalog_entry (mk_ScheduledTaskCatalogEntry ns' name' name' at_) = Ok tt).
Proof.
  exists (lit "drive:mail"), (lit "sync"), (lit "drive"), (lit "mail:sync").
  split_and!; [done|reflexivity|eexists; reflexivity|reflexivity|reflexivity].
Qed.

(** ** Running the system *)
Section running.
Context {D DbErr : Type} `{SeaOrmError DbErr, ScheduledTaskTable D DbErr, TaskRows D}.

(** The event of runner [i]: bodies and recorders return, the interval is a
    minute, and [b] answers the choices. *)
Definition perform (i : nat) (b : bool) (e : schedule_event unit) (w : schedule_world D)
    : schedule_answer DbErr e * schedule_world D :=
  match e with
  | ShutdownRequested | SleepUnlessShutdown _ => (told_to_shut_down i w, w)
  | ClockNow => (task_clock w, w)
  | InsertTask T row => let '(r, d) := task_insert T row (task_database w) in (r, with_tasks d w)
  | FindTask T => let '(r, d) := task_find T (task_database w) in (r, with_tasks d w)
  | UpdateTask T filter u => let '(r, d) := task_update T filter u (task_database w) in
      let firing := due_at T (task_database w) in
      (r, with_log (logged_update i T u firing r) (with_tasks d (with_worker i (worker_update u firing r) w)))
  | SpawnRenewal => (tt, with_worker i (set_worker_stop false) w)
  | CancelRenewal => (tt, with_worker i (set_worker_stop true) w)
  | EitherPart => (b, w)
  | RenewalTickOrStop _ | RenewalStopped => (b && told_to_stop_renewing i w, w)
  | RunTask => (Ok tt, with_log [Ran i] w)
  | RecordOutcome _ _ _ _ => (Ok tt, w)
  | ReadInterval => (from_secs 60, w)
  end.

Lemma schedule_perform_handle i b e (w : schedule_world D) :
  schedule_handle 0 i e w (perform i b e w).1 (perform i b e w).2.
Proof.
  destruct e; cbn; try done.
  - split; [lia|done].
  - by destruct (task_insert _ _ _).
  - by destruct (task_find _ _).
  - by destruct (task_update _ _ _ _).
  - split; [|done]. by intros [_ ?]%andb_true_iff.
  - split; [|done]. by intros [_ ?]%andb_true_iff.
Qed.

Inductive turn : Type := Step (i : nat) (b : bool) | Wait (t : Z).

Definition run_one (s : turn) (c : system (schedule_answer (Outcome := unit) DbErr) (schedule_world D) (option unit))
    : option (system (schedule_answer (Outcome := unit) DbErr) (schedule_world D) (option unit)) :=
  match s with
  | Step i b =>
      match c.1 !! i with
      | Some (Act e k) => let '(x, w) := perform i b e c.2 in Some (<[i := k x]> c.1, w)
      | _ => None
      end
  | Wait t => if decide (task_clock c.2 ≤ t)
              then Some (c.1, mk_schedule_world (task_database c.2) t (workers c.2) (task_log c.2)) else None
  end.

Fixpoint run_all (l : list turn) (c : system (schedule_answer (Outcome := unit) DbErr) (schedule_world D) (option unit)) :=
  match l with
  | [] => Some c
  | s :: l => match run_one s c with Some c => run_all l c | None => None end
  end.

Lemma schedule_run_steps l c c' : run_all l c = Some c' →
  sys_steps (schedule_handle (D := D) (DbErr := DbErr) 0) schedule_environment c c'.
Proof.
  revert c. induction l as [|s l IH]; intros c; cbn; [intros [= ->]; constructor|].
  destruct (run_one s c) as [c1|] eqn:Hs; [|done]. intros Hl. eapply rtc_l; [|by apply IH].
  destruct c as [ps w]. destruct s as [i b|t]; cbn in Hs.
  - exists (Some i). destruct (ps !! i) as [[r|e k]|] eqn:Hi; try done.
    pose proof (schedule_perform_handle i b e w) as Hp. destruct (perform i b e w) as [x w'].
    injection Hs as <-. by apply (step_process _ _ i e k x).
  - exists None. case_decide; [|done]. injection Hs as <-. apply step_env. by apply schedule_time_passes.
Qed.
End running.

(** A table in memory. *)
Module MemoryTasks.

#[export] Instance memory_error : SeaOrmError string := {|
  DbErr_to_string e := e;
  DbErr_is_connection _ := false;
  DbErr_driver _ := None;
  DbErr_custom m := m;
|}.

#[export] Instance memory_task_table : ScheduledTaskTable (gmap str ScheduledTaskModel) string := {|
  task_insert id m d :=
    match d !! id with Some _ => (Err "duplicate key"%string, d) | None => (Ok m, <[id := m]> d) end;
  task_find id d := (Ok (d !! id), d);
  task_update id f u d := (Ok match d !! id with Some m => if f m then 1 else 0 | None => 0 end,
    assigned_rows id f u d);
|}.

#[export] Instance memory_task_rows : TaskRows (gmap str ScheduledTaskModel) := λ d, d.

#[export] Instance memory_task_laws : ScheduledTaskTableLaws (gmap str ScheduledTaskModel) string.
Proof.
  split; unfold task_rows, memory_task_rows; cbn; try done.
  - intros id m d. destruct (d !! id) eqn:Hd; auto.
  - intros id f u d. split; [done|]. destruct (d !! id) as [m|]; [destruct (f m) eqn:Hf|]; split; intros Hx;
      try done; try (by exists m); destruct Hx as (? & [= <-] & ?); congruence.
Qed.

Definition task (owner : string) : ScheduledPeriodicTask :=
  mk_ScheduledPeriodicTask (lit "drive") (lit "sync") (lit "Sync") (lit owner) (from_secs 120) None.

Definition tasks : list ScheduledPeriodicTask := [task "node-a"; task "node-b"].

Lemma tasks_distinct : distinct_workers tasks.
Proof. apply (bool_decide_unpack _). vm_compute. exact I. Qed.

Definition max_utc : Z := from_secs (10 ^ 11).

Definition start := schedule_system (DbErr := string) max_utc (λ _, tt) (λ lo _, lo) 10 tasks
  (∅ : gmap str ScheduledTaskModel) 0.

Definition go (n i : nat) : list turn := replicate n (Step i true).

Definition state : Type :=
  system (schedule_answer (Outcome := unit) string) (schedule_world (gmap str ScheduledTaskModel)) (option unit).

(** Node a claims the first firing and stalls before its first renewal; node b
    takes over once the claim has expired. *)
Definition takeover : list turn := go 6 0 ++ [Wait (from_secs 120)] ++ go 6 1.

(** Both then run the body and try to complete. *)
Definition race : list turn := takeover ++ go 13 1 ++ go 12 0.

Definition T : str := lit "drive:sync".

Definition log_of (l : list turn) : option (list log_entry) := (λ c : state, reverse (task_log c.2)) <$> run_all l start.

Example takeover_log : log_of takeover = Some [Granted 0 T 0; Granted 1 T 0].
Proof. vm_compute. reflexivity. Qed.

(** Node b completes; node a's completion is refused. *)
Example race_log : log_of race = Some [Granted 0 T 0; Granted 1 T 0; Ran 1; Finished 1 T 0; Ran 0].
Proof. vm_compute. reflexivity. Qed.

(** A minute after its completion the task is due again, and node a gets the
    next firing. *)
Example next_firing_log : log_of (race ++ [Wait (from_secs 180)] ++ go 8 0) =
  Some [Granted 0 T 0; Granted 1 T 0; Ran 1; Finished 1 T 0; Ran 0; Granted 0 T (from_secs 180)].
Proof. vm_compute. reflexivity. Qed.

(** A renewal keeps node b away. *)
Example renewed_log :
  log_of (go 6 0 ++ [Wait (from_secs 60)] ++ replicate 8 (Step 0 false) ++ [Wait (from_secs 120)] ++ go 6 1) =
  Some [Granted 0 T 0].
Proof. vm_compute. reflexivity. Qed.

End MemoryTasks.

Import (hints) MemoryTasks.

(** C29. A firing is executed once per claim and completed at most once.  Any
    number of runners share one catalogue whose statements are atomic and may
    fail before or after taking effect; clocks stay within [skew] of the true
    time, and no two runners of a task share an owner id.  However runners and
    their renewals interleave: each runner runs the body at most once per
    acknowledged claim, and completes only the claim it has run, for the
    firing it claimed; once a firing is completed its row is due later, and
    every claim and completion of the task from then on is of a later firing;
    of two runners that may be inside the body of one task, one has outlived
    its last acknowledged claim or renewal, up to three times the skew; and a
    runner ends only when its shutdown is requested. *)
Theorem scheduled_firings {D Outcome DbErr : Type} `{SeaOrmError DbErr, ScheduledTaskTableLaws D DbErr}
    (max_utc skew : Z) (panic_outcome : string → Outcome) (random_range : Z → Z → Z)
    (fuel : nat) (tasks : list ScheduledPeriodicTask) (d : D) (t : Z)
    (c : system (schedule_answer DbErr) (schedule_world D) (option unit)) :
  0 ≤ skew → distinct_workers tasks →
  sys_steps (schedule_handle skew) schedule_environment
    (schedule_system max_utc panic_outcome random_range fuel tasks d t) c →
  (∀ i, phase_of i (task_log c.2) ≠ None) ∧
  (∀ l1 i T f l2 j f', task_log c.2 = l1 ++ Finished i T f :: l2 →
     Granted j T f' ∈ l1 ∨ Finished j T f' ∈ l1 → f < f') ∧
  (∀ i T f, Finished i T f ∈ task_log c.2 →
     ∃ m, task_rows (task_database c.2) !! T = Some m ∧ f < task_row_next_run_at m) ∧
  (∀ i j p q f f', i ≠ j → workers c.2 !! i = Some p → workers c.2 !! j = Some q →
     worker_row_id (worker_task p) = worker_row_id (worker_task q) →
     phase_of i (task_log c.2) = Some (Claimed f) → phase_of j (task_log c.2) = Some (Claimed f') →
     ∃ g h, worker_held p = Some g ∧ grant_firing g = f ∧ worker_held q = Some h ∧ grant_firing h = f' ∧
       Z.min (grant_expires_at g) (grant_expires_at h) ≤ task_clock c.2 + 3 * skew) ∧
  (∀ i, c.1 !! i = Some (Return (Some tt)) → told_to_shut_down i c.2 = true).
Proof.
  intros Hskew Hd Hc.
  destruct (schedule_system_safe max_utc skew Hskew panic_outcome random_range fuel tasks d t c Hd Hc) as [HI Hsafe].
  split_and!.
  - intros i Hi. destruct (inv_phase _ _ HI i) as [s Hs]. congruence.
  - intros l1 i T f l2 j f' Hl. apply (log_ordered_after l1 i T f l2 j f'). rewrite <- Hl. apply (inv_ordered _ _ HI).
  - apply (inv_finished _ _ HI).
  - intros i j p q f f' Hne Hp Hq Hrow Hi Hj.
    destruct (inv_claimed _ _ HI i p f Hp Hi) as (g & Hg & Hf).
    destruct (inv_claimed _ _ HI j q f' Hq Hj) as (h & Hh & Hf'). exists g, h. split_and!; [done..|].
    destruct (inv_held _ _ HI i p g Hp Hg) as [_ (m & Hm & [(Ho & _)|[_ ?]])]; [|lia].
    destruct (inv_held _ _ HI j q h Hq Hh) as [_ (m' & Hm' & [(Ho' & _)|[_ ?]])]; [|lia].
    destruct (inv_distinct _ _ HI i j p q Hne Hp Hq Hrow). congruence.
  - intros i Hr. by apply (Hsafe i _ Hr).
Qed.

(** Node b completes the firing that it took over from node a; whatever is
    claimed next is due later, and node a, which ran it too, cannot complete it. *)
Lemma scheduled_firings_witness : ∃ c,
  run_all MemoryTasks.race MemoryTasks.start = Some c ∧
  task_log c.2 = [Ran 0; Finished 1 MemoryTasks.T 0; Ran 1; Granted 1 MemoryTasks.T 0; Granted 0 MemoryTasks.T 0] ∧
  (∀ i, phase_of i (task_log c.2) ≠ None) ∧
  (∃ m, task_rows (task_database c.2) !! MemoryTasks.T = Some m ∧ 0 < task_row_next_run_at m).
Proof.
  pose proof MemoryTasks.race_log as Hs. unfold MemoryTasks.log_of in Hs.
  destruct (run_all MemoryTasks.race MemoryTasks.start) as [c|] eqn:Hc; [|discriminate Hs].
  cbn [fmap option_fmap option_map] in Hs.
  assert (task_log c.2 = [Ran 0; Finished 1 MemoryTasks.T 0; Ran 1; Granted 1 MemoryTasks.T 0; Granted 0 MemoryTasks.T 0]) as Hl.
  { rewrite <- (reverse_involutive (task_log c.2)). injection Hs as ->. reflexivity. }
  exists c. split; [reflexivity|]. split; [exact Hl|].
  pose proof (schedule_run_steps _ _ _ Hc) as Hr. clear Hc Hs. unfold MemoryTasks.start in Hr.
  destruct (scheduled_firings _ _ _ _ _ _ _ _ c (Z.le_refl 0) MemoryTasks.tasks_distinct Hr)
    as (Hph & _ & Hfin & _).
  split; [exact Hph|]. apply (Hfin 1%nat). rewrite Hl. apply elem_of_cons. right. apply elem_of_cons. by left.
Defined.
