(* ===== verification/LinuxNode.v ===== *)
(** * Linux inodes, nodes and errors

    [aster_forge_cloud_files/linux/src]: [inode.rs], [error.rs] and the
    values of [engine.rs]: names, attributes, nodes, handles and directory
    snapshots. *)
From Stdlib Require Import Ascii.
From S2P Require Export ByteRange Item.

(** ** Inodes and generations *)
Record LinuxInode : Type := mk_LinuxInode { inode_get : Z }.
Record LinuxInodeGeneration : Type := mk_LinuxInodeGeneration { inode_generation_get : Z }.

#[export] Instance LinuxInode_eq_dec : EqDecision LinuxInode.
Proof. solve_decision. Defined.
#[export] Program Instance LinuxInode_countable : Countable LinuxInode :=
  inj_countable' inode_get mk_LinuxInode _.
Next Obligation. by intros []. Qed.
#[export] Instance LinuxInodeGeneration_eq_dec : EqDecision LinuxInodeGeneration.
Proof. solve_decision. Defined.

Definition LINUX_ROOT_INODE : LinuxInode := mk_LinuxInode 1.

Record LinuxInodeRecord : Type := LinuxInodeRecord_new {
  record_key : CloudItemKey;
  record_inode : LinuxInode;
  record_generation : LinuxInodeGeneration;
}.

#[export] Instance LinuxInodeRecord_eq_dec : EqDecision LinuxInodeRecord.
Proof. solve_decision. Defined.

(** ** Errors *)
Inductive LinuxErrorCode : Type :=
  | ErrnoNotFound
  | ErrnoAlreadyExists
  | ErrnoDirectoryNotEmpty
  | ErrnoIsDirectory
  | ErrnoNotDirectory
  | ErrnoAccessDenied
  | ErrnoReadOnlyFilesystem
  | ErrnoTryAgain
  | ErrnoStale
  | ErrnoNotSupported
  | ErrnoInvalidArgument
  | ErrnoIo.

#[export] Instance LinuxErrorCode_eq_dec : EqDecision LinuxErrorCode.
Proof. solve_decision. Defined.

(** [namespace.rs]: failures of the namespace store. *)
Inductive LinuxNamespaceMutationStoreErrorKind : Type :=
  | NamespaceNotFound
  | NamespaceAlreadyExists
  | NamespaceDirectoryNotEmpty
  | NamespaceIsDirectory
  | NamespaceNotDirectory
  | NamespaceUnsupported
  | NamespaceFenced
  | NamespaceConflict
  | NamespacePersistenceFailure.

Record LinuxNamespaceMutationStoreError : Type := LinuxNamespaceMutationStoreError_new {
  namespace_error_kind : LinuxNamespaceMutationStoreErrorKind;
  namespace_error_context : string;
}.

Inductive LinuxCloudFilesError : Type :=
  | ZeroInode
  | ZeroGeneration
  | RootInodeMismatch
  | ScopeMismatch
  | DuplicateInode (inode : Z)
  | DuplicateItem
  | MissingInodeRecord
  | UnknownInode (inode : Z)
  | StaleHandle
  | AccessModeMismatch
  | HandleExhausted
  | InvalidConfiguration (reason : string)
  | InvalidName (reason : string)
  | NotDirectory
  | NotFile
  | InvalidBackendResponse (reason : string)
  | LinuxBackend (error : CloudBackendError)
  | LinuxWritebackStore (error : CloudFilesStoreError)
  | LinuxNamespaceStore (error : LinuxNamespaceMutationStoreError)
  | NamespaceMutationNotConfigured.

Abbreviation linux_result := (result LinuxCloudFilesError).

Definition namespace_store_error_code (kind : LinuxNamespaceMutationStoreErrorKind) : LinuxErrorCode :=
  match kind with
  | NamespaceNotFound => ErrnoNotFound
  | NamespaceAlreadyExists => ErrnoAlreadyExists
  | NamespaceDirectoryNotEmpty => ErrnoDirectoryNotEmpty
  | NamespaceIsDirectory => ErrnoIsDirectory
  | NamespaceNotDirectory => ErrnoNotDirectory
  | NamespaceUnsupported => ErrnoNotSupported
  | NamespaceFenced => ErrnoStale
  | NamespaceConflict | NamespacePersistenceFailure => ErrnoIo
  end.

Definition writeback_store_error_code (kind : CloudFilesStoreErrorKind) : LinuxErrorCode :=
  match kind with
  | StoreNotFound => ErrnoNotFound
  | StoreConflict => ErrnoStale
  | StoreInvalidTransition | StorePersistenceFailure => ErrnoIo
  end.

Definition backend_error_code (kind : CloudBackendErrorKind) : LinuxErrorCode :=
  match kind with
  | BackendNotFound => ErrnoNotFound
  | AuthenticationRequired | PermissionDenied => ErrnoAccessDenied
  | BackendConflict | PreconditionFailedKind => ErrnoStale
  | InvalidRequest => ErrnoInvalidArgument
  | RateLimited | TemporarilyUnavailable => ErrnoTryAgain
  | Unsupported => ErrnoNotSupported
  | InvalidResponse | Internal => ErrnoIo
  end.

Definition LinuxCloudFilesError_error_code (e : LinuxCloudFilesError) : LinuxErrorCode :=
  match e with
  | UnknownInode _ => ErrnoNotFound
  | StaleHandle => ErrnoStale
  | AccessModeMismatch => ErrnoAccessDenied
  | InvalidName _ => ErrnoInvalidArgument
  | NotDirectory => ErrnoNotDirectory
  | NotFile => ErrnoIsDirectory
  | LinuxBackend error => backend_error_code (backend_error_kind error)
  | LinuxWritebackStore error => writeback_store_error_code (store_error_kind error)
  | LinuxNamespaceStore error => namespace_store_error_code (namespace_error_kind error)
  | NamespaceMutationNotConfigured => ErrnoNotSupported
  | ZeroInode | ZeroGeneration | RootInodeMismatch | ScopeMismatch | DuplicateInode _
  | DuplicateItem | MissingInodeRecord | HandleExhausted | InvalidConfiguration _
  | InvalidBackendResponse _ => ErrnoIo
  end.

Definition LinuxInode_new (value : Z) : linux_result LinuxInode :=
  if decide (value = 0) then Err ZeroInode else Ok (mk_LinuxInode value).

Definition LinuxInodeGeneration_new (value : Z) : linux_result LinuxInodeGeneration :=
  if decide (value = 0) then Err ZeroGeneration else Ok (mk_LinuxInodeGeneration value).

(** ** The inode table *)
Record LinuxInodeTable : Type := mk_LinuxInodeTable {
  table_scope : CloudScope;
  table_root : LinuxInodeRecord;
  table_by_key : gmap CloudItemKey LinuxInodeRecord;
  table_by_inode : gmap LinuxInode LinuxInodeRecord;
}.

(** The loop of [new]: the two maps it has built. *)
Fixpoint restore_records (scope : CloudScope) (records : list LinuxInodeRecord)
    (by_key : gmap CloudItemKey LinuxInodeRecord) (by_inode : gmap LinuxInode LinuxInodeRecord)
    : linux_result (gmap CloudItemKey LinuxInodeRecord * gmap LinuxInode LinuxInodeRecord) :=
  match records with
  | [] => Ok (by_key, by_inode)
  | record :: records =>
      if decide (item_key_scope (record_key record) ≠ scope) then Err ScopeMismatch
      else if decide (record_inode record = LINUX_ROOT_INODE) then Err RootInodeMismatch
      else if decide (is_Some (by_key !! record_key record)) then Err DuplicateItem
      else if decide (is_Some (by_inode !! record_inode record)) then
        Err (DuplicateInode (inode_get (record_inode record)))
      else restore_records scope records (<[record_key record := record]> by_key)
             (<[record_inode record := record]> by_inode)
  end.

Definition LinuxInodeTable_new (root : LinuxInodeRecord) (records : list LinuxInodeRecord)
    : linux_result LinuxInodeTable :=
  if decide (record_inode root ≠ LINUX_ROOT_INODE) then Err RootInodeMismatch
  else
    let scope := item_key_scope (record_key root) in
    '(by_key, by_inode) ← restore_records scope records ∅ ∅;
    Ok (mk_LinuxInodeTable scope root by_key by_inode).

Definition LinuxInodeTable_by_key (t : LinuxInodeTable) (key : CloudItemKey) : option LinuxInodeRecord :=
  if decide (key = record_key (table_root t)) then Some (table_root t) else table_by_key t !! key.

Definition LinuxInodeTable_by_inode (t : LinuxInodeTable) (inode : LinuxInode) : option LinuxInodeRecord :=
  if decide (inode = LINUX_ROOT_INODE) then Some (table_root t) else table_by_inode t !! inode.

(** ** Names *)
Definition contains_char (c : ascii) (s : string) : bool :=
  existsb (Ascii.eqb c) (String.list_ascii_of_string s).

Definition validate_linux_name (name : string) : linux_result unit :=
  if decide (name = "") then Err (InvalidName "name must not be empty")
  else if decide (name = "." ∨ name = "..") then Err (InvalidName "dot components are reserved")
  else if contains_char "/"%char name then Err (InvalidName "name must not contain a path separator")
  else if contains_char zero name then Err (InvalidName "name must not contain NUL")
  else Ok tt.

(** ** Nodes *)
Definition FUSE_BLOCK_SIZE : Z := 512.

Inductive LinuxNodeKind : Type := NodeFile | NodeDirectory.

#[export] Instance LinuxNodeKind_eq_dec : EqDecision LinuxNodeKind.
Proof. solve_decision. Defined.

(** A [SystemTime] is its distance from the epoch. *)
Record LinuxAttributePolicy : Type := mk_LinuxAttributePolicy {
  policy_uid : Z;
  policy_gid : Z;
  policy_file_permissions : Z;
  policy_directory_permissions : Z;
  policy_block_size : Z;
  policy_cache_ttl : Z;
  policy_fallback_time : Z;
}.

(** [0o7777]. *)
Definition PERMISSION_BITS : Z := 4095.

Definition LinuxAttributePolicy_new (uid gid file_permissions directory_permissions cache_ttl : Z)
    : linux_result LinuxAttributePolicy :=
  if decide (Z.ldiff file_permissions PERMISSION_BITS ≠ 0 ∨ Z.ldiff directory_permissions PERMISSION_BITS ≠ 0)
  then Err (InvalidConfiguration "permissions must contain only Unix permission and special-mode bits")
  else Ok (mk_LinuxAttributePolicy uid gid file_permissions directory_permissions 4096 cache_ttl 0).

(** Permissions [0o444] and [0o555], a TTL of one second. *)
Definition LinuxAttributePolicy_default : LinuxAttributePolicy :=
  mk_LinuxAttributePolicy 0 0 292 365 4096 (10 ^ 9) 0.

Record LinuxFileAttributes : Type := mk_LinuxFileAttributes {
  attributes_inode : LinuxInode;
  attributes_size : Z;
  attributes_blocks : Z;
  attributes_kind : LinuxNodeKind;
  attributes_permissions : Z;
  attributes_links : Z;
  attributes_uid : Z;
  attributes_gid : Z;
  attributes_block_size : Z;
  attributes_time : Z;
}.

Record LinuxNode : Type := mk_LinuxNode {
  node_key : CloudItemKey;
  node_generation : LinuxInodeGeneration;
  node_attributes : LinuxFileAttributes;
}.

Abbreviation node_inode node := (attributes_inode (node_attributes node)).
Abbreviation node_kind node := (attributes_kind (node_attributes node)).

(** [u64::div_ceil]. *)
Definition div_ceil (a b : Z) : Z := a / b + (if decide (a mod b = 0) then 0 else 1).

Definition LinuxNode_with_size (node : LinuxNode) (size : Z) : LinuxNode :=
  let a := node_attributes node in
  mk_LinuxNode (node_key node) (node_generation node)
    (mk_LinuxFileAttributes (attributes_inode a) size (div_ceil size FUSE_BLOCK_SIZE) (attributes_kind a)
       (attributes_permissions a) (attributes_links a) (attributes_uid a) (attributes_gid a)
       (attributes_block_size a) (attributes_time a)).

(** ** Handles and directory snapshots *)
Record LinuxFileHandle : Type := mk_LinuxFileHandle { file_handle_get : Z }.
Record LinuxDirectoryHandle : Type := mk_LinuxDirectoryHandle { directory_handle_get : Z }.

#[export] Instance LinuxFileHandle_eq_dec : EqDecision LinuxFileHandle.
Proof. solve_decision. Defined.
#[export] Program Instance LinuxFileHandle_countable : Countable LinuxFileHandle :=
  inj_countable' file_handle_get mk_LinuxFileHandle _.
Next Obligation. by intros []. Qed.
#[export] Instance LinuxDirectoryHandle_eq_dec : EqDecision LinuxDirectoryHandle.
Proof. solve_decision. Defined.
#[export] Program Instance LinuxDirectoryHandle_countable : Countable LinuxDirectoryHandle :=
  inj_countable' directory_handle_get mk_LinuxDirectoryHandle _.
Next Obligation. by intros []. Qed.

Definition LinuxFileHandle_new (value : Z) : linux_result LinuxFileHandle :=
  if decide (value = 0) then Err StaleHandle else Ok (mk_LinuxFileHandle value).

Definition LinuxDirectoryHandle_new (value : Z) : linux_result LinuxDirectoryHandle :=
  if decide (value = 0) then Err StaleHandle else Ok (mk_LinuxDirectoryHandle value).

Record LinuxDirectoryEntry : Type := mk_LinuxDirectoryEntry {
  dirent_inode : LinuxInode;
  dirent_generation : LinuxInodeGeneration;
  dirent_name : string;
  dirent_kind : LinuxNodeKind;
}.

Definition LinuxDirectoryEntry_from_node (name : string) (node : LinuxNode) : LinuxDirectoryEntry :=
  mk_LinuxDirectoryEntry (node_inode node) (node_generation node) name (node_kind node).

Record LinuxDirectorySnapshot : Type := LinuxDirectorySnapshot_with_entries {
  dirsnap_directory : LinuxInode;
  dirsnap_parent : LinuxInode;
  dirsnap_entries : list LinuxDirectoryEntry;
}.

(** ** Nodes of items *)
Definition node_from_item_and_record (policy : LinuxAttributePolicy) (item : CloudItem)
    (record : LinuxInodeRecord) : linux_result LinuxNode :=
  (if CloudItem_is_root item then Ok tt else validate_linux_name (item_name item));;
  if decide (item_key item ≠ record_key record) then
    Err (InvalidBackendResponse "linux inode record did not match the item stable identity")
  else
    '(kind, size, permissions, links) ←
      match item_kind item with
      | FileKind =>
          match item_content item with
          | None => Err (InvalidBackendResponse "regular file omitted content metadata")
          | Some content => Ok (NodeFile, content_size content, policy_file_permissions policy, 1)
          end
      | DirectoryKind => Ok (NodeDirectory, 0, policy_directory_permissions policy, 2)
      end;
    Ok (mk_LinuxNode (item_key item) (record_generation record)
          (mk_LinuxFileAttributes (record_inode record) size (div_ceil size FUSE_BLOCK_SIZE) kind permissions
             links (policy_uid policy) (policy_gid policy) (policy_block_size policy) (policy_fallback_time policy))).

(** ** Properties *)
(** A restored table maps each key to one inode and each inode to one key. *)
Record table_wf (t : LinuxInodeTable) : Prop := {
  table_key_record key r : LinuxInodeTable_by_key t key = Some r →
    record_key r = key ∧ LinuxInodeTable_by_inode t (record_inode r) = Some r;
  table_inode_record inode r : LinuxInodeTable_by_inode t inode = Some r →
    record_inode r = inode ∧ LinuxInodeTable_by_key t (record_key r) = Some r;
}.

Lemma restore_records_ok scope records by_key by_inode maps :
  restore_records scope records by_key by_inode = Ok maps →
  (∀ key r, by_key !! key = Some r ↔ ∃ inode, by_inode !! inode = Some r ∧ key = record_key r) →
  (∀ inode r, by_inode !! inode = Some r → inode = record_inode r ∧ inode ≠ LINUX_ROOT_INODE) →
  (∀ key r, maps.1 !! key = Some r ↔ ∃ inode, maps.2 !! inode = Some r ∧ key = record_key r) ∧
  (∀ inode r, maps.2 !! inode = Some r → inode = record_inode r ∧ inode ≠ LINUX_ROOT_INODE) ∧
  (∀ inode r, maps.2 !! inode = Some r → r ∈ records ∨ by_inode !! inode = Some r).
Proof.
  revert by_key by_inode. induction records as [|record records IH]; intros by_key by_inode; cbn.
  { intros [= <-] H1 H2. split_and!; auto. }
  case_decide as Hscope; [done|]. case_decide as Hroot; [done|].
  case_decide as Hkey; [done|]. case_decide as Hinode; [done|].
  apply eq_None_not_Some in Hinode. apply eq_None_not_Some in Hkey.
  intros H H1 H2. destruct (IH _ _ H) as (K1 & K2 & K3).
  - intros key r. split.
    + intros [[<- <-]|[Hne Hk]]%lookup_insert_Some; [exists (record_inode record); by rewrite lookup_insert_eq|].
      apply H1 in Hk as (inode & Hi & ->). exists inode. split; [|done].
      rewrite lookup_insert_ne; [done|]. intros <-. congruence.
    + intros (inode & [[<- <-]|[Hne Hi]]%lookup_insert_Some & ->); [by rewrite lookup_insert_eq|].
      rewrite lookup_insert_ne; [apply H1; eauto|]. intros Heq.
      assert (by_key !! record_key r = Some r) as Hk by (apply H1; eauto). congruence.
  - intros inode r [[<- <-]|[_ Hi]]%lookup_insert_Some; auto.
  - split_and!; [done..|]. intros inode r Hi. rewrite elem_of_cons.
    destruct (K3 _ _ Hi) as [?|[[_ <-]|[_ ?]]%lookup_insert_Some]; auto.
Qed.

(** [LinuxInodeTable::new] builds such a table when, as it documents, the
    records exclude the root's. *)
Lemma LinuxInodeTable_new_wf root records t :
  LinuxInodeTable_new root records = Ok t → Forall (λ r, record_key r ≠ record_key root) records →
  table_wf t ∧ table_root t = root ∧ record_inode root = LINUX_ROOT_INODE.
Proof.
  unfold LinuxInodeTable_new. case_decide as Hroot; [done|].
  intros ([by_key by_inode] & Hr & [= <-])%result_bind_ok Hne.
  destruct (restore_records_ok _ _ _ _ _ Hr) as (K1 & K2 & K3).
  { intros key r. rewrite lookup_empty. split; [done|]. intros (inode & Hi & _). by rewrite lookup_empty in Hi. }
  { intros inode r. by rewrite lookup_empty. }
  cbn in *. split_and!; [|done..]. split; unfold LinuxInodeTable_by_key, LinuxInodeTable_by_inode; cbn.
  - intros key r. case_decide as Hk.
    + intros [= <-]. by rewrite decide_True.
    + intros (inode & Hi & ->)%K1. split; [done|]. destruct (K2 _ _ Hi) as [<- Hn]. by rewrite decide_False.
  - intros inode r. case_decide as Hi.
    + intros [= <-]. split; [congruence|by rewrite decide_True].
    + intros Hr'. destruct (K2 _ _ Hr') as [-> _]. split; [done|].
      rewrite decide_False; [apply K1; eauto|].
      destruct (K3 _ _ Hr') as [Hin|He]; [|by rewrite lookup_empty in He].
      rewrite list.Forall_forall in Hne. auto.
Qed.

(** A record that repeats the root's key is accepted, and found by inode only. *)
Example root_key_repeated :
  let key := CloudItemKey_new (CloudScope_new (mk_opaque "ns") (mk_opaque "root")) (mk_opaque "r") in
  let root := LinuxInodeRecord_new key LINUX_ROOT_INODE (mk_LinuxInodeGeneration 1) in
  let again := LinuxInodeRecord_new key (mk_LinuxInode 5) (mk_LinuxInodeGeneration 1) in
  match LinuxInodeTable_new root [again] with
  | Ok t => LinuxInodeTable_by_inode t (mk_LinuxInode 5) = Some again ∧
      LinuxInodeTable_by_key t (record_key again) = Some root
  | Err _ => False
  end.
Proof. by vm_compute. Qed.

Lemma validate_linux_name_ok name :
  validate_linux_name name = Ok tt ↔
  name ≠ "" ∧ name ≠ "." ∧ name ≠ ".." ∧ contains_char "/"%char name = false ∧ contains_char zero name = false.
Proof.
  unfold validate_linux_name. case_decide; [naive_solver|]. case_decide; [naive_solver|].
  destruct (contains_char "/"%char name), (contains_char zero name); naive_solver.
Qed.

Lemma node_from_item_and_record_ok policy item record node :
  node_from_item_and_record policy item record = Ok node →
  node_key node = item_key item ∧ record_key record = item_key item ∧
  node_generation node = record_generation record ∧ node_inode node = record_inode record ∧
  node_kind node = (if decide (item_kind item = FileKind) then NodeFile else NodeDirectory).
Proof.
  unfold node_from_item_and_record. intros ([] & _ & H)%result_bind_ok.
  case_decide as Hk; [done|].
  apply result_bind_ok in H as ([[[kind size] permissions] links] & Hkind & [= <-]). cbn.
  split_and!; try done. destruct (item_kind item); [destruct (item_content item)|]; simplify_eq; done.
Qed.
