(* ===== verification/LinuxNamespace.v ===== *)
(** * Values of the Linux write-back and namespace ports

    [aster_forge_cloud_files/linux/src]: [namespace.rs], [remote.rs] and the
    values of [writeback.rs] that its stores exchange with the engine. *)
From S2P Require Export LinuxNode Mutation.

(** ** Write-back sessions *)
Inductive LinuxFileAccess : Type := AccessRead | AccessWrite | AccessReadWrite.

Definition LinuxFileAccess_readable (a : LinuxFileAccess) : bool :=
  match a with AccessRead | AccessReadWrite => true | AccessWrite => false end.

Definition LinuxFileAccess_writable (a : LinuxFileAccess) : bool :=
  match a with AccessWrite | AccessReadWrite => true | AccessRead => false end.

Record LinuxWriteSessionId : Type := mk_LinuxWriteSessionId { write_session_id : string }.

#[export] Instance LinuxWriteSessionId_eq_dec : EqDecision LinuxWriteSessionId.
Proof. solve_decision. Defined.

Definition LinuxWriteSessionId_new (value : string) : linux_result LinuxWriteSessionId :=
  if decide (value = "") then Err (InvalidConfiguration "write session id must not be empty")
  else Ok (mk_LinuxWriteSessionId value).

Record LinuxWriteOpenRequest : Type := LinuxWriteOpenRequest_new {
  wopen_key : CloudItemKey;
  wopen_base_revision : ContentRevision;
  wopen_base_size : Z;
  wopen_session_generation : SessionGeneration;
}.

Record LinuxWriteSession : Type := mk_LinuxWriteSession {
  wsession_id : LinuxWriteSessionId;
  wsession_key : CloudItemKey;
  wsession_size : Z;
  wsession_session_generation : SessionGeneration;
  wsession_snapshot : option LocalContentSnapshot;
}.

Definition LinuxWriteSession_new (id : LinuxWriteSessionId) (key : CloudItemKey) (size : Z)
    (session_generation : SessionGeneration) : LinuxWriteSession :=
  mk_LinuxWriteSession id key size session_generation None.

Definition LinuxWriteSession_from_recovered (id : LinuxWriteSessionId) (snapshot : LocalContentSnapshot)
    (session_generation : SessionGeneration) : LinuxWriteSession :=
  mk_LinuxWriteSession id (snapshot_item_key snapshot) (snapshot_size snapshot) session_generation (Some snapshot).

Record LinuxWriteCommit : Type := LinuxWriteCommit_new { commit_snapshot : LocalContentSnapshot }.

(** ** Regular-file creation *)
Record LinuxCreateFileRequest : Type := mk_LinuxCreateFileRequest {
  cfile_parent_key : CloudItemKey;
  cfile_name : string;
  cfile_mode : Z;
  cfile_umask : Z;
  cfile_access : LinuxFileAccess;
  cfile_session_generation : SessionGeneration;
}.

Definition LinuxCreateFileRequest_new (parent_key : CloudItemKey) (name : string) (mode umask : Z)
    (access : LinuxFileAccess) (session_generation : SessionGeneration) : linux_result LinuxCreateFileRequest :=
  validate_linux_name name;;
  Ok (mk_LinuxCreateFileRequest parent_key name mode umask access session_generation).

Record LinuxCreatedFile : Type := LinuxCreatedFile_new {
  created_item : CloudItem;
  created_inode_record : LinuxInodeRecord;
  created_mutation_intent : MutationIntent;
}.

Record LinuxCreateFileAcceptance : Type := LinuxCreateFileAcceptance_new {
  acceptance_created : LinuxCreatedFile;
  acceptance_session : LinuxWriteSession;
}.

(** ** Namespace items and tombstones *)
Record LinuxNamespaceItem : Type := LinuxNamespaceItem_new {
  namespace_item : CloudItem;
  namespace_inode_record : LinuxInodeRecord;
  namespace_mutation_intent : MutationIntent;
}.

Definition LinuxNamespaceItem_from (c : LinuxCreatedFile) : LinuxNamespaceItem :=
  LinuxNamespaceItem_new (created_item c) (created_inode_record c) (created_mutation_intent c).

Record LinuxNamespaceTombstone : Type := mk_LinuxNamespaceTombstone {
  tombstone_key : CloudItemKey;
  tombstone_inode_generation : LinuxInodeGeneration;
  tombstone_parent_key : CloudItemKey;
  tombstone_name : string;
  tombstone_kind : LinuxNodeKind;
  tombstone_mutation_intent : MutationIntent;
}.

Definition LinuxNamespaceTombstone_new (key : CloudItemKey) (inode_generation : LinuxInodeGeneration)
    (parent_key : CloudItemKey) (name : string) (kind : LinuxNodeKind) (mutation_intent : MutationIntent)
    : linux_result LinuxNamespaceTombstone :=
  validate_linux_name name;;
  Ok (mk_LinuxNamespaceTombstone key inode_generation parent_key name kind mutation_intent).

Record LinuxNamespaceOverlay : Type := LinuxNamespaceOverlay_new {
  overlay_items : list LinuxNamespaceItem;
  overlay_tombstones : list LinuxNamespaceTombstone;
}.

Definition LinuxNamespaceOverlay_default : LinuxNamespaceOverlay := LinuxNamespaceOverlay_new [] [].

(** ** Directory creation, rename, removal *)
Record LinuxCreateDirectoryRequest : Type := mk_LinuxCreateDirectoryRequest {
  cdir_parent_key : CloudItemKey;
  cdir_name : string;
  cdir_mode : Z;
  cdir_umask : Z;
  cdir_session_generation : SessionGeneration;
}.

Definition LinuxCreateDirectoryRequest_new (parent_key : CloudItemKey) (name : string) (mode umask : Z)
    (session_generation : SessionGeneration) : linux_result LinuxCreateDirectoryRequest :=
  validate_linux_name name;;
  Ok (mk_LinuxCreateDirectoryRequest parent_key name mode umask session_generation).

Record LinuxRenameDestination : Type := LinuxRenameDestination_new {
  destination_key : CloudItemKey;
  destination_inode_generation : LinuxInodeGeneration;
  destination_kind : LinuxNodeKind;
}.

Record LinuxRenameRequest : Type := mk_LinuxRenameRequest {
  rename_key : CloudItemKey;
  rename_inode_generation : LinuxInodeGeneration;
  rename_kind : LinuxNodeKind;
  rename_old_parent_key : CloudItemKey;
  rename_old_name : string;
  rename_new_parent_key : CloudItemKey;
  rename_new_name : string;
  rename_destination : option LinuxRenameDestination;
  rename_no_replace : bool;
  rename_session_generation : SessionGeneration;
}.

Definition LinuxRenameRequest_new (key : CloudItemKey) (inode_generation : LinuxInodeGeneration)
    (kind : LinuxNodeKind) (old_parent_key : CloudItemKey) (old_name : string) (new_parent_key : CloudItemKey)
    (new_name : string) (destination : option LinuxRenameDestination) (no_replace : bool)
    (session_generation : SessionGeneration) : linux_result LinuxRenameRequest :=
  validate_linux_name old_name;;
  validate_linux_name new_name;;
  Ok (mk_LinuxRenameRequest key inode_generation kind old_parent_key old_name new_parent_key new_name
        destination no_replace session_generation).

Record LinuxRenameAcceptance : Type := LinuxRenameAcceptance_new {
  renamed_item : LinuxNamespaceItem;
  renamed_source : LinuxNamespaceTombstone;
  renamed_replaced : option LinuxNamespaceTombstone;
}.

Record LinuxRemoveRequest : Type := mk_LinuxRemoveRequest {
  remove_key : CloudItemKey;
  remove_inode_generation : LinuxInodeGeneration;
  remove_parent_key : CloudItemKey;
  remove_name : string;
  remove_kind : LinuxNodeKind;
  remove_session_generation : SessionGeneration;
}.

Definition LinuxRemoveRequest_new (key : CloudItemKey) (inode_generation : LinuxInodeGeneration)
    (parent_key : CloudItemKey) (name : string) (kind : LinuxNodeKind) (session_generation : SessionGeneration)
    : linux_result LinuxRemoveRequest :=
  validate_linux_name name;;
  Ok (mk_LinuxRemoveRequest key inode_generation parent_key name kind session_generation).

(** ** Remote changes *)
Record LinuxRemoteEntry : Type := LinuxRemoteEntry_new {
  remote_item : CloudItem;
  remote_inode_record : LinuxInodeRecord;
}.

Record LinuxRemoteLocation : Type := mk_LinuxRemoteLocation {
  location_parent_key : CloudItemKey;
  location_name : string;
}.

Definition LinuxRemoteLocation_new (parent_key : CloudItemKey) (name : string) : linux_result LinuxRemoteLocation :=
  validate_linux_name name;;
  Ok (mk_LinuxRemoteLocation parent_key name).

Record LinuxRemoteDelete : Type := mk_LinuxRemoteDelete {
  rdelete_key : CloudItemKey;
  rdelete_inode_record : LinuxInodeRecord;
  rdelete_parent_key : CloudItemKey;
  rdelete_name : string;
  rdelete_kind : LinuxNodeKind;
}.

Definition LinuxRemoteDelete_new (key : CloudItemKey) (inode_record : LinuxInodeRecord) (parent_key : CloudItemKey)
    (name : string) (kind : LinuxNodeKind) : linux_result LinuxRemoteDelete :=
  validate_linux_name name;;
  Ok (mk_LinuxRemoteDelete key inode_record parent_key name kind).

Record LinuxRemoteUpsert : Type := LinuxRemoteUpsert_new {
  upsert_entry : LinuxRemoteEntry;
  upsert_previous : option LinuxRemoteLocation;
  upsert_replaced : option LinuxRemoteDelete;
}.

Inductive LinuxRemoteChange : Type :=
  | RemoteUpsert (upsert : LinuxRemoteUpsert)
  | RemoteDelete (deleted : LinuxRemoteDelete).

Inductive LinuxInvalidation : Type :=
  | InvalidateEntry (parent : LinuxInode) (name : string)
  | InvalidateInode (inode : LinuxInode)
  | InvalidateDelete (parent child : LinuxInode) (name : string).
