(* ===== verification/LinuxEngine.v ===== *)
(** * The read-only Linux engine

    [aster_forge_cloud_files/linux/src/engine.rs]: lookups, attributes, reads
    bound to the revision captured at open, and directory snapshots.

    Calls of the engine run concurrently, so each is a process in the sense of
    [Process]: its events are the calls of the product's backend and stores
    and the critical sections of the engine's mutex.  An engine is generic in
    the state [St] that its mutex protects; the ports are those of
    [CloudFilesBackend], [LinuxWritebackStore] and
    [LinuxNamespaceMutationStore]. *)
From S2P Require Export Process LinuxNamespace.

(** ** Ports *)
Inductive port_call : Type :=
  (* CloudFilesBackend *)
  | GetItem (key : CloudItemKey)
  | ListChildren (parent : CloudItemKey) (cursor : option PageCursor)
  | ReadContent (request : ContentReadRequest)
  (* LinuxWritebackStore *)
  | ActivateMount (scope : CloudScope) (generation : SessionGeneration)
  | OpenRecovered (key : CloudItemKey) (generation : SessionGeneration)
  | OpenExisting (request : LinuxWriteOpenRequest) (base_content : list byte)
  | StoreRead (session : LinuxWriteSessionId) (offset size : Z)
  | StoreWrite (session : LinuxWriteSessionId) (offset : Z) (bytes : list byte)
  | StoreTruncate (session : LinuxWriteSessionId) (size : Z)
  | StoreSync (session : LinuxWriteSessionId) (data_only : bool)
  | StoreClose (session : LinuxWriteSessionId)
  (* LinuxNamespaceMutationStore *)
  | ActivateNamespace (scope : CloudScope) (generation : SessionGeneration)
  | CreateFile (request : LinuxCreateFileRequest)
  | OpenCreatedFile (key : CloudItemKey) (generation : SessionGeneration)
  | ActivateNamespaceOverlay (scope : CloudScope) (generation : SessionGeneration)
  | CreateDirectory (request : LinuxCreateDirectoryRequest)
  | Rename (request : LinuxRenameRequest)
  | Remove (request : LinuxRemoveRequest).

Abbreviation namespace_result := (result LinuxNamespaceMutationStoreError).

Definition port_answer (c : port_call) : Type :=
  match c with
  | GetItem _ => backend_result CloudItem
  | ListChildren _ _ => backend_result CloudItemPage
  | ReadContent _ => backend_result ContentReadResponse
  | ActivateMount _ _ => store_result (list LocalContentSnapshot)
  | OpenRecovered _ _ => store_result (option LinuxWriteSession)
  | OpenExisting _ _ => store_result LinuxWriteSession
  | StoreRead _ _ _ => store_result (list byte)
  | StoreWrite _ _ _ | StoreTruncate _ _ => store_result LinuxWriteCommit
  | StoreSync _ _ => store_result (option LinuxWriteCommit)
  | StoreClose _ => store_result unit
  | ActivateNamespace _ _ => namespace_result (list LinuxCreatedFile)
  | CreateFile _ => namespace_result LinuxCreateFileAcceptance
  | OpenCreatedFile _ _ => namespace_result LinuxWriteSession
  | ActivateNamespaceOverlay _ _ => namespace_result LinuxNamespaceOverlay
  | CreateDirectory _ => namespace_result LinuxNamespaceItem
  | Rename _ => namespace_result LinuxRenameAcceptance
  | Remove _ => namespace_result LinuxNamespaceTombstone
  end.

(** ** Events

    [Diverge] is never answered: a loop that has used up its turns waits
    there. *)
Inductive linux_event (St : Type) : Type :=
  | Call (c : port_call)
  | Critical (X : Type) (section : St → X * St)
  | Diverge.
Arguments Call {St} c.
Arguments Critical {St X} section.
Arguments Diverge {St}.

Definition linux_answer (St : Type) (e : linux_event St) : Type :=
  match e with
  | Call c => port_answer c
  | @Critical _ X _ => X
  | Diverge => Empty_set
  end.

Abbreviation io St A := (prog (linux_answer St) (linux_result A)).

Definition io_bind {St A B} (p : io St A) (f : A → io St B) : io St B :=
  prog_bind (λ r, match r with Ok a => f a | Err e => Return (Err e) end) p.

Notation "x ←? p ; q" := (io_bind p (λ x, q)) (at level 20, p at level 100, q at level 200, right associativity).
Notation "' x ←? p ; q" := (io_bind p (λ x, q))
  (at level 20, x pattern, p at level 100, q at level 200, right associativity).

Definition done_with {St A} (r : linux_result A) : io St A := Return r.
Definition call_port {St A} {E : Type} (f : E → LinuxCloudFilesError) (c : port_call)
    (cast : port_answer c → result E A) : io St A :=
  Act (answer := linux_answer St) (Call c) (λ x, Return (map_err f (cast x))).
Definition locked {St A} (section : St → linux_result A * St) : io St A :=
  Act (answer := linux_answer St) (Critical section) Return.
Definition diverge {St A} : io St A :=
  Act (answer := linux_answer St) Diverge (λ x, match x with end).

Section ports.
Context {St : Type}.

Definition backend_get_item (key : CloudItemKey) : io St CloudItem :=
  call_port LinuxBackend (GetItem key) (λ x, x).
Definition backend_list_children (parent : CloudItemKey) (cursor : option PageCursor) : io St CloudItemPage :=
  call_port LinuxBackend (ListChildren parent cursor) (λ x, x).
Definition backend_read_content (request : ContentReadRequest) : io St ContentReadResponse :=
  call_port LinuxBackend (ReadContent request) (λ x, x).
End ports.

(** ** State *)
Record RemoteFile : Type := mk_RemoteFile {
  remote_file_inode : LinuxInode;
  remote_file_key : CloudItemKey;
  remote_file_revision : ContentRevision;
  remote_file_size : Z;
}.

Record HandleState : Type := mk_HandleState {
  handles_next : Z;
  handles_files : gmap LinuxFileHandle RemoteFile;
  handles_directories : gmap LinuxDirectoryHandle LinuxDirectorySnapshot;
}.

Definition HandleState_default : HandleState := mk_HandleState 0 ∅ ∅.

(** The counter of both engines. *)
Definition next_handle (next : Z) : linux_result (Z * Z) :=
  let current := if decide (next = 0) then 1 else next in
  match checked_add U64_MAX current 1 with
  | None => Err HandleExhausted
  | Some next => Ok (current, next)
  end.

Definition HandleState_allocate (s : HandleState) : linux_result (Z * HandleState) :=
  '(current, next) ← next_handle (handles_next s);
  Ok (current, mk_HandleState next (handles_files s) (handles_directories s)).

(** ** Operations that keep no state *)
Section overlay.
Context {St : Type} (table : LinuxInodeTable) (policy : LinuxAttributePolicy).

Definition node_from_item (item : CloudItem) : linux_result LinuxNode :=
  (if CloudItem_is_root item then Ok tt else validate_linux_name (item_name item));;
  record ← ok_or (LinuxInodeTable_by_key table (item_key item)) MissingInodeRecord;
  node_from_item_and_record policy item record.

Definition load_item_for_overlay (inode : LinuxInode) : io St CloudItem :=
  record ←? done_with (ok_or (LinuxInodeTable_by_inode table inode) (UnknownInode (inode_get inode)));
  item ←? backend_get_item (record_key record);
  if decide (item_key item ≠ record_key record) then
    done_with (Err (InvalidBackendResponse "get_item returned a different scoped stable identity"))
  else if decide (CloudItem_is_root item ≠ bool_decide (inode = LINUX_ROOT_INODE)) then
    done_with (Err (InvalidBackendResponse "get_item root shape did not match the restored inode role"))
  else done_with (Ok item).

(** The items of one page: the names seen and the children so far. *)
Fixpoint accept_children (parent : CloudItemKey) (items : list CloudItem) (seen : gset string)
    (children : list CloudItem) : linux_result (gset string * list CloudItem) :=
  match items with
  | [] => Ok (seen, children)
  | item :: items =>
      if decide (item_key_scope (item_key item) ≠ item_key_scope parent ∨
                 item_parent_id item ≠ Some (item_key_item_id parent)) then
        Err (InvalidBackendResponse "directory child escaped the requested parent scope")
      else
        validate_linux_name (item_name item);;
        if decide (item_name item ∈ seen) then
          Err (InvalidBackendResponse "directory enumeration returned duplicate child names")
        else accept_children parent items ({[item_name item]} ∪ seen) (children ++ [item])
  end.

Fixpoint load_pages (fuel : nat) (parent : CloudItemKey) (cursor : option PageCursor)
    (seen_cursors : gset PageCursor) (seen_names : gset string) (children : list CloudItem) : io St (list CloudItem) :=
  match fuel with
  | O => diverge
  | S fuel =>
      page ←? backend_list_children parent cursor;
      '(seen_names, children) ←? done_with (accept_children parent (page_items page) seen_names children);
      match page_next_cursor page with
      | None => done_with (Ok children)
      | Some next_cursor =>
          if decide (next_cursor ∈ seen_cursors) then
            done_with (Err (InvalidBackendResponse "directory pagination repeated a continuation cursor"))
          else load_pages fuel parent (Some next_cursor) ({[next_cursor]} ∪ seen_cursors) seen_names children
      end
  end.

Definition load_children_for_overlay (fuel : nat) (parent : CloudItemKey) : io St (list CloudItem) :=
  load_pages fuel parent None ∅ ∅ [].

Definition load_children (fuel : nat) (parent : CloudItemKey) : io St (list CloudItem) :=
  children ←? load_children_for_overlay fuel parent;
  if existsb (λ item, bool_decide (LinuxInodeTable_by_key table (item_key item) = None)) children
  then done_with (Err MissingInodeRecord)
  else done_with (Ok children).

Definition LinuxReadOnlyEngine_lookup (fuel : nat) (parent : LinuxInode) (name : string) : io St LinuxNode :=
  _ ←? done_with (validate_linux_name name);
  parent_item ←? load_item_for_overlay parent;
  if decide (item_kind parent_item ≠ DirectoryKind) then done_with (Err NotDirectory)
  else
    children ←? load_children fuel (item_key parent_item);
    match List.find (λ item, bool_decide (item_name item = name)) children with
    | None => done_with (Err (LinuxBackend (CloudBackendError_new BackendNotFound)))
    | Some item => done_with (node_from_item item)
    end.

Definition LinuxReadOnlyEngine_getattr (inode : LinuxInode) : io St LinuxNode :=
  item ←? load_item_for_overlay inode;
  done_with (node_from_item item).

Definition hydrate_item_for_write (item : CloudItem) (session_generation : SessionGeneration)
    : io St (LinuxWriteOpenRequest * list byte) :=
  if decide (item_kind item ≠ FileKind) then done_with (Err NotFile)
  else
    content ←? done_with (ok_or (item_content item)
      (InvalidBackendResponse "regular file omitted content metadata"));
    let request := ContentReadRequest_whole (item_key item) (content_revision content) (content_size content) in
    response ←? backend_read_content request;
    _ ←? done_with (map_err
      (λ _, InvalidBackendResponse "write hydration violated the requested revision or complete-file extent")
      (ContentReadRequest_validate_response request response));
    done_with (Ok (LinuxWriteOpenRequest_new (item_key item) (content_revision content) (content_size content)
      session_generation, response_bytes response)).

Definition hydrate_for_write (inode : LinuxInode) (session_generation : SessionGeneration)
    : io St (LinuxWriteOpenRequest * list byte) :=
  item ←? load_item_for_overlay inode;
  hydrate_item_for_write item session_generation.
End overlay.

(** ** Operations with handles *)
Section engine.
Context (table : LinuxInodeTable) (policy : LinuxAttributePolicy).

Definition insert_file (file : RemoteFile) (s : HandleState) : linux_result LinuxFileHandle * HandleState :=
  match HandleState_allocate s with
  | Err e => (Err e, s)
  | Ok (handle, s) =>
      let handle := mk_LinuxFileHandle handle in
      (Ok handle, mk_HandleState (handles_next s) (<[handle := file]> (handles_files s)) (handles_directories s))
  end.

Definition LinuxReadOnlyEngine_open_file (inode : LinuxInode) : io HandleState LinuxFileHandle :=
  item ←? load_item_for_overlay table inode;
  if decide (item_kind item ≠ FileKind) then done_with (Err NotFile)
  else
    match item_content item with
    | None => done_with (Err (InvalidBackendResponse "regular file omitted content metadata"))
    | Some content =>
        locked (insert_file (mk_RemoteFile inode (item_key item) (content_revision content) (content_size content)))
    end.

Definition opened_file (inode : LinuxInode) (handle : LinuxFileHandle) (s : HandleState)
    : linux_result RemoteFile * HandleState :=
  (match handles_files s !! handle with
   | None => Err StaleHandle
   | Some opened => if decide (remote_file_inode opened ≠ inode) then Err StaleHandle else Ok opened
   end, s).

Definition LinuxReadOnlyEngine_read_file (inode : LinuxInode) (handle : LinuxFileHandle) (offset size : Z)
    : io HandleState (list byte) :=
  opened ←? locked (opened_file inode handle);
  if decide (size = 0 ∨ remote_file_size opened ≤ offset) then done_with (Ok [])
  else
    let length := Z.min size (remote_file_size opened - offset) in
    range ←? done_with (map_err
      (λ _, InvalidBackendResponse "validated FUSE range could not be represented by the core model")
      (ByteRange_new offset length));
    let request := ContentReadRequest_range (remote_file_key opened) (remote_file_revision opened)
      (remote_file_size opened) range in
    response ←? backend_read_content request;
    _ ←? done_with (map_err
      (λ _, InvalidBackendResponse "content response violated the requested revision or range")
      (ContentReadRequest_validate_response request response));
    done_with (Ok (response_bytes response)).

Definition LinuxReadOnlyEngine_release_file (handle : LinuxFileHandle) : io HandleState unit :=
  locked (λ s, (if decide (handles_files s !! handle = None) then Err StaleHandle else Ok tt,
    mk_HandleState (handles_next s) (delete handle (handles_files s)) (handles_directories s))).

Definition insert_directory (snapshot : LinuxDirectorySnapshot) (s : HandleState)
    : linux_result LinuxDirectoryHandle * HandleState :=
  match HandleState_allocate s with
  | Err e => (Err e, s)
  | Ok (handle, s) =>
      let handle := mk_LinuxDirectoryHandle handle in
      (Ok handle, mk_HandleState (handles_next s) (handles_files s) (<[handle := snapshot]> (handles_directories s)))
  end.

(** [iter().map(..).collect::<Result<Vec<_>>>()]: the first error ends it. *)
Fixpoint collect_ok {A B} (f : A → linux_result B) (l : list A) : linux_result (list B) :=
  match l with
  | [] => Ok []
  | x :: l => y ← f x; ys ← collect_ok f l; Ok (y :: ys)
  end.

Definition child_entry (child : CloudItem) : linux_result LinuxDirectoryEntry :=
  node ← node_from_item table policy child;
  Ok (LinuxDirectoryEntry_from_node (item_name child) node).

Definition LinuxReadOnlyEngine_open_directory (fuel : nat) (inode : LinuxInode) : io HandleState LinuxDirectoryHandle :=
  item ←? load_item_for_overlay table inode;
  if decide (item_kind item ≠ DirectoryKind) then done_with (Err NotDirectory)
  else
    children ←? load_children table fuel (item_key item);
    entries ←? done_with (collect_ok child_entry children);
    parent ←? done_with
      match item_parent_id item with
      | Some parent_id =>
          let parent_key := CloudItemKey_new (item_key_scope (item_key item)) parent_id in
          record ← ok_or (LinuxInodeTable_by_key table parent_key) MissingInodeRecord;
          Ok (record_inode record)
      | None => Ok inode
      end;
    locked (insert_directory (LinuxDirectorySnapshot_with_entries inode parent entries)).

Definition LinuxReadOnlyEngine_directory_snapshot (inode : LinuxInode) (handle : LinuxDirectoryHandle)
    : io HandleState LinuxDirectorySnapshot :=
  locked (λ s, (match handles_directories s !! handle with
    | None => Err StaleHandle
    | Some snapshot => if decide (dirsnap_directory snapshot ≠ inode) then Err StaleHandle else Ok snapshot
    end, s)).

Definition LinuxReadOnlyEngine_release_directory (handle : LinuxDirectoryHandle) : io HandleState unit :=
  locked (λ s, (if decide (handles_directories s !! handle = None) then Err StaleHandle else Ok tt,
    mk_HandleState (handles_next s) (handles_files s) (delete handle (handles_directories s)))).
End engine.
