(* ===== verification/LinuxWriteback.v ===== *)
(** * The writable Linux engine

    [aster_forge_cloud_files/linux/src/writeback.rs]: durable write-back over
    a product store, local namespace mutations, and the overlay of remote
    changes over the backend's namespace.

    Each method is a process over [WritableState]; what it does while it holds
    the mutex is one section, a function on the state.  The three families of
    maps [created_by_*], [namespace_by_*] and [remote_by_*] are three
    [EntryIndex] records.  The snapshot loops over directory pages take fuel
    (see [LinuxEngine]). *)
From S2P Require Export LinuxEngine.

(** ** State *)
Record OpenFile : Type := mk_OpenFile {
  open_inode : LinuxInode;
  open_access : LinuxFileAccess;
  open_session : LinuxWriteSessionId;
  open_size : Z;
  open_generation : option LocalContentGeneration;
}.

Definition ParentNameKey : Type := CloudItemId * string.
Definition ParentNameIndex (V : Type) : Type := gmap CloudItemId (gmap string V).

Definition ParentNameIndex_get {V} (i : ParentNameIndex V) (key : ParentNameKey) : option V :=
  children ← i !! key.1; children !! key.2.

Definition ParentNameIndex_contains_key {V} (i : ParentNameIndex V) (key : ParentNameKey) : bool :=
  bool_decide (is_Some (ParentNameIndex_get i key)).

Definition ParentNameIndex_insert {V} (key : ParentNameKey) (value : V) (i : ParentNameIndex V) : ParentNameIndex V :=
  <[key.1 := <[key.2 := value]> (default ∅ (i !! key.1))]> i.

Definition ParentNameIndex_remove {V} (key : ParentNameKey) (i : ParentNameIndex V) : ParentNameIndex V :=
  match i !! key.1 with
  | None => i
  | Some children =>
      let children := delete key.2 children in
      if decide (children = ∅) then delete key.1 i else <[key.1 := children]> i
  end.

Definition ParentNameIndex_children {V} (i : ParentNameIndex V) (parent : CloudItemId) : list (string * V) :=
  map_to_list (default ∅ (i !! parent)).

(** One family of maps: by inode, by key and by parent and name. *)
Record EntryIndex (V : Type) : Type := mk_EntryIndex {
  by_inode : gmap LinuxInode V;
  by_key : gmap CloudItemKey LinuxInode;
  by_name : ParentNameIndex LinuxInode;
}.
Arguments mk_EntryIndex {V} by_inode by_key by_name.
Arguments by_inode {V} e.
Arguments by_key {V} e.
Arguments by_name {V} e.

Definition EntryIndex_insert {V} (key : CloudItemKey) (name : ParentNameKey) (inode : LinuxInode) (value : V)
    (i : EntryIndex V) : EntryIndex V :=
  mk_EntryIndex (<[inode := value]> (by_inode i)) (<[key := inode]> (by_key i))
    (ParentNameIndex_insert name inode (by_name i)).
Definition EntryIndex_insert_name {V} (name : ParentNameKey) (inode : LinuxInode) (i : EntryIndex V) : EntryIndex V :=
  mk_EntryIndex (by_inode i) (by_key i) (ParentNameIndex_insert name inode (by_name i)).
Definition EntryIndex_remove_inode {V} (inode : LinuxInode) (i : EntryIndex V) : EntryIndex V :=
  mk_EntryIndex (delete inode (by_inode i)) (by_key i) (by_name i).
Definition EntryIndex_remove_key {V} (key : CloudItemKey) (i : EntryIndex V) : EntryIndex V :=
  mk_EntryIndex (by_inode i) (delete key (by_key i)) (by_name i).
Definition EntryIndex_remove_name {V} (name : ParentNameKey) (i : EntryIndex V) : EntryIndex V :=
  mk_EntryIndex (by_inode i) (by_key i) (ParentNameIndex_remove name (by_name i)).

(** The entry a name or a key leads to. *)
Definition EntryIndex_named {V} (i : EntryIndex V) (name : ParentNameKey) : option V :=
  inode ← ParentNameIndex_get (by_name i) name; by_inode i !! inode.
Definition EntryIndex_keyed {V} (i : EntryIndex V) (key : CloudItemKey) : option V :=
  inode ← by_key i !! key; by_inode i !! inode.

Record WritableState : Type := mk_WritableState {
  ws_next : Z;
  ws_files : gmap LinuxFileHandle OpenFile;
  ws_directories : gmap LinuxDirectoryHandle LinuxDirectorySnapshot;
  ws_dirty_snapshots : gmap LinuxInode LocalContentSnapshot;
  ws_created : EntryIndex LinuxCreatedFile;
  ws_namespace : EntryIndex LinuxNamespaceItem;
  ws_remote : EntryIndex LinuxRemoteEntry;
  ws_remote_tombstones_by_name : ParentNameIndex unit;
  ws_remote_deleted_keys : gset CloudItemKey;
  ws_remote_deleted_inodes : gset LinuxInode;
  ws_tombstones_by_name : ParentNameIndex LinuxNamespaceTombstone;
  ws_deleted_keys : gset CloudItemKey;
}.

Definition WritableState_default : WritableState :=
  mk_WritableState 0 ∅ ∅ ∅ (mk_EntryIndex ∅ ∅ ∅) (mk_EntryIndex ∅ ∅ ∅) (mk_EntryIndex ∅ ∅ ∅) ∅ ∅ ∅ ∅ ∅.

Definition set_next (n : Z) (s : WritableState) : WritableState :=
  mk_WritableState n (ws_files s) (ws_directories s) (ws_dirty_snapshots s) (ws_created s) (ws_namespace s)
    (ws_remote s) (ws_remote_tombstones_by_name s) (ws_remote_deleted_keys s) (ws_remote_deleted_inodes s)
    (ws_tombstones_by_name s) (ws_deleted_keys s).
Definition map_files (f : gmap LinuxFileHandle OpenFile → gmap LinuxFileHandle OpenFile) (s : WritableState)
    : WritableState :=
  mk_WritableState (ws_next s) (f (ws_files s)) (ws_directories s) (ws_dirty_snapshots s) (ws_created s)
    (ws_namespace s) (ws_remote s) (ws_remote_tombstones_by_name s) (ws_remote_deleted_keys s)
    (ws_remote_deleted_inodes s) (ws_tombstones_by_name s) (ws_deleted_keys s).
Definition map_directories
    (f : gmap LinuxDirectoryHandle LinuxDirectorySnapshot → gmap LinuxDirectoryHandle LinuxDirectorySnapshot)
    (s : WritableState) : WritableState :=
  mk_WritableState (ws_next s) (ws_files s) (f (ws_directories s)) (ws_dirty_snapshots s) (ws_created s)
    (ws_namespace s) (ws_remote s) (ws_remote_tombstones_by_name s) (ws_remote_deleted_keys s)
    (ws_remote_deleted_inodes s) (ws_tombstones_by_name s) (ws_deleted_keys s).
Definition map_dirty (f : gmap LinuxInode LocalContentSnapshot → gmap LinuxInode LocalContentSnapshot)
    (s : WritableState) : WritableState :=
  mk_WritableState (ws_next s) (ws_files s) (ws_directories s) (f (ws_dirty_snapshots s)) (ws_created s)
    (ws_namespace s) (ws_remote s) (ws_remote_tombstones_by_name s) (ws_remote_deleted_keys s)
    (ws_remote_deleted_inodes s) (ws_tombstones_by_name s) (ws_deleted_keys s).
Definition map_created (f : EntryIndex LinuxCreatedFile → EntryIndex LinuxCreatedFile) (s : WritableState)
    : WritableState :=
  mk_WritableState (ws_next s) (ws_files s) (ws_directories s) (ws_dirty_snapshots s) (f (ws_created s))
    (ws_namespace s) (ws_remote s) (ws_remote_tombstones_by_name s) (ws_remote_deleted_keys s)
    (ws_remote_deleted_inodes s) (ws_tombstones_by_name s) (ws_deleted_keys s).
Definition map_namespace (f : EntryIndex LinuxNamespaceItem → EntryIndex LinuxNamespaceItem) (s : WritableState)
    : WritableState :=
  mk_WritableState (ws_next s) (ws_files s) (ws_directories s) (ws_dirty_snapshots s) (ws_created s)
    (f (ws_namespace s)) (ws_remote s) (ws_remote_tombstones_by_name s) (ws_remote_deleted_keys s)
    (ws_remote_deleted_inodes s) (ws_tombstones_by_name s) (ws_deleted_keys s).
Definition map_remote (f : EntryIndex LinuxRemoteEntry → EntryIndex LinuxRemoteEntry) (s : WritableState)
    : WritableState :=
  mk_WritableState (ws_next s) (ws_files s) (ws_directories s) (ws_dirty_snapshots s) (ws_created s)
    (ws_namespace s) (f (ws_remote s)) (ws_remote_tombstones_by_name s) (ws_remote_deleted_keys s)
    (ws_remote_deleted_inodes s) (ws_tombstones_by_name s) (ws_deleted_keys s).
Definition map_remote_tombstones (f : ParentNameIndex unit → ParentNameIndex unit) (s : WritableState)
    : WritableState :=
  mk_WritableState (ws_next s) (ws_files s) (ws_directories s) (ws_dirty_snapshots s) (ws_created s)
    (ws_namespace s) (ws_remote s) (f (ws_remote_tombstones_by_name s)) (ws_remote_deleted_keys s)
    (ws_remote_deleted_inodes s) (ws_tombstones_by_name s) (ws_deleted_keys s).
Definition map_remote_deleted (f : gset CloudItemKey → gset CloudItemKey) (g : gset LinuxInode → gset LinuxInode)
    (s : WritableState) : WritableState :=
  mk_WritableState (ws_next s) (ws_files s) (ws_directories s) (ws_dirty_snapshots s) (ws_created s)
    (ws_namespace s) (ws_remote s) (ws_remote_tombstones_by_name s) (f (ws_remote_deleted_keys s))
    (g (ws_remote_deleted_inodes s)) (ws_tombstones_by_name s) (ws_deleted_keys s).
Definition map_tombstones
    (f : ParentNameIndex LinuxNamespaceTombstone → ParentNameIndex LinuxNamespaceTombstone) (s : WritableState)
    : WritableState :=
  mk_WritableState (ws_next s) (ws_files s) (ws_directories s) (ws_dirty_snapshots s) (ws_created s)
    (ws_namespace s) (ws_remote s) (ws_remote_tombstones_by_name s) (ws_remote_deleted_keys s)
    (ws_remote_deleted_inodes s) (f (ws_tombstones_by_name s)) (ws_deleted_keys s).
Definition map_deleted_keys (f : gset CloudItemKey → gset CloudItemKey) (s : WritableState) : WritableState :=
  mk_WritableState (ws_next s) (ws_files s) (ws_directories s) (ws_dirty_snapshots s) (ws_created s)
    (ws_namespace s) (ws_remote s) (ws_remote_tombstones_by_name s) (ws_remote_deleted_keys s)
    (ws_remote_deleted_inodes s) (ws_tombstones_by_name s) (f (ws_deleted_keys s)).

Definition WritableState_allocate (s : WritableState) : linux_result LinuxFileHandle * WritableState :=
  match next_handle (ws_next s) with
  | Err e => (Err e, s)
  | Ok (current, next) => (LinuxFileHandle_new current, set_next next s)
  end.

Definition WritableState_allocate_directory (s : WritableState)
    : linux_result LinuxDirectoryHandle * WritableState :=
  match next_handle (ws_next s) with
  | Err e => (Err e, s)
  | Ok (current, next) => (LinuxDirectoryHandle_new current, set_next next s)
  end.

(** ** The engine *)
Section writable.
Context (table : LinuxInodeTable) (policy : LinuxAttributePolicy) (session_generation : SessionGeneration).
(** Whether a namespace store is configured, and the fuel of a directory loop. *)
Context (namespace_store : bool) (fuel : nat).

Abbreviation wio A := (io WritableState A).
Abbreviation invalid reason := (Err (InvalidBackendResponse reason)).

(** A section that only reads. *)
Definition observe {A} (f : WritableState → linux_result A) : wio A := locked (λ s, (f s, s)).

Definition require_namespace : wio unit :=
  done_with (if namespace_store then Ok tt else Err NamespaceMutationNotConfigured).

(** *** Records, keys and items of the overlay *)
Definition overlay_item (s : WritableState) (inode : LinuxInode) : option (CloudItem * LinuxInodeRecord) :=
  match by_inode (ws_namespace s) !! inode with
  | Some item => Some (namespace_item item, namespace_inode_record item)
  | None =>
      match by_inode (ws_created s) !! inode with
      | Some created => Some (created_item created, created_inode_record created)
      | None => (λ entry, (remote_item entry, remote_inode_record entry)) <$> by_inode (ws_remote s) !! inode
      end
  end.

Definition record_for_key_in_state (s : WritableState) (key : CloudItemKey) : option LinuxInodeRecord :=
  match EntryIndex_keyed (ws_namespace s) key with
  | Some item => Some (namespace_inode_record item)
  | None =>
      match EntryIndex_keyed (ws_created s) key with
      | Some created => Some (created_inode_record created)
      | None =>
          match EntryIndex_keyed (ws_remote s) key with
          | Some entry => Some (remote_inode_record entry)
          | None => LinuxInodeTable_by_key table key
          end
      end
  end.

Definition inode_for_key_in_state (s : WritableState) (key : CloudItemKey) : option LinuxInode :=
  record_inode <$> record_for_key_in_state s key.

Definition record_for_key (key : CloudItemKey) : wio (option LinuxInodeRecord) :=
  observe (λ s, Ok (record_for_key_in_state s key)).

Definition inode_for_key (key : CloudItemKey) : wio (option LinuxInode) :=
  record ←? record_for_key key; done_with (Ok (record_inode <$> record)).

Definition key_for_inode_in_state (s : WritableState) (inode : LinuxInode) : option CloudItemKey :=
  match by_inode (ws_namespace s) !! inode with
  | Some item => Some (item_key (namespace_item item))
  | None =>
      match by_inode (ws_created s) !! inode with
      | Some created => Some (item_key (created_item created))
      | None =>
          match by_inode (ws_remote s) !! inode with
          | Some entry => Some (item_key (remote_item entry))
          | None => record_key <$> LinuxInodeTable_by_inode table inode
          end
      end
  end.

Definition item_key_of (s : WritableState) (inode : LinuxInode) : linux_result CloudItemKey :=
  match by_inode (ws_created s) !! inode with
  | Some created => Ok (item_key (created_item created))
  | None =>
      match by_inode (ws_namespace s) !! inode with
      | Some item => Ok (item_key (namespace_item item))
      | None =>
          match by_inode (ws_remote s) !! inode with
          | Some entry => Ok (item_key (remote_item entry))
          | None => ok_or (record_key <$> LinuxInodeTable_by_inode table inode) (UnknownInode (inode_get inode))
          end
      end
  end.

(** *** Attributes and lookups *)
Abbreviation overlay_entries := (option LinuxNamespaceItem * option LinuxCreatedFile * option LinuxRemoteEntry)%type.

(** The entry that wins: local namespace, then created, then remote. *)
Definition first_entry (entries : overlay_entries) : option (CloudItem * LinuxInodeRecord) :=
  match entries with
  | (Some item, _, _) => Some (namespace_item item, namespace_inode_record item)
  | (None, Some created, _) => Some (created_item created, created_inode_record created)
  | (None, None, Some remote) => Some (remote_item remote, remote_inode_record remote)
  | (None, None, None) => None
  end.

Definition entries_of_inode (s : WritableState) (inode : LinuxInode) : overlay_entries :=
  (by_inode (ws_namespace s) !! inode, by_inode (ws_created s) !! inode, by_inode (ws_remote s) !! inode).

Definition entries_of_name (s : WritableState) (name : ParentNameKey) : overlay_entries :=
  (EntryIndex_named (ws_namespace s) name, EntryIndex_named (ws_created s) name, EntryIndex_named (ws_remote s) name).

Definition key_deleted (s : WritableState) (key : CloudItemKey) : bool :=
  bool_decide (key ∈ ws_deleted_keys s) || bool_decide (key ∈ ws_remote_deleted_keys s).

Definition inode_deleted (s : WritableState) (inode : LinuxInode) : bool :=
  bool_decide (inode ∈ ws_remote_deleted_inodes s) ||
  match LinuxInodeTable_by_inode table inode with
  | Some record => key_deleted s (record_key record)
  | None => false
  end ||
  match by_inode (ws_created s) !! inode with
  | Some created => key_deleted s (item_key (created_item created))
  | None => false
  end.

Definition with_overlay_size (size : option Z) (node : LinuxNode) : LinuxNode :=
  match size with Some size => LinuxNode_with_size node size | None => node end.

Definition dirty_size (s : WritableState) (inode : LinuxInode) : option Z :=
  snapshot_size <$> ws_dirty_snapshots s !! inode.

Definition attribute_size (inode : LinuxInode) (handle : option LinuxFileHandle) (s : WritableState)
    : linux_result (option Z) :=
  match handle with
  | Some handle =>
      match ws_files s !! handle with
      | Some opened => if decide (open_inode opened = inode) then Ok (Some (open_size opened)) else Err StaleHandle
      | None => Err StaleHandle
      end
  | None => Ok (dirty_size s inode)
  end.

Definition LinuxWritableEngine_getattr (inode : LinuxInode) (handle : option LinuxFileHandle) : wio LinuxNode :=
  '(entries, deleted) ←? observe (λ s, Ok (entries_of_inode s inode, inode_deleted s inode));
  if deleted && bool_decide (entries.1.1 = None) && bool_decide (entries.2 = None)
  then done_with (Err (UnknownInode (inode_get inode)))
  else
    node ←? match first_entry entries with
            | Some (item, record) => done_with (node_from_item_and_record policy item record)
            | None => LinuxReadOnlyEngine_getattr table policy inode
            end;
    size ←? observe (attribute_size inode handle);
    done_with (Ok (with_overlay_size size node)).

Definition name_tombstoned (s : WritableState) (name : ParentNameKey) : bool :=
  ParentNameIndex_contains_key (ws_tombstones_by_name s) name ||
  ParentNameIndex_contains_key (ws_remote_tombstones_by_name s) name.

Definition LinuxWritableEngine_lookup (parent : LinuxInode) (name : string) : wio LinuxNode :=
  _ ←? done_with (validate_linux_name name);
  parent_node ←? LinuxWritableEngine_getattr parent None;
  if decide (node_kind parent_node ≠ NodeDirectory) then done_with (Err NotDirectory)
  else
    let name_key := (item_key_item_id (node_key parent_node), name) in
    '(entries, tombstoned) ←? observe (λ s, Ok (entries_of_name s name_key, name_tombstoned s name_key));
    node ←? match first_entry entries with
            | Some (item, record) => done_with (node_from_item_and_record policy item record)
            | None =>
                if tombstoned then done_with (Err (UnknownInode (inode_get parent)))
                else LinuxReadOnlyEngine_lookup table policy fuel parent name
            end;
    size ←? observe (λ s, Ok (dirty_size s (node_inode node)));
    done_with (Ok (with_overlay_size size node)).

(** *** Opening files *)
Definition validate_session_section (inode : LinuxInode) (snapshot : LocalContentSnapshot) (s : WritableState)
    : linux_result unit * WritableState :=
  match ws_dirty_snapshots s !! inode with
  | Some current =>
      if decide (local_generation_get (snapshot_generation snapshot) <
                 local_generation_get (snapshot_generation current)) then
        (invalid "recovered writeback session regressed the active dirty generation", s)
      else if decide (snapshot_generation current = snapshot_generation snapshot ∧ current ≠ snapshot) then
        (invalid "one dirty generation identified different immutable snapshots", s)
      else (Ok tt, map_dirty <[inode := snapshot]> s)
  | None => (Ok tt, map_dirty <[inode := snapshot]> s)
  end.

Definition validate_opened_session (inode : LinuxInode) (key : CloudItemKey) (session : LinuxWriteSession)
    (recovered : bool) : wio unit :=
  if decide (wsession_key session ≠ key) then
    done_with (invalid "writeback store opened a different stable item identity")
  else if decide (wsession_session_generation session ≠ session_generation) then
    done_with (invalid "writeback store opened a session for a different mount generation")
  else
    match wsession_snapshot session with
    | None =>
        if recovered then done_with (invalid "recovered writeback session omitted its immutable dirty snapshot")
        else done_with (Ok tt)
    | Some snapshot =>
        if decide (snapshot_item_key snapshot ≠ key ∨ snapshot_size snapshot ≠ wsession_size session) then
          done_with (invalid "writeback session snapshot did not match its item or logical size")
        else locked (validate_session_section inode snapshot)
    end.

Definition insert_opened (opened : OpenFile) (s : WritableState) : linux_result LinuxFileHandle * WritableState :=
  match WritableState_allocate s with
  | (Err e, s) => (Err e, s)
  | (Ok handle, s) => (Ok handle, map_files <[handle := opened]> s)
  end.

Definition LinuxWritableEngine_open_file (inode : LinuxInode) (access : LinuxFileAccess) : wio LinuxFileHandle :=
  entries ←? observe (λ s, Ok (entries_of_inode s inode));
  node ←? match first_entry entries with
          | Some (item, record) => done_with (node_from_item_and_record policy item record)
          | None => LinuxReadOnlyEngine_getattr table policy inode
          end;
  if decide (node_kind node ≠ NodeFile) then done_with (Err NotFile)
  else
    let key := node_key node in
    found ←? call_port LinuxWritebackStore (OpenRecovered key session_generation) (λ x, x);
    '(session, recovered) ←?
      match found with
      | Some session => done_with (Ok (session, true))
      | None =>
          if decide (is_Some entries.1.2) then
            _ ←? require_namespace;
            session ←? call_port LinuxNamespaceStore (OpenCreatedFile key session_generation) (λ x, x);
            done_with (Ok (session, false))
          else
            '(request, content) ←?
              match entries.2 with
              | Some remote => hydrate_item_for_write (remote_item remote) session_generation
              | None => hydrate_for_write table inode session_generation
              end;
            session ←? call_port LinuxWritebackStore (OpenExisting request content) (λ x, x);
            done_with (Ok (session, false))
      end;
    _ ←? validate_opened_session inode key session recovered;
    locked (insert_opened (mk_OpenFile inode access (wsession_id session) (wsession_size session)
      (snapshot_generation <$> wsession_snapshot session))).

(** *** Reading and writing *)
Definition opened_for (handle : LinuxFileHandle) (s : WritableState) : linux_result OpenFile :=
  ok_or (ws_files s !! handle) StaleHandle.

Definition LinuxWritableEngine_read_file (inode : LinuxInode) (handle : LinuxFileHandle) (offset size : Z)
    : wio (list byte) :=
  opened ←? observe (opened_for handle);
  if bool_decide (open_inode opened = inode) && LinuxFileAccess_readable (open_access opened) then
    if decide (size = 0 ∨ open_size opened ≤ offset) then done_with (Ok [])
    else
      let expected := Z.min size (open_size opened - offset) in
      bytes ←? call_port LinuxWritebackStore (StoreRead (open_session opened) offset size) (λ x, x);
      if decide (byte_count bytes ≠ expected) then
        done_with (invalid "writeback read returned a partial non-EOF range")
      else done_with (Ok bytes)
  else if LinuxFileAccess_readable (open_access opened) then done_with (Err StaleHandle)
  else done_with (Err AccessModeMismatch).

Definition write_session (inode : LinuxInode) (handle : LinuxFileHandle) (s : WritableState)
    : linux_result LinuxWriteSessionId :=
  match ws_files s !! handle with
  | Some opened =>
      if bool_decide (open_inode opened = inode) && LinuxFileAccess_writable (open_access opened)
      then Ok (open_session opened) else Err AccessModeMismatch
  | None => Err StaleHandle
  end.

(** What a commit does to the handle and to the dirty snapshot of its inode. *)
Definition commit_section (handle : LinuxFileHandle) (inode : LinuxInode) (snapshot : LocalContentSnapshot)
    (allow_same_generation : bool) (s : WritableState) : linux_result unit * WritableState :=
  let generation := local_generation_get (snapshot_generation snapshot) in
  let stale (current : Z) :=
    bool_decide (generation < current) || negb allow_same_generation && bool_decide (generation = current) in
  match ws_files s !! handle with
  | None => (Err StaleHandle, s)
  | Some opened =>
      if decide (open_inode opened ≠ inode) then (Err StaleHandle, s)
      else if match open_generation opened with
              | Some previous => stale (local_generation_get previous)
              | None => false
              end
      then (invalid "writeback commit did not advance the immutable local generation", s)
      else
        let current := ws_dirty_snapshots s !! inode in
        let accept (s : WritableState) :=
          map_dirty <[inode := snapshot]>
            (map_files <[handle := mk_OpenFile (open_inode opened) (open_access opened) (open_session opened)
                                     (snapshot_size snapshot) (Some (snapshot_generation snapshot))]> s) in
        match current with
        | None => (Ok tt, accept s)
        | Some current =>
            if allow_same_generation && bool_decide (snapshot_generation snapshot = snapshot_generation current)
               && bool_decide (current ≠ snapshot) then
              (invalid "one dirty generation identified different immutable snapshots", s)
            else if stale (local_generation_get (snapshot_generation current)) then
              if allow_same_generation &&
                 bool_decide (generation < local_generation_get (snapshot_generation current))
              then (Ok tt, s)
              else (invalid "writeback commit did not advance the active dirty generation", s)
            else (Ok tt, accept s)
        end
  end.

Definition apply_commit (handle : LinuxFileHandle) (inode : LinuxInode) (commit : LinuxWriteCommit)
    (minimum_size : option Z) (allow_same_generation : bool) : wio unit :=
  let snapshot := commit_snapshot commit in
  expected_key ←? observe (λ s, item_key_of s inode);
  if decide (snapshot_item_key snapshot ≠ expected_key) then
    done_with (invalid "writeback commit returned a different stable item identity")
  else if match minimum_size with Some minimum => bool_decide (snapshot_size snapshot < minimum) | None => false end
  then done_with (invalid "writeback commit size omitted accepted bytes")
  else locked (commit_section handle inode snapshot allow_same_generation).

Definition LinuxWritableEngine_write_file (inode : LinuxInode) (handle : LinuxFileHandle) (offset : Z)
    (bytes : list byte) : wio Z :=
  if decide (U32_MAX < byte_count bytes) then
    done_with (Err (InvalidConfiguration "FUSE write length cannot be represented as u32"))
  else if decide (bytes = []) then done_with (Ok 0)
  else
    end_ ←? done_with (ok_or (checked_add U64_MAX offset (byte_count bytes))
      (InvalidConfiguration "FUSE write range exceeds u64"));
    session ←? observe (write_session inode handle);
    commit ←? call_port LinuxWritebackStore (StoreWrite session offset bytes) (λ x, x);
    _ ←? apply_commit handle inode commit (Some end_) false;
    done_with (Ok (byte_count bytes)).

Definition LinuxWritableEngine_truncate_file (inode : LinuxInode) (handle : LinuxFileHandle) (size : Z)
    : wio LinuxNode :=
  session ←? observe (write_session inode handle);
  commit ←? call_port LinuxWritebackStore (StoreTruncate session size) (λ x, x);
  _ ←? apply_commit handle inode commit (Some size) false;
  LinuxWritableEngine_getattr inode (Some handle).

(** The entry of a handle leaves the table before its session is closed. *)
Definition take_opened (handle : LinuxFileHandle) (s : WritableState) : linux_result OpenFile * WritableState :=
  match ws_files s !! handle with
  | None => (Err StaleHandle, s)
  | Some opened => (Ok opened, map_files (delete handle) s)
  end.

Definition LinuxWritableEngine_release_file (handle : LinuxFileHandle) : wio unit :=
  opened ←? locked (take_opened handle);
  call_port LinuxWritebackStore (StoreClose (open_session opened)) (λ x, x).

Definition LinuxWritableEngine_truncate_once (inode : LinuxInode) (size : Z) : wio LinuxNode :=
  handle ←? LinuxWritableEngine_open_file inode AccessWrite;
  prog_bind (λ truncated,
    prog_bind (λ released,
      match truncated, released with
      | Ok node, Ok _ => done_with (Ok node)
      | Err error, _ | Ok _, Err error => done_with (Err error)
      end) (LinuxWritableEngine_release_file handle))
    (LinuxWritableEngine_truncate_file inode handle size).

Definition sync_session (inode : LinuxInode) (handle : LinuxFileHandle) (s : WritableState)
    : linux_result (option LinuxWriteSessionId) :=
  match ws_files s !! handle with
  | Some opened =>
      if decide (open_inode opened = inode) then
        if LinuxFileAccess_writable (open_access opened) then Ok (Some (open_session opened)) else Ok None
      else Err StaleHandle
  | None => Err StaleHandle
  end.

Definition LinuxWritableEngine_sync_file (inode : LinuxInode) (handle : LinuxFileHandle) (data_only : bool)
    : wio unit :=
  session ←? observe (sync_session inode handle);
  match session with
  | None => done_with (Ok tt)
  | Some session =>
      commit ←? call_port LinuxWritebackStore (StoreSync session data_only) (λ x, x);
      match commit with
      | Some commit => apply_commit handle inode commit None true
      | None => done_with (Ok tt)
      end
  end.

(** *** Directory snapshots *)
Abbreviation local_entry := (string * CloudItem * LinuxInodeRecord)%type.

(** Adds the named entries of one family that no earlier family has named. *)
Fixpoint overlay_children {V} (item_of : V → CloudItem * LinuxInodeRecord) (values : gmap LinuxInode V)
    (children : list (string * LinuxInode)) (names : gset string) (local : list local_entry)
    : gset string * list local_entry :=
  match children with
  | [] => (names, local)
  | (name, inode) :: children =>
      match values !! inode with
      | Some value =>
          if decide (name ∈ names) then overlay_children item_of values children names local
          else overlay_children item_of values children ({[name]} ∪ names)
                 (local ++ [(name, (item_of value).1, (item_of value).2)])
      | None => overlay_children item_of values children names local
      end
  end.

(** The names that local and remote tombstones hide, the names of overlay
    entries, and these entries. *)
Definition directory_overlay (parent : CloudItemId) (s : WritableState)
    : gset string * gset string * list local_entry :=
  let '(names, local) := overlay_children (λ i, (namespace_item i, namespace_inode_record i))
    (by_inode (ws_namespace s)) (ParentNameIndex_children (by_name (ws_namespace s)) parent) ∅ [] in
  let '(names, local) := overlay_children (λ i, (created_item i, created_inode_record i))
    (by_inode (ws_created s)) (ParentNameIndex_children (by_name (ws_created s)) parent) names local in
  let '(names, local) := overlay_children (λ i, (remote_item i, remote_inode_record i))
    (by_inode (ws_remote s)) (ParentNameIndex_children (by_name (ws_remote s)) parent) names local in
  let tombstoned := list_to_set ((ParentNameIndex_children (ws_tombstones_by_name s) parent).*1 ++
    (ParentNameIndex_children (ws_remote_tombstones_by_name s) parent).*1) ∖ names in
  (tombstoned, names, local).

(** The visible children of the backend, each with its record. *)
Fixpoint backend_entries (hidden : gset string) (children : list CloudItem) : wio (list LinuxDirectoryEntry) :=
  match children with
  | [] => done_with (Ok [])
  | item :: children =>
      if decide (item_name item ∈ hidden) then backend_entries hidden children
      else
        record ←? record_for_key (item_key item);
        record ←? done_with (ok_or record MissingInodeRecord);
        child ←? done_with (node_from_item_and_record policy item record);
        entries ←? backend_entries hidden children;
        done_with (Ok (LinuxDirectoryEntry_from_node (item_name item) child :: entries))
  end.

Fixpoint append_local (local : list local_entry) (entries : list LinuxDirectoryEntry)
    : linux_result (list LinuxDirectoryEntry) :=
  match local with
  | [] => Ok entries
  | (name, item, record) :: local =>
      if existsb (λ entry, bool_decide (dirent_name entry = name)) entries then
        invalid "durable overlay collided with another visible directory entry"
      else
        child ← node_from_item_and_record policy item record;
        append_local local (entries ++ [LinuxDirectoryEntry_from_node name child])
  end.

Definition name_leb (left right : local_entry) : bool := String.leb left.1.1 right.1.1.

Definition insert_snapshot (snapshot : LinuxDirectorySnapshot) (s : WritableState)
    : linux_result LinuxDirectoryHandle * WritableState :=
  match WritableState_allocate_directory s with
  | (Err e, s) => (Err e, s)
  | (Ok handle, s) => (Ok handle, map_directories <[handle := snapshot]> s)
  end.

Definition LinuxWritableEngine_open_directory (inode : LinuxInode) : wio LinuxDirectoryHandle :=
  node ←? LinuxWritableEngine_getattr inode None;
  if decide (node_kind node ≠ NodeDirectory) then done_with (Err NotDirectory)
  else
    overlay ←? observe (λ s, Ok (overlay_item s inode));
    directory_item ←? match overlay with
                      | Some (item, _) => done_with (Ok item)
                      | None => load_item_for_overlay table inode
                      end;
    backend_children ←? load_children_for_overlay fuel (item_key directory_item);
    parent ←? match item_parent_id directory_item with
              | Some parent_id =>
                  found ←? inode_for_key (CloudItemKey_new (item_key_scope (item_key directory_item)) parent_id);
                  done_with (ok_or found MissingInodeRecord)
              | None => done_with (Ok inode)
              end;
    '(tombstoned, names, local) ←? observe (λ s, Ok (directory_overlay (item_key_item_id (node_key node)) s));
    entries ←? backend_entries (tombstoned ∪ names) backend_children;
    let local := sort_by name_leb (filter (λ l : local_entry, l.1.1 ∉ tombstoned) local) in
    entries ←? done_with (append_local local entries);
    locked (insert_snapshot (LinuxDirectorySnapshot_with_entries inode parent entries)).

Definition LinuxWritableEngine_directory_snapshot (inode : LinuxInode) (handle : LinuxDirectoryHandle)
    : wio LinuxDirectorySnapshot :=
  observe (λ s,
    snapshot ← ok_or (ws_directories s !! handle) StaleHandle;
    if decide (dirsnap_directory snapshot ≠ inode) then Err StaleHandle else Ok snapshot).

Definition LinuxWritableEngine_release_directory (handle : LinuxDirectoryHandle) : wio unit :=
  locked (λ s, (if decide (ws_directories s !! handle = None) then Err StaleHandle else Ok tt,
    map_directories (delete handle) s)).

(** *** Validation of what the namespace store answers *)
Definition validate_namespace_item (item : LinuxNamespaceItem) : linux_result unit :=
  map_err (λ _, InvalidBackendResponse "namespace item returned an invalid mutation intent")
    (MutationIntent_validate_for_persistence (namespace_mutation_intent item));;
  (if decide (CloudItem_is_root (namespace_item item) = true ∨
              item_key (namespace_item item) ≠ record_key (namespace_inode_record item) ∨
              record_inode (namespace_inode_record item) = LINUX_ROOT_INODE ∨
              item_key_scope (item_key (namespace_item item)) ≠ table_scope table ∨
              session_generation_get session_generation <
                session_generation_get (mi_session_generation (namespace_mutation_intent item)))
   then invalid "namespace item returned an invalid stable mapping" else Ok tt);;
  validate_linux_name (item_name (namespace_item item)).

Definition ensure_namespace_item_is_unique (s : WritableState) (item : LinuxNamespaceItem) (name : ParentNameKey)
    (replacing_key : option CloudItemKey) : linux_result unit :=
  let key := item_key (namespace_item item) in
  let inode := record_inode (namespace_inode_record item) in
  let static_key_conflict :=
    match LinuxInodeTable_by_key table key with
    | Some existing => bool_decide (replacing_key ≠ Some (record_key existing)) | None => false end in
  let static_inode_conflict :=
    match LinuxInodeTable_by_inode table inode with
    | Some existing => bool_decide (replacing_key ≠ Some (record_key existing)) | None => false end in
  let dynamic_key_conflict :=
    match by_key (ws_namespace s) !! key with
    | Some _ => bool_decide (replacing_key ≠ Some key) | None => false end in
  let dynamic_inode_conflict :=
    match by_inode (ws_namespace s) !! inode with
    | Some existing => bool_decide (replacing_key ≠ Some (item_key (namespace_item existing))) | None => false end in
  let named :=
    match ParentNameIndex_get (by_name (ws_namespace s)) name with
    | Some inode => Some inode
    | None => ParentNameIndex_get (by_name (ws_created s)) name
    end in
  let name_conflict := match named with Some other => bool_decide (other ≠ inode) | None => false end in
  if static_key_conflict || static_inode_conflict || dynamic_key_conflict || dynamic_inode_conflict || name_conflict
  then invalid "namespace store returned a duplicate key, inode, or parent/name mapping" else Ok tt.

Definition validate_created_session (created : LinuxCreatedFile) (session : LinuxWriteSession) : linux_result unit :=
  if decide (wsession_key session ≠ item_key (created_item created)) then
    invalid "create staging session returned a different stable item identity"
  else if decide (wsession_size session ≠ 0 ∨ wsession_snapshot session ≠ None) then
    invalid "create staging session was not a clean empty file"
  else if decide (wsession_session_generation session ≠ session_generation) then
    invalid "create staging session used another mount generation"
  else Ok tt.

Definition validate_created_file (created : LinuxCreatedFile) (request : option LinuxCreateFileRequest)
    : linux_result unit :=
  let item := created_item created in
  let record := created_inode_record created in
  let intent := created_mutation_intent created in
  map_err (λ _, InvalidBackendResponse "namespace store returned an invalid durable mutation intent")
    (MutationIntent_validate_for_persistence intent);;
  if decide (item_kind item ≠ FileKind ∨ CloudItem_is_root item = true) then
    invalid "namespace store create did not return a non-root regular file"
  else if match item_content item with Some content => bool_decide (content_size content ≠ 0) | None => true end then
    invalid "namespace store create did not return empty file metadata"
  else if decide (record_key record ≠ item_key item ∨ record_inode record = LINUX_ROOT_INODE) then
    invalid "namespace store inode allocation did not match the created item"
  else if decide (item_key_scope (item_key item) ≠ table_scope table) then Err ScopeMismatch
  else
    match mi_desired intent with
    | DesiredCreate scope parent_id name kind =>
        if decide (mi_origin intent ≠ PlatformCommand ∨ scope ≠ item_key_scope (item_key item) ∨
                   item_parent_id item ≠ Some parent_id ∨ item_name item ≠ name ∨ kind ≠ FileKind) then
          invalid "namespace store mutation intent did not match the created file"
        else if decide (session_generation_get session_generation <
                        session_generation_get (mi_session_generation intent)) then
          invalid "recovered create intent came from a future mount generation"
        else if match request with
                | Some request =>
                    bool_decide (item_key_scope (cfile_parent_key request) ≠ scope ∨
                      item_key_item_id (cfile_parent_key request) ≠ parent_id ∨ cfile_name request ≠ name ∨
                      cfile_session_generation request ≠ mi_session_generation intent)
                | None => false
                end
        then invalid "namespace store create acceptance did not match the native request"
        else validate_linux_name (item_name item)
    | _ => invalid "namespace store did not persist a create mutation intent"
    end.

Definition ensure_created_file_is_unique (s : WritableState) (created : LinuxCreatedFile) (name : ParentNameKey)
    : linux_result unit :=
  let key := item_key (created_item created) in
  let inode := record_inode (created_inode_record created) in
  if decide (is_Some (LinuxInodeTable_by_key table key) ∨ is_Some (LinuxInodeTable_by_inode table inode) ∨
             is_Some (by_key (ws_created s) !! key) ∨ is_Some (by_inode (ws_created s) !! inode) ∨
             is_Some (ParentNameIndex_get (by_name (ws_created s)) name))
  then invalid "namespace store returned a duplicate key, inode, or parent/name mapping" else Ok tt.

Definition validate_namespace_create (request : LinuxCreateDirectoryRequest) (item : LinuxNamespaceItem)
    : linux_result unit :=
  validate_namespace_item item;;
  match mi_desired (namespace_mutation_intent item) with
  | DesiredCreate scope parent_id name kind =>
      let i := namespace_item item in
      if decide (item_kind i ≠ DirectoryKind ∨ item_content i ≠ None ∨
                 item_parent_id i ≠ Some (item_key_item_id (cdir_parent_key request)) ∨
                 item_name i ≠ cdir_name request ∨ scope ≠ item_key_scope (cdir_parent_key request) ∨
                 parent_id ≠ item_key_item_id (cdir_parent_key request) ∨ name ≠ cdir_name request ∨
                 kind ≠ DirectoryKind ∨
                 mi_session_generation (namespace_mutation_intent item) ≠ cdir_session_generation request)
      then invalid "directory create acceptance did not match the native request" else Ok tt
  | _ => invalid "directory create did not persist a create mutation"
  end.

Definition kind_of_node (kind : LinuxNodeKind) : CloudItemKind :=
  match kind with NodeFile => FileKind | NodeDirectory => DirectoryKind end.

Definition validate_rename_acceptance (request : LinuxRenameRequest) (item : LinuxNamespaceItem)
    (source : LinuxNamespaceTombstone) (replaced : option LinuxNamespaceTombstone) : linux_result unit :=
  validate_namespace_item item;;
  match mi_desired (namespace_mutation_intent item) with
  | DesiredModifyMetadata key parent_id name =>
      let i := namespace_item item in
      if decide (item_key i ≠ rename_key request ∨ record_key (namespace_inode_record item) ≠ rename_key request ∨
                 record_generation (namespace_inode_record item) ≠ rename_inode_generation request ∨
                 item_kind i ≠ kind_of_node (rename_kind request) ∨
                 item_parent_id i ≠ Some (item_key_item_id (rename_new_parent_key request)) ∨
                 item_name i ≠ rename_new_name request ∨ key ≠ rename_key request ∨
                 parent_id ≠ Some (item_key_item_id (rename_new_parent_key request)) ∨
                 name ≠ Some (rename_new_name request) ∨
                 mi_origin (namespace_mutation_intent item) ≠ PlatformCommand ∨
                 mi_session_generation (namespace_mutation_intent item) ≠ rename_session_generation request ∨
                 tombstone_key source ≠ rename_key request ∨
                 tombstone_inode_generation source ≠ rename_inode_generation request ∨
                 tombstone_parent_key source ≠ rename_old_parent_key request ∨
                 tombstone_name source ≠ rename_old_name request ∨ tombstone_kind source ≠ rename_kind request ∨
                 mi_operation_id (tombstone_mutation_intent source) ≠
                   mi_operation_id (namespace_mutation_intent item))
      then invalid "rename acceptance substituted namespace identity or intent"
      else
        match rename_destination request, replaced with
        | None, None => Ok tt
        | Some destination, _ =>
            if rename_no_replace request then invalid "no-replace rename accepted an existing destination"
            else
              match replaced with
              | Some replaced =>
                  if decide (tombstone_key replaced = destination_key destination ∧
                             tombstone_inode_generation replaced = destination_inode_generation destination ∧
                             tombstone_kind replaced = destination_kind destination ∧
                             tombstone_parent_key replaced = rename_new_parent_key request ∧
                             tombstone_name replaced = rename_new_name request)
                  then Ok tt else invalid "rename replacement tombstone did not match the destination"
              | None => invalid "rename replacement tombstone did not match the destination"
              end
        | None, Some _ => invalid "rename replacement tombstone did not match the destination"
        end
  | _ => invalid "rename did not persist a metadata mutation"
  end.

Definition validate_remove_acceptance (request : LinuxRemoveRequest) (tombstone : LinuxNamespaceTombstone)
    : linux_result unit :=
  let intent := tombstone_mutation_intent tombstone in
  if decide (tombstone_key tombstone ≠ remove_key request ∨
             tombstone_inode_generation tombstone ≠ remove_inode_generation request ∨
             tombstone_parent_key tombstone ≠ remove_parent_key request ∨
             tombstone_name tombstone ≠ remove_name request ∨ tombstone_kind tombstone ≠ remove_kind request ∨
             mi_origin intent ≠ PlatformCommand ∨
             mi_session_generation intent ≠ remove_session_generation request ∨
             mi_desired intent ≠ DesiredDelete (remove_key request))
  then invalid "remove acceptance substituted namespace identity or intent" else Ok tt.

(** *** Local namespace mutations *)
Definition accept_created_section (request : LinuxCreateFileRequest) (created : LinuxCreatedFile)
    (session : LinuxWriteSession) (handle : LinuxFileHandle) (s : WritableState) : linux_result unit * WritableState :=
  let inode := record_inode (created_inode_record created) in
  let name := (item_key_item_id (cfile_parent_key request), cfile_name request) in
  match ensure_created_file_is_unique s created name with
  | Err e => (Err e, s)
  | Ok _ =>
      if decide (map_Exists (λ _ opened, open_session opened = wsession_id session) (ws_files s)) then
        (invalid "namespace store reused an active write session identity", s)
      else
        (Ok tt,
         map_files <[handle := mk_OpenFile inode (cfile_access request) (wsession_id session) 0 None]>
           (map_created (EntryIndex_insert (item_key (created_item created)) name inode created)
              (map_remote_tombstones (ParentNameIndex_remove name)
                 (map_tombstones (ParentNameIndex_remove name) s))))
  end.

Definition accept_created_file (request : LinuxCreateFileRequest) (acceptance : LinuxCreateFileAcceptance)
    (handle : LinuxFileHandle) : wio (LinuxNode * LinuxFileHandle) :=
  let created := acceptance_created acceptance in
  let session := acceptance_session acceptance in
  _ ←? done_with (validate_created_file created (Some request));
  _ ←? done_with (validate_created_session created session);
  node ←? done_with (node_from_item_and_record policy (created_item created) (created_inode_record created));
  _ ←? locked (accept_created_section request created session handle);
  done_with (Ok (node, handle)).

Definition LinuxWritableEngine_create_file (parent : LinuxInode) (name : string) (mode umask : Z)
    (access : LinuxFileAccess) : wio (LinuxNode * LinuxFileHandle) :=
  _ ←? require_namespace;
  parent_node ←? LinuxWritableEngine_getattr parent None;
  if decide (node_kind parent_node ≠ NodeDirectory) then done_with (Err NotDirectory)
  else
    request ←? done_with (LinuxCreateFileRequest_new (node_key parent_node) name mode umask access session_generation);
    handle ←? locked WritableState_allocate;
    acceptance ←? call_port LinuxNamespaceStore (CreateFile request) (λ x, x);
    accept_created_file request acceptance handle.

Definition accept_directory_section (request : LinuxCreateDirectoryRequest) (item : LinuxNamespaceItem)
    (s : WritableState) : linux_result unit * WritableState :=
  let name := (item_key_item_id (cdir_parent_key request), cdir_name request) in
  match ensure_namespace_item_is_unique s item name None with
  | Err e => (Err e, s)
  | Ok _ =>
      (Ok tt,
       map_namespace (EntryIndex_insert (item_key (namespace_item item)) name
                        (record_inode (namespace_inode_record item)) item)
         (map_remote_tombstones (ParentNameIndex_remove name) (map_tombstones (ParentNameIndex_remove name) s)))
  end.

Definition accept_namespace_create (request : LinuxCreateDirectoryRequest) (item : LinuxNamespaceItem)
    : wio LinuxNode :=
  _ ←? done_with (validate_namespace_create request item);
  node ←? done_with (node_from_item_and_record policy (namespace_item item) (namespace_inode_record item));
  _ ←? locked (accept_directory_section request item);
  done_with (Ok node).

Definition LinuxWritableEngine_create_directory (parent : LinuxInode) (name : string) (mode umask : Z)
    : wio LinuxNode :=
  _ ←? require_namespace;
  parent_node ←? LinuxWritableEngine_getattr parent None;
  if decide (node_kind parent_node ≠ NodeDirectory) then done_with (Err NotDirectory)
  else
    request ←? done_with (LinuxCreateDirectoryRequest_new (node_key parent_node) name mode umask session_generation);
    item ←? call_port LinuxNamespaceStore (CreateDirectory request) (λ x, x);
    accept_namespace_create request item.

(** Takes the key of a replaced item out of the local families. *)
Definition take_replaced (key : CloudItemKey) (s : WritableState) : option LinuxInode * WritableState :=
  match by_key (ws_namespace s) !! key with
  | Some inode => (Some inode, map_namespace (EntryIndex_remove_key key) s)
  | None =>
      match by_key (ws_created s) !! key with
      | Some inode => (Some inode, map_created (EntryIndex_remove_key key) s)
      | None => (record_inode <$> LinuxInodeTable_by_key table key, s)
      end
  end.

Definition apply_replaced (replaced : LinuxNamespaceTombstone) (s : WritableState) : WritableState :=
  let name := (item_key_item_id (tombstone_parent_key replaced), tombstone_name replaced) in
  let '(replaced_inode, s) := take_replaced (tombstone_key replaced) s in
  let s :=
    match replaced_inode with
    | Some inode =>
        map_created (EntryIndex_remove_name name) (map_namespace (EntryIndex_remove_inode inode) s)
    | None => s
    end in
  map_tombstones (ParentNameIndex_insert name replaced)
    (map_deleted_keys (λ keys, {[tombstone_key replaced]} ∪ keys) s).

Definition accept_rename_section (request : LinuxRenameRequest) (item : LinuxNamespaceItem)
    (source : LinuxNamespaceTombstone) (replaced : option LinuxNamespaceTombstone) (s : WritableState)
    : linux_result unit * WritableState :=
  let new_name := (item_key_item_id (rename_new_parent_key request), rename_new_name request) in
  let old_name := (item_key_item_id (rename_old_parent_key request), rename_old_name request) in
  let inode := record_inode (namespace_inode_record item) in
  match ensure_namespace_item_is_unique s item new_name (Some (rename_key request)) with
  | Err e => (Err e, s)
  | Ok _ =>
      let s := map_tombstones (ParentNameIndex_insert old_name source)
                 (map_created (EntryIndex_remove_name old_name)
                    (map_namespace (EntryIndex_remove_name old_name) s)) in
      let s := match replaced with Some replaced => apply_replaced replaced s | None => s end in
      let s := map_namespace (EntryIndex_insert (rename_key request) new_name inode item)
                 (map_remote_tombstones (ParentNameIndex_remove new_name)
                    (map_tombstones (ParentNameIndex_remove new_name)
                       (map_deleted_keys (λ keys, keys ∖ {[rename_key request]}) s))) in
      (Ok tt,
       if decide (is_Some (by_key (ws_created s) !! rename_key request))
       then map_created (EntryIndex_insert_name new_name inode) s else s)
  end.

Definition accept_rename (request : LinuxRenameRequest) (acceptance : LinuxRenameAcceptance) : wio unit :=
  let item := renamed_item acceptance in
  let source := renamed_source acceptance in
  let replaced := renamed_replaced acceptance in
  _ ←? done_with (validate_rename_acceptance request item source replaced);
  locked (accept_rename_section request item source replaced).

(** A lookup whose [NotFound] is an answer. *)
Definition found_or_none (lookup : wio LinuxNode) : wio (option LinuxNode) :=
  prog_bind (λ r, Return
    match r with
    | Ok node => Ok (Some node)
    | Err error => if decide (LinuxCloudFilesError_error_code error = ErrnoNotFound) then Ok None else Err error
    end) lookup.

Definition LinuxWritableEngine_rename (parent : LinuxInode) (name : string) (new_parent : LinuxInode)
    (new_name : string) (no_replace : bool) : wio unit :=
  _ ←? done_with (validate_linux_name name);
  _ ←? done_with (validate_linux_name new_name);
  if decide (parent = new_parent ∧ name = new_name) then done_with (Ok tt)
  else
    _ ←? require_namespace;
    old_parent ←? LinuxWritableEngine_getattr parent None;
    new_parent ←? LinuxWritableEngine_getattr new_parent None;
    if decide (node_kind old_parent ≠ NodeDirectory ∨ node_kind new_parent ≠ NodeDirectory)
    then done_with (Err NotDirectory)
    else
      source ←? LinuxWritableEngine_lookup parent name;
      destination ←? found_or_none (LinuxWritableEngine_lookup (node_inode new_parent) new_name);
      request ←? done_with (LinuxRenameRequest_new (node_key source) (node_generation source) (node_kind source)
        (node_key old_parent) name (node_key new_parent) new_name
        ((λ node, LinuxRenameDestination_new (node_key node) (node_generation node) (node_kind node)) <$> destination)
        no_replace session_generation);
      acceptance ←? call_port LinuxNamespaceStore (Rename request) (λ x, x);
      accept_rename request acceptance.

Definition accept_remove_section (request : LinuxRemoveRequest) (tombstone : LinuxNamespaceTombstone)
    (s : WritableState) : linux_result unit * WritableState :=
  let name := (item_key_item_id (remove_parent_key request), remove_name request) in
  let s :=
    match by_key (ws_namespace s) !! remove_key request with
    | Some inode =>
        map_namespace (EntryIndex_remove_inode inode) (map_namespace (EntryIndex_remove_key (remove_key request)) s)
    | None =>
        match by_key (ws_created s) !! remove_key request with
        | Some inode => map_namespace (EntryIndex_remove_inode inode) s
        | None => s
        end
    end in
  (Ok tt,
   map_tombstones (ParentNameIndex_insert name tombstone)
     (map_deleted_keys (λ keys, {[remove_key request]} ∪ keys)
        (map_created (EntryIndex_remove_name name) (map_namespace (EntryIndex_remove_name name) s)))).

Definition accept_remove (request : LinuxRemoveRequest) (tombstone : LinuxNamespaceTombstone) : wio unit :=
  _ ←? done_with (validate_remove_acceptance request tombstone);
  locked (accept_remove_section request tombstone).

Definition LinuxWritableEngine_remove (parent : LinuxInode) (name : string) (expected_kind : LinuxNodeKind)
    : wio unit :=
  _ ←? require_namespace;
  parent_node ←? LinuxWritableEngine_getattr parent None;
  if decide (node_kind parent_node ≠ NodeDirectory) then done_with (Err NotDirectory)
  else
    child ←? LinuxWritableEngine_lookup parent name;
    if decide (node_kind child ≠ expected_kind) then
      done_with (Err match expected_kind with NodeFile => NotFile | NodeDirectory => NotDirectory end)
    else
      request ←? done_with (LinuxRemoveRequest_new (node_key child) (node_generation child) (node_key parent_node)
        name expected_kind session_generation);
      tombstone ←? call_port LinuxNamespaceStore (Remove request) (λ x, x);
      accept_remove request tombstone.

(** *** Remote changes *)
Definition validate_remote_entry (s : WritableState) (entry : LinuxRemoteEntry) : linux_result unit :=
  let item := remote_item entry in
  let record := remote_inode_record entry in
  (if decide (item_key item ≠ record_key record ∨ item_key_scope (item_key item) ≠ table_scope table ∨
              CloudItem_is_root item = true ∨ record_inode record = LINUX_ROOT_INODE)
   then invalid "remote overlay entry violated scope, identity, or root boundaries" else Ok tt);;
  node_from_item_and_record policy item record;;
  (if match key_for_inode_in_state s (record_inode record) with
      | Some existing_key => bool_decide (existing_key ≠ item_key item) | None => false end
   then invalid "remote overlay reused an inode assigned to another stable item" else Ok tt);;
  (if match record_for_key_in_state s (item_key item) with
      | Some existing => bool_decide (existing ≠ record) | None => false end
   then invalid "remote overlay changed a stable item inode or generation" else Ok tt).

Definition validate_remote_delete (s : WritableState) (deleted : LinuxRemoteDelete) : linux_result unit :=
  if decide (rdelete_key deleted ≠ record_key (rdelete_inode_record deleted) ∨
             item_key_scope (rdelete_key deleted) ≠ table_scope table ∨
             item_key_scope (rdelete_parent_key deleted) ≠ table_scope table ∨
             record_for_key_in_state s (rdelete_key deleted) ≠ Some (rdelete_inode_record deleted))
  then invalid "remote deletion substituted scope, stable identity, or inode generation" else Ok tt.

(** The destination's current entry against the one the product says it
    replaces. *)
Definition validate_replacement (key parent_key : CloudItemKey) (name : string) (target : option LinuxNode)
    (replaced : option LinuxRemoteDelete) : linux_result unit :=
  match target, replaced with
  | Some existing, None =>
      if decide (node_key existing ≠ key)
      then invalid "remote upsert omitted the item replaced at its destination" else Ok tt
  | None, None => Ok tt
  | Some existing, Some replaced =>
      if decide (node_key existing = rdelete_key replaced ∧
                 node_inode existing = record_inode (rdelete_inode_record replaced) ∧
                 node_generation existing = record_generation (rdelete_inode_record replaced) ∧
                 node_kind existing = rdelete_kind replaced ∧ rdelete_parent_key replaced = parent_key ∧
                 rdelete_name replaced = name)
      then Ok tt else invalid "remote upsert replacement did not match its current destination"
  | None, Some _ => invalid "remote upsert replacement did not match its current destination"
  end.

(** The checks an upsert makes under the lock, after those of the entry. *)
Definition upsert_conflicts (key : CloudItemKey) (name : ParentNameKey) (previous : option LinuxRemoteLocation)
    (replaced : option LinuxRemoteDelete) (s : WritableState) : linux_result unit :=
  (if decide (is_Some (by_key (ws_namespace s) !! key) ∨ is_Some (by_key (ws_created s) !! key) ∨
              key ∈ ws_deleted_keys s ∨ ParentNameIndex_contains_key (ws_tombstones_by_name s) name = true)
   then invalid "remote change collided with a pending local namespace mutation" else Ok tt);;
  (match replaced with
   | Some replaced =>
       validate_remote_delete s replaced;;
       if decide (rdelete_key replaced = key) then invalid "remote upsert replaced its own stable identity" else Ok tt
   | None => Ok tt
   end);;
  (if existsb (λ candidate, bool_decide (key_for_inode_in_state s candidate ≠ Some key))
        (omap id [ParentNameIndex_get (by_name (ws_namespace s)) name; ParentNameIndex_get (by_name (ws_created s)) name])
   then invalid "remote change destination collided with a local namespace mutation" else Ok tt);;
  (match ParentNameIndex_get (by_name (ws_remote s)) name with
   | Some existing =>
       if decide (key_for_inode_in_state s existing ≠ Some key ∧
                  rdelete_key <$> replaced ≠ key_for_inode_in_state s existing)
       then invalid "remote upsert did not identify the current destination replacement" else Ok tt
   | None => Ok tt
   end);;
  match EntryIndex_keyed (ws_remote s) key with
  | Some current =>
      current_parent ← ok_or (item_parent_id (remote_item current))
        (InvalidBackendResponse "current remote overlay item omitted its parent");
      let location := (current_parent, item_name (remote_item current)) in
      let expected := match previous with
        | Some previous => (item_key_item_id (location_parent_key previous), location_name previous)
        | None => name end in
      if decide (location ≠ expected) then
        invalid "remote upsert previous location was not the current location" else Ok tt
  | None => Ok tt
  end.

Definition upsert_invalidations (inode parent : LinuxInode) (name : string) (previous_parent : option LinuxInode)
    (previous : option LinuxRemoteLocation) (replaced : option LinuxRemoteDelete) (s : WritableState)
    : linux_result (list LinuxInvalidation) :=
  moved ←
    match previous_parent with
    | Some previous_parent =>
        location ← ok_or previous (InvalidBackendResponse "validated previous location disappeared");
        Ok [InvalidateEntry previous_parent (location_name location)]
    | None => Ok []
    end;
  deleted ←
    match replaced with
    | Some replaced =>
        replaced_parent ← ok_or (inode_for_key_in_state s (rdelete_parent_key replaced)) MissingInodeRecord;
        Ok [InvalidateDelete replaced_parent (record_inode (rdelete_inode_record replaced)) (rdelete_name replaced)]
    | None => Ok []
    end;
  Ok (moved ++ deleted ++ [InvalidateEntry parent name; InvalidateInode inode]).

Definition leave_previous (previous : option LinuxRemoteLocation) (s : WritableState) : WritableState :=
  match previous with
  | Some location =>
      let old_name := (item_key_item_id (location_parent_key location), location_name location) in
      map_remote_tombstones (ParentNameIndex_insert old_name tt) (map_remote (EntryIndex_remove_name old_name) s)
  | None => s
  end.

Definition drop_replaced (replaced : option LinuxRemoteDelete) (s : WritableState) : WritableState :=
  match replaced with
  | Some replaced =>
      let name := (item_key_item_id (rdelete_parent_key replaced), rdelete_name replaced) in
      let s :=
        match by_key (ws_remote s) !! rdelete_key replaced with
        | Some inode =>
            map_remote (EntryIndex_remove_inode inode) (map_remote (EntryIndex_remove_key (rdelete_key replaced)) s)
        | None => s
        end in
      map_remote_deleted (λ keys, {[rdelete_key replaced]} ∪ keys)
        (λ inodes, {[record_inode (rdelete_inode_record replaced)]} ∪ inodes)
        (map_remote_tombstones (ParentNameIndex_insert name tt) (map_remote (EntryIndex_remove_name name) s))
  | None => s
  end.

Definition upsert_section (entry : LinuxRemoteEntry) (parent_id : CloudItemId) (parent : LinuxInode)
    (previous : option LinuxRemoteLocation) (replaced : option LinuxRemoteDelete)
    (previous_parent : option LinuxInode) (s : WritableState) : linux_result (list LinuxInvalidation) * WritableState :=
  let key := item_key (remote_item entry) in
  let inode := record_inode (remote_inode_record entry) in
  let name := (parent_id, item_name (remote_item entry)) in
  match (validate_remote_entry s entry;;
         upsert_conflicts key name previous replaced s;;
         upsert_invalidations inode parent (item_name (remote_item entry)) previous_parent previous replaced s) with
  | Err e => (Err e, s)
  | Ok invalidations =>
      (Ok invalidations,
       map_remote (EntryIndex_insert key name inode entry)
         (map_remote_deleted (λ keys, keys ∖ {[key]}) (λ inodes, inodes ∖ {[inode]})
            (map_remote_tombstones (ParentNameIndex_remove name)
               (drop_replaced replaced (leave_previous previous s)))))
  end.

Definition apply_remote_upsert (entry : LinuxRemoteEntry) (previous : option LinuxRemoteLocation)
    (replaced : option LinuxRemoteDelete) : wio (list LinuxInvalidation) :=
  let key := item_key (remote_item entry) in
  let inode := record_inode (remote_inode_record entry) in
  parent_id ←? done_with (ok_or (item_parent_id (remote_item entry))
    (InvalidBackendResponse "remote overlay item omitted its parent"));
  let parent_key := CloudItemKey_new (item_key_scope key) parent_id in
  parent ←? inode_for_key parent_key;
  parent ←? done_with (ok_or parent MissingInodeRecord);
  target ←? found_or_none (LinuxWritableEngine_lookup parent (item_name (remote_item entry)));
  _ ←? done_with (validate_replacement key parent_key (item_name (remote_item entry)) target replaced);
  previous_parent ←?
    match previous with
    | Some location =>
        if decide (item_key_scope (location_parent_key location) ≠ item_key_scope key) then
          done_with (invalid "remote upsert previous location escaped the active scope")
        else
          previous_parent ←? inode_for_key (location_parent_key location);
          previous_parent ←? done_with (ok_or previous_parent MissingInodeRecord);
          node ←? found_or_none (LinuxWritableEngine_lookup previous_parent (location_name location));
          node ←? done_with (ok_or node (InvalidBackendResponse "remote upsert previous location did not exist"));
          if decide (node_key node ≠ key ∨ node_inode node ≠ inode) then
            done_with (invalid "remote upsert previous location named another stable item")
          else done_with (Ok (Some previous_parent))
    | None => done_with (Ok None)
    end;
  locked (upsert_section entry parent_id parent previous replaced previous_parent).

Definition delete_section (deleted : LinuxRemoteDelete) (parent : LinuxInode) (s : WritableState)
    : linux_result (list LinuxInvalidation) * WritableState :=
  let inode := record_inode (rdelete_inode_record deleted) in
  let name := (item_key_item_id (rdelete_parent_key deleted), rdelete_name deleted) in
  match (validate_remote_delete s deleted;;
         (if decide (is_Some (by_key (ws_namespace s) !! rdelete_key deleted) ∨
                     is_Some (by_key (ws_created s) !! rdelete_key deleted) ∨
                     rdelete_key deleted ∈ ws_deleted_keys s ∨
                     ParentNameIndex_contains_key (ws_tombstones_by_name s) name = true)
          then invalid "remote deletion collided with a pending local namespace mutation" else Ok tt);;
         match ParentNameIndex_get (by_name (ws_remote s)) name with
         | Some current => if decide (current ≠ inode)
             then invalid "remote deletion location changed before commit" else Ok tt
         | None => Ok tt
         end) with
  | Err e => (Err e, s)
  | Ok _ =>
      (Ok [InvalidateDelete parent inode (rdelete_name deleted)],
       map_remote_deleted (λ keys, {[rdelete_key deleted]} ∪ keys) (λ inodes, {[inode]} ∪ inodes)
         (map_remote_tombstones (ParentNameIndex_insert name tt)
            (map_remote (EntryIndex_remove_name name)
               (map_remote (EntryIndex_remove_inode inode)
                  (map_remote (EntryIndex_remove_key (rdelete_key deleted)) s)))))
  end.

Definition apply_remote_delete (deleted : LinuxRemoteDelete) : wio (list LinuxInvalidation) :=
  parent ←? inode_for_key (rdelete_parent_key deleted);
  parent ←? done_with (ok_or parent MissingInodeRecord);
  current ←? found_or_none (LinuxWritableEngine_lookup parent (rdelete_name deleted));
  current ←? done_with (ok_or current (InvalidBackendResponse "remote deletion location did not exist"));
  if decide (node_key current ≠ rdelete_key deleted ∨
             node_inode current ≠ record_inode (rdelete_inode_record deleted) ∨
             node_generation current ≠ record_generation (rdelete_inode_record deleted) ∨
             node_kind current ≠ rdelete_kind deleted)
  then done_with (invalid "remote deletion did not match the current namespace entry")
  else locked (delete_section deleted parent).

Definition LinuxWritableEngine_apply_remote_change (change : LinuxRemoteChange) : wio (list LinuxInvalidation) :=
  match change with
  | RemoteUpsert upsert => apply_remote_upsert (upsert_entry upsert) (upsert_previous upsert) (upsert_replaced upsert)
  | RemoteDelete deleted => apply_remote_delete deleted
  end.

(** *** Activation *)
Fixpoint restore_remote_overlay (entries : list LinuxRemoteEntry) : wio unit :=
  match entries with
  | [] => done_with (Ok tt)
  | entry :: entries =>
      _ ←? LinuxWritableEngine_apply_remote_change (RemoteUpsert (LinuxRemoteUpsert_new entry None None));
      restore_remote_overlay entries
  end.

Definition restore_created_section (created : LinuxCreatedFile) (parent_id : CloudItemId) (s : WritableState)
    : linux_result unit * WritableState :=
  let key := item_key (created_item created) in
  let inode := record_inode (created_inode_record created) in
  let name :=
    match EntryIndex_keyed (ws_namespace s) key with
    | Some item =>
        match item_parent_id (namespace_item item) with
        | Some current_parent => (current_parent, item_name (namespace_item item))
        | None => (parent_id, item_name (created_item created))
        end
    | None => (parent_id, item_name (created_item created))
    end in
  match ensure_created_file_is_unique s created name with
  | Err e => (Err e, s)
  | Ok _ => (Ok tt, map_created (EntryIndex_insert key name inode created) s)
  end.

Fixpoint restore_created_files (files : list LinuxCreatedFile) : wio unit :=
  match files with
  | [] => done_with (Ok tt)
  | created :: files =>
      _ ←? done_with (validate_created_file created None);
      parent_id ←? done_with (ok_or (item_parent_id (created_item created))
        (InvalidBackendResponse "recovered create omitted its parent identity"));
      parent_inode ←? inode_for_key (CloudItemKey_new (item_key_scope (item_key (created_item created))) parent_id);
      parent_inode ←? done_with (ok_or parent_inode
        (InvalidBackendResponse "recovered create parent omitted a restored inode record"));
      parent ←? LinuxWritableEngine_getattr parent_inode None;
      if decide (node_kind parent ≠ NodeDirectory) then
        done_with (invalid "recovered create parent was not a directory")
      else
        _ ←? locked (restore_created_section created parent_id);
        restore_created_files files
  end.

Definition restore_item_section (item : LinuxNamespaceItem) (s : WritableState) : linux_result unit * WritableState :=
  match (validate_namespace_item item;;
         parent_id ← ok_or (item_parent_id (namespace_item item))
           (InvalidBackendResponse "restored namespace item omitted its parent identity");
         let name := (parent_id, item_name (namespace_item item)) in
         ensure_namespace_item_is_unique s item name None;;
         Ok name) with
  | Err e => (Err e, s)
  | Ok name =>
      (Ok tt, map_namespace (EntryIndex_insert (item_key (namespace_item item)) name
                (record_inode (namespace_inode_record item)) item) s)
  end.

(** A tombstone whose item is gone also hides its key. *)
Definition tombstone_deletes (s : WritableState) (tombstone : LinuxNamespaceTombstone) : bool :=
  let desired := mi_desired (tombstone_mutation_intent tombstone) in
  bool_decide (desired = DesiredDelete (tombstone_key tombstone)) ||
  bool_decide (by_key (ws_namespace s) !! tombstone_key tombstone = None) &&
  bool_decide (DesiredMutation_existing_item_key desired ≠ Some (tombstone_key tombstone)).

Definition restore_tombstone_section (tombstone : LinuxNamespaceTombstone) (s : WritableState)
    : linux_result unit * WritableState :=
  if decide (item_key_scope (tombstone_key tombstone) ≠ table_scope table ∨
             item_key_scope (tombstone_parent_key tombstone) ≠ table_scope table ∨
             session_generation_get session_generation <
               session_generation_get (mi_session_generation (tombstone_mutation_intent tombstone)))
  then (invalid "restored namespace tombstone escaped the active scope or generation", s)
  else
    let name := (item_key_item_id (tombstone_parent_key tombstone), tombstone_name tombstone) in
    let s := if tombstone_deletes s tombstone
             then map_deleted_keys (λ keys, {[tombstone_key tombstone]} ∪ keys) s else s in
    (if ParentNameIndex_contains_key (ws_tombstones_by_name s) name
     then invalid "restored namespace overlay contained duplicate tombstones" else Ok tt,
     map_tombstones (ParentNameIndex_insert name tombstone) s).

Fixpoint for_each {A} (section : A → WritableState → linux_result unit * WritableState) (l : list A) : wio unit :=
  match l with
  | [] => done_with (Ok tt)
  | x :: l => _ ←? locked (section x); for_each section l
  end.

Definition restore_namespace_overlay (overlay : LinuxNamespaceOverlay) : wio unit :=
  _ ←? for_each restore_item_section (overlay_items overlay);
  for_each restore_tombstone_section (overlay_tombstones overlay).

Definition dirty_inode (s : WritableState) (key : CloudItemKey) : option LinuxInode :=
  match LinuxInodeTable_by_key table key with
  | Some record => Some (record_inode record)
  | None =>
      match by_key (ws_created s) !! key with
      | Some inode => Some inode
      | None =>
          match by_key (ws_namespace s) !! key with
          | Some inode => Some inode
          | None => by_key (ws_remote s) !! key
          end
      end
  end.

(** The whole loop holds the lock; an error leaves what it has inserted. *)
Fixpoint restore_dirty_section (snapshots : list LocalContentSnapshot) (s : WritableState)
    : linux_result unit * WritableState :=
  match snapshots with
  | [] => (Ok tt, s)
  | snapshot :: snapshots =>
      if decide (item_key_scope (snapshot_item_key snapshot) ≠ table_scope table) then (Err ScopeMismatch, s)
      else
        match dirty_inode s (snapshot_item_key snapshot) with
        | None => (invalid "writeback recovery returned an item without a restored inode record", s)
        | Some inode =>
            if decide (inode = LINUX_ROOT_INODE) then
              (invalid "writeback recovery returned a dirty snapshot for the mount root", s)
            else
              let previous := ws_dirty_snapshots s !! inode in
              let s := map_dirty <[inode := snapshot]> s in
              if decide (is_Some previous ∧ previous ≠ Some snapshot) then
                (invalid "writeback recovery returned conflicting snapshots for one inode", s)
              else restore_dirty_section snapshots s
        end
  end.

Definition activate_inner (remote_entries : list LinuxRemoteEntry) : wio unit :=
  let scope := table_scope table in
  created ←? (if namespace_store
              then call_port LinuxNamespaceStore (ActivateNamespace scope session_generation) (λ x, x)
              else done_with (Ok []));
  snapshots ←? call_port LinuxWritebackStore (ActivateMount scope session_generation) (λ x, x);
  overlay ←? (if namespace_store
              then call_port LinuxNamespaceStore (ActivateNamespaceOverlay scope session_generation) (λ x, x)
              else done_with (Ok LinuxNamespaceOverlay_default));
  _ ←? restore_namespace_overlay overlay;
  _ ←? restore_remote_overlay remote_entries;
  _ ←? restore_created_files created;
  locked (restore_dirty_section snapshots).
End writable.
