(* ===== verification/LinuxOverlaySpec.v ===== *)
(** * What the mount shows of local namespace mutations

    [aster_forge_cloud_files/linux/src/writeback.rs]: the names of the
    overlay after the namespace store has accepted a creation, a rename or a
    removal, what the overlay of remote changes does to them, and what a lookup
    answers then. *)
From S2P Require Export LinuxWriteback.

(** ** The index by parent and name *)
Section index.
Context {V : Type}.
Implicit Types (i : ParentNameIndex V) (name : ParentNameKey).
#[local] Ltac index :=
  unfold ParentNameIndex_get, ParentNameIndex_insert, ParentNameIndex_remove, ParentNameIndex_children,
    ParentNameIndex in *; cbn.

Lemma index_get_insert name v i : ParentNameIndex_get (ParentNameIndex_insert name v i) name = Some v.
Proof.
  index. rewrite lookup_insert_eq. cbn. by rewrite lookup_insert_eq.
Qed.

Lemma index_get_insert_ne name name' v i :
  name ≠ name' → ParentNameIndex_get (ParentNameIndex_insert name v i) name' = ParentNameIndex_get i name'.
Proof.
  destruct name as [p n], name' as [p' n']. index. intros Hne.
  destruct (decide (p = p')) as [<-|]; [|by rewrite lookup_insert_ne].
  rewrite lookup_insert_eq. cbn. rewrite lookup_insert_ne by congruence. by destruct (i !! p).
Qed.

Lemma index_get_remove name i : ParentNameIndex_get (ParentNameIndex_remove name i) name = None.
Proof.
  index. destruct (i !! name.1) as [children|] eqn:Hi; [|by rewrite Hi].
  case_decide; [by rewrite lookup_delete_eq|]. rewrite lookup_insert_eq. cbn. by rewrite lookup_delete_eq.
Qed.

Lemma index_get_remove_ne name name' i :
  name ≠ name' → ParentNameIndex_get (ParentNameIndex_remove name i) name' = ParentNameIndex_get i name'.
Proof.
  destruct name as [p n], name' as [p' n']. index. intros Hne.
  destruct (i !! p) as [children|] eqn:Hi; [|done].
  destruct (decide (p = p')) as [<-|]; [|case_decide; by rewrite ?lookup_delete_ne, ?lookup_insert_ne].
  rewrite Hi. cbn. case_decide as He; [rewrite lookup_delete_eq|rewrite lookup_insert_eq]; cbn.
  - rewrite <- (lookup_delete_ne children n n') by congruence. by rewrite He, lookup_empty.
  - by rewrite lookup_delete_ne by congruence.
Qed.

(** The index is the map of its pairs: a child is listed under its parent
    exactly when its name leads to it. *)
Lemma index_children_get parent n v i :
  (n, v) ∈ ParentNameIndex_children i parent ↔ ParentNameIndex_get i (parent, n) = Some v.
Proof.
  index. rewrite elem_of_map_to_list.
  destruct (i !! parent); cbn; [done|]. by rewrite lookup_empty.
Qed.

Lemma index_children_distinct parent i : NoDup (ParentNameIndex_children i parent).*1.
Proof. apply NoDup_fst_map_to_list. Qed.
End index.


#[local] Arguments ParentNameIndex_get : simpl never.
#[local] Arguments ParentNameIndex_insert : simpl never.
#[local] Arguments ParentNameIndex_remove : simpl never.

(** ** What a name shows *)
Definition visible (s : WritableState) (name : ParentNameKey) : option (CloudItem * LinuxInodeRecord) :=
  first_entry (entries_of_name s name).

(** What the overlay of remote changes has under the name. *)
Definition remotely (s : WritableState) (name : ParentNameKey) : option (CloudItem * LinuxInodeRecord) :=
  (λ e, (remote_item e, remote_inode_record e)) <$> EntryIndex_named (ws_remote s) name.

(** Names that are not touched lead where they led. *)
Definition names_kept (touched : list ParentNameKey) (s s' : WritableState) : Prop := ∀ name, name ∉ touched →
  ParentNameIndex_get (by_name (ws_namespace s')) name = ParentNameIndex_get (by_name (ws_namespace s)) name ∧
  ParentNameIndex_get (by_name (ws_created s')) name = ParentNameIndex_get (by_name (ws_created s)) name ∧
  ParentNameIndex_get (by_name (ws_remote s')) name = ParentNameIndex_get (by_name (ws_remote s)) name ∧
  name_tombstoned s' name = name_tombstoned s name.

Definition file_name_key (request : LinuxCreateFileRequest) : ParentNameKey :=
  (item_key_item_id (cfile_parent_key request), cfile_name request).
Definition directory_name_key (request : LinuxCreateDirectoryRequest) : ParentNameKey :=
  (item_key_item_id (cdir_parent_key request), cdir_name request).
Definition old_name_key (request : LinuxRenameRequest) : ParentNameKey :=
  (item_key_item_id (rename_old_parent_key request), rename_old_name request).
Definition new_name_key (request : LinuxRenameRequest) : ParentNameKey :=
  (item_key_item_id (rename_new_parent_key request), rename_new_name request).
Definition removed_name_key (request : LinuxRemoveRequest) : ParentNameKey :=
  (item_key_item_id (remove_parent_key request), remove_name request).
Definition tombstone_name_key (t : LinuxNamespaceTombstone) : ParentNameKey :=
  (item_key_item_id (tombstone_parent_key t), tombstone_name t).

Lemma tombstoned_iff s name : name_tombstoned s name = true ↔
  is_Some (ParentNameIndex_get (ws_tombstones_by_name s) name) ∨
  is_Some (ParentNameIndex_get (ws_remote_tombstones_by_name s) name).
Proof.
  unfold name_tombstoned, ParentNameIndex_contains_key. by rewrite orb_true_iff, !bool_decide_eq_true.
Qed.

Lemma not_tombstoned s name :
  ParentNameIndex_get (ws_tombstones_by_name s) name = None →
  ParentNameIndex_get (ws_remote_tombstones_by_name s) name = None → name_tombstoned s name = false.
Proof. unfold name_tombstoned, ParentNameIndex_contains_key. by intros -> ->. Qed.

Lemma tombstoned_same s s' name :
  ParentNameIndex_get (ws_tombstones_by_name s') name = ParentNameIndex_get (ws_tombstones_by_name s) name →
  ParentNameIndex_get (ws_remote_tombstones_by_name s') name = ParentNameIndex_get (ws_remote_tombstones_by_name s) name →
  name_tombstoned s' name = name_tombstoned s name.
Proof. unfold name_tombstoned, ParentNameIndex_contains_key. by intros -> ->. Qed.

Lemma index_remove_none {V} (i : ParentNameIndex V) name name' :
  ParentNameIndex_get i name' = None → ParentNameIndex_get (ParentNameIndex_remove name i) name' = None.
Proof.
  destruct (decide (name = name')) as [->|]; [by rewrite index_get_remove|by rewrite index_get_remove_ne].
Qed.

Lemma named_none {V} (i : EntryIndex V) name :
  ParentNameIndex_get (by_name i) name = None → EntryIndex_named i name = None.
Proof. unfold EntryIndex_named. by intros ->. Qed.

Lemma named_inserted {V} key name inode (v : V) i : EntryIndex_named (EntryIndex_insert key name inode v i) name = Some v.
Proof. unfold EntryIndex_named. cbn. rewrite index_get_insert. cbn. by rewrite lookup_insert_eq. Qed.

(** With no local entry, a name shows what the remote overlay has. *)
Lemma visible_remotely s s' name :
  ws_remote s' = ws_remote s → ParentNameIndex_get (by_name (ws_namespace s')) name = None →
  ParentNameIndex_get (by_name (ws_created s')) name = None → visible s' name = remotely s name.
Proof.
  intros Hr Hn Hc. unfold visible, entries_of_name, remotely. rewrite Hr, (named_none _ _ Hn), (named_none _ _ Hc). cbn.
  by destruct (EntryIndex_named _ _).
Qed.

Lemma visible_namespace s name item :
  EntryIndex_named (ws_namespace s) name = Some item →
  visible s name = Some (namespace_item item, namespace_inode_record item).
Proof. unfold visible, entries_of_name. by intros ->. Qed.

(** ** What a lookup answers *)
(** A program that runs without interruption, with the answers of the ports. *)
Fixpoint alone {A} (ports : ∀ c : port_call, port_answer c) (p : prog (linux_answer WritableState) A)
    (s : WritableState) : option (A * WritableState) :=
  match p with
  | Return a => Some (a, s)
  | Act e k =>
      match e return (linux_answer WritableState e → prog (linux_answer WritableState) A) → option (A * WritableState) with
      | Call c => λ k, alone ports (k (ports c)) s
      | @Critical _ X section => λ k, alone ports (k (section s).1) (section s).2
      | Diverge => λ _, None
      end k
  end.

Lemma alone_prog_bind {A B} ports (f : A → prog (linux_answer WritableState) B) p s :
  alone ports (prog_bind f p) s =
  match alone ports p s with Some (a, s) => alone ports (f a) s | None => None end.
Proof. revert s. induction p as [a|[c|X section|] k IH]; intros s; cbn; [done|apply IH..|done]. Qed.

Lemma alone_bind {A B} ports (p : io WritableState A) (q : A → io WritableState B) s :
  alone ports (io_bind p q) s =
  match alone ports p s with
  | Some (Ok a, s) => alone ports (q a) s
  | Some (Err e, s) => Some (Err e, s)
  | None => None
  end.
Proof. unfold io_bind. rewrite alone_prog_bind. by destruct (alone ports p s) as [[[a|e] s']|]. Qed.

Section lookups.
Context (table : LinuxInodeTable) (policy : LinuxAttributePolicy) (fuel : nat).

(** What a lookup of the name answers, for every backend: in any directory of
    the mount that is the parent of the name, which the lookup finds first. *)
Definition lookup_answers (s : WritableState) (name : ParentNameKey) (answer : LinuxInode → linux_result LinuxNode)
    : Prop :=
  ∀ ports parent node,
    alone ports (LinuxWritableEngine_getattr table policy parent None) s = Some (Ok node, s) →
    node_kind node = NodeDirectory → item_key_item_id (node_key node) = name.1 →
    validate_linux_name name.2 = Ok tt →
    alone ports (LinuxWritableEngine_lookup table policy fuel parent name.2) s = Some (answer parent, s).

(** The name leads to the item: its node is answered, with the size of its
    dirty snapshot if it has one. *)
Definition shows (s : WritableState) (name : ParentNameKey) (item : CloudItem) (record : LinuxInodeRecord) : Prop :=
  visible s name = Some (item, record) ∧
  lookup_answers s name (λ _,
    node ← node_from_item_and_record policy item record;
    Ok (with_overlay_size (dirty_size s (node_inode node)) node)).

(** The name leads nowhere, whatever the backend has there. *)
Definition hidden (s : WritableState) (name : ParentNameKey) : Prop :=
  visible s name = None ∧ name_tombstoned s name = true ∧
  lookup_answers s name (λ parent, Err (UnknownInode (inode_get parent))).

Lemma lookup_found s name answer :
  (∀ ports parent, alone ports
     (node ←? match visible s name with
              | Some (item, record) => done_with (node_from_item_and_record policy item record)
              | None =>
                  if name_tombstoned s name then done_with (Err (UnknownInode (inode_get parent)))
                  else LinuxReadOnlyEngine_lookup table policy fuel parent name.2
              end;
      size ←? observe (λ s, Ok (dirty_size s (node_inode node)));
      done_with (Ok (with_overlay_size size node))) s = Some (answer parent, s)) →
  lookup_answers s name answer.
Proof.
  intros H ports parent node Hparent Hkind Hname Hvalid.
  unfold LinuxWritableEngine_lookup. rewrite alone_bind. cbn [alone done_with]. rewrite Hvalid.
  rewrite alone_bind, Hparent, decide_False by auto. cbv zeta. rewrite Hname, alone_bind.
  cbn [alone observe locked fst snd]. specialize (H ports parent). by destruct name.
Qed.

Lemma visible_shows s name item record : visible s name = Some (item, record) → shows s name item record.
Proof.
  intros Hv. split; [done|]. apply lookup_found. intros ports parent. rewrite Hv, alone_bind. cbn [alone done_with].
  destruct (node_from_item_and_record policy item record) as [node|e]; cbn [mbind result_bind]; [|done].
  by rewrite alone_bind.
Qed.

Lemma tombstoned_hidden s name : visible s name = None → name_tombstoned s name = true → hidden s name.
Proof.
  intros Hv Ht. split; [done|]. split; [done|]. apply lookup_found. intros ports parent.
  by rewrite Hv, Ht, alone_bind.
Qed.
End lookups.

Section accepted.
Context (table : LinuxInodeTable).

#[local] Ltac kept_step := first
  [ rewrite index_get_insert_ne by congruence | rewrite index_get_remove_ne by congruence | done ].
(** The maps of another name. *)
#[local] Ltac kept_maps :=
  intros name' Hname; rewrite ?not_elem_of_cons in Hname; destruct_and?; split_and!;
  [..|apply tombstoned_same]; cbn; repeat kept_step.

(** What a name shows locally once a file has been created under it. *)
Definition created_or_local (s : WritableState) (name : ParentNameKey) (created : LinuxCreatedFile)
    : CloudItem * LinuxInodeRecord :=
  match EntryIndex_named (ws_namespace s) name with
  | Some item => (namespace_item item, namespace_inode_record item)
  | None => (created_item created, created_inode_record created)
  end.

Lemma accept_created_shows request created session h s s' :
  accept_created_section table request created session h s = (Ok tt, s') →
  visible s' (file_name_key request) = Some (created_or_local s (file_name_key request) created) ∧
  name_tombstoned s' (file_name_key request) = false ∧ names_kept [file_name_key request] s s'.
Proof.
  unfold accept_created_section. fold (file_name_key request).
  destruct (ensure_created_file_is_unique _ _ _ _); [|done]. case_decide; [done|]. intros [= <-].
  split_and!.
  - unfold visible, entries_of_name, created_or_local. cbn. rewrite named_inserted.
    by destruct (EntryIndex_named (ws_namespace s) _).
  - apply not_tombstoned; cbn; apply index_get_remove.
  - kept_maps.
Qed.

Lemma accept_directory_shows request item s s' :
  accept_directory_section table request item s = (Ok tt, s') →
  visible s' (directory_name_key request) = Some (namespace_item item, namespace_inode_record item) ∧
  name_tombstoned s' (directory_name_key request) = false ∧ names_kept [directory_name_key request] s s'.
Proof.
  unfold accept_directory_section. fold (directory_name_key request).
  destruct (ensure_namespace_item_is_unique _ _ _ _ _); [|done]. intros [= <-].
  split_and!.
  - apply visible_namespace. cbn. apply named_inserted.
  - apply not_tombstoned; cbn; apply index_get_remove.
  - kept_maps.
Qed.

Lemma accept_remove_shows request tombstone s :
  let s' := (accept_remove_section request tombstone s).2 in
  visible s' (removed_name_key request) = remotely s (removed_name_key request) ∧
  name_tombstoned s' (removed_name_key request) = true ∧
  remove_key request ∈ ws_deleted_keys s' ∧ names_kept [removed_name_key request] s s'.
Proof.
  intros s'.
  assert (∃ taken, by_name taken = by_name (ws_namespace s) ∧
    s' = map_tombstones (ParentNameIndex_insert (removed_name_key request) tombstone)
     (map_deleted_keys (λ keys, {[remove_key request]} ∪ keys)
        (map_created (EntryIndex_remove_name (removed_name_key request))
           (map_namespace (λ _, EntryIndex_remove_name (removed_name_key request) taken) s)))) as (taken & Ht & ->).
  { unfold s', accept_remove_section. repeat case_match; eexists; (split; [|reflexivity]); done. }
  split_and!.
  - apply visible_remotely; cbn; rewrite ?index_get_remove; done.
  - apply tombstoned_iff. left. cbn. rewrite index_get_insert. done.
  - cbn. set_solver.
  - kept_maps. by rewrite Ht.
Qed.

(** A replaced item loses its name, and its name gets its tombstone. *)
Lemma apply_replaced_shows replaced s :
  let s' := apply_replaced table replaced s in
  let name := tombstone_name_key replaced in
  by_name (ws_namespace s') = by_name (ws_namespace s) ∧ ws_remote s' = ws_remote s ∧
  ws_remote_tombstones_by_name s' = ws_remote_tombstones_by_name s ∧
  ws_tombstones_by_name s' = ParentNameIndex_insert name replaced (ws_tombstones_by_name s) ∧
  (by_name (ws_created s') = by_name (ws_created s) ∨
   by_name (ws_created s') = ParentNameIndex_remove name (by_name (ws_created s))).
Proof.
  unfold apply_replaced, take_replaced. fold (tombstone_name_key replaced).
  repeat case_match; simplify_eq; cbn; auto 10.
Qed.

(** The state of a rename before the new name is inserted. *)
Definition renamed_away (request : LinuxRenameRequest) (source : LinuxNamespaceTombstone)
    (replaced : option LinuxNamespaceTombstone) (s : WritableState) : WritableState :=
  let s := map_tombstones (ParentNameIndex_insert (old_name_key request) source)
             (map_created (EntryIndex_remove_name (old_name_key request))
                (map_namespace (EntryIndex_remove_name (old_name_key request)) s)) in
  match replaced with Some replaced => apply_replaced table replaced s | None => s end.

Abbreviation replaced_names replaced := (option_list (tombstone_name_key <$> replaced)).

Lemma renamed_away_shows request source replaced s :
  let s' := renamed_away request source replaced s in
  by_name (ws_namespace s') = ParentNameIndex_remove (old_name_key request) (by_name (ws_namespace s)) ∧
  ws_remote s' = ws_remote s ∧ ws_remote_tombstones_by_name s' = ws_remote_tombstones_by_name s ∧
  is_Some (ParentNameIndex_get (ws_tombstones_by_name s') (old_name_key request)) ∧
  ParentNameIndex_get (by_name (ws_created s')) (old_name_key request) = None ∧
  ∀ name, name ∉ old_name_key request :: replaced_names replaced →
    ParentNameIndex_get (by_name (ws_created s')) name = ParentNameIndex_get (by_name (ws_created s)) name ∧
    ParentNameIndex_get (ws_tombstones_by_name s') name = ParentNameIndex_get (ws_tombstones_by_name s) name.
Proof.
  unfold renamed_away. destruct replaced as [replaced|]; cbn.
  - match goal with |- context [apply_replaced table replaced ?t] =>
      destruct (apply_replaced_shows replaced t) as (Hn & Hr & Ht & Hs & Hc) end. cbn in *.
    rewrite Hn, Hr, Ht, Hs. split_and!; try done.
    + destruct (decide (tombstone_name_key replaced = old_name_key request)) as [->|];
        [by rewrite index_get_insert|by rewrite index_get_insert_ne, index_get_insert].
    + destruct Hc as [->| ->]; [|apply index_remove_none]; apply index_get_remove.
    + intros name Hname. rewrite !not_elem_of_cons in Hname. destruct_and?.
      rewrite !index_get_insert_ne by congruence. split; [|done].
      destruct Hc as [->| ->]; rewrite ?index_get_remove_ne by congruence; done.
  - rewrite index_get_insert, index_get_remove. split_and!; [done..|].
    intros name Hname. rewrite !not_elem_of_cons in Hname. destruct_and?.
    by rewrite index_get_insert_ne, index_get_remove_ne by congruence.
Qed.

(** A rename that is accepted: the new name shows the item, the old name is
    left to the remote overlay. *)
Lemma accept_rename_shows request item source replaced s s' :
  accept_rename_section table request item source replaced s = (Ok tt, s') →
  visible s' (new_name_key request) = Some (namespace_item item, namespace_inode_record item) ∧
  name_tombstoned s' (new_name_key request) = false ∧
  (old_name_key request ≠ new_name_key request →
     visible s' (old_name_key request) = remotely s (old_name_key request) ∧
     name_tombstoned s' (old_name_key request) = true) ∧
  names_kept (old_name_key request :: new_name_key request :: replaced_names replaced) s s'.
Proof.
  unfold accept_rename_section. fold (old_name_key request) (new_name_key request).
  destruct (ensure_namespace_item_is_unique _ _ _ _ _); [|done].
  fold (renamed_away request source replaced s).
  destruct (renamed_away_shows request source replaced s) as (Hn & Hr & Ht & Hs & Hc & Hkept).
  set (t := renamed_away request source replaced s) in *. clearbody t. intros [= <-]. split_and!.
  - apply visible_namespace. case_decide; cbn; apply named_inserted.
  - apply not_tombstoned; case_decide; cbn; apply index_get_remove.
  - intros Hne. split.
    + apply visible_remotely; case_decide; cbn; rewrite ?index_get_insert_ne by done; rewrite ?Hn; try done;
        apply index_get_remove.
    + apply tombstoned_iff. left. case_decide; cbn; by rewrite index_get_remove_ne.
  - intros name Hname. rewrite !not_elem_of_cons in Hname. destruct Hname as (Hold & Hnew & Hrep).
    destruct (Hkept name) as [Hc' Hs']; [by rewrite not_elem_of_cons|].
    split_and!; [..|apply tombstoned_same]; case_decide; cbn; repeat kept_step;
      rewrite ?index_get_insert_ne, ?index_get_remove_ne, ?Hn, ?Hr, ?Ht, ?index_get_remove_ne by congruence; done.
Qed.

(** Remote changes leave local names alone. *)
Definition location_name_key (l : LinuxRemoteLocation) : ParentNameKey :=
  (item_key_item_id (location_parent_key l), location_name l).
Definition deleted_name_key (d : LinuxRemoteDelete) : ParentNameKey :=
  (item_key_item_id (rdelete_parent_key d), rdelete_name d).

Definition local_kept (s s' : WritableState) : Prop :=
  ws_namespace s' = ws_namespace s ∧ ws_created s' = ws_created s ∧
  ws_tombstones_by_name s' = ws_tombstones_by_name s ∧ ws_deleted_keys s' = ws_deleted_keys s.

Lemma visible_remote s name :
  EntryIndex_named (ws_namespace s) name = None → EntryIndex_named (ws_created s) name = None →
  visible s name = remotely s name.
Proof.
  intros Hn Hc. unfold visible, entries_of_name, remotely. rewrite Hn, Hc. cbn. by destruct (EntryIndex_named _ _).
Qed.

Lemma conflicts_untombstoned key name previous replaced s :
  upsert_conflicts table key name previous replaced s = Ok tt →
  (key ∉ ws_deleted_keys s) ∧ ParentNameIndex_get (ws_tombstones_by_name s) name = None.
Proof.
  unfold upsert_conflicts. intros ([] & H & _)%result_bind_ok. case_decide as Hc; [done|].
  apply Decidable.not_or in Hc as [_ Hc]. apply Decidable.not_or in Hc as [_ Hc].
  apply Decidable.not_or in Hc as [Hd Ht]. split; [done|]. unfold ParentNameIndex_contains_key in Ht.
  destruct (ParentNameIndex_get _ _) eqn:Hg; [|done]. by rewrite bool_decide_true in Ht.
Qed.

(** Before the entry is inserted, names that are neither left nor replaced
    lead where they led. *)
Lemma left_and_dropped previous replaced s :
  let s' := drop_replaced replaced (leave_previous previous s) in
  local_kept s s' ∧
  ∀ name, name ∉ option_list (location_name_key <$> previous) ++ option_list (deleted_name_key <$> replaced) →
    ParentNameIndex_get (by_name (ws_remote s')) name = ParentNameIndex_get (by_name (ws_remote s)) name ∧
    ParentNameIndex_get (ws_remote_tombstones_by_name s') name =
      ParentNameIndex_get (ws_remote_tombstones_by_name s) name.
Proof.
  unfold drop_replaced, leave_previous.
  split; [destruct previous, replaced; repeat case_match; done|].
  intros name. rewrite not_elem_of_app. intros [Hp Hr].
  destruct previous as [l|], replaced as [d|]; cbn in Hp, Hr; rewrite ?not_elem_of_cons in *; destruct_and?;
    repeat case_match; cbn; unfold location_name_key, deleted_name_key in *;
    rewrite ?index_get_insert_ne, ?index_get_remove_ne by congruence; done.
Qed.

Lemma upsert_shows policy entry parent_id parent previous replaced previous_parent invalidations s s' :
  upsert_section table policy entry parent_id parent previous replaced previous_parent s = (Ok invalidations, s') →
  let name := (parent_id, item_name (remote_item entry)) in
  remotely s' name = Some (remote_item entry, remote_inode_record entry) ∧
  name_tombstoned s' name = false ∧ local_kept s s' ∧
  names_kept (name :: (option_list (location_name_key <$> previous) ++ option_list (deleted_name_key <$> replaced))) s s'.
Proof.
  intros H name. unfold upsert_section in H. cbv zeta in H. fold name in H.
  match goal with H : context [match ?m with Ok _ => _ | Err _ => _ end] |- _ => destruct m eqn:Hm in H end; [|done].
  injection H as <- <-. apply result_bind_ok in Hm as ([] & _ & ([] & Hc & _)%result_bind_ok).
  apply conflicts_untombstoned in Hc as [_ Ht].
  destruct (left_and_dropped previous replaced s) as [(Hn & Hcr & Hs & Hd) Hkept].
  set (t := drop_replaced replaced (leave_previous previous s)) in *. clearbody t. split_and!.
  - unfold remotely. cbn. by rewrite named_inserted.
  - apply not_tombstoned; cbn; [by rewrite Hs|apply index_get_remove].
  - done.
  - intros name'. rewrite not_elem_of_cons. intros [Hne Hname]. destruct (Hkept name' Hname) as [Hr Hrt].
    split_and!; [..|apply tombstoned_same]; cbn; repeat kept_step; rewrite ?Hn, ?Hcr, ?Hs,
      ?index_get_insert_ne, ?index_get_remove_ne by congruence; done.
Qed.

Lemma upsert_untombstoned policy entry parent_id parent previous replaced previous_parent invalidations s s' :
  upsert_section table policy entry parent_id parent previous replaced previous_parent s = (Ok invalidations, s') →
  item_key (remote_item entry) ∉ ws_deleted_keys s.
Proof.
  unfold upsert_section. cbv zeta.
  match goal with |- context [match ?m with Ok _ => _ | Err _ => _ end] => destruct m eqn:Hm end; [|done].
  intros _. apply result_bind_ok in Hm as ([] & _ & ([] & Hc & _)%result_bind_ok).
  by apply conflicts_untombstoned in Hc as [].
Qed.

Lemma delete_shows deleted parent invalidations s s' :
  delete_section table deleted parent s = (Ok invalidations, s') →
  remotely s' (deleted_name_key deleted) = None ∧ name_tombstoned s' (deleted_name_key deleted) = true ∧
  local_kept s s' ∧ (rdelete_key deleted ∉ ws_deleted_keys s) ∧ names_kept [deleted_name_key deleted] s s'.
Proof.
  unfold delete_section. fold (deleted_name_key deleted).
  match goal with |- context [match ?m with Ok _ => _ | Err _ => _ end] => destruct m eqn:Hm end; [|done].
  intros [= <- <-]. apply result_bind_ok in Hm as ([] & _ & ([] & Hc & _)%result_bind_ok).
  case_decide as Hd; [done|]. split_and!; try done.
  - unfold remotely. rewrite named_none; [done|]. cbn. apply index_get_remove.
  - apply tombstoned_iff. right. cbn. by rewrite index_get_insert.
  - tauto.
  - kept_maps.
Qed.

(** A name without a local entry shows what the remote overlay has. *)
Lemma visible_local_kept s s' name :
  local_kept s s' → EntryIndex_named (ws_namespace s) name = None → EntryIndex_named (ws_created s) name = None →
  visible s' name = remotely s' name.
Proof. intros (Hn & Hc & _) Hns Hcr. apply visible_remote; by rewrite ?Hn, ?Hc. Qed.

End accepted.

(** ** A removal of an item that the remote overlay names *)
Module OverlayDemo.
Definition demo_scope : CloudScope := CloudScope_new (mk_opaque "namespace") (mk_opaque "root").
Definition root_key : CloudItemKey := CloudItemKey_new demo_scope (mk_opaque "/").
Definition root : LinuxInodeRecord := LinuxInodeRecord_new root_key LINUX_ROOT_INODE (mk_LinuxInodeGeneration 1).
Definition table : LinuxInodeTable := mk_LinuxInodeTable demo_scope root ∅ ∅.
Definition mount : SessionGeneration := mk_SessionGeneration 1.

Definition removed_key : CloudItemKey := CloudItemKey_new demo_scope (mk_opaque "file").
Definition file_record : LinuxInodeRecord := LinuxInodeRecord_new removed_key (mk_LinuxInode 2) (mk_LinuxInodeGeneration 1).
Definition file : CloudItem :=
  mk_CloudItem removed_key (Some (mk_opaque "/")) "file" FileKind (mk_opaque [Byte.x01])
    (Some (CloudContentMetadata_new (mk_opaque [Byte.x01]) None 0)).
Definition entry : LinuxRemoteEntry := LinuxRemoteEntry_new file file_record.
Definition name : ParentNameKey := (mk_opaque "/", "file").

Definition removal : LinuxRemoveRequest :=
  mk_LinuxRemoveRequest removed_key (mk_LinuxInodeGeneration 1) root_key "file" NodeFile mount.
Definition removal_intent : MutationIntent :=
  mk_MutationIntent (mk_opaque "operation") (mk_opaque "key") PlatformCommand mount (DesiredDelete removed_key)
    (MutationPreconditions_new None None) None None None (MutationRetryMetadata_new 0 None).
Definition tombstone : LinuxNamespaceTombstone :=
  mk_LinuxNamespaceTombstone removed_key (mk_LinuxInodeGeneration 1) root_key "file" NodeFile removal_intent.
Definition remote_deletion : LinuxRemoteDelete := mk_LinuxRemoteDelete removed_key file_record root_key "file" NodeFile.

(** The product publishes the file, a client removes it. *)
Definition published : WritableState :=
  (upsert_section table LinuxAttributePolicy_default entry (mk_opaque "/") LINUX_ROOT_INODE None None None
     WritableState_default).2.
Definition removed : WritableState := (accept_remove_section removal tombstone published).2.

(** The removal is accepted, and the file stays visible; when the product
    then publishes the deletion, it is refused. *)
Example removed_still_visible :
  validate_remove_acceptance removal tombstone = Ok tt ∧ visible removed name = Some (file, file_record) ∧
  (delete_section table remote_deletion LINUX_ROOT_INODE removed).1 =
    Err (InvalidBackendResponse "remote deletion collided with a pending local namespace mutation").
Proof. by vm_compute. Qed.
End OverlayDemo.

(** A file of the backend that a client removes. *)
Module RemovalDemo.
Import OverlayDemo.
Definition known : LinuxInodeTable :=
  mk_LinuxInodeTable demo_scope root {[removed_key := file_record]} {[mk_LinuxInode 2 := file_record]}.
Definition root_item : CloudItem := mk_CloudItem root_key None "" DirectoryKind (mk_opaque [Byte.x01]) None.

Definition backend (c : port_call) : port_answer c :=
  match c with
  | GetItem _ => Ok root_item
  | ListChildren _ _ => Ok (CloudItemPage_new [file] None)
  | ReadContent _ => Err (CloudBackendError_new Internal)
  | ActivateMount _ _ | OpenRecovered _ _ | OpenExisting _ _ | StoreRead _ _ _ | StoreWrite _ _ _
  | StoreTruncate _ _ | StoreSync _ _ | StoreClose _ => Err (CloudFilesStoreError_new StoreNotFound "")
  | ActivateNamespace _ _ | CreateFile _ | OpenCreatedFile _ _ | ActivateNamespaceOverlay _ _
  | CreateDirectory _ | Rename _ | Remove _ => Err (LinuxNamespaceMutationStoreError_new NamespaceUnsupported "")
  end.

Definition unlinked : WritableState := (accept_remove_section removal tombstone WritableState_default).2.
Definition look_up (s : WritableState) : option (linux_result LinuxNode) :=
  fst <$> alone backend (LinuxWritableEngine_lookup known LinuxAttributePolicy_default 1 LINUX_ROOT_INODE "file") s.
Definition root_node : linux_result LinuxNode :=
  node_from_item_and_record LinuxAttributePolicy_default root_item root.

(** Before the removal the backend's file is found. *)
Example found_before :
  look_up WritableState_default = Some (node_from_item_and_record LinuxAttributePolicy_default file file_record).
Proof. by vm_compute. Qed.
End RemovalDemo.

