(* ===== verification/LinuxWritebackSpec.v ===== *)
(** * What the writable Linux engine guarantees

    The calls of the engine as one concurrent system; the rely-guarantee proof
    that handles are never shared, dirty generations never regress and
    acknowledged writes are never lost. *)
From S2P Require Export LinuxWriteback.

(** ** Calls *)
Inductive engine_call : Type :=
  | CallGetattr (inode : LinuxInode) (handle : option LinuxFileHandle)
  | CallLookup (parent : LinuxInode) (name : string)
  | CallOpenFile (inode : LinuxInode) (access : LinuxFileAccess)
  | CallCreateFile (parent : LinuxInode) (name : string) (mode umask : Z) (access : LinuxFileAccess)
  | CallCreateDirectory (parent : LinuxInode) (name : string) (mode umask : Z)
  | CallRename (parent : LinuxInode) (name : string) (new_parent : LinuxInode) (new_name : string) (no_replace : bool)
  | CallRemove (parent : LinuxInode) (name : string) (kind : LinuxNodeKind)
  | CallOpenDirectory (inode : LinuxInode)
  | CallDirectorySnapshot (inode : LinuxInode) (handle : LinuxDirectoryHandle)
  | CallReleaseDirectory (handle : LinuxDirectoryHandle)
  | CallReadFile (inode : LinuxInode) (handle : LinuxFileHandle) (offset size : Z)
  | CallWriteFile (inode : LinuxInode) (handle : LinuxFileHandle) (offset : Z) (bytes : list byte)
  | CallTruncateFile (inode : LinuxInode) (handle : LinuxFileHandle) (size : Z)
  | CallTruncateOnce (inode : LinuxInode) (size : Z)
  | CallSyncFile (inode : LinuxInode) (handle : LinuxFileHandle) (data_only : bool)
  | CallReleaseFile (handle : LinuxFileHandle)
  | CallRemoteChange (change : LinuxRemoteChange).

Inductive engine_reply : Type :=
  | ReplyNode (node : LinuxNode)
  | ReplyFile (handle : LinuxFileHandle)
  | ReplyCreated (node : LinuxNode) (handle : LinuxFileHandle)
  | ReplyDirectory (handle : LinuxDirectoryHandle)
  | ReplySnapshot (snapshot : LinuxDirectorySnapshot)
  | ReplyBytes (bytes : list byte)
  | ReplyCount (count : Z)
  | ReplyDone
  | ReplyInvalidations (l : list LinuxInvalidation).

Definition io_map {St A B} (f : A → B) (p : io St A) : io St B := x ←? p; done_with (Ok (f x)).

Section system.
Context (table : LinuxInodeTable) (policy : LinuxAttributePolicy) (session_generation : SessionGeneration).
Context (namespace_store : bool) (fuel : nat).

Abbreviation wio A := (io WritableState A).

Definition run_call (c : engine_call) : wio engine_reply :=
  match c with
  | CallGetattr inode handle => io_map ReplyNode (LinuxWritableEngine_getattr table policy inode handle)
  | CallLookup parent name => io_map ReplyNode (LinuxWritableEngine_lookup table policy fuel parent name)
  | CallOpenFile inode access =>
      io_map ReplyFile (LinuxWritableEngine_open_file table policy session_generation namespace_store inode access)
  | CallCreateFile parent name mode umask access =>
      io_map (λ x, ReplyCreated x.1 x.2)
        (LinuxWritableEngine_create_file table policy session_generation namespace_store parent name mode umask access)
  | CallCreateDirectory parent name mode umask =>
      io_map ReplyNode
        (LinuxWritableEngine_create_directory table policy session_generation namespace_store parent name mode umask)
  | CallRename parent name new_parent new_name no_replace =>
      io_map (λ _, ReplyDone) (LinuxWritableEngine_rename table policy session_generation namespace_store fuel
        parent name new_parent new_name no_replace)
  | CallRemove parent name kind =>
      io_map (λ _, ReplyDone)
        (LinuxWritableEngine_remove table policy session_generation namespace_store fuel parent name kind)
  | CallOpenDirectory inode => io_map ReplyDirectory (LinuxWritableEngine_open_directory table policy fuel inode)
  | CallDirectorySnapshot inode handle => io_map ReplySnapshot (LinuxWritableEngine_directory_snapshot inode handle)
  | CallReleaseDirectory handle => io_map (λ _, ReplyDone) (LinuxWritableEngine_release_directory handle)
  | CallReadFile inode handle offset size =>
      io_map ReplyBytes (LinuxWritableEngine_read_file inode handle offset size)
  | CallWriteFile inode handle offset bytes =>
      io_map ReplyCount (LinuxWritableEngine_write_file table inode handle offset bytes)
  | CallTruncateFile inode handle size =>
      io_map ReplyNode (LinuxWritableEngine_truncate_file table policy inode handle size)
  | CallTruncateOnce inode size =>
      io_map ReplyNode (LinuxWritableEngine_truncate_once table policy session_generation namespace_store inode size)
  | CallSyncFile inode handle data_only =>
      io_map (λ _, ReplyDone) (LinuxWritableEngine_sync_file table inode handle data_only)
  | CallReleaseFile handle => io_map (λ _, ReplyDone) (LinuxWritableEngine_release_file handle)
  | CallRemoteChange change =>
      io_map ReplyInvalidations (LinuxWritableEngine_apply_remote_change table policy fuel change)
  end.

(** ** The system

    Ghost state: the process each handle number was allocated by, the answers
    of the ports, and the states that sections have found.  The ports may
    answer anything. *)
Context {W : Type} (ports : W → ∀ c : port_call, port_answer c → W → Prop).

Record engine_world : Type := mk_engine_world {
  engine : WritableState;
  outside : W;
  issued : gmap Z nat;
  answers : list (sigT port_answer);
  history : list WritableState;
}.

Definition current_handle (s : WritableState) : Z := if decide (ws_next s = 0) then 1 else ws_next s.

Definition answered (c : port_call) (x : port_answer c) (o : W) (w : engine_world) : engine_world :=
  mk_engine_world (engine w) o (issued w) (answers w ++ [existT c x]) (history w).

Definition sectioned (i : nat) (s : WritableState) (w : engine_world) : engine_world :=
  mk_engine_world s (outside w)
    (if decide (ws_next s = ws_next (engine w)) then issued w
     else <[current_handle (engine w) := i]> (issued w)) (answers w) (history w ++ [engine w]).

Definition engine_handle (i : nat) (e : linux_event WritableState) (w : engine_world)
    : linux_answer WritableState e → engine_world → Prop :=
  match e with
  | Call c => λ x w', ∃ o, ports (outside w) c x o ∧
      w' = answered c x o w
  | @Critical _ X section => λ x w', let '(y, s) := section (engine w) in
      x = y ∧ w' = sectioned i s w
  | Diverge => λ _ _, False
  end.

(** Only the outside world changes by itself. *)
Inductive engine_environment : engine_world → engine_world → Prop :=
  | outside_changes o w : engine_environment w (mk_engine_world (engine w) o (issued w) (answers w) (history w)).

(** ** Invariant *)
Definition generation_of (s : LocalContentSnapshot) : Z := local_generation_get (snapshot_generation s).

Record engine_inv (w : engine_world) : Prop := {
  inv_next : 0 ≤ ws_next (engine w);
  inv_issued n i : issued w !! n = Some i → 1 ≤ n < ws_next (engine w);
  inv_file_issued h f : ws_files (engine w) !! h = Some f → is_Some (issued w !! file_handle_get h);
  inv_directory_issued h d : ws_directories (engine w) !! h = Some d →
    is_Some (issued w !! directory_handle_get h);
  inv_generation h f g : ws_files (engine w) !! h = Some f → open_generation f = Some g →
    ∃ d, ws_dirty_snapshots (engine w) !! open_inode f = Some d ∧ local_generation_get g ≤ generation_of d ∧
      (local_generation_get g = generation_of d → open_size f = snapshot_size d);
}.

(** The dirty snapshot of an inode is [s] or one of a later generation. *)
Definition covered (inode : LinuxInode) (s : LocalContentSnapshot) (w : engine_world) : Prop :=
  ∃ d, ws_dirty_snapshots (engine w) !! inode = Some d ∧ (d = s ∨ generation_of s < generation_of d).

Definition engine_grows (w w' : engine_world) : Prop :=
  (∀ inode d, ws_dirty_snapshots (engine w) !! inode = Some d → covered inode d w') ∧
  issued w ⊆ issued w' ∧
  (∀ a, a ∈ answers w → a ∈ answers w') ∧
  (∀ s, s ∈ history w → s ∈ history w').

(** What a process relies on: the engine grows, and nobody else files a handle
    it has allocated. *)
Definition engine_relies (i : nat) (w w' : engine_world) : Prop :=
  engine_grows w w' ∧
  (∀ h, issued w !! file_handle_get h = Some i → ws_files (engine w) !! h = None → ws_files (engine w') !! h = None).

Lemma covered_here inode d w : ws_dirty_snapshots (engine w) !! inode = Some d → covered inode d w.
Proof. intros. exists d. auto. Qed.

Lemma covered_trans inode s w w' : covered inode s w → engine_grows w w' → covered inode s w'.
Proof.
  intros (d & Hd & Hs) (Hg & _). destruct (Hg _ _ Hd) as (d' & Hd' & Hd''). exists d'. split; [done|].
  destruct Hs as [->|?], Hd'' as [->|?]; auto. right. lia.
Qed.

#[export] Instance engine_grows_preorder : PreOrder engine_grows.
Proof.
  split.
  - intros w. split_and!; [|done..]. intros inode d. by apply covered_here.
  - intros w1 w2 w3 (H1 & H2 & H3 & H4) Hw. split_and!.
    + intros inode d Hd. eapply covered_trans; eauto.
    + etrans; [done|apply Hw].
    + intros a Ha. by apply Hw, H3.
    + intros s Hs. by apply Hw, H4.
Qed.

#[export] Instance engine_relies_preorder i : PreOrder (engine_relies i).
Proof.
  split.
  - intros w. by split.
  - intros w1 w2 w3 [G1 H1] [G2 H2]. split; [by etrans|]. intros h Hi Hn.
    apply H2; [|by apply H1]. destruct G1 as (_ & Hsub & _). by eapply lookup_weaken.
Qed.

(** ** Steps *)
Abbreviation section X := (WritableState → X * WritableState).
Definition after {X} (i : nat) (f : section X) (w : engine_world) : engine_world :=
  sectioned i (f (engine w)).2 w.

Lemma elem_of_grown {A} (x : A) l y : x ∈ l → x ∈ l ++ [y].
Proof. rewrite elem_of_app. auto. Qed.
#[local] Hint Resolve elem_of_grown : forge.

(** The ghost lists only grow. *)
Lemma grows_answered c x o w : engine_grows w (answered c x o w).
Proof.
  split_and!; cbn; auto with forge. intros inode d Hd. by exists d; auto.
Qed.

Lemma grows_sectioned i s w :
  (∀ inode d, ws_dirty_snapshots (engine w) !! inode = Some d → covered inode d (sectioned i s w)) →
  issued w ⊆ issued (sectioned i s w) → engine_grows w (sectioned i s w).
Proof. intros Hd Hi. split_and!; [exact Hd|exact Hi|done|]. cbn. auto with forge. Qed.

(** The invariant speaks of the engine and of who allocated a handle. *)
Lemma inv_same w w' : engine_inv w → engine w' = engine w → issued w' = issued w → engine_inv w'.
Proof. intros [] He Hi. split; rewrite ?He, ?Hi; done. Qed.

(** A section process [i] may run in [w]. *)
Definition fair_section {X} (i : nat) (f : section X) (w : engine_world) : Prop :=
  engine_inv (after i f w) ∧ engine_grows w (after i f w) ∧
  ∀ h j, j ≠ i → issued w !! file_handle_get h = Some j → ws_files (engine w) !! h = None →
    ws_files (engine (after i f w)) !! h = None.

(** A section that leaves handles and dirty snapshots alone. *)
Definition quiet {X} (f : section X) : Prop := ∀ s,
  ws_next (f s).2 = ws_next s ∧ ws_files (f s).2 = ws_files s ∧ ws_directories (f s).2 = ws_directories s ∧
  ws_dirty_snapshots (f s).2 = ws_dirty_snapshots s.

Lemma quiet_fair {X} i (f : section X) w : quiet f → engine_inv w → fair_section i f w.
Proof.
  intros Hq HI. destruct (Hq (engine w)) as (Hn & Hf & Hd & Hs). unfold fair_section, after. split_and!.
  - destruct HI. split; cbn; rewrite ?decide_True by done; rewrite ?Hn, ?Hf, ?Hd, ?Hs; done.
  - apply grows_sectioned; [|cbn; by rewrite decide_True]. intros inode d Hi. exists d. cbn. rewrite Hs. auto.
  - intros. cbn. by rewrite Hf.
Qed.

(** ** Programs *)
#[local] Abbreviation esafe := (safe engine_handle engine_inv engine_relies (λ _ _ _, True)).

(** Facts that the other processes do not invalidate. *)
Definition lasting (i : nat) (K : engine_world → Prop) : Prop :=
  ∀ w w', K w → engine_relies i w w' → engine_inv w' → K w'.

(** The outcome of a call: [Φ] of its value; an error promises nothing. *)
Definition ok_post {A} (Φ : A → engine_world → Prop) (r : linux_result A) (w : engine_world) : Prop :=
  match r with Ok a => Φ a w | Err _ => True end.

Definition safe_io {A} (i : nat) (Φ : A → engine_world → Prop) (p : wio A) (w : engine_world) : Prop :=
  esafe i (ok_post Φ) p w.

Lemma safe_io_mono {A} i (Φ Ψ : A → engine_world → Prop) p w :
  (∀ a w, Φ a w → Ψ a w) → safe_io i Φ p w → safe_io i Ψ p w.
Proof. intros H. apply safe_mono. intros [a|e] w'; cbn; auto. Qed.

Lemma safe_io_bind {A B} i (Φ : B → engine_world → Prop) (p : wio A) (q : A → wio B) w :
  safe_io i (λ a w, safe_io i Φ (q a) w) p w → safe_io i Φ (io_bind p q) w.
Proof. intros H. apply safe_bind. eapply safe_mono; [|exact H]. by intros [a|e] w'. Qed.

Lemma safe_io_ok {A} i (Φ : A → engine_world → Prop) a w : Φ a w → safe_io i Φ (done_with (Ok a)) w.
Proof. done. Qed.

(** One's own steps keep what lasts. *)
Lemma lasting_section {X} i K (f : section X) w :
  lasting i K → K w → fair_section i f w →
  (∀ h, issued w !! file_handle_get h = Some i → ws_files (engine w) !! h = None →
     ws_files (engine (after i f w)) !! h = None) → K (after i f w).
Proof. intros HK Hw (HI & Hg & _) Hf. eapply HK; [done| |done]. by split. Qed.

Lemma safe_io_port {A E} i K (Φ : A → engine_world → Prop) g c (cast : port_answer c → result E A) w :
  lasting i K → K w →
  (∀ x a w', K w' → existT c x ∈ answers w' → cast x = Ok a → Φ a w') →
  safe_io i Φ (call_port g c cast) w.
Proof.
  intros HK Hw HΦ w1 HR HI. split; [done|]. intros x w2 (o & Ho & ->).
  pose proof (grows_answered c x o w1) as Hg. assert (engine_inv (answered c x o w1)) as HI2 by by eapply inv_same.
  split_and!; [done| |].
  - intros j _. by split.
  - cbn. destruct (cast x) as [a|e] eqn:Hc; cbn; [|done]. eapply HΦ; [|cbn; rewrite elem_of_app, list_elem_of_singleton; auto|done].
    eapply HK; [exact (HK _ _ Hw HR HI)| |done]. by split.
Qed.

Lemma safe_io_section {A} i K (Φ : A → engine_world → Prop) (f : section (linux_result A)) w :
  lasting i K → K w →
  (∀ w1, K w1 → engine_inv w1 → fair_section i f w1 ∧ ok_post Φ (f (engine w1)).1 (after i f w1)) →
  safe_io i Φ (locked f) w.
Proof.
  intros HK Hw HΦ w1 HR HI. split; [done|]. intros x w2 Hx. cbn in Hx.
  destruct (HΦ w1) as [(HI2 & Hg & Ho) Hr]; [eauto|done|]. unfold after in *.
  destruct (f (engine w1)) as [y s]. destruct Hx as [-> ->]. cbn in *.
  split_and!; [done| |done]. intros j Hj. split; [done|]. intros h. by apply Ho.
Qed.

Lemma quiet_files {X} i (f : section X) w h :
  quiet f → ws_files (engine w) !! h = None → ws_files (engine (after i f w)) !! h = None.
Proof. intros Hq Hn. unfold after. cbn. by destruct (Hq (engine w)) as (_ & -> & _). Qed.

Lemma safe_io_quiet_section {A} i K (Φ : A → engine_world → Prop) (f : section (linux_result A)) w :
  lasting i K → K w → quiet f →
  (∀ a w1, engine_inv w1 → K w1 → (f (engine w1)).1 = Ok a → K (after i f w1) → Φ a (after i f w1)) →
  safe_io i Φ (locked f) w.
Proof.
  intros HK Hw Hq HΦ. eapply safe_io_section; [done..|]. intros w1 Hw1 HI.
  pose proof (quiet_fair i f w1 Hq HI) as Hf. split; [done|].
  destruct (f (engine w1)).1 as [a|e] eqn:Hr; cbn; [|done]. eapply HΦ; try done.
  eapply lasting_section; [done..|]. intros h _. by apply quiet_files.
Qed.

(** A section that only reads tells what it found. *)
Lemma safe_io_observe {A} i K (Φ : A → engine_world → Prop) (f : WritableState → linux_result A) w :
  lasting i K → K w → (∀ a s w', K w' → s ∈ history w' → f s = Ok a → Φ a w') →
  safe_io i Φ (observe f) w.
Proof.
  intros HK Hw HΦ. eapply safe_io_quiet_section; [done..|by intros s|]. cbn. intros a w1 _ _ Ha Hk.
  eapply HΦ; [done| |done]. cbn. rewrite elem_of_app, list_elem_of_singleton. auto.
Qed.

(** Programs all of whose sections are quiet. *)
Fixpoint all_quiet {A} (p : prog (linux_answer WritableState) A) : Prop :=
  match p with
  | Return _ => True
  | Act e k => match e with @Critical _ X f => quiet f | _ => True end ∧ ∀ x, all_quiet (k x)
  end.

Lemma all_quiet_prog_bind {A B} (p : prog (linux_answer WritableState) A) (f : A → prog (linux_answer WritableState) B) :
  all_quiet p → (∀ a, all_quiet (f a)) → all_quiet (prog_bind f p).
Proof. intros Hp Hf. induction p as [a|e k IH]; cbn; [auto|]. destruct Hp as [He Hk]. split; auto. Qed.

Lemma all_quiet_bind {A B} (p : wio A) (q : A → wio B) :
  all_quiet p → (∀ a, all_quiet (q a)) → all_quiet (io_bind p q).
Proof. intros Hp Hq. apply all_quiet_prog_bind; [done|]. intros [a|e]; cbn; auto. Qed.

Lemma all_quiet_observe {A} (f : WritableState → linux_result A) : all_quiet (observe f).
Proof. split; [by intros s|done]. Qed.

Lemma all_quiet_port {A E} g c (cast : port_answer c → result E A) : all_quiet (call_port g c cast).
Proof. by split. Qed.

Lemma all_quiet_diverge {A} : all_quiet (diverge (A := A)).
Proof. split; [done|intros []]. Qed.

Lemma all_quiet_locked {A} (f : section (linux_result A)) : quiet f → all_quiet (locked f).
Proof. by split. Qed.

Lemma safe_io_quiet {A} i K (p : wio A) w : lasting i K → K w → all_quiet p → safe_io i (λ _, K) p w.
Proof.
  intros HK Hw Hp. unfold safe_io. revert w Hw. induction p as [r|e k IH]; intros w Hw; [by destruct r|].
  destruct Hp as [He Hk]. intros w1 HR HI. split; [done|]. intros x w2 Hx.
  assert (K w1) as Hw1 by eauto.
  destruct e as [c|X f|]; cbn in Hx; [| |done].
  - destruct Hx as (o & _ & ->).
    pose proof (grows_answered c x o w1) as Hg. assert (engine_inv (answered c x o w1)) as HI2 by by eapply inv_same.
    split_and!; [done|by intros j _; split|]. apply IH; [done|]. eapply HK; [done| |done]. by split.
  - pose proof (quiet_fair i f w1 He HI) as Hf. pose proof (λ h, quiet_files i f w1 h He) as Hq.
    assert (K (after i f w1)) as Hw2 by (eapply lasting_section; eauto).
    destruct Hf as (HI2 & Hg & Ho). unfold after in *.
    destruct (f (engine w1)) as [y s]. destruct Hx as [-> ->]. cbn in *.
    split_and!; [done| |by apply IH]. intros j Hj. split; [done|]. intros h. by apply Ho.
Qed.

(** What lasts for every process lasts whenever the engine grows. *)
Lemma lasting_grows K w w' : (∀ i, lasting i K) → K w → engine_grows w w' → engine_inv w' → K w'.
Proof.
  intros HK Hw Hg HI. set (j := fresh (map_img (issued w) :> gset nat)).
  eapply (HK j); [done| |done]. split; [done|]. intros h Hh. exfalso.
  apply (is_fresh (map_img (issued w) :> gset nat)). by eapply elem_of_map_img_2.
Qed.

(** It still holds after a program that promises something else. *)
Lemma safe_kept {A} i K (Φ : A → engine_world → Prop) (p : prog (linux_answer WritableState) A) w :
  (∀ i, lasting i K) → K w → esafe i Φ p w → esafe i (λ a w, K w ∧ Φ a w) p w.
Proof.
  intros HK. revert w. induction p as [a|e k IH]; intros w Hw Hp; [done|].
  intros w1 HR HI. destruct (Hp w1 HR HI) as [_ Hk]. split; [done|]. intros x w2 Hx.
  destruct (Hk x w2 Hx) as (HI2 & Hg & Hs). split_and!; [done|done|]. apply IH; [|done].
  destruct (Hg (S i) ltac:(lia)) as [Hgrows _]. eapply lasting_grows; [done| |done|done]. by eapply HK.
Qed.

(** ** Calls that touch neither handles nor dirty snapshots *)
#[local] Ltac quiet_step :=
  lazymatch goal with
  | |- all_quiet (done_with _) => exact Logic.I
  | |- all_quiet (Return _) => exact Logic.I
  | |- all_quiet (require_namespace _) => exact Logic.I
  | |- all_quiet (observe _) => apply all_quiet_observe
  | |- all_quiet (record_for_key _ _) => apply all_quiet_observe
  | |- all_quiet (inode_for_key _ _) => unfold inode_for_key
  | |- all_quiet (backend_get_item _) => apply all_quiet_port
  | |- all_quiet (backend_list_children _ _) => apply all_quiet_port
  | |- all_quiet (backend_read_content _) => apply all_quiet_port
  | |- all_quiet (call_port _ _ _) => apply all_quiet_port
  | |- all_quiet diverge => apply all_quiet_diverge
  | |- all_quiet (io_bind _ _) => apply all_quiet_bind; [|intros ?]
  | |- all_quiet (match ?x with _ => _ end) => destruct x
  end.
#[local] Ltac quiet := repeat quiet_step.
#[local] Ltac quiet_section := intros s; repeat case_match; cbn; done.

Lemma load_item_quiet inode : all_quiet (load_item_for_overlay table inode).
Proof. unfold load_item_for_overlay. quiet. Qed.
#[local] Hint Resolve load_item_quiet : forge.

Lemma load_pages_quiet n parent cursor seen names children :
  all_quiet (load_pages n parent cursor seen names children).
Proof.
  revert cursor seen names children. induction n as [|n IH]; intros; cbn [load_pages]; quiet. apply IH.
Qed.

Lemma load_children_quiet n parent : all_quiet (load_children table n parent).
Proof. unfold load_children, load_children_for_overlay. quiet; apply load_pages_quiet. Qed.

Lemma ro_getattr_quiet inode : all_quiet (LinuxReadOnlyEngine_getattr table policy inode).
Proof. unfold LinuxReadOnlyEngine_getattr. quiet; auto with forge. Qed.

Lemma ro_lookup_quiet n parent name : all_quiet (LinuxReadOnlyEngine_lookup table policy n parent name).
Proof. unfold LinuxReadOnlyEngine_lookup. quiet; auto using load_children_quiet with forge. Qed.

Lemma getattr_quiet inode handle : all_quiet (LinuxWritableEngine_getattr table policy inode handle).
Proof. unfold LinuxWritableEngine_getattr. quiet; auto using ro_getattr_quiet. Qed.

Lemma lookup_quiet parent name : all_quiet (LinuxWritableEngine_lookup table policy fuel parent name).
Proof. unfold LinuxWritableEngine_lookup. quiet; auto using getattr_quiet, ro_lookup_quiet. Qed.

Lemma hydrate_item_quiet item : all_quiet (hydrate_item_for_write (St := WritableState) item session_generation).
Proof. unfold hydrate_item_for_write. quiet. Qed.

Lemma hydrate_quiet inode : all_quiet (hydrate_for_write (St := WritableState) table inode session_generation).
Proof. unfold hydrate_for_write. quiet; auto using hydrate_item_quiet with forge. Qed.

Lemma found_or_none_quiet (p : wio LinuxNode) : all_quiet p → all_quiet (found_or_none p).
Proof. intros Hp. by apply all_quiet_prog_bind. Qed.

Lemma create_directory_quiet parent name mode umask :
  all_quiet (LinuxWritableEngine_create_directory table policy session_generation namespace_store parent name mode umask).
Proof.
  unfold LinuxWritableEngine_create_directory, accept_namespace_create.
  quiet; auto using getattr_quiet. apply all_quiet_locked. unfold accept_directory_section. quiet_section.
Qed.

Lemma accept_rename_section_quiet request item source replaced :
  quiet (accept_rename_section table request item source replaced).
Proof.
  intros s. unfold accept_rename_section. destruct (ensure_namespace_item_is_unique _ _ _ _ _); [|done].
  destruct replaced as [r|]; cbn [snd]; [unfold apply_replaced, take_replaced|]; repeat case_match; cbn; simplify_eq; done.
Qed.

Lemma rename_quiet parent name new_parent new_name no_replace :
  all_quiet (LinuxWritableEngine_rename table policy session_generation namespace_store fuel
    parent name new_parent new_name no_replace).
Proof.
  unfold LinuxWritableEngine_rename, accept_rename.
  quiet; auto using getattr_quiet, lookup_quiet, found_or_none_quiet.
  apply all_quiet_locked, accept_rename_section_quiet.
Qed.

Lemma remove_quiet parent name kind :
  all_quiet (LinuxWritableEngine_remove table policy session_generation namespace_store fuel parent name kind).
Proof.
  unfold LinuxWritableEngine_remove, accept_remove.
  quiet; auto using getattr_quiet, lookup_quiet. apply all_quiet_locked. unfold accept_remove_section. quiet_section.
Qed.

Lemma upsert_section_quiet entry parent_id parent previous replaced previous_parent :
  quiet (upsert_section table policy entry parent_id parent previous replaced previous_parent).
Proof.
  intros s. unfold upsert_section. match goal with |- context [match ?m with Ok _ => _ | Err _ => _ end] => destruct m end; [|done].
  unfold drop_replaced, leave_previous. destruct previous, replaced; repeat case_match; cbn; done.
Qed.

Lemma remote_change_quiet change : all_quiet (LinuxWritableEngine_apply_remote_change table policy fuel change).
Proof.
  destruct change as [upsert|deleted]; cbn [LinuxWritableEngine_apply_remote_change].
  - unfold apply_remote_upsert. quiet; auto using found_or_none_quiet, lookup_quiet.
    all: apply all_quiet_locked, upsert_section_quiet.
  - unfold apply_remote_delete. quiet; auto using found_or_none_quiet, lookup_quiet. apply all_quiet_locked.
    intros s. unfold delete_section.
    match goal with |- context [match ?m with Ok _ => _ | Err _ => _ end] => destruct m end; cbn; done.
Qed.

Lemma backend_entries_quiet hidden children : all_quiet (backend_entries table policy hidden children).
Proof. induction children as [|item children IH]; cbn [backend_entries]; quiet; exact IH. Qed.

(** ** Sections that allocate, file and commit *)
Lemma next_handle_ok next current next' :
  next_handle next = Ok (current, next') → 0 ≤ next →
  current = (if decide (next = 0) then 1 else next) ∧ next' = current + 1 ∧ 1 ≤ current.
Proof.
  unfold next_handle. intros Hn H0. destruct (checked_add _ _ _) as [n|] eqn:Hc; simplify_eq.
  apply checked_add_spec in Hc as [_ ->]. split_and!; [done|done|]. case_decide; lia.
Qed.

Lemma failed_fair {X} i (f : section X) w : engine_inv w → (f (engine w)).2 = engine w → fair_section i f w.
Proof.
  intros HI Hf. unfold fair_section, after. rewrite Hf. split_and!; [|apply grows_sectioned|done].
  - eapply inv_same; [done|done|]. cbn. by rewrite decide_True.
  - intros inode d Hd. by exists d; auto.
  - cbn. by rewrite decide_True.
Qed.

(** Only the counter, and what a new handle is filed with, change. *)
Lemma allocated_fair {X} i (f : section X) w current next :
  engine_inv w → next_handle (ws_next (engine w)) = Ok (current, next) →
  let s := (f (engine w)).2 in
  ws_next s = next → ws_dirty_snapshots s = ws_dirty_snapshots (engine w) →
  (∀ h o, ws_files s !! h = Some o → ws_files (engine w) !! h = Some o ∨
     file_handle_get h = current ∧ ∀ g, open_generation o = Some g →
       ∃ d, ws_dirty_snapshots (engine w) !! open_inode o = Some d ∧ local_generation_get g ≤ generation_of d ∧
         (local_generation_get g = generation_of d → open_size o = snapshot_size d)) →
  (∀ h d, ws_directories s !! h = Some d → ws_directories (engine w) !! h = Some d ∨ directory_handle_get h = current) →
  fair_section i f w ∧ issued (after i f w) !! current = Some i ∧ issued w !! current = None.
Proof.
  intros HI Hn s Hs Hdirty Hfiles Hdirs. pose proof (inv_next w HI) as H0.
  destruct (next_handle_ok _ _ _ Hn H0) as (Hc & -> & H1).
  assert (current_handle (engine w) = current) as Hcur by (unfold current_handle; congruence).
  assert (ws_next s ≠ ws_next (engine w)) as Hne by (rewrite Hs; case_decide; lia).
  assert (issued w !! current = None) as Hfresh.
  { destruct (issued w !! current) as [j|] eqn:Hj; [|done]. apply (inv_issued w HI) in Hj. case_decide; lia. }
  assert (issued (after i f w) = <[current := i]> (issued w)) as Hissued
    by (cbn; fold s; rewrite decide_False, Hcur; done).
  unfold fair_section. rewrite Hissued. split_and!; [| | |by rewrite lookup_insert_eq|done].
  - split; rewrite ?Hissued; cbn; fold s.
    + lia.
    + intros n j [[<- <-]|[_ Hj]]%lookup_insert_Some; [lia|]. apply (inv_issued w HI) in Hj. case_decide; lia.
    + intros h o Ho. destruct (Hfiles h o Ho) as [Hold|[-> _]]; [|by rewrite lookup_insert_eq].
      destruct (inv_file_issued w HI h o Hold) as [j Hj]. exists j. rewrite lookup_insert_ne; [done|congruence].
    + intros h d Hd. destruct (Hdirs h d Hd) as [Hold| ->]; [|by rewrite lookup_insert_eq].
      destruct (inv_directory_issued w HI h d Hold) as [j Hj]. exists j. rewrite lookup_insert_ne; [done|congruence].
    + intros h o g Ho Hg. rewrite Hdirty. destruct (Hfiles h o Ho) as [Hold|[_ Hnew]]; [|auto].
      by eapply (inv_generation w HI).
  - apply grows_sectioned; [|fold (after i f w); rewrite Hissued; by apply insert_subseteq].
    intros inode d Hd. exists d. cbn. fold s. rewrite Hdirty. auto.
  - intros h j Hj Hi Hnone. cbn. fold s. destruct (ws_files s !! h) as [o|] eqn:Ho; [|done].
    destruct (Hfiles h o Ho) as [Hold|[Hc' _]]; congruence.
Qed.

Lemma allocate_fair i w : engine_inv w →
  fair_section i WritableState_allocate w ∧
  ok_post (λ h w', issued w' !! file_handle_get h = Some i ∧ ws_files (engine w') !! h = None)
    (WritableState_allocate (engine w)).1 (after i WritableState_allocate w).
Proof.
  intros HI. destruct (next_handle (ws_next (engine w))) as [[current next]|e] eqn:Hn.
  - destruct (allocated_fair i WritableState_allocate w current next) as (Hf & Hi & Hfresh); try done;
      try (unfold WritableState_allocate; rewrite Hn; cbn; auto; done).
    split; [done|]. unfold WritableState_allocate at 1. rewrite Hn. cbn. unfold LinuxFileHandle_new.
    case_decide; cbn; [done|]. split; [done|]. unfold after, WritableState_allocate. rewrite Hn. cbn.
    destruct (ws_files (engine w) !! mk_LinuxFileHandle current) as [o|] eqn:Ho; [|done].
    destruct (inv_file_issued w HI _ _ Ho) as [j Hj]. cbn in Hj. congruence.
  - assert (WritableState_allocate (engine w) = (Err e, engine w)) as Heq
      by (unfold WritableState_allocate; by rewrite Hn).
    rewrite Heq. split; [|done]. apply failed_fair; [done|by rewrite Heq].
Qed.

(** A handle's generation and size are those of a snapshot the dirty state
    covers. *)
Definition opened_from (o : OpenFile) (w : engine_world) : Prop :=
  ∀ g, open_generation o = Some g → ∃ s, g = snapshot_generation s ∧ open_size o = snapshot_size s ∧
    covered (open_inode o) s w.

Lemma opened_from_lasting i o : lasting i (opened_from o).
Proof.
  intros w w' H [Hg _] _ g Ho. destruct (H g Ho) as (s & ? & ? & Hs). exists s. split_and!; [done..|].
  by eapply covered_trans.
Qed.

Lemma opened_from_generation o w g : opened_from o w → open_generation o = Some g →
  ∃ d, ws_dirty_snapshots (engine w) !! open_inode o = Some d ∧ local_generation_get g ≤ generation_of d ∧
    (local_generation_get g = generation_of d → open_size o = snapshot_size d).
Proof.
  intros H Hg. destruct (H g Hg) as (s & -> & Hs & d & Hd & Hc). exists d. split; [done|].
  unfold generation_of in *. destruct Hc as [->|Hc]; [split; [lia|done]|]. split; [lia|]. intros. lia.
Qed.

Lemma insert_opened_fair i o w : engine_inv w → opened_from o w →
  fair_section i (insert_opened o) w ∧
  ok_post (λ h w', issued w' !! file_handle_get h = Some i) (insert_opened o (engine w)).1 (after i (insert_opened o) w).
Proof.
  intros HI Ho. destruct (next_handle (ws_next (engine w))) as [[current next]|e] eqn:Hn.
  - destruct (next_handle_ok _ _ _ Hn (inv_next w HI)) as (_ & _ & H1).
    assert (insert_opened o (engine w) = (Ok (mk_LinuxFileHandle current),
      map_files <[mk_LinuxFileHandle current := o]> (set_next next (engine w)))) as Heq.
    { unfold insert_opened, WritableState_allocate. rewrite Hn. unfold LinuxFileHandle_new.
      by rewrite decide_False by lia. }
    destruct (allocated_fair i (insert_opened o) w current next) as (Hf & Hi & _); try done; rewrite ?Heq; cbn; auto.
    intros h o' [[<- <-]|[_ Hh]]%lookup_insert_Some; [|auto].
    right. split; [done|]. intros g. by apply opened_from_generation.
  - assert (insert_opened o (engine w) = (Err e, engine w)) as Heq
      by (unfold insert_opened, WritableState_allocate; by rewrite Hn).
    rewrite Heq. split; [|done]. apply failed_fair; [done|by rewrite Heq].
Qed.

Lemma insert_snapshot_fair i d w : engine_inv w →
  fair_section i (insert_snapshot d) w ∧
  ok_post (λ h w', issued w' !! directory_handle_get h = Some i)
    (insert_snapshot d (engine w)).1 (after i (insert_snapshot d) w).
Proof.
  intros HI. destruct (next_handle (ws_next (engine w))) as [[current next]|e] eqn:Hn.
  - destruct (next_handle_ok _ _ _ Hn (inv_next w HI)) as (_ & _ & H1).
    assert (insert_snapshot d (engine w) = (Ok (mk_LinuxDirectoryHandle current),
      map_directories <[mk_LinuxDirectoryHandle current := d]> (set_next next (engine w)))) as Heq.
    { unfold insert_snapshot, WritableState_allocate_directory. rewrite Hn. unfold LinuxDirectoryHandle_new.
      by rewrite decide_False by lia. }
    destruct (allocated_fair i (insert_snapshot d) w current next) as (Hf & Hi & _); try done; rewrite ?Heq; cbn; auto.
    intros h d' [[<- <-]|[_ Hh]]%lookup_insert_Some; auto.
  - assert (insert_snapshot d (engine w) = (Err e, engine w)) as Heq
      by (unfold insert_snapshot, WritableState_allocate_directory; by rewrite Hn).
    rewrite Heq. split; [|done]. apply failed_fair; [done|by rewrite Heq].
Qed.

(** A snapshot may replace the dirty one when it is the same or newer. *)
Definition advances (inode : LinuxInode) (s : LocalContentSnapshot) (w : engine_world) : Prop :=
  ∀ d, ws_dirty_snapshots (engine w) !! inode = Some d → d = s ∨ generation_of d < generation_of s.

Lemma dirty_fair {X} i (f : section X) inode s w :
  engine_inv w → advances inode s w →
  let s' := (f (engine w)).2 in
  ws_next s' = ws_next (engine w) → ws_directories s' = ws_directories (engine w) →
  ws_dirty_snapshots s' = <[inode := s]> (ws_dirty_snapshots (engine w)) →
  (∀ h o, ws_files s' !! h = Some o → ws_files (engine w) !! h = Some o ∨
     is_Some (ws_files (engine w) !! h) ∧ open_inode o = inode ∧ open_size o = snapshot_size s ∧
     open_generation o = Some (snapshot_generation s)) →
  fair_section i f w ∧ covered inode s (after i f w).
Proof.
  intros HI Ha s' Hn Hd Hs Hf. assert (issued (after i f w) = issued w) as Hissued by (cbn; fold s'; by rewrite decide_True).
  unfold fair_section. split_and!.
  - split; rewrite ?Hissued; cbn; fold s'; rewrite ?Hn, ?Hd; try apply HI.
    + intros h o [Ho|[[o' Ho] _]]%Hf; by eapply (inv_file_issued w HI).
    + intros h o g Ho Hg. rewrite Hs. destruct (Hf h o Ho) as [Hold|(_ & -> & Hsize & Hg')].
      2: { exists s. rewrite lookup_insert_eq. simplify_eq. unfold generation_of. split_and!; [done|lia|done]. }
      destruct (inv_generation w HI h o g Hold Hg) as (d & Hd' & Hle & Heq).
      destruct (decide (open_inode o = inode)) as [<-|Hne]; [|exists d; by rewrite lookup_insert_ne].
      exists s. rewrite lookup_insert_eq. split; [done|]. destruct (Ha d Hd') as [->|Hlt]; [done|]. split; [lia|lia].
  - apply grows_sectioned; [|fold (after i f w); by rewrite Hissued].
    intros j d Hj. unfold covered. cbn. fold s'. rewrite Hs.
    destruct (decide (j = inode)) as [->|Hne]; [|exists d; rewrite lookup_insert_ne; auto].
    exists s. rewrite lookup_insert_eq. split; [done|]. destruct (Ha d Hj) as [->|?]; auto.
  - intros h j _ _ Hnone. cbn. fold s'. destruct (ws_files s' !! h) as [o|] eqn:Ho; [|done].
    destruct (Hf h o Ho) as [?|[[? ?] _]]; congruence.
  - exists s. cbn. fold s'. rewrite Hs, lookup_insert_eq. auto.
Qed.

Lemma validate_session_fair i inode s w : engine_inv w →
  fair_section i (validate_session_section inode s) w ∧
  ok_post (λ _, covered inode s) (validate_session_section inode s (engine w)).1
    (after i (validate_session_section inode s) w).
Proof.
  intros HI.
  assert (∀ e, validate_session_section inode s (engine w) = (Err e, engine w) →
    fair_section i (validate_session_section inode s) w ∧
    ok_post (λ _, covered inode s) (validate_session_section inode s (engine w)).1
      (after i (validate_session_section inode s) w)) as Herr.
  { intros e Heq. rewrite Heq. split; [|done]. apply failed_fair; [done|by rewrite Heq]. }
  assert (validate_session_section inode s (engine w) = (Ok tt, map_dirty <[inode := s]> (engine w)) →
    advances inode s w →
    fair_section i (validate_session_section inode s) w ∧
    ok_post (λ _, covered inode s) (validate_session_section inode s (engine w)).1
      (after i (validate_session_section inode s) w)) as Hok.
  { intros Heq Ha. destruct (dirty_fair i (validate_session_section inode s) inode s w) as [Hf Hc];
      try done; rewrite ?Heq; cbn; auto. }
  unfold validate_session_section in Herr, Hok |- *.
  destruct (ws_dirty_snapshots (engine w) !! inode) as [d|] eqn:Hd.
  - case_decide as Hlt; [by eapply Herr|]. case_decide as Hsame; [by eapply Herr|]. apply Hok; [done|].
    intros d' Hd'. rewrite Hd in Hd'. injection Hd' as <-. unfold generation_of. destruct (decide (d = s)) as [|Hne]; [by left|]. right.
    destruct (decide (snapshot_generation d = snapshot_generation s)); [by destruct Hsame|].
    assert (local_generation_get (snapshot_generation d) ≠ local_generation_get (snapshot_generation s)); [|lia].
    destruct (snapshot_generation d), (snapshot_generation s); cbn in *; congruence.
  - apply Hok; [done|]. intros d Hd'. congruence.
Qed.

Lemma generation_eq_iff (a b : LocalContentGeneration) : local_generation_get a = local_generation_get b → a = b.
Proof. destruct a, b. cbn. congruence. Qed.

(** The outcomes of a commit: refused or superseded, which leaves the state
    alone, or accepted, which advances it. *)
Lemma commit_section_cases handle inode s allow_same st :
  (∃ e, commit_section handle inode s allow_same st = (Err e, st)) ∨
  (allow_same = true ∧ commit_section handle inode s allow_same st = (Ok tt, st) ∧
     ∃ d, ws_dirty_snapshots st !! inode = Some d ∧ generation_of s < generation_of d) ∨
  (∃ o, ws_files st !! handle = Some o ∧ open_inode o = inode ∧
     commit_section handle inode s allow_same st =
       (Ok tt, map_dirty <[inode := s]> (map_files <[handle := mk_OpenFile (open_inode o) (open_access o) (open_session o)
          (snapshot_size s) (Some (snapshot_generation s))]> st)) ∧
     ∀ d, ws_dirty_snapshots st !! inode = Some d → d = s ∨ generation_of d < generation_of s).
Proof.
  unfold commit_section. destruct (ws_files st !! handle) as [o|] eqn:Ho; [|left; eauto].
  case_decide as Hinode; [left; eauto|].
  match goal with |- context [if ?b then _ else _] => destruct b end; [left; eauto|].
  destruct (ws_dirty_snapshots st !! inode) as [d|] eqn:Hd; [|right; right; exists o; split_and!; [done|done|done|congruence]].
  unfold generation_of. set (gs := local_generation_get (snapshot_generation s)).
  set (gd := local_generation_get (snapshot_generation d)).
  assert (snapshot_generation s = snapshot_generation d → gs = gd) as Hgen by (unfold gs, gd; congruence).
  assert (gs = gd → snapshot_generation s = snapshot_generation d) as Hgen' by apply generation_eq_iff.
  assert (gd = local_generation_get (snapshot_generation d)) as Hgd by done. clearbody gs gd.
  destruct (allow_same && bool_decide (snapshot_generation s = snapshot_generation d) && bool_decide (d ≠ s)) eqn:Hc;
    [left; eauto|].
  destruct (bool_decide (gs < gd) || negb allow_same && bool_decide (gs = gd)) eqn:Hstale.
  - destruct (allow_same && bool_decide (gs < gd)) eqn:Hlt; [|left; eauto]. right. left.
    apply andb_prop in Hlt as [-> Hlt%bool_decide_eq_true]. split_and!; [done|done|]. exists d. split; [done|lia].
  - right. right. exists o. split_and!; [done|done|done|]. intros d' [= <-].
    apply orb_false_elim in Hstale as [Hge%bool_decide_eq_false Hne].
    destruct (decide (d = s)) as [|Hds]; [by left|]. right.
    destruct allow_same; cbn in *; [|apply bool_decide_eq_false in Hne; lia].
    rewrite (bool_decide_true _ Hds), andb_true_r in Hc. apply bool_decide_eq_false in Hc.
    rewrite <- Hgd. assert (gs ≠ gd) by auto. lia.
Qed.

Lemma commit_fair i handle inode s allow_same w : engine_inv w →
  fair_section i (commit_section handle inode s allow_same) w ∧
  ok_post (λ _, covered inode s) (commit_section handle inode s allow_same (engine w)).1
    (after i (commit_section handle inode s allow_same) w) ∨
  allow_same = true ∧ fair_section i (commit_section handle inode s allow_same) w ∧
    ∃ d, ws_dirty_snapshots (engine (after i (commit_section handle inode s allow_same) w)) !! inode = Some d ∧
      generation_of s < generation_of d.
Proof.
  intros HI. destruct (commit_section_cases handle inode s allow_same (engine w)) as
    [[e Heq]|[(-> & Heq & d & Hd & Hlt)|(o & Ho & Hi & Heq & Ha)]].
  - left. split; [apply failed_fair; [done|by rewrite Heq]|by rewrite Heq].
  - right. split; [done|]. split; [apply failed_fair; [done|by rewrite Heq]|]. exists d. unfold after. by rewrite Heq.
  - left. destruct (dirty_fair i (commit_section handle inode s allow_same) inode s w) as [Hf Hc];
      try done; rewrite ?Heq; cbn; try done.
    intros h o'. cbn. intros [[<- <-]|[_ Hh]]%lookup_insert_Some; [|by left]. right. eauto.
Qed.

Lemma commit_covered i handle inode s allow_same w : engine_inv w →
  fair_section i (commit_section handle inode s allow_same) w ∧
  ok_post (λ _, covered inode s) (commit_section handle inode s allow_same (engine w)).1
    (after i (commit_section handle inode s allow_same) w).
Proof.
  intros HI. destruct (commit_fair i handle inode s allow_same w HI) as [?|(-> & Hf & d & Hd & Hlt)]; [done|].
  split; [done|]. destruct (commit_section _ _ _ _ _).1; cbn; [|done]. exists d. auto.
Qed.

(** A handle allocated by process [i] and not yet filed. *)
Definition reserved (i : nat) (h : LinuxFileHandle) (w : engine_world) : Prop :=
  issued w !! file_handle_get h = Some i ∧ ws_files (engine w) !! h = None.

Lemma reserved_lasting i h : lasting i (reserved i h).
Proof.
  intros w w' [Hi Hn] [(_ & Hsub & _) Hf] _. split; [by eapply lookup_weaken|auto].
Qed.

Lemma accept_created_fair i request created session h w : engine_inv w → reserved i h w →
  fair_section i (accept_created_section table request created session h) w ∧
  ok_post (λ _ w', issued w' !! file_handle_get h = Some i)
    (accept_created_section table request created session h (engine w)).1
    (after i (accept_created_section table request created session h) w).
Proof.
  intros HI [Hi Hn].
  assert ((∃ e, accept_created_section table request created session h (engine w) = (Err e, engine w)) ∨
    ∃ o st, accept_created_section table request created session h (engine w) = (Ok tt, map_files <[h := o]> st) ∧
      open_generation o = None ∧ ws_next st = ws_next (engine w) ∧ ws_files st = ws_files (engine w) ∧
      ws_directories st = ws_directories (engine w) ∧ ws_dirty_snapshots st = ws_dirty_snapshots (engine w))
    as [[e Heq]|(o & st & Heq & Ho & H1 & H2 & H3 & H4)].
  { unfold accept_created_section. destruct (ensure_created_file_is_unique _ _ _ _); [|by left; eexists].
    case_decide; [by left; eexists|]. right. eexists _, _. split; [done|]. by cbn. }
  { rewrite Heq. split; [|done]. apply failed_fair; [done|by rewrite Heq]. }
  rewrite Heq. assert (issued (after i (accept_created_section table request created session h) w) = issued w) as Hissued
    by (cbn; rewrite Heq; by apply decide_True).
  unfold fair_section. cbn [ok_post fst]. rewrite Hissued. split_and!; [| | |done].
  - split; rewrite ?Hissued; cbn; rewrite Heq; cbn.
    + rewrite H1. apply HI.
    + intros n j. rewrite H1. apply HI.
    + rewrite H2. intros h' o' [[<- <-]|[_ Hh]]%lookup_insert_Some; [by exists i|by eapply (inv_file_issued w HI)].
    + rewrite H3. apply HI.
    + rewrite H2, H4. intros h' o' g [[<- <-]|[_ Hh]]%lookup_insert_Some; [congruence|by eapply (inv_generation w HI)].
  - apply grows_sectioned; [|fold (after i (accept_created_section table request created session h) w); by rewrite Hissued].
    intros inode d Hd. exists d. cbn. rewrite Heq. cbn. rewrite H4. auto.
  - cbn. rewrite Heq. cbn. rewrite H2. intros h' j Hj Hi' Hn'. rewrite lookup_insert_ne; [done|]. intros <-. congruence.
Qed.

(** Sections that only forget handles. *)
Lemma forgetting_fair {X} i (f : section X) w : engine_inv w →
  let s := (f (engine w)).2 in
  ws_next s = ws_next (engine w) → ws_files s ⊆ ws_files (engine w) →
  ws_directories s ⊆ ws_directories (engine w) → ws_dirty_snapshots s = ws_dirty_snapshots (engine w) →
  fair_section i f w.
Proof.
  intros HI s Hn Hf Hd Hs. assert (issued (after i f w) = issued w) as Hissued by (cbn; fold s; by rewrite decide_True).
  unfold fair_section. split_and!.
  - split; rewrite ?Hissued; cbn; fold s; rewrite ?Hn, ?Hs; try apply HI.
    + intros h o Ho. eapply (inv_file_issued w HI), lookup_weaken; eauto.
    + intros h d Ho. eapply (inv_directory_issued w HI), lookup_weaken; eauto.
    + intros h o g Ho. eapply (inv_generation w HI), lookup_weaken; eauto.
  - apply grows_sectioned; [|fold (after i f w); by rewrite Hissued].
    intros inode d Hi. exists d. cbn. fold s. rewrite Hs. auto.
  - intros h j _ _ Hnone. cbn. fold s. by eapply lookup_weaken_None.
Qed.

Lemma take_opened_fair i h w : engine_inv w → fair_section i (take_opened h) w.
Proof.
  intros HI. apply forgetting_fair; [done|..]; unfold take_opened; destruct (ws_files (engine w) !! h); cbn;
    try done; apply delete_subseteq.
Qed.

Lemma release_directory_fair i h w : engine_inv w →
  fair_section i (λ s : WritableState, (if decide (ws_directories s !! h = None) then Err StaleHandle else Ok tt,
    map_directories (delete h) s) : linux_result unit * WritableState) w.
Proof. intros HI. apply forgetting_fair; cbn; try done. apply delete_subseteq. Qed.

(** ** What a finished call promises *)
(** The store answered a call on a session that was filed under the handle
    for this inode and access. *)
Definition filed (inode : LinuxInode) (handle : LinuxFileHandle) (o : OpenFile) (w : engine_world) : Prop :=
  ∃ s, s ∈ history w ∧ ws_files s !! handle = Some o ∧ open_inode o = inode.

(** The store committed [snapshot] in answer to [c], and the dirty state of
    the inode covers it. *)
Definition committed_by (c : port_call) (x : port_answer c) (inode : LinuxInode) (snapshot : LocalContentSnapshot)
    (w : engine_world) : Prop :=
  existT c x ∈ answers w ∧ covered inode snapshot w.

Definition call_post (i : nat) (c : engine_call) (r : engine_reply) (w : engine_world) : Prop :=
  match c, r with
  | CallOpenFile _ _, ReplyFile h => issued w !! file_handle_get h = Some i
  | CallCreateFile _ _ _ _ _, ReplyCreated _ h => issued w !! file_handle_get h = Some i
  | CallOpenDirectory _, ReplyDirectory h => issued w !! directory_handle_get h = Some i
  | CallReadFile inode handle offset size, ReplyBytes bytes =>
      ∃ o, filed inode handle o w ∧ LinuxFileAccess_readable (open_access o) = true ∧
        byte_count bytes = Z.max 0 (Z.min size (open_size o - offset)) ∧
        (bytes = [] ∨ existT (StoreRead (open_session o) offset size) (Ok bytes) ∈ answers w)
  | CallWriteFile inode handle offset bytes, ReplyCount n =>
      n = byte_count bytes ∧
      (bytes = [] ∨ ∃ o commit, filed inode handle o w ∧ LinuxFileAccess_writable (open_access o) = true ∧
         committed_by (StoreWrite (open_session o) offset bytes) (Ok commit) inode (commit_snapshot commit) w ∧
         offset + n ≤ snapshot_size (commit_snapshot commit))
  | CallTruncateFile inode handle size, ReplyNode _ =>
      ∃ o commit, filed inode handle o w ∧ LinuxFileAccess_writable (open_access o) = true ∧
        committed_by (StoreTruncate (open_session o) size) (Ok commit) inode (commit_snapshot commit) w ∧
        size ≤ snapshot_size (commit_snapshot commit)
  | CallTruncateOnce inode size, ReplyNode _ =>
      ∃ session commit,
        committed_by (StoreTruncate session size) (Ok commit) inode (commit_snapshot commit) w ∧
        size ≤ snapshot_size (commit_snapshot commit)
  | CallSyncFile inode handle data_only, ReplyDone =>
      ∃ o, filed inode handle o w ∧
        (LinuxFileAccess_writable (open_access o) = true →
         existT (StoreSync (open_session o) data_only) (Ok None) ∈ answers w ∨
         ∃ commit, committed_by (StoreSync (open_session o) data_only) (Ok (Some commit)) inode
           (commit_snapshot commit) w)
  | CallReleaseFile _, ReplyDone | CallReleaseDirectory _, ReplyDone => True
  | (CallGetattr _ _ | CallLookup _ _ | CallCreateDirectory _ _ _ _), ReplyNode _ => True
  | (CallRename _ _ _ _ _ | CallRemove _ _ _), ReplyDone => True
  | CallDirectorySnapshot _ _, ReplySnapshot _ => True
  | CallRemoteChange _, ReplyInvalidations _ => True
  | _, _ => False
  end.

Lemma lasting_and i K K' : lasting i K → lasting i K' → lasting i (λ w, K w ∧ K' w).
Proof. intros H H' w w' [Hk Hk'] HR HI. split; eauto. Qed.

Lemma lasting_exists {A} i (K : A → engine_world → Prop) : (∀ a, lasting i (K a)) → lasting i (λ w, ∃ a, K a w).
Proof. intros H w w' [a Ha] HR HI. exists a. by eapply H. Qed.

Lemma lasting_or i K K' : lasting i K → lasting i K' → lasting i (λ w, K w ∨ K' w).
Proof. intros H H' w w' [Hk|Hk'] HR HI; [left|right]; eauto. Qed.

Lemma lasting_pure i P : lasting i (λ _, P).
Proof. by intros w w'. Qed.

Lemma lasting_issued i n : lasting i (λ w, issued w !! n = Some i).
Proof. intros w w' Hi [(_ & Hsub & _) _] _. by eapply lookup_weaken. Qed.

Lemma lasting_covered i inode s : lasting i (covered inode s).
Proof. intros w w' Hc [Hg _] _. by eapply covered_trans. Qed.

Lemma lasting_answers i a : lasting i (λ w, a ∈ answers w).
Proof. intros w w' Ha [(_ & _ & Hs & _) _] _. auto. Qed.

Lemma lasting_filed i inode handle o : lasting i (filed inode handle o).
Proof. intros w w' (s & Hs & Ho) [(_ & _ & _ & Hh) _] _. exists s. auto. Qed.

Lemma lasting_impl i (P : Prop) K : lasting i K → lasting i (λ w, P → K w).
Proof. intros H w w' Hk HR HI HP. eapply H; eauto. Qed.
#[local] Hint Resolve lasting_and lasting_exists lasting_or lasting_pure lasting_issued lasting_covered
  lasting_answers lasting_filed lasting_impl opened_from_lasting reserved_lasting : forge.

Lemma committed_by_lasting i c x inode s : lasting i (committed_by c x inode s).
Proof. apply lasting_and; auto with forge. Qed.
#[local] Hint Resolve committed_by_lasting : forge.

#[local] Ltac lasting :=
  repeat first [apply lasting_issued|apply lasting_filed|apply lasting_covered|apply committed_by_lasting
    |apply lasting_answers|apply lasting_exists; intros ?|apply lasting_and|apply lasting_or|apply lasting_impl
    |apply lasting_pure|solve [auto with forge]].

Lemma call_post_lasting i c r : lasting i (call_post i c r).
Proof. destruct c, r; unfold call_post; lasting. Qed.

(** ** The calls, one by one *)
Lemma safe_io_map {A B} i (Φ : B → engine_world → Prop) (f : A → B) (p : wio A) w :
  safe_io i (λ a, Φ (f a)) p w → safe_io i Φ (io_map f p) w.
Proof. intros H. apply safe_io_bind. eapply safe_io_mono; [|exact H]. cbn. intros a w' Ha. by apply safe_io_ok. Qed.

(** Sequencing after a quiet program. *)
Lemma safe_io_after {A B} i K (Φ : B → engine_world → Prop) (p : wio A) (q : A → wio B) w :
  lasting i K → K w → all_quiet p → (∀ a w', K w' → safe_io i Φ (q a) w') → safe_io i Φ (io_bind p q) w.
Proof. intros HK Hw Hp Hq. apply safe_io_bind. eapply safe_io_mono; [|by apply (safe_io_quiet i K)]. auto. Qed.

Lemma safe_io_true {A} i (p : wio A) w : all_quiet p → safe_io i (λ _ _, True) p w.
Proof. intros Hp. eapply safe_io_mono; [|apply (safe_io_quiet i (λ _, True)); auto with forge]. done. Qed.

Lemma validate_opened_session_safe i inode key session recovered w :
  safe_io i (λ _, opened_from (mk_OpenFile inode AccessRead (wsession_id session) (wsession_size session)
    (snapshot_generation <$> wsession_snapshot session)))
    (validate_opened_session session_generation inode key session recovered) w.
Proof.
  unfold validate_opened_session. repeat case_decide; try done.
  destruct (wsession_snapshot session) as [s|] eqn:Hs; [|destruct recovered; [done|by apply safe_io_ok]].
  case_decide as Hk; [done|]. apply Decidable.not_or in Hk as [_ Hsize%dec_stable].
  eapply (safe_io_section i (λ _, True)); [auto with forge|done|]. intros w1 _ HI.
  destruct (validate_session_fair i inode s w1 HI) as [Hf Hc]. split; [done|].
  destruct (validate_session_section _ _ _).1; cbn in *; [|done].
  intros g [= <-]. exists s. auto.
Qed.

Lemma open_file_safe i inode access w :
  safe_io i (λ h w, issued w !! file_handle_get h = Some i)
    (LinuxWritableEngine_open_file table policy session_generation namespace_store inode access) w.
Proof.
  unfold LinuxWritableEngine_open_file.
  apply (safe_io_after i (λ _, True)); auto using all_quiet_observe with forge. intros entries w1 _.
  apply (safe_io_after i (λ _, True)); auto with forge; [quiet; apply ro_getattr_quiet|]. intros node w2 _.
  case_decide; [done|].
  apply (safe_io_after i (λ _, True)); auto using all_quiet_port with forge. intros found w3 _.
  apply (safe_io_after i (λ _, True)); auto with forge; [quiet; auto using hydrate_item_quiet, hydrate_quiet|].
  intros [session recovered] w4 _.
  apply safe_io_bind. eapply safe_io_mono; [|apply validate_opened_session_safe]. intros u w5 Ho.
  eapply (safe_io_section i (opened_from (mk_OpenFile inode access (wsession_id session) (wsession_size session)
    (snapshot_generation <$> wsession_snapshot session)))); [apply opened_from_lasting|exact Ho|].
  intros w6 Ho6 HI. by apply insert_opened_fair.
Qed.

Lemma create_file_safe i parent name mode umask access w :
  safe_io i (λ x w, issued w !! file_handle_get x.2 = Some i)
    (LinuxWritableEngine_create_file table policy session_generation namespace_store parent name mode umask access) w.
Proof.
  unfold LinuxWritableEngine_create_file, accept_created_file.
  apply (safe_io_after i (λ _, True)); auto with forge; [done|]. intros _ w1 _.
  apply (safe_io_after i (λ _, True)); auto using getattr_quiet with forge. intros parent_node w2 _.
  case_decide; [done|].
  apply (safe_io_after i (λ _, True)); auto with forge; [done|]. intros request w3 _.
  apply safe_io_bind. eapply (safe_io_section i (λ _, True)); [auto with forge|done|]. intros w4 _ HI4.
  destruct (allocate_fair i w4 HI4) as [Hf Ha]. split; [done|].
  destruct (WritableState_allocate (engine w4)).1 as [h|e]; [|done]. cbn [ok_post] in Ha |- *.
  assert (reserved i h (after i WritableState_allocate w4)) as Hres by done.
  apply (safe_io_after i (reserved i h)); auto using all_quiet_port, reserved_lasting. intros acceptance w5 Hw5.
  do 3 (apply (safe_io_after i (reserved i h)); [apply reserved_lasting|done|done|clear dependent w5; intros ? w5 Hw5]).
  apply safe_io_bind. eapply (safe_io_section i); [apply reserved_lasting|done|]. intros w6 Hw6 HI6.
  destruct (accept_created_fair i request (acceptance_created acceptance) (acceptance_session acceptance) h w6 HI6 Hw6)
    as [Hf6 Ho6]. split; [done|]. destruct (accept_created_section _ _ _ _ _ _).1; [|done]. by apply safe_io_ok.
Qed.

Lemma open_directory_safe i inode w :
  safe_io i (λ h w, issued w !! directory_handle_get h = Some i)
    (LinuxWritableEngine_open_directory table policy fuel inode) w.
Proof.
  unfold LinuxWritableEngine_open_directory.
  apply (safe_io_after i (λ _, True)); auto using getattr_quiet with forge. intros node w1 _. case_decide; [done|].
  apply (safe_io_after i (λ _, True)); auto using all_quiet_observe with forge. intros overlay w2 _.
  apply (safe_io_after i (λ _, True)); auto with forge; [quiet; auto using load_item_quiet|]. intros item w3 _.
  apply (safe_io_after i (λ _, True)); auto with forge; [apply load_pages_quiet|]. intros children w4 _.
  apply (safe_io_after i (λ _, True)); auto with forge; [quiet|]. intros parent w5 _.
  apply (safe_io_after i (λ _, True)); auto using all_quiet_observe with forge. intros [[hidden names] local] w6 _.
  apply (safe_io_after i (λ _, True)); auto using backend_entries_quiet with forge. intros entries w7 _.
  apply (safe_io_after i (λ _, True)); auto with forge; [done|]. intros all w8 _.
  eapply (safe_io_section i (λ _, True)); [auto with forge|done|]. intros w9 _ HI. by apply insert_snapshot_fair.
Qed.

(** A commit that is accepted is covered. *)
Lemma apply_commit_safe i K handle inode commit minimum allow_same w :
  lasting i K → K w →
  safe_io i (λ _ w, K w ∧ covered inode (commit_snapshot commit) w ∧
      ∀ m, minimum = Some m → m ≤ snapshot_size (commit_snapshot commit))
    (apply_commit table handle inode commit minimum allow_same) w.
Proof.
  intros HK Hw. unfold apply_commit.
  apply (safe_io_after i K); auto using all_quiet_observe. intros key w1 Hw1.
  case_decide; [done|].
  destruct minimum as [m|]; [case_bool_decide as Hm; [done|]|].
  all: eapply (safe_io_section i K); [done|done|]; intros w2 Hw2 HI;
    destruct (commit_covered i handle inode (commit_snapshot commit) allow_same w2 HI) as [Hf Hc]; split; [done|];
    destruct (commit_section _ _ _ _ _).1 eqn:Hr; [|done]; cbn in Hc |- *; split_and!;
    [|done|intros m' Hm'; first [discriminate Hm'|injection Hm' as <-; lia]].
  all: eapply lasting_section; [done..|]; intros h _ Hn; cbn;
    destruct (commit_section_cases handle inode (commit_snapshot commit) allow_same (engine w2))
      as [[e He]|[(_ & He & _)|(o & Ho & _ & He & _)]]; rewrite He; cbn; try done;
    rewrite lookup_insert_ne; [done|congruence].
Qed.

Lemma write_session_ok inode handle s session : write_session inode handle s = Ok session →
  ∃ o, ws_files s !! handle = Some o ∧ open_session o = session ∧ LinuxFileAccess_writable (open_access o) = true ∧
    open_inode o = inode.
Proof.
  unfold write_session. destruct (ws_files s !! handle) as [o|]; [|done].
  destruct (bool_decide _ && _) eqn:Ha; intros; simplify_eq.
  apply andb_prop in Ha as [Hi%bool_decide_eq_true Hacc]. by exists o.
Qed.

Lemma write_file_safe i inode handle offset bytes w :
  safe_io i (λ n w, call_post i (CallWriteFile inode handle offset bytes) (ReplyCount n) w)
    (LinuxWritableEngine_write_file table inode handle offset bytes) w.
Proof.
  unfold LinuxWritableEngine_write_file. case_decide; [done|]. case_decide as Hb.
  { apply safe_io_ok. cbn. subst. auto. }
  apply safe_io_bind. destruct (checked_add _ _ _) as [end_|] eqn:Hend; [|done].
  apply checked_add_spec in Hend as [_ ->]. apply safe_io_ok.
  apply safe_io_bind. eapply (safe_io_observe i (λ _, True)); [auto with forge|done|].
  intros session s w1 _ Hs [o (Ho & <- & Hacc & Hi)]%write_session_ok.
  assert (filed inode handle o w1) as Hfiled by (exists s; auto). clear s Hs Ho.
  apply safe_io_bind. eapply (safe_io_port i (filed inode handle o)); [apply lasting_filed|done|].
  intros x commit w2 Hw2 Hx ->.
  apply safe_io_bind. eapply safe_io_mono; [|apply (apply_commit_safe i
    (λ w, filed inode handle o w ∧ existT (StoreWrite (open_session o) offset bytes) (Ok commit) ∈ answers w)); auto with forge].
  cbn beta. intros _ w3 ([Hf Hans] & Hc & Hmin). apply safe_io_ok. split; [done|]. right. exists o, commit.
  split_and!; [done..|by apply Hmin].
Qed.

(** A truncation through a handle. *)
Definition truncated (inode : LinuxInode) (handle : LinuxFileHandle) (size : Z) (w : engine_world) : Prop :=
  ∃ o commit, filed inode handle o w ∧ LinuxFileAccess_writable (open_access o) = true ∧
    committed_by (StoreTruncate (open_session o) size) (Ok commit) inode (commit_snapshot commit) w ∧
    size ≤ snapshot_size (commit_snapshot commit).

Lemma truncated_lasting i inode handle size : lasting i (truncated inode handle size).
Proof. unfold truncated. lasting. Qed.

Lemma truncate_file_safe i inode handle size w :
  safe_io i (λ _, truncated inode handle size)
    (LinuxWritableEngine_truncate_file table policy inode handle size) w.
Proof.
  unfold LinuxWritableEngine_truncate_file.
  apply safe_io_bind. eapply (safe_io_observe i (λ _, True)); [auto with forge|done|].
  intros session s w1 _ Hs [o (Ho & <- & Hacc & Hi)]%write_session_ok.
  assert (filed inode handle o w1) as Hfiled by (exists s; auto). clear s Hs Ho.
  apply safe_io_bind. eapply (safe_io_port i (filed inode handle o)); [apply lasting_filed|done|].
  intros x commit w2 Hw2 Hx ->.
  apply safe_io_bind. eapply safe_io_mono; [|apply (apply_commit_safe i
    (λ w, filed inode handle o w ∧ existT (StoreTruncate (open_session o) size) (Ok commit) ∈ answers w)); auto with forge].
  cbn beta. intros _ w3 ([Hf Hans] & Hc & Hmin).
  apply (safe_io_quiet i (truncated inode handle size)); [apply truncated_lasting| |apply getattr_quiet].
  exists o, commit. split_and!; [done..|by apply Hmin].
Qed.

Lemma release_file_safe i handle w : safe_io i (λ _ _, True) (LinuxWritableEngine_release_file handle) w.
Proof.
  unfold LinuxWritableEngine_release_file. apply safe_io_bind.
  eapply (safe_io_section i (λ _, True)); [auto with forge|done|]. intros w1 _ HI.
  split; [by apply take_opened_fair|]. destruct (take_opened _ _).1; [|done].
  by apply (safe_io_true i), all_quiet_port.
Qed.

Lemma release_directory_safe i handle w : safe_io i (λ _ _, True) (LinuxWritableEngine_release_directory handle) w.
Proof.
  eapply (safe_io_section i (λ _, True)); [auto with forge|done|]. intros w1 _ HI.
  split; [by apply release_directory_fair|]. by case_match.
Qed.

Lemma truncate_once_safe i inode size w :
  safe_io i (λ _ w, ∃ handle, truncated inode handle size w)
    (LinuxWritableEngine_truncate_once table policy session_generation namespace_store inode size) w.
Proof.
  unfold LinuxWritableEngine_truncate_once. apply safe_io_bind.
  eapply safe_io_mono; [|apply open_file_safe]. intros handle w1 _.
  apply safe_bind. eapply safe_mono; [|apply truncate_file_safe]. intros [node|e] w2 Ht; cbn [ok_post] in Ht.
  - apply safe_bind. eapply safe_mono; [|apply (safe_kept i (truncated inode handle size)); [intros; apply truncated_lasting|exact Ht|apply release_file_safe]].
    intros [[]|e] w3 [Hw3 _]; [by exists handle|done].
  - apply safe_bind. eapply safe_mono; [|apply release_file_safe]. by intros [[]|e'] w3.
Qed.

Lemma read_file_safe i inode handle offset size w :
  safe_io i (λ bytes w, call_post i (CallReadFile inode handle offset size) (ReplyBytes bytes) w)
    (LinuxWritableEngine_read_file inode handle offset size) w.
Proof.
  unfold LinuxWritableEngine_read_file.
  apply safe_io_bind. eapply (safe_io_observe i (λ _, True)); [auto with forge|done|].
  intros o s w1 _ Hs Ho. unfold opened_for in Ho. destruct (ws_files s !! handle) as [o'|] eqn:Ho'; [|done].
  simplify_eq/=. destruct (bool_decide _ && _) eqn:Ha; [|by destruct (LinuxFileAccess_readable _)].
  apply andb_prop in Ha as [Hi%bool_decide_eq_true Hacc].
  assert (filed inode handle o w1) as Hfiled by (exists s; auto). clear s Hs Ho'.
  case_decide as Hempty.
  { apply safe_io_ok. exists o. split_and!; [done|done| |by left]. unfold byte_count. cbn. lia. }
  apply Decidable.not_or in Hempty as [Hsize Hoffset].
  apply safe_io_bind. eapply (safe_io_port i (filed inode handle o)); [apply lasting_filed|done|].
  intros x bytes w2 Hw2 Hx ->. case_decide as Hcount; [done|]. apply safe_io_ok. exists o.
  split_and!; [done|done|unfold byte_count in *; lia|by right].
Qed.
Lemma apply_commit_covered i handle inode commit minimum allow_same w :
  safe_io i (λ _, covered inode (commit_snapshot commit)) (apply_commit table handle inode commit minimum allow_same) w.
Proof.
  eapply safe_io_mono; [|apply (apply_commit_safe i (λ _, True)); auto with forge]. by intros _ w' (_ & ? & _).
Qed.

Lemma sync_file_safe i inode handle data_only w :
  safe_io i (λ _, call_post i (CallSyncFile inode handle data_only) ReplyDone)
    (LinuxWritableEngine_sync_file table inode handle data_only) w.
Proof.
  unfold LinuxWritableEngine_sync_file.
  apply safe_io_bind. eapply (safe_io_observe i (λ _, True)); [auto with forge|done|].
  intros session s w1 _ Hs Ho. unfold sync_session in Ho. destruct (ws_files s !! handle) as [o|] eqn:Ho'; [|done].
  case_decide as Hi; [|done]. assert (filed inode handle o w1) as Hfiled by (exists s; auto). clear s Hs Ho'.
  destruct (LinuxFileAccess_writable (open_access o)) eqn:Hacc; simplify_eq.
  2: { apply safe_io_ok. exists o. split; [done|congruence]. }
  apply safe_io_bind. eapply (safe_io_port i (filed (open_inode o) handle o)); [apply lasting_filed|done|].
  intros x [commit|] w2 Hw2 Hx ->.
  - eapply safe_io_mono; [|apply (apply_commit_safe i (λ w, filed (open_inode o) handle o w ∧
      existT (StoreSync (open_session o) data_only) (Ok (Some commit)) ∈ answers w)); auto with forge].
    cbn beta. intros _ w3 ([Hf Hans] & Hc & _). exists o. split; [done|]. right. exists commit. by split.
  - apply safe_io_ok. exists o. auto.
Qed.

(** Every call promises its postcondition. *)
Lemma run_call_safe i c w : safe_io i (call_post i c) (run_call c) w.
Proof.
  destruct c; apply safe_io_map.
  all: try by eapply safe_io_mono; [|apply safe_io_true; eauto using getattr_quiet, lookup_quiet, create_directory_quiet,
    rename_quiet, remove_quiet, remote_change_quiet, all_quiet_observe].
  - apply open_file_safe.
  - apply create_file_safe.
  - apply open_directory_safe.
  - eapply safe_io_mono; [|apply release_directory_safe]. done.
  - apply read_file_safe.
  - apply write_file_safe.
  - eapply safe_io_mono; [|apply truncate_file_safe]. done.
  - eapply safe_io_mono; [|apply truncate_once_safe]. intros node w' (handle & o & commit & _ & _ & Hc & Hs). by exists (open_session o), commit.
  - apply sync_file_safe.
  - eapply safe_io_mono; [|apply release_file_safe]. done.
Qed.
(** ** The engine serving calls

    One process per call; calls that a client makes one after the other are
    one of the interleavings. *)
Abbreviation engine_system := (system (linux_answer WritableState) engine_world (linux_result engine_reply)).
Definition engine_steps : engine_system → engine_system → Prop := sys_steps engine_handle engine_environment.
Definition serving (cs : list engine_call) (w : engine_world) : engine_system := (run_call <$> cs, w).

Lemma environment_kept w w' : engine_inv w → engine_environment w w' → engine_inv w' ∧ ∀ i, engine_relies i w w'.
Proof.
  intros HI He. destruct He as [o w]. split; [by eapply inv_same|]. intros i. split; [|done]. split_and!; try done.
  intros inode d Hd. by exists d; auto.
Qed.

(** What process [i] owes when it is done. *)
Definition owed (cs : list engine_call) (i : nat) (r : linux_result engine_reply) (w : engine_world) : Prop :=
  ok_post (λ r w, ∃ c, cs !! i = Some c ∧ call_post i c r w) r w.

Lemma owed_lasting cs i : stable engine_inv engine_relies i (owed cs i).
Proof.
  intros [r|e] w w'; cbn; [|done]. intros (c & Hc & Hr) HR HI. exists c. split; [done|]. by eapply call_post_lasting.
Qed.

Definition engine_safe (cs : list engine_call) : engine_system → Prop :=
  all_safe engine_handle engine_inv engine_relies (λ _ _ _, True) (owed cs).

Lemma serving_safe cs w : engine_inv w → engine_safe cs (serving cs w).
Proof.
  intros HI. split; [done|]. intros i p (c & -> & Hc)%list_lookup_fmap_Some_1.
  eapply safe_mono; [|apply (run_call_safe i c)]. intros [r|e] w'; cbn; eauto.
Qed.

Lemma engine_safe_steps cs c c' : engine_safe cs c → engine_steps c c' → engine_safe cs c'.
Proof.
  apply safe_reachable; [apply _|intros; apply owed_lasting|intros w w'; apply environment_kept].
Qed.

Lemma engine_step_grows cs l c c' :
  engine_safe cs c → sys_step engine_handle engine_environment l c c' → engine_grows c.2 c'.2.
Proof.
  intros [HI Hs] Hc. destruct Hc as [i e k x ps w w' Hp Hx|ps w w' He]; cbn in *.
  - destruct (Hs i _ Hp w (reflexivity w) HI) as [_ Hk]. destruct (Hk x w' Hx) as (_ & HR & _).
    apply (HR (S i)). lia.
  - by destruct (environment_kept w w' HI He) as [_ HR]; apply (HR 0%nat).
Qed.

Lemma engine_steps_grow cs c c' : engine_safe cs c → engine_steps c c' → engine_grows c.2 c'.2.
Proof.
  intros Hs Hc. induction Hc as [|c c' c'' [l Hl] _ IH]; [done|].
  transitivity c'.2; [by eapply engine_step_grows|]. apply IH.
  eapply engine_safe_steps; [exact Hs|]. apply rtc_once. by exists l.
Qed.

Definition reply_handle (r : engine_reply) : option Z :=
  match r with
  | ReplyFile h | ReplyCreated _ h => Some (file_handle_get h)
  | ReplyDirectory h => Some (directory_handle_get h)
  | _ => None
  end.

Lemma reply_handle_issued i c r n w : call_post i c r w → reply_handle r = Some n → issued w !! n = Some i.
Proof. destruct c, r; cbn; try done; congruence. Qed.

(** A state that has served no file: a fresh or restored engine. *)
Definition starting (s : WritableState) (o : W) : engine_world := mk_engine_world s o ∅ [] [].

Lemma starting_inv s o :
  0 ≤ ws_next s → ws_files s = ∅ → ws_directories s = ∅ → engine_inv (starting s o).
Proof. intros H0 Hf Hd. split; cbn; rewrite ?Hf, ?Hd; [done|intros *; by rewrite lookup_empty..]. Qed.

(** ** Activation

    Activation runs before the engine serves: it files nothing. *)
Definition idle (s : WritableState) : Prop := ws_next s = 0 ∧ ws_files s = ∅ ∧ ws_directories s = ∅.

Fixpoint all_idle {A} (p : prog (linux_answer WritableState) A) : Prop :=
  match p with
  | Return _ => True
  | Act e k => match e with @Critical _ X f => ∀ s, idle s → idle (f s).2 | _ => True end ∧ ∀ x, all_idle (k x)
  end.

Lemma all_quiet_idle {A} (p : prog (linux_answer WritableState) A) : all_quiet p → all_idle p.
Proof.
  induction p as [a|e k IH]; [done|]. cbn. intros [He Hk]. split; [|auto].
  destruct e as [c|X f|]; try done. intros s (Hn & Hf & Hd). destruct (He s) as (Hn' & Hf' & Hd' & _).
  unfold idle. by rewrite Hn', Hf', Hd'.
Qed.

Lemma all_idle_bind {A B} (p : wio A) (q : A → wio B) : all_idle p → (∀ a, all_idle (q a)) → all_idle (io_bind p q).
Proof.
  intros Hp Hq. induction p as [[a|e]|e k IH]; [exact (Hq a)|done|]. destruct Hp as [He Hk].
  split; [exact He|]. intros x. exact (IH x (Hk x)).
Qed.

Lemma for_each_quiet {A} (f : A → section (linux_result unit)) l : (∀ x, quiet (f x)) → all_quiet (for_each f l).
Proof. intros Hf. induction l as [|x l IH]; cbn [for_each]; quiet; [by apply all_quiet_locked|done]. Qed.

Lemma restore_overlay_quiet overlay : all_quiet (restore_namespace_overlay table session_generation overlay).
Proof.
  unfold restore_namespace_overlay. quiet; apply for_each_quiet; intros x s.
  - unfold restore_item_section.
    match goal with |- context [match ?m with Ok _ => _ | Err _ => _ end] => destruct m end; cbn; done.
  - unfold restore_tombstone_section. repeat case_match; cbn; done.
Qed.

Lemma restore_remote_quiet entries : all_quiet (restore_remote_overlay table policy fuel entries).
Proof. induction entries as [|entry entries IH]; cbn [restore_remote_overlay]; quiet; [apply remote_change_quiet|done]. Qed.

Lemma restore_created_quiet files : all_quiet (restore_created_files table policy session_generation files).
Proof.
  induction files as [|created files IH]; cbn [restore_created_files]; quiet; auto using getattr_quiet.
  apply all_quiet_locked. intros s. unfold restore_created_section.
  destruct (ensure_created_file_is_unique _ _ _ _); cbn; done.
Qed.

Lemma restore_dirty_idle snapshots s : idle s → idle (restore_dirty_section table snapshots s).2.
Proof.
  revert s. induction snapshots as [|snapshot snapshots IH]; intros s Hs; cbn; [done|].
  case_decide; [done|]. destruct (dirty_inode _ _ _); [|done]. case_decide; [done|]. case_decide; [done|]. by apply IH.
Qed.

Lemma activate_idle entries : all_idle (activate_inner table policy session_generation namespace_store fuel entries).
Proof.
  unfold activate_inner.
  repeat (apply all_idle_bind;
    [apply all_quiet_idle; destruct namespace_store; auto using all_quiet_port, restore_overlay_quiet,
       restore_remote_quiet, restore_created_quiet; done|intros ?]).
  split; [|done]. apply restore_dirty_idle.
Qed.

(** However activation goes, the engine it leaves is one that may serve. *)
Lemma activation_starts entries o ps w :
  sys_steps engine_handle engine_environment
    ([activate_inner table policy session_generation namespace_store fuel entries], starting WritableState_default o) (ps, w) →
  ∀ o', engine_inv (starting (engine w) o').
Proof.
  intros Hs o'. assert (idle (engine w) ∧ ∀ i p, ps !! i = Some p → all_idle p) as [(Hn & Hf & Hd) _].
  2: { apply starting_inv; [lia|done..]. }
  set (c := (_, starting _ _)) in Hs. set (c' := (ps, w)) in Hs. change (idle (engine c'.2) ∧ ∀ i p, c'.1 !! i = Some p → all_idle p).
  assert (idle (engine c.2) ∧ ∀ i p, c.1 !! i = Some p → all_idle p) as Hc.
  { split; [done|]. intros [|i] p; [|done]. intros [= <-]. apply activate_idle. }
  clearbody c c'. induction Hs as [|c c1 c2 [l Hl] _ IH]; [done|]. apply IH. clear IH.
  destruct Hc as [Hi Hp]. destruct Hl as [i e k x ps' w1 w2 Hk Hx|ps' w1 w2 [o1 w1']]; cbn in *; [|done].
  specialize (Hp i _ Hk) as Hact. destruct Hact as [He Hnext]. split.
  - destruct e as [call|X f|]; cbn in Hx; [by destruct Hx as (? & _ & ->)| |done].
    specialize (He _ Hi). destruct (f (engine w1)) as [y s]. by destruct Hx as [_ ->].
  - intros j p [(<- & <- & _)|[_ Hj]]%list_lookup_insert_Some; [apply Hnext|by eapply Hp].
Qed.

(** C22. What the writable mount acknowledges holds, and is not lost.  Any
    number of calls run concurrently, their critical sections interleaved at
    will, over a product whose backend and stores may answer anything.  In
    every reachable state: no handle is filed that was not allocated, and the
    generation and size of an open file are never ahead of the dirty snapshot
    of its inode.  A call that has returned a value keeps its promise from
    then on: a write reports all its bytes and the store has durably committed
    them, in answer to exactly this write on the session of the handle, in a
    snapshot large enough to hold them, that is the dirty snapshot of the
    inode or was followed by one of a later generation; likewise truncations
    and syncs; a read returns as many bytes as the range has within the size
    known for the handle, the ones the store answered for this range and the
    session of the handle.  No handle is given out twice.  A dirty snapshot
    never disappears or goes back to an earlier generation. *)
Theorem engine_calls_acknowledged cs w0 ps w :
  engine_inv w0 → engine_steps (serving cs w0) (ps, w) →
  engine_inv w ∧
  (∀ i r, ps !! i = Some (Return (Ok r)) → ∃ c, cs !! i = Some c ∧ call_post i c r w) ∧
  (∀ i j r r' n, ps !! i = Some (Return (Ok r)) → ps !! j = Some (Return (Ok r')) →
    reply_handle r = Some n → reply_handle r' = Some n → i = j) ∧
  ∀ ps' w', engine_steps (ps, w) (ps', w') → ∀ inode d, ws_dirty_snapshots (engine w) !! inode = Some d →
    ∃ d', ws_dirty_snapshots (engine w') !! inode = Some d' ∧ (d' = d ∨ generation_of d < generation_of d').
Proof.
  intros HI Hs. destruct (engine_safe_steps cs _ _ (serving_safe cs w0 HI) Hs) as [HI' Hsafe]. cbn in *.
  assert (∀ i r, ps !! i = Some (Return (Ok r)) → ∃ c, cs !! i = Some c ∧ call_post i c r w) as Hpost
    by (intros i r Hr; exact (Hsafe i _ Hr)).
  split_and!; [done|done| |].
  2: { intros ps' w' Hs' inode d Hd. apply (engine_steps_grow cs (ps, w) (ps', w')); [by split|done|exact Hd]. }
  intros i j r r' n Hi Hj Hn Hn'.
  destruct (Hpost i r Hi) as (c & _ & Hc), (Hpost j r' Hj) as (c' & _ & Hc').
  pose proof (reply_handle_issued _ _ _ _ _ Hc Hn). pose proof (reply_handle_issued _ _ _ _ _ Hc' Hn'). congruence.
Qed.
End system.

(** ** A mount with one file *)
Module EngineDemo.
Definition demo_scope : CloudScope := CloudScope_new (mk_opaque "namespace") (mk_opaque "root").
Definition root_key : CloudItemKey := CloudItemKey_new demo_scope (mk_opaque "/").
Definition file_key : CloudItemKey := CloudItemKey_new demo_scope (mk_opaque "file").
Definition inode : LinuxInode := mk_LinuxInode 2.
Definition root : LinuxInodeRecord := LinuxInodeRecord_new root_key LINUX_ROOT_INODE (mk_LinuxInodeGeneration 1).
Definition file_record : LinuxInodeRecord := LinuxInodeRecord_new file_key inode (mk_LinuxInodeGeneration 1).
Definition mount : SessionGeneration := mk_SessionGeneration 1.

Definition table : LinuxInodeTable :=
  mk_LinuxInodeTable demo_scope root {[file_key := file_record]} {[inode := file_record]}.

Lemma table_restored : LinuxInodeTable_new root [file_record] = Ok table.
Proof. by vm_compute. Qed.

Definition file : CloudItem :=
  mk_CloudItem file_key (Some (mk_opaque "/")) "file" FileKind (mk_opaque [Byte.x01])
    (Some (CloudContentMetadata_new (mk_opaque [Byte.x01]) None 0)).
Definition staged (generation size : Z) : LocalContentSnapshot :=
  LocalContentSnapshot_new file_key (mk_LocalContentGeneration generation) (mk_opaque "staged") size None.
Definition demo_session : LinuxWriteSessionId := mk_LinuxWriteSessionId "session".

(** The store has a session with one dirty generation; every further write
    makes the next one: the byte written names it. *)
Definition reply (c : port_call) : port_answer c :=
  match c with
  | GetItem _ => Ok file
  | ListChildren _ _ | ReadContent _ => Err (CloudBackendError_new Internal)
  | OpenRecovered _ generation => Ok (Some (LinuxWriteSession_from_recovered demo_session (staged 1 0) generation))
  | StoreWrite _ offset bytes =>
      Ok (LinuxWriteCommit_new (staged (if decide (bytes = [Byte.x02]) then 2 else 3) (offset + byte_count bytes)))
  | ActivateMount _ _ | OpenExisting _ _ | StoreRead _ _ _ | StoreTruncate _ _ | StoreSync _ _ =>
      Err (CloudFilesStoreError_new StoreNotFound "")
  | StoreClose _ => Ok tt
  | ActivateNamespace _ _ | CreateFile _ | OpenCreatedFile _ _ | ActivateNamespaceOverlay _ _
  | CreateDirectory _ | Rename _ | Remove _ => Err (LinuxNamespaceMutationStoreError_new NamespaceUnsupported "")
  end.

Definition ports (o : unit) (c : port_call) (x : port_answer c) (o' : unit) : Prop := x = reply c.

Abbreviation demo_system := (system (linux_answer WritableState) (engine_world (W := unit)) (linux_result engine_reply)).
Abbreviation demo_steps := (engine_steps (W := unit) ports).
Abbreviation demo_serving := (serving (W := unit) table LinuxAttributePolicy_default mount false 1%nat).

(** Process [i] performs its next event. *)
Definition turn (i : nat) (c : demo_system) : option demo_system :=
  match c.1 !! i with
  | Some (Act e k) =>
      match e as e return ((linux_answer WritableState e → prog (linux_answer WritableState) (linux_result engine_reply)) →
                           option demo_system) with
      | Call call => λ k, Some (<[i := k (reply call)]> c.1, answered call (reply call) tt c.2)
      | @Critical _ X section => λ k,
          Some (<[i := k (section (engine c.2)).1]> c.1, sectioned i (section (engine c.2)).2 c.2)
      | Diverge => λ _, None
      end k
  | _ => None
  end.

Definition turns (l : list nat) (c : demo_system) : option demo_system :=
  foldl (λ c i, c ≫= turn i) (Some c) l.

Lemma turn_step i c c' : turn i c = Some c' → demo_steps c c'.
Proof.
  unfold turn. destruct (c.1 !! i) as [[r|e k]|] eqn:Hp; try done. destruct c as [ps w]; cbn in *.
  destruct e as [call|X section|]; intros; simplify_eq; apply rtc_once; exists (Some i);
    (eapply step_process; [exact Hp|]).
  - by exists tt.
  - cbn. by destruct (section (engine w)).
Qed.

Lemma turns_steps l c c' : turns l c = Some c' → demo_steps c c'.
Proof.
  unfold turns. revert c'. induction l as [|i l IH] using rev_ind; cbn.
  { intros c' [= <-]. constructor. }
  intros c'. rewrite foldl_snoc. intros (c1 & H1 & H2)%bind_Some.
  assert (demo_steps c c1) as Hc1 by auto. unfold engine_steps, sys_steps in *.
  etrans; [exact Hc1|by eapply turn_step].
Qed.

(** What a system shows: the results, and the dirty snapshot of the file. *)
Definition result_of (p : prog (linux_answer WritableState) (linux_result engine_reply)) : option (linux_result engine_reply) :=
  match p with Return r => Some r | _ => None end.
Definition shown (c : demo_system) := (result_of <$> c.1, ws_dirty_snapshots (engine c.2) !! inode).

Definition fresh_engine : engine_world (W := unit) := starting WritableState_default tt.

(** A client opens the file and writes a byte through the handle. *)
Definition calls : list engine_call :=
  [CallOpenFile inode AccessReadWrite; CallWriteFile inode (mk_LinuxFileHandle 1) 0 [Byte.x02]].

Lemma written : shown <$> turns [0; 0; 0; 0; 0; 1; 1; 1; 1]%nat (demo_serving calls fresh_engine) =
  Some ([Some (Ok (ReplyFile (mk_LinuxFileHandle 1))); Some (Ok (ReplyCount 1))], Some (staged 2 1)).
Proof. by vm_compute. Qed.

Lemma returned c rs d i r : shown c = (rs, d) → rs !! i = Some (Some r) → c.1 !! i = Some (Return r).
Proof.
  intros [= <- _] Hi. rewrite list_lookup_fmap in Hi. destruct (c.1 !! i) as [[r'|e k]|]; cbn in Hi; congruence.
Qed.

(** Two writes race: the product commits them in one order, their sections
    run in the other.  The earlier one is durable, but reports an error. *)
Definition racing : list engine_call :=
  [CallOpenFile inode AccessReadWrite; CallWriteFile inode (mk_LinuxFileHandle 1) 0 [Byte.x02];
   CallWriteFile inode (mk_LinuxFileHandle 1) 0 [Byte.x03]].

Example racing_write_fails :
  shown <$> turns [0; 0; 0; 0; 0; 1; 1; 2; 2; 2; 2; 1; 1]%nat (demo_serving racing fresh_engine) =
    Some ([Some (Ok (ReplyFile (mk_LinuxFileHandle 1)));
           Some (Err (InvalidBackendResponse "writeback commit did not advance the immutable local generation"));
           Some (Ok (ReplyCount 1))], Some (staged 3 1)).
Proof. by vm_compute. Qed.
End EngineDemo.

Lemma engine_calls_acknowledged_witness : ∃ c commit,
  EngineDemo.turns [0; 0; 0; 0; 0; 1; 1; 1; 1]%nat
    (EngineDemo.demo_serving EngineDemo.calls EngineDemo.fresh_engine) = Some c ∧
  covered EngineDemo.inode (commit_snapshot commit) c.2 ∧ 1 ≤ snapshot_size (commit_snapshot commit).
Proof.
  pose proof EngineDemo.written as Hs.
  destruct (EngineDemo.turns _ _) as [[ps w]|] eqn:Hc; [|discriminate Hs]. injection Hs as Hps Hdirty.
  assert (EngineDemo.shown (ps, w) = ([Some (Ok (ReplyFile (mk_LinuxFileHandle 1))); Some (Ok (ReplyCount 1))],
    Some (EngineDemo.staged 2 1))) as Hshown by (unfold EngineDemo.shown; cbn; by rewrite Hps, Hdirty).
  destruct (engine_calls_acknowledged _ _ _ _ _ EngineDemo.ports EngineDemo.calls EngineDemo.fresh_engine ps w
    (starting_inv WritableState_default tt (Z.le_refl 0) eq_refl eq_refl) (EngineDemo.turns_steps _ _ _ Hc))
    as (_ & Hpost & _).
  destruct (Hpost 1%nat _ (EngineDemo.returned _ _ _ 1%nat _ Hshown eq_refl)) as (call & Hcall & Hp).
  injection Hcall as <-. destruct Hp as [_ [Hnil|(o & commit & _ & _ & [_ Hcov] & Hsize)]]; [discriminate Hnil|].
  exists (ps, w), commit. exact (conj eq_refl (conj Hcov Hsize)).
Defined.
